(* ===== verification/_CoqProject ===== *)
-Q . S2P
Prelude.v
MachineInt.v
IRTypes.v
Instr.v
UseCount.v
InstrBuild.v
InterpCore.v
InterpFlags.v
InterpScalar.v
InterpMemory.v
InterpVector.v
Interp.v
InterpInvariant.v
InterpRun.v
FlagProps.v
ScalarProps.v
MemoryProps.v
VectorProps.v
DeadCode.v
DeadCodeChain.v
DeadCodeSem.v
Simulation.v
BlockEdit.v
DeadCodeRun.v
HirValues.v
HirValuesProps.v
Cfg.v
CfgProps.v
HirFunction.v
HirAppend.v
HirTable.v
HirBuilder.v
HirGraph.v
HirTargets.v
HirBuilderProps.v
CfgAnalysis.v
Dominance.v
CfgWalk.v
CfgDominators.v
CfgAnalysisProps.v
Frontier.v
FrontierProps.v
RegionDecoder.v
RegionDecoderProps.v
Membership.v
FlagsElim.v
FlagWord.v
FlagReads.v
FlagSim.v
FlagsElimWalk.v
CarryRegions.v
FlagsElimRun.v
FlagsLivenessProps.v
FlagsLiveRun.v
ConstFold.v
HirExample.v
ConstFoldProps.v
DedupProps.v
RangeMap.v
RangeMapProps.v
TranslateTable.v
TranslateTableProps.v
SmcEpoch.v
SmcEpochProps.v
SmcPages.v
SmcPagesProps.v
LinkManager.v
LinkInvariant.v
LinkManagerProps.v
LinkPurge.v
LinkSignal.v
LinkSignalProps.v
LinkSignalSafe.v
LinkSignalRace.v
CodeSerial.v
JitCache.v
CodeReloc.v
FunctionEntry.v
