(* ===== verification/Prelude.v ===== *)
(** * SwiftVM: a verification development

    SwiftVM (src/source) is a dynamic binary translator.  Front ends (runtime/frontend,
    translator/x86) decode x86-64 and AArch64 guest code and build functions of an SSA-like
    intermediate representation (runtime/ir), a pipeline of passes (runtime/ir/opts) optimises them,
    and a back end executes them: the IR interpreter (runtime/backend/interp) or the JIT
    (runtime/backend/arm64).  Translated code is found by guest address in hash tables
    (runtime/backend/translate_table.h), blocks branch to each other directly (link_manager.cpp), and
    code whose guest bytes change is invalidated, and its memory reused once no thread executes
    it (smc_tracker.cpp).  This library models the IR and its construction, the interpreter, four
    passes, the discovery of regions, the lookup structures, the direct links, the tracking of
    self-modifying code, the entries of translated functions, and the units of the disk cache with
    their relocation, and proves what makes them correct.

    ** Conventions

    Machine integers are [Z] with explicit wrap-around ([wrap w], [to_signed w] of MachineInt.v).  A
    computation that can stop has type [Res A]; the errors are those of the C++ code: a failed ASSERT
    or abort ([EPanic]), undefined behaviour ([EUndefined]), an unmapped host access ([ESegv]), an
    instruction outside the model ([ENotModelled]), and [EFuel].  Stateful code is a computation of
    [ST S A] over the state it mutates: the heap of instruction objects for the IR, the machine state
    for the interpreter, the builder, the link manager.  Objects are entries of a [gmap] or positions
    of a list, so that sharing, use counts and list links are the pointers of the C++ code.  Where
    threads meet (LinkSignal, SmcEpoch, SmcPages) the model is a step relation in which every load
    and store of shared data, or every section under a lock, is one step, sequentially consistent;
    theorems hold of every reachable state.

    ** Files, and the code they model

    - Prelude: errors, the state monad, Hoare triples and the tactics [minv] (take apart a successful
      run) and [mstep] (run a known step).  MachineInt: wrapping, sign reinterpretation, shifts,
      little-endian bytes.
    - IRTypes: ir_types.h, ir_meta.cpp, ir.inc, args.h, args.cpp, and the switches of svm_config.h the
      passes read.  Instr, InstrBuild: instr.h and
      instr.cpp.  UseCount: the use-count invariant over all mutations.
    - InterpCore, InterpFlags, InterpScalar, InterpMemory, InterpVector: the files of
      runtime/backend/interp, InterpVector both the integer and the AES ones; a method
      [Interpreter::RunX] is the definition [RunX], methods that differ in one lane function or
      immediate are one definition with that parameter.  Interp: the dispatch [run_inst], the
      loop [run_block] of Interpreter::Run(), [RunTerminal].  InterpInvariant, InterpRun: the
      state invariant, with small heaps, states and blocks the examples use, and termination.  FlagProps, ScalarProps, MemoryProps, VectorProps: what the
      instructions compute.
    - HirValues, Cfg, HirFunction, HirBuilder: hir_builder.h and hir_builder.cpp, block.h and block.cpp,
      with the value table, the graph and [HIRBuilder]; HirValuesProps, HirAppend, HirTable (the
      table), CfgProps (reverse post order), HirGraph, HirTargets, HirBuilderProps (the graph and
      what the builder promises), HirExample.
    - DeadCode: deadcode_elimination_pass.cpp; DeadCodeChain, DeadCodeSem, Simulation, BlockEdit and
      DeadCodeRun relate the executions of the block before and after.
    - ConstFold, ConstFoldProps, DedupProps: const_folding_pass.cpp.
    - FlagsElim: flags_elimination_pass.cpp and flags_carry_regions.cpp; FlagWord,
      FlagReads, FlagSim, FlagsElimWalk, CarryRegions, FlagsElimRun (the pass preserves execution),
      FlagsLivenessProps, FlagsLiveRun (the analysis).
    - CfgAnalysis: cfg_analysis_pass.cpp; Dominance (paths and dominators), CfgWalk, CfgDominators,
      CfgAnalysisProps.
    - Frontier, RegionDecoder, Membership: function_decode_frontier.cpp, function_region_decoder.cpp and
      function_region_membership.cpp of translator/x86; FrontierProps, RegionDecoderProps.
    - RangeMap, RangeMapProps: range_map.h.  TranslateTable, TranslateTableProps: translate_table.h
      and the slot replay of jit_cache.cpp.
    - LinkManager: link_manager.cpp, link_manager_flags.cpp, edge_flags_state.h and the address
      arithmetic of code_cache.cpp; LinkInvariant, LinkManagerProps, LinkPurge.  LinkSignal: the
      signal handler [SignalInvalidateTarget] against the operations under the manager's mutex;
      LinkSignalProps, LinkSignalSafe, LinkSignalRace.
    - SmcEpoch: the epochs of smc_tracker.cpp ([BeginJit], [EndJit], [Retire], [ReclaimRetiredLocked])
      with the order of publication (runtime.cpp, function_entry_contract.cpp, translator.cpp), the
      dispatcher of trampolines.cpp and [Module::DetachNode]; SmcEpochProps (with the
      machine as a function of a schedule).  SmcPages: the page records of smc_tracker.cpp
      ([RegisterNode], [HandleWriteFault], [CloseWriteWindow], [InvalidateRange], [RetireNode],
      [DisableAndUnprotectAll]); SmcPagesProps.
    - CodeSerial: the serialized unit of code_serial.h with [WriteUnit] and [ReadUnit], and its format.
      CodeReloc: [ScanCodeUnit] and [ApplyRelocations] of code_serial.cpp.  JitCache: the file of
      jit_cache.cpp ([Save], [Load]) and [HashGuestRange].
    - FunctionEntry: function_entry_contract.cpp up to the publisher ([Restore], [Build], [IsWellFormed],
      [AnalyzeCanonicalTerminalEntries]).

    ** How the parts interact

    The builder makes functions whose blocks are lists of instructions in the heap; the passes
    transform that heap, and their theorems are about [run_block] or [run_inst] on the heap before and after.
    The interpreter reads the heap and changes only the machine state: slots, flags, locations,
    halt reason and host memory.  The region decoder drives the builder through its operations.  The
    liveness and control-flow analyses read the functions the builder has made ([graph_ok]).  The signal
    handler of LinkSignal runs on the state of LinkManager.  SmcPages finds the nodes to invalidate and
    reaches links, modules and code caches through the class [CodeOps]; SmcEpoch leaves open which
    nodes are collected, and models when their code may be released.  Load replays the slots of a cache file
    into a TranslateTable and reads its units with the readers of CodeSerial, which check the edge flags of
    LinkManager; ScanCodeUnit makes the relocations of a unit and ApplyRelocations uses them.  The
    entries of a function are built from the graph of the builder and the provenance of the region decoder.  Functions outside the
    repository (host calls, CPUID, mprotect) and the instruction decoder are parameters.

    ** What the theorems show

    - Interpreter: every instruction keeps the machine state well formed (run_block_state_ok); blocks whose
      labels follow their jumps terminate, with the number of instructions as bound (run_block_total).
      SaveFlags stores the NZCV of the exact sum or difference (arith_saves_flags), and after a Sub the
      sixteen conditions are the comparisons of the operands (compare_decides_conditions).  Division,
      products, rotation and bit fields against arithmetic definitions; wild guest accesses halt and
      touch nothing (guest_accesses_guarded); vectors lane by lane; the AES rounds of the decryption undo
      those of the encryption.
    - IR objects and builder: use counters are exact modulo 256 under every mutation
      (mutations_preserve_counts); the fast construction route equals the slow one; the value table and the
      graph are well formed in everything a front end can build (EraseInst_ok, builder_reachable_ok), and
      EndFunction and ComputeRPO return what the names promise.
    - Passes: dead code elimination and flags elimination preserve the execution of the block
      (dce_preserves_execution, flags_elim_preserves_execution), the flag liveness analysis ends in the
      least solution of its equations and is sound (live_in_least_fixpoint, flags_live_in_sound), folding
      preserves what the instruction computes, sharing replaces a constant by an equal one that
      reaches it.  The control-flow analysis finds the immediate dominators, frontiers and back edges.
    - Regions: the decode loop returns unless a round repeats (region_loop_returns), splits are found
      exactly (FindSplit_spec), retired groups are recorded and handed out once.
    - Lookup: the range map refines a function on addresses, the translation table a finite map; its slot indices
      are stable and [Put] is linearizable for lock-free readers.
    - Direct links: every operation keeps the indexes; after an invalidation no branch to the old code is
      left in any interleaving (no_stale_branch), the handler writes to registered sites only, is
      never stuck and terminates; branch encodings round-trip.
    - Self-modifying code: no runtime executes released memory as long as the dispatch tables were clean when the
      code was retired (qsbr_no_use_after_reclaim), a runtime in the JIT has synchronised with every earlier
      patch (patch_synced), reclamation makes progress (reclaim_progress).  While no mprotect fails, every page
      of a tracked translation is write-protected or its window is open (tracked_pages_guarded); what a
      fault and the end of a window do (HandleWriteFault_spec, CloseWriteWindow_spec: the early return
      changes nothing); registration covers the range up to the top of the address space
      (RegisterNode_covers); invalidation returns on every range below the last page
      (InvalidateRange_returns).
    - Cached translations: the reader of units accepts exactly what the writer writes of valid units
      (ReadUnit_exact) and no truncated unit (ReadUnit_truncated); a cache file round-trips with the slots of the dispatch table
      (load_saved), a file of another key is ignored (load_other_key) and no bytes make Load fail
      (load_any_file); the guest code is hashed inside its window (HashGuestRange_in_window).  Relocation
      succeeds on every unit the scanner accepts, when its runs are contiguous and disjoint and no rebased
      value needs more instructions, and each rewritten run leaves the same offset in the new image (scan_then_apply, ApplyRelocations_spec).
    - Entries: the analysis of canonical entries ends in the least solution of its rules
      (AnalyzeCanonicalTerminalEntries_spec), a built contract is well formed exactly for offsets in the
      allocation and permitted pending entries (Build_well_formed).
    - Where the code does not do what it means to, the theorem states what it does: use_count_overflow,
      dedup_drops_cast, empty_range_remaps, last_slot_and_remove, region_loop_can_hang, Record_spec,
      advance_coalesced, rewriting_leaves_dangling_use, handler_poisons_target,
      late_push_runs_reclaimed_code, late_fill_runs_reclaimed_code, InvalidateRange_hangs,
      scan_overlooks_copied_address.

    ** Bounds and fuel

    Loops that the code bounds by data take fuel, and a theorem says how much is enough: pseudo chains
    the size of the heap; probing loops the size of the table; [run_block] a parameter (run_block_total);
    dead code elimination the number of sweeps; ComputeRPO one step per edge and block (ComputeRPO_spec);
    the dominator and liveness loops by a measure of what can still change; the region loop by the blocks,
    records and roots there can be (region_loop_returns); the signal lists their storage; the page walks
    the pages of the range, the loops of CloseWriteWindow and InvalidateRange two rounds when no thread
    intervenes; the units of a cache file one per byte; the analysis of entries one round per block and
    one more.  Epochs and patch generations of SmcEpoch are unbounded; those of SmcPages wrap.

    ** Not modelled

    Floating-point and x87 instructions and SSE4.2 string comparison (they need a model of host floating
    point or forward to helpers), SHA-256 (AArch64 intrinsics); the code generators and
    register allocation, which need a semantics of the host instruction set; the instruction decoders; the passes
    integer width elimination, uniform elimination, loop-invariant hoisting and the pipeline that orders
    the passes; the remaining containers (LRU list, object pool, address hash map, slab allocator); the
    arenas of the code caches, the recording and revival of a unit around the format and the
    relocation, the modules and the runtime loop, glue around the code generators; the hashes that make the key of the
    cache file, which read the operating system; the Linux layer.
    Weak memory: the handlers and the epochs use sequentially consistent or release/acquire
    operations, which the step relations take as one order. *)

From Stdlib Require Import ZArith Lia.
From stdpp Require Import base gmap list.

(** ** Errors

    The C++ code can stop in four ways the model distinguishes: a failed
    [ASSERT] or [PANIC] (runtime/common/logging.h), behaviour the language
    leaves undefined (an out-of-range shift or array index), an access to a
    host address that is not mapped, and an instruction the development does
    not model. *)
Inductive Error : Type :=
| EPanic
| EUndefined
| ESegv
| ENotModelled
| EFuel.

#[export] Instance Error_eq_dec : EqDecision Error.
Proof. solve_decision. Defined.

(** Outcome of a computation that may stop with an [Error]. *)
Inductive Res (A : Type) : Type :=
| Ok (a : A)
| Err (e : Error).
Arguments Ok {A} a.
Arguments Err {A} e.

#[export] Instance Res_eq_dec {A} `{EqDecision A} : EqDecision (Res A).
Proof. solve_decision. Defined.

Declare Scope svm_scope.
Delimit Scope svm_scope with svm.

Definition rbind {A B} (m : Res A) (f : A -> Res B) : Res B :=
  match m with
  | Ok a => f a
  | Err e => Err e
  end.

Notation "x <-? m ; k" := (rbind m (fun x => k))
  (at level 100, m at next level, right associativity) : svm_scope.

(** ** State and error monad

    [ST S A]: a computation over a state [S] that may stop with an error. *)
Definition ST (S A : Type) : Type := S -> Res (A * S).

Definition ret {S A} (a : A) : ST S A := fun s => Ok (a, s).
Definition fail {S A} (e : Error) : ST S A := fun _ => Err e.
Definition bind {S A B} (m : ST S A) (f : A -> ST S B) : ST S B :=
  fun s => match m s with
           | Ok (a, s') => f a s'
           | Err e => Err e
           end.
Definition get {S} : ST S S := fun s => Ok (s, s).
Definition gets {S A} (f : S -> A) : ST S A := fun s => Ok (f s, s).
Definition modify {S} (f : S -> S) : ST S unit := fun s => Ok (tt, f s).
Definition lift {S A} (r : Res A) : ST S A :=
  fun s => match r with
           | Ok a => Ok (a, s)
           | Err e => Err e
           end.
Definition guard {S} (b : bool) (e : Error) : ST S unit :=
  if b then ret tt else fail e.

Notation "x <- m ;; k" := (bind m (fun x => k))
  (at level 100, m at next level, right associativity) : svm_scope.
Notation "m ;;; k" := (bind m (fun _ => k))
  (at level 100, right associativity) : svm_scope.

(** A [for] loop over a list. *)
Fixpoint for_each {S A} (f : A -> ST S unit) (l : list A) : ST S unit :=
  match l with
  | [] => ret tt
  | x :: l' => (f x;;; for_each f l')%svm
  end.

(** ** Partial-correctness triples over [ST]

    [hoare P m Q]: from a state in [P], if [m] returns, its result and final
    state are in [Q].  The rules are hints of the database [hoare], so that a
    triple about a composite computation is found by [eauto with hoare] from
    the triples of its parts. *)
Definition hoare {S A} (P : S -> Prop) (m : ST S A) (Q : A -> S -> Prop) : Prop :=
  forall s a s', P s -> m s = Ok (a, s') -> Q a s'.

Section Hoare.
Context {S : Type}.
Implicit Types P : S -> Prop.

Lemma hoare_ret {A} P (a : A) : hoare P (ret a) (fun b s => b = a /\ P s).
Proof. intros s b s' HP [= <- <-]. auto. Qed.

Lemma hoare_fail {A} P e (Q : A -> S -> Prop) : hoare P (fail e) Q.
Proof. intros s a s' _ [=]. Qed.

Lemma hoare_bind {A B} P (m : ST S A) (f : A -> ST S B) (Q : A -> S -> Prop) R :
  hoare P m Q -> (forall a, hoare (Q a) (f a) R) -> hoare P (bind m f) R.
Proof.
  intros Hm Hf s b s'' HP. unfold bind.
  destruct (m s) as [[a s']|] eqn:E; [|discriminate].
  intros E2. eapply Hf; eauto.
Qed.

Lemma hoare_weaken {A} (P P' : S -> Prop) (m : ST S A) (Q Q' : A -> S -> Prop) :
  hoare P' m Q' -> (forall s, P s -> P' s) -> (forall a s, Q' a s -> Q a s) -> hoare P m Q.
Proof. intros H HP HQ s a s' Hs E. eapply HQ, H; eauto. Qed.

Lemma hoare_lift {A} P (r : Res A) : hoare P (lift r) (fun a s => r = Ok a /\ P s).
Proof. intros s a s' HP. unfold lift. destruct r; intros [= <- <-]; auto. Qed.

Lemma hoare_get P : hoare P get (fun a s => a = s /\ P s).
Proof. intros s a s' HP [= <- <-]. auto. Qed.

Lemma hoare_guard P b e : hoare P (guard b e) (fun _ s => b = true /\ P s).
Proof. intros s a s' HP. unfold guard. destruct b; intros [=]; subst; auto. Qed.

Lemma hoare_if {A} P (b : bool) (m1 m2 : ST S A) Q :
  hoare P m1 Q -> hoare P m2 Q -> hoare P (if b then m1 else m2) Q.
Proof. destruct b; auto. Qed.

Lemma hoare_pull {A} (X : Prop) P (m : ST S A) Q :
  (X -> hoare P m Q) -> hoare (fun s => X /\ P s) m Q.
Proof. intros H s a s' [HX HP]. by apply H. Qed.

Lemma hoare_pre_ex {A B} (P : B -> S -> Prop) (m : ST S A) Q :
  (forall b, hoare (P b) m Q) -> hoare (fun s => exists b, P b s) m Q.
Proof. intros H s a s' [b HP]. by eapply H. Qed.

Lemma hoare_modify P (f : S -> S) (Q : unit -> S -> Prop) : (forall s, P s -> Q tt (f s)) -> hoare P (modify f) Q.
Proof. intros H s [] s' HP [= <-]. auto. Qed.

Lemma hoare_for_each {A} P (f : A -> ST S unit) (l : list A) :
  (forall x, x ∈ l -> hoare P (f x) (fun _ => P)) -> hoare P (for_each f l) (fun _ => P).
Proof.
  induction l as [|x l IH]; intros Hf; simpl.
  - intros s [] s' HP [= <-]. done.
  - eapply hoare_bind; [apply Hf; left|]. intros []. apply IH. intros y Hy. apply Hf. by right.
Qed.
End Hoare.

(** ** Case analysis tactics *)

(** Destruct the scrutinee of the first [match] on an outcome in [H]. *)
Ltac inv_ok H :=
  match type of H with
  | context [match ?x with Ok _ => _ | Err _ => _ end] =>
      let E := fresh "E" in destruct x eqn:E; [|discriminate H]
  end.

Lemma rbind_ok {A B} (m : Res A) (f : A -> Res B) b :
  rbind m f = Ok b -> exists a, m = Ok a /\ f a = Ok b.
Proof. destruct m; simpl; [eauto|discriminate]. Qed.

Lemma bind_ok {S A B} (m : ST S A) (f : A -> ST S B) s b s'' :
  bind m f s = Ok (b, s'') -> exists a s', m s = Ok (a, s') /\ f a s' = Ok (b, s'').
Proof. unfold bind. destruct (m s) as [[a s']|]; [eauto|discriminate]. Qed.

Lemma lift_ok {S A} (r : Res A) (s : S) a s' : lift r s = Ok (a, s') -> r = Ok a /\ s' = s.
Proof. unfold lift. destruct r; intros [= <- <-]; auto. Qed.

Lemma guard_ok {S} b e (s : S) u s' : guard b e s = Ok (u, s') -> b = true /\ s' = s.
Proof. destruct b; [|done]. by intros [= _ <-]. Qed.

(** Step through the binds of a hypothesis [_ = Ok _]. *)
Ltac minv H :=
  lazymatch type of H with
  | rbind _ _ = Ok _ =>
      let x := fresh "x" in let H1 := fresh "H" in
      apply rbind_ok in H; destruct H as (x & H1 & H); minv H1; minv H
  | bind _ _ _ = Ok _ =>
      let x := fresh "x" in let s := fresh "s" in let H1 := fresh "H" in
      apply bind_ok in H; destruct H as (x & s & H1 & H); minv H1; minv H
  | lift _ _ = Ok _ =>
      let H1 := fresh "H" in apply lift_ok in H; destruct H as [H H1]; subst; minv H
  | Ok _ = Ok _ => injection H as H; subst
  | ret _ _ = Ok _ => unfold ret in H; injection H as H; subst
  | get _ = Ok _ => unfold get in H; injection H as H; subst
  | gets _ _ = Ok _ => unfold gets in H; injection H as H; subst
  | modify _ _ = Ok _ => unfold modify in H; injection H as H; subst
  | fail _ _ = Ok _ => discriminate H
  | Err _ = Ok _ => discriminate H
  | _ => idtac
  end.

(** Running a computation whose first step is known, and the tactic that runs
    every step the context or computation settles. *)
Lemma bind_run {S A B} (m : ST S A) (f : A -> ST S B) s a s' :
  m s = Ok (a, s') -> bind m f s = f a s'.
Proof. unfold bind. by intros ->. Qed.

Lemma lift_run {S A} (r : Res A) (s : S) a : r = Ok a -> lift r s = Ok (a, s).
Proof. by intros ->. Qed.

Lemma rbind_run {A B} (m : Res A) (f : A -> Res B) a : m = Ok a -> rbind m f = f a.
Proof. by intros ->. Qed.

Lemma bind_fail {S A B} (m : ST S A) (f : A -> ST S B) s e :
  m s = Err e -> bind m f s = Err e.
Proof. unfold bind. by intros ->. Qed.

Ltac mstep :=
  lazymatch goal with
  | |- bind (lift _) _ _ = _ =>
      erewrite bind_run by (apply lift_run; first [eassumption | reflexivity])
  | |- bind get _ _ = _ => erewrite bind_run by reflexivity
  | |- bind (gets _) _ _ = _ => erewrite bind_run by reflexivity
  | |- bind (modify _) _ _ = _ => erewrite bind_run by reflexivity
  | |- bind (ret _) _ _ = _ => erewrite bind_run by reflexivity
  | |- bind _ _ _ = _ => erewrite bind_run by eassumption
  | |- rbind _ _ = _ => erewrite rbind_run by first [eassumption | reflexivity]
  end; cbv beta.
