(* ===== verification/MachineInt.v ===== *)
(** * Machine integers

    The C++ sources compute with [u8] ... [u64], [s64] and
    [unsigned __int128].  A [w]-bit unsigned integer is a [Z] in [0, 2^w);
    [wrap w] is the conversion to that range, [to_signed w] reads a [w]-bit
    pattern as two's complement.  Shifts whose amount reaches the width are
    undefined in C++ and are the error [EUndefined] here.  The second half of
    the file is the little-endian byte view that [std::memcpy] exposes. *)

From Stdlib Require Import ZArith Lia.
From stdpp Require Import numbers base list.
From S2P Require Import Prelude.

Local Open Scope Z_scope.

Definition wrap (w x : Z) : Z := x mod 2 ^ w.

Definition to_signed (w x : Z) : Z :=
  let y := wrap w x in
  if y <? 2 ^ (w - 1) then y else y - 2 ^ w.

(** [u64] arithmetic. *)
Definition add64 (a b : Z) : Z := wrap 64 (a + b).
Definition sub64 (a b : Z) : Z := wrap 64 (a - b).
Definition mul64 (a b : Z) : Z := wrap 64 (a * b).
Definition not64 (a : Z) : Z := wrap 64 (Z.lnot a).
Definition shl64 (a n : Z) : Z := wrap 64 (Z.shiftl a n).
Definition bit64 (n : Z) : Z := 2 ^ n.

(** [a << n] and [a >> n] on [u64]; the amount must be below 64. *)
Definition shl64c (a n : Z) : Res Z :=
  if (0 <=? n) && (n <? 64) then Ok (shl64 a n) else Err EUndefined.
Definition shr64c (a n : Z) : Res Z :=
  if (0 <=? n) && (n <? 64) then Ok (Z.shiftr a n) else Err EUndefined.

Definition bool_z (b : bool) : Z := if b then 1 else 0.

(** ** Ranges and wrap-around *)

Lemma pow2_pos w : 0 <= w -> 0 < 2 ^ w.
Proof. intros. apply Z.pow_pos_nonneg; lia. Qed.

Lemma wrap_range w x : 0 <= w -> 0 <= wrap w x < 2 ^ w.
Proof. intros H. apply Z.mod_pos_bound, pow2_pos, H. Qed.

Lemma wrap_small w x : 0 <= x < 2 ^ w -> wrap w x = x.
Proof. apply Z.mod_small. Qed.

Lemma pow2_split v w : 0 <= v <= w -> 2 ^ w = 2 ^ v * 2 ^ (w - v).
Proof. intros. rewrite <- Z.pow_add_r by lia. f_equal. lia. Qed.

Lemma wrap_wrap v w x : 0 <= v <= w -> wrap v (wrap w x) = wrap v x.
Proof.
  intros H. unfold wrap. rewrite (pow2_split v w H).
  pose proof (pow2_pos v). pose proof (pow2_pos (w - v)).
  rewrite Z.rem_mul_r by lia.
  rewrite Z.mul_comm, Z.mod_add by lia. apply Z.mod_mod. lia.
Qed.

Lemma wrap_add_l v w x y : 0 <= v <= w -> wrap v (wrap w x + y) = wrap v (x + y).
Proof.
  intros H. pose proof (pow2_pos v). unfold wrap at 1 3.
  rewrite <- Zplus_mod_idemp_l. fold (wrap v (wrap w x)).
  rewrite (wrap_wrap v w x H). unfold wrap. apply Zplus_mod_idemp_l.
Qed.

Lemma wrap_add_r v w x y : 0 <= v <= w -> wrap v (x + wrap w y) = wrap v (x + y).
Proof. intros. rewrite !(Z.add_comm x). by apply wrap_add_l. Qed.

Lemma wrap_opp v w x : 0 <= v <= w -> wrap v (- wrap w x) = wrap v (- x).
Proof.
  intros H. pose proof (pow2_pos v ltac:(lia)) as Hp.
  unfold wrap at 1 3. rewrite <- (Z.sub_0_l (wrap w x)), <- (Z.sub_0_l x).
  rewrite <- (Zminus_mod_idemp_r 0 (wrap w x)), <- (Zminus_mod_idemp_r 0 x).
  fold (wrap v (wrap w x)) (wrap v x). by rewrite wrap_wrap.
Qed.

Lemma wrap_sub_l v w x y : 0 <= v <= w -> wrap v (wrap w x - y) = wrap v (x - y).
Proof. intros. unfold Z.sub. by apply wrap_add_l. Qed.

Lemma wrap_sub_r v w x y : 0 <= v <= w -> wrap v (x - wrap w y) = wrap v (x - y).
Proof.
  intros H. unfold wrap at 1 3. rewrite <- (Zminus_mod_idemp_r x (wrap w y)).
  fold (wrap v (wrap w y)). rewrite wrap_wrap by done.
  unfold wrap. apply Zminus_mod_idemp_r.
Qed.

Lemma wrap_mul_l v w x y : 0 <= v <= w -> wrap v (wrap w x * y) = wrap v (x * y).
Proof.
  intros H. unfold wrap at 1 3. rewrite <- Zmult_mod_idemp_l.
  fold (wrap v (wrap w x)). rewrite wrap_wrap by done.
  unfold wrap. apply Zmult_mod_idemp_l.
Qed.

Lemma wrap_mul_r v w x y : 0 <= v <= w -> wrap v (x * wrap w y) = wrap v (x * y).
Proof. intros. rewrite !(Z.mul_comm x). by apply wrap_mul_l. Qed.

Lemma wrap_idemp w x : 0 <= w -> wrap w (wrap w x) = wrap w x.
Proof. intros. apply wrap_wrap. lia. Qed.

Lemma wrap_wrap_le v w x : 0 <= v <= w -> wrap w (wrap v x) = wrap v x.
Proof.
  intros H. apply wrap_small. pose proof (wrap_range v x ltac:(lia)).
  assert (2 ^ v <= 2 ^ w) by (apply Z.pow_le_mono_r; lia). lia.
Qed.

Lemma wrap_cong w x k : wrap w (x + k * 2 ^ w) = wrap w x.
Proof.
  unfold wrap. destruct (decide (2 ^ w = 0)) as [E|E].
  - rewrite E, Z.mul_0_r. by rewrite Z.add_0_r.
  - by apply Z.mod_add.
Qed.

Lemma wrap_eq_sub w x : 0 <= w -> exists k, wrap w x = x - k * 2 ^ w.
Proof.
  intros H. exists (x / 2 ^ w). unfold wrap.
  pose proof (pow2_pos w H). rewrite Z.mod_eq by lia. lia.
Qed.

(** ** Bits *)

Lemma wrap_land_ones w x : 0 <= w -> Z.land x (Z.ones w) = wrap w x.
Proof. apply Z.land_ones. Qed.

Lemma testbit_wrap w x i :
  0 <= w -> 0 <= i -> Z.testbit (wrap w x) i = (i <? w) && Z.testbit x i.
Proof.
  intros Hw Hi. rewrite <- wrap_land_ones, Z.land_spec by done.
  rewrite Z.testbit_ones_nonneg by done. by rewrite andb_comm.
Qed.

Lemma testbit_above w x i : 0 <= x < 2 ^ w -> w <= i -> Z.testbit x i = false.
Proof.
  intros Hx Hi. destruct (decide (x = 0)) as [->|Hnz]; [apply Z.bits_0|].
  apply Z.bits_above_log2; [lia|].
  apply (Z.lt_le_trans _ w); [|done]. apply Z.log2_lt_pow2; lia.
Qed.

Lemma bits_bounded_ext w x y :
  0 <= w -> 0 <= x < 2 ^ w -> 0 <= y < 2 ^ w ->
  (forall i, 0 <= i < w -> Z.testbit x i = Z.testbit y i) -> x = y.
Proof.
  intros Hw Hx Hy H. apply Z.bits_inj'. intros i Hi.
  destruct (decide (i < w)); [by apply H; lia|].
  by rewrite !(testbit_above w) by lia.
Qed.

Lemma bits_range w x :
  0 <= w -> 0 <= x -> (forall i, w <= i -> Z.testbit x i = false) -> x < 2 ^ w.
Proof.
  intros Hw Hx H. destruct (decide (x < 2 ^ w)) as [|Hge]; [done|exfalso].
  assert (2 ^ w <= x) as Hle by lia.
  pose proof (pow2_pos w Hw).
  assert (w <= Z.log2 x) as Hl by (apply Z.log2_le_pow2; lia).
  specialize (H _ Hl). rewrite Z.bit_log2 in H by lia. done.
Qed.

Lemma land_range w x y : 0 <= w -> 0 <= x < 2 ^ w -> 0 <= y -> 0 <= Z.land x y < 2 ^ w.
Proof.
  intros Hw Hx Hy. split; [apply Z.land_nonneg; lia|].
  apply bits_range; [done|apply Z.land_nonneg; lia|].
  intros i Hi. by rewrite Z.land_spec, (testbit_above w x).
Qed.

Lemma lor_range w x y : 0 <= w -> 0 <= x < 2 ^ w -> 0 <= y < 2 ^ w -> 0 <= Z.lor x y < 2 ^ w.
Proof.
  intros Hw Hx Hy. split; [apply Z.lor_nonneg; lia|].
  apply bits_range; [done|apply Z.lor_nonneg; lia|].
  intros i Hi. by rewrite Z.lor_spec, (testbit_above w x), (testbit_above w y).
Qed.

Lemma lxor_range w x y : 0 <= w -> 0 <= x < 2 ^ w -> 0 <= y < 2 ^ w -> 0 <= Z.lxor x y < 2 ^ w.
Proof.
  intros Hw Hx Hy. split; [apply Z.lxor_nonneg; lia|].
  apply bits_range; [done|apply Z.lxor_nonneg; lia|].
  intros i Hi. by rewrite Z.lxor_spec, (testbit_above w x), (testbit_above w y).
Qed.

Lemma shiftr_range w x n : 0 <= w -> 0 <= n -> 0 <= x < 2 ^ w -> 0 <= Z.shiftr x n < 2 ^ w.
Proof.
  intros Hw Hn Hx. rewrite Z.shiftr_div_pow2 by done.
  pose proof (pow2_pos n Hn). split; [apply Z.div_pos; lia|].
  apply Z.div_lt_upper_bound; nia.
Qed.

Lemma shiftr_range_sub w x n :
  0 <= n <= w -> 0 <= x < 2 ^ w -> 0 <= Z.shiftr x n < 2 ^ (w - n).
Proof.
  intros Hn Hx. rewrite Z.shiftr_div_pow2 by lia.
  pose proof (pow2_pos n ltac:(lia)). split; [apply Z.div_pos; lia|].
  apply Z.div_lt_upper_bound; [lia|]. rewrite <- pow2_split; lia.
Qed.

(** The top bit decides the sign. *)
(** Concatenation of a high and a low part. *)
Lemma land_shiftl_low w hi lo : 0 <= w -> 0 <= lo < 2 ^ w -> Z.land (Z.shiftl hi w) lo = 0.
Proof.
  intros Hw Hlo. apply Z.bits_inj'. intros i Hi. rewrite Z.land_spec, Z.shiftl_spec, Z.bits_0 by lia.
  destruct (decide (i < w)); [by rewrite Z.testbit_neg_r by lia|].
  by rewrite (testbit_above w lo i), andb_false_r by lia.
Qed.

Lemma lor_shiftl_add w hi lo :
  0 <= w -> 0 <= lo < 2 ^ w -> Z.lor (Z.shiftl hi w) lo = hi * 2 ^ w + lo.
Proof.
  intros Hw Hlo. pose proof (Z.add_lor_land (Z.shiftl hi w) lo) as H.
  rewrite land_shiftl_low, Z.shiftl_mul_pow2 in * by lia. lia.
Qed.

Lemma testbit_top w x : 0 < w -> 0 <= x < 2 ^ w -> Z.testbit x (w - 1) = (2 ^ (w - 1) <=? x).
Proof.
  intros Hw Hx. rewrite Z.testbit_eqb by lia.
  assert (2 ^ w = 2 * 2 ^ (w - 1)) as E by (rewrite <- Z.pow_succ_r by lia; f_equal; lia).
  pose proof (pow2_pos (w - 1) ltac:(lia)) as Hp.
  destruct (Z.leb_spec (2 ^ (w - 1)) x).
  - assert (x / 2 ^ (w - 1) = 1) as ->; [|done].
    symmetry. apply (Z.div_unique x _ _ (x - 2 ^ (w - 1))); lia.
  - by rewrite Z.div_small by lia.
Qed.

(** ** Two's complement *)

Lemma to_signed_range w x :
  0 < w -> - 2 ^ (w - 1) <= to_signed w x < 2 ^ (w - 1).
Proof.
  intros Hw. unfold to_signed.
  assert (2 ^ w = 2 * 2 ^ (w - 1)) as E by (rewrite <- Z.pow_succ_r by lia; f_equal; lia).
  pose proof (wrap_range w x ltac:(lia)).
  destruct (Z.ltb_spec (wrap w x) (2 ^ (w - 1))); lia.
Qed.

Lemma wrap_to_signed w x : 0 <= w -> wrap w (to_signed w x) = wrap w x.
Proof.
  intros Hw. unfold to_signed. destruct (_ <? _); [by apply wrap_idemp|].
  replace (wrap w x - 2 ^ w) with (wrap w x + (-1) * 2 ^ w) by lia.
  rewrite wrap_cong. by apply wrap_idemp.
Qed.

Lemma to_signed_wrap v w x : 0 <= v <= w -> to_signed v (wrap w x) = to_signed v x.
Proof. intros H. unfold to_signed. by rewrite wrap_wrap. Qed.

Lemma to_signed_small w x :
  0 < w -> - 2 ^ (w - 1) <= x < 2 ^ (w - 1) -> to_signed w x = x.
Proof.
  intros Hw Hx. unfold to_signed.
  assert (2 ^ w = 2 * 2 ^ (w - 1)) as E by (rewrite <- Z.pow_succ_r by lia; f_equal; lia).
  destruct (decide (0 <= x)).
  - rewrite wrap_small by lia. destruct (Z.ltb_spec x (2 ^ (w - 1))); lia.
  - assert (wrap w x = x + 2 ^ w) as ->.
    { rewrite <- (wrap_small w (x + 2 ^ w)) by lia.
      replace (x + 2 ^ w) with (x + 1 * 2 ^ w) by lia. by rewrite wrap_cong. }
    destruct (Z.ltb_spec (x + 2 ^ w) (2 ^ (w - 1))); lia.
Qed.

Lemma to_signed_to_signed w x : 0 < w -> to_signed w (to_signed w x) = to_signed w x.
Proof. intros Hw. apply to_signed_small; [done|]. by apply to_signed_range. Qed.

Lemma to_signed_sign w x :
  0 < w -> 0 <= x < 2 ^ w -> (to_signed w x <? 0) = Z.testbit x (w - 1).
Proof.
  intros Hw Hx. rewrite testbit_top by done. unfold to_signed. rewrite wrap_small by done.
  destruct (Z.ltb_spec x (2 ^ (w - 1))), (Z.leb_spec (2 ^ (w - 1)) x); lia.
Qed.

Lemma to_signed_inj w x y :
  0 <= w -> 0 <= x < 2 ^ w -> 0 <= y < 2 ^ w -> to_signed w x = to_signed w y -> x = y.
Proof.
  intros Hw Hx Hy E. rewrite <- (wrap_small w x), <- (wrap_small w y) by done.
  rewrite <- (wrap_to_signed w x), <- (wrap_to_signed w y) by done. by rewrite E.
Qed.

(** ** Little-endian bytes

    [std::memcpy] between an integer and memory, on a little-endian host:
    byte [i] is bits [8i .. 8i+7]. *)

Fixpoint le_bytes (n : nat) (v : Z) : list Z :=
  match n with
  | O => []
  | S n' => wrap 8 v :: le_bytes n' (Z.shiftr v 8)
  end.

Fixpoint le_value (bs : list Z) : Z :=
  match bs with
  | [] => 0
  | b :: bs' => b + 256 * le_value bs'
  end.

Definition is_byte (b : Z) : Prop := 0 <= b < 256.

Lemma length_le_bytes n v : length (le_bytes n v) = n.
Proof. revert v. induction n; intros; simpl; auto. Qed.

Lemma le_bytes_Forall n v : Forall is_byte (le_bytes n v).
Proof.
  revert v. induction n; intros; simpl; constructor; [|apply IHn].
  by apply (wrap_range 8).
Qed.

(** Writing the low [n] bytes and reading them back truncates to [8 * n] bits. *)
Lemma le_value_le_bytes n v : le_value (le_bytes n v) = wrap (8 * Z.of_nat n) v.
Proof.
  revert v. induction n as [|n IH]; intros v.
  - simpl. unfold wrap. by rewrite Z.mod_1_r.
  - cbn [le_bytes le_value]. rewrite IH, Z.shiftr_div_pow2 by lia.
    replace (8 * Z.of_nat (S n)) with (8 + 8 * Z.of_nat n) by lia.
    unfold wrap. rewrite Z.pow_add_r by lia.
    pose proof (pow2_pos (8 * Z.of_nat n) ltac:(lia)).
    rewrite Z.rem_mul_r by lia. done.
Qed.

Lemma le_value_range bs : Forall is_byte bs -> 0 <= le_value bs < 2 ^ (8 * Z.of_nat (length bs)).
Proof.
  induction 1 as [|b bs Hb _ IH]; cbn [le_value length]; [lia|].
  replace (8 * Z.of_nat (S (length bs))) with (8 + 8 * Z.of_nat (length bs)) by lia.
  rewrite Z.pow_add_r by lia. change (2 ^ 8) with 256. unfold is_byte in Hb. lia.
Qed.

Lemma le_bytes_le_value bs : Forall is_byte bs -> le_bytes (length bs) (le_value bs) = bs.
Proof.
  induction 1 as [|b bs Hb _ IH]; cbn [le_value length le_bytes]; [done|].
  unfold is_byte in Hb. f_equal.
  - unfold wrap. change (2 ^ 8) with 256. rewrite Z.mul_comm, Z.mod_add by lia.
    by apply Z.mod_small.
  - rewrite Z.shiftr_div_pow2 by lia. change (2 ^ 8) with 256.
    rewrite Z.mul_comm, Z.div_add, Z.div_small by lia. exact IH.
Qed.

Lemma le_bytes_wrap n w v : 8 * Z.of_nat n <= w -> le_bytes n (wrap w v) = le_bytes n v.
Proof.
  intros H. rewrite <- (le_bytes_le_value (le_bytes n (wrap w v))) by apply le_bytes_Forall.
  rewrite <- (le_bytes_le_value (le_bytes n v)) by apply le_bytes_Forall.
  rewrite !length_le_bytes, !le_value_le_bytes. by rewrite wrap_wrap by lia.
Qed.

(** ** Automation

    [wrap_simpl] removes the inner conversions that an outer conversion makes
    redundant; [zrange] closes range side conditions. *)
Create HintDb zrange.
#[export] Hint Resolve wrap_range land_range lor_range lxor_range shiftr_range : zrange.
#[export] Hint Extern 2 (_ <= _)%Z => lia : zrange.
#[export] Hint Extern 2 (_ < _)%Z => lia : zrange.

Ltac zrange := eauto with zrange.

Ltac wrap_simpl :=
  unfold add64, sub64, mul64 in *;
  repeat first
    [ rewrite wrap_wrap by lia
    | rewrite wrap_add_l by lia
    | rewrite wrap_add_r by lia
    | rewrite wrap_sub_l by lia
    | rewrite wrap_sub_r by lia
    | rewrite wrap_mul_l by lia
    | rewrite wrap_mul_r by lia ].
