(* ===== verification/IRTypes.v ===== *)
(** * IR types, opcodes and arguments

    Model of runtime/ir/ir_types.h, ir_meta.h, ir_meta.cpp, opcodes.h, ir.inc
    and args.h / args.cpp: the value types, the opcode table with its
    signatures, immediates, operands and the tagged [Lambda] encoding.  An
    enumerator [E::X] of the C++ code is the constructor [E_X].  At the end, the members of
    [FeatureSet] (runtime/common/svm_config.h) that the modelled passes read. *)

From Stdlib Require Import ZArith Lia.
From stdpp Require Import numbers base gmap list.
From S2P Require Import Prelude MachineInt.

Local Open Scope Z_scope.

(** ** Value types *)

Inductive ValueType : Set :=
| ValueType_VOID
| ValueType_U8 | ValueType_U16 | ValueType_U32 | ValueType_U64
| ValueType_S8 | ValueType_S16 | ValueType_S32 | ValueType_S64
| ValueType_V8 | ValueType_V16 | ValueType_V32 | ValueType_V64
| ValueType_V128 | ValueType_V256.

#[export] Instance ValueType_eq_dec : EqDecision ValueType.
Proof. solve_decision. Defined.

(** The underlying [u8] of the enumeration. *)
Definition vt_index (t : ValueType) : Z :=
  match t with
  | ValueType_VOID => 0
  | ValueType_U8 => 1 | ValueType_U16 => 2 | ValueType_U32 => 3 | ValueType_U64 => 4
  | ValueType_S8 => 5 | ValueType_S16 => 6 | ValueType_S32 => 7 | ValueType_S64 => 8
  | ValueType_V8 => 9 | ValueType_V16 => 10 | ValueType_V32 => 11 | ValueType_V64 => 12
  | ValueType_V128 => 13 | ValueType_V256 => 14
  end.

Definition vt_between (lo t hi : ValueType) : bool :=
  (vt_index lo <=? vt_index t) && (vt_index t <=? vt_index hi).

Definition GetValueSizePow (t : ValueType) : Res Z :=
  if vt_between ValueType_U8 t ValueType_U64 then Ok (vt_index t - vt_index ValueType_U8)
  else if vt_between ValueType_S8 t ValueType_S64 then Ok (vt_index t - vt_index ValueType_S8)
  else if vt_between ValueType_V8 t ValueType_V256 then Ok (vt_index t - vt_index ValueType_V8)
  else Err EPanic.

Local Open Scope svm_scope.

Definition GetValueSizeByte (t : ValueType) : Res Z :=
  p <-? GetValueSizePow t; Ok (wrap 8 (2 ^ p)).

Definition GetIRValueType (size_byte : Z) : ValueType :=
  if size_byte =? 1 then ValueType_U8
  else if size_byte =? 2 then ValueType_U16
  else if size_byte =? 4 then ValueType_U32
  else if size_byte =? 8 then ValueType_U64
  else ValueType_VOID.

Definition GetVecIRValueType (size_byte : Z) : ValueType :=
  if size_byte =? 1 then ValueType_V8
  else if size_byte =? 2 then ValueType_V16
  else if size_byte =? 4 then ValueType_V32
  else if size_byte =? 8 then ValueType_V64
  else if size_byte =? 16 then ValueType_V128
  else if size_byte =? 32 then ValueType_V256
  else ValueType_VOID.

Definition GetSignedIRValueType (size_byte : Z) : ValueType :=
  if size_byte =? 1 then ValueType_S8
  else if size_byte =? 2 then ValueType_S16
  else if size_byte =? 4 then ValueType_S32
  else if size_byte =? 8 then ValueType_S64
  else ValueType_VOID.

Definition IsFloatValueType (t : ValueType) : bool := vt_between ValueType_V8 t ValueType_V256.

Definition IsSignValueType (t : ValueType) : bool := vt_between ValueType_S8 t ValueType_S64.

(** ** Argument types *)

Inductive ArgType : Set :=
| ArgType_Void | ArgType_Value | ArgType_Imm | ArgType_Uniform | ArgType_Local
| ArgType_Cond | ArgType_Flags | ArgType_Operand | ArgType_Lambda | ArgType_Params.

#[export] Instance ArgType_eq_dec : EqDecision ArgType.
Proof. solve_decision. Defined.

Definition PhysicalSlots (t : ArgType) : Z :=
  if decide (t = ArgType_Operand) then 3 else 1.

(** ** Opcodes and their signatures (ir.inc) *)

Inductive OpCode : Set :=
| OpCode_Void
| OpCode_DefineLocal | OpCode_LoadLocal | OpCode_StoreLocal | OpCode_LoadUniform
| OpCode_StoreUniform | OpCode_GetUniformAddress | OpCode_X87Op | OpCode_LoadMemory
| OpCode_StoreMemory | OpCode_LoadMemoryTSO | OpCode_StoreMemoryTSO | OpCode_MemoryCopy
| OpCode_MemoryCopyTSO | OpCode_MemoryBarrierTSO | OpCode_CompareAndSwap
| OpCode_CompareAndSwap128 | OpCode_CheckMemoryAlignment | OpCode_AtomicExchange
| OpCode_AtomicFetchAdd | OpCode_AtomicRMW | OpCode_UniformBarrier | OpCode_Goto
| OpCode_NotGoto | OpCode_Select | OpCode_SelectZero | OpCode_CondSelect | OpCode_BindLabel
| OpCode_CallLambda | OpCode_Sse42Str | OpCode_CallLocation | OpCode_CallDynamic
| OpCode_AddPhi | OpCode_Nop | OpCode_AdvancePC | OpCode_SetLocation | OpCode_GetLocation
| OpCode_Zero | OpCode_GetHostGPR | OpCode_GetHostFPR | OpCode_SetHostGPR
| OpCode_SetHostFPR | OpCode_BitCast | OpCode_GetOperand | OpCode_GetResult | OpCode_LoadImm
| OpCode_PushRSB | OpCode_CallReturn | OpCode_PopRSB | OpCode_Add | OpCode_Sub | OpCode_Adc
| OpCode_Sbb | OpCode_Mul | OpCode_MulSub | OpCode_Div | OpCode_SignedDiv64 | OpCode_Div128
| OpCode_Div128Remainder | OpCode_Cpuid | OpCode_CpuidUpper | OpCode_ZeroExtend32
| OpCode_ZeroExtend32To64 | OpCode_ZeroExtend64 | OpCode_SignExtend | OpCode_And | OpCode_Or
| OpCode_Xor | OpCode_Not | OpCode_AndNot | OpCode_GetFlags | OpCode_SaveFlags
| OpCode_BranchOnlyFlags | OpCode_TestFlags | OpCode_TestNotFlags | OpCode_ClearFlags
| OpCode_SetCarry | OpCode_SetOverflow | OpCode_InvertCarry | OpCode_PublishFCmpFlags
| OpCode_PublishSse42StrFlags | OpCode_LslImm | OpCode_LslValue | OpCode_LsrImm
| OpCode_LsrValue | OpCode_AsrImm | OpCode_AsrValue | OpCode_RorImm | OpCode_RorValue
| OpCode_ByteSwap | OpCode_CountLeadingZeros64 | OpCode_CountTrailingZeros64
| OpCode_CountLeadingZeros32 | OpCode_CountTrailingZeros32 | OpCode_BitExtract
| OpCode_BitInsert | OpCode_BitClear | OpCode_TestBit | OpCode_TestZero | OpCode_TestNotZero
| OpCode_Vec4Add | OpCode_Vec4Sub | OpCode_Vec4Mul | OpCode_Vec4And | OpCode_Vec4Or
| OpCode_VecXor | OpCode_VecAnd | OpCode_VecOr | OpCode_VecAndNot | OpCode_VecAdd
| OpCode_VecSub | OpCode_VecCmpEq | OpCode_VecCmpGt | OpCode_VecAvg | OpCode_VecMin
| OpCode_VecMax | OpCode_VecMul | OpCode_VecMulHigh16 | OpCode_VecMulWiden
| OpCode_VecSatAdd | OpCode_VecSatSub | OpCode_VecPack | OpCode_VecAbsDiffSum8
| OpCode_VecMadd16 | OpCode_VecShiftLeft | OpCode_VecShiftRight
| OpCode_VecShiftRightArithmetic | OpCode_VecShiftLeftImm | OpCode_VecShiftRightImm
| OpCode_VecShiftRightArithmeticImm | OpCode_VecByteShift | OpCode_VecShuffle32
| OpCode_VecShuffle32TwoSrc | OpCode_VecLoadConst | OpCode_VecShuffle32Indexed
| OpCode_VecSharedZero | OpCode_VecShuffle16 | OpCode_VecExtractBytes | OpCode_VecZip
| OpCode_VecDupPairs32 | OpCode_VecDup64 | OpCode_VecExtract64 | OpCode_VecExtract16
| OpCode_VecInsert16 | OpCode_VecMovMask | OpCode_VecTableLookup8 | OpCode_VecAesEnc
| OpCode_VecAesEncLast | OpCode_VecAesDec | OpCode_VecAesDecLast | OpCode_VecAesEncFast
| OpCode_VecAesEncLastFast | OpCode_VecAesDecFast | OpCode_VecAesDecLastFast
| OpCode_VecAesKeygenAssist | OpCode_VecPclMul | OpCode_VecSha256Msg1 | OpCode_VecSha256Msg2
| OpCode_VecSha256Rnds2 | OpCode_VecFAddScalar32 | OpCode_VecFSubScalar32
| OpCode_VecFMulScalar32 | OpCode_VecFDivScalar32 | OpCode_VecFAddScalar64
| OpCode_VecFSubScalar64 | OpCode_VecFMulScalar64 | OpCode_VecFDivScalar64 | OpCode_VecFAdd
| OpCode_VecFSub | OpCode_VecFMul | OpCode_VecFDiv | OpCode_VecFMinMax | OpCode_VecFUnary
| OpCode_VecFCmp | OpCode_VecFCmpMask | OpCode_VecFCvtIntToFloat | OpCode_VecFCvtFloatToInt
| OpCode_VecFCvtScalar | OpCode_VecFCvtPacked | OpCode_VecUnzip | OpCode_VecFMulAdd
| OpCode_VecFRoundInt | OpCode_MulHigh | OpCode_CondSet | OpCode_LocalCondSet
| OpCode_LocalParitySet | OpCode_BranchOnlyEdges | OpCode_FCmpCondSet | OpCode_Neg.

(** The underlying [u8] of [enum class OpCode]. *)
Definition op_index (op : OpCode) : Z :=
  match op with
  | OpCode_Void => 0
  | OpCode_DefineLocal => 1 | OpCode_LoadLocal => 2 | OpCode_StoreLocal => 3
  | OpCode_LoadUniform => 4 | OpCode_StoreUniform => 5 | OpCode_GetUniformAddress => 6
  | OpCode_X87Op => 7 | OpCode_LoadMemory => 8 | OpCode_StoreMemory => 9
  | OpCode_LoadMemoryTSO => 10 | OpCode_StoreMemoryTSO => 11 | OpCode_MemoryCopy => 12
  | OpCode_MemoryCopyTSO => 13 | OpCode_MemoryBarrierTSO => 14 | OpCode_CompareAndSwap => 15
  | OpCode_CompareAndSwap128 => 16 | OpCode_CheckMemoryAlignment => 17
  | OpCode_AtomicExchange => 18 | OpCode_AtomicFetchAdd => 19 | OpCode_AtomicRMW => 20
  | OpCode_UniformBarrier => 21 | OpCode_Goto => 22 | OpCode_NotGoto => 23
  | OpCode_Select => 24 | OpCode_SelectZero => 25 | OpCode_CondSelect => 26
  | OpCode_BindLabel => 27 | OpCode_CallLambda => 28 | OpCode_Sse42Str => 29
  | OpCode_CallLocation => 30 | OpCode_CallDynamic => 31 | OpCode_AddPhi => 32
  | OpCode_Nop => 33 | OpCode_AdvancePC => 34 | OpCode_SetLocation => 35
  | OpCode_GetLocation => 36 | OpCode_Zero => 37 | OpCode_GetHostGPR => 38
  | OpCode_GetHostFPR => 39 | OpCode_SetHostGPR => 40 | OpCode_SetHostFPR => 41
  | OpCode_BitCast => 42 | OpCode_GetOperand => 43 | OpCode_GetResult => 44
  | OpCode_LoadImm => 45 | OpCode_PushRSB => 46 | OpCode_CallReturn => 47
  | OpCode_PopRSB => 48 | OpCode_Add => 49 | OpCode_Sub => 50 | OpCode_Adc => 51
  | OpCode_Sbb => 52 | OpCode_Mul => 53 | OpCode_MulSub => 54 | OpCode_Div => 55
  | OpCode_SignedDiv64 => 56 | OpCode_Div128 => 57 | OpCode_Div128Remainder => 58
  | OpCode_Cpuid => 59 | OpCode_CpuidUpper => 60 | OpCode_ZeroExtend32 => 61
  | OpCode_ZeroExtend32To64 => 62 | OpCode_ZeroExtend64 => 63 | OpCode_SignExtend => 64
  | OpCode_And => 65 | OpCode_Or => 66 | OpCode_Xor => 67 | OpCode_Not => 68
  | OpCode_AndNot => 69 | OpCode_GetFlags => 70 | OpCode_SaveFlags => 71
  | OpCode_BranchOnlyFlags => 72 | OpCode_TestFlags => 73 | OpCode_TestNotFlags => 74
  | OpCode_ClearFlags => 75 | OpCode_SetCarry => 76 | OpCode_SetOverflow => 77
  | OpCode_InvertCarry => 78 | OpCode_PublishFCmpFlags => 79
  | OpCode_PublishSse42StrFlags => 80 | OpCode_LslImm => 81 | OpCode_LslValue => 82
  | OpCode_LsrImm => 83 | OpCode_LsrValue => 84 | OpCode_AsrImm => 85
  | OpCode_AsrValue => 86 | OpCode_RorImm => 87 | OpCode_RorValue => 88
  | OpCode_ByteSwap => 89 | OpCode_CountLeadingZeros64 => 90
  | OpCode_CountTrailingZeros64 => 91 | OpCode_CountLeadingZeros32 => 92
  | OpCode_CountTrailingZeros32 => 93 | OpCode_BitExtract => 94 | OpCode_BitInsert => 95
  | OpCode_BitClear => 96 | OpCode_TestBit => 97 | OpCode_TestZero => 98
  | OpCode_TestNotZero => 99 | OpCode_Vec4Add => 100 | OpCode_Vec4Sub => 101
  | OpCode_Vec4Mul => 102 | OpCode_Vec4And => 103 | OpCode_Vec4Or => 104
  | OpCode_VecXor => 105 | OpCode_VecAnd => 106 | OpCode_VecOr => 107
  | OpCode_VecAndNot => 108 | OpCode_VecAdd => 109 | OpCode_VecSub => 110
  | OpCode_VecCmpEq => 111 | OpCode_VecCmpGt => 112 | OpCode_VecAvg => 113
  | OpCode_VecMin => 114 | OpCode_VecMax => 115 | OpCode_VecMul => 116
  | OpCode_VecMulHigh16 => 117 | OpCode_VecMulWiden => 118 | OpCode_VecSatAdd => 119
  | OpCode_VecSatSub => 120 | OpCode_VecPack => 121 | OpCode_VecAbsDiffSum8 => 122
  | OpCode_VecMadd16 => 123 | OpCode_VecShiftLeft => 124 | OpCode_VecShiftRight => 125
  | OpCode_VecShiftRightArithmetic => 126 | OpCode_VecShiftLeftImm => 127
  | OpCode_VecShiftRightImm => 128 | OpCode_VecShiftRightArithmeticImm => 129
  | OpCode_VecByteShift => 130 | OpCode_VecShuffle32 => 131
  | OpCode_VecShuffle32TwoSrc => 132 | OpCode_VecLoadConst => 133
  | OpCode_VecShuffle32Indexed => 134 | OpCode_VecSharedZero => 135
  | OpCode_VecShuffle16 => 136 | OpCode_VecExtractBytes => 137 | OpCode_VecZip => 138
  | OpCode_VecDupPairs32 => 139 | OpCode_VecDup64 => 140 | OpCode_VecExtract64 => 141
  | OpCode_VecExtract16 => 142 | OpCode_VecInsert16 => 143 | OpCode_VecMovMask => 144
  | OpCode_VecTableLookup8 => 145 | OpCode_VecAesEnc => 146 | OpCode_VecAesEncLast => 147
  | OpCode_VecAesDec => 148 | OpCode_VecAesDecLast => 149 | OpCode_VecAesEncFast => 150
  | OpCode_VecAesEncLastFast => 151 | OpCode_VecAesDecFast => 152
  | OpCode_VecAesDecLastFast => 153 | OpCode_VecAesKeygenAssist => 154
  | OpCode_VecPclMul => 155 | OpCode_VecSha256Msg1 => 156 | OpCode_VecSha256Msg2 => 157
  | OpCode_VecSha256Rnds2 => 158 | OpCode_VecFAddScalar32 => 159
  | OpCode_VecFSubScalar32 => 160 | OpCode_VecFMulScalar32 => 161
  | OpCode_VecFDivScalar32 => 162 | OpCode_VecFAddScalar64 => 163
  | OpCode_VecFSubScalar64 => 164 | OpCode_VecFMulScalar64 => 165
  | OpCode_VecFDivScalar64 => 166 | OpCode_VecFAdd => 167 | OpCode_VecFSub => 168
  | OpCode_VecFMul => 169 | OpCode_VecFDiv => 170 | OpCode_VecFMinMax => 171
  | OpCode_VecFUnary => 172 | OpCode_VecFCmp => 173 | OpCode_VecFCmpMask => 174
  | OpCode_VecFCvtIntToFloat => 175 | OpCode_VecFCvtFloatToInt => 176
  | OpCode_VecFCvtScalar => 177 | OpCode_VecFCvtPacked => 178 | OpCode_VecUnzip => 179
  | OpCode_VecFMulAdd => 180 | OpCode_VecFRoundInt => 181 | OpCode_MulHigh => 182
  | OpCode_CondSet => 183 | OpCode_LocalCondSet => 184 | OpCode_LocalParitySet => 185
  | OpCode_BranchOnlyEdges => 186 | OpCode_FCmpCondSet => 187 | OpCode_Neg => 188
  end.

Definition all_opcodes : list OpCode := [
  OpCode_Void; OpCode_DefineLocal; OpCode_LoadLocal; OpCode_StoreLocal; OpCode_LoadUniform;
   OpCode_StoreUniform; OpCode_GetUniformAddress; OpCode_X87Op; OpCode_LoadMemory;
   OpCode_StoreMemory; OpCode_LoadMemoryTSO; OpCode_StoreMemoryTSO; OpCode_MemoryCopy;
   OpCode_MemoryCopyTSO; OpCode_MemoryBarrierTSO; OpCode_CompareAndSwap;
   OpCode_CompareAndSwap128; OpCode_CheckMemoryAlignment; OpCode_AtomicExchange;
   OpCode_AtomicFetchAdd; OpCode_AtomicRMW; OpCode_UniformBarrier; OpCode_Goto;
   OpCode_NotGoto; OpCode_Select; OpCode_SelectZero; OpCode_CondSelect; OpCode_BindLabel;
   OpCode_CallLambda; OpCode_Sse42Str; OpCode_CallLocation; OpCode_CallDynamic; OpCode_AddPhi;
   OpCode_Nop; OpCode_AdvancePC; OpCode_SetLocation; OpCode_GetLocation; OpCode_Zero;
   OpCode_GetHostGPR; OpCode_GetHostFPR; OpCode_SetHostGPR; OpCode_SetHostFPR; OpCode_BitCast;
   OpCode_GetOperand; OpCode_GetResult; OpCode_LoadImm; OpCode_PushRSB; OpCode_CallReturn;
   OpCode_PopRSB; OpCode_Add; OpCode_Sub; OpCode_Adc; OpCode_Sbb; OpCode_Mul; OpCode_MulSub;
   OpCode_Div; OpCode_SignedDiv64; OpCode_Div128; OpCode_Div128Remainder; OpCode_Cpuid;
   OpCode_CpuidUpper; OpCode_ZeroExtend32; OpCode_ZeroExtend32To64; OpCode_ZeroExtend64;
   OpCode_SignExtend; OpCode_And; OpCode_Or; OpCode_Xor; OpCode_Not; OpCode_AndNot;
   OpCode_GetFlags; OpCode_SaveFlags; OpCode_BranchOnlyFlags; OpCode_TestFlags;
   OpCode_TestNotFlags; OpCode_ClearFlags; OpCode_SetCarry; OpCode_SetOverflow;
   OpCode_InvertCarry; OpCode_PublishFCmpFlags; OpCode_PublishSse42StrFlags; OpCode_LslImm;
   OpCode_LslValue; OpCode_LsrImm; OpCode_LsrValue; OpCode_AsrImm; OpCode_AsrValue;
   OpCode_RorImm; OpCode_RorValue; OpCode_ByteSwap; OpCode_CountLeadingZeros64;
   OpCode_CountTrailingZeros64; OpCode_CountLeadingZeros32; OpCode_CountTrailingZeros32;
   OpCode_BitExtract; OpCode_BitInsert; OpCode_BitClear; OpCode_TestBit; OpCode_TestZero;
   OpCode_TestNotZero; OpCode_Vec4Add; OpCode_Vec4Sub; OpCode_Vec4Mul; OpCode_Vec4And;
   OpCode_Vec4Or; OpCode_VecXor; OpCode_VecAnd; OpCode_VecOr; OpCode_VecAndNot; OpCode_VecAdd;
   OpCode_VecSub; OpCode_VecCmpEq; OpCode_VecCmpGt; OpCode_VecAvg; OpCode_VecMin;
   OpCode_VecMax; OpCode_VecMul; OpCode_VecMulHigh16; OpCode_VecMulWiden; OpCode_VecSatAdd;
   OpCode_VecSatSub; OpCode_VecPack; OpCode_VecAbsDiffSum8; OpCode_VecMadd16;
   OpCode_VecShiftLeft; OpCode_VecShiftRight; OpCode_VecShiftRightArithmetic;
   OpCode_VecShiftLeftImm; OpCode_VecShiftRightImm; OpCode_VecShiftRightArithmeticImm;
   OpCode_VecByteShift; OpCode_VecShuffle32; OpCode_VecShuffle32TwoSrc; OpCode_VecLoadConst;
   OpCode_VecShuffle32Indexed; OpCode_VecSharedZero; OpCode_VecShuffle16;
   OpCode_VecExtractBytes; OpCode_VecZip; OpCode_VecDupPairs32; OpCode_VecDup64;
   OpCode_VecExtract64; OpCode_VecExtract16; OpCode_VecInsert16; OpCode_VecMovMask;
   OpCode_VecTableLookup8; OpCode_VecAesEnc; OpCode_VecAesEncLast; OpCode_VecAesDec;
   OpCode_VecAesDecLast; OpCode_VecAesEncFast; OpCode_VecAesEncLastFast; OpCode_VecAesDecFast;
   OpCode_VecAesDecLastFast; OpCode_VecAesKeygenAssist; OpCode_VecPclMul;
   OpCode_VecSha256Msg1; OpCode_VecSha256Msg2; OpCode_VecSha256Rnds2; OpCode_VecFAddScalar32;
   OpCode_VecFSubScalar32; OpCode_VecFMulScalar32; OpCode_VecFDivScalar32;
   OpCode_VecFAddScalar64; OpCode_VecFSubScalar64; OpCode_VecFMulScalar64;
   OpCode_VecFDivScalar64; OpCode_VecFAdd; OpCode_VecFSub; OpCode_VecFMul; OpCode_VecFDiv;
   OpCode_VecFMinMax; OpCode_VecFUnary; OpCode_VecFCmp; OpCode_VecFCmpMask;
   OpCode_VecFCvtIntToFloat; OpCode_VecFCvtFloatToInt; OpCode_VecFCvtScalar;
   OpCode_VecFCvtPacked; OpCode_VecUnzip; OpCode_VecFMulAdd; OpCode_VecFRoundInt;
   OpCode_MulHigh; OpCode_CondSet; OpCode_LocalCondSet; OpCode_LocalParitySet;
   OpCode_BranchOnlyEdges; OpCode_FCmpCondSet; OpCode_Neg].

Lemma op_index_lookup op : all_opcodes !! Z.to_nat (op_index op) = Some op.
Proof. destruct op; reflexivity. Qed.

#[export] Instance OpCode_eq_dec : EqDecision OpCode.
Proof.
  intros a b. destruct (Z.eq_dec (op_index a) (op_index b)) as [E|E].
  - left. pose proof (op_index_lookup a) as Ha. pose proof (op_index_lookup b) as Hb.
    rewrite E in Ha. congruence.
  - right. by intros ->.
Defined.

Definition op_eqb (a b : OpCode) : bool := op_index a =? op_index b.

Lemma op_eqb_spec a b : reflect (a = b) (op_eqb a b).
Proof.
  unfold op_eqb. destruct (Z.eqb_spec (op_index a) (op_index b)) as [E|E]; constructor.
  - pose proof (op_index_lookup a) as Ha. pose proof (op_index_lookup b) as Hb.
    rewrite E in Ha. congruence.
  - by intros ->.
Qed.

(** [IRMeta::return_type]: the return tokens BOOL, U32 and U64 of ir.inc are [ArgType::Value]. *)
Definition op_return_type (op : OpCode) : ArgType :=
  match op with
  | OpCode_Void
  | OpCode_DefineLocal | OpCode_StoreLocal | OpCode_StoreUniform | OpCode_StoreMemory
  | OpCode_StoreMemoryTSO | OpCode_MemoryCopy | OpCode_MemoryCopyTSO
  | OpCode_MemoryBarrierTSO | OpCode_CheckMemoryAlignment | OpCode_UniformBarrier
  | OpCode_BindLabel | OpCode_Nop | OpCode_AdvancePC | OpCode_SetLocation
  | OpCode_SetHostGPR | OpCode_SetHostFPR | OpCode_PushRSB | OpCode_CallReturn
  | OpCode_PopRSB | OpCode_SaveFlags | OpCode_BranchOnlyFlags | OpCode_ClearFlags
  | OpCode_SetCarry | OpCode_SetOverflow | OpCode_InvertCarry | OpCode_PublishFCmpFlags
  | OpCode_PublishSse42StrFlags | OpCode_BranchOnlyEdges => ArgType_Void
  | _ => ArgType_Value
  end.

(** [IRMeta::arg_types]. *)
Definition op_arg_types (op : OpCode) : list ArgType :=
  match op with
  | OpCode_Void => []
  | OpCode_DefineLocal | OpCode_LoadLocal
    => [ArgType_Local]
  | OpCode_StoreLocal
    => [ArgType_Local; ArgType_Value]
  | OpCode_LoadUniform
    => [ArgType_Uniform]
  | OpCode_StoreUniform
    => [ArgType_Uniform; ArgType_Value]
  | OpCode_GetUniformAddress | OpCode_AdvancePC | OpCode_LoadImm
    => [ArgType_Imm]
  | OpCode_X87Op
    => [ArgType_Value; ArgType_Imm; ArgType_Value]
  | OpCode_LoadMemory | OpCode_LoadMemoryTSO | OpCode_GetOperand
    => [ArgType_Operand]
  | OpCode_StoreMemory | OpCode_StoreMemoryTSO
    => [ArgType_Operand; ArgType_Value]
  | OpCode_MemoryCopy | OpCode_MemoryCopyTSO
    => [ArgType_Lambda; ArgType_Lambda; ArgType_Imm]
  | OpCode_MemoryBarrierTSO | OpCode_UniformBarrier | OpCode_Nop | OpCode_GetLocation
  | OpCode_Zero | OpCode_InvertCarry | OpCode_VecSharedZero | OpCode_BranchOnlyEdges
    => []
  | OpCode_CompareAndSwap | OpCode_Select | OpCode_SelectZero | OpCode_MulSub
  | OpCode_VecAesEncFast | OpCode_VecAesEncLastFast | OpCode_VecAesDecFast
  | OpCode_VecAesDecLastFast | OpCode_VecSha256Rnds2
    => [ArgType_Value; ArgType_Value; ArgType_Value]
  | OpCode_CompareAndSwap128
    => [ArgType_Value; ArgType_Value; ArgType_Value; ArgType_Value; ArgType_Value]
  | OpCode_CheckMemoryAlignment | OpCode_PublishFCmpFlags | OpCode_LslImm | OpCode_LsrImm
  | OpCode_AsrImm | OpCode_RorImm | OpCode_ByteSwap | OpCode_TestBit | OpCode_VecShuffle32
  | OpCode_VecDupPairs32 | OpCode_VecExtract64 | OpCode_VecExtract16 | OpCode_VecMovMask
  | OpCode_VecAesKeygenAssist | OpCode_VecFCvtScalar | OpCode_VecFCvtPacked
  | OpCode_LocalParitySet
    => [ArgType_Value; ArgType_Imm]
  | OpCode_AtomicExchange | OpCode_AtomicFetchAdd | OpCode_GetResult | OpCode_SignedDiv64
  | OpCode_LslValue | OpCode_LsrValue | OpCode_AsrValue | OpCode_RorValue | OpCode_Vec4Add
  | OpCode_Vec4Sub | OpCode_Vec4Mul | OpCode_Vec4And | OpCode_Vec4Or | OpCode_VecXor
  | OpCode_VecAnd | OpCode_VecOr | OpCode_VecAndNot | OpCode_VecAbsDiffSum8
  | OpCode_VecMadd16 | OpCode_VecShuffle32Indexed | OpCode_VecTableLookup8
  | OpCode_VecAesEnc | OpCode_VecAesEncLast | OpCode_VecAesDec | OpCode_VecAesDecLast
  | OpCode_VecSha256Msg1 | OpCode_VecSha256Msg2 | OpCode_VecFAddScalar32
  | OpCode_VecFSubScalar32 | OpCode_VecFMulScalar32 | OpCode_VecFDivScalar32
  | OpCode_VecFAddScalar64 | OpCode_VecFSubScalar64 | OpCode_VecFMulScalar64
  | OpCode_VecFDivScalar64
    => [ArgType_Value; ArgType_Value]
  | OpCode_AtomicRMW
    => [ArgType_Imm; ArgType_Value; ArgType_Value; ArgType_Value]
  | OpCode_Goto | OpCode_NotGoto | OpCode_BindLabel | OpCode_BitCast
  | OpCode_Div128Remainder | OpCode_CpuidUpper | OpCode_ZeroExtend32
  | OpCode_ZeroExtend32To64 | OpCode_ZeroExtend64 | OpCode_SignExtend | OpCode_SetCarry
  | OpCode_SetOverflow | OpCode_CountLeadingZeros64 | OpCode_CountTrailingZeros64
  | OpCode_CountLeadingZeros32 | OpCode_CountTrailingZeros32 | OpCode_TestZero
  | OpCode_TestNotZero | OpCode_VecDup64 | OpCode_Neg
    => [ArgType_Value]
  | OpCode_CondSelect
    => [ArgType_Cond; ArgType_Value; ArgType_Value]
  | OpCode_CallLambda
    => [ArgType_Lambda; ArgType_Value; ArgType_Value; ArgType_Value]
  | OpCode_Sse42Str | OpCode_VecAdd | OpCode_VecSub | OpCode_VecCmpEq | OpCode_VecCmpGt
  | OpCode_VecAvg | OpCode_VecMul | OpCode_VecMulHigh16 | OpCode_VecShiftLeft
  | OpCode_VecShiftRight | OpCode_VecShiftRightArithmetic | OpCode_VecShuffle32TwoSrc
  | OpCode_VecExtractBytes | OpCode_VecInsert16 | OpCode_VecPclMul | OpCode_VecFAdd
  | OpCode_VecFSub | OpCode_VecFMul | OpCode_VecFDiv | OpCode_MulHigh
    => [ArgType_Value; ArgType_Value; ArgType_Imm]
  | OpCode_CallLocation | OpCode_CallDynamic
    => [ArgType_Lambda; ArgType_Params]
  | OpCode_AddPhi
    => [ArgType_Params]
  | OpCode_SetLocation | OpCode_PushRSB | OpCode_PopRSB
    => [ArgType_Lambda]
  | OpCode_GetHostGPR | OpCode_GetHostFPR | OpCode_VecLoadConst
    => [ArgType_Imm; ArgType_Imm]
  | OpCode_SetHostGPR | OpCode_SetHostFPR | OpCode_BitExtract | OpCode_BitClear
  | OpCode_VecShiftLeftImm | OpCode_VecShiftRightImm | OpCode_VecShiftRightArithmeticImm
  | OpCode_VecShuffle16 | OpCode_VecFCvtIntToFloat
    => [ArgType_Value; ArgType_Imm; ArgType_Imm]
  | OpCode_CallReturn
    => [ArgType_Value; ArgType_Imm; ArgType_Lambda]
  | OpCode_Add | OpCode_Sub | OpCode_Adc | OpCode_Sbb | OpCode_Mul | OpCode_Div | OpCode_And
  | OpCode_Or | OpCode_Xor | OpCode_Not | OpCode_AndNot
    => [ArgType_Value; ArgType_Operand]
  | OpCode_Div128
    => [ArgType_Value; ArgType_Value; ArgType_Value; ArgType_Imm]
  | OpCode_Cpuid | OpCode_BitInsert | OpCode_VecMin | OpCode_VecMax | OpCode_VecMulWiden
  | OpCode_VecSatAdd | OpCode_VecSatSub | OpCode_VecPack | OpCode_VecByteShift
  | OpCode_VecZip | OpCode_VecFCmp | OpCode_VecUnzip
    => [ArgType_Value; ArgType_Value; ArgType_Imm; ArgType_Imm]
  | OpCode_GetFlags | OpCode_SaveFlags | OpCode_BranchOnlyFlags
  | OpCode_PublishSse42StrFlags
    => [ArgType_Value; ArgType_Flags]
  | OpCode_TestFlags | OpCode_TestNotFlags | OpCode_ClearFlags
    => [ArgType_Flags]
  | OpCode_VecFMinMax | OpCode_VecFUnary | OpCode_VecFCmpMask | OpCode_VecFRoundInt
    => [ArgType_Value; ArgType_Value; ArgType_Imm; ArgType_Imm; ArgType_Imm]
  | OpCode_VecFCvtFloatToInt
    => [ArgType_Value; ArgType_Imm; ArgType_Imm; ArgType_Imm]
  | OpCode_VecFMulAdd
    => [ArgType_Value; ArgType_Value; ArgType_Value; ArgType_Imm; ArgType_Imm]
  | OpCode_CondSet | OpCode_LocalCondSet
    => [ArgType_Cond]
  | OpCode_FCmpCondSet
    => [ArgType_Value; ArgType_Cond]
  end.

(** ** Conditions *)

Inductive Cond : Set :=
| Cond_EQ | Cond_NE | Cond_CS | Cond_CC | Cond_MI | Cond_PL | Cond_VS | Cond_VC
| Cond_HI | Cond_LS | Cond_GE | Cond_LT | Cond_GT | Cond_LE | Cond_AL | Cond_NV.

#[export] Instance Cond_eq_dec : EqDecision Cond.
Proof. solve_decision. Defined.

(** ** Immediates

    The union of [Imm] holds up to eight bytes; the members a type selects are
    its low bytes. [imm_u64] is the whole union. *)

Record Imm := mkImm { imm_type : ValueType; imm_u64 : Z }.

#[export] Instance Imm_eq_dec : EqDecision Imm.
Proof. solve_decision. Defined.

Definition Imm_bool (b : bool) : Imm := mkImm ValueType_U8 (bool_z b).
Definition Imm_u8 (v : Z) : Imm := mkImm ValueType_U8 (wrap 8 v).
Definition Imm_u16 (v : Z) : Imm := mkImm ValueType_U16 (wrap 16 v).
Definition Imm_u32 (v : Z) : Imm := mkImm ValueType_U32 (wrap 32 v).
Definition Imm_u64 (v : Z) : Imm := mkImm ValueType_U64 (wrap 64 v).
Definition Imm_s8 (v : Z) : Imm := mkImm ValueType_S8 (wrap 8 v).
Definition Imm_s16 (v : Z) : Imm := mkImm ValueType_S16 (wrap 16 v).
Definition Imm_s32 (v : Z) : Imm := mkImm ValueType_S32 (wrap 32 v).
Definition Imm_s64 (v : Z) : Imm := mkImm ValueType_S64 (wrap 64 v).
Definition Imm_sized (v : Z) (t : ValueType) : Imm := mkImm t (wrap 64 v).

(** [Imm::Get]: the member the type selects, zero-extended. *)
Definition Imm_Get (i : Imm) : Z :=
  match imm_type i with
  | ValueType_U8 | ValueType_S8 => wrap 8 (imm_u64 i)
  | ValueType_U16 | ValueType_S16 => wrap 16 (imm_u64 i)
  | ValueType_U32 | ValueType_S32 => wrap 32 (imm_u64 i)
  | ValueType_U64 | ValueType_S64 => wrap 64 (imm_u64 i)
  | _ => 0
  end.

Definition Imm_IsSigned (i : Imm) : bool := vt_between ValueType_S8 (imm_type i) ValueType_S64.

(** [Imm::GetSigned], an [s64]. *)
Definition Imm_GetSigned (i : Imm) : Z :=
  if negb (Imm_IsSigned i) then to_signed 64 (Imm_Get i)
  else match imm_type i with
       | ValueType_S8 => to_signed 8 (imm_u64 i)
       | ValueType_S16 => to_signed 16 (imm_u64 i)
       | ValueType_S32 => to_signed 32 (imm_u64 i)
       | ValueType_S64 => to_signed 64 (imm_u64 i)
       | _ => 0
       end.

Definition Imm_IsNegate (i : Imm) : bool :=
  if Imm_IsSigned i then Imm_GetSigned i <? 0 else false.

(** ** Values, uniforms, locals, operands

    A [Value] is a pointer to the instruction that defines it together with an
    optional cast type; instruction objects live in the heap of [Instr.v] and
    [Ptr] is their address. *)

Definition Ptr : Type := positive.

Record Value := mkValue { v_inst : option Ptr; v_cast : ValueType }.
Record Uniform := mkUniform { u_offset : Z; u_type : ValueType }.
Record Local_ := mkLocal { l_id : Z; l_type : ValueType }.

#[export] Instance Value_eq_dec : EqDecision Value.
Proof. solve_decision. Defined.
#[export] Instance Uniform_eq_dec : EqDecision Uniform.
Proof. solve_decision. Defined.
#[export] Instance Local_eq_dec : EqDecision Local_.
Proof. solve_decision. Defined.

(** [Value{inst}]. *)
Definition Value_of (p : Ptr) : Value := mkValue (Some p) ValueType_VOID.

Inductive DataClass :=
| DNull
| DValue (v : Value)
| DImm (i : Imm).

#[export] Instance DataClass_eq_dec : EqDecision DataClass.
Proof. solve_decision. Defined.

Inductive OperandOpType : Set :=
| OperandOp_None | OperandOp_Plus | OperandOp_LSL | OperandOp_LSR | OperandOp_PlusExt.

#[export] Instance OperandOpType_eq_dec : EqDecision OperandOpType.
Proof. solve_decision. Defined.

Record OperandOp := mkOperandOp { oo_type : OperandOpType; shift_ext : Z }.

#[export] Instance OperandOp_eq_dec : EqDecision OperandOp.
Proof. solve_decision. Defined.

(** [OperandOp::operator==] compares the type only. *)
Definition OperandOp_eqb (a b : OperandOp) : bool := bool_decide (oo_type a = oo_type b).

Definition OperandNone := mkOperandOp OperandOp_None 0.
Definition OperandPlus := mkOperandOp OperandOp_Plus 0.
Definition OperandLsl := mkOperandOp OperandOp_LSL 0.
Definition OperandLsr := mkOperandOp OperandOp_LSR 0.

Record Operand := mkOperand { o_op : OperandOp; o_left : DataClass; o_right : DataClass }.

(** [Operand{imm}] and [Operand{value}]: one-sided, with the default operator [Plus]. *)
Definition Operand_imm (i : Imm) : Operand := mkOperand OperandPlus (DImm i) DNull.
Definition Operand_value (v : Value) : Operand := mkOperand OperandPlus (DValue v) DNull.

(** ** Flags (a [u64] bit set) *)

Definition Flags_None : Z := 0.
Definition Flags_Carry : Z := 2 ^ 0.
Definition Flags_Overflow : Z := 2 ^ 1.
Definition Flags_Zero : Z := 2 ^ 2.
Definition Flags_Negate : Z := 2 ^ 3.
Definition Flags_Parity : Z := 2 ^ 4.
Definition Flags_Positive : Z := 2 ^ 5.
Definition Flags_AuxiliaryCarry : Z := 2 ^ 6.
Definition Flags_CV : Z := Z.lor Flags_Carry Flags_Overflow.
Definition Flags_NZCV : Z :=
  Z.lor (Z.lor (Z.lor Flags_Carry Flags_Overflow) Flags_Zero) Flags_Negate.
Definition Flags_All : Z :=
  Z.lor (Z.lor Flags_NZCV Flags_Parity) Flags_AuxiliaryCarry.

(** [True(f & g)]. *)
Definition flag_true (f g : Z) : bool := negb (Z.land f g =? 0).

(** ** Lambda: a call target with packed helper-call traits (args.cpp)

    The traits of a direct helper call are packed in the [type] byte of the
    address (the tags below) and in [helper_effects]. *)

Inductive HelperABI : Set := HelperABI_NormalAAPCS | HelperABI_PreserveAllLeaf.
Inductive HostFpEffect : Set := HostFpEffect_MayTouch | HostFpEffect_FPCRTransparent.
Inductive HostRegisterEffect : Set :=
| HostRegisterEffect_MayTouchSIMD | HostRegisterEffect_GeneralOnly
| HostRegisterEffect_PreservesPinnedState.
Inductive HelperGuestStateEffect : Set :=
| HelperGuestStateEffect_MayReadWrite | HelperGuestStateEffect_ReadOnly
| HelperGuestStateEffect_WriteOnly | HelperGuestStateEffect_None.
Inductive HelperFaultEffect : Set := HelperFaultEffect_MayFault | HelperFaultEffect_NoDirectFault.
Inductive HelperReentryEffect : Set :=
| HelperReentryEffect_MayReenter | HelperReentryEffect_NoReentry.
Inductive HostFlagsEffect : Set := HostFlagsEffect_MayTouch | HostFlagsEffect_PreservesNZCV.

(** [UniformEffectId] is a [u8]: [Unknown] = 0, [None] = 1, then registered sets. *)
Definition UniformEffectId_Unknown : Z := 0.
Definition UniformEffectId_None : Z := 1.

Record HelperCallTraits := mkTraits {
  ht_uniform : Z;
  ht_abi : HelperABI;
  ht_host_fp : HostFpEffect;
  ht_host_registers : HostRegisterEffect;
  ht_guest_state : HelperGuestStateEffect;
  ht_fault : HelperFaultEffect;
  ht_reentry : HelperReentryEffect;
  ht_host_flags : HostFlagsEffect
}.

Definition guest_state_index (e : HelperGuestStateEffect) : Z :=
  match e with
  | HelperGuestStateEffect_MayReadWrite => 0
  | HelperGuestStateEffect_ReadOnly => 1
  | HelperGuestStateEffect_WriteOnly => 2
  | HelperGuestStateEffect_None => 3
  end.

Definition guest_state_of_index (n : Z) : HelperGuestStateEffect :=
  if n =? 0 then HelperGuestStateEffect_MayReadWrite
  else if n =? 1 then HelperGuestStateEffect_ReadOnly
  else if n =? 2 then HelperGuestStateEffect_WriteOnly
  else HelperGuestStateEffect_None.

Definition kUniformEffectTag : Z := 0x80.
Definition kHelperABITag : Z := 0x40.
Definition kHostFpTransparentTag : Z := 0x20.
Definition kHostGeneralRegistersTag : Z := 0x10.
Definition kHostPreservesPinnedStateTag : Z := 0x08.
Definition kUniformEffectMask : Z := 0x07.
Definition kGuestStateEffectMask : Z := 0x03.
Definition kNoDirectFaultTag : Z := 0x04.
Definition kNoReentryTag : Z := 0x08.
Definition kHostPreservesNZCVTag : Z := 0x10.
Definition kMaxUniformEffectSets : Z := kUniformEffectMask + 1.

Record Lambda := mkLambda { la_type : Z; la_data : DataClass; la_effects : Z }.

Definition dc_type (d : DataClass) : Z :=
  match d with DNull => 0 | DValue _ => 1 | DImm _ => 2 end.

(** [Lambda(const DataClass&)], [Lambda(const Value&)], [Lambda(const Imm&)]. *)
Definition Lambda_of (d : DataClass) : Lambda := mkLambda (dc_type d) d 0.

(** The tag byte computed by [Lambda(const DataClass&, HelperCallTraits)]. *)
Definition pack_tags (t : HelperCallTraits) : Res Z :=
  tags <-? (if ht_uniform t =? UniformEffectId_Unknown then Ok 0
            else if (0 <? ht_uniform t) && (ht_uniform t <=? kUniformEffectMask)
                 then Ok (Z.lor kUniformEffectTag (ht_uniform t))
                 else Err EPanic);
  let tags := match ht_abi t with
              | HelperABI_PreserveAllLeaf => Z.lor tags kHelperABITag
              | _ => tags
              end in
  let tags := match ht_host_fp t with
              | HostFpEffect_FPCRTransparent => Z.lor tags kHostFpTransparentTag
              | _ => tags
              end in
  Ok (match ht_host_registers t with
      | HostRegisterEffect_GeneralOnly => Z.lor tags kHostGeneralRegistersTag
      | HostRegisterEffect_PreservesPinnedState => Z.lor tags kHostPreservesPinnedStateTag
      | _ => tags
      end).

(** The [helper_effects] byte it computes. *)
Definition pack_effects (t : HelperCallTraits) : Z :=
  let eff := Z.land (guest_state_index (ht_guest_state t)) kGuestStateEffectMask in
  let eff := match ht_fault t with
             | HelperFaultEffect_NoDirectFault => Z.lor eff kNoDirectFaultTag
             | _ => eff
             end in
  let eff := match ht_reentry t with
             | HelperReentryEffect_NoReentry => Z.lor eff kNoReentryTag
             | _ => eff
             end in
  match ht_host_flags t with
  | HostFlagsEffect_PreservesNZCV => Z.lor eff kHostPreservesNZCVTag
  | _ => eff
  end.

(** [Lambda(const DataClass&, HelperCallTraits)]. *)
Definition Lambda_traits (d : DataClass) (t : HelperCallTraits) : Res Lambda :=
  if dc_type d =? 2 then
    tags <-? pack_tags t;
    Ok (mkLambda (if tags =? 0 then dc_type d else tags) d (pack_effects t))
  else Err EPanic.

Definition has_tag (v tag : Z) : bool := negb (Z.land v tag =? 0).

Definition Lambda_IsTaggedImm (l : Lambda) : bool :=
  has_tag (la_type l)
    (Z.lor (Z.lor (Z.lor (Z.lor kUniformEffectTag kHelperABITag) kHostFpTransparentTag)
              kHostGeneralRegistersTag) kHostPreservesPinnedStateTag).

Definition Lambda_IsValue (l : Lambda) : bool := la_type l =? 1.

Definition Lambda_GetImm (l : Lambda) : Res Imm :=
  if (la_type l =? 2) || Lambda_IsTaggedImm l then
    match la_data l with DImm i => Ok i | _ => Err EUndefined end
  else Err EPanic.

Definition Lambda_GetValue (l : Lambda) : Res Value :=
  if la_type l =? 1 then
    match la_data l with DValue v => Ok v | _ => Err EUndefined end
  else Err EPanic.

Definition Lambda_GetUniformEffectId (l : Lambda) : Z :=
  if negb (has_tag (la_type l) kUniformEffectTag) then UniformEffectId_Unknown
  else Z.land (la_type l) kUniformEffectMask.

Definition Lambda_GetHelperABI (l : Lambda) : HelperABI :=
  if has_tag (la_type l) kHelperABITag then HelperABI_PreserveAllLeaf else HelperABI_NormalAAPCS.

Definition Lambda_GetHostFpEffect (l : Lambda) : HostFpEffect :=
  if has_tag (la_type l) kHostFpTransparentTag
  then HostFpEffect_FPCRTransparent else HostFpEffect_MayTouch.

Definition Lambda_GetHostRegisterEffect (l : Lambda) : HostRegisterEffect :=
  if has_tag (la_type l) kHostGeneralRegistersTag then HostRegisterEffect_GeneralOnly
  else if has_tag (la_type l) kHostPreservesPinnedStateTag
       then HostRegisterEffect_PreservesPinnedState else HostRegisterEffect_MayTouchSIMD.

Definition Lambda_GetHelperGuestStateEffect (l : Lambda) : HelperGuestStateEffect :=
  guest_state_of_index (Z.land (la_effects l) kGuestStateEffectMask).

Definition Lambda_GetHelperFaultEffect (l : Lambda) : HelperFaultEffect :=
  if has_tag (la_effects l) kNoDirectFaultTag
  then HelperFaultEffect_NoDirectFault else HelperFaultEffect_MayFault.

Definition Lambda_GetHelperReentryEffect (l : Lambda) : HelperReentryEffect :=
  if has_tag (la_effects l) kNoReentryTag
  then HelperReentryEffect_NoReentry else HelperReentryEffect_MayReenter.

Definition Lambda_GetHostFlagsEffect (l : Lambda) : HostFlagsEffect :=
  if has_tag (la_effects l) kHostPreservesNZCVTag
  then HostFlagsEffect_PreservesNZCV else HostFlagsEffect_MayTouch.

(** All the traits a tagged Lambda reports. *)
Definition Lambda_get_traits (l : Lambda) : HelperCallTraits :=
  mkTraits (Lambda_GetUniformEffectId l) (Lambda_GetHelperABI l) (Lambda_GetHostFpEffect l)
    (Lambda_GetHostRegisterEffect l) (Lambda_GetHelperGuestStateEffect l)
    (Lambda_GetHelperFaultEffect l) (Lambda_GetHelperReentryEffect l)
    (Lambda_GetHostFlagsEffect l).

(** *** The registry of uniform effect sets

    [registry] is the array [uniform_effect_sets] up to
    [uniform_effect_set_count]; an element is the address of a set (0 is the
    null entry of [Unknown], [kNoEffects] the address of [kNoUniformEffects]). *)
Section EffectRegistry.
Variable kNoEffects : Z.

Definition registry_init : list Z := [0; kNoEffects].

(** The search loop of [RegisterUniformEffectSet], from [id] on. *)
Fixpoint registry_find (e : Z) (l : list Z) (id : nat) : option nat :=
  match l with
  | [] => None
  | x :: l' => if x =? e then Some id else registry_find e l' (S id)
  end.

Definition RegisterUniformEffectSet (e : Z) (reg : list Z) : Res (Z * list Z) :=
  if e =? 0 then Err EPanic
  else match registry_find e (drop 1 reg) 1 with
       | Some id => Ok (Z.of_nat id, reg)
       | None => if Z.of_nat (length reg) <? kMaxUniformEffectSets
                 then Ok (Z.of_nat (length reg), reg ++ [e])
                 else Err EPanic
       end.

Definition LookupUniformEffectSet (id : Z) (reg : list Z) : Z :=
  if Z.of_nat (length reg) <=? id then 0 else default 0 (reg !! Z.to_nat id).

End EffectRegistry.

(** ** Instruction arguments *)

Inductive Arg :=
| AVoid
| AValue (v : Value)
| AImm (i : Imm)
| AUniform (u : Uniform)
| ALocal (l : Local_)
| ACond (c : Cond)
| AFlags (f : Z)
| AOperand (op : OperandOp)
| ALambda (l : Lambda)
| AParams (ps : list DataClass).

Definition arg_type (a : Arg) : ArgType :=
  match a with
  | AVoid => ArgType_Void
  | AValue _ => ArgType_Value
  | AImm _ => ArgType_Imm
  | AUniform _ => ArgType_Uniform
  | ALocal _ => ArgType_Local
  | ACond _ => ArgType_Cond
  | AFlags _ => ArgType_Flags
  | AOperand _ => ArgType_Operand
  | ALambda _ => ArgType_Lambda
  | AParams _ => ArgType_Params
  end.

(** [DataClass::ToArgClass] and [Arg::ToDataClass]. *)
Definition ToArgClass (d : DataClass) : Arg :=
  match d with DValue v => AValue v | DImm i => AImm i | DNull => AVoid end.

Definition ToDataClass (a : Arg) : Res DataClass :=
  match a with
  | AValue v => Ok (DValue v)
  | AImm i => Ok (DImm i)
  | AVoid => Ok DNull
  | _ => Err EPanic
  end.

(** ** Facts *)

Lemma GetValueSizeByte_cases t n :
  GetValueSizeByte t = Ok n -> n = 1 \/ n = 2 \/ n = 4 \/ n = 8 \/ n = 16 \/ n = 32.
Proof. destruct t; cbv; intros [= <-]; auto 10. Qed.

Lemma GetValueSizeByte_scalar t n :
  GetValueSizeByte t = Ok n -> IsFloatValueType t = false -> n = 1 \/ n = 2 \/ n = 4 \/ n = 8.
Proof. destruct t; cbv; intros [= <-] H; try discriminate H; auto. Qed.

Lemma Imm_Get_range i : 0 <= Imm_Get i < 2 ^ 64.
Proof.
  unfold Imm_Get. destruct (imm_type i); try lia;
    match goal with |- context [wrap ?w ?x] => pose proof (wrap_range w x ltac:(lia)) end; lia.
Qed.

(** Every signature of ir.inc fits the five physical argument slots of an
    instruction (the [static_assert] of ir_meta.h). *)
Lemma op_slots_fit op :
  foldr (fun t n => PhysicalSlots t + n) 0 (op_arg_types op) <= 5.
Proof. destruct op; vm_compute; discriminate. Qed.

Lemma pack_tags_spec t :
  0 <= ht_uniform t <= kUniformEffectMask ->
  exists tags, pack_tags t = Ok tags /\
    let ty := if tags =? 0 then 2 else tags in
    let l := mkLambda ty DNull 0 in
    (ty =? 1) = false /\ ((ty =? 2) || Lambda_IsTaggedImm l) = true /\
    Lambda_GetUniformEffectId l = ht_uniform t /\ Lambda_GetHelperABI l = ht_abi t /\
    Lambda_GetHostFpEffect l = ht_host_fp t /\
    Lambda_GetHostRegisterEffect l = ht_host_registers t.
Proof.
  destruct t as [u a fp hr gs fa re hf]. unfold kUniformEffectMask. simpl. intros Hu.
  assert (u = 0 \/ u = 1 \/ u = 2 \/ u = 3 \/ u = 4 \/ u = 5 \/ u = 6 \/ u = 7) as Hc by lia.
  destruct Hc as [-> | [-> | [-> | [-> | [-> | [-> | [-> | -> ]]]]]]];
    destruct a, fp, hr; (eexists; repeat split; reflexivity).
Qed.

Lemma pack_effects_spec t :
  let l := mkLambda 0 DNull (pack_effects t) in
  Lambda_GetHelperGuestStateEffect l = ht_guest_state t /\
  Lambda_GetHelperFaultEffect l = ht_fault t /\
  Lambda_GetHelperReentryEffect l = ht_reentry t /\
  Lambda_GetHostFlagsEffect l = ht_host_flags t.
Proof. destruct t as [u a fp hr gs fa re hf]. destruct gs, fa, re, hf; repeat split. Qed.

(** Round trip of helper-call traits: for every traits record whose
    uniform-effect id is [Unknown] or a registered id (at most 7), packing it
    in a [Lambda] for an immediate target succeeds, every getter returns the
    field that was packed, the target stays readable, and the tagged address is
    never mistaken for a [Value] target. *)
Theorem lambda_traits_roundtrip (i : Imm) (t : HelperCallTraits) :
  0 <= ht_uniform t <= kUniformEffectMask ->
  exists l, Lambda_traits (DImm i) t = Ok l /\
            Lambda_get_traits l = t /\
            Lambda_GetImm l = Ok i /\
            Lambda_IsValue l = false.
Proof.
  intros Hu. destruct (pack_tags_spec t Hu) as (tags & Ht & H1 & H2 & H3 & H4 & H5 & H6).
  destruct (pack_effects_spec t) as (G1 & G2 & G3 & G4).
  unfold Lambda_traits. simpl. rewrite Ht. simpl. eexists. split; [reflexivity|].
  split; [|split; [|exact H1]].
  - destruct t. unfold Lambda_get_traits. simpl in *. by f_equal.
  - unfold Lambda_GetImm. simpl. unfold Lambda_IsTaggedImm in *. simpl in *. by rewrite H2.
Qed.

Lemma lambda_traits_roundtrip_witness :
  exists l, Lambda_traits (DImm (Imm_u64 4096))
              (mkTraits 3 HelperABI_PreserveAllLeaf HostFpEffect_FPCRTransparent
                 HostRegisterEffect_PreservesPinnedState HelperGuestStateEffect_WriteOnly
                 HelperFaultEffect_NoDirectFault HelperReentryEffect_NoReentry
                 HostFlagsEffect_PreservesNZCV) = Ok l /\
            Lambda_GetUniformEffectId l = 3 /\ Lambda_IsValue l = false.
Proof.
  destruct (lambda_traits_roundtrip (Imm_u64 4096)
              (mkTraits 3 HelperABI_PreserveAllLeaf HostFpEffect_FPCRTransparent
                 HostRegisterEffect_PreservesPinnedState HelperGuestStateEffect_WriteOnly
                 HelperFaultEffect_NoDirectFault HelperReentryEffect_NoReentry
                 HostFlagsEffect_PreservesNZCV)) as (l & H1 & H2 & H3 & H4).
  - unfold kUniformEffectMask. simpl. lia.
  - exists l. split; [exact H1|]. split; [|exact H4].
    exact (f_equal ht_uniform H2).
Defined.

(** ** Feature switches *)

Record FeatureSet := mkFeatures {
  int_imm_fold : bool;
  const_cse : bool;
  flag_carry_elim : bool;
  flag_narrow : bool;
  flags_branch_only : bool;
  flag_full_elim : bool
}.

Definition all_features : FeatureSet := mkFeatures true true true true true true.
