(* ===== verification/Instr.v ===== *)
(** * Instruction objects

    Model of runtime/ir/instr.h and instr.cpp.  Instructions are heap objects
    that point at each other: an argument names its defining instruction by
    address, a definition counts its uses in a [u8], and the pseudo operations
    of a definition (SaveFlags, GetResult, ...) hang off it in the singly
    linked chain [next_pseudo_inst].  [Heap] is the store of instruction
    objects, and the methods that mutate it are computations of [ST Heap]. *)

From Stdlib Require Import ZArith Lia.
From stdpp Require Import numbers base gmap list.
From S2P Require Import Prelude MachineInt IRTypes.

Local Open Scope Z_scope.
Local Open Scope svm_scope.

Definition max_args : nat := 5.
Definition invalid_id : Z := 65535.

Record Inst := mkInst {
  i_op : OpCode;
  i_args : list Arg;
  i_num_use : Z;
  i_id : Z;
  i_vir_reg : Z;
  i_ret : ValueType;
  i_next_pseudo : option Ptr
}.

Abbreviation Heap := (gmap Ptr Inst).

(** [Inst(OpCode)]. *)
Definition Inst_new (op : OpCode) : Inst :=
  mkInst op (replicate max_args AVoid) 0 invalid_id 0 ValueType_VOID None.

Definition set_op (op : OpCode) (i : Inst) : Inst :=
  mkInst op (i_args i) (i_num_use i) (i_id i) (i_vir_reg i) (i_ret i) (i_next_pseudo i).
Definition set_args (a : list Arg) (i : Inst) : Inst :=
  mkInst (i_op i) a (i_num_use i) (i_id i) (i_vir_reg i) (i_ret i) (i_next_pseudo i).
Definition set_num_use (n : Z) (i : Inst) : Inst :=
  mkInst (i_op i) (i_args i) n (i_id i) (i_vir_reg i) (i_ret i) (i_next_pseudo i).
Definition set_id (n : Z) (i : Inst) : Inst :=
  mkInst (i_op i) (i_args i) (i_num_use i) n (i_vir_reg i) (i_ret i) (i_next_pseudo i).
Definition set_ret (t : ValueType) (i : Inst) : Inst :=
  mkInst (i_op i) (i_args i) (i_num_use i) (i_id i) (i_vir_reg i) t (i_next_pseudo i).
Definition set_next (p : option Ptr) (i : Inst) : Inst :=
  mkInst (i_op i) (i_args i) (i_num_use i) (i_id i) (i_vir_reg i) (i_ret i) p.

(** ** Reading *)

(** Dereferencing a pointer that names no object is undefined. *)
Definition deref (h : Heap) (p : Ptr) : Res Inst :=
  match h !! p with Some i => Ok i | None => Err EUndefined end.

(** [Value::Def], under [ASSERT(Def())]. *)
Definition Value_def (v : Value) : Res Ptr :=
  match v_inst v with Some p => Ok p | None => Err EPanic end.

Definition Value_Type (h : Heap) (v : Value) : Res ValueType :=
  p <-? Value_def v;
  if decide (v_cast v = ValueType_VOID) then i <-? deref h p; Ok (i_ret i)
  else Ok (v_cast v).

Definition Inst_HasValue (i : Inst) : bool := bool_decide (op_return_type (i_op i) = ArgType_Value).

Definition IsPseudoOp (op : OpCode) : bool :=
  match op with
  | OpCode_GetFlags | OpCode_SaveFlags | OpCode_BranchOnlyFlags | OpCode_GetResult
  | OpCode_Div128Remainder | OpCode_CpuidUpper => true
  | _ => false
  end.

Definition IsPseudoOperation (i : Inst) : bool := IsPseudoOp (i_op i).

(** [Inst::ArgAt]: an index outside the array is undefined. *)
Definition ArgAt (i : Inst) (idx : nat) : Res Arg :=
  match i_args i !! idx with Some a => Ok a | None => Err EUndefined end.

(** [Inst::PublicIndex]: logical argument index to physical slot. *)
Definition PublicIndex (i : Inst) (logical : nat) : Res nat :=
  let ts := op_arg_types (i_op i) in
  if bool_decide (logical < length ts)%nat then
    let phys := foldr (fun t n => n + (PhysicalSlots t - 1)) (Z.of_nat logical)
                      (take logical ts) in
    if phys <? Z.of_nat max_args then Ok (Z.to_nat phys) else Err EPanic
  else Err EPanic.

(** [Inst::GetArg<T>] for each [T]. *)
Definition get_slot (i : Inst) (logical : nat) : Res Arg :=
  p <-? PublicIndex i logical; ArgAt i p.

Definition GetArg_Value (i : Inst) (n : nat) : Res Value :=
  a <-? get_slot i n; match a with AValue v => Ok v | _ => Err EPanic end.
Definition GetArg_Imm (i : Inst) (n : nat) : Res Imm :=
  a <-? get_slot i n; match a with AImm v => Ok v | _ => Err EPanic end.
Definition GetArg_Uniform (i : Inst) (n : nat) : Res Uniform :=
  a <-? get_slot i n; match a with AUniform v => Ok v | _ => Err EPanic end.
Definition GetArg_Local (i : Inst) (n : nat) : Res Local_ :=
  a <-? get_slot i n; match a with ALocal v => Ok v | _ => Err EPanic end.
Definition GetArg_Cond (i : Inst) (n : nat) : Res Cond :=
  a <-? get_slot i n; match a with ACond v => Ok v | _ => Err EPanic end.
Definition GetArg_Flags (i : Inst) (n : nat) : Res Z :=
  a <-? get_slot i n; match a with AFlags v => Ok v | _ => Err EPanic end.
Definition GetArg_Lambda (i : Inst) (n : nat) : Res Lambda :=
  a <-? get_slot i n; match a with ALambda v => Ok v | _ => Err EPanic end.
Definition GetArg_Params (i : Inst) (n : nat) : Res (list DataClass) :=
  a <-? get_slot i n; match a with AParams v => Ok v | _ => Err EPanic end.
Definition GetArg_Operand (i : Inst) (n : nat) : Res Operand :=
  p <-? PublicIndex i n;
  a <-? ArgAt i p;
  match a with
  | AOperand op =>
      l <-? (x <-? ArgAt i (p + 1); ToDataClass x);
      r <-? (x <-? ArgAt i (p + 2); ToDataClass x);
      Ok (mkOperand op l r)
  | _ => Err EPanic
  end.

(** The values an argument refers to. *)
Definition dc_values (d : DataClass) : list Value :=
  match d with DValue v => [v] | _ => [] end.

Definition arg_values (a : Arg) : list Value :=
  match a with
  | AValue v => [v]
  | ALambda l => if Lambda_IsValue l then dc_values (la_data l) else []
  | AParams ps => mjoin (dc_values <$> ps)
  | _ => []
  end.

(** [Inst::GetValues]. *)
Definition GetValues (i : Inst) : list Value := mjoin (arg_values <$> i_args i).

(** ** Pseudo-operation chains

    The loops below follow [next_pseudo_inst]; a chain in the heap is at most
    as long as the heap, which is the fuel the callers pass. *)
Fixpoint pseudo_chain (fuel : nat) (h : Heap) (p : option Ptr) : Res (list Ptr) :=
  match p with
  | None => Ok []
  | Some q =>
      match fuel with
      | O => Err EFuel
      | S f => i <-? deref h q;
               rest <-? pseudo_chain f h (i_next_pseudo i);
               Ok (q :: rest)
      end
  end.

Definition heap_fuel (h : Heap) : nat := S (size h).

(** [Inst::GetPseudoOperations()] and [GetPseudoOperations(OpCode)], with their
    [ASSERT] that every link names this instruction as argument 0. *)
Fixpoint check_pseudos (h : Heap) (this : Ptr) (ps : list Ptr) : Res unit :=
  match ps with
  | [] => Ok tt
  | q :: ps' =>
      i <-? deref h q;
      v <-? GetArg_Value i 0;
      if decide (v_inst v = Some this) then check_pseudos h this ps' else Err EPanic
  end.

Definition GetPseudoOperations (h : Heap) (this : Ptr) : Res (list Ptr) :=
  i <-? deref h this;
  ps <-? pseudo_chain (heap_fuel h) h (i_next_pseudo i);
  _ <-? check_pseudos h this ps;
  Ok ps.

Definition ptr_op (h : Heap) (p : Ptr) : OpCode :=
  match h !! p with Some i => i_op i | None => OpCode_Void end.

Definition GetPseudoOperations_op (h : Heap) (this : Ptr) (op : OpCode) : Res (list Ptr) :=
  ps <-? GetPseudoOperations h this;
  Ok (filter (fun q => ptr_op h q = op) ps).

(** [Inst::HasFlagsSavePseudo]: stops at the first saving link. *)
Fixpoint save_pseudo_from (h : Heap) (this : Ptr) (ps : list Ptr) : Res bool :=
  match ps with
  | [] => Ok false
  | q :: ps' =>
      i <-? deref h q;
      v <-? GetArg_Value i 0;
      if decide (v_inst v = Some this) then
        if op_eqb (i_op i) OpCode_SaveFlags || op_eqb (i_op i) OpCode_BranchOnlyFlags
        then Ok true else save_pseudo_from h this ps'
      else Err EPanic
  end.

Definition HasFlagsSavePseudo (h : Heap) (this : Ptr) : Res bool :=
  i <-? deref h this;
  ps <-? pseudo_chain (heap_fuel h) h (i_next_pseudo i);
  save_pseudo_from h this ps.

(** [Inst::GetUses(exclude_pseudo)]: a [u8]. *)
Definition GetUses (h : Heap) (this : Ptr) (exclude_pseudo : bool) : Res Z :=
  i <-? deref h this;
  if negb exclude_pseudo then Ok (i_num_use i)
  else ps <-? GetPseudoOperations h this;
       Ok (wrap 8 (i_num_use i - Z.of_nat (length ps))).

(** [Inst::HasSideEffects]. *)
Definition op_has_side_effects (op : OpCode) : bool :=
  match op with
  | OpCode_CompareAndSwap | OpCode_CompareAndSwap128 | OpCode_AtomicExchange
  | OpCode_AtomicFetchAdd | OpCode_AtomicRMW | OpCode_X87Op | OpCode_CallLambda
  | OpCode_CallLocation | OpCode_CallDynamic => true
  | _ => bool_decide (op_return_type op = ArgType_Void)
  end.

Definition HasSideEffects (i : Inst) : bool :=
  if negb (i_num_use i =? 0) then true else op_has_side_effects (i_op i).

(** ** Mutation *)

Definition heap_deref (p : Ptr) : ST Heap Inst := h <- get;; lift (deref h p).

Definition heap_update (p : Ptr) (f : Inst -> Inst) : ST Heap unit :=
  i <- heap_deref p;; modify (insert p (f i)).

(** The last link of the chain that starts at [p] (the loop of [Inst::Use]). *)
Fixpoint chain_end (fuel : nat) (h : Heap) (p : Ptr) : Res Ptr :=
  i <-? deref h p;
  match i_next_pseudo i with
  | None => Ok p
  | Some q => match fuel with O => Err EFuel | S f => chain_end f h q end
  end.

(** The link whose successor is [this] (the loop of [Inst::UnUse]). *)
Fixpoint chain_before (fuel : nat) (h : Heap) (p this : Ptr) : Res Ptr :=
  i <-? deref h p;
  match i_next_pseudo i with
  | None => Err EUndefined
  | Some q => if decide (q = this) then Ok p
              else match fuel with O => Err EFuel | S f => chain_before f h q this end
  end.

Definition Inst_Use (this : Ptr) (v : Value) : ST Heap unit :=
  def <- lift (Value_def v);;
  heap_update def (fun d => set_num_use (wrap 8 (i_num_use d + 1)) d);;;
  i <- heap_deref this;;
  if IsPseudoOperation i then
    h <- get;;
    tail <- lift (chain_end (heap_fuel h) h def);;
    heap_update tail (set_next (Some this))
  else ret tt.

Definition Inst_UnUse (this : Ptr) (v : Value) : ST Heap unit :=
  def <- lift (Value_def v);;
  heap_update def (fun d => set_num_use (wrap 8 (i_num_use d - 1)) d);;;
  i <- heap_deref this;;
  if IsPseudoOperation i then
    h <- get;;
    prev <- lift (chain_before (heap_fuel h) h def this);;
    heap_update prev (set_next (i_next_pseudo i));;;
    heap_update this (set_next None)
  else ret tt.

(** [Inst::DestroyArg]: unregister the values of a slot and blank it. *)
Definition DestroyArg (this : Ptr) (idx : nat) : ST Heap unit :=
  i <- heap_deref this;;
  a <- lift (ArgAt i idx);;
  match a with
  | AVoid => ret tt
  | _ => for_each (Inst_UnUse this) (arg_values a);;;
         heap_update this (fun j => set_args (<[idx := AVoid]> (i_args j)) j)
  end.

Definition DestroyArgs (this : Ptr) : ST Heap unit :=
  for_each (DestroyArg this) (seq 0 max_args).

(** Storing an argument in its slot (the assignment [arguments[index] = arg]). *)
Definition put_arg (this : Ptr) (idx : nat) (a : Arg) : ST Heap unit :=
  i <- heap_deref this;;
  guard (bool_decide (idx < length (i_args i))%nat) EUndefined;;;
  heap_update this (fun j => set_args (<[idx := a]> (i_args j)) j).

(** The default return type taken from an argument. *)
Definition default_ret (this : Ptr) (t : ValueType) : ST Heap unit :=
  i <- heap_deref this;;
  if Inst_HasValue i && bool_decide (i_ret i = ValueType_VOID)
  then heap_update this (set_ret t) else ret tt.

Definition SetArg_Value (this : Ptr) (idx : nat) (v : Value) : ST Heap unit :=
  DestroyArg this idx;;;
  put_arg this idx (AValue v);;;
  Inst_Use this v;;;
  i <- heap_deref this;;
  if Inst_HasValue i && bool_decide (i_ret i = ValueType_VOID)
  then h <- get;; t <- lift (Value_Type h v);; heap_update this (set_ret t)
  else ret tt.

Definition SetArg_Imm (this : Ptr) (idx : nat) (m : Imm) : ST Heap unit :=
  DestroyArg this idx;;; put_arg this idx (AImm m);;; default_ret this (imm_type m).

Definition SetArg_Uniform (this : Ptr) (idx : nat) (u : Uniform) : ST Heap unit :=
  DestroyArg this idx;;; put_arg this idx (AUniform u);;; default_ret this (u_type u).

(** [SetArg(Local)] tests [return_type != Void] instead of [HasValue]. *)
Definition SetArg_Local (this : Ptr) (idx : nat) (l : Local_) : ST Heap unit :=
  DestroyArg this idx;;;
  put_arg this idx (ALocal l);;;
  i <- heap_deref this;;
  if bool_decide (i_ret i = ValueType_VOID)
     && negb (bool_decide (op_return_type (i_op i) = ArgType_Void))
  then heap_update this (set_ret (l_type l)) else ret tt.

(** [SetArg] of [Void], [Cond], [Flags] and [Operand::Op]: no bookkeeping. *)
Definition SetArg_plain (this : Ptr) (idx : nat) (a : Arg) : ST Heap unit :=
  DestroyArg this idx;;; put_arg this idx a.

Definition SetArg_Lambda (this : Ptr) (idx : nat) (l : Lambda) : ST Heap unit :=
  DestroyArg this idx;;;
  put_arg this idx (ALambda l);;;
  if Lambda_IsValue l then v <- lift (Lambda_GetValue l);; Inst_Use this v else ret tt.

Definition SetArg_Operand (this : Ptr) (idx : nat) (o : Operand) : ST Heap unit :=
  guard (bool_decide (idx + 3 - 1 < max_args)%nat) EPanic;;;
  DestroyArg this idx;;;
  put_arg this idx (AOperand (o_op o));;;
  DestroyArg this (idx + 1);;;
  put_arg this (idx + 1) (ToArgClass (o_left o));;;
  DestroyArg this (idx + 2);;;
  put_arg this (idx + 2) (ToArgClass (o_right o));;;
  for_each (Inst_Use this) (dc_values (o_left o));;;
  for_each (Inst_Use this) (dc_values (o_right o)).

Definition SetArg_Params (this : Ptr) (idx : nat) (ps : list DataClass) : ST Heap unit :=
  DestroyArg this idx;;;
  put_arg this idx (AParams ps);;;
  for_each (Inst_Use this) (mjoin (dc_values <$> ps)).

(** [Inst::SetInst] with one [Value] argument. *)
Definition SetInst_Value (this : Ptr) (op : OpCode) (v : Value) : ST Heap unit :=
  heap_update this (set_op op);;; SetArg_Value this 0 v.

(** [~Inst]: unregister every argument, then release the object. *)
Definition Inst_delete (this : Ptr) : ST Heap unit :=
  DestroyArgs this;;; modify (delete this).
