(* ===== verification/UseCount.v ===== *)
(** * Use counts

    [Inst::num_use] is a [u8] that is meant to count the places that refer to
    a definition.  [counts_ok ext h] says it does, modulo 256: the count of
    every instruction equals the number of argument references to it in the
    heap plus the references [ext] held elsewhere (block terminals).  Every
    argument mutation of instr.cpp preserves it. *)

From Stdlib Require Import ZArith Lia.
From stdpp Require Import numbers base gmap list.
From S2P Require Import Prelude MachineInt IRTypes Instr.

Local Open Scope Z_scope.
Local Open Scope svm_scope.

(** References to [d] in a list of values, in an instruction, in the heap. *)
Definition count_vals (d : Ptr) (vs : list Value) : Z :=
  Z.of_nat (length (filter (fun v => v_inst v = Some d) vs)).

Definition count_inst (d : Ptr) (i : Inst) : Z := count_vals d (GetValues i).

Definition count_heap (h : Heap) (d : Ptr) : Z :=
  map_fold (fun _ i n => count_inst d i + n) 0 h.

Definition counts_ok (ext : Ptr -> Z) (h : Heap) : Prop :=
  forall d i, h !! d = Some i -> i_num_use i = wrap 8 (count_heap h d + ext d).

(** ** Counting lemmas *)

Lemma count_vals_app d l1 l2 : count_vals d (l1 ++ l2) = count_vals d l1 + count_vals d l2.
Proof. unfold count_vals. rewrite filter_app, length_app. lia. Qed.

Lemma count_vals_cons d v l :
  count_vals d (v :: l) = (if decide (v_inst v = Some d) then 1 else 0) + count_vals d l.
Proof. unfold count_vals. rewrite filter_cons. case_decide; simpl length; lia. Qed.

Lemma count_vals_nil d : count_vals d [] = 0.
Proof. done. Qed.

Definition count_args (d : Ptr) (l : list Arg) : Z := count_vals d (mjoin (arg_values <$> l)).

Lemma count_args_cons d a l :
  count_args d (a :: l) = count_vals d (arg_values a) + count_args d l.
Proof. unfold count_args. simpl. by rewrite count_vals_app. Qed.

(** Replacing one argument changes the count by the difference. *)
Lemma count_args_insert d l idx a b :
  l !! idx = Some a ->
  count_args d (<[idx := b]> l) =
  count_args d l - count_vals d (arg_values a) + count_vals d (arg_values b).
Proof.
  revert idx. induction l as [|x l IH]; intros [|idx]; simpl; intros H; try discriminate.
  - injection H as ->. rewrite !count_args_cons. lia.
  - rewrite !count_args_cons, (IH _ H). lia.
Qed.

Lemma count_heap_delete h p i d :
  h !! p = Some i -> count_heap h d = count_inst d i + count_heap (delete p h) d.
Proof.
  intros H. unfold count_heap.
  by rewrite (map_fold_delete_L (fun _ i n => count_inst d i + n) 0 p i h)
    by (try done; intros; lia).
Qed.

Lemma count_heap_update h p i j d :
  h !! p = Some i ->
  count_heap (<[p := j]> h) d = count_heap h d - count_inst d i + count_inst d j.
Proof.
  intros H. rewrite (count_heap_delete h p i d H).
  rewrite (count_heap_delete (<[p := j]> h) p j d) by apply lookup_insert_eq.
  rewrite delete_insert_eq. lia.
Qed.

(** ** Effect of the primitive updates *)

(** An update that slots_kept arguments and count slots_kept the invariant. *)
Lemma counts_update_neutral ext h p i j :
  h !! p = Some i -> i_args j = i_args i -> i_num_use j = i_num_use i ->
  counts_ok ext h -> counts_ok ext (<[p := j]> h).
Proof.
  intros Hp Ha Hn Hok d k. rewrite (count_heap_update h p i j d Hp).
  assert (count_inst d j = count_inst d i) as -> by (unfold count_inst, GetValues; by rewrite Ha).
  rewrite lookup_insert. case_decide as Hd; intros Hk.
  - injection Hk as <-. subst d. rewrite Hn, (Hok p i Hp). f_equal. lia.
  - rewrite (Hok d k Hk). f_equal. lia.
Qed.

Lemma heap_deref_inv p h i h' : heap_deref p h = Ok (i, h') -> h' = h /\ h !! p = Some i.
Proof.
  unfold heap_deref, bind, get, lift, deref.
  destruct (h !! p); intros [= <- <-]. auto.
Qed.

Lemma heap_update_inv p f h u h' :
  heap_update p f h = Ok (u, h') -> exists i, h !! p = Some i /\ h' = <[p := f i]> h.
Proof.
  unfold heap_update. intros H. apply bind_ok in H as (i & s & H1 & H2).
  apply heap_deref_inv in H1 as [-> Hi]. unfold modify in H2. injection H2 as <- <-. eauto.
Qed.

Definition neutral (f : Inst -> Inst) : Prop :=
  forall i, i_args (f i) = i_args i /\ i_num_use (f i) = i_num_use i.

Lemma hoare_update_neutral ext p f :
  neutral f -> hoare (counts_ok ext) (heap_update p f) (fun _ => counts_ok ext).
Proof.
  intros Hf h u h' Hok H. apply heap_update_inv in H as (i & Hi & ->).
  destruct (Hf i). by eapply counts_update_neutral.
Qed.

Lemma hoare_deref ext p :
  hoare (counts_ok ext) (heap_deref p) (fun i h => h !! p = Some i /\ counts_ok ext h).
Proof. intros h i h' Hok H. apply heap_deref_inv in H as [-> ?]. auto. Qed.

(** [ext] shifted by [k] at the definition of a value. *)
Definition shift (ext : Ptr -> Z) (k : Z) (v : Value) : Ptr -> Z :=
  fun d => ext d + (if decide (v_inst v = Some d) then k else 0).

Lemma hoare_count ext v k def :
  v_inst v = Some def ->
  hoare (counts_ok ext)
    (heap_update def (fun d => set_num_use (wrap 8 (i_num_use d + k)) d))
    (fun _ => counts_ok (shift ext k v)).
Proof.
  intros Hv h u h' Hok H. apply heap_update_inv in H as (i & Hi & ->).
  intros d j. rewrite (count_heap_update h def i _ d Hi).
  change (count_inst d (set_num_use _ i)) with (count_inst d i).
  unfold shift. rewrite Hv. rewrite lookup_insert. case_decide as Hd; intros Hj.
  - injection Hj as <-. subst d. simpl. rewrite decide_True by done.
    rewrite (Hok def i Hi), wrap_add_l by lia. f_equal. lia.
  - rewrite decide_False by congruence. rewrite (Hok d j Hj). f_equal. lia.
Qed.

(** ** The invariant with the argument list of one instruction *)

Definition args_at (this : Ptr) (l : list Arg) (h : Heap) : Prop :=
  exists i, h !! this = Some i /\ i_args i = l.

Definition cinv (ext : Ptr -> Z) (this : Ptr) (l : list Arg) (h : Heap) : Prop :=
  counts_ok ext h /\ args_at this l h.

Lemma counts_ok_ext ext ext' h :
  (forall d, ext d = ext' d) -> counts_ok ext h -> counts_ok ext' h.
Proof. intros E H d i Hi. rewrite <- E. by apply H. Qed.

Lemma args_at_update this l p f h i :
  h !! p = Some i -> i_args (f i) = i_args i -> args_at this l h -> args_at this l (<[p := f i]> h).
Proof.
  intros Hp Hf (j & Hj & Hl). unfold args_at. rewrite lookup_insert. case_decide as Hd.
  - subst p. simplify_eq. exists (f i). by rewrite Hf.
  - eauto.
Qed.

Lemma hoare_cinv_update ext ext' this l p f :
  hoare (counts_ok ext) (heap_update p f) (fun _ => counts_ok ext') ->
  (forall i, i_args (f i) = i_args i) ->
  hoare (cinv ext this l) (heap_update p f) (fun _ => cinv ext' this l).
Proof.
  intros H Hf h u h' [Hok Ha] E. split; [by eapply H|].
  apply heap_update_inv in E as (i & Hi & ->). by apply args_at_update.
Qed.

Lemma hoare_cinv_neutral ext this l p f :
  neutral f -> hoare (cinv ext this l) (heap_update p f) (fun _ => cinv ext this l).
Proof.
  intros Hf. apply hoare_cinv_update; [by apply hoare_update_neutral|apply Hf].
Qed.

Lemma hoare_cinv_deref ext this l p :
  hoare (cinv ext this l) (heap_deref p) (fun i h => h !! p = Some i /\ cinv ext this l h).
Proof. intros h i h' Hok H. apply heap_deref_inv in H as [-> ?]. auto. Qed.

Lemma neutral_set_next q : neutral (set_next q).
Proof. done. Qed.
Lemma neutral_set_ret t : neutral (set_ret t).
Proof. done. Qed.
Lemma neutral_set_op op : neutral (set_op op).
Proof. done. Qed.
#[local] Hint Resolve neutral_set_next neutral_set_ret neutral_set_op : core.

Lemma hoare_ret' {S A} (P : S -> Prop) (a : A) : hoare P (ret a) (fun _ => P).
Proof. intros s b s' HP [= <- <-]. auto. Qed.

Lemma hoare_get' {S} (P : S -> Prop) : hoare P get (fun _ => P).
Proof. intros s b s' HP [= <- <-]. auto. Qed.

Lemma hoare_deref' (P : Heap -> Prop) p : hoare P (heap_deref p) (fun _ => P).
Proof. intros h i h' HP H. by apply heap_deref_inv in H as [-> _]. Qed.

(** One step of a triple: rule of the head combinator. *)
Ltac hstep :=
  cbv beta;
  lazymatch goal with
  | |- hoare (fun s => ?X /\ @?P s) _ _ => apply hoare_pull; intros ?
  | |- hoare _ (bind _ _) _ => eapply hoare_bind; [|intros ?]
  | |- hoare _ (if ?b then _ else _) _ => destruct b eqn:?
  | |- hoare _ (lift _) _ => apply hoare_lift
  | |- hoare _ get _ => apply hoare_get'
  | |- hoare _ (guard _ _) _ => apply hoare_guard
  | |- hoare _ (heap_deref _) _ => apply hoare_deref'
  end.

Lemma hoare_Use ext this l p v :
  hoare (cinv ext this l) (Inst_Use p v) (fun _ => cinv (shift ext 1 v) this l).
Proof.
  unfold Inst_Use. hstep; [apply hoare_lift|]. hstep.
  match goal with H : Value_def v = Ok ?q |- _ =>
    unfold Value_def in H; destruct (v_inst v) eqn:Hv; [injection H as <-|discriminate] end.
  hstep; [apply hoare_cinv_update; [by apply hoare_count|done]|].
  hstep; [hstep|]. hstep; [|apply hoare_ret'].
  hstep; [hstep|]. hstep; [hstep|]. hstep. by apply hoare_cinv_neutral.
Qed.

Lemma hoare_UnUse ext this l p v :
  hoare (cinv ext this l) (Inst_UnUse p v) (fun _ => cinv (shift ext (-1) v) this l).
Proof.
  unfold Inst_UnUse. hstep; [apply hoare_lift|]. hstep.
  match goal with H : Value_def v = Ok ?q |- _ =>
    unfold Value_def in H; destruct (v_inst v) eqn:Hv; [injection H as <-|discriminate] end.
  hstep; [apply hoare_cinv_update; [by apply (hoare_count ext v (-1))|done]|].
  hstep; [hstep|]. hstep; [|apply hoare_ret'].
  hstep; [hstep|]. hstep; [hstep|]. hstep.
  hstep; [by apply hoare_cinv_neutral|]. by apply hoare_cinv_neutral.
Qed.

Definition shifts (ext : Ptr -> Z) (k : Z) (vs : list Value) : Ptr -> Z :=
  fun d => ext d + k * count_vals d vs.

Lemma hoare_for_each_use ext this l k (f : Value -> ST Heap unit) vs :
  (forall ext v, hoare (cinv ext this l) (f v) (fun _ => cinv (shift ext k v) this l)) ->
  hoare (cinv ext this l) (for_each f vs) (fun _ => cinv (shifts ext k vs) this l).
Proof.
  intros Hf. revert ext. induction vs as [|v vs IH]; intros ext; simpl.
  - eapply hoare_weaken; [apply hoare_ret'|exact (fun s H => H)|].
    intros _ s [H1 H2]. split; [|done]. eapply counts_ok_ext; [|exact H1].
    intros d. unfold shifts. rewrite count_vals_nil. lia.
  - hstep; [apply Hf|]. eapply hoare_weaken; [apply IH|exact (fun s H => H)|].
    intros _ s [H1 H2]. split; [|done]. eapply counts_ok_ext; [|exact H1].
    intros d. unfold shifts, shift. rewrite count_vals_cons. case_decide; lia.
Qed.

(** Storing [b] over [a] in slot [idx]: the heap loses the references of [a]
    and gains those of [b]. *)
Lemma hoare_store ext this l idx a b :
  l !! idx = Some a ->
  hoare (cinv ext this l)
    (heap_update this (fun j => set_args (<[idx := b]> (i_args j)) j))
    (fun _ => cinv (shifts (shifts ext 1 (arg_values a)) (-1) (arg_values b))
                this (<[idx := b]> l)).
Proof.
  intros Hl h u h' [Hok (i & Hi & Ha)] E. apply heap_update_inv in E as (i' & Hi' & ->).
  rewrite Hi in Hi'. injection Hi' as <-. subst l. split.
  - intros d j. rewrite (count_heap_update h this i _ d Hi).
    assert (count_inst d (set_args (<[idx:=b]> (i_args i)) i) =
            count_inst d i - count_vals d (arg_values a) + count_vals d (arg_values b)) as ->.
    { unfold count_inst, GetValues. simpl. by apply (count_args_insert d). }
    unfold shifts. rewrite lookup_insert. case_decide as Hd; intros Hj.
    + injection Hj as <-. subst d. simpl. rewrite (Hok _ _ Hi). f_equal. lia.
    + rewrite (Hok _ _ Hj). f_equal. lia.
  - eexists. split; [apply lookup_insert_eq|]. done.
Qed.

Lemma hoare_cinv_ext {A} (P : Heap -> Prop) (m : ST Heap A) ext ext' this l :
  (forall d, ext d = ext' d) ->
  hoare P m (fun _ => cinv ext this l) -> hoare P m (fun _ => cinv ext' this l).
Proof.
  intros E H. eapply hoare_weaken; [exact H|done|].
  intros _ s [H1 H2]. split; [|done]. by eapply counts_ok_ext.
Qed.

(** ** Argument mutations *)

Lemma hoare_deref_args (P : Heap -> Prop) this l :
  (forall h, P h -> args_at this l h) ->
  hoare P (heap_deref this) (fun i h => i_args i = l /\ P h).
Proof.
  intros HP h i h' H E. apply heap_deref_inv in E as [-> Hi]. split; [|done].
  destruct (HP h H) as (j & Hj & <-). congruence.
Qed.

Lemma hoare_DestroyArg ext this l idx :
  hoare (cinv ext this l) (DestroyArg this idx)
    (fun _ h => (idx < length l)%nat /\ cinv ext this (<[idx := AVoid]> l) h).
Proof.
  unfold DestroyArg. hstep; [apply (hoare_deref_args _ this l); by intros h []|].
  hstep. hstep; [hstep|]. hstep.
  match goal with H : i_args ?i = l, H' : ArgAt ?i idx = Ok ?a |- _ =>
    unfold ArgAt in H'; rewrite H in H';
    destruct (l !! idx) as [x|] eqn:Hx; [injection H' as <-|discriminate] end.
  pose proof (lookup_lt_Some _ _ _ Hx) as Hlt.
  assert (hoare (cinv ext this l)
            (for_each (Inst_UnUse this) (arg_values x);;;
             heap_update this (fun j => set_args (<[idx := AVoid]> (i_args j)) j))
            (fun _ h => (idx < length l)%nat /\ cinv ext this (<[idx := AVoid]> l) h)) as Hmain.
  { hstep; [apply hoare_for_each_use; intros; apply hoare_UnUse|].
    eapply hoare_weaken; [apply (hoare_store (shifts ext (-1) (arg_values x)) this l idx x AVoid Hx)|exact (fun s H => H)|].
    intros _ s [H1 H2]. split; [done|]. split; [|done]. eapply counts_ok_ext; [|exact H1].
    intros d. unfold shifts. simpl. rewrite count_vals_nil. lia. }
  destruct x; try exact Hmain.
  eapply hoare_weaken; [apply hoare_ret'|exact (fun s H => H)|].
  intros ? s Hs. split; [done|]. by rewrite list_insert_id.
Qed.

Lemma hoare_put_arg ext this l idx a :
  l !! idx = Some AVoid ->
  hoare (cinv ext this l) (put_arg this idx a)
    (fun _ => cinv (shifts ext (-1) (arg_values a)) this (<[idx := a]> l)).
Proof.
  intros Hl. unfold put_arg. hstep; [hstep|]. hstep; [hstep|]. hstep.
  eapply hoare_weaken; [apply (hoare_store ext this l idx AVoid a Hl)|exact (fun s H => H)|].
  intros _ s [H1 H2]. split; [|done]. eapply counts_ok_ext; [|exact H1].
  intros d. unfold shifts. simpl. rewrite count_vals_nil. lia.
Qed.

(** Replace slot [idx]: the references of the new argument are still owed. *)
Lemma hoare_replace ext this l idx a {B} (k : ST Heap B) R :
  hoare (cinv (shifts ext (-1) (arg_values a)) this (<[idx := a]> l)) k R ->
  hoare (cinv ext this l) (DestroyArg this idx;;; put_arg this idx a;;; k) R.
Proof.
  intros Hk. hstep; [apply hoare_DestroyArg|]. hstep. hstep.
  - apply hoare_put_arg. by apply list_lookup_insert_eq.
  - cbv beta. rewrite list_insert_insert_eq. exact Hk.
Qed.

Lemma hoare_replace_last ext this l idx a :
  hoare (cinv ext this l) (DestroyArg this idx;;; put_arg this idx a)
    (fun _ => cinv (shifts ext (-1) (arg_values a)) this (<[idx := a]> l)).
Proof.
  hstep; [apply hoare_DestroyArg|]. hstep.
  eapply hoare_weaken; [apply hoare_put_arg|exact (fun s H => H)|].
  - by apply list_lookup_insert_eq.
  - intros ? s. by rewrite list_insert_insert_eq.
Qed.

Lemma shifts_nil_r ext k d : shifts ext k [] d = ext d.
Proof. unfold shifts. rewrite count_vals_nil. lia. Qed.

Lemma hoare_default_ret ext this l t :
  hoare (cinv ext this l) (default_ret this t) (fun _ => cinv ext this l).
Proof.
  unfold default_ret. hstep; [hstep|]. hstep; [by apply hoare_cinv_neutral|apply hoare_ret'].
Qed.

Lemma hoare_SetArg_Value ext this l idx v :
  hoare (cinv ext this l) (SetArg_Value this idx v)
    (fun _ => cinv ext this (<[idx := AValue v]> l)).
Proof.
  unfold SetArg_Value. apply hoare_replace. hstep; [apply hoare_Use|].
  apply (hoare_cinv_ext _ _ (shift (shifts ext (-1) [v]) 1 v)).
  { intros d. unfold shift, shifts. rewrite count_vals_cons, count_vals_nil.
    case_decide; lia. }
  hstep; [hstep|]. hstep; [|apply hoare_ret'].
  hstep; [hstep|]. hstep; [hstep|]. hstep. by apply hoare_cinv_neutral.
Qed.

Lemma hoare_SetArg_Imm ext this l idx m :
  hoare (cinv ext this l) (SetArg_Imm this idx m)
    (fun _ => cinv ext this (<[idx := AImm m]> l)).
Proof.
  unfold SetArg_Imm. apply hoare_replace.
  eapply hoare_cinv_ext; [|apply hoare_default_ret]. intros d. apply shifts_nil_r.
Qed.

Lemma hoare_SetArg_Uniform ext this l idx u :
  hoare (cinv ext this l) (SetArg_Uniform this idx u)
    (fun _ => cinv ext this (<[idx := AUniform u]> l)).
Proof.
  unfold SetArg_Uniform. apply hoare_replace.
  eapply hoare_cinv_ext; [|apply hoare_default_ret]. intros d. apply shifts_nil_r.
Qed.

Lemma hoare_SetArg_Local ext this l idx x :
  hoare (cinv ext this l) (SetArg_Local this idx x)
    (fun _ => cinv ext this (<[idx := ALocal x]> l)).
Proof.
  unfold SetArg_Local. apply hoare_replace.
  eapply hoare_cinv_ext; [intros d; apply shifts_nil_r|].
  hstep; [hstep|]. hstep; [by apply hoare_cinv_neutral|apply hoare_ret'].
Qed.

Lemma hoare_SetArg_plain ext this l idx a :
  arg_values a = [] ->
  hoare (cinv ext this l) (SetArg_plain this idx a) (fun _ => cinv ext this (<[idx := a]> l)).
Proof.
  intros Ha. unfold SetArg_plain. eapply hoare_cinv_ext; [|apply hoare_replace_last].
  intros d. rewrite Ha. apply shifts_nil_r.
Qed.

Lemma hoare_uses ext this l p vs :
  hoare (cinv (shifts ext (-1) vs) this l) (for_each (Inst_Use p) vs) (fun _ => cinv ext this l).
Proof.
  eapply hoare_cinv_ext; [|apply hoare_for_each_use; intros; apply hoare_Use].
  intros d. unfold shifts. lia.
Qed.

Lemma hoare_SetArg_Params ext this l idx ps :
  hoare (cinv ext this l) (SetArg_Params this idx ps)
    (fun _ => cinv ext this (<[idx := AParams ps]> l)).
Proof. unfold SetArg_Params. apply hoare_replace. apply hoare_uses. Qed.

Lemma hoare_SetArg_Lambda ext this l idx la :
  hoare (cinv ext this l) (SetArg_Lambda this idx la)
    (fun _ => cinv ext this (<[idx := ALambda la]> l)).
Proof.
  unfold SetArg_Lambda. apply hoare_replace. simpl. hstep.
  - hstep; [hstep|]. hstep.
    match goal with H : Lambda_GetValue la = Ok ?v |- _ =>
      unfold Lambda_GetValue in H; destruct (la_type la =? 1); [|discriminate];
      destruct (la_data la); try discriminate; injection H as -> end.
    eapply hoare_cinv_ext; [|apply hoare_Use].
    intros d. unfold shift, shifts. simpl. rewrite count_vals_cons, count_vals_nil.
    case_decide; lia.
  - eapply hoare_cinv_ext; [|apply hoare_ret']. intros d. apply shifts_nil_r.
Qed.

Lemma arg_values_ToArgClass d : arg_values (ToArgClass d) = dc_values d.
Proof. by destruct d. Qed.

Lemma hoare_SetArg_Operand ext this l idx o :
  hoare (cinv ext this l) (SetArg_Operand this idx o)
    (fun _ => cinv ext this
       (<[idx + 2 := ToArgClass (o_right o)]> (<[idx + 1 := ToArgClass (o_left o)]>
          (<[idx := AOperand (o_op o)]> l)))%nat).
Proof.
  unfold SetArg_Operand. hstep; [hstep|]. hstep.
  apply hoare_replace, hoare_replace, hoare_replace. rewrite !arg_values_ToArgClass.
  hstep; [apply hoare_for_each_use; intros; apply hoare_Use|].
  eapply hoare_cinv_ext; [|apply hoare_for_each_use; intros; apply hoare_Use].
  intros d. unfold shifts. simpl. rewrite !count_vals_nil. lia.
Qed.

(** [DestroyArgs] blanks all five slots. *)
Definition blank : list Arg := replicate max_args AVoid.

Lemma hoare_DestroyArgs ext this l :
  length l = max_args ->
  hoare (cinv ext this l) (DestroyArgs this) (fun _ => cinv ext this blank).
Proof.
  intros Hl. do 5 (destruct l as [|? l]; [discriminate|]). destruct l; [|discriminate].
  unfold DestroyArgs. simpl.
  do 5 (hstep; [apply hoare_DestroyArg|]; hstep; cbn [insert list_insert]).
  apply hoare_ret'.
Qed.

Lemma hoare_delete ext this l :
  length l = max_args ->
  hoare (cinv ext this l) (Inst_delete this) (fun _ => counts_ok ext).
Proof.
  intros Hl. unfold Inst_delete. hstep; [by apply hoare_DestroyArgs|].
  intros h u h' [Hok (i & Hi & Ha)] [= <- <-] d j. rewrite lookup_delete.
  case_decide as Hd; [discriminate|]. intros Hj. rewrite (Hok d j Hj).
  rewrite (count_heap_delete h this i d Hi). unfold count_inst, GetValues. rewrite Ha.
  simpl. rewrite count_vals_nil. done.
Qed.

(** ** All mutations, and sequences of them *)

Inductive Mutation :=
| MSetValue (p : Ptr) (idx : nat) (v : Value)
| MSetImm (p : Ptr) (idx : nat) (m : Imm)
| MSetUniform (p : Ptr) (idx : nat) (u : Uniform)
| MSetLocal (p : Ptr) (idx : nat) (l : Local_)
| MSetCond (p : Ptr) (idx : nat) (c : Cond)
| MSetFlags (p : Ptr) (idx : nat) (f : Z)
| MSetVoid (p : Ptr) (idx : nat)
| MSetLambda (p : Ptr) (idx : nat) (l : Lambda)
| MSetOperand (p : Ptr) (idx : nat) (o : Operand)
| MSetParams (p : Ptr) (idx : nat) (ps : list DataClass)
| MSetInst (p : Ptr) (op : OpCode) (v : Value)
| MDestroyArgs (p : Ptr)
| MDelete (p : Ptr).

Definition run_mutation (m : Mutation) : ST Heap unit :=
  match m with
  | MSetValue p idx v => SetArg_Value p idx v
  | MSetImm p idx x => SetArg_Imm p idx x
  | MSetUniform p idx u => SetArg_Uniform p idx u
  | MSetLocal p idx x => SetArg_Local p idx x
  | MSetCond p idx c => SetArg_plain p idx (ACond c)
  | MSetFlags p idx f => SetArg_plain p idx (AFlags f)
  | MSetVoid p idx => SetArg_plain p idx AVoid
  | MSetLambda p idx x => SetArg_Lambda p idx x
  | MSetOperand p idx o => SetArg_Operand p idx o
  | MSetParams p idx ps => SetArg_Params p idx ps
  | MSetInst p op v => SetInst_Value p op v
  | MDestroyArgs p => DestroyArgs p
  | MDelete p => Inst_delete p
  end.

Definition mutation_target (m : Mutation) : Ptr :=
  match m with
  | MSetValue p _ _ | MSetImm p _ _ | MSetUniform p _ _ | MSetLocal p _ _ | MSetCond p _ _
  | MSetFlags p _ _ | MSetVoid p _ | MSetLambda p _ _ | MSetOperand p _ _ | MSetParams p _ _
  | MSetInst p _ _ | MDestroyArgs p | MDelete p => p
  end.

Definition run_mutations (ms : list Mutation) : ST Heap unit := for_each run_mutation ms.

(** Every instruction object has its five slots. *)
Definition five_slots (h : Heap) : Prop := map_Forall (fun _ i => length (i_args i) = max_args) h.

Lemma cinv_counts ext this l h : cinv ext this l h -> counts_ok ext h.
Proof. by intros []. Qed.

Lemma run_mutation_counts ext m h u h' :
  counts_ok ext h -> five_slots h -> run_mutation m h = Ok (u, h') -> counts_ok ext h'.
Proof.
  intros Hok H5 H. destruct (h !! mutation_target m) as [i|] eqn:Hi.
  - assert (cinv ext (mutation_target m) (i_args i) h) as Hc by (split; [done|by eexists]).
    pose proof (H5 _ _ Hi) as Hlen.
    destruct m; cbn [run_mutation mutation_target] in *;
      first
        [ eapply cinv_counts, hoare_SetArg_Value; by eauto
        | eapply cinv_counts, hoare_SetArg_Imm; by eauto
        | eapply cinv_counts, hoare_SetArg_Uniform; by eauto
        | eapply cinv_counts, hoare_SetArg_Local; by eauto
        | eapply cinv_counts, hoare_SetArg_plain; by eauto
        | eapply cinv_counts, hoare_SetArg_Lambda; by eauto
        | eapply cinv_counts, hoare_SetArg_Operand; by eauto
        | eapply cinv_counts, hoare_SetArg_Params; by eauto
        | eapply cinv_counts, hoare_DestroyArgs; by eauto
        | eapply hoare_delete; by eauto
        | idtac ].
    unfold SetInst_Value in H. apply bind_ok in H as (? & s & H1 & H2).
    eapply cinv_counts, hoare_SetArg_Value; [|exact H2].
    eapply (hoare_cinv_neutral ext p (i_args i) p (set_op op)); eauto.
  - exfalso. destruct m; cbn [run_mutation mutation_target] in *; revert H;
      unfold SetInst_Value, SetArg_Value, SetArg_Imm, SetArg_Uniform, SetArg_Local, SetArg_plain,
        SetArg_Lambda, SetArg_Operand, SetArg_Params, Inst_delete, DestroyArgs, max_args,
        DestroyArg, heap_update, heap_deref, bind, get, lift, deref, guard, ret, fail;
      cbn [for_each seq]; try (case_bool_decide; cbn); unfold DestroyArg, heap_deref, bind, get,
        lift, deref; rewrite ?Hi; discriminate.
Qed.

(** *** [five_slots] is preserved *)

Abbreviation slots_kept m := (hoare five_slots m (fun _ => five_slots)).

Lemma slots_update p f :
  (forall i, length (i_args (f i)) = length (i_args i)) -> slots_kept (heap_update p f).
Proof.
  intros Hf h u h' H5 H. apply heap_update_inv in H as (i & Hi & ->).
  apply map_Forall_insert_2; [|done]. rewrite Hf. by apply (H5 p).
Qed.

Lemma slots_bind {A B} (m : ST Heap A) (f : A -> ST Heap B) :
  slots_kept m -> (forall a, slots_kept (f a)) -> slots_kept (bind m f).
Proof. intros. by eapply hoare_bind. Qed.

Lemma slots_lift {A} (r : Res A) : slots_kept (lift r).
Proof. intros h a h' H E. by apply lift_ok in E as [_ ->]. Qed.

Lemma slots_guard b e : slots_kept (guard b e).
Proof. destruct b; [apply hoare_ret'|apply hoare_fail]. Qed.

Lemma slots_for_each {A} (f : A -> ST Heap unit) l : (forall x, slots_kept (f x)) -> slots_kept (for_each f l).
Proof. intros Hf. induction l; simpl; [apply hoare_ret'|by apply slots_bind]. Qed.

Lemma slots_delete p : slots_kept (modify (delete p)).
Proof. intros h u h' H [= <- <-]. by apply map_Forall_delete. Qed.

Create HintDb slots_kept discriminated.
#[local] Hint Constants Opaque : slots_kept.
#[local] Hint Resolve slots_bind slots_lift slots_guard slots_for_each slots_delete hoare_ret'
  hoare_get' hoare_deref' hoare_fail hoare_if : slots_kept.
#[local] Hint Extern 3 (slots_kept (heap_update _ _)) =>
  apply slots_update; intros; simpl; rewrite ?length_insert; reflexivity : slots_kept.
#[local] Hint Extern 4 (slots_kept (match ?x with _ => _ end)) => destruct x : slots_kept.

Ltac slots_kept :=
  repeat (progress intros ||
          lazymatch goal with
          | |- hoare _ (bind _ _) _ => apply slots_bind
          | |- hoare _ (if _ then _ else _) _ => apply hoare_if
          end);
  eauto with slots_kept.

Lemma slots_Use p v : slots_kept (Inst_Use p v).
Proof. unfold Inst_Use. slots_kept. Qed.
Lemma slots_UnUse p v : slots_kept (Inst_UnUse p v).
Proof. unfold Inst_UnUse. slots_kept. Qed.
#[local] Hint Resolve slots_Use slots_UnUse : slots_kept.
Lemma slots_DestroyArg p idx : slots_kept (DestroyArg p idx).
Proof. unfold DestroyArg. slots_kept. destruct a0; slots_kept. Qed.
Lemma slots_put_arg p idx a : slots_kept (put_arg p idx a).
Proof. unfold put_arg. slots_kept. Qed.
Lemma slots_default_ret p t : slots_kept (default_ret p t).
Proof. unfold default_ret. slots_kept. Qed.
#[local] Hint Resolve slots_DestroyArg slots_put_arg slots_default_ret : slots_kept.

Lemma slots_mutation m : slots_kept (run_mutation m).
Proof.
  destruct m; cbn [run_mutation];
    unfold SetInst_Value, SetArg_Value, SetArg_Imm, SetArg_Uniform, SetArg_Local, SetArg_plain,
      SetArg_Lambda, SetArg_Operand, SetArg_Params, Inst_delete, DestroyArgs; slots_kept.
Qed.

(** (C38) The use counters stay exact modulo 256 under every sequence of
    instruction mutations: whatever arguments are set, replaced or destroyed
    and whatever instructions are deleted, in any order, each instruction's
    [num_use] equals the number of references to it from the arguments in the
    heap plus its external (terminal) uses, reduced to a [u8]. *)
Theorem mutations_preserve_counts (ext : Ptr -> Z) (ms : list Mutation) (h h' : Heap) :
  counts_ok ext h -> five_slots h -> run_mutations ms h = Ok (tt, h') ->
  counts_ok ext h' /\ five_slots h'.
Proof.
  unfold run_mutations. revert h. induction ms as [|m ms IH]; intros h Hok H5 H; simpl in H.
  - unfold ret in H. by injection H as <-.
  - apply bind_ok in H as (u & s & H1 & H2). eapply IH; [| |exact H2].
    + by eapply run_mutation_counts.
    + by eapply slots_mutation.
Qed.

(** ** Rewriting an instruction's arguments

    The mutations of arguments leave every view of the instructions that does
    not look at arguments, use counts and chain links. *)
Section SameView.
Context {X : Type} (view : Inst -> X) (h0 : Heap).

Definition same_view (h : Heap) : Prop := forall q, view <$> h !! q = view <$> h0 !! q.
Abbreviation keeps_view m := (hoare same_view m (fun _ => same_view)).

Lemma view_update q f : (forall i, view (f i) = view i) -> keeps_view (heap_update q f).
Proof.
  intros Hf h u h' Hs H r. apply heap_update_inv in H as (i & Hi & ->). rewrite <- (Hs r).
  destruct (decide (r = q)) as [-> |Hne]; [|by rewrite lookup_insert_ne].
  rewrite lookup_insert_eq, Hi. simpl. by rewrite Hf.
Qed.

Lemma view_bind {A B} (m : ST Heap A) (f : A -> ST Heap B) :
  keeps_view m -> (forall a, keeps_view (f a)) -> keeps_view (bind m f).
Proof. intros. by eapply hoare_bind. Qed.
Lemma view_lift {A} (r : Res A) : keeps_view (lift r).
Proof. intros h a h' H E. by apply lift_ok in E as [_ ->]. Qed.
Lemma view_guard b e : keeps_view (guard b e).
Proof. destruct b; [apply hoare_ret'|apply hoare_fail]. Qed.
Lemma view_for_each {A} (f : A -> ST Heap unit) l :
  (forall x, keeps_view (f x)) -> keeps_view (for_each f l).
Proof. intros Hf. induction l; simpl; [apply hoare_ret'|by apply view_bind]. Qed.

Hypothesis view_num_use : forall n i, view (set_num_use n i) = view i.
Hypothesis view_next : forall n i, view (set_next n i) = view i.
Hypothesis view_args : forall n i, view (set_args n i) = view i.

Ltac viewing :=
  repeat first
    [ apply hoare_ret' | apply hoare_deref' | apply hoare_get' | apply view_lift | apply view_guard
    | apply view_for_each; intros ? | apply view_update; intros ?; solve [auto]
    | apply view_bind; [|intros ?] | apply hoare_if ].

Lemma view_UnUse p v : keeps_view (Inst_UnUse p v).
Proof. unfold Inst_UnUse. viewing. Qed.
Lemma view_Use p v : keeps_view (Inst_Use p v).
Proof. unfold Inst_Use. viewing. Qed.
Lemma view_DestroyArg p idx : keeps_view (DestroyArg p idx).
Proof.
  unfold DestroyArg. apply view_bind; [apply hoare_deref'|]. intros i.
  apply view_bind; [apply view_lift|]. intros a. destruct a; viewing; apply view_UnUse.
Qed.
Lemma view_put_arg p idx a : keeps_view (put_arg p idx a).
Proof. unfold put_arg. viewing. Qed.
Lemma view_SetArg_Operand p idx o : keeps_view (SetArg_Operand p idx o).
Proof.
  unfold SetArg_Operand.
  repeat first [ apply view_DestroyArg | apply view_put_arg | apply view_guard | apply view_Use
               | apply view_for_each; intros ? | apply view_bind; [|intros ?] ].
Qed.
Lemma view_DestroyArgs p : keeps_view (DestroyArgs p).
Proof. apply view_for_each. intros. apply view_DestroyArg. Qed.

Hypothesis view_ret : forall t i, view (set_ret t i) = view i.

Lemma view_SetArg_Value p idx v : keeps_view (SetArg_Value p idx v).
Proof.
  unfold SetArg_Value. apply view_bind; [apply view_DestroyArg|intros _].
  apply view_bind; [apply view_put_arg|intros _].
  apply view_bind; [apply view_Use|intros _]. viewing.
Qed.

Lemma view_SetArg_Lambda p idx l : keeps_view (SetArg_Lambda p idx l).
Proof.
  unfold SetArg_Lambda. apply view_bind; [apply view_DestroyArg|intros _].
  apply view_bind; [apply view_put_arg|intros _]. viewing.
Qed.
End SameView.

Lemma same_view_refl {X} (view : Inst -> X) h : same_view view h h.
Proof. by intros q. Qed.

Lemma same_view_lookup {X} (view : Inst -> X) h h' p i :
  same_view view h h' -> h !! p = Some i -> exists i', h' !! p = Some i' /\ view i' = view i.
Proof.
  intros H Hi. specialize (H p). rewrite Hi in H. destruct (h' !! p) as [i'|]; [|done].
  injection H as H. by exists i'.
Qed.
