(* ===== verification/InstrBuild.v ===== *)
(** * Building and validating instructions

    The construction half of runtime/ir/instr.h and instr.cpp: [SetArgs] and the
    construction-only [SetArgsFresh] (the two routes of [SVM_IR_FAST]), and
    [Inst::Validate].  The first theorem shows that the fast route is the slow
    one on a new instruction, the second that a validated instruction can be
    read: none of the typed [GetArg]s of its declared signature panics. *)

From Stdlib Require Import ZArith Lia.
From stdpp Require Import numbers base gmap list.
From S2P Require Import Prelude MachineInt IRTypes Instr UseCount.

Local Open Scope Z_scope.
Local Open Scope svm_scope.

(** ** Arguments as the overloads of [SetArg] take them *)

Inductive BuildArg :=
| BVoid
| BValue (v : Value)
| BImm (m : Imm)
| BCond (c : Cond)
| BFlags (f : Z)
| BOperandOp (o : OperandOp)
| BLocal (l : Local_)
| BUniform (u : Uniform)
| BLambda (l : Lambda)
| BOperand (o : Operand)
| BParams (ps : list DataClass).

Definition SetArg (p : Ptr) (idx : nat) (b : BuildArg) : ST Heap unit :=
  match b with
  | BVoid => SetArg_plain p idx AVoid
  | BValue v => SetArg_Value p idx v
  | BImm m => SetArg_Imm p idx m
  | BCond c => SetArg_plain p idx (ACond c)
  | BFlags f => SetArg_plain p idx (AFlags f)
  | BOperandOp o => SetArg_plain p idx (AOperand o)
  | BLocal l => SetArg_Local p idx l
  | BUniform u => SetArg_Uniform p idx u
  | BLambda l => SetArg_Lambda p idx l
  | BOperand o => SetArg_Operand p idx o
  | BParams ps => SetArg_Params p idx ps
  end.

(** [SetArgFresh]: the same without [DestroyArg].  The [assert]s that the slot
    is void are debug checks of the standard library. *)
Definition SetArgFresh (p : Ptr) (idx : nat) (b : BuildArg) : ST Heap unit :=
  match b with
  | BVoid => put_arg p idx AVoid
  | BValue v =>
      put_arg p idx (AValue v);;;
      Inst_Use p v;;;
      i <- heap_deref p;;
      if Inst_HasValue i && bool_decide (i_ret i = ValueType_VOID)
      then h <- get;; t <- lift (Value_Type h v);; heap_update p (set_ret t)
      else ret tt
  | BImm m => put_arg p idx (AImm m);;; default_ret p (imm_type m)
  | BCond c => put_arg p idx (ACond c)
  | BFlags f => put_arg p idx (AFlags f)
  | BOperandOp o => put_arg p idx (AOperand o)
  | BLocal l =>
      put_arg p idx (ALocal l);;;
      i <- heap_deref p;;
      if bool_decide (i_ret i = ValueType_VOID)
         && negb (bool_decide (op_return_type (i_op i) = ArgType_Void))
      then heap_update p (set_ret (l_type l)) else ret tt
  | BUniform u => put_arg p idx (AUniform u);;; default_ret p (u_type u)
  | BLambda l =>
      put_arg p idx (ALambda l);;;
      if Lambda_IsValue l then v <- lift (Lambda_GetValue l);; Inst_Use p v else ret tt
  | BOperand o =>
      guard (bool_decide (idx + 3 - 1 < max_args)%nat) EPanic;;;
      put_arg p idx (AOperand (o_op o));;;
      put_arg p (idx + 1) (ToArgClass (o_left o));;;
      put_arg p (idx + 2) (ToArgClass (o_right o));;;
      for_each (Inst_Use p) (dc_values (o_left o));;;
      for_each (Inst_Use p) (dc_values (o_right o))
  | BParams ps =>
      put_arg p idx (AParams ps);;;
      for_each (Inst_Use p) (mjoin (dc_values <$> ps))
  end.

(** [arg_index]: an [Operand] (and its bare operator) advances by three slots. *)
Definition build_width (b : BuildArg) : nat :=
  match b with
  | BOperandOp _ | BOperand _ => Z.to_nat (PhysicalSlots ArgType_Operand)
  | _ => Z.to_nat (PhysicalSlots ArgType_Void)
  end.

Section SetArgs.
Context (set : Ptr -> nat -> BuildArg -> ST Heap unit) (p : Ptr).
Fixpoint set_args_from (idx : nat) (bs : list BuildArg) : ST Heap unit :=
  match bs with
  | [] => ret tt
  | b :: bs' => set p idx b;;; set_args_from (idx + build_width b) bs'
  end.
End SetArgs.

Definition SetArgs (p : Ptr) (bs : list BuildArg) : ST Heap unit := set_args_from SetArg p 0 bs.
Definition SetArgsFresh (p : Ptr) (bs : list BuildArg) : ST Heap unit :=
  set_args_from SetArgFresh p 0 bs.

(** [Inst::Create]: a new object at [p], then its arguments. *)
Definition Inst_Create (p : Ptr) (op : OpCode) (bs : list BuildArg) : ST Heap unit :=
  modify (insert p (Inst_new op));;; SetArgs p bs.

(** [SetInst]. *)
Definition SetInst (p : Ptr) (op : OpCode) (bs : list BuildArg) : ST Heap unit :=
  heap_update p (set_op op);;; SetArgs p bs.

(** [Inst::ReleaseArgs]: blank the slots without touching other instructions. *)
Definition ReleaseArgs (p : Ptr) : ST Heap unit :=
  heap_update p (fun i => set_num_use 0 (set_next None (set_args (const AVoid <$> i_args i) i))).

Definition Inst_Reset (p : Ptr) : ST Heap unit :=
  DestroyArgs p;;; heap_update p (set_op OpCode_Void).

(** ** [Inst::Validate] *)

Definition is_call (op : OpCode) : bool :=
  op_eqb op OpCode_CallLambda || op_eqb op OpCode_CallLocation || op_eqb op OpCode_CallDynamic.

Definition arg_is_lambda (a : Arg) : bool := match a with ALambda _ => true | _ => false end.

(** The loop over the declared argument types. *)
Fixpoint validate_args (i : Inst) (inner : nat) (ts : list ArgType) : Res unit :=
  match ts with
  | [] => Ok tt
  | t :: ts' =>
      if bool_decide (inner < max_args)%nat then
        a <-? ArgAt i inner;
        if decide (arg_type a = t) then validate_args i (inner + Z.to_nat (PhysicalSlots t)) ts'
        else Err EPanic
      else Ok tt
  end.

Definition Validate (i : Inst) : Res unit :=
  if is_call (i_op i) then
    a <-? ArgAt i 0; if arg_is_lambda a then Ok tt else Err EPanic
  else if op_eqb (i_op i) OpCode_Void then Err EPanic
  else validate_args i 0 (op_arg_types (i_op i)).

(** ** Fresh construction *)

Section Fresh.
Context (p : Ptr).

(** The slots of [p] from [k] on are blank. *)
Definition void_from (k : nat) (h : Heap) : Prop :=
  forall i j a, h !! p = Some i -> (k <= j)%nat -> i_args i !! j = Some a -> a = AVoid.

Lemma void_from_mono k k' h : (k <= k')%nat -> void_from k h -> void_from k' h.
Proof. intros Hk H i j a Hi Hj. apply H; [done|lia]. Qed.

Lemma void_from_view k h h' : same_view i_args h h' -> void_from k h -> void_from k h'.
Proof.
  intros Hs H i' j a Hi' Hj Ha. specialize (Hs p). rewrite Hi' in Hs.
  destruct (h !! p) as [i|] eqn:Hi; [|done]. injection Hs as Hs. eapply (H i j a); [done..|].
  by rewrite <- Hs.
Qed.

Lemma destroy_put idx a (K : ST Heap unit) h :
  void_from idx h -> (DestroyArg p idx;;; put_arg p idx a;;; K) h = (put_arg p idx a;;; K) h.
Proof.
  intros Hv. unfold DestroyArg, put_arg, heap_deref, bind, get, lift, deref.
  destruct (h !! p) as [i|] eqn:Hi; [|done]. unfold ArgAt.
  destruct (i_args i !! idx) as [b|] eqn:Hb.
  - rewrite (Hv i idx b Hi ltac:(lia) Hb). simpl. by rewrite Hi.
  - apply lookup_ge_None in Hb. rewrite bool_decide_false by lia. done.
Qed.

Lemma destroy_put_last idx a h :
  void_from idx h -> (DestroyArg p idx;;; put_arg p idx a) h = put_arg p idx a h.
Proof.
  intros Hv. pose proof (destroy_put idx a (ret tt) h Hv) as H.
  unfold bind in *. destruct (DestroyArg p idx h) as [[[] h1]|]; simpl in *.
  - destruct (put_arg p idx a h1) as [[[] ?]|], (put_arg p idx a h) as [[[] ?]|]; done.
  - destruct (put_arg p idx a h) as [[[] ?]|]; done.
Qed.

Lemma put_arg_void idx a : hoare (void_from idx) (put_arg p idx a) (fun _ => void_from (S idx)).
Proof.
  intros h u h' Hv H. unfold put_arg in H. apply bind_ok in H as (i & ? & H0 & H).
  apply heap_deref_inv in H0 as [-> Hi]. apply bind_ok in H as (? & ? & H0 & H).
  assert (x0 = h) as -> by (destruct (bool_decide _); [by injection H0|done]).
  apply heap_update_inv in H as (i' & Hi' & ->). intros j k b. rewrite lookup_insert_eq.
  intros [= <-] Hk. simpl. rewrite list_lookup_insert_ne by lia. apply (Hv i' k b Hi'). lia.
Qed.

Lemma keeps_void {A} (m : ST Heap A) k :
  (forall h0, hoare (same_view i_args h0) m (fun _ => same_view i_args h0)) ->
  hoare (void_from k) m (fun _ => void_from k).
Proof.
  intros Hm h a h' Hv H. eapply void_from_view; [|exact Hv]. eapply Hm; [|exact H].
  apply same_view_refl.
Qed.

Lemma void_Use k v : hoare (void_from k) (Inst_Use p v) (fun _ => void_from k).
Proof. apply keeps_void. intros. by apply view_Use. Qed.

Lemma void_uses k vs : hoare (void_from k) (for_each (Inst_Use p) vs) (fun _ => void_from k).
Proof. apply keeps_void. intros. apply view_for_each. intros. by apply view_Use. Qed.

Lemma void_update k f :
  (forall i, i_args (f i) = i_args i) -> hoare (void_from k) (heap_update p f) (fun _ => void_from k).
Proof. intros Hf. apply keeps_void. intros. by apply view_update. Qed.

Lemma void_default_ret k t : hoare (void_from k) (default_ret p t) (fun _ => void_from k).
Proof.
  unfold default_ret. eapply hoare_bind; [apply hoare_deref'|]. intros i.
  apply hoare_if; [by apply void_update|apply hoare_ret'].
Qed.

Lemma void_lift {A} k (r : Res A) : hoare (void_from k) (lift r) (fun _ => void_from k).
Proof. intros h a h' H E. by apply lift_ok in E as [_ ->]. Qed.

Lemma void_guard k b e : hoare (void_from k) (guard b e) (fun _ => void_from k).
Proof. destruct b; [apply hoare_ret'|apply hoare_fail]. Qed.

Ltac voids :=
  repeat first
    [ apply hoare_ret' | apply hoare_deref' | apply hoare_get' | apply void_lift
    | apply void_Use | apply void_uses | apply void_default_ret | by apply void_update
    | apply hoare_if | eapply hoare_bind; [|intros ?; cbv beta] ].

Lemma build_width_cases b :
  build_width b = match b with BOperandOp _ | BOperand _ => 3 | _ => 1 end%nat.
Proof. by destruct b. Qed.

Lemma fresh_void idx b :
  hoare (void_from idx) (SetArgFresh p idx b) (fun _ => void_from (idx + build_width b)).
Proof.
  rewrite build_width_cases.
  assert (idx + 1 = S idx)%nat as H1 by lia. assert (idx + 3 = S (idx + 2))%nat as H3 by lia.
  destruct b; cbn [SetArgFresh]; rewrite ?H1, ?H3;
    try (first [apply put_arg_void | eapply hoare_bind; [apply put_arg_void|intros ?; cbv beta]; voids]).
  - intros h u h' Hv H. apply (void_from_mono (S idx)); [lia|]. by eapply put_arg_void.
  - eapply hoare_bind; [apply void_guard|intros ?; cbv beta].
    eapply hoare_bind; [apply put_arg_void|intros ?; cbv beta].
    eapply hoare_bind; [apply put_arg_void|intros ?; cbv beta].
    replace (S (S idx)) with (idx + 2)%nat by lia.
    eapply hoare_bind; [apply put_arg_void|intros ?; cbv beta]. voids.
Qed.
Lemma bind_eq_run {A B} (m : ST Heap A) (f g : A -> ST Heap B) h :
  (forall a h', m h = Ok (a, h') -> f a h' = g a h') -> bind m f h = bind m g h.
Proof. intros H. unfold bind. destruct (m h) as [[a h']|]; [by apply H|done]. Qed.

(** One argument: on a blank slot the two overloads agree, errors included. *)
Lemma SetArg_fresh_eq idx b h : void_from idx h -> SetArg p idx b h = SetArgFresh p idx b h.
Proof.
  intros Hv. destruct b; cbn [SetArg SetArgFresh];
    unfold SetArg_plain, SetArg_Value, SetArg_Imm, SetArg_Local, SetArg_Uniform, SetArg_Lambda,
      SetArg_Params; try (by apply destroy_put); try (by apply destroy_put_last).
  unfold SetArg_Operand. apply bind_eq_run. intros [] h0 H0.
  assert (h0 = h) as -> by (destruct (bool_decide _); [by injection H0|done]).
  rewrite destroy_put by done. apply bind_eq_run. intros [] h1 H1.
  apply put_arg_void in H1; [|done]. replace (S idx) with (idx + 1)%nat in H1 by lia.
  rewrite destroy_put by done. apply bind_eq_run. intros [] h2 H2.
  apply put_arg_void in H2; [|done]. replace (S (idx + 1)) with (idx + 2)%nat in H2 by lia.
  by rewrite destroy_put.
Qed.

Lemma set_args_fresh_eq bs : forall idx h,
  void_from idx h -> set_args_from SetArg p idx bs h = set_args_from SetArgFresh p idx bs h.
Proof.
  induction bs as [|b bs IH]; intros idx h Hv; simpl; [done|].
  unfold bind. rewrite SetArg_fresh_eq by done.
  destruct (SetArgFresh p idx b h) as [[[] h1]|] eqn:H; [|done].
  apply IH. by eapply fresh_void.
Qed.
End Fresh.

(** The construction-only route builds the same instruction: on a newly
    constructed instruction, [SetArgsFresh] has exactly the effect of the
    mutation-capable [SetArgs] on every argument list, on the arguments, the
    result type, the use counters, the pseudo chains and the error raised. *)
Theorem fresh_construction_equivalent (p : Ptr) (op : OpCode) (bs : list BuildArg) (h : Heap) :
  (modify (insert p (Inst_new op));;; SetArgsFresh p bs) h = Inst_Create p op bs h.
Proof.
  unfold Inst_Create, SetArgs, SetArgsFresh, modify, bind. symmetry. apply set_args_fresh_eq.
  intros i j a. rewrite lookup_insert_eq. intros [= <-] _ Ha.
  by apply lookup_replicate_1 in Ha as [-> _].
Qed.

(** ** Validated instructions can be read *)

(** The typed read of a declared argument succeeds. *)
Definition readable (i : Inst) (k : nat) (t : ArgType) : Prop :=
  match t with
  | ArgType_Void => exists a, get_slot i k = Ok a
  | ArgType_Value => exists v, GetArg_Value i k = Ok v
  | ArgType_Imm => exists v, GetArg_Imm i k = Ok v
  | ArgType_Uniform => exists v, GetArg_Uniform i k = Ok v
  | ArgType_Local => exists v, GetArg_Local i k = Ok v
  | ArgType_Cond => exists v, GetArg_Cond i k = Ok v
  | ArgType_Flags => exists v, GetArg_Flags i k = Ok v
  | ArgType_Lambda => exists v, GetArg_Lambda i k = Ok v
  | ArgType_Params => exists v, GetArg_Params i k = Ok v
  | ArgType_Operand => exists p a, PublicIndex i k = Ok p /\ ArgAt i p = Ok (AOperand a)
  end.

Definition slots_of (ts : list ArgType) : nat :=
  foldr (fun t n => Z.to_nat (PhysicalSlots t) + n)%nat 0%nat ts.

Lemma PhysicalSlots_pos t : 1 <= PhysicalSlots t.
Proof. by destruct t. Qed.

Lemma PublicIndex_spec i k :
  (k < length (op_arg_types (i_op i)))%nat ->
  (slots_of (take k (op_arg_types (i_op i))) < max_args)%nat ->
  PublicIndex i k = Ok (slots_of (take k (op_arg_types (i_op i)))).
Proof.
  intros Hk Hs. unfold PublicIndex. rewrite bool_decide_true by done.
  assert (forall ts n, foldr (fun t m => m + (PhysicalSlots t - 1)) n ts
            = n - Z.of_nat (length ts) + Z.of_nat (slots_of ts)) as E.
  { induction ts as [|t ts IH]; intros n; simpl; [lia|]. rewrite IH.
    pose proof (PhysicalSlots_pos t). lia. }
  rewrite E, length_take, Nat.min_l by lia.
  replace (Z.of_nat k - Z.of_nat k + _) with (Z.of_nat (slots_of (take k (op_arg_types (i_op i))))) by lia.
  destruct (Z.ltb_spec (Z.of_nat (slots_of (take k (op_arg_types (i_op i))))) (Z.of_nat max_args));
    [|lia]. by rewrite Nat2Z.id.
Qed.

Lemma validate_args_spec i : forall ts inner k t,
  validate_args i inner ts = Ok tt -> ts !! k = Some t ->
  (inner + slots_of (take k ts) < max_args)%nat ->
  exists a, ArgAt i (inner + slots_of (take k ts)) = Ok a /\ arg_type a = t.
Proof.
  induction ts as [|u ts IH]; intros inner k t H Hk Hs; [done|].
  simpl in H. rewrite bool_decide_true in H by lia. minv H.
  destruct (decide (arg_type x = u)) as [Hu|]; [|done].
  destruct k as [|k]; simpl in *.
  - injection Hk as <-. rewrite Nat.add_0_r. by exists x.
  - rewrite Nat.add_assoc. apply IH; [done|done|lia].
Qed.

(** All signatures of ir.inc fit the five slots (the [static_assert] of
    ir_meta.h). *)
Lemma signature_fits op : (slots_of (op_arg_types op) <= max_args)%nat.
Proof. unfold max_args. destruct op; vm_compute; lia. Qed.

Lemma slots_take_lt ts k t :
  ts !! k = Some t -> (slots_of (take k ts) < slots_of ts)%nat.
Proof.
  revert k. induction ts as [|u ts IH]; intros [|k] Hk; simpl in *; try done.
  - pose proof (PhysicalSlots_pos u). lia.
  - specialize (IH k Hk). lia.
Qed.

(** Validation makes reads safe: after [Inst::Validate] has accepted an
    instruction that is not a call, reading any argument of its declared
    signature with the declared type succeeds, so the [Run*] methods never hit
    the type assertions of [GetArg]. *)
Theorem validated_arguments_readable (i : Inst) (k : nat) (t : ArgType) :
  is_call (i_op i) = false -> Validate i = Ok tt -> op_arg_types (i_op i) !! k = Some t ->
  readable i k t.
Proof.
  intros Hc H Hk. unfold Validate in H. rewrite Hc in H.
  destruct (op_eqb _ _); [done|].
  pose proof (slots_take_lt _ _ _ Hk). pose proof (signature_fits (i_op i)).
  destruct (validate_args_spec i _ 0 k t H Hk ltac:(lia)) as (a & Ha & Ht). simpl in Ha.
  pose proof (PublicIndex_spec i k ltac:(by eapply lookup_lt_Some) ltac:(lia)) as Hp.
  destruct t; simpl; unfold GetArg_Value, GetArg_Imm, GetArg_Uniform, GetArg_Local, GetArg_Cond,
    GetArg_Flags, GetArg_Lambda, GetArg_Params, get_slot; rewrite Hp; simpl; rewrite ?Ha;
    destruct a; try done; simpl; eauto.
Qed.

Lemma validated_arguments_readable_witness :
  exists v, GetArg_Imm (mkInst OpCode_LoadImm [AImm (Imm_u32 5); AVoid; AVoid; AVoid; AVoid]
                          0 0 0 ValueType_U32 None) 0 = Ok v.
Proof.
  refine (validated_arguments_readable (mkInst OpCode_LoadImm
            [AImm (Imm_u32 5); AVoid; AVoid; AVoid; AVoid] 0 0 0 ValueType_U32 None)
            0 ArgType_Imm _ _ _); vm_compute; reflexivity.
Defined.
