(* ===== verification/InterpCore.v ===== *)
(** * The interpreter's machine state and value slots

    Model of runtime/backend/interp/interpreter.h, interpreter_internal.h and
    the accessor half of interpreter.cpp.  A block runs over an array of
    64-bit words, two per instruction id ([kSlotStride]); scalars live in the
    first word of a slot and are kept masked to their type, vectors use both.
    The guest's registers (the uniform buffer), the local buffer and guest
    memory are all host memory, addressed by byte; a byte that is not mapped
    faults ([ESegv]). *)

From Stdlib Require Import ZArith Lia.
From stdpp Require Import numbers base gmap list.
From S2P Require Import Prelude MachineInt IRTypes Instr.

Local Open Scope Z_scope.
Local Open Scope svm_scope.

(** ** Halt reasons (runtime/include/sruntime.h) *)

Inductive HaltReason : Set :=
| HaltReason_None | HaltReason_Step | HaltReason_Signal | HaltReason_PageFatal
| HaltReason_CodeMiss | HaltReason_ModuleMiss | HaltReason_CacheMiss
| HaltReason_ReservedLinkage | HaltReason_IllegalCode | HaltReason_CallHost.

#[export] Instance HaltReason_eq_dec : EqDecision HaltReason.
Proof. solve_decision. Defined.

(** ** Machine state

    The fields of [backend::State] the interpreter writes, the slot array of
    the running block, and host memory. *)
Record IState := mkIState {
  s_stack : list Z;
  s_flags : Z;
  s_current_loc : Z;
  s_prev_loc : Z;
  s_halt : HaltReason;
  s_mem : gmap Z Z
}.

(** The fields of [backend::State] that are constant while a block runs.
    [interp_range_check] is the optional callback the embedder installs. *)
Record IConfig := mkIConfig {
  uniform_buffer_begin : Z;
  local_buffer : Z;
  pt : Z;
  guest_addr_limit : Z;
  guest_addr_mask : Z;
  interp_range_check : option (Z -> Z -> bool)
}.

Definition set_stack (l : list Z) (s : IState) : IState :=
  mkIState l (s_flags s) (s_current_loc s) (s_prev_loc s) (s_halt s) (s_mem s).
Definition set_flags (f : Z) (s : IState) : IState :=
  mkIState (s_stack s) f (s_current_loc s) (s_prev_loc s) (s_halt s) (s_mem s).
Definition set_current_loc (x : Z) (s : IState) : IState :=
  mkIState (s_stack s) (s_flags s) x (s_prev_loc s) (s_halt s) (s_mem s).
Definition set_prev_loc (x : Z) (s : IState) : IState :=
  mkIState (s_stack s) (s_flags s) (s_current_loc s) x (s_halt s) (s_mem s).
Definition set_halt (x : HaltReason) (s : IState) : IState :=
  mkIState (s_stack s) (s_flags s) (s_current_loc s) (s_prev_loc s) x (s_mem s).
Definition set_mem (m : gmap Z Z) (s : IState) : IState :=
  mkIState (s_stack s) (s_flags s) (s_current_loc s) (s_prev_loc s) (s_halt s) m.

Abbreviation M := (ST IState).

(** ** Host flag word layout (interpreter_internal.h) *)

Definition kHostFlagN : Z := 31.
Definition kHostFlagZ : Z := 30.
Definition kHostFlagC : Z := 29.
Definition kHostFlagV : Z := 28.
Definition kHostAF : Z := 26.
Definition kHostParityByte : Z := 0.

Definition TypeBits (t : ValueType) : Res Z := n <-? GetValueSizeByte t; Ok (n * 8).

Definition IsVector (t : ValueType) : bool := vt_between ValueType_V8 t ValueType_V256.

Definition MaskBits (bits : Z) : Z := if 64 <=? bits then not64 0 else bit64 bits - 1.

Definition SignExtendTo (value bits : Z) : Z :=
  if 64 <=? bits then value
  else let sign := bit64 (bits - 1) in sub64 (Z.lxor value sign) sign.

Definition MaskFor (t : ValueType) : Res Z := b <-? TypeBits t; Ok (MaskBits b).

Definition kSlotStride : nat := 2.

(** ** Memory: [std::memcpy] between host memory and an integer *)

Fixpoint mem_read (m : gmap Z Z) (addr : Z) (n : nat) : Res (list Z) :=
  match n with
  | O => Ok []
  | S n' => match m !! (wrap 64 addr) with
            | Some b => bs <-? mem_read m (addr + 1) n'; Ok (b :: bs)
            | None => Err ESegv
            end
  end.

(** All bytes must be mapped before any is written. *)
Fixpoint mem_write (m : gmap Z Z) (addr : Z) (bs : list Z) : Res (gmap Z Z) :=
  match bs with
  | [] => Ok m
  | b :: bs' => match m !! (wrap 64 addr) with
                | Some _ => m' <-? mem_write m (addr + 1) bs'; Ok (<[wrap 64 addr := b]> m')
                | None => Err ESegv
                end
  end.

Definition mload (addr : Z) (n : nat) : M Z :=
  s <- get;; bs <- lift (mem_read (s_mem s) addr n);; ret (le_value bs).

Definition mstore (addr : Z) (n : nat) (v : Z) : M unit :=
  s <- get;; m <- lift (mem_write (s_mem s) addr (le_bytes n v));; modify (set_mem m).

(** ** Value slots *)

Section Slots.
Context (h : Heap).

(** The slot of a value: [value.Def()->Id() * kSlotStride]. *)
Definition slot_of (v : Value) : Res nat :=
  match v_inst v with
  | None => Err EUndefined
  | Some p => i <-? deref h p; Ok (Z.to_nat (i_id i) * kSlotStride)%nat
  end.

Definition word_at (n : nat) : M Z :=
  s <- get;; match s_stack s !! n with Some w => ret w | None => fail EUndefined end.

Definition set_word (n : nat) (w : Z) : M unit :=
  s <- get;;
  if bool_decide (n < length (s_stack s))%nat
  then modify (set_stack (<[n := w]> (s_stack s))) else fail EUndefined.

(** [GetReg<u64>] and [GetReg<u128>]. *)
Definition ReadScalar (v : Value) : M Z := n <- lift (slot_of v);; word_at n.

Definition ReadVec (v : Value) : M Z :=
  n <- lift (slot_of v);;
  lo <- word_at n;; hi <- word_at (n + 1);; ret (lo + hi * 2 ^ 64).

Definition ReadScalarBits (v : Value) : M Z :=
  t <- lift (Value_Type h v);;
  if IsFloatValueType t then x <- ReadVec v;; ret (wrap 64 x) else ReadScalar v.

(** [SetReg<u64>] and [SetReg<u128>] on the slot of an instruction. *)
Definition SetReg64 (this : Ptr) (w : Z) : M unit :=
  n <- lift (slot_of (Value_of this));; set_word n w.

Definition WriteVec (this : Ptr) (x : Z) : M unit :=
  n <- lift (slot_of (Value_of this));;
  set_word n (wrap 64 x);;; set_word (n + 1) (wrap 64 (Z.shiftr x 64)).

Definition WriteScalar (this : Ptr) (x : Z) : M unit :=
  i <- lift (deref h this);;
  if decide (i_ret i = ValueType_VOID) then ret tt
  else if IsVector (i_ret i) then WriteVec this x
  else m <- lift (MaskFor (i_ret i));; SetReg64 this (Z.land x m).

(** [WritePairResult]: the second result goes to the (at most one) pseudo
    operation [secondary] of the instruction. *)
Definition WritePairResult (this : Ptr) (first second : Z) (secondary : OpCode) : M unit :=
  WriteScalar this first;;;
  ps <- lift (GetPseudoOperations_op h this secondary);;
  guard (bool_decide (length ps <= 1)%nat) EPanic;;;
  match ps with
  | q :: _ => WriteScalar q second
  | [] => ret tt
  end.

(** ** Operands *)

Definition EvalDataClass (d : DataClass) : M Z :=
  match d with
  | DValue v => ReadScalar v
  | DImm i => ret (Imm_Get i)
  | DNull => ret 0
  end.

Definition EvalOperand (o : Operand) : M Z :=
  left <- EvalDataClass (o_left o);;
  match o_right o with
  | DNull => ret left
  | rhs =>
      rval <- EvalDataClass rhs;;
      match oo_type (o_op o) with
      | OperandOp_None => ret left
      | OperandOp_Plus => ret (add64 left rval)
      | OperandOp_LSL => ret (shl64 left (Z.land rval 63))
      | OperandOp_LSR =>
          t <- match o_left o with DValue v => lift (Value_Type h v) | _ => ret ValueType_U64 end;;
          m <- lift (MaskFor t);;
          ret (Z.shiftr (Z.land left m) (Z.land rval 63))
      | OperandOp_PlusExt =>
          x <- lift (shl64c rval (shift_ext (o_op o)));; ret (add64 left x)
      end
  end.

Definition EvalLambda (l : Lambda) : M Z :=
  if Lambda_IsValue l then v <- lift (Lambda_GetValue l);; ReadScalar v
  else i <- lift (Lambda_GetImm l);; ret (Imm_Get i).

End Slots.
