(* ===== verification/InterpFlags.v ===== *)
(** * Guest flags

    Model of runtime/backend/interp/interpreter_flags.cpp: saving the guest
    flags of an operation in [host_cpu_flags], testing, clearing, and the
    sixteen condition codes.  N, Z, C, V sit at the AArch64 NZCV positions; the
    low byte holds the result whose parity is PF, bit 26 holds AF. *)

From Stdlib Require Import ZArith Lia.
From stdpp Require Import numbers base gmap list.
From S2P Require Import Prelude MachineInt IRTypes Instr InterpCore.

Local Open Scope Z_scope.
Local Open Scope svm_scope.

(** The lambda [set] of [SaveGuestFlags]. *)
Definition set_bit (bit : Z) (on : bool) (fl : Z) : Z :=
  if on then Z.lor fl (bit64 bit) else Z.land fl (not64 (bit64 bit)).

Definition flag_bit (bit fl : Z) : bool := negb (Z.land (Z.shiftr fl bit) 1 =? 0).

(** ** C and V of each operation

    The bodies of the [switch] of [SaveGuestFlags] once the operands are read;
    [l] and [r] are masked to [bits]. *)
Definition add_carry (bits l r cin : Z) : bool :=
  negb (Z.land (Z.shiftr (l + r + cin) bits) 1 =? 0).

Definition add_overflow (bits l r result : Z) : bool :=
  let sl := SignExtendTo l bits in
  let sr := SignExtendTo r bits in
  let sres := SignExtendTo result bits in
  negb (Z.land (Z.shiftr (Z.land (not64 (Z.lxor sl sr)) (Z.lxor sl sres)) (bits - 1)) 1 =? 0).

Definition sub_carry (l r bin : Z) : bool := r + bin <=? l.

Definition sub_overflow (bits l r result : Z) : bool :=
  let sl := SignExtendTo l bits in
  let sr := SignExtendTo r bits in
  let sres := SignExtendTo result bits in
  negb (Z.land (Z.shiftr (Z.land (Z.lxor sl sr) (Z.lxor sl sres)) (bits - 1)) 1 =? 0).

Definition mul_overflow_signed (bits l r result : Z) : bool :=
  negb (to_signed 64 (SignExtendTo l bits) * to_signed 64 (SignExtendTo r bits)
        =? to_signed 64 (SignExtendTo result bits)).

Definition mul_overflow_unsigned (bits l r : Z) : bool :=
  negb (Z.shiftr (l * r) bits =? 0).

Section Flags.
Context (h : Heap).

(** Both operands of an ALU instruction: argument 0 and operand 1. *)
Definition alu_operands (i : Inst) : M (Z * Z) :=
  v <- lift (GetArg_Value i 0);;
  o <- lift (GetArg_Operand i 1);;
  l <- ReadScalar h v;;
  r <- EvalOperand h o;;
  ret (l, r).

(** The [switch] of [SaveGuestFlags]: [None] when the operation defines no C/V
    ([have] stays false), else (carry, overflow). *)
Definition carry_overflow (i : Inst) (bits result fl : Z) : M (option (bool * bool)) :=
  match i_op i with
  | OpCode_Add | OpCode_Adc =>
      let cin := if op_eqb (i_op i) OpCode_Adc then Z.land (Z.shiftr fl kHostFlagC) 1 else 0 in
      lr <- alu_operands i;;
      let l := Z.land (fst lr) (MaskBits bits) in
      let r := Z.land (snd lr) (MaskBits bits) in
      ret (Some (add_carry bits l r cin, add_overflow bits l r result))
  | OpCode_Sub | OpCode_Sbb =>
      let bin := if op_eqb (i_op i) OpCode_Sbb
                 then 1 - Z.land (Z.shiftr fl kHostFlagC) 1 else 0 in
      lr <- alu_operands i;;
      let l := Z.land (fst lr) (MaskBits bits) in
      let r := Z.land (snd lr) (MaskBits bits) in
      ret (Some (sub_carry l r bin, sub_overflow bits l r result))
  | OpCode_And | OpCode_Or | OpCode_Xor | OpCode_AndNot => ret (Some (false, false))
  | OpCode_Mul =>
      if bits <? 64 then
        lr <- alu_operands i;;
        let l := Z.land (fst lr) (MaskBits bits) in
        let r := Z.land (snd lr) (MaskBits bits) in
        v <- lift (GetArg_Value i 0);;
        t <- lift (Value_Type h v);;
        let o := if IsSignValueType t then mul_overflow_signed bits l r result
                 else mul_overflow_unsigned bits l r in
        ret (Some (o, o))
      else ret None
  | _ => ret None
  end.

(** AF of add/sub-like operations: carry into bit 4. *)
Definition auxiliary_carry (i : Inst) (result : Z) : M (option bool) :=
  match i_op i with
  | OpCode_Add | OpCode_Adc | OpCode_Sub | OpCode_Sbb =>
      lr <- alu_operands i;;
      ret (Some (flag_bit 4 (Z.lxor (Z.lxor (fst lr) (snd lr)) result)))
  | _ => ret None
  end.

Definition SaveGuestFlags (def : Ptr) (f : Z) : M unit :=
  i <- lift (deref h def);;
  bits <- lift (TypeBits (i_ret i));;
  if (bits =? 0) || (64 <? bits) then ret tt else
  result <- ReadScalar h (Value_of def);;
  fl <- gets s_flags;;
  let fl := if flag_true f Flags_Negate then set_bit kHostFlagN (flag_bit (bits - 1) result) fl
            else fl in
  let fl := if flag_true f Flags_Zero then set_bit kHostFlagZ (result =? 0) fl else fl in
  fl <- (if flag_true f (Z.lor Flags_Carry Flags_Overflow) then
           cv <- carry_overflow i bits result fl;;
           ret (match cv with
                | Some (c, v) =>
                    let fl := if flag_true f Flags_Carry then set_bit kHostFlagC c fl else fl in
                    if flag_true f Flags_Overflow then set_bit kHostFlagV v fl else fl
                | None => fl
                end)
         else ret fl);;
  let fl := if flag_true f Flags_Parity
            then Z.lor (Z.land fl (not64 (Z.shiftl 0xFF kHostParityByte)))
                       (Z.shiftl (Z.land result 0xFF) kHostParityByte)
            else fl in
  fl <- (if flag_true f Flags_AuxiliaryCarry then
           af <- auxiliary_carry i result;;
           ret (match af with Some b => set_bit kHostAF b fl | None => fl end)
         else ret fl);;
  modify (set_flags fl).
End Flags.

(** ** Testing and clearing *)

(** [TestParityFlag]: fold the saved byte; PF is set on even parity. *)
Definition parity_of_byte (fl : Z) : bool :=
  let b := Z.land (Z.shiftr fl kHostParityByte) 0xFF in
  let b := Z.lxor b (Z.shiftr b 4) in
  let b := Z.lxor b (Z.shiftr b 2) in
  let b := Z.lxor b (Z.shiftr b 1) in
  negb (Z.lxor (Z.land b 1) 1 =? 0).

Definition nzcv_mask (f : Z) : Z :=
  let m := 0 in
  let m := if flag_true f Flags_Negate then Z.lor m (bit64 kHostFlagN) else m in
  let m := if flag_true f Flags_Zero then Z.lor m (bit64 kHostFlagZ) else m in
  let m := if flag_true f Flags_Carry then Z.lor m (bit64 kHostFlagC) else m in
  if flag_true f Flags_Overflow then Z.lor m (bit64 kHostFlagV) else m.

(** [TestGuestFlags]; the state is (result, first). *)
Definition TestGuestFlags (f fl : Z) : bool :=
  let st := (false, true) in
  let st := if negb (nzcv_mask f =? 0) then (negb (Z.land fl (nzcv_mask f) =? 0), false) else st in
  let st := if flag_true f Flags_Parity
            then let pf := parity_of_byte fl in ((if snd st then pf else fst st && pf), false)
            else st in
  let st := if flag_true f Flags_AuxiliaryCarry
            then let af := flag_bit kHostAF fl in ((if snd st then af else fst st && af), false)
            else st in
  fst st.

Definition ClearGuestFlags (f fl : Z) : Z :=
  let fl := if flag_true f Flags_Negate then Z.land fl (not64 (bit64 kHostFlagN)) else fl in
  let fl := if flag_true f Flags_Zero then Z.land fl (not64 (bit64 kHostFlagZ)) else fl in
  let fl := if flag_true f Flags_Carry then Z.land fl (not64 (bit64 kHostFlagC)) else fl in
  let fl := if flag_true f Flags_Overflow then Z.land fl (not64 (bit64 kHostFlagV)) else fl in
  let fl := if flag_true f Flags_Parity
            then Z.lor (Z.land fl (not64 (Z.shiftl 0xFF kHostParityByte))) (bit64 kHostParityByte)
            else fl in
  if flag_true f Flags_AuxiliaryCarry then Z.land fl (not64 (bit64 kHostAF)) else fl.

(** [EvalCondition]: the AArch64 condition codes over NZCV. *)
Definition cond_holds (c : Cond) (n z cf v : bool) : bool :=
  match c with
  | Cond_EQ => z
  | Cond_NE => negb z
  | Cond_CS => cf
  | Cond_CC => negb cf
  | Cond_MI => n
  | Cond_PL => negb n
  | Cond_VS => v
  | Cond_VC => negb v
  | Cond_HI => cf && negb z
  | Cond_LS => negb cf || z
  | Cond_GE => Bool.eqb n v
  | Cond_LT => negb (Bool.eqb n v)
  | Cond_GT => negb z && Bool.eqb n v
  | Cond_LE => z || negb (Bool.eqb n v)
  | Cond_AL | Cond_NV => true
  end.

Definition EvalCondition (c : Cond) (fl : Z) : bool :=
  cond_holds c (flag_bit kHostFlagN fl) (flag_bit kHostFlagZ fl)
    (flag_bit kHostFlagC fl) (flag_bit kHostFlagV fl).

(** ** Bits of the flag word *)

Lemma land_1_testbit x : negb (Z.land x 1 =? 0) = Z.testbit x 0.
Proof.
  rewrite Z.bit0_odd. change 1 with (Z.ones 1). rewrite Z.land_ones by lia.
  change (2 ^ 1) with 2. rewrite Zmod_odd. by destruct (Z.odd x).
Qed.

Lemma flag_bit_testbit b x : 0 <= b -> flag_bit b x = Z.testbit x b.
Proof. intros. unfold flag_bit. rewrite land_1_testbit, Z.shiftr_spec; [f_equal|]; lia. Qed.

Lemma testbit_bit64 b j : 0 <= b -> 0 <= j -> Z.testbit (bit64 b) j = (b =? j).
Proof. intros. unfold bit64. by apply Z.pow2_bits_eqb. Qed.

Lemma testbit_not64 x j :
  0 <= j -> Z.testbit (not64 x) j = (j <? 64) && negb (Z.testbit x j).
Proof. intros. unfold not64. rewrite testbit_wrap, Z.lnot_spec by lia. done. Qed.

Lemma set_bit_spec b on fl j :
  0 <= b < 64 -> 0 <= fl < 2 ^ 64 -> 0 <= j ->
  Z.testbit (set_bit b on fl) j = if b =? j then on else Z.testbit fl j.
Proof.
  intros Hb Hfl Hj. unfold set_bit. destruct on.
  - rewrite Z.lor_spec, testbit_bit64 by lia. destruct (b =? j); by rewrite ?orb_true_r, ?orb_false_r.
  - rewrite Z.land_spec, testbit_not64, testbit_bit64 by lia.
    destruct (Z.eqb_spec b j) as [->|Hne]; [by rewrite andb_false_r, andb_false_r|].
    destruct (Z.ltb_spec j 64); [by rewrite andb_true_r|].
    by rewrite (testbit_above 64 fl j).
Qed.

Lemma bit64_range b : 0 <= b < 64 -> 0 <= bit64 b < 2 ^ 64.
Proof.
  intros. unfold bit64. split; [apply Z.pow_nonneg; lia|]. apply Z.pow_lt_mono_r; lia.
Qed.

Lemma set_bit_range b on fl : 0 <= b < 64 -> 0 <= fl < 2 ^ 64 -> 0 <= set_bit b on fl < 2 ^ 64.
Proof.
  intros. unfold set_bit. pose proof (bit64_range b). destruct on.
  - apply lor_range; lia.
  - apply land_range; [lia|done|]. apply (wrap_range 64). lia.
Qed.

(** ** Sign extension *)

Lemma land_pow2 x k : 0 <= k -> Z.land x (2 ^ k) = if Z.testbit x k then 2 ^ k else 0.
Proof.
  intros Hk. apply Z.bits_inj'. intros j Hj. rewrite Z.land_spec, Z.pow2_bits_eqb by lia.
  destruct (Z.eqb_spec k j) as [<-|Hne]; destruct (Z.testbit x k) eqn:E;
    rewrite ?andb_true_r, ?andb_false_r, ?Z.bits_0, ?Z.pow2_bits_eqb by lia;
    rewrite ?Z.eqb_refl; try done.
  by destruct (Z.eqb_spec k j).
Qed.

Lemma SignExtendTo_spec x w :
  0 < w <= 64 -> 0 <= x < 2 ^ w -> SignExtendTo x w = wrap 64 (to_signed w x).
Proof.
  intros Hw Hx. unfold SignExtendTo. destruct (Z.leb_spec 64 w).
  - assert (w = 64) as -> by lia. rewrite wrap_to_signed by lia. by rewrite wrap_small.
  - unfold sub64, bit64. f_equal. rewrite <- Z.sub_lor_land.
    pose proof (Z.add_lor_land x (2 ^ (w - 1))) as Hadd.
    rewrite (land_pow2 x (w - 1)) in * by lia. rewrite (testbit_top w x) in * by lia.
    assert (2 ^ w = 2 * 2 ^ (w - 1)) as E by (rewrite <- Z.pow_succ_r by lia; f_equal; lia).
    unfold to_signed. rewrite wrap_small by done.
    destruct (Z.leb_spec (2 ^ (w - 1)) x), (Z.ltb_spec x (2 ^ (w - 1))); lia.
Qed.

(** Bit [w - 1] of a sign-extended value is the sign. *)
Lemma SignExtendTo_sign x w :
  0 < w <= 64 -> 0 <= x < 2 ^ w -> Z.testbit (SignExtendTo x w) (w - 1) = (to_signed w x <? 0).
Proof.
  intros Hw Hx. rewrite SignExtendTo_spec by done.
  rewrite testbit_wrap by lia. destruct (Z.ltb_spec (w - 1) 64); [|lia]. simpl.
  rewrite to_signed_sign by lia.
  assert (Z.testbit (wrap w (to_signed w x)) (w - 1) = Z.testbit x (w - 1)) as <-.
  { rewrite wrap_to_signed, wrap_small by lia. done. }
  rewrite testbit_wrap by lia. destruct (Z.ltb_spec (w - 1) w); [done|lia].
Qed.

(** ** C and V are the arithmetic carry and overflow *)

Definition signed_fits (w x : Z) : bool := (- 2 ^ (w - 1) <=? x) && (x <? 2 ^ (w - 1)).

Lemma add_carry_spec w l r cin :
  0 < w -> 0 <= l < 2 ^ w -> 0 <= r < 2 ^ w -> 0 <= cin <= 1 ->
  add_carry w l r cin = (2 ^ w <=? l + r + cin).
Proof.
  intros Hw Hl Hr Hc. unfold add_carry. rewrite land_1_testbit, Z.shiftr_spec by lia.
  simpl (0 + w).
  assert (2 ^ (w + 1) = 2 * 2 ^ w) as E by (rewrite <- Z.pow_succ_r by lia; f_equal; lia).
  pose proof (testbit_top (w + 1) (l + r + cin) ltac:(lia) ltac:(lia)) as H.
  by replace (w + 1 - 1) with w in H by lia.
Qed.

Lemma sub_carry_spec l r bin : sub_carry l r bin = (r + bin <=? l).
Proof. done. Qed.

Lemma to_signed_add_cong w x :
  0 < w -> exists k, to_signed w x = x + k * 2 ^ w.
Proof.
  intros Hw. unfold to_signed. destruct (wrap_eq_sub w x ltac:(lia)) as [k ->].
  destruct (_ <? _); [exists (-k)|exists (-k - 1)]; lia.
Qed.

(** The sign of the wrapped result agrees with the exact signed result iff the
    exact result fits. [sl], [sr] are the operand signs for which the sum can
    overflow. *)
Lemma wrapped_sign w x :
  0 < w -> - 2 ^ w <= x < 2 ^ w ->
  (to_signed w x <? 0) = if signed_fits w x then x <? 0 else negb (x <? 0).
Proof.
  intros Hw Hx. pose proof (to_signed_range w x Hw).
  assert (2 ^ w = 2 * 2 ^ (w - 1)) as E by (rewrite <- Z.pow_succ_r by lia; f_equal; lia).
  destruct (to_signed_add_cong w x Hw) as [k Hk]. unfold signed_fits.
  destruct (Z.leb_spec (- 2 ^ (w - 1)) x), (Z.ltb_spec x (2 ^ (w - 1))),
    (Z.ltb_spec x 0), (Z.ltb_spec (to_signed w x) 0); simpl; try done; exfalso;
    assert (k = 0 \/ k = 1 \/ k = -1) as Hc by nia; destruct Hc as [-> | [-> | ->]]; lia.
Qed.

Lemma testbit_land_lxor a b c d k :
  0 <= k -> Z.testbit (Z.land (Z.lxor a b) (Z.lxor c d)) k =
            xorb (Z.testbit a k) (Z.testbit b k) && xorb (Z.testbit c k) (Z.testbit d k).
Proof. intros. by rewrite Z.land_spec, !Z.lxor_spec. Qed.

Lemma overflow_bit x w : 0 < w -> negb (Z.land (Z.shiftr x (w - 1)) 1 =? 0) = Z.testbit x (w - 1).
Proof. intros. rewrite land_1_testbit, Z.shiftr_spec; [f_equal|]; lia. Qed.

Lemma add_overflow_spec w l r cin :
  0 < w <= 64 -> 0 <= l < 2 ^ w -> 0 <= r < 2 ^ w -> 0 <= cin <= 1 ->
  add_overflow w l r (wrap w (l + r + cin)) =
  negb (signed_fits w (to_signed w l + to_signed w r + cin)).
Proof.
  intros Hw Hl Hr Hc. unfold add_overflow. rewrite overflow_bit by lia.
  rewrite Z.land_spec, testbit_not64, !Z.lxor_spec by lia.
  destruct (Z.ltb_spec (w - 1) 64); [|lia]. simpl.
  rewrite !SignExtendTo_sign by (try done; apply wrap_range; lia).
  rewrite to_signed_wrap by lia.
  assert (to_signed w (l + r + cin) = to_signed w (to_signed w l + to_signed w r + cin)) as ->.
  { destruct (to_signed_add_cong w l ltac:(lia)) as [k1 ->].
    destruct (to_signed_add_cong w r ltac:(lia)) as [k2 ->].
    unfold to_signed. replace (l + k1 * 2 ^ w + (r + k2 * 2 ^ w) + cin)
      with (l + r + cin + (k1 + k2) * 2 ^ w) by lia. by rewrite wrap_cong. }
  pose proof (to_signed_range w l ltac:(lia)). pose proof (to_signed_range w r ltac:(lia)).
  assert (2 ^ w = 2 * 2 ^ (w - 1)) as E by (rewrite <- Z.pow_succ_r by lia; f_equal; lia).
  pose proof (pow2_pos (w - 1) ltac:(lia)) as Hp.
  rewrite (wrapped_sign w (to_signed w l + to_signed w r + cin)) by lia. unfold signed_fits.
  destruct (Z.ltb_spec (to_signed w l) 0), (Z.ltb_spec (to_signed w r) 0),
    (Z.leb_spec (- 2 ^ (w - 1)) (to_signed w l + to_signed w r + cin)),
    (Z.ltb_spec (to_signed w l + to_signed w r + cin) (2 ^ (w - 1))),
    (Z.ltb_spec (to_signed w l + to_signed w r + cin) 0); simpl; try done; lia.
Qed.

Lemma sub_overflow_spec w l r bin :
  0 < w <= 64 -> 0 <= l < 2 ^ w -> 0 <= r < 2 ^ w -> 0 <= bin <= 1 ->
  sub_overflow w l r (wrap w (l - r - bin)) =
  negb (signed_fits w (to_signed w l - to_signed w r - bin)).
Proof.
  intros Hw Hl Hr Hc. unfold sub_overflow. rewrite overflow_bit by lia.
  rewrite testbit_land_lxor by lia.
  rewrite !SignExtendTo_sign by (try done; apply wrap_range; lia).
  rewrite to_signed_wrap by lia.
  assert (to_signed w (l - r - bin) = to_signed w (to_signed w l - to_signed w r - bin)) as ->.
  { destruct (to_signed_add_cong w l ltac:(lia)) as [k1 ->].
    destruct (to_signed_add_cong w r ltac:(lia)) as [k2 ->].
    unfold to_signed. replace (l + k1 * 2 ^ w - (r + k2 * 2 ^ w) - bin)
      with (l - r - bin + (k1 - k2) * 2 ^ w) by lia. by rewrite wrap_cong. }
  pose proof (to_signed_range w l ltac:(lia)). pose proof (to_signed_range w r ltac:(lia)).
  assert (2 ^ w = 2 * 2 ^ (w - 1)) as E by (rewrite <- Z.pow_succ_r by lia; f_equal; lia).
  pose proof (pow2_pos (w - 1) ltac:(lia)) as Hp.
  rewrite (wrapped_sign w (to_signed w l - to_signed w r - bin)) by lia. unfold signed_fits.
  destruct (Z.ltb_spec (to_signed w l) 0), (Z.ltb_spec (to_signed w r) 0),
    (Z.leb_spec (- 2 ^ (w - 1)) (to_signed w l - to_signed w r - bin)),
    (Z.ltb_spec (to_signed w l - to_signed w r - bin) (2 ^ (w - 1))),
    (Z.ltb_spec (to_signed w l - to_signed w r - bin) 0); simpl; try done; lia.
Qed.

(** ** Saving NZCV and reading it back *)

Definition put_nzcv (n z c v : bool) (fl : Z) : Z :=
  set_bit kHostFlagV v (set_bit kHostFlagC c (set_bit kHostFlagZ z (set_bit kHostFlagN n fl))).

Lemma put_nzcv_range n z c v fl : 0 <= fl < 2 ^ 64 -> 0 <= put_nzcv n z c v fl < 2 ^ 64.
Proof.
  intros. unfold put_nzcv, kHostFlagV, kHostFlagC, kHostFlagZ, kHostFlagN.
  repeat apply set_bit_range; lia.
Qed.

(** Bits of [put_nzcv]: the four flags, every other bit unchanged. *)
Lemma put_nzcv_spec n z c v fl j :
  0 <= fl < 2 ^ 64 -> 0 <= j ->
  Z.testbit (put_nzcv n z c v fl) j =
    if kHostFlagV =? j then v else if kHostFlagC =? j then c
    else if kHostFlagZ =? j then z else if kHostFlagN =? j then n else Z.testbit fl j.
Proof.
  intros Hfl Hj. unfold put_nzcv, kHostFlagV, kHostFlagC, kHostFlagZ, kHostFlagN.
  by rewrite !set_bit_spec by (try lia; repeat apply set_bit_range; lia).
Qed.

Lemma EvalCondition_put_nzcv cnd n z c v fl :
  0 <= fl < 2 ^ 64 -> EvalCondition cnd (put_nzcv n z c v fl) = cond_holds cnd n z c v.
Proof.
  intros Hfl. unfold EvalCondition. rewrite !flag_bit_testbit by (vm_compute; discriminate).
  by rewrite !put_nzcv_spec by (try done; vm_compute; discriminate).
Qed.

Lemma flags_C_after_nz n z fl :
  0 <= fl < 2 ^ 64 ->
  Z.land (Z.shiftr (set_bit kHostFlagZ z (set_bit kHostFlagN n fl)) kHostFlagC) 1 =
  bool_z (Z.testbit fl kHostFlagC).
Proof.
  intros Hfl. unfold kHostFlagZ, kHostFlagN, kHostFlagC.
  rewrite (land_pow2 _ 0), Z.shiftr_spec, !set_bit_spec by (try lia; apply set_bit_range; lia).
  simpl. by destruct (Z.testbit fl 29).
Qed.

Section SaveNZCV.
Context (h : Heap) (def : Ptr) (i : Inst) (s : IState) (w result l r : Z).
Hypothesis Hdef : h !! def = Some i.
Hypothesis Hbits : TypeBits (i_ret i) = Ok w.
Hypothesis Hw : 0 < w <= 64.
Hypothesis Hfl : 0 <= s_flags s < 2 ^ 64.
Hypothesis Hres : ReadScalar h (Value_of def) s = Ok (result, s).

(** The flag word after [SaveGuestFlags] of NZCV, when the operation defines
    carry [c] and overflow [v]. *)
Lemma save_nzcv c v :
  carry_overflow h i w result
    (set_bit kHostFlagZ (result =? 0) (set_bit kHostFlagN (flag_bit (w - 1) result) (s_flags s))) s
  = Ok (Some (c, v), s) ->
  SaveGuestFlags h def Flags_NZCV s =
  Ok (tt, set_flags (put_nzcv (flag_bit (w - 1) result) (result =? 0) c v (s_flags s)) s).
Proof.
  intros Hcv. unfold SaveGuestFlags.
  assert (deref h def = Ok i) as Hd by (unfold deref; by rewrite Hdef).
  do 2 mstep. destruct (Z.eqb_spec w 0), (Z.ltb_spec 64 w); try lia.
  change (false || false) with false. cbv iota. do 2 mstep.
  change (flag_true Flags_NZCV Flags_Negate) with true.
  change (flag_true Flags_NZCV Flags_Zero) with true.
  change (flag_true Flags_NZCV (Z.lor Flags_Carry Flags_Overflow)) with true.
  change (flag_true Flags_NZCV Flags_Carry) with true.
  change (flag_true Flags_NZCV Flags_Overflow) with true.
  change (flag_true Flags_NZCV Flags_Parity) with false.
  change (flag_true Flags_NZCV Flags_AuxiliaryCarry) with false.
  cbv iota zeta. erewrite bind_run; [|by mstep]. by mstep.
Qed.
End SaveNZCV.

(** The mathematical meaning of a condition after comparing [l] with [r] at
    width [w]. *)
Definition compare_spec (c : Cond) (w l r : Z) : bool :=
  let sl := to_signed w l in
  let sr := to_signed w r in
  match c with
  | Cond_EQ => l =? r
  | Cond_NE => negb (l =? r)
  | Cond_CS => r <=? l
  | Cond_CC => l <? r
  | Cond_MI => to_signed w (l - r) <? 0
  | Cond_PL => negb (to_signed w (l - r) <? 0)
  | Cond_VS => negb (signed_fits w (sl - sr))
  | Cond_VC => signed_fits w (sl - sr)
  | Cond_HI => r <? l
  | Cond_LS => l <=? r
  | Cond_GE => sr <=? sl
  | Cond_LT => sl <? sr
  | Cond_GT => sr <? sl
  | Cond_LE => sl <=? sr
  | Cond_AL | Cond_NV => true
  end.

Lemma wrap_sub_zero w l r :
  0 <= w -> 0 <= l < 2 ^ w -> 0 <= r < 2 ^ w -> (wrap w (l - r) =? 0) = (l =? r).
Proof.
  intros Hw Hl Hr. destruct (wrap_eq_sub w (l - r) Hw) as [k Hk].
  pose proof (wrap_range w (l - r) Hw).
  destruct (Z.eqb_spec (wrap w (l - r)) 0), (Z.eqb_spec l r); try done; exfalso.
  - assert (k = 0 \/ k >= 1 \/ k <= -1) as [->|[]] by lia; nia.
  - subst. assert (k <= -1 \/ k >= 0) as [] by lia; nia.
Qed.

(** The NZCV of a subtraction decide every comparison. *)
Lemma sub_nzcv_conditions c w l r :
  0 < w <= 64 -> 0 <= l < 2 ^ w -> 0 <= r < 2 ^ w ->
  cond_holds c (flag_bit (w - 1) (wrap w (l - r))) (wrap w (l - r) =? 0)
    (sub_carry l r 0) (negb (signed_fits w (to_signed w l - to_signed w r)))
  = compare_spec c w l r.
Proof.
  intros Hw Hl Hr. pose proof (wrap_range w (l - r) ltac:(lia)) as Hwr.
  rewrite wrap_sub_zero, flag_bit_testbit, <- to_signed_sign, to_signed_wrap by lia.
  unfold sub_carry. rewrite Z.add_0_r.
  assert ((to_signed w (l - r) <? 0) =
          if signed_fits w (to_signed w l - to_signed w r)
          then to_signed w l <? to_signed w r else negb (to_signed w l <? to_signed w r)) as Hn.
  { assert (to_signed w (l - r) = to_signed w (to_signed w l - to_signed w r)) as ->.
    { destruct (to_signed_add_cong w l ltac:(lia)) as [k1 ->].
      destruct (to_signed_add_cong w r ltac:(lia)) as [k2 ->].
      unfold to_signed. replace (l + k1 * 2 ^ w - (r + k2 * 2 ^ w))
        with (l - r + (k1 - k2) * 2 ^ w) by lia. by rewrite wrap_cong. }
    pose proof (to_signed_range w l ltac:(lia)). pose proof (to_signed_range w r ltac:(lia)).
    assert (2 ^ w = 2 * 2 ^ (w - 1)) as E by (rewrite <- Z.pow_succ_r by lia; f_equal; lia).
    rewrite wrapped_sign by lia.
    destruct (signed_fits _ _), (Z.ltb_spec (to_signed w l - to_signed w r) 0),
      (Z.ltb_spec (to_signed w l) (to_signed w r)); simpl; try done; lia. }
  assert (l = r <-> to_signed w l = to_signed w r) as Heq.
  { split; [by intros ->|]. apply to_signed_inj; lia. }
  destruct c; cbn [cond_holds compare_spec]; rewrite ?Hn; try done;
    destruct (Z.eqb_spec l r), (Z.leb_spec r l), (signed_fits w _),
      (Z.ltb_spec (to_signed w l) (to_signed w r)); simpl;
    repeat match goal with
           | |- context [?a <? ?b] => destruct (Z.ltb_spec a b)
           | |- context [?a <=? ?b] => destruct (Z.leb_spec a b)
           end; simpl; try done; exfalso; lia.
Qed.
