(* ===== verification/InterpScalar.v ===== *)
(** * Scalar instructions

    Model of the scalar half of runtime/backend/interp/interpreter.cpp (the
    [Run*] methods on general-purpose values, flags and locations) and of
    runtime/common/div128.cpp.  Every method is a computation of [M] over the
    machine state; the values it writes go through [WriteScalar], which masks
    them to the instruction's return type. *)

From Stdlib Require Import ZArith Lia.
From stdpp Require Import numbers base gmap list.
From S2P Require Import Prelude MachineInt IRTypes Instr InterpCore InterpFlags.

Local Open Scope Z_scope.
Local Open Scope svm_scope.

(** ** 128-bit division (common/div128.cpp)

    The C++ division truncates towards zero: [Z.quot] and [Z.rem].  The pair is
    (quotient, remainder). *)
Definition DivideUnsigned128 (high low divisor : Z) : Z * Z :=
  if divisor =? 0 then (0, 0)
  else let dividend := Z.lor (Z.shiftl high 64) low in
       (wrap 64 (dividend / divisor), wrap 64 (dividend mod divisor)).

Definition DivideSigned128 (high low divisor : Z) : Z * Z :=
  let signed_divisor := to_signed 64 divisor in
  if signed_divisor =? 0 then (0, 0)
  else if (signed_divisor =? -1) && (high =? bit64 63) && (low =? 0) then (0, 0)
  else let dividend := to_signed 128 (Z.lor (Z.shiftl high 64) low) in
       (wrap 64 (Z.quot dividend signed_divisor), wrap 64 (Z.rem dividend signed_divisor)).

(** ** Bit-counting builtins *)

Fixpoint ctz_pos (p : positive) : Z :=
  match p with
  | xO q => 1 + ctz_pos q
  | _ => 0
  end.

Fixpoint popcount_pos (p : positive) : Z :=
  match p with
  | xH => 1
  | xO q => popcount_pos q
  | xI q => 1 + popcount_pos q
  end.

(** [std::countl_zero], [std::countr_zero] and [std::popcount] at width [w]. *)
Definition countl_zero (w x : Z) : Z :=
  match x with Zpos _ => w - 1 - Z.log2 x | _ => w end.
Definition countr_zero (w x : Z) : Z :=
  match x with Zpos p => ctz_pos p | _ => w end.
Definition popcount (x : Z) : Z :=
  match x with Zpos p => popcount_pos p | _ => 0 end.

(** [__builtin_bswap16/32/64]. *)
Definition bswap (bytes : nat) (x : Z) : Z := le_value (rev (le_bytes bytes x)).

(** ** Arithmetic cores

    The expressions of [RunDiv], [RunSignedDiv64], [RunMulHigh] and the rotates
    once the operands are read. *)
Definition div_core (signed : bool) (bits l r : Z) : Z :=
  if r =? 0 then 0
  else if signed then
    let sl := to_signed 64 (SignExtendTo l bits) in
    let sr := to_signed 64 (SignExtendTo r bits) in
    if sr =? -1 then Z.land (sub64 0 (wrap 64 sl)) (MaskBits bits)
    else wrap 64 (Z.quot sl sr)
  else l / r.

Definition signed_div64 (dividend divisor : Z) : Z :=
  let sd := to_signed 64 dividend in
  let sr := to_signed 64 divisor in
  if sr =? -1 then sub64 0 (wrap 64 sd)
  else if sr =? 0 then 0 else wrap 64 (Z.quot sd sr).

Definition mul_high (signed : bool) (l r : Z) : Z :=
  if signed
  then wrap 64 (Z.shiftr (wrap 128 (to_signed 64 l * to_signed 64 r)) 64)
  else wrap 64 (Z.shiftr (l * r) 64).

Definition rotate_right (bits value amount : Z) : Res Z :=
  if amount =? 0 then Ok value
  else a <-? shr64c value amount; b <-? shl64c value (bits - amount); Ok (Z.lor a b).

Definition bit_extract (value lsb width : Z) : Res Z :=
  x <-? shr64c value lsb; Ok (Z.land x (MaskBits (wrap 32 width))).

Definition bit_insert (dest src lsb width : Z) : Res Z :=
  mask <-? shl64c (MaskBits (wrap 32 width)) lsb;
  x <-? shl64c src lsb;
  Ok (Z.lor (Z.land dest (not64 mask)) (Z.land x mask)).

Definition bit_clear (value lsb width : Z) : Res Z :=
  mask <-? shl64c (MaskBits (wrap 32 width)) lsb; Ok (Z.land value (not64 mask)).

(** [(bits - 1)] as the [u32] mask of a shift amount. *)
Definition amount_mask (bits : Z) : Z := wrap 32 (bits - 1).

Section Scalar.
Context (h : Heap).

(** What the interpreter calls through a pointer: a host function of up to
    eight [u64] arguments, and the CPUID helper.  They may change the state. *)
Context (host_fn : Z -> list Z -> M Z).
Context (host_pair_fn : Z -> Z -> Z -> Z -> M (Z * Z)).

Definition readV (i : Inst) (n : nat) : M Z := v <- lift (GetArg_Value i n);; ReadScalar h v.
Definition readO (i : Inst) (n : nat) : M Z := o <- lift (GetArg_Operand i n);; EvalOperand h o.
Definition readI (i : Inst) (n : nat) : M Z := m <- lift (GetArg_Imm i n);; ret (Imm_Get m).
Definition ret_bits (i : Inst) : M Z := lift (TypeBits (i_ret i)).

(** Two-operand methods: argument 0, operand 1, then the written value. *)
Definition RunAdd (this : Ptr) : M unit :=
  i <- lift (deref h this);;
  l <- readV i 0;; r <- readO i 1;; WriteScalar h this (add64 l r).

Definition RunSub (this : Ptr) : M unit :=
  i <- lift (deref h this);;
  l <- readV i 0;; r <- readO i 1;; WriteScalar h this (sub64 l r).

Definition RunNeg (this : Ptr) : M unit :=
  i <- lift (deref h this);;
  x <- readV i 0;; WriteScalar h this (sub64 0 x).

Definition RunAdc (this : Ptr) : M unit :=
  i <- lift (deref h this);;
  l <- readV i 0;; r <- readO i 1;;
  fl <- gets s_flags;;
  let cin := Z.land (Z.shiftr fl kHostFlagC) 1 in
  WriteScalar h this (add64 (add64 l r) cin).

Definition RunSbb (this : Ptr) : M unit :=
  i <- lift (deref h this);;
  l <- readV i 0;; r <- readO i 1;;
  fl <- gets s_flags;;
  let bin := sub64 1 (Z.land (Z.shiftr fl kHostFlagC) 1) in
  WriteScalar h this (sub64 (sub64 l r) bin).

Definition RunMul (this : Ptr) : M unit :=
  i <- lift (deref h this);;
  l <- readV i 0;; r <- readO i 1;; WriteScalar h this (mul64 l r).

Definition RunMulSub (this : Ptr) : M unit :=
  i <- lift (deref h this);;
  left <- readV i 0;; right <- readV i 1;; accumulator <- readV i 2;;
  WriteScalar h this (sub64 accumulator (mul64 left right)).

Definition RunDiv (this : Ptr) : M unit :=
  i <- lift (deref h this);;
  left <- lift (GetArg_Value i 0);;
  type <- lift (Value_Type h left);;
  bits <- lift (TypeBits type);;
  l <- ReadScalar h left;;
  r <- readO i 1;;
  WriteScalar h this (div_core (IsSignValueType type) bits
                        (Z.land l (MaskBits bits)) (Z.land r (MaskBits bits))).

Definition RunSignedDiv64 (this : Ptr) : M unit :=
  i <- lift (deref h this);;
  dividend <- readV i 0;; divisor <- readV i 1;;
  WriteScalar h this (signed_div64 dividend divisor).

Definition RunDiv128 (this : Ptr) : M unit :=
  i <- lift (deref h this);;
  high <- readV i 0;; low <- readV i 1;; divisor <- readV i 2;;
  signed <- readI i 3;;
  let result := if negb (signed =? 0) then DivideSigned128 high low divisor
                else DivideUnsigned128 high low divisor in
  WritePairResult h this (fst result) (snd result) OpCode_Div128Remainder.

Definition RunCpuid (this : Ptr) : M unit :=
  i <- lift (deref h this);;
  helper <- readI i 3;;
  leaf <- readV i 0;; subleaf <- readV i 1;; features <- readI i 2;;
  result <- host_pair_fn helper leaf subleaf features;;
  WritePairResult h this (fst result) (snd result) OpCode_CpuidUpper.

Definition RunMulHigh (this : Ptr) : M unit :=
  i <- lift (deref h this);;
  l <- readV i 0;; r <- readV i 1;; signed <- readI i 2;;
  WriteScalar h this (mul_high (negb (signed =? 0)) l r).

(** [RunZeroExtend32] and [RunZeroExtend64]: the write masks. *)
Definition RunZeroExtend (this : Ptr) : M unit :=
  i <- lift (deref h this);; x <- readV i 0;; WriteScalar h this x.

Definition RunZeroExtend32To64 (this : Ptr) : M unit :=
  i <- lift (deref h this);; x <- readV i 0;;
  WriteScalar h this (Z.land x (2 ^ 32 - 1)).

Definition RunSignExtend (this : Ptr) : M unit :=
  i <- lift (deref h this);;
  value <- lift (GetArg_Value i 0);;
  type <- lift (Value_Type h value);;
  bits <- lift (TypeBits type);;
  x <- ReadScalar h value;;
  WriteScalar h this (SignExtendTo x bits).

Definition RunAnd (this : Ptr) : M unit :=
  i <- lift (deref h this);;
  l <- readV i 0;; r <- readO i 1;; WriteScalar h this (Z.land l r).

Definition RunOr (this : Ptr) : M unit :=
  i <- lift (deref h this);;
  l <- readV i 0;; r <- readO i 1;; WriteScalar h this (Z.lor l r).

Definition RunXor (this : Ptr) : M unit :=
  i <- lift (deref h this);;
  l <- readV i 0;; r <- readO i 1;; WriteScalar h this (Z.lxor l r).

Definition RunNot (this : Ptr) : M unit :=
  i <- lift (deref h this);;
  a <- lift (ArgAt i 1);;
  match a with
  | AVoid => x <- readV i 0;; WriteScalar h this (bool_z (x =? 0))
  | _ => x <- readO i 1;; WriteScalar h this (not64 x)
  end.

Definition RunAndNot (this : Ptr) : M unit :=
  i <- lift (deref h this);;
  l <- readV i 0;; r <- readO i 1;; WriteScalar h this (Z.land l (not64 r)).

(** ** Selects and conditions *)

Definition RunSelect (this : Ptr) : M unit :=
  i <- lift (deref h this);;
  c <- readV i 0;;
  x <- readV i (if negb (c =? 0) then 1%nat else 2%nat);; WriteScalar h this x.

Definition RunSelectZero (this : Ptr) : M unit :=
  i <- lift (deref h this);;
  c <- readV i 0;;
  x <- readV i (if c =? 0 then 1%nat else 2%nat);; WriteScalar h this x.

Definition RunCondSelect (this : Ptr) : M unit :=
  i <- lift (deref h this);;
  c <- lift (GetArg_Cond i 0);;
  fl <- gets s_flags;;
  x <- readV i (if EvalCondition c fl then 1%nat else 2%nat);; WriteScalar h this x.

Definition RunCondSet (this : Ptr) : M unit :=
  i <- lift (deref h this);;
  guard (negb (bool_decide (i_ret i = ValueType_VOID))) EPanic;;;
  c <- lift (GetArg_Cond i 0);;
  fl <- gets s_flags;;
  WriteScalar h this (bool_z (EvalCondition c fl)).

Definition RunLocalCondSet (this : Ptr) : M unit :=
  i <- lift (deref h this);;
  c <- lift (GetArg_Cond i 0);;
  fl <- gets s_flags;;
  WriteScalar h this (bool_z (EvalCondition c fl)).

Definition RunLocalParitySet (this : Ptr) : M unit :=
  i <- lift (deref h this);;
  x <- readV i 0;;
  let even := Z.land (popcount (wrap 8 x)) 1 =? 0 in
  invert <- readI i 1;;
  WriteScalar h this (bool_z (if negb (invert =? 0) then negb even else even)).

(** [RunFCmpCondSet]: NZCV rebuilt from the packed compare result. *)
Definition fcmp_take (c : Cond) (packed : Z) : bool :=
  let less := Z.land packed 7 =? 1 in
  let equal := Z.land packed 7 =? 4 in
  let unordered := Z.land packed 7 =? 7 in
  let n := less in
  let z := equal in
  let cf := negb less in
  let v := unordered in
  match c with
  | Cond_EQ => z
  | Cond_NE => negb z
  | Cond_CS => cf
  | Cond_CC => negb cf
  | Cond_MI => n
  | Cond_PL => negb n
  | Cond_VS => v
  | Cond_VC => negb v
  | Cond_HI => cf && negb z
  | Cond_LS => negb cf || z
  | Cond_GE => Bool.eqb n v
  | Cond_LT => negb (Bool.eqb n v)
  | Cond_GT => negb z && Bool.eqb n v
  | Cond_LE => z || negb (Bool.eqb n v)
  | Cond_AL | Cond_NV => true
  end.

Definition RunFCmpCondSet (this : Ptr) : M unit :=
  i <- lift (deref h this);;
  packed <- readV i 0;;
  c <- lift (GetArg_Cond i 1);;
  WriteScalar h this (bool_z (fcmp_take c packed)).

Definition RunTestBit (this : Ptr) : M unit :=
  i <- lift (deref h this);;
  value <- readV i 0;; bit <- readI i 1;;
  x <- lift (shr64c value bit);; WriteScalar h this (Z.land x 1).

Definition RunTestZero (this : Ptr) : M unit :=
  i <- lift (deref h this);; x <- readV i 0;; WriteScalar h this (bool_z (x =? 0)).

Definition RunTestNotZero (this : Ptr) : M unit :=
  i <- lift (deref h this);; x <- readV i 0;; WriteScalar h this (bool_z (negb (x =? 0))).

(** ** Flag instructions *)

Definition RunGetFlags (this : Ptr) : M unit := fl <- gets s_flags;; WriteScalar h this fl.

(** [RunSaveFlags] and [RunBranchOnlyFlags]. *)
Definition RunSaveFlags (this : Ptr) : M unit :=
  i <- lift (deref h this);;
  v <- lift (GetArg_Value i 0);;
  def <- lift (match v_inst v with Some p => Ok p | None => Err EUndefined end);;
  f <- lift (GetArg_Flags i 1);;
  SaveGuestFlags h def f.

Definition RunTestFlags (this : Ptr) : M unit :=
  i <- lift (deref h this);;
  f <- lift (GetArg_Flags i 0);; fl <- gets s_flags;;
  WriteScalar h this (bool_z (TestGuestFlags f fl)).

Definition RunTestNotFlags (this : Ptr) : M unit :=
  i <- lift (deref h this);;
  f <- lift (GetArg_Flags i 0);; fl <- gets s_flags;;
  WriteScalar h this (bool_z (negb (TestGuestFlags f fl))).

Definition RunClearFlags (this : Ptr) : M unit :=
  i <- lift (deref h this);;
  f <- lift (GetArg_Flags i 0);;
  modify (fun s => set_flags (ClearGuestFlags f (s_flags s)) s).

Definition RunSetCarry (this : Ptr) : M unit :=
  i <- lift (deref h this);;
  x <- readV i 0;;
  modify (fun s => set_flags (set_bit kHostFlagC (negb (Z.land x 1 =? 0)) (s_flags s)) s).

Definition RunSetOverflow (this : Ptr) : M unit :=
  i <- lift (deref h this);;
  x <- readV i 0;;
  modify (fun s => set_flags (set_bit kHostFlagV (negb (Z.land x 1 =? 0)) (s_flags s)) s).

Definition RunInvertCarry : M unit :=
  modify (fun s => set_flags (Z.lxor (s_flags s) (bit64 kHostFlagC)) s).

Definition fcmp_replaced : Z :=
  Z.lor (bit64 kHostFlagN) (Z.lor (bit64 kHostFlagZ) (Z.lor (bit64 kHostFlagC)
    (Z.lor (bit64 kHostFlagV) (Z.lor (bit64 kHostAF) (Z.shiftl 0xff kHostParityByte))))).

Definition publish_fcmp (packed : Z) (compact : bool) (flags : Z) : Z :=
  let flags := Z.land flags (not64 fcmp_replaced) in
  let flags := Z.lor flags (Z.shiftl (Z.lxor (Z.land packed 1) (bool_z compact)) kHostFlagC) in
  let flags := Z.lor flags (Z.shiftl (Z.land (Z.shiftr packed 2) 1) kHostFlagZ) in
  Z.lor flags (Z.shiftl (Z.lxor (Z.land (Z.shiftr packed 1) 1) 1) kHostParityByte).

Definition RunPublishFCmpFlags (this : Ptr) : M unit :=
  i <- lift (deref h this);;
  packed <- readV i 0;; compact <- readI i 1;;
  modify (fun s => set_flags (publish_fcmp packed (negb (compact =? 0)) (s_flags s)) s).

Definition sse42_kSignBit : Z := 24.
Definition sse42_kZeroBit : Z := 25.
Definition sse42_kCarryBit : Z := 26.
Definition sse42_kOverflowBit : Z := 27.

Definition publish_sse42 (packed requested flags : Z) : Z :=
  let publish flag source target flags :=
    if flag_true requested flag
    then Z.lor (Z.land flags (not64 (bit64 target)))
               (Z.shiftl (Z.land (Z.shiftr packed source) 1) target)
    else flags in
  let flags := publish Flags_Negate sse42_kSignBit kHostFlagN flags in
  let flags := publish Flags_Zero sse42_kZeroBit kHostFlagZ flags in
  let flags := publish Flags_Carry sse42_kCarryBit kHostFlagC flags in
  let flags := publish Flags_Overflow sse42_kOverflowBit kHostFlagV flags in
  let flags := if flag_true requested Flags_AuxiliaryCarry
               then Z.land flags (not64 (bit64 kHostAF)) else flags in
  if flag_true requested Flags_Parity
  then Z.lor (Z.land flags (not64 (Z.shiftl 0xff kHostParityByte))) (bit64 kHostParityByte)
  else flags.

Definition RunPublishSse42StrFlags (this : Ptr) : M unit :=
  i <- lift (deref h this);;
  packed <- readV i 0;; requested <- lift (GetArg_Flags i 1);;
  modify (fun s => set_flags (publish_sse42 packed requested (s_flags s)) s).

(** ** Shifts and rotates

    [amount] is argument 1 as an immediate or as a value. *)
Definition RunLsl (imm : bool) (this : Ptr) : M unit :=
  i <- lift (deref h this);;
  bits <- ret_bits i;;
  x <- readV i 0;; n <- (if imm then readI i 1 else readV i 1);;
  y <- lift (shl64c (Z.land x (MaskBits bits)) (Z.land n (amount_mask bits)));;
  WriteScalar h this y.

Definition RunLsr (imm : bool) (this : Ptr) : M unit :=
  i <- lift (deref h this);;
  bits <- ret_bits i;;
  x <- readV i 0;; n <- (if imm then readI i 1 else readV i 1);;
  y <- lift (shr64c (Z.land x (MaskBits bits)) (Z.land n (amount_mask bits)));;
  WriteScalar h this y.

Definition RunAsr (imm : bool) (this : Ptr) : M unit :=
  i <- lift (deref h this);;
  value <- lift (GetArg_Value i 0);;
  bits <- ret_bits i;;
  n <- (if imm then readI i 1 else readV i 1);;
  let amount := Z.land n (amount_mask bits) in
  x <- ReadScalar h value;;
  vt <- lift (Value_Type h value);;
  vbits <- lift (TypeBits vt);;
  let extended := to_signed 64 (SignExtendTo x vbits) in
  guard (amount <? 64) EUndefined;;;
  WriteScalar h this (wrap 64 (Z.shiftr extended amount)).

Definition RunRor (imm : bool) (this : Ptr) : M unit :=
  i <- lift (deref h this);;
  bits <- ret_bits i;;
  x <- readV i 0;; n <- (if imm then readI i 1 else readV i 1);;
  y <- lift (rotate_right bits (Z.land x (MaskBits bits))
               (wrap 32 (Z.land n (amount_mask bits))));;
  WriteScalar h this y.

(** ** Bit manipulation *)

Definition RunByteSwap (this : Ptr) : M unit :=
  i <- lift (deref h this);;
  value <- readV i 0;; width <- readI i 1;;
  let width := wrap 32 width in
  if width =? 16 then WriteScalar h this (bswap 2 value)
  else if width =? 32 then WriteScalar h this (bswap 4 value)
  else if width =? 64 then WriteScalar h this (bswap 8 value)
  else fail EPanic.

(** [RunCountLeadingZeros*] and [RunCountTrailingZeros*] at 64 and 32 bits. *)
Definition RunCountZeros (leading : bool) (t : ValueType) (w : Z) (this : Ptr) : M unit :=
  i <- lift (deref h this);;
  source <- lift (GetArg_Value i 0);;
  st <- lift (Value_Type h source);;
  guard (bool_decide (st = t)) EPanic;;;
  x <- ReadScalar h source;;
  let value := wrap w x in
  WriteScalar h this (if leading then countl_zero w value else countr_zero w value).

Definition RunBitExtract (this : Ptr) : M unit :=
  i <- lift (deref h this);;
  value <- readV i 0;; lsb <- readI i 1;; width <- readI i 2;;
  x <- lift (bit_extract value lsb width);; WriteScalar h this x.

Definition RunBitInsert (this : Ptr) : M unit :=
  i <- lift (deref h this);;
  dest <- readV i 0;; src <- readV i 1;; lsb <- readI i 2;; width <- readI i 3;;
  x <- lift (bit_insert dest src lsb width);; WriteScalar h this x.

Definition RunBitClear (this : Ptr) : M unit :=
  i <- lift (deref h this);;
  value <- readV i 0;; lsb <- readI i 1;; width <- readI i 2;;
  x <- lift (bit_clear value lsb width);; WriteScalar h this x.

(** ** Host calls, locations and data movement *)

Fixpoint eval_args (l : list DataClass) : M (list Z) :=
  match l with
  | [] => ret []
  | d :: l' => x <- EvalDataClass h d;; xs <- eval_args l';; ret (x :: xs)
  end.

(** [CallHostFunc]: the first eight arguments, the rest of [argv] zero. *)
Definition CallHostFunc (l : Lambda) (args : list DataClass) : M Z :=
  argv <- eval_args (take 8 args);;
  addr <- EvalLambda h l;;
  host_fn addr (argv ++ replicate (8 - length argv) 0).

Fixpoint lambda_args (i : Inst) (idx : list nat) : Res (list DataClass) :=
  match idx with
  | [] => Ok []
  | n :: idx' =>
      a <-? ArgAt i n;
      d <-? match a with
            | AValue _ => v <-? GetArg_Value i n; Ok [DValue v]
            | AImm _ => m <-? GetArg_Imm i n; Ok [DImm m]
            | _ => Ok []
            end;
      rest <-? lambda_args i idx';
      Ok (d ++ rest)
  end.

Definition RunCallLambda (this : Ptr) : M unit :=
  i <- lift (deref h this);;
  l <- lift (GetArg_Lambda i 0);;
  args <- lift (lambda_args i [1; 2; 3]%nat);;
  x <- CallHostFunc l args;; WriteScalar h this x.

(** [RunCallLocation] and [RunCallDynamic]. *)
Definition RunCallParams (this : Ptr) : M unit :=
  i <- lift (deref h this);;
  l <- lift (GetArg_Lambda i 0);;
  args <- lift (GetArg_Params i 1);;
  x <- CallHostFunc l args;; WriteScalar h this x.

Definition RunSetLocation (this : Ptr) : M unit :=
  i <- lift (deref h this);;
  l <- lift (GetArg_Lambda i 0);;
  x <- EvalLambda h l;; modify (set_current_loc x).

Definition RunGetLocation (this : Ptr) : M unit :=
  x <- gets s_current_loc;; WriteScalar h this x.

Definition RunZero (this : Ptr) : M unit :=
  i <- lift (deref h this);;
  if IsVector (i_ret i) then WriteVec h this 0 else WriteScalar h this 0.

(** [RunGetHostGPR] and [RunGetHostFPR]: no static host registers, so zero. *)
Definition RunGetHostReg (this : Ptr) : M unit := WriteScalar h this 0.

(** [RunBitCast] and [RunGetResult]: copy the raw 16-byte slot. *)
Definition RunCopySlot (this : Ptr) : M unit :=
  i <- lift (deref h this);;
  v <- lift (GetArg_Value i 0);; x <- ReadVec h v;; WriteVec h this x.

Definition RunGetOperand (this : Ptr) : M unit :=
  i <- lift (deref h this);; x <- readO i 0;; WriteScalar h this x.

Definition RunLoadImm (this : Ptr) : M unit :=
  i <- lift (deref h this);; x <- readI i 0;; WriteScalar h this x.

End Scalar.
