(* ===== verification/InterpMemory.v ===== *)
(** * Memory instructions

    Model of runtime/backend/interp/interpreter_memory.cpp: locals, uniforms
    (the guest registers), guest loads and stores with their wild-pointer
    guard, block copies and the atomic read-modify-write family.  The model is
    of one guest thread: the naturally aligned path ([std::atomic_ref]) and the
    locked unaligned path of each atomic compute the same result, and a
    [compare_exchange_weak] loop ends with its first success. *)

From Stdlib Require Import ZArith Lia.
From stdpp Require Import numbers base gmap list.
From S2P Require Import Prelude MachineInt IRTypes Instr InterpCore InterpFlags InterpScalar.

Local Open Scope Z_scope.
Local Open Scope svm_scope.

(** [std::memcpy] of [n] bytes into or out of an object of [cap] bytes. *)
Definition copy_in (cap n addr : Z) : M Z :=
  guard (n <=? cap) EUndefined;;; mload addr (Z.to_nat n).

Definition copy_out (cap n addr v : Z) : M unit :=
  guard (n <=? cap) EUndefined;;; mstore addr (Z.to_nat n) v.

Inductive AtomicRMWOp : Set :=
| AtomicRMWOp_Add | AtomicRMWOp_Sub | AtomicRMWOp_And | AtomicRMWOp_Or
| AtomicRMWOp_Xor | AtomicRMWOp_Neg | AtomicRMWOp_AddCarry | AtomicRMWOp_SubBorrow.

(** [static_cast<AtomicRMWOp>(u64)]; a value outside the enumeration makes the
    [switch] of [transform] fall through. *)
Definition rmw_of_index (n : Z) : option AtomicRMWOp :=
  let n := wrap 8 n in
  if n =? 0 then Some AtomicRMWOp_Add else if n =? 1 then Some AtomicRMWOp_Sub
  else if n =? 2 then Some AtomicRMWOp_And else if n =? 3 then Some AtomicRMWOp_Or
  else if n =? 4 then Some AtomicRMWOp_Xor else if n =? 5 then Some AtomicRMWOp_Neg
  else if n =? 6 then Some AtomicRMWOp_AddCarry else if n =? 7 then Some AtomicRMWOp_SubBorrow
  else None.

(** The lambda [transform] of [RunAtomicRMW] at width [w]. *)
Definition rmw_transform (op : option AtomicRMWOp) (w operand carry old : Z) : Z :=
  let rhs := wrap w operand in
  match op with
  | Some AtomicRMWOp_Add => wrap w (old + rhs)
  | Some AtomicRMWOp_Sub => wrap w (old - rhs)
  | Some AtomicRMWOp_And => wrap w (Z.land old rhs)
  | Some AtomicRMWOp_Or => wrap w (Z.lor old rhs)
  | Some AtomicRMWOp_Xor => wrap w (Z.lxor old rhs)
  | Some AtomicRMWOp_Neg => wrap w (0 - old)
  | Some AtomicRMWOp_AddCarry => wrap w (old + rhs + wrap w carry)
  | Some AtomicRMWOp_SubBorrow => wrap w (old - rhs - wrap w carry)
  | None => old
  end.

(** The four atomic primitives over [bytes]-byte objects: each returns the
    value it observed. *)
Definition AtomicTransformValue (bytes : nat) (ptr : Z) (transform : Z -> Z) : M Z :=
  old <- mload ptr bytes;; mstore ptr bytes (transform old);;; ret old.

Definition AtomicCompareExchange (bytes : nat) (ptr expected desired : Z) : M Z :=
  old <- mload ptr bytes;;
  (if old =? expected then mstore ptr bytes desired else ret tt);;; ret old.

Definition AtomicExchangeValue (bytes : nat) (ptr desired : Z) : M Z :=
  AtomicTransformValue bytes ptr (fun _ => desired).

Definition AtomicFetchAddValue (bytes : nat) (ptr addend : Z) : M Z :=
  AtomicTransformValue bytes ptr (fun old => wrap (8 * Z.of_nat bytes) (old + addend)).

(** The [switch] on the width of an atomic: 8, 16, 32 or 64 bits. *)
Definition atomic_bytes (bits : Z) : Res nat :=
  if bits =? 8 then Ok 1%nat else if bits =? 16 then Ok 2%nat
  else if bits =? 32 then Ok 4%nat else if bits =? 64 then Ok 8%nat else Err EPanic.

Section Memory.
Context (h : Heap) (cfg : IConfig).

Definition RunLoadLocal (this : Ptr) : M unit :=
  i <- lift (deref h this);;
  l <- lift (GetArg_Local i 0);;
  value <- (if local_buffer cfg =? 0 then ret 0
            else n <- lift (GetValueSizeByte (l_type l));;
                 copy_in 8 n (add64 (local_buffer cfg) (l_id l * 8)));;
  WriteScalar h this value.

Definition RunStoreLocal (this : Ptr) : M unit :=
  i <- lift (deref h this);;
  l <- lift (GetArg_Local i 0);;
  if local_buffer cfg =? 0 then ret tt else
  value <- readV h i 1;;
  n <- lift (GetValueSizeByte (l_type l));;
  copy_out 8 n (add64 (local_buffer cfg) (l_id l * 8)) value.

(** The two-way split of every load and store on the value's type. *)
Definition load_typed (this : Ptr) (type : ValueType) (addr : Z) : M unit :=
  n <- lift (GetValueSizeByte type);;
  if IsVector type
  then v <- copy_in 16 n addr;; WriteVec h this v
  else v <- copy_in 8 n addr;; WriteScalar h this v.

Definition store_typed (v : Value) (type : ValueType) (addr : Z) : M unit :=
  n <- lift (GetValueSizeByte type);;
  if IsVector type
  then x <- ReadVec h v;; copy_out 16 n addr x
  else x <- ReadScalar h v;; copy_out 8 n addr x.

Definition RunLoadUniform (this : Ptr) : M unit :=
  i <- lift (deref h this);;
  uni <- lift (GetArg_Uniform i 0);;
  let type := if decide (i_ret i = ValueType_VOID) then u_type uni else i_ret i in
  load_typed this type (add64 (uniform_buffer_begin cfg) (u_offset uni)).

Definition RunStoreUniform (this : Ptr) : M unit :=
  i <- lift (deref h this);;
  uni <- lift (GetArg_Uniform i 0);;
  value <- lift (GetArg_Value i 1);;
  vt <- lift (Value_Type h value);;
  let type := if decide (vt = ValueType_VOID) then u_type uni else vt in
  store_typed value type (add64 (uniform_buffer_begin cfg) (u_offset uni)).

Definition RunGetUniformAddress (this : Ptr) : M unit :=
  i <- lift (deref h this);;
  offset <- readI i 0;;
  WriteScalar h this (add64 (uniform_buffer_begin cfg) offset).

(** The wild-pointer guard of [RunLoadMemory] and [RunStoreMemory]. *)
Definition guest_fault (guest_addr access_size : Z) : bool :=
  (guest_addr_limit cfg <=? guest_addr)
  || (guest_addr_limit cfg <? add64 guest_addr access_size)
  || match interp_range_check cfg with
     | Some check => negb (check guest_addr access_size)
     | None => false
     end.

Definition RunLoadMemory (this : Ptr) : M unit :=
  i <- lift (deref h this);;
  operand <- lift (GetArg_Operand i 0);;
  addr <- EvalOperand h operand;;
  access_size <- lift (GetValueSizeByte (i_ret i));;
  let guest_addr := Z.land addr (guest_addr_mask cfg) in
  if guest_fault guest_addr access_size then modify (set_halt HaltReason_PageFatal)
  else load_typed this (i_ret i) (add64 guest_addr (pt cfg)).

Definition RunStoreMemory (this : Ptr) : M unit :=
  i <- lift (deref h this);;
  operand <- lift (GetArg_Operand i 0);;
  value <- lift (GetArg_Value i 1);;
  type <- lift (Value_Type h value);;
  addr <- EvalOperand h operand;;
  access_size <- lift (GetValueSizeByte type);;
  let guest_addr := Z.land addr (guest_addr_mask cfg) in
  if guest_fault guest_addr access_size then modify (set_halt HaltReason_PageFatal)
  else store_typed value type (add64 guest_addr (pt cfg)).

Definition host_addr (addr : Z) : Z := add64 (Z.land addr (guest_addr_mask cfg)) (pt cfg).

Definition RunMemoryCopy (this : Ptr) : M unit :=
  i <- lift (deref h this);;
  dst <- lift (GetArg_Lambda i 0);;
  src <- lift (GetArg_Lambda i 1);;
  size <- readI i 2;;
  d <- EvalLambda h dst;;
  a <- EvalLambda h src;;
  s <- get;;
  bs <- lift (mem_read (s_mem s) (host_addr a) (Z.to_nat size));;
  m <- lift (mem_write (s_mem s) (host_addr d) bs);;
  modify (set_mem m).

Definition RunCompareAndSwap (this : Ptr) : M unit :=
  i <- lift (deref h this);;
  addr <- readV h i 0;;
  expected <- lift (GetArg_Value i 1);;
  desired <- lift (GetArg_Value i 2);;
  type <- lift (Value_Type h expected);;
  bits <- lift (TypeBits type);;
  e <- ReadScalar h expected;;
  d <- ReadScalar h desired;;
  n <- lift (atomic_bytes bits);;
  old <- AtomicCompareExchange n (host_addr addr)
           (Z.land e (MaskBits bits)) (Z.land d (MaskBits bits));;
  WriteScalar h this old.

Definition RunCompareAndSwap128 (this : Ptr) : M unit :=
  i <- lift (deref h this);;
  addr <- readV h i 0;;
  expected_lo <- readV h i 1;; expected_hi <- readV h i 2;;
  desired_lo <- readV h i 3;; desired_hi <- readV h i 4;;
  old <- AtomicCompareExchange 16 (host_addr addr)
           (Z.lor (Z.shiftl expected_hi 64) expected_lo)
           (Z.lor (Z.shiftl desired_hi 64) desired_lo);;
  WriteVec h this old.

Definition RunCheckMemoryAlignment (this : Ptr) : M unit :=
  i <- lift (deref h this);;
  address <- readV h i 0;; mask <- readI i 1;;
  if negb (Z.land address mask =? 0) then modify (set_halt HaltReason_PageFatal) else ret tt.

Definition RunAtomicExchange (this : Ptr) : M unit :=
  i <- lift (deref h this);;
  addr <- readV h i 0;;
  desired <- lift (GetArg_Value i 1);;
  value <- ReadScalar h desired;;
  type <- lift (Value_Type h desired);;
  bits <- lift (TypeBits type);;
  n <- lift (atomic_bytes bits);;
  old <- AtomicExchangeValue n (host_addr addr) (wrap bits value);;
  WriteScalar h this old.

Definition RunAtomicFetchAdd (this : Ptr) : M unit :=
  i <- lift (deref h this);;
  addr <- readV h i 0;;
  addend <- lift (GetArg_Value i 1);;
  value <- ReadScalar h addend;;
  type <- lift (Value_Type h addend);;
  bits <- lift (TypeBits type);;
  n <- lift (atomic_bytes bits);;
  old <- AtomicFetchAddValue n (host_addr addr) (wrap bits value);;
  WriteScalar h this old.

Definition RunAtomicRMW (this : Ptr) : M unit :=
  i <- lift (deref h this);;
  op <- readI i 0;;
  addr <- readV h i 1;;
  operand_arg <- lift (GetArg_Value i 2);;
  operand <- ReadScalar h operand_arg;;
  carry <- readV h i 3;;
  type <- lift (Value_Type h operand_arg);;
  bits <- lift (TypeBits type);;
  n <- lift (atomic_bytes bits);;
  old <- AtomicTransformValue n (host_addr addr)
           (rmw_transform (rmw_of_index op) bits operand (Z.land carry 1));;
  WriteScalar h this old.

End Memory.
