(* ===== verification/InterpVector.v ===== *)
(** * Integer vector instructions

    Model of runtime/backend/interp/interpreter_vector_integer.cpp.  A 128-bit
    vector is a [Z] in [0, 2^128) ([unsigned __int128]); the loops over lanes
    that build a result with [result |= ... << bit] are folds over the lane
    numbers ([for_u32]).  The pure part of each instruction is a function
    [vec_*]; the [Run*] methods read the operands, check the [ASSERT]s and
    write the slot.

    The second part is interpreter_vector_crypto.cpp: the AES round primitives computed from
    GF(2^8) arithmetic, the key-generation assist and carry-less multiplication.  An
    [AesBlock] is a list of sixteen bytes in memory order.  The SHA-256 methods are calls of
    AArch64 intrinsics and are not modelled. *)

From Stdlib Require Import ZArith Lia.
From stdpp Require Import numbers base gmap list.
From S2P Require Import Prelude MachineInt IRTypes Instr InterpCore InterpFlags InterpScalar.

Local Open Scope Z_scope.
Local Open Scope svm_scope.

(** [for (u32 i = 0; i < n; ++i) acc = body(acc, i)]. *)
Definition for_u32 (n : Z) (body : Z -> Z -> Z) (init : Z) : Z :=
  foldl body init (seqZ 0 n).

(** [unsigned __int128] shifts and the casts of a shifted lane. *)
Definition shl128 (x n : Z) : Z := wrap 128 (Z.shiftl x n).
Definition not128 (x : Z) : Z := wrap 128 (Z.lnot x).
Definition u64_at (x bit : Z) : Z := wrap 64 (Z.shiftr x bit).
Definition u32_at (x bit : Z) : Z := wrap 32 (Z.shiftr x bit).
Definition u16_at (x bit : Z) : Z := wrap 16 (Z.shiftr x bit).
Definition u8_at (x bit : Z) : Z := wrap 8 (Z.shiftr x bit).

Definition SignedLane (value lane_bits : Z) : Z :=
  if lane_bits =? 64 then to_signed 64 value
  else to_signed 64 (sub64 (Z.lxor value (bit64 (lane_bits - 1))) (bit64 (lane_bits - 1))).

Definition Vec4Binary (a b : Z) (op : Z -> Z -> Z) : Z :=
  for_u32 4 (fun result i =>
    let la := u32_at a (i * 32) in
    let lb := u32_at b (i * 32) in
    Z.lor result (shl128 (op la lb) (i * 32))) 0.

Definition lane_bits_ok (lane_bits : Z) : bool :=
  (lane_bits =? 8) || (lane_bits =? 16) || (lane_bits =? 32) || (lane_bits =? 64).

(** The loop of [VecLaneBinary], [bit = lane * lane_bits]. *)
Definition vec_lanes (a b lane_bits : Z) (op : Z -> Z -> Z) : Z :=
  let lane_mask := MaskBits lane_bits in
  for_u32 (128 / lane_bits) (fun result lane =>
    let bit := lane * lane_bits in
    let left := Z.land (u64_at a bit) lane_mask in
    let right := Z.land (u64_at b bit) lane_mask in
    Z.lor result (shl128 (Z.land (op left right) lane_mask) bit)) 0.

Definition VecLaneBinary (a b lane_bits : Z) (op : Z -> Z -> Z) : Res Z :=
  if lane_bits_ok lane_bits then Ok (vec_lanes a b lane_bits op) else Err EPanic.

(** ** Lane operations (the lambdas) *)

Definition all_ones_if (b : bool) : Z := if b then not64 0 else 0.

Definition lane_cmp_gt (lane_bits a b : Z) : Z :=
  all_ones_if (SignedLane b lane_bits <? SignedLane a lane_bits).

Definition lane_avg (a b : Z) : Z := Z.shiftr (add64 (add64 a b) 1) 1.

Definition lane_min (lane_bits : Z) (is_signed : bool) (a b : Z) : Z :=
  if is_signed then if SignedLane a lane_bits <? SignedLane b lane_bits then a else b
  else Z.min a b.

Definition lane_max (lane_bits : Z) (is_signed : bool) (a b : Z) : Z :=
  if is_signed then if SignedLane b lane_bits <? SignedLane a lane_bits then a else b
  else Z.max a b.

Definition lane_mulhi16 (signed_lanes : bool) (a b : Z) : Z :=
  let product := if signed_lanes then wrap 32 (to_signed 16 a * to_signed 16 b)
                 else wrap 32 (wrap 16 a * wrap 16 b) in
  Z.shiftr product 16.

Definition clamp (x lo hi : Z) : Z := if x <? lo then lo else if hi <? x then hi else x.

Definition lane_sat_add (bits : Z) (signed_lanes : bool) (a b : Z) : Z :=
  let mask := 2 ^ bits - 1 in
  if negb signed_lanes then Z.min (add64 a b) mask
  else Z.land (wrap 64 (clamp (SignedLane a bits + SignedLane b bits)
                              (- 2 ^ (bits - 1)) (2 ^ (bits - 1) - 1))) mask.

Definition lane_sat_sub (bits : Z) (signed_lanes : bool) (a b : Z) : Z :=
  let mask := 2 ^ bits - 1 in
  if negb signed_lanes then if a <? b then 0 else sub64 a b
  else Z.land (wrap 64 (clamp (SignedLane a bits - SignedLane b bits)
                              (- 2 ^ (bits - 1)) (2 ^ (bits - 1) - 1))) mask.

Definition lane_shl (lane_bits count lane : Z) : Z :=
  if lane_bits <=? count then 0 else shl64 lane count.

Definition lane_shr (lane_bits count lane : Z) : Z :=
  if lane_bits <=? count then 0 else Z.shiftr lane count.

Definition lane_sar (lane_bits count lane : Z) : Z :=
  let clamped := Z.min count (wrap 32 (lane_bits - 1)) in
  wrap 64 (Z.shiftr (SignedLane lane lane_bits) clamped).

(** ** Whole-vector functions *)

Definition vec_mul_widen (src_bits : Z) (is_signed : bool) (a b : Z) : Z :=
  let dst_bits := src_bits * 2 in
  let src_mask := MaskBits src_bits in
  let dst_mask := MaskBits dst_bits in
  for_u32 (128 / dst_bits) (fun result lane =>
    let bit := lane * dst_bits in
    let left := Z.land (u64_at a bit) src_mask in
    let right := Z.land (u64_at b bit) src_mask in
    let product := if is_signed
                   then wrap 64 (SignedLane left src_bits * SignedLane right src_bits)
                   else mul64 left right in
    Z.lor result (shl128 (Z.land product dst_mask) bit)) 0.

Definition pack_lane (source_bits : Z) (unsigned_destination : bool) (x lane : Z) : Z :=
  let destination_bits := source_bits / 2 in
  let source_mask := 2 ^ source_bits - 1 in
  let lo := if unsigned_destination then 0 else - 2 ^ (destination_bits - 1) in
  let hi := if unsigned_destination then 2 ^ destination_bits - 1
            else 2 ^ (destination_bits - 1) - 1 in
  let raw := Z.land (u64_at x (lane * source_bits)) source_mask in
  let narrowed := clamp (SignedLane raw source_bits) lo hi in
  Z.land (wrap 64 narrowed) (2 ^ destination_bits - 1).

Definition vec_pack (source_bits : Z) (unsigned_destination : bool) (a b : Z) : Z :=
  let destination_bits := source_bits / 2 in
  let lanes_per_source := 128 / source_bits in
  for_u32 2 (fun result source =>
    for_u32 lanes_per_source (fun result lane =>
      let encoded := pack_lane source_bits unsigned_destination
                       (if source =? 0 then a else b) lane in
      let output_lane := source * lanes_per_source + lane in
      Z.lor result (shl128 encoded (output_lane * destination_bits))) result) 0.

Definition vec_absdiffsum8 (left right : Z) : Z :=
  for_u32 2 (fun result half =>
    let sum := for_u32 8 (fun sum byte =>
                 let bit := half * 64 + byte * 8 in
                 let a := u8_at left bit in
                 let b := u8_at right bit in
                 add64 sum (if b <? a then a - b else b - a)) 0 in
    Z.lor result (shl128 sum (half * 64))) 0.

Definition vec_madd16 (left right : Z) : Z :=
  for_u32 4 (fun result lane =>
    let bit := lane * 32 in
    let a0 := to_signed 16 (Z.shiftr left bit) in
    let a1 := to_signed 16 (Z.shiftr left (bit + 16)) in
    let b0 := to_signed 16 (Z.shiftr right bit) in
    let b1 := to_signed 16 (Z.shiftr right (bit + 16)) in
    Z.lor result (shl128 (wrap 32 (a0 * b0 + a1 * b1)) bit)) 0.

Definition vec_byte_shift (count : Z) (left : bool) (value : Z) : Z :=
  if left then shl128 value (count * 8) else Z.shiftr value (count * 8).

Definition vec_shuffle32_two (control left right : Z) : Z :=
  for_u32 4 (fun result lane =>
    let selected := Z.land (Z.shiftr control (lane * 2)) 3 in
    let source := if lane <? 2 then left else right in
    Z.lor result (shl128 (u32_at source (selected * 32)) (lane * 32))) 0.

Definition vec_shuffle32 (control src : Z) : Z :=
  for_u32 4 (fun result lane =>
    let selected := Z.land (Z.shiftr control (lane * 2)) 3 in
    Z.lor result (shl128 (u32_at src (selected * 32)) (lane * 32))) 0.

Definition vec_shuffle_indexed (src indexes : Z) : Z :=
  for_u32 16 (fun result byte =>
    let index := u8_at indexes (byte * 8) in
    if index <? 16 then Z.lor result (shl128 (u8_at src (index * 8)) (byte * 8))
    else result) 0.

Definition vec_shuffle16 (control : Z) (high : bool) (src : Z) : Z :=
  let base := if high then 4 else 0 in
  let half_mask := shl128 (not64 0) (base * 16) in
  for_u32 4 (fun result lane =>
    let selected := base + Z.land (Z.shiftr control (lane * 2)) 3 in
    Z.lor result (shl128 (u16_at src (selected * 16)) ((base + lane) * 16)))
    (Z.land src (not128 half_mask)).

Definition vec_zip (lane_bits : Z) (high : bool) (left right : Z) : Z :=
  let half_lanes := 64 / lane_bits in
  let source_base := if high then half_lanes else 0 in
  let lane_mask := MaskBits lane_bits in
  for_u32 half_lanes (fun result lane =>
    let source_bit := (source_base + lane) * lane_bits in
    let a := Z.land (u64_at left source_bit) lane_mask in
    let b := Z.land (u64_at right source_bit) lane_mask in
    let result := Z.lor result (shl128 a ((lane * 2) * lane_bits)) in
    Z.lor result (shl128 b ((lane * 2 + 1) * lane_bits))) 0.

Definition vec_unzip (lane_bits : Z) (odd : bool) (left right : Z) : Z :=
  let half_lanes := 64 / lane_bits in
  let first := if odd then 1 else 0 in
  let lane_mask := MaskBits lane_bits in
  for_u32 half_lanes (fun result lane =>
    let source_bit := (lane * 2 + first) * lane_bits in
    let a := Z.land (u64_at left source_bit) lane_mask in
    let b := Z.land (u64_at right source_bit) lane_mask in
    let result := Z.lor result (shl128 a (lane * lane_bits)) in
    Z.lor result (shl128 b ((half_lanes + lane) * lane_bits))) 0.

Definition vec_dup_pairs32 (odd : bool) (src : Z) : Z :=
  for_u32 2 (fun result pair =>
    let value := u32_at src ((pair * 2 + bool_z odd) * 32) in
    let result := Z.lor result (shl128 value (pair * 64)) in
    Z.lor result (shl128 value (pair * 64 + 32))) 0.

Definition vec_extract_bytes (offset low high : Z) : Z :=
  let shift := offset * 8 in
  Z.lor (Z.shiftr low shift) (shl128 high (128 - shift)).

Definition vec_insert16 (lane dest value : Z) : Z :=
  let mask := shl128 0xFFFF (lane * 16) in
  Z.lor (Z.land dest (not128 mask)) (shl128 value (lane * 16)).

Definition vec_movmask (lane_bits src : Z) : Z :=
  for_u32 (128 / lane_bits) (fun result lane =>
    Z.lor result (shl64 (Z.land (Z.shiftr src (lane * lane_bits + lane_bits - 1)) 1) lane)) 0.

Definition vec_table_lookup8 (table control : Z) : Z :=
  for_u32 16 (fun result byte =>
    let index := u8_at control (byte * 8) in
    if Z.land index 0x80 =? 0
    then Z.lor result (shl128 (u8_at table (Z.land index 0x0F * 8)) (byte * 8))
    else result) 0.

Section Vector.
Context (h : Heap).

Definition readVec (i : Inst) (n : nat) : M Z := v <- lift (GetArg_Value i n);; ReadVec h v.
(** [const u32 x = inst->GetArg<Imm>(n).Get()]. *)
Definition readU32 (i : Inst) (n : nat) : M Z := x <- readI i n;; ret (wrap 32 x).
Definition readBool (i : Inst) (n : nat) : M bool := x <- readI i n;; ret (negb (x =? 0)).

(** Methods of the shape [WriteVec(f(ReadVec(0), ReadVec(1)))]: the bitwise
    ones, [RunVec4*], [RunVecAbsDiffSum8], [RunVecMadd16], the table lookups. *)
Definition RunVecBinary (f : Z -> Z -> Z) (this : Ptr) : M unit :=
  i <- lift (deref h this);;
  a <- readVec i 0;; b <- readVec i 1;; WriteVec h this (f a b).

(** Lane-wise methods with the lane width in argument 2. *)
Definition RunVecLaneOp (op : Z -> Z -> Z -> Z) (this : Ptr) : M unit :=
  i <- lift (deref h this);;
  lane_bits <- readU32 i 2;;
  a <- readVec i 0;; b <- readVec i 1;;
  r <- lift (VecLaneBinary a b lane_bits (op lane_bits));; WriteVec h this r.

Definition RunVecAvg (this : Ptr) : M unit :=
  i <- lift (deref h this);;
  lane_bits <- readU32 i 2;;
  guard ((lane_bits =? 8) || (lane_bits =? 16)) EPanic;;;
  a <- readVec i 0;; b <- readVec i 1;;
  r <- lift (VecLaneBinary a b lane_bits lane_avg);; WriteVec h this r.

(** [RunVecMin] and [RunVecMax]: signedness in argument 3. *)
Definition RunVecMinMax (op : Z -> bool -> Z -> Z -> Z) (this : Ptr) : M unit :=
  i <- lift (deref h this);;
  lane_bits <- readU32 i 2;; is_signed <- readBool i 3;;
  a <- readVec i 0;; b <- readVec i 1;;
  r <- lift (VecLaneBinary a b lane_bits (op lane_bits is_signed));; WriteVec h this r.

Definition RunVecMulHigh16 (this : Ptr) : M unit :=
  i <- lift (deref h this);;
  signed_lanes <- readBool i 2;;
  a <- readVec i 0;; b <- readVec i 1;;
  r <- lift (VecLaneBinary a b 16 (lane_mulhi16 signed_lanes));; WriteVec h this r.

Definition RunVecMulWiden (this : Ptr) : M unit :=
  i <- lift (deref h this);;
  src_bits <- readU32 i 2;; is_signed <- readBool i 3;;
  guard ((src_bits =? 8) || (src_bits =? 16) || (src_bits =? 32)) EPanic;;;
  a <- readVec i 0;; b <- readVec i 1;; WriteVec h this (vec_mul_widen src_bits is_signed a b).

(** [RunVecSatAdd] and [RunVecSatSub]: the mask is a 64-bit shift by [bits]. *)
Definition RunVecSat (op : Z -> bool -> Z -> Z -> Z) (this : Ptr) : M unit :=
  i <- lift (deref h this);;
  bits <- readU32 i 2;; signed_lanes <- readBool i 3;;
  guard (bits <? 64) EUndefined;;;
  a <- readVec i 0;; b <- readVec i 1;;
  r <- lift (VecLaneBinary a b bits (op bits signed_lanes));; WriteVec h this r.

(** The divisions and shifts by [source_bits] are undefined at 0 and from 64,
    and the shift by [destination_bits - 1] at 1. *)
Definition RunVecPack (this : Ptr) : M unit :=
  i <- lift (deref h this);;
  source_bits <- readU32 i 2;; unsigned_destination <- readBool i 3;;
  guard ((0 <? source_bits) && (source_bits <? 64)) EUndefined;;;
  guard (unsigned_destination || (1 <=? source_bits / 2)) EUndefined;;;
  a <- readVec i 0;; b <- readVec i 1;;
  WriteVec h this (vec_pack source_bits unsigned_destination a b).

(** The six packed shifts: the count is a value or an immediate, and so is
    the position of the lane width. *)
Definition RunVecShift (op : Z -> Z -> Z -> Z) (imm : bool) (this : Ptr) : M unit :=
  i <- lift (deref h this);;
  value <- readVec i 0;;
  count <- (if imm then readI i 1 else readV h i 1);;
  lane_bits <- readU32 i 2;;
  r <- lift (VecLaneBinary value 0 lane_bits (fun lane _ => op lane_bits count lane));;
  WriteVec h this r.

Definition RunVecByteShift (this : Ptr) : M unit :=
  i <- lift (deref h this);;
  value <- readVec i 0;; count <- readU32 i 2;; left <- readBool i 3;;
  guard ((0 <? count) && (count <? 16)) EPanic;;;
  WriteVec h this (vec_byte_shift count left value).

Definition RunVecShuffle32 (this : Ptr) : M unit :=
  i <- lift (deref h this);;
  src <- readVec i 0;; control <- readU32 i 1;; WriteVec h this (vec_shuffle32 control src).

Definition RunVecShuffle32TwoSrc (this : Ptr) : M unit :=
  i <- lift (deref h this);;
  left <- readVec i 0;; right <- readVec i 1;; control <- readU32 i 2;;
  WriteVec h this (vec_shuffle32_two control left right).

Definition RunVecLoadConst (this : Ptr) : M unit :=
  i <- lift (deref h this);;
  low <- readI i 0;; high <- readI i 1;; WriteVec h this (Z.lor low (shl128 high 64)).

Definition RunVecSharedZero (this : Ptr) : M unit := WriteVec h this 0.

Definition RunVecShuffle16 (this : Ptr) : M unit :=
  i <- lift (deref h this);;
  src <- readVec i 0;; control <- readU32 i 1;; high <- readBool i 2;;
  WriteVec h this (vec_shuffle16 control high src).

(** [RunVecZip] and [RunVecUnzip]. *)
Definition RunVecZipLike (f : Z -> bool -> Z -> Z -> Z) (this : Ptr) : M unit :=
  i <- lift (deref h this);;
  left <- readVec i 0;; right <- readVec i 1;;
  lane_bits <- readU32 i 2;; which <- readBool i 3;;
  guard (lane_bits_ok lane_bits) EPanic;;;
  WriteVec h this (f lane_bits which left right).

Definition RunVecDupPairs32 (this : Ptr) : M unit :=
  i <- lift (deref h this);;
  src <- readVec i 0;; odd <- readBool i 1;; WriteVec h this (vec_dup_pairs32 odd src).

Definition RunVecExtractBytes (this : Ptr) : M unit :=
  i <- lift (deref h this);;
  low <- readVec i 0;; high <- readVec i 1;; offset <- readU32 i 2;;
  guard ((0 <? offset) && (offset <? 16)) EPanic;;;
  WriteVec h this (vec_extract_bytes offset low high).

Definition RunVecDup64 (this : Ptr) : M unit :=
  i <- lift (deref h this);;
  src <- readV h i 0;; WriteVec h this (Z.lor src (shl128 src 64)).

Definition RunVecExtract64 (this : Ptr) : M unit :=
  i <- lift (deref h this);;
  src <- readVec i 0;; x <- readI i 1;;
  WriteScalar h this (u64_at src (Z.land x 1 * 64)).

Definition RunVecExtract16 (this : Ptr) : M unit :=
  i <- lift (deref h this);;
  src <- readVec i 0;; x <- readI i 1;;
  WriteScalar h this (u16_at src (Z.land x 7 * 16)).

Definition RunVecInsert16 (this : Ptr) : M unit :=
  i <- lift (deref h this);;
  dest <- readVec i 0;; value <- readV h i 1;; x <- readI i 2;;
  WriteVec h this (vec_insert16 (Z.land x 7) dest (wrap 16 value)).

Definition RunVecMovMask (this : Ptr) : M unit :=
  i <- lift (deref h this);;
  src <- readVec i 0;; lane_bits <- readU32 i 1;;
  guard ((lane_bits =? 8) || (lane_bits =? 32) || (lane_bits =? 64)) EPanic;;;
  WriteScalar h this (vec_movmask lane_bits src).

End Vector.

(** ** AES and carry-less multiplication *)

(** ** GF(2^8) *)

(** The doubling step of the loop of [GfMul]: [a <<= 1], then the reduction. *)
Definition gf_double (a : Z) : Z :=
  let high := negb (Z.land a 0x80 =? 0) in
  let a := wrap 8 (Z.shiftl a 1) in
  if high then Z.lxor a 0x1b else a.

(** [while (b)]: eight iterations exhaust a [u8]. *)
Fixpoint gf_loop (fuel : nat) (out a b : Z) : Z :=
  match fuel with
  | O => out
  | S f => if b =? 0 then out
           else gf_loop f (if negb (Z.land b 1 =? 0) then Z.lxor out a else out)
                        (gf_double a) (Z.shiftr b 1)
  end.

Definition GfMul (a b : Z) : Z := gf_loop 8 0 a b.

Definition Rotl8 (value count : Z) : Z :=
  wrap 8 (Z.lor (Z.shiftl value count) (Z.shiftr value (8 - count))).

(** [while (exponent)] of [AesSbox]; 254 has eight bits. *)
Fixpoint gf_pow_loop (fuel : nat) (inverse base exponent : Z) : Z :=
  match fuel with
  | O => inverse
  | S f => if exponent =? 0 then inverse
           else gf_pow_loop f (if negb (Z.land exponent 1 =? 0) then GfMul inverse base else inverse)
                            (GfMul base base) (Z.shiftr exponent 1)
  end.

Definition AesSbox (value : Z) : Z :=
  let inverse := if negb (value =? 0) then gf_pow_loop 8 1 value 254 else 0 in
  wrap 8 (Z.lxor (Z.lxor (Z.lxor (Z.lxor (Z.lxor inverse (Rotl8 inverse 1)) (Rotl8 inverse 2))
    (Rotl8 inverse 3)) (Rotl8 inverse 4)) 0x63).

(** [AesInvSbox]: the first candidate whose S-box image is [value]. *)
Fixpoint inv_sbox_from (candidates : list Z) (value : Z) : Res Z :=
  match candidates with
  | [] => Err EPanic
  | c :: rest => if AesSbox c =? value then Ok c else inv_sbox_from rest value
  end.

Definition AesInvSbox (value : Z) : Res Z := inv_sbox_from (seqZ 0 256) value.

(** ** Blocks *)

Definition ToAesBlock (value : Z) : list Z := le_bytes 16 value.
Definition FromAesBlock (value : list Z) : Z := le_value value.

Definition byte_at (l : list Z) (n : nat) : Z := nth n l 0.

(** Every index is written once, from a copy of the input. *)
Definition AesShiftRows (input : list Z) (inverse : bool) : list Z :=
  concat (map (fun column =>
    map (fun row =>
      let source_column := (if inverse then (column + 4 - row) mod 4
                            else (column + row) mod 4)%nat in
      byte_at input (4 * source_column + row)) (seq 0 4)) (seq 0 4)).

Definition mix_column (inverse : bool) (a0 a1 a2 a3 : Z) : list Z :=
  if inverse then
    [Z.lxor (Z.lxor (Z.lxor (GfMul a0 14) (GfMul a1 11)) (GfMul a2 13)) (GfMul a3 9);
     Z.lxor (Z.lxor (Z.lxor (GfMul a0 9) (GfMul a1 14)) (GfMul a2 11)) (GfMul a3 13);
     Z.lxor (Z.lxor (Z.lxor (GfMul a0 13) (GfMul a1 9)) (GfMul a2 14)) (GfMul a3 11);
     Z.lxor (Z.lxor (Z.lxor (GfMul a0 11) (GfMul a1 13)) (GfMul a2 9)) (GfMul a3 14)]
  else
    [Z.lxor (Z.lxor (Z.lxor (GfMul a0 2) (GfMul a1 3)) a2) a3;
     Z.lxor (Z.lxor (Z.lxor a0 (GfMul a1 2)) (GfMul a2 3)) a3;
     Z.lxor (Z.lxor (Z.lxor a0 a1) (GfMul a2 2)) (GfMul a3 3);
     Z.lxor (Z.lxor (Z.lxor (GfMul a0 3) a1) a2) (GfMul a3 2)].

Definition AesMixColumns (value : list Z) (inverse : bool) : list Z :=
  concat (map (fun column =>
    let off := (4 * column)%nat in
    mix_column inverse (byte_at value off) (byte_at value (off + 1))
      (byte_at value (off + 2)) (byte_at value (off + 3))) (seq 0 4)).

Fixpoint map_res {A B} (f : A -> Res B) (l : list A) : Res (list B) :=
  match l with
  | [] => Ok []
  | x :: l' => y <-? f x; ys <-? map_res f l'; Ok (y :: ys)
  end.

Definition xor_blocks (a b : list Z) : list Z := zip_with Z.lxor a b.

(** The bodies of the four round methods over 128-bit values. *)
Definition aes_enc (x key : Z) : Z :=
  let data := map AesSbox (ToAesBlock x) in
  let data := AesShiftRows data false in
  let data := AesMixColumns data false in
  FromAesBlock (xor_blocks data (ToAesBlock key)).

Definition aes_enc_last (x key : Z) : Z :=
  let data := map AesSbox (ToAesBlock x) in
  let data := AesShiftRows data false in
  FromAesBlock (xor_blocks data (ToAesBlock key)).

Definition aes_dec (x key : Z) : Res Z :=
  data <-? map_res AesInvSbox (ToAesBlock x);
  let data := AesShiftRows data true in
  let data := AesMixColumns data true in
  Ok (FromAesBlock (xor_blocks data (ToAesBlock key))).

Definition aes_dec_last (x key : Z) : Res Z :=
  data <-? map_res AesInvSbox (ToAesBlock x);
  let data := AesShiftRows data true in
  Ok (FromAesBlock (xor_blocks data (ToAesBlock key))).

(** [RunVecAesKeygenAssist]: the words 0..3 written by [emit_word]. *)
Definition emit_word (source : list Z) (rcon : Z) (src_word : nat) (rotate : bool) : list Z :=
  let word := map (fun byte =>
      AesSbox (byte_at source (4 * src_word + (byte + (if rotate then 1 else 0)) mod 4)))
    (seq 0 4) in
  match word with
  | b0 :: rest => (if rotate then Z.lxor b0 rcon else b0) :: rest
  | [] => []
  end.

Definition aes_keygen_assist (x imm : Z) : Z :=
  let source := ToAesBlock x in
  let rcon := wrap 8 imm in
  FromAesBlock (emit_word source rcon 1 false ++ emit_word source rcon 1 true
             ++ emit_word source rcon 3 false ++ emit_word source rcon 3 true).

Definition pclmul (control left right : Z) : Z :=
  let a := u64_at left (if negb (Z.land control 1 =? 0) then 64 else 0) in
  let b := u64_at right (if negb (Z.land control 0x10 =? 0) then 64 else 0) in
  for_u32 64 (fun result bit =>
    if negb (Z.land (Z.shiftr b bit) 1 =? 0) then Z.lxor result (shl128 a bit) else result) 0.

Section Crypto.
Context (h : Heap).

(** [RunVecAesEnc] and [RunVecAesEncLast], with their [Fast] aliases. *)
Definition RunVecAesEncRound (f : Z -> Z -> Z) (this : Ptr) : M unit :=
  i <- lift (deref h this);;
  x <- readVec h i 0;; key <- readVec h i 1;; WriteVec h this (f x key).

Definition RunVecAesDecRound (f : Z -> Z -> Res Z) (this : Ptr) : M unit :=
  i <- lift (deref h this);;
  x <- readVec h i 0;; key <- readVec h i 1;; r <- lift (f x key);; WriteVec h this r.

Definition RunVecAesKeygenAssist (this : Ptr) : M unit :=
  i <- lift (deref h this);;
  x <- readVec h i 0;; imm <- readI i 1;; WriteVec h this (aes_keygen_assist x imm).

Definition RunVecPclMul (this : Ptr) : M unit :=
  i <- lift (deref h this);;
  left <- readVec h i 0;; right <- readVec h i 1;; control <- readU32 i 2;;
  WriteVec h this (pclmul control left right).

End Crypto.
