(* ===== verification/Interp.v ===== *)
(** * The interpreter: dispatch, block loop and terminals

    Model of [Interpreter::Run] (both overloads) and [Interpreter::RunTerminal]
    of runtime/backend/interp/interpreter.cpp, and of runtime/ir/terminal.h.
    The block's intrusive instruction list is a list of pointers, an iterator is
    a position in it.  The loop takes fuel and returns [None] when the fuel does
    not suffice; [run_block_total] gives the fuel that does. *)

From Stdlib Require Import ZArith Lia.
From stdpp Require Import numbers base gmap list.
From S2P Require Import Prelude MachineInt IRTypes Instr InterpCore InterpFlags InterpScalar.
From S2P Require Import InterpMemory InterpVector.

Local Open Scope Z_scope.
Local Open Scope svm_scope.

(** ** Terminals (ir/terminal.h) *)

#[warnings="-register-all"]
Inductive Terminal : Type :=
| Invalid
| ReturnToDispatch
| ReturnToHost
| LinkBlock (next : Z)
| LinkBlockFast (next : Z)
| ExternalLinkBlock (next : Z)
| PopRSBHint
| If (cond : Value) (then_ else_ : Terminal)
| Condition (cond : Cond) (then_ else_ : Terminal)
| Switch (value : Value) (cases : list (Imm * Terminal))
| CheckHalt (else_ : Terminal).

Record Block := mkBlock { b_insts : list Ptr; b_terminal : Terminal }.

Section Interpreter.
Context (h : Heap) (cfg : IConfig).
Context (host_fn : Z -> list Z -> M Z).
Context (host_pair_fn : Z -> Z -> Z -> Z -> M (Z * Z)).

(** [Interpreter::Run(Inst*, InterpStack&)]: one case per opcode of ir.inc.
    Floating-point, x87, SSE4.2 string and SHA-256 instructions are the
    opcodes outside the model. *)
Definition run_inst (this : Ptr) : M unit :=
  i <- lift (deref h this);;
  match i_op i with
  | OpCode_LoadLocal => RunLoadLocal h cfg this
  | OpCode_StoreLocal => RunStoreLocal h cfg this
  | OpCode_LoadUniform => RunLoadUniform h cfg this
  | OpCode_StoreUniform => RunStoreUniform h cfg this
  | OpCode_GetUniformAddress => RunGetUniformAddress h cfg this
  | OpCode_LoadMemory | OpCode_LoadMemoryTSO => RunLoadMemory h cfg this
  | OpCode_StoreMemory | OpCode_StoreMemoryTSO => RunStoreMemory h cfg this
  | OpCode_MemoryCopy | OpCode_MemoryCopyTSO => RunMemoryCopy h cfg this
  | OpCode_CompareAndSwap => RunCompareAndSwap h cfg this
  | OpCode_CompareAndSwap128 => RunCompareAndSwap128 h cfg this
  | OpCode_CheckMemoryAlignment => RunCheckMemoryAlignment h this
  | OpCode_AtomicExchange => RunAtomicExchange h cfg this
  | OpCode_AtomicFetchAdd => RunAtomicFetchAdd h cfg this
  | OpCode_AtomicRMW => RunAtomicRMW h cfg this
  | OpCode_Select => RunSelect h this
  | OpCode_SelectZero => RunSelectZero h this
  | OpCode_CondSelect => RunCondSelect h this
  | OpCode_CallLambda => RunCallLambda h host_fn this
  | OpCode_CallLocation | OpCode_CallDynamic => RunCallParams h host_fn this
  | OpCode_SetLocation => RunSetLocation h this
  | OpCode_GetLocation => RunGetLocation h this
  | OpCode_Zero => RunZero h this
  | OpCode_GetHostGPR | OpCode_GetHostFPR => RunGetHostReg h this
  | OpCode_BitCast | OpCode_GetResult => RunCopySlot h this
  | OpCode_GetOperand => RunGetOperand h this
  | OpCode_LoadImm => RunLoadImm h this
  | OpCode_Add => RunAdd h this
  | OpCode_Sub => RunSub h this
  | OpCode_Neg => RunNeg h this
  | OpCode_Adc => RunAdc h this
  | OpCode_Sbb => RunSbb h this
  | OpCode_Mul => RunMul h this
  | OpCode_MulSub => RunMulSub h this
  | OpCode_MulHigh => RunMulHigh h this
  | OpCode_Div => RunDiv h this
  | OpCode_SignedDiv64 => RunSignedDiv64 h this
  | OpCode_Div128 => RunDiv128 h this
  | OpCode_Cpuid => RunCpuid h host_pair_fn this
  | OpCode_ZeroExtend32 | OpCode_ZeroExtend64 => RunZeroExtend h this
  | OpCode_ZeroExtend32To64 => RunZeroExtend32To64 h this
  | OpCode_SignExtend => RunSignExtend h this
  | OpCode_And => RunAnd h this
  | OpCode_Or => RunOr h this
  | OpCode_Xor => RunXor h this
  | OpCode_Not => RunNot h this
  | OpCode_AndNot => RunAndNot h this
  | OpCode_GetFlags => RunGetFlags h this
  | OpCode_SaveFlags | OpCode_BranchOnlyFlags => RunSaveFlags h this
  | OpCode_TestFlags => RunTestFlags h this
  | OpCode_TestNotFlags => RunTestNotFlags h this
  | OpCode_ClearFlags => RunClearFlags h this
  | OpCode_SetCarry => RunSetCarry h this
  | OpCode_SetOverflow => RunSetOverflow h this
  | OpCode_InvertCarry => RunInvertCarry
  | OpCode_PublishFCmpFlags => RunPublishFCmpFlags h this
  | OpCode_PublishSse42StrFlags => RunPublishSse42StrFlags h this
  | OpCode_LslImm => RunLsl h true this
  | OpCode_LslValue => RunLsl h false this
  | OpCode_LsrImm => RunLsr h true this
  | OpCode_LsrValue => RunLsr h false this
  | OpCode_AsrImm => RunAsr h true this
  | OpCode_AsrValue => RunAsr h false this
  | OpCode_RorImm => RunRor h true this
  | OpCode_RorValue => RunRor h false this
  | OpCode_ByteSwap => RunByteSwap h this
  | OpCode_CountLeadingZeros64 => RunCountZeros h true ValueType_U64 64 this
  | OpCode_CountTrailingZeros64 => RunCountZeros h false ValueType_U64 64 this
  | OpCode_CountLeadingZeros32 => RunCountZeros h true ValueType_U32 32 this
  | OpCode_CountTrailingZeros32 => RunCountZeros h false ValueType_U32 32 this
  | OpCode_BitExtract => RunBitExtract h this
  | OpCode_BitInsert => RunBitInsert h this
  | OpCode_BitClear => RunBitClear h this
  | OpCode_TestBit => RunTestBit h this
  | OpCode_TestZero => RunTestZero h this
  | OpCode_TestNotZero => RunTestNotZero h this
  | OpCode_CondSet => RunCondSet h this
  | OpCode_LocalCondSet => RunLocalCondSet h this
  | OpCode_LocalParitySet => RunLocalParitySet h this
  | OpCode_FCmpCondSet => RunFCmpCondSet h this
  | OpCode_Vec4Add => RunVecBinary h (fun a b => Vec4Binary a b (fun x y => wrap 32 (x + y))) this
  | OpCode_Vec4Sub => RunVecBinary h (fun a b => Vec4Binary a b (fun x y => wrap 32 (x - y))) this
  | OpCode_Vec4Mul => RunVecBinary h (fun a b => Vec4Binary a b (fun x y => wrap 32 (x * y))) this
  | OpCode_Vec4And | OpCode_VecAnd => RunVecBinary h Z.land this
  | OpCode_Vec4Or | OpCode_VecOr => RunVecBinary h Z.lor this
  | OpCode_VecXor => RunVecBinary h Z.lxor this
  | OpCode_VecAndNot => RunVecBinary h (fun a b => Z.land a (not128 b)) this
  | OpCode_VecAdd => RunVecLaneOp h (fun _ => add64) this
  | OpCode_VecSub => RunVecLaneOp h (fun _ => sub64) this
  | OpCode_VecMul => RunVecLaneOp h (fun _ => mul64) this
  | OpCode_VecCmpEq => RunVecLaneOp h (fun _ a b => all_ones_if (a =? b)) this
  | OpCode_VecCmpGt => RunVecLaneOp h lane_cmp_gt this
  | OpCode_VecAvg => RunVecAvg h this
  | OpCode_VecMin => RunVecMinMax h lane_min this
  | OpCode_VecMax => RunVecMinMax h lane_max this
  | OpCode_VecMulHigh16 => RunVecMulHigh16 h this
  | OpCode_VecMulWiden => RunVecMulWiden h this
  | OpCode_VecSatAdd => RunVecSat h lane_sat_add this
  | OpCode_VecSatSub => RunVecSat h lane_sat_sub this
  | OpCode_VecPack => RunVecPack h this
  | OpCode_VecAbsDiffSum8 => RunVecBinary h vec_absdiffsum8 this
  | OpCode_VecMadd16 => RunVecBinary h vec_madd16 this
  | OpCode_VecShiftLeft => RunVecShift h lane_shl false this
  | OpCode_VecShiftRight => RunVecShift h lane_shr false this
  | OpCode_VecShiftRightArithmetic => RunVecShift h lane_sar false this
  | OpCode_VecShiftLeftImm => RunVecShift h lane_shl true this
  | OpCode_VecShiftRightImm => RunVecShift h lane_shr true this
  | OpCode_VecShiftRightArithmeticImm => RunVecShift h lane_sar true this
  | OpCode_VecByteShift => RunVecByteShift h this
  | OpCode_VecShuffle32 => RunVecShuffle32 h this
  | OpCode_VecShuffle32TwoSrc => RunVecShuffle32TwoSrc h this
  | OpCode_VecLoadConst => RunVecLoadConst h this
  | OpCode_VecShuffle32Indexed => RunVecBinary h vec_shuffle_indexed this
  | OpCode_VecSharedZero => RunVecSharedZero h this
  | OpCode_VecShuffle16 => RunVecShuffle16 h this
  | OpCode_VecExtractBytes => RunVecExtractBytes h this
  | OpCode_VecZip => RunVecZipLike h vec_zip this
  | OpCode_VecUnzip => RunVecZipLike h vec_unzip this
  | OpCode_VecDupPairs32 => RunVecDupPairs32 h this
  | OpCode_VecDup64 => RunVecDup64 h this
  | OpCode_VecExtract64 => RunVecExtract64 h this
  | OpCode_VecExtract16 => RunVecExtract16 h this
  | OpCode_VecInsert16 => RunVecInsert16 h this
  | OpCode_VecMovMask => RunVecMovMask h this
  | OpCode_VecTableLookup8 => RunVecBinary h vec_table_lookup8 this
  | OpCode_VecAesEnc | OpCode_VecAesEncFast => RunVecAesEncRound h aes_enc this
  | OpCode_VecAesEncLast | OpCode_VecAesEncLastFast => RunVecAesEncRound h aes_enc_last this
  | OpCode_VecAesDec | OpCode_VecAesDecFast => RunVecAesDecRound h aes_dec this
  | OpCode_VecAesDecLast | OpCode_VecAesDecLastFast => RunVecAesDecRound h aes_dec_last this
  | OpCode_VecAesKeygenAssist => RunVecAesKeygenAssist h this
  | OpCode_VecPclMul => RunVecPclMul h this
  (* the methods with an empty body, and the [default] case *)
  | OpCode_Void | OpCode_DefineLocal | OpCode_MemoryBarrierTSO | OpCode_UniformBarrier
  | OpCode_Goto | OpCode_NotGoto | OpCode_BindLabel | OpCode_AddPhi | OpCode_Nop
  | OpCode_AdvancePC | OpCode_SetHostGPR | OpCode_SetHostFPR | OpCode_PushRSB
  | OpCode_CallReturn | OpCode_PopRSB | OpCode_Div128Remainder | OpCode_CpuidUpper
  | OpCode_BranchOnlyEdges => ret tt
  (* not modelled *)
  | OpCode_X87Op | OpCode_Sse42Str | OpCode_VecSha256Msg1 | OpCode_VecSha256Msg2
  | OpCode_VecSha256Rnds2 | OpCode_VecFAddScalar32 | OpCode_VecFSubScalar32
  | OpCode_VecFMulScalar32 | OpCode_VecFDivScalar32 | OpCode_VecFAddScalar64
  | OpCode_VecFSubScalar64 | OpCode_VecFMulScalar64 | OpCode_VecFDivScalar64
  | OpCode_VecFAdd | OpCode_VecFSub | OpCode_VecFMul | OpCode_VecFDiv | OpCode_VecFMinMax
  | OpCode_VecFUnary | OpCode_VecFCmp | OpCode_VecFCmpMask | OpCode_VecFCvtIntToFloat
  | OpCode_VecFCvtFloatToInt | OpCode_VecFCvtScalar | OpCode_VecFCvtPacked
  | OpCode_VecFMulAdd | OpCode_VecFRoundInt => fail ENotModelled
  end.

(** [Interpreter::RunTerminal]. *)
Fixpoint RunTerminal (t : Terminal) : M HaltReason :=
  match t with
  | Invalid | ReturnToDispatch | PopRSBHint => ret HaltReason_None
  | ReturnToHost => modify (set_halt HaltReason_CallHost);;; ret HaltReason_CallHost
  | LinkBlock next | LinkBlockFast next | ExternalLinkBlock next =>
      s <- get;;
      modify (set_prev_loc (s_current_loc s));;;
      modify (set_current_loc next);;; ret HaltReason_None
  | If cond then_ else_ =>
      c <- ReadScalar h cond;;
      if negb (c =? 0) then RunTerminal then_ else RunTerminal else_
  | Condition cond then_ else_ =>
      fl <- gets s_flags;;
      if EvalCondition cond fl then RunTerminal then_ else RunTerminal else_
  | Switch value cases =>
      x <- ReadScalar h value;;
      (fix try_cases (l : list (Imm * Terminal)) : M HaltReason :=
         match l with
         | [] => ret HaltReason_None
         | (case_value, then_) :: l' =>
             if x =? Imm_Get case_value then RunTerminal then_ else try_cases l'
         end) cases
  | CheckHalt else_ =>
      r <- gets s_halt;;
      if decide (r = HaltReason_None) then RunTerminal else_ else ret r
  end.

(** ** The block loop *)

(** The map [labels]: positions of the [BindLabel]s by the instruction they
    name; a later label replaces an earlier one. *)
Definition labels_step (acc : Res (list (option Ptr * nat))) (e : nat * Ptr)
  : Res (list (option Ptr * nat)) :=
  l <-? acc;
  i <-? deref h (snd e);
  if op_eqb (i_op i) OpCode_BindLabel
  then v <-? GetArg_Value i 0; Ok ((v_inst v, fst e) :: l)
  else Ok l.

Definition collect_labels (insts : list Ptr) : Res (list (option Ptr * nat)) :=
  foldl labels_step (Ok []) (imap pair insts).

Fixpoint find_label (labels : list (option Ptr * nat)) (p : Ptr) : option nat :=
  match labels with
  | [] => None
  | (k, pos) :: rest => if decide (k = Some p) then Some pos else find_label rest p
  end.

(** One iteration of the loop on the instruction at [pc]: the next position,
    or the halt reason that ends the block. *)
Definition loop_step (labels : list (option Ptr * nat)) (pc : nat) (p : Ptr) : M (nat + HaltReason) :=
  i <- lift (deref h p);;
  let op := i_op i in
  if op_eqb op OpCode_Goto || op_eqb op OpCode_NotGoto then
    v <- lift (GetArg_Value i 0);;
    x <- ReadScalar h v;;
    let cond := negb (x =? 0) in
    let jump := Bool.eqb (op_eqb op OpCode_Goto) cond in
    ret (inl (if jump then match find_label labels p with
                           | Some target => S target
                           | None => S pc
                           end
              else S pc))
  else
    run_inst p;;;
    r <- gets s_halt;;
    if decide (r = HaltReason_None) then ret (inl (S pc)) else ret (inr r).

Fixpoint run_loop (fuel : nat) (labels : list (option Ptr * nat)) (b : Block) (pc : nat)
  (s : IState) : option (Res (HaltReason * IState)) :=
  match b_insts b !! pc with
  | None => Some (RunTerminal (b_terminal b) s)
  | Some p =>
      match fuel with
      | O => None
      | S f =>
          match loop_step labels pc p s with
          | Err e => Some (Err e)
          | Ok (inr r, s') => Some (Ok (r, s'))
          | Ok (inl pc', s') => run_loop f labels b pc' s'
          end
      end
  end.

Definition max_inst_id (insts : list Ptr) : Z :=
  foldr (fun p m => Z.max (match h !! p with Some i => i_id i | None => 0 end) m) 0 insts.

(** [Interpreter::Run()]: zeroed slots for the largest id, labels, the loop. *)
Definition run_block (fuel : nat) (b : Block) (s : IState) : option (Res (HaltReason * IState)) :=
  let slot_count := Z.to_nat ((max_inst_id (b_insts b) + 1) * Z.of_nat kSlotStride) in
  let s := set_stack (replicate slot_count 0) s in
  match collect_labels (b_insts b) with
  | Err e => Some (Err e)
  | Ok labels => run_loop fuel labels b 0 s
  end.

End Interpreter.
