(* ===== verification/InterpInvariant.v ===== *)
(** * The machine-state invariant

    Every instruction of the interpreter keeps the machine state a state of the
    C++ program: each slot word and the flag word are [u64]s, each mapped byte
    is a [u8], the slot array keeps its length and the set of mapped bytes never
    changes.  [keeps Q m] is the triple the proofs compose. *)

From Stdlib Require Import ZArith Lia.
From stdpp Require Import numbers base gmap list.
From S2P Require Import Prelude MachineInt IRTypes Instr InterpCore InterpFlags InterpScalar InterpMemory InterpVector Interp.

Local Open Scope Z_scope.
Local Open Scope svm_scope.

Definition is_word (x : Z) : Prop := 0 <= x < 2 ^ 64.
Definition is_vec (x : Z) : Prop := 0 <= x < 2 ^ 128.

(** Relative to the mapped addresses [D] and the slot count [n] of the run. *)
Record state_ok (D : gset Z) (n : nat) (s : IState) : Prop := mk_state_ok {
  ok_stack : Forall is_word (s_stack s);
  ok_length : length (s_stack s) = n;
  ok_flags : is_word (s_flags s);
  ok_mem : map_Forall (fun _ b => is_byte b) (s_mem s);
  ok_dom : dom (s_mem s) = D
}.

Definition trivial_post {A} (_ : A) : Prop := True.

Section Keeps.
Context (D : gset Z) (n : nat).

Definition keeps {A} (Q : A -> Prop) (m : M A) : Prop :=
  hoare (state_ok D n) m (fun a s => Q a /\ state_ok D n s).

Lemma keeps_bind {A B} (Q : A -> Prop) (R : B -> Prop) (m : M A) f :
  keeps Q m -> (forall a, Q a -> keeps R (f a)) -> keeps R (bind m f).
Proof.
  intros Hm Hf. eapply hoare_bind; [exact Hm|]. intros a. apply hoare_pull. apply Hf.
Qed.

Lemma keeps_weaken {A} (Q R : A -> Prop) (m : M A) :
  keeps Q m -> (forall a, Q a -> R a) -> keeps R m.
Proof. intros Hm HQ. eapply hoare_weaken; [exact Hm|done|]. intros a s [? ?]. auto. Qed.

Lemma keeps_ret {A} (Q : A -> Prop) (a : A) : Q a -> keeps Q (ret a).
Proof. intros Ha s b s' Hs [= <- <-]. done. Qed.

Lemma keeps_fail {A} (Q : A -> Prop) e : keeps Q (fail e).
Proof. apply hoare_fail. Qed.

Lemma keeps_lift {A} (r : Res A) : keeps (fun a => r = Ok a) (lift r).
Proof. apply hoare_lift. Qed.

Lemma keeps_guard b e : keeps (fun _ => b = true) (guard b e).
Proof. apply hoare_guard. Qed.

Lemma keeps_if {A} (b : bool) (m1 m2 : M A) Q :
  keeps Q m1 -> keeps Q m2 -> keeps Q (if b then m1 else m2).
Proof. by destruct b. Qed.

Lemma keeps_flags : keeps is_word (gets s_flags).
Proof. intros s a s' Hs [= <- <-]. split; [apply Hs|done]. Qed.

Lemma keeps_gets {A} (f : IState -> A) : keeps trivial_post (gets f).
Proof. intros s a s' Hs [= <- <-]. done. Qed.

Lemma keeps_set_flags f :
  (forall fl, is_word fl -> is_word (f fl)) ->
  keeps trivial_post (modify (fun s => set_flags (f (s_flags s)) s)).
Proof. intros Hf s a s' [] [= <- <-]. split; [done|]. by split; simpl; auto. Qed.

Lemma keeps_set_flags_to fl : is_word fl -> keeps trivial_post (modify (set_flags fl)).
Proof. intros Hf. by apply (keeps_set_flags (fun _ => fl)). Qed.

Lemma keeps_set_halt r : keeps trivial_post (modify (set_halt r)).
Proof. intros s a s' [] [= <- <-]. by split. Qed.

Lemma keeps_set_current_loc x : keeps trivial_post (modify (set_current_loc x)).
Proof. intros s a s' [] [= <- <-]. by split. Qed.

Lemma keeps_set_prev_loc x : keeps trivial_post (modify (set_prev_loc x)).
Proof. intros s a s' [] [= <- <-]. by split. Qed.

(** ** Slots *)

Lemma keeps_word_at k : keeps is_word (word_at k).
Proof.
  intros s a s' Hs. unfold word_at, bind, get. destruct (s_stack s !! k) eqn:E; intros [= <- <-].
  split; [|done]. by eapply Forall_lookup_1, E; destruct Hs.
Qed.

Lemma keeps_set_word k w : is_word w -> keeps trivial_post (set_word k w).
Proof.
  intros Hw s a s' Hs. unfold set_word, bind, get.
  destruct (bool_decide _); intros [= <- <-]. split; [done|]. destruct Hs.
  split; simpl; try done; [by apply Forall_insert|by rewrite length_insert].
Qed.

Lemma vec_of_words lo hi : is_word lo -> is_word hi -> is_vec (lo + hi * 2 ^ 64).
Proof. unfold is_word, is_vec. lia. Qed.

Lemma TypeBits_cases t b : TypeBits t = Ok b -> 8 <= b <= 256.
Proof. destruct t; vm_compute; intros [= <-]; split; discriminate. Qed.

Lemma MaskBits_range b : 0 <= b -> is_word (MaskBits b).
Proof.
  intros Hb. unfold is_word, MaskBits, bit64.
  destruct (Z.leb_spec 64 b); [vm_compute; split; congruence|].
  pose proof (pow2_pos b Hb). pose proof (Z.pow_lt_mono_r 2 b 64). lia.
Qed.

Lemma land_mask_word x m : is_word m -> is_word (Z.land x m).
Proof.
  intros Hm. assert (0 <= Z.land x m) by (apply Z.land_nonneg; right; apply Hm).
  split; [done|]. apply bits_range; [lia|done|]. intros i Hi.
  by rewrite Z.land_spec, (testbit_above 64 m), andb_false_r. Qed.

Lemma keeps_ReadScalar h v : keeps is_word (ReadScalar h v).
Proof. eapply keeps_bind; [apply keeps_lift|]. intros. apply keeps_word_at. Qed.

Lemma keeps_ReadVec h v : keeps is_vec (ReadVec h v).
Proof.
  eapply keeps_bind; [apply keeps_lift|]. intros.
  eapply keeps_bind; [apply keeps_word_at|]. intros lo Hlo.
  eapply keeps_bind; [apply keeps_word_at|]. intros hi Hhi.
  apply keeps_ret. by apply vec_of_words.
Qed.

Lemma keeps_WriteVec h this x : keeps trivial_post (WriteVec h this x).
Proof.
  eapply keeps_bind; [apply keeps_lift|]. intros k _.
  eapply keeps_bind; [apply keeps_set_word, wrap_range; lia|]. intros _ _.
  apply keeps_set_word, wrap_range; lia.
Qed.

Lemma keeps_WriteScalar h this x : keeps trivial_post (WriteScalar h this x).
Proof.
  eapply keeps_bind; [apply keeps_lift|]. intros i _.
  destruct (decide _); [by apply keeps_ret|]. destruct (IsVector _); [apply keeps_WriteVec|].
  eapply keeps_bind; [apply keeps_lift|]. intros m Hm. unfold MaskFor in Hm. minv Hm.
  eapply keeps_bind; [apply keeps_lift|]. intros k _.
  apply keeps_set_word, land_mask_word, MaskBits_range. apply TypeBits_cases in H. lia.
Qed.

Lemma keeps_WritePairResult h this a b op : keeps trivial_post (WritePairResult h this a b op).
Proof.
  eapply keeps_bind; [apply keeps_WriteScalar|]. intros _ _.
  eapply keeps_bind; [apply keeps_lift|]. intros ps _.
  eapply keeps_bind; [apply keeps_guard|]. intros _ _.
  destruct ps; [by apply keeps_ret|apply keeps_WriteScalar].
Qed.

Lemma keeps_EvalDataClass h d : keeps is_word (EvalDataClass h d).
Proof.
  destruct d; [apply keeps_ret; done|apply keeps_ReadScalar|apply keeps_ret, Imm_Get_range].
Qed.

Lemma keeps_EvalLambda h l : keeps is_word (EvalLambda h l).
Proof.
  unfold EvalLambda. apply keeps_if.
  - eapply keeps_bind; [apply keeps_lift|]. intros. apply keeps_ReadScalar.
  - eapply keeps_bind; [apply keeps_lift|]. intros. apply keeps_ret, Imm_Get_range.
Qed.

Lemma keeps_mload a k : keeps trivial_post (mload a k).
Proof.
  intros s x s' Hs Hm. unfold mload in Hm. minv Hm. done.
Qed.

Lemma mem_write_dom m a bs m' :
  mem_write m a bs = Ok m' -> Forall is_byte bs -> map_Forall (fun _ b => is_byte b) m ->
  map_Forall (fun _ b => is_byte b) m' /\ dom m' = dom m.
Proof.
  revert a m'. induction bs as [|b bs IH]; intros a m' Hw Hb Hm; simpl in Hw; [by minv Hw|].
  destruct (m !! _) eqn:E; [|done]. minv Hw. apply Forall_cons in Hb as [Hb1 Hb2].
  destruct (IH _ _ H Hb2 Hm) as [IH1 IH2]. split.
  - by apply map_Forall_insert_2.
  - rewrite dom_insert_lookup_L; [done|]. apply elem_of_dom. rewrite IH2. by eapply elem_of_dom_2.
Qed.

Lemma mem_read_bytes m a k bs :
  mem_read m a k = Ok bs -> map_Forall (fun _ b => is_byte b) m ->
  Forall is_byte bs /\ length bs = k.
Proof.
  intros Hr Hm. revert a bs Hr. induction k as [|k IH]; intros a bs Hr; simpl in Hr; [by minv Hr|].
  destruct (m !! _) eqn:E; [|done]. minv Hr. destruct (IH _ _ H).
  split; [constructor; [by eapply Hm|done]|simpl; lia].
Qed.

Lemma keeps_mem_write a bs :
  Forall is_byte bs ->
  keeps trivial_post (s <- get;; m <- lift (mem_write (s_mem s) a bs);; modify (set_mem m)).
Proof.
  intros Hb s x s' Hs Hm. minv Hm. split; [done|]. destruct Hs.
  destruct (mem_write_dom _ _ _ _ ltac:(eassumption) Hb ok_mem0) as [? Hd].
  split; simpl; try done. by rewrite Hd.
Qed.

Lemma keeps_mstore a k v : keeps trivial_post (mstore a k v).
Proof. apply keeps_mem_write, le_bytes_Forall. Qed.
End Keeps.

(** ** Flag words *)

Lemma word_lor x y : is_word x -> is_word y -> is_word (Z.lor x y).
Proof. apply lor_range. lia. Qed.
Lemma word_lxor x y : is_word x -> is_word y -> is_word (Z.lxor x y).
Proof. apply lxor_range. lia. Qed.
Lemma word_land_l x y : is_word x -> is_word (Z.land x y).
Proof. intros. rewrite Z.land_comm. by apply land_mask_word. Qed.
Lemma word_wrap x : is_word (wrap 64 x).
Proof. apply wrap_range. lia. Qed.
Lemma word_set_bit b on fl : 0 <= b < 64 -> is_word fl -> is_word (set_bit b on fl).
Proof. apply set_bit_range. Qed.
Lemma word_bit64 b : 0 <= b < 64 -> is_word (bit64 b).
Proof. apply bit64_range. Qed.
Lemma word_shiftr x n : is_word x -> 0 <= n -> is_word (Z.shiftr x n).
Proof. intros. by apply shiftr_range. Qed.
Lemma word_if (b : bool) x y : is_word x -> is_word y -> is_word (if b then x else y).
Proof. by destruct b. Qed.

(** A single bit moved to position [n] of the flag word. *)
Lemma word_shiftl_bit x n : 0 <= n < 64 -> 0 <= x <= 1 -> is_word (Z.shiftl x n).
Proof.
  intros Hn Hx. unfold is_word. rewrite Z.shiftl_mul_pow2 by lia.
  pose proof (pow2_pos n ltac:(lia)). pose proof (Z.pow_lt_mono_r 2 n 64). nia.
Qed.

Lemma land_1_range x : 0 <= Z.land x 1 <= 1.
Proof.
  change 1 with (Z.ones 1) at 1 2. rewrite Z.land_ones by lia.
  pose proof (Z.mod_pos_bound x 2). change (2 ^ 1) with 2. lia.
Qed.

Lemma lxor_bit_range x y : 0 <= x <= 1 -> 0 <= y <= 1 -> 0 <= Z.lxor x y <= 1.
Proof.
  intros. assert (x = 0 \/ x = 1) as [-> | ->] by lia; assert (y = 0 \/ y = 1) as [-> | ->] by lia;
    vm_compute; split; discriminate.
Qed.

Create HintDb word.
#[export] Hint Resolve word_lor word_lxor word_land_l word_wrap word_set_bit word_bit64 word_shiftr
  word_if word_shiftl_bit land_1_range lxor_bit_range : word.
#[export] Hint Extern 1 (0 <= _ < 64)%Z => (vm_compute; split; congruence) : word.
#[export] Hint Extern 1 (0 <= bool_z ?b <= 1)%Z => (destruct b; vm_compute; split; congruence) : word.
#[export] Hint Extern 1 (0 <= 1 <= 1)%Z => lia : word.

Lemma ClearGuestFlags_word f fl : is_word fl -> is_word (ClearGuestFlags f fl).
Proof. intros. unfold ClearGuestFlags. auto 20 with word. Qed.

Lemma publish_fcmp_word packed compact fl : is_word fl -> is_word (publish_fcmp packed compact fl).
Proof. intros. unfold publish_fcmp. auto 20 with word. Qed.

Lemma publish_sse42_word packed requested fl :
  is_word fl -> is_word (publish_sse42 packed requested fl).
Proof. intros. unfold publish_sse42. auto 30 with word. Qed.

Lemma invert_carry_word fl : is_word fl -> is_word (Z.lxor fl (bit64 kHostFlagC)).
Proof. intros. auto with word. Qed.

(** ** The hint database of the triples *)

Create HintDb keeps.
#[export] Hint Resolve keeps_fail keeps_lift keeps_guard keeps_flags keeps_set_flags_to
  keeps_set_halt keeps_set_current_loc keeps_set_prev_loc keeps_ReadScalar keeps_ReadVec
  keeps_WriteVec keeps_WriteScalar keeps_WritePairResult keeps_EvalDataClass keeps_EvalLambda
  keeps_mload keeps_mstore : keeps.
#[export] Hint Resolve Imm_Get_range : keeps.

Section Ops.
Context (D : gset Z) (n : nat) (h : Heap) (cfg : IConfig).
Context (host_fn : Z -> list Z -> M Z) (host_pair_fn : Z -> Z -> Z -> Z -> M (Z * Z)).
Hypothesis host_keeps : forall a l, keeps D n trivial_post (host_fn a l).
Hypothesis host_pair_keeps : forall a x y z, keeps D n trivial_post (host_pair_fn a x y z).

Abbreviation ok m := (keeps D n trivial_post m).

Lemma keeps_ret_any {A} (a : A) : ok (ret a).
Proof. by apply keeps_ret. Qed.

Lemma keeps_EvalOperand o : ok (EvalOperand h o).
Proof.
  unfold EvalOperand. eapply keeps_bind; [apply keeps_EvalDataClass|]. intros l _.
  destruct (o_right o) as [|v|m]; [apply keeps_ret_any|..];
    (eapply keeps_bind; [apply keeps_EvalDataClass|]; intros r _;
     destruct (oo_type (o_op o)); try apply keeps_ret_any).
  all: try (eapply keeps_bind; [apply keeps_lift|]; intros; apply keeps_ret_any).
  all: eapply (keeps_bind D n trivial_post);
    [destruct (o_left o); [apply keeps_ret_any| |apply keeps_ret_any]; 
     eapply keeps_weaken; [apply keeps_lift|done]|intros].
  all: eapply keeps_bind; [apply keeps_lift|]; intros; apply keeps_ret_any.
Qed.

Lemma keeps_readV i k : keeps D n is_word (readV h i k).
Proof. eapply keeps_bind; [apply keeps_lift|]. intros. apply keeps_ReadScalar. Qed.
Lemma keeps_readO i k : ok (readO h i k).
Proof. eapply keeps_bind; [apply keeps_lift|]. intros. apply keeps_EvalOperand. Qed.
Lemma keeps_readI i k : keeps D n is_word (readI i k).
Proof. eapply keeps_bind; [apply keeps_lift|]. intros. apply keeps_ret, Imm_Get_range. Qed.
Lemma keeps_readVec i k : keeps D n is_vec (readVec h i k).
Proof. eapply keeps_bind; [apply keeps_lift|]. intros. apply keeps_ReadVec. Qed.
Lemma keeps_readU32 i k : ok (readU32 i k).
Proof. eapply keeps_bind; [apply keeps_readI|]. intros. apply keeps_ret_any. Qed.
Lemma keeps_readBool i k : ok (readBool i k).
Proof. eapply keeps_bind; [apply keeps_readI|]. intros. apply keeps_ret_any. Qed.

(** Forget what a step returned. *)
Lemma keeps_seq {A B} (Q : A -> Prop) (m : M A) (f : A -> M B) :
  keeps D n Q m -> (forall a, ok (f a)) -> ok (bind m f).
Proof. intros Hm Hf. eapply keeps_bind; eauto. Qed.

Lemma keeps_any {A} (Q : A -> Prop) (m : M A) : keeps D n Q m -> ok m.
Proof. intros. by eapply keeps_weaken. Qed.

Lemma keeps_flags_word f :
  (forall fl, is_word fl -> is_word (f fl)) ->
  ok (modify (fun s => set_flags (f (s_flags s)) s)).
Proof. apply keeps_set_flags. Qed.

#[local] Hint Resolve keeps_ret_any keeps_EvalOperand keeps_readV keeps_readO keeps_readI
  keeps_readVec keeps_readU32 keeps_readBool host_keeps host_pair_keeps : keeps.

(** Walk a computation whose result does not matter. *)
Ltac walk :=
  repeat first
    [ solve [eauto 2 with keeps nocore]
    | progress cbv beta zeta
    | lazymatch goal with
      | |- keeps _ _ _ (bind (if ?b then _ else _) _) =>
          eapply (keeps_seq trivial_post); [|intros ?]
      | |- keeps _ _ _ (bind (match ?b with _ => _ end) _) =>
          eapply (keeps_seq trivial_post); [|intros ?]
      | |- keeps _ _ _ (bind (bind _ _) _) => eapply (keeps_seq trivial_post); [|intros ?]
      | |- keeps _ _ _ (bind (gets _) _) => eapply keeps_seq; [apply keeps_gets|intros ?]
      | |- keeps _ _ _ (bind _ _) => eapply keeps_seq; [solve [eauto 2 with keeps nocore]|intros ?]
      | |- keeps _ _ _ (if ?b then _ else _) => destruct b
      | |- keeps _ _ _ (match ?x with _ => _ end) => destruct x
      | |- keeps _ _ trivial_post _ => eapply keeps_any; solve [eauto 2 with keeps nocore]
      end ].

Lemma keeps_alu_operands i : ok (alu_operands h i).
Proof. unfold alu_operands. walk. Qed.
#[local] Hint Resolve keeps_alu_operands : keeps.

Lemma keeps_carry_overflow i b r fl : ok (carry_overflow h i b r fl).
Proof. unfold carry_overflow. destruct (i_op i); walk. Qed.

Lemma keeps_auxiliary_carry i r : ok (auxiliary_carry h i r).
Proof. unfold auxiliary_carry. destruct (i_op i); walk. Qed.

(** The flag word saved is a word when the one read is. *)
Lemma keeps_SaveGuestFlags def f : ok (SaveGuestFlags h def f).
Proof.
  unfold SaveGuestFlags.
  eapply keeps_bind; [apply keeps_lift|]. intros i _.
  eapply keeps_bind; [apply keeps_lift|]. intros bits _.
  apply keeps_if; [apply keeps_ret_any|].
  eapply keeps_bind; [apply keeps_ReadScalar|]. intros result Hr.
  eapply keeps_bind; [apply keeps_flags|]. intros fl Hfl.
  eapply (keeps_bind D n is_word).
  { apply keeps_if; [|apply keeps_ret; auto 10 with word].
    eapply keeps_bind; [apply keeps_carry_overflow|]. intros [[c v]|] _;
      apply keeps_ret; auto 15 with word. }
  intros fl' Hfl'. eapply (keeps_bind D n is_word); [|intros; by apply keeps_set_flags_to].
  assert (is_word (Z.shiftl (Z.land result 0xFF) kHostParityByte)) as Hp.
  { unfold kHostParityByte. rewrite Z.shiftl_0_r. by apply word_land_l. }
  apply keeps_if; [|apply keeps_ret; auto 15 with word].
  eapply keeps_bind; [apply keeps_auxiliary_carry|]. intros [af|] _;
    apply keeps_ret; auto 20 with word.
Qed.

Lemma keeps_eval_args l : ok (eval_args h l).
Proof. induction l; simpl; walk. Qed.

Lemma keeps_CallHostFunc l args : ok (CallHostFunc h host_fn l args).
Proof.
  unfold CallHostFunc. eapply keeps_seq; [apply keeps_eval_args|]. intros.
  eapply keeps_seq; [apply keeps_EvalLambda|]. intros. apply host_keeps.
Qed.

Lemma keeps_copy_in cap k a : ok (copy_in cap k a).
Proof. unfold copy_in. walk. Qed.
Lemma keeps_copy_out cap k a v : ok (copy_out cap k a v).
Proof. unfold copy_out. walk. Qed.
#[local] Hint Resolve keeps_SaveGuestFlags keeps_CallHostFunc keeps_copy_in keeps_copy_out : keeps.

Lemma keeps_load_typed this t a : ok (load_typed h this t a).
Proof. unfold load_typed. walk. Qed.
Lemma keeps_store_typed v t a : ok (store_typed h v t a).
Proof. unfold store_typed. walk. Qed.
Lemma keeps_AtomicTransformValue b p f : ok (AtomicTransformValue b p f).
Proof. unfold AtomicTransformValue. walk. Qed.
Lemma keeps_AtomicCompareExchange b p e d : ok (AtomicCompareExchange b p e d).
Proof. unfold AtomicCompareExchange. walk. Qed.

Lemma keeps_RunMemoryCopy this : ok (RunMemoryCopy h cfg this).
Proof.
  unfold RunMemoryCopy. do 4 (eapply keeps_seq; [eauto 2 with keeps|]; intros ?).
  do 2 (eapply keeps_seq; [apply keeps_EvalLambda|]; intros ?).
  intros s x s' Hs Hm. minv Hm.
  destruct (mem_read_bytes _ _ _ _ ltac:(eassumption) (ok_mem _ _ _ Hs)) as [Hb _].
  eapply (keeps_mem_write D n _ _ Hb _ tt); [exact Hs|].
  erewrite bind_run by reflexivity. cbv beta. erewrite bind_run by (apply lift_run; eassumption).
  reflexivity.
Qed.
#[local] Hint Resolve keeps_load_typed keeps_store_typed keeps_AtomicTransformValue
  keeps_AtomicCompareExchange keeps_RunMemoryCopy : keeps.

Lemma keeps_flag_ops this :
  ok (RunClearFlags h this) /\ ok (RunSetCarry h this) /\ ok (RunSetOverflow h this)
  /\ ok RunInvertCarry /\ ok (RunPublishFCmpFlags h this)
  /\ ok (RunPublishSse42StrFlags h this).
Proof.
  split_and!; unfold RunClearFlags, RunSetCarry, RunSetOverflow, RunInvertCarry,
    RunPublishFCmpFlags, RunPublishSse42StrFlags;
    repeat (eapply keeps_seq; [solve [eauto 2 with keeps]|intros ?]);
    first
      [ apply (keeps_flags_word (ClearGuestFlags _)), ClearGuestFlags_word
      | apply (keeps_flags_word (fun fl => Z.lxor fl (bit64 kHostFlagC))), invert_carry_word
      | apply (keeps_flags_word (set_bit _ _)); intros; apply word_set_bit;
        [vm_compute; split; congruence|done]
      | apply (keeps_flags_word (publish_fcmp _ _)), publish_fcmp_word
      | apply (keeps_flags_word (publish_sse42 _ _)), publish_sse42_word ].
Qed.

Lemma keeps_memory_ops this :
  ok (RunLoadLocal h cfg this) /\ ok (RunStoreLocal h cfg this)
  /\ ok (RunLoadUniform h cfg this) /\ ok (RunStoreUniform h cfg this)
  /\ ok (RunGetUniformAddress h cfg this) /\ ok (RunLoadMemory h cfg this)
  /\ ok (RunStoreMemory h cfg this) /\ ok (RunCompareAndSwap h cfg this)
  /\ ok (RunCompareAndSwap128 h cfg this) /\ ok (RunCheckMemoryAlignment h this)
  /\ ok (RunAtomicExchange h cfg this) /\ ok (RunAtomicFetchAdd h cfg this)
  /\ ok (RunAtomicRMW h cfg this).
Proof.
  split_and!; unfold RunLoadLocal, RunStoreLocal, RunLoadUniform, RunStoreUniform,
    RunGetUniformAddress, RunLoadMemory, RunStoreMemory, RunCompareAndSwap, RunCompareAndSwap128,
    RunCheckMemoryAlignment, RunAtomicExchange, RunAtomicFetchAdd, RunAtomicRMW,
    AtomicExchangeValue, AtomicFetchAddValue; walk.
Qed.

Ltac unfold_op :=
  lazymatch goal with
  | |- keeps _ _ _ (?f _ _ _ _ _) => unfold f
  | |- keeps _ _ _ (?f _ _ _ _) => unfold f
  | |- keeps _ _ _ (?f _ _ _) => unfold f
  | |- keeps _ _ _ (?f _ _) => unfold f
  | |- keeps _ _ _ (?f _) => unfold f
  | |- keeps _ _ _ ?f => unfold f
  end.

(** Every instruction keeps the machine state well formed. *)
Lemma keeps_run_inst this : ok (run_inst h cfg host_fn host_pair_fn this).
Proof.
  destruct (keeps_flag_ops this) as (F1 & F2 & F3 & F4 & F5 & F6).
  destruct (keeps_memory_ops this) as
    (M1 & M2 & M3 & M4 & M5 & M6 & M7 & M8 & M9 & M10 & M11 & M12 & M13).
  unfold run_inst. eapply keeps_bind; [apply keeps_lift|]. intros i _.
  destruct (i_op i); first [assumption | solve [eauto 2 with keeps] | unfold_op; walk].
Qed.
End Ops.

(** ** Small heaps and states *)

Definition sample_imm (id : Z) (t : ValueType) (x : Z) : Inst :=
  mkInst OpCode_LoadImm [AImm (mkImm t x); AVoid; AVoid; AVoid; AVoid] 1 id 0 t None.

Definition sample_alu (op : OpCode) (t : ValueType) : Inst :=
  mkInst op [AValue (Value_of 1%positive); AOperand OperandPlus;
             AValue (Value_of 2%positive); AVoid; AVoid] 1 2 0 t (Some 4%positive).

Definition sample_save : Inst :=
  mkInst OpCode_SaveFlags [AValue (Value_of 3%positive); AFlags Flags_NZCV; AVoid; AVoid; AVoid]
    0 3 0 ValueType_VOID None.

Definition sample_heap (op : OpCode) (t : ValueType) (x y : Z) : Heap :=
  <[1%positive := sample_imm 0 t x]> (<[2%positive := sample_imm 1 t y]>
  (<[3%positive := sample_alu op t]> (<[4%positive := sample_save]> ∅))).

Definition sample_config : IConfig := mkIConfig 0x1000 0 0 0x10000 (2 ^ 64 - 1) None.

(** The state after the two immediates have been loaded. *)
Definition sample_state (x y fl : Z) : IState :=
  mkIState [x; 0; y; 0; 0; 0; 0; 0] fl 0 0 HaltReason_None
    (list_to_map (zip (seqZ 0x1000 64) (replicate 64 0))).

(** A block with a forward jump: the second immediate is skipped when the first
    one is zero. *)
Definition jump_heap (x : Z) : Heap :=
  <[1%positive := sample_imm 0 ValueType_U32 x]>
  (<[2%positive := mkInst OpCode_NotGoto [AValue (Value_of 1%positive); AVoid; AVoid; AVoid; AVoid]
                     1 1 0 ValueType_VOID None]>
  (<[3%positive := sample_imm 2 ValueType_U32 7]>
  (<[4%positive := mkInst OpCode_BindLabel [AValue (Value_of 2%positive); AVoid; AVoid; AVoid; AVoid]
                     0 3 0 ValueType_VOID None]> ∅))).

Definition jump_insts : list Ptr := [1; 2; 3; 4]%positive.

(** Host functions that are never reached. *)
Definition no_host_fn (_ : Z) (_ : list Z) : M Z := fail EUndefined.
Definition no_host_pair_fn (_ _ _ _ : Z) : M (Z * Z) := fail EUndefined.
