(* ===== verification/InterpRun.v ===== *)
(** * Running a block: termination and the state invariant

    The theorems about [run_block], the model of [Interpreter::Run()]. *)

From Stdlib Require Import ZArith Lia.
From stdpp Require Import numbers base gmap list.
From S2P Require Import Prelude MachineInt IRTypes Instr InterpCore InterpFlags InterpScalar.
From S2P Require Import InterpMemory InterpVector Interp InterpInvariant.

Local Open Scope Z_scope.
Local Open Scope svm_scope.

Section Run.
Context (h : Heap) (cfg : IConfig).
Context (host_fn : Z -> list Z -> M Z) (host_pair_fn : Z -> Z -> Z -> Z -> M (Z * Z)).

Abbreviation loop := (run_loop h cfg host_fn host_pair_fn).
Abbreviation step := (loop_step h cfg host_fn host_pair_fn).

(** ** Labels *)

(** A label of the table is a [BindLabel] of the block naming its key. *)
Definition label_of (insts : list Ptr) (e : option Ptr * nat) : Prop :=
  exists q i v, insts !! snd e = Some q /\ h !! q = Some i /\ i_op i = OpCode_BindLabel
    /\ GetArg_Value i 0 = Ok v /\ v_inst v = fst e.

Lemma labels_err e l : foldl (labels_step h) (Err e) l = Err e.
Proof. by induction l. Qed.

Lemma collect_labels_sound insts labels :
  collect_labels h insts = Ok labels -> Forall (label_of insts) labels.
Proof.
  unfold collect_labels.
  assert (Forall (fun e => insts !! fst e = Some (snd e)) (imap pair insts)) as Hix.
  { apply Forall_lookup_2. intros k e. rewrite list_lookup_imap.
    destruct (insts !! k) eqn:E; simpl; intros [= <-]. done. }
  revert Hix. generalize (imap pair insts). intros l. 
  assert (Forall (label_of insts) []) as H0 by constructor. revert H0.
  generalize (@nil (option Ptr * nat)) as acc.
  induction l as [|[k q] l IH]; intros acc Hacc Hix; [by intros [= <-]|].
  change (foldl (labels_step h) (labels_step h (Ok acc) (k, q)) l = Ok labels ->
          Forall (label_of insts) labels).
  apply Forall_cons in Hix as [Hkq Hix]. simpl in Hkq.
  destruct (labels_step h (Ok acc) (k, q)) as [acc'|e] eqn:E; [|by rewrite labels_err].
  apply IH; [|done]. unfold labels_step, deref in E. simpl in E.
  destruct (h !! q) as [i|] eqn:Hq; [|done]. simpl in E.
  destruct (op_eqb_spec (i_op i) OpCode_BindLabel) as [Hop|]; [|by injection E as <-].
  destruct (GetArg_Value i 0) as [v|] eqn:Hv; [|done]. injection E as <-.
  constructor; [|done]. exists q, i, v. done.
Qed.

Lemma find_label_in labels p pos : find_label labels p = Some pos -> (Some p, pos) ∈ labels.
Proof.
  induction labels as [|[k x] l IH]; simpl; [done|].
  destruct (decide _) as [-> | _]; [intros [= <-]; left|right; auto].
Qed.

(** Every [BindLabel] comes after the jump it names: in SSA order a value is
    defined before it is used. *)
Definition labels_forward (insts : list Ptr) : Prop :=
  forall j k p q i v,
    insts !! j = Some p -> insts !! k = Some q -> h !! q = Some i ->
    i_op i = OpCode_BindLabel -> GetArg_Value i 0 = Ok v -> v_inst v = Some p -> (j < k)%nat.

(** ** Termination *)

Lemma step_advances labels insts pc p s pc' s' :
  Forall (label_of insts) labels -> labels_forward insts -> insts !! pc = Some p ->
  step labels pc p s = Ok (inl pc', s') -> (pc < pc')%nat.
Proof.
  intros Hl Hf Hp Hs. unfold loop_step in Hs. minv Hs.
  destruct (_ || _) eqn:Hop.
  - minv Hs. destruct (Bool.eqb _ _); [|lia].
    destruct (find_label labels p) as [pos|] eqn:E; [|lia].
    apply find_label_in in E. rewrite Forall_forall in Hl.
    destruct (Hl _ E) as (q & j & v & H1' & H2' & H3' & H4' & H5'). simpl in *.
    specialize (Hf pc pos p q j v Hp H1' H2' H3' H4' H5'). lia.
  - minv Hs. destruct (decide _); [|by unfold ret in Hs]. minv Hs. lia.
Qed.

Lemma loop_total labels b : 
  Forall (label_of (b_insts b)) labels -> labels_forward (b_insts b) ->
  forall fuel pc s, (length (b_insts b) - pc <= fuel)%nat ->
  exists r, loop fuel labels b pc s = Some r.
Proof.
  intros Hl Hf fuel. induction fuel as [|f IH]; intros pc s Hm; simpl.
  - destruct (b_insts b !! pc) eqn:E; [|eauto]. apply lookup_lt_Some in E. lia.
  - destruct (b_insts b !! pc) as [p|] eqn:E; [|eauto].
    destruct (step labels pc p s) as [[[pc'|r] s']|e] eqn:Es; eauto.
    pose proof (step_advances _ _ _ _ _ _ _ Hl Hf E Es). apply IH.
    apply lookup_lt_Some in E. lia.
Qed.

Lemma loop_mono labels b fuel fuel' pc s r :
  (fuel <= fuel')%nat -> loop fuel labels b pc s = Some r -> loop fuel' labels b pc s = Some r.
Proof.
  revert fuel' pc s. induction fuel as [|f IH]; intros fuel' pc s Hle.
  - destruct fuel'; simpl; destruct (b_insts b !! pc); done.
  - destruct fuel' as [|f']; [lia|]. simpl. destruct (b_insts b !! pc); [|done].
    destruct (step _ _ _ _) as [[[pc'|] s']|]; try done. apply IH. lia.
Qed.

(** (C40) [Interpreter::Run()] terminates on every block whose labels are bound
    after the jumps they serve: as many loop iterations as the block has
    instructions always reach a result (a halt reason or an error), and a larger
    bound gives the same result. *)
Theorem run_block_total (b : Block) (s : IState) :
  labels_forward (b_insts b) ->
  exists r, forall fuel, (length (b_insts b) <= fuel)%nat ->
    run_block h cfg host_fn host_pair_fn fuel b s = Some r.
Proof.
  intros Hf. unfold run_block. destruct (collect_labels h (b_insts b)) as [labels|e] eqn:E; [|eauto].
  apply collect_labels_sound in E.
  match goal with |- context [loop _ _ _ 0 ?s0] =>
    destruct (loop_total labels b E Hf (length (b_insts b)) 0 s0 ltac:(lia)) as [r Hr] end.
  exists r. intros. by eapply loop_mono.
Qed.

(** ** The state invariant *)

Context (D : gset Z) (n : nat).
Hypothesis host_keeps : forall a l, keeps D n trivial_post (host_fn a l).
Hypothesis host_pair_keeps : forall a x y z, keeps D n trivial_post (host_pair_fn a x y z).

Lemma keeps_RunTerminal t : keeps D n trivial_post (RunTerminal h t).
Proof.
  revert t. fix IH 1. intros t.
  destruct t as [| | |x|x|x| |c t1 t2|c t1 t2|v cases|t1]; simpl;
    try apply keeps_ret_any.
  - eapply keeps_bind; [apply keeps_set_halt|]. intros. apply keeps_ret_any.
  - eapply keeps_bind; [by apply (keeps_gets D n (fun s => s))|]. intros.
    eapply keeps_bind; [apply keeps_set_prev_loc|]. intros.
    eapply keeps_bind; [apply keeps_set_current_loc|]. intros. apply keeps_ret_any.
  - eapply keeps_bind; [by apply (keeps_gets D n (fun s => s))|]. intros.
    eapply keeps_bind; [apply keeps_set_prev_loc|]. intros.
    eapply keeps_bind; [apply keeps_set_current_loc|]. intros. apply keeps_ret_any.
  - eapply keeps_bind; [by apply (keeps_gets D n (fun s => s))|]. intros.
    eapply keeps_bind; [apply keeps_set_prev_loc|]. intros.
    eapply keeps_bind; [apply keeps_set_current_loc|]. intros. apply keeps_ret_any.
  - eapply keeps_bind; [apply keeps_ReadScalar|]. intros. destruct (negb _); apply IH.
  - eapply keeps_bind; [apply keeps_gets|]. intros. destruct (EvalCondition _ _); apply IH.
  - eapply keeps_bind; [apply keeps_ReadScalar|]. intros x _.
    induction cases as [|[m t'] cases IHc]; [apply keeps_ret_any|].
    destruct (x =? Imm_Get m); [apply IH|apply IHc].
  - eapply keeps_bind; [apply keeps_gets|]. intros r _. destruct (decide _); [apply IH|].
    apply keeps_ret_any.
Qed.

Lemma keeps_loop_step labels pc p : keeps D n trivial_post (step labels pc p).
Proof.
  unfold loop_step. eapply keeps_bind; [apply keeps_lift|]. intros i _.
  apply keeps_if.
  - eapply keeps_bind; [apply keeps_lift|]. intros.
    eapply keeps_bind; [apply keeps_ReadScalar|]. intros. apply keeps_ret_any.
  - eapply keeps_bind; [by apply keeps_run_inst|]. intros.
    eapply keeps_bind; [apply keeps_gets|]. intros. destruct (decide _); apply keeps_ret_any.
Qed.

Lemma loop_keeps labels b fuel pc s r s' :
  state_ok D n s -> loop fuel labels b pc s = Some (Ok (r, s')) -> state_ok D n s'.
Proof.
  revert pc s. induction fuel as [|f IH]; intros pc s Hs; simpl;
    (destruct (b_insts b !! pc) as [p|]; [|intros [= E]; by eapply keeps_RunTerminal]); [done|].
  destruct (step labels pc p s) as [[[pc'|x] s1]|] eqn:E; [| |done].
  - apply IH. by eapply keeps_loop_step.
  - intros [= <- <-]. by eapply keeps_loop_step.
Qed.
End Run.

(** The state a block starts from: the guest flags and memory hold values of
    their types. *)
Record entry_ok (s : IState) : Prop := mk_entry_ok {
  entry_flags : is_word (s_flags s);
  entry_mem : map_Forall (fun _ b => is_byte b) (s_mem s)
}.

Definition slot_count (h : Heap) (b : Block) : nat :=
  Z.to_nat ((max_inst_id h (b_insts b) + 1) * Z.of_nat kSlotStride).


(** ** Examples: a block with a forward jump *)

Definition jump_block : Block := mkBlock jump_insts ReturnToHost.

Lemma jump_labels_forward x : labels_forward (jump_heap x) jump_insts.
Proof.
  intros j k p q i v Hj Hk Hq Hop Hv Hp.
  destruct k as [|[|[|[|k]]]]; simpl in Hk; try done; injection Hk as <-;
    vm_compute in Hq; injection Hq as <-; try done.
  vm_compute in Hv. injection Hv as <-. vm_compute in Hp. injection Hp as <-.
  destruct j as [|[|[|[|j]]]]; simpl in Hj; try done. lia.
Qed.

Lemma sample_entry_ok x y : entry_ok (sample_state x y 0).
Proof.
  split; [by vm_compute|]. intros a b Hab. apply elem_of_list_to_map_2, elem_of_zip_r in Hab.
  apply elem_of_replicate in Hab as [-> _]. by vm_compute.
Qed.

Lemma run_block_total_witness :
  exists r, forall fuel, (4 <= fuel)%nat ->
    run_block (jump_heap 0) sample_config no_host_fn no_host_pair_fn fuel jump_block
      (sample_state 0 0 0) = Some r.
Proof.
  apply (run_block_total (jump_heap 0) sample_config no_host_fn no_host_pair_fn jump_block).
  apply jump_labels_forward.
Defined.

