(* ===== verification/FlagProps.v ===== *)
(** * Correctness of the guest flags

    What the saved flags mean: after an addition or subtraction of any width,
    with or without carry, N, Z, C and V are the arithmetic sign, zero test,
    carry and signed overflow; the condition codes evaluated on the flags of a
    subtraction are the sixteen comparisons of its operands; the parity byte
    gives the parity of the result. *)

From Stdlib Require Import ZArith Lia.
From stdpp Require Import numbers base gmap list.
From S2P Require Import Prelude MachineInt IRTypes Instr InterpCore InterpFlags InterpScalar.
From S2P Require Import InterpMemory InterpVector Interp InterpInvariant.

Local Open Scope Z_scope.
Local Open Scope svm_scope.

(** ** Operands survive the write of the result

    In SSA form an instruction's operands are other instructions, with other
    ids, so that writing its slot leaves theirs alone. *)
Definition operands_elsewhere (h : Heap) (i : Inst) : Prop :=
  forall v q j, v ∈ GetValues i -> v_inst v = Some q -> h !! q = Some j ->
    Z.to_nat (i_id j) <> Z.to_nat (i_id i).

Lemma arg_in_GetValues i k a v :
  i_args i !! k = Some a -> v ∈ arg_values a -> v ∈ GetValues i.
Proof.
  intros Ha Hv. unfold GetValues. apply list_elem_of_join. exists (arg_values a).
  split; [done|]. apply list_elem_of_fmap. exists a. split; [done|]. by eapply list_elem_of_lookup_2.
Qed.

Lemma get_slot_in i n a : get_slot i n = Ok a -> exists k, i_args i !! k = Some a.
Proof.
  unfold get_slot. intros H. minv H. unfold ArgAt in H.
  destruct (i_args i !! x) eqn:E; [|done]. injection H as <-. eauto.
Qed.

Lemma GetArg_Value_in i n v : GetArg_Value i n = Ok v -> v ∈ GetValues i.
Proof.
  unfold GetArg_Value. intros H. minv H. destruct x; try done. injection H as ->.
  apply get_slot_in in H0 as [k Hk]. eapply arg_in_GetValues; [done|]. simpl. left.
Qed.

Lemma ArgAt_data_in i k a d v :
  ArgAt i k = Ok a -> ToDataClass a = Ok d -> d = DValue v -> v ∈ GetValues i.
Proof.
  unfold ArgAt. destruct (i_args i !! k) eqn:E; [|done]. intros [= ->] Hd ->.
  eapply arg_in_GetValues; [done|]. destruct a; simpl in Hd; try done. injection Hd as ->. left.
Qed.

Lemma GetArg_Operand_in i n o v :
  GetArg_Operand i n = Ok o -> o_left o = DValue v \/ o_right o = DValue v -> v ∈ GetValues i.
Proof.
  unfold GetArg_Operand. intros H Hv. minv H. destruct x0; try done. minv H.
  simpl in Hv. destruct Hv as [Hv|Hv].
  - by apply (ArgAt_data_in i (x + 1) x1 x0).
  - by apply (ArgAt_data_in i (x + 2) x3 x2).
Qed.

Section Frame.
Context (h : Heap) (def : Ptr) (i : Inst).
Hypothesis Hdef : h !! def = Some i.
Hypothesis Helse : operands_elsewhere h i.

(** The state after the write of [x] in the slot of [def]. *)
Definition wrote (x : Z) (s : IState) : IState :=
  set_stack (<[(Z.to_nat (i_id i) * kSlotStride)%nat := x]> (s_stack s)) s.

Lemma ReadScalar_frame v x s a s1 :
  v ∈ GetValues i -> ReadScalar h v s = Ok (a, s1) ->
  s1 = s /\ ReadScalar h v (wrote x s) = Ok (a, wrote x s).
Proof.
  intros Hv H. unfold ReadScalar, slot_of in *. minv H.
  destruct (v_inst v) as [q|] eqn:Hq; [|done].
  destruct (deref h q) as [j|] eqn:Hj; [|done]. injection H0 as <-.
  unfold word_at in *. minv H. destruct (s_stack _ !! _) eqn:E; [|done]. minv H.
  split; [done|]. simpl. unfold bind, lift, get. simpl.
  rewrite list_lookup_insert_ne.
  - by rewrite E.
  - unfold deref in Hj. destruct (h !! q) eqn:Hh; [|done]. injection Hj as ->.
    specialize (Helse v q j Hv Hq Hh). unfold kSlotStride. lia.
Qed.

Lemma EvalDataClass_frame d x s a s1 :
  (forall v, d = DValue v -> v ∈ GetValues i) -> EvalDataClass h d s = Ok (a, s1) ->
  s1 = s /\ EvalDataClass h d (wrote x s) = Ok (a, wrote x s).
Proof.
  intros Hd H. destruct d; simpl in *; [by minv H| |by minv H].
  apply ReadScalar_frame; [by apply Hd|done].
Qed.

Lemma EvalOperand_frame o x s a s1 :
  (forall v, o_left o = DValue v \/ o_right o = DValue v -> v ∈ GetValues i) ->
  EvalOperand h o s = Ok (a, s1) ->
  s1 = s /\ EvalOperand h o (wrote x s) = Ok (a, wrote x s).
Proof.
  intros Hv H. unfold EvalOperand in *. apply bind_ok in H as (l & s2 & Hl & H).
  apply (EvalDataClass_frame _ x) in Hl as [-> Hl]; [|auto].
  rewrite (bind_run _ _ _ _ _ Hl).
  destruct (o_right o) as [|v|m] eqn:Er; [by minv H|..];
    apply bind_ok in H as (r & s3 & Hr & H);
    apply (EvalDataClass_frame _ x) in Hr as [-> Hr]; try (intros; apply Hv; by right);
    rewrite (bind_run _ _ _ _ _ Hr); destruct (oo_type (o_op o)); try (by minv H);
    try (destruct (o_left o)); minv H; split; try done;
    repeat (erewrite bind_run by first [apply lift_run; eassumption | reflexivity]);
    reflexivity.
Qed.

Lemma alu_operands_frame x s lr s1 :
  alu_operands h i s = Ok (lr, s1) ->
  s1 = s /\ alu_operands h i (wrote x s) = Ok (lr, wrote x s).
Proof.
  intros H. unfold alu_operands in *. minv H.
  apply (ReadScalar_frame _ x) in H2 as [-> H2]; [|by eapply GetArg_Value_in].
  apply (EvalOperand_frame _ x) in H3 as [-> H3]; [|intros v Hv; by eapply GetArg_Operand_in].
  split; [done|]. do 4 mstep. done.
Qed.
End Frame.

(** ** Scalar results *)

(** [t] is a scalar value type of [w] bits. *)
Definition scalar_type (t : ValueType) (w : Z) : Prop :=
  t <> ValueType_VOID /\ IsVector t = false /\ TypeBits t = Ok w.

Lemma scalar_type_width t w : scalar_type t w -> w = 8 \/ w = 16 \/ w = 32 \/ w = 64.
Proof. intros (H1 & H2 & H3). destruct t; try done; injection H3 as <-; vm_compute; auto. Qed.

Lemma land_MaskBits x w : 0 <= w <= 64 -> Z.land x (MaskBits w) = wrap w x.
Proof.
  intros Hw. rewrite <- wrap_land_ones by lia. f_equal. unfold MaskBits.
  destruct (Z.leb_spec 64 w); [by assert (w = 64) as -> by lia|].
  rewrite Z.ones_equiv. unfold bit64. lia.
Qed.

Section Scalar.
Context (h : Heap) (def : Ptr) (i : Inst) (w : Z) (s : IState).
Hypothesis Hdef : h !! def = Some i.
Hypothesis Htype : scalar_type (i_ret i) w.
Hypothesis Hslot : (Z.to_nat (i_id i) * kSlotStride < length (s_stack s))%nat.

Lemma slot_of_def : slot_of h (Value_of def) = Ok (Z.to_nat (i_id i) * kSlotStride)%nat.
Proof. unfold slot_of, Value_of, deref. simpl. by rewrite Hdef. Qed.

Lemma WriteScalar_run x : WriteScalar h def x s = Ok (tt, wrote i (wrap w x) s).
Proof.
  destruct Htype as (H1 & H2 & H3). unfold WriteScalar.
  assert (deref h def = Ok i) by (unfold deref; by rewrite Hdef). mstep.
  rewrite decide_False by done. rewrite H2. unfold MaskFor. rewrite H3. mstep.
  unfold SetReg64. erewrite bind_run by (apply lift_run, slot_of_def).
  unfold set_word. mstep. rewrite bool_decide_true by done.
  rewrite land_MaskBits; [done|]. pose proof (scalar_type_width _ _ Htype). lia.
Qed.

Lemma ReadScalar_wrote x : ReadScalar h (Value_of def) (wrote i x s) = Ok (x, wrote i x s).
Proof.
  unfold ReadScalar. erewrite bind_run by (apply lift_run, slot_of_def).
  unfold word_at. mstep. simpl. by rewrite list_lookup_insert_eq.
Qed.
End Scalar.

(** ** Additions and subtractions *)

(** The exact result of the four operations on integers; [cin] is the carry
    flag, and a subtraction with borrow subtracts its complement. *)
Definition arith_exact (op : OpCode) (cin l r : Z) : Z :=
  match op with
  | OpCode_Add => l + r
  | OpCode_Adc => l + r + cin
  | OpCode_Sub => l - r
  | OpCode_Sbb => l - r - (1 - cin)
  | _ => 0
  end.

Definition is_arith (op : OpCode) : Prop :=
  op = OpCode_Add \/ op = OpCode_Adc \/ op = OpCode_Sub \/ op = OpCode_Sbb.

(** Carry out of an addition, no-borrow of a subtraction. *)
Definition arith_carry (op : OpCode) (w exact : Z) : bool :=
  match op with
  | OpCode_Add | OpCode_Adc => 2 ^ w <=? exact
  | _ => 0 <=? exact
  end.

(** The flag word after the operation, from the operands at width [w]. *)
Definition arith_flags (op : OpCode) (w l r fl : Z) : Z :=
  let cin := bool_z (Z.testbit fl kHostFlagC) in
  let exact := arith_exact op cin l r in
  let x := wrap w exact in
  put_nzcv (to_signed w x <? 0) (x =? 0) (arith_carry op w exact)
    (negb (signed_fits w (arith_exact op cin (to_signed w l) (to_signed w r)))) fl.

Lemma wrap_arith_exact op w cin l r :
  is_arith op -> 0 <= w <= 64 ->
  wrap w (arith_exact op cin (wrap w l) (wrap w r)) = wrap w (arith_exact op cin l r).
Proof.
  intros Hop Hw. destruct Hop as [-> | [-> | [-> | ->]]]; simpl;
    rewrite ?wrap_add_l, ?wrap_add_r, ?wrap_sub_l, ?wrap_sub_r by lia; try done.
  - rewrite <- Z.add_assoc, wrap_add_l by lia.
    replace (l + (wrap w r + cin)) with (wrap w r + (l + cin)) by lia.
    rewrite wrap_add_l by lia. f_equal. lia.
  - replace (wrap w l - wrap w r - (1 - cin)) with (wrap w l - (wrap w r + (1 - cin))) by lia.
    rewrite wrap_sub_l by lia.
    replace (l - (wrap w r + (1 - cin))) with (l - (1 - cin) - wrap w r) by lia.
    rewrite wrap_sub_r by lia. f_equal. lia.
Qed.

Section Arith.
Context (h : Heap) (cfg : IConfig).
Context (host_fn : Z -> list Z -> M Z) (host_pair_fn : Z -> Z -> Z -> Z -> M (Z * Z)).
Context (def : Ptr) (i : Inst) (w : Z) (s : IState) (l r : Z).
Hypothesis Hdef : h !! def = Some i.
Hypothesis Htype : scalar_type (i_ret i) w.
Hypothesis Hslot : (Z.to_nat (i_id i) * kSlotStride < length (s_stack s))%nat.
Hypothesis Helse : operands_elsewhere h i.
Hypothesis Hfl : is_word (s_flags s).
Hypothesis Hops : alu_operands h i s = Ok ((l, r), s).
Hypothesis Harith : is_arith (i_op i).

Abbreviation run := (run_inst h cfg host_fn host_pair_fn).
Abbreviation cin := (bool_z (Z.testbit (s_flags s) kHostFlagC)).

Lemma width_ok : 0 < w <= 64.
Proof. pose proof (scalar_type_width _ _ Htype). lia. Qed.

Lemma alu_operands_inv : readV h i 0 s = Ok (l, s) /\ readO h i 1 s = Ok (r, s).
Proof.
  pose proof Hops as H. unfold alu_operands in H. minv H.
  destruct (ReadScalar_frame h i Helse _ 0 _ _ _ (GetArg_Value_in _ _ _ H0) H2) as [-> _].
  split; unfold readV, readO; by mstep.
Qed.

Lemma carry_in fl :
  is_word fl -> Z.land (Z.shiftr fl kHostFlagC) 1 = bool_z (Z.testbit fl kHostFlagC).
Proof.
  intros. rewrite (land_pow2 _ 0), Z.shiftr_spec by lia. change (0 + kHostFlagC) with kHostFlagC.
  by destruct (Z.testbit fl kHostFlagC).
Qed.

Lemma run_arith_value :
  run def s = Ok (tt, wrote i (wrap w (arith_exact (i_op i) cin l r)) s).
Proof.
  destruct alu_operands_inv as [Hl Hr]. pose proof width_ok as Hw.
  assert (deref h def = Ok i) as Hd by (unfold deref; by rewrite Hdef).
  unfold run_inst. mstep.
  destruct Harith as [E | [E | [E | E]]]; rewrite E;
    unfold RunAdd, RunAdc, RunSub, RunSbb; do 3 mstep;
    try (mstep; cbv zeta; rewrite carry_in by done);
    rewrite (WriteScalar_run h def i w s Hdef Htype Hslot); do 3 f_equal; simpl; wrap_simpl; done.
Qed.

Lemma arith_carry_overflow n z :
  let x := wrap w (arith_exact (i_op i) cin l r) in
  carry_overflow h i w x (set_bit kHostFlagZ z (set_bit kHostFlagN n (s_flags s))) (wrote i x s) =
  Ok (Some (arith_carry (i_op i) w (arith_exact (i_op i) cin (wrap w l) (wrap w r)),
            negb (signed_fits w (arith_exact (i_op i) cin (to_signed w (wrap w l))
                                   (to_signed w (wrap w r))))), wrote i x s).
Proof.
  intros x. subst x. pose proof width_ok as Hw.
  destruct (alu_operands_frame h i Helse
              (wrap w (arith_exact (i_op i) cin l r)) _ _ _ Hops) as [_ Hops'].
  rewrite <- (wrap_arith_exact _ w cin l r Harith ltac:(lia)) in *.
  pose proof (wrap_range w l ltac:(lia)). pose proof (wrap_range w r ltac:(lia)).
  assert (0 <= cin <= 1) by (destruct (Z.testbit _ _); simpl; lia).
  unfold carry_overflow. rewrite (flags_C_after_nz n z (s_flags s) Hfl).
  destruct Harith as [E | [E | [E | E]]]; rewrite E in *; mstep;
    cbn [fst snd op_eqb op_index Z.eqb Pos.eqb arith_exact arith_carry] in *;
    unfold ret; do 4 f_equal; rewrite !land_MaskBits by lia;
    rewrite ?add_carry_spec by lia; unfold sub_carry; try (f_equal; lia).
  all: try (apply eq_true_iff_eq; rewrite !Z.leb_le; lia).
  - pose proof (add_overflow_spec w (wrap w l) (wrap w r) 0) as Hv.
    rewrite !Z.add_0_r in Hv. apply Hv; lia.
  - apply add_overflow_spec; lia.
  - pose proof (sub_overflow_spec w (wrap w l) (wrap w r) 0) as Hv.
    rewrite !Z.sub_0_r in Hv. apply Hv; lia.
  - apply sub_overflow_spec; lia.
Qed.

Lemma save_arith_flags :
  let x := wrap w (arith_exact (i_op i) cin l r) in
  SaveGuestFlags h def Flags_NZCV (wrote i x s) =
  Ok (tt, set_flags (arith_flags (i_op i) w (wrap w l) (wrap w r) (s_flags s)) (wrote i x s)).
Proof.
  intros x. pose proof width_ok as Hw. destruct Htype as (_ & _ & Hbits).
  pose proof (ReadScalar_wrote h def i s Hdef Hslot x) as Hres.
  rewrite (save_nzcv h def i (wrote i x s) w x Hdef Hbits Hw Hres _ _
             (arith_carry_overflow _ _)).
  unfold arith_flags. rewrite wrap_arith_exact by (done || lia).
  rewrite to_signed_sign by (lia || (apply wrap_range; lia)).
  by rewrite flag_bit_testbit by lia.
Qed.
End Arith.

(** A [SaveFlags] of the flags [f] of [def]. *)
Definition saves_flags (h : Heap) (sv def : Ptr) (f : Z) : Prop :=
  exists j v, h !! sv = Some j /\ i_op j = OpCode_SaveFlags /\ GetArg_Value j 0 = Ok v
    /\ v_inst v = Some def /\ GetArg_Flags j 1 = Ok f.

Lemma run_SaveFlags h cfg host_fn host_pair_fn sv def f s :
  saves_flags h sv def f ->
  run_inst h cfg host_fn host_pair_fn sv s = SaveGuestFlags h def f s.
Proof.
  intros (j & v & H1 & H2 & H3 & H4 & H5).
  assert (deref h sv = Ok j) by (unfold deref; by rewrite H1).
  unfold run_inst. mstep. rewrite H2. unfold RunSaveFlags. mstep. mstep. rewrite H4.
  mstep. by mstep.
Qed.

(** (C3) Executing [Add], [Adc], [Sub] or [Sbb] at any scalar width and then
    the [SaveFlags] of its NZCV stores the result modulo 2^w in the slot of the
    instruction and leaves in the flag word exactly: N the sign of the result, Z
    whether it is zero, C the carry out of the addition (for a subtraction, that
    no borrow occurs), V whether the signed result does not fit; every other
    flag bit, the memory and the other slots are unchanged. *)
Theorem arith_saves_flags (h : Heap) (cfg : IConfig) host_fn host_pair_fn
  (def sv : Ptr) (i : Inst) (w : Z) (s : IState) (l r : Z) :
  h !! def = Some i -> is_arith (i_op i) -> scalar_type (i_ret i) w ->
  (Z.to_nat (i_id i) * kSlotStride < length (s_stack s))%nat ->
  operands_elsewhere h i -> is_word (s_flags s) ->
  alu_operands h i s = Ok ((l, r), s) -> saves_flags h sv def Flags_NZCV ->
  let cin := bool_z (Z.testbit (s_flags s) kHostFlagC) in
  (run_inst h cfg host_fn host_pair_fn def;;; run_inst h cfg host_fn host_pair_fn sv) s =
  Ok (tt, set_flags (arith_flags (i_op i) w (wrap w l) (wrap w r) (s_flags s))
            (wrote i (wrap w (arith_exact (i_op i) cin l r)) s)).
Proof.
  intros Hdef Harith Htype Hslot Helse Hfl Hops Hsv cin.
  erewrite bind_run by (by apply (run_arith_value h cfg host_fn host_pair_fn def i w s l r)).
  rewrite (run_SaveFlags _ _ _ _ _ _ _ _ Hsv).
  by apply (save_arith_flags h def i w s l r).
Qed.

(** (C2) The condition codes after a compare are the comparisons of its
    operands: once [Sub] and the [SaveFlags] of its NZCV have run, each of the
    sixteen conditions the interpreter evaluates on the flag word decides the
    (in)equality, unsigned order, signed order, sign or overflow of the two
    operands at the width of the instruction. *)
Theorem compare_decides_conditions (h : Heap) (cfg : IConfig) host_fn host_pair_fn
  (def sv : Ptr) (i : Inst) (w : Z) (s : IState) (l r : Z) (c : Cond) :
  h !! def = Some i -> i_op i = OpCode_Sub -> scalar_type (i_ret i) w ->
  (Z.to_nat (i_id i) * kSlotStride < length (s_stack s))%nat ->
  operands_elsewhere h i -> is_word (s_flags s) ->
  alu_operands h i s = Ok ((l, r), s) -> saves_flags h sv def Flags_NZCV ->
  exists s', (run_inst h cfg host_fn host_pair_fn def;;;
              run_inst h cfg host_fn host_pair_fn sv) s = Ok (tt, s')
    /\ EvalCondition c (s_flags s') = compare_spec c w (wrap w l) (wrap w r).
Proof.
  intros Hdef Hop Htype Hslot Helse Hfl Hops Hsv.
  assert (is_arith (i_op i)) as Harith by (rewrite Hop; unfold is_arith; auto).
  eexists. split.
  { erewrite bind_run by (by apply (run_arith_value h cfg host_fn host_pair_fn def i w s l r)).
    rewrite (run_SaveFlags _ _ _ _ _ _ _ _ Hsv). by apply (save_arith_flags h def i w s l r). }
  pose proof (scalar_type_width _ _ Htype) as Hw. rewrite Hop. simpl. unfold arith_flags.
  rewrite EvalCondition_put_nzcv by apply Hfl. simpl.
  rewrite <- sub_nzcv_conditions by (try lia; apply wrap_range; lia).
  rewrite to_signed_sign by (try lia; apply wrap_range; lia).
  rewrite flag_bit_testbit by lia. unfold sub_carry. rewrite Z.add_0_r.
  f_equal. apply eq_true_iff_eq. rewrite !Z.leb_le. lia.
Qed.

(** The hypotheses hold of the sample block. *)
Lemma sample_operands_elsewhere op t x y : operands_elsewhere (sample_heap op t x y) (sample_alu op t).
Proof.
  intros v q j Hv Hq Hj. apply list_elem_of_In in Hv. simpl in Hv.
  destruct Hv as [<- | [<- | []]]; injection Hq as <-; vm_compute in Hj; injection Hj as <-;
    vm_compute; lia.
Qed.

Lemma sample_saves_flags op t x y : saves_flags (sample_heap op t x y) 4%positive 3%positive Flags_NZCV.
Proof. eexists sample_save, (Value_of 3%positive). repeat split. Qed.

Lemma arith_saves_flags_witness :
  (run_inst (sample_heap OpCode_Adc ValueType_U8 200 100) sample_config
     (fun _ _ => ret 0) (fun _ _ _ _ => ret (0, 0)) 3%positive;;;
   run_inst (sample_heap OpCode_Adc ValueType_U8 200 100) sample_config
     (fun _ _ => ret 0) (fun _ _ _ _ => ret (0, 0)) 4%positive) (sample_state 200 100 (2 ^ 29)) =
  Ok (tt, set_flags (2 ^ 29) (wrote (sample_alu OpCode_Adc ValueType_U8) 45
                                (sample_state 200 100 (2 ^ 29)))).
Proof.
  apply (arith_saves_flags (sample_heap OpCode_Adc ValueType_U8 200 100) sample_config
    (fun _ _ => ret 0) (fun _ _ _ _ => ret (0, 0)) 3%positive 4%positive
    (sample_alu OpCode_Adc ValueType_U8) 8
    (sample_state 200 100 (2 ^ 29)) 200 100).
  - reflexivity.
  - right. left. reflexivity.
  - repeat split; discriminate.
  - vm_compute. lia.
  - apply sample_operands_elsewhere.
  - vm_compute. split; congruence.
  - reflexivity.
  - apply sample_saves_flags.
Defined.

Lemma compare_decides_conditions_witness :
  exists s', (run_inst (sample_heap OpCode_Sub ValueType_S32 5 4294967295) sample_config
                (fun _ _ => ret 0) (fun _ _ _ _ => ret (0, 0)) 3%positive;;;
              run_inst (sample_heap OpCode_Sub ValueType_S32 5 4294967295) sample_config
                (fun _ _ => ret 0) (fun _ _ _ _ => ret (0, 0)) 4%positive)
               (sample_state 5 4294967295 0) = Ok (tt, s')
    /\ EvalCondition Cond_GT (s_flags s') = true.
Proof.
  apply (compare_decides_conditions (sample_heap OpCode_Sub ValueType_S32 5 4294967295)
    sample_config (fun _ _ => ret 0) (fun _ _ _ _ => ret (0, 0)) 3%positive 4%positive
    (sample_alu OpCode_Sub ValueType_S32) 32
    (sample_state 5 4294967295 0) 5 4294967295 Cond_GT).
  - reflexivity.
  - reflexivity.
  - repeat split; discriminate.
  - vm_compute. lia.
  - apply sample_operands_elsewhere.
  - vm_compute. split; congruence.
  - reflexivity.
  - apply sample_saves_flags.
Defined.

(** ** Parity *)

(** The fold of [TestParityFlag] is the parity of the saved byte. *)
Lemma parity_of_byte_spec fl :
  0 <= fl -> parity_of_byte fl = (Z.land (popcount (wrap 8 fl)) 1 =? 0).
Proof.
  intros Hfl. unfold parity_of_byte, kHostParityByte. rewrite Z.shiftr_0_r.
  change 255 with (Z.ones 8). rewrite wrap_land_ones by lia.
  assert (forallb (fun b =>
    Bool.eqb (let b0 := b in
              let b1 := Z.lxor b0 (Z.shiftr b0 4) in
              let b2 := Z.lxor b1 (Z.shiftr b1 2) in
              let b3 := Z.lxor b2 (Z.shiftr b2 1) in
              negb (Z.lxor (Z.land b3 1) 1 =? 0))
             (Z.land (popcount b) 1 =? 0)) (seqZ 0 256) = true) as Hall by (vm_compute; done).
  rewrite forallb_forall in Hall. apply eqb_prop, Hall, list_elem_of_In, elem_of_seqZ.
  pose proof (wrap_range 8 fl). lia.
Qed.

(** The parity flag is the parity of the result: after the [SaveFlags] of
    Parity of any scalar instruction, [TestGuestFlags(Parity)] holds exactly
    when the low byte of the result has an even number of ones, which is the
    value [LocalParitySet] computes directly from the result. *)
Theorem parity_flag_spec (h : Heap) (def : Ptr) (i : Inst) (w x : Z) (s : IState) :
  h !! def = Some i -> scalar_type (i_ret i) w -> is_word (s_flags s) ->
  ReadScalar h (Value_of def) s = Ok (x, s) ->
  exists s', SaveGuestFlags h def Flags_Parity s = Ok (tt, s')
    /\ TestGuestFlags Flags_Parity (s_flags s') = (Z.land (popcount (wrap 8 x)) 1 =? 0)
    /\ (forall k, 8 <= k -> Z.testbit (s_flags s') k = Z.testbit (s_flags s) k).
Proof.
  intros Hdef Htype Hfl Hx. pose proof (scalar_type_width _ _ Htype) as Hw.
  destruct Htype as (_ & _ & Hbits).
  assert (deref h def = Ok i) by (unfold deref; by rewrite Hdef).
  set (fl := Z.lor (Z.land (s_flags s) (not64 255)) (Z.land x 255)).
  assert (forall k, 0 <= k -> Z.testbit fl k =
            if k <? 8 then Z.testbit x k else Z.testbit (s_flags s) k) as Hbit.
  { intros k Hk. unfold fl. rewrite Z.lor_spec, !Z.land_spec, testbit_not64 by lia.
    change 255 with (Z.ones 8). rewrite Z.testbit_ones_nonneg by lia.
    destruct (Z.ltb_spec k 8); rewrite ?andb_false_r, ?andb_true_r, ?orb_false_r; [done|].
    destruct (Z.ltb_spec k 64); [by rewrite andb_true_r|].
    rewrite andb_false_r. symmetry. by apply (testbit_above 64). }
  exists (set_flags fl s). split_and!.
  - unfold SaveGuestFlags. do 2 mstep. rewrite orb_false_intro by lia. by do 2 mstep.
  - change (TestGuestFlags Flags_Parity fl = (Z.land (popcount (wrap 8 x)) 1 =? 0)).
    change (TestGuestFlags Flags_Parity fl) with (parity_of_byte fl).
    rewrite parity_of_byte_spec.
    + assert (wrap 8 fl = wrap 8 x) as ->; [|done].
      apply (bits_bounded_ext 8); [lia|apply wrap_range; lia..|].
      intros k Hk. rewrite !testbit_wrap, Hbit by lia. by destruct (k <? 8).
    + unfold fl. apply Z.lor_nonneg. split; apply Z.land_nonneg; [left; apply Hfl|right; lia].
  - intros k Hk. simpl. rewrite Hbit by lia. by destruct (Z.ltb_spec k 8); [lia|].
Qed.

Lemma parity_flag_spec_witness :
  exists s', SaveGuestFlags (sample_heap OpCode_Add ValueType_U16 7 0) 3%positive Flags_Parity
               (wrote (sample_alu OpCode_Add ValueType_U16) 7 (sample_state 7 0 0)) = Ok (tt, s')
    /\ TestGuestFlags Flags_Parity (s_flags s') = false
    /\ (forall k, 8 <= k -> Z.testbit (s_flags s') k = Z.testbit 0 k).
Proof.
  apply (parity_flag_spec (sample_heap OpCode_Add ValueType_U16 7 0) 3%positive
    (sample_alu OpCode_Add ValueType_U16) 16 7
    (wrote (sample_alu OpCode_Add ValueType_U16) 7 (sample_state 7 0 0))).
  - reflexivity.
  - repeat split; discriminate.
  - vm_compute. split; congruence.
  - reflexivity.
Defined.
