(* ===== verification/ScalarProps.v ===== *)
(** * Correctness of the scalar arithmetic

    The multi-word products and quotients, the rotates and the bit-field
    operations of the interpreter compute the mathematical operations. *)

From Stdlib Require Import ZArith Lia.
From stdpp Require Import numbers base gmap list.
From S2P Require Import Prelude MachineInt IRTypes Instr InterpCore InterpFlags InterpScalar.
From S2P Require Import InterpInvariant FlagProps.

Local Open Scope Z_scope.
Local Open Scope svm_scope.

(** ** Products *)

Lemma shiftr_wrap_div x n : 0 <= n -> Z.shiftr x n = x / 2 ^ n.
Proof. intros. by apply Z.shiftr_div_pow2. Qed.

(** [MulHigh] with [Mul] is the full product: for 64-bit operands the two
    halves assemble to the unsigned product and, read as two's complement, to
    the signed product. *)
Theorem mul_high_full_product (l r : Z) :
  is_word l -> is_word r ->
  mul_high false l r * 2 ^ 64 + mul64 l r = l * r
  /\ to_signed 64 (mul_high true l r) * 2 ^ 64 + mul64 l r = to_signed 64 l * to_signed 64 r.
Proof.
  intros Hl Hr. unfold mul_high, mul64, is_word in *. split.
  - rewrite shiftr_wrap_div by lia. rewrite (wrap_small 64 (l * r / 2 ^ 64)).
    + unfold wrap. pose proof (Z.div_mod (l * r) (2 ^ 64)). lia.
    + split; [apply Z.div_pos; nia|]. apply Z.div_lt_upper_bound; nia.
  - pose proof (to_signed_range 64 l ltac:(lia)) as Hsl.
    pose proof (to_signed_range 64 r ltac:(lia)) as Hsr.
    set (p := to_signed 64 l * to_signed 64 r) in *.
    assert (wrap 64 (l * r) = wrap 64 p) as ->.
    { unfold p. destruct (to_signed_add_cong 64 l ltac:(lia)) as [k1 ->].
      destruct (to_signed_add_cong 64 r ltac:(lia)) as [k2 ->].
      replace ((l + k1 * 2 ^ 64) * (r + k2 * 2 ^ 64))
        with (l * r + (k1 * r + k2 * l + k1 * k2 * 2 ^ 64) * 2 ^ 64) by ring.
      by rewrite wrap_cong. }
    assert (- 2 ^ 126 <= p <= 2 ^ 126) as Hp by (simpl in Hsl, Hsr; unfold p; nia).
    rewrite shiftr_wrap_div by lia.
    assert (wrap 128 p / 2 ^ 64 = wrap 64 (p / 2 ^ 64)) as ->.
    { unfold wrap. change (2 ^ 128) with (2 ^ 64 * 2 ^ 64). rewrite Z.rem_mul_r by lia.
      rewrite Z.add_comm, Z.mul_comm, Z.div_add_l by lia.
      rewrite (Z.div_small (p mod _)) by (apply Z.mod_pos_bound; lia). lia. }
    rewrite !to_signed_wrap by lia.
    rewrite to_signed_small.
    + unfold wrap. pose proof (Z.div_mod p (2 ^ 64)). lia.
    + lia.
    + split; [apply Z.div_le_lower_bound|apply Z.div_lt_upper_bound]; simpl; lia.
Qed.

Lemma mul_high_full_product_witness :
  mul_high false (2 ^ 64 - 1) (2 ^ 64 - 1) * 2 ^ 64 + mul64 (2 ^ 64 - 1) (2 ^ 64 - 1)
    = (2 ^ 64 - 1) * (2 ^ 64 - 1)
  /\ to_signed 64 (mul_high true (2 ^ 64 - 1) (2 ^ 64 - 1)) * 2 ^ 64
       + mul64 (2 ^ 64 - 1) (2 ^ 64 - 1) = 1.
Proof.
  apply (mul_high_full_product (2 ^ 64 - 1) (2 ^ 64 - 1)); vm_compute; split; congruence.
Defined.

(** ** Quotients *)

Lemma signed_of_SignExtendTo x w :
  0 < w <= 64 -> 0 <= x < 2 ^ w -> to_signed 64 (SignExtendTo x w) = to_signed w x.
Proof.
  intros Hw Hx. rewrite SignExtendTo_spec, to_signed_wrap by lia.
  pose proof (to_signed_range w x ltac:(lia)) as Hr.
  assert (2 ^ (w - 1) <= 2 ^ (64 - 1)) by (apply Z.pow_le_mono_r; lia).
  apply to_signed_small; lia.
Qed.

(** [Div] at width [w] is the truncating quotient of its operands, signed
    or unsigned by the type of the dividend, reduced modulo 2^w; a zero divisor
    gives zero and the most negative value divided by -1 wraps to itself. *)
Theorem div_core_quotient (signed : bool) (w l r : Z) :
  0 < w <= 64 -> 0 <= l < 2 ^ w -> 0 <= r < 2 ^ w ->
  wrap w (div_core signed w l r) =
  if r =? 0 then 0
  else wrap w (if signed then Z.quot (to_signed w l) (to_signed w r) else Z.quot l r).
Proof.
  intros Hw Hl Hr. unfold div_core. destruct (Z.eqb_spec r 0); [done|].
  destruct signed; [|by rewrite Z.quot_div_nonneg by lia].
  rewrite !signed_of_SignExtendTo by lia. destruct (Z.eqb_spec (to_signed w r) (-1)) as [->|].
  - rewrite land_MaskBits, wrap_idemp by lia. unfold sub64.
    rewrite wrap_wrap by lia. replace (to_signed w l ÷ -1) with (0 - to_signed w l).
    + rewrite (wrap_sub_r w 64) by lia. done.
    + change (-1) with (- (1)). rewrite Z.quot_opp_r, Z.quot_1_r by lia. lia.
  - by rewrite wrap_wrap by lia.
Qed.

Lemma div_core_quotient_witness :
  wrap 8 (div_core true 8 0x80 0xff) = 0x80 /\ wrap 8 (div_core true 8 0xf9 2) = 0xfd.
Proof.
  split; [apply (div_core_quotient true 8 0x80 0xff)|apply (div_core_quotient true 8 0xf9 2)]; lia.
Defined.

(** [DivideUnsigned128] divides: when the divisor is not zero and the
    quotient fits in 64 bits (the high word is below the divisor), quotient and
    remainder satisfy the division equation of the 128-bit dividend. *)
Theorem divide_unsigned128_spec (high low divisor : Z) :
  is_word low -> is_word divisor -> 0 <= high < divisor ->
  let '(q, r) := DivideUnsigned128 high low divisor in
  q * divisor + r = high * 2 ^ 64 + low /\ 0 <= r < divisor.
Proof.
  unfold is_word. intros Hl Hd Hh. unfold DivideUnsigned128.
  destruct (Z.eqb_spec divisor 0) as [|Hnz]; [lia|]. rewrite lor_shiftl_add by lia.
  set (n := high * 2 ^ 64 + low). pose proof (Z.div_mod n divisor ltac:(lia)).
  pose proof (Z.mod_pos_bound n divisor ltac:(lia)).
  rewrite (wrap_small 64 (n mod divisor)) by lia. rewrite (wrap_small 64 (n / divisor)); [lia|].
  split; [apply Z.div_pos; lia|]. apply Z.div_lt_upper_bound; nia.
Qed.

Lemma divide_unsigned128_spec_witness :
  let '(q, r) := DivideUnsigned128 2 5 (2 ^ 63) in
  q * 2 ^ 63 + r = 2 * 2 ^ 64 + 5 /\ 0 <= r < 2 ^ 63.
Proof. apply (divide_unsigned128_spec 2 5 (2 ^ 63)); unfold is_word; lia. Defined.

(** [DivideSigned128] divides: when the divisor is not zero and the
    truncating quotient of the signed 128-bit dividend fits in 64 bits, the two
    results read as signed words are that quotient and its remainder. *)
Theorem divide_signed128_spec (high low divisor : Z) :
  is_word high -> is_word low -> is_word divisor -> divisor <> 0 ->
  let n := to_signed 128 (high * 2 ^ 64 + low) in
  let d := to_signed 64 divisor in
  signed_fits 64 (Z.quot n d) = true ->
  let '(q, r) := DivideSigned128 high low divisor in
  to_signed 64 q = Z.quot n d /\ to_signed 64 r = Z.rem n d
  /\ n = to_signed 64 q * d + to_signed 64 r.
Proof.
  intros Hh Hl Hd Hnz n d Hfit. unfold is_word, DivideSigned128 in *.
  assert (d <> 0) as Hd0.
  { intros E. apply Hnz. apply (to_signed_inj 64); [lia|lia|lia|]. by fold d; rewrite E. }
  fold d. rewrite lor_shiftl_add by lia. fold n.
  apply andb_true_iff in Hfit as [H1 H2]. apply Z.leb_le in H1. apply Z.ltb_lt in H2.
  destruct (Z.eqb_spec d 0); [done|].
  destruct ((d =? -1) && (high =? bit64 63) && (low =? 0)) eqn:E.
  { exfalso. apply andb_true_iff in E as [E E3]. apply andb_true_iff in E as [E1 E2].
    apply Z.eqb_eq in E1, E2, E3. subst high low. revert H2. rewrite E1.
    unfold n, bit64. vm_compute. discriminate. }
  pose proof (Z.quot_rem n d Hd0) as Hqr. pose proof (Z.rem_bound_abs n d Hd0) as Hb.
  pose proof (to_signed_range 64 divisor ltac:(lia)) as Hdr. fold d in Hdr.
  rewrite !to_signed_wrap by lia. rewrite !to_signed_small by lia.
  split_and!; [done|done|lia].
Qed.

Lemma divide_signed128_spec_witness :
  let '(q, r) := DivideSigned128 (2 ^ 64 - 1) (2 ^ 64 - 7) 2 in
  to_signed 64 q = -3 /\ to_signed 64 r = -1 /\ -7 = to_signed 64 q * 2 + to_signed 64 r.
Proof. apply (divide_signed128_spec (2 ^ 64 - 1) (2 ^ 64 - 7) 2); unfold is_word; (lia || reflexivity). Defined.

(** ** Rotates and bit fields *)

Lemma shl64c_ok x n : 0 <= n < 64 -> shl64c x n = Ok (shl64 x n).
Proof.
  intros. unfold shl64c. by rewrite (proj2 (Z.leb_le 0 n)), (proj2 (Z.ltb_lt n 64)) by lia.
Qed.

Lemma shr64c_ok x n : 0 <= n < 64 -> shr64c x n = Ok (Z.shiftr x n).
Proof.
  intros. unfold shr64c. by rewrite (proj2 (Z.leb_le 0 n)), (proj2 (Z.ltb_lt n 64)) by lia.
Qed.

Lemma testbit_shl64 x n k :
  0 <= n -> 0 <= k -> Z.testbit (shl64 x n) k = (k <? 64) && (n <=? k) && Z.testbit x (k - n).
Proof.
  intros Hn Hk. unfold shl64. rewrite testbit_wrap, Z.shiftl_spec by lia.
  destruct (Z.leb_spec n k); [by rewrite andb_true_r|].
  by rewrite Z.testbit_neg_r, !andb_false_r by lia.
Qed.

Lemma testbit_MaskBits w k : 0 <= w <= 64 -> 0 <= k -> Z.testbit (MaskBits w) k = (k <? w).
Proof.
  intros Hw Hk. assert (MaskBits w = Z.ones w) as ->; [|by apply Z.testbit_ones_nonneg; lia].
  unfold MaskBits. destruct (Z.leb_spec 64 w); [by assert (w = 64) as -> by lia|].
  rewrite Z.ones_equiv. unfold bit64. lia.
Qed.

(** [RorImm] / [RorValue] rotate: for every width and amount below it the
    rotate is defined and bit [k] of the result is bit [(k + amount) mod w] of
    the operand. *)
Theorem rotate_right_bits (w x n : Z) :
  0 < w <= 64 -> 0 <= x < 2 ^ w -> 0 <= n < w ->
  exists y, rotate_right w x n = Ok y
    /\ forall k, 0 <= k < w -> Z.testbit (wrap w y) k = Z.testbit x ((k + n) mod w).
Proof.
  intros Hw Hx Hn. unfold rotate_right. destruct (Z.eqb_spec n 0) as [-> |].
  - exists x. split; [done|]. intros k Hk. rewrite wrap_small by done.
    by rewrite Z.add_0_r, Z.mod_small.
  - rewrite shr64c_ok, shl64c_ok by lia. eexists. split; [done|]. intros k Hk.
    rewrite testbit_wrap, Z.lor_spec, Z.shiftr_spec, testbit_shl64 by lia.
    destruct (Z.ltb_spec k w); [|lia]. destruct (Z.ltb_spec k 64); [|lia]. simpl.
    destruct (Z.leb_spec (w - n) k).
    + rewrite (testbit_above w x (k + n)) by lia.
      replace ((k + n) mod w) with (k - (w - n)); [done|].
      rewrite (Z.mod_eq (k + n) w) by lia. assert ((k + n) / w = 1) as ->; [|lia].
      symmetry. apply Z.div_unique with (r := k + n - w); lia.
    + by rewrite orb_false_r, Z.mod_small by lia.
Qed.

Lemma rotate_right_bits_witness :
  exists y, rotate_right 8 0x81 1 = Ok y
    /\ forall k, 0 <= k < 8 -> Z.testbit (wrap 8 y) k = Z.testbit 0x81 ((k + 1) mod 8).
Proof. apply (rotate_right_bits 8 0x81 1); lia. Defined.

(** [BitInsert], [BitExtract] and [BitClear] act on the field
    [lsb, lsb + width) only: an inserted field reads back as the low bits of
    the source, a cleared one as zero, and every bit outside the field keeps
    the value of the destination. *)
Theorem bit_insert_extract (dest src lsb width : Z) :
  is_word dest -> 0 <= lsb -> 0 < width -> lsb + width <= 64 ->
  exists y z, bit_insert dest src lsb width = Ok y /\ bit_clear dest lsb width = Ok z
    /\ bit_extract y lsb width = Ok (wrap width src) /\ bit_extract z lsb width = Ok 0
    /\ (forall k, 0 <= k -> ~ lsb <= k < lsb + width ->
          Z.testbit y k = Z.testbit dest k /\ Z.testbit z k = Z.testbit dest k).
Proof.
  intros Hd Hl Hw Hlw. unfold bit_insert, bit_clear, bit_extract.
  rewrite (wrap_small 32 width) by lia.
  rewrite !shl64c_ok by lia. simpl. do 2 eexists. split; [done|]. split; [done|].
  rewrite !shr64c_ok by lia. simpl. rewrite !land_MaskBits by lia.
  set (m := shl64 (MaskBits width) lsb).
  assert (forall k, 0 <= k -> Z.testbit m k = (lsb <=? k) && (k <? lsb + width)) as Hm.
  { intros k Hk. unfold m. rewrite testbit_shl64 by lia.
    destruct (Z.leb_spec lsb k); [|by rewrite andb_false_r].
    rewrite testbit_MaskBits by lia.
    destruct (Z.ltb_spec k 64), (Z.ltb_spec (k - lsb) width), (Z.ltb_spec k (lsb + width));
      try done; lia. }
  split_and!.
  - f_equal. apply (bits_bounded_ext width); [lia|apply wrap_range; lia..|]. intros k Hk.
    rewrite !testbit_wrap by lia. destruct (Z.ltb_spec k width); [|lia]. simpl.
    rewrite Z.shiftr_spec, Z.lor_spec, !Z.land_spec, testbit_not64, Hm, testbit_shl64 by lia.
    destruct (Z.leb_spec lsb (k + lsb)), (Z.ltb_spec (k + lsb) (lsb + width)),
      (Z.ltb_spec (k + lsb) 64); try lia.
    simpl. rewrite andb_false_r, andb_true_r. simpl. f_equal. lia.
  - f_equal. apply (bits_bounded_ext width); [lia|apply wrap_range; lia|lia|]. intros k Hk.
    rewrite testbit_wrap, Z.bits_0 by lia. destruct (Z.ltb_spec k width); [|lia]. simpl.
    rewrite Z.shiftr_spec, Z.land_spec, testbit_not64, Hm by lia.
    destruct (Z.leb_spec lsb (k + lsb)), (Z.ltb_spec (k + lsb) (lsb + width)),
      (Z.ltb_spec (k + lsb) 64); try lia; by rewrite ?andb_false_r.
  - intros k Hk Hout. rewrite Z.lor_spec, !Z.land_spec, testbit_not64, Hm by lia.
    assert ((lsb <=? k) && (k <? lsb + width) = false) as ->
      by (destruct (Z.leb_spec lsb k), (Z.ltb_spec k (lsb + width)); try done; lia).
    rewrite andb_false_r, orb_false_r. destruct (Z.ltb_spec k 64); [by rewrite andb_true_r|].
    by rewrite (testbit_above 64 dest k).
Qed.

Lemma bit_insert_extract_witness :
  exists y z, bit_insert 0xffff 0x5 4 8 = Ok y /\ bit_clear 0xffff 4 8 = Ok z
    /\ bit_extract y 4 8 = Ok 5 /\ bit_extract z 4 8 = Ok 0
    /\ (forall k, 0 <= k -> ~ 4 <= k < 4 + 8 ->
          Z.testbit y k = Z.testbit 0xffff k /\ Z.testbit z k = Z.testbit 0xffff k).
Proof. apply (bit_insert_extract 0xffff 0x5 4 8); unfold is_word; lia. Defined.
