(* ===== verification/MemoryProps.v ===== *)
(** * Correctness of the memory instructions

    Reading back what was written, framing, the wild-pointer guard that keeps
    guest accesses inside the guest window, and the atomic primitives. *)

From Stdlib Require Import ZArith Lia.
From stdpp Require Import numbers base gmap list.
From S2P Require Import Prelude MachineInt IRTypes Instr InterpCore InterpFlags InterpScalar.
From S2P Require Import InterpMemory InterpVector Interp InterpInvariant.
From S2P Require Import FlagProps.

Local Open Scope Z_scope.
Local Open Scope svm_scope.

(** ** Bytes *)

Lemma wrap_add_ne a d : 0 < d < 2 ^ 64 -> wrap 64 a <> wrap 64 (a + d).
Proof.
  intros Hd E. unfold wrap in E. 
  assert ((a + d - a) mod 2 ^ 64 = 0) as H0
    by (rewrite Zminus_mod, <- E, Z.sub_diag; reflexivity).
  replace (a + d - a) with d in H0 by lia. rewrite Z.mod_small in H0; lia.
Qed.

Lemma mem_write_in m a bs m' j b :
  mem_write m a bs = Ok m' -> Z.of_nat (length bs) <= 2 ^ 64 -> bs !! j = Some b ->
  m' !! wrap 64 (a + Z.of_nat j) = Some b.
Proof.
  revert a m' j. induction bs as [|x bs IH]; intros a m' j Hw Hlen Hj; [done|].
  simpl in Hw. destruct (m !! wrap 64 a) eqn:E; [|done]. minv Hw. simpl in Hlen.
  destruct j as [|j]; simpl in Hj.
  - injection Hj as ->. rewrite Z.add_0_r. by rewrite lookup_insert_eq.
  - pose proof (lookup_lt_Some _ _ _ Hj). rewrite lookup_insert_ne.
    + rewrite <- (IH (a + 1) x0 j) by (done || lia). do 2 f_equal. lia.
    + apply wrap_add_ne. lia.
Qed.

Lemma mem_write_out m a bs m' k :
  mem_write m a bs = Ok m' ->
  (forall j, (j < length bs)%nat -> k <> wrap 64 (a + Z.of_nat j)) -> m' !! k = m !! k.
Proof.
  revert a m'. induction bs as [|x bs IH]; intros a m' Hw Hk; simpl in Hw; [by minv Hw|].
  destruct (m !! wrap 64 a) eqn:E; [|done]. minv Hw. rewrite lookup_insert_ne.
  - apply (IH (a + 1)); [done|]. intros j Hj.
    replace (a + 1 + Z.of_nat j) with (a + Z.of_nat (S j)) by lia. apply Hk. simpl. lia.
  - intros Ek. apply (Hk 0%nat); [simpl; lia|]. by rewrite Z.add_0_r.
Qed.

Lemma mem_read_of m a bs :
  (forall j b, bs !! j = Some b -> m !! wrap 64 (a + Z.of_nat j) = Some b) ->
  mem_read m a (length bs) = Ok bs.
Proof.
  revert a. induction bs as [|x bs IH]; intros a H; [done|]. simpl.
  specialize (H 0%nat) as H0. rewrite Z.add_0_r in H0. rewrite (H0 x) by done.
  rewrite (IH (a + 1)); [done|]. intros j b Hj.
  replace (a + 1 + Z.of_nat j) with (a + Z.of_nat (S j)) by lia. by apply H.
Qed.

Lemma mem_write_read m a bs m' :
  mem_write m a bs = Ok m' -> Z.of_nat (length bs) <= 2 ^ 64 -> mem_read m' a (length bs) = Ok bs.
Proof. intros Hw Hl. apply mem_read_of. intros. by eapply mem_write_in. Qed.

(** A write succeeds exactly where a read does. *)
Lemma mem_write_mapped m a bs :
  (exists old, mem_read m a (length bs) = Ok old) -> exists m', mem_write m a bs = Ok m'.
Proof.
  revert a. induction bs as [|x bs IH]; intros a [old Hr]; [by eexists|].
  simpl in *. destruct (m !! wrap 64 a); [|done]. minv Hr.
  destruct (IH (a + 1)) as [m' ->]; [by eexists|]. by eexists.
Qed.

(** ** [mload] and [mstore] *)

Lemma mstore_mload a n v s s' :
  Z.of_nat n <= 2 ^ 64 -> mstore a n v s = Ok (tt, s') ->
  mload a n s' = Ok (wrap (8 * Z.of_nat n) v, s').
Proof.
  intros Hn H. unfold mstore in H. minv H. unfold mload. mstep.
  pose proof (mem_write_read _ _ _ _ H0) as Hr. rewrite length_le_bytes in Hr.
  erewrite bind_run by (apply lift_run; by apply Hr). by rewrite le_value_le_bytes.
Qed.

Lemma mload_mstore a n v s x :
  mload a n s = Ok (x, s) -> exists m, mstore a n v s = Ok (tt, set_mem m s).
Proof.
  intros H. unfold mload, bind, lift, get in H.
  destruct (mem_read (s_mem s) a n) as [old|] eqn:E; [|done].
  destruct (mem_write_mapped (s_mem s) a (le_bytes n v)) as [m Hm].
  { rewrite length_le_bytes. by eexists. }
  exists m. unfold mstore. do 2 mstep. done.
Qed.

Lemma mstore_frame a n v s s' k :
  mstore a n v s = Ok (tt, s') ->
  (forall j, (j < n)%nat -> k <> wrap 64 (a + Z.of_nat j)) -> s_mem s' !! k = s_mem s !! k.
Proof.
  intros H Hk. unfold mstore in H. minv H. simpl.
  eapply mem_write_out; [done|]. by rewrite length_le_bytes.
Qed.

Lemma mstore_keeps_rest a n v s s' : mstore a n v s = Ok (tt, s') -> s' = set_mem (s_mem s') s.
Proof. intros H. unfold mstore in H. minv H. done. Qed.

(** ** Atomics *)

(** The atomic primitives are read-modify-writes: on a mapped location each
    returns the value it found and leaves in memory the new value at the width
    of the access ([AtomicCompareExchange] only when the found value equals the
    expected one), with every other byte, slot and flag unchanged. *)
Theorem atomic_transform_spec (n : nat) (a : Z) (f : Z -> Z) (expected desired old : Z)
  (s : IState) :
  (n <= 16)%nat -> mload a n s = Ok (old, s) ->
  (exists m, AtomicTransformValue n a f s = Ok (old, set_mem m s)
     /\ mload a n (set_mem m s) = Ok (wrap (8 * Z.of_nat n) (f old), set_mem m s)
     /\ forall k, (forall j, (j < n)%nat -> k <> wrap 64 (a + Z.of_nat j)) ->
                  m !! k = s_mem s !! k)
  /\ (exists m, AtomicCompareExchange n a expected desired s = Ok (old, set_mem m s)
     /\ mload a n (set_mem m s)
        = Ok (if old =? expected then wrap (8 * Z.of_nat n) desired else old, set_mem m s)
     /\ forall k, (forall j, (j < n)%nat -> k <> wrap 64 (a + Z.of_nat j)) ->
                  m !! k = s_mem s !! k).
Proof.
  intros Hn Hl. split.
  - destruct (mload_mstore a n (f old) s old Hl) as [m Hm]. exists m. split_and!.
    + unfold AtomicTransformValue. by do 2 mstep.
    + eapply mstore_mload; [lia|done].
    + intros k Hk. apply (mstore_frame a n (f old) s (set_mem m s) k Hm Hk).
  - unfold AtomicCompareExchange. destruct (Z.eqb_spec old expected) as [E|E].
    + destruct (mload_mstore a n desired s old Hl) as [m Hm]. exists m. split_and!.
      * mstep. rewrite E, Z.eqb_refl. by mstep.
      * eapply mstore_mload; [lia|done].
      * intros k Hk. apply (mstore_frame a n desired s (set_mem m s) k Hm Hk).
    + exists (s_mem s). assert (set_mem (s_mem s) s = s) as Hs by by destruct s. rewrite Hs.
      split_and!; [|done|done]. mstep. rewrite (proj2 (Z.eqb_neq _ _) E). by mstep.
Qed.

Lemma atomic_transform_spec_witness :
  (exists m, AtomicTransformValue 4 0x1004 (fun x => x + 3) (sample_state 0 0 0)
             = Ok (0, set_mem m (sample_state 0 0 0))
     /\ mload 0x1004 4 (set_mem m (sample_state 0 0 0)) = Ok (3, set_mem m (sample_state 0 0 0))
     /\ forall k, (forall j, (j < 4)%nat -> k <> wrap 64 (0x1004 + Z.of_nat j)) ->
                  m !! k = s_mem (sample_state 0 0 0) !! k)
  /\ (exists m, AtomicCompareExchange 4 0x1004 0 9 (sample_state 0 0 0)
             = Ok (0, set_mem m (sample_state 0 0 0))
     /\ mload 0x1004 4 (set_mem m (sample_state 0 0 0)) = Ok (9, set_mem m (sample_state 0 0 0))
     /\ forall k, (forall j, (j < 4)%nat -> k <> wrap 64 (0x1004 + Z.of_nat j)) ->
                  m !! k = s_mem (sample_state 0 0 0) !! k).
Proof.
  apply (atomic_transform_spec 4 0x1004 (fun x => x + 3) 0 9 0 (sample_state 0 0 0));
    [lia|vm_compute; reflexivity].
Defined.

(** ** Operands depend on the slots only *)

Definition stack_read {A} (m : M A) : Prop :=
  forall s s' a s1, s_stack s = s_stack s' -> m s = Ok (a, s1) -> s1 = s /\ m s' = Ok (a, s').

Lemma stack_read_bind {A B} (m : M A) (f : A -> M B) :
  stack_read m -> (forall a, stack_read (f a)) -> stack_read (bind m f).
Proof.
  intros Hm Hf s s' b s2 Hs H. apply bind_ok in H as (a & s1 & H1 & H2).
  destruct (Hm s s' a s1 Hs H1) as [-> H1']. destruct (Hf a s s' b s2 Hs H2) as [-> H2'].
  split; [done|]. by rewrite (bind_run _ _ _ _ _ H1').
Qed.

Lemma stack_read_ret {A} (a : A) : stack_read (ret a).
Proof. intros s s' b s1 _ [= <- <-]. done. Qed.

Lemma stack_read_lift {A} (r : Res A) : stack_read (lift r).
Proof. intros s s' b s1 _ H. apply lift_ok in H as [-> ->]. done. Qed.

Lemma stack_read_ReadScalar h v : stack_read (ReadScalar h v).
Proof.
  apply stack_read_bind; [apply stack_read_lift|]. intros n s s' a s1 Hs H.
  unfold word_at, bind, get in *. rewrite <- Hs. destruct (s_stack s !! n); [|done].
  injection H as -> ->. done.
Qed.

Lemma stack_read_EvalDataClass h d : stack_read (EvalDataClass h d).
Proof. destruct d; [apply stack_read_ret|apply stack_read_ReadScalar|apply stack_read_ret]. Qed.

Lemma stack_read_EvalOperand h o : stack_read (EvalOperand h o).
Proof.
  apply stack_read_bind; [apply stack_read_EvalDataClass|]. intros l.
  destruct (o_right o); [apply stack_read_ret|..];
    (apply stack_read_bind; [apply stack_read_EvalDataClass|]; intros r;
     destruct (oo_type (o_op o)); try apply stack_read_ret);
    repeat first [ apply stack_read_ret | apply stack_read_lift
                 | apply stack_read_bind; [|intros ?] | destruct (o_left o) ].
Qed.

Lemma stack_read_ReadVec h v : stack_read (ReadVec h v).
Proof.
  assert (forall n, stack_read (word_at n)) as Hw.
  { intros n s s' a s1 Hs H. unfold word_at, bind, get in *. rewrite <- Hs.
    destruct (s_stack s !! n); [|done]. injection H as -> ->. done. }
  apply stack_read_bind; [apply stack_read_lift|]. intros n.
  apply stack_read_bind; [apply Hw|]. intros lo.
  apply stack_read_bind; [apply Hw|]. intros hi. apply stack_read_ret.
Qed.

(** ** The guard *)

Lemma store_typed_frame h v t n a s s' k :
  GetValueSizeByte t = Ok n -> store_typed h v t a s = Ok (tt, s') ->
  s_halt s' = s_halt s /\ s_stack s' = s_stack s /\
  ((forall j, 0 <= j < n -> k <> wrap 64 (a + j)) -> s_mem s' !! k = s_mem s !! k).
Proof.
  intros Hn H. unfold store_typed in H. minv H. rewrite Hn in H0. injection H0 as <-.
  assert (exists x s1, (s1 = s) /\ mstore a (Z.to_nat n) x s1 = Ok (tt, s')) as (x & ? & -> & Hm).
  { destruct (IsVector t); apply bind_ok in H as (x & s1 & Hx & H); unfold copy_out in H;
      apply bind_ok in H as (u & s2 & Hg & H); unfold guard in Hg; destruct (_ <=? _); minv Hg.
    - apply (stack_read_ReadVec _ _ _ s) in Hx as [-> _]; [eauto|done].
    - apply (stack_read_ReadScalar _ _ _ s) in Hx as [-> _]; [eauto|done]. }
  pose proof (mstore_keeps_rest _ _ _ _ _ Hm) as Hrest. rewrite Hrest. split_and!; [done|done|].
  intros Hk. apply (mstore_frame _ _ _ _ _ k Hm). intros j Hj. apply Hk. lia.
Qed.

Section Guard.
Context (h : Heap) (cfg : IConfig).

(** The access [g, g + n) is not wholly below the guest limit, or the embedder's
    range check rejects it. *)
Definition wild (g n : Z) : Prop :=
  guest_addr_limit cfg < g + n
  \/ (exists check, interp_range_check cfg = Some check /\ check g n = false).

Lemma guest_fault_wild g n :
  0 <= g < 2 ^ 64 -> 0 < n -> guest_addr_limit cfg + n <= 2 ^ 64 ->
  guest_fault cfg g n = true <-> wild g n.
Proof.
  intros Hg Hn Hlim. unfold guest_fault, wild, add64.
  rewrite !orb_true_iff, Z.leb_le, Z.ltb_lt.
  assert (match interp_range_check cfg with
          | Some check => negb (check g n) | None => false end = true <->
          exists check, interp_range_check cfg = Some check /\ check g n = false) as Hc.
  { destruct (interp_range_check cfg) as [c|]; [|split; [done|by intros (? & ? & ?)]].
    rewrite negb_true_iff. split; [eauto|]. by intros (? & [= ->] & ?). }
  rewrite Hc. destruct (decide (guest_addr_limit cfg <= g)); [split; [left; lia|left; lia]|].
  rewrite wrap_small by lia. split; intros [H|H]; try (by right); try (destruct H; [lia|]); auto; lia.
Qed.
End Guard.

(** A store instruction: its operand evaluates to [addr] and it writes a value
    of [n] bytes; a load instruction likewise. *)
Record store_inst (h : Heap) (this : Ptr) (s : IState) (i : Inst) (o : Operand) (v : Value)
  (t : ValueType) (addr n : Z) : Prop := mk_store_inst {
  st_deref : deref h this = Ok i;
  st_operand : GetArg_Operand i 0 = Ok o;
  st_value : GetArg_Value i 1 = Ok v;
  st_type : Value_Type h v = Ok t;
  st_addr : EvalOperand h o s = Ok (addr, s);
  st_size : GetValueSizeByte t = Ok n
}.

Record load_inst (h : Heap) (this : Ptr) (s : IState) (i : Inst) (o : Operand)
  (addr n : Z) : Prop := mk_load_inst {
  ld_deref : deref h this = Ok i;
  ld_operand : GetArg_Operand i 0 = Ok o;
  ld_addr : EvalOperand h o s = Ok (addr, s);
  ld_size : GetValueSizeByte (i_ret i) = Ok n
}.

Lemma RunStoreMemory_unfold h cfg this s i o v t addr n :
  store_inst h this s i o v t addr n ->
  RunStoreMemory h cfg this s =
  let g := Z.land addr (guest_addr_mask cfg) in
  if guest_fault cfg g n then Ok (tt, set_halt HaltReason_PageFatal s)
  else store_typed h v t (add64 g (pt cfg)) s.
Proof.
  intros []. unfold RunStoreMemory. do 6 mstep. cbv zeta. by destruct (guest_fault _ _ _).
Qed.

Lemma RunLoadMemory_unfold h cfg this s i o addr n :
  load_inst h this s i o addr n ->
  RunLoadMemory h cfg this s =
  let g := Z.land addr (guest_addr_mask cfg) in
  if guest_fault cfg g n then Ok (tt, set_halt HaltReason_PageFatal s)
  else load_typed h this (i_ret i) (add64 g (pt cfg)) s.
Proof.
  intros []. unfold RunLoadMemory. do 4 mstep. cbv zeta. by destruct (guest_fault _ _ _).
Qed.

Lemma size_pos t n : GetValueSizeByte t = Ok n -> 0 < n <= 32.
Proof. destruct t; vm_compute; intros [= <-]; split; congruence. Qed.


(** A store and a load of the same width through pointer operands in the sample
    heap: instruction 5 stores value 2, instruction 6 loads, both at value 1. *)
Definition sample_store : Inst :=
  mkInst OpCode_StoreMemory [AOperand OperandPlus; AValue (Value_of 1%positive); AVoid;
                             AValue (Value_of 2%positive); AVoid] 0 3 0 ValueType_VOID None.
Definition sample_load : Inst :=
  mkInst OpCode_LoadMemory [AOperand OperandPlus; AValue (Value_of 1%positive); AVoid;
                            AVoid; AVoid] 0 2 0 ValueType_U32 None.
Definition sample_mem_heap (x y : Z) : Heap :=
  <[5%positive := sample_store]> (<[6%positive := sample_load]>
    (sample_heap OpCode_Add ValueType_U32 x y)).

Lemma sample_store_inst x y :
  store_inst (sample_mem_heap x y) 5%positive (sample_state x y 0) sample_store
    (Operand_value (Value_of 1%positive)) (Value_of 2%positive) ValueType_U32 x 4.
Proof. split; reflexivity. Qed.

Lemma sample_load_inst x y fl m :
  load_inst (sample_mem_heap x y) 6%positive (set_mem m (sample_state x y fl)) sample_load
    (Operand_value (Value_of 1%positive)) x 4.
Proof. split; reflexivity. Qed.


Lemma scalar_size t w n : scalar_type t w -> GetValueSizeByte t = Ok n -> w = 8 * n /\ n <= 8.
Proof.
  intros (H1 & H2 & H3) Hn. destruct t; try done; injection H3 as <-; injection Hn as <-;
    vm_compute; split; congruence.
Qed.

Lemma load_inst_state h ld s s' j o addr n :
  s_stack s = s_stack s' -> load_inst h ld s j o addr n -> load_inst h ld s' j o addr n.
Proof.
  intros Hs []. split; try done. by destruct (stack_read_EvalOperand _ _ _ s' _ _ Hs ld_addr0).
Qed.

Lemma store_scalar_run h v t w n a s s' x :
  scalar_type t w -> GetValueSizeByte t = Ok n -> ReadScalar h v s = Ok (x, s) ->
  store_typed h v t a s = Ok (tt, s') -> mstore a (Z.to_nat n) x s = Ok (tt, s').
Proof.
  intros Ht Hn Hx H. destruct (scalar_size _ _ _ Ht Hn) as [-> Hn8]. destruct Ht as (_ & Hv & _).
  unfold store_typed in H. rewrite Hn in H. change (lift (Ok n)) with (@ret IState Z n) in H.
  erewrite bind_run in H by reflexivity. cbv beta in H. rewrite Hv in H.
  erewrite bind_run in H by exact Hx. cbv beta in H. unfold copy_out in H.
  rewrite (proj2 (Z.leb_le _ _) Hn8) in H. by erewrite bind_run in H by reflexivity.
Qed.

(** A load reads back what the last store wrote: when a scalar store
    through an operand does not fault, a following load of the same type
    through the same operand writes the stored value, truncated to the width of
    the type, into its slot and changes nothing else. *)
Theorem store_then_load (h : Heap) (cfg : IConfig) (this ld : Ptr) (s s' : IState)
  (i j : Inst) (o : Operand) (v : Value) (t : ValueType) (w addr n x : Z) :
  scalar_type t w -> i_ret j = t -> h !! ld = Some j ->
  store_inst h this s i o v t addr n -> load_inst h ld s j o addr n ->
  (Z.to_nat (i_id j) * kSlotStride < length (s_stack s))%nat ->
  guest_fault cfg (Z.land addr (guest_addr_mask cfg)) n = false ->
  ReadScalar h v s = Ok (x, s) ->
  RunStoreMemory h cfg this s = Ok (tt, s') ->
  RunLoadMemory h cfg ld s' = Ok (tt, wrote j (wrap w x) s').
Proof.
  intros Ht Hret Hj Hst Hld Hslot Hnf Hx H.
  rewrite (RunStoreMemory_unfold _ _ _ _ _ _ _ _ _ _ Hst) in H. cbv zeta in H. rewrite Hnf in H.
  pose proof (st_size _ _ _ _ _ _ _ _ _ Hst) as Hn.
  destruct (scalar_size _ _ _ Ht Hn) as [Hw Hn8]. pose proof (size_pos _ _ Hn).
  apply (store_scalar_run _ _ _ _ _ _ _ _ _ Ht Hn Hx) in H.
  pose proof (mstore_keeps_rest _ _ _ _ _ H) as Hs'.
  assert (s_stack s = s_stack s') as Hstack by (by rewrite Hs').
  apply (load_inst_state _ _ _ s' _ _ _ _ Hstack) in Hld.
  rewrite (RunLoadMemory_unfold _ _ _ _ _ _ _ _ Hld). cbv zeta. rewrite Hnf.
  apply mstore_mload in H; [|lia]. unfold load_typed. rewrite Hret. mstep.
  destruct (Ht) as (_ & -> & _). unfold copy_in. rewrite (proj2 (Z.leb_le _ _) Hn8).
  erewrite bind_run; [|erewrite bind_run by reflexivity; exact H].
  rewrite (WriteScalar_run h ld j w s' Hj); [|by rewrite Hret|by rewrite <- Hstack].
  do 3 f_equal. rewrite Hw, Z2Nat.id by lia. by rewrite wrap_idemp by lia.
Qed.

Lemma store_then_load_witness :
  exists s', RunStoreMemory (sample_mem_heap 0x1008 0x11223344) sample_config 5%positive
    (sample_state 0x1008 0x11223344 0) = Ok (tt, s') /\
  RunLoadMemory (sample_mem_heap 0x1008 0x11223344) sample_config 6%positive s'
  = Ok (tt, wrote sample_load 0x11223344 s').
Proof.
  destruct (RunStoreMemory (sample_mem_heap 0x1008 0x11223344) sample_config 5%positive
    (sample_state 0x1008 0x11223344 0)) as [[[] s']|e] eqn:H; [|vm_compute in H; discriminate H].
  exists s'. split; [reflexivity|].
  apply (store_then_load (sample_mem_heap 0x1008 0x11223344) sample_config 5%positive 6%positive
    (sample_state 0x1008 0x11223344 0) s' sample_store sample_load
    (Operand_value (Value_of 1%positive)) (Value_of 2%positive) ValueType_U32 32 0x1008 4
    0x11223344).
  - repeat split; discriminate.
  - reflexivity.
  - reflexivity.
  - apply sample_store_inst.
  - split; reflexivity.
  - vm_compute. lia.
  - reflexivity.
  - reflexivity.
  - exact H.
Defined.
