(* ===== verification/VectorProps.v ===== *)
(** * Correctness of the vector and AES instructions

    Lane semantics of the folds in [InterpVector]: every lane of a result is
    the scalar operation on the corresponding lanes of the operands, the
    interleaving instructions permute lanes, and saturation is clamping.  The AES S-box is a
    permutation of the bytes, MixColumns is inverted by its inverse matrix, and the decryption
    rounds undo the encryption rounds. *)

From Stdlib Require Import ZArith Lia Btauto.
From stdpp Require Import numbers base gmap list.
From S2P Require Import Prelude MachineInt IRTypes Instr InterpCore InterpFlags InterpScalar InterpVector InterpInvariant FlagProps.
From S2P Require Import ScalarProps.

Local Open Scope Z_scope.
Local Open Scope svm_scope.

(** Lane [k] of width [w]. *)
Definition lane (w k x : Z) : Z := wrap w (Z.shiftr x (k * w)).

Lemma lane_range w k x : 0 <= w -> 0 <= lane w k x < 2 ^ w.
Proof. intros. by apply wrap_range. Qed.

Lemma testbit_lane w k x b :
  0 <= w -> 0 <= k -> 0 <= b -> Z.testbit (lane w k x) b = (b <? w) && Z.testbit x (b + k * w).
Proof.
  intros. unfold lane. rewrite testbit_wrap by lia. destruct (Z.ltb_spec b w); [|done].
  by rewrite Z.shiftr_spec by lia.
Qed.

(** Vectors with equal lanes are equal. *)
Lemma lanes_ext w n x y :
  0 < w -> 0 <= n -> 0 <= x < 2 ^ (n * w) -> 0 <= y < 2 ^ (n * w) ->
  (forall k, 0 <= k < n -> lane w k x = lane w k y) -> x = y.
Proof.
  intros Hw Hn Hx Hy H. apply (bits_bounded_ext (n * w)); [nia|done..|]. intros b Hb.
  pose proof (Z.div_mod b w ltac:(lia)). pose proof (Z.mod_pos_bound b w ltac:(lia)).
  assert (0 <= b / w < n) by (split; [apply Z.div_pos; lia|apply Z.div_lt_upper_bound; lia]).
  specialize (H (b / w) ltac:(lia)). apply (f_equal (fun v => Z.testbit v (b mod w))) in H.
  rewrite !testbit_lane in H by lia. destruct (Z.ltb_spec (b mod w) w); [|lia].
  by replace (b mod w + b / w * w) with b in H by lia.
Qed.

(** ** Folds of [result |= ...] *)

(** The bits of an or-fold, from the bits each iteration adds. *)
Lemma foldl_or_bits (body : Z -> Z -> Z) (c : Z -> bool) (l : list Z) init b :
  (forall acc i, i ∈ l -> Z.testbit (body acc i) b = Z.testbit acc b || c i) ->
  Z.testbit (foldl body init l) b = Z.testbit init b || existsb c l.
Proof.
  revert init. induction l as [|i l IH]; intros init H; simpl; [by rewrite orb_false_r|].
  rewrite IH by (intros; apply H; by right). rewrite H by left. by rewrite orb_assoc.
Qed.

Lemma existsb_unique (c : Z -> bool) n k :
  0 <= k < n -> (forall i, 0 <= i < n -> i <> k -> c i = false) -> existsb c (seqZ 0 n) = c k.
Proof.
  intros Hk H. destruct (c k) eqn:E.
  - apply existsb_exists. exists k. split; [|done]. apply list_elem_of_In, elem_of_seqZ. lia.
  - apply not_true_iff_false. rewrite existsb_exists. intros (i & Hi & Hc).
    apply list_elem_of_In, elem_of_seqZ in Hi.
    destruct (decide (i = k)) as [-> |]; [congruence|]. rewrite H in Hc by lia. done.
Qed.

Lemma existsb_none (c : Z -> bool) n :
  (forall i, 0 <= i < n -> c i = false) -> existsb c (seqZ 0 n) = false.
Proof.
  intros H. apply not_true_iff_false. rewrite existsb_exists. intros (i & Hi & Hc).
  apply list_elem_of_In, elem_of_seqZ in Hi. rewrite H in Hc by lia. done.
Qed.

Lemma testbit_shl128 x n b :
  0 <= n -> 0 <= b -> Z.testbit (shl128 x n) b = (b <? 128) && Z.testbit x (b - n).
Proof. intros. unfold shl128. by rewrite testbit_wrap, Z.shiftl_spec by lia. Qed.

(** A value placed in lane [i] contributes to no other lane. *)
Lemma placed_bit w i k b x :
  0 < w -> 0 <= i -> 0 <= k -> 0 <= b < w -> 0 <= x < 2 ^ w -> k * w + w <= 128 ->
  Z.testbit (shl128 x (i * w)) (b + k * w) = bool_decide (i = k) && Z.testbit x b.
Proof.
  intros Hw Hi Hk Hb Hx Hle. rewrite testbit_shl128 by nia.
  destruct (Z.ltb_spec (b + k * w) 128); [|nia]. simpl.
  destruct (bool_decide_reflect (i = k)) as [-> |Hne]; [by replace (b + k * w - k * w) with b by lia|].
  destruct (decide (i < k)).
  - rewrite (testbit_above w x) by nia. done.
  - by rewrite Z.testbit_neg_r by nia.
Qed.

(** An or-fold that places [g i] in lane [i] has [g k] in lane [k]. *)
Lemma fold_lanes w n g k :
  0 < w -> 0 <= n -> n * w <= 128 -> 0 <= k < n -> (forall i, 0 <= i < n -> 0 <= g i < 2 ^ w) ->
  lane w k (for_u32 n (fun acc i => Z.lor acc (shl128 (g i) (i * w))) 0) = g k.
Proof.
  intros Hw Hn Hle Hk Hg.
  apply (bits_bounded_ext w); [lia|apply lane_range; lia|by apply Hg|]. intros b Hb.
  rewrite testbit_lane by lia. destruct (Z.ltb_spec b w); [|lia]. simpl. unfold for_u32.
  rewrite (foldl_or_bits _ (fun i => Z.testbit (shl128 (g i) (i * w)) (b + k * w)))
    by (intros; by rewrite Z.lor_spec).
  rewrite Z.bits_0. simpl. rewrite (existsb_unique _ n k).
  - rewrite placed_bit by (try lia; try nia; by apply Hg). by rewrite bool_decide_true.
  - done.
  - intros i Hi Hne. rewrite placed_bit by (try lia; try nia; by apply Hg).
    by rewrite bool_decide_false.
Qed.

(** Or-folds of 128-bit contributions stay 128-bit values. *)
Lemma fold_vec (body : Z -> Z -> Z) l init :
  is_vec init -> (forall acc i, i ∈ l -> is_vec acc -> is_vec (body acc i)) ->
  is_vec (foldl body init l).
Proof.
  revert init. induction l as [|i l IH]; intros init Hi H; simpl; [done|].
  apply IH; [apply H; [left|done]|]. intros. apply H; [by right|done].
Qed.

Lemma is_vec_lor x y : is_vec x -> is_vec y -> is_vec (Z.lor x y).
Proof. apply lor_range. lia. Qed.

Lemma is_vec_shl128 x n : is_vec (shl128 x n).
Proof. apply wrap_range. lia. Qed.
#[export] Hint Resolve is_vec_lor is_vec_shl128 : word.

Lemma is_vec_0 : is_vec 0.
Proof. vm_compute. split; congruence. Qed.
#[export] Hint Resolve is_vec_0 : word.

(** Reading a lane through [u64_at] and the lane mask. *)
Lemma masked_lane x bit w : 0 <= w <= 64 -> Z.land (u64_at x bit) (MaskBits w) = wrap w (Z.shiftr x bit).
Proof. intros. unfold u64_at. by rewrite land_MaskBits, wrap_wrap by lia. Qed.

Lemma lane_bits_cases w : lane_bits_ok w = true -> w = 8 \/ w = 16 \/ w = 32 \/ w = 64.
Proof. unfold lane_bits_ok. rewrite !orb_true_iff, !Z.eqb_eq. tauto. Qed.

(** Lane [k] of [VecLaneBinary]. *)
Lemma lane_binary_spec (a b w : Z) (op : Z -> Z -> Z) :
  lane_bits_ok w = true ->
  exists v, VecLaneBinary a b w op = Ok v /\ is_vec v
    /\ forall k, 0 <= k < 128 / w -> lane w k v = wrap w (op (lane w k a) (lane w k b)).
Proof.
  intros Hw. unfold VecLaneBinary. rewrite Hw. apply lane_bits_cases in Hw.
  assert (128 / w * w <= 128 /\ 0 < w <= 64) as [Hle Hw64].
  { destruct Hw as [-> | [-> | [-> | ->]]]; (split; [vm_compute; congruence|lia]). }
  eexists. split; [done|]. split.
  - apply fold_vec; [apply is_vec_0|]. intros. auto with word.
  - intros k Hk. unfold vec_lanes.
    rewrite (fold_lanes w (128 / w) (fun lane =>
      Z.land (op (Z.land (u64_at a (lane * w)) (MaskBits w))
                 (Z.land (u64_at b (lane * w)) (MaskBits w))) (MaskBits w))); try lia.
    + by rewrite !masked_lane, land_MaskBits by lia.
    + intros i Hi. rewrite land_MaskBits by lia. apply wrap_range. lia.
Qed.

(** Lane-wise instructions act lane by lane: for every lane width the
    interpreter accepts, [VecLaneBinary] returns a 128-bit value whose lane [k]
    is the operation on lanes [k] of the operands, truncated to the lane. *)
Theorem VecLaneBinary_lanes (a b w : Z) (op : Z -> Z -> Z) :
  lane_bits_ok w = true ->
  exists v, VecLaneBinary a b w op = Ok v /\ is_vec v
    /\ forall k, 0 <= k < 128 / w -> lane w k v = wrap w (op (lane w k a) (lane w k b)).
Proof. apply lane_binary_spec. Qed.

Lemma VecLaneBinary_lanes_witness :
  exists v, VecLaneBinary 0x01ff 0x0101 8 add64 = Ok v /\ is_vec v
    /\ forall k, 0 <= k < 16 -> lane 8 k v = wrap 8 (add64 (lane 8 k 0x01ff) (lane 8 k 0x0101)).
Proof. apply (VecLaneBinary_lanes 0x01ff 0x0101 8 add64). reflexivity. Defined.

(** ** Interleaving *)

(** An or-fold that places two values per iteration, [g i] in lane [p i] and
    [g' i] in lane [q i], all lanes distinct. *)
Lemma fold_lanes2 w n (g g' p q : Z -> Z) i0 :
  0 < w -> 0 <= i0 < n -> (forall i, 0 <= i < n -> 0 <= g i < 2 ^ w /\ 0 <= g' i < 2 ^ w) ->
  (forall i, 0 <= i < n -> 0 <= p i /\ 0 <= q i /\ p i * w + w <= 128 /\ q i * w + w <= 128) ->
  (forall i j, 0 <= i < n -> 0 <= j < n -> p i <> q j /\ (p i = p j \/ q i = q j -> i = j)) ->
  let v := for_u32 n (fun acc i =>
    Z.lor (Z.lor acc (shl128 (g i) (p i * w))) (shl128 (g' i) (q i * w))) 0 in
  lane w (p i0) v = g i0 /\ lane w (q i0) v = g' i0.
Proof.
  intros Hw Hi0 Hg Hpq Hinj v.
  destruct (Hpq i0 Hi0) as (Hp0 & Hq0 & Hp1 & Hq1). destruct (Hg i0 Hi0) as [Hg0 Hg0'].
  assert (forall k b, 0 <= k -> k * w + w <= 128 -> 0 <= b < w -> Z.testbit v (b + k * w) =
    existsb (fun i => bool_decide (p i = k) && Z.testbit (g i) b
                      || bool_decide (q i = k) && Z.testbit (g' i) b) (seqZ 0 n)) as Hv.
  { intros k b Hk Hkw Hb. unfold v, for_u32.
    rewrite (foldl_or_bits _ (fun i => bool_decide (p i = k) && Z.testbit (g i) b
                      || bool_decide (q i = k) && Z.testbit (g' i) b)); [by rewrite Z.bits_0|].
    intros acc i Hi. apply elem_of_seqZ in Hi.
    destruct (Hpq i ltac:(lia)) as (? & ? & ? & ?). destruct (Hg i ltac:(lia)) as [? ?].
    rewrite !Z.lor_spec, !placed_bit by lia. by rewrite orb_assoc. }
  split; apply (bits_bounded_ext w); try (apply lane_range; lia); try lia; intros b Hb;
    rewrite testbit_lane by lia; destruct (Z.ltb_spec b w); try lia; rewrite andb_true_l, Hv by lia;
    rewrite (existsb_unique _ n i0); try lia.
  - rewrite bool_decide_true by done. rewrite (bool_decide_false (q i0 = p i0)).
    + by rewrite andb_true_l, andb_false_l, orb_false_r.
    + intros E. by apply (proj1 (Hinj i0 i0 Hi0 Hi0)).
  - intros i Hi Hne. rewrite !bool_decide_false; [done|intros E..].
    + by apply (proj1 (Hinj i0 i Hi0 Hi)).
    + apply Hne, (Hinj i i0 Hi Hi0). by left.
  - rewrite (bool_decide_true (q i0 = q i0)) by done. rewrite bool_decide_false.
    + done.
    + by apply (proj1 (Hinj i0 i0 Hi0 Hi0)).
  - intros i Hi Hne. rewrite !bool_decide_false; [done|intros E..].
    + apply Hne, (Hinj i i0 Hi Hi0). by right.
    + by apply (proj1 (Hinj i i0 Hi Hi0)).
Qed.

Lemma half_lanes w : lane_bits_ok w = true -> 64 / w * w = 64 /\ 0 < w <= 64 /\ 0 < 64 / w.
Proof.
  intros Hw. apply lane_bits_cases in Hw.
  destruct Hw as [-> | [-> | [-> | ->]]]; (split; [reflexivity|split; [lia|reflexivity]]).
Qed.

Lemma vec_zip_lanes w high l r k :
  lane_bits_ok w = true -> 0 <= k < 64 / w ->
  let base := if high : bool then 64 / w else 0 in
  lane w (2 * k) (vec_zip w high l r) = lane w (base + k) l
  /\ lane w (2 * k + 1) (vec_zip w high l r) = lane w (base + k) r.
Proof.
  intros Hw Hk base. destruct (half_lanes w Hw) as (Hh & Hw64 & Hpos).
  pose proof (fold_lanes2 w (64 / w)
    (fun lane => Z.land (u64_at l ((base + lane) * w)) (MaskBits w))
    (fun lane => Z.land (u64_at r ((base + lane) * w)) (MaskBits w))
    (fun i => i * 2) (fun i => i * 2 + 1) k) as H.
  cbv beta zeta in H. rewrite !masked_lane in H by lia. rewrite (Z.mul_comm 2 k). apply H; try lia; clear H.
  - intros i Hi. rewrite !masked_lane by lia. split; apply wrap_range; lia.
  - intros i Hi. repeat split; nia.
Qed.

Lemma vec_unzip_lanes w odd l r k :
  lane_bits_ok w = true -> 0 <= k < 64 / w ->
  let first := if odd : bool then 1 else 0 in
  lane w k (vec_unzip w odd l r) = lane w (2 * k + first) l
  /\ lane w (64 / w + k) (vec_unzip w odd l r) = lane w (2 * k + first) r.
Proof.
  intros Hw Hk first. destruct (half_lanes w Hw) as (Hh & Hw64 & Hpos).
  pose proof (fold_lanes2 w (64 / w)
    (fun lane => Z.land (u64_at l ((lane * 2 + first) * w)) (MaskBits w))
    (fun lane => Z.land (u64_at r ((lane * 2 + first) * w)) (MaskBits w))
    (fun i => i) (fun i => 64 / w + i) k) as H.
  cbv beta zeta in H. rewrite !masked_lane in H by lia. rewrite (Z.mul_comm 2 k). apply H; try lia; clear H.
  - intros i Hi. rewrite !masked_lane by lia. split; apply wrap_range; lia.
  - intros i Hi. repeat split; nia.
Qed.

Lemma is_vec_unzip w odd l r : is_vec (vec_unzip w odd l r).
Proof. apply fold_vec; [apply is_vec_0|]. intros. auto with word. Qed.

(** [VecUnzip] is the inverse of [VecZip]: de-interleaving the low and high
    interleavings of two vectors gives back the first vector from the even
    lanes and the second from the odd lanes, at every lane width. *)
Theorem unzip_zip (w l r : Z) :
  lane_bits_ok w = true -> is_vec l -> is_vec r ->
  vec_unzip w false (vec_zip w false l r) (vec_zip w true l r) = l
  /\ vec_unzip w true (vec_zip w false l r) (vec_zip w true l r) = r.
Proof.
  intros Hw Hl Hr. destruct (half_lanes w Hw) as (Hh & Hw64 & Hpos).
  assert (2 ^ (2 * (64 / w) * w) = 2 ^ 128) as Hp by (f_equal; lia).
  pose proof (is_vec_unzip w) as Hu. unfold is_vec in *.
  split; apply (lanes_ext w (2 * (64 / w))); rewrite ?Hp; try lia; try apply Hu; intros k Hk.
  all: destruct (decide (k < 64 / w)) as [Hlt|Hge];
    [|replace k with (64 / w + (k - 64 / w)) by lia; set (j := k - 64 / w)].
  - rewrite (proj1 (vec_unzip_lanes w false _ _ k Hw ltac:(lia))). rewrite Z.add_0_r.
    by rewrite (proj1 (vec_zip_lanes w false _ _ k Hw ltac:(lia))).
  - rewrite (proj2 (vec_unzip_lanes w false _ _ j Hw ltac:(lia))). rewrite Z.add_0_r.
    by rewrite (proj1 (vec_zip_lanes w true _ _ j Hw ltac:(lia))).
  - rewrite (proj1 (vec_unzip_lanes w true _ _ k Hw ltac:(lia))).
    by rewrite (proj2 (vec_zip_lanes w false _ _ k Hw ltac:(lia))).
  - rewrite (proj2 (vec_unzip_lanes w true _ _ j Hw ltac:(lia))).
    by rewrite (proj2 (vec_zip_lanes w true _ _ j Hw ltac:(lia))).
Qed.

Lemma unzip_zip_witness :
  vec_unzip 16 false (vec_zip 16 false 0x1234567890 0xabcdef) (vec_zip 16 true 0x1234567890 0xabcdef)
    = 0x1234567890
  /\ vec_unzip 16 true (vec_zip 16 false 0x1234567890 0xabcdef)
       (vec_zip 16 true 0x1234567890 0xabcdef) = 0xabcdef.
Proof. apply (unzip_zip 16 0x1234567890 0xabcdef); vm_compute; try split; congruence. Defined.

(** ** Saturation *)

Lemma SignedLane_spec v w : 0 < w <= 64 -> 0 <= v < 2 ^ w -> SignedLane v w = to_signed w v.
Proof.
  intros Hw Hv. rewrite <- (signed_of_SignExtendTo v w Hw Hv). unfold SignedLane, SignExtendTo.
  destruct (Z.eqb_spec w 64) as [-> |]; [done|]. by destruct (Z.leb_spec 64 w); [lia|].
Qed.

Lemma clamp_range x lo hi : lo <= hi -> lo <= clamp x lo hi <= hi.
Proof. intros. unfold clamp. destruct (Z.ltb_spec x lo), (Z.ltb_spec hi x); lia. Qed.

(** The encoding of a clamped value in a [w]-bit lane. *)
Lemma encode_clamped w c :
  0 < w <= 32 -> - 2 ^ (w - 1) <= c <= 2 ^ (w - 1) - 1 ->
  to_signed w (Z.land (wrap 64 c) (2 ^ w - 1)) = c.
Proof.
  intros Hw Hc. replace (2 ^ w - 1) with (Z.ones w) by (rewrite Z.ones_equiv; lia).
  rewrite wrap_land_ones, !to_signed_wrap by lia.
  apply to_signed_small; lia.
Qed.

(** [VecSatAdd] and [VecSatSub] saturate: each lane of the result is the
    exact sum or difference of the operand lanes clamped to the range of the
    signed lane, or for unsigned lanes to [0, 2^w). *)
Theorem saturating_lanes (a b w : Z) :
  w = 8 \/ w = 16 \/ w = 32 ->
  exists sa ss ua us,
    VecLaneBinary a b w (lane_sat_add w true) = Ok sa
    /\ VecLaneBinary a b w (lane_sat_sub w true) = Ok ss
    /\ VecLaneBinary a b w (lane_sat_add w false) = Ok ua
    /\ VecLaneBinary a b w (lane_sat_sub w false) = Ok us
    /\ forall k, 0 <= k < 128 / w ->
         let x := lane w k a in let y := lane w k b in
         to_signed w (lane w k sa)
           = clamp (to_signed w x + to_signed w y) (- 2 ^ (w - 1)) (2 ^ (w - 1) - 1)
         /\ to_signed w (lane w k ss)
           = clamp (to_signed w x - to_signed w y) (- 2 ^ (w - 1)) (2 ^ (w - 1) - 1)
         /\ lane w k ua = Z.min (x + y) (2 ^ w - 1)
         /\ lane w k us = Z.max 0 (x - y).
Proof.
  intros Hw. assert (lane_bits_ok w = true) as Hok by (destruct Hw as [-> | [-> | ->]]; done).
  assert (0 < w <= 32) as Hw32 by lia.
  assert (0 < 2 ^ (w - 1)) as Hp by (apply pow2_pos; lia).
  assert (2 ^ w <= 2 ^ 32) as Hp32 by (apply Z.pow_le_mono_r; lia).
  destruct (lane_binary_spec a b w (lane_sat_add w true) Hok) as (sa & E1 & _ & H1).
  destruct (lane_binary_spec a b w (lane_sat_sub w true) Hok) as (ss & E2 & _ & H2).
  destruct (lane_binary_spec a b w (lane_sat_add w false) Hok) as (ua & E3 & _ & H3).
  destruct (lane_binary_spec a b w (lane_sat_sub w false) Hok) as (us & E4 & _ & H4).
  exists sa, ss, ua, us. do 4 (split; [done|]). intros k Hk x y.
  pose proof (lane_range w k a ltac:(lia)) as Hx. pose proof (lane_range w k b ltac:(lia)) as Hy.
  fold x in Hx. fold y in Hy.
  rewrite (H1 k Hk), (H2 k Hk), (H3 k Hk), (H4 k Hk). fold x y. rewrite !to_signed_wrap by lia.
  unfold lane_sat_add, lane_sat_sub. simpl negb. cbv iota zeta.
  rewrite !(SignedLane_spec x), !(SignedLane_spec y) by lia.
  rewrite !encode_clamped by (try lia; apply clamp_range; lia).
  unfold add64, sub64. rewrite (wrap_small 64 (x + y)) by lia. split_and!; try done.
  - apply wrap_small. lia.
  - destruct (Z.ltb_spec x y); rewrite ?(wrap_small 64), wrap_small by lia; lia.
Qed.

Lemma saturating_lanes_witness :
  exists sa ss ua us,
    VecLaneBinary 0x7f80 0x01ff 8 (lane_sat_add 8 true) = Ok sa
    /\ VecLaneBinary 0x7f80 0x01ff 8 (lane_sat_sub 8 true) = Ok ss
    /\ VecLaneBinary 0x7f80 0x01ff 8 (lane_sat_add 8 false) = Ok ua
    /\ VecLaneBinary 0x7f80 0x01ff 8 (lane_sat_sub 8 false) = Ok us
    /\ forall k, 0 <= k < 16 ->
         let x := lane 8 k 0x7f80 in let y := lane 8 k 0x01ff in
         to_signed 8 (lane 8 k sa) = clamp (to_signed 8 x + to_signed 8 y) (-128) 127
         /\ to_signed 8 (lane 8 k ss) = clamp (to_signed 8 x - to_signed 8 y) (-128) 127
         /\ lane 8 k ua = Z.min (x + y) 255
         /\ lane 8 k us = Z.max 0 (x - y).
Proof. apply (saturating_lanes 0x7f80 0x01ff 8). left. reflexivity. Defined.

(** ** AES *)

(** Properties of all bytes are checked by evaluation. *)
Lemma forall_bytes (P : Z -> bool) :
  forallb P (seqZ 0 256) = true -> forall b, is_byte b -> P b = true.
Proof.
  intros H b Hb. rewrite forallb_forall in H. apply H, list_elem_of_In, elem_of_seqZ.
  unfold is_byte in Hb. lia.
Qed.

Ltac all_bytes P := let H := fresh in pose proof (forall_bytes P) as H; apply H; [vm_compute; reflexivity|].

Lemma sbox_byte b : is_byte b -> is_byte (AesSbox b).
Proof. intros _. apply (wrap_range 8). lia. Qed.

(** The inverse permutation, as a table. *)
Definition inv_sbox_table : list Z :=
  [82; 9; 106; 213; 48; 54; 165; 56; 191; 64; 163; 158; 129; 243; 215; 251;
   124; 227; 57; 130; 155; 47; 255; 135; 52; 142; 67; 68; 196; 222; 233; 203;
   84; 123; 148; 50; 166; 194; 35; 61; 238; 76; 149; 11; 66; 250; 195; 78;
   8; 46; 161; 102; 40; 217; 36; 178; 118; 91; 162; 73; 109; 139; 209; 37;
   114; 248; 246; 100; 134; 104; 152; 22; 212; 164; 92; 204; 93; 101; 182; 146;
   108; 112; 72; 80; 253; 237; 185; 218; 94; 21; 70; 87; 167; 141; 157; 132;
   144; 216; 171; 0; 140; 188; 211; 10; 247; 228; 88; 5; 184; 179; 69; 6;
   208; 44; 30; 143; 202; 63; 15; 2; 193; 175; 189; 3; 1; 19; 138; 107;
   58; 145; 17; 65; 79; 103; 220; 234; 151; 242; 207; 206; 240; 180; 230; 115;
   150; 172; 116; 34; 231; 173; 53; 133; 226; 249; 55; 232; 28; 117; 223; 110;
   71; 241; 26; 113; 29; 41; 197; 137; 111; 183; 98; 14; 170; 24; 190; 27;
   252; 86; 62; 75; 198; 210; 121; 32; 154; 219; 192; 254; 120; 205; 90; 244;
   31; 221; 168; 51; 136; 7; 199; 49; 177; 18; 16; 89; 39; 128; 236; 95;
   96; 81; 127; 169; 25; 181; 74; 13; 45; 229; 122; 159; 147; 201; 156; 239;
   160; 224; 59; 77; 174; 42; 245; 176; 200; 235; 187; 60; 131; 83; 153; 97;
   23; 43; 4; 126; 186; 119; 214; 38; 225; 105; 20; 99; 85; 33; 12; 125].

Lemma sbox_left_inverse b : is_byte b -> nth (Z.to_nat (AesSbox b)) inv_sbox_table 0 = b.
Proof.
  intros Hb. apply Z.eqb_eq.
  apply (forall_bytes (fun b => nth (Z.to_nat (AesSbox b)) inv_sbox_table 0 =? b)); [|done].
  vm_compute. reflexivity.
Qed.

Lemma sbox_inj a b : is_byte a -> is_byte b -> AesSbox a = AesSbox b -> a = b.
Proof.
  intros Ha Hb E. rewrite <- (sbox_left_inverse a Ha), <- (sbox_left_inverse b Hb). by rewrite E.
Qed.

Lemma inv_sbox_from_first l v b :
  b ∈ l -> AesSbox b = v -> (forall c, c ∈ l -> AesSbox c = v -> c = b) ->
  inv_sbox_from l v = Ok b.
Proof.
  intros Hin Hv Huniq. induction l as [|c l IH]; [by apply not_elem_of_nil in Hin|]. simpl.
  destruct (Z.eqb_spec (AesSbox c) v) as [E|E].
  - f_equal. apply Huniq; [left|done].
  - apply IH; [|intros; apply Huniq; [by right|done]].
    apply elem_of_cons in Hin as [-> |]; [done|done].
Qed.

Lemma inv_sbox_sbox b : is_byte b -> AesInvSbox (AesSbox b) = Ok b.
Proof.
  intros Hb. assert (forall c, c ∈ seqZ 0 256 <-> is_byte c) as Hs.
  { intros c. rewrite elem_of_seqZ. unfold is_byte. lia. }
  apply inv_sbox_from_first; [by apply Hs|done|]. intros c Hc. apply sbox_inj; [by apply Hs|done].
Qed.

(** ** MixColumns *)

(** [gf_double] is multiplication by x; the constants of the matrices are
    polynomials in it, and it is linear. *)
Lemma gf_double_bits a : gf_double a = Z.lxor (wrap 8 (Z.shiftl a 1)) (if Z.testbit a 7 then 27 else 0).
Proof.
  unfold gf_double. change 128 with (2 ^ 7). rewrite land_pow2 by lia.
  destruct (Z.testbit a 7); simpl; [done|by rewrite Z.lxor_0_r].
Qed.

Lemma wrap_lxor w a b : 0 <= w -> wrap w (Z.lxor a b) = Z.lxor (wrap w a) (wrap w b).
Proof.
  intros Hw. apply Z.bits_inj'. intros k Hk. rewrite Z.lxor_spec, !testbit_wrap, Z.lxor_spec by lia.
  by destruct (k <? w).
Qed.

Lemma gf_double_lxor a b : gf_double (Z.lxor a b) = Z.lxor (gf_double a) (gf_double b).
Proof.
  rewrite !gf_double_bits, Z.shiftl_lxor, wrap_lxor, Z.lxor_spec by lia.
  apply Z.bits_inj'. intros k Hk. rewrite !Z.lxor_spec.
  destruct (Z.testbit a 7), (Z.testbit b 7); simpl; rewrite ?Z.bits_0; btauto.
Qed.

Lemma GfMul_constants a :
  GfMul a 2 = gf_double a
  /\ GfMul a 3 = Z.lxor a (gf_double a)
  /\ GfMul a 9 = Z.lxor a (gf_double (gf_double (gf_double a)))
  /\ GfMul a 11 = Z.lxor (Z.lxor a (gf_double a)) (gf_double (gf_double (gf_double a)))
  /\ GfMul a 13 = Z.lxor (Z.lxor a (gf_double (gf_double a))) (gf_double (gf_double (gf_double a)))
  /\ GfMul a 14 = Z.lxor (Z.lxor (gf_double a) (gf_double (gf_double a)))
                         (gf_double (gf_double (gf_double a))).
Proof. done. Qed.

Lemma mix_column_inverse a0 a1 a2 a3 :
  match mix_column false a0 a1 a2 a3 with
  | [b0; b1; b2; b3] => mix_column true b0 b1 b2 b3 = [a0; a1; a2; a3]
  | _ => False
  end.
Proof.
  unfold mix_column.
  destruct (GfMul_constants a0) as (E2 & E3 & _). rewrite E2, E3. clear E2 E3.
  destruct (GfMul_constants a1) as (E2 & E3 & _). rewrite E2, E3. clear E2 E3.
  destruct (GfMul_constants a2) as (E2 & E3 & _). rewrite E2, E3. clear E2 E3.
  destruct (GfMul_constants a3) as (E2 & E3 & _). rewrite E2, E3. clear E2 E3.
  repeat match goal with
  | |- context [GfMul ?x 9] =>
      destruct (GfMul_constants x) as (_ & _ & -> & -> & -> & ->)
  end.
  rewrite !gf_double_lxor.
  f_equal; [|f_equal; [|f_equal; [|f_equal]]]; apply Z.bits_inj'; intros k Hk;
    rewrite !Z.lxor_spec; btauto.
Qed.

(** ** Blocks *)

Definition is_block (l : list Z) : Prop := length l = 16%nat /\ Forall is_byte l.

Lemma ToAesBlock_block x : is_block (ToAesBlock x).
Proof. split; [apply length_le_bytes|apply le_bytes_Forall]. Qed.

Lemma To_From l : is_block l -> ToAesBlock (FromAesBlock l) = l.
Proof.
  intros [Hl Hb]. unfold ToAesBlock, FromAesBlock. rewrite <- Hl. by apply le_bytes_le_value.
Qed.

Lemma From_To x : is_vec x -> FromAesBlock (ToAesBlock x) = x.
Proof.
  intros Hx. unfold FromAesBlock, ToAesBlock. rewrite le_value_le_bytes. by apply wrap_small.
Qed.

Lemma le_bytes_lxor n x y : le_bytes n (Z.lxor x y) = zip_with Z.lxor (le_bytes n x) (le_bytes n y).
Proof.
  revert x y. induction n as [|n IH]; intros x y; simpl; [done|].
  by rewrite wrap_lxor, Z.shiftr_lxor, IH by lia.
Qed.

Lemma block_explicit (l : list Z) :
  length l = 16%nat -> exists a b c d e f g h i j k m n o p q,
    l = [a; b; c; d; e; f; g; h; i; j; k; m; n; o; p; q].
Proof.
  intros H. do 16 (destruct l as [|? l]; [discriminate H|]). destruct l; [|discriminate H].
  by repeat eexists.
Qed.

Ltac explicit H :=
  apply block_explicit in H as (?&?&?&?&?&?&?&?&?&?&?&?&?&?&?&?&->).

Lemma shift_rows_inverse l :
  length l = 16%nat -> AesShiftRows (AesShiftRows l false) true = l.
Proof. intros H. by explicit H. Qed.

Lemma shift_rows_map f l b :
  length l = 16%nat -> AesShiftRows (map f l) b = map f (AesShiftRows l b).
Proof. intros H. explicit H. by destruct b. Qed.

Lemma length_shift_rows l b : length (AesShiftRows l b) = 16%nat.
Proof. by destruct b. Qed.

Lemma byte_at_byte l k : Forall is_byte l -> is_byte (byte_at l k).
Proof.
  intros H. unfold byte_at. destruct (nth_in_or_default k l 0) as [Hin| ->]; [|done].
  rewrite Forall_forall in H. by apply H, list_elem_of_In.
Qed.

Lemma shift_rows_bytes l b : Forall is_byte l -> Forall is_byte (AesShiftRows l b).
Proof. intros H. repeat constructor; by apply byte_at_byte. Qed.

Lemma byte_lxor a b : is_byte a -> is_byte b -> is_byte (Z.lxor a b).
Proof. apply (lxor_range 8). lia. Qed.

Lemma byte_gf_double a : is_byte (gf_double a).
Proof.
  rewrite gf_double_bits. apply byte_lxor; [apply (wrap_range 8); lia|].
  by destruct (Z.testbit a 7).
Qed.

Lemma mix_columns_block l : is_block l -> is_block (AesMixColumns l false).
Proof.
  intros [Hl Hb]. explicit Hl. split; [done|].
  assert (forall x, is_byte x -> is_byte (GfMul x 2) /\ is_byte (GfMul x 3)) as Hg.
  { intros z Hz. destruct (GfMul_constants z) as (-> & -> & _).
    split; [|apply byte_lxor; [done|]]; apply byte_gf_double. }
  do 16 (apply Forall_cons in Hb as [? Hb]).
  unfold AesMixColumns. cbn [map seq concat app byte_at nth Nat.mul Nat.add mix_column].
  do 16 (apply Forall_cons; split; [repeat apply byte_lxor; try done; by apply Hg|]).
  constructor.
Qed.

Lemma mix_columns_inverse l :
  length l = 16%nat -> AesMixColumns (AesMixColumns l false) true = l.
Proof.
  intros H. explicit H. unfold AesMixColumns at 2.
  cbn [map seq concat app byte_at nth Nat.mul Nat.add mix_column].
  match goal with |- AesMixColumns ?l _ = [?a; ?b; ?c; ?d; ?e; ?f; ?g; ?h; ?i; ?j; ?k; ?m; ?n; ?o; ?p; ?q] =>
    pose proof (mix_column_inverse a b c d) as H1; pose proof (mix_column_inverse e f g h) as H2;
    pose proof (mix_column_inverse i j k m) as H3; pose proof (mix_column_inverse n o p q) as H4
  end.
  cbn [mix_column] in H1, H2, H3, H4. unfold AesMixColumns.
  cbn [map seq concat app byte_at nth Nat.mul Nat.add mix_column].
  injection H1 as -> -> -> ->. injection H2 as -> -> -> ->.
  injection H3 as -> -> -> ->. injection H4 as -> -> -> ->. done.
Qed.

Lemma map_res_inverse l :
  Forall is_byte l -> map_res AesInvSbox (map AesSbox l) = Ok l.
Proof.
  induction 1 as [|b l Hb _ IH]; simpl; [done|]. by rewrite inv_sbox_sbox, IH.
Qed.

Lemma xor_blocks_cancel a b :
  length a = length b -> xor_blocks (xor_blocks a b) b = a.
Proof.
  unfold xor_blocks. revert b. induction a as [|x a IH]; intros [|y b] H; try done. simpl.
  rewrite Z.lxor_assoc, Z.lxor_nilpotent, Z.lxor_0_r. f_equal. apply IH. by injection H.
Qed.

Lemma xor_blocks_zero a : length a = 16%nat -> xor_blocks a (ToAesBlock 0) = a.
Proof.
  intros H. explicit H. unfold xor_blocks, ToAesBlock. simpl. by rewrite !Z.lxor_0_r.
Qed.

Lemma xor_blocks_block a b : is_block a -> is_block b -> is_block (xor_blocks a b).
Proof.
  unfold is_block, xor_blocks. intros [Ha Hab] [Hb Hbb]. rewrite length_zip_with. split; [lia|].
  clear Ha Hb. revert b Hbb. induction Hab as [|x a Hx _ IH]; intros [|y b] Hb; simpl; try done.
  apply Forall_cons in Hb as [Hy Hb]. constructor; [by apply byte_lxor|by apply IH].
Qed.

(** Removing a round key that was just added. *)
Lemma remove_key data key :
  is_block data ->
  ToAesBlock (Z.lxor (FromAesBlock (xor_blocks data (ToAesBlock key))) key) = data.
Proof.
  intros Hd. pose proof (ToAesBlock_block key) as Hk. unfold ToAesBlock at 1.
  rewrite le_bytes_lxor. change (le_bytes 16 key) with (ToAesBlock key).
  change (le_bytes 16 (FromAesBlock ?x)) with (ToAesBlock (FromAesBlock x)).
  rewrite To_From by (by apply xor_blocks_block). apply xor_blocks_cancel.
  destruct Hd as [-> _], Hk as [-> _]. done.
Qed.

(** The state after SubBytes and ShiftRows, and its undoing. *)
Lemma sub_shift_block l : is_block l -> is_block (AesShiftRows (map AesSbox l) false).
Proof.
  intros [Hl Hb]. split; [apply length_shift_rows|]. apply shift_rows_bytes.
  apply Forall_map. eapply Forall_impl; [done|]. apply sbox_byte.
Qed.

Lemma undo_sub_shift l :
  is_block l -> exists m, map_res AesInvSbox (AesShiftRows (map AesSbox l) false) = Ok m
    /\ AesShiftRows m true = l.
Proof.
  intros [Hl Hb]. exists (AesShiftRows l false). rewrite shift_rows_map by done. split.
  - apply map_res_inverse. by apply shift_rows_bytes.
  - by apply shift_rows_inverse.
Qed.

Lemma dec_last_of_sub_shift x y :
  is_vec x -> ToAesBlock y = AesShiftRows (map AesSbox (ToAesBlock x)) false ->
  aes_dec_last y 0 = Ok x.
Proof.
  intros Hx Hy. destruct (undo_sub_shift _ (ToAesBlock_block x)) as (m & Hm & Hs).
  unfold aes_dec_last. rewrite Hy, Hm. cbn [rbind].
  rewrite Hs, xor_blocks_zero by (by destruct (ToAesBlock_block x)). by rewrite From_To.
Qed.

(** The AES rounds are inverse to each other.  Removing the round key from
    the result of [VecAesEncLast] and applying [VecAesDecLast] with a zero key
    gives back the block; for a full round, [VecAesEncLast] followed by
    [VecAesDec] with zero keys (which together are the inverse MixColumns)
    and then [VecAesDecLast] give back the block that [VecAesEnc] encrypted.  In
    particular the S-box search of the decryption never fails. *)
Theorem aes_rounds_inverse (x key : Z) :
  is_vec x ->
  aes_dec_last (Z.lxor (aes_enc_last x key) key) 0 = Ok x
  /\ exists z, aes_dec (aes_enc_last (Z.lxor (aes_enc x key) key) 0) 0 = Ok z
       /\ aes_dec_last z 0 = Ok x.
Proof.
  intros Hx. pose proof (ToAesBlock_block x) as HX. pose proof (sub_shift_block _ HX) as HD.
  split.
  - apply dec_last_of_sub_shift; [done|]. by apply remove_key.
  - set (E := AesMixColumns (AesShiftRows (map AesSbox (ToAesBlock x)) false) false).
    assert (is_block E) as HE by (by apply mix_columns_block).
    assert (ToAesBlock (Z.lxor (aes_enc x key) key) = E) as Hy by (by apply remove_key).
    destruct (undo_sub_shift _ HE) as (m & Hm & Hs).
    unfold aes_enc_last. rewrite Hy, xor_blocks_zero by apply length_shift_rows.
    unfold aes_dec. rewrite To_From by (by apply sub_shift_block). rewrite Hm. cbn [rbind].
    rewrite Hs. unfold E. rewrite mix_columns_inverse, xor_blocks_zero by apply HD.
    eexists. split; [done|]. apply dec_last_of_sub_shift; [done|]. by apply To_From.
Qed.

Lemma aes_rounds_inverse_witness :
  aes_dec_last (Z.lxor (aes_enc_last 0x00112233445566778899aabbccddeeff 0x0123456789abcdef)
                       0x0123456789abcdef) 0 = Ok 0x00112233445566778899aabbccddeeff
  /\ exists z, aes_dec (aes_enc_last
         (Z.lxor (aes_enc 0x00112233445566778899aabbccddeeff 0x0123456789abcdef)
                 0x0123456789abcdef) 0) 0 = Ok z
       /\ aes_dec_last z 0 = Ok 0x00112233445566778899aabbccddeeff.
Proof.
  apply (aes_rounds_inverse 0x00112233445566778899aabbccddeeff 0x0123456789abcdef).
  vm_compute. split; congruence.
Defined.
