(* ===== verification/DeadCode.v ===== *)
(** * Dead code elimination

    Model of runtime/ir/opts/deadcode_elimination_pass.cpp on a flat block
    ([hir_function == nullptr]): sweeps over the instruction list that unlink
    and delete every removable instruction, repeated until one changes nothing.
    The outer [while (changed)] takes fuel and returns [None] when it does not
    suffice. *)

From Stdlib Require Import ZArith Lia.
From stdpp Require Import numbers base gmap list.
From S2P Require Import Prelude MachineInt IRTypes Instr UseCount.

Local Open Scope Z_scope.
Local Open Scope svm_scope.

Definition Removable (i : Inst) : bool :=
  match i_op i with
  | OpCode_LoadMemory | OpCode_LoadMemoryTSO => false
  | _ => negb (HasSideEffects i)
  end.

(** One [for] sweep: the remaining list and [changed]. *)
Fixpoint dce_sweep (l : list Ptr) : ST Heap (list Ptr * bool) :=
  match l with
  | [] => ret ([], false)
  | p :: l' =>
      i <- heap_deref p;;
      if Removable i then
        Inst_delete p;;;
        r <- dce_sweep l';; ret (fst r, true)
      else
        r <- dce_sweep l';; ret (p :: fst r, snd r)
  end.

(** [DeadCodeEliminationPass::Run(Block*, nullptr)]. *)
Fixpoint dce_run (fuel : nat) (l : list Ptr) (h : Heap) : option (Res (list Ptr * Heap)) :=
  match fuel with
  | O => None
  | S f =>
      match dce_sweep l h with
      | Err e => Some (Err e)
      | Ok ((l', changed), h') => if changed then dce_run f l' h' else Some (Ok (l', h'))
      end
  end.

(** ** Shape of a sweep *)

Lemma dce_sweep_shape l h l' b h' :
  dce_sweep l h = Ok ((l', b), h') ->
  sublist l' l /\ (b = true -> (length l' < length l)%nat) /\ (b = false -> l' = l /\ h' = h)
  /\ (b = false -> Forall (fun p => exists i, h !! p = Some i /\ Removable i = false) l).
Proof.
  revert h l' b h'. induction l as [|p l IH]; intros h l' b h' H; simpl in H.
  { unfold ret in H. injection H as <- <- <-. split_and!; try done. }
  apply bind_ok in H as (i & s & Hi & H). apply heap_deref_inv in Hi as [-> Hi].
  destruct (Removable i) eqn:Er.
  - apply bind_ok in H as (u & s1 & _ & H). apply bind_ok in H as ([l1 b1] & s2 & H1 & H).
    unfold ret in H. injection H as <- <- <-.
    destruct (IH _ _ _ _ H1) as (Hs & Hl & Hf & _). simpl. apply sublist_length in Hs as Hlen.
    split_and!; [by apply sublist_cons|lia|done|done].
  - apply bind_ok in H as ([l1 b1] & s2 & H1 & H). unfold ret in H. injection H as <- <- <-.
    destruct (IH _ _ _ _ H1) as (Hs & Hl & Hf & Hn). simpl. split_and!.
    + by apply sublist_skip.
    + intros Hb. specialize (Hl Hb). lia.
    + intros Hb. by destruct (Hf Hb) as [-> ->].
    + intros Hb. constructor; [eauto|]. by apply Hn.
Qed.

(** Dead code elimination terminates: each sweep that changes the block
    shortens its instruction list, so one sweep more than the list is long
    always reaches the end of the [while (changed)] loop. *)
Theorem dce_terminates (l : list Ptr) (h : Heap) :
  exists r, forall fuel, (length l < fuel)%nat -> dce_run fuel l h = Some r.
Proof.
  remember (length l) as n eqn:Hn. revert l h Hn.
  induction n as [n IH] using lt_wf_ind. intros l h ->.
  destruct (dce_sweep l h) as [[[l' b] h']|e] eqn:E.
  - destruct (dce_sweep_shape _ _ _ _ _ E) as (_ & Hl & _). destruct b.
    + destruct (IH (length l') (Hl eq_refl) l' h' eq_refl) as [r Hr]. exists r.
      intros [|f] Hf; [lia|]. simpl. rewrite E. apply Hr. specialize (Hl eq_refl). lia.
    + exists (Ok (l', h')). intros [|f] Hf; [lia|]. simpl. by rewrite E.
  - exists (Err e). intros [|f] Hf; [lia|]. simpl. by rewrite E.
Qed.

Lemma dce_run_shape fuel l h l' h' :
  dce_run fuel l h = Some (Ok (l', h')) ->
  sublist l' l /\ Forall (fun p => exists i, h' !! p = Some i /\ Removable i = false) l'.
Proof.
  revert l h. induction fuel as [|f IH]; intros l h H; simpl in H; [done|].
  destruct (dce_sweep l h) as [[[l1 b] h1]|e] eqn:E; [|done].
  destruct (dce_sweep_shape _ _ _ _ _ E) as (Hs & _ & Hf & Hn). destruct b.
  - destruct (IH _ _ H) as [Hs' HF]. split; [by etrans|done].
  - injection H as <- <-. destruct (Hf eq_refl) as [-> ->]. split; [done|by apply Hn].
Qed.

(** ** What deletion touches

    Deleting an instruction changes only bookkeeping (use counts and chain
    links) of the others. *)
Definition code (i : Inst) := (i_op i, i_args i, i_id i, i_vir_reg i, i_ret i).

Definition same_code (p : Ptr) (h0 h : Heap) : Prop :=
  forall q, q <> p -> code <$> h !! q = code <$> h0 !! q.

Section SameCode.
Context (p : Ptr) (h0 : Heap).

Abbreviation frames m := (hoare (same_code p h0) m (fun _ => same_code p h0)).

Lemma frames_update q f :
  (forall i, code (f i) = code i) \/ q = p -> frames (heap_update q f).
Proof.
  intros Hf h u h' Hs H. apply heap_update_inv in H as (i & Hi & ->). intros r Hr.
  rewrite <- (Hs r Hr). destruct (decide (r = q)) as [-> |Hne].
  - rewrite lookup_insert_eq, Hi. simpl. destruct Hf as [Hf| ->]; [by rewrite Hf|done].
  - by rewrite lookup_insert_ne.
Qed.

Lemma frames_bind {A B} (m : ST Heap A) (f : A -> ST Heap B) :
  frames m -> (forall a, frames (f a)) -> frames (bind m f).
Proof. intros. by eapply hoare_bind. Qed.

Lemma frames_lift {A} (r : Res A) : frames (lift r).
Proof. intros h a h' H E. by apply lift_ok in E as [_ ->]. Qed.

Lemma frames_for_each {A} (f : A -> ST Heap unit) l :
  (forall x, frames (f x)) -> frames (for_each f l).
Proof. intros Hf. induction l; simpl; [apply hoare_ret'|by apply frames_bind]. Qed.

Lemma frames_UnUse q v : frames (Inst_UnUse q v).
Proof.
  unfold Inst_UnUse. apply frames_bind; [apply frames_lift|]. intros def.
  apply frames_bind; [apply frames_update; by left|]. intros _.
  apply frames_bind; [apply hoare_deref'|]. intros i.
  apply hoare_if; [|apply hoare_ret'].
  apply frames_bind; [apply hoare_get'|]. intros h.
  apply frames_bind; [apply frames_lift|]. intros prev.
  apply frames_bind; [apply frames_update; by left|]. intros _. apply frames_update. by left.
Qed.

Lemma frames_DestroyArg idx : frames (DestroyArg p idx).
Proof.
  unfold DestroyArg. apply frames_bind; [apply hoare_deref'|]. intros i.
  apply frames_bind; [apply frames_lift|]. intros a.
  destruct a; try apply hoare_ret';
    (apply frames_bind; [apply frames_for_each; intros; apply frames_UnUse|]; intros _;
     apply frames_update; by right).
Qed.

Lemma frames_delete : frames (Inst_delete p).
Proof.
  apply frames_bind; [apply frames_for_each; intros; apply frames_DestroyArg|]. intros _.
  intros h u h' Hs [= <- <-] q Hq. rewrite lookup_delete_ne by done. by apply Hs.
Qed.
End SameCode.

Lemma delete_same_code p h u h' :
  Inst_delete p h = Ok (u, h') -> same_code p h h' /\ h' !! p = None.
Proof.
  intros H. split; [eapply frames_delete; [|exact H]; by intros q _|].
  unfold Inst_delete in H. apply bind_ok in H as (? & s & _ & H).
  unfold modify in H. injection H as H. subst h'. apply lookup_delete_eq.
Qed.

(** ** Counting references *)

Lemma count_vals_nonneg d vs : 0 <= count_vals d vs.
Proof. unfold count_vals. lia. Qed.

Lemma count_heap_args h d :
  count_heap h d = map_fold (fun _ a n => count_args d a + n) 0 (i_args <$> h).
Proof. unfold count_heap. by rewrite map_fold_fmap. Qed.

Lemma count_heap_same p h h' i d :
  same_code p h h' -> h !! p = Some i -> h' !! p = None ->
  count_heap h d = count_inst d i + count_heap h' d.
Proof.
  intros Hs Hi Hn. rewrite (count_heap_delete h p i d Hi). f_equal.
  rewrite !count_heap_args. f_equal. apply map_eq. intros q. rewrite !lookup_fmap.
  destruct (decide (q = p)) as [-> |Hne]; [by rewrite lookup_delete_eq, Hn|].
  rewrite lookup_delete_ne by done. specialize (Hs q Hne).
  destruct (h !! q), (h' !! q); simpl in *; try done. by injection Hs as _ -> _ _ _.
Qed.

Lemma count_vals_zero d vs v : count_vals d vs = 0 -> v ∈ vs -> v_inst v <> Some d.
Proof.
  unfold count_vals. intros H Hv E.
  assert (v ∈ filter (fun v => v_inst v = Some d) vs) as Hin by (by apply list_elem_of_filter).
  destruct (filter _ vs); [by apply not_elem_of_nil in Hin|]. simpl in H. lia.
Qed.

Lemma count_heap_nonneg h d : 0 <= count_heap h d.
Proof.
  unfold count_heap. apply (map_fold_weak_ind (fun n _ => 0 <= n)); [lia|]. intros.
  pose proof (count_vals_nonneg d (GetValues x)). unfold count_inst. lia.
Qed.

(** No instruction refers to [d] when its count is zero. *)
Lemma count_heap_zero h d q j v :
  count_heap h d = 0 -> h !! q = Some j -> v ∈ GetValues j -> v_inst v <> Some d.
Proof.
  intros H0 Hq Hv. rewrite (count_heap_delete h q j d Hq) in H0.
  pose proof (count_heap_nonneg (delete q h) d).
  pose proof (count_vals_nonneg d (GetValues j)). unfold count_inst in H0.
  apply (count_vals_zero d (GetValues j)); [lia|done].
Qed.

(** ** Safety

    The IR before the pass: use counters exact ([ext] counts the uses by the
    terminal and by other blocks), no counter saturated, no dangling reference. *)
Record ir_ok (ext : Ptr -> Z) (h : Heap) : Prop := mk_ir_ok {
  ir_counts : counts_ok ext h;
  ir_slots : five_slots h;
  ir_bound : forall d, 0 <= ext d /\ count_heap h d + ext d < 256;
  ir_closed : forall q j v d, h !! q = Some j -> v ∈ GetValues j -> v_inst v = Some d ->
                is_Some (h !! d)
}.

Lemma removable_unused ext h p i :
  ir_ok ext h -> h !! p = Some i -> Removable i = true -> count_heap h p = 0 /\ ext p = 0.
Proof.
  intros [Hc _ Hb _] Hp Hr. destruct (Hb p) as [He Hlt]. pose proof (count_heap_nonneg h p).
  assert (i_num_use i = 0) as H0.
  { unfold Removable, HasSideEffects in Hr.
    destruct (i_num_use i =? 0) eqn:E; [by apply Z.eqb_eq|].
    destruct (i_op i); simpl in Hr; discriminate. }
  rewrite (Hc p i Hp), wrap_small in H0 by lia. lia.
Qed.

Lemma delete_ir_ok ext h p i u h' :
  ir_ok ext h -> h !! p = Some i -> Removable i = true -> Inst_delete p h = Ok (u, h') ->
  ir_ok ext h' /\ same_code p h h' /\ h' !! p = None.
Proof.
  intros Hok Hp Hr Hd. destruct (removable_unused ext h p i Hok Hp Hr) as [H0 He].
  destruct (delete_same_code _ _ _ _ Hd) as [Hs Hn]. destruct Hok as [Hc H5 Hb Hcl].
  split; [|done]. split.
  - by apply (run_mutation_counts ext (MDelete p) h u h').
  - by apply (slots_mutation (MDelete p) h u h').
  - intros d. destruct (Hb d). rewrite (count_heap_same p h h' i d Hs Hp Hn) in *.
    pose proof (count_vals_nonneg d (GetValues i)). unfold count_inst in *. lia.
  - intros q j v d Hq Hv Hd'.
    destruct (decide (q = p)) as [-> |Hne]; [congruence|]. specialize (Hs q Hne) as Hqc.
    rewrite Hq in Hqc. simpl in Hqc. destruct (h !! q) as [j0|] eqn:Hq0; [|done].
    injection Hqc as _ Ha _ _ _. unfold GetValues in Hv. rewrite Ha in Hv.
    destruct (decide (d = p)) as [-> |Hdp].
    { exfalso. by apply (count_heap_zero h p q j0 v H0 Hq0 Hv). }
    destruct (Hcl q j0 v d Hq0 Hv Hd') as [jd Hjd]. specialize (Hs d Hdp) as Hdc.
    rewrite Hjd in Hdc. destruct (h' !! d); [eauto|done].
Qed.

(** What a sweep may delete: nothing outside the list, nothing the terminal
    uses, nothing whose opcode has a side effect; the rest of the code is as
    it was. *)
Definition swept (ext : Ptr -> Z) (l : list Ptr) (h h' : Heap) : Prop :=
  forall q, code <$> h' !! q = code <$> h !! q
    \/ (q ∈ l /\ h' !! q = None /\ ext q = 0
        /\ exists i, h !! q = Some i /\ op_has_side_effects (i_op i) = false
            /\ i_op i <> OpCode_LoadMemory /\ i_op i <> OpCode_LoadMemoryTSO).

Lemma swept_refl ext l h : swept ext l h h.
Proof. by left. Qed.

Lemma swept_trans ext l1 l2 l h1 h2 h3 :
  l1 ⊆ l -> l2 ⊆ l -> swept ext l1 h1 h2 -> swept ext l2 h2 h3 -> swept ext l h1 h3.
Proof.
  intros Hl1 Hl2 H1 H2 q. destruct (H2 q) as [E2|(Hq & Hn & He & i & Hi & Hrest)].
  - destruct (H1 q) as [E1|(Hq & Hn & He & Hi)]; [left; congruence|right].
    split_and!; [by apply Hl1| |done|done]. rewrite Hn in E2. by destruct (h3 !! q).
  - destruct (H1 q) as [E1|(Hq1 & Hn1 & He1 & Hi1)]; [|congruence].
    rewrite Hi in E1. destruct (h1 !! q) as [j|] eqn:Hj; [|done].
    injection E1 as Ho _ _ _ _. right. split_and!; [by apply Hl2|done|done|].
    exists j. rewrite <- Ho. done.
Qed.

Lemma removable_op i :
  Removable i = true -> op_has_side_effects (i_op i) = false
    /\ i_op i <> OpCode_LoadMemory /\ i_op i <> OpCode_LoadMemoryTSO.
Proof.
  unfold Removable, HasSideEffects. destruct (i_num_use i =? 0); simpl.
  - intros H. destruct (i_op i); try discriminate H; simpl in *;
      (split; [by apply negb_true_iff|split; discriminate]).
  - destruct (i_op i); discriminate.
Qed.

Lemma dce_sweep_ok ext l h l' b h' :
  ir_ok ext h -> dce_sweep l h = Ok ((l', b), h') -> ir_ok ext h' /\ swept ext l h h'.
Proof.
  revert h l' b h'. induction l as [|p l IH]; intros h l' b h' Hok H; simpl in H.
  { unfold ret in H. injection H as <- <- <-. split; [done|apply swept_refl]. }
  apply bind_ok in H as (i & s & Hi & H). apply heap_deref_inv in Hi as [-> Hi].
  destruct (Removable i) eqn:Er.
  - apply bind_ok in H as (u & s1 & Hd & H). apply bind_ok in H as ([l1 b1] & s2 & H1 & H).
    unfold ret in H. injection H as <- <- <-.
    destruct (delete_ir_ok _ _ _ _ _ _ Hok Hi Er Hd) as (Hok1 & Hs & Hn).
    destruct (IH _ _ _ _ Hok1 H1) as [Hok2 Hsw]. split; [done|].
    apply (swept_trans ext [p] l (p :: l) h s1 s2); [by intros q ->%list_elem_of_singleton; left|by right| |done].
    intros q. destruct (decide (q = p)) as [-> |Hne]; [right|left; by apply Hs].
    destruct (removable_unused ext h p i Hok Hi Er) as [_ He].
    split_and!; [by apply list_elem_of_singleton|done|done|]. exists i. split; [done|]. by apply removable_op.
  - apply bind_ok in H as ([l1 b1] & s2 & H1 & H). unfold ret in H. injection H as <- <- <-.
    destruct (IH _ _ _ _ Hok H1) as [Hok2 Hsw]. split; [done|].
    apply (swept_trans ext [] l (p :: l) h h s2); [by intros q ?%not_elem_of_nil|by right|apply swept_refl|done].
Qed.

Lemma dce_run_ok ext fuel l h l' h' :
  ir_ok ext h -> dce_run fuel l h = Some (Ok (l', h')) -> ir_ok ext h' /\ swept ext l h h'.
Proof.
  revert l h. induction fuel as [|f IH]; intros l h Hok H; simpl in H; [done|].
  destruct (dce_sweep l h) as [[[l1 b] h1]|e] eqn:E; [|done].
  destruct (dce_sweep_ok _ _ _ _ _ _ Hok E) as [Hok1 Hsw].
  destruct (dce_sweep_shape _ _ _ _ _ E) as (Hsub & _). destruct b.
  - destruct (IH _ _ Hok1 H) as [Hok2 Hsw2]. split; [done|].
    apply (swept_trans ext l l1 l h h1 h'); [done| |done|done].
    by apply sublist_subseteq.
  - by injection H as <- <-.
Qed.

(** Dead code elimination is safe on IR whose use counts fit their [u8].
    The resulting block is a subsequence of the original in which nothing is
    removable any more (the fixpoint the pass iterates to); every instruction
    deleted was in the block, is not used by the terminal or another block, and
    has an opcode without side effects that is no guest load; the code of every
    other instruction is unchanged, and the IR invariant still holds, so that no
    reference dangles and every use counter is exact. *)
Theorem dce_safe (ext : Ptr -> Z) (fuel : nat) (l : list Ptr) (h : Heap) (l' : list Ptr) (h' : Heap) :
  ir_ok ext h -> dce_run fuel l h = Some (Ok (l', h')) ->
  sublist l' l
  /\ Forall (fun p => exists i, h' !! p = Some i /\ Removable i = false) l'
  /\ swept ext l h h' /\ ir_ok ext h'.
Proof.
  intros Hok H. destruct (dce_run_shape _ _ _ _ _ H). destruct (dce_run_ok _ _ _ _ _ _ Hok H). done.
Qed.

(** ** Examples *)

Definition total_values (h : Heap) : Z :=
  map_fold (fun _ i n => Z.of_nat (length (GetValues i)) + n) 0 h.

Lemma count_heap_total h d : count_heap h d <= total_values h.
Proof.
  unfold count_heap, total_values. induction h as [|p i h Hp Hfirst IH] using map_first_key_ind.
  - by rewrite !map_fold_empty.
  - rewrite !map_fold_insert_first_key by done.
    assert (count_inst d i <= Z.of_nat (length (GetValues i))); [|lia].
    unfold count_inst, count_vals. pose proof (length_filter (fun v => v_inst v = Some d) (GetValues i)).
    lia.
Qed.

(** A decidable sufficient condition for [ir_ok] without external uses. *)
Definition ir_check (h : Heap) : bool :=
  bool_decide (map_Forall (fun d i => i_num_use i = wrap 8 (count_heap h d + 0)) h)
  && bool_decide (map_Forall (fun _ i => length (i_args i) = max_args) h)
  && (total_values h <? 256)
  && bool_decide (map_Forall (fun _ j =>
       Forall (fun d => is_Some (h !! d)) (omap v_inst (GetValues j))) h).

Lemma ir_check_sound h : ir_check h = true -> ir_ok (fun _ => 0) h.
Proof.
  unfold ir_check. rewrite !andb_true_iff, !bool_decide_eq_true, Z.ltb_lt.
  intros [[[Hc H5] Ht] Hcl]. split.
  - intros d i Hi. by apply (Hc d i Hi).
  - exact H5.
  - intros d. pose proof (count_heap_total h d). lia.
  - intros q j v d Hq Hv Hd. specialize (Hcl q j Hq). simpl in Hcl.
    rewrite Forall_forall in Hcl. apply Hcl, list_elem_of_omap. eauto.
Qed.

(** An immediate whose only user is dead, and one whose user sets the carry. *)
Definition dce_sample_heap : Heap :=
  <[1%positive := mkInst OpCode_LoadImm [AImm (Imm_u64 5); AVoid; AVoid; AVoid; AVoid]
                    1 0 0 ValueType_U64 None]>
  (<[2%positive := mkInst OpCode_Neg [AValue (Value_of 1%positive); AVoid; AVoid; AVoid; AVoid]
                    0 1 0 ValueType_U64 None]>
  (<[3%positive := mkInst OpCode_LoadImm [AImm (Imm_u64 1); AVoid; AVoid; AVoid; AVoid]
                    1 2 0 ValueType_U64 None]>
  (<[4%positive := mkInst OpCode_SetCarry [AValue (Value_of 3%positive); AVoid; AVoid; AVoid; AVoid]
                    0 3 0 ValueType_VOID None]> ∅))).

Lemma dce_sample_result :
  exists h', dce_run 5 [1; 2; 3; 4]%positive dce_sample_heap = Some (Ok ([3; 4]%positive, h')).
Proof. eexists. vm_compute. reflexivity. Qed.

Lemma dce_safe_witness :
  exists h', dce_run 5 [1; 2; 3; 4]%positive dce_sample_heap = Some (Ok ([3; 4]%positive, h'))
  /\ swept (fun _ => 0) [1; 2; 3; 4]%positive dce_sample_heap h' /\ ir_ok (fun _ => 0) h'.
Proof.
  destruct dce_sample_result as [h' H]. exists h'. split; [exact H|].
  apply (dce_safe (fun _ => 0) 5 [1; 2; 3; 4]%positive dce_sample_heap [3; 4]%positive h').
  - apply ir_check_sound. vm_compute. reflexivity.
  - exact H.
Defined.

Lemma mutations_preserve_counts_witness :
  exists h', run_mutations [MSetValue 2%positive 0 (Value_of 3%positive); MDelete 2%positive]
               dce_sample_heap = Ok (tt, h')
    /\ counts_ok (fun _ => 0) h' /\ five_slots h'.
Proof.
  destruct (run_mutations [MSetValue 2%positive 0 (Value_of 3%positive); MDelete 2%positive]
              dce_sample_heap) as [[[] h']|e] eqn:H; [|vm_compute in H; discriminate H].
  exists h'. split; [reflexivity|].
  apply (mutations_preserve_counts (fun _ => 0)
    [MSetValue 2%positive 0 (Value_of 3%positive); MDelete 2%positive] dce_sample_heap h').
  - apply ir_check_sound. vm_compute. reflexivity.
  - apply (ir_slots (fun _ => 0)), ir_check_sound. vm_compute. reflexivity.
  - exact H.
Defined.

(** A call with 256 parameters that all name one value. *)
Definition overflow_base : Heap :=
  <[1%positive := mkInst OpCode_LoadImm [AImm (Imm_u64 5); AVoid; AVoid; AVoid; AVoid]
                    0 0 0 ValueType_U64 None]>
  (<[2%positive := mkInst OpCode_CallDynamic [ALambda (Lambda_of (DImm (Imm_u64 0))); AVoid; AVoid;
                    AVoid; AVoid] 0 1 0 ValueType_U64 None]> ∅).

(** The use counter is a [u8] and wraps: starting from consistent IR, setting
    256 parameters that name one value leaves its counter at zero, and dead
    code elimination then deletes the value although the call still refers to
    it. *)
Theorem use_count_overflow :
  ir_ok (fun _ => 0) overflow_base /\
  exists h1 h2,
    SetArg_Params 2%positive 1 (replicate 256 (DValue (Value_of 1%positive))) overflow_base
      = Ok (tt, h1)
    /\ count_heap h1 1%positive = 256
    /\ dce_run 3 [1; 2]%positive h1 = Some (Ok ([2]%positive, h2))
    /\ h2 !! 1%positive = None
    /\ match h2 !! 2%positive with
       | Some i => Value_of 1%positive ∈ GetValues i
       | None => False
       end.
Proof.
  split; [apply ir_check_sound; vm_compute; reflexivity|].
  destruct (SetArg_Params 2%positive 1 (replicate 256 (DValue (Value_of 1%positive))) overflow_base)
    as [[[] h1]|] eqn:E1; [|vm_compute in E1; discriminate E1].
  exists h1. vm_compute in E1. injection E1 as <-. eexists. split; [reflexivity|].
  split; [vm_compute; reflexivity|]. split; [vm_compute; reflexivity|].
  split; [vm_compute; reflexivity|]. apply (bool_decide_unpack _). vm_compute. exact I.
Qed.
