(* ===== verification/DeadCodeChain.v ===== *)
(** * Pseudo-operation chains under deletion

    A definition's pseudo operations hang off it in a singly linked list.
    Deleting a pseudo operation unlinks it; this file shows that the chain of
    every other instruction is then the old chain without it, so that the
    interpreter finds the same pseudo results in the optimised block, less the
    deleted ones. *)

From Stdlib Require Import ZArith Lia.
From stdpp Require Import numbers base gmap list.
From S2P Require Import Prelude MachineInt IRTypes Instr UseCount DeadCode.

Local Open Scope Z_scope.
Local Open Scope svm_scope.

(** ** Chains as paths *)

Inductive links (h : Heap) : option Ptr -> list Ptr -> Prop :=
| links_nil : links h None []
| links_cons p i l : h !! p = Some i -> links h (i_next_pseudo i) l -> links h (Some p) (p :: l).

Lemma pseudo_chain_links fuel h o l : pseudo_chain fuel h o = Ok l -> links h o l.
Proof.
  revert o l. induction fuel as [|f IH]; intros [p|] l H; simpl in H;
    try (injection H as <-; apply links_nil); [done|].
  minv H. unfold deref in *. destruct (h !! p) as [i|] eqn:Hp; [|done].
  simplify_eq. econstructor; [done|]. by apply IH.
Qed.

Lemma links_pseudo_chain fuel h o l :
  links h o l -> (length l <= fuel)%nat -> pseudo_chain fuel h o = Ok l.
Proof.
  intros Hl. revert fuel. induction Hl as [|p i l Hp Hl IH]; intros fuel Hf; [by destruct fuel|].
  simpl in Hf. destruct fuel as [|f]; [lia|]. simpl. unfold deref. rewrite Hp. simpl.
  rewrite IH by lia. done.
Qed.

Lemma links_det h o l1 l2 : links h o l1 -> links h o l2 -> l1 = l2.
Proof.
  intros H1. revert l2. induction H1 as [|p i l Hp Hl IH]; intros l2 H2; inversion H2; simplify_eq; [done|].
  f_equal. by apply IH.
Qed.

Lemma links_suffix h o l p : links h o l -> p ∈ l ->
  exists l', links h (Some p) (p :: l') /\ (length l' < length l)%nat.
Proof.
  induction 1 as [|q i l Hq Hl IH]; [by intros ?%not_elem_of_nil|].
  intros [->|Hin]%elem_of_cons; [exists l; split; [by econstructor|simpl; lia]|].
  destruct (IH Hin) as (l' & Hl' & Hlt). exists l'. simpl. split; [done|lia].
Qed.

Lemma links_nodup h o l : links h o l -> NoDup l.
Proof.
  induction 1 as [|p i l Hp Hl IH]; constructor; [|done]. intros Hin.
  destruct (links_suffix h _ l p Hl Hin) as (l' & Hl' & Hlt).
  assert (links h (Some p) (p :: l)) as Hpl by (by econstructor).
  pose proof (links_det _ _ _ _ Hl' Hpl) as [= ->]. lia.
Qed.

Lemma links_dom h o l : links h o l -> Forall (fun p => is_Some (h !! p)) l.
Proof. induction 1; constructor; eauto. Qed.

Lemma links_size h o l : links h o l -> (length l <= size h)%nat.
Proof.
  intros H. rewrite <- size_dom, <- (size_list_to_set (C := gset Ptr) l) by (by eapply links_nodup).
  apply subseteq_size. intros p Hp%elem_of_list_to_set. apply elem_of_dom.
  apply links_dom in H. rewrite Forall_forall in H. by apply H.
Qed.

Lemma chain_before_spec fuel h p this q :
  chain_before fuel h p this = Ok q -> exists j, h !! q = Some j /\ i_next_pseudo j = Some this.
Proof.
  revert p. induction fuel as [|f IH]; intros p; simpl; unfold deref;
    (destruct (h !! p) as [j|] eqn:Hj; [|done]); simpl;
    (destruct (i_next_pseudo j) as [r|] eqn:Hr; [|done]);
    (destruct (decide (r = this)) as [->|]; [intros [= <-]; eauto|]); [done|apply IH].
Qed.

(** ** Well-formed chains

    Each instruction is linked from at most one other, and what is linked is a
    pseudo operation of a single value. *)
Record chains_ok (h : Heap) : Prop := mk_chains_ok {
  co_inj : forall q1 q2 j1 j2 r, h !! q1 = Some j1 -> h !! q2 = Some j2 ->
    i_next_pseudo j1 = Some r -> i_next_pseudo j2 = Some r -> q1 = q2;
  co_pseudo : forall q j r, h !! q = Some j -> i_next_pseudo j = Some r ->
    exists k v, h !! r = Some k /\ IsPseudoOperation k = true /\ GetValues k = [v]
}.

Definition without (p : Ptr) (next o : option Ptr) : option Ptr :=
  if decide (o = Some p) then next else o.

(** [h] is [h0] with [p] taken out of the chain it was in. *)
Definition unlinked (p : Ptr) (next : option Ptr) (h0 h : Heap) : Prop :=
  forall q, q <> p -> i_next_pseudo <$> h !! q = (fun j => without p next (i_next_pseudo j)) <$> h0 !! q.

Lemma links_unlinked p ip h0 h o l :
  h0 !! p = Some ip -> unlinked p (i_next_pseudo ip) h0 h -> links h0 o l ->
  links h (without p (i_next_pseudo ip) o) (filter (fun q => q <> p) l).
Proof.
  intros Hp Hu Hl. pose proof (links_nodup _ _ _ Hl) as Hnd.
  induction Hl as [|q j l Hq Hl IH]; [constructor|].
  apply NoDup_cons in Hnd as [Hn Hnd]. specialize (IH Hnd). unfold without at 1.
  destruct (decide (Some q = Some p)) as [[= ->]|Hne].
  - rewrite filter_cons_False by auto. rewrite Hp in Hq. injection Hq as ->.
    unfold without in IH. destruct (decide _) as [E|]; [|done].
    exfalso. apply Hn. rewrite E in Hl. inversion Hl. left.
  - assert (q <> p) by congruence. rewrite filter_cons_True by done.
    specialize (Hu q ltac:(done)). rewrite Hq in Hu. simpl in Hu.
    destruct (h !! q) as [j'|] eqn:Hj'; [|done]. injection Hu as Hu.
    econstructor; [done|]. by rewrite Hu.
Qed.

Lemma unlinked_chains p ip h0 h :
  chains_ok h0 -> h0 !! p = Some ip -> unlinked p (i_next_pseudo ip) h0 h -> same_code p h0 h ->
  h !! p = None -> chains_ok h.
Proof.
  intros [Hinj Hps] Hp Hu Hs Hn.
  assert (forall q j r, h !! q = Some j -> i_next_pseudo j = Some r ->
    exists q0 j0, h0 !! q0 = Some j0 /\ i_next_pseudo j0 = Some r /\ r <> p
      /\ (q0 = q \/ (q0 = p /\ exists jq, h0 !! q = Some jq /\ i_next_pseudo jq = Some p))) as Hback.
  { intros q j r Hq Hr. assert (q <> p) as Hqp by congruence. pose proof (Hu q Hqp) as E.
    rewrite Hq in E. destruct (h0 !! q) as [j0|] eqn:Hq0; [|done]. injection E as E.
    rewrite Hr in E. unfold without in E. destruct (decide _) as [E'|E'].
    - exists p, ip. split_and!; try done; [|right; eauto]. intros ->.
      apply Hqp. by apply (Hinj q p j0 ip p).
    - exists q, j0. split_and!; try done; [congruence|by left]. }
  split.
  - intros q1 q2 j1 j2 r H1 H2 Hr1 Hr2.
    destruct (Hback q1 j1 r H1 Hr1) as (a1 & b1 & Ha1 & Hb1 & _ & C1).
    destruct (Hback q2 j2 r H2 Hr2) as (a2 & b2 & Ha2 & Hb2 & _ & C2).
    pose proof (Hinj a1 a2 b1 b2 r Ha1 Ha2 Hb1 Hb2) as ->.
    destruct C1 as [->|[-> (c1 & Hc1 & Hd1)]], C2 as [E|[E (c2 & Hc2 & Hd2)]]; subst; try congruence.
    by apply (Hinj q1 q2 c1 c2 p).
  - intros q j r Hq Hr. destruct (Hback q j r Hq Hr) as (a & b & Ha & Hb & Hrp & _).
    destruct (Hps a b r Ha Hb) as (k & v & Hk & Hpk & Hv). pose proof (Hs r Hrp) as E.
    rewrite Hk in E. destruct (h !! r) as [k'|] eqn:Hk'; [|done].
    injection E as Ho Ha' _ _ _. exists k', v. unfold IsPseudoOperation, GetValues in *.
    by rewrite Ho, Ha'.
Qed.

(** ** Deleting an instruction unlinks it *)

Definition n_values (l : list Arg) : nat := length (mjoin (arg_values <$> l)).

Lemma n_values_cons a l : n_values (a :: l) = (length (arg_values a) + n_values l)%nat.
Proof. unfold n_values. rewrite fmap_cons. simpl. by rewrite length_app. Qed.

Lemma n_values_insert l k a :
  l !! k = Some a -> (n_values (<[k := AVoid]> l) + length (arg_values a) = n_values l)%nat.
Proof.
  revert k. induction l as [|b l IH]; intros [|k] H; simpl in *; try done.
  - injection H as ->. rewrite !n_values_cons. simpl. lia.
  - specialize (IH k H). rewrite !n_values_cons. lia.
Qed.

Section Delete.
Context (p : Ptr) (h0 : Heap) (ip : Inst).
Hypothesis Hchains : chains_ok h0.
Hypothesis Hp : h0 !! p = Some ip.

Definition same_next (h : Heap) : Prop := forall q, i_next_pseudo <$> h !! q = i_next_pseudo <$> h0 !! q.

(** [p] still has the arguments [l] and the opcode it had. *)
Definition args_left (l : list Arg) (h : Heap) : Prop :=
  exists i, h !! p = Some i /\ i_args i = l /\ i_op i = i_op ip.

(** Either nothing is unlinked yet, and a pseudo operation still has its values,
    or [p] is unlinked.  [m] values of the slot being cleared are unregistered
    but still stored. *)
Definition progress (l : list Arg) (m : nat) (h : Heap) : Prop :=
  args_left l h /\
  ((same_next h /\ (IsPseudoOperation ip = true -> n_values l = n_values (i_args ip) /\ m = 0%nat))
   \/ (unlinked p (i_next_pseudo ip) h0 h /\ n_values l = m)).

Lemma update_args_left l q f :
  (forall i, i_args (f i) = i_args i /\ i_op (f i) = i_op i) ->
  hoare (args_left l) (heap_update q f) (fun _ => args_left l).
Proof.
  intros Hf h u h' (i & Hi & Ha & Ho) H. apply heap_update_inv in H as (j & Hj & ->).
  destruct (Hf j) as [Ha' Ho']. unfold args_left. destruct (decide (q = p)) as [->|Hne].
  - rewrite Hi in Hj. injection Hj as <-. exists (f i). rewrite lookup_insert_eq, Ha', Ho'. done.
  - exists i. by rewrite lookup_insert_ne.
Qed.

Lemma update_same_next q f :
  (forall i, i_next_pseudo (f i) = i_next_pseudo i) ->
  hoare same_next (heap_update q f) (fun _ => same_next).
Proof.
  intros Hf h u h' Hs H r. apply heap_update_inv in H as (i & Hi & ->). rewrite <- (Hs r).
  destruct (decide (q = r)) as [->|Hne]; [|by rewrite lookup_insert_ne].
  rewrite lookup_insert_eq, Hi. simpl. by rewrite Hf.
Qed.

(** One [UnUse] of a non-pseudo operation touches no link. *)
Lemma UnUse_plain l v h u h' :
  IsPseudoOperation ip = false -> args_left l h -> same_next h ->
  Inst_UnUse p v h = Ok (u, h') -> args_left l h' /\ same_next h'.
Proof.
  intros Hip Ha Hs H. unfold Inst_UnUse in H. apply bind_ok in H as (def & s & H1 & H).
  apply lift_ok in H1 as [_ ->]. apply bind_ok in H as ([] & h1 & H1 & H).
  apply (update_args_left l) in H1 as Ha1; [|done|done].
  apply update_same_next in H1 as Hs1; [|done|done].
  apply bind_ok in H as (i & s & Hi & H). apply heap_deref_inv in Hi as [-> Hi].
  destruct Ha1 as (j & Hj & Hargs & Hop). rewrite Hj in Hi. injection Hi as <-.
  unfold IsPseudoOperation in *. rewrite Hop, Hip in H. minv H. split; [by exists j|done].
Qed.

(** One [UnUse] of a pseudo operation finds its predecessor and unlinks it. *)
Lemma UnUse_pseudo l v h u h' :
  IsPseudoOperation ip = true -> args_left l h -> same_next h ->
  Inst_UnUse p v h = Ok (u, h') ->
  args_left l h' /\ unlinked p (i_next_pseudo ip) h0 h' /\ n_values (i_args ip) = 1%nat.
Proof.
  intros Hip Ha Hs H. unfold Inst_UnUse in H. apply bind_ok in H as (def & s & H1 & H).
  apply lift_ok in H1 as [_ ->]. apply bind_ok in H as ([] & h1 & H1 & H).
  apply (update_args_left l) in H1 as Ha1; [|done|done].
  apply update_same_next in H1 as Hs1; [|done|done].
  apply bind_ok in H as (i & s & Hi & H). apply heap_deref_inv in Hi as [-> Hi].
  destruct (Ha1) as (j & Hj & Hargs & Hop). rewrite Hj in Hi. injection Hi as <-.
  unfold IsPseudoOperation in *. rewrite Hop, Hip in H.
  apply bind_ok in H as (h2 & s & Hg & H). unfold get in Hg. injection Hg as <- <-.
  apply bind_ok in H as (prev & s & Hprev & H). apply lift_ok in Hprev as [Hprev ->].
  apply chain_before_spec in Hprev as (jp & Hjp & Hnext).
  apply bind_ok in H as ([] & h2 & H2 & H). 
  apply (update_args_left l) in H2 as Ha2; [|done|done].
  apply (update_args_left l) in H as Ha3; [|done|done].
  apply heap_update_inv in H2 as (jp' & Hjp' & ->). rewrite Hjp in Hjp'. injection Hjp' as <-.
  apply heap_update_inv in H as (i2 & Hi2 & ->).
  assert (i_next_pseudo j = i_next_pseudo ip) as Hnj.
  { specialize (Hs1 p). rewrite Hj, Hp in Hs1. by injection Hs1. }
  assert (exists jp0, h0 !! prev = Some jp0 /\ i_next_pseudo jp0 = Some p) as (jp0 & Hjp0 & Hnext0).
  { specialize (Hs1 prev). rewrite Hjp in Hs1. destruct (h0 !! prev) as [jp0|]; [|done].
    injection Hs1 as E. exists jp0. split; [done|congruence]. }
  split; [done|]. split.
  - intros q Hq. rewrite lookup_insert_ne by done. destruct (decide (prev = q)) as [->|Hne].
    + rewrite lookup_insert_eq, Hjp0. simpl. unfold without. by rewrite decide_True, Hnj.
    + rewrite lookup_insert_ne, (Hs1 q) by done. destruct (h0 !! q) as [jq|] eqn:Hq0; [|done].
      simpl. unfold without. rewrite decide_False; [done|]. intros E.
      apply Hne. by apply (co_inj _ Hchains prev q jp0 jq p).
  - destruct (co_pseudo _ Hchains prev jp0 p Hjp0 Hnext0) as (k & w & Hk & _ & Hw).
    rewrite Hp in Hk. injection Hk as <-. unfold n_values. unfold GetValues in Hw. by rewrite Hw.
Qed.

Lemma UnUse_all l a k :
  l !! k = Some a ->
  hoare (progress l 0) (for_each (Inst_UnUse p) (arg_values a))
    (fun _ => progress l (length (arg_values a))).
Proof.
  intros Ha h u h' [Hl Hcase] H. pose proof (n_values_insert l k a Ha) as Hn.
  destruct (Bool.bool_dec (IsPseudoOperation ip) true) as [Hip|Hip%not_true_is_false].
  - destruct (arg_values a) as [|v vs]; [simpl in H; minv H; by split|].
    simpl in *. destruct Hcase as [[Hs Hc]|[_ Hc]]; [|lia].
    apply bind_ok in H as ([] & h1 & H1 & H).
    destruct (UnUse_pseudo l v h tt h1 Hip Hl Hs H1) as (Hl1 & Hu & H1v).
    destruct (Hc Hip) as [Hc' _]. destruct vs; [|simpl in *; lia].
    simpl in H. minv H. split; [done|]. right. split; [done|]. simpl in *. lia.
  - assert (forall vs h, args_left l h -> same_next h -> for_each (Inst_UnUse p) vs h = Ok (u, h') ->
      args_left l h' /\ same_next h') as Hall.
    { intros vs. induction vs as [|v vs IH]; intros g Hg Hs Hf; simpl in Hf; [by minv Hf|].
      apply bind_ok in Hf as ([] & g1 & H1 & Hf).
      destruct (UnUse_plain l v g tt g1 Hip Hg Hs H1). by apply (IH g1). }
    destruct Hcase as [[Hs _]|[Hu H0]].
    + destruct (Hall _ _ Hl Hs H). split; [done|]. left. split; [done|]. congruence.
    + assert (arg_values a = []) as E by (apply nil_length_inv; lia). rewrite E in H |- *. simpl in H.
      minv H. split; [done|]. by right.
Qed.

Lemma progress_DestroyArg l k :
  hoare (progress l 0) (DestroyArg p k) (fun _ => progress (<[k := AVoid]> l) 0).
Proof.
  intros h u h' Hpr H. unfold DestroyArg in H. apply bind_ok in H as (i & s & Hi & H).
  apply heap_deref_inv in Hi as [-> Hi]. apply bind_ok in H as (a & s & Ha & H).
  apply lift_ok in Ha as [Ha ->]. unfold ArgAt in Ha.
  assert (i_args i = l) as Hil by (destruct Hpr as [(j & Hj & Hjl & _) _]; congruence).
  rewrite Hil in Ha. destruct (l !! k) as [b|] eqn:Hb; [|done]. injection Ha as ->.
  assert (a = AVoid /\ h' = h \/ (for_each (Inst_UnUse p) (arg_values a);;;
    heap_update p (fun j => set_args (<[k := AVoid]> (i_args j)) j)) h = Ok (u, h')) as [[-> ->]|Hm].
  { destruct a; try (right; exact H). left. by minv H. }
  { by rewrite list_insert_id. }
  clear H. apply bind_ok in Hm as ([] & h1 & H1 & H).
  apply (UnUse_all l a k Hb) in H1; [|done]. destruct H1 as [(j & Hj & Hjl & Hjo) Hcase].
  apply heap_update_inv in H as (j' & Hj' & ->). rewrite Hj in Hj'. injection Hj' as <-.
  pose proof (n_values_insert l k a Hb) as Hn. split.
  { eexists. rewrite lookup_insert_eq. split; [done|]. simpl. by rewrite Hjl. }
  destruct Hcase as [[Hs Hc]|[Hu Hc]]; [left|right].
  - split; [|intros Hip; destruct (Hc Hip); split; lia].
    intros q. rewrite <- (Hs q). destruct (decide (p = q)) as [<-|]; [|by rewrite lookup_insert_ne].
    by rewrite lookup_insert_eq, Hj.
  - split; [|lia]. intros q Hq. rewrite lookup_insert_ne by done. by apply Hu.
Qed.

Lemma progress_DestroyArgs l :
  length l = max_args -> hoare (progress l 0) (DestroyArgs p) (fun _ => progress blank 0).
Proof.
  intros Hl. do 5 (destruct l as [|? l]; [discriminate|]). destruct l; [|discriminate].
  unfold DestroyArgs. simpl.
  do 5 (eapply hoare_bind; [apply progress_DestroyArg|]; intros ?; cbn [insert list_insert]).
  apply hoare_ret'.
Qed.

Lemma delete_unlinked u h' :
  length (i_args ip) = max_args -> Inst_delete p h0 = Ok (u, h') ->
  unlinked p (i_next_pseudo ip) h0 h'.
Proof.
  intros Hlen H. unfold Inst_delete in H. apply bind_ok in H as ([] & h1 & H1 & H).
  unfold modify in H. injection H as _ <-.
  assert (progress (i_args ip) 0 h0) as H0.
  { split; [by exists ip|]. left. by split. }
  assert (progress blank 0 h1) as [_ Hend].
  { by apply (progress_DestroyArgs _ Hlen _ tt _ H0). }
  intros q Hq. rewrite lookup_delete_ne by done.
  destruct Hend as [[Hs Hc]|[Hu _]]; [|by apply Hu].
  rewrite (Hs q). destruct (h0 !! q) as [j|] eqn:Hj; [|done]. simpl. unfold without.
  destruct (decide _) as [E|]; [|done]. exfalso.
  destruct (co_pseudo _ Hchains q j p Hj E) as (k & v & Hk & Hpk & Hv).
  rewrite Hp in Hk. injection Hk as <-. destruct (Hc Hpk) as [Hbad _].
  unfold GetValues in Hv. unfold n_values at 2 in Hbad. rewrite Hv in Hbad. done.
Qed.
End Delete.

(** ** The chains after the pass *)

Definition kept (h : Heap) (p : Ptr) : Prop := is_Some (h !! p).

#[export] Instance kept_dec h p : Decision (kept h p).
Proof. unfold kept. apply _. Defined.

(** The chains of [h] are those of [h0] less the deleted instructions. *)
Record chains_kept (h0 h : Heap) : Prop := mk_chains_kept {
  ck_ok : chains_ok h;
  ck_mono : forall q, kept h q -> kept h0 q;
  ck_links : forall q j0 j l, h0 !! q = Some j0 -> h !! q = Some j ->
    links h0 (i_next_pseudo j0) l -> links h (i_next_pseudo j) (filter (kept h) l)
}.

Lemma filter_kept h (l : list Ptr) : Forall (kept h) l -> filter (kept h) l = l.
Proof. induction 1; [done|]. rewrite filter_cons_True by done. by f_equal. Qed.

Lemma filter_kept_kept (h1 h2 : Heap) (l : list Ptr) :
  (forall q, kept h2 q -> kept h1 q) -> filter (kept h2) (filter (kept h1) l) = filter (kept h2) l.
Proof. intros Hm. by apply list_filter_filter_l. Qed.

Lemma filter_agree {A} (P Q : A -> Prop) `{!forall x, Decision (P x), !forall x, Decision (Q x)} l :
  Forall (fun x => P x <-> Q x) l -> filter P l = filter Q l.
Proof.
  induction 1 as [|x l Hx _ IH]; [done|]. rewrite !filter_cons, IH.
  destruct (decide (P x)), (decide (Q x)); tauto.
Qed.

Lemma chains_kept_refl h : chains_ok h -> chains_kept h h.
Proof.
  intros Hc. split; [done|done|]. intros q j0 j l H1 H2 Hl. simplify_eq.
  rewrite filter_kept; [done|]. by eapply links_dom.
Qed.

Lemma chains_kept_trans h1 h2 h3 : chains_kept h1 h2 -> chains_kept h2 h3 -> chains_kept h1 h3.
Proof.
  intros [Ha Hm Hl] [Ha' Hm' Hl']. split; [done|by auto|]. intros q j1 j3 l H1 H3 Hlk.
  destruct (Hm' q (ex_intro _ j3 H3)) as [j2 H2].
  specialize (Hl' q j2 j3 _ H2 H3 (Hl q j1 j2 l H1 H2 Hlk)). by rewrite filter_kept_kept in Hl'.
Qed.

Lemma chains_kept_delete p i h u h' :
  chains_ok h -> h !! p = Some i -> length (i_args i) = max_args ->
  Inst_delete p h = Ok (u, h') -> chains_kept h h'.
Proof.
  intros Hc Hp Hlen Hd. destruct (delete_same_code _ _ _ _ Hd) as [Hs Hn].
  pose proof (delete_unlinked p h i Hc Hp u h' Hlen Hd) as Hu.
  assert (forall q, q <> p -> kept h q -> kept h' q) as Hk.
  { intros q Hq [j Hj]. specialize (Hs q Hq). rewrite Hj in Hs. unfold kept.
    destruct (h' !! q); [by eauto|done]. }
  split.
  - by eapply unlinked_chains.
  - intros q [j Hj]. assert (q <> p) as Hq by congruence. specialize (Hs q Hq). rewrite Hj in Hs.
    unfold kept. destruct (h !! q); [by eauto|done].
  - intros q j0 j l Hj0 Hj Hl. assert (q <> p) as Hq by congruence.
    pose proof (links_unlinked p i h h' _ l Hp Hu Hl) as Hl'.
    specialize (Hu q Hq). rewrite Hj0, Hj in Hu. injection Hu as ->.
    replace (filter (kept h') l) with (filter (fun q => q <> p) l); [done|].
    apply filter_agree. apply links_dom in Hl. eapply Forall_impl; [exact Hl|].
    intros r Hr0. split; [intros; by apply Hk|]. intros [k Hr'] ->. congruence.
Qed.

Lemma dce_sweep_chains ext l h l' b h' :
  ir_ok ext h -> chains_ok h -> NoDup l -> dce_sweep l h = Ok ((l', b), h') ->
  chains_kept h h' /\ l' = filter (kept h') l.
Proof.
  revert h l' b h'. induction l as [|p l IH]; intros h l' b h' Hok Hc Hnd H; simpl in H.
  { unfold ret in H. injection H as <- <- <-. split; [by apply chains_kept_refl|done]. }
  apply NoDup_cons in Hnd as [Hp Hnd].
  apply bind_ok in H as (i & s & Hi & H). apply heap_deref_inv in Hi as [-> Hi].
  destruct (Removable i) eqn:Er.
  - apply bind_ok in H as (u & h1 & Hd & H). apply bind_ok in H as ([l1 b1] & h2 & H1 & H).
    unfold ret in H. injection H as <- <- <-.
    pose proof (chains_kept_delete _ _ _ _ _ Hc Hi (ir_slots _ _ Hok p i Hi) Hd) as Hck.
    destruct (delete_ir_ok _ _ _ _ _ _ Hok Hi Er Hd) as (Hok1 & _ & Hn).
    destruct (IH _ _ _ _ Hok1 (ck_ok _ _ Hck) Hnd H1) as [Hck' ->].
    split; [by eapply chains_kept_trans|]. simpl. rewrite filter_cons_False; [done|].
    intros Hk%(ck_mono _ _ Hck'). destruct Hk as [x Hx]. congruence.
  - apply bind_ok in H as ([l1 b1] & h2 & H1 & H). unfold ret in H. injection H as <- <- <-.
    destruct (IH _ _ _ _ Hok Hc Hnd H1) as [Hck ->]. split; [done|]. simpl.
    rewrite filter_cons_True; [done|]. destruct (dce_sweep_ok _ _ _ _ _ _ Hok H1) as [_ Hsw].
    destruct (Hsw p) as [E|(Hin & _)]; [|done]. rewrite Hi in E. unfold kept.
    destruct (h2 !! p); [by eauto|done].
Qed.

Lemma dce_run_chains ext fuel l h l' h' :
  ir_ok ext h -> chains_ok h -> NoDup l -> dce_run fuel l h = Some (Ok (l', h')) ->
  chains_kept h h' /\ l' = filter (kept h') l.
Proof.
  revert l h. induction fuel as [|f IH]; intros l h Hok Hc Hnd H; simpl in H; [done|].
  destruct (dce_sweep l h) as [[[l1 b] h1]|e] eqn:E; [|done].
  destruct (dce_sweep_ok _ _ _ _ _ _ Hok E) as [Hok1 _].
  destruct (dce_sweep_chains _ _ _ _ _ _ Hok Hc Hnd E) as [Hck ->]. destruct b.
  - destruct (IH _ _ Hok1 (ck_ok _ _ Hck) (NoDup_filter _ _ Hnd) H) as [Hck' ->].
    split; [by eapply chains_kept_trans|]. apply filter_kept_kept, (ck_mono _ _ Hck').
  - by injection H as <- <-.
Qed.

(** ** What an edit leaves of an instruction it keeps *)

Record same_head (i i' : Inst) : Prop := mk_same_head {
  sh_op : i_op i' = i_op i;
  sh_arg0 : GetArg_Value i' 0 = GetArg_Value i 0;
  sh_id : i_id i' = i_id i;
  sh_ret : i_ret i' = i_ret i
}.

Lemma code_head i i' : code i' = code i -> same_head i i'.
Proof.
  intros [= Ho Ha Hi _ Hr]. split; try done.
  unfold GetArg_Value, get_slot, PublicIndex, ArgAt. by rewrite Ho, Ha.
Qed.

(** Everything kept in [h] has its head of [h0]. *)
Definition heads_kept (h0 h : Heap) : Prop :=
  forall q i', h !! q = Some i' -> exists i, h0 !! q = Some i /\ same_head i i'.

(** [GetPseudoOperations] after the pass. *)
Lemma check_pseudos_kept h0 h p ps :
  heads_kept h0 h ->
  check_pseudos h0 p ps = Ok tt -> check_pseudos h p (filter (kept h) ps) = Ok tt.
Proof.
  intros Hs. induction ps as [|q ps IH]; [done|]. simpl. intros H. minv H.
  destruct (decide (v_inst x0 = Some p)) as [E|]; [|done]. specialize (IH H).
  destruct (decide (kept h q)) as [Hk|]; [|by rewrite filter_cons_False].
  rewrite filter_cons_True by done. simpl. destruct Hk as [j Hj].
  destruct (Hs q j Hj) as (j0 & Hj0 & Hh). unfold deref in *. rewrite Hj0 in H0. injection H0 as <-.
  rewrite Hj. simpl. rewrite (sh_arg0 _ _ Hh), H1. simpl. by rewrite decide_True.
Qed.

Lemma GetPseudoOperations_kept h0 h p op ps :
  chains_kept h0 h -> heads_kept h0 h -> kept h p ->
  GetPseudoOperations_op h0 p op = Ok ps ->
  GetPseudoOperations_op h p op = Ok (filter (kept h) ps).
Proof.
  intros Hck Hs [j Hj] H. unfold GetPseudoOperations_op, GetPseudoOperations in H.
  minv H. unfold deref in H1. destruct (h0 !! p) as [j0|] eqn:Hj0; [|done]. injection H1 as <-.
  apply pseudo_chain_links in H2. apply (ck_links _ _ Hck p j0 j _ Hj0 Hj) in H2.
  unfold GetPseudoOperations_op, GetPseudoOperations, deref. rewrite Hj. cbn [rbind].
  rewrite (links_pseudo_chain _ _ _ _ H2)
    by (apply links_size in H2; unfold heap_fuel; lia).
  cbn [rbind]. destruct x2. rewrite (check_pseudos_kept h0 h p _ Hs) by done. cbn [rbind]. f_equal.
  rewrite !list_filter_filter. apply list_filter_iff. intros q.
  assert (kept h q -> ptr_op h q = ptr_op h0 q) as Hop.
  { intros [i' Hi']. destruct (Hs q i' Hi') as (i & Hi & Hh). unfold ptr_op.
    rewrite Hi', Hi. apply Hh. }
  split; intros [H4 H5]; split; try done; [rewrite <- Hop|rewrite Hop]; done.
Qed.
