(* ===== verification/DeadCodeSem.v ===== *)
(** * What dead code elimination deletes has no effect

    The link between the pass and the interpreter: an unused instruction whose
    opcode the pass may delete changes nothing but its own value slot when the
    interpreter executes it. *)

From Stdlib Require Import ZArith Lia.
From stdpp Require Import numbers base gmap list.
From S2P Require Import Prelude MachineInt IRTypes Instr UseCount InterpCore InterpFlags.
From S2P Require Import InterpScalar InterpMemory InterpVector Interp InterpInvariant.
From S2P Require Import FlagProps MemoryProps DeadCode.

Local Open Scope Z_scope.
Local Open Scope svm_scope.

(** Everything is equal but the words at the positions of [W]. *)
Record same_outside (W : nat -> Prop) (s s' : IState) : Prop := mk_same {
  same_flags : s_flags s' = s_flags s;
  same_current : s_current_loc s' = s_current_loc s;
  same_prev : s_prev_loc s' = s_prev_loc s;
  same_halt : s_halt s' = s_halt s;
  same_mem : s_mem s' = s_mem s;
  same_words : forall n, ~ W n -> s_stack s' !! n = s_stack s !! n
}.

(** Everything but the two words of the slot at [k]. *)
Definition slot_words (k n : nat) : Prop := n = k \/ n = S k.
Definition same_except (k : nat) : IState -> IState -> Prop := same_outside (slot_words k).

Lemma same_outside_refl W s : same_outside W s s.
Proof. by split. Qed.

Lemma same_outside_trans W s1 s2 s3 :
  same_outside W s1 s2 -> same_outside W s2 s3 -> same_outside W s1 s3.
Proof.
  intros H1 H2. split; try (destruct H1, H2; congruence). intros n Hn.
  rewrite (same_words _ _ _ H2) by done. by apply H1.
Qed.

Section Only.
Context (W : nat -> Prop).

Definition only {A} (m : M A) : Prop := forall s a s', m s = Ok (a, s') -> same_outside W s s'.

Lemma only_bind {A B} (m : M A) (f : A -> M B) :
  only m -> (forall a, only (f a)) -> only (bind m f).
Proof.
  intros Hm Hf s b s2 H. apply bind_ok in H as (a & s1 & H1 & H2).
  eapply same_outside_trans; [by eapply Hm|by eapply Hf].
Qed.

Lemma only_stack_read {A} (m : M A) : stack_read m -> only m.
Proof. intros Hm s a s' H. destruct (Hm s s a s' eq_refl H) as [-> _]. apply same_outside_refl. Qed.

Lemma only_ret {A} (a : A) : only (ret a).
Proof. apply only_stack_read, stack_read_ret. Qed.
Lemma only_fail {A} e : only (fail (A := A) e).
Proof. intros s a s' H. discriminate H. Qed.
Lemma only_lift {A} (r : Res A) : only (lift r).
Proof. apply only_stack_read, stack_read_lift. Qed.
Lemma only_gets {A} (f : IState -> A) : only (gets f).
Proof. intros s a s' [= <- <-]. apply same_outside_refl. Qed.
Lemma only_guard b e : only (guard b e).
Proof. destruct b; [apply only_ret|apply only_fail]. Qed.
Lemma only_mload a n : only (mload a n).
Proof. intros s x s' H. unfold mload in H. minv H. apply same_outside_refl. Qed.

Lemma only_set_word n w : W n -> only (set_word n w).
Proof.
  intros Hn s a s' H. unfold set_word in H. minv H. destruct (bool_decide _); [|discriminate H].
  unfold modify in H. injection H as _ <-. split; try done. intros j Hj. simpl.
  apply list_lookup_insert_ne. by intros ->.
Qed.
End Only.

Definition slot_index (i : Inst) : nat := (Z.to_nat (i_id i) * kSlotStride)%nat.

(** The slot of an instruction is within [W]. *)
Definition slot_within (W : nat -> Prop) (i : Inst) : Prop :=
  forall n, slot_words (slot_index i) n -> W n.

Section Slots.
Context (W : nat -> Prop) (h : Heap) (this : Ptr) (i : Inst).
Hypothesis Hthis : h !! this = Some i.
Hypothesis Hin : slot_within W i.

Lemma slot_this n (s s' : IState) :
  lift (slot_of h (Value_of this)) s = Ok (n, s') -> n = slot_index i /\ s' = s.
Proof.
  intros H. apply lift_ok in H as [H ->]. rewrite (slot_of_def h this i Hthis) in H.
  by injection H as <-.
Qed.

Lemma pure_WriteVec x : only W (WriteVec h this x).
Proof.
  intros s a s' H. unfold WriteVec in H. apply bind_ok in H as (n & s1 & H1 & H).
  apply slot_this in H1 as [-> ->]. revert H. apply only_bind; intros; apply only_set_word, Hin.
  - by left.
  - right. lia.
Qed.

Lemma pure_WriteScalar x : only W (WriteScalar h this x).
Proof.
  unfold WriteScalar. apply only_bind; [apply only_lift|]. intros j.
  destruct (decide _); [apply only_ret|]. destruct (IsVector _); [apply pure_WriteVec|].
  apply only_bind; [apply only_lift|]. intros m s a s' H.
  unfold SetReg64 in H. apply bind_ok in H as (w & s1 & H1 & H).
  apply slot_this in H1 as [-> ->]. revert H. apply only_set_word, Hin. by left.
Qed.
End Slots.

Section Ops.
Context (W : nat -> Prop) (h : Heap) (cfg : IConfig).
Context (host_fn : Z -> list Z -> M Z) (host_pair_fn : Z -> Z -> Z -> Z -> M (Z * Z)).
Context (this : Ptr) (i : Inst).
Hypothesis Hthis : h !! this = Some i.
Hypothesis Hin : slot_within W i.
Hypothesis Hrefs : forall q j v, h !! q = Some j -> v ∈ GetValues j -> v_inst v = Some this ->
  slot_within W j.
Hypothesis Hcpuid : forall a x y z, stack_read (host_pair_fn a x y z).

Abbreviation pure m := (only W m).

Lemma check_pseudos_in ps q j :
  check_pseudos h this ps = Ok tt -> q ∈ ps -> h !! q = Some j -> slot_within W j.
Proof.
  induction ps as [|r ps IH]; [by intros _ ?%not_elem_of_nil|]. simpl. intros H Hq Hj. minv H.
  destruct (decide (v_inst x0 = Some this)) as [E|]; [|done].
  apply elem_of_cons in Hq as [->|Hq]; [|by apply IH].
  unfold deref in H0. rewrite Hj in H0. injection H0 as ->.
  by eapply (Hrefs r x x0), E; [|eapply GetArg_Value_in].
Qed.

Lemma pure_WritePairResult a b op : pure (WritePairResult h this a b op).
Proof.
  unfold WritePairResult. apply only_bind; [by eapply pure_WriteScalar|]. intros _.
  intros s u s' H. apply bind_ok in H as (ps & s1 & H1 & H). apply lift_ok in H1 as [H1 ->].
  assert (forall q j, q ∈ ps -> h !! q = Some j -> slot_within W j) as Hps.
  { intros q j Hq. apply rbind_ok in H1 as (ps0 & H1 & [= <-]).
    apply rbind_ok in H1 as (k & _ & H1). apply rbind_ok in H1 as (ps1 & _ & H1).
    apply rbind_ok in H1 as ([] & Hc & [= <-]).
    apply list_elem_of_filter in Hq as [_ Hq]. by eapply check_pseudos_in. }
  revert H. apply only_bind; [apply only_guard|]. intros _.
  destruct ps as [|q ps]; [apply only_ret|]. destruct (h !! q) as [j|] eqn:Hq.
  - eapply pure_WriteScalar; [done|]. by apply (Hps q); [left|].
  - intros s1 x s2 H. unfold WriteScalar, deref in H. rewrite Hq in H. discriminate H.
Qed.

Lemma pure_readV j n : pure (readV h j n).
Proof.
  apply only_stack_read, stack_read_bind; [apply stack_read_lift|].
  intros. apply stack_read_ReadScalar.
Qed.
Lemma pure_readO j n : pure (readO h j n).
Proof.
  apply only_stack_read, stack_read_bind; [apply stack_read_lift|].
  intros. apply stack_read_EvalOperand.
Qed.
Lemma pure_readVec j n : pure (readVec h j n).
Proof.
  apply only_stack_read, stack_read_bind; [apply stack_read_lift|]. intros. apply stack_read_ReadVec.
Qed.
Lemma pure_readI j n : pure (readI j n).
Proof.
  apply only_stack_read, stack_read_bind; [apply stack_read_lift|]. intros. apply stack_read_ret.
Qed.
Lemma pure_ReadScalar v : pure (ReadScalar h v).
Proof. apply only_stack_read, stack_read_ReadScalar. Qed.
Lemma pure_ReadVec v : pure (ReadVec h v).
Proof. apply only_stack_read, stack_read_ReadVec. Qed.
Lemma pure_cpuid a x y z : pure (host_pair_fn a x y z).
Proof. apply only_stack_read, Hcpuid. Qed.

Create HintDb pure.
Lemma pure_WriteVec' x : pure (WriteVec h this x).
Proof. by eapply pure_WriteVec. Qed.
Lemma pure_WriteScalar' x : pure (WriteScalar h this x).
Proof. by eapply pure_WriteScalar. Qed.
#[local] Hint Resolve pure_WriteVec' pure_WriteScalar' only_ret only_fail only_lift only_gets only_guard only_mload
  pure_WritePairResult pure_readV pure_readO pure_readVec pure_readI
  pure_ReadScalar pure_ReadVec pure_cpuid : pure.

Ltac purely :=
  repeat first
    [ solve [eauto 2 with pure nocore]
    | progress cbv beta zeta
    | lazymatch goal with
      | |- only _ (bind _ _) => apply only_bind; [|intros ?]
      | |- only _ (if ?b then _ else _) => destruct b
      | |- only _ (match ?x with _ => _ end) => destruct x
      | |- only _ (?f _ _ _ _ _) => unfold f
      | |- only _ (?f _ _ _ _) => unfold f
      | |- only _ (?f _ _ _) => unfold f
      | |- only _ (?f _ _) => unfold f
      | |- only _ (?f _) => unfold f
      end ].

Lemma only_deref {A} (f : Inst -> M A) : pure (f i) -> pure (j <- lift (deref h this);; f j).
Proof.
  intros Hf s a s' H. apply bind_ok in H as (j & s1 & Hj & H). apply lift_ok in Hj as [Hj ->].
  unfold deref in Hj. rewrite Hthis in Hj. injection Hj as <-. by apply Hf in H.
Qed.

Lemma pure_run_inst :
  op_has_side_effects (i_op i) = false -> i_op i <> OpCode_LoadMemory ->
  i_op i <> OpCode_LoadMemoryTSO -> pure (run_inst h cfg host_fn host_pair_fn this).
Proof.
  intros Hse H1 H2. unfold run_inst. apply only_deref.
  destruct (i_op i) eqn:E; try done; purely.
Qed.
End Ops.

(** What the pass deletes has no effect: on consistent IR, executing an
    instruction that [Removable] accepts changes nothing but that instruction's
    own value slot, which no other instruction reads: flags, memory, the guest
    location, the halt reason and all other slots are untouched.  (The CPUID
    helper, a host function, is assumed to read only.) *)
Theorem removable_no_effect (ext : Ptr -> Z) (h : Heap) (cfg : IConfig)
  (host_fn : Z -> list Z -> M Z) (host_pair_fn : Z -> Z -> Z -> Z -> M (Z * Z))
  (p : Ptr) (i : Inst) (s s' : IState) :
  (forall a x y z, stack_read (host_pair_fn a x y z)) ->
  ir_ok ext h -> h !! p = Some i -> Removable i = true ->
  run_inst h cfg host_fn host_pair_fn p s = Ok (tt, s') ->
  same_except (slot_index i) s s'
  /\ (forall q j v, h !! q = Some j -> v ∈ GetValues j -> v_inst v <> Some p).
Proof.
  intros Hc Hok Hp Hr H. destruct (removable_unused ext h p i Hok Hp Hr) as [H0 _].
  assert (forall q j v, h !! q = Some j -> v ∈ GetValues j -> v_inst v <> Some p) as Hu.
  { intros q j v Hq Hv. by apply (count_heap_zero h p q j v). }
  split; [|done]. destruct (removable_op i Hr) as (H1 & H2 & H3).
  eapply (pure_run_inst _ h cfg host_fn host_pair_fn p i); try done.
  { by intros n Hn. }
  intros q j v Hq Hv E. by destruct (Hu q j v Hq Hv).
Qed.

Lemma removable_no_effect_witness :
  exists s', run_inst dce_sample_heap sample_config (fun _ _ => ret 0) (fun _ _ _ _ => ret (0, 0))
               2%positive (sample_state 5 0 7) = Ok (tt, s')
    /\ same_except 2 (sample_state 5 0 7) s'.
Proof.
  destruct (run_inst dce_sample_heap sample_config (fun _ _ => ret 0) (fun _ _ _ _ => ret (0, 0))
    2%positive (sample_state 5 0 7)) as [[[] s']|e] eqn:H; [|vm_compute in H; discriminate H].
  exists s'. split; [reflexivity|].
  refine (proj1 (removable_no_effect (fun _ => 0) dce_sample_heap sample_config (fun _ _ => ret 0)
    (fun _ _ _ _ => ret (0, 0)) 2%positive
    (mkInst OpCode_Neg [AValue (Value_of 1%positive); AVoid; AVoid; AVoid; AVoid]
       0 1 0 ValueType_U64 None) (sample_state 5 0 7) s' _ _ _ _ _)).
  - intros. apply stack_read_ret.
  - apply ir_check_sound. vm_compute. reflexivity.
  - reflexivity.
  - reflexivity.
  - exact H.
Defined.
