(* ===== verification/Simulation.v ===== *)
(** * Two heaps, one execution

    The relational counterpart of [keeps]: an optimisation turns the heap [h]
    into [h'], and the interpreter runs an instruction of both.  [sim Q m m']
    says that whenever [m] returns on some state, [m'] returns the same result
    on every related state, the result satisfies [Q] and the final states are
    related.  Related states agree on everything but the slots outside [pos].
    [sim_run_inst] lifts an agreement of the heaps to the whole instruction
    set, so that a pass only has to establish [heap_sim]. *)

From Stdlib Require Import ZArith Lia.
From stdpp Require Import numbers base gmap list.
From S2P Require Import Prelude MachineInt IRTypes Instr UseCount InterpCore InterpFlags.
From S2P Require Import InterpScalar InterpMemory InterpVector Interp InterpInvariant.
From S2P Require Import FlagProps DeadCode DeadCodeSem.

Local Open Scope Z_scope.
Local Open Scope svm_scope.

(** Agreement of two machine states on everything but the slots outside [pos]. *)
Record state_rel (pos : nat -> Prop) (s s' : IState) : Prop := mk_state_rel {
  rel_flags : s_flags s' = s_flags s;
  rel_current : s_current_loc s' = s_current_loc s;
  rel_prev : s_prev_loc s' = s_prev_loc s;
  rel_halt : s_halt s' = s_halt s;
  rel_mem : s_mem s' = s_mem s;
  rel_words : forall n, pos n -> s_stack s' !! n = s_stack s !! n
}.

Definition saves_flags (op : OpCode) : bool :=
  op_eqb op OpCode_SaveFlags || op_eqb op OpCode_BranchOnlyFlags.

(** Agreement of two heaps: [alive] instructions have the same slot and type,
    [full] ones the same code, which names only [alive] ones; a pseudo result
    that [h'] lacks is stored outside [pos]. *)
Record heap_sim (h h' : Heap) (alive full : Ptr -> Prop) (pos : nat -> Prop) : Prop := mk_heap_sim {
  hs_alive : forall p, alive p -> exists i i', h !! p = Some i /\ h' !! p = Some i'
    /\ i_id i = i_id i' /\ i_ret i = i_ret i' /\ pos (slot_index i) /\ pos (S (slot_index i));
  hs_full : forall p, full p -> alive p /\ code <$> h !! p = code <$> h' !! p;
  hs_values : forall p i v d, full p -> h !! p = Some i -> v ∈ GetValues i -> v_inst v = Some d ->
    alive d;
  hs_saved : forall p i v d, full p -> h !! p = Some i -> saves_flags (i_op i) = true ->
    GetArg_Value i 0 = Ok v -> v_inst v = Some d -> full d;
  hs_pseudo : forall p op ps, full p -> GetPseudoOperations_op h p op = Ok ps ->
    (length ps <= 1)%nat ->
    exists ps', GetPseudoOperations_op h' p op = Ok ps'
      /\ ((ps' = ps /\ Forall alive ps)
          \/ (ps' = [] /\ forall q i, q ∈ ps -> h !! q = Some i ->
                forall n, slot_words (slot_index i) n -> ~ pos n))
}.

(** ** The relational triple and its structural rules *)

Section Sim.
Context (pos : nat -> Prop).

Definition sim {A} (Q : A -> Prop) (m m' : M A) : Prop :=
  forall s s' a s1, state_rel pos s s' -> m s = Ok (a, s1) ->
    exists s1', m' s' = Ok (a, s1') /\ Q a /\ state_rel pos s1 s1'.

Abbreviation sims m m' := (sim trivial_post m m').

Lemma sim_bind {A B} (Q : A -> Prop) (R : B -> Prop) (m m' : M A) f f' :
  sim Q m m' -> (forall a, Q a -> sim R (f a) (f' a)) -> sim R (bind m f) (bind m' f').
Proof.
  intros Hm Hf s s' b s2 Hs H. apply bind_ok in H as (a & s1 & H1 & H2).
  destruct (Hm _ _ _ _ Hs H1) as (s1' & H1' & Ha & Hs1).
  destruct (Hf a Ha _ _ _ _ Hs1 H2) as (s2' & H2' & Hb & Hs2).
  exists s2'. by rewrite (bind_run _ _ _ _ _ H1').
Qed.

Lemma sim_ret {A} (Q : A -> Prop) (a : A) : Q a -> sim Q (ret a) (ret a).
Proof. intros Ha s s' b s1 Hs [= <- <-]. eexists. split; [reflexivity|done]. Qed.

Lemma sim_ret_any {A} (a : A) : sims (ret a) (ret a).
Proof. by apply sim_ret. Qed.

Lemma sim_fail {A} (Q : A -> Prop) e (m' : M A) : sim Q (fail e) m'.
Proof. intros s s' a s1 _ H. discriminate H. Qed.

Lemma sim_lift {A} (r : Res A) : sim (fun a => r = Ok a) (lift r) (lift r).
Proof.
  intros s s' a s1 Hs H. apply lift_ok in H as [H ->]. exists s'. by rewrite (lift_run _ _ _ H).
Qed.

(** A result of the first heap that the second heap gives as well. *)
Lemma sim_lift_to {A} (Q : A -> Prop) (r r' : Res A) :
  (forall a, r = Ok a -> r' = Ok a /\ Q a) -> sim Q (lift r) (lift r').
Proof.
  intros Hr s s' a s1 Hs H. apply lift_ok in H as [H ->]. destruct (Hr a H) as [H' HQ].
  exists s'. by rewrite (lift_run _ _ _ H').
Qed.

Lemma sim_weaken {A} (Q R : A -> Prop) (m m' : M A) :
  sim Q m m' -> (forall a, Q a -> R a) -> sim R m m'.
Proof.
  intros Hm HQ s s' a s1 Hs H. destruct (Hm _ _ _ _ Hs H) as (s1' & H1 & Ha & Hs1).
  exists s1'. auto.
Qed.

Lemma sim_any {A} (Q : A -> Prop) (m m' : M A) : sim Q m m' -> sims m m'.
Proof. intros. by eapply sim_weaken. Qed.

Lemma sim_lift_any {A} (r : Res A) : sims (lift r) (lift r).
Proof. eapply sim_any, sim_lift. Qed.

Lemma sim_guard b e : sims (guard b e) (guard b e).
Proof. destruct b; [apply sim_ret_any|apply sim_fail]. Qed.

(** A component of the state other than the slots. *)
Lemma sim_gets {A} (f : IState -> A) :
  (forall s s', state_rel pos s s' -> f s' = f s) -> sims (gets f) (gets f).
Proof.
  intros Hf s s' a s1 Hs [= <- <-]. exists s'. unfold gets. by rewrite (Hf _ _ Hs).
Qed.

Lemma sim_flags : sims (gets s_flags) (gets s_flags).
Proof. apply sim_gets. by intros s s' []. Qed.
Lemma sim_halt : sims (gets s_halt) (gets s_halt).
Proof. apply sim_gets. by intros s s' []. Qed.
Lemma sim_current : sims (gets s_current_loc) (gets s_current_loc).
Proof. apply sim_gets. by intros s s' []. Qed.

Lemma sim_modify f :
  (forall s s', state_rel pos s s' -> state_rel pos (f s) (f s')) -> sims (modify f) (modify f).
Proof. intros Hf s s' a s1 Hs [= <- <-]. eexists. split; [reflexivity|]. split; [done|by apply Hf]. Qed.

Lemma sim_set_flags f :
  sims (modify (fun s => set_flags (f (s_flags s)) s)) (modify (fun s => set_flags (f (s_flags s)) s)).
Proof. apply sim_modify. intros s s' []. split; simpl; first [congruence|done]. Qed.
Lemma sim_set_flags_to fl : sims (modify (set_flags fl)) (modify (set_flags fl)).
Proof. apply (sim_set_flags (fun _ => fl)). Qed.
Lemma sim_set_halt r : sims (modify (set_halt r)) (modify (set_halt r)).
Proof. apply sim_modify. intros s s' []. split; simpl; first [congruence|done]. Qed.
Lemma sim_set_current x : sims (modify (set_current_loc x)) (modify (set_current_loc x)).
Proof. apply sim_modify. intros s s' []. split; simpl; first [congruence|done]. Qed.

(** ** Slots and memory *)

Lemma sim_word_at n : pos n -> sims (word_at n) (word_at n).
Proof.
  intros Hn s s' a s1 Hs H. unfold word_at, bind, get in *. rewrite (rel_words _ _ _ Hs n Hn).
  destruct (s_stack s !! n); [|done]. injection H as <- <-. exists s'. done.
Qed.

Lemma sim_set_word n w : pos n -> sims (set_word n w) (set_word n w).
Proof.
  intros Hn s s' a s1 Hs H. unfold set_word, bind, get in *.
  destruct (bool_decide_reflect (n < length (s_stack s))%nat) as [Hlt|]; [|done].
  injection H as <- <-. apply lookup_lt_is_Some_2 in Hlt as [x Hx].
  pose proof (rel_words _ _ _ Hs n Hn) as Hx'. rewrite Hx in Hx'.
  apply lookup_lt_Some in Hx, Hx'. rewrite bool_decide_eq_true_2 by done.
  eexists. split; [reflexivity|]. split; [done|]. destruct Hs. split; simpl; try done.
  intros m Hm. destruct (decide (n = m)) as [->|Hne].
  - by rewrite !list_lookup_insert_eq.
  - rewrite !list_lookup_insert_ne by done. auto.
Qed.

(** A step the second execution does not make. *)
Lemma state_rel_skip W s s1 s' :
  same_outside W s s1 -> (forall n, W n -> ~ pos n) -> state_rel pos s s' -> state_rel pos s1 s'.
Proof.
  intros H HW Hs. split; try (destruct H, Hs; congruence). intros n Hn.
  rewrite (same_words _ _ _ H) by (intros Hw; by apply (HW n)). by apply Hs.
Qed.
End Sim.

(** Memory accesses. *)
Section MemSim.
Context (pos : nat -> Prop).
Abbreviation sims m m' := (sim pos trivial_post m m').

Lemma sim_mload a n : sims (mload a n) (mload a n).
Proof.
  intros s s' x s1 Hs H. unfold mload in *. minv H. exists s'. split; [|done].
  mstep. rewrite (rel_mem _ _ _ Hs). by repeat mstep.
Qed.

Lemma sim_set_mem m : sims (modify (set_mem m)) (modify (set_mem m)).
Proof. apply sim_modify. intros s s' []. by split. Qed.

(** A step that computes on the memory of the current state. *)
Lemma sim_get_mem {A} (f : gmap Z Z -> M A) :
  (forall m, sims (f m) (f m)) -> sims (s <- get;; f (s_mem s)) (s <- get;; f (s_mem s)).
Proof.
  intros Hf s s' a s1 Hs H. unfold bind, get in *. rewrite (rel_mem _ _ _ Hs). by eapply Hf.
Qed.

Lemma sim_mstore a n v : sims (mstore a n v) (mstore a n v).
Proof.
  unfold mstore.
  apply (sim_get_mem (fun mem => m <- lift (mem_write mem a (le_bytes n v));; modify (set_mem m))).
  intros mem. eapply sim_bind; [apply sim_lift|]. intros m _. apply sim_set_mem.
Qed.

Lemma sim_copy_in cap n a : sims (copy_in cap n a) (copy_in cap n a).
Proof. eapply sim_bind; [apply sim_guard|]. intros _ _. apply sim_mload. Qed.

Lemma sim_copy_out cap n a v : sims (copy_out cap n a v) (copy_out cap n a v).
Proof. eapply sim_bind; [apply sim_guard|]. intros _ _. apply sim_mstore. Qed.

Lemma sim_AtomicTransformValue n p f : sims (AtomicTransformValue n p f) (AtomicTransformValue n p f).
Proof.
  eapply sim_bind; [apply sim_mload|]. intros old _.
  eapply sim_bind; [apply sim_mstore|]. intros _ _. apply sim_ret_any.
Qed.

Lemma sim_AtomicCompareExchange n p e d :
  sims (AtomicCompareExchange n p e d) (AtomicCompareExchange n p e d).
Proof.
  eapply sim_bind; [apply sim_mload|]. intros old _.
  eapply (sim_bind _ trivial_post); [|intros _ _; apply sim_ret_any].
  destruct (old =? e); [apply sim_mstore|apply sim_ret_any].
Qed.
End MemSim.

(** ** Instructions of two agreeing heaps *)

Section Ops.
Context (h h' : Heap) (alive full : Ptr -> Prop) (pos : nat -> Prop).
Context (Hsim : heap_sim h h' alive full pos).

Abbreviation sims m m' := (sim pos trivial_post m m').

Definition live (v : Value) : Prop := forall d, v_inst v = Some d -> alive d.

(** The two versions of a [full] instruction. *)
Record inst_ok (i i' : Inst) : Prop := mk_inst_ok {
  io_code : code i = code i';
  io_live : forall v, v ∈ GetValues i -> live v
}.

Lemma sim_deref {A} (Q : A -> Prop) p f f' :
  full p ->
  (forall i i', h !! p = Some i -> inst_ok i i' -> i_op i' = i_op i -> i_ret i' = i_ret i ->
    sim pos Q (f i) (f' i')) ->
  sim pos Q (bind (lift (deref h p)) f) (bind (lift (deref h' p)) f').
Proof.
  intros Hp Hf s s' a s1 Hs H. apply bind_ok in H as (i & s2 & Hi & H). apply lift_ok in Hi as [Hi ->].
  unfold deref in Hi. destruct (h !! p) as [j|] eqn:Hj; [|done]. injection Hi as <-.
  destruct (hs_full _ _ _ _ _ Hsim p Hp) as [Ha Hc]. rewrite Hj in Hc.
  destruct (h' !! p) as [i'|] eqn:Hi'; [|done]. injection Hc as Ho Hargs Hid Hv Hr.
  destruct (Hf j i' eq_refl) with (s := s) (s' := s') (a := a) (s1 := s1)
    as (s1' & H1 & Hrest); try done.
  - split; [unfold code; congruence|]. intros v Hv' d Hd. by eapply (hs_values _ _ _ _ _ Hsim p).
  - exists s1'. split; [|done]. unfold deref. rewrite Hi'.
    by erewrite bind_run by reflexivity.
Qed.

Lemma alive_slot v n : live v -> slot_of h v = Ok n -> slot_of h' v = Ok n /\ pos n /\ pos (n + 1)%nat.
Proof.
  unfold slot_of, deref. intros Hl H. destruct (v_inst v) as [p|] eqn:Hv; [|done].
  destruct (hs_alive _ _ _ _ _ Hsim p (Hl p Hv)) as (i & i' & Hi & Hi' & Hid & _ & Hp & Hp').
  rewrite Hi in H. injection H as <-. rewrite Hi'. simpl. rewrite <- Hid. split; [done|].
  rewrite Nat.add_1_r. done.
Qed.

Lemma sim_slot_of v :
  live v -> sim pos (fun n => pos n /\ pos (n + 1)%nat) (lift (slot_of h v)) (lift (slot_of h' v)).
Proof. intros Hl. apply sim_lift_to. intros n. by apply alive_slot. Qed.

Lemma sim_ReadScalar v : live v -> sims (ReadScalar h v) (ReadScalar h' v).
Proof.
  intros Hl. eapply sim_bind; [by apply sim_slot_of|]. intros n [Hn _]. by apply sim_word_at.
Qed.

Lemma sim_ReadVec v : live v -> sims (ReadVec h v) (ReadVec h' v).
Proof.
  intros Hl. eapply sim_bind; [by apply sim_slot_of|]. intros n [Hn Hn'].
  eapply sim_bind; [by apply sim_word_at|]. intros lo _.
  eapply sim_bind; [by apply sim_word_at|]. intros hi _. apply sim_ret_any.
Qed.

Lemma sim_Value_Type v : live v -> sims (lift (Value_Type h v)) (lift (Value_Type h' v)).
Proof.
  intros Hl. apply sim_lift_to. intros t H. split; [|done]. unfold Value_Type, Value_def in *.
  destruct (v_inst v) as [p|] eqn:Hv; [|done]. simpl in *.
  destruct (decide _); [|done]. unfold deref in *.
  destruct (hs_alive _ _ _ _ _ Hsim p (Hl p Hv)) as (i & i' & Hi & Hi' & _ & Hr & _).
  rewrite Hi in H. rewrite Hi'. simpl in *. by rewrite <- Hr.
Qed.

Lemma live_of p : alive p -> live (Value_of p).
Proof. by intros Hp d [= <-]. Qed.

Lemma sim_WriteVec p x : alive p -> sims (WriteVec h p x) (WriteVec h' p x).
Proof.
  intros Hp. eapply sim_bind; [by apply sim_slot_of, live_of|]. intros n [Hn Hn'].
  eapply sim_bind; [by apply sim_set_word|]. intros _ _. by apply sim_set_word.
Qed.

Lemma sim_ret_type {A} (Q : A -> Prop) p f f' :
  alive p -> (forall i i', i_ret i' = i_ret i -> sim pos Q (f i) (f' i')) ->
  sim pos Q (bind (lift (deref h p)) f) (bind (lift (deref h' p)) f').
Proof.
  intros Hp Hf s s' a s1 Hs H.
  destruct (hs_alive _ _ _ _ _ Hsim p Hp) as (i & i' & Hi & Hi' & _ & Hr & _).
  unfold deref in *. rewrite Hi in H. rewrite Hi'.
  erewrite bind_run in H by reflexivity. erewrite bind_run by reflexivity.
  eapply Hf; [done|exact Hs|exact H].
Qed.

Lemma sim_WriteScalar p x : alive p -> sims (WriteScalar h p x) (WriteScalar h' p x).
Proof.
  intros Hp. unfold WriteScalar. apply sim_ret_type; [done|]. intros i i' ->.
  destruct (decide _); [apply sim_ret_any|]. destruct (IsVector _); [by apply sim_WriteVec|].
  eapply sim_bind; [apply sim_lift|]. intros m _.
  eapply sim_bind; [by apply sim_slot_of, live_of|]. intros k [Hk _]. by apply sim_set_word.
Qed.

Lemma sim_WritePairResult p x y op :
  full p -> sims (WritePairResult h p x y op) (WritePairResult h' p x y op).
Proof.
  intros Hp. destruct (hs_full _ _ _ _ _ Hsim p Hp) as [Ha _].
  eapply sim_bind; [by apply sim_WriteScalar|]. intros _ _ s s' u s1 Hs H.
  apply bind_ok in H as (ps & s2 & Hps & H). apply lift_ok in Hps as [Hps ->].
  apply bind_ok in H as ([] & s2 & Hg & H). unfold guard in Hg.
  destruct (bool_decide_reflect (length ps <= 1)%nat) as [Hlen|]; [|done]. minv Hg.
  destruct (hs_pseudo _ _ _ _ _ Hsim p op ps Hp Hps Hlen) as (ps' & Hps' & Hcase).
  erewrite bind_run by (apply lift_run, Hps'). cbv beta.
  destruct Hcase as [[-> Hal]|[-> Hdead]].
  - rewrite bool_decide_eq_true_2 by done. erewrite bind_run by reflexivity. cbv beta.
    destruct ps as [|q ps]; [by eapply sim_ret_any|]. apply Forall_cons in Hal as [Hq _].
    by eapply sim_WriteScalar.
  - exists s'. split; [by destruct u|]. split; [done|].
    destruct ps as [|q ps]; [by minv H|]. unfold WriteScalar, deref in H.
    destruct (h !! q) as [j|] eqn:Hq; [|done]. specialize (Hdead q j ltac:(left) Hq).
    eapply (state_rel_skip _ (slot_words (slot_index j))); [|exact Hdead|done].
    apply (pure_WriteScalar _ h q j Hq (fun n Hn => Hn) y _ u). unfold WriteScalar, deref. by rewrite Hq.
Qed.

(** ** Arguments *)

Section Args.
Context (i i' : Inst) (Hi : inst_ok i i').

Lemma get_slot_code n : get_slot i' n = get_slot i n.
Proof.
  destruct Hi as [Hc _]. injection Hc as Ho Ha _ _ _. unfold get_slot, PublicIndex, ArgAt.
  by rewrite Ho, Ha.
Qed.

Lemma sim_slot_arg {A} (f : Arg -> Res A) n :
  sim pos (fun a => rbind (get_slot i n) f = Ok a)
    (lift (rbind (get_slot i n) f)) (lift (rbind (get_slot i' n) f)).
Proof. rewrite get_slot_code. apply sim_lift. Qed.

Lemma sim_GetArg_Value n : sim pos live (lift (GetArg_Value i n)) (lift (GetArg_Value i' n)).
Proof.
  eapply sim_weaken; [apply sim_slot_arg|]. intros v Hv.
  apply (io_live _ _ Hi). eapply GetArg_Value_in, Hv.
Qed.
Lemma sim_GetArg_Imm n : sims (lift (GetArg_Imm i n)) (lift (GetArg_Imm i' n)).
Proof. eapply sim_any, sim_slot_arg. Qed.
Lemma sim_GetArg_Uniform n : sims (lift (GetArg_Uniform i n)) (lift (GetArg_Uniform i' n)).
Proof. eapply sim_any, sim_slot_arg. Qed.
Lemma sim_GetArg_Local n : sims (lift (GetArg_Local i n)) (lift (GetArg_Local i' n)).
Proof. eapply sim_any, sim_slot_arg. Qed.
Lemma sim_GetArg_Cond n : sims (lift (GetArg_Cond i n)) (lift (GetArg_Cond i' n)).
Proof. eapply sim_any, sim_slot_arg. Qed.
Lemma sim_GetArg_Flags n : sims (lift (GetArg_Flags i n)) (lift (GetArg_Flags i' n)).
Proof. eapply sim_any, sim_slot_arg. Qed.

Definition live_data (d : DataClass) : Prop := forall v, v ∈ dc_values d -> live v.
Definition live_operand (o : Operand) : Prop := live_data (o_left o) /\ live_data (o_right o).
Definition live_lambda (l : Lambda) : Prop := Lambda_IsValue l = true -> live_data (la_data l).

Lemma dc_values_in d v : v ∈ dc_values d -> d = DValue v.
Proof.
  destruct d as [|w|]; simpl; [by intros ?%not_elem_of_nil| |by intros ?%not_elem_of_nil].
  by intros ->%list_elem_of_singleton.
Qed.

Lemma live_DValue v : live_data (DValue v) <-> live v.
Proof.
  split; [intros H; apply H; left|]. by intros H w ->%list_elem_of_singleton.
Qed.

Lemma sim_ArgAt n : sims (lift (ArgAt i n)) (lift (ArgAt i' n)).
Proof.
  destruct Hi as [Hc _]. injection Hc as _ Ha _ _ _. unfold ArgAt. rewrite Ha. apply sim_lift_any.
Qed.

Lemma sim_GetArg_Operand n :
  sim pos live_operand (lift (GetArg_Operand i n)) (lift (GetArg_Operand i' n)).
Proof.
  apply sim_lift_to. intros o H. split.
  - destruct Hi as [Hc _]. injection Hc as Ho Ha _ _ _.
    unfold GetArg_Operand, PublicIndex, ArgAt in *. by rewrite <- Ho, <- Ha.
  - split; intros v Hv; apply (io_live _ _ Hi); eapply GetArg_Operand_in; try done.
    + left. by apply dc_values_in.
    + right. by apply dc_values_in.
Qed.

Lemma sim_GetArg_Lambda n :
  sim pos live_lambda (lift (GetArg_Lambda i n)) (lift (GetArg_Lambda i' n)).
Proof.
  eapply sim_weaken; [apply sim_slot_arg|]. intros l H Hv v Hin. simpl in H.
  apply rbind_ok in H as (a & Ha & H). destruct a; try done. injection H as ->.
  apply get_slot_in in Ha as [k Hk]. apply (io_live _ _ Hi).
  eapply arg_in_GetValues; [exact Hk|]. simpl. by rewrite Hv.
Qed.

Lemma sim_GetArg_Params n :
  sim pos (Forall live_data) (lift (GetArg_Params i n)) (lift (GetArg_Params i' n)).
Proof.
  eapply sim_weaken; [apply sim_slot_arg|]. intros ps H. simpl in H.
  apply rbind_ok in H as (a & Ha & H). destruct a; try done. injection H as ->.
  apply get_slot_in in Ha as [k Hk]. apply Forall_forall. intros d Hd v Hv.
  apply (io_live _ _ Hi). eapply arg_in_GetValues; [exact Hk|]. simpl.
  apply list_elem_of_join. exists (dc_values d). split; [done|]. apply list_elem_of_fmap. eauto.
Qed.

Lemma lambda_args_code idx : lambda_args i' idx = lambda_args i idx.
Proof.
  induction idx as [|n idx IH]; [done|]. simpl. unfold GetArg_Value, GetArg_Imm.
  rewrite get_slot_code, IH. unfold ArgAt. destruct Hi as [Hc _].
  by injection Hc as _ -> _ _ _.
Qed.

Lemma sim_lambda_args idx :
  sim pos (Forall live_data) (lift (lambda_args i idx)) (lift (lambda_args i' idx)).
Proof.
  rewrite lambda_args_code. eapply sim_weaken; [apply sim_lift|].
  induction idx as [|n idx IH]; intros ds H; simpl in H; [by injection H as <-|].
  minv H. apply Forall_app. split; [|by apply IH].
  destruct x; minv H1; try done; (constructor; [|done]); [|by intros v ?%not_elem_of_nil].
  apply live_DValue. by eapply (io_live _ _ Hi), GetArg_Value_in.
Qed.
End Args.

(** ** Operands *)

Lemma live_left v o : live_operand o -> o_left o = DValue v -> live v.
Proof. intros [Hl _] E. apply Hl. rewrite E. left. Qed.

Lemma sim_EvalDataClass d : live_data d -> sims (EvalDataClass h d) (EvalDataClass h' d).
Proof.
  intros Hd. destruct d; [apply sim_ret_any| |apply sim_ret_any].
  apply sim_ReadScalar. by apply live_DValue.
Qed.

Lemma sim_EvalOperand o : live_operand o -> sims (EvalOperand h o) (EvalOperand h' o).
Proof.
  intros Ho. destruct (Ho) as [Hl Hr]. unfold EvalOperand.
  eapply sim_bind; [by apply sim_EvalDataClass|]. intros l _.
  destruct (o_right o) as [|v|m]; [apply sim_ret_any|..];
    (eapply sim_bind; [by apply sim_EvalDataClass|]; intros r _;
     destruct (oo_type (o_op o)); try apply sim_ret_any).
  all: try (eapply sim_bind; [apply sim_lift|]; intros; apply sim_ret_any).
  all: eapply (sim_bind _ trivial_post);
    [destruct (o_left o) as [|w|] eqn:E; [apply sim_ret_any| |apply sim_ret_any];
     by apply sim_Value_Type, live_DValue
    |intros; eapply sim_bind; [apply sim_lift|]; intros; apply sim_ret_any].
Qed.

Lemma sim_EvalLambda l : live_lambda l -> sims (EvalLambda h l) (EvalLambda h' l).
Proof.
  intros Hl. unfold EvalLambda. destruct (Lambda_IsValue l) eqn:E.
  - eapply sim_bind; [apply sim_lift|]. intros v Hv. apply sim_ReadScalar.
    specialize (Hl E). unfold Lambda_GetValue in Hv. destruct (la_type l =? 1); [|done].
    destruct (la_data l) as [|w|]; try done. injection Hv as ->. by apply live_DValue.
  - eapply sim_bind; [apply sim_lift|]. intros. apply sim_ret_any.
Qed.

Lemma sim_eval_args l : Forall live_data l -> sims (eval_args h l) (eval_args h' l).
Proof.
  induction 1; simpl; [apply sim_ret_any|].
  eapply sim_bind; [by apply sim_EvalDataClass|]. intros.
  eapply sim_bind; [done|]. intros. apply sim_ret_any.
Qed.

Section Reads.
Context (i i' : Inst) (Hi : inst_ok i i').

Lemma sim_readV n : sims (readV h i n) (readV h' i' n).
Proof. eapply sim_bind; [by apply sim_GetArg_Value|]. intros. by apply sim_ReadScalar. Qed.
Lemma sim_readVec n : sims (readVec h i n) (readVec h' i' n).
Proof. eapply sim_bind; [by apply sim_GetArg_Value|]. intros. by apply sim_ReadVec. Qed.
Lemma sim_readO n : sims (readO h i n) (readO h' i' n).
Proof. eapply sim_bind; [by apply sim_GetArg_Operand|]. intros. by apply sim_EvalOperand. Qed.
Lemma sim_readI n : sims (readI i n) (readI i' n).
Proof. eapply sim_bind; [by apply sim_GetArg_Imm|]. intros. apply sim_ret_any. Qed.
Lemma sim_readU32 n : sims (readU32 i n) (readU32 i' n).
Proof. eapply sim_bind; [by apply sim_readI|]. intros. apply sim_ret_any. Qed.
Lemma sim_readBool n : sims (readBool i n) (readBool i' n).
Proof. eapply sim_bind; [by apply sim_readI|]. intros. apply sim_ret_any. Qed.
Lemma sim_ret_bits : sims (ret_bits i) (ret_bits i').
Proof. destruct Hi as [Hc _]. injection Hc as _ _ _ _ Hr. unfold ret_bits. rewrite Hr. apply sim_lift_any. Qed.
End Reads.

(** ** Walking through an instruction *)

Context (cfg : IConfig).
Context (host_fn : Z -> list Z -> M Z) (host_pair_fn : Z -> Z -> Z -> Z -> M (Z * Z)).
Hypothesis host_sim : forall a l, sims (host_fn a l) (host_fn a l).
Hypothesis host_pair_sim : forall a x y z, sims (host_pair_fn a x y z) (host_pair_fn a x y z).

Create HintDb sim.
#[local] Hint Resolve sim_ret_any sim_fail sim_lift_any sim_guard sim_flags sim_current
  sim_set_flags sim_set_flags_to sim_set_halt sim_set_current sim_copy_in sim_copy_out
  sim_AtomicTransformValue sim_AtomicCompareExchange sim_ReadScalar sim_ReadVec sim_Value_Type
  sim_WriteVec sim_WriteScalar sim_WritePairResult sim_GetArg_Imm sim_GetArg_Uniform
  sim_GetArg_Local sim_GetArg_Cond sim_GetArg_Flags sim_ArgAt sim_EvalOperand sim_EvalLambda
  sim_eval_args sim_readV sim_readVec sim_readO sim_readI sim_readU32 sim_readBool sim_ret_bits
  host_sim host_pair_sim : sim.

Ltac leaf := solve [eauto 5 with sim nocore].

(** Two computations of one shape, step by step. *)
Ltac walk :=
  repeat first
    [ leaf
    | progress cbv beta zeta
    | lazymatch goal with
      | |- sim _ _ (bind (lift (GetArg_Value _ _)) _) _ =>
          eapply sim_bind; [eapply sim_GetArg_Value; eassumption|intros ? ?]
      | |- sim _ _ (bind (lift (GetArg_Operand _ _)) _) _ =>
          eapply sim_bind; [eapply sim_GetArg_Operand; eassumption|intros ? ?]
      | |- sim _ _ (bind (lift (GetArg_Lambda _ _)) _) _ =>
          eapply sim_bind; [eapply sim_GetArg_Lambda; eassumption|intros ? ?]
      | |- sim _ _ (bind (lift (GetArg_Params _ _)) _) _ =>
          eapply sim_bind; [eapply sim_GetArg_Params; eassumption|intros ? ?]
      | |- sim _ _ (bind (lift (lambda_args _ _)) _) _ =>
          eapply sim_bind; [eapply sim_lambda_args; eassumption|intros ? ?]
      | |- sim _ _ (bind (lift (deref _ _)) _) _ =>
          eapply sim_deref; [eassumption|];
          let i := fresh "i" in let i' := fresh "i'" in let Hi := fresh "Hi" in
          let Ho := fresh "Ho" in let Hr := fresh "Hr" in
          intros i i' _ Hi Ho Hr; rewrite ?Ho, ?Hr
      | |- sim _ _ (bind _ _) _ => eapply (sim_bind _ trivial_post); [|intros ? _]
      | |- sim _ _ (if ?b then _ else _) _ => destruct b
      | |- sim _ _ (match ?x with _ => _ end) _ => destruct x
      end ].

Section Saved.
Context (i i' : Inst) (Hi : inst_ok i i') (Ho : i_op i' = i_op i).

Lemma sim_alu_operands : sims (alu_operands h i) (alu_operands h' i').
Proof. unfold alu_operands. rewrite ?Ho. walk. Qed.

Lemma sim_carry_overflow b r fl : sims (carry_overflow h i b r fl) (carry_overflow h' i' b r fl).
Proof. 
  pose proof sim_alu_operands. unfold carry_overflow. rewrite Ho. destruct (i_op i); walk.
Qed.

Lemma sim_auxiliary_carry r : sims (auxiliary_carry h i r) (auxiliary_carry h' i' r).
Proof.
  pose proof sim_alu_operands. unfold auxiliary_carry. rewrite Ho. destruct (i_op i); walk.
Qed.
End Saved.
#[local] Hint Resolve sim_carry_overflow sim_auxiliary_carry live_of : sim.

Lemma full_alive p : full p -> alive p.
Proof. intros Hp. by destruct (hs_full _ _ _ _ _ Hsim p Hp). Qed.
#[local] Hint Resolve full_alive : sim.

Lemma sim_SaveGuestFlags def f :
  full def -> sims (SaveGuestFlags h def f) (SaveGuestFlags h' def f).
Proof. intros Hd. unfold SaveGuestFlags. walk. Qed.

Lemma sim_CallHostFunc l args :
  live_lambda l -> Forall live_data args ->
  sims (CallHostFunc h host_fn l args) (CallHostFunc h' host_fn l args).
Proof.
  intros Hl Ha. unfold CallHostFunc.
  eapply sim_bind; [by apply sim_eval_args, Forall_take|]. intros argv _.
  eapply sim_bind; [by apply sim_EvalLambda|]. intros a _. apply host_sim.
Qed.

Lemma sim_load_typed p t a : alive p -> sims (load_typed h p t a) (load_typed h' p t a).
Proof. intros Hp. unfold load_typed. walk. Qed.

Lemma sim_store_typed v t a : live v -> sims (store_typed h v t a) (store_typed h' v t a).
Proof. intros Hv. unfold store_typed. walk. Qed.

Lemma sim_RunMemoryCopy p : full p -> sims (RunMemoryCopy h cfg p) (RunMemoryCopy h' cfg p).
Proof.
  intros Hp. unfold RunMemoryCopy.
  eapply sim_deref; [done|]. intros i i' _ Hi Ho Hr.
  eapply sim_bind; [by eapply sim_GetArg_Lambda|]. intros dst Hdst.
  eapply sim_bind; [by eapply sim_GetArg_Lambda|]. intros src Hsrc.
  eapply sim_bind; [by apply sim_readI|]. intros size _.
  eapply sim_bind; [by apply sim_EvalLambda|]. intros d _.
  eapply sim_bind; [by apply sim_EvalLambda|]. intros a _.
  apply (sim_get_mem pos (fun mem => bs <- lift (mem_read mem (host_addr cfg a) (Z.to_nat size));;
    m <- lift (mem_write mem (host_addr cfg d) bs);; modify (set_mem m))).
  intros mem. eapply sim_bind; [apply sim_lift|]. intros bs _.
  eapply sim_bind; [apply sim_lift|]. intros m _. apply sim_set_mem.
Qed.

Lemma sim_RunSaveFlags p i :
  full p -> h !! p = Some i -> saves_flags (i_op i) = true ->
  sims (RunSaveFlags h p) (RunSaveFlags h' p).
Proof.
  intros Hp Hi Hs. unfold RunSaveFlags. eapply sim_deref; [done|]. intros j j' Hj Hok _ _.
  rewrite Hi in Hj. injection Hj as <-.
  eapply (sim_bind _ (fun v => GetArg_Value i 0 = Ok v)).
  { apply sim_lift_to. intros v Hv. split; [|done]. revert Hv. unfold GetArg_Value.
    by rewrite (get_slot_code _ _ Hok). }
  intros v Hv. eapply sim_bind; [apply sim_lift|]. intros def Hdef.
  destruct (v_inst v) as [q|] eqn:Hq; [|done]. injection Hdef as ->.
  eapply sim_bind; [by apply sim_GetArg_Flags|]. intros f _.
  apply sim_SaveGuestFlags. by eapply (hs_saved _ _ _ _ _ Hsim p).
Qed.

Lemma sim_RunInvertCarry : sims RunInvertCarry RunInvertCarry.
Proof. apply (sim_set_flags pos (fun fl => Z.lxor fl (bit64 kHostFlagC))). Qed.
#[local] Hint Resolve sim_RunInvertCarry sim_CallHostFunc sim_load_typed sim_store_typed sim_RunMemoryCopy
  sim_RunSaveFlags : sim.

Ltac unfold_op :=
  lazymatch goal with
  | |- sim _ _ (?f _ _ _ _ _) _ => unfold f
  | |- sim _ _ (?f _ _ _ _) _ => unfold f
  | |- sim _ _ (?f _ _ _) _ => unfold f
  | |- sim _ _ (?f _ _) _ => unfold f
  | |- sim _ _ (?f _) _ => unfold f
  | |- sim _ _ ?f _ => unfold f
  end.

(** Executing an instruction that both heaps have gives related results. *)
Lemma sim_run_inst p :
  full p -> sims (run_inst h cfg host_fn host_pair_fn p) (run_inst h' cfg host_fn host_pair_fn p).
Proof.
  intros Hp. unfold run_inst. eapply sim_deref; [done|]. intros i i' Hi Hok Ho Hr.
  rewrite Ho. pose proof (full_alive p Hp) as Ha.
  destruct (i_op i) eqn:E;
    first [ eapply sim_RunSaveFlags; [done|exact Hi|by rewrite E] | leaf | unfold_op; walk ].
Qed.
End Ops.
