(* ===== verification/BlockEdit.v ===== *)
(** * Running an edited block

    A pass deletes instructions of a block and may rewrite arguments of others.
    This file relates the loop of [Interpreter::Run()] over the original list
    and over what is left of it: a position of the original list corresponds to
    the number of kept instructions before it, labels move accordingly, and the
    two loops stay in step when the instructions do ([edit_loop]). *)

From Stdlib Require Import ZArith Lia.
From stdpp Require Import numbers base gmap list.
From S2P Require Import Prelude MachineInt IRTypes Instr UseCount InterpCore InterpFlags.
From S2P Require Import InterpScalar InterpMemory InterpVector Interp.
From S2P Require Import InterpInvariant InterpRun MemoryProps.
From S2P Require Import DeadCode DeadCodeChain DeadCodeSem Simulation.

Local Open Scope Z_scope.
Local Open Scope svm_scope.

(** The values a terminal reads. *)
Fixpoint term_values (t : Terminal) : list Value :=
  match t with
  | If c t1 t2 => c :: term_values t1 ++ term_values t2
  | Condition _ t1 t2 => term_values t1 ++ term_values t2
  | Switch v cases =>
      v :: (fix go (l : list (Imm * Terminal)) : list Value :=
              match l with [] => [] | (_, t') :: l' => term_values t' ++ go l' end) cases
  | CheckHalt t1 => term_values t1
  | _ => []
  end.

(** A host function that does not look at the interpreter's value slots. *)
Definition ignores_slots {A} (m : M A) : Prop :=
  forall s a s1 st, m s = Ok (a, s1) ->
    s_stack s1 = s_stack s /\ m (set_stack st s) = Ok (a, set_stack st s1).

Lemma ignores_slots_sim pos {A} (m : M A) : ignores_slots m -> sim pos trivial_post m m.
Proof.
  intros Hm s s' a s1 Hs H. destruct (Hm s a s1 (s_stack s') H) as [Hst H'].
  assert (s' = set_stack (s_stack s') s) as E.
  { destruct Hs, s, s'. unfold set_stack. simpl in *. by subst. }
  rewrite <- E in H'. eexists. split; [exact H'|]. split; [done|].
  split; try done. intros k Hk. simpl. rewrite Hst. by apply Hs.
Qed.

Lemma read_pure h v s x s1 : ReadScalar h v s = Ok (x, s1) -> s1 = s.
Proof. intros H. by destruct (stack_read_ReadScalar h v s s x s1 eq_refl H). Qed.

Lemma sim_terminal h h' alive full pos (Hsim : heap_sim h h' alive full pos) t :
  (forall v, v ∈ term_values t -> live alive v) ->
  sim pos trivial_post (RunTerminal h t) (RunTerminal h' t).
Proof.
  revert t. fix IH 1. intros t Hv.
  assert (forall x, sim pos trivial_post (s <- get;; modify (set_prev_loc (s_current_loc s));;;
    modify (set_current_loc x);;; ret HaltReason_None) (s <- get;; modify (set_prev_loc (s_current_loc s));;;
    modify (set_current_loc x);;; ret HaltReason_None)) as Hlink.
  { intros x s s' a s1 Hs [= <- <-]. eexists. split; [reflexivity|]. split; [done|].
    destruct Hs. split; simpl; first [congruence|done]. }
  destruct t as [| | |x|x|x| |c t1 t2|c t1 t2|v cases|t1]; simpl in *;
    try apply sim_ret_any; try apply Hlink.
  - eapply sim_bind; [apply sim_set_halt|]. intros. apply sim_ret_any.
  - eapply sim_bind; [eapply sim_ReadScalar; [exact Hsim|apply Hv; left]|]. intros x _.
    destruct (negb _); apply IH; intros w Hw; apply Hv; right; apply elem_of_app; auto.
  - eapply sim_bind; [apply sim_flags|]. intros fl _.
    destruct (EvalCondition c fl); apply IH; intros w Hw; apply Hv, elem_of_app; auto.
  - eapply sim_bind; [eapply sim_ReadScalar; [exact Hsim|apply Hv; left]|]. intros x _.
    assert (forall w, w ∈ (fix go (l : list (Imm * Terminal)) : list Value :=
              match l with [] => [] | (_, t') :: l' => term_values t' ++ go l' end) cases ->
              live alive w) as Hc by (intros w Hw; apply Hv; by right).
    clear Hv. induction cases as [|[m t'] cases IHc]; [apply sim_ret_any|].
    destruct (x =? Imm_Get m); [apply IH|apply IHc]; intros w Hw; apply Hc, elem_of_app; auto.
  - eapply sim_bind; [apply sim_halt|]. intros r _. destruct (decide _); [by apply IH|].
    apply sim_ret_any.
Qed.

Section Edit.
Context (h h' : Heap) (l : list Ptr).

Abbreviation alive := (kept h').
Abbreviation l' := (filter alive l).

Hypothesis Hhead : heads_kept h h'.
Hypothesis Hin : forall p, p ∈ l -> kept h p.
Hypothesis Hbind : forall p i, p ∈ l -> h !! p = Some i -> i_op i = OpCode_BindLabel -> alive p.

(** ** Positions *)

(** The position in [l'] that corresponds to the position [k] of [l]. *)
Definition new_pos (k : nat) : nat := length (filter alive (take k l)).

Lemma pos_S k p : l !! k = Some p ->
  new_pos (S k) = (new_pos k + (if decide (alive p) then 1 else 0))%nat.
Proof.
  intros Hk. unfold new_pos. rewrite (take_S_r _ _ _ Hk), list.filter_app, length_app.
  destruct (decide (alive p)).
  - by rewrite (filter_cons_True alive).
  - by rewrite (filter_cons_False alive).
Qed.

Lemma pos_kept k p :
  l !! k = Some p -> alive p -> l' !! new_pos k = Some p /\ new_pos (S k) = S (new_pos k).
Proof.
  intros Hk Hp. rewrite (pos_S k p Hk), decide_True by done. split; [|lia].
  assert (l' = filter alive (take k l) ++ p :: filter alive (drop (S k) l)) as ->.
  { rewrite <- (filter_cons_True alive) by done. rewrite <- list.filter_app. f_equal.
    symmetry. by apply take_drop_middle. }
  unfold new_pos. by rewrite list_lookup_middle.
Qed.

Lemma pos_dead k p : l !! k = Some p -> ~ alive p -> new_pos (S k) = new_pos k.
Proof. intros Hk Hp. rewrite (pos_S k p Hk), decide_False by done. lia. Qed.

Lemma pos_end k : l !! k = None -> l' !! new_pos k = None.
Proof.
  intros Hk. apply lookup_ge_None in Hk. apply lookup_ge_None. unfold new_pos. by rewrite take_ge.
Qed.

(** ** Labels *)

Definition new_label (e : option Ptr * nat) : option Ptr * nat := (fst e, new_pos (snd e)).

Lemma labels_from pre post acc labels :
  l = pre ++ post ->
  foldl (labels_step h) (Ok acc) (imap (fun k p => (length pre + k, p)%nat) post) = Ok labels ->
  foldl (labels_step h') (Ok (new_label <$> acc))
    (imap (fun k p => (length (filter alive pre) + k, p)%nat) (filter alive post))
  = Ok (new_label <$> labels).
Proof.
  revert pre acc. induction post as [|p post IH]; intros pre acc Hl H; [by injection H as <-|].
  assert (l = (pre ++ [p]) ++ post) as Hl' by (by rewrite <- app_assoc).
  assert (l !! length pre = Some p) as Hp by (rewrite Hl; by apply list_lookup_middle).
  assert (p ∈ l) as Hpl by (by eapply list_elem_of_lookup_2).
  assert (new_pos (length pre) = length (filter alive pre)) as Hpos.
  { unfold new_pos. by rewrite Hl, take_app_length. }
  assert (exists acc1, labels_step h (Ok acc) (length pre, p) = Ok acc1) as [acc1 Hacc].
  { rewrite imap_cons in H. cbn [foldl] in H. rewrite Nat.add_0_r in H.
    destruct (labels_step h (Ok acc) (length pre, p)) as [x|e]; [by eauto|].
    by rewrite labels_err in H. }
  specialize (IH (pre ++ [p]) acc1 Hl').
  rewrite imap_cons in H. cbn [foldl] in H. rewrite Nat.add_0_r, Hacc in H.
  assert (forall (m : nat) (ys : list Ptr), imap ((fun k p => (m + k, p)%nat) ∘ S) ys =
    imap (fun k p => (S m + k, p)%nat) ys) as Hshift.
  { intros m ys. apply imap_ext. intros k x _. simpl. f_equal. lia. }
  rewrite Hshift in H. rewrite length_app, Nat.add_1_r in IH. specialize (IH H).
  destruct (Hin p Hpl) as [i Hi].
  unfold labels_step in Hacc. simpl in Hacc. unfold deref in Hacc. rewrite Hi in Hacc. simpl in Hacc.
  rewrite list.filter_app, length_app in IH.
  destruct (decide (alive p)) as [Ha|Ha].
  - rewrite !(filter_cons_True alive) in * by done. rewrite imap_cons. cbn [foldl].
    rewrite Nat.add_0_r, Hshift. simpl in IH. rewrite Nat.add_1_r in IH. rewrite <- IH. f_equal.
    destruct Ha as [i' Hi']. destruct (Hhead p i' Hi') as (j & Hj & Hh). rewrite Hi in Hj.
    injection Hj as <-. unfold labels_step, deref. simpl. rewrite Hi'. simpl.
    rewrite (sh_op _ _ Hh), (sh_arg0 _ _ Hh).
    destruct (op_eqb _ _); [|by injection Hacc as <-].
    apply rbind_ok in Hacc as (v & Hv & [= <-]). rewrite Hv. simpl. by rewrite <- Hpos.
  - rewrite !(filter_cons_False alive) in * by done. simpl in IH. rewrite Nat.add_0_r in IH.
    rewrite <- IH. destruct (op_eqb_spec (i_op i) OpCode_BindLabel) as [E|]; [|by injection Hacc as <-].
    destruct Ha. by apply (Hbind p i).
Qed.

Lemma labels_new labels :
  collect_labels h l = Ok labels -> collect_labels h' l' = Ok (new_label <$> labels).
Proof. intros H. apply (labels_from [] l [] labels eq_refl). exact H. Qed.

Lemma find_label_new labels p : find_label (new_label <$> labels) p = new_pos <$> find_label labels p.
Proof.
  induction labels as [|[k m] labels IH]; [done|]. simpl. by destruct (decide (k = Some p)).
Qed.

Lemma label_kept labels p m :
  collect_labels h l = Ok labels -> find_label labels p = Some m ->
  exists q, l !! m = Some q /\ alive q.
Proof.
  intros Hl E. apply find_label_in in E. apply collect_labels_sound in Hl.
  rewrite Forall_forall in Hl. destruct (Hl _ E) as (q & j & v & Hq & Hj & Hop & _).
  exists q. split; [done|]. eapply Hbind; [by eapply list_elem_of_lookup_2|done..].
Qed.

(** ** The block loop

    [R k] relates the states with which the two loops reach position [k], [F]
    the final states. *)

Context (cfg : IConfig) (host_fn : Z -> list Z -> M Z)
  (host_pair_fn : Z -> Z -> Z -> Z -> M (Z * Z)).
Context (t : Terminal) (labels : list (option Ptr * nat)).
Context (R : nat -> IState -> IState -> Prop) (F : HaltReason -> IState -> IState -> Prop).

Abbreviation run := (run_inst h cfg host_fn host_pair_fn).
Abbreviation run' := (run_inst h' cfg host_fn host_pair_fn).

Definition jumps (op : OpCode) : bool := op_eqb op OpCode_Goto || op_eqb op OpCode_NotGoto.

Hypothesis Hlabels : collect_labels h l = Ok labels.

(** A kept instruction runs in both blocks. *)
Hypothesis step_kept : forall k p i s s' s1,
  l !! k = Some p -> alive p -> h !! p = Some i -> jumps (i_op i) = false ->
  R k s s' -> s_halt s = HaltReason_None -> run p s = Ok (tt, s1) ->
  exists s1', run' p s' = Ok (tt, s1') /\ s_halt s1' = s_halt s1
    /\ (s_halt s1 = HaltReason_None -> R (S k) s1 s1')
    /\ (s_halt s1 <> HaltReason_None -> F (s_halt s1) s1 s1').

(** A deleted one runs in the first only. *)
Hypothesis step_dead : forall k p i s s' s1,
  l !! k = Some p -> ~ alive p -> h !! p = Some i -> jumps (i_op i) = false ->
  R k s s' -> s_halt s = HaltReason_None -> run p s = Ok (tt, s1) ->
  s_halt s1 = HaltReason_None /\ R (S k) s1 s'.

(** A kept jump reads the same condition, and a jump goes on or to its label. *)
Hypothesis jump_reads : forall k p i v x s s',
  l !! k = Some p -> alive p -> h !! p = Some i -> jumps (i_op i) = true -> R k s s' ->
  GetArg_Value i 0 = Ok v -> ReadScalar h v s = Ok (x, s) -> ReadScalar h' v s' = Ok (x, s').
Hypothesis jump_next : forall k p i s s',
  l !! k = Some p -> h !! p = Some i -> jumps (i_op i) = true -> R k s s' -> R (S k) s s'.
Hypothesis jump_label : forall k p i m s s',
  l !! k = Some p -> alive p -> h !! p = Some i -> jumps (i_op i) = true ->
  find_label labels p = Some m -> R k s s' -> R (S m) s s'.
Hypothesis dead_label : forall k p i,
  l !! k = Some p -> ~ alive p -> h !! p = Some i -> jumps (i_op i) = true ->
  find_label labels p = None.

Hypothesis at_end : forall k s s' r s1,
  l !! k = None -> R k s s' -> RunTerminal h t s = Ok (r, s1) ->
  exists s1', RunTerminal h' t s' = Ok (r, s1') /\ F r s1 s1'.

Lemma kept_iteration k p s s' x s1 :
  l !! k = Some p -> alive p -> R k s s' -> s_halt s = HaltReason_None ->
  loop_step h cfg host_fn host_pair_fn labels k p s = Ok (x, s1) ->
  exists s1', loop_step h' cfg host_fn host_pair_fn (new_label <$> labels) (new_pos k) p s'
      = Ok (match x with inl k' => inl (new_pos k') | inr r => inr r end, s1')
    /\ match x with
       | inl k' => R k' s1 s1' /\ s_halt s1 = HaltReason_None
       | inr r => F r s1 s1'
       end.
Proof.
  intros Hk Hp Hs Hh H. destruct (pos_kept k p Hk Hp) as [_ HS].
  destruct (Hp) as [i' Hi']. destruct (Hhead p i' Hi') as (i & Hi & Hih).
  assert (deref h p = Ok i /\ deref h' p = Ok i') as [Hd Hd'] by (unfold deref; by rewrite Hi, Hi').
  unfold loop_step in *.
  erewrite bind_run in H by (by apply lift_run). erewrite bind_run by (by apply lift_run).
  cbv beta zeta in *. rewrite (sh_op _ _ Hih). destruct (_ || _) eqn:Ej.
  - apply bind_ok in H as (v & s2 & Hv & H). apply lift_ok in Hv as [Hv ->].
    apply bind_ok in H as (y & s2 & Hy & H). pose proof (read_pure _ _ _ _ _ Hy) as ->.
    erewrite bind_run by (apply lift_run; by rewrite (sh_arg0 _ _ Hih)). cbv beta.
    rewrite (bind_run _ _ _ _ _ (jump_reads k p i v y s s' Hk Hp Hi Ej Hs Hv Hy)).
    unfold ret in *. injection H as <- <-. exists s'. rewrite find_label_new.
    destruct (Bool.eqb _ _); [|rewrite HS; eauto]. 
    destruct (find_label labels p) as [m|] eqn:E; [|rewrite HS; eauto]. simpl.
    destruct (label_kept labels p m Hlabels E) as (q & Hq & Haq).
    destruct (pos_kept m q Hq Haq) as [_ ->]. split; [done|]. split; [exact (jump_label k p i m s s' Hk Hp Hi Ej E Hs)|done].
  - apply bind_ok in H as ([] & s2 & Hr & H).
    destruct (step_kept k p i s s' s2 Hk Hp Hi Ej Hs Hh Hr) as (s2' & Hr' & Hh2 & HR & HF).
    rewrite (bind_run _ _ _ _ _ Hr'). unfold bind, gets in *. rewrite Hh2.
    destruct (decide _) as [E|E]; unfold ret in *; injection H as <- <-; exists s2'; rewrite ?HS; auto.
Qed.

Lemma dead_iteration k p s s' x s1 :
  l !! k = Some p -> ~ alive p -> R k s s' -> s_halt s = HaltReason_None ->
  loop_step h cfg host_fn host_pair_fn labels k p s = Ok (x, s1) ->
  x = inl (S k) /\ R (S k) s1 s' /\ s_halt s1 = HaltReason_None.
Proof.
  intros Hk Hp Hs Hh H. unfold loop_step in H. apply bind_ok in H as (i & s2 & Hi & H).
  apply lift_ok in Hi as [Hi ->]. unfold deref in Hi. destruct (h !! p) as [j|] eqn:Hj; [|done].
  injection Hi as ->. destruct (_ || _) eqn:Ej.
  - rewrite (dead_label k p i Hk Hp Hj Ej) in H.
    apply bind_ok in H as (v & s2 & Hv & H). apply lift_ok in Hv as [Hv ->].
    apply bind_ok in H as (y & s2 & Hy & H). pose proof (read_pure _ _ _ _ _ Hy) as ->.
    unfold ret in H. injection H as <- <-. split; [by destruct (Bool.eqb _ _)|]. eauto.
  - apply bind_ok in H as ([] & s2 & Hr & H).
    destruct (step_dead k p i s s' s2 Hk Hp Hj Ej Hs Hh Hr) as [Hh2 Hs2].
    unfold bind, gets in H. rewrite Hh2 in H. simpl in H. unfold ret in H. by injection H as <- <-.
Qed.

Lemma edit_loop fuel k s s' r s1 :
  R k s s' -> s_halt s = HaltReason_None ->
  run_loop h cfg host_fn host_pair_fn fuel labels (mkBlock l t) k s = Some (Ok (r, s1)) ->
  exists s1', run_loop h' cfg host_fn host_pair_fn fuel (new_label <$> labels)
      (mkBlock l' t) (new_pos k) s' = Some (Ok (r, s1')) /\ F r s1 s1'.
Proof.
  revert k s s'. induction fuel as [|f IH]; intros k s s' Hs Hh H; simpl in H;
    destruct (l !! k) as [p|] eqn:Hk; try done.
  1, 3: injection H as H; destruct (at_end k s s' r s1 Hk Hs H) as (s1' & H' & Hs1);
    exists s1'; simpl; by rewrite (pos_end k Hk), H'.
  destruct (loop_step h cfg host_fn host_pair_fn labels k p s) as [[x s2]|e] eqn:Es; [|done].
  destruct (decide (alive p)) as [Hp|Hp].
  - destruct (pos_kept k p Hk Hp) as [Hk' _].
    destruct (kept_iteration k p s s' x s2 Hk Hp Hs Hh Es) as (s2' & Es' & Hs2).
    simpl. rewrite Hk', Es'. destruct x as [k'|r'].
    + destruct Hs2 as [Hs2 Hh2]. by apply (IH k' s2 s2').
    + injection H as <- <-. by exists s2'.
  - destruct (dead_iteration k p s s' x s2 Hk Hp Hs Hh Es) as (-> & Hs2 & Hh2).
    destruct (IH (S k) s2 s' Hs2 Hh2 H) as (s1' & H' & Hs1). rewrite (pos_dead k p Hk Hp) in H'.
    exists s1'. split; [|done]. eapply loop_mono; [|exact H']. lia.
Qed.
End Edit.

(** ** The initial slots *)

Lemma max_id_cons g q insts :
  max_inst_id g (q :: insts)
  = Z.max (match g !! q with Some i => i_id i | None => 0 end) (max_inst_id g insts).
Proof. done. Qed.

Lemma max_id_in g p i insts : p ∈ insts -> g !! p = Some i -> i_id i <= max_inst_id g insts.
Proof.
  induction insts as [|q insts IH]; [by intros ?%not_elem_of_nil|].
  intros [->|Hin]%elem_of_cons Hi; rewrite max_id_cons; [rewrite Hi; lia|].
  specialize (IH Hin Hi). lia.
Qed.

Lemma max_id_nonneg g insts : 0 <= max_inst_id g insts.
Proof. induction insts; [done|]. rewrite max_id_cons. lia. Qed.

Lemma slot_zero g p i insts k :
  p ∈ insts -> g !! p = Some i -> slot_words (slot_index i) k ->
  replicate (Z.to_nat ((max_inst_id g insts + 1) * Z.of_nat kSlotStride)) 0 !! k = Some 0.
Proof.
  intros Hp Hi Hk. apply lookup_replicate_2. pose proof (max_id_in g p i insts Hp Hi).
  pose proof (max_id_nonneg g insts). unfold slot_words, slot_index, kSlotStride in *. lia.
Qed.

(** The slots of the kept instructions. *)
Definition kept_slot (h h' : Heap) (k : nat) : Prop :=
  exists p i, kept h' p /\ h !! p = Some i /\ slot_words (slot_index i) k.

Lemma slots_disjoint i j k :
  slot_words (slot_index i) k -> slot_words (slot_index j) k -> slot_index i = slot_index j.
Proof. unfold slot_words, slot_index, kSlotStride. lia. Qed.

Section Initial.
Context (h h' : Heap) (b : Block).
Hypothesis Hhead : heads_kept h h'.
Hypothesis Hinsts : forall p, kept h p <-> p ∈ b_insts b.

Lemma rel_initial s :
  state_rel (kept_slot h h') (set_stack (replicate (slot_count h b) 0) s)
    (set_stack (replicate (slot_count h' (mkBlock (filter (kept h') (b_insts b)) (b_terminal b))) 0) s).
Proof.
  split; try done. intros k (p & i & Hp & Hi & Hk). simpl. unfold slot_count. simpl.
  assert (p ∈ b_insts b) as Hin by (apply Hinsts; unfold kept; by eauto).
  rewrite (slot_zero h p i) by done. destruct (Hp) as [i' Hi'].
  destruct (Hhead p i' Hi') as (j & Hj & Hjh). rewrite Hi in Hj. injection Hj as <-.
  eapply slot_zero; [|exact Hi'|by unfold slot_index; rewrite (sh_id _ _ Hjh)].
  by apply list_elem_of_filter.
Qed.

Lemma rel_state pos s s' : state_rel pos s s' -> s' = set_stack (s_stack s') s.
Proof. intros []. destruct s, s'. unfold set_stack. simpl in *. by subst. Qed.
End Initial.
