(* ===== verification/DeadCodeRun.v ===== *)
(** * Dead code elimination preserves execution

    The optimised block does what the original does: from the same state the
    interpreter returns the same halt reason with the same flags, memory, guest
    locations and halt state; only the slots of deleted instructions, which
    exist no longer, differ.  The proof is a simulation: a kept instruction does
    the same in both heaps ([sim_run_inst]), a deleted one writes outside the
    slots of the kept ones ([pure_run_inst]), and a position of the original
    list corresponds to the number of kept instructions before it. *)

From Stdlib Require Import ZArith Lia.
From stdpp Require Import numbers base gmap list.
From S2P Require Import Prelude MachineInt IRTypes Instr UseCount InterpCore InterpFlags.
From S2P Require Import InterpScalar InterpMemory InterpVector Interp.
From S2P Require Import InterpInvariant InterpRun FlagProps MemoryProps.
From S2P Require Import DeadCode DeadCodeChain DeadCodeSem Simulation BlockEdit.

Local Open Scope Z_scope.
Local Open Scope svm_scope.

(** A block as the pass finds it: its instructions are the heap, each listed
    once and with a slot of its own; the use counters and pseudo chains are
    those the IR's methods maintain, and the terminal's uses are counted. *)
Record block_ok (ext : Ptr -> Z) (h : Heap) (b : Block) : Prop := mk_block_ok {
  bo_ir : ir_ok ext h;
  bo_chains : chains_ok h;
  bo_nodup : NoDup (b_insts b);
  bo_insts : forall p, kept h p <-> p ∈ b_insts b;
  bo_slots : forall p q i j, h !! p = Some i -> h !! q = Some j ->
    slot_index i = slot_index j -> p = q;
  bo_terminal : forall v d, v ∈ term_values (b_terminal b) -> v_inst v = Some d ->
    kept h d /\ 0 < ext d
}.

Section Run.
Context (ext : Ptr -> Z) (h h' : Heap) (b : Block) (n : nat) (l' : list Ptr).
Context (Hok : block_ok ext h b).
Context (Hdce : dce_run n (b_insts b) h = Some (Ok (l', h'))).

Abbreviation l := (b_insts b).
Abbreviation alive := (kept h').

Lemma pass_swept : swept ext l h h'.
Proof. apply (dce_run_ok _ _ _ _ _ _ (bo_ir _ _ _ Hok) Hdce). Qed.

Lemma pass_ok : ir_ok ext h'.
Proof. apply (dce_run_ok _ _ _ _ _ _ (bo_ir _ _ _ Hok) Hdce). Qed.

Lemma pass_chains : chains_kept h h' /\ l' = filter alive l.
Proof. eapply dce_run_chains; [apply Hok..|exact Hdce]. Qed.

Lemma alive_code p : alive p -> code <$> h' !! p = code <$> h !! p.
Proof.
  intros [i Hi]. destruct (pass_swept p) as [E|(_ & Hn & _)]; [done|congruence].
Qed.

Lemma alive_both p : alive p -> exists i i', h !! p = Some i /\ h' !! p = Some i' /\ code i' = code i.
Proof.
  intros Hp. pose proof (alive_code p Hp) as E. destruct Hp as [i' Hi']. rewrite Hi' in E.
  destruct (h !! p) as [i|] eqn:Hi; [|done]. injection E as E. exists i, i'.
  split_and!; try done. unfold code. congruence.
Qed.

Lemma alive_values p i v d :
  alive p -> h !! p = Some i -> v ∈ GetValues i -> v_inst v = Some d -> alive d.
Proof.
  intros Hp Hi Hv Hd. destruct (alive_both p Hp) as (j & i' & Hj & Hi' & Hc).
  rewrite Hi in Hj. injection Hj as <-. injection Hc as _ Ha _ _ _.
  apply (ir_closed _ _ pass_ok p i' v d Hi'); [|done]. unfold GetValues in *. by rewrite Ha.
Qed.

(** A deleted instruction: what its opcode cannot be, and where its slot is. *)
Lemma dead_op p i :
  h !! p = Some i -> ~ alive p -> op_has_side_effects (i_op i) = false
    /\ i_op i <> OpCode_LoadMemory /\ i_op i <> OpCode_LoadMemoryTSO.
Proof.
  intros Hi Hn. destruct (pass_swept p) as [E|(_ & _ & _ & j & Hj & Hrest)].
  - exfalso. apply Hn. rewrite Hi in E. unfold kept. destruct (h' !! p); [by eauto|done].
  - rewrite Hi in Hj. by injection Hj as <-.
Qed.

Lemma dead_slot p i : h !! p = Some i -> ~ alive p -> slot_within (fun k => ~ kept_slot h h' k) i.
Proof.
  intros Hi Hn k Hk (q & j & Hq & Hj & Hk'). apply Hn.
  by rewrite (bo_slots _ _ _ Hok p q i j Hi Hj (slots_disjoint _ _ _ Hk Hk')).
Qed.

Lemma pass_head : heads_kept h h'.
Proof.
  intros p i' Hi'. destruct (alive_both p) as (i & j & Hi & Hj & Hc); [by exists i'|].
  rewrite Hi' in Hj. injection Hj as <-. exists i. split; [done|by apply code_head].
Qed.

Lemma pass_sim : heap_sim h h' alive alive (kept_slot h h').
Proof.
  split.
  - intros p Hp. destruct (alive_both p Hp) as (i & i' & Hi & Hi' & Hc).
    injection Hc as _ _ Hid _ Hr. exists i, i'. split_and!; try done;
      exists p, i; (split; [done|split; [done|]]); [by left|by right].
  - intros p Hp. split; [done|]. by rewrite alive_code.
  - intros. by eapply alive_values.
  - intros p i v d Hp Hi _ Hv Hd. eapply alive_values; try done. by eapply GetArg_Value_in.
  - intros p op ps Hp Hps Hlen. destruct pass_chains as [Hck _].
    exists (filter alive ps). split; [by eapply GetPseudoOperations_kept, Hps; [|apply pass_head|]|].
    destruct ps as [|q [|]]; simpl in Hlen; [by left| |lia].
    destruct (decide (alive q)) as [Hq|Hq].
    + left. rewrite filter_cons_True by done. split; [done|]. by constructor.
    + right. rewrite filter_cons_False by done. split; [done|].
      intros r i ->%list_elem_of_singleton Hi k Hk. by apply (dead_slot q i Hi Hq k Hk).
Qed.

Lemma pass_bind p i : p ∈ l -> h !! p = Some i -> i_op i = OpCode_BindLabel -> alive p.
Proof.
  intros _ Hi E. destruct (decide (alive p)) as [|Hn]; [done|].
  destruct (dead_op p i Hi Hn) as (Hse & _). by rewrite E in Hse.
Qed.

Lemma pass_in p : p ∈ l -> kept h p.
Proof. apply (bo_insts _ _ _ Hok). Qed.

(** No label serves a deleted jump. *)
Lemma dead_no_label labels p i :
  collect_labels h l = Ok labels -> h !! p = Some i -> ~ alive p -> find_label labels p = None.
Proof.
  intros Hl Hi Hn. destruct (find_label labels p) as [m|] eqn:E; [|done]. exfalso. apply Hn.
  apply find_label_in in E. apply collect_labels_sound in Hl. rewrite Forall_forall in Hl.
  destruct (Hl _ E) as (q & j & v & Hq & Hj & Hop & Hv & Hd). simpl in *.
  eapply (alive_values q j v p); [|done|by eapply GetArg_Value_in|done].
  eapply pass_bind; [by eapply list_elem_of_lookup_2|done..].
Qed.

(** ** The block loop *)

Context (cfg : IConfig) (host_fn : Z -> list Z -> M Z)
  (host_pair_fn : Z -> Z -> Z -> Z -> M (Z * Z)).
Hypothesis Hhost : forall a x, ignores_slots (host_fn a x).
Hypothesis Hpair : forall a x y z, ignores_slots (host_pair_fn a x y z).
Hypothesis Hcpuid : forall a x y z, stack_read (host_pair_fn a x y z).

Abbreviation rel := (state_rel (kept_slot h h')).
Abbreviation run := (run_inst h cfg host_fn host_pair_fn).

Lemma sim_kept p :
  alive p -> sim (kept_slot h h') trivial_post (run p) (run_inst h' cfg host_fn host_pair_fn p).
Proof.
  intros Hp. eapply sim_run_inst; [apply pass_sim| | |done]; intros; by apply ignores_slots_sim.
Qed.

(** A deleted instruction leaves the state related to what it was. *)
Lemma run_dead p i s s1 s' :
  h !! p = Some i -> ~ alive p -> run p s = Ok (tt, s1) -> rel s s' ->
  rel s1 s' /\ s_halt s1 = s_halt s.
Proof.
  intros Hi Hp H Hs. destruct (dead_op p i Hi Hp) as (H1 & H2 & H3).
  assert (same_outside (fun k => ~ kept_slot h h' k) s s1) as Ho.
  { eapply (pure_run_inst _ h cfg host_fn host_pair_fn p i); try done.
    - by apply (dead_slot p i).
    - intros q j v Hj Hv E. apply (dead_slot q j Hj). intros Hq. apply Hp.
      by eapply (alive_values q j v p). }
  split; [|apply Ho]. eapply state_rel_skip; [exact Ho|by intros k Hk|done].
Qed.

Lemma terminal_live v : v ∈ term_values (b_terminal b) -> live alive v.
Proof.
  intros Hv d Hd. destruct (bo_terminal _ _ _ Hok v d Hv Hd) as [[j Hj] He].
  destruct (pass_swept d) as [E|(_ & _ & He0 & _)]; [|lia].
  rewrite Hj in E. unfold kept. by destruct (h' !! d).
Qed.

Lemma loop_sim labels fuel k s s' r s1 :
  collect_labels h l = Ok labels -> rel s s' -> s_halt s = HaltReason_None ->
  run_loop h cfg host_fn host_pair_fn fuel labels b k s = Some (Ok (r, s1)) ->
  exists s1', run_loop h' cfg host_fn host_pair_fn fuel (new_label h' l <$> labels)
      (mkBlock (filter alive l) (b_terminal b)) (new_pos h' l k) s' = Some (Ok (r, s1')) /\ rel s1 s1'.
Proof.
  intros Hl Hs Hh H.
  eapply (edit_loop h h' l pass_head pass_bind cfg host_fn host_pair_fn (b_terminal b) labels
    (fun _ => rel) (fun _ => rel) Hl); [..|exact Hs|exact Hh|by destruct b]; try done.
  - intros m p i u u' u1 _ Hp _ _ Hu _ Hr.
    destruct (sim_kept p Hp u u' tt u1 Hu Hr) as (u1' & Hr' & _ & Hu1).
    exists u1'. split_and!; try done. by rewrite (rel_halt _ _ _ Hu1).
  - intros m p i u u' u1 _ Hp Hi _ Hu Hh0 Hr.
    destruct (run_dead p i u u1 u' Hi Hp Hr Hu) as [Hu1 E]. split; [congruence|done].
  - intros m p i v x u u' _ Hp Hi _ Hu Hv Hx.
    assert (live alive v) as Hlive.
    { intros d Hd. by eapply (alive_values p i v d), Hd; [| |eapply GetArg_Value_in]. }
    destruct (sim_ReadScalar _ _ _ _ _ pass_sim v Hlive u u' x u Hu Hx) as (u1 & Hx' & _).
    by rewrite (read_pure _ _ _ _ _ Hx') in Hx'.
  - intros m p i _ Hp Hi _. by eapply dead_no_label.
  - intros m u u' r0 u1 _ Hu Ht.
    destruct (sim_terminal _ _ _ _ _ pass_sim _ terminal_live u u' r0 u1 Hu Ht) as (u1' & ? & _ & ?).
    by exists u1'.
Qed.

Lemma run_block_sim fuel s r s1 :
  s_halt s = HaltReason_None ->
  run_block h cfg host_fn host_pair_fn fuel b s = Some (Ok (r, s1)) ->
  exists s1', run_block h' cfg host_fn host_pair_fn fuel (mkBlock l' (b_terminal b)) s
      = Some (Ok (r, s1')) /\ s1' = set_stack (s_stack s1') s1.
Proof.
  intros Hh H. rewrite (proj2 pass_chains). unfold run_block in *.
  destruct (collect_labels h l) as [labels|] eqn:El; [|done]. simpl.
  rewrite (labels_new h h' l pass_head pass_in pass_bind labels El).
  destruct (loop_sim labels fuel 0 _ _ r s1 El
    (rel_initial h h' b pass_head (bo_insts _ _ _ Hok) s) Hh H) as (s1' & H' & Hs1).
  exists s1'. split; [exact H'|by eapply rel_state].
Qed.
End Run.


(** ** An example

    A division whose remainder is not used, and an unused negation. *)

(** A decidable sufficient condition for [block_ok] without external uses. *)
Definition block_check (h : Heap) (insts : list Ptr) : bool :=
  ir_check h
  && bool_decide (map_Forall (fun q1 j1 => map_Forall (fun q2 j2 =>
       i_next_pseudo j1 = None \/ i_next_pseudo j1 <> i_next_pseudo j2 \/ q1 = q2) h) h)
  && bool_decide (map_Forall (fun _ j =>
       match i_next_pseudo j with
       | None => true
       | Some r => match h !! r with
                   | Some k => IsPseudoOperation k && Nat.eqb (length (GetValues k)) 1
                   | None => false
                   end
       end = true) h)
  && bool_decide (NoDup insts) && bool_decide (dom h = list_to_set (C := gset Ptr) insts)
  && bool_decide (map_Forall (fun p i => map_Forall (fun q j =>
       slot_index i <> slot_index j \/ p = q) h) h).

Lemma block_check_sound h insts t :
  block_check h insts = true -> term_values t = [] -> block_ok (fun _ => 0) h (mkBlock insts t).
Proof.
  unfold block_check. rewrite !andb_true_iff, !bool_decide_eq_true.
  intros [[[[[Hir Hinj] Hps] Hnd] Hdom] Hsl] Ht. split; simpl.
  - by apply ir_check_sound.
  - split.
    + intros q1 q2 j1 j2 r H1 H2 Hr1 Hr2.
      destruct (Hinj q1 j1 H1 q2 j2 H2) as [E|[E|E]]; [congruence..|done].
    + intros q j r Hq Hr. specialize (Hps q j Hq). simpl in Hps. rewrite Hr in Hps.
      destruct (h !! r) as [k|]; [|done].
      apply andb_true_iff in Hps as [Hk Hlen%Nat.eqb_eq]. exists k.
      destruct (GetValues k) as [|v [|]]; try done. by exists v.
  - done.
  - intros p. unfold kept. rewrite <- elem_of_dom, Hdom. apply elem_of_list_to_set.
  - intros p q i j Hp Hq E. by destruct (Hsl p i Hp q j Hq) as [|].
  - rewrite Ht. by intros v d ?%not_elem_of_nil.
Qed.

Definition dce_run_heap : Heap :=
  <[1%positive := mkInst OpCode_LoadImm [AImm (Imm_u64 5); AVoid; AVoid; AVoid; AVoid]
                    2 0 0 ValueType_U64 None]>
  (<[2%positive := mkInst OpCode_LoadImm [AImm (Imm_u64 3); AVoid; AVoid; AVoid; AVoid]
                    2 1 0 ValueType_U64 None]>
  (<[3%positive := mkInst OpCode_Div128 [AValue (Value_of 1%positive); AValue (Value_of 2%positive);
                      AValue (Value_of 2%positive); AImm (Imm_u64 0); AVoid]
                    2 2 0 ValueType_U64 (Some 4%positive)]>
  (<[4%positive := mkInst OpCode_Div128Remainder [AValue (Value_of 3%positive); AVoid; AVoid; AVoid; AVoid]
                    0 3 0 ValueType_U64 None]>
  (<[5%positive := mkInst OpCode_SetCarry [AValue (Value_of 3%positive); AVoid; AVoid; AVoid; AVoid]
                    0 4 0 ValueType_VOID None]>
  (<[6%positive := mkInst OpCode_Neg [AValue (Value_of 1%positive); AVoid; AVoid; AVoid; AVoid]
                    0 5 0 ValueType_U64 None]> ∅))))).

Definition dce_run_insts : list Ptr := [1; 2; 3; 4; 5; 6]%positive.

