(* ===== verification/HirValues.v ===== *)
(** * The value table of a function

    Model of the [HIRValue] bookkeeping of runtime/ir/hir_builder.h and
    hir_builder.cpp: the id-indexed table of the values a function defines, the
    use list of each value, and the walk over the arguments of an instruction
    that registers ([UseInst], [UseFreshArg]) or unregisters ([UnUseInst]) it
    with the values it reads.  An [HIRValue] is identified by the instruction
    that defines it, a block by its index in the function. *)

From Stdlib Require Import ZArith Lia.
From stdpp Require Import numbers base gmap list.
From S2P Require Import Prelude MachineInt IRTypes Instr InstrBuild.

Local Open Scope Z_scope.
Local Open Scope svm_scope.

Record HIRUse := mkHIRUse { u_inst : Ptr; u_arg_idx : nat }.

#[export] Instance HIRUse_eq_dec : EqDecision HIRUse.
Proof. solve_decision. Defined.

Definition USE_FUNC_CALL : nat := 253.

Record HIRValue := mkHIRValue { hv_def : Ptr; hv_block : nat; hv_uses : list HIRUse }.

(** [HIRFunction::values], the objects of [pools.values] and [value_count]. *)
Record ValueTable := mkValueTable {
  vt_values : list (option Ptr);
  vt_pool : gmap Ptr HIRValue;
  vt_count : Z
}.

Definition set_uses (f : list HIRUse -> list HIRUse) (v : HIRValue) : HIRValue :=
  mkHIRValue (hv_def v) (hv_block v) (f (hv_uses v)).

(** [HIRFunction::GetHIRValue]. *)
Definition GetHIRValue (h : Heap) (t : ValueTable) (v : Value) : Res (option Ptr) :=
  match v_inst v with
  | None => Ok None
  | Some def =>
      i <-? deref h def;
      if (i_id i =? invalid_id) || (Z.of_nat (length (vt_values t)) <=? i_id i) then Ok None
      else Ok (default None (vt_values t !! Z.to_nat (i_id i)))
  end.

(** [HIRValue::Use]. *)
Definition HIRValue_Use (d : Ptr) (u : HIRUse) (t : ValueTable) : ValueTable :=
  mkValueTable (vt_values t) (alter (set_uses (fun l => l ++ [u])) d (vt_pool t)) (vt_count t).

Fixpoint erase_first (u : HIRUse) (l : list HIRUse) : list HIRUse :=
  match l with
  | [] => []
  | x :: l' => if decide (x = u) then l' else x :: erase_first u l'
  end.

(** [HIRValue::UnUse]: the first matching use. *)
Definition HIRValue_UnUse (d : Ptr) (u : HIRUse) (t : ValueTable) : ValueTable :=
  mkValueTable (vt_values t)
    (alter (set_uses (erase_first u)) d (vt_pool t)) (vt_count t).

(** ** The walks over the arguments *)

Section Walk.
Context (h : Heap) (this : Ptr).

(** [if (auto hir_value = GetHIRValue(value); hir_value) hir_value->Use(inst, idx)]. *)
Definition visit_value (act : Ptr -> HIRUse -> ValueTable -> ValueTable) (idx : nat) (v : Value)
    (t : ValueTable) : Res ValueTable :=
  d <-? GetHIRValue h t v;
  Ok (match d with Some d => act d (mkHIRUse this idx) t | None => t end).

Fixpoint visit_values (act : Ptr -> HIRUse -> ValueTable -> ValueTable) (idx : nat) (vs : list Value)
    (t : ValueTable) : Res ValueTable :=
  match vs with
  | [] => Ok t
  | v :: vs' => t' <-? visit_value act idx v t; visit_values act idx vs' t'
  end.

(** The values of the slots [physical + 1] and [physical + 2] of an operand. *)
Definition visit_operand (act : Ptr -> HIRUse -> ValueTable -> ValueTable) (i : Inst) (physical : nat)
    (t : ValueTable) : Res ValueTable :=
  l <-? ArgAt i (physical + 1);
  t' <-? (match l with AValue v => visit_value act (physical + 1) v t | _ => Ok t end);
  r <-? ArgAt i (physical + 2);
  match r with AValue v => visit_value act (physical + 2) v t' | _ => Ok t' end.

Definition visit_lambda (act : Ptr -> HIRUse -> ValueTable -> ValueTable) (l : Lambda) (physical : nat)
    (t : ValueTable) : Res ValueTable :=
  if Lambda_IsValue l then v <-? Lambda_GetValue l; visit_value act physical v t else Ok t.

(** One case of the [switch] of [UseInst]. *)
Definition use_arg (i : Inst) (ty : ArgType) (physical : nat) (t : ValueTable) : Res ValueTable :=
  match ty with
  | ArgType_Value =>
      a <-? ArgAt i physical;
      match a with
      | AValue v => visit_value HIRValue_Use physical v t
      | AVoid => if op_eqb (i_op i) OpCode_CallLambda then Ok t else Err EPanic
      | _ => Err EPanic
      end
  | ArgType_Lambda =>
      a <-? ArgAt i physical;
      match a with ALambda l => visit_lambda HIRValue_Use l physical t | _ => Err EPanic end
  | ArgType_Params =>
      a <-? ArgAt i physical;
      match a with
      | AParams ps => visit_values HIRValue_Use USE_FUNC_CALL (mjoin (dc_values <$> ps)) t
      | _ => Err EPanic
      end
  | ArgType_Operand => visit_operand HIRValue_Use i physical t
  | _ => Ok t
  end.

(** One case of the [switch] of [UnUseInst]. *)
Definition unuse_arg (i : Inst) (ty : ArgType) (physical : nat) (t : ValueTable) : Res ValueTable :=
  match ty with
  | ArgType_Value =>
      a <-? ArgAt i physical;
      match a with AValue v => visit_value HIRValue_UnUse physical v t | _ => Ok t end
  | ArgType_Lambda =>
      a <-? ArgAt i physical;
      match a with ALambda l => visit_lambda HIRValue_UnUse l physical t | _ => Ok t end
  | ArgType_Params =>
      a <-? ArgAt i physical;
      match a with
      | AParams ps => visit_values HIRValue_UnUse USE_FUNC_CALL (mjoin (dc_values <$> ps)) t
      | _ => Ok t
      end
  | ArgType_Operand => visit_operand HIRValue_UnUse i physical t
  | _ => Ok t
  end.

Definition slots (ty : ArgType) : nat := Z.to_nat (PhysicalSlots ty).

Fixpoint UseInst_from (i : Inst) (tys : list ArgType) (physical : nat) (t : ValueTable) : Res ValueTable :=
  match tys with
  | [] => Ok t
  | ty :: tys' => t' <-? use_arg i ty physical t; UseInst_from i tys' (physical + slots ty) t'
  end.

Fixpoint UnUseInst_from (i : Inst) (tys : list ArgType) (physical : nat) (t : ValueTable) : Res ValueTable :=
  match tys with
  | [] => Ok t
  | ty :: tys' => t' <-? unuse_arg i ty physical t; UnUseInst_from i tys' (physical + slots ty) t'
  end.

Definition UseInst (t : ValueTable) : Res ValueTable :=
  i <-? deref h this; UseInst_from i (op_arg_types (i_op i)) 0 t.

Definition UnUseInst (t : ValueTable) : Res ValueTable :=
  i <-? deref h this; UnUseInst_from i (op_arg_types (i_op i)) 0 t.

(** [UseFreshArg]: by the static type of the argument passed to [AppendInst]. *)
Definition UseFreshArg (b : BuildArg) (physical : nat) (t : ValueTable) : Res ValueTable :=
  match b with
  | BValue v => visit_value HIRValue_Use physical v t
  | BLambda l => visit_lambda HIRValue_Use l physical t
  | BParams ps => visit_values HIRValue_Use USE_FUNC_CALL (mjoin (dc_values <$> ps)) t
  | BOperand o =>
      t' <-? visit_values HIRValue_Use (physical + 1) (dc_values (o_left o)) t;
      visit_values HIRValue_Use (physical + 2) (dc_values (o_right o)) t'
  | _ => Ok t
  end.

(** [std::is_same_v<T, Operand> ? PhysicalSlots(ArgType::Operand) : 1]. *)
Definition fresh_width (b : BuildArg) : nat :=
  match b with BOperand _ => slots ArgType_Operand | _ => 1 end.

Fixpoint UseFresh_from (bs : list BuildArg) (physical : nat) (t : ValueTable) : Res ValueTable :=
  match bs with
  | [] => Ok t
  | b :: bs' => t' <-? UseFreshArg b physical t; UseFresh_from bs' (physical + fresh_width b) t'
  end.

(** [AppendValueRecord]: the table is indexed by instruction id. *)
Definition AppendValueRecord (b : nat) (t : ValueTable) : Res ValueTable :=
  i <-? deref h this;
  let '(v, pool, count) :=
    if Inst_HasValue i
    then (Some this, <[this := mkHIRValue this b []]> (vt_pool t), wrap 16 (vt_count t + 1))
    else (None, vt_pool t, vt_count t) in
  let id := Z.to_nat (i_id i) in
  let n := length (vt_values t) in
  let values :=
    if decide (id = n) then vt_values t ++ [v]
    else
      let grown := if decide (n <= id)%nat then vt_values t ++ replicate (S id - n) None else vt_values t in
      <[id := v]> grown in
  Ok (mkValueTable values pool count).

(** [AppendValue] and [AppendValueFast] without [TrackLocal]. *)
Definition AppendValue (b : nat) (t : ValueTable) : Res ValueTable :=
  t' <-? AppendValueRecord b t; UseInst t'.

Definition AppendValueFast (b : nat) (bs : list BuildArg) (t : ValueTable) : Res ValueTable :=
  t' <-? AppendValueRecord b t; UseFresh_from bs 0 t'.
End Walk.

(** [HIRFunction::TrackLocal], on [max_local_id]. *)
Definition TrackLocal (i : Inst) (max_local_id : Z) : Res Z :=
  match i_op i with
  | OpCode_StoreLocal | OpCode_LoadLocal | OpCode_DefineLocal =>
      l <-? GetArg_Local i 0; Ok (Z.max (l_id l) max_local_id)
  | _ => Ok max_local_id
  end.

(** The table part of [HIRFunction::DestroyHIRValue]. *)
Definition forget_value (h : Heap) (d : Ptr) (t : ValueTable) : Res ValueTable :=
  i <-? deref h d;
  let id := Z.to_nat (i_id i) in
  let values :=
    match vt_values t !! id with
    | Some (Some d') => if decide (d' = d) then <[id := None]> (vt_values t) else vt_values t
    | _ => vt_values t
    end in
  Ok (mkValueTable values (vt_pool t) (wrap 16 (vt_count t - 1))).
