(* ===== verification/HirValuesProps.v ===== *)
(** * The value table: invariant

    [UseInst] and [UnUseInst] visit the same uses of an instruction, and the
    construction-time [UseFreshArg] walk the same as [UseInst].  The invariant of
    the table: every live instruction owns the slot of its id, and the use list of
    each value is exactly its uses by live instructions.  Appending an
    instruction and erasing an unused one preserve it. *)

From Stdlib Require Import ZArith Lia.
From stdpp Require Import numbers base gmap list.
From S2P Require Import Prelude MachineInt IRTypes Instr InstrBuild UseCount DeadCode HirValues.

Local Open Scope Z_scope.
Local Open Scope svm_scope.

(** ** The uses of an instruction *)

Definition slot_uses (i : Inst) (k : nat) : list (Value * nat) :=
  match i_args i !! k with Some (AValue v) => [(v, k)] | _ => [] end.

(** The values a declared argument registers, with the index they are registered
    under. *)
Definition arg_uses (i : Inst) (ty : ArgType) (k : nat) : list (Value * nat) :=
  match ty with
  | ArgType_Value => slot_uses i k
  | ArgType_Lambda =>
      match i_args i !! k with
      | Some (ALambda l) => if Lambda_IsValue l then (fun v => (v, k)) <$> dc_values (la_data l) else []
      | _ => []
      end
  | ArgType_Params =>
      match i_args i !! k with
      | Some (AParams ps) => (fun v => (v, USE_FUNC_CALL)) <$> mjoin (dc_values <$> ps)
      | _ => []
      end
  | ArgType_Operand => slot_uses i (k + 1) ++ slot_uses i (k + 2)
  | _ => []
  end.

Fixpoint uses_from (i : Inst) (tys : list ArgType) (k : nat) : list (Value * nat) :=
  match tys with
  | [] => []
  | ty :: tys' => arg_uses i ty k ++ uses_from i tys' (k + slots ty)
  end.

Definition inst_uses (i : Inst) : list (Value * nat) := uses_from i (op_arg_types (i_op i)) 0.

(** A [Lambda] tagged as a value holds one. *)
Definition lambda_ok (l : Lambda) : bool :=
  negb (Lambda_IsValue l) || match la_data l with DValue _ => true | _ => false end.

Section Visit.
Context (h : Heap) (this : Ptr) (act : Ptr -> HIRUse -> ValueTable -> ValueTable).

Fixpoint visit (l : list (Value * nat)) (t : ValueTable) : Res ValueTable :=
  match l with
  | [] => Ok t
  | (v, k) :: l' => t' <-? visit_value h this act k v t; visit l' t'
  end.

Lemma visit_app l1 l2 t : visit (l1 ++ l2) t = (t' <-? visit l1 t; visit l2 t').
Proof.
  revert t. induction l1 as [|[v k] l1 IH]; intros t; simpl; [done|].
  destruct (visit_value h this act k v t); simpl; [apply IH|done].
Qed.

Lemma visit_values_eq k vs t : visit_values h this act k vs t = visit ((fun v => (v, k)) <$> vs) t.
Proof. revert t. induction vs as [|v vs IH]; intros t; simpl; [done|]. by destruct visit_value; simpl. Qed.

Lemma visit_one k v t : visit_value h this act k v t = visit [(v, k)] t.
Proof. simpl. by destruct visit_value. Qed.

Lemma visit_operand_eq i k t :
  (k + 2 < length (i_args i))%nat ->
  visit_operand h this act i k t = visit (slot_uses i (k + 1) ++ slot_uses i (k + 2)) t.
Proof.
  intros Hk. unfold visit_operand, slot_uses, ArgAt.
  destruct (lookup_lt_is_Some_2 (i_args i) (k + 1)) as [l ->]; [lia|].
  destruct (lookup_lt_is_Some_2 (i_args i) (k + 2)) as [r ->]; [lia|].
  rewrite visit_app. destruct l, r; simpl; try done; repeat (destruct visit_value; simpl; try done).
Qed.

Lemma visit_lambda_eq l k t :
  lambda_ok l = true ->
  visit_lambda h this act l k t =
    visit (if Lambda_IsValue l then (fun v => (v, k)) <$> dc_values (la_data l) else []) t.
Proof.
  unfold visit_lambda, Lambda_GetValue, lambda_ok, Lambda_IsValue.
  destruct (la_type l =? 1); [|done]. destruct (la_data l); try done. simpl. by destruct visit_value.
Qed.
End Visit.

(** What [UseInst] asserts of the arguments of an instruction. *)
Definition arg_ok (i : Inst) (ty : ArgType) (k : nat) : bool :=
  match ty, i_args i !! k with
  | ArgType_Value, Some (AValue _) => true
  | ArgType_Value, Some AVoid => op_eqb (i_op i) OpCode_CallLambda
  | ArgType_Value, _ => false
  | ArgType_Lambda, Some (ALambda l) => lambda_ok l
  | ArgType_Lambda, _ => false
  | ArgType_Params, Some (AParams _) => true
  | ArgType_Params, _ => false
  | ArgType_Operand, _ => bool_decide (k + 2 < length (i_args i))%nat
  | _, _ => true
  end.

Fixpoint args_ok_from (i : Inst) (tys : list ArgType) (k : nat) : bool :=
  match tys with
  | [] => true
  | ty :: tys' => arg_ok i ty k && args_ok_from i tys' (k + slots ty)
  end.

Definition args_ok (i : Inst) : bool := args_ok_from i (op_arg_types (i_op i)) 0.

Section Walks.
Context (h : Heap) (this : Ptr).

Lemma use_arg_visit i ty k t :
  arg_ok i ty k = true -> use_arg h this i ty k t = visit h this HIRValue_Use (arg_uses i ty k) t.
Proof.
  destruct ty; simpl; try done.
  - unfold slot_uses, ArgAt. destruct (i_args i !! k) as [[]|]; simpl; try done.
    + by intros ->.
    + intros _. apply visit_one.
  - intros H%bool_decide_eq_true. by apply visit_operand_eq.
  - unfold ArgAt. destruct (i_args i !! k) as [[]|]; simpl; try done. apply visit_lambda_eq.
  - unfold ArgAt. destruct (i_args i !! k) as [[]|]; simpl; try done. intros _. apply visit_values_eq.
Qed.

Lemma unuse_arg_visit i ty k t :
  arg_ok i ty k = true -> unuse_arg h this i ty k t = visit h this HIRValue_UnUse (arg_uses i ty k) t.
Proof.
  destruct ty; simpl; try done.
  - unfold slot_uses, ArgAt. destruct (i_args i !! k) as [[]|]; simpl; try done. intros _. apply visit_one.
  - intros H%bool_decide_eq_true. by apply visit_operand_eq.
  - unfold ArgAt. destruct (i_args i !! k) as [[]|]; simpl; try done. apply visit_lambda_eq.
  - unfold ArgAt. destruct (i_args i !! k) as [[]|]; simpl; try done. intros _. apply visit_values_eq.
Qed.

(** The two walks visit the same uses. *)
Lemma walks_visit i t :
  h !! this = Some i -> args_ok i = true ->
  UseInst h this t = visit h this HIRValue_Use (inst_uses i) t /\
  UnUseInst h this t = visit h this HIRValue_UnUse (inst_uses i) t.
Proof.
  intros Hi. unfold UseInst, UnUseInst, args_ok, inst_uses, deref. rewrite Hi. simpl.
  generalize (op_arg_types (i_op i)), 0%nat, t.
  induction l as [|ty tys IH]; intros k t'; simpl; [done|]. intros [H1 H2]%andb_true_iff.
  rewrite !visit_app, use_arg_visit, unuse_arg_visit by done.
  split; (destruct visit; simpl; [by apply IH|done]).
Qed.

(** ** What a visit does to the table *)

(** The uses of [d] among [l]. *)
Definition uses_of (d : Ptr) (l : list (Value * nat)) : list HIRUse :=
  (fun x => mkHIRUse this (snd x)) <$> filter (fun x => v_inst (fst x) = Some d) l.

(** Every instruction of [live] owns the slot of its id. *)
Record ids_ok (values : list (option Ptr)) (live : list Ptr) : Prop := {
  io_live : forall p, p ∈ live -> exists i, h !! p = Some i /\ 0 <= i_id i /\ i_id i <> invalid_id /\
              values !! Z.to_nat (i_id i) = Some (if Inst_HasValue i then Some p else None);
  io_slot : forall k p, values !! k = Some (Some p) ->
              p ∈ live /\ exists i, h !! p = Some i /\ i_id i = Z.of_nat k;
  io_distinct : forall p q i j, p ∈ live -> q ∈ live -> h !! p = Some i -> h !! q = Some j ->
              i_id i = i_id j -> p = q
}.

Lemma GetHIRValue_live t live d i v :
  ids_ok (vt_values t) live -> d ∈ live -> h !! d = Some i -> v_inst v = Some d ->
  GetHIRValue h t v = Ok (if Inst_HasValue i then Some d else None).
Proof.
  intros Hids Hd Hi Hv. unfold GetHIRValue, deref. rewrite Hv, Hi. simpl.
  destruct (io_live _ _ Hids d Hd) as (i' & Hi' & H0 & Hn & Hs). simplify_eq.
  pose proof (lookup_lt_Some _ _ _ Hs).
  rewrite (proj2 (Z.eqb_neq _ _)), (proj2 (Z.leb_gt _ _)), Hs by (done || lia). done.
Qed.

(** The defining instructions named in [l] are live. *)
Definition closed_in (live : list Ptr) (l : list (Value * nat)) : Prop :=
  forall x d, x ∈ l -> v_inst (fst x) = Some d -> d ∈ live.

Lemma visit_spec (step : HIRUse -> list HIRUse -> list HIRUse) live l t :
  let act d u t := mkValueTable (vt_values t) (alter (set_uses (step u)) d (vt_pool t)) (vt_count t) in
  ids_ok (vt_values t) live -> closed_in live l ->
  exists t', visit h this act l t = Ok t' /\ vt_values t' = vt_values t /\ vt_count t' = vt_count t /\
    forall d i, d ∈ live -> h !! d = Some i -> Inst_HasValue i = true ->
      vt_pool t' !! d = set_uses (fun us => foldl (fun us u => step u us) us (uses_of d l)) <$> vt_pool t !! d.
Proof.
  intros act. revert t. induction l as [|[v k] l IH]; intros t Hids Hcl.
  - exists t. split_and!; try done. intros d i _ _ _. simpl.
    destruct (vt_pool t !! d) as [[]|]; done.
  - simpl.
    assert (Hv : exists r, GetHIRValue h t v = Ok r /\
      forall d i, d ∈ live -> h !! d = Some i -> Inst_HasValue i = true -> (r = Some d <-> v_inst v = Some d)).
    { destruct (v_inst v) as [d0|] eqn:E.
      - assert (Hd0 : d0 ∈ live) by (apply (Hcl (v, k) d0); [left|done]).
        destruct (io_live _ _ Hids d0 Hd0) as (i0 & Hi0 & _).
        rewrite (GetHIRValue_live t live d0 i0 v) by done. eexists. split; [done|].
        intros d i Hd Hi Hh. destruct (Inst_HasValue i0) eqn:H0; split; intros [= <-]; try done; congruence.
      - exists None. unfold GetHIRValue. by rewrite E. }
    destruct Hv as (r & Hr & Hrd). unfold visit_value at 1. rewrite Hr. simpl.
    set (t1 := match r with Some d => act d (mkHIRUse this k) t | None => t end).
    assert (Ht1 : vt_values t1 = vt_values t /\ vt_count t1 = vt_count t) by (unfold t1; by destruct r).
    destruct Ht1 as [Hvals Hcnt].
    destruct (IH t1) as (t' & Ht' & Hvals' & Hcnt' & Hp); [by rewrite Hvals|intros x d Hx; apply Hcl; by right|].
    exists t'. split_and!; [done|congruence..|]. intros d i Hd Hi Hh.
    rewrite (Hp d i Hd Hi Hh). unfold uses_of. rewrite filter_cons. simpl.
    pose proof (Hrd d i Hd Hi Hh) as Hiff.
    destruct (decide (v_inst v = Some d)) as [Hvd|Hvd].
    + unfold t1. rewrite (proj2 Hiff Hvd). simpl. rewrite lookup_alter_eq.
      by destruct (vt_pool t !! d) as [[]|].
    + f_equal. unfold t1. destruct r as [d'|]; [|done]. simpl.
      rewrite lookup_alter_ne; [done|]. intros ->. by apply Hvd, Hiff.
Qed.
End Walks.

(** ** The invariant of the table *)

Definition uses_at (h : Heap) (q : Ptr) : list (Value * nat) :=
  match h !! q with Some j => inst_uses j | None => [] end.

(** Every use of [d] by an instruction of [live]. *)
Definition live_uses (h : Heap) (live : list Ptr) (d : Ptr) : list HIRUse :=
  mjoin ((fun q => uses_of q d (uses_at h q)) <$> live).

Definition has_value (h : Heap) (p : Ptr) : bool :=
  match h !! p with Some i => Inst_HasValue i | None => false end.

Definition value_count (h : Heap) (live : list Ptr) : Z :=
  wrap 16 (Z.of_nat (length (filter (fun p => has_value h p = true) live))).

Record table_ok (h : Heap) (t : ValueTable) (live : list Ptr) : Prop := {
  to_nodup : NoDup live;
  to_ids : ids_ok h (vt_values t) live;
  to_closed : forall q, q ∈ live -> closed_in live (uses_at h q);
  to_uses : forall d i, d ∈ live -> h !! d = Some i -> Inst_HasValue i = true ->
              exists v, vt_pool t !! d = Some v /\ hv_def v = d /\ hv_uses v ≡ₚ live_uses h live d;
  to_count : vt_count t = value_count h live
}.

Lemma foldl_snoc {A} (l us : list A) : foldl (fun us u => us ++ [u]) us l = us ++ l.
Proof.
  revert us. induction l as [|x l IH]; intros us; simpl; [by rewrite app_nil_r|].
  by rewrite IH, <- app_assoc.
Qed.

Lemma erase_first_perm u us rest : us ≡ₚ u :: rest -> erase_first u us ≡ₚ rest.
Proof.
  revert rest. induction us as [|x us IH]; intros rest H; simpl.
  - by apply Permutation_nil_cons in H.
  - case_decide as E.
    + subst x. by apply Permutation_cons_inv in H.
    + assert (Hu : u ∈ us).
      { assert (u ∈ x :: us) as [->|?]%elem_of_cons by (rewrite H; left); done. }
      apply list_elem_of_split in Hu as (a & b & ->).
      assert (Hr : rest ≡ₚ x :: a ++ b).
      { apply (Permutation_cons_inv (a := u)). rewrite <- H. by rewrite <- Permutation_middle, perm_swap. }
      rewrite Hr. constructor. apply IH. by rewrite Permutation_middle.
Qed.

Lemma foldl_erase l us rest :
  us ≡ₚ l ++ rest -> foldl (fun us u => erase_first u us) us l ≡ₚ rest.
Proof.
  revert us. induction l as [|u l IH]; intros us H; simpl; [done|].
  apply IH. by apply erase_first_perm.
Qed.

Lemma live_uses_perm h live live' d : live ≡ₚ live' -> live_uses h live d ≡ₚ live_uses h live' d.
Proof. intros H. unfold live_uses. by rewrite H. Qed.

Lemma live_uses_app h l1 l2 d : live_uses h (l1 ++ l2) d = live_uses h l1 d ++ live_uses h l2 d.
Proof. unfold live_uses. by rewrite fmap_app, join_app. Qed.

Lemma value_count_perm h live live' : live ≡ₚ live' -> value_count h live = value_count h live'.
Proof. intros H. unfold value_count. by rewrite H. Qed.

Lemma table_ok_perm h t live live' : live ≡ₚ live' -> table_ok h t live -> table_ok h t live'.
Proof.
  intros Hp [Hn [Hl Hs Hd] Hc Hu Hk].
  assert (He : forall p, p ∈ live <-> p ∈ live') by (intros p; by rewrite Hp). split.
  - by rewrite <- Hp.
  - split; [intros p ?%He; by apply Hl|intros k p Hk'; rewrite <- He; by apply Hs|].
    intros p q i j ?%He ?%He. by apply Hd.
  - intros q Hq%He x d Hx Hv. apply He. by apply (Hc q Hq x).
  - intros d i Hd'%He Hi Hh. destruct (Hu d i Hd' Hi Hh) as (v & ? & ? & Hv).
    exists v. split_and!; [done..|]. by rewrite Hv, (live_uses_perm h live live' d Hp).
  - by rewrite Hk, (value_count_perm h live live' Hp).
Qed.

(** The invariant reads only the code of the live instructions. *)
Definition code_on (live : list Ptr) (h h' : Heap) : Prop :=
  forall p, p ∈ live -> code <$> h' !! p = code <$> h !! p.

Lemma inst_uses_ext i j : i_op i = i_op j -> i_args i = i_args j -> inst_uses i = inst_uses j.
Proof.
  unfold inst_uses. intros -> Ha. generalize (op_arg_types (i_op j)), 0%nat.
  induction l as [|ty l IH]; intros k; simpl; [done|]. rewrite IH. f_equal.
  unfold arg_uses, slot_uses. by rewrite Ha.
Qed.

Lemma args_ok_ext i j : i_op i = i_op j -> i_args i = i_args j -> args_ok i = args_ok j.
Proof.
  unfold args_ok. intros Ho Ha. rewrite Ho. generalize (op_arg_types (i_op j)), 0%nat.
  induction l as [|ty l IH]; intros k; simpl; [done|]. rewrite IH. f_equal. unfold arg_ok. by rewrite Ho, Ha.
Qed.

Lemma code_uses i j : code i = code j -> inst_uses i = inst_uses j /\ i_id i = i_id j /\ Inst_HasValue i = Inst_HasValue j.
Proof.
  unfold code, Inst_HasValue. intros [= Ho Ha Hid _ _].
  split; [by apply inst_uses_ext|]. by rewrite Ho, Hid.
Qed.

Lemma code_args_ok i j : code i = code j -> args_ok i = args_ok j.
Proof. unfold code. intros [= Ho Ha _ _ _]. by apply args_ok_ext. Qed.

Lemma code_on_lookup live h h' p j :
  code_on live h h' -> p ∈ live -> h' !! p = Some j -> exists i, h !! p = Some i /\ code j = code i.
Proof.
  intros Hc Hp Hj. specialize (Hc p Hp). rewrite Hj in Hc.
  destruct (h !! p) as [i|]; [|done]. injection Hc. intros. exists i. split; [done|].
  unfold code. congruence.
Qed.

Lemma code_on_uses live h h' q : code_on live h h' -> q ∈ live -> uses_at h' q = uses_at h q.
Proof.
  intros Hc Hq. unfold uses_at. destruct (h' !! q) as [j|] eqn:Hj.
  - destruct (code_on_lookup live h h' q j Hc Hq Hj) as (i & -> & Hcode). by apply code_uses.
  - specialize (Hc q Hq). rewrite Hj in Hc. by destruct (h !! q).
Qed.

Lemma code_on_live_uses live live' h h' d :
  code_on live h h' -> live' ⊆ live -> live_uses h' live' d = live_uses h live' d.
Proof.
  intros Hc Hsub. unfold live_uses. f_equal. apply list_fmap_ext. intros k q Hq.
  rewrite (code_on_uses live h h' q) ; [done..|]. apply Hsub. by eapply list_elem_of_lookup_2.
Qed.

Lemma code_on_has_value live h h' p : code_on live h h' -> p ∈ live -> has_value h' p = has_value h p.
Proof.
  intros Hc Hp. unfold has_value. destruct (h' !! p) as [j|] eqn:Hj.
  - destruct (code_on_lookup live h h' p j Hc Hp Hj) as (i & -> & Hcode). by apply code_uses.
  - specialize (Hc p Hp). rewrite Hj in Hc. by destruct (h !! p).
Qed.

Lemma code_on_value_count live h h' : code_on live h h' -> value_count h' live = value_count h live.
Proof.
  intros Hc. unfold value_count. do 2 f_equal.
  assert (forall l, l ⊆ live -> filter (fun p => has_value h' p = true) l = filter (fun p => has_value h p = true) l)
    as E; [|by rewrite E].
  induction l as [|p l IH]; intros Hsub; [done|]. rewrite !filter_cons, IH by set_solver.
  rewrite (code_on_has_value live h h' p) by (done || set_solver). done.
Qed.

Lemma table_ok_code h h' t live : code_on live h h' -> table_ok h t live -> table_ok h' t live.
Proof.
  intros Hc [Hn [Hl Hs Hd] Hcl Hu Hk]. split.
  - done.
  - split.
    + intros p Hp. destruct (Hl p Hp) as (i & Hi & H0 & H1 & H2). pose proof (Hc p Hp) as E.
      rewrite Hi in E. destruct (h' !! p) as [j|] eqn:Hj; [|done]. exists j.
      destruct (code_on_lookup live h h' p j Hc Hp Hj) as (i' & Hi' & Hcode).
      rewrite Hi in Hi'. injection Hi' as <-. destruct (code_uses _ _ Hcode) as (_ & -> & ->). done.
    + intros k p Hkp. destruct (Hs k p Hkp) as (Hp & i & Hi & Hid). split; [done|].
      pose proof (Hc p Hp) as E. rewrite Hi in E. destruct (h' !! p) as [j|] eqn:Hj; [|done].
      exists j. split; [done|]. destruct (code_on_lookup live h h' p j Hc Hp Hj) as (i' & Hi' & Hcode).
      rewrite Hi in Hi'. injection Hi' as <-. by destruct (code_uses _ _ Hcode) as (_ & -> & _).
    + intros p q i j Hp Hq Hi Hj Hij.
      destruct (code_on_lookup live h h' p i Hc Hp Hi) as (i' & Hi' & (_ & Ei & _)%code_uses).
      destruct (code_on_lookup live h h' q j Hc Hq Hj) as (j' & Hj' & (_ & Ej & _)%code_uses).
      apply (Hd p q i' j'); congruence.
  - intros q Hq. rewrite (code_on_uses live h h') by done. by apply Hcl.
  - intros d j Hd' Hj Hh. destruct (code_on_lookup live h h' d j Hc Hd' Hj) as (i & Hi & (_ & _ & Eh)%code_uses).
    destruct (Hu d i Hd' Hi) as (v & ? & ? & ?); [congruence|]. exists v.
    by rewrite (code_on_live_uses live live h h').
  - by rewrite (code_on_value_count live h h').
Qed.

(** ** Appending an instruction *)

Lemma uses_of_fresh q d live l : closed_in live l -> d ∉ live -> uses_of q d l = [].
Proof.
  intros Hc Hd. unfold uses_of. induction l as [|x l IH]; [done|].
  rewrite filter_cons. case_decide as E; [|apply IH; intros y d' Hy; apply Hc; by right].
  exfalso. apply Hd. apply (Hc x); [left|done].
Qed.

Lemma live_uses_fresh h live0 live d :
  (forall q, q ∈ live -> closed_in live0 (uses_at h q)) -> d ∉ live0 -> live_uses h live d = [].
Proof.
  intros Hc Hd. unfold live_uses. induction live as [|q live IH]; [done|]. rewrite fmap_cons. simpl.
  rewrite (uses_of_fresh q d live0) by (done || apply Hc; left). apply IH. intros p Hp. apply Hc. by right.
Qed.

Lemma ids_ok_append h values live this i :
  ids_ok h values live -> this ∉ live -> h !! this = Some i ->
  i_id i = Z.of_nat (length values) -> i_id i < invalid_id ->
  ids_ok h (values ++ [if Inst_HasValue i then Some this else None]) (live ++ [this]).
Proof.
  intros [Hl Hs Hd] Hn Hi Hid Hlt.
  assert (Hlt' : forall p j, p ∈ live -> h !! p = Some j -> i_id j < i_id i).
  { intros p j Hp Hj. destruct (Hl p Hp) as (j' & Hj' & H0 & _ & Hv). rewrite Hj in Hj'. injection Hj' as <-.
    apply lookup_lt_Some in Hv. lia. }
  split.
  - intros p [Hp| ->%list_elem_of_singleton]%elem_of_app.
    + destruct (Hl p Hp) as (j & Hj & H0 & H1 & Hv). exists j. split_and!; try done.
      by rewrite lookup_app_l by (by eapply lookup_lt_Some).
    + exists i. split_and!; [done|lia|unfold invalid_id in *; lia|].
      rewrite Hid, Nat2Z.id, lookup_app_r, Nat.sub_diag by lia. done.
  - intros k p [Hk|[Hk Hp]]%lookup_app_Some; rewrite elem_of_app.
    + destruct (Hs k p Hk). split; [by left|done].
    + apply list_lookup_singleton_Some in Hp as [Hk' Hp]. destruct (Inst_HasValue i); [|done].
      injection Hp as <-. split; [right; left|]. exists i. split; [done|]. lia.
  - intros p q jp jq [Hp| ->%list_elem_of_singleton]%elem_of_app [Hq| ->%list_elem_of_singleton]%elem_of_app Hjp Hjq E.
    + by apply (Hd p q jp jq).
    + pose proof (Hlt' p jp Hp Hjp). simplify_eq. lia.
    + pose proof (Hlt' q jq Hq Hjq). simplify_eq. lia.
    + done.
Qed.

Lemma closed_in_app live live' l : closed_in live l -> closed_in (live ++ live') l.
Proof. intros H x d Hx Hv. apply elem_of_app. left. by apply (H x). Qed.

Lemma value_count_snoc h live this i :
  h !! this = Some i ->
  value_count h (live ++ [this]) =
    if Inst_HasValue i then wrap 16 (value_count h live + 1) else value_count h live.
Proof.
  intros Hi. unfold value_count. rewrite filter_app, length_app, filter_cons.
  assert (E : has_value h this = Inst_HasValue i) by (unfold has_value; by rewrite Hi).
  destruct (Inst_HasValue i).
  - rewrite decide_True by done. unfold wrap. rewrite Z.add_mod_idemp_l by done. f_equal. simpl. lia.
  - rewrite decide_False by congruence. simpl. by rewrite Nat.add_0_r.
Qed.

(** The record of a new instruction takes the next slot. *)
Lemma append_record h t this i b :
  h !! this = Some i -> i_id i = Z.of_nat (length (vt_values t)) ->
  AppendValueRecord h this b t =
    Ok (mkValueTable (vt_values t ++ [if Inst_HasValue i then Some this else None])
          (if Inst_HasValue i then <[this := mkHIRValue this b []]> (vt_pool t) else vt_pool t)
          (if Inst_HasValue i then wrap 16 (vt_count t + 1) else vt_count t)).
Proof.
  intros Hi Hid. unfold AppendValueRecord, deref. rewrite Hi. simpl. rewrite Hid, Nat2Z.id.
  destruct (Inst_HasValue i); by rewrite decide_True.
Qed.

Lemma append_value_ok h t live this i b :
  table_ok h t live -> this ∉ live -> h !! this = Some i ->
  i_id i = Z.of_nat (length (vt_values t)) -> i_id i < invalid_id ->
  args_ok i = true -> closed_in live (inst_uses i) ->
  exists t', AppendValue h this b t = Ok t' /\ table_ok h t' (live ++ [this]) /\
             length (vt_values t') = S (length (vt_values t)) /\
             (forall d j, d ∈ live ++ [this] -> h !! d = Some j -> Inst_HasValue j = true ->
                hv_block <$> vt_pool t' !! d = if decide (d = this) then Some b else hv_block <$> vt_pool t !! d).
Proof.
  intros [Hn Hids Hcl Hu Hk] Hnew Hi Hid Hlt Hargs Hclosed.
  unfold AppendValue. rewrite (append_record h t this i b Hi Hid). simpl.
  set (t1 := mkValueTable _ _ _).
  assert (Hids1 : ids_ok h (vt_values t1) (live ++ [this])) by by apply ids_ok_append.
  destruct (walks_visit h this i t1 Hi Hargs) as [-> _].
  destruct (visit_spec h this (fun u us => us ++ [u]) (live ++ [this]) (inst_uses i) t1 Hids1)
    as (t' & Ht' & Hv & Hc & Hp); [by apply closed_in_app|].
  change (visit h this HIRValue_Use (inst_uses i) t1 = Ok t') in Ht'. exists t'. split; [done|].
  split; [|split; [rewrite Hv; unfold t1; simpl; rewrite length_app; simpl; lia|]].
  2: { intros d j Hd Hj Hh. rewrite (Hp d j Hd Hj Hh), <- option_fmap_compose. unfold t1. simpl.
       case_decide as E; [subst d; simplify_eq; by rewrite Hh, lookup_insert_eq|].
       destruct (Inst_HasValue i); [by rewrite lookup_insert_ne|done]. }
  split.
  - apply NoDup_app. split; [done|]. split; [|apply NoDup_singleton]. intros p Hp1 ->%list_elem_of_singleton. done.
  - by rewrite Hv.
  - intros q [Hq| ->%list_elem_of_singleton]%elem_of_app; apply closed_in_app; [by apply Hcl|].
    unfold uses_at. by rewrite Hi.
  - intros d j Hd Hj Hh. rewrite (Hp d j Hd Hj Hh), live_uses_app.
    assert (Hlast : live_uses h [this] d = uses_of this d (inst_uses i)).
    { unfold live_uses, uses_at. simpl. by rewrite Hi, app_nil_r. }
    assert (Hpd : exists v, vt_pool t1 !! d = Some v /\ hv_def v = d /\ hv_uses v ≡ₚ live_uses h live d).
    { unfold t1. simpl. apply elem_of_app in Hd as [Hd| ->%list_elem_of_singleton].
      - assert (Hne : this <> d) by (by intros ->). destruct (Hu d j Hd Hj Hh) as (v & Hv1).
        exists v. destruct (Inst_HasValue i); [by rewrite lookup_insert_ne|done].
      - rewrite Hi in Hj. injection Hj as <-. rewrite Hh, lookup_insert_eq, (live_uses_fresh h live) by done.
        by eexists. }
    destruct Hpd as (v & -> & Hv2 & Hv3). eexists. split; [done|]. split; [done|].
    simpl. by rewrite foldl_snoc, Hlast, Hv3.
  - rewrite Hc, (value_count_snoc h live this i Hi), <- Hk. unfold t1. simpl. done.
Qed.

(** ** Erasing an instruction *)

(** Removing the slot of [this], if it has one, leaves the others. *)
Lemma ids_ok_erase h values live live' this i :
  ids_ok h values live -> live ≡ₚ this :: live' -> NoDup live -> h !! this = Some i ->
  ids_ok h (if Inst_HasValue i then <[Z.to_nat (i_id i) := None]> values else values) live'.
Proof.
  intros [Hl Hs Hd] Hp Hn Hi.
  assert (Hmem : forall p, p ∈ live' -> p ∈ live /\ p <> this).
  { intros p Hp'. rewrite Hp in Hn. apply NoDup_cons in Hn as [Hnin _].
    split; [rewrite Hp; by right|by intros ->]. }
  assert (Hthis : this ∈ live) by (rewrite Hp; left).
  destruct (Hl this Hthis) as (i' & Hi' & Hi0 & _ & Hti). rewrite Hi in Hi'. injection Hi' as <-.
  split.
  - intros p Hp'. destruct (Hmem p Hp') as [Hpl Hne]. destruct (Hl p Hpl) as (j & Hj & H0 & H1 & Hv).
    exists j. split_and!; try done. destruct (Inst_HasValue i); [|done].
    rewrite list_lookup_insert_ne; [done|]. intros E. apply Hne.
    apply (Hd p this j i); try done. lia.
  - intros k p Hk.
    assert (values !! k = Some (Some p) /\ p <> this) as [Hk' Hne].
    { destruct (Inst_HasValue i) eqn:Eh.
      - apply list_lookup_insert_Some in Hk as [(_ & ? & _)|[Hne Hk]]; [done|]. split; [done|].
        intros ->. destruct (Hs k this Hk) as (_ & i' & Hi' & Hid). rewrite Hi in Hi'. injection Hi' as <-. lia.
      - split; [done|]. intros ->. destruct (Hs k this Hk) as (_ & i' & Hi' & Hid). rewrite Hi in Hi'. injection Hi' as <-.
        rewrite Hid, Nat2Z.id in Hti. congruence. }
    destruct (Hs k p Hk') as (Hpl & Hex). split; [|done]. rewrite Hp in Hpl.
    by apply elem_of_cons in Hpl as [?|?].
  - intros p q jp jq Hp' Hq'. apply Hd; by apply Hmem.
Qed.

Lemma wrap_count_cons n : wrap 16 (wrap 16 (Z.of_nat (S n)) - 1) = wrap 16 (Z.of_nat n).
Proof. unfold wrap. rewrite Zminus_mod_idemp_l. f_equal. lia. Qed.

Lemma value_count_cons h live this i :
  h !! this = Some i ->
  value_count h live =
    if Inst_HasValue i then wrap 16 (value_count h (this :: live) - 1) else value_count h (this :: live).
Proof.
  intros Hi. unfold value_count. rewrite filter_cons.
  assert (E : has_value h this = Inst_HasValue i) by (unfold has_value; by rewrite Hi).
  destruct (Inst_HasValue i).
  - rewrite decide_True by done. simpl. by rewrite wrap_count_cons.
  - by rewrite decide_False by congruence.
Qed.

(** [UnUseInst], then the removal of the value [this] defines, if any. *)
Definition unregister (h : Heap) (this : Ptr) (t : ValueTable) : Res ValueTable :=
  t' <-? UnUseInst h this t;
  d <-? GetHIRValue h t' (mkValue (Some this) ValueType_VOID);
  match d with Some d => forget_value h d t' | None => Ok t' end.

Lemma unregister_ok h t live live' this i :
  table_ok h t live -> live ≡ₚ this :: live' -> h !! this = Some i -> args_ok i = true ->
  live_uses h live this = [] ->
  exists t', unregister h this t = Ok t' /\
    (forall h', code_on live' h h' -> table_ok h' t' live') /\
    length (vt_values t') = length (vt_values t) /\
    (forall d j, d ∈ live' -> h !! d = Some j -> Inst_HasValue j = true ->
       hv_block <$> vt_pool t' !! d = hv_block <$> vt_pool t !! d).
Proof.
  intros [Hn Hids Hcl Hu Hk] Hp Hi Hargs Hunused.
  assert (Hthis : this ∈ live) by (rewrite Hp; left).
  assert (Hat : uses_at h this = inst_uses i) by (unfold uses_at; by rewrite Hi).
  assert (Hmem : forall p, p ∈ live' -> p ∈ live /\ p <> this).
  { intros p Hp'. rewrite Hp in Hn. apply NoDup_cons in Hn as [Hnin _].
    split; [rewrite Hp; by right|by intros ->]. }
  unfold unregister. destruct (walks_visit h this i t Hi Hargs) as [_ ->].
  destruct (visit_spec h this erase_first live (inst_uses i) t Hids) as (t1 & Ht1 & Hv & Hc & Hpool).
  { rewrite <- Hat. by apply Hcl. }
  change (visit h this HIRValue_UnUse (inst_uses i) t = Ok t1) in Ht1. rewrite Ht1. simpl.
  rewrite (GetHIRValue_live h t1 live this i) by (done || by rewrite Hv). simpl.
  pose proof (ids_ok_erase h _ live live' this i Hids Hp Hn Hi) as Hids'.
  destruct (io_live _ _ _ Hids this Hthis) as (i' & Hi' & H0 & _ & Hslot). rewrite Hi in Hi'. injection Hi' as <-.
  set (t2 := mkValueTable (if Inst_HasValue i then <[Z.to_nat (i_id i) := None]> (vt_values t1) else vt_values t1)
               (vt_pool t1) (if Inst_HasValue i then wrap 16 (vt_count t1 - 1) else vt_count t1)).
  exists t2. split.
  { unfold t2. destruct (Inst_HasValue i).
    - unfold forget_value, deref. rewrite Hi. simpl. rewrite Hv, Hslot. by rewrite decide_True.
    - by destruct t1. }
  split; [|split; [unfold t2; simpl; rewrite Hv; destruct (Inst_HasValue i); [apply length_insert|done]|]].
  2: { intros d j Hd Hj Hh. destruct (Hmem d Hd) as [Hdl _]. unfold t2. simpl.
       by rewrite (Hpool d j Hdl Hj Hh), <- option_fmap_compose. }
  intros h' Hcode. apply (table_ok_code h h'); [done|]. split.
  - rewrite Hp in Hn. by apply NoDup_cons in Hn as [_ ?].
  - unfold t2. simpl. by rewrite Hv.
  - intros q Hq x d Hx Hd. destruct (Hmem q Hq) as [Hql Hne].
    pose proof (Hcl q Hql x d Hx Hd) as Hdl. rewrite Hp in Hdl. apply elem_of_cons in Hdl as [->|?]; [|done].
    exfalso. assert (Hin : mkHIRUse q (snd x) ∈ live_uses h live this); [|by rewrite Hunused in Hin; apply elem_of_nil in Hin].
    unfold live_uses. apply list_elem_of_join. exists (uses_of q this (uses_at h q)). split.
    + apply list_elem_of_fmap. exists x. split; [done|]. by apply list_elem_of_filter.
    + apply list_elem_of_fmap. by exists q.
  - intros d j Hd Hj Hh. destruct (Hmem d Hd) as [Hdl Hne].
    destruct (Hu d j Hdl Hj Hh) as (v & Hv1 & Hv2 & Hv3). unfold t2. simpl.
    rewrite (Hpool d j Hdl Hj Hh), Hv1. eexists. split; [done|]. split; [done|]. simpl.
    apply foldl_erase. rewrite Hv3, (live_uses_perm h live _ d Hp). unfold live_uses. simpl. by rewrite Hat.
  - unfold t2. simpl. rewrite Hc, Hk, (value_count_perm h _ _ Hp). by rewrite (value_count_cons h live' this i).
Qed.
