(* ===== verification/Cfg.v ===== *)
(** * Functions and their control-flow graph

    Model of the data of runtime/ir/hir_builder.h: the [Edge]s, [HIRBlock]s and
    the [HIRFunction] that owns them; and of [HIRFunction::ComputeRPO].  The
    objects of [pools.blocks] and [pools.edges] are lists in creation order and a
    pointer to one is its index.  For a block the index is also its [order_id]
    (builder_ops_ok of HirBuilderProps.v), which [ComputeRPO] uses to mark
    visited blocks and [GetHIRBlocks()] is indexed by. *)

From Stdlib Require Import ZArith Lia.
From stdpp Require Import numbers base gmap sets list relations.
From S2P Require Import Prelude MachineInt IRTypes Instr InstrBuild Interp HirValues.

Local Open Scope Z_scope.
Local Open Scope svm_scope.

(** [Edge]; [CONDITIONAL] is bit 0 of its flags and [DOMINATES] bit 1. *)
Record Edge := mkEdge { e_src : nat; e_dest : nat; e_flags : Z }.

(** An [HIRBlock] with the [AddressNode] part and the guest-code dependencies of
    its [Block].  The [predecessors] and [successors] are filled by
    [EndFunction]. *)
Record HIRBlock := mkHIRBlock {
  hb_order_id : Z;
  hb_location : Z;
  hb_node_size : Z;
  hb_block : Block;
  hb_max_instr_id : Z;
  hb_dependencies : list (Z * Z);
  hb_outgoing : list nat;
  hb_incoming : list nat;
  hb_predecessors : list nat;
  hb_successors : list nat;
  hb_call_return : option nat;
  hb_call_return_target : bool
}.

(** Assignments to the fields. *)
Definition with_node_size (x : Z) (b : HIRBlock) : HIRBlock :=
  mkHIRBlock (hb_order_id b) (hb_location b) x (hb_block b) (hb_max_instr_id b) (hb_dependencies b) (hb_outgoing b)
    (hb_incoming b) (hb_predecessors b) (hb_successors b) (hb_call_return b)
    (hb_call_return_target b).
Definition with_block (x : Block) (b : HIRBlock) : HIRBlock :=
  mkHIRBlock (hb_order_id b) (hb_location b) (hb_node_size b) x
    (hb_max_instr_id b) (hb_dependencies b) (hb_outgoing b) (hb_incoming b) (hb_predecessors b)
    (hb_successors b) (hb_call_return b) (hb_call_return_target b).
Definition with_max_instr_id (x : Z) (b : HIRBlock) : HIRBlock :=
  mkHIRBlock (hb_order_id b) (hb_location b) (hb_node_size b) (hb_block b) x
    (hb_dependencies b) (hb_outgoing b) (hb_incoming b) (hb_predecessors b)
    (hb_successors b) (hb_call_return b) (hb_call_return_target b).
Definition with_dependencies (x : list (Z * Z)) (b : HIRBlock) : HIRBlock :=
  mkHIRBlock (hb_order_id b) (hb_location b) (hb_node_size b) (hb_block b) (hb_max_instr_id b) x (hb_outgoing b)
    (hb_incoming b) (hb_predecessors b) (hb_successors b) (hb_call_return b)
    (hb_call_return_target b).
Definition with_outgoing (x : list nat) (b : HIRBlock) : HIRBlock :=
  mkHIRBlock (hb_order_id b) (hb_location b) (hb_node_size b) (hb_block b) (hb_max_instr_id b) (hb_dependencies b) x
    (hb_incoming b) (hb_predecessors b) (hb_successors b) (hb_call_return b)
    (hb_call_return_target b).
Definition with_incoming (x : list nat) (b : HIRBlock) : HIRBlock :=
  mkHIRBlock (hb_order_id b) (hb_location b) (hb_node_size b) (hb_block b) (hb_max_instr_id b) (hb_dependencies b)
    (hb_outgoing b) x (hb_predecessors b) (hb_successors b) (hb_call_return b)
    (hb_call_return_target b).
Definition with_call_return (x : option nat) (b : HIRBlock) : HIRBlock :=
  mkHIRBlock (hb_order_id b) (hb_location b) (hb_node_size b) (hb_block b) (hb_max_instr_id b) (hb_dependencies b)
    (hb_outgoing b) (hb_incoming b) (hb_predecessors b) (hb_successors b) x
    (hb_call_return_target b).
Definition with_call_return_target (x : bool) (b : HIRBlock) : HIRBlock :=
  mkHIRBlock (hb_order_id b) (hb_location b) (hb_node_size b) (hb_block b) (hb_max_instr_id b) (hb_dependencies b)
    (hb_outgoing b) (hb_incoming b) (hb_predecessors b) (hb_successors b) (hb_call_return b) x.

(** [hf_blocks] are the block objects, [hf_block_list] the list that holds them
    until [EndFunction] moves them to the vector [GetHIRBlocks()],
    [hf_vector].  [hf_added] are the blocks handed to the [ir::Function]. *)
Record HIRFunction := mkHIRFunction {
  hf_max_local_id : Z;
  hf_block_order_id : Z;
  hf_inst_order_id : Z;
  hf_ir_fast : bool;
  hf_blocks : list HIRBlock;
  hf_edges : list Edge;
  hf_block_list : list nat;
  hf_vector : list (option nat);
  hf_rpo : list nat;
  hf_external_links : list (nat * Z);
  hf_external_roots : list nat;
  hf_values : ValueTable;
  hf_current : option nat;
  hf_entry : option nat;
  hf_added : list nat
}.

Definition set_max_local_id (x : Z) (f : HIRFunction) : HIRFunction :=
  mkHIRFunction x (hf_block_order_id f) (hf_inst_order_id f) (hf_ir_fast f) (hf_blocks f)
    (hf_edges f) (hf_block_list f) (hf_vector f) (hf_rpo f) (hf_external_links f)
    (hf_external_roots f) (hf_values f) (hf_current f) (hf_entry f) (hf_added f).
Definition set_block_order_id (x : Z) (f : HIRFunction) : HIRFunction :=
  mkHIRFunction (hf_max_local_id f) x (hf_inst_order_id f) (hf_ir_fast f) (hf_blocks f)
    (hf_edges f) (hf_block_list f) (hf_vector f) (hf_rpo f) (hf_external_links f)
    (hf_external_roots f) (hf_values f) (hf_current f) (hf_entry f) (hf_added f).
Definition set_inst_order_id (x : Z) (f : HIRFunction) : HIRFunction :=
  mkHIRFunction (hf_max_local_id f) (hf_block_order_id f) x (hf_ir_fast f) (hf_blocks f)
    (hf_edges f) (hf_block_list f) (hf_vector f) (hf_rpo f) (hf_external_links f)
    (hf_external_roots f) (hf_values f) (hf_current f) (hf_entry f) (hf_added f).
Definition set_blocks (x : list HIRBlock) (f : HIRFunction) : HIRFunction :=
  mkHIRFunction (hf_max_local_id f) (hf_block_order_id f) (hf_inst_order_id f) (hf_ir_fast f) x
    (hf_edges f) (hf_block_list f) (hf_vector f) (hf_rpo f) (hf_external_links f)
    (hf_external_roots f) (hf_values f) (hf_current f) (hf_entry f) (hf_added f).
Definition set_edges (x : list Edge) (f : HIRFunction) : HIRFunction :=
  mkHIRFunction (hf_max_local_id f) (hf_block_order_id f) (hf_inst_order_id f) (hf_ir_fast f)
    (hf_blocks f) x (hf_block_list f) (hf_vector f) (hf_rpo f) (hf_external_links f)
    (hf_external_roots f) (hf_values f) (hf_current f) (hf_entry f) (hf_added f).
Definition set_block_list (x : list nat) (f : HIRFunction) : HIRFunction :=
  mkHIRFunction (hf_max_local_id f) (hf_block_order_id f) (hf_inst_order_id f) (hf_ir_fast f)
    (hf_blocks f) (hf_edges f) x (hf_vector f) (hf_rpo f) (hf_external_links f)
    (hf_external_roots f) (hf_values f) (hf_current f) (hf_entry f) (hf_added f).
Definition set_vector (x : list (option nat)) (f : HIRFunction) : HIRFunction :=
  mkHIRFunction (hf_max_local_id f) (hf_block_order_id f) (hf_inst_order_id f) (hf_ir_fast f)
    (hf_blocks f) (hf_edges f) (hf_block_list f) x (hf_rpo f) (hf_external_links f)
    (hf_external_roots f) (hf_values f) (hf_current f) (hf_entry f) (hf_added f).
Definition set_rpo (x : list nat) (f : HIRFunction) : HIRFunction :=
  mkHIRFunction (hf_max_local_id f) (hf_block_order_id f) (hf_inst_order_id f) (hf_ir_fast f)
    (hf_blocks f) (hf_edges f) (hf_block_list f) (hf_vector f) x (hf_external_links f)
    (hf_external_roots f) (hf_values f) (hf_current f) (hf_entry f) (hf_added f).
Definition set_external_links (x : list (nat * Z)) (f : HIRFunction) : HIRFunction :=
  mkHIRFunction (hf_max_local_id f) (hf_block_order_id f) (hf_inst_order_id f) (hf_ir_fast f)
    (hf_blocks f) (hf_edges f) (hf_block_list f) (hf_vector f) (hf_rpo f) x (hf_external_roots f)
    (hf_values f) (hf_current f) (hf_entry f) (hf_added f).
Definition set_external_roots (x : list nat) (f : HIRFunction) : HIRFunction :=
  mkHIRFunction (hf_max_local_id f) (hf_block_order_id f) (hf_inst_order_id f) (hf_ir_fast f)
    (hf_blocks f) (hf_edges f) (hf_block_list f) (hf_vector f) (hf_rpo f) (hf_external_links f) x
    (hf_values f) (hf_current f) (hf_entry f) (hf_added f).
Definition set_values (x : ValueTable) (f : HIRFunction) : HIRFunction :=
  mkHIRFunction (hf_max_local_id f) (hf_block_order_id f) (hf_inst_order_id f) (hf_ir_fast f)
    (hf_blocks f) (hf_edges f) (hf_block_list f) (hf_vector f) (hf_rpo f) (hf_external_links f)
    (hf_external_roots f) x (hf_current f) (hf_entry f) (hf_added f).
Definition set_current (x : option nat) (f : HIRFunction) : HIRFunction :=
  mkHIRFunction (hf_max_local_id f) (hf_block_order_id f) (hf_inst_order_id f) (hf_ir_fast f)
    (hf_blocks f) (hf_edges f) (hf_block_list f) (hf_vector f) (hf_rpo f) (hf_external_links f)
    (hf_external_roots f) (hf_values f) x (hf_entry f) (hf_added f).
Definition set_entry (x : option nat) (f : HIRFunction) : HIRFunction :=
  mkHIRFunction (hf_max_local_id f) (hf_block_order_id f) (hf_inst_order_id f) (hf_ir_fast f)
    (hf_blocks f) (hf_edges f) (hf_block_list f) (hf_vector f) (hf_rpo f) (hf_external_links f)
    (hf_external_roots f) (hf_values f) (hf_current f) x (hf_added f).
Definition set_added (x : list nat) (f : HIRFunction) : HIRFunction :=
  mkHIRFunction (hf_max_local_id f) (hf_block_order_id f) (hf_inst_order_id f) (hf_ir_fast f)
    (hf_blocks f) (hf_edges f) (hf_block_list f) (hf_vector f) (hf_rpo f) (hf_external_links f)
    (hf_external_roots f) (hf_values f) (hf_current f) (hf_entry f) x.

(** [Block::HasTerminal]. *)
Definition HasTerminal (b : Block) : bool :=
  match b_terminal b with Invalid => false | _ => true end.

(** A finished block and function of which only the graph matters. *)
Definition graph_block (order_id location : Z) (b : Block) (successors : list nat)
    (call_return : option nat) : HIRBlock :=
  mkHIRBlock order_id location 0 b 0 [] [] [] [] successors call_return false.

Definition graph_function (blocks : list HIRBlock) (entry : option nat) (roots rpo : list nat)
  : HIRFunction :=
  mkHIRFunction 0 (Z.of_nat (length blocks)) 0 false blocks [] [] (Some <$> seq 0 (length blocks)) rpo []
    roots (mkValueTable [] ∅ 0) None entry [].

(** ** [ComputeRPO] *)

Section Rpo.
Context (f : HIRFunction).

(** The successors of a block in the order in which the traversal visits them:
    the call-return block, if any, comes last. *)
Definition next_blocks (b : nat) : list nat :=
  match hf_blocks f !! b with
  | Some x => hb_successors x ++ (match hb_call_return x with Some c => [c] | None => [] end)
  | None => []
  end.

(** [visited], [stack] (its back first, each frame with [next_succ]) and
    [post_order] (its back last). *)
Record Dfs := mkDfs {
  d_visited : gset nat;
  d_stack : list (nat * nat);
  d_post : list nat
}.

(** The body of [while (!stack.empty())] on a non-empty stack. *)
Definition dfs_step (d : Dfs) (b k : nat) (stack : list (nat * nat)) : Dfs :=
  match next_blocks b !! k with
  | Some succ =>
      let stack := (b, S k) :: stack in
      if decide (succ ∈ d_visited d) then mkDfs (d_visited d) stack (d_post d)
      else mkDfs ({[succ]} ∪ d_visited d) ((succ, 0%nat) :: stack) (d_post d)
  | None => mkDfs (d_visited d) stack (d_post d ++ [b])
  end.

Fixpoint dfs_loop (fuel : nat) (d : Dfs) : option Dfs :=
  match d_stack d with
  | [] => Some d
  | (b, k) :: stack =>
      match fuel with
      | O => None
      | S n => dfs_loop n (dfs_step d b k stack)
      end
  end.

(** [append_component]: the visited set and [blocks_rpo]. *)
Definition append_component (fuel : nat) (entry : nat) (st : gset nat * list nat) (root : nat)
  : option (gset nat * list nat) :=
  if decide (root ∈ fst st) then Some st
  else
    d ← dfs_loop fuel (mkDfs ({[root]} ∪ fst st) [(root, 0%nat)] []);
    Some (d_visited d, snd st ++ filter (fun b => b <> entry) (reverse (d_post d))).

Fixpoint append_components (fuel : nat) (entry : nat) (roots : list nat) (st : gset nat * list nat)
  : option (gset nat * list nat) :=
  match roots with
  | [] => Some st
  | root :: roots' =>
      st' ← append_component fuel entry st root;
      append_components fuel entry roots' st'
  end.

(** One step per edge of each block and one more to leave it. *)
Definition rpo_fuel : nat :=
  sum_list_with (fun b => S (length (next_blocks b))) (seq 0 (length (hf_blocks f))).

Definition ComputeRPO (fuel : nat) : option HIRFunction :=
  match hf_entry f with
  | None => Some (set_rpo [] f)
  | Some entry =>
      st ← append_components fuel entry (entry :: hf_external_roots f) (∅, []);
      Some (set_rpo (snd st) f)
  end.
End Rpo.
