(* ===== verification/CfgProps.v ===== *)
(** * Reverse post-order

    [ComputeRPO] returns within one step per edge and block, lists exactly the
    blocks reachable from the entry block or an external root, each once, and
    puts a block before its successors wherever the edge is not part of a
    cycle. *)

From Stdlib Require Import ZArith Lia Sorted.
From stdpp Require Import numbers base gmap sets list relations.
From S2P Require Import Prelude MachineInt IRTypes Instr InstrBuild Interp HirValues Cfg.

Local Open Scope svm_scope.

(** [u] occurs before [v]. *)
Definition precedes {A} (l : list A) (u v : A) : Prop :=
  exists l1 l2 l3, l = l1 ++ u :: l2 ++ v :: l3.

Lemma precedes_app_r {A} (l k : list A) u v : precedes l u v -> precedes (l ++ k) u v.
Proof.
  intros (l1 & l2 & l3 & ->). exists l1, l2, (l3 ++ k).
  by rewrite <- !app_assoc, <- !app_comm_cons, <- !app_assoc.
Qed.

Lemma precedes_app_l {A} (l k : list A) u v : precedes k u v -> precedes (l ++ k) u v.
Proof. intros (l1 & l2 & l3 & ->). exists (l ++ l1), l2, l3. by rewrite <- !app_assoc. Qed.

Lemma precedes_filter {A} (P : A -> Prop) `{!forall x, Decision (P x)} (l : list A) u v :
  P u -> P v -> precedes l u v -> precedes (filter P l) u v.
Proof.
  intros Hu Hv (l1 & l2 & l3 & ->).
  exists (filter P l1), (filter P l2), (filter P l3).
  rewrite filter_app, filter_cons_True, filter_app, filter_cons_True by done. done.
Qed.

Lemma precedes_reverse {A} (l1 l2 : list A) u v :
  v ∈ l1 -> precedes (reverse (l1 ++ u :: l2)) u v.
Proof.
  intros (a & b & ->)%list_elem_of_split.
  exists (reverse l2), (reverse b), (reverse a).
  rewrite !reverse_app, !reverse_cons, <- !app_assoc. done.
Qed.

Section Rpo.
Context (f : HIRFunction).
Local Abbreviation next := (next_blocks f).

(** The edges the traversal follows. *)
Definition edge (u v : nat) : Prop := v ∈ next u.
Definition reach : relation nat := rtc edge.

(** ** One component: [V0] is what earlier components visited *)

Section Component.
Context (V0 : gset nat) (root : nat).

Record dfs_inv (d : Dfs) : Prop := {
  di_root : root ∈ d_visited d;
  di_visited : forall b, b ∈ d_visited d <-> b ∈ V0 \/ b ∈ (d_stack d).*1 \/ b ∈ d_post d;
  di_nodup : NoDup ((d_stack d).*1 ++ d_post d);
  di_fresh : forall b, b ∈ (d_stack d).*1 \/ b ∈ d_post d -> (b ∉ V0) /\ reach root b;
  di_path : StronglySorted (fun x y : nat * nat => reach (fst y) (fst x)) (d_stack d);
  di_below : forall b k j c, (b, k) ∈ d_stack d -> (j < k)%nat -> next b !! j = Some c -> c ∈ d_visited d;
  di_closed : forall u v, u ∈ d_post d -> edge u v -> v ∈ d_visited d;
  di_post : forall l1 u l2 v, d_post d = (l1 ++ u :: l2) -> edge u v -> (v ∈ V0 \/ v ∈ l1 \/ reach v u)
}.

Lemma dfs_inv_start : root ∉ V0 -> dfs_inv (mkDfs ({[root]} ∪ V0) [(root, 0%nat)] []).
Proof.
  intros Hr. split; simpl.
  - set_solver.
  - intros b. set_solver.
  - apply NoDup_singleton.
  - intros b [->%list_elem_of_singleton|Hb]; [split; [done|apply rtc_refl]|set_solver].
  - repeat constructor.
  - intros b k j c [= -> ->]%list_elem_of_singleton Hj. lia.
  - by intros u v ?%elem_of_nil.
  - intros [|? ?] u l2 v; done.
Qed.

(** The top frame moves on to its next successor. *)
Lemma below_next d b k c stack (V : gset nat) :
  dfs_inv d -> d_stack d = (b, k) :: stack -> next b !! k = Some c -> c ∈ V ->
  (forall x, x ∈ d_visited d -> x ∈ V) ->
  forall b' k' j c', (b', k') ∈ (b, S k) :: stack -> (j < k')%nat -> next b' !! j = Some c' -> c' ∈ V.
Proof.
  intros Hi Hs Hc Hin Hsub b' k' j c' Hel Hj Hn.
  pose proof (di_below d Hi) as Hb. rewrite Hs in Hb.
  apply elem_of_cons in Hel as [[= -> ->]|Hel].
  - destruct (decide (j = k)) as [->|]; [by simplify_eq|].
    apply Hsub, (Hb b k j c'); [left|lia|done].
  - apply Hsub, (Hb b' k' j c'); [by right|done|done].
Qed.

Lemma path_top d b k stack :
  dfs_inv d -> d_stack d = (b, k) :: stack ->
  forall k', StronglySorted (fun x y : nat * nat => reach (fst y) (fst x)) ((b, k') :: stack).
Proof.
  intros Hi Hs k'. pose proof (di_path d Hi) as Hp. rewrite Hs in Hp.
  apply StronglySorted_inv in Hp as [Hp Hf]. by constructor.
Qed.

Lemma dfs_step_inv d b k stack :
  dfs_inv d -> d_stack d = (b, k) :: stack -> dfs_inv (dfs_step f d b k stack).
Proof.
  intros Hi Hs. unfold dfs_step.
  pose proof (di_visited d Hi) as Hvis. pose proof (di_nodup d Hi) as Hnd.
  pose proof (di_fresh d Hi) as Hfr. rewrite Hs in Hvis, Hnd, Hfr. simpl in Hvis, Hnd, Hfr.
  destruct (next b !! k) as [c|] eqn:Hc; [case_decide as Hcv|].
  - split; simpl; try done.
    + apply (di_root d Hi).
    + by eapply path_top.
    + by eapply below_next.
    + apply (di_closed d Hi).
    + apply (di_post d Hi).
  - assert (Hbc : reach b c) by (apply rtc_once; apply list_elem_of_lookup; eauto).
    assert (Hroot : reach root c) by (etrans; [apply (Hfr b); left; left|done]).
    split; simpl.
    + apply elem_of_union_r, (di_root d Hi).
    + intros x. rewrite elem_of_union, elem_of_singleton, Hvis, !elem_of_cons. tauto.
    + constructor; [|done].
      intros Hin. apply Hcv, Hvis. rewrite !elem_of_cons, elem_of_app in *. tauto.
    + intros x [[->|Hx]%elem_of_cons|Hx]; [|apply Hfr; auto..].
      split; [|done]. intros HV. apply Hcv, Hvis. auto.
    + pose proof (path_top d b k stack Hi Hs (S k)) as Hp. constructor; [done|].
      apply StronglySorted_inv in Hp as [_ Hf]. constructor; [done|].
      eapply Forall_impl; [exact Hf|]. simpl. intros y Hy. by etrans.
    + intros b' k' j c' [[= -> ->]|Hel]%elem_of_cons Hj; [lia|].
      eapply below_next; [exact Hi|exact Hs|exact Hc|set_solver|set_solver|exact Hel|exact Hj].
    + intros u v Hu Huv. apply elem_of_union_r. by apply (di_closed d Hi u).
    + apply (di_post d Hi).
  - assert (Hall : forall v, edge b v -> v ∈ d_visited d).
    { intros v [j Hj]%list_elem_of_lookup. apply lookup_ge_None in Hc.
      pose proof (lookup_lt_Some _ _ _ Hj).
      eapply (di_below d Hi); [rewrite Hs; left|eapply Nat.lt_le_trans; [eassumption|exact Hc]|exact Hj]. }
    split; simpl.
    + apply (di_root d Hi).
    + intros x. rewrite Hvis, elem_of_cons, elem_of_app, list_elem_of_singleton. tauto.
    + eapply NoDup_Permutation_proper; [|exact Hnd].
      by rewrite app_assoc, <- Permutation_cons_append.
    + intros x [Hx|[Hx| ->%list_elem_of_singleton]%elem_of_app]; apply Hfr; set_solver.
    + pose proof (di_path d Hi) as Hp. rewrite Hs in Hp. by apply StronglySorted_inv in Hp as [? _].
    + intros b' k' j c' Hel. apply (di_below d Hi b' k' j c'). rewrite Hs. by right.
    + intros u v [Hu|Hu%list_elem_of_singleton]%elem_of_app Huv; [by apply (di_closed d Hi u)|].
      subst u. by apply Hall.
    + intros l1 u l2 v Hl Huv. destruct l2 as [|y l2 _] using rev_ind.
      * apply app_inj_tail in Hl as [<- <-]. pose proof (Hall v Huv) as Hv. apply Hvis in Hv as [?|[[->|Hv]%elem_of_cons|?]]; auto; right; right; [apply rtc_refl|].
        pose proof (di_path d Hi) as Hp. rewrite Hs in Hp. apply StronglySorted_inv in Hp as [_ Hf].
        apply list_elem_of_fmap in Hv as (y & -> & Hy). rewrite Forall_forall in Hf. by apply (Hf y).
      * rewrite app_comm_cons, app_assoc in Hl. apply app_inj_tail in Hl as [Hl _].
        by eapply (di_post d Hi).
Qed.

(** ** The traversal returns *)

(** Every block in range, with the edges in range. *)
Definition in_range (b : nat) : Prop := (b < length (hf_blocks f))%nat.
#[export] Instance in_range_dec b : Decision (in_range b).
Proof. unfold in_range. apply _. Defined.
Definition edges_in_range : Prop := forall u v, edge u v -> in_range v.

Definition unvisited (V : gset nat) : nat :=
  sum_list_with (fun b => if decide (b ∈ V) then 0%nat else S (length (next b)))
    (seq 0 (length (hf_blocks f))).

Definition frame_cost (x : nat * nat) : nat := S (length (next (fst x)) - snd x).

Definition measure (d : Dfs) : nat :=
  (unvisited (d_visited d) + sum_list_with frame_cost (d_stack d))%nat.

Lemma sum_list_visit_other (V : gset nat) (c : nat) (g : nat -> nat) (l : list nat) :
  c ∉ l ->
  sum_list_with (fun b => if decide (b ∈ V) then 0%nat else g b) l =
  sum_list_with (fun b => if decide (b ∈ ({[c]} ∪ V : gset nat)) then 0%nat else g b) l.
Proof.
  induction l as [|x l IH]; intros Hc; [done|]. simpl.
  apply not_elem_of_cons in Hc as [Hx Hc]. rewrite (IH Hc). f_equal.
  repeat case_decide; set_solver.
Qed.

Lemma sum_list_visit (V : gset nat) (c : nat) (g : nat -> nat) (l : list nat) :
  NoDup l -> c ∉ V -> c ∈ l ->
  (sum_list_with (fun b => if decide (b ∈ V) then 0 else g b) l =
   g c + sum_list_with (fun b => if decide (b ∈ ({[c]} ∪ V : gset nat)) then 0 else g b) l)%nat.
Proof.
  intros Hnd Hc. induction Hnd as [|x l Hx Hnd IH]; [by intros ?%elem_of_nil|].
  intros [<-|Hin]%elem_of_cons; simpl.
  - rewrite decide_False by done. rewrite decide_True by set_solver. simpl. f_equal.
    by apply sum_list_visit_other.
  - rewrite (IH Hin). assert (x <> c) by (intros ->; done).
    destruct (decide (x ∈ V)) as [Hv|Hv].
    + rewrite decide_True by set_solver. done.
    + rewrite decide_False by set_solver. lia.
Qed.

Lemma unvisited_visit (V : gset nat) c :
  in_range c -> c ∉ V -> unvisited V = (S (length (next c)) + unvisited ({[c]} ∪ V))%nat.
Proof.
  intros Hr Hc. apply (sum_list_visit V c (fun b => S (length (next b)))); [apply NoDup_seq|done|].
  apply elem_of_seq. unfold in_range in Hr. lia.
Qed.

Lemma dfs_step_measure d b k stack :
  edges_in_range -> d_stack d = (b, k) :: stack ->
  measure d = S (measure (dfs_step f d b k stack)).
Proof.
  intros Hr Hs. unfold measure, dfs_step. rewrite Hs. simpl.
  destruct (next b !! k) as [c|] eqn:Hc.
  - pose proof (lookup_lt_Some _ _ _ Hc).
    assert (in_range c) by (apply (Hr b), list_elem_of_lookup; eauto).
    case_decide as Hv; simpl; unfold frame_cost; simpl; [lia|].
    rewrite (unvisited_visit _ c) by done. lia.
  - apply lookup_ge_None in Hc. simpl. unfold frame_cost. simpl. lia.
Qed.

Lemma dfs_loop_ok fuel d :
  edges_in_range -> dfs_inv d -> (measure d <= fuel)%nat ->
  exists d', dfs_loop f fuel d = Some d' /\ dfs_inv d' /\ d_stack d' = [].
Proof.
  intros Hr. revert d. induction fuel as [|n IH]; intros d Hi Hf; destruct d as [V [|[b k] stack] post] eqn:Hd;
    simpl; rewrite <- Hd in *.
  1, 3: exists d; subst d; auto.
  - pose proof (dfs_step_measure d b k stack Hr ltac:(by subst d)). lia.
  - apply IH; [apply dfs_step_inv; subst d; done|].
    pose proof (dfs_step_measure d b k stack Hr ltac:(by subst d)). lia.
Qed.
End Component.

(** ** The components together *)

Lemma dfs_component V0 root :
  edges_in_range -> in_range root -> root ∉ V0 ->
  exists d', dfs_loop f (rpo_fuel f) (mkDfs ({[root]} ∪ V0) [(root, 0%nat)] []) = Some d' /\
             dfs_inv V0 root d' /\ d_stack d' = [].
Proof.
  intros Hr Hroot HV. apply dfs_loop_ok; [done|by apply dfs_inv_start|].
  unfold measure. simpl. unfold frame_cost. simpl.
  pose proof (unvisited_visit V0 root Hroot HV) as Hu.
  assert (unvisited V0 <= rpo_fuel f)%nat; [|lia].
  unfold unvisited, rpo_fuel. induction (seq 0 (length (hf_blocks f))) as [|x l IH]; simpl; [lia|].
  case_decide; lia.
Qed.

Context (entry : nat).

(** The blocks visited and the order so far: the visited set is closed under the
    edges and holds exactly what the roots [rs] reach; blocks reached from
    the entry block precede their successors, except within a cycle. *)
Record rpo_inv (rs : list nat) (st : gset nat * list nat) : Prop := {
  ri_visited : forall b, b ∈ fst st <-> exists r, r ∈ rs /\ reach r b;
  ri_order : forall b, b ∈ snd st <-> b ∈ fst st /\ b <> entry;
  ri_nodup : NoDup (snd st);
  ri_edges : forall u v, reach entry u -> edge u v -> u <> entry -> v <> entry -> u ∈ fst st ->
             precedes (snd st) u v \/ reach v u
}.

Lemma reach_closed rs st u v : rpo_inv rs st -> u ∈ fst st -> reach u v -> v ∈ fst st.
Proof.
  intros Hi Hu Huv. apply (ri_visited rs st Hi) in Hu as (r & Hr & Hru).
  apply (ri_visited rs st Hi). exists r. split; [done|by etrans].
Qed.

(** What a finished component visited. *)
Lemma component_visited V0 root d :
  dfs_inv V0 root d -> d_stack d = [] ->
  (forall u v, u ∈ V0 -> reach u v -> v ∈ V0) ->
  forall b, b ∈ d_visited d <-> b ∈ V0 \/ reach root b.
Proof.
  intros Hi Hs Hcl b. pose proof (di_root V0 root d Hi) as Hroot.
  assert (Hvis : forall x, x ∈ d_visited d <-> x ∈ V0 \/ x ∈ d_post d).
  { intros x. rewrite (di_visited V0 root d Hi), Hs. set_solver. }
  split.
  - intros [?|Hb]%Hvis; [by left|right]. apply (di_fresh V0 root d Hi). auto.
  - intros [?|Hb]; [apply Hvis; auto|].
    clear Hs. revert Hb Hroot. generalize root at 1 2. intros a Hb. induction Hb as [x|x y z Hxy Hyz IH]; [done|].
    intros Hx. apply IH. apply Hvis in Hx as [Hx|Hx].
    + apply Hvis. left. apply (Hcl x); [done|by apply rtc_once].
    + by apply (di_closed V0 root d Hi x).
Qed.

Lemma component_post V0 root d b :
  dfs_inv V0 root d -> d_stack d = [] -> b ∈ d_post d <-> b ∈ d_visited d /\ b ∉ V0.
Proof.
  intros Hi Hs. rewrite (di_visited V0 root d Hi), Hs.
  pose proof (di_fresh V0 root d Hi b). rewrite Hs in *. set_solver.
Qed.

(** Appending what the component of [root] visited. *)
Lemma append_post_inv rs st root d :
  rpo_inv rs st -> (rs <> [] -> entry ∈ fst st) -> dfs_inv (fst st) root d -> d_stack d = [] ->
  rpo_inv (root :: rs) (d_visited d, snd st ++ filter (fun b => b <> entry) (reverse (d_post d))).
Proof.
  intros Hi Hent Hd Hs.
  pose proof (component_visited _ root d Hd Hs (fun u v => reach_closed rs st u v Hi)) as Hvis.
  pose proof (fun b => component_post _ root d b Hd Hs) as Hpost.
  pose proof (ri_visited rs st Hi) as Hrv. pose proof (ri_order rs st Hi) as Hro.
  split; simpl.
  - intros b. rewrite Hvis, Hrv. set_solver.
  - intros b. rewrite elem_of_app, list_elem_of_filter, elem_of_reverse, Hpost, Hro, Hvis.
    destruct (decide (b ∈ fst st)); tauto.
  - apply NoDup_app. split; [apply (ri_nodup rs st Hi)|]. split.
    + intros b Hb Hb'. apply list_elem_of_filter in Hb' as [_ Hb'].
      rewrite elem_of_reverse, Hpost in Hb'. apply Hro in Hb. tauto.
    + apply NoDup_filter. rewrite reverse_Permutation. pose proof (di_nodup _ root d Hd) as Hnd. by rewrite Hs in Hnd.
  - intros u v Hu Huv Hue Hve Huvis. destruct (decide (u ∈ fst st)) as [Hin|Hin].
    + destruct (ri_edges rs st Hi u v) as [?|?]; auto using precedes_app_r.
    + assert (Hnil : rs = []).
      { destruct rs as [|r rs]; [done|]. exfalso. apply Hin.
        apply (reach_closed (r :: rs) st entry); auto. }
      subst rs. assert (Hem : forall b, b ∉ fst st) by (intros b (r & ?%elem_of_nil & _)%Hrv; done).
      assert (Hup : u ∈ d_post d) by (by apply Hpost).
      apply list_elem_of_split in Hup as (l1 & l2 & Hl).
      destruct (di_post _ root d Hd l1 u l2 v Hl Huv) as [?|[?|?]]; [by edestruct Hem| |by right].
      left. apply precedes_app_l, precedes_filter; [done..|]. rewrite Hl. by apply precedes_reverse.
Qed.

Lemma append_component_inv rs st root :
  edges_in_range -> in_range root -> rpo_inv rs st -> (rs <> [] -> entry ∈ fst st) ->
  exists st', append_component f (rpo_fuel f) entry st root = Some st' /\ rpo_inv (root :: rs) st'.
Proof.
  intros Hr Hroot Hi Hent. unfold append_component. case_decide as Hv.
  - exists st. split; [done|]. split; [|apply Hi..].
    intros b. split; [rewrite (ri_visited rs st Hi); set_solver|].
    intros (r & [->|Hrs]%elem_of_cons & Hrb); [by eapply reach_closed|].
    apply (ri_visited rs st Hi). eauto.
  - destruct (dfs_component (fst st) root Hr Hroot Hv) as (d & -> & Hd & Hs). simpl.
    eexists. split; [done|]. by apply append_post_inv.
Qed.

Lemma append_components_inv roots rs st :
  edges_in_range -> Forall in_range roots -> rpo_inv rs st -> entry ∈ rs ->
  exists st', append_components f (rpo_fuel f) entry roots st = Some st' /\ rpo_inv (reverse roots ++ rs) st'.
Proof.
  intros Hr Hroots. revert rs st. induction Hroots as [|root roots Hroot Hroots IH]; intros rs st Hi Hent; [by exists st|].
  simpl. destruct (append_component_inv rs st root Hr Hroot Hi) as (st1 & -> & Hi1).
  { intros _. apply (ri_visited rs st Hi). exists entry. split; [done|apply rtc_refl]. }
  simpl. destruct (IH (root :: rs) st1 Hi1) as (st2 & -> & Hi2); [by right|].
  exists st2. by rewrite reverse_cons, <- app_assoc.
Qed.
End Rpo.

(** The invariant at the end of the last component. *)
Lemma rpo_returns (f : HIRFunction) (entry : nat)
  (Hentry : hf_entry f = Some entry)
  (Hroots : Forall (in_range f) (entry :: hf_external_roots f))
  (Hedges : edges_in_range f) :
  exists f', ComputeRPO f (rpo_fuel f) = Some f' /\
    f' = set_rpo (hf_rpo f') f /\
    NoDup (hf_rpo f') /\
    (forall b, b ∈ hf_rpo f' <-> b <> entry /\ exists r, r ∈ entry :: hf_external_roots f /\ reach f r b) /\
    (forall u v, reach f entry u -> edge f u v -> u <> entry -> v <> entry ->
       precedes (hf_rpo f') u v \/ reach f v u).
Proof.
  unfold ComputeRPO. rewrite Hentry. inversion Hroots as [|? ? He Hrs]; subst.
  assert (H0 : rpo_inv f entry [] (∅, [])).
  { split; simpl; [|set_solver|constructor|set_solver].
    intros b. split; [set_solver|]. by intros (r & ?%elem_of_nil & _). }
  destruct (append_component_inv f entry [] (∅, []) entry Hedges He H0) as (st1 & Hst1 & Hi1); [done|].
  destruct (append_components_inv f entry _ [entry] st1 Hedges Hrs Hi1) as (st2 & Hst2 & Hi2); [by left|].
  cbn [append_components]. rewrite Hst1. cbn [mbind option_bind]. rewrite Hst2. eexists. split; [done|]. simpl.
  pose proof (ri_visited f entry _ st2 Hi2) as Hvis.
  split; [done|]. split; [apply Hi2|]. split.
  - intros b. rewrite (ri_order f entry _ st2 Hi2), Hvis. set_solver.
  - intros u v Hu Huv Hue Hve. apply (ri_edges f entry _ st2 Hi2); [done..|].
    apply Hvis. exists entry. set_solver.
Qed.

(** (C30) [ComputeRPO] returns, and its order holds every block other than the entry
    that the entry block or an external root reaches, each once, and no
    other; a block the entry reaches comes before each of its successors unless
    the two are on a cycle. *)
Theorem ComputeRPO_spec (f : HIRFunction) (entry : nat)
  (Hentry : hf_entry f = Some entry)
  (Hroots : Forall (in_range f) (entry :: hf_external_roots f))
  (Hedges : edges_in_range f) :
  exists f', ComputeRPO f (rpo_fuel f) = Some f' /\
    f' = set_rpo (hf_rpo f') f /\
    NoDup (hf_rpo f') /\
    (forall b, b ∈ hf_rpo f' <-> b <> entry /\ exists r, r ∈ entry :: hf_external_roots f /\ reach f r b) /\
    (forall u v, reach f entry u -> edge f u v -> u <> entry -> v <> entry ->
       precedes (hf_rpo f') u v \/ reach f v u).
Proof. by apply rpo_returns. Qed.

(** A decidable form of [edges_in_range]. *)
Definition edges_check (f : HIRFunction) : bool :=
  let n := length (hf_blocks f) in
  forallb (fun b => forallb (fun v => Nat.ltb v n) (next_blocks f b)) (seq 0 n).

Lemma edges_check_sound f : edges_check f = true -> edges_in_range f.
Proof.
  unfold edges_check, edges_in_range, edge. rewrite forallb_forall. intros H u v Huv.
  destruct (decide (in_range f u)) as [Hu|Hu].
  - specialize (H u). rewrite forallb_forall in H. apply Nat.ltb_lt, H.
    + apply in_seq. unfold in_range in Hu. lia.
    + by apply list_elem_of_In.
  - unfold next_blocks in Huv. unfold in_range in Hu.
    rewrite lookup_ge_None_2 in Huv by lia. by apply elem_of_nil in Huv.
Qed.

(** The entry, a loop of two blocks with an exit, an unreachable block and a
    block that is only an external root. *)
Definition rpo_sample : HIRFunction :=
  let blk id := graph_block id id (mkBlock [] ReturnToHost) in
  graph_function [blk 0%Z [1%nat] None; blk 1%Z [3; 2]%nat None; blk 2%Z [1%nat] None; blk 3%Z [] None;
                  blk 4%Z [1%nat] None; blk 5%Z [3%nat] (Some 2%nat)] (Some 0%nat) [5%nat; 1%nat] [].

Example rpo_sample_runs :
  hf_rpo <$> ComputeRPO rpo_sample (rpo_fuel rpo_sample) = Some [1; 2; 3; 5]%nat.
Proof. reflexivity. Qed.

Lemma ComputeRPO_spec_witness :
  exists f', ComputeRPO rpo_sample (rpo_fuel rpo_sample) = Some f' /\ hf_rpo f' = [1; 2; 3; 5]%nat
    /\ precedes (hf_rpo f') 1%nat 3%nat.
Proof.
  destruct (ComputeRPO_spec rpo_sample 0) as (f' & Hf & _ & _ & _ & Hedges).
  - reflexivity.
  - repeat constructor.
  - apply edges_check_sound. reflexivity.
  - exists f'. split; [done|]. assert (Hl : hf_rpo f' = [1; 2; 3; 5]%nat) by (vm_compute in Hf; by simplify_eq).
    split; [done|]. destruct (Hedges 1%nat 3%nat) as [?|Hr]; [| | | |done|exfalso].
    + apply rtc_once. unfold edge. simpl. left.
    + unfold edge. simpl. left.
    + done.
    + done.
    + inversion Hr as [|? y ? Hy]; subst. by apply elem_of_nil in Hy.
Defined.
