(* ===== verification/HirFunction.v ===== *)
(** * Building and editing a function

    Model of the operations of [HIRFunction], [HIRBlock] and [Block]
    (runtime/ir/hir_builder.h, hir_builder.cpp, block.cpp) that change a function:
    appending blocks, edges and instructions, ending blocks, erasing
    instructions, resetting a decoded block, [EndFunction] and the renumbering
    [IdByRPO].  Instructions live in the heap of Instr.v; a new instruction is
    created at a pointer the caller supplies. *)

From Stdlib Require Import ZArith Lia.
From stdpp Require Import numbers base gmap list.
From S2P Require Import Prelude MachineInt IRTypes Instr InstrBuild Interp HirValues Cfg.

Local Open Scope Z_scope.
Local Open Scope svm_scope.

Record HState := mkHState { hs_heap : Heap; hs_fn : HIRFunction }.

Definition on_heap {A} (m : ST Heap A) : ST HState A := fun s =>
  r <-? m (hs_heap s); Ok (fst r, mkHState (snd r) (hs_fn s)).

Definition on_fn (g : HIRFunction -> HIRFunction) : ST HState unit := fun s =>
  Ok (tt, mkHState (hs_heap s) (g (hs_fn s))).

Definition get_fn : ST HState HIRFunction := gets hs_fn.

(** The value table, with the heap its functions read. *)
Definition on_table (m : Heap -> ValueTable -> Res ValueTable) : ST HState unit := fun s =>
  t <-? m (hs_heap s) (hf_values (hs_fn s)); Ok (tt, mkHState (hs_heap s) (set_values t (hs_fn s))).

(** Dereferencing a block; [Err] for a null pointer. *)
Definition get_block (b : nat) : ST HState HIRBlock := fun s =>
  match hf_blocks (hs_fn s) !! b with Some x => Ok (x, s) | None => Err EUndefined end.

Definition update_block (b : nat) (g : HIRBlock -> HIRBlock) : ST HState unit :=
  x <- get_block b;; on_fn (fun f => set_blocks (<[b := g x]> (hf_blocks f)) f).

Definition current_block : ST HState nat :=
  f <- get_fn;; match hf_current f with Some b => ret b | None => fail EPanic end.

(** ** [Block] *)

Definition set_insts (l : list Ptr) (b : Block) : Block := mkBlock l (b_terminal b).

(** [SetId(u16)]. *)
Definition SetId (p : Ptr) (id : Z) : ST Heap unit := heap_update p (set_id (wrap 16 id)).

(** The loop of [Block::ReIdInstr], with its [u16 index]; returns the index at
    its end. *)
Fixpoint ReIdInstr_from (index : Z) (insts : list Ptr) : ST Heap Z :=
  match insts with
  | [] => ret index
  | p :: insts' => SetId p index;;; ReIdInstr_from (wrap 16 (index + 1)) insts'
  end.

Definition ReIdInstr (b : nat) : ST HState unit :=
  x <- get_block b;;
  index <- on_heap (ReIdInstr_from 0 (b_insts (hb_block x)));;
  update_block b (with_max_instr_id index).

(** [Block::SetTerminal]: a block whose instructions have no ids yet is numbered. *)
Definition Block_SetTerminal (b : nat) (term : Terminal) : ST HState unit :=
  update_block b (fun x => with_block (mkBlock (b_insts (hb_block x)) term) x);;;
  x <- get_block b;;
  match b_insts (hb_block x) with
  | [] => ret tt
  | p :: _ =>
      i <- on_heap (heap_deref p);;
      if i_id i =? invalid_id then ReIdInstr b else ret tt
  end.

Definition Block_AppendInstUnchecked (b : nat) (p : Ptr) : ST HState unit :=
  update_block b (fun x => with_block (set_insts (b_insts (hb_block x) ++ [p]) (hb_block x)) x).

Definition Block_AppendInst (b : nat) (p : Ptr) : ST HState unit :=
  i <- on_heap (heap_deref p);;
  lift (Validate i);;;
  Block_AppendInstUnchecked b p.

(** [Block::DestroyInst]: unlink, then [~Inst]. *)
Definition Block_DestroyInst (b : nat) (p : Ptr) : ST HState unit :=
  update_block b (fun x => with_block (set_insts (filter (fun q => q <> p) (b_insts (hb_block x))) (hb_block x)) x);;;
  on_heap (Inst_delete p).

(** ** Blocks and edges *)

Definition invalid_location : Z := wrap 64 (-1).

(** [std::find_if] over [block_list]. *)
Fixpoint find_location (f : HIRFunction) (l : list nat) (location : Z) : option nat :=
  match l with
  | [] => None
  | b :: l' =>
      match hf_blocks f !! b with
      | Some x => if hb_location x =? location then Some b else find_location f l' location
      | None => find_location f l' location
      end
  end.

(** [new Block(location)] wrapped by [pools.blocks.Create]. *)
Definition new_block (order_id location : Z) : HIRBlock :=
  mkHIRBlock order_id location 0 (mkBlock [] Invalid) 0 [] [] [] [] [] None false.

Definition CreateOrGetBlock (location : Z) : ST HState nat :=
  f <- get_fn;;
  match find_location f (hf_block_list f) location with
  | Some b => ret b
  | None =>
      let b := length (hf_blocks f) in
      on_fn (fun f => set_block_list (hf_block_list f ++ [b])
               (set_block_order_id (wrap 16 (hf_block_order_id f + 1))
                 (set_blocks (hf_blocks f ++ [new_block (hf_block_order_id f) location]) f)));;;
      ret b
  end.

(** [AppendBlock(start, end_)]; [SetEndLocation] stores a u32 size. *)
Definition AppendBlock (start end_ : Z) : ST HState nat :=
  b <- CreateOrGetBlock start;;
  (if start <? end_
   then update_block b (fun x => with_node_size (wrap 32 (end_ - hb_location x)) x)
   else ret tt);;;
  ret b.

Definition CONDITIONAL : Z := 1.
Definition DOMINATES : Z := 2.

(** [incoming.flags &= ~Edge::DOMINATES] for every edge of [l]. *)
Definition clear_dominates (l : list nat) (es : list Edge) : list Edge :=
  foldl (fun es e => alter (fun x => mkEdge (e_src x) (e_dest x) (Z.ldiff (e_flags x) DOMINATES)) e es) es l.

Definition AddEdge (src dest : nat) (conditional : bool) : ST HState unit :=
  d <- get_block dest;;
  let dest_was_dominated := negb (bool_decide (hb_incoming d = [])) in
  f <- get_fn;;
  let e := length (hf_edges f) in
  on_fn (set_edges (hf_edges f ++ [mkEdge src dest (if conditional then CONDITIONAL else 0)]));;;
  update_block src (fun x => with_outgoing (hb_outgoing x ++ [e]) x);;;
  update_block dest (fun x => with_incoming (hb_incoming x ++ [e]) x);;;
  if dest_was_dominated then
    d <- get_block dest;;
    on_fn (fun f => set_edges (clear_dominates (hb_incoming d) (hf_edges f)) f)
  else ret tt.

(** Unlinks the edge from both its lists. *)
Definition RemoveEdge (e : nat) : ST HState unit :=
  f <- get_fn;;
  match hf_edges f !! e with
  | None => fail EUndefined
  | Some x =>
      update_block (e_src x) (fun b => with_outgoing (filter (fun e' => e' <> e) (hb_outgoing b)) b);;;
      update_block (e_dest x) (fun b => with_incoming (filter (fun e' => e' <> e) (hb_incoming b)) b)
  end.

Definition RegisterCallReturn (location : Z) : ST HState unit :=
  cur <- current_block;;
  target <- AppendBlock location 0;;
  c <- get_block cur;;
  guard (bool_decide (hb_call_return c = None)) EPanic;;;
  update_block cur (with_call_return (Some target));;;
  update_block target (with_call_return_target true).

Definition RegisterExternalDirectLink (target : Z) : ST HState unit :=
  cur <- current_block;;
  on_fn (fun f => set_external_links (hf_external_links f ++ [(cur, target)]) f).

Definition RegisterExternalEntryRoot (b : nat) : ST HState unit :=
  on_fn (fun f => if decide (b ∈ hf_external_roots f) then f
                  else set_external_roots (hf_external_roots f ++ [b]) f).

Definition SetCurBlock (b : nat) : ST HState unit := on_fn (set_current (Some b)).

(** [AddGuestCodeDependency]: no empty range and no duplicate. *)
Definition AddGuestCodeDependency (b : nat) (start end_ : Z) : ST HState unit :=
  if end_ <=? start then ret tt
  else update_block b (fun x =>
         if decide ((start, end_) ∈ hb_dependencies x) then x
         else with_dependencies (hb_dependencies x ++ [(start, end_)]) x).

Definition EndBlock (term : Terminal) : ST HState unit :=
  cur <- current_block;;
  Block_SetTerminal cur term;;;
  on_fn (set_current None).

(** [HIRFunction(function, begin, end, pools, ir_fast)]. *)
Definition empty_function (ir_fast : bool) : HIRFunction :=
  mkHIRFunction 0 0 0 ir_fast [] [] [] [] [] [] [] (mkValueTable [] ∅ 0) None None [].

Definition HIRFunction_new (begin : Z) : ST HState unit :=
  entry <- AppendBlock invalid_location 0;;
  on_fn (set_entry (Some entry));;;
  first_ <- AppendBlock begin 0;;
  AddEdge entry first_ false;;;
  Block_SetTerminal entry (LinkBlock begin);;;
  on_fn (set_current (Some first_)).

(** ** Instructions *)

Definition next_inst_id : ST HState Z :=
  f <- get_fn;;
  on_fn (set_inst_order_id (wrap 16 (hf_inst_order_id f + 1)));;;
  ret (hf_inst_order_id f).

Definition track_local (p : Ptr) : ST HState unit :=
  i <- on_heap (heap_deref p);;
  f <- get_fn;;
  m <- lift (TrackLocal i (hf_max_local_id f));;
  on_fn (set_max_local_id m).

(** [HIRFunction::AppendInst<RetType>] on the route [ir_fast] selects; [ret_type]
    is [None] for [VOID]. *)
Definition append_route (ir_fast : bool) (p : Ptr) (op : OpCode) (ret_type : option ValueType)
    (args : list BuildArg) : ST HState unit :=
  on_heap (modify (insert p (Inst_new op));;; (if ir_fast then SetArgsFresh p args else SetArgs p args));;;
  id <- next_inst_id;;
  on_heap (SetId p id);;;
  on_heap (match ret_type with Some t => heap_update p (set_ret t) | None => ret tt end);;;
  cur <- current_block;;
  (if ir_fast then
     Block_AppendInstUnchecked cur p;;;
     on_table (fun h t => AppendValueFast h p cur args t)
   else
     Block_AppendInst cur p;;;
     on_table (fun h t => AppendValue h p cur t));;;
  track_local p.

Definition AppendInst (p : Ptr) (op : OpCode) (ret_type : option ValueType) (args : list BuildArg)
  : ST HState unit :=
  f <- get_fn;; append_route (hf_ir_fast f) p op ret_type args.

(** [HIRBlock::AppendInst] of an instruction that exists already. *)
Definition HIRBlock_AppendInst (b : nat) (p : Ptr) : ST HState unit :=
  Block_AppendInst b p;;;
  id <- next_inst_id;;
  on_heap (SetId p id);;;
  on_table (fun h t => AppendValue h p b t);;;
  track_local p.

(** [HIRBlock::InsertFront]. *)
Definition InsertFront (b : nat) (p : Ptr) : ST HState unit :=
  update_block b (fun x => with_block (set_insts (p :: b_insts (hb_block x)) (hb_block x)) x);;;
  id <- next_inst_id;;
  on_heap (SetId p id);;;
  on_table (fun h t => AppendValue h p b t);;;
  track_local p.

(** [HIRFunction::DestroyHIRValue]: the block is the one the value was created in. *)
Definition DestroyHIRValue (d : Ptr) : ST HState unit :=
  f <- get_fn;;
  match vt_pool (hf_values f) !! d with
  | None => fail EUndefined
  | Some v =>
      on_table (fun h t => forget_value h (hv_def v) t);;;
      Block_DestroyInst (hv_block v) (hv_def v)
  end.

(** [HIRFunction::EraseInst]. *)
Definition EraseInst (b : nat) (p : Ptr) : ST HState unit :=
  on_table (fun h t => UnUseInst h p t);;;
  f <- get_fn;;
  s <- get;;
  d <- lift (GetHIRValue (hs_heap s) (hf_values f) (mkValue (Some p) ValueType_VOID));;
  match d with
  | Some d => DestroyHIRValue d
  | None => Block_DestroyInst b p
  end.

(** ** Resetting a decoded block *)

(** [Value::UnUse]. *)
Definition Value_UnUse (v : Value) : ST Heap unit :=
  d <- lift (Value_def v);; heap_update d (fun i => set_num_use (wrap 8 (i_num_use i - 1)) i).

(** [Value::Use] and the constructors of [terminal::If] and [terminal::Switch],
    which count the value they read. *)
Definition Value_Use (v : Value) : ST Heap unit :=
  d <- lift (Value_def v);; heap_update d (fun i => set_num_use (wrap 8 (i_num_use i + 1)) i).

Definition If_new (cond : Value) (then_ else_ : Terminal) : ST Heap Terminal :=
  Value_Use cond;;; ret (If cond then_ else_).

Definition Switch_new (value : Value) (cases : list (Imm * Terminal)) : ST Heap Terminal :=
  Value_Use value;;; ret (Switch value cases).

(** [ReleaseTerminalUses]. *)
Fixpoint ReleaseTerminalUses (term : Terminal) : ST Heap unit :=
  match term with
  | If cond then_ else_ => Value_UnUse cond;;; ReleaseTerminalUses then_;;; ReleaseTerminalUses else_
  | Switch value cases =>
      Value_UnUse value;;;
      (fix go (l : list (Imm * Terminal)) : ST Heap unit :=
         match l with
         | [] => ret tt
         | (_, then_) :: l' => ReleaseTerminalUses then_;;; go l'
         end) cases
  | CheckHalt else_ => ReleaseTerminalUses else_
  | _ => ret tt
  end.

(** Another block of [block_list] returns to the same block. *)
Definition shares_call_return (f : HIRFunction) (b r : nat) : bool :=
  existsb (fun c => negb (bool_decide (c = b)) &&
                    match hf_blocks f !! c with
                    | Some x => bool_decide (hb_call_return x = Some r)
                    | None => false
                    end) (hf_block_list f).

(** [while (!outgoing_edges.empty()) RemoveEdge(front)]: one round per edge. *)
Fixpoint remove_outgoing (fuel : nat) (b : nat) : ST HState unit :=
  x <- get_block b;;
  match hb_outgoing x with
  | [] => ret tt
  | e :: _ => match fuel with O => fail EFuel | S n => RemoveEdge e;;; remove_outgoing n b end
  end.

Definition reset_block (b : nat) (x : HIRBlock) : ST HState unit :=
  on_fn (fun f => set_external_links (filter (fun l => fst l <> b) (hf_external_links f)) f);;;
  on_heap (ReleaseTerminalUses (b_terminal (hb_block x)));;;
  Block_SetTerminal b Invalid;;;
  remove_outgoing (length (hb_outgoing x)) b;;;
  for_each (EraseInst b) (reverse (b_insts (hb_block x)));;;
  update_block b (with_dependencies []);;;
  on_fn (set_current (Some b)).

(** [HIRFunction::ResetDecodedBlock]. *)
Definition ResetDecodedBlock (b : nat) : ST HState bool :=
  x <- get_block b;;
  f <- get_fn;;
  match hb_call_return x with
  | Some r =>
      if shares_call_return f b r then ret false
      else
        update_block r (with_call_return_target false);;;
        update_block b (with_call_return None);;;
        reset_block b x;;; ret true
  | None => reset_block b x;;; ret true
  end.

(** ** The end of a function *)

(** The vectors of one block. *)
Definition finish_block (es : list Edge) (x : HIRBlock) : HIRBlock :=
  mkHIRBlock (hb_order_id x) (hb_location x) (hb_node_size x) (hb_block x)
    (hb_max_instr_id x) (hb_dependencies x) (hb_outgoing x) (hb_incoming x)
    (omap (fun e => e_src <$> es !! e) (hb_incoming x))
    (omap (fun e => e_dest <$> es !! e) (hb_outgoing x))
    (hb_call_return x) (hb_call_return_target x).

Fixpoint finish_blocks (l : list nat) : ST HState unit :=
  match l with
  | [] => ret tt
  | b :: l' =>
      x <- get_block b;;
      f <- get_fn;;
      guard (bool_decide (Z.to_nat (hb_order_id x) < length (hf_vector f))%nat) EUndefined;;;
      on_fn (fun f => set_vector (<[Z.to_nat (hb_order_id x) := Some b]> (hf_vector f)) f);;;
      update_block b (finish_block (hf_edges f));;;
      (if decide (hf_entry f = Some b) then ret tt
       else on_fn (fun f => set_added (hf_added f ++ [b]) f));;;
      finish_blocks l'
  end.

(** [HIRFunction::EndFunction]. *)
Definition EndFunction : ST HState unit :=
  f <- get_fn;;
  on_fn (set_vector (replicate (Z.to_nat (hf_block_order_id f)) None));;;
  finish_blocks (hf_block_list f);;;
  on_fn (set_block_list []).

(** ** Renumbering *)

(** The loop of [HIRFunction::IdByRPO] over the instructions in order: the new
    value table and the number of instructions. *)
Fixpoint id_loop (t : ValueTable) (insts : list Ptr) (cur : Z) (scratch : list (option Ptr))
  : ST Heap (list (option Ptr) * Z) :=
  match insts with
  | [] => ret (scratch, cur)
  | p :: insts' =>
      h <- get;;
      v <- lift (GetHIRValue h t (mkValue (Some p) ValueType_VOID));;
      SetId p cur;;;
      id_loop t insts' (wrap 32 (cur + 1)) (scratch ++ [v])
  end.

Definition rpo_insts (f : HIRFunction) : list Ptr :=
  mjoin ((fun c => match hf_blocks f !! c with Some b => b_insts (hb_block b) | None => [] end)
           <$> hf_rpo f).

(** [HIRFunction::IdByRPO]. *)
Definition IdByRPO : ST HState unit :=
  f <- get_fn;;
  r <- on_heap (id_loop (hf_values f) (rpo_insts f) 0 []);;
  on_fn (set_inst_order_id (wrap 16 (snd r)));;;
  on_fn (fun f => set_values (mkValueTable (fst r) (vt_pool (hf_values f)) (vt_count (hf_values f))) f).
