(* ===== verification/HirAppend.v ===== *)
(** * Appending an instruction

    The arguments of a new instruction are laid out in its slots in the order
    they are given, an operand in three of them.  Hence the construction-time
    registration of uses by the static types of the arguments
    ([AppendValueFast]) is the registration from the declared signature
    ([AppendValue]), and the two routes of [HIRFunction::AppendInst]
    ([SVM_IR_FAST]) build the same function. *)

From Stdlib Require Import ZArith Lia.
From stdpp Require Import numbers base gmap list.
From S2P Require Import Prelude MachineInt IRTypes Instr InstrBuild UseCount DeadCode.
From S2P Require Import Interp HirValues HirValuesProps Cfg HirFunction.

Local Open Scope Z_scope.
Local Open Scope svm_scope.

(** The slots an argument fills. *)
Definition build_slots (b : BuildArg) : list Arg :=
  match b with
  | BVoid => [AVoid]
  | BValue v => [AValue v]
  | BImm m => [AImm m]
  | BCond c => [ACond c]
  | BFlags f => [AFlags f]
  | BOperandOp o => [AOperand o; AVoid; AVoid]
  | BLocal l => [ALocal l]
  | BUniform u => [AUniform u]
  | BLambda l => [ALambda l]
  | BOperand o => [AOperand (o_op o); ToArgClass (o_left o); ToArgClass (o_right o)]
  | BParams ps => [AParams ps]
  end.

Definition layout (bs : list BuildArg) : list Arg := mjoin (build_slots <$> bs).

Section Layout.
Context (p : Ptr) (op : OpCode) (h0 : Heap).

Lemma hoare_pull_r {A} (X : Prop) (P : Heap -> Prop) (m : ST Heap A) Q :
  (X -> hoare P m Q) -> hoare (fun h => P h /\ X) m Q.
Proof. intros H h a h' [HP HX]. by apply H. Qed.

(** [p] has the arguments [l], the others are as in [h0] but for bookkeeping. *)
Definition shaped (l : list Arg) (h : Heap) : Prop :=
  (exists i, h !! p = Some i /\ i_op i = op /\ i_args i = l /\ i_id i = invalid_id) /\ same_code p h0 h.

Abbreviation keeps_shape m := (forall l, hoare (shaped l) m (fun _ => shaped l)).

Lemma shape_update q f :
  (forall i, i_op (f i) = i_op i /\ i_args (f i) = i_args i /\ i_id (f i) = i_id i) ->
  (forall i, code (f i) = code i) \/ q = p -> keeps_shape (heap_update q f).
Proof.
  intros Hf Hc l h u h' [(i & Hi & Ho & Ha & Hid) Hs] H. split; [|by eapply frames_update].
  apply heap_update_inv in H as (j & Hj & ->). destruct (decide (q = p)) as [->|Hne].
  - rewrite Hi in Hj. injection Hj as <-. exists (f i). rewrite lookup_insert_eq.
    destruct (Hf i) as (-> & -> & ->). done.
  - exists i. by rewrite lookup_insert_ne.
Qed.

Lemma shape_bind {A B} (m : ST Heap A) (f : A -> ST Heap B) :
  keeps_shape m -> (forall a, keeps_shape (f a)) -> keeps_shape (bind m f).
Proof. intros Hm Hf l. eapply hoare_bind; [apply Hm|intros a; apply Hf]. Qed.

Lemma shape_lift {A} (r : Res A) : keeps_shape (lift r).
Proof. intros l h a h' H E. by apply lift_ok in E as [_ ->]. Qed.

Lemma shape_for_each {A} (f : A -> ST Heap unit) l :
  (forall x, keeps_shape (f x)) -> keeps_shape (for_each f l).
Proof. intros Hf. induction l; simpl; [intros ?; apply hoare_ret'|by apply shape_bind]. Qed.

Lemma shape_Use v : keeps_shape (Inst_Use p v).
Proof.
  unfold Inst_Use. apply shape_bind; [apply shape_lift|]. intros def.
  apply shape_bind; [apply shape_update; auto|]. intros _.
  apply shape_bind; [intros l; apply hoare_deref'|]. intros i.
  intros l. apply hoare_if; [|apply hoare_ret'].
  eapply hoare_bind; [apply hoare_get'|]. intros h.
  eapply hoare_bind; [apply shape_lift|]. intros tail. apply shape_update; auto.
Qed.

Lemma shape_set_ret t : keeps_shape (heap_update p (set_ret t)).
Proof. apply shape_update; auto. Qed.

Lemma shape_put_arg idx a l :
  hoare (shaped l) (put_arg p idx a) (fun _ h => shaped (<[idx := a]> l) h /\ (idx < length l)%nat).
Proof.
  intros h u h' [(i & Hi & Ho & Ha & Hid) Hs] H. unfold put_arg in H.
  apply bind_ok in H as (i' & s & Hd & H). apply heap_deref_inv in Hd as [-> Hi']. rewrite Hi in Hi'. injection Hi' as <-.
  apply bind_ok in H as ([] & s & Hg & H). unfold guard in Hg.
  destruct (bool_decide (idx < length (i_args i))%nat) eqn:E; [|done]. unfold ret in Hg. injection Hg as <-.
  apply bool_decide_eq_true in E. rewrite Ha in E. split; [|done].
  split; [|eapply frames_update; [by right|exact Hs|exact H]].
  apply heap_update_inv in H as (j & Hj & ->). rewrite Hi in Hj. injection Hj as <-.
  eexists. rewrite lookup_insert_eq. split; [done|]. simpl. by rewrite Ha.
Qed.

Lemma shape_default_ret t : keeps_shape (default_ret p t).
Proof.
  unfold default_ret. apply shape_bind; [intros l; apply hoare_deref'|]. intros i l.
  apply hoare_if; [apply shape_set_ret|apply hoare_ret'].
Qed.

(** The rest of a case of [SetArgFresh], after its arguments are stored. *)
Lemma shape_tail {A} l (X : Prop) (m : ST Heap A) :
  keeps_shape m -> hoare (fun h => shaped l h /\ X) m (fun _ h => shaped l h /\ X).
Proof. intros Hm h a h' [Hs HX] H. split; [by eapply Hm|done]. Qed.

Lemma shape_store idx a pre n :
  length pre = idx ->
  hoare (shaped (pre ++ replicate n AVoid)) (put_arg p idx a)
    (fun _ h => shaped (pre ++ a :: replicate (n - 1) AVoid) h /\ (1 <= n)%nat).
Proof.
  intros Hpre. eapply hoare_weaken; [apply shape_put_arg|done|]. intros _ h [Hs Hl].
  rewrite length_app, length_replicate in Hl. split; [|lia].
  rewrite insert_app_r_alt, Hpre, Nat.sub_diag in Hs by lia. destruct n; [lia|]. simpl in Hs.
  simpl. by rewrite Nat.sub_0_r.
Qed.

Lemma shape_operand idx o pre n :
  length pre = idx ->
  hoare (shaped (pre ++ replicate n AVoid)) (SetArgFresh p idx (BOperand o))
    (fun _ h => shaped (pre ++ build_slots (BOperand o) ++ replicate (n - 3) AVoid) h /\ (3 <= n)%nat).
Proof.
  intros Hpre h u h' Hs H. simpl in H. apply bind_ok in H as ([] & h1 & H1 & H).
  assert (h1 = h) as -> by (unfold guard in H1; destruct (bool_decide _); [by injection H1|done]).
  apply bind_ok in H as ([] & h2 & H2 & H). destruct (shape_store _ _ pre n Hpre _ _ _ Hs H2) as [Hs2 Hn].
  apply bind_ok in H as ([] & h3 & H3 & H). rewrite cons_middle, app_assoc in Hs2.
  destruct
    (shape_store (idx + 1) _ (pre ++ [AOperand (o_op o)]) (n - 1) ltac:(rewrite length_app; simpl; lia) _ _ _ Hs2 H3) as [Hs3 Hn3].
  apply bind_ok in H as ([] & h4 & H4 & H). rewrite cons_middle, app_assoc in Hs3.
  destruct
    (shape_store (idx + 2) _ ((pre ++ [AOperand (o_op o)]) ++ [ToArgClass (o_left o)]) (n - 1 - 1) ltac:(rewrite !length_app; simpl; lia) _ _ _ Hs3 H4) as [Hs4 Hn4].
  split; [|lia]. apply bind_ok in H as ([] & h5 & H5 & H).
  apply (shape_for_each (Inst_Use p) _ shape_Use _ _ _ _ Hs4) in H5.
  apply (shape_for_each (Inst_Use p) _ shape_Use _ _ _ _ H5) in H.
  rewrite <- !app_assoc in H. simpl in H. simpl.
  by replace (n - 3)%nat with (n - 1 - 1 - 1)%nat by lia.
Qed.

(** An argument fills its slots, the first of which is [idx]. *)
Lemma shape_fresh idx b pre n :
  length pre = idx -> (forall o, b <> BOperandOp o) ->
  hoare (shaped (pre ++ replicate n AVoid)) (SetArgFresh p idx b)
    (fun _ h => shaped (pre ++ build_slots b ++ replicate (n - length (build_slots b)) AVoid) h
                /\ (length (build_slots b) <= n)%nat).
Proof.
  intros Hpre Hop.
  destruct b; [| | | | |by destruct (Hop o)| | | |by apply shape_operand|]; simpl;
    try (apply shape_store; done);
    (eapply hoare_bind; [by apply shape_store|]; intros []; apply shape_tail).
  - apply shape_bind; [apply shape_Use|]. intros _. apply shape_bind; [intros l'; apply hoare_deref'|].
    intros i ?. apply hoare_if; [|apply hoare_ret']. eapply hoare_bind; [apply hoare_get'|]. intros h.
    eapply hoare_bind; [apply shape_lift|]. intros t. apply shape_set_ret.
  - apply shape_default_ret.
  - apply shape_bind; [intros l'; apply hoare_deref'|]. intros i l'.
    apply hoare_if; [apply shape_set_ret|apply hoare_ret'].
  - apply shape_default_ret.
  - intros l'. apply hoare_if; [|apply hoare_ret']. eapply hoare_bind; [apply shape_lift|]. intros v.
    apply shape_Use.
  - apply shape_for_each, shape_Use.
Qed.

Lemma build_width_slots b : (forall o, b <> BOperandOp o) -> build_width b = length (build_slots b).
Proof. intros Hop. destruct b; try done; by destruct (Hop o). Qed.

Lemma shape_args bs : forall idx pre n,
  length pre = idx -> Forall (fun b => forall o, b <> BOperandOp o) bs ->
  hoare (shaped (pre ++ replicate n AVoid)) (set_args_from SetArgFresh p idx bs)
    (fun _ h => shaped (pre ++ layout bs ++ replicate (n - length (layout bs)) AVoid) h).
Proof.
  induction bs as [|b bs IH]; intros idx pre n Hpre Hop; simpl.
  - rewrite Nat.sub_0_r. apply hoare_ret'.
  - inversion Hop as [|? ? Hb Hbs]; subst. eapply hoare_bind; [by apply shape_fresh|]. intros [].
    apply hoare_pull_r. intros Hn.
    eapply hoare_weaken; [apply (IH _ (pre ++ build_slots b) (n - length (build_slots b))%nat)| |].
    + rewrite length_app, build_width_slots by done. done.
    + done.
    + intros h. by rewrite app_assoc.
    + intros [] h. unfold layout. rewrite fmap_cons. simpl. rewrite length_app, <- !app_assoc.
      by rewrite Nat.sub_add_distr.
Qed.

(** The instruction that [SetArgsFresh] builds. *)
Lemma fresh_shape bs h u h' :
  Forall (fun b => forall o, b <> BOperandOp o) bs ->
  SetArgsFresh p bs h = Ok (u, h') -> h !! p = Some (Inst_new op) -> same_code p h0 h ->
  shaped (layout bs ++ replicate (max_args - length (layout bs)) AVoid) h'.
Proof.
  intros Hop H Hp Hs. apply (shape_args bs 0 [] max_args eq_refl Hop h u h'); [|exact H].
  split; [|done]. by eexists.
Qed.
End Layout.

(** ** Registration by static types and by the signature *)

(** The declared type an argument is meant for; a bare [Operand::Op] has none. *)
Definition build_type (b : BuildArg) : option ArgType :=
  match b with
  | BVoid => Some ArgType_Void
  | BValue _ => Some ArgType_Value
  | BImm _ => Some ArgType_Imm
  | BCond _ => Some ArgType_Cond
  | BFlags _ => Some ArgType_Flags
  | BOperandOp _ => None
  | BLocal _ => Some ArgType_Local
  | BUniform _ => Some ArgType_Uniform
  | BLambda _ => Some ArgType_Lambda
  | BOperand _ => Some ArgType_Operand
  | BParams _ => Some ArgType_Params
  end.

(** The arguments fit the signature; only the host-call arguments of
    [CallLambda] may be left out. *)
Fixpoint typed_from (op : OpCode) (tys : list ArgType) (bs : list BuildArg) : bool :=
  match bs, tys with
  | [], [] => true
  | [], ty :: tys' => op_eqb op OpCode_CallLambda && bool_decide (ty = ArgType_Value) && typed_from op tys' []
  | b :: bs', ty :: tys' => bool_decide (build_type b = Some ty) && typed_from op tys' bs'
  | _ :: _, [] => false
  end.

Definition typed_args (op : OpCode) (bs : list BuildArg) : bool :=
  negb (op_eqb op OpCode_Void) && typed_from op (op_arg_types op) bs.

Section Typed.
Context (h : Heap) (this : Ptr).

(** The slots from [k] on hold [bs] and are blank after it. *)
Definition holds (i : Inst) (k : nat) (bs : list BuildArg) : Prop :=
  exists pre n, i_args i = pre ++ layout bs ++ replicate n AVoid /\ length pre = k.

Lemma layout_cons b bs : layout (b :: bs) = build_slots b ++ layout bs.
Proof. done. Qed.

Lemma holds_at i k b bs j a :
  holds i k (b :: bs) -> build_slots b !! j = Some a -> ArgAt i (k + j) = Ok a.
Proof.
  intros (pre & n & Ha & Hk) Hj. unfold ArgAt. rewrite Ha, lookup_app_r, Hk by lia.
  replace (k + j - k)%nat with j by lia. rewrite layout_cons, <- app_assoc, lookup_app_l; [by rewrite Hj|].
  by eapply lookup_lt_Some.
Qed.

Lemma holds_next i k b bs : holds i k (b :: bs) -> holds i (k + length (build_slots b)) bs.
Proof.
  intros (pre & n & Ha & Hk). exists (pre ++ build_slots b), n. rewrite length_app.
  split; [|lia]. by rewrite Ha, layout_cons, <- !app_assoc.
Qed.

Lemma visit_values_dc act k d t :
  visit_values h this act k (dc_values d) t =
    match ToArgClass d with AValue v => visit_value h this act k v t | _ => Ok t end.
Proof. destruct d; simpl; try done. by destruct visit_value. Qed.

Lemma use_fresh_arg i k b bs ty t :
  holds i k (b :: bs) -> build_type b = Some ty ->
  UseFreshArg h this b k t = use_arg h this i ty k t /\ fresh_width b = slots ty /\
  slots ty = length (build_slots b).
Proof.
  intros Hh Hty. pose proof (fun j a => holds_at i k b bs j a Hh) as Hat.
  destruct b; simpl in Hty; try discriminate Hty; injection Hty as <-; (split; [|done]); simpl; try done.
  - pose proof (Hat 0%nat _ eq_refl) as E. rewrite Nat.add_0_r in E. by rewrite E.
  - pose proof (Hat 0%nat _ eq_refl) as E. rewrite Nat.add_0_r in E. by rewrite E.
  - unfold visit_operand. rewrite (Hat 1%nat _ eq_refl), (Hat 2%nat _ eq_refl). simpl.
    rewrite visit_values_dc. destruct (match ToArgClass (o_left o) with AValue v => _ | _ => _ end); simpl; [|done].
    apply visit_values_dc.
  - pose proof (Hat 0%nat _ eq_refl) as E. rewrite Nat.add_0_r in E. by rewrite E.
Qed.

(** The slots that [CallLambda] leaves out are blank. *)
Lemma use_blank i : forall tys k t,
  holds i k [] -> (k + length tys <= length (i_args i))%nat -> typed_from (i_op i) tys [] = true ->
  UseInst_from h this i tys k t = Ok t.
Proof.
  induction tys as [|ty tys IH]; intros k t Hh Hk Hty; [done|]. simpl in Hty.
  apply andb_true_iff in Hty as [[Hop Hv%bool_decide_eq_true]%andb_true_iff Hty]. subst ty.
  destruct Hh as (pre & n & Ha & Hpre). simpl in Ha, Hk.
  assert (HA : ArgAt i k = Ok AVoid).
  { unfold ArgAt. rewrite Ha, lookup_app_r, Hpre, Nat.sub_diag by lia.
    rewrite Ha, length_app, length_replicate in Hk. destruct n; [lia|done]. }
  simpl. rewrite HA. simpl. rewrite Hop. simpl. change (slots ArgType_Value) with 1%nat.
  apply IH; [|lia|done]. rewrite Ha, length_app, length_replicate in Hk. destruct n as [|n]; [lia|].
  exists (pre ++ [AVoid]), n. rewrite Ha. simpl. rewrite <- app_assoc, length_app. simpl. split; [done|lia].
Qed.

Lemma use_fresh_eq i bs : forall tys k t,
  holds i k bs -> (k + slots_of tys <= length (i_args i))%nat -> typed_from (i_op i) tys bs = true ->
  UseFresh_from h this bs k t = UseInst_from h this i tys k t.
Proof.
  induction bs as [|b bs IH]; intros tys k t Hh Hk Hty.
  - symmetry. simpl. apply use_blank; [done| |by destruct tys].
    assert (length tys <= slots_of tys)%nat; [|lia]. clear. induction tys as [|ty tys IH]; simpl; [lia|].
    pose proof (PhysicalSlots_pos ty). lia.
  - destruct tys as [|ty tys]; [done|]. simpl in Hty.
    apply andb_true_iff in Hty as [Hb%bool_decide_eq_true Hty].
    destruct (use_fresh_arg i k b bs ty t Hh Hb) as (E & Hw & Hsl). simpl. rewrite E, Hw.
    destruct (use_arg h this i ty k t) as [t'|]; simpl; [|done].
    apply IH; [rewrite Hsl; by apply (holds_next i k b bs)|simpl in Hk; unfold slots; lia|done].
Qed.
End Typed.

(** ** The two routes *)

Lemma typed_validate_args i bs : forall tys k,
  holds i k bs -> typed_from (i_op i) tys bs = true -> op_eqb (i_op i) OpCode_CallLambda = false ->
  validate_args i k tys = Ok tt.
Proof.
  induction bs as [|b bs IH]; intros tys k Hh Hty Hop.
  - destruct tys; [done|]. simpl in Hty. by rewrite Hop in Hty.
  - destruct tys as [|ty tys]; [done|]. simpl in Hty.
    apply andb_true_iff in Hty as [Hb%bool_decide_eq_true Hty]. simpl. case_bool_decide; [|done].
    assert (Hat : exists a, ArgAt i k = Ok a /\ arg_type a = ty).
    { pose proof (fun j a => holds_at i k b bs j a Hh) as Hat.
      destruct b; simpl in Hb; try discriminate Hb; injection Hb as <-;
        (eexists; split; [rewrite <- (Nat.add_0_r k); by apply Hat|reflexivity]). }
    destruct Hat as (a & -> & Ha). simpl. rewrite decide_True by done.
    apply IH; [|done..]. destruct (use_fresh_arg ∅ 1%positive i k b bs ty (mkValueTable [] ∅ 0) Hh Hb) as (_ & _ & E).
    unfold slots in E. rewrite E. by apply (holds_next i k b bs).
Qed.

Lemma typed_validate i bs :
  holds i 0 bs -> typed_args (i_op i) bs = true -> Validate i = Ok tt.
Proof.
  intros Hh Hty. unfold typed_args in Hty. apply andb_true_iff in Hty as [Hv%negb_true_iff Hty].
  unfold Validate. destruct (is_call (i_op i)) eqn:Hc.
  - assert (Hlam : exists l bs', bs = BLambda l :: bs').
    { unfold is_call in Hc. destruct (i_op i); try discriminate Hc; destruct bs as [|[] bs']; try discriminate Hty; eauto. }
    destruct Hlam as (l & bs' & ->). pose proof (holds_at i 0 _ bs' 0%nat _ Hh eq_refl) as E. simpl in E.
    by rewrite E.
  - rewrite Hv. apply (typed_validate_args i bs); [done..|].
    unfold is_call in Hc. by destruct (op_eqb (i_op i) OpCode_CallLambda).
Qed.

Lemma typed_no_operand_op op tys bs :
  typed_from op tys bs = true -> Forall (fun b => forall o, b <> BOperandOp o) bs.
Proof.
  revert tys. induction bs as [|b bs IH]; intros tys H; [constructor|].
  destruct tys as [|ty tys]; [done|]. simpl in H. apply andb_true_iff in H as [Hb%bool_decide_eq_true H].
  constructor; [intros o ->; discriminate Hb|by eapply IH].
Qed.

(** The arguments of a typed instruction fill no more than its slots. *)
Lemma layout_fits op tys bs : typed_from op tys bs = true -> (length (layout bs) <= slots_of tys)%nat.
Proof.
  revert tys. induction bs as [|b bs IH]; intros tys H; [simpl; lia|].
  destruct tys as [|ty tys]; [done|]. simpl in H. apply andb_true_iff in H as [Hb%bool_decide_eq_true H].
  rewrite layout_cons, length_app. specialize (IH tys H). simpl.
  assert (length (build_slots b) = Z.to_nat (PhysicalSlots ty)); [|lia].
  destruct b; simpl in Hb; try discriminate Hb; by injection Hb as <-.
Qed.

(** The new instruction once its arguments are set. *)
Lemma args_holds p op bs h u h' :
  typed_args op bs = true ->
  (modify (insert p (Inst_new op));;; SetArgsFresh p bs) h = Ok (u, h') ->
  same_code p h h' /\
  exists i, h' !! p = Some i /\ i_op i = op /\ i_id i = invalid_id /\ holds i 0 bs /\ length (i_args i) = max_args.
Proof.
  intros Hty H. unfold typed_args in Hty. apply andb_true_iff in Hty as [_ Hty].
  apply bind_ok in H as ([] & h1 & H1 & H). unfold modify in H1. injection H1 as <-.
  assert (Hs : same_code p h (<[p := Inst_new op]> h)) by (intros q Hq; by rewrite lookup_insert_ne).
  destruct (fresh_shape p op h bs _ u h' (typed_no_operand_op _ _ _ Hty) H (lookup_insert_eq _ _ _) Hs)
    as [(i & Hi & Ho & Ha & Hid) Hs']. split; [done|]. exists i. split_and!; try done.
  - exists [], (max_args - length (layout bs))%nat. by rewrite Ha.
  - rewrite Ha, length_app, length_replicate.
    pose proof (layout_fits _ _ _ Hty). pose proof (signature_fits op). lia.
Qed.

(** [p] is an instruction of opcode [op] built from [args]. *)
Definition built (p : Ptr) (op : OpCode) (args : list BuildArg) (h : Heap) : Prop :=
  exists i, h !! p = Some i /\ i_op i = op /\ holds i 0 args /\ length (i_args i) = max_args.

Lemma built_update p op args f u h h' :
  (forall i, i_op (f i) = i_op i /\ i_args (f i) = i_args i) ->
  built p op args h -> heap_update p f h = Ok (u, h') -> built p op args h'.
Proof.
  intros Hf (i & Hi & Ho & Hh & Hl) H. apply heap_update_inv in H as (j & Hj & ->).
  rewrite Hi in Hj. injection Hj as <-. exists (f i). destruct (Hf i) as [Eo Ea].
  rewrite lookup_insert_eq, Eo, Ea. split_and!; try done.
  destruct Hh as (pre & n & Ha & Hk). exists pre, n. by rewrite Ea.
Qed.

Lemma link_routes_equal p op args cur s :
  typed_args op args = true -> built p op args (hs_heap s) ->
  (Block_AppendInstUnchecked cur p;;; on_table (fun h t => AppendValueFast h p cur args t)) s =
  (Block_AppendInst cur p;;; on_table (fun h t => AppendValue h p cur t)) s.
Proof.
  intros Hty (i & Hi & Ho & Hh & Hl).
  assert (E : Block_AppendInst cur p s = Block_AppendInstUnchecked cur p s).
  { unfold Block_AppendInst, on_heap, heap_deref, bind, get, lift, deref. rewrite Hi. simpl.
    rewrite (typed_validate i args) by (done || by rewrite Ho). by destruct s. }
  unfold bind. rewrite E. destruct (Block_AppendInstUnchecked cur p s) as [[[] s']|] eqn:Hs; [|done].
  assert (Hh' : hs_heap s' = hs_heap s).
  { unfold Block_AppendInstUnchecked, update_block, get_block in Hs.
    apply bind_ok in Hs as (x & s1 & H1 & Hs). destruct (hf_blocks (hs_fn s) !! cur); [|done].
    injection H1 as <- <-. unfold on_fn in Hs. by injection Hs as <-. }
  unfold on_table. rewrite Hh'. unfold AppendValueFast, AppendValue.
  destruct (AppendValueRecord (hs_heap s) p cur (hf_values (hs_fn s'))) as [t|]; [|done]. cbn [rbind].
  unfold UseInst, deref. rewrite Hi. cbn [rbind].
  rewrite (use_fresh_eq (hs_heap s) p i args (op_arg_types (i_op i)) 0 t); [done|done| |].
  - rewrite Hl. apply signature_fits.
  - rewrite Ho. by apply andb_true_iff in Hty as [_ ?].
Qed.

Lemma bind_ext {S A B} (m : ST S A) (f g : A -> ST S B) s :
  (forall a s', m s = Ok (a, s') -> f a s' = g a s') -> bind m f s = bind m g s.
Proof. unfold bind. destruct (m s) as [[a s']|]; auto. Qed.

Lemma next_inst_id_run s :
  next_inst_id s = Ok (hf_inst_order_id (hs_fn s),
    mkHState (hs_heap s) (set_inst_order_id (wrap 16 (hf_inst_order_id (hs_fn s) + 1)) (hs_fn s))).
Proof. done. Qed.

Lemma current_block_run s cur s' :
  current_block s = Ok (cur, s') -> s' = s /\ hf_current (hs_fn s) = Some cur.
Proof.
  unfold current_block, get_fn, gets, bind. destruct (hf_current (hs_fn s)) as [c|]; [|done].
  unfold ret. by intros [= <- <-].
Qed.

Lemma bind_same {S A B} (m m' : ST S A) (f : A -> ST S B) s : m s = m' s -> bind m f s = bind m' f s.
Proof. unfold bind. by intros ->. Qed.

(** The two routes of [AppendInst] agree: with arguments that fit the
    signature of the opcode, building with [SVM_IR_FAST] (no clearing of the slots,
    no [Validate], uses registered by the static types of the arguments) gives the
    same function, heap and value table, or the same error, as building
    without. *)
Theorem append_routes_equal (p : Ptr) (op : OpCode) (ret_type : option ValueType)
  (args : list BuildArg) (s : HState) :
  typed_args op args = true ->
  append_route true p op ret_type args s = append_route false p op ret_type args s.
Proof.
  intros Hty. unfold append_route.
  set (fast := on_heap (modify (insert p (Inst_new op));;; SetArgsFresh p args)).
  set (slow := on_heap (modify (insert p (Inst_new op));;; SetArgs p args)).
  assert (E : slow s = fast s).
  { unfold fast, slow, on_heap. rewrite (fresh_construction_equivalent p op args (hs_heap s)). done. }
  transitivity (bind fast (fun _ =>
    id <- next_inst_id;; on_heap (SetId p id);;;
    on_heap (match ret_type with Some t => heap_update p (set_ret t) | None => ret tt end);;;
    cur <- current_block;;
    (Block_AppendInst cur p;;; on_table (fun h t => AppendValue h p cur t));;;
    track_local p) s); [|by apply bind_same].
  apply bind_ext. intros [] s1 H1.
  assert (Hb : built p op args (hs_heap s1)).
  { unfold fast, on_heap in H1. apply rbind_ok in H1 as ([[] h1] & H1 & Hs1). injection Hs1 as <-.
    destruct (args_holds p op args _ _ _ Hty H1) as (_ & i & Hi & Ho & _ & Hh & Hl). by exists i. }
  apply bind_ext. intros id s2 H2.
  assert (E2 : hs_heap s2 = hs_heap s1) by (rewrite next_inst_id_run in H2; by injection H2 as <- <-).
  rewrite <- E2 in Hb. apply bind_ext. intros [] s3 H3. unfold on_heap in H3.
  apply rbind_ok in H3 as ([[] h3] & H3 & Hs3). injection Hs3 as <-.
  apply (built_update p op args) in H3; [|done|done].
  apply bind_ext. intros [] s4 H4. unfold on_heap in H4.
  apply rbind_ok in H4 as ([[] h4] & H4 & Hs4). injection Hs4 as <-. simpl in H4.
  assert (Hb4 : built p op args h4).
  { destruct ret_type; [by apply (built_update p op args) in H4|by injection H4 as <-]. }
  apply bind_ext. intros cur s5 H5.
  apply current_block_run in H5 as [-> _].
  apply bind_same. by apply (link_routes_equal p op args).
Qed.
