(* ===== verification/HirTable.v ===== *)
(** * The value table of a function under construction

    The invariant of the table (HirValuesProps.v) for the whole state of a
    function, and that [AppendInst], [EraseInst] and [IdByRPO] keep it: no use
    list ever names an instruction that is gone, as long as arguments are not
    rewritten behind the table. *)

From Stdlib Require Import ZArith Lia.
From stdpp Require Import numbers base gmap list.
From S2P Require Import Prelude MachineInt IRTypes Instr InstrBuild UseCount DeadCode.
From S2P Require Import Interp HirValues HirValuesProps Cfg HirFunction HirAppend.

Local Open Scope Z_scope.
Local Open Scope svm_scope.

Definition block_insts (x : HIRBlock) : list Ptr := b_insts (hb_block x).

(** The instructions of all blocks. *)
Definition live_insts (f : HIRFunction) : list Ptr := mjoin (block_insts <$> hf_blocks f).

Record hir_ok (s : HState) : Prop := {
  ho_table : table_ok (hs_heap s) (hf_values (hs_fn s)) (live_insts (hs_fn s));
  ho_args : forall p i, p ∈ live_insts (hs_fn s) -> hs_heap s !! p = Some i -> args_ok i = true;
  ho_home : forall b x p i v, hf_blocks (hs_fn s) !! b = Some x -> p ∈ block_insts x ->
              hs_heap s !! p = Some i -> Inst_HasValue i = true ->
              vt_pool (hf_values (hs_fn s)) !! p = Some v -> hv_block v = b;
  ho_next : hf_inst_order_id (hs_fn s) = Z.of_nat (length (vt_values (hf_values (hs_fn s))))
}.

Lemma live_split f b x :
  hf_blocks f !! b = Some x ->
  exists rest, live_insts f ≡ₚ block_insts x ++ rest /\
    forall x', mjoin (block_insts <$> <[b := x']> (hf_blocks f)) ≡ₚ block_insts x' ++ rest.
Proof.
  intros Hx. pose proof (list_elem_of_split_length _ _ _ Hx) as (l1 & l2 & Hl & Hb).
  exists (mjoin (block_insts <$> l1) ++ mjoin (block_insts <$> l2)). unfold live_insts. rewrite Hl. split.
  - rewrite fmap_app, fmap_cons, join_app. simpl. by rewrite Permutation_app_swap_app.
  - intros x'. rewrite insert_app_r_alt, Hb, Nat.sub_diag by lia. simpl.
    rewrite fmap_app, fmap_cons, join_app. simpl. by rewrite Permutation_app_swap_app.
Qed.

Lemma live_in_block f b x p : hf_blocks f !! b = Some x -> p ∈ block_insts x -> p ∈ live_insts f.
Proof. intros Hx Hp. destruct (live_split f b x Hx) as (rest & -> & _). apply elem_of_app. by left. Qed.

(** The uses an instruction registers are values of its arguments. *)
Lemma slot_uses_values i k x : x ∈ slot_uses i k -> fst x ∈ GetValues i.
Proof.
  unfold slot_uses. destruct (i_args i !! k) as [[]|] eqn:E; try by intros ?%elem_of_nil.
  intros ->%list_elem_of_singleton. unfold GetValues. apply list_elem_of_join. exists [v].
  split; [by left|]. apply list_elem_of_fmap. exists (AValue v). split; [done|by eapply list_elem_of_lookup_2].
Qed.

Lemma fmap_uses_values i k (a : Arg) (vs : list Value) n x :
  i_args i !! k = Some a -> arg_values a = vs -> x ∈ (fun v : Value => (v, n : nat)) <$> vs -> fst x ∈ GetValues i.
Proof.
  intros Ha <- (v & -> & Hv)%list_elem_of_fmap. unfold GetValues. apply list_elem_of_join.
  exists (arg_values a). split; [done|]. apply list_elem_of_fmap. exists a.
  split; [done|by eapply list_elem_of_lookup_2].
Qed.

Lemma arg_uses_values i ty k x : x ∈ arg_uses i ty k -> fst x ∈ GetValues i.
Proof.
  destruct ty; simpl; try by intros ?%elem_of_nil.
  - apply slot_uses_values.
  - intros [?|?]%elem_of_app; by eapply slot_uses_values.
  - destruct (i_args i !! k) as [[]|] eqn:E; try by intros ?%elem_of_nil.
    destruct (Lambda_IsValue l) eqn:El; [|by intros ?%elem_of_nil].
    eapply fmap_uses_values; [done|]. simpl. by rewrite El.
  - destruct (i_args i !! k) as [[]|] eqn:E; try by intros ?%elem_of_nil. by eapply fmap_uses_values.
Qed.

Lemma inst_uses_values i x : x ∈ inst_uses i -> fst x ∈ GetValues i.
Proof.
  unfold inst_uses. generalize (op_arg_types (i_op i)), 0%nat.
  induction l as [|ty l IH]; intros k; simpl; [by intros ?%elem_of_nil|].
  intros [?|?]%elem_of_app; [by eapply arg_uses_values|by eapply IH].
Qed.

(** The values among the arguments given to [AppendInst]. *)
Definition build_values (args : list BuildArg) : list Value := mjoin (arg_values <$> layout args).

Lemma holds_values i args :
  holds i 0 args -> GetValues i = build_values args.
Proof.
  intros (pre & n & Ha & Hk). apply nil_length_inv in Hk. subst pre. unfold GetValues, build_values.
  rewrite Ha. simpl. rewrite fmap_app, join_app.
  assert (E : mjoin (arg_values <$> replicate n AVoid) = []); [|by rewrite E, app_nil_r].
  clear. induction n as [|n IH]; [done|]. simpl. apply IH.
Qed.

(** A [Lambda] tagged as a value holds one. *)
Definition lambdas_ok (args : list BuildArg) : bool :=
  forallb (fun b => match b with BLambda l => lambda_ok l | _ => true end) args.

Lemma holds_args_ok i args tys k :
  holds i k args -> (k + slots_of tys <= length (i_args i))%nat -> lambdas_ok args = true ->
  typed_from (i_op i) tys args = true -> args_ok_from i tys k = true.
Proof.
  revert tys k. induction args as [|b args IH]; intros tys k Hh Hk Hl Hty.
  - assert (Hty' : typed_from (i_op i) tys [] = true) by (by destruct tys). clear Hty.
    revert k Hh Hk. induction tys as [|ty tys IH]; intros k Hh Hk; [done|]. simpl in Hty', Hk.
    apply andb_true_iff in Hty' as [[Hop Hv%bool_decide_eq_true]%andb_true_iff Hty]. subst ty.
    destruct Hh as (pre & n & Ha & Hpre). simpl in Ha.
    assert (Hn : exists m, n = S m).
    { rewrite Ha, length_app, length_replicate in Hk. change (PhysicalSlots ArgType_Value) with 1 in Hk.
      destruct n; [lia|by eexists]. }
    destruct Hn as (m & ->). simpl. rewrite Ha, lookup_app_r, Hpre, Nat.sub_diag by lia. simpl. rewrite Hop. simpl.
    change (slots ArgType_Value) with 1%nat. change (PhysicalSlots ArgType_Value) with 1 in Hk.
    apply IH; [done| |lia]. exists (pre ++ [AVoid]), m. rewrite Ha, <- app_assoc, length_app. simpl. split; [done|lia].
  - destruct tys as [|ty tys]; [done|]. simpl in Hty, Hl.
    apply andb_true_iff in Hty as [Hb%bool_decide_eq_true Hty]. apply andb_true_iff in Hl as [Hlb Hl].
    pose proof (fun j a => holds_at i k b args j a Hh) as Hat. unfold ArgAt in Hat.
    destruct (use_fresh_arg ∅ 1%positive i k b args ty (mkValueTable [] ∅ 0) Hh Hb) as (_ & _ & Hsl).
    pose proof (holds_next i k b args Hh) as Hn. rewrite <- Hsl in Hn. simpl in Hk.
    simpl. rewrite (IH tys (k + slots ty)%nat Hn) by (done || unfold slots; lia). rewrite andb_true_r.
    destruct b; simpl in Hb; try discriminate Hb; injection Hb as <-; simpl; try done;
      try (specialize (Hat 0%nat _ eq_refl); rewrite Nat.add_0_r in Hat;
           destruct (i_args i !! k); [injection Hat as ->|]; done).
    apply bool_decide_eq_true. change (PhysicalSlots ArgType_Operand) with 3 in Hk. lia.
Qed.

(** ** Appending *)

Lemma update_block_run b g s x :
  hf_blocks (hs_fn s) !! b = Some x ->
  update_block b g s = Ok (tt, mkHState (hs_heap s) (set_blocks (<[b := g x]> (hf_blocks (hs_fn s))) (hs_fn s))).
Proof. intros Hx. unfold update_block, bind, get_block. rewrite Hx. done. Qed.

Lemma update_block_inv b g s u s' :
  update_block b g s = Ok (u, s') ->
  exists x, hf_blocks (hs_fn s) !! b = Some x /\
    s' = mkHState (hs_heap s) (set_blocks (<[b := g x]> (hf_blocks (hs_fn s))) (hs_fn s)).
Proof.
  intros H. destruct (hf_blocks (hs_fn s) !! b) as [x|] eqn:Hx.
  - rewrite (update_block_run b g s x Hx) in H. injection H as <- <-. by exists x.
  - unfold update_block, bind, get_block in H. by rewrite Hx in H.
Qed.

Lemma on_heap_inv {A} (m : ST Heap A) s a s' :
  on_heap m s = Ok (a, s') -> exists h, m (hs_heap s) = Ok (a, h) /\ s' = mkHState h (hs_fn s).
Proof. intros H. apply rbind_ok in H as ([a' h] & H & [= <- <-]). by exists h. Qed.

Lemma on_table_inv m s u s' :
  on_table m s = Ok (u, s') -> exists t, m (hs_heap s) (hf_values (hs_fn s)) = Ok t /\
    s' = mkHState (hs_heap s) (set_values t (hs_fn s)).
Proof. intros H. apply rbind_ok in H as (t & H & [= <- <-]). by exists t. Qed.

Lemma track_local_inv p s u s' :
  track_local p s = Ok (u, s') -> exists m, s' = mkHState (hs_heap s) (set_max_local_id m (hs_fn s)).
Proof.
  unfold track_local. intros H. apply bind_ok in H as (i & s1 & H1 & H).
  apply on_heap_inv in H1 as (h & H1 & ->). apply heap_deref_inv in H1 as [-> _].
  apply bind_ok in H as (f & s2 & H2 & H). unfold get_fn, gets in H2. injection H2 as <- <-.
  apply bind_ok in H as (m & s3 & H3 & H). apply lift_ok in H3 as [_ ->].
  unfold on_fn in H. injection H as <- <-. by exists m.
Qed.

(** What [AppendInst] does up to the registration of the instruction. *)
Lemma append_inst_steps p op ret_type args s u s' :
  typed_args op args = true -> AppendInst p op ret_type args s = Ok (u, s') ->
  exists h i cur x t m,
    same_code p (hs_heap s) h /\ h !! p = Some i /\ i_op i = op /\ holds i 0 args /\
    length (i_args i) = max_args /\ i_id i = wrap 16 (hf_inst_order_id (hs_fn s)) /\
    hf_current (hs_fn s) = Some cur /\ hf_blocks (hs_fn s) !! cur = Some x /\
    AppendValue h p cur (hf_values (hs_fn s)) = Ok t /\
    s' = mkHState h (set_max_local_id m (set_values t
           (set_blocks (<[cur := with_block (set_insts (block_insts x ++ [p]) (hb_block x)) x]> (hf_blocks (hs_fn s)))
             (set_inst_order_id (wrap 16 (hf_inst_order_id (hs_fn s) + 1)) (hs_fn s))))).
Proof.
  intros Hty H. unfold AppendInst in H. apply bind_ok in H as (f & s0 & Hf & H).
  unfold get_fn, gets in Hf. injection Hf as <- <-.
  assert (H' : append_route false p op ret_type args s = Ok (u, s')).
  { destruct (hf_ir_fast (hs_fn s)); [by rewrite <- append_routes_equal|done]. }
  clear H. unfold append_route in H'. apply bind_ok in H' as ([] & s1 & H1 & H).
  apply on_heap_inv in H1 as (h1 & H1 & ->).
  pose proof (fresh_construction_equivalent p op args (hs_heap s)) as E. unfold Inst_Create in E.
  rewrite <- E in H1. clear E. destruct (args_holds p op args _ _ _ Hty H1) as (Hs & i & Hi & Ho & _ & Hh & Hl).
  apply bind_ok in H as (id & s2 & H2 & H). rewrite next_inst_id_run in H2. injection H2 as <- <-.
  apply bind_ok in H as ([] & s3 & H3 & H). apply on_heap_inv in H3 as (h2 & H3 & ->). simpl in H3.
  apply heap_update_inv in H3 as (i' & Hi' & ->). rewrite Hi in Hi'. injection Hi' as <-.
  apply bind_ok in H as ([] & s4 & H4 & H). apply on_heap_inv in H4 as (h3 & H4 & ->). simpl in H4.
  assert (H3 : exists j, h3 !! p = Some j /\ i_op j = op /\ i_args j = i_args i /\
      i_id j = wrap 16 (hf_inst_order_id (hs_fn s)) /\ same_code p (hs_heap s) h3).
  { destruct ret_type as [t|].
    - apply heap_update_inv in H4 as (j & Hj & ->). rewrite lookup_insert_eq in Hj. injection Hj as <-.
      eexists. rewrite lookup_insert_eq. split; [done|]. split_and!; try done.
      intros q Hq. rewrite !lookup_insert_ne by done. by apply Hs.
    - injection H4 as <-. eexists. rewrite lookup_insert_eq. split; [done|]. split_and!; try done.
      intros q Hq. rewrite lookup_insert_ne by done. by apply Hs. }
  destruct H3 as (j & Hj & Hjo & Hja & Hjid & Hjs).
  apply bind_ok in H as (cur & s5 & H5 & H). apply current_block_run in H5 as [-> Hcur].
  apply bind_ok in H as ([] & s6 & H6 & H). apply bind_ok in H6 as ([] & s7 & H7 & H6).
  unfold Block_AppendInst in H7. apply bind_ok in H7 as (k & s8 & H8 & H7).
  apply on_heap_inv in H8 as (h4 & H8 & ->). apply heap_deref_inv in H8 as [-> _].
  apply bind_ok in H7 as ([] & s9 & H9 & H7). apply lift_ok in H9 as [_ ->].
  apply update_block_inv in H7 as (x & Hx & ->). simpl in Hx.
  apply on_table_inv in H6 as (t & Ht & ->). simpl in Ht.
  apply track_local_inv in H as (m & ->). simpl.
  exists h3, j, cur, x, t, m. split_and!; try done.
  - destruct Hh as (pre & n & Ha & Hk). exists pre, n. by rewrite Hja.
  - by rewrite Hja.
Qed.

Lemma live_append f cur x p g :
  hf_blocks f !! cur = Some x -> block_insts (g x) = block_insts x ++ [p] ->
  mjoin (block_insts <$> <[cur := g x]> (hf_blocks f)) ≡ₚ live_insts f ++ [p].
Proof.
  intros Hx Hg. destruct (live_split f cur x Hx) as (rest & -> & ->). rewrite Hg.
  rewrite <- !app_assoc. apply Permutation_app_head, Permutation_app_comm.
Qed.

Lemma same_code_on p live h h' : p ∉ live -> same_code p h h' -> code_on live h h'.
Proof. intros Hp Hs q Hq. apply Hs. by intros ->. Qed.

(** [AppendInst] keeps the value table exact: a new instruction whose arguments
    fit its signature and name live instructions takes the next id and slot,
    and every use list is again the uses by live instructions. *)
Theorem AppendInst_ok (p : Ptr) (op : OpCode) (ret_type : option ValueType) (args : list BuildArg)
  (s s' : HState) (u : unit) :
  hir_ok s -> typed_args op args = true -> lambdas_ok args = true ->
  hs_heap s !! p = None -> hf_inst_order_id (hs_fn s) < invalid_id ->
  (forall v d, v ∈ build_values args -> v_inst v = Some d -> d ∈ live_insts (hs_fn s)) ->
  AppendInst p op ret_type args s = Ok (u, s') ->
  hir_ok s' /\ live_insts (hs_fn s') ≡ₚ live_insts (hs_fn s) ++ [p] /\
  same_code p (hs_heap s) (hs_heap s').
Proof.
  intros [Ht Ha Hh Hn] Hty Hl Hp Hlt Hargs H.
  apply append_inst_steps in H as (h & i & cur & x & t & m & Hs & Hi & Ho & Hb & H5 & Hid & Hcur & Hx & Hv & ->); [|done].
  assert (Hnew : p ∉ live_insts (hs_fn s)).
  { intros Hin. destruct (io_live _ _ _ (to_ids _ _ _ Ht) p Hin) as (j & Hj & _). congruence. }
  pose proof (same_code_on p _ _ h Hnew Hs) as Hcode.
  assert (Hok : args_ok i = true).
  { apply andb_true_iff in Hty as [_ Hty]. apply (holds_args_ok i args); [done| |done|by rewrite Ho].
    rewrite H5. apply signature_fits. }
  assert (Hid' : i_id i = Z.of_nat (length (vt_values (hf_values (hs_fn s))))).
  { rewrite Hid, Hn, wrap_small; [done|]. unfold invalid_id in Hlt. lia. }
  destruct (append_value_ok h (hf_values (hs_fn s)) (live_insts (hs_fn s)) p i cur) as (t' & Hv' & Ht' & Hlen & Hblk);
    [by eapply table_ok_code|done|done|done|rewrite Hid'; lia|done| |].
  { intros y d Hy Hd. apply (Hargs (fst y)); [|done]. rewrite <- (holds_values i args Hb). by apply inst_uses_values. }
  rewrite Hv in Hv'. injection Hv' as <-.
  pose proof (live_append (hs_fn s) cur x p (fun x => with_block (set_insts (block_insts x ++ [p]) (hb_block x)) x) Hx eq_refl) as Hlive.
  split; [|split; [exact Hlive|exact Hs]]. split; simpl.
  - unfold live_insts. simpl. by eapply table_ok_perm.
  - intros q j Hq Hj. unfold live_insts in Hq. simpl in Hq. rewrite Hlive in Hq.
    apply elem_of_app in Hq as [Hq| ->%list_elem_of_singleton]; [|by simplify_eq].
    destruct (code_on_lookup _ _ _ q j Hcode Hq Hj) as (j0 & Hj0 & E).
    rewrite (code_args_ok _ _ E). by apply (Ha q).
  - intros b y q j v Hy Hq Hj Hjh Hpool.
    assert (Hcase : q = p /\ b = cur \/ q <> p /\ exists y0, hf_blocks (hs_fn s) !! b = Some y0 /\ q ∈ block_insts y0).
    { apply list_lookup_insert_Some in Hy as [(<- & <- & _)|[Hne Hy]].
      - apply elem_of_app in Hq as [Hq| ->%list_elem_of_singleton]; [right|by left].
        split; [|by exists x]. intros ->. by apply Hnew, (live_in_block _ _ _ _ Hx).
      - right. split; [|by exists y]. intros ->. by apply Hnew, (live_in_block _ _ _ _ Hy). }
    assert (Hq' : q ∈ live_insts (hs_fn s) ++ [p]).
    { destruct Hcase as [[-> _]|[_ (y0 & Hy0 & Hq0)]]; apply elem_of_app; [right; left|left; by eapply live_in_block]. }
    specialize (Hblk q j Hq' Hj Hjh). rewrite Hpool in Hblk.
    destruct Hcase as [[-> ->]|[Hne (y0 & Hy0 & Hq0)]]; [rewrite decide_True in Hblk by done; by injection Hblk|].
    rewrite decide_False in Hblk by done.
    destruct (vt_pool (hf_values (hs_fn s)) !! q) as [v0|] eqn:Hv0; [|done]. injection Hblk as ->.
    destruct (code_on_lookup _ _ _ q j Hcode (live_in_block _ _ _ _ Hy0 Hq0) Hj) as (j0 & Hj0 & (_ & _ & E)%code_uses).
    apply (Hh b y0 q j0 v0); congruence.
  - rewrite Hlen, Hn. rewrite wrap_small; [lia|]. unfold invalid_id in Hlt. lia.
Qed.

(** ** Erasing *)

Lemma filter_without (p : Ptr) l : NoDup l -> p ∈ l -> l ≡ₚ p :: filter (fun q => q <> p) l.
Proof.
  induction l as [|x l IH]; intros Hn Hp; [by apply elem_of_nil in Hp|].
  apply NoDup_cons in Hn as [Hx Hn]. rewrite filter_cons. destruct (decide (x = p)) as [->|Hne].
  - rewrite decide_False by (intros Hc; by apply Hc). constructor. clear IH Hp Hn.
    induction l as [|y l IH]; [done|]. apply not_elem_of_cons in Hx as [Hy Hx].
    rewrite filter_cons, decide_True by congruence. constructor. by apply IH.
  - rewrite decide_True by done. apply elem_of_cons in Hp as [->|Hp]; [done|].
    rewrite (IH Hn Hp) at 1. apply perm_swap.
Qed.

Lemma NoDup_block f b x : NoDup (live_insts f) -> hf_blocks f !! b = Some x -> NoDup (block_insts x).
Proof. intros Hn Hx. destruct (live_split f b x Hx) as (rest & E & _). rewrite E in Hn. by apply NoDup_app in Hn as [? _]. Qed.

Definition without_inst (p : Ptr) (x : HIRBlock) : HIRBlock :=
  with_block (set_insts (filter (fun q => q <> p) (block_insts x)) (hb_block x)) x.

Lemma live_erase f b x p :
  NoDup (live_insts f) -> hf_blocks f !! b = Some x -> p ∈ block_insts x ->
  live_insts f ≡ₚ p :: mjoin (block_insts <$> <[b := without_inst p x]> (hf_blocks f)).
Proof.
  intros Hn Hx Hp. destruct (live_split f b x Hx) as (rest & -> & ->).
  change (block_insts (without_inst p x)) with (filter (fun q => q <> p) (block_insts x)).
  by rewrite (filter_without p (block_insts x) (NoDup_block f b x Hn Hx) Hp) at 1.
Qed.

(** The table work of [EraseInst] and the block the instruction is unlinked
    from. *)
Lemma erase_steps b x p s :
  hir_ok s -> hf_blocks (hs_fn s) !! b = Some x -> p ∈ block_insts x ->
  forall t h', unregister (hs_heap s) p (hf_values (hs_fn s)) = Ok t -> Inst_delete p (hs_heap s) = Ok (tt, h') ->
  EraseInst b p s = Ok (tt, mkHState h' (set_blocks (<[b := without_inst p x]> (hf_blocks (hs_fn s)))
                                          (set_values t (hs_fn s)))).
Proof.
  intros [Ht Ha Hh Hn] Hx Hp t h' Hreg Hdel.
  pose proof (live_in_block _ _ _ _ Hx Hp) as Hlive.
  destruct (io_live _ _ _ (to_ids _ _ _ Ht) p Hlive) as (i & Hi & _).
  destruct (walks_visit (hs_heap s) p i (hf_values (hs_fn s)) Hi (Ha p i Hlive Hi)) as [_ HU].
  destruct (visit_spec (hs_heap s) p erase_first (live_insts (hs_fn s)) (inst_uses i) (hf_values (hs_fn s))
    (to_ids _ _ _ Ht)) as (t1 & Ht1 & Hv & Hc & Hpool).
  { pose proof (to_closed _ _ _ Ht p Hlive) as Hcl. unfold uses_at in Hcl. by rewrite Hi in Hcl. }
  change (visit (hs_heap s) p HIRValue_UnUse (inst_uses i) (hf_values (hs_fn s)) = Ok t1) in Ht1. rewrite Ht1 in HU.
  assert (Hg : GetHIRValue (hs_heap s) t1 (mkValue (Some p) ValueType_VOID) =
               Ok (if Inst_HasValue i then Some p else None)).
  { apply (GetHIRValue_live _ _ (live_insts (hs_fn s))); try done. rewrite Hv. apply (to_ids _ _ _ Ht). }
  unfold unregister in Hreg. rewrite HU in Hreg. simpl in Hreg. rewrite Hg in Hreg. simpl in Hreg.
  unfold EraseInst, on_table, bind at 1. rewrite HU. simpl. unfold bind at 1, get_fn, gets. simpl.
  unfold bind at 1, get. simpl. unfold bind at 1, lift. rewrite Hg. simpl.
  assert (Hdestroy : Block_DestroyInst b p (mkHState (hs_heap s) (set_values t (set_values t1 (hs_fn s)))) =
    Ok (tt, mkHState h' (set_blocks (<[b := without_inst p x]> (hf_blocks (hs_fn s))) (set_values t (hs_fn s))))).
  { unfold Block_DestroyInst, bind. rewrite (update_block_run _ _ _ x) by done. simpl. unfold on_heap. simpl.
    by rewrite Hdel. }
  destruct (Inst_HasValue i) eqn:Eh.
  - destruct (to_uses _ _ _ Ht p i Hlive Hi Eh) as (v & Hv1 & Hv2 & _).
    pose proof (Hh b x p i v Hx Hp Hi Eh Hv1) as Hvb.
    unfold DestroyHIRValue, bind, get_fn, gets. simpl. rewrite (Hpool p i Hlive Hi Eh), Hv1. simpl.
    unfold on_table. simpl. rewrite Hv2, Hvb, Hreg. simpl. exact Hdestroy.
  - injection Hreg as <-. exact Hdestroy.
Qed.

(** (C29) [EraseInst] keeps the value table exact: erasing an instruction whose value
    nothing uses returns whenever its destructor does, unregisters it
    from every value it read, frees its slot, and removes it from its block and from
    nothing else. *)
Theorem EraseInst_ok (b : nat) (x : HIRBlock) (p : Ptr) (s : HState) (h' : Heap) :
  hir_ok s -> hf_blocks (hs_fn s) !! b = Some x -> p ∈ block_insts x ->
  live_uses (hs_heap s) (live_insts (hs_fn s)) p = [] ->
  Inst_delete p (hs_heap s) = Ok (tt, h') ->
  exists s', EraseInst b p s = Ok (tt, s') /\ hs_heap s' = h' /\ hir_ok s' /\
    live_insts (hs_fn s) ≡ₚ p :: live_insts (hs_fn s') /\
    hf_blocks (hs_fn s') = <[b := without_inst p x]> (hf_blocks (hs_fn s)).
Proof.
  intros Hok Hx Hp Hun Hdel. pose proof Hok as [Ht Ha Hh Hn].
  pose proof (live_in_block _ _ _ _ Hx Hp) as Hlive.
  destruct (io_live _ _ _ (to_ids _ _ _ Ht) p Hlive) as (i & Hi & _).
  pose proof (live_erase (hs_fn s) b x p (to_nodup _ _ _ Ht) Hx Hp) as Hperm.
  destruct (unregister_ok _ _ _ _ p i Ht Hperm Hi (Ha p i Hlive Hi) Hun) as (t & Hreg & Htab & Hlen & Hblk).
  pose proof (erase_steps b x p s Hok Hx Hp t h' Hreg Hdel) as Hrun.
  destruct (delete_same_code p _ _ _ Hdel) as [Hcode _].
  set (live' := mjoin (block_insts <$> <[b := without_inst p x]> (hf_blocks (hs_fn s)))) in *.
  assert (Hmem : forall q, q ∈ live' -> q ∈ live_insts (hs_fn s) /\ q <> p).
  { intros q Hq. pose proof (to_nodup _ _ _ Ht) as Hnd. rewrite Hperm in Hnd. apply NoDup_cons in Hnd as [Hnin _].
    split; [rewrite Hperm; by right|by intros ->]. }
  assert (Hc : code_on live' (hs_heap s) h') by (intros q Hq; by apply Hcode, Hmem).
  eexists. split; [exact Hrun|]. split; [done|]. split; [|by split]. split; simpl.
  - by apply Htab.
  - intros q j Hq Hj. destruct (code_on_lookup _ _ _ q j Hc Hq Hj) as (j0 & Hj0 & E).
    rewrite (code_args_ok _ _ E). apply (Ha q); [by apply Hmem|done].
  - intros c y q j v Hy Hq Hj Hjh Hv.
    assert (Hex : exists y0, hf_blocks (hs_fn s) !! c = Some y0 /\ q ∈ block_insts y0).
    { apply list_lookup_insert_Some in Hy as [(<- & <- & _)|[_ Hy]]; [|by exists y].
      exists x. split; [done|]. apply list_elem_of_filter in Hq. apply Hq. }
    destruct Hex as (y0 & Hy0 & Hq0).
    assert (Hql : q ∈ live').
    { unfold live'. apply list_elem_of_join. exists (block_insts y). split; [done|].
      apply list_elem_of_fmap. exists y. split; [done|by eapply list_elem_of_lookup_2]. }
    destruct (code_on_lookup _ _ _ q j Hc Hql Hj) as (j0 & Hj0 & (_ & _ & E)%code_uses).
    rewrite E in Hjh. specialize (Hblk q j0 Hql Hj0 Hjh). rewrite Hv in Hblk.
    destruct (vt_pool (hf_values (hs_fn s)) !! q) as [v0|] eqn:Hv0; [|done]. injection Hblk as ->.
    by apply (Hh c y0 q j0 v0).
  - by rewrite Hlen.
Qed.

(** ** Renumbering *)

Definition has (h : Heap) (p : Ptr) : option Ptr := if has_value h p then Some p else None.

(** The instructions of [l] get the ids from [cur] on. *)
Record numbered (cur : Z) (l : list Ptr) (h h' : Heap) : Prop := {
  nb_in : forall k p, l !! k = Some p -> h' !! p = set_id (cur + Z.of_nat k) <$> h !! p;
  nb_out : forall q, q ∉ l -> h' !! q = h !! q
}.

Lemma numbered_nil cur h : numbered cur [] h h.
Proof. by split. Qed.

Lemma numbered_cons cur p l h h' i :
  p ∉ l -> h !! p = Some i -> numbered (cur + 1) l (<[p := set_id cur i]> h) h' -> numbered cur (p :: l) h h'.
Proof.
  intros Hp Hi [Hin Hout]. split.
  - intros [|k] q Hq; simpl in Hq.
    + injection Hq as <-. rewrite Hout, lookup_insert_eq, Hi by done. simpl. by rewrite Z.add_0_r.
    + rewrite (Hin k q Hq), lookup_insert_ne; [do 2 f_equal; lia|]. intros ->.
      apply Hp. by eapply list_elem_of_lookup_2.
  - intros q [Hne Hq]%not_elem_of_cons. rewrite Hout by done. by rewrite lookup_insert_ne.
Qed.

Lemma id_loop_ok t l : forall cur scratch h,
  NoDup l -> 0 <= cur -> cur + Z.of_nat (length l) <= invalid_id ->
  (forall p, p ∈ l -> is_Some (h !! p)) ->
  (forall p, p ∈ l -> GetHIRValue h t (mkValue (Some p) ValueType_VOID) = Ok (has h p)) ->
  exists h', id_loop t l cur scratch h = Ok ((scratch ++ (has h <$> l), cur + Z.of_nat (length l)), h') /\
    numbered cur l h h'.
Proof.
  induction l as [|p l IH]; intros cur scratch h Hnd H0 Hlen Hdom Hget.
  - exists h. simpl. rewrite app_nil_r, Z.add_0_r. split; [done|apply numbered_nil].
  - apply NoDup_cons in Hnd as [Hp Hnd]. destruct (Hdom p) as [i Hi]; [left|].
    simpl in Hlen. unfold invalid_id in Hlen.
    assert (Hset : SetId p cur h = Ok (tt, <[p := set_id cur i]> h)).
    { unfold SetId, heap_update, heap_deref, bind, get, lift, deref. rewrite Hi. simpl.
      rewrite wrap_small by lia. done. }
    simpl. unfold bind at 1, get. unfold bind at 1, lift. rewrite (Hget p) by left.
    unfold bind. rewrite Hset, wrap_small by lia.
    assert (Hsame : forall q, q ∈ l -> <[p := set_id cur i]> h !! q = h !! q).
    { intros q Hq. rewrite lookup_insert_ne; [done|]. by intros ->. }
    destruct (IH (cur + 1) (scratch ++ [has h p]) (<[p := set_id cur i]> h)) as (h' & Hrun & Hn); try done.
    + lia.
    + unfold invalid_id. lia.
    + intros q Hq. rewrite Hsame by done. apply Hdom. by right.
    + intros q Hq. unfold GetHIRValue, deref, has, has_value in *. simpl. rewrite Hsame by done.
      apply (Hget q). by right.
    + exists h'. rewrite Hrun. split; [|by eapply numbered_cons].
      rewrite <- app_assoc. do 3 f_equal; [|simpl; lia]. simpl. f_equal. f_equal.
      apply list_fmap_ext. intros k q Hq. unfold has, has_value. rewrite Hsame; [done|].
      by eapply list_elem_of_lookup_2.
Qed.

Lemma numbered_uses cur l h h' q : numbered cur l h h' -> uses_at h' q = uses_at h q /\ has_value h' q = has_value h q.
Proof.
  intros [Hin Hout]. unfold uses_at, has_value. destruct (decide (q ∈ l)) as [[k Hk]%list_elem_of_lookup|Hq].
  - rewrite (Hin k q Hk). destruct (h !! q) as [i|]; [|done]. simpl. split; [by apply inst_uses_ext|done].
  - by rewrite Hout.
Qed.

Lemma numbered_live_uses cur l h h' live d : numbered cur l h h' -> live_uses h' live d = live_uses h live d.
Proof.
  intros Hn. unfold live_uses. f_equal. apply list_fmap_ext. intros k q _. by destruct (numbered_uses _ _ _ _ q Hn) as [-> _].
Qed.

Lemma numbered_value_count cur l h h' live : numbered cur l h h' -> value_count h' live = value_count h live.
Proof.
  intros Hn. unfold value_count. do 2 f_equal. induction live as [|q live IH]; [done|].
  rewrite !filter_cons. destruct (numbered_uses _ _ _ _ q Hn) as [_ ->]. case_decide; simpl; congruence.
Qed.

(** The dense table. *)
Lemma numbered_ids l h h' :
  NoDup l -> Z.of_nat (length l) <= invalid_id -> (forall p, p ∈ l -> is_Some (h !! p)) -> numbered 0 l h h' ->
  ids_ok h' (has h <$> l) l.
Proof.
  intros Hnd Hlen Hdom Hn.
  assert (Hat : forall k p, l !! k = Some p -> exists i, h' !! p = Some i /\ i_id i = Z.of_nat k /\
                  Inst_HasValue i = has_value h p).
  { intros k p Hk. destruct (Hdom p) as [i Hi]; [by eapply list_elem_of_lookup_2|].
    exists (set_id (0 + Z.of_nat k) i). rewrite (nb_in _ _ _ _ Hn k p Hk), Hi. unfold has_value. by rewrite Hi. }
  split.
  - intros p [k Hk]%list_elem_of_lookup. destruct (Hat k p Hk) as (i & Hi & Hid & Hh). exists i.
    apply lookup_lt_Some in Hk as Hlt. rewrite Hid, Nat2Z.id, list_lookup_fmap, Hk, Hh. unfold invalid_id in *.
    split_and!; [done|lia|lia|done].
  - intros k p Hk. rewrite list_lookup_fmap in Hk. destruct (l !! k) as [q|] eqn:Hq; [|done]. simpl in Hk.
    unfold has in Hk. destruct (has_value h q); [|done]. injection Hk as ->.
    split; [by eapply list_elem_of_lookup_2|]. destruct (Hat k p Hq) as (i & ? & ? & _). by exists i.
  - intros p q i j [k Hk]%list_elem_of_lookup [m Hm]%list_elem_of_lookup Hi Hj E.
    destruct (Hat k p Hk) as (i' & Hi' & Hik & _). destruct (Hat m q Hm) as (j' & Hj' & Hjm & _).
    simplify_eq. assert (k = m) as -> by lia. congruence.
Qed.

(** [IdByRPO] numbers the instructions densely in the order of the blocks: the
    instruction at position [k] gets id [k] and slot [k] of the new table, nothing
    else of it changes, and the value table is exact again. *)
Theorem IdByRPO_ok (s : HState) :
  hir_ok s -> rpo_insts (hs_fn s) ≡ₚ live_insts (hs_fn s) ->
  Z.of_nat (length (live_insts (hs_fn s))) <= invalid_id ->
  exists s', IdByRPO s = Ok (tt, s') /\ hir_ok s' /\
    hf_blocks (hs_fn s') = hf_blocks (hs_fn s) /\
    numbered 0 (rpo_insts (hs_fn s)) (hs_heap s) (hs_heap s') /\
    vt_values (hf_values (hs_fn s')) = has (hs_heap s) <$> rpo_insts (hs_fn s).
Proof.
  intros [Ht Ha Hh Hnx] Hperm Hlen. set (l := rpo_insts (hs_fn s)) in *.
  assert (Hin : forall p, p ∈ l <-> p ∈ live_insts (hs_fn s)) by (intros p; by rewrite Hperm).
  assert (Hdom : forall p, p ∈ l -> is_Some (hs_heap s !! p)).
  { intros p Hp%Hin. destruct (io_live _ _ _ (to_ids _ _ _ Ht) p Hp) as (i & -> & _). by eexists. }
  assert (Hnd : NoDup l) by (rewrite Hperm; apply (to_nodup _ _ _ Ht)).
  rewrite <- Hperm in Hlen.
  destruct (id_loop_ok (hf_values (hs_fn s)) l 0 [] (hs_heap s)) as (h' & Hrun & Hn); try done.
  { intros p Hp. destruct (Hdom p Hp) as [i Hi]. apply Hin in Hp. unfold has, has_value. rewrite Hi.
    by apply (GetHIRValue_live _ _ (live_insts (hs_fn s)) _ i); [apply (to_ids _ _ _ Ht)|..]. }
  eexists. split.
  { unfold IdByRPO, bind, get_fn, gets, on_heap. fold l. rewrite Hrun. simpl. reflexivity. }
  simpl. split; [|by split]. split; simpl.
  - unfold live_insts. simpl. apply (table_ok_perm _ _ l); [done|]. split; simpl.
    + done.
    + by apply numbered_ids.
    + intros q Hq. destruct (numbered_uses _ _ _ _ q Hn) as [-> _]. intros x d Hx Hd. apply Hin.
      by apply (to_closed _ _ _ Ht q (proj1 (Hin q) Hq) x).
    + intros d j Hd Hj Hjh. destruct (Hdom d Hd) as [i Hi]. apply Hin in Hd as Hd'.
      assert (Hih : Inst_HasValue i = true).
      { destruct (numbered_uses _ _ _ _ d Hn) as [_ E]. unfold has_value in E. rewrite Hi, Hj in E. congruence. }
      destruct (to_uses _ _ _ Ht d i Hd' Hi Hih) as (v & Hv1 & Hv2 & Hv3). exists v. split_and!; [done..|].
      rewrite (numbered_live_uses _ _ _ _ _ _ Hn), Hv3. by apply live_uses_perm.
    + rewrite (to_count _ _ _ Ht), (numbered_value_count _ _ _ _ _ Hn). by apply value_count_perm.
  - intros p j Hp Hj. unfold live_insts in Hp. simpl in Hp. apply Hin in Hp as [k Hk]%list_elem_of_lookup.
    destruct (Hdom p) as [i Hi]; [by eapply list_elem_of_lookup_2|]. rewrite (nb_in _ _ _ _ Hn k p Hk), Hi in Hj.
    injection Hj as <-. rewrite (args_ok_ext _ i) by done.
    apply (Ha p i); [apply Hin; by eapply list_elem_of_lookup_2|done].
  - intros b x p j v Hx Hp Hj Hjh Hv. apply (live_in_block _ _ _ _ Hx) in Hp as Hp'. 
    destruct (Hdom p) as [i Hi]; [by apply Hin|]. apply (Hh b x p i v); try done.
    destruct (numbered_uses _ _ _ _ p Hn) as [_ E]. unfold has_value in E. rewrite Hi, Hj in E. congruence.
  - rewrite length_fmap, wrap_small by (unfold invalid_id in Hlen; lia). done.
Qed.
