(* ===== verification/HirBuilder.v ===== *)
(** * The builder the decoders drive

    Model of [HIRBuilder] (runtime/ir/hir_builder.h, hir_builder.cpp): the current
    function, the terminals with the blocks and edges they create, and the
    coalescing of [AdvancePC] markers.  The builder owns the heap and all functions;
    a function is identified by its index in [hir_functions], a block of
    it by the pair with the block's index. *)

From Stdlib Require Import ZArith Lia.
From stdpp Require Import numbers base gmap list.
From S2P Require Import Prelude MachineInt IRTypes Instr InstrBuild Interp HirValues Cfg HirFunction.

Local Open Scope Z_scope.
Local Open Scope svm_scope.

Record BuilderConfig := mkBuilderConfig {
  bc_defer_function_end : bool;
  bc_ir_fast : bool;
  bc_advpc_coalesce : bool
}.

Record HIRBuilder := mkHIRBuilder {
  bl_heap : Heap;
  bl_functions : list HIRFunction;
  bl_current_location : Z;
  bl_current_function : option nat;
  bl_last_advance : option Ptr;
  bl_last_advance_block : option (nat * nat);
  bl_flags_since_advance : bool
}.

Definition builder_new : HIRBuilder := mkHIRBuilder ∅ [] 0 None None None false.

Definition set_current_location (x : Z) (s : HIRBuilder) : HIRBuilder :=
  mkHIRBuilder (bl_heap s) (bl_functions s) x (bl_current_function s) (bl_last_advance s)
    (bl_last_advance_block s) (bl_flags_since_advance s).
Definition set_current_function (x : option nat) (s : HIRBuilder) : HIRBuilder :=
  mkHIRBuilder (bl_heap s) (bl_functions s) (bl_current_location s) x (bl_last_advance s)
    (bl_last_advance_block s) (bl_flags_since_advance s).
Definition set_advance (p : option Ptr) (b : option (nat * nat)) (s : HIRBuilder) : HIRBuilder :=
  mkHIRBuilder (bl_heap s) (bl_functions s) (bl_current_location s) (bl_current_function s) p b
    (bl_flags_since_advance s).
Definition set_flags_since_advance (x : bool) (s : HIRBuilder) : HIRBuilder :=
  mkHIRBuilder (bl_heap s) (bl_functions s) (bl_current_location s) (bl_current_function s)
    (bl_last_advance s) (bl_last_advance_block s) x.
Definition put_function (k : nat) (r : HState) (s : HIRBuilder) : HIRBuilder :=
  mkHIRBuilder (hs_heap r) (<[k := hs_fn r]> (bl_functions s)) (bl_current_location s)
    (bl_current_function s) (bl_last_advance s) (bl_last_advance_block s) (bl_flags_since_advance s).

(** [current_function->m(...)]; a null [current_function] fails its [ASSERT]. *)
Definition on_current {A} (m : ST HState A) : ST HIRBuilder A := fun s =>
  match bl_current_function s with
  | None => Err EPanic
  | Some k =>
      match bl_functions s !! k with
      | None => Err EUndefined
      | Some f => r <-? m (mkHState (bl_heap s) f); Ok (fst r, put_function k (snd r) s)
      end
  end.

(** [current_function->GetCurrentBlock()] with the function, [None] if either is
    null. *)
Definition current_pair (s : HIRBuilder) : option (nat * nat) :=
  match bl_current_function s with
  | None => None
  | Some k => (fun b => (k, b)) <$> (f ← bl_functions s !! k; hf_current f)
  end.

Section Config.
Context (cfg : BuilderConfig).

Definition push_function (r : HState) (s : HIRBuilder) : HIRBuilder :=
  mkHIRBuilder (hs_heap r) (bl_functions s ++ [hs_fn r]) (bl_current_location s)
    (Some (length (bl_functions s))) (bl_last_advance s) (bl_last_advance_block s)
    (bl_flags_since_advance s).

(** [HIRBuilder::AppendFunction]. *)
Definition AppendFunction (start end_ : Z) : ST HIRBuilder unit :=
  s <- get;;
  r <- lift (HIRFunction_new start (mkHState (bl_heap s) (empty_function (bc_ir_fast cfg))));;
  modify (push_function (snd r));;;
  on_current (b <- AppendBlock start end_;; SetCurBlock b).

Definition HasCurrentFunctionBlock (location : Z) (s : HIRBuilder) : bool :=
  match bl_current_function s with
  | None => false
  | Some k => match bl_functions s !! k with
              | Some f => match find_location f (hf_block_list f) location with Some _ => true | None => false end
              | None => false
              end
  end.

(** ** Instructions *)

Definition LeavesPendingFlags (op : OpCode) : bool :=
  match op with
  | OpCode_SaveFlags | OpCode_ClearFlags | OpCode_SetCarry | OpCode_SetOverflow | OpCode_InvertCarry
  | OpCode_PublishFCmpFlags | OpCode_PublishSse42StrFlags => true
  | _ => false
  end.

(** [HIRBuilder::FoldAdvancePC]. *)
Definition FoldAdvancePC (imm : Imm) : ST HIRBuilder bool :=
  s <- get;;
  if bl_flags_since_advance s then ret false
  else
    match bl_last_advance s with
    | None => ret false
    | Some p =>
        if decide (bl_last_advance_block s = current_pair s) then
          on_current (on_heap (
            i <- heap_deref p;;
            prev <- lift (GetArg_Imm i 0);;
            SetArg_Imm p 0 (Imm_sized (wrap 64 (Imm_Get prev + Imm_Get imm)) (imm_type prev))));;;
          ret true
        else ret false
    end.

(** The immediate of an [AdvancePC(Imm)] call. *)
Definition advance_imm (op : OpCode) (args : list BuildArg) : option Imm :=
  match args with
  | [BImm imm] => if op_eqb op OpCode_AdvancePC then Some imm else None
  | _ => None
  end.

(** [HIRBuilder::AppendInst]; [None] when the instruction was dropped or folded. *)
Definition Builder_AppendInst (p : Ptr) (op : OpCode) (ret_type : option ValueType) (args : list BuildArg)
  : ST HIRBuilder (option Ptr) :=
  s <- get;;
  match current_pair s with
  | None => guard (op_eqb op OpCode_AdvancePC) EPanic;;; ret None
  | Some here =>
      folded <- (match advance_imm op args with
                 | Some imm => if bc_advpc_coalesce cfg then FoldAdvancePC imm else ret false
                 | None => ret false
                 end);;
      if folded : bool then ret None
      else
        (if LeavesPendingFlags op then modify (set_flags_since_advance true) else ret tt);;;
        on_current (AppendInst p op ret_type args);;;
        (if op_eqb op OpCode_AdvancePC
         then modify (fun s => set_flags_since_advance false (set_advance (Some p) (Some here) s))
         else ret tt);;;
        ret (Some p)
  end.

Definition SetLocation (location : Z) : ST HIRBuilder unit := modify (set_current_location location).

Definition Builder_SetCurBlock (b : nat) : ST HIRBuilder unit := on_current (SetCurBlock b).

(** [SetCurBlock(Location)]. *)
Definition SetCurBlock_at (location : Z) : ST HIRBuilder unit :=
  on_current (b <- CreateOrGetBlock location;; SetCurBlock b).

Definition Builder_ResetDecodedBlock (b : nat) : ST HIRBuilder bool :=
  done_ <- on_current (ResetDecodedBlock b);;
  if done_ : bool then
    x <- on_current (get_block b);;
    modify (fun s => set_flags_since_advance false (set_advance None None (set_current_location (hb_location x) s)));;;
    ret true
  else ret false.

(** ** Terminals *)

(** [GetNextLocation]; [Location{}] is 0. *)
Definition GetNextLocation (term : Terminal) : Z :=
  match term with LinkBlock next | LinkBlockFast next => next | _ => 0 end.

(** [HIRBuilder::If] on [terminal::If{cond, then_, else_}]; returns [{else_, then_}]. *)
Definition Builder_If (cond : Value) (then_ else_ : Terminal) : ST HIRBuilder (nat * nat) :=
  on_current (
    pre <- current_block;;
    EndBlock (If cond then_ else_);;;
    else_block <- AppendBlock (GetNextLocation else_) 0;;
    AddEdge pre else_block true;;;
    then_block <- AppendBlock (GetNextLocation then_) 0;;
    AddEdge pre then_block true;;;
    ret (else_block, then_block)).

Fixpoint switch_cases (pre : nat) (cases : list (Imm * Terminal)) : ST HState (list (Imm * nat)) :=
  match cases with
  | [] => ret []
  | (v, then_) :: cases' =>
      next <- AppendBlock (GetNextLocation then_) 0;;
      AddEdge pre next true;;;
      rest <- switch_cases pre cases';;
      ret ((v, next) :: rest)
  end.

Definition Builder_Switch (value : Value) (cases : list (Imm * Terminal)) : ST HIRBuilder (list (Imm * nat)) :=
  on_current (
    pre <- current_block;;
    EndBlock (Switch value cases);;;
    switch_cases pre cases).

Definition Builder_LinkBlock (next : Z) : ST HIRBuilder nat :=
  on_current (
    pre <- current_block;;
    EndBlock (LinkBlock next);;;
    next_block <- AppendBlock next 0;;
    AddEdge pre next_block false;;;
    ret next_block).

Definition Builder_ExternalLinkBlock (next : Z) : ST HIRBuilder unit := on_current (EndBlock (ExternalLinkBlock next)).

Definition Builder_RegisterExternalDirectLink (target : Z) : ST HIRBuilder unit :=
  on_current (RegisterExternalDirectLink target).

Definition Builder_RegisterCallReturn (location : Z) : ST HIRBuilder unit := on_current (RegisterCallReturn location).

(** A terminal that may end the function; nothing happens after the end. *)
Definition end_with (term : Terminal) (defer : bool) : ST HIRBuilder unit :=
  s <- get;;
  match bl_current_function s with
  | None => ret tt
  | Some _ =>
      on_current (EndBlock term);;;
      if defer then ret tt else on_current EndFunction;;; modify (set_current_function None)
  end.

Definition Builder_ReturnToDispatcher : ST HIRBuilder unit := end_with ReturnToDispatch (bc_defer_function_end cfg).
Definition Builder_ReturnToHost : ST HIRBuilder unit := end_with ReturnToHost (bc_defer_function_end cfg).
Definition Builder_Return : ST HIRBuilder unit := end_with PopRSBHint (bc_defer_function_end cfg).
Definition Builder_End : ST HIRBuilder unit := end_with ReturnToDispatch false.
End Config.
