(* ===== verification/HirGraph.v ===== *)
(** * The graph of a function under construction

    The invariant of the blocks and edges of an [HIRFunction], kept by every
    operation of HirFunction.v: block order ids are positions, no two blocks
    start at the same address, an edge is in the outgoing list of its source
    exactly when it is in the incoming list of its destination, and every
    pointer to a block is to a block of the function. *)

From Stdlib Require Import ZArith Lia.
From stdpp Require Import numbers base gmap list.
From S2P Require Import Prelude MachineInt IRTypes Instr InstrBuild UseCount.
From S2P Require Import Interp HirValues Cfg HirFunction HirAppend HirTable.

Local Open Scope Z_scope.
Local Open Scope svm_scope.

Definition owned (f : HIRFunction) (b : nat) : Prop := is_Some (hf_blocks f !! b).

Record graph_ok (f : HIRFunction) : Prop := {
  go_list : hf_block_list f = seq 0 (length (hf_blocks f));
  go_count : hf_block_order_id f = wrap 16 (Z.of_nat (length (hf_blocks f)));
  go_order : forall b x, hf_blocks f !! b = Some x -> hb_order_id x = wrap 16 (Z.of_nat b);
  go_location : forall b c x y, hf_blocks f !! b = Some x -> hf_blocks f !! c = Some y ->
                  hb_location x = hb_location y -> b = c;
  go_edges : forall e ed, hf_edges f !! e = Some ed -> owned f (e_src ed) /\ owned f (e_dest ed);
  go_out : forall b x e, hf_blocks f !! b = Some x -> e ∈ hb_outgoing x ->
                  exists ed, hf_edges f !! e = Some ed /\ e_src ed = b;
  go_in : forall b x e, hf_blocks f !! b = Some x -> e ∈ hb_incoming x ->
                  exists ed, hf_edges f !! e = Some ed /\ e_dest ed = b;
  go_mirror : forall e ed x y, hf_edges f !! e = Some ed -> hf_blocks f !! e_src ed = Some x ->
                  hf_blocks f !! e_dest ed = Some y -> (e ∈ hb_outgoing x <-> e ∈ hb_incoming y);
  go_nodup : forall b x, hf_blocks f !! b = Some x -> NoDup (hb_outgoing x) /\ NoDup (hb_incoming x);
  go_call : forall b x c, hf_blocks f !! b = Some x -> hb_call_return x = Some c -> owned f c;
  go_roots : Forall (owned f) (hf_external_roots f);
  go_entry : forall b, hf_entry f = Some b -> owned f b;
  go_current : forall b, hf_current f = Some b -> owned f b
}.

(** ** Operations that do not touch the graph *)

Definition block_graph (x : HIRBlock) := (hb_order_id x, hb_location x, hb_outgoing x, hb_incoming x, hb_call_return x).

Record same_graph (f f' : HIRFunction) : Prop := {
  sg_blocks : block_graph <$> hf_blocks f' = block_graph <$> hf_blocks f;
  sg_list : hf_block_list f' = hf_block_list f;
  sg_count : hf_block_order_id f' = hf_block_order_id f;
  sg_edges : hf_edges f' = hf_edges f;
  sg_roots : hf_external_roots f' = hf_external_roots f;
  sg_entry : hf_entry f' = hf_entry f
}.

#[export] Instance same_graph_refl : Reflexive same_graph.
Proof. by split. Qed.

#[export] Instance same_graph_trans : Transitive same_graph.
Proof. intros f g k [] []. split; congruence. Qed.

Lemma same_graph_lookup f f' b x' :
  same_graph f f' -> hf_blocks f' !! b = Some x' -> exists x, hf_blocks f !! b = Some x /\ block_graph x' = block_graph x.
Proof.
  intros Hs Hx. assert (E : (block_graph <$> hf_blocks f') !! b = Some (block_graph x')).
  { rewrite list_lookup_fmap. by rewrite Hx. }
  rewrite (sg_blocks _ _ Hs), list_lookup_fmap in E. destruct (hf_blocks f !! b) as [x|]; [|done].
  injection E. intros. exists x. split; [done|]. unfold block_graph. congruence.
Qed.

Lemma same_graph_length f f' : same_graph f f' -> length (hf_blocks f') = length (hf_blocks f).
Proof. intros Hs. rewrite <- (length_fmap block_graph), (sg_blocks _ _ Hs). by rewrite length_fmap. Qed.

Lemma same_graph_owned f f' b : same_graph f f' -> owned f b -> owned f' b.
Proof.
  intros Hs. unfold owned. rewrite !lookup_lt_is_Some. by rewrite (same_graph_length f f' Hs).
Qed.

Lemma graph_ok_same f f' :
  same_graph f f' -> (forall b, hf_current f' = Some b -> owned f' b) -> graph_ok f -> graph_ok f'.
Proof.
  intros Hs Hcur [H1 H2 H3 H4 H5 H6 H7 H8 H9 H10 H11 H12 _].
  pose proof (fun b x => same_graph_lookup f f' b x Hs) as Hl.
  pose proof (fun b => same_graph_owned f f' b Hs) as Ho.
  destruct Hs as [Hb Hls Hc He Hr Hen].
  assert (Hlen : length (hf_blocks f') = length (hf_blocks f)) by (by rewrite <- (length_fmap block_graph), Hb, length_fmap).
  split.
  - by rewrite Hls, H1, Hlen.
  - by rewrite Hc, H2, Hlen.
  - intros b x Hx. destruct (Hl b x Hx) as (x0 & Hx0 & [= -> _ _ _ _]). by apply H3.
  - intros b c x y Hx Hy E. destruct (Hl b x Hx) as (x0 & Hx0 & [= _ Ex _ _ _]).
    destruct (Hl c y Hy) as (y0 & Hy0 & [= _ Ey _ _ _]). apply (H4 b c x0 y0); congruence.
  - intros e ed Hed. rewrite He in Hed. destruct (H5 e ed Hed). auto.
  - intros b x e Hx Hin. destruct (Hl b x Hx) as (x0 & Hx0 & [= _ _ E _ _]). rewrite E in Hin. rewrite He. by apply (H6 b x0).
  - intros b x e Hx Hin. destruct (Hl b x Hx) as (x0 & Hx0 & [= _ _ _ E _]). rewrite E in Hin. rewrite He. by apply (H7 b x0).
  - intros e ed x y Hed Hx Hy. rewrite He in Hed. destruct (Hl _ x Hx) as (x0 & Hx0 & [= _ _ -> _ _]).
    destruct (Hl _ y Hy) as (y0 & Hy0 & [= _ _ _ -> _]). by apply (H8 e ed).
  - intros b x Hx. destruct (Hl b x Hx) as (x0 & Hx0 & [= _ _ -> -> _]). by apply (H9 b).
  - intros b x c Hx Hcr. destruct (Hl b x Hx) as (x0 & Hx0 & [= _ _ _ _ E]). apply Ho, (H10 b x0); congruence.
  - rewrite Hr. eapply Forall_impl; [exact H11|auto].
  - intros b Hb'. apply Ho, H12. congruence.
  - done.
Qed.

Definition terms (f : HIRFunction) : list Terminal := (fun x => b_terminal (hb_block x)) <$> hf_blocks f.

(** [m] leaves the graph, the terminals and the current block. *)
Definition neutral_fn (f f' : HIRFunction) : Prop :=
  same_graph f f' /\ hf_current f' = hf_current f /\ terms f' = terms f.

Definition graph_neutral {A} (m : ST HState A) : Prop :=
  forall s a s', m s = Ok (a, s') -> neutral_fn (hs_fn s) (hs_fn s').

Lemma neutral_ret {A} (a : A) : graph_neutral (ret a).
Proof. intros s b s' [= <- <-]. by split. Qed.
Lemma neutral_fail {A} e : graph_neutral (A := A) (fail e).
Proof. intros s b s' [=]. Qed.
Lemma neutral_lift {A} (r : Res A) : graph_neutral (lift r).
Proof. intros s b s' H. apply lift_ok in H as [_ ->]. by split. Qed.
Lemma neutral_get : graph_neutral get.
Proof. intros s b s' [= _ <-]. by split. Qed.
Lemma neutral_get_fn : graph_neutral get_fn.
Proof. intros s b s' [= _ <-]. by split. Qed.
Lemma neutral_get_block b : graph_neutral (get_block b).
Proof. intros s x s' H. unfold get_block in H. destruct (hf_blocks (hs_fn s) !! b); [|done]. injection H as _ <-. by split. Qed.
Lemma neutral_current : graph_neutral current_block.
Proof. intros s x s' [-> _]%current_block_run. by split. Qed.
Lemma neutral_guard b e : graph_neutral (guard b e).
Proof. destruct b; [apply neutral_ret|apply neutral_fail]. Qed.

Lemma neutral_bind {A B} (m : ST HState A) (k : A -> ST HState B) :
  graph_neutral m -> (forall a, graph_neutral (k a)) -> graph_neutral (bind m k).
Proof.
  intros Hm Hk s b s' H. apply bind_ok in H as (a & s1 & H1 & H).
  destruct (Hm _ _ _ H1) as (H2 & H3 & H4), (Hk _ _ _ _ H) as (H5 & H6 & H7).
  split_and!; [by etrans|congruence..].
Qed.

Lemma neutral_on_heap {A} (m : ST Heap A) : graph_neutral (on_heap m).
Proof. intros s a s' H. apply on_heap_inv in H as (h & _ & ->). by split. Qed.
Lemma neutral_on_table m : graph_neutral (on_table m).
Proof. intros s a s' H. apply on_table_inv in H as (t & _ & ->). split_and!; by repeat split. Qed.

Lemma fmap_update_id {A B} (v : A -> B) (l : list A) b x y :
  l !! b = Some x -> v y = v x -> v <$> <[b := y]> l = v <$> l.
Proof. intros Hx Hv. rewrite list_fmap_insert, Hv. apply list_insert_id. by rewrite list_lookup_fmap, Hx. Qed.

Lemma neutral_update_block b g :
  (forall x, block_graph (g x) = block_graph x /\ b_terminal (hb_block (g x)) = b_terminal (hb_block x)) ->
  graph_neutral (update_block b g).
Proof.
  intros Hg s u s' H. apply update_block_inv in H as (x & Hx & ->). destruct (Hg x) as [H1 H2].
  split_and!; [split; try done|done|]; by apply (fmap_update_id _ _ b x).
Qed.

Lemma neutral_if {A} (b : bool) (m1 m2 : ST HState A) :
  graph_neutral m1 -> graph_neutral m2 -> graph_neutral (if b then m1 else m2).
Proof. by destruct b. Qed.

Lemma neutral_for_each {A} (m : A -> ST HState unit) l :
  (forall x, graph_neutral (m x)) -> graph_neutral (for_each m l).
Proof. intros Hm. induction l; simpl; [apply neutral_ret|by apply neutral_bind]. Qed.

Lemma neutral_on_fn g : (forall f, neutral_fn f (g f)) -> graph_neutral (on_fn g).
Proof. intros Hg s u s' H. unfold on_fn in H. injection H as _ <-. apply Hg. Qed.

Create HintDb graph.
#[export] Hint Resolve neutral_ret neutral_fail neutral_lift neutral_get neutral_get_fn neutral_get_block
  neutral_current neutral_guard neutral_on_heap neutral_on_table : graph.

(** Decomposes a computation into steps that leave the graph. *)
Ltac neutral :=
  repeat first
    [ solve [eauto with graph nocore]
    | apply neutral_update_block; intros ?; split; reflexivity
    | apply neutral_bind; [|intros ?]
    | apply neutral_if
    | apply neutral_on_fn; intros ?; split_and!; [split; reflexivity|reflexivity..]
    | match goal with |- graph_neutral (match ?x with _ => _ end) => destruct x end ].

Lemma neutral_track_local p : graph_neutral (track_local p).
Proof. unfold track_local. neutral. Qed.

Lemma neutral_next_inst_id : graph_neutral next_inst_id.
Proof. unfold next_inst_id. neutral. Qed.

#[export] Hint Resolve neutral_track_local neutral_next_inst_id : graph.

Lemma neutral_AppendInst p op ret_type args : graph_neutral (AppendInst p op ret_type args).
Proof. unfold AppendInst, append_route, Block_AppendInst, Block_AppendInstUnchecked. neutral. Qed.

Lemma neutral_HIRBlock_AppendInst b p : graph_neutral (HIRBlock_AppendInst b p).
Proof. unfold HIRBlock_AppendInst, Block_AppendInst, Block_AppendInstUnchecked. neutral. Qed.

Lemma neutral_InsertFront b p : graph_neutral (InsertFront b p).
Proof. unfold InsertFront. neutral. Qed.

Lemma neutral_EraseInst b p : graph_neutral (EraseInst b p).
Proof. unfold EraseInst, DestroyHIRValue, Block_DestroyInst. neutral. Qed.

Lemma neutral_IdByRPO : graph_neutral IdByRPO.
Proof. unfold IdByRPO. neutral. Qed.

Lemma neutral_AddGuestCodeDependency b x y : graph_neutral (AddGuestCodeDependency b x y).
Proof.
  unfold AddGuestCodeDependency. apply neutral_if; [neutral|]. apply neutral_update_block. intros z. by case_decide.
Qed.

Lemma neutral_RegisterExternalDirectLink t : graph_neutral (RegisterExternalDirectLink t).
Proof. unfold RegisterExternalDirectLink. neutral. Qed.

(** ** The invariant as a state predicate *)

Definition gok (s : HState) : Prop := graph_ok (hs_fn s).

Lemma neutral_gok {A} (m : ST HState A) : graph_neutral m -> hoare gok m (fun _ => gok).
Proof.
  intros Hm s a s' Hok H. destruct (Hm _ _ _ H) as (Hs & Hc & _). apply (graph_ok_same (hs_fn s)); [done| |done].
  intros b Hb. rewrite Hc in Hb. apply (same_graph_owned (hs_fn s)); [done|]. by apply (go_current _ Hok).
Qed.

(** Blocks are never removed, keep their location, edges and terminal, and start
    without a terminal; edges keep their ends. *)
Record grows (f f' : HIRFunction) : Prop := {
  gr_block : forall b x, hf_blocks f !! b = Some x -> exists x', hf_blocks f' !! b = Some x' /\
               hb_location x' = hb_location x /\ hb_outgoing x ⊆ hb_outgoing x' /\
               b_terminal (hb_block x') = b_terminal (hb_block x);
  gr_edge : forall e ed, hf_edges f !! e = Some ed -> exists ed', hf_edges f' !! e = Some ed' /\
               e_src ed' = e_src ed /\ e_dest ed' = e_dest ed;
  gr_new : forall b x', hf_blocks f' !! b = Some x' -> hf_blocks f !! b = None ->
               b_terminal (hb_block x') = Invalid
}.

#[export] Instance grows_refl : Reflexive grows.
Proof. intros f. split; eauto 10. congruence. Qed.

#[export] Instance grows_trans : Transitive grows.
Proof.
  intros f g k [Hb1 He1 Hn1] [Hb2 He2 Hn2]. split.
  - intros b x Hx. destruct (Hb1 b x Hx) as (y & Hy & E1 & O1 & T1).
    destruct (Hb2 b y Hy) as (z & Hz & E2 & O2 & T2).
    exists z. split_and!; [done|congruence|by etrans|congruence].
  - intros e ed Hed. destruct (He1 e ed Hed) as (y & Hy & E1 & F1). destruct (He2 e y Hy) as (z & Hz & E2 & F2).
    exists z. split_and!; [done|congruence..].
  - intros b z Hz Hf. destruct (hf_blocks g !! b) as [y|] eqn:Hy; [|by apply (Hn2 b)].
    destruct (Hb2 b y Hy) as (z' & Hz' & _ & _ & T). pose proof (Hn1 b y Hy Hf). congruence.
Qed.

Lemma grows_owned f f' b : grows f f' -> owned f b -> owned f' b.
Proof. intros Hg [x Hx]. destruct (gr_block _ _ Hg b x Hx) as (y & Hy & _). by exists y. Qed.

Lemma neutral_grows f f' : neutral_fn f f' -> grows f f'.
Proof.
  intros (Hs & _ & Ht). split.
  - intros b x Hx. destruct (same_graph_owned f f' b Hs) as [x' Hx']; [by exists x|].
    exists x'. destruct (same_graph_lookup _ _ _ _ Hs Hx') as (x0 & Hx0 & [= _ E1 E2 _ _]).
    rewrite Hx in Hx0. injection Hx0 as <-. rewrite E1, E2. split_and!; try done.
    assert (E : terms f' !! b = terms f !! b) by (by rewrite Ht). unfold terms in E.
    rewrite !list_lookup_fmap, Hx, Hx' in E. by injection E.
  - intros e ed Hed. exists ed. by rewrite (sg_edges _ _ Hs).
  - intros b x' Hx' Hn. destruct (same_graph_lookup _ _ _ _ Hs Hx') as (x0 & Hx0 & _). congruence.
Qed.

(** ** Appending a block *)

Lemma find_location_some f l loc b :
  find_location f l loc = Some b -> exists x, hf_blocks f !! b = Some x /\ hb_location x = loc.
Proof.
  induction l as [|c l IH]; simpl; [done|]. destruct (hf_blocks f !! c) as [x|] eqn:Hc; [|apply IH].
  destruct (Z.eqb_spec (hb_location x) loc) as [E|]; [|apply IH]. intros [= <-]. by exists x.
Qed.

Lemma find_location_none f l loc b x :
  find_location f l loc = None -> b ∈ l -> hf_blocks f !! b = Some x -> hb_location x <> loc.
Proof.
  induction l as [|c l IH]; simpl; intros H; [by intros ?%elem_of_nil|].
  intros [<-|Hb]%elem_of_cons Hx.
  - rewrite Hx in H. by destruct (Z.eqb_spec (hb_location x) loc).
  - apply IH; [|done..]. destruct (hf_blocks f !! c) as [y|]; [|done]. by destruct (hb_location y =? loc).
Qed.

(** The function with one more block, which has no edges. *)
Lemma graph_ok_new_block f loc :
  graph_ok f -> find_location f (hf_block_list f) loc = None ->
  graph_ok (set_block_list (hf_block_list f ++ [length (hf_blocks f)])
              (set_block_order_id (wrap 16 (hf_block_order_id f + 1))
                (set_blocks (hf_blocks f ++ [new_block (hf_block_order_id f) loc]) f))).
Proof.
  intros [H1 H2 H3 H4 H5 H6 H7 H8 H9 H10 H11 H12 H13] Hnone.
  set (f' := set_block_list _ _).
  assert (Ho : forall b, owned f b -> owned f' b).
  { intros b [x Hx]. exists x. simpl. by apply lookup_app_l_Some. }
  assert (Hcase : forall b x, hf_blocks f' !! b = Some x ->
            hf_blocks f !! b = Some x \/ b = length (hf_blocks f) /\ x = new_block (hf_block_order_id f) loc).
  { intros b x Hx. simpl in Hx. apply lookup_app_Some in Hx as [Hx|[Hb Hx]]; [by left|right].
    apply list_lookup_singleton_Some in Hx as [? <-]. split; [lia|done]. }
  assert (Hnl : forall b x, hf_blocks f !! b = Some x -> hb_location x <> loc).
  { intros b x Hx. eapply find_location_none; [done| |done]. rewrite H1. apply elem_of_seq.
    apply lookup_lt_Some in Hx. lia. }
  split; simpl.
  - rewrite H1, length_app. simpl. by rewrite Nat.add_1_r, seq_S.
  - rewrite H2, length_app, wrap_add_l by lia. simpl. f_equal. lia.
  - intros b x [Hx|[-> ->]]%Hcase; [by apply H3|done].
  - intros b c x y [Hx|[-> ->]]%Hcase [Hy|[-> ->]]%Hcase E; simpl in E; try done.
    + by apply (H4 b c x y).
    + by destruct (Hnl b x Hx).
    + by destruct (Hnl c y Hy).
  - intros e ed Hed. destruct (H5 e ed Hed). auto.
  - intros b x e [Hx|[-> ->]]%Hcase Hin; [by apply (H6 b x)|by apply elem_of_nil in Hin].
  - intros b x e [Hx|[-> ->]]%Hcase Hin; [by apply (H7 b x)|by apply elem_of_nil in Hin].
  - intros e ed x y Hed Hx Hy. destruct (H5 e ed Hed) as [[x0 Hx0] [y0 Hy0]].
    apply (H8 e ed); [done|..].
    + destruct (Hcase _ _ Hx) as [?|[E _]]; [done|]. apply lookup_lt_Some in Hx0. lia.
    + destruct (Hcase _ _ Hy) as [?|[E _]]; [done|]. apply lookup_lt_Some in Hy0. lia.
  - intros b x [Hx|[-> ->]]%Hcase; [by apply (H9 b)|split; constructor].
  - intros b x c [Hx|[-> ->]]%Hcase Hc; [apply Ho, (H10 b x c); done|done].
  - eapply Forall_impl; [exact H11|auto].
  - intros b Hb. by apply Ho, H12.
  - intros b Hb. by apply Ho, H13.
Qed.

(** [m] keeps the invariant, only adds to the graph, and its result satisfies [Q]. *)
Definition grow {A} (m : ST HState A) (P : HIRFunction -> Prop) (Q : A -> HIRFunction -> Prop) : Prop :=
  forall s a s', gok s -> P (hs_fn s) -> m s = Ok (a, s') ->
    gok s' /\ grows (hs_fn s) (hs_fn s') /\ Q a (hs_fn s').

Definition starts_at (f : HIRFunction) (b : nat) (loc : Z) : Prop :=
  exists x, hf_blocks f !! b = Some x /\ hb_location x = loc.

Lemma starts_grows f f' b loc : grows f f' -> starts_at f b loc -> starts_at f' b loc.
Proof. intros Hg (x & Hx & E). destruct (gr_block _ _ Hg b x Hx) as (y & Hy & F). exists y. split; [done|]. destruct F as (-> & _). done. Qed.

Lemma starts_owned f b loc : starts_at f b loc -> owned f b.
Proof. intros (x & Hx & _). by exists x. Qed.

Lemma grow_bind {A B} (m : ST HState A) (k : A -> ST HState B) P Q R :
  grow m P Q -> (forall a, grow (k a) (Q a) R) -> grow (bind m k) P R.
Proof.
  intros Hm Hk s b s' Hok HP H. apply bind_ok in H as (a & s1 & H1 & H).
  destruct (Hm _ _ _ Hok HP H1) as (Hok1 & Hg1 & HQ). destruct (Hk a _ _ _ Hok1 HQ H) as (? & ? & ?).
  split_and!; [done|by etrans|done].
Qed.

Lemma grow_neutral {A} (m : ST HState A) P :
  graph_neutral m -> (forall f f', grows f f' -> P f -> P f') -> grow m P (fun _ => P).
Proof.
  intros Hm HP s a s' Hok Hp H. pose proof (neutral_grows _ _ (Hm _ _ _ H)) as Hg.
  split; [by eapply neutral_gok|]. split; [done|]. by apply (HP _ _ Hg).
Qed.

Lemma grow_CreateOrGetBlock loc P :
  (forall f f', grows f f' -> P f -> P f') ->
  grow (CreateOrGetBlock loc) P (fun b f => P f /\ starts_at f b loc).
Proof.
  intros HP s a s' Hok Hp H. unfold CreateOrGetBlock in H. apply bind_ok in H as (f & s1 & Hf & H).
  unfold get_fn, gets in Hf. injection Hf as <- <-.
  destruct (find_location (hs_fn s) (hf_block_list (hs_fn s)) loc) as [b|] eqn:Hfind.
  - unfold ret in H. injection H as <- <-. split; [done|]. split; [done|]. split; [done|].
    by apply find_location_some in Hfind.
  - apply bind_ok in H as ([] & s1 & H1 & H). unfold on_fn in H1. injection H1 as <-.
    unfold ret in H. injection H as <- <-. split; [by apply graph_ok_new_block|].
    assert (Hg : grows (hs_fn s) (set_block_list (hf_block_list (hs_fn s) ++ [length (hf_blocks (hs_fn s))])
              (set_block_order_id (wrap 16 (hf_block_order_id (hs_fn s) + 1))
                (set_blocks (hf_blocks (hs_fn s) ++ [new_block (hf_block_order_id (hs_fn s)) loc]) (hs_fn s))))).
    { split; simpl; [|eauto|].
      - intros b x Hx. exists x. split_and!; [by apply lookup_app_l_Some|done..].
      - intros b x' [Hx'|[_ Hx']]%lookup_app_Some Hn; [congruence|].
        by apply list_lookup_singleton_Some in Hx' as [_ <-]. }
    split; [exact Hg|]. split; [by apply (HP (hs_fn s))|].
    exists (new_block (hf_block_order_id (hs_fn s)) loc). split; [|done]. simpl.
    by rewrite lookup_app_r, Nat.sub_diag.
Qed.

Lemma grow_AppendBlock start end_ P :
  (forall f f', grows f f' -> P f -> P f') ->
  grow (AppendBlock start end_) P (fun b f => P f /\ starts_at f b start).
Proof.
  intros HP. eapply grow_bind; [by apply grow_CreateOrGetBlock|]. intros b.
  assert (Hmono : forall f f', grows f f' -> P f /\ starts_at f b start -> P f' /\ starts_at f' b start).
  { intros f f' Hg [H1 H2]. split; [by apply (HP f)|by apply (starts_grows f)]. }
  eapply grow_bind; [apply grow_neutral; [|exact Hmono]|].
  - apply neutral_if; [by apply neutral_update_block|apply neutral_ret].
  - intros [] s a s' Hok Hq H. unfold ret in H. by injection H as <- <-.
Qed.

(** ** Edges *)

Definition has_edge (f : HIRFunction) (a b : nat) : Prop :=
  exists x e ed, hf_blocks f !! a = Some x /\ e ∈ hb_outgoing x /\ hf_edges f !! e = Some ed /\
                 e_src ed = a /\ e_dest ed = b.

Lemma has_edge_grows f f' a b : grows f f' -> has_edge f a b -> has_edge f' a b.
Proof.
  intros Hg (x & e & ed & Hx & He & Hed & <- & <-).
  destruct (gr_block _ _ Hg _ x Hx) as (x' & Hx' & _ & Hsub & _).
  destruct (gr_edge _ _ Hg e ed Hed) as (ed' & Hed' & E1 & E2).
  exists x', e, ed'. split_and!; try done. by apply Hsub.
Qed.

(** The ends of the edges are untouched by [clear_dominates]. *)
Lemma clear_dominates_ends l es e :
  (fun x => (e_src x, e_dest x)) <$> clear_dominates l es !! e = (fun x => (e_src x, e_dest x)) <$> es !! e.
Proof.
  unfold clear_dominates. revert es. induction l as [|k l IH]; intros es; simpl; [done|].
  rewrite IH. destruct (decide (k = e)) as [->|Hne]; [|by rewrite list_lookup_alter_ne].
  rewrite list_lookup_alter_eq. by destruct (es !! e).
Qed.

Lemma ends_lookup (es es' : list Edge) e ed :
  (fun x => (e_src x, e_dest x)) <$> es' !! e = (fun x => (e_src x, e_dest x)) <$> es !! e ->
  es !! e = Some ed -> exists ed', es' !! e = Some ed' /\ e_src ed' = e_src ed /\ e_dest ed' = e_dest ed.
Proof. intros E Hed. rewrite Hed in E. destruct (es' !! e) as [ed'|]; [|done]. injection E as E1 E2. by exists ed'. Qed.

(** The flags of the edges play no part in the invariant. *)
Lemma graph_ok_edges f es :
  (forall e, (fun x => (e_src x, e_dest x)) <$> es !! e = (fun x => (e_src x, e_dest x)) <$> hf_edges f !! e) ->
  graph_ok f -> graph_ok (set_edges es f).
Proof.
  intros He [H1 H2 H3 H4 H5 H6 H7 H8 H9 H10 H11 H12 H13].
  split; simpl; try done.
  - intros e ed Hed. destruct (ends_lookup es (hf_edges f) e ed) as (ed' & Hed' & <- & <-); [by rewrite He|done|].
    by apply (H5 e ed').
  - intros b x e Hx Hin. destruct (H6 b x e Hx Hin) as (ed & Hed & E).
    destruct (ends_lookup _ es e ed (He e) Hed) as (ed' & Hed' & E1 & _). exists ed'. split; [done|congruence].
  - intros b x e Hx Hin. destruct (H7 b x e Hx Hin) as (ed & Hed & E).
    destruct (ends_lookup _ es e ed (He e) Hed) as (ed' & Hed' & _ & E1). exists ed'. split; [done|congruence].
  - intros e ed x y Hed Hx Hy. destruct (ends_lookup es (hf_edges f) e ed) as (ed' & Hed' & E1 & E2); [by rewrite He|done|].
    apply (H8 e ed'); [done|by rewrite E1|by rewrite E2].
Qed.

Definition append_out (e : nat) (x : HIRBlock) : HIRBlock := with_outgoing (hb_outgoing x ++ [e]) x.
Definition append_in (e : nat) (x : HIRBlock) : HIRBlock := with_incoming (hb_incoming x ++ [e]) x.

(** The function with one more edge. *)
Definition link_edge (src dest : nat) (flags : Z) (f : HIRFunction) : HIRFunction :=
  let e := length (hf_edges f) in
  set_blocks (alter (append_in e) dest (alter (append_out e) src (hf_blocks f)))
    (set_edges (hf_edges f ++ [mkEdge src dest flags]) f).

Lemma link_edge_block src dest flags f b x :
  hf_blocks (link_edge src dest flags f) !! b = Some x ->
  exists x0, hf_blocks f !! b = Some x0 /\ hb_order_id x = hb_order_id x0 /\ hb_location x = hb_location x0 /\
    hb_call_return x = hb_call_return x0 /\ b_terminal (hb_block x) = b_terminal (hb_block x0) /\
    hb_outgoing x = hb_outgoing x0 ++ (if decide (b = src) then [length (hf_edges f)] else []) /\
    hb_incoming x = hb_incoming x0 ++ (if decide (b = dest) then [length (hf_edges f)] else []).
Proof.
  unfold link_edge. simpl. intros Hx.
  destruct (decide (b = dest)) as [->|Hd].
  - rewrite list_lookup_alter_eq in Hx.
    destruct (decide (dest = src)) as [->|Hs]; [rewrite list_lookup_alter_eq in Hx|rewrite list_lookup_alter_ne in Hx by done];
      (destruct (hf_blocks f !! _) as [x0|]; [|done]); injection Hx as <-; exists x0; simpl;
      rewrite ?app_nil_r; split_and!; done.
  - rewrite list_lookup_alter_ne in Hx by done.
    destruct (decide (b = src)) as [->|Hs]; [rewrite list_lookup_alter_eq in Hx|rewrite list_lookup_alter_ne in Hx by done].
    + destruct (hf_blocks f !! _) as [x0|]; [|done]. injection Hx as <-. exists x0. simpl. rewrite ?app_nil_r. split_and!; done.
    + exists x. rewrite !app_nil_r. split_and!; done.
Qed.

Lemma link_edge_owned src dest flags f b : owned (link_edge src dest flags f) b <-> owned f b.
Proof. unfold owned, link_edge. simpl. rewrite !lookup_lt_is_Some. by rewrite !length_alter. Qed.

Lemma NoDup_snoc_if (l : list nat) n (P : Prop) `{Decision P} :
  NoDup l -> n ∉ l -> NoDup (l ++ if decide P then [n] else []).
Proof.
  intros Hl Hn. destruct (decide P); [|by rewrite app_nil_r]. apply NoDup_app. split; [done|].
  split; [|apply NoDup_singleton]. by intros x Hx ->%list_elem_of_singleton.
Qed.

Lemma graph_ok_link src dest flags f :
  graph_ok f -> owned f src -> owned f dest -> graph_ok (link_edge src dest flags f).
Proof.
  intros [H1 H2 H3 H4 H5 H6 H7 H8 H9 H10 H11 H12 H13] Hsrc Hdest.
  pose proof (link_edge_block src dest flags f) as Hb.
  pose proof (fun b => link_edge_owned src dest flags f b) as Ho.
  set (n := length (hf_edges f)) in *. set (f' := link_edge src dest flags f) in *.
  assert (He : forall e ed, hf_edges f' !! e = Some ed ->
            hf_edges f !! e = Some ed \/ e = n /\ ed = mkEdge src dest flags).
  { intros e ed Hed. unfold f', link_edge in Hed. simpl in Hed. apply lookup_app_Some in Hed as [?|[Hn Hed]]; [by left|right].
    apply list_lookup_singleton_Some in Hed as [? <-]. split; [unfold n; lia|done]. }
  assert (He' : forall e ed, hf_edges f !! e = Some ed -> hf_edges f' !! e = Some ed).
  { intros e ed Hed. by apply lookup_app_l_Some. }
  assert (Hn : hf_edges f' !! n = Some (mkEdge src dest flags)).
  { unfold f', link_edge. simpl. by rewrite lookup_app_r, Nat.sub_diag. }
  assert (Hfresh : forall e ed, hf_edges f !! e = Some ed -> e <> n).
  { intros e ed Hed ->. apply lookup_lt_Some in Hed. unfold n in Hed. lia. }
  assert (Hlen : length (hf_blocks f') = length (hf_blocks f)) by (unfold f', link_edge; simpl; by rewrite !length_alter).
  split.
  - rewrite Hlen. exact H1.
  - rewrite Hlen. exact H2.
  - intros b x Hx. destruct (Hb b x Hx) as (x0 & Hx0 & -> & _). by apply H3.
  - intros b c x y Hx Hy E. destruct (Hb b x Hx) as (x0 & Hx0 & _ & Ex & _), (Hb c y Hy) as (y0 & Hy0 & _ & Ey & _).
    apply (H4 b c x0 y0); congruence.
  - intros e ed [Hed|[-> ->]]%He; rewrite !Ho; [by apply (H5 e)|done].
  - intros b x e Hx Hin. destruct (Hb b x Hx) as (x0 & Hx0 & _ & _ & _ & _ & Eo & _). rewrite Eo in Hin.
    apply elem_of_app in Hin as [Hin|Hin].
    + destruct (H6 b x0 e Hx0 Hin) as (ed & Hed & E). exists ed. auto.
    + case_decide; [|by apply elem_of_nil in Hin]. apply list_elem_of_singleton in Hin as ->. by eexists.
  - intros b x e Hx Hin. destruct (Hb b x Hx) as (x0 & Hx0 & _ & _ & _ & _ & _ & Ei). rewrite Ei in Hin.
    apply elem_of_app in Hin as [Hin|Hin].
    + destruct (H7 b x0 e Hx0 Hin) as (ed & Hed & E). exists ed. auto.
    + case_decide; [|by apply elem_of_nil in Hin]. apply list_elem_of_singleton in Hin as ->. by eexists.
  - intros e ed x y Hed Hx Hy. destruct (Hb _ x Hx) as (x0 & Hx0 & _ & _ & _ & _ & Eo & _).
    destruct (Hb _ y Hy) as (y0 & Hy0 & _ & _ & _ & _ & _ & Ei). rewrite Eo, Ei, !elem_of_app.
    destruct (He e ed Hed) as [Hed0|[-> ->]].
    + rewrite (H8 e ed x0 y0 Hed0 Hx0 Hy0). pose proof (Hfresh e ed Hed0) as Hne.
      assert (forall b c : nat, e ∈ (if decide (b = c) then [n] else []) <-> False) as Hf.
      { intros b c. split; [|done]. destruct (decide (b = c)); [by intros ->%list_elem_of_singleton|by intros ?%elem_of_nil]. }
      by rewrite !Hf.
    + simpl. rewrite !decide_True by done. rewrite list_elem_of_singleton. tauto.
  - intros b x Hx. destruct (Hb b x Hx) as (x0 & Hx0 & _ & _ & _ & _ & Eo & Ei). destruct (H9 b x0 Hx0) as [Hno Hni].
    rewrite Eo, Ei. split; apply NoDup_snoc_if; try done; intros Hin.
    + destruct (H6 b x0 n Hx0 Hin) as (ed & Hed & _). by apply (Hfresh n ed).
    + destruct (H7 b x0 n Hx0 Hin) as (ed & Hed & _). by apply (Hfresh n ed).
  - intros b x c Hx Hc. destruct (Hb b x Hx) as (x0 & Hx0 & _ & _ & Ec & _). apply Ho, (H10 b x0); congruence.
  - eapply Forall_impl; [exact H11|]. intros b ?. by apply Ho.
  - intros b Hb0. by apply Ho, H12.
  - intros b Hb0. by apply Ho, H13.
Qed.

Lemma alter_as_insert {A} (g : A -> A) (l : list A) b x : l !! b = Some x -> <[b := g x]> l = alter g b l.
Proof.
  intros Hx. apply list_eq. intros k. destruct (decide (k = b)) as [->|Hne].
  - rewrite list_lookup_alter_eq, Hx. rewrite list_lookup_insert_eq; [done|]. by eapply lookup_lt_Some.
  - by rewrite list_lookup_insert_ne, list_lookup_alter_ne.
Qed.

Lemma update_block_alter b g s u s' :
  update_block b g s = Ok (u, s') ->
  owned (hs_fn s) b /\ s' = mkHState (hs_heap s) (set_blocks (alter g b (hf_blocks (hs_fn s))) (hs_fn s)).
Proof.
  intros H. apply update_block_inv in H as (x & Hx & ->). split; [by exists x|]. by rewrite (alter_as_insert g _ b x Hx).
Qed.

Lemma get_block_inv b s x s' : get_block b s = Ok (x, s') -> s' = s /\ hf_blocks (hs_fn s) !! b = Some x.
Proof. unfold get_block. destruct (hf_blocks (hs_fn s) !! b) as [y|] eqn:E; [|done]. by intros [= <- <-]. Qed.

Lemma AddEdge_steps src dest cond s u s' :
  AddEdge src dest cond s = Ok (u, s') ->
  let f1 := link_edge src dest (if cond then CONDITIONAL else 0) (hs_fn s) in
  hs_fn s' = f1 \/ exists l, hs_fn s' = set_edges (clear_dominates l (hf_edges f1)) f1.
Proof.
  intros H. unfold AddEdge in H. apply bind_ok in H as (d & s1 & H1 & H). apply get_block_inv in H1 as [-> Hd].
  apply bind_ok in H as (f & s1 & H1 & H). unfold get_fn, gets in H1. injection H1 as <- <-.
  apply bind_ok in H as ([] & s1 & H1 & H). unfold on_fn in H1. injection H1 as <-.
  apply bind_ok in H as ([] & s2 & H2 & H). apply update_block_alter in H2 as [_ ->].
  apply bind_ok in H as ([] & s3 & H3 & H). apply update_block_alter in H3 as [_ ->]. simpl in H.
  destruct (negb (bool_decide (hb_incoming d = []))).
  - apply bind_ok in H as (d' & s4 & H4 & H). apply get_block_inv in H4 as [-> _].
    unfold on_fn in H. injection H as <- <-. right. exists (hb_incoming d'). done.
  - unfold ret in H. injection H as <- <-. by left.
Qed.

Lemma link_edge_grows src dest flags f : grows f (link_edge src dest flags f).
Proof.
  split.
  - intros b x Hx. destruct (proj2 (link_edge_owned src dest flags f b)) as [x' Hx']; [by exists x|].
    exists x'. destruct (link_edge_block _ _ _ _ _ _ Hx') as (x0 & Hx0 & _ & El & _ & Et & Eo & _).
    rewrite Hx in Hx0. injection Hx0 as <-. rewrite El, Eo, Et. split_and!; [done..| |done].
    intros e He. apply elem_of_app. by left.
  - intros e ed Hed. exists ed. split; [by apply lookup_app_l_Some|done].
  - intros b x' Hx' Hn. destruct (link_edge_block _ _ _ _ _ _ Hx') as (x0 & Hx0 & _). congruence.
Qed.

Lemma link_edge_has src dest flags f : owned f src -> has_edge (link_edge src dest flags f) src dest.
Proof.
  intros Hs. apply (link_edge_owned src dest flags) in Hs as [x Hx].
  destruct (link_edge_block _ _ _ _ _ _ Hx) as (x0 & Hx0 & _ & _ & _ & _ & Eo & _).
  exists x, (length (hf_edges f)), (mkEdge src dest flags). split_and!; try done.
  - rewrite Eo, decide_True by done. apply elem_of_app. right. left.
  - simpl. by rewrite lookup_app_r, Nat.sub_diag.
Qed.

Lemma set_edges_grows es f :
  (forall e, (fun x => (e_src x, e_dest x)) <$> es !! e = (fun x => (e_src x, e_dest x)) <$> hf_edges f !! e) ->
  grows f (set_edges es f).
Proof.
  intros He. split; simpl; [eauto 10| |congruence]. intros e ed Hed. by apply (ends_lookup (hf_edges f) es e ed).
Qed.

Lemma grow_AddEdge src dest cond (P : HIRFunction -> Prop) :
  (forall f f', grows f f' -> P f -> P f') ->
  grow (AddEdge src dest cond) (fun f => P f /\ owned f src /\ owned f dest) (fun _ f => P f /\ has_edge f src dest).
Proof.
  intros HP s u s' Hok (Hp & Hsrc & Hdest) H. apply AddEdge_steps in H.
  set (f1 := link_edge src dest (if cond then CONDITIONAL else 0) (hs_fn s)) in H.
  assert (Hok1 : graph_ok f1) by by apply graph_ok_link.
  assert (Hg1 : grows (hs_fn s) f1) by apply link_edge_grows.
  assert (He1 : has_edge f1 src dest) by by apply link_edge_has.
  unfold gok. destruct H as [->|[l ->]].
  - split_and!; try done. by apply (HP (hs_fn s)).
  - assert (Hg2 : grows f1 (set_edges (clear_dominates l (hf_edges f1)) f1)).
    { apply set_edges_grows. intros e. apply clear_dominates_ends. }
    assert (Hg : grows (hs_fn s) (set_edges (clear_dominates l (hf_edges f1)) f1)) by (by etrans).
    split_and!; [|done|by apply (HP (hs_fn s))|by apply (has_edge_grows f1)].
    apply graph_ok_edges; [intros e; apply clear_dominates_ends|done].
Qed.

(** ** Removing an edge *)

Definition drop_out (e : nat) (x : HIRBlock) : HIRBlock := with_outgoing (filter (fun e' => e' <> e) (hb_outgoing x)) x.
Definition drop_in (e : nat) (x : HIRBlock) : HIRBlock := with_incoming (filter (fun e' => e' <> e) (hb_incoming x)) x.

Definition unlink_edge (e : nat) (ed : Edge) (f : HIRFunction) : HIRFunction :=
  set_blocks (alter (drop_in e) (e_dest ed) (alter (drop_out e) (e_src ed) (hf_blocks f))) f.

Lemma unlink_edge_block e ed f b x :
  graph_ok f -> hf_edges f !! e = Some ed -> hf_blocks (unlink_edge e ed f) !! b = Some x ->
  exists x0, hf_blocks f !! b = Some x0 /\ hb_order_id x = hb_order_id x0 /\ hb_location x = hb_location x0 /\
    hb_call_return x = hb_call_return x0 /\ b_terminal (hb_block x) = b_terminal (hb_block x0) /\
    (forall k, k ∈ hb_outgoing x <-> k ∈ hb_outgoing x0 /\ k <> e) /\
    (forall k, k ∈ hb_incoming x <-> k ∈ hb_incoming x0 /\ k <> e) /\
    (NoDup (hb_outgoing x0) -> NoDup (hb_outgoing x)) /\ (NoDup (hb_incoming x0) -> NoDup (hb_incoming x)).
Proof.
  intros Hok Hed. unfold unlink_edge. simpl. intros Hx.
  assert (Hfil : forall (l : list nat) k, k ∈ filter (fun e' => e' <> e) l <-> k ∈ l /\ k <> e).
  { intros l k. rewrite list_elem_of_filter. tauto. }
  assert (Hout : forall x0 k, hf_blocks f !! b = Some x0 -> b <> e_src ed -> k ∈ hb_outgoing x0 -> k <> e).
  { intros x0 k Hx0 Hb Hk ->. destruct (go_out f Hok b x0 e Hx0 Hk) as (ed' & Hed' & E). congruence. }
  assert (Hin : forall x0 k, hf_blocks f !! b = Some x0 -> b <> e_dest ed -> k ∈ hb_incoming x0 -> k <> e).
  { intros x0 k Hx0 Hb Hk ->. destruct (go_in f Hok b x0 e Hx0 Hk) as (ed' & Hed' & E). congruence. }
  destruct (decide (b = e_dest ed)) as [Ed|Hd];
    [rewrite Ed, list_lookup_alter_eq in Hx; rewrite <- Ed in Hx|rewrite list_lookup_alter_ne in Hx by done];
    (destruct (decide (b = e_src ed)) as [Es|Hs];
      [rewrite Es, list_lookup_alter_eq in Hx; rewrite <- Es in Hx|rewrite list_lookup_alter_ne in Hx by done]);
    (destruct (hf_blocks f !! b) as [x0|] eqn:Hx0; [|done]); injection Hx as <-; exists x0; simpl;
    (split_and!; [done..| | | |]); try (intros k; apply Hfil); try apply NoDup_filter; try done;
    intros k; split; try tauto; intros Hk; (split; [done|]); eauto.
Qed.

Lemma graph_ok_unlink e ed f : graph_ok f -> hf_edges f !! e = Some ed -> graph_ok (unlink_edge e ed f).
Proof.
  intros Hok Hed. pose proof (fun b x => unlink_edge_block e ed f b x Hok Hed) as Hb.
  assert (Hlen : length (hf_blocks (unlink_edge e ed f)) = length (hf_blocks f)) by (simpl; by rewrite !length_alter).
  assert (Ho : forall b, owned (unlink_edge e ed f) b <-> owned f b).
  { intros b. unfold owned. by rewrite !lookup_lt_is_Some, Hlen. }
  destruct Hok as [H1 H2 H3 H4 H5 H6 H7 H8 H9 H10 H11 H12 H13]. split.
  - rewrite Hlen. exact H1.
  - rewrite Hlen. exact H2.
  - intros b x Hx. destruct (Hb b x Hx) as (x0 & Hx0 & -> & _). by apply H3.
  - intros b c x y Hx Hy E. destruct (Hb b x Hx) as (x0 & Hx0 & _ & Ex & _), (Hb c y Hy) as (y0 & Hy0 & _ & Ey & _).
    apply (H4 b c x0 y0); congruence.
  - intros k kd Hk. rewrite !Ho. by apply (H5 k).
  - intros b x k Hx Hin. destruct (Hb b x Hx) as (x0 & Hx0 & _ & _ & _ & _ & Eo & _).
    destruct (proj1 (Eo k) Hin). by apply (H6 b x0).
  - intros b x k Hx Hin. destruct (Hb b x Hx) as (x0 & Hx0 & _ & _ & _ & _ & _ & Ei & _).
    destruct (proj1 (Ei k) Hin). by apply (H7 b x0).
  - intros k kd x y Hk Hx Hy. destruct (Hb _ x Hx) as (x0 & Hx0 & _ & _ & _ & _ & -> & _).
    destruct (Hb _ y Hy) as (y0 & Hy0 & _ & _ & _ & _ & _ & -> & _). by rewrite (H8 k kd x0 y0).
  - intros b x Hx. destruct (Hb b x Hx) as (x0 & Hx0 & _ & _ & _ & _ & _ & _ & Eo & Ei). destruct (H9 b x0 Hx0); auto.
  - intros b x c Hx Hc. destruct (Hb b x Hx) as (x0 & Hx0 & _ & _ & Ec & _). apply Ho, (H10 b x0); congruence.
  - eapply Forall_impl; [exact H11|]. intros b ?. by apply Ho.
  - intros b Hb0. by apply Ho, H12.
  - intros b Hb0. by apply Ho, H13.
Qed.

Lemma RemoveEdge_steps e s u s' :
  RemoveEdge e s = Ok (u, s') ->
  exists ed, hf_edges (hs_fn s) !! e = Some ed /\ s' = mkHState (hs_heap s) (unlink_edge e ed (hs_fn s)).
Proof.
  intros H. unfold RemoveEdge in H. apply bind_ok in H as (f & s1 & H1 & H).
  unfold get_fn, gets in H1. injection H1 as <- <-. destruct (hf_edges (hs_fn s) !! e) as [ed|] eqn:Hed; [|done].
  exists ed. split; [done|]. apply bind_ok in H as ([] & s1 & H1 & H). apply update_block_alter in H1 as [_ ->].
  apply update_block_alter in H as [_ ->]. done.
Qed.

(** What the removal of outgoing edges of [b] leaves of the blocks: the location
    and terminal of all of them, and every edge from another block. *)
Record shrinks (b : nat) (f f' : HIRFunction) : Prop := {
  sh_block : forall c x, hf_blocks f !! c = Some x -> exists x', hf_blocks f' !! c = Some x' /\
               hb_location x' = hb_location x /\ (c <> b -> hb_outgoing x ⊆ hb_outgoing x') /\
               b_terminal (hb_block x') = b_terminal (hb_block x);
  sh_edge : hf_edges f' = hf_edges f;
  sh_length : length (hf_blocks f') = length (hf_blocks f)
}.

#[export] Instance shrinks_refl b : Reflexive (shrinks b).
Proof. intros f. split; eauto 10. Qed.

#[export] Instance shrinks_trans b : Transitive (shrinks b).
Proof.
  intros f g k [Hb1 He1 L1] [Hb2 He2 L2]. split; [|congruence..].
  intros c x Hx. destruct (Hb1 c x Hx) as (y & Hy & E1 & O1 & T1). destruct (Hb2 c y Hy) as (z & Hz & E2 & O2 & T2).
  exists z. split_and!; [done|congruence|intros Hc; by etrans; auto|congruence].
Qed.

Lemma neutral_shrinks b f f' : neutral_fn f f' -> shrinks b f f'.
Proof.
  intros Hn. pose proof (neutral_grows _ _ Hn) as [Hb _ _]. destruct Hn as (Hs & _ & _). split; [|apply Hs|by apply same_graph_length].
  intros c x Hx. destruct (Hb c x Hx) as (x' & ? & ? & ? & ?). exists x'. split_and!; auto.
Qed.

Lemma unlink_shrinks b e ed f :
  graph_ok f -> hf_edges f !! e = Some ed -> e_src ed = b -> shrinks b f (unlink_edge e ed f).
Proof.
  intros Hok Hed <-. split; [|done|simpl; by rewrite !length_alter]. intros c x Hx.
  assert (Hc : is_Some (hf_blocks (unlink_edge e ed f) !! c)).
  { apply lookup_lt_is_Some. simpl. rewrite !length_alter. by eapply lookup_lt_Some. }
  destruct Hc as [x' Hx']. exists x'. destruct (unlink_edge_block _ _ _ _ _ Hok Hed Hx') as (x0 & Hx0 & _ & El & _ & Et & Eo & _).
  rewrite Hx in Hx0. injection Hx0 as <-. split_and!; [done..| |done].
  intros Hne k Hk. apply Eo. split; [done|]. intros ->.
  destruct (go_out f Hok c x e Hx Hk) as (ed' & Hed' & E). congruence.
Qed.

(** [m] keeps the invariant and only removes from block [b]. *)
Definition prune {A} (b : nat) (m : ST HState A) : Prop :=
  forall s a s', gok s -> m s = Ok (a, s') -> gok s' /\ shrinks b (hs_fn s) (hs_fn s').

Lemma prune_bind {A B} b (m : ST HState A) (k : A -> ST HState B) :
  prune b m -> (forall a, prune b (k a)) -> prune b (bind m k).
Proof.
  intros Hm Hk s x s' Hok H. apply bind_ok in H as (a & s1 & H1 & H).
  destruct (Hm _ _ _ Hok H1) as [Hok1 Hs1]. destruct (Hk a _ _ _ Hok1 H) as [? ?]. split; [done|by etrans].
Qed.

Lemma prune_neutral {A} b (m : ST HState A) : graph_neutral m -> prune b m.
Proof.
  intros Hm s a s' Hok H. split; [by eapply neutral_gok|]. by apply neutral_shrinks, (Hm _ _ _ H).
Qed.

Lemma prune_remove_outgoing n b : prune b (remove_outgoing n b).
Proof.
  induction n as [|n IH]; simpl.
  - apply prune_neutral. neutral.
  - intros s u s' Hok H. apply bind_ok in H as (x & s1 & H1 & H). apply get_block_inv in H1 as [-> Hx].
    destruct (hb_outgoing x) as [|e l] eqn:He; [unfold ret in H; by injection H as <- <-|].
    apply bind_ok in H as ([] & s1 & H1 & H). apply RemoveEdge_steps in H1 as (ed & Hed & ->).
    destruct (go_out _ Hok b x e Hx) as (ed' & Hed' & Hsrc); [rewrite He; left|].
    rewrite Hed in Hed'. injection Hed' as <-.
    destruct (IH (mkHState (hs_heap s) (unlink_edge e ed (hs_fn s))) u s') as [Hok' Hsh]; [by apply graph_ok_unlink|done|].
    split; [done|]. etrans; [by apply (unlink_shrinks b e ed)|exact Hsh].
Qed.
