(* ===== verification/HirTargets.v ===== *)
(** * The terminals and the edges of a function under construction

    The operations of HirFunction.v keep [graph_ok]; the composite ones of
    the builder also keep that every block a terminal links to is reached by an
    edge from the terminal's block.  [EndFunction] on a well-formed graph indexes the blocks
    by order id with successors and predecessors that mirror each other. *)

From Stdlib Require Import ZArith Lia.
From stdpp Require Import numbers base gmap list.
From S2P Require Import Prelude MachineInt IRTypes Instr UseCount InstrBuild Interp HirValues Cfg CfgProps HirFunction HirAppend.
From S2P Require Import HirTable HirBuilder HirGraph.

Local Open Scope Z_scope.
Local Open Scope svm_scope.

(** The locations for which the builder makes a block when it ends a block with
    this terminal. *)
Definition link_targets (t : Terminal) : list Z :=
  match t with
  | LinkBlock next => [next]
  | If _ then_ else_ => [GetNextLocation else_; GetNextLocation then_]
  | Switch _ cases => (fun c => GetNextLocation (snd c)) <$> cases
  | _ => []
  end.

(** Block [b] has an edge to a block that starts at [loc]. *)
Definition linked (f : HIRFunction) (b : nat) (loc : Z) : Prop :=
  exists c, has_edge f b c /\ starts_at f c loc.

Definition block_linked (f : HIRFunction) (b : nat) : Prop :=
  forall x, hf_blocks f !! b = Some x -> Forall (linked f b) (link_targets (b_terminal (hb_block x))).

Definition fn_ok (f : HIRFunction) : Prop := graph_ok f /\ forall b, block_linked f b.

Definition fok (s : HState) : Prop := fn_ok (hs_fn s).

(** Computations that keep [fn_ok], and leave the current block and the ownership of blocks. *)
Definition fkeeps {A} (m : ST HState A) : Prop := hoare fok m (fun _ => fok).

Lemma linked_grows f f' b loc : grows f f' -> linked f b loc -> linked f' b loc.
Proof.
  intros Hg (c & He & Hc). exists c. split; [by apply (has_edge_grows f)|by apply (starts_grows f)].
Qed.

Lemma block_linked_grows f f' b : grows f f' -> block_linked f b -> block_linked f' b.
Proof.
  intros Hg Hb x' Hx'. destruct (hf_blocks f !! b) as [x|] eqn:Hx.
  - destruct (gr_block _ _ Hg b x Hx) as (y & Hy & _ & _ & Ht). rewrite Hx' in Hy. injection Hy as <-.
    rewrite Ht. eapply Forall_impl; [by apply Hb|]. intros loc. by apply linked_grows.
  - rewrite (gr_new _ _ Hg b x' Hx' Hx). constructor.
Qed.

Lemma fn_ok_grows f f' : grows f f' -> graph_ok f' -> fn_ok f -> fn_ok f'.
Proof. intros Hg Hok [_ Hb]. split; [done|]. intros b. by apply (block_linked_grows f). Qed.

Lemma neutral_fkeeps {A} (m : ST HState A) : graph_neutral m -> fkeeps m.
Proof.
  intros Hm s a s' Hok H. apply (fn_ok_grows (hs_fn s)); [by apply neutral_grows, (Hm _ _ _ H)| |done].
  eapply (neutral_gok m Hm); [apply Hok|exact H].
Qed.

Lemma grow_fkeeps {A} (m : ST HState A) Q : grow m (fun _ => True) Q -> fkeeps m.
Proof.
  intros Hm s a s' Hok H. destruct (Hm s a s') as (H1 & H2 & _); [apply Hok|done..|]. by apply (fn_ok_grows (hs_fn s)).
Qed.

(** ** Ending a block *)

Definition terminal_of (f : HIRFunction) (b : nat) (t : Terminal) : Prop := terms f !! b = Some t.

Lemma terminal_of_block f b t : terminal_of f b t <-> exists x, hf_blocks f !! b = Some x /\ b_terminal (hb_block x) = t.
Proof.
  unfold terminal_of, terms. rewrite list_lookup_fmap. destruct (hf_blocks f !! b) as [x|]; simpl.
  - split; [intros [= <-]; by exists x|by intros (y & [= <-] & ->)].
  - split; [done|by intros (y & ? & _)].
Qed.

Lemma terminal_of_grows f f' b t : grows f f' -> terminal_of f b t -> terminal_of f' b t.
Proof.
  intros Hg. rewrite !terminal_of_block. intros (x & Hx & <-). destruct (gr_block _ _ Hg b x Hx) as (y & Hy & _ & _ & Ht).
  by exists y.
Qed.

Lemma SetTerminal_inv b t s u s' :
  Block_SetTerminal b t s = Ok (u, s') ->
  same_graph (hs_fn s) (hs_fn s') /\ hf_current (hs_fn s') = hf_current (hs_fn s) /\
  terms (hs_fn s') = <[b := t]> (terms (hs_fn s)) /\ owned (hs_fn s) b.
Proof.
  intros H. unfold Block_SetTerminal in H. apply bind_ok in H as ([] & s1 & H1 & H).
  apply update_block_inv in H1 as (x & Hx & ->).
  assert (Hn : graph_neutral (x <- get_block b;;
      match b_insts (hb_block x) with
      | [] => ret tt
      | p :: _ => i <- on_heap (heap_deref p);; (if i_id i =? invalid_id then ReIdInstr b else ret tt)
      end)) by (unfold ReIdInstr; neutral).
  destruct (Hn _ _ _ H) as (Hs & Hc & Ht). simpl in *. rewrite Hc, Ht. split_and!; [|done| |by exists x].
  - etrans; [|exact Hs]. split; try done. simpl. by apply (fmap_update_id _ _ b x).
  - unfold terms. simpl. by rewrite list_fmap_insert.
Qed.

(** A block has been given terminal [t] and every other block is linked. *)
Record ending (b : nat) (t : Terminal) (f : HIRFunction) : Prop := {
  ed_others : forall c, c <> b -> block_linked f c;
  ed_terminal : terminal_of f b t
}.

Lemma ending_grows b t f f' : grows f f' -> ending b t f -> ending b t f'.
Proof.
  intros Hg [H1 H2]. split; [intros c Hc; apply (block_linked_grows f); auto|by apply (terminal_of_grows f)].
Qed.

Lemma same_has_edge f f' a b : same_graph f f' -> has_edge f a b -> has_edge f' a b.
Proof.
  intros Hs (x & e & ed & Hx & He & Hed & E1 & E2).
  destruct (same_graph_owned f f' a Hs) as [x' Hx']; [by exists x|].
  destruct (same_graph_lookup _ _ _ _ Hs Hx') as (x0 & Hx0 & [= _ _ Eo _ _]).
  exists x', e, ed. rewrite (sg_edges _ _ Hs), Eo. split_and!; congruence.
Qed.

Lemma same_starts f f' b loc : same_graph f f' -> starts_at f b loc -> starts_at f' b loc.
Proof.
  intros Hs (x & Hx & E). destruct (same_graph_owned f f' b Hs) as [x' Hx']; [by exists x|].
  destruct (same_graph_lookup _ _ _ _ Hs Hx') as (x0 & Hx0 & [= _ El _ _ _]). exists x'. split; congruence.
Qed.

Lemma same_linked f f' b loc : same_graph f f' -> linked f b loc -> linked f' b loc.
Proof.
  intros Hs (c & He & Hc). exists c. split; [by apply (same_has_edge f)|by apply (same_starts f)].
Qed.

Lemma hoare_SetTerminal b t :
  hoare fok (Block_SetTerminal b t) (fun _ s => gok s /\ ending b t (hs_fn s)).
Proof.
  intros s u s' [Hok Hl] H. apply SetTerminal_inv in H as (Hs & Hc & Ht & Hb). split.
  - apply (graph_ok_same (hs_fn s)); [done| |done]. intros c. rewrite Hc. intros Hcur.
    apply (same_graph_owned (hs_fn s)); [done|]. by apply (go_current _ Hok).
  - split.
    + intros c Hne x' Hx'. destruct (same_graph_lookup _ _ _ _ Hs Hx') as (x & Hx & _).
      assert (E : terms (hs_fn s') !! c = terms (hs_fn s) !! c) by (rewrite Ht; by rewrite list_lookup_insert_ne).
      unfold terms in E. rewrite !list_lookup_fmap, Hx, Hx' in E. injection E as ->.
      eapply Forall_impl; [by apply Hl|]. intros loc. by apply same_linked.
    + unfold terminal_of. rewrite Ht. apply list_lookup_insert_eq. unfold terms. rewrite length_fmap.
      by apply lookup_lt_is_Some.
Qed.

(** Once every target of [t] is linked the function is well formed again. *)
Lemma ending_done b t f : graph_ok f -> ending b t f -> Forall (linked f b) (link_targets t) -> fn_ok f.
Proof.
  intros Hok [Ho Ht] Hl. split; [done|]. intros c. destruct (decide (c = b)) as [->|Hne]; [|by apply Ho].
  intros x Hx. apply terminal_of_block in Ht as (y & Hy & <-). congruence.
Qed.

Definition stable (P : HIRFunction -> Prop) : Prop := forall f f', grows f f' -> P f -> P f'.

Lemma stable_and P Q : stable P -> stable Q -> stable (fun f => P f /\ Q f).
Proof. intros HP HQ f f' Hg [H1 H2]. split; [by apply (HP f)|by apply (HQ f)]. Qed.
Lemma stable_linked b loc : stable (fun f => linked f b loc).
Proof. intros f f'. apply linked_grows. Qed.
Lemma stable_owned b : stable (fun f => owned f b).
Proof. intros f f'. apply grows_owned. Qed.
Lemma stable_ending b t : stable (fun f => ending b t f).
Proof. intros f f'. apply ending_grows. Qed.
Lemma stable_starts b loc : stable (fun f => starts_at f b loc).
Proof. intros f f'. apply starts_grows. Qed.
Lemma stable_true : stable (fun _ => True).
Proof. done. Qed.
#[export] Hint Resolve stable_and stable_linked stable_owned stable_ending stable_starts stable_true : graph.

Lemma grow_ret {A} (a : A) P : grow (ret a) P (fun _ => P).
Proof. intros s b s' Hok HP H. unfold ret in H. by injection H as <- <-. Qed.

Lemma grow_post {A} (m : ST HState A) P Q R : grow m P Q -> (forall a f, Q a f -> R a f) -> grow m P R.
Proof. intros Hm HQ s a s' Hok HP H. destruct (Hm _ _ _ Hok HP H) as (? & ? & ?). auto. Qed.

Lemma grow_pre {A} (m : ST HState A) P P' Q : grow m P Q -> (forall f, P' f -> P f) -> grow m P' Q.
Proof. intros Hm HP s a s' Hok Hp H. by apply (Hm _ _ _ Hok (HP _ Hp)). Qed.

(** A block at [loc] and an edge to it, then the rest. *)
Lemma grow_link {A} pre loc cond P (k : nat -> ST HState A) R :
  stable P -> (forall f, P f -> owned f pre) ->
  (forall b, grow (k b) (fun f => P f /\ linked f pre loc) R) ->
  grow (b <- AppendBlock loc 0;; AddEdge pre b cond;;; k b) P R.
Proof.
  intros HP Ho Hk. eapply grow_bind; [by apply grow_AppendBlock|]. intros b.
  eapply grow_bind; [eapply grow_pre; [apply (grow_AddEdge pre b cond (fun f => P f /\ starts_at f b loc))|]|].
  - by apply stable_and; [|apply stable_starts].
  - intros f [Hp Hs]. split_and!; [done|done|by apply Ho|by apply (starts_owned f b loc)].
  - intros []. eapply grow_pre; [apply (Hk b)|]. intros f [[Hp Hs] He]. split; [done|]. by exists b.
Qed.

Lemma hoare_EndBlock pre t :
  hoare (fun s => fok s /\ hf_current (hs_fn s) = Some pre) (EndBlock t)
    (fun _ s => gok s /\ owned (hs_fn s) pre /\ ending pre t (hs_fn s)).
Proof.
  intros s u s' [Hok Hc] H. unfold EndBlock in H. apply bind_ok in H as (c & s1 & H1 & H).
  apply current_block_run in H1 as [-> Hc']. rewrite Hc in Hc'. injection Hc' as <-.
  apply bind_ok in H as ([] & s1 & H1 & H). destruct (hoare_SetTerminal pre t s () s1 Hok H1) as [Hok1 He].
  unfold on_fn in H. injection H as _ <-. unfold gok. simpl.
  assert (Hs : same_graph (hs_fn s1) (set_current None (hs_fn s1))) by by split.
  split_and!.
  - by apply (graph_ok_same (hs_fn s1)).
  - destruct He as [_ (x & Hx & _)%terminal_of_block]. by exists x.
  - destruct He as [Ho Ht]. split; [|done]. intros b Hb x Hx.
    eapply Forall_impl; [by apply (Ho b Hb)|]. intros loc. by apply same_linked.
Qed.

(** A terminal and the edges to its targets, from the current block. *)
Lemma fkeeps_end {A} t (k : nat -> ST HState A) :
  (forall pre, grow (k pre) (fun f => owned f pre /\ ending pre t f)
                 (fun _ f => ending pre t f /\ Forall (linked f pre) (link_targets t))) ->
  fkeeps (pre <- current_block;; EndBlock t;;; k pre).
Proof.
  intros Hk s a s' Hok H. apply bind_ok in H as (pre & s1 & H1 & H). apply current_block_run in H1 as [-> Hc].
  apply bind_ok in H as (u & s1 & H1 & H). destruct (hoare_EndBlock pre t s u s1) as (Hok1 & Ho & He); [done..|].
  destruct (Hk pre s1 a s') as (Hok' & _ & He' & Hl); [done..|]. by apply (ending_done pre t).
Qed.

Lemma fkeeps_LinkBlock next :
  fkeeps (pre <- current_block;; EndBlock (LinkBlock next);;;
          next_block <- AppendBlock next 0;; AddEdge pre next_block false;;; ret next_block).
Proof.
  apply fkeeps_end. intros pre. apply (grow_link pre next false); [auto with graph|by intros f []|].
  intros b. eapply grow_post; [apply grow_ret|]. intros ? f ((_ & He) & Hl). split; [done|]. by constructor.
Qed.

Lemma fkeeps_If cond then_ else_ :
  fkeeps (pre <- current_block;; EndBlock (If cond then_ else_);;;
          else_block <- AppendBlock (GetNextLocation else_) 0;; AddEdge pre else_block true;;;
          then_block <- AppendBlock (GetNextLocation then_) 0;; AddEdge pre then_block true;;;
          ret (else_block, then_block)).
Proof.
  apply fkeeps_end. intros pre. apply (grow_link pre _ true); [auto with graph|by intros f []|]. intros b.
  apply (grow_link pre _ true); [auto with graph|by intros f [[]]|]. intros c.
  eapply grow_post; [apply grow_ret|]. intros ? f [((_ & He) & Hl) Hl']. split; [done|]. by repeat constructor.
Qed.

Lemma grow_switch_cases pre cases P :
  stable P -> (forall f, P f -> owned f pre) ->
  grow (switch_cases pre cases) P
    (fun _ f => P f /\ Forall (linked f pre) ((fun c => GetNextLocation (snd c)) <$> cases)).
Proof.
  revert P. induction cases as [|[v then_] cases IH]; intros P HP Ho; simpl.
  - eapply grow_post; [apply grow_ret|]. intros ? f Hp. by split.
  - apply (grow_link pre _ true); [done..|]. intros b.
    eapply grow_bind; [apply (IH (fun f => P f /\ linked f pre (GetNextLocation then_))); [auto with graph|intros f []; auto]|].
    intros l. eapply grow_post; [apply grow_ret|]. intros ? f [[Hp Hl] Hls]. split; [done|]. by constructor.
Qed.

Lemma fkeeps_Switch value cases :
  fkeeps (pre <- current_block;; EndBlock (Switch value cases);;; switch_cases pre cases).
Proof.
  apply fkeeps_end. intros pre. eapply grow_post; [apply grow_switch_cases; [auto with graph|by intros f []]|].
  intros ? f [[_ He] Hl]. by split.
Qed.

(** A terminal that links nothing. *)
Lemma fkeeps_EndBlock t : link_targets t = [] -> fkeeps (EndBlock t).
Proof.
  intros Ht s u s' Hok H. pose proof H as H0. unfold EndBlock in H0. apply bind_ok in H0 as (c & s1 & H1 & _).
  apply current_block_run in H1 as [_ Hc]. destruct (hoare_EndBlock c t s u s') as (Hok' & _ & He); [done..|].
  apply (ending_done c t); [done..|]. by rewrite Ht.
Qed.

(** ** The other operations *)

(** The graph depends on the blocks' graph fields only. *)
Lemma fn_ok_same f f' :
  same_graph f f' -> terms f' = terms f -> (forall b, hf_current f' = Some b -> owned f b) -> fn_ok f -> fn_ok f'.
Proof.
  intros Hs Ht Hc [Hok Hl]. split.
  - apply (graph_ok_same f); [done| |done]. intros b Hb. by apply (same_graph_owned f), Hc.
  - intros b x' Hx'. destruct (same_graph_lookup _ _ _ _ Hs Hx') as (x & Hx & _).
    assert (E : terms f' !! b = terms f !! b) by (by rewrite Ht).
    unfold terms in E. rewrite !list_lookup_fmap, Hx, Hx' in E. injection E as ->.
    eapply Forall_impl; [by apply Hl|]. intros loc. by apply same_linked.
Qed.

(** The function with another current block. *)
Lemma fn_ok_set_current b f : fn_ok f -> (forall c, b = Some c -> owned f c) -> fn_ok (set_current b f).
Proof. intros Hok Hb. by apply (fn_ok_same f). Qed.

Lemma hoare_SetCurBlock b : hoare (fun s => fok s /\ owned (hs_fn s) b) (SetCurBlock b) (fun _ => fok).
Proof.
  intros s u s' [Hok Hb] H. unfold SetCurBlock, on_fn in H. injection H as _ <-.
  apply fn_ok_set_current; [done|]. by intros c [= <-].
Qed.

Lemma hoare_grow {A} (m : ST HState A) P Q :
  grow m P Q -> hoare (fun s => fok s /\ P (hs_fn s)) m (fun a s => fok s /\ Q a (hs_fn s)).
Proof.
  intros Hm s a s' [Hok Hp] H. destruct (Hm s a s') as (H1 & H2 & H3); [apply Hok|done..|].
  split; [by apply (fn_ok_grows (hs_fn s))|done].
Qed.

Lemma hoare_AppendBlock start end_ :
  hoare fok (AppendBlock start end_) (fun b s => fok s /\ starts_at (hs_fn s) b start).
Proof.
  eapply hoare_weaken; [apply hoare_grow, (grow_AppendBlock start end_ (fun _ => True)); done|done|].
  by intros b s (? & _ & ?).
Qed.

(** [AppendBlock] or [CreateOrGetBlock], made current. *)
Lemma fkeeps_AppendBlock_current start end_ : fkeeps (b <- AppendBlock start end_;; SetCurBlock b).
Proof.
  eapply hoare_bind; [apply hoare_AppendBlock|]. intros b.
  eapply hoare_weaken; [apply (hoare_SetCurBlock b)| |done]. intros s [Hok Hs]. split; [done|by apply starts_owned in Hs].
Qed.

Lemma fkeeps_CreateOrGetBlock_current loc : fkeeps (b <- CreateOrGetBlock loc;; SetCurBlock b).
Proof.
  eapply hoare_bind.
  - eapply hoare_weaken; [apply hoare_grow, (grow_CreateOrGetBlock loc (fun _ => True)); done|done|].
    intros b s H. exact H.
  - intros b. eapply hoare_weaken; [apply (hoare_SetCurBlock b)| |done].
    intros s (Hok & _ & Hs). split; [done|by apply starts_owned in Hs].
Qed.

Lemma hoare_RegisterExternalEntryRoot b :
  hoare (fun s => fok s /\ owned (hs_fn s) b) (RegisterExternalEntryRoot b) (fun _ => fok).
Proof.
  intros s u s' [[Hok Hl] Hb] H. unfold RegisterExternalEntryRoot, on_fn in H. injection H as _ <-.
  unfold fok, fn_ok. simpl. case_decide; [done|]. split; [|exact Hl].
  destruct Hok as [H1 H2 H3 H4 H5 H6 H7 H8 H9 H10 H11 H12 H13]. split; simpl; try done.
  apply Forall_app. split; [exact H11|]. by constructor.
Qed.

(** ** The call return of a block *)

(** The invariant keeps when the call return of [b] is [c], a block of the function. *)
Lemma fn_ok_call_return b x c f :
  fn_ok f -> hf_blocks f !! b = Some x -> (forall d, c = Some d -> owned f d) ->
  fn_ok (set_blocks (<[b := with_call_return c x]> (hf_blocks f)) f).
Proof.
  intros [[H1 H2 H3 H4 H5 H6 H7 H8 H9 H10 H11 H12 H13] Hl] Hx Hc.
  set (f' := set_blocks _ f).
  assert (Hlt := lookup_lt_Some _ _ _ Hx).
  assert (Hlen : length (hf_blocks f') = length (hf_blocks f)) by apply length_insert.
  assert (Ho : forall k, owned f' k <-> owned f k).
  { intros k. unfold owned. by rewrite !lookup_lt_is_Some, Hlen. }
  assert (Hb : forall k y, hf_blocks f' !! k = Some y -> exists y0, hf_blocks f !! k = Some y0 /\
     (hb_order_id y, hb_location y, hb_outgoing y, hb_incoming y, b_terminal (hb_block y)) =
     (hb_order_id y0, hb_location y0, hb_outgoing y0, hb_incoming y0, b_terminal (hb_block y0)) /\
     (hb_call_return y = hb_call_return y0 \/ hb_call_return y = c)).
  { intros k y Hy. simpl in Hy. destruct (decide (b = k)) as [<-|Hne].
    - rewrite list_lookup_insert_eq in Hy by done. injection Hy as <-. exists x. split_and!; [done..|by right].
    - rewrite list_lookup_insert_ne in Hy by done. exists y. split_and!; [done..|by left]. }
  assert (He : forall k d, has_edge f k d -> has_edge f' k d).
  { intros k d (y & e & ed & Hy & Hin & Hed & E). destruct (proj2 (Ho k)) as [y' Hy']; [by exists y|].
    destruct (Hb k y' Hy') as (y0 & Hy0 & [= _ _ Eo _ _] & _). exists y', e, ed. rewrite Eo. split_and!; [done|congruence|done|apply E..]. }
  assert (Hs : forall k loc, starts_at f k loc -> starts_at f' k loc).
  { intros k loc (y & Hy & E). destruct (proj2 (Ho k)) as [y' Hy']; [by exists y|].
    destruct (Hb k y' Hy') as (y0 & Hy0 & [= _ El _ _ _] & _). exists y'. split; congruence. }
  split; [split|].
  - by rewrite Hlen.
  - by rewrite Hlen.
  - intros k y Hy. destruct (Hb k y Hy) as (y0 & Hy0 & [= -> _ _ _ _] & _). by apply H3.
  - intros k m y z Hy Hz E. destruct (Hb k y Hy) as (y0 & Hy0 & [= _ Ey _ _ _] & _).
    destruct (Hb m z Hz) as (z0 & Hz0 & [= _ Ez _ _ _] & _). apply (H4 k m y0 z0); congruence.
  - intros e ed Hed. rewrite !Ho. by apply (H5 e).
  - intros k y e Hy Hin. destruct (Hb k y Hy) as (y0 & Hy0 & [= _ _ E _ _] & _). rewrite E in Hin. by apply (H6 k y0).
  - intros k y e Hy Hin. destruct (Hb k y Hy) as (y0 & Hy0 & [= _ _ _ E _] & _). rewrite E in Hin. by apply (H7 k y0).
  - intros e ed y z Hed Hy Hz. destruct (Hb _ y Hy) as (y0 & Hy0 & [= _ _ -> _ _] & _).
    destruct (Hb _ z Hz) as (z0 & Hz0 & [= _ _ _ -> _] & _). by apply (H8 e ed).
  - intros k y Hy. destruct (Hb k y Hy) as (y0 & Hy0 & [= _ _ -> -> _] & _). by apply (H9 k).
  - intros k y d Hy Hd. apply Ho. destruct (Hb k y Hy) as (y0 & Hy0 & _ & [E|E]); [apply (H10 k y0); congruence|].
    apply Hc. congruence.
  - eapply Forall_impl; [exact H11|]. intros k. apply Ho.
  - intros k Hk. by apply Ho, H12.
  - intros k Hk. by apply Ho, H13.
  - intros k y Hy. destruct (Hb k y Hy) as (y0 & Hy0 & [= _ _ _ _ ->] & _).
    eapply Forall_impl; [by apply Hl|]. intros loc (d & Hd & Hst). exists d. split; [by apply He|by apply Hs].
Qed.

Lemma fok_call_return b c s u s' :
  fok s -> (forall d, c = Some d -> owned (hs_fn s) d) -> update_block b (with_call_return c) s = Ok (u, s') -> fok s'.
Proof. intros Hok Hc H. apply update_block_inv in H as (x & Hx & ->). by apply fn_ok_call_return. Qed.

Lemma neutral_call_return_target b v : graph_neutral (update_block b (with_call_return_target v)).
Proof. neutral. Qed.

Lemma fkeeps_RegisterCallReturn loc : fkeeps (RegisterCallReturn loc).
Proof.
  intros s u s' Hok H. unfold RegisterCallReturn in H. apply bind_ok in H as (cur & s1 & H1 & H).
  apply current_block_run in H1 as [-> _]. apply bind_ok in H as (t & s1 & H1 & H).
  destruct (hoare_AppendBlock loc 0 s t s1 Hok H1) as [Hok1 Ht].
  apply bind_ok in H as (x & s2 & H2 & H). apply get_block_inv in H2 as [-> _].
  apply bind_ok in H as (u2 & s2 & H2 & H). assert (fok s2) as Hok2 by (by eapply neutral_fkeeps; [apply neutral_guard|..]).
  assert (hs_fn s2 = hs_fn s1) as E by (unfold guard in H2; case_bool_decide; [by injection H2 as _ <-|done]).
  apply bind_ok in H as (u3 & s3 & H3 & H). eapply neutral_fkeeps; [apply neutral_call_return_target| |exact H].
  eapply fok_call_return; [exact Hok2| |exact H3]. intros d [= <-]. rewrite E. by apply starts_owned in Ht.
Qed.

(** ** A new function *)

Lemma graph_ok_empty ir_fast : graph_ok (empty_function ir_fast).
Proof.
  split; simpl; try done; try (intros ? ? ? ?%elem_of_nil || (intros; by rewrite lookup_nil in * )).
Qed.

Lemma fn_ok_empty ir_fast : fn_ok (empty_function ir_fast).
Proof. split; [apply graph_ok_empty|]. intros b x Hx. by destruct b. Qed.

Lemma fn_ok_set_entry b f : fn_ok f -> owned f b -> fn_ok (set_entry (Some b) f).
Proof.
  intros [[H1 H2 H3 H4 H5 H6 H7 H8 H9 H10 H11 H12 H13] Hl] Hb. split; [|exact Hl].
  split; simpl; try done. by intros c [= <-].
Qed.

Lemma HIRFunction_new_ok begin : fkeeps (HIRFunction_new begin).
Proof.
  intros s u s' Hok H. unfold HIRFunction_new in H.
  apply bind_ok in H as (entry & s1 & H1 & H). apply hoare_AppendBlock in H1 as [Hok1 He1]; [|done].
  apply bind_ok in H as (u1 & s2 & H2 & H). unfold on_fn in H2. injection H2 as _ <-.
  apply bind_ok in H as (first_ & s3 & H3 & H).
  apply (hoare_grow _ _ _ (grow_AppendBlock begin 0 _ (stable_owned entry))) in H3 as (Hok3 & Ho3 & Hs3);
    [|split; [apply fn_ok_set_entry; [exact Hok1|]|]; by apply starts_owned in He1].
  apply bind_ok in H as (u4 & s4 & H4 & H).
  apply (hoare_grow _ _ _ (grow_AddEdge entry first_ false _ (stable_starts first_ begin))) in H4 as (Hok4 & Hs4 & He4);
    [|split_and!; [exact Hok3|exact Hs3|exact Ho3|by apply starts_owned in Hs3]].
  apply bind_ok in H as (u5 & s5 & H5 & H). pose proof (SetTerminal_inv _ _ _ _ _ H5) as (Hs & _).
  apply hoare_SetTerminal in H5 as [Hg5 Hd5]; [|done].
  assert (Hok5 : fn_ok (hs_fn s5)).
  { apply (ending_done entry (LinkBlock begin)); [done..|]. constructor; [|constructor].
    exists first_. split; [by apply (same_has_edge (hs_fn s4))|by apply (same_starts (hs_fn s4))]. }
  unfold on_fn in H. injection H as _ <-. apply fn_ok_set_current; [done|].
  intros c [= <-]. apply (same_graph_owned (hs_fn s4)); [done|]. by apply starts_owned in Hs4.
Qed.

(** ** Resetting a block *)

Lemma shrinks_owned b f f' c : shrinks b f f' -> owned f c -> owned f' c.
Proof. intros Hs [x Hx]. destruct (sh_block _ _ _ Hs c x Hx) as (y & Hy & _). by exists y. Qed.

(** When [b] has no terminal its outgoing edges may go. *)
Lemma fn_ok_shrinks b f f' :
  shrinks b f f' -> graph_ok f' -> terminal_of f b Invalid -> fn_ok f -> fn_ok f' /\ terminal_of f' b Invalid.
Proof.
  intros Hs Hok Ht [_ Hl].
  assert (Hb : forall c x', hf_blocks f' !! c = Some x' -> exists x, hf_blocks f !! c = Some x /\
      hb_location x' = hb_location x /\ (c <> b -> hb_outgoing x ⊆ hb_outgoing x') /\
      b_terminal (hb_block x') = b_terminal (hb_block x)).
  { intros c x' Hx'. assert (owned f c) as [x Hx].
    { apply lookup_lt_is_Some. rewrite <- (sh_length _ _ _ Hs). by eapply lookup_lt_Some. }
    exists x. split; [done|]. destruct (sh_block _ _ _ Hs c x Hx) as (y & Hy & ?). congruence. }
  apply terminal_of_block in Ht as (z & Hz & Ht).
  split; [split; [done|]|].
  - intros c x' Hx'. destruct (Hb c x' Hx') as (x & Hx & _ & Ho & E). rewrite E.
    destruct (decide (c = b)) as [->|Hne]; [rewrite Hz in Hx; injection Hx as <-; rewrite Ht; constructor|].
    eapply Forall_impl; [by apply (Hl c x)|].
    intros loc (d & (y & e & ed & Hy & Hin & Hed & E1 & E2) & (w & Hw & Ew)).
    rewrite Hx in Hy. injection Hy as <-. exists d. split.
    + exists x', e, ed. rewrite (sh_edge _ _ _ Hs). split_and!; try done. by apply Ho.
    + destruct (sh_block _ _ _ Hs d w Hw) as (w' & Hw' & Ew' & _). exists w'. split; congruence.
  - apply terminal_of_block. destruct (sh_block _ _ _ Hs b z Hz) as (z' & Hz' & _ & _ & E). exists z'. split; [done|congruence].
Qed.

Lemma prune_keeps {A} b (m : ST HState A) :
  prune b m -> hoare (fun s => fok s /\ terminal_of (hs_fn s) b Invalid) m (fun _ s => fok s /\ terminal_of (hs_fn s) b Invalid).
Proof.
  intros Hm s a s' [Hok Ht] H. destruct (Hm s a s') as [Hg Hs]; [apply Hok|done|]. by apply (fn_ok_shrinks b (hs_fn s)).
Qed.

Lemma reset_block_ok b x : fkeeps (reset_block b x).
Proof.
  intros s u s' Hok H. unfold reset_block in H.
  apply bind_ok in H as (u1 & s1 & H1 & H). apply neutral_fkeeps in H1; [|neutral|done]. clear Hok.
  apply bind_ok in H as (u2 & s2 & H2 & H). apply neutral_fkeeps in H2; [|neutral|done]. clear H1.
  apply bind_ok in H as (u3 & s3 & H3 & H). apply hoare_SetTerminal in H3 as [Hg He]; [|done]. clear H2.
  assert (Hok3 : fok s3 /\ terminal_of (hs_fn s3) b Invalid).
  { split; [|apply He]. apply (ending_done b Invalid); [done..|constructor]. }
  apply bind_ok in H as (u4 & s4 & H4 & H). eapply prune_keeps in H4; [|apply prune_remove_outgoing|exact Hok3].
  apply bind_ok in H as (u5 & s5 & H5 & H). eapply prune_keeps in H5; [|apply prune_neutral, neutral_for_each, neutral_EraseInst|exact H4].
  apply bind_ok in H as (u6 & s6 & H6 & H). eapply prune_keeps in H6; [|apply prune_neutral; neutral|exact H5].
  unfold on_fn in H. injection H as _ <-. apply fn_ok_set_current; [apply H6|]. intros c [= <-].
  destruct H6 as [_ (y & Hy & _)%terminal_of_block]. by exists y.
Qed.

Lemma fkeeps_ResetDecodedBlock b : fkeeps (ResetDecodedBlock b).
Proof.
  assert (Hend : forall x, fkeeps (reset_block b x;;; ret true)).
  { intros x s a s' Hok H. apply bind_ok in H as (u & s1 & H1 & H). unfold ret in H. injection H as _ <-.
    by eapply reset_block_ok. }
  intros s a s' Hok H. unfold ResetDecodedBlock in H.
  apply bind_ok in H as (x & s1 & H1 & H). apply get_block_inv in H1 as [-> Hx].
  apply bind_ok in H as (f & s1 & H1 & H). unfold get_fn, gets in H1. injection H1 as <- <-.
  destruct (hb_call_return x) as [r|]; [|by eapply Hend].
  destruct (shares_call_return (hs_fn s) b r); [unfold ret in H; by injection H as _ <-|].
  apply bind_ok in H as (u1 & s1 & H1 & H). apply neutral_fkeeps in H1; [|neutral|done].
  apply bind_ok in H as (u2 & s2 & H2 & H). eapply Hend; [|exact H]. eapply fok_call_return; [exact H1| |exact H2]. done.
Qed.

(** ** The end of a function *)

Lemma filter_snoc_seq (entry : option nat) k :
  filter (fun b => entry <> Some b) (seq 0 (S k)) =
  filter (fun b => entry <> Some b) (seq 0 k) ++ (if decide (entry <> Some k) then [k] else []).
Proof. rewrite seq_S, filter_app. by f_equal. Qed.

Section Finish.
Context (es : list Edge) (blocks : list HIRBlock) (entry : option nat) (added : list nat) (f0 : HIRFunction) (h : Heap).
Hypothesis Horder : forall b x, blocks !! b = Some x -> hb_order_id x = Z.of_nat b.

(** The function with its first [k] blocks finished. *)
Definition finished (k : nat) (f : HIRFunction) : Prop :=
  f = set_blocks ((finish_block es <$> take k blocks) ++ drop k blocks)
        (set_vector ((Some <$> seq 0 k) ++ replicate (length blocks - k) None)
          (set_added (added ++ filter (fun b => entry <> Some b) (seq 0 k))
            (set_edges es (set_entry entry f0)))).

Lemma finished_step k f x :
  finished k f -> blocks !! k = Some x ->
  exists f', finished (S k) f' /\
    forall l, finish_blocks (k :: l) (mkHState h f) = finish_blocks l (mkHState h f').
Proof.
  intros -> Hx. pose proof (lookup_lt_Some _ _ _ Hx) as Hlt. eexists. split; [reflexivity|]. intros l.
  assert (Hpre : length (finish_block es <$> take k blocks) = k) by (rewrite length_fmap, length_take; lia).
  assert (Hvec : length (Some <$> seq 0 k) = k) by (by rewrite length_fmap, length_seq).
  cbn [finish_blocks]. unfold bind at 1, get_block. cbn [hs_fn hf_blocks set_blocks].
  rewrite (drop_S blocks x k Hx), lookup_app_r, Hpre, Nat.sub_diag by lia. cbn [lookup list_lookup].
  unfold bind at 1, get_fn, gets. unfold bind at 1, guard.
  rewrite (Horder k x Hx), Nat2Z.id, bool_decide_true by (simpl; rewrite length_app, Hvec, length_replicate; lia).
  unfold ret at 1, bind at 1, on_fn at 1. cbn [hs_fn hs_heap].
  assert (HV : <[k := Some k]> ((Some <$> seq 0 k) ++ replicate (length blocks - k) None)
               = (Some <$> seq 0 (S k)) ++ replicate (length blocks - S k) None).
  { rewrite insert_app_r_alt, Hvec, Nat.sub_diag by lia. rewrite seq_S, fmap_app, <- app_assoc.
    replace (length blocks - k)%nat with (S (length blocks - S k)) by lia. done. }
  unfold bind at 1. rewrite (update_block_run k _ _ x)
    by (simpl; rewrite lookup_app_r, Hpre, Nat.sub_diag by lia; done).
  assert (HB : <[k := finish_block es x]> ((finish_block es <$> take k blocks) ++ x :: drop (S k) blocks)
               = (finish_block es <$> take (S k) blocks) ++ drop (S k) blocks).
  { rewrite insert_app_r_alt, Hpre, Nat.sub_diag by lia. rewrite (take_S_r _ _ _ Hx), fmap_app, <- app_assoc. done. }
  pose proof (filter_snoc_seq entry k) as HA. unfold bind at 1. cbn [hs_fn hs_heap].
  rewrite <- HV, <- HB, HA. clear HA HV HB Hpre Hvec.
  destruct (decide (entry = Some k)) as [E|E].
  - rewrite (decide_False (P := entry <> Some k)) by (intros Hc; by apply Hc). rewrite app_nil_r.
    simpl. rewrite decide_True by done. reflexivity.
  - rewrite (decide_True (P := entry <> Some k)) by done. rewrite app_assoc.
    simpl. rewrite decide_False by done. reflexivity.
Qed.

Lemma finished_all m : forall k f,
  (k + m = length blocks)%nat -> finished k f ->
  exists f', finished (length blocks) f' /\
    finish_blocks (seq k m) (mkHState h f) = Ok (tt, mkHState h f').
Proof.
  induction m as [|m IH]; intros k f Hk Hf.
  - exists f. rewrite <- Hk, Nat.add_0_r. done.
  - destruct (lookup_lt_is_Some_2 blocks k) as [x Hx]; [lia|].
    destruct (finished_step k f x Hf Hx) as (f1 & Hf1 & Hrun).
    destruct (IH (S k) f1) as (f' & Hf' & Hrun'); [lia|done|]. exists f'. split; [done|].
    cbn [seq]. by rewrite Hrun.
Qed.
End Finish.

(** How often [b] is in [l]. *)
Definition occurrences (b : nat) (l : list nat) : nat := length (filter (fun c => c = b) l).

Lemma occurrences_cons b c l : occurrences b (c :: l) = ((if decide (c = b) then 1 else 0) + occurrences b l)%nat.
Proof. unfold occurrences. rewrite filter_cons. by destruct (decide (c = b)). Qed.

Lemma omap_occurrences (g : Edge -> nat) (es : list Edge) b l :
  occurrences b (omap (fun e => g <$> es !! e) l) =
  length (filter (fun e => g <$> es !! e = Some b) l).
Proof.
  induction l as [|e l IH]; [done|]. rewrite filter_cons. cbn [omap list_omap].
  destruct (es !! e) as [ed|]; cbn [fmap option_fmap option_map]; [|by rewrite decide_False].
  rewrite occurrences_cons, IH. destruct (decide (g ed = b)) as [E|E].
  - rewrite decide_True by congruence. done.
  - rewrite decide_False by congruence. done.
Qed.

(** The edges from [a] to [b], in the two lists that hold them. *)
Lemma edges_mirror f a b x y :
  graph_ok f -> hf_blocks f !! a = Some x -> hf_blocks f !! b = Some y ->
  filter (fun e => e_dest <$> hf_edges f !! e = Some b) (hb_outgoing x) ≡ₚ
  filter (fun e => e_src <$> hf_edges f !! e = Some a) (hb_incoming y).
Proof.
  intros Hok Hx Hy. apply NoDup_Permutation.
  - apply NoDup_filter. by apply (go_nodup f Hok a).
  - apply NoDup_filter. by apply (go_nodup f Hok b).
  - intros e. rewrite !list_elem_of_filter. split.
    + intros [Hd He]. destruct (go_out f Hok a x e Hx He) as (ed & Hed & Hs). rewrite Hed in *. simpl in *.
      injection Hd as Hd. split; [by rewrite Hs|]. apply (go_mirror f Hok e ed x y); [done|congruence|congruence|done].
    + intros [Hs He]. destruct (go_in f Hok b y e Hy He) as (ed & Hed & Hd). rewrite Hed in *. simpl in *.
      injection Hs as Hs. split; [by rewrite Hd|]. apply (go_mirror f Hok e ed x y); [done|congruence|congruence|done].
Qed.

(** What [EndFunction] leaves. *)
Record ended (f f' : HIRFunction) : Prop := {
  en_blocks : hf_blocks f' = finish_block (hf_edges f) <$> hf_blocks f;
  en_vector : hf_vector f' = Some <$> seq 0 (length (hf_blocks f));
  en_list : hf_block_list f' = [];
  en_added : hf_added f' = hf_added f ++ filter (fun b => hf_entry f <> Some b) (seq 0 (length (hf_blocks f)));
  en_entry : hf_entry f' = hf_entry f;
  en_roots : hf_external_roots f' = hf_external_roots f
}.

Lemma EndFunction_ended s :
  gok s -> Z.of_nat (length (hf_blocks (hs_fn s))) < 2 ^ 16 ->
  exists f', EndFunction s = Ok (tt, mkHState (hs_heap s) f') /\ ended (hs_fn s) f'.
Proof.
  intros Hok Hlen. destruct s as [h f]. simpl in *.
  assert (Hord : forall b x, hf_blocks f !! b = Some x -> hb_order_id x = Z.of_nat b).
  { intros b x Hx. rewrite (go_order f Hok b x Hx). apply wrap_small. apply lookup_lt_Some in Hx. lia. }
  destruct (finished_all (hf_edges f) (hf_blocks f) (hf_entry f) (hf_added f) f h Hord (length (hf_blocks f)) 0
    (set_vector (replicate (length (hf_blocks f)) None) f)) as (f' & Hf' & Hrun); [lia| |].
  { unfold finished. rewrite drop_0, Nat.sub_0_r. simpl. rewrite app_nil_r. by destruct f. }
  exists (set_block_list [] f'). split.
  - unfold EndFunction, bind, get_fn, gets, on_fn. cbn [hs_fn hs_heap].
    rewrite (go_list f Hok), (go_count f Hok), wrap_small, Nat2Z.id by lia. rewrite Hrun. done.
  - rewrite Hf', take_ge, drop_ge, app_nil_r, Nat.sub_diag by lia. split; simpl; try done. by rewrite app_nil_r.
Qed.

Lemma ended_block f f' b x' :
  ended f f' -> hf_blocks f' !! b = Some x' -> exists x, hf_blocks f !! b = Some x /\ x' = finish_block (hf_edges f) x.
Proof.
  intros He Hx. rewrite (en_blocks _ _ He), list_lookup_fmap in Hx.
  destruct (hf_blocks f !! b) as [x|]; [|done]. injection Hx as <-. by exists x.
Qed.

(** The edges of the finished function stay inside it. *)
Lemma ended_in_range f f' : graph_ok f -> ended f f' -> edges_in_range f'.
Proof.
  intros Hok He u v Huv. unfold edge, next_blocks in Huv. unfold in_range.
  assert (Hlen : length (hf_blocks f') = length (hf_blocks f)) by (by rewrite (en_blocks _ _ He), length_fmap).
  destruct (hf_blocks f' !! u) as [x'|] eqn:Hx'; [|by apply elem_of_nil in Huv].
  destruct (ended_block f f' u x' He Hx') as (x & Hx & ->). simpl in Huv.
  assert (Hown : owned f v); [|rewrite Hlen; by apply lookup_lt_is_Some].
  apply elem_of_app in Huv as [Huv|Huv].
  - apply list_elem_of_omap in Huv as (e & Hin & Hv). destruct (go_out f Hok u x e Hx Hin) as (ed & Hed & _).
    rewrite Hed in Hv. simpl in Hv. injection Hv as <-. by apply (go_edges f Hok e).
  - destruct (hb_call_return x) as [c|] eqn:Hc; [|by apply elem_of_nil in Huv].
    apply list_elem_of_singleton in Huv as ->. by apply (go_call f Hok u x).
Qed.

(** [EndFunction] on a function whose graph is well formed returns; the vector of
    blocks then holds every block at its order id, [b] is a successor of [a] as
    often as [a] is a predecessor of [b], all blocks but the entry are handed to
    the [ir::Function] once, and [ComputeRPO] returns on the result. *)
Theorem EndFunction_spec (s : HState) :
  graph_ok (hs_fn s) -> Z.of_nat (length (hf_blocks (hs_fn s))) < 2 ^ 16 ->
  exists s', EndFunction s = Ok (tt, s') /\ hs_heap s' = hs_heap s /\
    hf_vector (hs_fn s') = Some <$> seq 0 (length (hf_blocks (hs_fn s))) /\
    hf_added (hs_fn s') = hf_added (hs_fn s)
      ++ filter (fun b => hf_entry (hs_fn s) <> Some b) (seq 0 (length (hf_blocks (hs_fn s)))) /\
    (forall a b x y, hf_blocks (hs_fn s') !! a = Some x -> hf_blocks (hs_fn s') !! b = Some y ->
       occurrences b (hb_successors x) = occurrences a (hb_predecessors y)) /\
    is_Some (ComputeRPO (hs_fn s') (rpo_fuel (hs_fn s'))).
Proof.
  intros Hok Hlen. destruct (EndFunction_ended s Hok Hlen) as (f' & Hrun & He).
  exists (mkHState (hs_heap s) f'). split; [done|]. split; [done|]. simpl.
  split; [apply He|]. split; [apply He|]. split.
  - intros a b x' y' Hx' Hy'. destruct (ended_block _ _ _ _ He Hx') as (x & Hx & ->).
    destruct (ended_block _ _ _ _ He Hy') as (y & Hy & ->). simpl. rewrite !omap_occurrences.
    by rewrite (edges_mirror (hs_fn s) a b x y).
  - destruct (hf_entry f') as [entry|] eqn:Hen; [|unfold ComputeRPO; rewrite Hen; by eexists].
    assert (Hown : forall b, owned (hs_fn s) b -> in_range f' b).
    { intros b Hb. unfold in_range. rewrite (en_blocks _ _ He), length_fmap. by apply lookup_lt_is_Some. }
    destruct (rpo_returns f' entry) as (f'' & -> & _); [done| |by apply (ended_in_range (hs_fn s))|by eexists].
    constructor; [apply Hown, (go_entry _ Hok); by rewrite <- (en_entry _ _ He)|].
    rewrite (en_roots _ _ He). eapply Forall_impl; [apply (go_roots _ Hok)|exact Hown].
Qed.
