(* ===== verification/HirBuilderProps.v ===== *)
(** * What the builder promises

    Every function a front end can make with [HIRBuilder] has a well-formed graph
    whose edges agree with the terminals, by rule induction on the builder's
    operations; and what the coalescing of [AdvancePC] leaves. *)

From Stdlib Require Import ZArith Lia.
From stdpp Require Import numbers base gmap list.
From S2P Require Import Prelude MachineInt IRTypes Instr InstrBuild Interp HirValues Cfg CfgProps HirFunction HirAppend HirTable.
From S2P Require Import HirBuilder HirGraph HirTargets.

Local Open Scope Z_scope.
Local Open Scope svm_scope.

(** ** [EndFunction] returns only below 2^16 blocks *)

Lemma finish_blocks_bound (l : list nat) : forall s u s',
  finish_blocks l s = Ok (u, s') ->
  Forall (fun b => exists x, hf_blocks (hs_fn s) !! b = Some x /\
                   (Z.to_nat (hb_order_id x) < length (hf_vector (hs_fn s)))%nat) l.
Proof.
  induction l as [|b l IH]; intros s u s' H; [constructor|]. cbn [finish_blocks] in H.
  apply bind_ok in H as (x & s1 & H1 & H). apply get_block_inv in H1 as [-> Hx].
  apply bind_ok in H as (f & s1 & H1 & H). unfold get_fn, gets in H1. injection H1 as <- <-.
  apply bind_ok in H as (u1 & s1 & H1 & H). unfold guard in H1. case_bool_decide as Hlt; [|done].
  injection H1 as _ <-. constructor; [by exists x|].
  apply bind_ok in H as (u2 & s2 & H2 & H). unfold on_fn in H2. injection H2 as _ <-.
  apply bind_ok in H as (u3 & s3 & H3 & H). apply update_block_inv in H3 as (y & Hy & ->). simpl in Hy.
  rewrite Hx in Hy. injection Hy as <-.
  apply bind_ok in H as (u4 & s4 & H4 & H).
  assert (E : hf_blocks (hs_fn s4) = <[b := finish_block (hf_edges (hs_fn s)) x]> (hf_blocks (hs_fn s)) /\
              length (hf_vector (hs_fn s4)) = length (hf_vector (hs_fn s))).
  { case_decide; unfold ret, on_fn in H4; injection H4 as _ <-; simpl; by rewrite length_insert. }
  destruct E as [Eb Ev]. eapply Forall_impl; [by apply (IH _ _ _ H)|]. intros c (z & Hz & Hc).
  rewrite Ev in Hc. rewrite Eb in Hz. destruct (decide (b = c)) as [<-|Hne].
  - exists x. split; [done|]. done.
  - exists z. split; [|done]. by rewrite list_lookup_insert_ne in Hz.
Qed.

Lemma EndFunction_bound s u s' :
  gok s -> EndFunction s = Ok (u, s') -> Z.of_nat (length (hf_blocks (hs_fn s))) < 2 ^ 16.
Proof.
  intros Hok H. apply Z.nle_gt. intros Hge. unfold EndFunction in H.
  apply bind_ok in H as (f & s1 & H1 & H). unfold get_fn, gets in H1. injection H1 as <- <-.
  apply bind_ok in H as (u1 & s1 & H1 & H). unfold on_fn in H1. injection H1 as _ <-.
  apply bind_ok in H as (u2 & s2 & H2 & _). apply finish_blocks_bound in H2. simpl in H2.
  rewrite (go_list _ Hok), (go_count _ Hok), length_replicate in H2.
  set (n := Z.to_nat (wrap 16 (Z.of_nat (length (hf_blocks (hs_fn s)))))) in H2.
  pose proof (wrap_range 16 (Z.of_nat (length (hf_blocks (hs_fn s)))) ltac:(lia)) as Hr.
  rewrite Forall_forall in H2. destruct (H2 n) as (x & Hx & Hlt).
  - apply elem_of_seq. unfold n. lia.
  - rewrite (go_order _ Hok n x Hx), wrap_small in Hlt by (unfold n; lia). lia.
Qed.

(** ** The operations of the builder *)

(** An open function, or one [EndFunction] has closed. *)
Definition fn_state (f : HIRFunction) : Prop := fn_ok f \/ exists f0, fn_ok f0 /\ ended f0 f.

Record builder_ok (s : HIRBuilder) : Prop := {
  bo_functions : Forall fn_state (bl_functions s);
  bo_current : forall k, bl_current_function s = Some k -> exists f, bl_functions s !! k = Some f /\ fn_ok f
}.

Lemma builder_new_ok : builder_ok builder_new.
Proof. by split. Qed.

(** Whatever only touches the other fields. *)
Lemma builder_ok_fields s s' :
  bl_functions s' = bl_functions s -> bl_current_function s' = bl_current_function s -> builder_ok s -> builder_ok s'.
Proof. intros Ef Ec [H1 H2]. split; rewrite Ef; [done|]. by rewrite Ec. Qed.

(** A computation on the current function that keeps its invariant when the
    function satisfies [P]. *)
Lemma on_current_ok {A} (P : HIRFunction -> Prop) (m : ST HState A) s a s' :
  hoare (fun t => fok t /\ P (hs_fn t)) m (fun _ => fok) ->
  (forall k f, bl_current_function s = Some k -> bl_functions s !! k = Some f -> P f) ->
  builder_ok s -> on_current m s = Ok (a, s') -> builder_ok s'.
Proof.
  intros Hm HP [H1 H2] H. unfold on_current in H.
  destruct (bl_current_function s) as [k|] eqn:Hk; [|done].
  destruct (H2 k eq_refl) as (f & Hf & Hok). rewrite Hf in H.
  destruct (m (mkHState (bl_heap s) f)) as [[a' t]|] eqn:Hrun; [|done]. simpl in H. injection H as _ <-.
  pose proof (Hm (mkHState (bl_heap s) f) _ _ (conj Hok (HP k f eq_refl Hf)) Hrun) as Hok'.
  split; simpl.
  - apply Forall_insert; [done|]. by left.
  - intros j Hj. assert (j = k) as -> by congruence.
    exists (hs_fn t). split; [|done]. apply list_lookup_insert_eq. by eapply lookup_lt_Some.
Qed.

Lemma on_current_keeps {A} (m : ST HState A) s a s' :
  fkeeps m -> builder_ok s -> on_current m s = Ok (a, s') -> builder_ok s'.
Proof.
  intros Hm. apply (on_current_ok (fun _ => True)); [|done].
  eapply hoare_weaken; [exact Hm|by intros t []|done].
Qed.

Section Steps.
Context (cfg : BuilderConfig).

(** One call of a front end.  [SetCurBlock] is given a block of the current
    function, which the other operations return. *)
Inductive builder_step : HIRBuilder -> HIRBuilder -> Prop :=
| step_append_function start end_ s s' :
    AppendFunction cfg start end_ s = Ok (tt, s') -> builder_step s s'
| step_append_inst p op ret_type args r s s' :
    Builder_AppendInst cfg p op ret_type args s = Ok (r, s') -> builder_step s s'
| step_set_location loc s s' : SetLocation loc s = Ok (tt, s') -> builder_step s s'
| step_set_cur_block b s s' :
    (forall k f, bl_current_function s = Some k -> bl_functions s !! k = Some f -> owned f b) ->
    Builder_SetCurBlock b s = Ok (tt, s') -> builder_step s s'
| step_set_cur_block_at loc s s' : SetCurBlock_at loc s = Ok (tt, s') -> builder_step s s'
| step_reset b r s s' : Builder_ResetDecodedBlock b s = Ok (r, s') -> builder_step s s'
| step_if cond then_ else_ r s s' : Builder_If cond then_ else_ s = Ok (r, s') -> builder_step s s'
| step_switch v cases r s s' : Builder_Switch v cases s = Ok (r, s') -> builder_step s s'
| step_link next r s s' : Builder_LinkBlock next s = Ok (r, s') -> builder_step s s'
| step_external_link next s s' : Builder_ExternalLinkBlock next s = Ok (tt, s') -> builder_step s s'
| step_direct_link target s s' : Builder_RegisterExternalDirectLink target s = Ok (tt, s') -> builder_step s s'
| step_call_return loc s s' : Builder_RegisterCallReturn loc s = Ok (tt, s') -> builder_step s s'
| step_dispatcher s s' : Builder_ReturnToDispatcher cfg s = Ok (tt, s') -> builder_step s s'
| step_host s s' : Builder_ReturnToHost cfg s = Ok (tt, s') -> builder_step s s'
| step_return s s' : Builder_Return cfg s = Ok (tt, s') -> builder_step s s'
| step_end s s' : Builder_End s = Ok (tt, s') -> builder_step s s'.

Lemma builder_ok_AppendFunction start end_ s s' :
  builder_ok s -> AppendFunction cfg start end_ s = Ok (tt, s') -> builder_ok s'.
Proof.
  intros [H1 H2] H. unfold AppendFunction in H.
  apply bind_ok in H as (s0 & s1 & H3 & H). unfold get in H3. injection H3 as <- <-.
  apply bind_ok in H as ([u r] & s1 & H3 & H). apply lift_ok in H3 as [H3 ->].
  assert (Hr : fok r) by (eapply HIRFunction_new_ok; [|exact H3]; apply fn_ok_empty).
  apply bind_ok in H as (u2 & s2 & H4 & H). unfold modify in H4. injection H4 as _ <-.
  eapply on_current_keeps; [apply fkeeps_AppendBlock_current| |exact H]. split; simpl.
  - apply Forall_app. split; [done|]. constructor; [by left|constructor].
  - intros k [= <-]. exists (hs_fn r). by rewrite lookup_app_r, Nat.sub_diag.
Qed.

Lemma FoldAdvancePC_ok imm s r s' : builder_ok s -> FoldAdvancePC imm s = Ok (r, s') -> builder_ok s'.
Proof.
  intros Hok H. unfold FoldAdvancePC in H. apply bind_ok in H as (s0 & s1 & H1 & H).
  unfold get in H1. injection H1 as <- <-.
  destruct (bl_flags_since_advance s); [unfold ret in H; by injection H as _ <-|].
  destruct (bl_last_advance s) as [p|]; [|unfold ret in H; by injection H as _ <-].
  case_decide; [|unfold ret in H; by injection H as _ <-].
  apply bind_ok in H as (u & s1 & H1 & H). unfold ret in H. injection H as _ <-.
  eapply on_current_keeps; [|exact Hok|exact H1]. apply neutral_fkeeps, neutral_on_heap.
Qed.

Lemma builder_ok_AppendInst p op ret_type args s r s' :
  builder_ok s -> Builder_AppendInst cfg p op ret_type args s = Ok (r, s') -> builder_ok s'.
Proof.
  intros Hok H. unfold Builder_AppendInst in H. apply bind_ok in H as (s0 & s1 & H1 & H).
  unfold get in H1. injection H1 as <- <-. destruct (current_pair s) as [here|].
  - apply bind_ok in H as (folded & s1 & H1 & H).
    assert (Hok1 : builder_ok s1).
    { destruct (advance_imm op args) as [imm|]; [destruct (bc_advpc_coalesce cfg)|];
        [by eapply FoldAdvancePC_ok|unfold ret in H1; by injection H1 as _ <-..]. }
    destruct folded; [unfold ret in H; by injection H as _ <-|].
    apply bind_ok in H as (u2 & s2 & H2 & H).
    assert (Hok2 : builder_ok s2).
    { destruct (LeavesPendingFlags op); [unfold modify in H2|unfold ret in H2]; injection H2 as _ <-; [|done].
      by apply (builder_ok_fields s1). }
    apply bind_ok in H as (u3 & s3 & H3 & H).
    eapply on_current_keeps in H3; [|apply neutral_fkeeps, neutral_AppendInst|exact Hok2].
    apply bind_ok in H as (u4 & s4 & H4 & H). unfold ret in H. injection H as _ <-.
    destruct (op_eqb op OpCode_AdvancePC); [unfold modify in H4|unfold ret in H4]; injection H4 as _ <-; [|done].
    by apply (builder_ok_fields s3).
  - apply bind_ok in H as (u & s1 & H1 & H). unfold ret in H. injection H as _ <-.
    unfold guard in H1. destruct (op_eqb op OpCode_AdvancePC); [by injection H1 as _ <-|done].
Qed.

Lemma builder_ok_reset b s r s' : builder_ok s -> Builder_ResetDecodedBlock b s = Ok (r, s') -> builder_ok s'.
Proof.
  intros Hok H. unfold Builder_ResetDecodedBlock in H. apply bind_ok in H as (done_ & s1 & H1 & H).
  eapply on_current_keeps in H1; [|apply fkeeps_ResetDecodedBlock|exact Hok].
  destruct done_; [|unfold ret in H; by injection H as _ <-].
  apply bind_ok in H as (x & s2 & H2 & H). eapply on_current_keeps in H2; [|apply neutral_fkeeps, neutral_get_block|exact H1].
  apply bind_ok in H as (u & s3 & H3 & H). unfold modify in H3. injection H3 as _ <-.
  unfold ret in H. injection H as _ <-. by apply (builder_ok_fields s2).
Qed.

Lemma end_with_ok t defer s s' :
  link_targets t = [] -> builder_ok s -> end_with t defer s = Ok (tt, s') -> builder_ok s'.
Proof.
  intros Ht Hok H. unfold end_with in H. apply bind_ok in H as (s0 & s1 & H1 & H).
  unfold get in H1. injection H1 as <- <-. destruct (bl_current_function s) as [k|]; [|unfold ret in H; by injection H as <-].
  apply bind_ok in H as (u1 & s1 & H1 & H). eapply on_current_keeps in H1; [|by apply fkeeps_EndBlock|exact Hok].
  destruct defer; [unfold ret in H; by injection H as <-|].
  apply bind_ok in H as (u2 & s2 & H2 & H). unfold modify in H. injection H as <-.
  destruct H1 as [H3 H4]. unfold on_current in H2. destruct (bl_current_function s1) as [j|] eqn:Hj; [|done].
  destruct (H4 j eq_refl) as (f & Hf & Hfok). rewrite Hf in H2.
  destruct (EndFunction (mkHState (bl_heap s1) f)) as [[u t']|] eqn:Hrun; [|done]. simpl in H2. injection H2 as _ <-.
  split; simpl; [|done]. apply Forall_insert; [done|]. right. exists f. split; [done|].
  destruct (EndFunction_ended (mkHState (bl_heap s1) f)) as (f' & Hrun' & He); [apply Hfok|by eapply EndFunction_bound; [apply Hfok|]|].
  rewrite Hrun in Hrun'. by injection Hrun' as _ ->.
Qed.

Lemma builder_step_ok s s' : builder_step s s' -> builder_ok s -> builder_ok s'.
Proof.
  intros Hstep Hok. destruct Hstep.
  all: try solve [eapply on_current_keeps; [|exact Hok|eassumption];
         first [apply fkeeps_If | apply fkeeps_Switch | apply fkeeps_LinkBlock | by apply fkeeps_EndBlock
               | apply neutral_fkeeps, neutral_RegisterExternalDirectLink | apply fkeeps_RegisterCallReturn
               | apply fkeeps_CreateOrGetBlock_current]].
  all: try solve [by eapply end_with_ok; [|exact Hok|eassumption]].
  - by eapply builder_ok_AppendFunction.
  - by eapply builder_ok_AppendInst.
  - unfold SetLocation, modify in *. simplify_eq. by apply (builder_ok_fields s).
  - eapply (on_current_ok (fun f => owned f b)); [apply hoare_SetCurBlock|eassumption..].
  - by eapply builder_ok_reset.
Qed.

(** (C28) Whatever a front end does with the builder, the current function has a
    well-formed graph: order ids are positions, start addresses are unique, outgoing
    and incoming edge lists mirror each other, every pointer is to a block of
    the function; and every address a block's terminal links to is the start
    of a block to which the block has an edge.  Every other function is in the same
    state or was so when [EndFunction] closed it. *)
Theorem builder_reachable_ok (s : HIRBuilder) :
  rtc builder_step builder_new s ->
  (forall k f, bl_current_function s = Some k -> bl_functions s !! k = Some f ->
     graph_ok f /\
     forall b x loc, hf_blocks f !! b = Some x -> loc ∈ link_targets (b_terminal (hb_block x)) ->
       exists c, has_edge f b c /\ starts_at f c loc) /\
  Forall fn_state (bl_functions s).
Proof.
  intros H. assert (Hok : builder_ok s).
  { revert H. generalize builder_new_ok. generalize builder_new.
    intros s0 H0 H. induction H as [|x y z Hxy _ IH]; [done|]. by apply IH, (builder_step_ok x). }
  split; [|apply Hok]. intros k f Hk Hf. destruct (bo_current _ Hok k Hk) as (f' & Hf' & Hg & Hl).
  rewrite Hf in Hf'. injection Hf' as <-. split; [done|]. intros b x loc Hx Hloc.
  specialize (Hl b x Hx). rewrite Forall_forall in Hl. by apply Hl.
Qed.
End Steps.

(** ** Advancing the program counter *)

(** The width of an integer immediate; [None] for the other types. *)
Definition imm_width (t : ValueType) : option Z :=
  match t with
  | ValueType_U8 | ValueType_S8 => Some 8
  | ValueType_U16 | ValueType_S16 => Some 16
  | ValueType_U32 | ValueType_S32 => Some 32
  | ValueType_U64 | ValueType_S64 => Some 64
  | _ => None
  end.

Lemma imm_width_range t w : imm_width t = Some w -> 0 < w <= 64.
Proof. destruct t; intros [= <-]; lia. Qed.

Lemma Imm_Get_width m w : imm_width (imm_type m) = Some w -> Imm_Get m = wrap w (imm_u64 m).
Proof. unfold Imm_Get. destruct (imm_type m); by intros [= <-]. Qed.

(** What [Imm{a.Get() + b.Get(), a.GetType()}] reads back as. *)
Definition fold_imm (a b : Imm) : Imm := Imm_sized (wrap 64 (Imm_Get a + Imm_Get b)) (imm_type a).

Lemma fold_imm_get a b w :
  imm_width (imm_type a) = Some w -> Imm_Get (fold_imm a b) = wrap w (Imm_Get a + Imm_Get b).
Proof.
  intros Hw. rewrite (Imm_Get_width _ w) by done. pose proof (imm_width_range _ _ Hw).
  unfold fold_imm, Imm_sized. simpl. by rewrite !wrap_wrap by lia.
Qed.

Lemma foldl_imm_type m l : imm_type (foldl fold_imm m l) = imm_type m.
Proof. revert m. by induction l as [|x l IH]; intros m; simpl; [|rewrite IH]. Qed.

Lemma foldl_imm_get m w l :
  imm_width (imm_type m) = Some w ->
  Imm_Get (foldl fold_imm m l) = wrap w (Imm_Get m + foldr Z.add 0 (Imm_Get <$> l)).
Proof.
  revert m. induction l as [|x l IH]; intros m Hw; pose proof (imm_width_range _ _ Hw); simpl.
  - rewrite Z.add_0_r, (Imm_Get_width _ w) by done. by rewrite wrap_wrap by lia.
  - rewrite IH by done. rewrite (fold_imm_get m x w Hw), wrap_add_l by lia. by rewrite Z.add_assoc.
Qed.

(** ** The state after an [AdvancePC] that was kept *)

(** Instruction [p], an [AdvancePC] with immediate [m], is the last one kept; the
    current block is still its block and no flag producer came after it. *)
Record retained (p : Ptr) (m : Imm) (s : HIRBuilder) : Prop := {
  rt_here : exists k f b, bl_current_function s = Some k /\ bl_functions s !! k = Some f /\ hf_current f = Some b /\
              bl_last_advance_block s = Some (k, b);
  rt_last : bl_last_advance s = Some p;
  rt_flags : bl_flags_since_advance s = false;
  rt_inst : exists i, bl_heap s !! p = Some i /\ i_op i = OpCode_AdvancePC /\ i_args i !! 0%nat = Some (AImm m)
}.

Definition set_heap (h : Heap) (s : HIRBuilder) : HIRBuilder :=
  mkHIRBuilder h (bl_functions s) (bl_current_location s) (bl_current_function s) (bl_last_advance s)
    (bl_last_advance_block s) (bl_flags_since_advance s).

Definition set_advance_imm (p : Ptr) (m : Imm) (h : Heap) : Heap :=
  alter (fun i => set_args (<[0%nat := AImm m]> (i_args i)) i) p h.

Lemma SetArg_Imm_run (p : Ptr) (m m' : Imm) (h : Heap) i :
  h !! p = Some i -> i_op i = OpCode_AdvancePC -> i_args i !! 0%nat = Some (AImm m) ->
  SetArg_Imm p 0 m' h = Ok (tt, set_advance_imm p m' h).
Proof.
  intros Hi Hop Harg. pose proof (lookup_lt_Some _ _ _ Harg) as Hlt.
  unfold SetArg_Imm, DestroyArg, put_arg, default_ret, heap_update, heap_deref, modify, get, lift, guard, bind, ret, ArgAt, deref.
  rewrite Hi. simpl. rewrite Harg. simpl. rewrite Hi. simpl. rewrite lookup_insert_eq. simpl.
  rewrite bool_decide_true by (by rewrite length_insert). rewrite lookup_insert_eq. simpl.
  rewrite lookup_insert_eq. simpl. unfold Inst_HasValue. simpl. rewrite Hop. simpl.
  do 2 f_equal. unfold set_advance_imm. rewrite !insert_insert_eq.
  apply map_eq. intros q. destruct (decide (p = q)) as [<-|Hne].
  - rewrite lookup_insert_eq, lookup_alter_eq, Hi. simpl. rewrite list_insert_insert_eq. by destruct i.
  - by rewrite lookup_insert_ne, lookup_alter_ne.
Qed.

Lemma advance_get i m :
  i_op i = OpCode_AdvancePC -> i_args i !! 0%nat = Some (AImm m) -> GetArg_Imm i 0 = Ok m.
Proof.
  intros Hop Harg. unfold GetArg_Imm, get_slot, PublicIndex, ArgAt. rewrite Hop.
  destruct (i_args i); [done|]. by injection Harg as ->.
Qed.

Lemma FoldAdvancePC_run p m x s :
  retained p m s ->
  FoldAdvancePC x s = Ok (true, set_heap (set_advance_imm p (fold_imm m x) (bl_heap s)) s).
Proof.
  intros [(k & f & b & Hk & Hf & Hc & Hb) Hl Hfl (i & Hi & Hop & Harg)].
  unfold FoldAdvancePC, bind, get. rewrite Hfl, Hl, Hb. unfold current_pair. rewrite Hk, Hf. simpl. rewrite Hc. simpl.
  rewrite decide_True by done. unfold on_current. rewrite Hk, Hf. unfold on_heap, heap_deref, bind, get, lift, deref. simpl.
  rewrite Hi. simpl. rewrite (advance_get i m Hop Harg). simpl.
  rewrite (SetArg_Imm_run p m _ (bl_heap s) i) by done. simpl. unfold ret, put_function, set_heap. simpl.
  by rewrite (list_insert_id _ k f).
Qed.

Lemma retained_fold p m m' s :
  retained p m s -> retained p m' (set_heap (set_advance_imm p m' (bl_heap s)) s).
Proof.
  intros [(k & f & b & Hk & Hf & Hc & Hb) Hl Hfl (i & Hi & Hop & Harg)].
  split; [by exists k, f, b|done..|]. simpl. eexists. unfold set_advance_imm.
  rewrite lookup_alter_eq, Hi. simpl. split; [reflexivity|]. split; [done|]. simpl.
  apply list_lookup_insert_eq. by eapply lookup_lt_Some.
Qed.

Lemma set_advance_imm_twice p m m' h : set_advance_imm p m' (set_advance_imm p m h) = set_advance_imm p m' h.
Proof.
  unfold set_advance_imm. apply map_eq. intros q. destruct (decide (p = q)) as [<-|Hne].
  - rewrite !lookup_alter_eq. destruct (h !! p) as [i|]; [|done]. simpl. by rewrite list_insert_insert_eq.
  - by rewrite !lookup_alter_ne.
Qed.

Section Coalesce.
Context (cfg : BuilderConfig).
Hypothesis Hcoalesce : bc_advpc_coalesce cfg = true.

(** A run of [AdvancePC] calls; the instruction each would have made. *)
Definition advance_all (l : list (Ptr * Imm)) : ST HIRBuilder unit :=
  for_each (fun x => Builder_AppendInst cfg (fst x) OpCode_AdvancePC None [BImm (snd x)];;; ret tt) l.

Lemma advance_step p m x s :
  retained p m s ->
  Builder_AppendInst cfg (fst x) OpCode_AdvancePC None [BImm (snd x)] s
  = Ok (None, set_heap (set_advance_imm p (fold_imm m (snd x)) (bl_heap s)) s).
Proof.
  intros Hr. pose proof (FoldAdvancePC_run p m (snd x) s Hr) as Hfold.
  destruct (rt_here _ _ _ Hr) as (k & f & b & Hk & Hf & Hc & _).
  unfold Builder_AppendInst, bind at 1, get, current_pair. rewrite Hk, Hf. simpl. rewrite Hc. simpl.
  rewrite Hcoalesce. unfold bind at 1. by rewrite Hfold.
Qed.

Lemma advance_all_run p l : forall m s,
  retained p m s ->
  advance_all l s = Ok (tt, match l with
                            | [] => s
                            | _ => set_heap (set_advance_imm p (foldl fold_imm m (snd <$> l)) (bl_heap s)) s
                            end).
Proof.
  induction l as [|x l IH]; intros m s Hr; [done|].
  change (bind (bind (Builder_AppendInst cfg (fst x) OpCode_AdvancePC None [BImm (snd x)]) (fun _ => ret tt))
            (fun _ => advance_all l) s = Ok (tt, set_heap (set_advance_imm p (foldl fold_imm m (snd <$> x :: l)) (bl_heap s)) s)).
  unfold bind at 1 2. rewrite (advance_step p m x s Hr). simpl.
  rewrite (IH (fold_imm m (snd x))) by by apply (retained_fold p m). destruct l as [|y l]; [done|].
  f_equal. f_equal. unfold set_heap. simpl. f_equal. apply set_advance_imm_twice.
Qed.

(** After an [AdvancePC] was kept, every further one in the block up to the next
    flag producer is folded into it: no instruction is created, no block or
    function changes, and the kept immediate reads as the sum of all of them
    modulo 2^w, where [w] is the width of the kept immediate's own type. The sum
    is therefore exact only below 2^w. *)
Theorem advance_coalesced (p : Ptr) (m : Imm) (w : Z) (l : list (Ptr * Imm)) (s : HIRBuilder) :
  retained p m s -> imm_width (imm_type m) = Some w ->
  exists s' m' i', advance_all l s = Ok (tt, s') /\
    bl_functions s' = bl_functions s /\ dom (bl_heap s') = dom (bl_heap s) /\ retained p m' s' /\
    bl_heap s' !! p = Some i' /\ GetArg_Imm i' 0 = Ok m' /\ imm_type m' = imm_type m /\
    Imm_Get m' = (Imm_Get m + foldr Z.add 0 (Imm_Get <$> (snd <$> l))) mod 2 ^ w.
Proof.
  intros Hr Hw. rewrite (advance_all_run p l m s Hr).
  assert (Hget : forall s1 m1, retained p m1 s1 -> exists i1, bl_heap s1 !! p = Some i1 /\ GetArg_Imm i1 0 = Ok m1).
  { intros s1 m1 [_ _ _ (i & Hi & Hop & Harg)]. exists i. split; [done|].
    by apply advance_get. }
  pose proof (foldl_imm_get m w (snd <$> l) Hw) as Hsum. pose proof (foldl_imm_type m (snd <$> l)) as Hty.
  destruct l as [|x l].
  - destruct (Hget s m Hr) as (i & Hi & Hm). exists s, m, i. by split_and!.
  - pose proof (retained_fold p m (foldl fold_imm m (snd <$> x :: l)) s Hr) as Hr'.
    destruct (Hget _ _ Hr') as (i & Hi & Hm). eexists _, _, i. split; [reflexivity|].
    split_and!; try done. simpl. unfold set_advance_imm. apply dom_alter_L.
Qed.
End Coalesce.
