(* ===== verification/CfgAnalysis.v ===== *)
(** * Control-flow analysis

    Model of [CFGAnalysisPass] (runtime/ir/opts/cfg_analysis_pass.cpp) on a finished
    function: the edges that dominate their target, the back edges of a
    depth-first walk, the reverse post order, the immediate dominators by the
    algorithm of Cooper, Harvey and Kennedy, and the dominance frontiers.

    As in Cfg.v a block is its index, which is also its [order_id]; the fields the pass
    writes in the blocks ([dominator], [back_edges], [dom_frontier]) are lists by
    block index.  The vector [GetHIRBlocks()] is in index order after [EndFunction]
    (EndFunction_spec of HirTargets.v), so [blocks\[0\]] is block 0.  [BitVector]s are sets, [StackVector]s lists with the back first. *)

From Stdlib Require Import ZArith Lia.
From stdpp Require Import numbers base gmap sets list.
From S2P Require Import Prelude MachineInt IRTypes Instr InstrBuild Interp HirValues Cfg HirFunction.

Local Open Scope Z_scope.
Local Open Scope svm_scope.

Record Analysis := mkAnalysis {
  an_dominator : list (option nat);
  an_back_edges : list (list nat);
  an_frontier : list (list nat)
}.

(** ** Edges that dominate their target *)

Definition mark_dominates (es : list Edge) (x : HIRBlock) : list Edge :=
  let es := clear_dominates (hb_incoming x) es in
  match hb_incoming x with
  | [e] => alter (fun ed => mkEdge (e_src ed) (e_dest ed) (Z.lor (e_flags ed) DOMINATES)) e es
  | _ => es
  end.

(** [GetHIRBlocks()]. *)
Definition vector_blocks (f : HIRFunction) : list HIRBlock := omap (fun v => b ← v; hf_blocks f !! b) (hf_vector f).

Definition FindDominateEdges (f : HIRFunction) : HIRFunction :=
  set_edges (foldl mark_dominates (hf_edges f) (vector_blocks f)) f.

Section Analysis.
Context (f : HIRFunction).

Definition MaxBlockCount : nat := length (hf_blocks f).

Definition successors (b : nat) : list nat := default [] (hb_successors <$> hf_blocks f !! b).
Definition predecessors (b : nat) : list nat := default [] (hb_predecessors <$> hf_blocks f !! b).

(** ** Back edges *)

Record BackWalk := mkBackWalk {
  bw_visited : gset nat;
  bw_visiting : gset nat;
  bw_counts : list nat;
  bw_worklist : list nat;
  bw_back : list (list nat)
}.

(** The body of [while (!worklist.empty())]; [current] is the back of the worklist. *)
Definition back_step (w : BackWalk) (current : nat) (rest : list nat) : Res BackWalk :=
  match bw_counts w !! current with
  | None => Err EUndefined
  | Some k =>
      if (k =? length (successors current))%nat
      then Ok (mkBackWalk (bw_visited w) (bw_visiting w ∖ {[current]}) (bw_counts w) rest (bw_back w))
      else
        match successors current !! k with
        | None => Err EUndefined
        | Some successor =>
            let counts := <[current := S k]> (bw_counts w) in
            if decide (successor ∈ bw_visiting w) then
              if decide (successor ∈ current :: rest) then
                Ok (mkBackWalk (bw_visited w) (bw_visiting w) counts (current :: rest)
                      (alter (fun l => l ++ [current]) successor (bw_back w)))
              else Err EPanic
            else if decide (successor ∈ bw_visited w) then
              Ok (mkBackWalk (bw_visited w) (bw_visiting w) counts (current :: rest) (bw_back w))
            else
              Ok (mkBackWalk ({[successor]} ∪ bw_visited w) ({[successor]} ∪ bw_visiting w) counts
                    (successor :: current :: rest) (bw_back w))
        end
  end.

Fixpoint back_loop (fuel : nat) (w : BackWalk) : Res (list (list nat)) :=
  match bw_worklist w with
  | [] => Ok (bw_back w)
  | current :: rest =>
      match fuel with
      | O => Err EFuel
      | S n => w' <-? back_step w current rest; back_loop n w'
      end
  end.

(** The blocks start without back edges; [blocks\[0\]] is the entry block. *)
Definition FindBackEdges (fuel : nat) : Res (list (list nat)) :=
  back_loop fuel (mkBackWalk {[0%nat]} {[0%nat]} (replicate MaxBlockCount 0%nat) [0%nat] (replicate MaxBlockCount [])).

(** ** The reverse post order *)

Record PostWalk := mkPostWalk {
  pw_visited : gset nat;
  pw_counts : list nat;
  pw_worklist : list nat;
  pw_post : list nat
}.

Definition post_step (w : PostWalk) (current : nat) (rest : list nat) : Res PostWalk :=
  match pw_counts w !! current with
  | None => Err EUndefined
  | Some k =>
      if (k =? length (successors current))%nat
      then Ok (mkPostWalk (pw_visited w) (pw_counts w) rest (pw_post w ++ [current]))
      else
        match successors current !! k with
        | None => Err EUndefined
        | Some successor =>
            let counts := <[current := S k]> (pw_counts w) in
            if decide (successor ∈ pw_visited w)
            then Ok (mkPostWalk (pw_visited w) counts (current :: rest) (pw_post w))
            else Ok (mkPostWalk ({[successor]} ∪ pw_visited w) counts (successor :: current :: rest) (pw_post w))
        end
  end.

Fixpoint post_loop (fuel : nat) (w : PostWalk) : Res (list nat) :=
  match pw_worklist w with
  | [] => Ok (pw_post w)
  | current :: rest =>
      match fuel with
      | O => Err EFuel
      | S n => w' <-? post_step w current rest; post_loop n w'
      end
  end.

Definition reverse_post_order (fuel : nat) : Res (list nat) :=
  post <-? post_loop fuel (mkPostWalk {[0%nat]} (replicate MaxBlockCount 0%nat) [0%nat] []);
  Ok (reverse post).

(** ** Immediate dominators *)

(** [rpo_index\[block->GetOrderId()\]]; blocks outside the order have [max_block_counts]. *)
Fixpoint fill_index (i : nat) (rpo : list nat) (index : list nat) : list nat :=
  match rpo with
  | [] => index
  | b :: rpo' => fill_index (S i) rpo' (<[b := i]> index)
  end.

Definition rpo_index (rpo : list nat) : list nat := fill_index 0 rpo (replicate MaxBlockCount MaxBlockCount).

Section Dominators.
Context (index : list nat).

Definition GetDominator (doms : list (option nat)) (b : nat) : option nat := mjoin (doms !! b).

(** The inner loops of [intersect]: up the chain of [b] until its index is at most [limit]. *)
Fixpoint climb (fuel : nat) (doms : list (option nat)) (b limit : nat) : Res nat :=
  match index !! b with
  | None => Err EUndefined
  | Some i =>
      if (limit <? i)%nat then
        match fuel with
        | O => Err EFuel
        | S n => match GetDominator doms b with
                 | None => Err EPanic
                 | Some d => climb n doms d limit
                 end
        end
      else Ok b
  end.

Definition index_of (b : nat) : Res nat :=
  match index !! b with Some i => Ok i | None => Err EUndefined end.

Fixpoint intersect (fuel : nat) (doms : list (option nat)) (left right : nat) : Res nat :=
  if (left =? right)%nat then Ok left
  else
    match fuel with
    | O => Err EFuel
    | S n =>
        left_index <-? index_of left;
        right_index <-? index_of right;
        if (left_index =? MaxBlockCount)%nat || (right_index =? MaxBlockCount)%nat then Err EPanic
        else
          left <-? climb MaxBlockCount doms left right_index;
          left_index <-? index_of left;
          right <-? climb MaxBlockCount doms right left_index;
          intersect n doms left right
    end.

(** The loop over the predecessors. *)
Fixpoint meet (doms : list (option nat)) (preds : list nat) (new_dominator : option nat) : Res (option nat) :=
  match preds with
  | [] => Ok new_dominator
  | predecessor :: preds' =>
      match GetDominator doms predecessor with
      | None => meet doms preds' new_dominator
      | Some _ =>
          match new_dominator with
          | None => meet doms preds' (Some predecessor)
          | Some d => r <-? intersect MaxBlockCount doms predecessor d; meet doms preds' (Some r)
          end
      end
  end.

(** One round over the order: the dominators and [changed]. *)
Fixpoint dom_round (rpo : list nat) (doms : list (option nat)) (changed : bool) : Res (list (option nat) * bool) :=
  match rpo with
  | [] => Ok (doms, changed)
  | block :: rpo' =>
      new_dominator <-? meet doms (predecessors block) None;
      match new_dominator with
      | None => Err EPanic
      | Some d =>
          if decide (GetDominator doms block = Some d) then dom_round rpo' doms changed
          else dom_round rpo' (<[block := Some d]> doms) true
      end
  end.

(** [while (changed)]. *)
Fixpoint dom_loop (fuel : nat) (rpo : list nat) (doms : list (option nat)) : Res (list (option nat)) :=
  match fuel with
  | O => Err EFuel
  | S n =>
      r <-? dom_round rpo doms false;
      if snd r : bool then dom_loop n rpo (fst r) else Ok (fst r)
  end.

(** ** Dominance frontiers *)

(** [PushDominance(block)] up the chain of [runner] until [dom]. *)
Fixpoint push_frontier (fuel : nat) (doms : list (option nat)) (block : nat) (dom : option nat) (runner : nat)
    (frontier : list (list nat)) : Res (list (list nat)) :=
  if decide (Some runner = dom) then Ok frontier
  else
    match fuel with
    | O => Err EFuel
    | S n =>
        let frontier := alter (fun l => l ++ [block]) runner frontier in
        match GetDominator doms runner with
        | None => Err EPanic
        | Some d => push_frontier n doms block dom d frontier
        end
    end.

Fixpoint block_frontier (doms : list (option nat)) (block : nat) (preds : list nat) (frontier : list (list nat))
  : Res (list (list nat)) :=
  match preds with
  | [] => Ok frontier
  | predecessor :: preds' =>
      match GetDominator doms predecessor with
      | None => block_frontier doms block preds' frontier
      | Some _ =>
          frontier <-? push_frontier (S MaxBlockCount) doms block (GetDominator doms block) predecessor frontier;
          block_frontier doms block preds' frontier
      end
  end.

Fixpoint find_frontiers (doms : list (option nat)) (rpo : list nat) (frontier : list (list nat)) : Res (list (list nat)) :=
  match rpo with
  | [] => Ok frontier
  | block :: rpo' =>
      frontier <-? (if (1 <? length (predecessors block))%nat
                    then block_frontier doms block (predecessors block) frontier
                    else Ok frontier);
      find_frontiers doms rpo' frontier
  end.
End Dominators.

(** As many rounds as the sum of the indices allows. *)
Definition dom_fuel : nat := (MaxBlockCount * MaxBlockCount + 2)%nat.

(** One step per edge of each block and one more to leave it. *)
Definition walk_fuel : nat := sum_list_with (fun b => S (length (successors b))) (seq 0 MaxBlockCount).

Definition ComputeDominanceInformation : Res (list nat * list (option nat) * list (list nat)) :=
  rpo <-? reverse_post_order walk_fuel;
  let index := rpo_index rpo in
  doms <-? dom_loop index dom_fuel (tail rpo) (<[0%nat := Some 0%nat]> (replicate MaxBlockCount None));
  frontier <-? find_frontiers doms rpo (replicate MaxBlockCount []);
  Ok (rpo, doms, frontier).
End Analysis.

(** [CFGAnalysisPass::Run]; a null entry of the vector is dereferenced. *)
Definition CFGAnalysisPass_Run (f : HIRFunction) : Res (HIRFunction * Analysis) :=
  if bool_decide (hf_vector f = []) then Err EPanic
  else if negb (forallb (fun v => match v with Some _ => true | None => false end) (hf_vector f)) then Err EUndefined
  else
    let f := FindDominateEdges f in
    back <-? FindBackEdges f (walk_fuel f);
    r <-? ComputeDominanceInformation f;
    let '(rpo, doms, frontier) := r in
    Ok (set_rpo rpo f, mkAnalysis doms back frontier).
