(* ===== verification/Dominance.v ===== *)
(** * Dominators of a graph by rounds

    The mathematics behind the dominator computation of CfgAnalysis.v: a graph with an
    entry and an order in which every node but the entry has a predecessor before it and
    every edge that goes backwards starts at a node a forward path from its target
    reaches.  [avoids x k b]: there is a path from the entry to [b] that does
    not meet [x] and takes at most [k] backward edges.  After round [k + 1] of the
    algorithm the dominator chain of [b] holds exactly the nodes such paths meet. *)

From Stdlib Require Import ZArith Lia.
From stdpp Require Import numbers base sets list relations.
From S2P Require Import Prelude.

Section Dominance.
Context (edge : relation nat) (entry : nat) (idx : nat -> nat).

Definition reached (b : nat) : Prop := rtc edge entry b.

(** The edges that go forward in the order. *)
Definition forward (u v : nat) : Prop := edge u v /\ (idx u < idx v)%nat.

Record ordered : Prop := {
  or_inj : forall u v, reached u -> reached v -> idx u = idx v -> u = v;
  or_entry : idx entry = 0%nat;
  or_forward : forall b, reached b -> rtc forward entry b;
  or_backward : forall u v, reached u -> edge u v -> (idx v <= idx u)%nat -> rtc forward v u
}.

(** ** Paths that avoid a node *)

Inductive avoids (x : nat) : nat -> nat -> Prop :=
| avoids_entry k : entry <> x -> avoids x k entry
| avoids_forward k u v : avoids x k u -> forward u v -> v <> x -> avoids x k v
| avoids_edge k u v : avoids x k u -> edge u v -> v <> x -> avoids x (S k) v.

(** The nodes every path to [b] with at most [k] backward edges meets. *)
Definition on_all (k : nat) (b x : nat) : Prop := ~ avoids x k b.

(** [x] dominates [b]: it lies on every path from the entry. *)
Inductive path : nat -> list nat -> Prop :=
| path_entry : path entry [entry]
| path_edge u v l : path u l -> edge u v -> path v (v :: l).

Definition dominates (x b : nat) : Prop := forall l, path b l -> x ∈ l.

(** The last dominator before [b]. *)
Definition immediate_dominator (d b : nat) : Prop :=
  dominates d b /\ d <> b /\ forall x, dominates x b -> x <> b -> dominates x d.

Lemma avoids_ne x k b : avoids x k b -> b <> x.
Proof. by destruct 1. Qed.

Lemma avoids_mono x k b : avoids x k b -> forall k', (k <= k')%nat -> avoids x k' b.
Proof.
  induction 1 as [k Hx|k u v _ IH Hf Hx|k u v _ IH He Hx]; intros k' Hk.
  - by constructor.
  - eapply avoids_forward; [by apply IH|done|done].
  - destruct k' as [|k']; [lia|]. eapply avoids_edge; [apply IH; lia|done|done].
Qed.

Lemma on_all_mono k k' b x : (k <= k')%nat -> on_all k' b x -> on_all k b x.
Proof. intros Hk Hn Ha. apply Hn. by eapply avoids_mono. Qed.

Lemma on_all_self k b : on_all k b b.
Proof. intros H%avoids_ne. done. Qed.

(** Split a path to [b] at [x]. *)
Lemma avoids_split x y k b : avoids y k b -> avoids x k b \/ avoids y k x.
Proof.
  assert (Hcase : forall k v, avoids y k v -> (v <> x -> avoids x k v) -> avoids x k v \/ avoids y k x).
  { intros k' v Hv Hx. destruct (decide (v = x)) as [->|Hne]; [by right|left; auto]. }
  induction 1 as [k Hy|k u v Hu [IH|IH] Hf Hv|k u v Hu [IH|IH] He Hv].
  - apply Hcase; [by constructor|]. by constructor.
  - apply Hcase; [by eapply avoids_forward|]. intros. by eapply avoids_forward.
  - by right.
  - apply Hcase; [by eapply avoids_edge|]. intros. by eapply avoids_edge.
  - right. eapply avoids_mono; [exact IH|lia].
Qed.

Lemma on_all_trans k b x y : on_all k x y -> on_all k b x -> on_all k b y.
Proof. intros Hy Hx H. destruct (avoids_split x y k b H); auto. Qed.

(** Go on along a forward path after [x]. *)
Lemma avoids_extend x k w c : avoids x k w -> rtc forward w c -> (idx x < idx w)%nat -> avoids x k c.
Proof.
  intros Hw Hp. revert Hw. induction Hp as [w|w u c Hwu Hp IH]; intros Hw Hx; [done|].
  destruct Hwu as [He Hlt]. apply IH; [|lia]. eapply avoids_forward; [exact Hw|done|]. intros ->. lia.
Qed.

Lemma forward_idx a b : rtc forward a b -> (idx a <= idx b)%nat.
Proof. induction 1 as [|x y z [_ H] _ IH]; lia. Qed.

(** A forward path meets [x] or avoids it. *)
Lemma forward_meets x a c : rtc forward a c -> avoids x 0 a -> avoids x 0 c \/ rtc forward a x /\ rtc forward x c.
Proof.
  induction 1 as [|a u c Hau Hp IH]; intros Ha; [by left|]. destruct (decide (u = x)) as [->|Hne].
  - right. split; [by apply rtc_once|done].
  - destruct IH as [H|[H1 H2]]; [by eapply avoids_forward|by left|]. right. split; [by eapply rtc_l|done].
Qed.

Lemma avoids_reached x k b : avoids x k b -> reached b.
Proof. induction 1 as [k|k u v _ IH [He _]|k u v _ IH He]; [apply rtc_refl|..]; by eapply rtc_r. Qed.

Context (Hord : ordered).

Lemma on_all_forward k b x : reached b -> on_all k b x -> rtc forward entry x /\ rtc forward x b.
Proof.
  intros Hb Hx. pose proof (or_forward Hord b Hb) as Hp. destruct (decide (entry = x)) as [<-|Hne]; [by split; [apply rtc_refl|]|].
  destruct (forward_meets x entry b Hp) as [H|H]; [by constructor| |done]. destruct Hx. eapply avoids_mono; [exact H|lia].
Qed.

Lemma forward_reached a b : reached a -> rtc forward a b -> reached b.
Proof. intros Ha. induction 1 as [|x y z [He _] _ IH]; [done|]. apply IH. by eapply rtc_r. Qed.

Lemma on_all_reached k b x : reached b -> on_all k b x -> reached x.
Proof. intros Hb [H _]%on_all_forward; [|done]. eapply forward_reached; [apply rtc_refl|done]. Qed.

Lemma on_all_idx k b x : reached b -> on_all k b x -> (idx x <= idx b)%nat.
Proof. intros Hb [_ H]%on_all_forward; [|done]. by apply forward_idx. Qed.

Lemma on_all_lt k b x : reached b -> on_all k b x -> x <> b -> (idx x < idx b)%nat.
Proof.
  intros Hb Hx Hne. pose proof (on_all_idx k b x Hb Hx). assert (idx x <> idx b); [|lia].
  intros E. apply Hne, (or_inj Hord); [by eapply on_all_reached|done|done].
Qed.

Lemma on_all_entry k b : reached b -> on_all k b entry.
Proof. intros Hb. intros H. induction H as [k Hx|k u v Hu IH [He _]|k u v Hu IH He]; [done|..]; apply IH; by eapply avoids_reached. Qed.

(** ** Links *)

(** [w] is the last node before [c] that all paths to [c] with at most [k] backward edges
    meet. *)
Definition link (k c w : nat) : Prop :=
  w <> c /\ on_all k c w /\ forall x, x <> c -> on_all k c x -> on_all k w x.

Lemma link_lt k c w : reached c -> link k c w -> (idx w < idx c)%nat.
Proof. intros Hc (Hne & Hw & _). by eapply on_all_lt. Qed.

Lemma link_reached k c w : reached c -> link k c w -> reached w.
Proof. intros Hc (_ & Hw & _). by eapply on_all_reached. Qed.

Lemma link_on_all k c w x : link k c w -> on_all k c x <-> x = c \/ on_all k w x.
Proof.
  intros (Hne & Hw & Hl). split.
  - intros Hx. destruct (decide (x = c)); [by left|right; auto].
  - intros [->|Hx]; [apply on_all_self|by eapply on_all_trans].
Qed.

Lemma on_all_antisym k a b : reached a -> reached b -> on_all k a b -> on_all k b a -> a = b.
Proof.
  intros Ha Hb Hab Hba. apply (or_inj Hord); [done..|]. pose proof (on_all_idx _ _ _ Ha Hab).
  pose proof (on_all_idx _ _ _ Hb Hba). lia.
Qed.

Lemma link_unique k c w w' : reached c -> link k c w -> link k c w' -> w = w'.
Proof.
  intros Hc H1 H2. pose proof (link_reached _ _ _ Hc H1). pose proof (link_reached _ _ _ Hc H2).
  destruct H1 as (N1 & O1 & L1), H2 as (N2 & O2 & L2). apply (on_all_antisym k); auto.
Qed.

(** ** Dominators *)

Lemma path_avoids x b l : path b l -> x ∉ l -> avoids x (length l) b.
Proof.
  induction 1 as [|u v l Hp IH He]; intros Hx; rewrite not_elem_of_cons in Hx; destruct Hx as [Hne Hx].
  - by constructor.
  - simpl. by eapply avoids_edge; [apply IH| |].
Qed.

Lemma avoids_path x k b : avoids x k b -> exists l, path b l /\ x ∉ l.
Proof.
  induction 1 as [k Hx|k u v _ (l & Hl & Hn) [He _] Hx|k u v _ (l & Hl & Hn) He Hx].
  - exists [entry]. split; [constructor|]. by rewrite list_elem_of_singleton.
  - exists (v :: l). split; [by eapply path_edge|]. rewrite not_elem_of_cons. by split.
  - exists (v :: l). split; [by eapply path_edge|]. rewrite not_elem_of_cons. by split.
Qed.

Lemma dominates_on_all x b : dominates x b <-> forall k, on_all k b x.
Proof.
  split.
  - intros Hd k (l & Hl & Hn)%avoids_path. by apply Hn, Hd.
  - intros Ha l Hl. destruct (decide (x ∈ l)) as [|Hn]; [done|]. destruct (Ha (length l)). by apply path_avoids.
Qed.

(** Once a further backward edge adds nothing, none will. *)
Lemma stable_dominates k :
  (forall c x, reached c -> on_all k c x -> on_all (S k) c x) ->
  forall c x, reached c -> on_all k c x <-> dominates x c.
Proof.
  intros Hst c x Hc. rewrite dominates_on_all. split; [|auto]. intros Ha m Hm. revert Ha. change (~ on_all k c x).
  clear Hc. induction Hm as [m Hx|m u v Hu IH Hf Hx|m u v Hu IH He Hx]; intros Ha.
  - apply Ha. by constructor.
  - apply IH. intros Hk. apply Ha. by eapply avoids_forward.
  - apply IH. intros Hk. assert (Hv : reached v) by (eapply rtc_r; [by eapply avoids_reached|exact He]).
    apply (Hst v x Hv Ha). by eapply avoids_edge.
Qed.

(** ** The state of the algorithm *)

(** The chain of dominators of a node. *)
Inductive chain (D : nat -> option nat) : nat -> nat -> Prop :=
| chain_refl b : chain D b b
| chain_up b d x : D b = Some d -> b <> entry -> chain D d x -> chain D b x.

(** Round [k + 1], with the nodes before position [i] done. *)
Record stage (k i : nat) (D : nat -> option nat) : Prop := {
  st_entry : D entry = Some entry;
  st_done : forall c, reached c -> c <> entry -> (idx c < i)%nat -> exists w, D c = Some w /\ link k c w;
  st_old : forall c, reached c -> c <> entry -> (i <= idx c)%nat ->
    match k with O => D c = None | S k' => exists w, D c = Some w /\ link k' c w end;
  st_reached : forall c d, D c = Some d -> reached c
}.

Lemma st_old_link k i D c d :
  stage k i D -> reached c -> c <> entry -> (i <= idx c)%nat -> D c = Some d -> exists k', k = S k' /\ link k' c d.
Proof.
  intros Hst Hc Hne Hle Hd. pose proof (st_old _ _ _ Hst c Hc Hne Hle) as Ho. destruct k as [|k']; [congruence|].
  destruct Ho as (w & Hw & Hl). exists k'. split; [done|congruence].
Qed.

Lemma avoids_inv x k b :
  avoids x k b -> b = entry \/ (exists u, avoids x k u /\ forward u b) \/ exists k' u, k = S k' /\ avoids x k' u /\ edge u b.
Proof. inversion 1; subst; eauto 10. Qed.

Lemma entry_idx c : reached c -> idx c = 0%nat -> c = entry.
Proof. intros Hc E. apply (or_inj Hord); [done|apply rtc_refl|]. by rewrite (or_entry Hord). Qed.

Lemma not_entry_idx c : reached c -> c <> entry -> (0 < idx c)%nat.
Proof. intros Hc Hne. assert (idx c <> 0%nat); [|lia]. intros E. by apply Hne, entry_idx. Qed.

Section Stage.
Context (k i : nat) (D : nat -> option nat) (Hst : stage k i D) (Hi : (0 < i)%nat).

Lemma chain_entry x : chain D entry x <-> x = entry.
Proof. split; [by inversion 1|intros ->; constructor]. Qed.

Lemma chain_step c d x : D c = Some d -> c <> entry -> chain D c x <-> x = c \/ chain D d x.
Proof.
  intros Hd Hne. split.
  - inversion 1; simplify_eq; auto.
  - intros [->|Hx]; [constructor|by eapply chain_up].
Qed.

(** The chain of a finished node. *)
Lemma chain_done c x : reached c -> (idx c < i)%nat -> chain D c x <-> on_all k c x.
Proof.
  remember (idx c) as n eqn:En. revert c En x. induction n as [n IH] using lt_wf_ind. intros c -> x Hc Hlt.
  destruct (decide (c = entry)) as [->|Hne].
  - rewrite chain_entry. split; [intros ->; apply on_all_self|]. intros Hx.
    apply entry_idx; [by eapply on_all_reached|]. pose proof (on_all_idx _ _ _ Hc Hx). rewrite (or_entry Hord) in *. lia.
  - destruct (st_done _ _ _ Hst c Hc Hne Hlt) as (w & Hw & Hl). pose proof (link_lt _ _ _ Hc Hl).
    rewrite (chain_step c w) by done. rewrite (link_on_all k c w) by done.
    by rewrite (IH (idx w)) by (try done; try lia; by eapply link_reached).
Qed.

(** The chain of a node that is still to be visited, down to the finished ones. *)
Lemma chain_old k' p :
  k = S k' -> reached p -> (i <= idx p)%nat ->
  exists w, reached w /\ (idx w < i)%nat /\ on_all k' p w /\
    (forall x, (idx x < i)%nat -> on_all k' p x -> on_all k' w x) /\
    (forall x, (idx x < i)%nat -> chain D p x <-> on_all k w x).
Proof.
  intros Ek. remember (idx p) as n eqn:En. revert p En. induction n as [n IH] using lt_wf_ind. intros p -> Hp Hge.
  assert (Hne : p <> entry) by (intros ->; rewrite (or_entry Hord) in Hge; lia).
  pose proof (st_old _ _ _ Hst p Hp Hne Hge) as Ho. rewrite Ek in Ho. destruct Ho as (w0 & Hw0 & Hl).
  pose proof (link_lt _ _ _ Hp Hl) as Hlt. pose proof (link_reached _ _ _ Hp Hl) as Hr0.
  assert (Hup : forall x, (idx x < i)%nat -> (chain D p x <-> chain D w0 x) /\ (on_all k' p x <-> on_all k' w0 x)).
  { intros x Hx. rewrite (chain_step p w0), (link_on_all k' p w0) by done.
    assert (x <> p) by (intros ->; lia). tauto. }
  destruct (Nat.lt_ge_cases (idx w0) i) as [Hw|Hw].
  - exists w0. split_and!; [done..|apply Hl| |].
    + intros x Hx. apply Hup; done.
    + intros x Hx. destruct (Hup x Hx) as [-> _]. by apply chain_done.
  - destruct (IH (idx w0) Hlt w0 eq_refl Hr0 Hw) as (w & H1 & H2 & H3 & H4 & H5). exists w. split_and!; try done.
    + destruct (Hup w H2) as [_ ->]. done.
    + intros x Hx Hpx. apply H4; [done|]. by apply Hup.
    + intros x Hx. destruct (Hup x Hx) as [-> _]. by apply H5.
Qed.

Context (b : nat) (Hb : reached b) (Hne : b <> entry) (Hbi : idx b = i).

(** On the chains of all predecessors that have a dominator. *)
Definition common (x : nat) : Prop := forall p, edge p b -> is_Some (D p) -> chain D p x.

Lemma forward_pred : exists u, reached u /\ forward u b /\ is_Some (D u).
Proof.
  pose proof (or_forward Hord b Hb) as Hp. apply rtc_inv_r in Hp as [E|(u & Hu & Hub)]; [by destruct Hne|].
  assert (Hr : reached u) by (eapply forward_reached; [apply rtc_refl|exact Hu]). exists u. split_and!; [done..|].
  destruct (decide (u = entry)) as [->|Hn]; [rewrite (st_entry _ _ _ Hst); by eexists|].
  destruct Hub as [_ Hlt]. destruct (st_done _ _ _ Hst u Hr Hn) as (w & Hw & _); [lia|]. rewrite Hw. by eexists.
Qed.

Lemma common_lt x : common x -> (idx x < i)%nat.
Proof.
  intros Hx. destruct forward_pred as (u & Hu & [He Hlt] & Hs). specialize (Hx u He Hs).
  apply chain_done in Hx; [|done|lia]. pose proof (on_all_idx _ _ _ Hu Hx). lia.
Qed.

Lemma common_on_all_1 x : common x -> on_all k b x.
Proof.
  intros Hx Ha. pose proof (common_lt x Hx) as Hxi.
  assert (Hsome : forall u, reached u -> (idx u < i)%nat -> is_Some (D u)).
  { intros u Hu Hlt. destruct (decide (u = entry)) as [->|Hn]; [rewrite (st_entry _ _ _ Hst); by eexists|].
    destruct (st_done _ _ _ Hst u Hu Hn Hlt) as (w & -> & _). by eexists. }
  destruct (avoids_inv x k b Ha) as [?|[(u & Hu & He & Hlt)|(k0 & u & Ek & Hu & He)]]; [done|..];
    pose proof (avoids_reached _ _ _ Hu) as Hr.
  - assert (Hc : chain D u x) by (apply Hx; [done|]; apply Hsome; [done|lia]). apply chain_done in Hc; [|done|lia]. done.
  - destruct (Nat.lt_ge_cases (idx u) i) as [Hlt|Hge].
    + assert (Hc : chain D u x) by (apply Hx; [done|]; by apply Hsome). apply chain_done in Hc; [|done..].
      apply (on_all_mono k0 k u x ltac:(lia) Hc). done.
    + assert (Hn : u <> entry) by (intros ->; rewrite (or_entry Hord) in Hge; lia).
      assert (Hc : chain D u x).
      { apply Hx; [done|]. pose proof (st_old _ _ _ Hst u Hr Hn Hge) as Ho. rewrite Ek in Ho.
        destruct Ho as (w0 & -> & _). by eexists. }
      destruct (chain_old k0 u Ek Hr Hge) as (w & _ & _ & Hw & _ & H5). apply H5 in Hc; [|done].
      apply (on_all_trans k0 u w x); [|done|done]. eapply on_all_mono; [|exact Hc]. lia.
Qed.

(** A node before [b] on all paths to a later predecessor has a forward path to [b]. *)
Lemma before_target w p k' : reached p -> edge p b -> (i <= idx p)%nat -> (idx w < i)%nat -> on_all k' p w -> rtc forward w b.
Proof.
  intros Hp He Hge Hw Ha. destruct (decide (w = entry)) as [->|Hn]; [by apply (or_forward Hord)|].
  destruct (forward_meets w entry b) as [H|[_ H]]; [by apply (or_forward Hord)|by constructor| |done].
  destruct Ha. eapply avoids_mono; [|apply Nat.le_0_l]. apply (avoids_extend w 0 b p H); [|lia].
  apply (or_backward Hord); [done..|lia].
Qed.

Lemma common_on_all_2 x : on_all k b x -> x <> b -> common x.
Proof.
  intros Hx Hxb p He [d Hd]. pose proof (st_reached _ _ _ Hst p d Hd) as Hp.
  pose proof (on_all_lt _ _ _ Hb Hx Hxb) as Hlt. destruct (Nat.lt_ge_cases (idx p) i) as [Hpi|Hpi].
  - apply chain_done; [done..|]. intros Ha. apply Hx. eapply avoids_forward; [exact Ha| |done]. split; [done|lia].
  - assert (Hn : p <> entry) by (intros ->; rewrite (or_entry Hord) in Hpi; lia).
    destruct (st_old_link k i D p d Hst Hp Hn Hpi Hd) as (k' & Ek & _).
    destruct (chain_old k' p Ek Hp Hpi) as (w & Hw & Hwi & Hwp & Hmax & Hch). apply Hch; [lia|].
    assert (Hxp : on_all k' p x) by (intros Ha; apply Hx; rewrite Ek; by eapply avoids_edge).
    destruct (decide (x = w)) as [->|Hxw]; [apply on_all_self|]. intros Ha. apply Hx.
    assert (Hxlt : (idx x < idx w)%nat) by (apply (on_all_lt k' w x); [done|apply Hmax; [lia|done]|done]).
    apply (avoids_extend x _ w); [done| |done]. by apply (before_target w p k').
Qed.

(** The bottom of the common chain is the link of this round. *)
Lemma common_link z : reached z -> (forall x, chain D z x <-> common x) -> link k b z.
Proof.
  intros Hz Hc. assert (Hzc : common z) by (apply Hc; constructor). pose proof (common_lt z Hzc) as Hlt. split_and!.
  - intros ->. lia.
  - by apply common_on_all_1.
  - intros x Hxb Hx. apply (chain_done z); [done..|]. by apply Hc, common_on_all_2.
Qed.

Lemma stage_next z D' :
  link k b z -> D' b = Some z -> (forall c, c <> b -> D' c = D c) -> stage k (S i) D'.
Proof.
  intros Hl Hz Hs. split.
  - rewrite Hs; [apply (st_entry _ _ _ Hst)|done].
  - intros c Hc Hn Hlt. destruct (decide (c = b)) as [->|Hcb]; [by exists z|]. rewrite Hs by done.
    apply (st_done _ _ _ Hst); [done..|]. assert (idx c <> idx b) by (intros E; by apply Hcb, (or_inj Hord)). lia.
  - intros c Hc Hn Hle. assert (c <> b) by (intros ->; lia). rewrite Hs by done. apply (st_old _ _ _ Hst); [done..|lia].
  - intros c d Hd. destruct (decide (c = b)) as [->|Hcb]; [done|]. rewrite Hs in Hd by done. by eapply st_reached.
Qed.

(** A new link is before the one it replaces. *)
Lemma link_decreases z w : link k b z -> D b = Some w -> w <> z -> (idx z < idx w)%nat.
Proof.
  intros Hl Hw Hn. destruct (st_old_link k i D b w Hst Hb Hne ltac:(lia) Hw) as (k' & Ek & Hl'). pose proof (link_reached _ _ _ Hb Hl') as Hr.
  destruct Hl as (N1 & O1 & _), Hl' as (N2 & O2 & L2). apply (on_all_lt k' w z); [done| |congruence].
  apply L2; [done|]. eapply on_all_mono; [|exact O1]. rewrite Ek. lia.
Qed.
End Stage.

(** ** Rounds *)

Lemma stage_start D : D entry = Some entry -> (forall c, c <> entry -> D c = None) -> stage 0 1 D.
Proof.
  intros He Hn. split; [done|..].
  - intros c Hc Hne Hlt. pose proof (not_entry_idx c Hc Hne). lia.
  - intros c _ Hne _. by apply Hn.
  - intros c d Hd. destruct (decide (c = entry)) as [->|Hne]; [apply rtc_refl|]. by rewrite Hn in Hd.
Qed.

Lemma stage_round k n D : stage k n D -> (forall c, reached c -> (idx c < n)%nat) -> stage (S k) 1 D.
Proof.
  intros [H1 H2 H3 H4] Hn. split; [done| | |done].
  - intros c Hc Hne Hlt. pose proof (not_entry_idx c Hc Hne). lia.
  - intros c Hc Hne _. by apply H2, Hn.
Qed.

(** A round that changes nothing has found the dominators. *)
Lemma stage_stable k n D :
  stage k n D -> stage k 1 D -> (forall c, reached c -> (idx c < n)%nat) ->
  forall c, reached c -> c <> entry -> exists d, D c = Some d /\ reached d /\ (idx d < idx c)%nat /\ immediate_dominator d c /\
    (forall x, chain D c x <-> dominates x c).
Proof.
  intros Hn H1 Hall.
  assert (Hlinks : forall c, reached c -> c <> entry -> exists w, D c = Some w /\ link k c w)
    by (intros c Hc Hne; by apply (st_done _ _ _ Hn); [| |apply Hall]).
  assert (Hst : forall c, reached c -> c <> entry -> exists k', k = S k' /\ forall x, on_all k' c x -> on_all k c x).
  { intros c. remember (idx c) as m eqn:Em. revert c Em. induction m as [m IH] using lt_wf_ind. intros c -> Hc Hne.
    destruct (Hlinks c Hc Hne) as (w & Hw & Hl). pose proof (link_lt _ _ _ Hc Hl) as Hlt. pose proof (link_reached _ _ _ Hc Hl) as Hr.
    destruct (st_old_link k 1 D c w H1 Hc Hne) as (k' & Ek & Hl'); [by apply not_entry_idx|done|].
    exists k'. split; [done|]. intros x. rewrite (link_on_all _ _ _ _ Hl), (link_on_all _ _ _ _ Hl').
    intros [->|Hx]; [by left|right]. destruct (decide (w = entry)) as [->|Hwe].
    - assert (x = entry) as ->; [|apply on_all_self]. apply entry_idx; [by eapply on_all_reached|].
      pose proof (on_all_idx _ _ _ Hr Hx). rewrite (or_entry Hord) in *. lia.
    - destruct (IH (idx w) Hlt w eq_refl Hr Hwe) as (k2 & Ek2 & H2). apply H2. by assert (k2 = k') as -> by congruence. }
  intros c Hc Hne. destruct (Hst c Hc Hne) as (k' & Ek & _).
  assert (Hst' : forall c x, reached c -> on_all k' c x <-> dominates x c).
  { apply stable_dominates. intros c' x Hc' Hx. rewrite <- Ek. destruct (decide (c' = entry)) as [->|Hne'].
    - assert (x = entry) as ->; [|apply on_all_self]. apply entry_idx; [by eapply on_all_reached|].
      pose proof (on_all_idx _ _ _ Hc' Hx). rewrite (or_entry Hord) in *. lia.
    - destruct (Hst c' Hc' Hne') as (k2 & Ek2 & H2). apply H2. by assert (k2 = k') as -> by congruence. }
  assert (Hdom : forall c x, reached c -> on_all k c x <-> dominates x c).
  { intros c' x Hc'. split; [|by intros Hd; apply dominates_on_all].
    intros Hx. apply Hst'; [done|]. eapply on_all_mono; [|exact Hx]. lia. }
  destruct (Hlinks c Hc Hne) as (w & Hw & Hl). pose proof (link_reached _ _ _ Hc Hl) as Hr. exists w. split_and!; [done..| | |].
  - by apply (link_lt k).
  - destruct Hl as (N & O & L). split; [by apply Hdom|]. split; [done|]. intros x Hx Hxc. apply Hdom; [done|]. apply L; [done|]. by apply Hdom.
  - intros x. rewrite <- Hdom by done. apply (chain_done k n D Hn); [|done|by apply Hall]. pose proof (Hall c Hc). lia.
Qed.
End Dominance.
