(* ===== verification/CfgWalk.v ===== *)
(** * The depth-first walks of the analysis

    Both walks of CfgAnalysis.v take the steps of the walk of Cfg.v on the
    function without its call-return edges.  At any time the finished blocks
    followed by the stack, its top first, are the order in which the visited blocks will
    have finished: a new block enters between them and the two parts change places
    one block at a time.  In that order every block but the entry follows a
    successor of a later block, and a scanned edge goes to an earlier block, unless
    its target leads to its source by such steps. *)

From Stdlib Require Import ZArith Lia.
From stdpp Require Import numbers base gmap sets list relations.
From S2P Require Import Prelude MachineInt IRTypes Instr InstrBuild Interp HirValues Cfg CfgProps HirFunction.
From S2P Require Import CfgAnalysis.

(** ** [precedes] and sublists *)

Lemma precedes_sublist {A} (l : list A) u v : precedes l u v <-> [u; v] `sublist_of` l.
Proof.
  split.
  - intros (l1 & l2 & l3 & ->). apply sublist_inserts_l, sublist_skip, sublist_inserts_l, sublist_skip, sublist_nil_l.
  - intros (l1 & l2 & -> & H2)%sublist_cons_l. apply sublist_cons_l in H2 as (l3 & l4 & -> & _).
    by exists l1, l3, l4.
Qed.

Lemma precedes_mono {A} (l l' : list A) u v : l `sublist_of` l' -> precedes l u v -> precedes l' u v.
Proof. rewrite !precedes_sublist. intros Hl Hu. by etrans. Qed.

Lemma precedes_elem {A} (l : list A) u v : precedes l u v -> u ∈ l /\ v ∈ l.
Proof. intros (l1 & l2 & l3 & ->). set_solver. Qed.

Lemma precedes_app {A} (l k : list A) u v : u ∈ l -> v ∈ k -> precedes (l ++ k) u v.
Proof.
  intros (l1 & l2 & ->)%list_elem_of_split (k1 & k2 & ->)%list_elem_of_split. exists l1, (l2 ++ k1), k2.
  by rewrite <- !app_assoc, <- app_comm_cons.
Qed.

Lemma precedes_total {A} `{EqDecision A} (l : list A) u v : u ∈ l -> v ∈ l -> u = v \/ precedes l u v \/ precedes l v u.
Proof.
  intros (l1 & l2 & ->)%list_elem_of_split Hv. destruct (decide (u = v)); [by left|]. right.
  apply elem_of_app in Hv as [Hv|Hv]; [right; by apply precedes_app; [|left]|].
  apply elem_of_cons in Hv as [->|Hv]; [done|]. left. apply precedes_app_l.
  by apply (precedes_app [u] l2); [left|].
Qed.

Lemma precedes_lookup {A} (l : list A) u v :
  precedes l u v <-> exists i j, (i < j)%nat /\ l !! i = Some u /\ l !! j = Some v.
Proof.
  split.
  - intros (l1 & l2 & l3 & ->). exists (length l1), (length l1 + S (length l2))%nat. split; [lia|].
    split; [by apply list_lookup_middle|]. rewrite lookup_app_r by lia.
    replace (length l1 + S (length l2) - length l1)%nat with (S (length l2)) by lia. simpl. by apply list_lookup_middle.
  - intros (i & j & Hlt & Hi & Hj). rewrite <- (take_drop_middle l i u Hi). exists (take i l).
    assert (Hj' : drop (S i) l !! (j - S i)%nat = Some v) by (rewrite lookup_drop; by replace (S i + (j - S i))%nat with j by lia).
    rewrite <- (take_drop_middle _ _ _ Hj'). by eexists _, _.
Qed.

Lemma precedes_asym {A} (l : list A) u v : NoDup l -> precedes l u v -> ~ precedes l v u.
Proof.
  intros Hnd (i & j & Hlt & Hi & Hj)%precedes_lookup (i' & j' & Hlt' & Hi' & Hj')%precedes_lookup.
  pose proof (NoDup_lookup _ _ _ _ Hnd Hi Hj'). pose proof (NoDup_lookup _ _ _ _ Hnd Hj Hi'). lia.
Qed.

Lemma precedes_irrefl {A} (l : list A) u : NoDup l -> ~ precedes l u u.
Proof. intros Hnd Hp. by apply (precedes_asym l u u Hnd Hp). Qed.

Section Walk.
Context (f : HIRFunction) (root : nat).
Local Abbreviation next := (next_blocks f).
Local Abbreviation edge := (edge f).

Definition order (d : Dfs) : list nat := d_post d ++ (d_stack d).*1.

(** An edge along which the walk went down, or could have. *)
Definition tree (d : Dfs) (u v : nat) : Prop := edge u v /\ precedes (order d) v u.

(** The edge from [u] to [c] has been looked at. *)
Definition scanned (d : Dfs) (u c : nat) : Prop :=
  (exists k j, (u, k) ∈ d_stack d /\ (j < k)%nat /\ next u !! j = Some c) \/ (u ∈ d_post d /\ edge u c).

Record walk_inv (d : Dfs) : Prop := {
  wi_dfs : dfs_inv f ∅ root d;
  wi_parent : forall v, v ∈ order d -> v <> root -> exists u, tree d u v;
  wi_stack : forall l1 x y l2, (d_stack d).*1 = l1 ++ x :: y :: l2 -> edge y x;
  wi_scan : forall u c, scanned d u c -> precedes (order d) c u \/ rtc (tree d) c u
}.

Lemma order_visited d b : walk_inv d -> b ∈ order d <-> b ∈ d_visited d.
Proof. intros Hi. unfold order. rewrite (di_visited f ∅ root d (wi_dfs d Hi) b). set_solver. Qed.

Lemma order_NoDup d : walk_inv d -> NoDup (order d).
Proof. intros Hi. unfold order. rewrite (Permutation_app_comm (d_post d)). apply (di_nodup f ∅ root d (wi_dfs d Hi)). Qed.

Lemma scanned_order d u c : walk_inv d -> scanned d u c -> u ∈ order d /\ c ∈ order d.
Proof.
  intros Hi Hs. rewrite (order_visited d c Hi). unfold order. destruct Hs as [(k & j & Hk & Hj & Hc)|[Hu Hc]].
  - split; [apply elem_of_app; right; by apply (list_elem_of_fmap_2 fst _ _ Hk)|].
    by apply (di_below f ∅ root d (wi_dfs d Hi) u k j c).
  - split; [by apply elem_of_app; left|]. by apply (di_closed f ∅ root d (wi_dfs d Hi) u c).
Qed.

Lemma tree_mono d d' u v : order d `sublist_of` order d' -> tree d u v -> tree d' u v.
Proof. intros Hs [He Hp]. split; [done|]. by eapply precedes_mono. Qed.

(** A block on the stack leads down to the top. *)
Lemma stack_tree d : walk_inv d -> forall l b l0, (d_stack d).*1 = l0 ++ b :: l -> forall c, c ∈ b :: l -> rtc (tree d) c b.
Proof.
  intros Hi l. induction l as [|y l IH]; intros b l0 Hs c Hc.
  - apply list_elem_of_singleton in Hc as ->. apply rtc_refl.
  - apply elem_of_cons in Hc as [->|Hc]; [apply rtc_refl|].
    eapply rtc_r; [apply (IH y (l0 ++ [b])); [by rewrite <- app_assoc|done]|].
    split; [by eapply (wi_stack d Hi)|]. unfold order. rewrite Hs. apply precedes_app_l, precedes_app_l. by exists [], [], l.
Qed.

(** ** Steps *)

Lemma order_step d b k stack :
  d_stack d = (b, k) :: stack -> order d `sublist_of` order (dfs_step f d b k stack).
Proof.
  intros Hs. unfold order, dfs_step. rewrite Hs. destruct (next b !! k) as [c|]; [case_decide|]; simpl.
  - done.
  - apply sublist_app; [done|]. by apply sublist_cons.
  - by rewrite <- app_assoc.
Qed.

Lemma scanned_step_edge d b k stack c :
  d_stack d = (b, k) :: stack -> next b !! k = Some c ->
  forall u x, scanned (dfs_step f d b k stack) u x <-> scanned d u x \/ (u = b /\ x = c).
Proof.
  intros Hs Hc u x. unfold scanned, dfs_step. rewrite Hs, Hc.
  assert (Hiff : forall st, (st = (b, S k) :: stack \/ st = (c, 0%nat) :: (b, S k) :: stack) ->
    (exists k' j, (u, k') ∈ st /\ (j < k')%nat /\ next u !! j = Some x) <->
    (exists k' j, (u, k') ∈ (b, k) :: stack /\ (j < k')%nat /\ next u !! j = Some x) \/ (u = b /\ x = c)).
  { intros st Hst. assert (Hel : forall k', (u, k') ∈ st -> (u, k') = (b, S k) \/ (u, k') ∈ stack \/ k' = 0%nat)
      by (destruct Hst as [->| ->]; intros k'; rewrite !elem_of_cons; naive_solver).
    assert (Hin : (b, S k) ∈ st /\ forall y, y ∈ stack -> y ∈ st) by (destruct Hst as [->| ->]; set_solver).
    destruct Hin as [Hin1 Hin2]. split.
    - intros (k' & j & Hk & Hj & Hn). destruct (Hel k' Hk) as [[= -> ->]|[Hk'| ->]]; [|left; exists k', j; set_solver|lia].
      destruct (decide (j = k)) as [->|Hne]; [right; split; [done|congruence]|].
      left. exists k, j. split; [left|]. split; [lia|done].
    - intros [(k' & j & Hk & Hj & Hn)|[-> ->]]; [|exists (S k), k; split_and!; [done|lia|done]].
      apply elem_of_cons in Hk as [[= -> ->]|Hk]; [exists (S k), j; split_and!; [done|lia|done]|].
      exists k', j. split_and!; [by apply Hin2|done|done]. }
  case_decide; simpl; rewrite Hiff by auto; tauto.
Qed.

Lemma scanned_step_leave d b k stack :
  walk_inv d -> d_stack d = (b, k) :: stack -> next b !! k = None ->
  forall u x, scanned (dfs_step f d b k stack) u x <-> scanned d u x.
Proof.
  intros Hi Hs Hc u x. unfold scanned, dfs_step. rewrite Hs, Hc. simpl. split.
  - intros [(k' & j & Hk & Hj & Hn)|[Hu He]]; [left; exists k', j; set_solver|].
    apply elem_of_app in Hu as [Hu|Hu%list_elem_of_singleton]; [by right|]. subst u. left.
    apply list_elem_of_lookup in He as [j Hj]. exists k, j. split; [left|]. split; [|done].
    apply lookup_ge_None in Hc. pose proof (lookup_lt_Some _ _ _ Hj). lia.
  - intros [(k' & j & Hk & Hj & Hn)|[Hu He]]; [|right; split; [by apply elem_of_app; left|done]].
    apply elem_of_cons in Hk as [[= -> ->]|Hk]; [|left; by exists k', j]. right.
    split; [apply elem_of_app; right; by left|]. apply list_elem_of_lookup. by exists j.
Qed.

Lemma walk_inv_start : walk_inv (mkDfs ({[root]} ∪ ∅) [(root, 0%nat)] []).
Proof.
  split.
  - by apply dfs_inv_start.
  - intros v Hv Hne. unfold order in Hv. simpl in Hv. apply list_elem_of_singleton in Hv. done.
  - intros [|? [|? ?]] x y l2 E; done.
  - intros u c [(k & j & Hk & Hj & _)|[Hu _]]; simpl in *; [|by apply elem_of_nil in Hu].
    apply list_elem_of_singleton in Hk. injection Hk as -> ->. lia.
Qed.

Lemma walk_step_inv d b k stack :
  walk_inv d -> d_stack d = (b, k) :: stack -> walk_inv (dfs_step f d b k stack).
Proof.
  intros Hi Hs. pose proof (order_step d b k stack Hs) as Hsub. set (d' := dfs_step f d b k stack) in *.
  assert (Hd' : dfs_inv f ∅ root d') by (apply dfs_step_inv; [apply (wi_dfs d Hi)|done]).
  assert (Htree : forall u v, tree d u v -> tree d' u v) by (intros u v; by apply tree_mono).
  assert (Hold : forall u c, scanned d u c -> precedes (order d') c u \/ rtc (tree d') c u).
  { intros u c Hsc. destruct (wi_scan d Hi u c Hsc); [left; by eapply precedes_mono|right].
    eapply rtc_subrel; [|done]. exact Htree. }
  destruct (next b !! k) as [c|] eqn:Hc.
  - assert (He : edge b c) by (apply list_elem_of_lookup; by exists k).
    pose proof (scanned_step_edge d b k stack c Hs Hc) as Hscan. fold d' in Hscan.
    destruct (decide (c ∈ d_visited d)) as [Hv|Hv].
    + assert (Ho : order d' = order d).
      { unfold d', order, dfs_step. rewrite Hs, Hc. by rewrite decide_True by done. }
      split; [done|..].
      * intros v Hv1 Hne. rewrite Ho in Hv1. destruct (wi_parent d Hi v Hv1 Hne) as (u & Hu). exists u. by apply Htree.
      * assert ((d_stack d').*1 = (d_stack d).*1) as ->; [|apply (wi_stack d Hi)].
        unfold d', dfs_step. rewrite Hs, Hc. by rewrite decide_True by done.
      * intros u x [Hx|[-> ->]]%Hscan; [by apply Hold|]. apply (order_visited d c Hi) in Hv. unfold order in Hv.
        apply elem_of_app in Hv as [Hv|Hv].
        -- left. rewrite Ho. unfold order. apply precedes_app; [done|]. rewrite Hs. by left.
        -- right. eapply rtc_subrel; [exact Htree|]. eapply (stack_tree d Hi _ b []); [by rewrite Hs|]. by rewrite Hs in Hv.
    + assert (Ho : order d' = d_post d ++ c :: b :: stack.*1 /\ (d_stack d').*1 = c :: b :: stack.*1).
      { unfold d', order, dfs_step. rewrite Hc. by rewrite decide_False by done. }
      destruct Ho as [Ho Hst]. assert (Hcb : tree d' b c).
      { split; [done|]. rewrite Ho. apply precedes_app_l. by exists [], [], stack.*1. }
      split; [done|..].
      * intros v Hv1 Hne. destruct (decide (v = c)) as [->|Hvc]; [by exists b|].
        destruct (wi_parent d Hi v) as (u & Hu); [|done|exists u; by apply Htree].
        unfold order. rewrite Hs. rewrite Ho in Hv1. set_solver.
      * intros l1 x y l2 E. rewrite Hst in E. destruct l1 as [|z l1]; simplify_eq/=; [done|].
        apply (wi_stack d Hi l1 x y l2). by rewrite Hs.
      * intros u x [Hx|[-> ->]]%Hscan; [by apply Hold|]. left. apply Hcb.
  - pose proof (scanned_step_leave d b k stack Hi Hs Hc) as Hscan. fold d' in Hscan.
    assert (Ho : order d' = order d /\ (d_stack d').*1 = stack.*1).
    { unfold d', order, dfs_step. rewrite Hs, Hc. simpl. split; [|done]. by rewrite <- app_assoc. }
    destruct Ho as [Ho Hst]. split; [done|..].
    + intros v Hv1 Hne. rewrite Ho in Hv1. destruct (wi_parent d Hi v Hv1 Hne) as (u & Hu). exists u. by apply Htree.
    + intros l1 x y l2 E. rewrite Hst in E. apply (wi_stack d Hi (b :: l1) x y l2). by rewrite Hs, fmap_cons, E.
    + intros u x Hx%Hscan. by apply Hold.
Qed.
End Walk.

(** ** The two walks take these steps *)

(** The function without its call-return edges, which the analysis does not follow. *)
Definition clear_calls (g : HIRFunction) : HIRFunction :=
  set_blocks (with_call_return None <$> hf_blocks g) g.

Lemma next_clear g b : next_blocks (clear_calls g) b = successors g b.
Proof.
  unfold next_blocks, successors. simpl. rewrite list_lookup_fmap.
  destruct (hf_blocks g !! b); simpl; [by rewrite app_nil_r|done].
Qed.

Lemma clear_length g : length (hf_blocks (clear_calls g)) = length (hf_blocks g).
Proof. apply length_fmap. Qed.

Section Simulation.
Context (g : HIRFunction) (root : nat).
Local Abbreviation f := (clear_calls g).
Local Abbreviation n := (MaxBlockCount g).

(** Successors of blocks are blocks. *)
Definition successors_in_range : Prop := forall b c, c ∈ successors g b -> (c < n)%nat.

Context (Hrange : successors_in_range) (Hroot : (root < n)%nat).

(** [successors_visited] has the counters of the frames, and 0 for unvisited blocks. *)
Record counts_ok (counts : list nat) (d : Dfs) : Prop := {
  co_stack : forall b k, (b, k) ∈ d_stack d -> counts !! b = Some k /\ (k <= length (successors g b))%nat;
  co_fresh : forall b, (b < n)%nat -> b ∉ d_visited d -> counts !! b = Some 0%nat
}.

Lemma stack_fresh d b k stack k' : walk_inv f root d -> d_stack d = (b, k) :: stack -> (b, k') ∉ stack.
Proof.
  intros Hi Hs Hin. pose proof (di_nodup _ _ _ _ (wi_dfs _ _ _ Hi)) as Hnd. rewrite Hs in Hnd. simpl in Hnd.
  apply NoDup_cons in Hnd as [Hn _]. apply Hn, elem_of_app. left. by apply (list_elem_of_fmap_2 fst _ _ Hin).
Qed.

Lemma counts_step counts d b k stack c :
  walk_inv f root d -> counts_ok counts d -> d_stack d = (b, k) :: stack -> successors g b !! k = Some c ->
  counts_ok (<[b := S k]> counts) (dfs_step f d b k stack).
Proof.
  intros Hi [H1 H2] Hs Hc. assert (Hbv : b ∈ d_visited d).
  { apply (order_visited f root d b Hi). unfold order. rewrite Hs. apply elem_of_app. right. by left. }
  assert (Hb : counts !! b = Some k) by (apply H1; rewrite Hs; by left).
  pose proof (lookup_lt_Some _ _ _ Hb) as Hlt. unfold dfs_step. rewrite next_clear, Hc.
  assert (Hold : forall b' k', (b', k') ∈ (b, S k) :: stack -> <[b:=S k]> counts !! b' = Some k' /\ (k' <= length (successors g b'))%nat).
  { intros b' k' [[= -> ->]|Hin]%elem_of_cons; [split; [by apply list_lookup_insert_eq|by apply lookup_lt_Some in Hc]|].
    rewrite list_lookup_insert_ne; [apply H1; rewrite Hs; by right|]. intros <-. by apply (stack_fresh d b k stack k' Hi Hs). }
  case_decide as Hv; split; simpl; [done| | |].
  - intros b' Hb' Hn. rewrite list_lookup_insert_ne by (intros <-; done). by apply H2.
  - intros b' k' [[= -> ->]|Hin]%elem_of_cons; [|by apply Hold].
    split; [|lia]. rewrite list_lookup_insert_ne by (intros <-; done). apply H2; [|done]. apply (Hrange b), list_elem_of_lookup. by exists k.
  - intros b' Hb' Hn. rewrite list_lookup_insert_ne by (intros <-; set_solver). apply H2; set_solver.
Qed.

Lemma counts_leave counts d b k stack :
  counts_ok counts d -> d_stack d = (b, k) :: stack -> successors g b !! k = None ->
  counts_ok counts (dfs_step f d b k stack).
Proof.
  intros [H1 H2] Hs Hc. unfold dfs_step. rewrite next_clear, Hc. split; simpl; [|done].
  intros b' k' Hin. apply H1. rewrite Hs. by right.
Qed.

(** At the top: the counter, and whether a successor is left. *)
Lemma top_counter counts d b k stack :
  counts_ok counts d -> d_stack d = (b, k) :: stack ->
  counts !! b = Some k /\
  match successors g b !! k with
  | Some _ => (k =? length (successors g b))%nat = false
  | None => (k =? length (successors g b))%nat = true
  end.
Proof.
  intros [H1 H2] Hs. destruct (H1 b k) as [Hb Hk]; [rewrite Hs; by left|]. split; [done|].
  destruct (successors g b !! k) as [c|] eqn:E.
  - apply lookup_lt_Some in E. apply Nat.eqb_neq. lia.
  - apply lookup_ge_None in E. apply Nat.eqb_eq. lia.
Qed.

(** The walk that finishes, from a state [w] that [d] describes. *)
Lemma post_loop_sim fuel : forall d d' w,
  walk_inv f root d -> counts_ok (pw_counts w) d ->
  pw_visited w = d_visited d -> pw_worklist w = (d_stack d).*1 -> pw_post w = d_post d ->
  dfs_loop f fuel d = Some d' ->
  post_loop g fuel w = Ok (d_post d') /\ walk_inv f root d' /\ d_stack d' = [].
Proof.
  induction fuel as [|m IH]; intros d d' w Hi Hco Hv Hw Hp Hrun; destruct (d_stack d) as [|[b k] stack] eqn:Hs;
    cbn [dfs_loop] in Hrun; rewrite Hs in Hrun; try done; cbn [post_loop]; rewrite Hw; simpl.
  1, 2: injection Hrun as <-; by rewrite Hp.
  destruct (top_counter _ d b k stack Hco Hs) as [Hb Hk]. unfold post_step. rewrite Hb.
  pose proof (walk_step_inv f root d b k stack Hi Hs) as Hi'.
  destruct (successors g b !! k) as [c|] eqn:Hc; rewrite Hk.
  - pose proof (counts_step _ d b k stack c Hi Hco Hs Hc) as Hco'. rewrite Hv. unfold dfs_step in *.
    rewrite next_clear, Hc in *. case_decide; simpl; (eapply IH; [exact Hi'|exact Hco'|done..|exact Hrun]).
  - pose proof (counts_leave _ d b k stack Hco Hs Hc) as Hco'. unfold dfs_step in *. rewrite next_clear, Hc in *. simpl.
    eapply IH; [exact Hi'|exact Hco'|done|done|simpl; by rewrite Hp|exact Hrun].
Qed.

(** ** Back edges *)

(** The back edges found: the scanned edges whose target is not finished before their
    source. *)
Record back_ok (back : list (list nat)) (d : Dfs) : Prop := {
  bk_length : length back = n;
  bk_edges : forall h l c, back !! h = Some l -> c ∈ l <-> scanned f d c h /\ ~ precedes (order d) h c
}.

Lemma order_in_range d b : walk_inv f root d -> b ∈ order d -> (b < n)%nat.
Proof.
  intros Hi Hb. destruct (decide (b = root)) as [->|Hne]; [done|]. destruct (wi_parent _ _ _ Hi b Hb Hne) as (u & He & _).
  apply (Hrange u). by rewrite <- next_clear.
Qed.

(** The order of two visited blocks does not change. *)
Lemma order_stable d b k stack u v :
  walk_inv f root d -> d_stack d = (b, k) :: stack -> u ∈ order d -> v ∈ order d ->
  precedes (order (dfs_step f d b k stack)) u v <-> precedes (order d) u v.
Proof.
  intros Hi Hs Hu Hv. pose proof (order_step f d b k stack Hs) as Hsub.
  pose proof (order_NoDup f root _ (walk_step_inv f root d b k stack Hi Hs)) as Hnd.
  split; [|by apply precedes_mono]. intros Hp. destruct (precedes_total (order d) u v Hu Hv) as [->|[?|Hvu]]; [|done|].
  - by apply precedes_irrefl in Hp.
  - destruct (precedes_asym _ _ _ Hnd Hp). by apply (precedes_mono _ _ _ _ Hsub).
Qed.

Lemma back_same back d b k stack :
  walk_inv f root d -> back_ok back d -> d_stack d = (b, k) :: stack ->
  (forall h c, back !! h <> None -> scanned f (dfs_step f d b k stack) c h /\ ~ precedes (order (dfs_step f d b k stack)) h c ->
     scanned f d c h) ->
  (forall c h, scanned f d c h -> scanned f (dfs_step f d b k stack) c h) ->
  back_ok back (dfs_step f d b k stack).
Proof.
  intros Hi [H1 H2] Hs Hold Hnew. split; [done|]. intros h l c Hl. rewrite (H2 h l c Hl). split; intros [Hsc Hn].
  - destruct (scanned_order f root d c h Hi Hsc). split; [by apply Hnew|]. by rewrite order_stable.
  - assert (Hd : scanned f d c h) by (apply Hold; [by rewrite Hl|done]). destruct (scanned_order f root d c h Hi Hd).
    split; [done|]. by rewrite order_stable in Hn.
Qed.

(** A back edge is found: the target is on the stack. *)
Lemma back_found back d b k stack c :
  walk_inv f root d -> back_ok back d -> d_stack d = (b, k) :: stack -> successors g b !! k = Some c ->
  c ∈ d_visited d -> c ∈ (d_stack d).*1 ->
  back_ok (alter (fun l => l ++ [b]) c back) (dfs_step f d b k stack).
Proof.
  intros Hi [H1 H2] Hs Hc Hv Hin. pose proof (scanned_step_edge f d b k stack c Hs) as Hsc.
  rewrite next_clear in Hsc. specialize (Hsc Hc).
  assert (Ho : order (dfs_step f d b k stack) = order d).
  { unfold order, dfs_step. rewrite next_clear, Hc, Hs. by rewrite decide_True by done. }
  assert (Hnp : ~ precedes (order d) c b).
  { pose proof (order_NoDup f root d Hi) as Hnd. intros Hp. rewrite Hs in Hin.
    apply elem_of_cons in Hin as [->|Hin]; [by apply precedes_irrefl in Hp|].
    apply (precedes_asym _ _ _ Hnd Hp). unfold order. rewrite Hs. apply precedes_app_l.
    change (precedes ([b] ++ stack.*1) b c). apply precedes_app; [by left|exact Hin]. }
  split; [by rewrite length_alter|]. intros h l x Hl. rewrite Hsc, Ho.
  destruct (decide (h = c)) as [->|Hne].
  - rewrite list_lookup_alter_eq in Hl. destruct (back !! c) as [l0|] eqn:El; [|done]. simpl in Hl. injection Hl as <-.
    rewrite elem_of_app, list_elem_of_singleton, (H2 c l0 x El). split; [intros [?| ->]; tauto|].
    intros [[?|[-> _]] ?]; [by left|by right].
  - rewrite list_lookup_alter_ne in Hl by done. rewrite (H2 h l x Hl). naive_solver.
Qed.

(** No back edge: the target is finished, or new. *)
Lemma back_other back d b k stack c :
  walk_inv f root d -> back_ok back d -> d_stack d = (b, k) :: stack -> successors g b !! k = Some c ->
  c ∉ (d_stack d).*1 -> back_ok back (dfs_step f d b k stack).
Proof.
  intros Hi Hb Hs Hc Hin. pose proof (scanned_step_edge f d b k stack c Hs) as Hsc.
  rewrite next_clear in Hsc. specialize (Hsc Hc). apply back_same; [done..| |].
  - intros h x _ [[?|[-> ->]]%Hsc Hn]; [done|]. destruct Hn. unfold order, dfs_step. rewrite next_clear, Hc.
    destruct (decide (c ∈ d_visited d)) as [Hv|Hv]; simpl.
    + apply precedes_app; [|by left]. apply (order_visited f root d c Hi) in Hv. unfold order in Hv. set_solver.
    + apply precedes_app_l. by exists [], [], stack.*1.
  - intros x h Hx. apply Hsc. by left.
Qed.

Lemma back_leave back d b k stack :
  walk_inv f root d -> back_ok back d -> d_stack d = (b, k) :: stack -> successors g b !! k = None ->
  back_ok back (dfs_step f d b k stack).
Proof.
  intros Hi Hb Hs Hc. pose proof (scanned_step_leave f root d b k stack Hi Hs) as Hsc. rewrite next_clear in Hsc.
  specialize (Hsc Hc). apply back_same; [done..| |].
  - intros h x _ [?%Hsc _]. done.
  - intros x h Hx. by apply Hsc.
Qed.

Lemma back_loop_sim fuel : forall d d' w,
  walk_inv f root d -> counts_ok (bw_counts w) d -> back_ok (bw_back w) d ->
  bw_visited w = d_visited d -> bw_worklist w = (d_stack d).*1 ->
  (forall b, b ∈ bw_visiting w <-> b ∈ (d_stack d).*1) ->
  dfs_loop f fuel d = Some d' ->
  exists back, back_loop g fuel w = Ok back /\ back_ok back d' /\ walk_inv f root d' /\ d_stack d' = [].
Proof.
  induction fuel as [|m IH]; intros d d' w Hi Hco Hbk Hv Hw Hg Hrun; destruct (d_stack d) as [|[b k] stack] eqn:Hs;
    cbn [dfs_loop] in Hrun; rewrite Hs in Hrun; try done; cbn [back_loop]; rewrite Hw; simpl.
  1, 2: injection Hrun as <-; by exists (bw_back w).
  destruct (top_counter _ d b k stack Hco Hs) as [Hb Hk]. unfold back_step. rewrite Hb.
  pose proof (walk_step_inv f root d b k stack Hi Hs) as Hi'.
  assert (Hsv : forall x, x ∈ (d_stack d).*1 -> x ∈ d_visited d).
  { intros x Hx. apply (order_visited f root d x Hi). unfold order. set_solver. }
  destruct (successors g b !! k) as [c|] eqn:Hc; rewrite Hk.
  - pose proof (counts_step _ d b k stack c Hi Hco Hs Hc) as Hco'. rewrite Hv.
    destruct (decide (c ∈ bw_visiting w)) as [Hin|Hin].
    + assert (Hst : c ∈ (d_stack d).*1) by (rewrite Hs; by apply Hg).
      pose proof (back_found _ d b k stack c Hi Hbk Hs Hc (Hsv c Hst) Hst) as Hbk'.
      rewrite decide_True by by (rewrite Hs in Hst). simpl.
      unfold dfs_step in *. rewrite next_clear, Hc, decide_True in * by auto.
      eapply IH; [exact Hi'|exact Hco'|exact Hbk'|done|done|exact Hg|exact Hrun].
    + assert (Hst : c ∉ (d_stack d).*1) by (rewrite Hs; by rewrite <- Hg).
      pose proof (back_other _ d b k stack c Hi Hbk Hs Hc Hst) as Hbk'.
      unfold dfs_step in *. rewrite next_clear, Hc in *. case_decide; simpl; (eapply IH; [exact Hi'|exact Hco'|exact Hbk'|done|done| |exact Hrun]);
        [exact Hg|]. intros x. simpl. rewrite elem_of_union, elem_of_singleton, Hg, elem_of_cons. done.
  - pose proof (counts_leave _ d b k stack Hco Hs Hc) as Hco'. pose proof (back_leave _ d b k stack Hi Hbk Hs Hc) as Hbk'.
    unfold dfs_step in *. rewrite next_clear, Hc in *. simpl.
    eapply IH; [exact Hi'|exact Hco'|exact Hbk'|done|done| |exact Hrun]. intros x. simpl.
    rewrite elem_of_difference, elem_of_singleton, Hg. simpl. rewrite elem_of_cons.
    assert (b ∉ stack.*1); [|naive_solver]. intros Hin. pose proof (di_nodup _ _ _ _ (wi_dfs _ _ _ Hi)) as Hnd.
    rewrite Hs in Hnd. simpl in Hnd. apply NoDup_cons in Hnd as [Hn _]. set_solver.
Qed.
End Simulation.
