(* ===== verification/CfgDominators.v ===== *)
(** * The analysis computes the immediate dominators

    The definitions of CfgAnalysis.v on a finished function, in the terms of
    Dominance.v: the reverse post order of the walk is an order as required there,
    [intersect] finds the bottom of the common chain, a round takes one stage to the
    next, and the sum of the links' indices decreases while something changes. *)

From Stdlib Require Import ZArith Lia.
From stdpp Require Import numbers base gmap sets list relations.
From S2P Require Import Prelude MachineInt IRTypes Instr InstrBuild Interp HirValues Cfg CfgProps HirFunction.
From S2P Require Import CfgAnalysis CfgWalk Dominance.

Local Open Scope svm_scope.

(** ** The index of the order *)

Lemma fill_index_length i rpo index : length (fill_index i rpo index) = length index.
Proof. revert i index. induction rpo as [|b rpo IH]; intros i index; [done|]. simpl. by rewrite IH, length_insert. Qed.

Lemma fill_index_other i rpo index b : b ∉ rpo -> fill_index i rpo index !! b = index !! b.
Proof.
  revert i index. induction rpo as [|c rpo IH]; intros i index Hb; [done|]. rewrite not_elem_of_cons in Hb. simpl.
  rewrite IH by tauto. apply list_lookup_insert_ne. naive_solver.
Qed.

Lemma fill_index_spec rpo : forall i index b j,
  NoDup rpo -> (forall c, c ∈ rpo -> (c < length index)%nat) -> rpo !! j = Some b ->
  fill_index i rpo index !! b = Some (i + j)%nat.
Proof.
  induction rpo as [|c rpo IH]; intros i index b j Hnd Hlt Hj; [done|]. apply NoDup_cons in Hnd as [Hc Hnd]. simpl.
  destruct j as [|j]; simplify_eq/=.
  - rewrite fill_index_other by done. rewrite Nat.add_0_r. apply list_lookup_insert_eq, Hlt. by left.
  - replace (i + S j)%nat with (S i + j)%nat by lia. apply IH; [done| |done].
    intros x Hx. rewrite length_insert. apply Hlt. by right.
Qed.

(** A function as [EndFunction] leaves it. *)
Record linked (g : HIRFunction) : Prop := {
  fin_entry : (0 < MaxBlockCount g)%nat;
  fin_range : successors_in_range g;
  fin_mirror : forall a b, b ∈ successors g a <-> a ∈ predecessors g b
}.

(** The edges of the control flow. *)
Definition flow (g : HIRFunction) (u v : nat) : Prop := v ∈ successors g u.

Definition reachable (g : HIRFunction) : nat -> Prop := reached (flow g) 0.

Lemma flow_edge g u v : flow g u v <-> edge (clear_calls g) u v.
Proof. unfold flow, edge. by rewrite next_clear. Qed.

Lemma reach_reachable g b : reach (clear_calls g) 0%nat b <-> reachable g b.
Proof.
  unfold reach, reachable, reached. split; apply rtc_subrel; intros u v H; by apply flow_edge.
Qed.

Lemma walk_fuel_clear g : rpo_fuel (clear_calls g) = walk_fuel g.
Proof.
  unfold rpo_fuel, walk_fuel, MaxBlockCount. rewrite clear_length.
  induction (seq 0 (length (hf_blocks g))) as [|b l IH]; simpl; [done|]. by rewrite next_clear, IH.
Qed.

Section Finished.
Context (g : HIRFunction) (Hfin : linked g).
Local Abbreviation f := (clear_calls g).
Local Abbreviation n := (MaxBlockCount g).

(** The walk of Cfg.v that both walks follow. *)
Lemma walk_finishes :
  exists d, dfs_loop f (walk_fuel g) (mkDfs ({[0%nat]} ∪ ∅) [(0%nat, 0%nat)] []) = Some d /\
            (forall b, b ∈ d_post d <-> reachable g b).
Proof.
  destruct (dfs_component f ∅ 0%nat) as (d & Hd & Hi & Hs).
  - intros u v Huv. apply flow_edge in Huv. unfold in_range. rewrite clear_length. by apply (fin_range g Hfin u v).
  - unfold in_range. rewrite clear_length. apply (fin_entry g Hfin).
  - done.
  - exists d. rewrite walk_fuel_clear in Hd. split; [done|]. intros b. rewrite <- reach_reachable.
    rewrite (component_post f ∅ 0%nat d b Hi Hs), (component_visited f ∅ 0%nat d Hi Hs) by (intros u v ?; set_solver).
    set_solver.
Qed.

Lemma counts_start : counts_ok g (replicate n 0%nat) (mkDfs ({[0%nat]} ∪ ∅) [(0%nat, 0%nat)] []).
Proof.
  split; simpl.
  - intros b k [= -> ->]%list_elem_of_singleton. split; [|lia]. apply lookup_replicate. split; [done|apply (fin_entry g Hfin)].
  - intros b Hb _. by apply lookup_replicate.
Qed.

(** The facts about the order the two walks share. *)
Record walk_result (rpo : list nat) : Prop := {
  wr_nodup : NoDup rpo;
  wr_reach : forall b, b ∈ rpo <-> reachable g b;
  wr_parent : forall v, reachable g v -> v <> 0%nat -> exists u, flow g u v /\ precedes rpo u v;
  wr_back : forall u v, reachable g u -> flow g u v -> ~ precedes rpo u v -> rtc (fun a b => flow g a b /\ precedes rpo a b) v u
}.

Lemma precedes_rev {A} (l : list A) u v : precedes (reverse l) u v <-> precedes l v u.
Proof.
  split; intros (l1 & l2 & l3 & E).
  - apply (f_equal reverse) in E. rewrite reverse_involutive in E. rewrite E.
    exists (reverse l3), (reverse l2), (reverse l1). rewrite !reverse_app, !reverse_cons, !reverse_app, !reverse_cons.
    by rewrite <- !app_assoc.
  - rewrite E. exists (reverse l3), (reverse l2), (reverse l1). rewrite !reverse_app, !reverse_cons, !reverse_app, !reverse_cons.
    by rewrite <- !app_assoc.
Qed.

Lemma walk_inv_result d :
  walk_inv f 0%nat d -> d_stack d = [] -> (forall b, b ∈ d_post d <-> reachable g b) -> walk_result (reverse (d_post d)).
Proof.
  intros Hi Hs Hr. assert (Ho : order d = d_post d) by (unfold order; rewrite Hs; apply app_nil_r).
  pose proof (order_NoDup f 0%nat d Hi) as Hnd. rewrite Ho in Hnd. split.
  - eapply NoDup_Permutation_proper; [apply reverse_Permutation|done].
  - intros b. by rewrite elem_of_reverse.
  - intros v Hv Hne. destruct (wi_parent f 0%nat d Hi v) as (u & He & Hp); [by rewrite Ho, Hr|done|].
    exists u. split; [by apply flow_edge|]. apply precedes_rev. by rewrite <- Ho.
  - intros u v Hu He Hnp. destruct (wi_scan f 0%nat d Hi u v) as [Hp|Hp].
    + right. split; [by apply Hr|by apply flow_edge].
    + destruct Hnp. apply precedes_rev. by rewrite <- Ho.
    + eapply rtc_subrel; [|exact Hp]. intros a b [Hab Hpb]. split; [by apply flow_edge|]. apply precedes_rev. by rewrite <- Ho.
Qed.

Lemma reverse_post_order_ok :
  exists rpo, reverse_post_order g (walk_fuel g) = Ok rpo /\ walk_result rpo.
Proof.
  destruct walk_finishes as (d & Hd & Hr). unfold reverse_post_order.
  destruct (post_loop_sim g 0 (fin_range g Hfin) (fin_entry g Hfin) (walk_fuel g) _ d (mkPostWalk {[0%nat]} (replicate n 0%nat) [0%nat] []) (walk_inv_start f 0))
    as (H1 & H2 & H3); [apply counts_start|simpl; set_solver|done..|].
  rewrite H1. exists (reverse (d_post d)). split; [done|]. by apply walk_inv_result.
Qed.

(** The back edges, with the same order. *)
Lemma FindBackEdges_order :
  exists rpo back, reverse_post_order g (walk_fuel g) = Ok rpo /\ FindBackEdges g (walk_fuel g) = Ok back /\
    walk_result rpo /\ length back = n /\
    forall h l c, back !! h = Some l -> c ∈ l <-> reachable g c /\ flow g c h /\ ~ precedes rpo c h.
Proof.
  destruct walk_finishes as (d & Hd & Hr).
  destruct (post_loop_sim g 0 (fin_range g Hfin) (fin_entry g Hfin) (walk_fuel g) _ d (mkPostWalk {[0%nat]} (replicate n 0%nat) [0%nat] []) (walk_inv_start f 0))
    as (H1 & H2 & H3); [apply counts_start|simpl; set_solver|done..|].
  unfold reverse_post_order, FindBackEdges. rewrite H1.
  destruct (back_loop_sim g 0 (fin_range g Hfin) (fin_entry g Hfin) (walk_fuel g) _ d
              (mkBackWalk {[0%nat]} {[0%nat]} (replicate n 0%nat) [0%nat] (replicate n [])) (walk_inv_start f 0))
    as (back & H4 & [H5 H6] & _ & _); [apply counts_start| |simpl; set_solver|done|simpl; set_solver|exact Hd|].
  { split; [apply length_replicate|]. simpl. intros h l c Hl. apply lookup_replicate in Hl as [-> _]. split; [by intros ?%elem_of_nil|].
    intros [[(k & j & Hk & Hj & _)|[Hu _]] _]; simpl in *; [|by apply elem_of_nil in Hu].
    apply list_elem_of_singleton in Hk. injection Hk as -> ->. lia. }
  exists (reverse (d_post d)), back. split; [done|]. split; [exact H4|]. split; [by apply walk_inv_result|]. split; [done|].
  intros h l c Hl. rewrite (H6 h l c Hl). assert (Ho : order d = d_post d) by (unfold order; rewrite H3; apply app_nil_r).
  rewrite Ho, precedes_rev, flow_edge, <- Hr. unfold scanned. rewrite H3. split.
  - intros [[(k & j & Hk & _)|[Hu He]] Hp]; [by apply elem_of_nil in Hk|done].
  - intros (Hu & He & Hp). split; [by right|done].
Qed.

(** ** The order *)

Section Order.
Context (rpo : list nat) (Hwalk : walk_result rpo).
Local Abbreviation index := (rpo_index g rpo).
Local Abbreviation E := (flow g).

Definition position (b : nat) : nat := default n (index !! b).

Lemma reachable_lt b : reachable g b -> (b < n)%nat.
Proof.
  intros Hb. apply rtc_inv_r in Hb as [<-|(u & _ & Hu)]; [apply (fin_entry g Hfin)|]. by apply (fin_range g Hfin u).
Qed.

Lemma index_length : length index = n.
Proof. unfold rpo_index. by rewrite fill_index_length, length_replicate. Qed.

Lemma index_position b : (b < n)%nat -> index !! b = Some (position b).
Proof. intros Hb. unfold position. destruct (lookup_lt_is_Some_2 index b) as [i ->]; [by rewrite index_length|done]. Qed.

Lemma position_lookup b i : rpo !! i = Some b -> position b = i.
Proof.
  intros Hi. unfold position, rpo_index. rewrite (fill_index_spec rpo 0 _ b i); [done|apply (wr_nodup rpo Hwalk)| |done].
  intros c Hc. rewrite length_replicate. by apply reachable_lt, (wr_reach rpo Hwalk).
Qed.

Lemma rpo_lookup b : reachable g b -> rpo !! position b = Some b.
Proof. intros [i Hi]%(wr_reach rpo Hwalk)%list_elem_of_lookup. by rewrite (position_lookup b i Hi). Qed.

Lemma position_lt b : reachable g b -> (position b < length rpo)%nat.
Proof. intros Hb. by apply rpo_lookup, lookup_lt_Some in Hb. Qed.

Lemma rpo_length : (length rpo <= n)%nat.
Proof.
  pose proof (submseteq_length rpo (seq 0 n)) as Hl. rewrite length_seq in Hl. apply Hl, NoDup_submseteq; [apply (wr_nodup rpo Hwalk)|].
  intros b Hb. apply elem_of_seq. apply (wr_reach rpo Hwalk), reachable_lt in Hb. lia.
Qed.

Lemma precedes_position u v : precedes rpo u v <-> reachable g u /\ reachable g v /\ (position u < position v)%nat.
Proof.
  rewrite precedes_lookup. split.
  - intros (i & j & Hlt & Hi & Hj). rewrite (position_lookup u i Hi), (position_lookup v j Hj).
    split_and!; [apply (wr_reach rpo Hwalk); by eapply list_elem_of_lookup_2..|done].
  - intros (Hu & Hv & Hlt). exists (position u), (position v). split; [done|]. split; by apply rpo_lookup.
Qed.

Lemma flow_forward u v : E u v -> precedes rpo u v -> forward E position u v.
Proof. intros He (_ & _ & Hp)%precedes_position. done. Qed.

Lemma order_ok : ordered E 0 position.
Proof.
  assert (Hfwd : forall b, reachable g b -> rtc (forward E position) 0%nat b).
  { intros b. remember (position b) as m eqn:Em. revert b Em. induction m as [m IH] using lt_wf_ind. intros b -> Hb.
    destruct (decide (b = 0%nat)) as [->|Hne]; [apply rtc_refl|].
    destruct (wr_parent rpo Hwalk b Hb Hne) as (u & He & Hp). pose proof Hp as (Hu & _ & Hlt)%precedes_position.
    eapply rtc_r; [by apply (IH (position u) Hlt u)|]. by apply flow_forward. }
  split; [|..|exact Hfwd|].
  - intros u v Hu%rpo_lookup Hv%rpo_lookup Heq. rewrite Heq in Hu. congruence.
  - assert (H0 : reachable g 0%nat) by apply rtc_refl. destruct (rpo !! 0%nat) as [b|] eqn:Hb.
    + assert (Hr : reachable g b) by (apply (wr_reach rpo Hwalk); by eapply list_elem_of_lookup_2).
      destruct (decide (b = 0%nat)) as [->|Hne]; [by apply position_lookup|].
      destruct (wr_parent rpo Hwalk b Hr Hne) as (u & _ & (_ & _ & Hp)%precedes_position).
      rewrite (position_lookup b 0 Hb) in Hp. lia.
    + pose proof (position_lt 0 H0). apply lookup_ge_None in Hb. lia.
  - intros u v Hu He Hle. eapply rtc_subrel; [|apply (wr_back rpo Hwalk u v Hu He)].
    + intros a b [Hab Hp]. by apply flow_forward.
    + intros (_ & _ & Hp)%precedes_position. lia.
Qed.

(** ** [intersect] *)

Local Abbreviation Stage := (stage E 0 position).
Local Abbreviation Chain := (chain 0).

(** The dominator chain of [x] goes up in the order to the entry. *)
Record climbing (D : nat -> option nat) : Prop := {
  cl_entry : D 0%nat = Some 0%nat;
  cl_reached : forall x d, D x = Some d -> reachable g x;
  cl_up : forall x d, D x = Some d -> x <> 0%nat -> (position d < position x)%nat /\ is_Some (D d)
}.

Lemma stage_climbing k i D : Stage k i D -> (0 < i)%nat -> climbing D.
Proof.
  intros Hst Hi. split; [apply (st_entry _ _ _ _ _ _ Hst)|by eapply st_reached|].
  intros x d Hd Hne. pose proof (st_reached _ _ _ _ _ _ Hst x d Hd) as Hx. pose proof order_ok as Hord.
  assert (Hl : exists k', link E 0 position k' x d /\ ((i <= position x)%nat -> k = S k')).
  { destruct (Nat.lt_ge_cases (position x) i) as [Hlt|Hge].
    - destruct (st_done _ _ _ _ _ _ Hst x Hx Hne Hlt) as (w & Hw & Hl). exists k. split; [congruence|lia].
    - destruct (st_old_link _ _ _ _ _ _ _ _ Hst Hx Hne Hge Hd) as (k' & Ek & Hl). by exists k'. }
  destruct Hl as (k' & Hl & Hk). pose proof (link_lt _ _ _ Hord _ _ _ Hx Hl) as Hlt. split; [done|].
  pose proof (link_reached _ _ _ Hord _ _ _ Hx Hl) as Hr.
  destruct (decide (d = 0%nat)) as [->|Hd0]; [rewrite (st_entry _ _ _ _ _ _ Hst); by eexists|].
  destruct (Nat.lt_ge_cases (position d) i) as [Hdi|Hdi].
  - destruct (st_done _ _ _ _ _ _ Hst d Hr Hd0 Hdi) as (w & -> & _). by eexists.
  - pose proof (st_old _ _ _ _ _ _ Hst d Hr Hd0 Hdi) as Ho. rewrite Hk in Ho by lia. destruct Ho as (w & -> & _). by eexists.
Qed.

Section Intersect.
Context (doms : list (option nat)).
Local Abbreviation D := (GetDominator doms).
Context (Hcl : climbing D).

Lemma chain_lt x y : Chain D x y -> is_Some (D x) -> (y = x \/ (position y < position x)%nat) /\ is_Some (D y).
Proof.
  induction 1 as [x|x d y Hd Hne Hc IH]; intros Hx; [by split; [left|]|].
  destruct (cl_up D Hcl x d Hd Hne) as [Hlt Hs]. destruct (IH Hs) as [[->|Hl] Hy]; (split; [right; lia|done]).
Qed.

Lemma chain_le x y : Chain D x y -> is_Some (D x) -> (position y <= position x)%nat.
Proof. intros Hc Hx. destruct (chain_lt x y Hc Hx) as [[->|] _]; lia. Qed.

Lemma chain_trans x y z : Chain D x y -> Chain D y z -> Chain D x z.
Proof. induction 1; [done|]. intros. eapply chain_up; eauto. Qed.

Lemma dom_reachable x : is_Some (D x) -> reachable g x.
Proof. intros [d Hd]. by apply (cl_reached D Hcl x d). Qed.

Lemma dom_position x : is_Some (D x) -> index !! x = Some (position x) /\ (position x < n)%nat.
Proof.
  intros Hx%dom_reachable. split; [by apply index_position, reachable_lt|].
  pose proof (position_lt x Hx). pose proof rpo_length. lia.
Qed.

Lemma climb_ok limit fuel : forall x, is_Some (D x) -> (position x <= fuel)%nat ->
  exists y, climb index fuel doms x limit = Ok y /\ is_Some (D y) /\ (position y <= limit)%nat /\
    (position x <= limit -> y = x)%nat /\
    forall z, (position z <= limit)%nat -> Chain D x z <-> Chain D y z.
Proof.
  induction fuel as [|m IH]; intros x Hx Hf; cbn [climb]; destruct (dom_position x Hx) as [-> _];
    destruct (Nat.ltb_spec limit (position x)) as [Hlt|Hge]; try lia.
  1, 3: exists x; split_and!; [done|done|done|lia|done].
  destruct Hx as [d Hd]. rewrite Hd. assert (Hne : x <> 0%nat).
  { intros ->. rewrite (or_entry _ _ _ order_ok) in Hlt. lia. }
  destruct (cl_up D Hcl x d Hd Hne) as [Hpd Hsd]. destruct (IH d Hsd ltac:(lia)) as (y & Hy & H1 & H2 & H3 & H4).
  exists y. split_and!; [done|done|done|lia|]. intros z Hz. rewrite <- H4 by done. split.
  - inversion 1; subst; [lia|]. by simplify_eq.
  - intros Hc. by eapply chain_up.
Qed.

Lemma intersect_ok fuel : forall l r, is_Some (D l) -> is_Some (D r) ->
  (Nat.max (position l) (position r) <= fuel)%nat ->
  exists z, intersect g index fuel doms l r = Ok z /\ is_Some (D z) /\ forall x, Chain D z x <-> Chain D l x /\ Chain D r x.
Proof.
  assert (Heq : forall l r, is_Some (D l) -> is_Some (D r) -> l <> r -> position l <> position r).
  { intros l r Hl Hr Hne E'. apply Hne, (or_inj _ _ _ order_ok); [by apply dom_reachable..|done]. }
  induction fuel as [|m IH]; intros l r Hl Hr Hf; cbn [intersect]; destruct (Nat.eqb_spec l r) as [->|Hne].
  1, 3: exists r; split_and!; [done|done|tauto].
  - pose proof (Heq l r Hl Hr Hne). lia.
  - pose proof (Heq l r Hl Hr Hne) as Hpne. unfold index_of. destruct (dom_position l Hl) as [-> Hln], (dom_position r Hr) as [-> Hrn].
    cbn [rbind]. destruct (Nat.eqb_spec (position l) n) as [?|_]; [lia|]. destruct (Nat.eqb_spec (position r) n) as [?|_]; [lia|]. cbn [orb].
    destruct (climb_ok (position r) n l Hl ltac:(lia)) as (l' & -> & L1 & L2 & L3 & L4). cbn [rbind].
    destruct (dom_position l' L1) as [-> _]. cbn [rbind].
    destruct (climb_ok (position l') n r Hr ltac:(lia)) as (r' & -> & R1 & R2 & R3 & R4). cbn [rbind].
    destruct (IH l' r' L1 R1) as (z & Hz & Z1 & Z2).
    + destruct (Nat.lt_ge_cases (position r) (position l)) as [?|Hle]; [lia|]. rewrite (L3 Hle) in *. lia.
    + exists z. split_and!; [done|done|]. intros x. rewrite Z2. split.
      * intros [Hx1 Hx2]. pose proof (chain_le _ _ Hx1 L1). split; [apply L4; [lia|done]|apply R4; [lia|done]].
      * intros [Hx1 Hx2]. pose proof (chain_le _ _ Hx2 Hr) as Hxr. assert (Hx1' : Chain D l' x) by (by apply L4).
        split; [done|]. apply R4; [|done]. by eapply chain_le.
Qed.

(** The loop over the predecessors finds the bottom of their common chain. *)
Lemma meet_ok preds : forall acc, (forall a, acc = Some a -> is_Some (D a)) ->
  exists r, meet g index doms preds acc = Ok r /\
    match r with
    | None => acc = None /\ forall p, p ∈ preds -> D p = None
    | Some z => is_Some (D z) /\
        forall x, Chain D z x <-> (forall a, acc = Some a -> Chain D a x) /\ (forall p, p ∈ preds -> is_Some (D p) -> Chain D p x)
    end.
Proof.
  induction preds as [|p preds IH]; intros acc Hacc; cbn [meet].
  - exists acc. split; [done|]. destruct acc as [a|]; [|by split; [|intros p ?%elem_of_nil]].
    split; [by apply Hacc|]. intros x. split; [|intros [H _]; by apply H]. intros Hx. split; [by intros a' [= <-]|by intros p ?%elem_of_nil].
  - destruct (D p) as [d|] eqn:Hp.
    + assert (Hs : is_Some (D p)) by (rewrite Hp; by eexists). destruct acc as [a|].
      * destruct (intersect_ok n p a) as (z & -> & Hz & Hzc); [done|by apply Hacc|..].
        { destruct (dom_position p Hs) as [_ ?], (dom_position a (Hacc a eq_refl)) as [_ ?]. lia. }
        cbn [rbind]. destruct (IH (Some z)) as (r & -> & Hr); [by intros a' [= <-]|]. exists r. split; [done|].
        destruct r as [r|]; [|by destruct Hr]. destruct Hr as [H1 H2]. split; [done|]. intros x. rewrite H2. split.
        -- intros [Hx1 Hx2]. specialize (Hx1 z eq_refl). apply Hzc in Hx1 as [Hpx Hax]. split; [by intros a' [= <-]|].
           intros q [->|Hq]%elem_of_cons Hqs; [done|by apply Hx2].
        -- intros [Hx1 Hx2]. split; [intros a' [= <-]; apply Hzc; split; [apply Hx2; [by left|done]|by apply Hx1]|].
           intros q Hq. apply Hx2. by right.
      * destruct (IH (Some p)) as (r & -> & Hr); [by intros a' [= <-]|]. exists r. split; [done|].
        destruct r as [r|]; [|by destruct Hr]. destruct Hr as [H1 H2]. split; [done|]. intros x. rewrite H2. split.
        -- intros [Hx1 Hx2]. split; [done|]. intros q [->|Hq]%elem_of_cons Hqs; [by apply Hx1|by apply Hx2].
        -- intros [_ Hx2]. split; [intros a' [= <-]; apply Hx2; [by left|done]|]. intros q Hq. apply Hx2. by right.
    + destruct (IH acc Hacc) as (r & -> & Hr). exists r. split; [done|]. destruct r as [r|].
      * destruct Hr as [H1 H2]. split; [done|]. intros x. rewrite H2. split; intros [Hx1 Hx2]; (split; [done|]).
        -- intros q [->|Hq]%elem_of_cons Hqs; [destruct Hqs; congruence|by apply Hx2].
        -- intros q Hq. apply Hx2. by right.
      * destruct Hr as [H1 H2]. split; [done|]. intros q [->|Hq]%elem_of_cons; [done|by apply H2].
Qed.
End Intersect.

(** ** Rounds *)

Definition cost_of (doms : list (option nat)) (c : nat) : nat :=
  match GetDominator doms c with Some w => position w | None => n end.

(** What is left of the way up to the entry. *)
Definition cost (doms : list (option nat)) : nat := sum_list_with (cost_of doms) (seq 0 n).

Lemma sum_list_lt {A} (h h' : A -> nat) (l : list A) b :
  (forall x, x ∈ l -> x <> b -> h' x = h x) -> NoDup l -> b ∈ l -> (h' b < h b)%nat ->
  (sum_list_with h' l < sum_list_with h l)%nat.
Proof.
  induction l as [|y l IH]; intros Heq Hnd Hb Hlt; [by apply elem_of_nil in Hb|]. apply NoDup_cons in Hnd as [Hy Hnd]. simpl.
  apply elem_of_cons in Hb as [->|Hb].
  - assert (sum_list_with h' l = sum_list_with h l) as ->; [|lia].
    assert (Hall : forall x, x ∈ l -> h' x = h x) by (intros x Hx; apply Heq; [by right|by intros ->]).
    clear -Hall. induction l as [|z l IH]; [done|]. simpl. rewrite Hall by (by left). rewrite IH; [done|]. intros x Hx. apply Hall. by right.
  - rewrite (Heq y); [|by left|by intros ->]. specialize (IH ltac:(intros x Hx; apply Heq; by right) Hnd Hb Hlt). lia.
Qed.

Lemma get_insert (doms : list (option nat)) b z c :
  (b < length doms)%nat -> GetDominator (<[b := Some z]> doms) c = if decide (c = b) then Some z else GetDominator doms c.
Proof.
  intros Hb. unfold GetDominator. case_decide as Hc.
  - subst c. by rewrite list_lookup_insert_eq.
  - by rewrite list_lookup_insert_ne.
Qed.

(** The dominator [meet] finds for a block is its link of this round. *)
Lemma meet_link k i doms b :
  Stage k i (GetDominator doms) -> (0 < i)%nat -> reachable g b -> position b = i ->
  exists z, meet g index doms (predecessors g b) None = Ok (Some z) /\ link E 0 position k b z.
Proof.
  intros Hst Hi Hb Hpos. assert (Hne : b <> 0%nat) by (intros ->; rewrite (or_entry _ _ _ order_ok) in Hpos; lia).
  pose proof (stage_climbing k i _ Hst Hi) as Hcl.
  destruct (meet_ok doms Hcl (predecessors g b) None) as (r & Hr & Hspec); [done|].
  destruct (forward_pred E 0 position order_ok k i _ Hst Hi b Hb Hne Hpos) as (u & Hu & [He Hlt] & Hs).
  destruct r as [z|].
  - destruct Hspec as [Hz Hc]. exists z. split; [done|].
    apply (common_link E 0 position order_ok k i _ Hst Hi b Hb Hne Hpos z); [by apply (dom_reachable doms Hcl)|].
    intros x. rewrite Hc. unfold common. split.
    + intros [_ Hx] p Hp Hsp. apply Hx; [|done]. by apply (fin_mirror g Hfin).
    + intros Hx. split; [done|]. intros p Hp Hsp. apply Hx; [|done]. by apply (fin_mirror g Hfin).
  - destruct Hspec as [_ Hnone]. rewrite (Hnone u) in Hs; [by destruct Hs|]. by apply (fin_mirror g Hfin).
Qed.

Lemma dom_round_ok k l : forall i doms changed,
  drop i rpo = l -> (0 < i)%nat -> length doms = n -> Stage k i (GetDominator doms) ->
  exists doms' changed' i', dom_round g index l doms changed = Ok (doms', changed') /\
    length doms' = n /\ (length rpo <= i')%nat /\ Stage k i' (GetDominator doms') /\
    (changed' = false -> changed = false /\ doms' = doms) /\
    (cost doms' <= cost doms)%nat /\ (changed' = true -> changed = true \/ (cost doms' < cost doms)%nat).
Proof.
  induction l as [|b l IH]; intros i doms changed Hl Hi Hlen Hst; cbn [dom_round].
  - exists doms, changed, i. split_and!; try done; [|by left]. apply (f_equal length) in Hl. rewrite length_drop in Hl. simpl in Hl. lia.
  - assert (Hbi : rpo !! i = Some b).
    { assert (Hd : drop i rpo !! 0%nat = Some b) by by rewrite Hl. rewrite lookup_drop, Nat.add_0_r in Hd. done. }
    assert (Hl' : drop (S i) rpo = l) by (pose proof (drop_S _ _ _ Hbi); congruence).
    assert (Hb : reachable g b) by (apply (wr_reach rpo Hwalk); by eapply list_elem_of_lookup_2).
    pose proof (position_lookup b i Hbi) as Hpos. pose proof (reachable_lt b Hb) as Hbn.
    assert (Hne : b <> 0%nat) by (intros ->; rewrite (or_entry _ _ _ order_ok) in Hpos; lia).
    destruct (meet_link k i doms b Hst Hi Hb Hpos) as (z & -> & Hlk). cbn [rbind].
    case_decide as Hd.
    + apply (IH (S i)); [done|lia|done|]. by apply (stage_next E 0 position order_ok k i _ Hst Hi b Hb Hne Hpos z).
    + assert (Hst' : Stage k (S i) (GetDominator (<[b := Some z]> doms))).
      { apply (stage_next E 0 position order_ok k i _ Hst Hi b Hb Hne Hpos z); [done|..].
        - rewrite get_insert by lia. by rewrite decide_True.
        - intros c Hc. rewrite get_insert by lia. by rewrite decide_False. }
      destruct (IH (S i) (<[b := Some z]> doms) true Hl' ltac:(lia) ltac:(by rewrite length_insert) Hst')
        as (doms' & changed' & i' & H1 & H2 & H3 & H4 & H5 & H6 & H7).
      assert (Hcost : (cost (<[b := Some z]> doms) < cost doms)%nat).
      { apply (sum_list_lt _ _ _ b); [|apply NoDup_seq|apply elem_of_seq; lia|].
        - intros c _ Hc. unfold cost_of. rewrite get_insert by lia. by rewrite decide_False.
        - unfold cost_of. rewrite get_insert, decide_True by (done || lia).
          pose proof (link_lt _ _ _ order_ok _ _ _ Hb Hlk) as Hzb. pose proof (position_lt b Hb). pose proof rpo_length.
          destruct (GetDominator doms b) as [w|] eqn:Hw; [|lia].
          apply (link_decreases E 0 position order_ok k i _ Hst Hi b Hb Hne Hpos z w); [done|done|congruence]. }
      exists doms', changed', i'. split_and!; try done; [|lia|intros _; right; lia].
      intros Hf. destruct (H5 Hf) as [? _]. done.
Qed.

(** The loop returns, at a round that changed nothing. *)
Lemma dom_loop_ok fuel : forall k doms,
  length doms = n -> Stage k 1 (GetDominator doms) -> (cost doms < fuel)%nat ->
  exists doms' k' i', dom_loop g index fuel (tail rpo) doms = Ok doms' /\ length doms' = n /\ (length rpo <= i')%nat /\
    Stage k' i' (GetDominator doms') /\ Stage k' 1 (GetDominator doms').
Proof.
  induction fuel as [|m IH]; intros k doms Hlen Hst Hc; [lia|]. cbn [dom_loop].
  destruct (dom_round_ok k (tail rpo) 1 doms false) as (doms' & changed' & i' & -> & H2 & H3 & H4 & H5 & H6 & H7); [by destruct rpo|lia|done..|].
  cbn [rbind fst snd]. destruct changed'.
  - apply (IH (S k)); [done| |destruct (H7 eq_refl); [done|lia]].
    eapply stage_round; [apply order_ok|exact H4|]. intros c Hcr. pose proof (position_lt c Hcr). lia.
  - destruct (H5 eq_refl) as [_ ->]. exists doms, k, i'. done.
Qed.

(** ** The result *)

(** The dominators found: the chain of a block holds exactly its dominators. *)
Record dominators_ok (doms : list (option nat)) : Prop := {
  do_length : length doms = n;
  do_climbing : climbing (GetDominator doms);
  do_immediate : forall c, reachable g c -> c <> 0%nat ->
    exists d, GetDominator doms c = Some d /\ immediate_dominator E 0 d c;
  do_chain : forall c x, reachable g c -> Chain (GetDominator doms) c x <-> dominates E 0 x c
}.

Lemma dominates_entry x : dominates E 0 x 0%nat -> x = 0%nat.
Proof. intros Hd. specialize (Hd [0%nat] (path_entry E 0)). by apply list_elem_of_singleton in Hd. Qed.

Lemma entry_dominates b : dominates E 0 0%nat b.
Proof. intros l Hl. induction Hl; set_solver. Qed.

Lemma start_stage : Stage 0 1 (GetDominator (<[0%nat := Some 0%nat]> (replicate n None))).
Proof.
  pose proof (fin_entry g Hfin) as H0. apply stage_start.
  - apply order_ok.
  - rewrite get_insert by (by rewrite length_replicate). done.
  - intros c Hc. rewrite get_insert by (by rewrite length_replicate). rewrite decide_False by done. unfold GetDominator.
    destruct (replicate n None !! c) as [o|] eqn:Hl; [|done]. by apply lookup_replicate in Hl as [-> _].
Qed.

Lemma start_cost : (cost (<[0%nat := Some 0%nat]> (replicate n None)) < dom_fuel g)%nat.
Proof.
  unfold dom_fuel, cost. assert (Hle : forall l, (sum_list_with (cost_of (<[0%nat:=Some 0%nat]> (replicate n None))) l <= length l * n)%nat).
  { induction l as [|c l IH]; simpl; [lia|]. unfold cost_of at 1. rewrite get_insert by (rewrite length_replicate; apply (fin_entry g Hfin)).
    case_decide; [rewrite (or_entry _ _ _ order_ok); lia|]. unfold GetDominator.
    destruct (replicate n None !! c) as [o|] eqn:Hl; simpl; [apply lookup_replicate in Hl as [-> _]; simpl|]; lia. }
  specialize (Hle (seq 0 n)). rewrite length_seq in Hle. lia.
Qed.

Lemma dominators_found :
  exists doms, dom_loop g index (dom_fuel g) (tail rpo) (<[0%nat := Some 0%nat]> (replicate n None)) = Ok doms /\ dominators_ok doms.
Proof.
  destruct (dom_loop_ok (dom_fuel g) 0 (<[0%nat := Some 0%nat]> (replicate n None))) as (doms & k & i & H1 & H2 & H3 & H4 & H5).
  - by rewrite length_insert, length_replicate.
  - apply start_stage.
  - apply start_cost.
  - exists doms. split; [done|].
    assert (Hall : forall c, reached E 0 c -> (position c < i)%nat) by (intros c Hc; pose proof (position_lt c Hc); lia).
    pose proof (stage_stable E 0 position order_ok k i _ H4 H5 Hall) as Hst. split; [done|by eapply stage_climbing; [exact H5|lia]|..].
    + intros c Hc Hne. destruct (Hst c Hc Hne) as (d & Hd & _ & _ & Hi & _). by exists d.
    + intros c x Hc. destruct (decide (c = 0%nat)) as [->|Hne]; [|by destruct (Hst c Hc Hne) as (d & _ & _ & _ & _ & Hx)].
      rewrite (chain_entry 0). split; [|apply dominates_entry]. intros ->. apply entry_dominates.
Qed.

(** ** Frontiers *)

Definition in_frontier (F : list (list nat)) (x y : nat) : Prop := exists l, F !! x = Some l /\ y ∈ l.

Section Frontiers.
Context (doms : list (option nat)) (Hd : dominators_ok doms).
Local Abbreviation D := (GetDominator doms).

Lemma in_frontier_push F r y x z :
  (r < length F)%nat -> in_frontier (alter (fun l => l ++ [y]) r F) x z <-> in_frontier F x z \/ (x = r /\ z = y).
Proof.
  intros Hr. unfold in_frontier. destruct (decide (x = r)) as [->|Hne].
  - rewrite list_lookup_alter_eq. destruct (lookup_lt_is_Some_2 F r Hr) as [l0 ->]. simpl. split.
    + intros (l & [= <-] & [Hz|Hz%list_elem_of_singleton]%elem_of_app); [left; by eexists|by right].
    + intros [(l & [= ->] & Hz)|[_ ->]]; eexists; (split; [done|]); apply elem_of_app; [by left|right; by left].
  - rewrite list_lookup_alter_ne by done. naive_solver.
Qed.

Lemma push_ok block d fuel : forall runner F,
  length F = n -> is_Some (D runner) -> Chain D runner d -> (position runner - position d <= fuel)%nat ->
  exists F', push_frontier fuel doms block (Some d) runner F = Ok F' /\ length F' = n /\
    forall x y, in_frontier F' x y <-> in_frontier F x y \/ (y = block /\ Chain D runner x /\ ~ Chain D d x).
Proof.
  pose proof (do_climbing doms Hd) as Hcl.
  induction fuel as [|m IH]; intros runner F Hlen Hs Hc Hf; cbn [push_frontier]; case_decide as Heq.
  1, 3: injection Heq as ->; exists F; split_and!; [done|done|]; intros x y; tauto.
  - inversion Hc as [|? e ? He Hne Hce]; subst; [done|]. destruct (cl_up D Hcl _ _ He Hne) as [Hlt Hse].
    pose proof (chain_le doms Hcl _ _ Hce Hse). lia.
  - inversion Hc as [|? e ? He Hne Hce]; subst; [done|]. rewrite He. destruct (cl_up D Hcl _ _ He Hne) as [Hlt Hse].
    pose proof (chain_le doms Hcl _ _ Hce Hse) as Hle.
    destruct (IH e (alter (fun l => l ++ [block]) runner F)) as (F' & -> & Hl' & HF); [by rewrite length_alter|done|done|lia|].
    exists F'. split_and!; [done|done|]. intros x y. rewrite HF.
    rewrite in_frontier_push by (rewrite Hlen; apply reachable_lt; by apply (dom_reachable doms Hcl)).
    rewrite (chain_step 0 D runner e x He Hne).
    assert (~ Chain D d runner); [|naive_solver]. intros Hdr.
    assert (Hsd : is_Some (D d)) by (by apply (chain_lt doms Hcl runner d)).
    pose proof (chain_le doms Hcl _ _ Hdr Hsd). lia.
Qed.

Lemma block_frontier_ok block d preds : forall F,
  GetDominator doms block = Some d -> length F = n -> (forall p, p ∈ preds -> is_Some (D p) -> Chain D p d) ->
  exists F', block_frontier g doms block preds F = Ok F' /\ length F' = n /\
    forall x y, in_frontier F' x y <-> in_frontier F x y \/
      (y = block /\ exists p, p ∈ preds /\ is_Some (D p) /\ Chain D p x /\ ~ Chain D d x).
Proof.
  induction preds as [|p preds IH]; intros F Hb Hlen Hc; cbn [block_frontier].
  - exists F. split_and!; [done|done|]. intros x y. split; [by left|]. intros [?|(_ & p & []%elem_of_nil & _)]; done.
  - destruct (D p) as [dp|] eqn:Hp.
    + assert (Hs : is_Some (D p)) by (rewrite Hp; by eexists). rewrite Hb.
      destruct (push_ok block d (S n) p F Hlen Hs) as (F1 & -> & H1 & H2).
      { apply Hc; [by left|done]. }
      { pose proof (dom_position doms (do_climbing doms Hd) p Hs). lia. }
      cbn [rbind]. destruct (IH F1 Hb H1) as (F' & -> & H3 & H4); [intros q Hq; apply Hc; by right|].
      exists F'. split_and!; [done|done|]. intros x y. rewrite H4, H2. setoid_rewrite elem_of_cons. naive_solver.
    + destruct (IH F Hb Hlen) as (F' & -> & H3 & H4); [intros q Hq; apply Hc; by right|].
      exists F'. split_and!; [done|done|]. intros x y. rewrite H4. setoid_rewrite elem_of_cons.
      assert (~ is_Some (D p)) by (rewrite Hp; by intros [? ?]). naive_solver.
Qed.

(** [y] is put into the frontier of [x]. *)
Definition joins (x y : nat) : Prop :=
  (1 < length (predecessors g y))%nat /\
  exists p d, p ∈ predecessors g y /\ D y = Some d /\ is_Some (D p) /\ Chain D p x /\ ~ Chain D d x.

(** The walk from a predecessor reaches the dominator of the block. *)
Lemma reaches_dominator b :
  reachable g b -> exists d, D b = Some d /\ forall p, p ∈ predecessors g b -> is_Some (D p) -> Chain D p d.
Proof.
  pose proof (do_climbing doms Hd) as Hcl. intros Hb. destruct (decide (b = 0%nat)) as [->|Hne].
  - exists 0%nat. split; [apply (cl_entry D Hcl)|]. intros p _ Hp.
    apply (do_chain doms Hd); [by apply (dom_reachable doms Hcl)|]. apply entry_dominates.
  - destruct (do_immediate doms Hd b Hb Hne) as (d & Hd1 & Hi1 & Hi2 & _). exists d. split; [done|].
    intros p Hp Hs. apply (do_chain doms Hd); [by apply (dom_reachable doms Hcl)|]. intros path Hpath.
    apply (fin_mirror g Hfin) in Hp. specialize (Hi1 (b :: path) (path_edge _ _ _ _ _ Hpath Hp)). set_solver.
Qed.

Lemma find_frontiers_ok l : forall F,
  length F = n -> (forall y, y ∈ l -> reachable g y) ->
  exists F', find_frontiers g doms l F = Ok F' /\ length F' = n /\
    forall x y, in_frontier F' x y <-> in_frontier F x y \/ (y ∈ l /\ joins x y).
Proof.
  induction l as [|b l IH]; intros F Hlen Hl; cbn [find_frontiers].
  - exists F. split_and!; [done|done|]. intros x y. split; [by left|]. intros [?|[[]%elem_of_nil _]]; done.
  - destruct (reaches_dominator b) as (d & Hdb & Hc); [apply Hl; by left|].
    assert (Hstep : exists F1, (if (1 <? length (predecessors g b))%nat then block_frontier g doms b (predecessors g b) F else Ok F) = Ok F1 /\
              length F1 = n /\ forall x y, in_frontier F1 x y <-> in_frontier F x y \/ (y = b /\ joins x y)).
    { destruct (Nat.ltb_spec 1 (length (predecessors g b))) as [Hlt|Hge].
      - destruct (block_frontier_ok b d (predecessors g b) F Hdb Hlen Hc) as (F1 & H1 & H2 & H3). exists F1. split_and!; [done|done|].
        intros x y. rewrite H3. unfold joins. split; (intros [?|[-> H]]; [by left|right; split; [done|]]).
        + destruct H as (p & Hp & Hs & H). split; [done|]. by exists p, d.
        + destruct H as (_ & p & d' & Hp & Hd' & Hs & H). rewrite Hdb in Hd'. injection Hd' as <-. by exists p.
      - exists F. split_and!; [done|done|]. intros x y. split; [by left|]. intros [?|[-> [? _]]]; [done|lia]. }
    destruct Hstep as (F1 & -> & H1 & H2). cbn [rbind].
    destruct (IH F1 H1) as (F' & -> & H3 & H4); [intros y Hy; apply Hl; by right|]. exists F'. split_and!; [done|done|].
    intros x y. rewrite H4, H2. rewrite elem_of_cons. naive_solver.
Qed.
End Frontiers.
End Order.
End Finished.
