(* ===== verification/CfgAnalysisProps.v ===== *)
(** * What the control-flow analysis finds

    The results of CfgAnalysis.v on a finished function: immediate dominators,
    dominance frontiers and back edges in the terms of the graph's paths, and that
    [EndFunction] leaves such a function; a loop with two exits as an example. *)

From Stdlib Require Import ZArith Lia.
From stdpp Require Import numbers base gmap sets list relations.
From S2P Require Import Prelude MachineInt IRTypes Instr InstrBuild Interp HirValues Cfg CfgProps HirFunction HirGraph HirTargets.
From S2P Require Import CfgAnalysis Dominance CfgWalk CfgDominators.

Local Open Scope Z_scope.
Local Open Scope svm_scope.

Local Abbreviation dom g := (dominates (flow g) 0).

Lemma ComputeDominance_ok g :
  linked g -> exists rpo doms F, ComputeDominanceInformation g = Ok (rpo, doms, F) /\
    walk_result g rpo /\ dominators_ok g rpo doms /\ length F = MaxBlockCount g /\
    forall x y, in_frontier F x y <-> y ∈ rpo /\ joins g doms x y.
Proof.
  intros Hfin. destruct (reverse_post_order_ok g Hfin) as (rpo & Hr & Hw). unfold ComputeDominanceInformation. rewrite Hr. cbn [rbind].
  destruct (dominators_found g Hfin rpo Hw) as (doms & -> & Hd). cbn [rbind].
  destruct (find_frontiers_ok g Hfin rpo Hw doms Hd rpo (replicate (MaxBlockCount g) [])) as (F & -> & HF1 & HF2).
  - apply length_replicate.
  - intros y Hy. by apply (wr_reach g rpo Hw).
  - cbn [rbind]. exists rpo, doms, F. split_and!; [done..|]. intros x y. rewrite HF2. split; [|by right].
    intros [(l & Hl & Hy)|?]; [|done]. apply lookup_replicate in Hl as [-> _]. by apply elem_of_nil in Hy.
Qed.


(** ** Frontiers *)

(** A reachable block has a predecessor before it. *)
Lemma single_predecessor g y p :
  linked g -> reachable g y -> y <> 0%nat -> (length (predecessors g y) <= 1)%nat -> p ∈ predecessors g y ->
  reachable g p /\ ~ dom g y p.
Proof.
  intros Hfin Hy Hne Hlen Hp. destruct (reverse_post_order_ok g Hfin) as (rpo & _ & Hw).
  destruct (wr_parent g rpo Hw y Hy Hne) as (u & He & Hu). pose proof He as Hu'. apply (fin_mirror g Hfin) in Hu'.
  assert (u = p) as ->.
  { destruct (predecessors g y) as [|q [|]]; [by apply elem_of_nil in Hp| |simpl in Hlen; lia].
    apply list_elem_of_singleton in Hp, Hu'. congruence. }
  apply (precedes_position g Hfin rpo Hw) in Hu as (Hr & _ & Hlt). split; [done|]. intros Hd.
  pose proof (proj1 (dominates_on_all (flow g) 0 (position g rpo) y p) Hd 0%nat) as Ha.
  pose proof (on_all_idx _ _ _ (order_ok g Hfin rpo Hw) 0 p y Hr Ha). lia.
Qed.


(** The back edges found are the edges of reachable blocks that do not go forward in the
    reverse post order; every cycle of reachable blocks takes one. *)
Theorem back_edges_found (g : HIRFunction) :
  linked g ->
  exists rpo back, reverse_post_order g (walk_fuel g) = Ok rpo /\ FindBackEdges g (walk_fuel g) = Ok back /\
    (forall h l c, back !! h = Some l -> c ∈ l <-> reachable g c /\ flow g c h /\ ~ precedes rpo c h) /\
    (forall c, reachable g c -> ~ tc (fun u v => flow g u v /\ ~ in_frontier back v u) c c).
Proof.
  intros Hfin. destruct (FindBackEdges_order g Hfin) as (rpo & back & Hr & Hb & Hw & Hlen & Hback).
  exists rpo, back. split_and!; [done..|]. intros c Hc Ht.
  assert (Hfwd : forall u v, reachable g u -> flow g u v -> ~ in_frontier back v u -> precedes rpo u v).
  { intros u v Hu He Hn. assert (Hv : reachable g v) by (eapply rtc_r; [exact Hu|exact He]).
    destruct (precedes_total rpo u v) as [->|[Hp|Hp]]; [by apply (wr_reach g rpo Hw)|by apply (wr_reach g rpo Hw)| |done|].
    all: destruct Hn; destruct (lookup_lt_is_Some_2 back v) as [l Hl]; [rewrite Hlen; by apply (reachable_lt g Hfin)|];
      exists l; split; [done|]; apply (Hback v l _ Hl); split_and!; [done..|].
    - apply precedes_irrefl, (wr_nodup g rpo Hw).
    - by apply precedes_asym; [apply (wr_nodup g rpo Hw)|]. }
  assert (Hp : precedes rpo c c); [|by apply (precedes_irrefl rpo c) in Hp; [|apply (wr_nodup g rpo Hw)]].
  assert (Hgen : forall u v, tc (fun u v => flow g u v /\ ~ in_frontier back v u) u v -> reachable g u -> precedes rpo u v /\ reachable g v).
  { intros u v H. induction H as [u v [He Hn]|u v w [He Hn] _ IH]; intros Hu.
    - split; [by apply Hfwd|]. eapply rtc_r; [exact Hu|exact He].
    - assert (Hv : reachable g v) by (eapply rtc_r; [exact Hu|exact He]). destruct (IH Hv) as [Hvw Hw']. split; [|done].
      pose proof (Hfwd u v Hu He Hn) as Huv. rewrite (precedes_position g Hfin rpo Hw) in Huv, Hvw |- *. naive_solver lia. }
  by apply Hgen.
Qed.

(** ** [EndFunction] leaves such a function *)

Lemma occurrences_elem b l : (0 < occurrences b l)%nat <-> b ∈ l.
Proof.
  unfold occurrences. split.
  - destruct (filter (fun c => c = b) l) as [|x k] eqn:E; [simpl; lia|]. intros _.
    assert (Hx : x ∈ filter (fun c => c = b) l) by (rewrite E; by left). apply list_elem_of_filter in Hx as [-> Hx]. done.
  - intros Hb. assert (Hx : b ∈ filter (fun c => c = b) l) by by apply list_elem_of_filter.
    destruct (filter _ l); [by apply elem_of_nil in Hx|simpl; lia].
Qed.

Lemma EndFunction_linked (s s' : HState) :
  graph_ok (hs_fn s) -> Z.of_nat (length (hf_blocks (hs_fn s))) < 2 ^ 16 -> hf_blocks (hs_fn s) <> [] ->
  EndFunction s = Ok (tt, s') ->
  linked (hs_fn s') /\ hf_vector (hs_fn s') = Some <$> seq 0 (MaxBlockCount (hs_fn s')).
Proof.
  intros Hok Hlen Hne Hrun. destruct (EndFunction_ended s Hok Hlen) as (f' & Hrun' & He).
  rewrite Hrun in Hrun'. injection Hrun' as ->. simpl.
  assert (Hn : MaxBlockCount f' = length (hf_blocks (hs_fn s))) by (unfold MaxBlockCount; by rewrite (en_blocks _ _ He), length_fmap).
  split; [|by rewrite (en_vector _ _ He), Hn]. split.
  - rewrite Hn. destruct (hf_blocks (hs_fn s)); [done|simpl; lia].
  - intros b c Hc. pose proof (ended_in_range _ _ Hok He b c) as Hr. unfold in_range, edge, next_blocks in Hr. apply Hr.
    unfold successors in Hc. destruct (hf_blocks f' !! b); simpl in *; [by apply elem_of_app; left|by apply elem_of_nil in Hc].
  - assert (Hr : forall b c, c ∈ successors f' b -> (c < MaxBlockCount f')%nat).
    { intros b c Hc. pose proof (ended_in_range _ _ Hok He b c) as Hr. unfold in_range, edge, next_blocks in Hr. apply Hr.
      unfold successors in Hc. destruct (hf_blocks f' !! b); simpl in *; [by apply elem_of_app; left|by apply elem_of_nil in Hc]. }
    assert (Hp : forall b c, c ∈ predecessors f' b -> (c < MaxBlockCount f')%nat).
    { intros b c Hc. unfold predecessors in Hc. destruct (hf_blocks f' !! b) as [x'|] eqn:Hx'; [|by apply elem_of_nil in Hc]. simpl in Hc.
      destruct (ended_block _ _ _ _ He Hx') as (x & Hx & ->). simpl in Hc. apply list_elem_of_omap in Hc as (e & Hin & Hv).
      destruct (go_in _ Hok b x e Hx Hin) as (ed & Hed & _). rewrite Hed in Hv. simpl in Hv. injection Hv as <-.
      rewrite Hn. apply lookup_lt_is_Some. by apply (go_edges _ Hok e). }
    intros a b.
    destruct (decide (a < MaxBlockCount f')%nat) as [Ha|Ha]; [|split; intros H; [|by apply Hp in H]]; cycle 1.
    { unfold successors in H. rewrite (lookup_ge_None_2 (hf_blocks f') a) in H; [by apply elem_of_nil in H|]. unfold MaxBlockCount in Ha. lia. }
    destruct (decide (b < MaxBlockCount f')%nat) as [Hb|Hb]; [|split; intros H; [by apply Hr in H|]]; cycle 1.
    { unfold predecessors in H. rewrite (lookup_ge_None_2 (hf_blocks f') b) in H; [by apply elem_of_nil in H|]. unfold MaxBlockCount in Hb. lia. }
    apply lookup_lt_is_Some in Ha as [x' Hx'], Hb as [y' Hy']. unfold successors, predecessors. rewrite Hx', Hy'. simpl.
    destruct (ended_block _ _ _ _ He Hx') as (x & Hx & ->), (ended_block _ _ _ _ He Hy') as (y & Hy & ->). simpl.
    rewrite <- !occurrences_elem, !omap_occurrences. by rewrite (edges_mirror (hs_fn s) a b x y).
Qed.

(** ** Examples *)

Local Open Scope nat_scope.

(** The two directions of a link agree, and stay in the function. *)
Definition linked_check (g : HIRFunction) : bool :=
  (0 <? MaxBlockCount g)%nat &&
  forallb (fun a => forallb (fun b => (b <? MaxBlockCount g)%nat && bool_decide (a ∈ predecessors g b)) (successors g a) &&
                    forallb (fun b => bool_decide (a ∈ successors g b)) (predecessors g a)) (seq 0 (MaxBlockCount g)).

Lemma linked_check_sound g : linked_check g = true -> linked g.
Proof.
  intros [Hn Hall]%andb_prop. apply Nat.ltb_lt in Hn. rewrite forallb_forall in Hall.
  assert (Ha : forall a, (a < MaxBlockCount g)%nat ->
    (forall b, b ∈ successors g a -> (b < MaxBlockCount g)%nat /\ a ∈ predecessors g b) /\
    (forall b, b ∈ predecessors g a -> a ∈ successors g b)).
  { intros a Ha. specialize (Hall a). apply andb_prop in Hall as [H1 H2]; [|apply in_seq; lia].
    rewrite forallb_forall in H1, H2. split; intros b Hb%list_elem_of_In.
    - specialize (H1 b Hb). apply andb_prop in H1 as [H1 H3]. apply Nat.ltb_lt in H1. by apply bool_decide_eq_true in H3.
    - specialize (H2 b Hb). by apply bool_decide_eq_true in H2. }
  assert (Hout : forall a, (MaxBlockCount g <= a)%nat -> successors g a = [] /\ predecessors g a = []).
  { intros a Hge. unfold successors, predecessors. by rewrite (lookup_ge_None_2 (hf_blocks g) a). }
  split; [done|..].
  - intros b c Hc. destruct (Nat.lt_ge_cases b (MaxBlockCount g)) as [Hb|Hb]; [by apply (Ha b Hb)|].
    destruct (Hout b Hb) as [E _]. rewrite E in Hc. by apply elem_of_nil in Hc.
  - intros a b. split; intros H.
    + destruct (Nat.lt_ge_cases a (MaxBlockCount g)) as [Hl|Hl]; [by apply (Ha a Hl)|].
      destruct (Hout a Hl) as [E _]. rewrite E in H. by apply elem_of_nil in H.
    + destruct (Nat.lt_ge_cases b (MaxBlockCount g)) as [Hl|Hl]; [by apply (Ha b Hl)|].
      destruct (Hout b Hl) as [_ E]. rewrite E in H. by apply elem_of_nil in H.
Qed.

Definition plain_block (id : Z) (preds succs : list nat) : HIRBlock :=
  mkHIRBlock id id 0 (mkBlock [] Invalid) 0 [] [] [] preds succs None false.

Definition irreducible : HIRFunction :=
  graph_function
    [plain_block 0 [] [1]; plain_block 1 [0] [2; 3]; plain_block 2 [1] [4; 5]; plain_block 3 [1; 4] [4];
     plain_block 4 [2; 3] [3; 5]; plain_block 5 [2; 4] []]%nat (Some 0%nat) [] [].

Lemma irreducible_linked : linked irreducible.
Proof. apply linked_check_sound. vm_compute. reflexivity. Qed.

Lemma irreducible_reachable b : (0 < b < 6)%nat -> reachable irreducible b.
Proof.
  intros Hb. assert (H1 : reachable irreducible 1%nat) by (apply rtc_once; vm_compute; left).
  assert (H2 : reachable irreducible 2%nat) by (eapply rtc_r; [exact H1|vm_compute; left]).
  assert (H3 : reachable irreducible 3%nat) by (eapply rtc_r; [exact H1|vm_compute; right; left]).
  assert (H4 : reachable irreducible 4%nat) by (eapply rtc_r; [exact H2|vm_compute; left]).
  assert (H5 : reachable irreducible 5%nat) by (eapply rtc_r; [exact H2|vm_compute; right; left]).
  destruct b as [|[|[|[|[|[|b]]]]]]; try done; lia.
Qed.



(** The edge from right to loop is a back edge. *)
Lemma back_edges_found_witness :
  exists rpo back, FindBackEdges irreducible (walk_fuel irreducible) = Ok back /\
    forall c, c ∈ default [] (back !! 4%nat) <-> reachable irreducible c /\ flow irreducible c 4 /\ ~ precedes rpo c 4.
Proof.
  destruct (back_edges_found irreducible irreducible_linked) as (rpo & back & _ & Hb & H & _).
  exists rpo, back. split; [exact Hb|]. intros c. vm_compute in Hb. injection Hb as <-. apply (H 4%nat). vm_compute. reflexivity.
Defined.
