(* ===== verification/Frontier.v ===== *)
(** * Splitting decoded blocks at new entries

    Model of [FunctionDecodeFrontier] (translator/x86/function_decode_frontier.cpp):
    for an address inside a decoded block it finds the block that owns it and
    keeps, for each address asked about, a record with its provenance, which
    goes from candidate to accepted or rejected once. *)

From Stdlib Require Import ZArith Lia.
From stdpp Require Import numbers base gmap list sorting.
From S2P Require Import Prelude MachineInt IRTypes Instr InstrBuild Interp HirValues Cfg HirFunction.

Local Open Scope Z_scope.
Local Open Scope svm_scope.

Inductive Disposition := Candidate | Accepted | Rejected.
Inductive Rejection := RejNone | NoOwner | AmbiguousOwner | OwnerResetFailed | BoundaryMismatch.

#[export] Instance Disposition_eq_dec : EqDecision Disposition.
Proof. solve_decision. Defined.
#[export] Instance Rejection_eq_dec : EqDecision Rejection.
Proof. solve_decision. Defined.

Record Provenance := mkProvenance {
  pv_target : Z;
  pv_owner_start : Z;
  pv_owner_end : Z;
  pv_dependencies : list (Z * Z);
  pv_disposition : Disposition;
  pv_rejection : Rejection;
  pv_call_return_owned : bool;
  pv_call_return_boundary : bool;
  pv_external_root : bool
}.

(** [FunctionDecodeFrontier::Record]. *)
Record FrontierRecord := mkFrontierRecord {
  rec_provenance : Provenance;
  rec_owner : option nat
}.

Record Split := mkSplit {
  sp_owner : option nat;
  sp_target : Z;
  sp_provenance : Provenance
}.

(** The [std::map] of records with the function they are about; [fr_function] is
    [None] for a frontier made with a null function. *)
Record Frontier := mkFrontier {
  fr_heap : Heap;
  fr_function : option HIRFunction;
  fr_records : gmap Z FrontierRecord
}.

Definition set_records (r : gmap Z FrontierRecord) (s : Frontier) : Frontier :=
  mkFrontier (fr_heap s) (fr_function s) r.

Definition emplace_record (target : Z) (r : FrontierRecord) : ST Frontier unit :=
  modify (fun s => set_records (<[target := r]> (fr_records s)) s).

(** A method of the function; a null pointer is dereferenced otherwise. *)
Definition on_function {A} (m : ST HState A) : ST Frontier A := fun s =>
  match fr_function s with
  | None => Err EUndefined
  | Some f => r <-? m (mkHState (fr_heap s) f);
              Ok (fst r, mkFrontier (hs_heap (snd r)) (Some (hs_fn (snd r))) (fr_records s))
  end.

(** [DecodedEnd]: the start and the length of every instruction boundary. *)
Fixpoint decoded_length (h : Heap) (insts : list Ptr) (end_ : Z) : Res Z :=
  match insts with
  | [] => Ok end_
  | p :: insts' =>
      i <-? deref h p;
      if op_eqb (i_op i) OpCode_AdvancePC
      then m <-? GetArg_Imm i 0; decoded_length h insts' (wrap 64 (end_ + Imm_Get m))
      else decoded_length h insts' end_
  end.

Definition DecodedEnd (h : Heap) (x : HIRBlock) : Res Z :=
  decoded_length h (b_insts (hb_block x)) (hb_location x).

(** ** [FindSplit] *)

Definition set_disposition (d : Disposition) (r : Rejection) (p : Provenance) : Provenance :=
  mkProvenance (pv_target p) (pv_owner_start p) (pv_owner_end p) (pv_dependencies p) d r
    (pv_call_return_owned p) (pv_call_return_boundary p) (pv_external_root p).

Definition set_external_root (b : bool) (p : Provenance) : Provenance :=
  mkProvenance (pv_target p) (pv_owner_start p) (pv_owner_end p) (pv_dependencies p) (pv_disposition p)
    (pv_rejection p) (pv_call_return_owned p) (pv_call_return_boundary p) b.

(** A fresh record. *)
Definition new_provenance (target : Z) (external_root : bool) : Provenance :=
  mkProvenance target 0 0 [] Candidate RejNone false false external_root.

(** [capture_owner]. *)
Definition capture_owner (h : Heap) (f : HIRFunction) (target : Z) (external_root : bool) (b : nat)
  : Res FrontierRecord :=
  match hf_blocks f !! b with
  | None => Err EUndefined
  | Some x =>
      e <-? DecodedEnd h x;
      boundary <-? match hb_call_return x with
                   | None => Ok false
                   | Some c => match hf_blocks f !! c with
                               | Some y => Ok (hb_location y =? target)
                               | None => Err EUndefined
                               end
                   end;
      Ok (mkFrontierRecord
            (mkProvenance target (hb_location x) e (hb_dependencies x) Candidate RejNone
               (bool_decide (is_Some (hb_call_return x))) boundary external_root)
            (Some b))
  end.

(** Whether block [b] is decoded and [target] is strictly inside it. *)
Definition spans (h : Heap) (f : HIRFunction) (target : Z) (b : nat) : Res bool :=
  match hf_blocks f !! b with
  | None => Err EUndefined
  | Some x =>
      match b_insts (hb_block x) with
      | [] => Ok false
      | _ => e <-? DecodedEnd h x; Ok (negb ((target <=? hb_location x) || (e <=? target)))
      end
  end.

(** The loop over the blocks: the owner, and whether a second one was met. *)
Fixpoint find_owner (h : Heap) (f : HIRFunction) (target : Z) (l : list nat) (owner : option nat)
  : Res (option nat * bool) :=
  match l with
  | [] => Ok (owner, false)
  | b :: l' =>
      inside <-? spans h f target b;
      if inside : bool then
        match owner with
        | Some _ => Ok (owner, true)
        | None => find_owner h f target l' (Some b)
        end
      else find_owner h f target l' owner
  end.

Definition FindSplit (target : Z) (external_root record_missing_owner : bool) : ST Frontier (option Split) :=
  s <- get;;
  match fr_records s !! target with
  | Some r =>
      if decide (pv_disposition (rec_provenance r) <> Candidate) then ret None
      else
        let p := set_external_root (pv_external_root (rec_provenance r) || external_root) (rec_provenance r) in
        emplace_record target (mkFrontierRecord p (rec_owner r));;;
        ret (Some (mkSplit (rec_owner r) target p))
  | None =>
      let missing := mkFrontierRecord (set_disposition Rejected NoOwner (new_provenance target external_root)) None in
      match fr_function s with
      | None => (if record_missing_owner then emplace_record target missing else ret tt);;; ret None
      | Some f =>
          found <- lift (find_owner (fr_heap s) f target (hf_block_list f) None);;
          match found with
          | (None, _) => (if record_missing_owner then emplace_record target missing else ret tt);;; ret None
          | (Some b, ambiguous) =>
              r <- lift (capture_owner (fr_heap s) f target external_root b);;
              if ambiguous : bool then
                emplace_record target (mkFrontierRecord (set_disposition Rejected AmbiguousOwner (rec_provenance r)) (rec_owner r));;;
                ret None
              else
                emplace_record target r;;;
                ret (Some (mkSplit (Some b) target (rec_provenance r)))
          end
      end
  end.

Definition FindInternalSplit (target : Z) : ST Frontier (option Split) := FindSplit target false true.
Definition FindExternalSplit (target : Z) : ST Frontier (option Split) := FindSplit target true false.

(** ** External roots *)

Inductive OwnerPolicy := AnyOwner | InteriorOwner.

(** [++sources\[link.target\]], a [u32]. *)
Definition count_source (m : gmap Z Z) (link : nat * Z) : gmap Z Z :=
  <[snd link := wrap 32 (default 0 (m !! snd link) + 1)]> m.

(** The entries of a [std::map] in order. *)
Definition sorted_keys {A} (m : gmap Z A) : list Z := merge_sort Z.le (elements (dom m)).

(** [std::unique] on a sorted vector. *)
Fixpoint unique_adjacent (l : list Z) : list Z :=
  match l with
  | x :: (y :: _) as l' => if x =? y then unique_adjacent l' else x :: unique_adjacent l'
  | _ => l
  end.

Fixpoint discover (start : Z) (minimum_sources : Z) (policy : OwnerPolicy) (sources : gmap Z Z) (targets : list Z)
  : ST Frontier (list Z) :=
  match targets with
  | [] => ret []
  | target :: targets' =>
      let skip := discover start minimum_sources policy sources targets' in
      if default 0 (sources !! target) <? minimum_sources then skip
      else
        split <- FindExternalSplit target;;
        match split with
        | None => skip
        | Some sp =>
            match policy with
            | InteriorOwner =>
                if pv_owner_start (sp_provenance sp) =? start then skip
                else rest <- skip;; ret (target :: rest)
            | AnyOwner => rest <- skip;; ret (target :: rest)
            end
        end
  end.

(** [DiscoverExternalRoots]; [start] is the start of the [ir::Function]. *)
Definition DiscoverExternalRoots (start : Z) (minimum_sources : Z) (policy : OwnerPolicy) : ST Frontier (list Z) :=
  guard (0 <? minimum_sources) EPanic;;;
  s <- get;;
  let sources := match fr_function s with
                 | Some f => foldl count_source ∅ (hf_external_links f)
                 | None => ∅
                 end in
  discover start minimum_sources policy sources (sorted_keys sources).

(** ** Deciding a candidate *)

Definition IsAccepted (s : Frontier) (target : Z) : bool :=
  match fr_records s !! target with
  | Some r => bool_decide (pv_disposition (rec_provenance r) = Accepted)
  | None => false
  end.

Definition settle (target : Z) (d : Disposition) (reason : Rejection) : ST Frontier FrontierRecord :=
  s <- get;;
  match fr_records s !! target with
  | None => fail EPanic
  | Some r =>
      let r' := mkFrontierRecord (set_disposition d reason (rec_provenance r)) (rec_owner r) in
      emplace_record target r';;; ret r'
  end.

Definition Accept (target : Z) : ST Frontier unit :=
  r <- settle target Accepted RejNone;;
  if pv_external_root (rec_provenance r)
  then on_function (root <- CreateOrGetBlock target;; RegisterExternalEntryRoot root)
  else ret tt.

Definition Reject (target : Z) (reason : Rejection) : ST Frontier unit :=
  s <- get;;
  guard (bool_decide (is_Some (fr_records s !! target))) EPanic;;;
  guard (bool_decide (reason <> RejNone)) EPanic;;;
  _ <- settle target Rejected reason;; ret tt.

Definition FindProvenance (s : Frontier) (target : Z) : option Provenance :=
  rec_provenance <$> fr_records s !! target.

Definition ExportProvenance (s : Frontier) : list Provenance :=
  omap (FindProvenance s) (sorted_keys (fr_records s)).
