(* ===== verification/FrontierProps.v ===== *)
(** * The records of the frontier

    Every operation of Frontier.v keeps the records well formed and only moves
    them forward: a record that is settled never changes again.  What [FindSplit]
    and [DiscoverExternalRoots] return is characterised in terms of the decoded
    blocks that contain the address. *)

From Stdlib Require Import ZArith Lia.
From stdpp Require Import numbers base gmap list sorting.
From S2P Require Import Prelude MachineInt IRTypes Instr InstrBuild Interp HirValues Cfg HirFunction HirAppend HirTable.
From S2P Require Import Frontier.

Local Open Scope Z_scope.
Local Open Scope svm_scope.

Definition disposition (r : FrontierRecord) : Disposition := pv_disposition (rec_provenance r).
Definition rejection (r : FrontierRecord) : Rejection := pv_rejection (rec_provenance r).
Definition external (r : FrontierRecord) : bool := pv_external_root (rec_provenance r).

(** ** Progress of a record *)

(** A record counts for 1, one more when it is settled, one more when it is an external
    root. *)
Definition record_weight (r : FrontierRecord) : nat :=
  1 + (if decide (disposition r = Candidate) then 0 else 1) + (if external r then 1 else 0).

Definition total_weight (m : gmap Z FrontierRecord) : nat := map_fold (fun _ r n => record_weight r + n)%nat 0%nat m.

Definition record_le (r r' : FrontierRecord) : Prop := r' = r \/ (record_weight r < record_weight r')%nat.

Definition records_le (m m' : gmap Z FrontierRecord) : Prop :=
  forall t r, m !! t = Some r -> exists r', m' !! t = Some r' /\ record_le r r'.

#[export] Instance record_le_refl : Reflexive record_le.
Proof. intros r. by left. Qed.
#[export] Instance record_le_trans : Transitive record_le.
Proof. intros a b c [->|H1] [->|H2]; [by left|by right..|right; lia]. Qed.
#[export] Instance records_le_refl : Reflexive records_le.
Proof. intros m t r Hr. exists r. by split. Qed.
#[export] Instance records_le_trans : Transitive records_le.
Proof.
  intros a b c H1 H2 t r Hr. destruct (H1 t r Hr) as (r1 & Hr1 & L1). destruct (H2 t r1 Hr1) as (r2 & Hr2 & L2).
  exists r2. split; [done|by etrans].
Qed.

Lemma total_weight_insert m t r : m !! t = None -> total_weight (<[t := r]> m) = (record_weight r + total_weight m)%nat.
Proof. intros Ht. unfold total_weight. rewrite map_fold_insert_L; [done| |done]. intros. lia. Qed.

Lemma total_weight_delete m t r : m !! t = Some r -> total_weight m = (record_weight r + total_weight (delete t m))%nat.
Proof. intros Ht. rewrite <- (total_weight_insert _ t) by apply lookup_delete_eq. by rewrite insert_delete_id. Qed.

(** Records that advance either stay or weigh more. *)
Lemma records_le_weight m : forall m', records_le m m' -> m' = m \/ (total_weight m < total_weight m')%nat.
Proof.
  induction m as [|t r m Ht IH] using map_ind; intros m' Hle.
  - destruct (map_choose_or_empty m') as [(t & r & Hr)| ->]; [|by left]. right.
    rewrite (total_weight_delete m' t r Hr). unfold total_weight at 1. rewrite map_fold_empty. unfold record_weight. lia.
  - destruct (Hle t r) as (r' & Hr' & Hrec); [apply lookup_insert_eq|].
    destruct (IH (delete t m')) as [E|Hlt].
    + intros u x Hu. assert (u <> t) by (intros ->; congruence).
      destruct (Hle u x) as (x' & Hx' & Hx); [by rewrite lookup_insert_ne|]. exists x'. split; [|done].
      by rewrite lookup_delete_ne.
    + rewrite total_weight_insert, (total_weight_delete m' t r' Hr'), E by done.
      destruct Hrec as [->|Hw]; [|right; lia]. left. rewrite <- E. symmetry. by apply insert_delete_id.
    + right. rewrite total_weight_insert, (total_weight_delete m' t r' Hr') by done.
      destruct Hrec as [->|]; lia.
Qed.

(** The weight of records whose keys are in a set. *)
Lemma total_weight_bound m (X : gset Z) : dom m ⊆ X -> (total_weight m <= 3 * size X)%nat.
Proof.
  revert X. induction m as [|t r m Ht IH] using map_ind; intros X HX.
  - unfold total_weight. rewrite map_fold_empty. lia.
  - rewrite total_weight_insert by done. rewrite dom_insert in HX.
    assert (HtX : t ∈ X) by set_solver.
    assert (Hd : dom m ⊆ X ∖ {[t]}) by (apply not_elem_of_dom in Ht; set_solver).
    specialize (IH _ Hd). rewrite (union_difference_singleton_L t X HtX).
    rewrite size_union by set_solver. rewrite size_singleton.
    unfold record_weight. destruct (decide _), (external r); lia.
Qed.

(** ** Well-formed records *)

(** The disposition and the reason agree, and a candidate has an owner. *)
Record record_ok (target : Z) (r : FrontierRecord) : Prop := {
  ro_target : pv_target (rec_provenance r) = target;
  ro_candidate : disposition r = Candidate -> rejection r = RejNone /\ is_Some (rec_owner r);
  ro_accepted : disposition r = Accepted -> rejection r = RejNone /\ is_Some (rec_owner r);
  ro_rejected : disposition r = Rejected -> rejection r <> RejNone;
  ro_owner : rec_owner r = None <-> rejection r = NoOwner
}.

Definition records_ok (m : gmap Z FrontierRecord) : Prop := map_Forall record_ok m.

(** Decides the new record of a step. *)
Ltac record :=
  unfold disposition, rejection, external in *; simpl in *; split; simpl in *; intros; naive_solver.

(** What one operation does to the frontier: the records advance and stay well
    formed; the new keys satisfy [K]. *)
Record advances (K : Z -> Prop) (s s' : Frontier) : Prop := {
  av_records : records_le (fr_records s) (fr_records s');
  av_ok : records_ok (fr_records s) -> records_ok (fr_records s');
  av_keys : forall t, t ∈ dom (fr_records s') -> t ∈ dom (fr_records s) \/ K t
}.

#[export] Instance advances_refl K : Reflexive (advances K).
Proof. intros s. split; auto. done. Qed.

Lemma advances_trans K s1 s2 s3 : advances K s1 s2 -> advances K s2 s3 -> advances K s1 s3.
Proof.
  intros [H1 H2 H3] [H4 H5 H6]. split; [by etrans|auto|].
  intros t Ht. destruct (H6 t Ht) as [Ht'|]; auto.
Qed.

Lemma advances_emplace K target r s :
  (forall r0, fr_records s !! target = Some r0 -> record_le r0 r) ->
  ((forall r0, fr_records s !! target = Some r0 -> record_ok target r0) -> record_ok target r) -> K target ->
  advances K s (set_records (<[target := r]> (fr_records s)) s).
Proof.
  intros Hle Hok HK. split; simpl.
  - intros t r0 Hr0. destruct (decide (t = target)) as [->|Hne].
    + exists r. rewrite lookup_insert_eq. auto.
    + exists r0. by rewrite lookup_insert_ne.
  - intros Hm. apply map_Forall_insert_2; [|done]. auto.
  - intros t. rewrite dom_insert_L. intros [->%elem_of_singleton|]%elem_of_union; auto.
Qed.

Lemma capture_owner_fields h f target e b r :
  capture_owner h f target e b = Ok r ->
  rec_owner r = Some b /\ pv_target (rec_provenance r) = target /\ disposition r = Candidate /\
  rejection r = RejNone /\ external r = e /\
  exists x, hf_blocks f !! b = Some x /\ pv_owner_start (rec_provenance r) = hb_location x /\
            DecodedEnd h x = Ok (pv_owner_end (rec_provenance r)) /\
            pv_dependencies (rec_provenance r) = hb_dependencies x.
Proof.
  unfold capture_owner. destruct (hf_blocks f !! b) as [x|] eqn:Hx; [|done]. intros H.
  apply rbind_ok in H as (n & Hn & H). apply rbind_ok in H as (c & _ & H). injection H as <-.
  split_and!; try done. exists x. by split_and!.
Qed.

(** ** [FindSplit] *)

(** What a call leaves, with the split it returns. *)
Record split_result (target : Z) (external_root : bool) (s : Frontier) (r : option Split) (s' : Frontier) : Prop := {
  sr_heap : fr_heap s' = fr_heap s;
  sr_function : fr_function s' = fr_function s;
  sr_advances : advances (fun t => t = target) s s';
  sr_frame : forall t, t <> target -> fr_records s' !! t = fr_records s !! t;
  sr_some : forall sp, r = Some sp -> exists rec, fr_records s' !! target = Some rec /\ disposition rec = Candidate /\
              rec_provenance rec = sp_provenance sp /\ rec_owner rec = sp_owner sp /\ sp_target sp = target /\
              (external_root = true -> external rec = true);
  sr_none : r = None -> forall rec, fr_records s' !! target = Some rec -> disposition rec <> Candidate
}.

Lemma split_result_none target e s :
  (forall rec, fr_records s !! target = Some rec -> disposition rec <> Candidate) -> split_result target e s None s.
Proof. by split. Qed.

Lemma split_result_emplace target e s rec r :
  advances (fun t => t = target) s (set_records (<[target := rec]> (fr_records s)) s) ->
  (forall sp, r = Some sp -> disposition rec = Candidate /\ rec_provenance rec = sp_provenance sp /\
              rec_owner rec = sp_owner sp /\ sp_target sp = target /\ (e = true -> external rec = true)) ->
  (r = None -> disposition rec <> Candidate) ->
  split_result target e s r (set_records (<[target := rec]> (fr_records s)) s).
Proof.
  intros Ha Hr Hn. split; [done|done|done| | |].
  - intros t Ht. simpl. by rewrite lookup_insert_ne.
  - intros sp Hsp. exists rec. split; [apply lookup_insert_eq|]. by apply Hr.
  - intros E rec' Hrec. simpl in Hrec. rewrite lookup_insert_eq in Hrec. injection Hrec as <-. by apply Hn.
Qed.

Lemma FindSplit_result target e missing s r s' :
  FindSplit target e missing s = Ok (r, s') -> split_result target e s r s'.
Proof.
  intros H. unfold FindSplit in H. apply bind_ok in H as (s0 & s1 & H1 & H). unfold get in H1. injection H1 as <- <-.
  destruct (fr_records s !! target) as [rec|] eqn:Hrec.
  - destruct (decide _) as [Hd|Hd]; [unfold ret in H; injection H as <- <-; apply split_result_none; intros rec0 E; by simplify_eq|].
    apply dec_stable in Hd.
    apply bind_ok in H as (u & s1 & H1 & H). unfold emplace_record, modify in H1. injection H1 as _ <-.
    unfold ret in H. injection H as <- <-. apply split_result_emplace.
    + apply advances_emplace; [|intros Hok; specialize (Hok rec Hrec)|done].
      * intros r0 Hr0. rewrite Hrec in Hr0. injection Hr0 as <-.
        unfold record_le, record_weight, disposition, external. simpl. rewrite Hd, decide_True by done.
        destruct rec as [p o], p as [? ? ? ? ? ? ? ? ex]. simpl in *. destruct ex, e; simpl; first [by left|by right; lia].
      * destruct Hok. record.
    + intros sp [= <-]. simpl. split_and!; try done. unfold external. simpl. intros ->. apply orb_true_r.
    + done.
  - assert (Hmiss : forall rec0, record_ok target rec0 -> advances (fun t => t = target) s (set_records (<[target := rec0]> (fr_records s)) s)).
    { intros rec0 Hok. apply advances_emplace; [intros r0 Hr0; congruence|done|done]. }
    assert (Hnone : forall u s1, (if missing then emplace_record target
               (mkFrontierRecord (set_disposition Rejected NoOwner (new_provenance target e)) None) else ret tt) s = Ok (u, s1) ->
               split_result target e s None s1).
    { intros u s1 H1. destruct missing; [|unfold ret in H1; injection H1 as _ <-; apply split_result_none; congruence].
      unfold emplace_record, modify in H1. injection H1 as _ <-. apply split_result_emplace; [|done|done].
      apply Hmiss. record. }
    destruct (fr_function s) as [f|].
    + apply bind_ok in H as ([owner amb] & s1 & H1 & H). apply lift_ok in H1 as [_ ->].
      destruct owner as [b|].
      * apply bind_ok in H as (rec & s1 & H1 & H). apply lift_ok in H1 as [Hc ->].
        destruct (capture_owner_fields _ _ _ _ _ _ Hc) as (Ho & Ht & Hd & Hr & He & _). clear Hc.
        destruct rec as [[? ? ? ? ? ? ? ? ?] ?]. unfold disposition, rejection, external in *. simpl in *. subst.
        destruct amb; apply bind_ok in H as (u & s1 & H1 & H); unfold emplace_record, modify in H1; injection H1 as _ <-;
          unfold ret in H; injection H as <- <-; (apply split_result_emplace; [apply Hmiss; record| |]).
        -- done.
        -- done.
        -- intros sp [= <-]. simpl. split_and!; try done; by intros ->.
        -- done.
      * apply bind_ok in H as (u & s1 & H1 & H). unfold ret in H. injection H as <- <-. by eapply Hnone.
    + apply bind_ok in H as (u & s1 & H1 & H). unfold ret in H. injection H as <- <-. by eapply Hnone.
Qed.

(** ** The owner of an address *)

Definition inside (h : Heap) (f : HIRFunction) (target : Z) (b : nat) : Prop := spans h f target b = Ok true.

Lemma inside_bounds h f target b :
  inside h f target b <->
  exists x e, hf_blocks f !! b = Some x /\ b_insts (hb_block x) <> [] /\ DecodedEnd h x = Ok e /\
              hb_location x < target < e.
Proof.
  unfold inside, spans. destruct (hf_blocks f !! b) as [x|]; [|split; [done|by intros (y & e & ? & _)]].
  destruct (b_insts (hb_block x)) as [|p l] eqn:Hl.
  - split; [done|]. intros (y & e & [= <-] & Hne & _). by rewrite Hl in Hne.
  - destruct (DecodedEnd h x) as [e|err] eqn:He; simpl.
    + split.
      * intros [= H]. exists x, e. apply negb_true_iff, orb_false_iff in H as [H1%Z.leb_gt H2%Z.leb_gt].
        rewrite Hl. split_and!; try done; lia.
      * intros (y & e' & [= <-] & _ & He' & Hb). rewrite He in He'. injection He' as <-.
        f_equal. apply negb_true_iff, orb_false_iff. rewrite Z.leb_gt, Z.leb_gt. lia.
    + split; [done|]. intros (y & e' & [= <-] & _ & He' & _). congruence.
Qed.

Lemma find_owner_spec h f target l : forall o r,
  NoDup l -> (forall b, o = Some b -> b ∉ l) -> find_owner h f target l o = Ok r ->
  match r with
  | (None, amb) => amb = false /\ o = None /\ forall b, b ∈ l -> ~ inside h f target b
  | (Some b, false) => (o = Some b /\ forall c, c ∈ l -> ~ inside h f target c) \/
                       (o = None /\ b ∈ l /\ inside h f target b /\ forall c, c ∈ l -> inside h f target c -> c = b)
  | (Some b, true) => exists c, c <> b /\ c ∈ l /\ inside h f target c /\ (o = Some b \/ o = None /\ b ∈ l /\ inside h f target b)
  end.
Proof.
  induction l as [|a l IH]; intros o r Hnd Ho H; cbn [find_owner] in H.
  - injection H as <-. destruct o as [b|]; [left|]; split_and!; try done; by intros c ?%elem_of_nil.
  - apply NoDup_cons in Hnd as [Hal Hnd]. apply rbind_ok in H as (ins & Hins & H).
    destruct ins.
    + destruct o as [b|].
      * injection H as <-. exists a. split_and!; [|left|done|by left]. intros ->. apply (Ho b); [done|left].
      * specialize (IH (Some a) r Hnd ltac:(by intros b [= <-]) H).
        destruct r as [[b|] []].
        -- destruct IH as (c & Hc & Hcl & Hci & [[= <-]|[? _]]); [|done]. exists c.
           split_and!; [done|by right|done|]. right. split_and!; [done|left|done].
        -- destruct IH as [[[= <-] Hn]|[? _]]; [|done]. right. split_and!; [done|left|done|].
           intros c [->|Hc]%elem_of_cons Hci; [done|]. by destruct (Hn c).
        -- by destruct IH as (_ & ? & _).
        -- by destruct IH as (_ & ? & _).
    + assert (Hna : ~ inside h f target a) by (unfold inside; rewrite Hins; congruence).
      specialize (IH o r Hnd ltac:(intros b Hb Hbl; apply (Ho b Hb); by right) H).
      destruct r as [[b|] []].
      * destruct IH as (c & Hc & Hcl & Hci & Hor). exists c. split_and!; [done|by right|done|].
        destruct Hor as [|(? & ? & ?)]; [by left|right]. split_and!; [done|by right|done].
      * destruct IH as [[? Hn]|(? & Hb & Hbi & Hn)]; [left|right].
        -- split; [done|]. intros c [->|Hc]%elem_of_cons; [done|by apply Hn].
        -- split_and!; [done|by right|done|]. intros c [->|Hc]%elem_of_cons Hci; [done|by apply Hn].
      * destruct IH as (? & _). done.
      * destruct IH as (_ & ? & Hn). split_and!; [done..|]. intros c [->|Hc]%elem_of_cons; [done|by apply Hn].
Qed.

(** (C34) [FindSplit] on an address it has no record for returns a split exactly when one
    decoded block of the function contains the address strictly inside, and the
    split then names that block and its bounds.  With no such block, or with two,
    it returns nothing; two leave a rejected record, none leaves one only when asked
    to.  An address that is settled gives nothing and changes nothing. *)
Theorem FindSplit_spec (target : Z) (e missing : bool) (s s' : Frontier) (f : HIRFunction) (r : option Split) :
  fr_function s = Some f -> NoDup (hf_block_list f) ->
  FindSplit target e missing s = Ok (r, s') ->
  (forall rec, fr_records s !! target = Some rec -> disposition rec <> Candidate -> r = None /\ s' = s) /\
  (fr_records s !! target = None ->
   match r with
   | Some sp => exists b x, sp_owner sp = Some b /\ b ∈ hf_block_list f /\ inside (fr_heap s) f target b /\
                  (forall c, c ∈ hf_block_list f -> inside (fr_heap s) f target c -> c = b) /\
                  hf_blocks f !! b = Some x /\ pv_owner_start (sp_provenance sp) = hb_location x /\
                  DecodedEnd (fr_heap s) x = Ok (pv_owner_end (sp_provenance sp))
   | None => ((forall c, c ∈ hf_block_list f -> ~ inside (fr_heap s) f target c) /\
              (fr_records s' !! target = None <-> missing = false)) \/
             (exists b c, b <> c /\ b ∈ hf_block_list f /\ c ∈ hf_block_list f /\
                inside (fr_heap s) f target b /\ inside (fr_heap s) f target c /\
                exists rec, fr_records s' !! target = Some rec /\ rejection rec = AmbiguousOwner)
   end).
Proof.
  intros Hf Hnd H. split.
  - intros rec Hrec Hd. unfold FindSplit, bind, get in H. rewrite Hrec in H.
    rewrite decide_True in H by done. unfold ret in H. by injection H as <- <-.
  - intros Hrec. unfold FindSplit in H. apply bind_ok in H as (s0 & s1 & H1 & H). unfold get in H1. injection H1 as <- <-.
    rewrite Hrec, Hf in H. apply bind_ok in H as ([owner amb] & s1 & H1 & H). apply lift_ok in H1 as [Ho ->].
    apply find_owner_spec in Ho; [|done|done]. destruct owner as [b|].
    + apply bind_ok in H as (rec & s1 & H1 & H). apply lift_ok in H1 as [Hc ->].
      destruct (capture_owner_fields _ _ _ _ _ _ Hc) as (_ & _ & _ & _ & _ & x & Hx & Hs & He & _).
      destruct amb; apply bind_ok in H as (u & s1 & H1 & H); unfold emplace_record, modify in H1; injection H1 as _ <-;
        unfold ret in H; injection H as <- <-.
      * destruct Ho as (c & Hne & Hcl & Hci & [?|(_ & Hbl & Hbi)]); [done|]. right. exists b, c.
        split_and!; try done. simpl. rewrite lookup_insert_eq. by eexists.
      * destruct Ho as [[? _]|(_ & Hbl & Hbi & Hu)]; [done|]. exists b, x. by split_and!.
    + destruct Ho as (_ & _ & Hn). apply bind_ok in H as (u & s1 & H1 & H). unfold ret in H. injection H as <- <-.
      left. split; [done|]. destruct missing; [unfold emplace_record, modify in H1|unfold ret in H1]; injection H1 as _ <-; simpl.
      * rewrite lookup_insert_eq. by split.
      * by rewrite Hrec.
Qed.

(** ** External roots *)

Definition link_count (t : Z) (links : list (nat * Z)) : Z := Z.of_nat (length (filter (fun l => snd l = t) links)).

Lemma count_sources_spec links : forall m t,
  default 0 (foldl count_source m links !! t) =
  (if decide (link_count t links = 0) then default 0 (m !! t) else wrap 32 (default 0 (m !! t) + link_count t links)) /\
  (t ∈ dom (foldl count_source m links) <-> t ∈ dom m \/ link_count t links <> 0).
Proof.
  induction links as [|[b u] links IH]; intros m t; cbn [foldl].
  - rewrite decide_True by done. split; [done|]. unfold link_count. simpl. tauto.
  - destruct (IH (count_source m (b, u)) t) as [H1 H2].
    assert (E : link_count t ((b, u) :: links) = (if decide (u = t) then 1 else 0) + link_count t links).
    { unfold link_count. rewrite filter_cons. simpl. destruct (decide (u = t)); simpl; lia. }
    assert (0 <= link_count t links) by (unfold link_count; lia).
    rewrite H1, H2, E. unfold count_source. cbn [fst snd]. rewrite dom_insert_L.
    destruct (decide (u = t)) as [->|Hne].
    + rewrite lookup_insert_eq. cbn [from_option]. unfold id. split.
      * rewrite (decide_False (P := 1 + link_count t links = 0)) by lia. destruct (decide (link_count t links = 0)) as [->|].
        -- done.
        -- rewrite wrap_add_l by lia. f_equal. lia.
      * split; [intros _; right; lia|intros _; left; set_solver].
    + rewrite lookup_insert_ne by done. rewrite Z.add_0_l. split; [done|]. set_solver.
Qed.

(** What the loop of [DiscoverExternalRoots] leaves. *)
Record discovered (start min : Z) (policy : OwnerPolicy) (sources : gmap Z Z) (targets : list Z)
    (s : Frontier) (l : list Z) (s' : Frontier) : Prop := {
  di_heap : fr_heap s' = fr_heap s;
  di_function : fr_function s' = fr_function s;
  di_advances : advances (fun t => t ∈ targets) s s';
  di_frame : forall t, t ∉ targets -> fr_records s' !! t = fr_records s !! t;
  di_sublist : l `sublist_of` targets;
  di_root : forall t, t ∈ l -> min <= default 0 (sources !! t) /\
              exists r, fr_records s' !! t = Some r /\ disposition r = Candidate /\ external r = true /\
                        (policy = InteriorOwner -> pv_owner_start (rec_provenance r) <> start);
  di_other : forall t, t ∈ targets -> t ∉ l -> min <= default 0 (sources !! t) ->
              forall r, fr_records s' !! t = Some r -> disposition r = Candidate ->
              policy = InteriorOwner /\ pv_owner_start (rec_provenance r) = start
}.

Lemma discovered_nil start min policy sources s : discovered start min policy sources [] s [] s.
Proof. split; try done; by intros t ?%elem_of_nil. Qed.

(** One more target in front: nothing or a root came of it. *)
Lemma discovered_cons start min policy sources t targets s s1 l s' (root : bool) :
  t ∉ targets ->
  fr_heap s1 = fr_heap s -> fr_function s1 = fr_function s -> advances (fun u => u = t) s s1 ->
  (forall u, u <> t -> fr_records s1 !! u = fr_records s !! u) ->
  (if root then min <= default 0 (sources !! t) /\
        exists r, fr_records s1 !! t = Some r /\ disposition r = Candidate /\ external r = true /\
                  (policy = InteriorOwner -> pv_owner_start (rec_provenance r) <> start)
   else min <= default 0 (sources !! t) -> forall r, fr_records s1 !! t = Some r -> disposition r = Candidate ->
        policy = InteriorOwner /\ pv_owner_start (rec_provenance r) = start) ->
  discovered start min policy sources targets s1 l s' ->
  discovered start min policy sources (t :: targets) s (if root then t :: l else l) s'.
Proof.
  intros Hnt Hh Hf Ha Hfr Hroot [D1 D2 D3 D4 D5 D6 D7].
  assert (Hsub : l ⊆ targets) by (intros u Hu; by eapply elem_of_sublist).
  split.
  - congruence.
  - congruence.
  - apply (advances_trans _ _ s1); [destruct Ha as [A1 A2 A3]|destruct D3 as [A1 A2 A3]]; split; try done.
    + intros u Hu. destruct (A3 u Hu) as [| ->]; [by left|right; left].
    + intros u Hu. destruct (A3 u Hu) as [|]; [by left|right; by right].
  - intros u Hu. apply not_elem_of_cons in Hu as [Hu1 Hu2]. rewrite D4, Hfr by done. done.
  - destruct root; [by apply sublist_skip|by apply sublist_cons].
  - intros u Hu. destruct root; [apply elem_of_cons in Hu as [->|Hu]|]; [|by apply D6..].
    by rewrite D4.
  - intros u Hu Hul Hmin r Hr Hd. apply elem_of_cons in Hu as [->|Hu].
    + destruct root; [by destruct Hul; left|]. rewrite D4 in Hr by done. by apply (Hroot Hmin r).
    + apply (D7 u Hu); try done. intros Hin. apply Hul. destruct root; [by right|done].
Qed.

Lemma discover_spec start min policy sources targets : forall s l s',
  NoDup targets -> discover start min policy sources targets s = Ok (l, s') ->
  discovered start min policy sources targets s l s'.
Proof.
  induction targets as [|t targets IH]; intros s l s' Hnd H; cbn [discover] in H.
  - unfold ret in H. injection H as <- <-. apply discovered_nil.
  - apply NoDup_cons in Hnd as [Hnt Hnd].
    destruct (Z.ltb_spec (default 0 (sources !! t)) min) as [Hlt|Hge].
    + apply (discovered_cons _ _ _ _ t targets s s l s' false); try done; [lia|by apply IH].
    + apply bind_ok in H as (split & s1 & H1 & H). apply FindSplit_result in H1 as [R1 R2 R3 R4 R5 R6].
      assert (Hskip : (forall sp, split = Some sp -> policy = InteriorOwner /\ pv_owner_start (sp_provenance sp) = start) ->
                discover start min policy sources targets s1 = Ok (l, s') ->
                discovered start min policy sources (t :: targets) s l s').
      { intros Hor Hd. apply (discovered_cons _ _ _ _ t targets s s1 l s' false); try done; [|by apply IH].
        intros _ r Hr Hc. destruct split as [sp|]; [|by destruct (R6 eq_refl r)].
        destruct (R5 sp eq_refl) as (r' & Hr' & _ & Ep & _). rewrite Hr in Hr'. injection Hr' as <-. rewrite Ep. by apply Hor. }
      destruct split as [sp|]; [|by apply Hskip].
      destruct (R5 sp eq_refl) as (r & Hr & Hc & Ep & _ & _ & Hx). specialize (Hx eq_refl).
      assert (Hroot : (policy = InteriorOwner -> pv_owner_start (sp_provenance sp) <> start) ->
                (rest <- discover start min policy sources targets;; ret (t :: rest)) s1 = Ok (l, s') ->
                discovered start min policy sources (t :: targets) s l s').
      { intros Hp Hd. apply bind_ok in Hd as (rest & s2 & Hd & E). unfold ret in E. injection E as <- <-.
        apply (discovered_cons _ _ _ _ t targets s s1 rest s2 true); try done; [|by apply IH].
        split; [done|]. exists r. split_and!; try done. by rewrite Ep. }
      destruct policy; [by apply Hroot|].
      destruct (Z.eqb_spec (pv_owner_start (sp_provenance sp)) start) as [E|E]; [apply Hskip|by apply Hroot]; [|done].
      by intros ? [= <-].
Qed.

Lemma sorted_lt l : StronglySorted Z.le l -> NoDup l -> StronglySorted Z.lt l.
Proof.
  induction 1 as [|x l Hl IH Hx]; intros Hnd; [constructor|]. apply NoDup_cons in Hnd as [Hxl Hnd].
  constructor; [by apply IH|]. rewrite Forall_forall in *. intros y Hy. specialize (Hx y Hy).
  assert (x <> y) by (by intros ->). lia.
Qed.

Lemma sorted_keys_elem {A} (m : gmap Z A) t : t ∈ sorted_keys m <-> t ∈ dom m.
Proof. unfold sorted_keys. by rewrite merge_sort_Permutation, elem_of_elements. Qed.

Lemma sorted_keys_sorted {A} (m : gmap Z A) : StronglySorted Z.lt (sorted_keys m).
Proof.
  unfold sorted_keys. apply sorted_lt; [apply StronglySorted_merge_sort; apply _|].
  rewrite merge_sort_Permutation. apply NoDup_elements.
Qed.

Lemma sorted_NoDup l : StronglySorted Z.lt l -> NoDup l.
Proof.
  induction 1 as [|x l Hl IH Hx]; constructor; [|done]. intros Hin. rewrite Forall_forall in Hx. specialize (Hx x Hin). lia.
Qed.

Lemma sorted_sublist l l' : l `sublist_of` l' -> StronglySorted Z.lt l' -> StronglySorted Z.lt l.
Proof.
  induction 1 as [|x l l' Hs IH|x l l' Hs IH]; intros Hl; [constructor|..]; inversion Hl as [|? ? Hl' Hx]; subst; [|by apply IH].
  constructor; [by apply IH|]. rewrite Forall_forall in *. intros y Hy. apply Hx. by eapply elem_of_sublist.
Qed.

Lemma DiscoverExternalRoots_discovered start min policy s l s' f :
  fr_function s = Some f -> DiscoverExternalRoots start min policy s = Ok (l, s') ->
  0 < min /\ discovered start min policy (foldl count_source ∅ (hf_external_links f))
               (sorted_keys (foldl count_source ∅ (hf_external_links f))) s l s'.
Proof.
  intros Hf H. unfold DiscoverExternalRoots in H. apply bind_ok in H as (u & s1 & H1 & H).
  unfold guard in H1. destruct (Z.ltb_spec 0 min); [|done]. unfold ret in H1. injection H1 as _ <-.
  apply bind_ok in H as (s0 & s1 & H1 & H). unfold get in H1. injection H1 as <- <-. rewrite Hf in H.
  split; [done|]. apply discover_spec; [|done]. apply sorted_NoDup, sorted_keys_sorted.
Qed.

(** [DiscoverExternalRoots] returns, in increasing order and without
    repetition, addresses that at least [min] recorded direct links name (counted
    modulo 2^32) and that are candidates marked as external roots, with an owner
    that under the interior policy does not start the function.  Every other
    address with enough links is settled, has no owner, or is excluded by the
    policy; the function is unchanged and the records only advance. *)
Theorem DiscoverExternalRoots_spec (start min : Z) (policy : OwnerPolicy) (s s' : Frontier) (l : list Z) (f : HIRFunction) :
  fr_function s = Some f -> records_ok (fr_records s) ->
  DiscoverExternalRoots start min policy s = Ok (l, s') ->
  StronglySorted Z.lt l /\
  (forall t, t ∈ l -> min <= wrap 32 (link_count t (hf_external_links f)) /\
     exists r, fr_records s' !! t = Some r /\ disposition r = Candidate /\ external r = true /\ is_Some (rec_owner r) /\
               (policy = InteriorOwner -> pv_owner_start (rec_provenance r) <> start)) /\
  (forall t, min <= wrap 32 (link_count t (hf_external_links f)) -> t ∉ l ->
     match fr_records s' !! t with
     | Some r => disposition r <> Candidate \/ policy = InteriorOwner /\ pv_owner_start (rec_provenance r) = start
     | None => True
     end) /\
  fr_function s' = Some f /\ records_ok (fr_records s') /\ records_le (fr_records s) (fr_records s').
Proof.
  intros Hf Hok H. destruct (DiscoverExternalRoots_discovered _ _ _ _ _ _ _ Hf H) as [Hmin [D1 D2 D3 D4 D5 D6 D7]].
  set (links := hf_external_links f) in *.
  assert (Hcount : forall t, default 0 (foldl count_source ∅ links !! t) = wrap 32 (link_count t links)).
  { intros t. destruct (count_sources_spec links ∅ t) as [-> _]. rewrite lookup_empty. simpl.
    case_decide as E; [by rewrite E|]. done. }
  assert (Hok' : records_ok (fr_records s')) by by apply D3.
  split_and!.
  - eapply sorted_sublist; [exact D5|]. apply sorted_keys_sorted.
  - intros t Ht. destruct (D6 t Ht) as (Hm & r & Hr & Hd & He & Hp). rewrite Hcount in Hm. split; [done|].
    exists r. split_and!; try done. by apply (Hok' t r Hr).
  - intros t Hm Hl. destruct (fr_records s' !! t) as [r|] eqn:Hr; [|done].
    destruct (decide (disposition r = Candidate)) as [Hd|]; [|by left]. right. apply (D7 t); try done; [|by rewrite Hcount].
    apply sorted_keys_elem. apply (count_sources_spec links ∅ t). right. intros E. rewrite E in Hm.
    change (wrap 32 0) with 0 in Hm. lia.
  - congruence.
  - done.
  - apply D3.
Qed.

(** ** Deciding a candidate *)

Lemma settle_result target d reason s r s' :
  settle target d reason s = Ok (r, s') ->
  exists r0, fr_records s !! target = Some r0 /\
    r = mkFrontierRecord (set_disposition d reason (rec_provenance r0)) (rec_owner r0) /\
    s' = set_records (<[target := r]> (fr_records s)) s.
Proof.
  unfold settle, bind, get. destruct (fr_records s !! target) as [r0|]; [|done]. unfold emplace_record, modify, ret.
  intros [= <- <-]. by exists r0.
Qed.

(** Settling a candidate, as the region decoder does. *)
Lemma settle_advances target d reason s r s' r0 :
  fr_records s !! target = Some r0 -> disposition r0 = Candidate -> d <> Candidate ->
  (d = Accepted /\ reason = RejNone \/ d = Rejected /\ reason <> RejNone /\ reason <> NoOwner) ->
  settle target d reason s = Ok (r, s') ->
  advances (fun t => t = target) s s' /\ (total_weight (fr_records s) < total_weight (fr_records s'))%nat /\
  fr_heap s' = fr_heap s /\ fr_function s' = fr_function s /\ external r = external r0.
Proof.
  intros Hr0 Hc Hd Hreason H. apply settle_result in H as (r1 & Hr1 & -> & ->). rewrite Hr0 in Hr1. injection Hr1 as <-.
  set (r := mkFrontierRecord _ _).
  assert (Hw : (record_weight r0 < record_weight r)%nat).
  { unfold record_weight, r, disposition, external in *. simpl. rewrite Hc, decide_True, decide_False by done. lia. }
  assert (Ha : advances (fun t => t = target) s (set_records (<[target := r]> (fr_records s)) s)).
  { apply advances_emplace; [|intros Hok; destruct (Hok r0 Hr0) as [O1 O2 O3 O4 O5]|done].
    - intros r1 Hr1. rewrite Hr0 in Hr1. injection Hr1 as <-. by right.
    - destruct (O2 Hc) as [Ej [b Eb]]. unfold r, disposition, rejection in *. simpl in *.
      split; simpl; [done|..]; unfold disposition, rejection; simpl; rewrite ?Eb; naive_solver. }
  split_and!; try done. destruct (records_le_weight _ _ (av_records _ _ _ Ha)) as [E|]; [|done].
  simpl in E. exfalso. assert (E' : fr_records s !! target = Some r) by (rewrite <- E; apply lookup_insert_eq).
  rewrite Hr0 in E'. injection E' as E'. rewrite E' in Hw. lia.
Qed.
