(* ===== verification/RegionDecoder.v ===== *)
(** * Discovering a region

    Model of [FunctionRegionDecoder] (translator/x86/function_region_decoder.cpp): the
    loop that decodes the blocks of a function until no new entry turns up, splits
    decoded blocks at entries found late, and adds the external roots.  The
    instruction decoder is known here by its interface only. *)

From Stdlib Require Import ZArith Lia.
From stdpp Require Import numbers base gmap list sorting.
From S2P Require Import Prelude MachineInt IRTypes Instr InstrBuild Interp HirValues Cfg HirFunction HirBuilder.
From S2P Require Import Frontier.

Local Open Scope Z_scope.
Local Open Scope svm_scope.

(** [DecodeStopKind] of the instruction decoder. *)
Inductive StopKind := StopInternal | StopCallReturn.

(** The addresses a function knows are 64-bit values. *)
Definition in_u64 (a : Z) : Prop := 0 <= a < 2 ^ 64.

Record addresses_ok (f : HIRFunction) : Prop := {
  ao_blocks : Forall (fun x => in_u64 (hb_location x)) (hf_blocks f);
  ao_links : Forall (fun l => in_u64 (snd l)) (hf_external_links f)
}.

(** What the region decoder uses of [X64Decoder::Decode]: started at an address with
    the place to stop, it calls the builder; the addresses it hands to it are
    64-bit values. *)
Class Decoder := {
  decode_at : Z -> Z -> StopKind -> ST HIRBuilder unit;
  decode_at_addresses : forall address stop kind s s',
    Forall addresses_ok (bl_functions s) -> decode_at address stop kind s = Ok (tt, s') ->
    Forall addresses_ok (bl_functions s')
}.

Record Region := mkRegion {
  rg_builder : HIRBuilder;
  rg_records : gmap Z FrontierRecord;
  rg_decoded : nat;
  rg_hit_cap : bool
}.

Definition with_builder {A} (m : ST HIRBuilder A) : ST Region A := fun s =>
  r <-? m (rg_builder s); Ok (fst r, mkRegion (snd r) (rg_records s) (rg_decoded s) (rg_hit_cap s)).

Definition set_hit_cap : ST Region unit :=
  modify (fun s => mkRegion (rg_builder s) (rg_records s) (rg_decoded s) true).

Definition count_decoded : ST Region unit :=
  modify (fun s => mkRegion (rg_builder s) (rg_records s) (S (rg_decoded s)) (rg_hit_cap s)).

(** No instruction and no terminal yet. *)
Definition empty_block (x : HIRBlock) : bool :=
  bool_decide (b_insts (hb_block x) = []) && negb (HasTerminal (hb_block x)).

Section Region.
Context `{Decoder}.
(** The function, by its index in the builder, and the configuration. *)
Context (function : nat) (start : Z) (block_cap : nat) (lazy : bool) (local_target has_code : Z -> bool).

(** The frontier over the function. *)
Definition with_frontier {A} (m : ST Frontier A) : ST Region A := fun s =>
  match bl_functions (rg_builder s) !! function with
  | None => Err EUndefined
  | Some f =>
      r <-? m (mkFrontier (bl_heap (rg_builder s)) (Some f) (rg_records s));
      let s' := snd r in
      Ok (fst r, mkRegion (put_function function (mkHState (fr_heap s') (default f (fr_function s'))) (rg_builder s))
                   (fr_records s') (rg_decoded s) (rg_hit_cap s))
  end.

Definition with_function {A} (m : ST HState A) : ST Region A := with_frontier (on_function m).

Definition get_function : ST Region HIRFunction := with_function get_fn.

(** [NearestEntry]; 0 when there is none. *)
Definition nearest (f : HIRFunction) (address upper : Z) : Z :=
  foldl (fun stop b =>
           match hf_blocks f !! b with
           | Some x =>
               let l := hb_location x in
               if (address <? l) && (l <? upper) && ((stop =? 0) || (l <? stop)) then l else stop
           | None => stop
           end) 0 (hf_block_list f).

Definition NearestEntry (address upper : Z) : ST Region Z :=
  f <- get_function;; ret (nearest f address upper).

Definition DecodeBlock (address : Z) (b : nat) (stop : Z) (kind : StopKind) : ST Region unit :=
  with_builder (Builder_SetCurBlock b;;; decode_at address stop kind).

(** [DecodedEnd] of a block as it is now. *)
Definition decoded_end (b : nat) : ST Region Z :=
  x <- with_function (get_block b);;
  s <- get;;
  lift (DecodedEnd (bl_heap (rg_builder s)) x).

(** The first block that has to be split, replayed up to the new entry. *)
Fixpoint replay (l : list nat) : ST Region bool :=
  match l with
  | [] => ret false
  | b :: l' =>
      x <- with_function (get_block b);;
      let target := hb_location x in
      if negb (empty_block x) then replay l'
      else if negb (local_target target) then replay l'
      else
        split <- with_frontier (FindInternalSplit target);;
        match split with
        | None => replay l'
        | Some sp =>
            match sp_owner sp with
            | None => fail EUndefined
            | Some owner =>
                y <- with_function (get_block owner);;
                reset <- with_builder (Builder_ResetDecodedBlock owner);;
                if negb reset then with_frontier (Reject target OwnerResetFailed);;; ret true
                else
                  DecodeBlock (hb_location y) owner target
                    (if pv_call_return_boundary (sp_provenance sp) then StopCallReturn else StopInternal);;;
                  e <- decoded_end owner;;
                  with_frontier (if e =? target then Accept target else Reject target BoundaryMismatch);;;
                  ret true
            end
        end
  end.

(** The blocks to decode next. *)
Definition to_decode (s : Region) (f : HIRFunction) : list Z :=
  omap (fun b =>
          match hf_blocks f !! b with
          | Some x =>
              let address := hb_location x in
              if negb (empty_block x) then None
              else if lazy && negb (IsAccepted (mkFrontier ∅ None (rg_records s)) address) && has_code address then None
              else if local_target address then Some address else None
          | None => None
          end) (hf_block_list f).

Fixpoint decode_pending (l : list Z) : ST Region unit :=
  match l with
  | [] => ret tt
  | address :: l' =>
      s <- get;;
      if (rg_decoded s =? block_cap)%nat then set_hit_cap
      else
        b <- with_function (CreateOrGetBlock address);;
        stop <- NearestEntry address (2 ^ 64 - 1);;
        DecodeBlock address b stop StopInternal;;;
        e <- decoded_end b;;
        late_entry <- NearestEntry address e;;
        (if late_entry =? 0 then ret tt
         else
           reset <- with_builder (Builder_ResetDecodedBlock b);;
           if reset : bool then DecodeBlock address b late_entry StopInternal else ret tt);;;
        count_decoded;;;
        decode_pending l'
  end.

(** The external roots of one round. *)
Definition external_roots : ST Region (list Z) :=
  shared <- with_frontier (DiscoverExternalRoots start 3 AnyOwner);;
  interior <- with_frontier (DiscoverExternalRoots start 1 InteriorOwner);;
  ret (shared ++ filter (fun t => t ∉ shared) interior).

(** One round of the loop; [false] is [break]. *)
Definition decode_round : ST Region bool :=
  f <- get_function;;
  replayed <- replay (hf_block_list f);;
  if replayed : bool then ret true
  else
    f <- get_function;;
    s <- get;;
    match to_decode s f with
    | [] =>
        roots <- external_roots;;
        for_each (fun t => _ <- with_function (CreateOrGetBlock t);; ret tt) roots;;;
        ret (negb (bool_decide (roots = [])))
    | l => decode_pending l;;; ret true
    end.

(** [while (result.decoded_count < config.block_cap)]; [None] when the fuel runs out. *)
Fixpoint region_loop (fuel : nat) (s : Region) : option (Res Region) :=
  if (rg_decoded s <? block_cap)%nat then
    match fuel with
    | O => None
    | S n =>
        match decode_round s with
        | Err e => Some (Err e)
        | Ok (true, s') => region_loop n s'
        | Ok (false, s') => Some (Ok s')
        end
    end
  else Some (Ok s).

(** ** The result *)

Record DecodeResult := mkDecodeResult {
  dr_decoded_count : nat;
  dr_decoded_blocks : nat;
  dr_hit_block_cap : bool;
  dr_has_host_call : bool;
  dr_pending_roots : list Z;
  dr_provenance : list Provenance
}.

Definition undecoded_blocks (f : HIRFunction) : list Z :=
  omap (fun b => x ← hf_blocks f !! b; if empty_block x then Some (hb_location x) else None) (hf_block_list f).

Definition pending_roots (f : HIRFunction) : list Z :=
  unique_adjacent (merge_sort Z.le
    (filter (fun root => local_target root = true /\ has_code root = false) (undecoded_blocks f))).

(** The decoded blocks of the finished function. *)
Definition decoded_bodies (f : HIRFunction) : list (list Ptr) :=
  omap (fun v => b ← v; x ← hf_blocks f !! b;
                 match b_insts (hb_block x) with [] => None | l => Some l end) (hf_vector f).

Definition is_host_call (h : Heap) (p : Ptr) : bool :=
  match h !! p with Some i => op_eqb (i_op i) OpCode_CallLambda | None => false end.

Definition finish_region : ST Region DecodeResult :=
  f <- get_function;;
  s <- get;;
  let hit := rg_hit_cap s || negb (bool_decide (undecoded_blocks f = [])) in
  let pending := pending_roots f in
  let provenance := ExportProvenance (mkFrontier ∅ None (rg_records s)) in
  with_function EndFunction;;;
  f <- get_function;;
  s <- get;;
  let bodies := decoded_bodies f in
  ret (mkDecodeResult (rg_decoded s) (length bodies) hit
         (existsb (existsb (is_host_call (bl_heap (rg_builder s)))) bodies) pending provenance).

(** [FunctionRegionDecoder::Decode]. *)
Definition Decode (fuel : nat) (builder : HIRBuilder) : option (Res (DecodeResult * Region)) :=
  r ← region_loop fuel (mkRegion builder ∅ 0 false);
  Some (s <-? r; finish_region s).
End Region.
