(* ===== verification/RegionDecoderProps.v ===== *)
(** * Progress of the region decoder

    The loop of RegionDecoder.v returns unless it reaches a state that one more round
    leaves as it is; each round that changes the state decodes a block, moves a record
    forward or creates the block of an external root, and there is only so
    much of each. *)

From Stdlib Require Import ZArith Lia.
From stdpp Require Import numbers base gmap list sorting relations.
From S2P Require Import Prelude MachineInt IRTypes Instr InstrBuild Interp HirValues Cfg HirFunction HirAppend HirTable HirBuilder.
From S2P Require Import HirGraph Frontier FrontierProps RegionDecoder.

Local Open Scope Z_scope.
Local Open Scope svm_scope.

(** ** Operations keep the addresses in range *)

Definition addr (s : HState) : Prop := addresses_ok (hs_fn s).

Definition keeps_addr {A} (m : ST HState A) : Prop := hoare addr m (fun _ => addr).

Lemma addr_ret {A} (a : A) : keeps_addr (ret a).
Proof. intros s b s' H [= _ <-]. done. Qed.
Lemma addr_fail {A} e : keeps_addr (A := A) (fail e).
Proof. intros s b s' H [=]. Qed.
Lemma addr_lift {A} (r : Res A) : keeps_addr (lift r).
Proof. intros s b s' Ha H. apply lift_ok in H as [_ ->]. done. Qed.
Lemma addr_get : keeps_addr get.
Proof. intros s b s' Ha [= _ <-]. done. Qed.
Lemma addr_get_fn : keeps_addr get_fn.
Proof. intros s b s' Ha [= _ <-]. done. Qed.
Lemma addr_get_block b : keeps_addr (get_block b).
Proof. intros s x s' Ha [-> _]%get_block_inv. done. Qed.
Lemma addr_on_heap {A} (m : ST Heap A) : keeps_addr (on_heap m).
Proof. intros s a s' Ha H. apply on_heap_inv in H as (h & _ & ->). done. Qed.
Lemma addr_on_table m : keeps_addr (on_table m).
Proof. intros s a s' [H1 H2] H. apply on_table_inv in H as (t & _ & ->). by split. Qed.
Lemma addr_bind {A B} (m : ST HState A) (k : A -> ST HState B) :
  keeps_addr m -> (forall a, keeps_addr (k a)) -> keeps_addr (bind m k).
Proof. intros Hm Hk. by eapply hoare_bind. Qed.
Lemma addr_if {A} (b : bool) (m1 m2 : ST HState A) : keeps_addr m1 -> keeps_addr m2 -> keeps_addr (if b then m1 else m2).
Proof. by destruct b. Qed.
Lemma addr_for_each {A} (m : A -> ST HState unit) l : (forall x, keeps_addr (m x)) -> keeps_addr (for_each m l).
Proof. intros Hm. induction l; simpl; [apply addr_ret|by apply addr_bind]. Qed.
Lemma addr_update_block b g : (forall x, hb_location (g x) = hb_location x) -> keeps_addr (update_block b g).
Proof.
  intros Hg s u s' [H1 H2] H. apply update_block_inv in H as (x & Hx & ->). split; [|done]. simpl.
  apply Forall_insert; [done|]. rewrite Hg. rewrite Forall_forall in H1. apply H1. by eapply list_elem_of_lookup_2.
Qed.
Lemma addr_on_fn g : (forall f, addresses_ok f -> addresses_ok (g f)) -> keeps_addr (on_fn g).
Proof. intros Hg s u s' Ha H. unfold on_fn in H. injection H as _ <-. by apply Hg. Qed.

Create HintDb addr.
#[export] Hint Resolve addr_ret addr_fail addr_lift addr_get addr_get_fn addr_get_block addr_on_heap addr_on_table : addr.

(** Decomposes a computation whose steps keep the addresses. *)
Ltac addr :=
  repeat first
    [ solve [eauto with addr nocore]
    | apply addr_update_block; intros ?; reflexivity
    | apply addr_bind; [|intros ?]
    | apply addr_if
    | apply addr_for_each; intros ?
    | apply addr_on_fn; intros ? [? ?]; split; assumption
    | match goal with |- keeps_addr (match ?x with _ => _ end) => destruct x end ].

Lemma addr_remove_outgoing n b : keeps_addr (remove_outgoing n b).
Proof.
  induction n as [|n IH]; simpl; unfold RemoveEdge; addr.
Qed.

Lemma addr_EraseInst b p : keeps_addr (EraseInst b p).
Proof. unfold EraseInst, DestroyHIRValue, Block_DestroyInst. addr. Qed.

Lemma addr_SetTerminal b t : keeps_addr (Block_SetTerminal b t).
Proof. unfold Block_SetTerminal, ReIdInstr. addr. Qed.

#[export] Hint Resolve addr_remove_outgoing addr_EraseInst addr_SetTerminal : addr.

Lemma addr_ResetDecodedBlock b : keeps_addr (ResetDecodedBlock b).
Proof.
  unfold ResetDecodedBlock, reset_block. addr.
  all: apply addr_on_fn; intros f [H1 H2]; split; [done|]; simpl;
    rewrite Forall_forall in H2 |- *; intros l [_ Hl]%list_elem_of_filter; by apply H2.
Qed.

Lemma addr_CreateOrGetBlock loc : in_u64 loc -> keeps_addr (CreateOrGetBlock loc).
Proof.
  intros Hloc. unfold CreateOrGetBlock. addr. apply addr_on_fn. intros f' [H1 H2]. split; [|done]. simpl.
  apply Forall_app. split; [done|]. by constructor.
Qed.

Lemma addr_RegisterExternalEntryRoot b : keeps_addr (RegisterExternalEntryRoot b).
Proof. unfold RegisterExternalEntryRoot. apply addr_on_fn. intros f [H1 H2]. by case_decide. Qed.

(** ** Blocks for the recorded links *)

(** How many recorded direct links name an address without a block. *)
Definition missing_links (f : HIRFunction) : nat :=
  length (filter (fun l => find_location f (hf_block_list f) (snd l) = None) (hf_external_links f)).

Definition with_block_at (loc : Z) (f : HIRFunction) : HIRFunction :=
  set_block_list (hf_block_list f ++ [length (hf_blocks f)])
    (set_block_order_id (wrap 16 (hf_block_order_id f + 1))
      (set_blocks (hf_blocks f ++ [new_block (hf_block_order_id f) loc]) f)).

Lemma CreateOrGetBlock_inv loc s b s' :
  CreateOrGetBlock loc s = Ok (b, s') ->
  s' = s /\ find_location (hs_fn s) (hf_block_list (hs_fn s)) loc = Some b \/
  find_location (hs_fn s) (hf_block_list (hs_fn s)) loc = None /\ s' = mkHState (hs_heap s) (with_block_at loc (hs_fn s)).
Proof.
  intros H. unfold CreateOrGetBlock in H. apply bind_ok in H as (f & s1 & H1 & H). unfold get_fn, gets in H1. injection H1 as <- <-.
  destruct (find_location _ _ _) as [c|] eqn:E.
  - unfold ret in H. injection H as <- <-. by left.
  - right. split; [done|]. apply bind_ok in H as (u & s1 & H1 & H). unfold on_fn in H1. injection H1 as _ <-.
    unfold ret in H. by injection H as _ <-.
Qed.

(** The new block is found, and what was found before still is. *)
Lemma find_location_new f loc loc' l :
  find_location (with_block_at loc f) (l ++ [length (hf_blocks f)]) loc' = None ->
  find_location f l loc' = None /\ loc' <> loc.
Proof.
  assert (Hn : hf_blocks (with_block_at loc f) !! length (hf_blocks f) = Some (new_block (hf_block_order_id f) loc)).
  { simpl. by rewrite lookup_app_r, Nat.sub_diag. }
  induction l as [|b l IH]; cbn [app find_location].
  - rewrite Hn. simpl. destruct (Z.eqb_spec loc loc'); [done|]. by intros _.
  - destruct (hf_blocks f !! b) as [x|] eqn:Hx.
    + assert (hf_blocks (with_block_at loc f) !! b = Some x) as -> by by apply lookup_app_l_Some.
      destruct (hb_location x =? loc'); [done|]. apply IH.
    + destruct (hf_blocks (with_block_at loc f) !! b) as [y|]; [|apply IH]. destruct (hb_location y =? loc'); [done|]. apply IH.
Qed.

Lemma filter_length_lt {A} (P Q : A -> Prop) `{!forall x, Decision (P x), !forall x, Decision (Q x)} (l : list A) y :
  (forall x, Q x -> P x) -> y ∈ l -> P y -> ~ Q y -> (length (filter Q l) < length (filter P l))%nat.
Proof.
  intros Hsub Hy HP HQ. induction l as [|x l IH]; [by apply elem_of_nil in Hy|].
  assert (Hle : (length (filter Q l) <= length (filter P l))%nat).
  { clear -Hsub. induction l as [|x l IH]; [done|]. rewrite !filter_cons. destruct (decide (Q x)) as [q|].
    - rewrite decide_True by auto. simpl. lia.
    - destruct (decide (P x)); simpl; lia. }
  rewrite !filter_cons. apply elem_of_cons in Hy as [->|Hy].
  - rewrite (decide_False (P := Q x)), (decide_True (P := P x)) by done. simpl. lia.
  - specialize (IH Hy). destruct (decide (Q x)) as [q|].
    + rewrite (decide_True (P := P x)) by auto. simpl. lia.
    + destruct (decide (P x)); simpl; lia.
Qed.

Lemma missing_links_new f loc :
  find_location f (hf_block_list f) loc = None -> loc ∈ (snd <$> hf_external_links f) ->
  (missing_links (with_block_at loc f) < missing_links f)%nat.
Proof.
  intros Hnone [l [-> Hl]]%list_elem_of_fmap. unfold missing_links. apply (filter_length_lt _ _ _ l); [|done|done|].
  - intros x Hx. by apply (find_location_new f (snd l)) in Hx as [? _].
  - intros Hx. by apply (find_location_new f (snd l)) in Hx as [_ ?].
Qed.

(** ** Region computations *)

Section Progress.
Context `{Decoder}.
Context (function : nat) (start : Z) (block_cap : nat) (lazy : bool) (local_target has_code : Z -> bool).

Abbreviation with_frontier := (with_frontier function).
Abbreviation with_function := (with_function function).

Record region_ok (s : Region) : Prop := {
  ok_addresses : Forall addresses_ok (bl_functions (rg_builder s));
  ok_records : records_ok (rg_records s);
  ok_keys : forall t, t ∈ dom (rg_records s) -> in_u64 t
}.

(** A computation that keeps the region well formed, moves the records forward and
    does not lose decoded blocks. *)
Record progresses (s s' : Region) : Prop := {
  pr_ok : region_ok s';
  pr_records : records_le (rg_records s) (rg_records s');
  pr_decoded : (rg_decoded s <= rg_decoded s')%nat
}.

Definition progress {A} (m : ST Region A) (Q : A -> Region -> Prop) : Prop :=
  forall s a s', region_ok s -> m s = Ok (a, s') -> progresses s s' /\ Q a s'.

Lemma progresses_refl s : region_ok s -> progresses s s.
Proof. by split. Qed.

Lemma progresses_trans s1 s2 s3 : progresses s1 s2 -> progresses s2 s3 -> progresses s1 s3.
Proof. intros [H1 H2 H3] [H4 H5 H6]. split; [done|by etrans|lia]. Qed.

(** From a frontier that advances over 64-bit keys. *)
Lemma with_frontier_progress {A} (m : ST Frontier A) s a s' f :
  region_ok s -> bl_functions (rg_builder s) !! function = Some f ->
  (forall a t', m (mkFrontier (bl_heap (rg_builder s)) (Some f) (rg_records s)) = Ok (a, t') ->
     advances in_u64 (mkFrontier (bl_heap (rg_builder s)) (Some f) (rg_records s)) t' /\
     (forall f', fr_function t' = Some f' -> addresses_ok f')) ->
  with_frontier m s = Ok (a, s') -> progresses s s'.
Proof.
  intros [H1 H2 H3] Hf Hm Hrun. unfold RegionDecoder.with_frontier in Hrun. rewrite Hf in Hrun.
  destruct (m _) as [[a' t']|] eqn:E; [|done]. simpl in Hrun. injection Hrun as <- <-.
  destruct (Hm a' t' eq_refl) as [[A1 A2 A3] A4]. simpl in *. split; simpl; [|done|done]. split; simpl.
  - apply Forall_insert; [done|]. simpl. destruct (fr_function t') as [f'|]; simpl; [by apply A4|].
    rewrite Forall_forall in H1. apply H1. by eapply list_elem_of_lookup_2.
  - by apply A2.
  - intros t Ht. destruct (A3 t Ht) as [Ht'|]; [by apply H3|done].
Qed.

Lemma with_frontier_inv {A} (m : ST Frontier A) s a s' :
  with_frontier m s = Ok (a, s') ->
  exists f t', bl_functions (rg_builder s) !! function = Some f /\
    m (mkFrontier (bl_heap (rg_builder s)) (Some f) (rg_records s)) = Ok (a, t') /\
    s' = mkRegion (put_function function (mkHState (fr_heap t') (default f (fr_function t'))) (rg_builder s))
           (fr_records t') (rg_decoded s) (rg_hit_cap s).
Proof.
  unfold RegionDecoder.with_frontier. destruct (bl_functions (rg_builder s) !! function) as [f|]; [|done].
  destruct (m _) as [[a' t']|] eqn:E; [|done]. intros [= <- <-]. by exists f, t'.
Qed.

Lemma function_ok s f : region_ok s -> bl_functions (rg_builder s) !! function = Some f -> addresses_ok f.
Proof. intros Hok Hf. pose proof (ok_addresses _ Hok) as Ha. rewrite Forall_forall in Ha. apply Ha. by eapply list_elem_of_lookup_2. Qed.

Lemma with_function_progress {A} (m : ST HState A) s a s' :
  keeps_addr m -> region_ok s -> with_function m s = Ok (a, s') -> progresses s s' /\ rg_records s' = rg_records s /\ rg_decoded s' = rg_decoded s.
Proof.
  intros Hm Hok Hrun. pose proof Hrun as Hrun'. apply with_frontier_inv in Hrun' as (f & t' & Hf & Ht & ->).
  assert (Ht' : fr_records t' = rg_records s /\ forall f', fr_function t' = Some f' -> addresses_ok f').
  { unfold on_function in Ht. simpl in Ht. destruct (m _) as [[a' r]|] eqn:E; [|done]. simpl in Ht. injection Ht as <- <-.
    split; [done|]. simpl. intros f' [= <-]. eapply (Hm (mkHState (bl_heap (rg_builder s)) f)); [by eapply function_ok|exact E]. }
  split; [|split; [apply Ht'|done]]. apply (with_frontier_progress (on_function m) s a _ f); try done.
  intros a' t2 Ht2. rewrite Ht in Ht2. injection Ht2 as <- <-. destruct Ht' as [E Ht']. split; [|done].
  split; simpl; rewrite E; [reflexivity|done|intros t Ht1; by left].
Qed.

Lemma with_builder_progress {A} (m : ST HIRBuilder A) s a s' :
  (forall b a b', Forall addresses_ok (bl_functions b) -> m b = Ok (a, b') -> Forall addresses_ok (bl_functions b')) ->
  region_ok s -> with_builder m s = Ok (a, s') -> progresses s s' /\ rg_records s' = rg_records s /\ rg_decoded s' = rg_decoded s.
Proof.
  intros Hm [H1 H2 H3] Hrun. unfold with_builder in Hrun. destruct (m (rg_builder s)) as [[a' b']|] eqn:E; [|done].
  simpl in Hrun. injection Hrun as <- <-. split_and!; try done. split; simpl; [|done|done]. split; simpl; [|done|done]. by eapply Hm.
Qed.

Lemma on_current_addr {A} (m : ST HState A) b a b' :
  keeps_addr m -> Forall addresses_ok (bl_functions b) -> on_current m b = Ok (a, b') -> Forall addresses_ok (bl_functions b').
Proof.
  intros Hm Hb Hrun. unfold on_current in Hrun. destruct (bl_current_function b) as [k|]; [|done].
  destruct (bl_functions b !! k) as [f|] eqn:Hf; [|done]. destruct (m _) as [[a' r]|] eqn:E; [|done].
  simpl in Hrun. injection Hrun as _ <-. simpl. apply Forall_insert; [done|].
  assert (addresses_ok f) as Hok by (rewrite Forall_forall in Hb; apply Hb; by eapply list_elem_of_lookup_2).
  eapply (Hm (mkHState (bl_heap b) f)); [exact Hok|exact E].
Qed.

Lemma reset_addr blk b a b' :
  Forall addresses_ok (bl_functions b) -> Builder_ResetDecodedBlock blk b = Ok (a, b') -> Forall addresses_ok (bl_functions b').
Proof.
  intros Hb Hrun. unfold Builder_ResetDecodedBlock in Hrun. apply bind_ok in Hrun as (d & b1 & H1 & Hrun).
  apply on_current_addr in H1; [|apply addr_ResetDecodedBlock|done].
  destruct d; [|unfold ret in Hrun; by injection Hrun as _ <-].
  apply bind_ok in Hrun as (x & b2 & H2 & Hrun). apply on_current_addr in H2; [|apply addr_get_block|done].
  apply bind_ok in Hrun as (u & b3 & H3 & Hrun). unfold modify in H3. injection H3 as _ <-.
  unfold ret in Hrun. by injection Hrun as _ <-.
Qed.

Lemma decode_addr address blk stop kind b a b' :
  Forall addresses_ok (bl_functions b) -> (Builder_SetCurBlock blk;;; decode_at address stop kind) b = Ok (a, b') ->
  Forall addresses_ok (bl_functions b').
Proof.
  intros Hb Hrun. apply bind_ok in Hrun as (u & b1 & H1 & Hrun). destruct a.
  eapply decode_at_addresses; [|exact Hrun]. eapply on_current_addr; [|exact Hb|exact H1].
  apply addr_on_fn. intros f [H2 H3]. by split.
Qed.

(** Reading the function changes nothing. *)
Lemma put_function_id f b :
  bl_functions b !! function = Some f -> put_function function (mkHState (bl_heap b) f) b = b.
Proof. intros Hf. unfold put_function. simpl. rewrite list_insert_id by done. by destruct b. Qed.

Lemma with_function_read {A} (m : ST HState A) s a s' :
  (forall t a t', m t = Ok (a, t') -> t' = t) -> with_function m s = Ok (a, s') ->
  s' = s /\ exists f, bl_functions (rg_builder s) !! function = Some f /\ m (mkHState (bl_heap (rg_builder s)) f) = Ok (a, mkHState (bl_heap (rg_builder s)) f).
Proof.
  intros Hm Hrun. apply with_frontier_inv in Hrun as (f & t' & Hf & Ht & ->). unfold on_function in Ht. simpl in Ht.
  destruct (m (mkHState (bl_heap (rg_builder s)) f)) as [[a' r]|] eqn:E; [|done]. simpl in Ht. injection Ht as <- <-.
  pose proof (Hm _ _ _ E) as ->. simpl. rewrite (put_function_id f) by done. split; [by destruct s|]. by exists f.
Qed.

Lemma get_block_read b s x s' :
  with_function (get_block b) s = Ok (x, s') ->
  s' = s /\ exists f, bl_functions (rg_builder s) !! function = Some f /\ hf_blocks f !! b = Some x.
Proof.
  intros Hrun. apply with_function_read in Hrun as (-> & f & Hf & Hx); [|by intros t a t' [-> _]%get_block_inv].
  split; [done|]. exists f. split; [done|]. by apply get_block_inv in Hx as [_ Hx].
Qed.

Lemma get_function_read s f s' :
  get_function function s = Ok (f, s') -> s' = s /\ bl_functions (rg_builder s) !! function = Some f.
Proof.
  intros Hrun. apply with_function_read in Hrun as (-> & f' & Hf & Hx); [|by intros t a t' [= _ <-]].
  unfold get_fn, gets in Hx. injection Hx as ->. done.
Qed.

Lemma block_address s b f x :
  region_ok s -> bl_functions (rg_builder s) !! function = Some f -> hf_blocks f !! b = Some x -> in_u64 (hb_location x).
Proof.
  intros Hok Hf Hx. pose proof (ao_blocks _ (function_ok s f Hok Hf)) as Hb. rewrite Forall_forall in Hb.
  apply Hb. by eapply list_elem_of_lookup_2.
Qed.

(** [FindSplit] in a region. *)
Lemma split_progress target e missing s r s' :
  region_ok s -> in_u64 target -> with_frontier (FindSplit target e missing) s = Ok (r, s') ->
  progresses s s' /\ rg_builder s' = rg_builder s /\ rg_decoded s' = rg_decoded s /\ rg_hit_cap s' = rg_hit_cap s /\
  (forall sp, r = Some sp -> exists rec, rg_records s' !! target = Some rec /\ disposition rec = Candidate).
Proof.
  intros Hok Ht Hrun. pose proof Hrun as Hrun'. apply with_frontier_inv in Hrun' as (f & t' & Hf & Hrun' & ->).
  apply FindSplit_result in Hrun' as R. destruct R as [R1 R2 R3 R4 R5 R6]. simpl in *.
  split_and!; simpl; try done.
  - apply (with_frontier_progress (FindSplit target e missing) s r _ f); try done. intros r2 t2 Ht2. rewrite Hrun' in Ht2. injection Ht2 as <- <-. split.
    + destruct R3 as [A1 A2 A3]. split; try done. intros t Hd. destruct (A3 t Hd) as [| ->]; auto.
    + intros f'. rewrite R2. intros [= <-]. by eapply function_ok.
  - rewrite R1, R2. simpl. by apply put_function_id.
  - intros sp ->. destruct (R5 sp eq_refl) as (rec & Hrec & Hd & _). by exists rec.
Qed.

(** Settling the candidate a split was returned for. *)
Lemma reject_progress target reason s u s' rec :
  region_ok s -> in_u64 target -> rg_records s !! target = Some rec -> disposition rec = Candidate -> reason <> NoOwner ->
  with_frontier (Reject target reason) s = Ok (u, s') ->
  progresses s s' /\ (total_weight (rg_records s) < total_weight (rg_records s'))%nat.
Proof.
  intros Hok Ht Hrec Hd Hno Hrun. pose proof Hrun as Hrun'. apply with_frontier_inv in Hrun' as (f & t' & Hf & Hrun' & ->).
  assert (Hr : advances (fun t => t = target) (mkFrontier (bl_heap (rg_builder s)) (Some f) (rg_records s)) t' /\
     (total_weight (rg_records s) < total_weight (fr_records t'))%nat /\ fr_function t' = Some f).
  { unfold Reject in Hrun'. apply bind_ok in Hrun' as (s0 & s1 & H1 & Hrun'). unfold get in H1. injection H1 as <- <-.
    simpl in Hrun'. apply bind_ok in Hrun' as (u1 & s1 & H1 & Hrun'). apply guard_ok in H1 as [_ ->].
    apply bind_ok in Hrun' as (u2 & s1 & H1 & Hrun'). apply guard_ok in H1 as [Hreason%bool_decide_eq_true ->].
    apply bind_ok in Hrun' as (r & s1 & H1 & Hrun'). unfold ret in Hrun'. injection Hrun' as _ <-.
    destruct (settle_advances target Rejected reason (mkFrontier (bl_heap (rg_builder s)) (Some f) (rg_records s)) _ _ rec Hrec Hd ltac:(done) ltac:(by right) H1) as (Ha & Hw & _ & Hfn & _).
    by split_and!. }
  destruct Hr as (Ha & Hw & Hfn). split; [|exact Hw].
  apply (with_frontier_progress (Reject target reason) s u _ f); try done. intros u2 t2 Ht2. rewrite Hrun' in Ht2. injection Ht2 as _ <-. split.
  - destruct Ha as [A1 A2 A3]. split; try done. intros t Hdom. destruct (A3 t Hdom) as [| ->]; auto.
  - rewrite Hfn. intros f' [= <-]. by eapply function_ok.
Qed.

Lemma accept_progress target s u s' rec :
  region_ok s -> in_u64 target -> rg_records s !! target = Some rec -> disposition rec = Candidate ->
  with_frontier (Accept target) s = Ok (u, s') ->
  progresses s s' /\ (total_weight (rg_records s) < total_weight (rg_records s'))%nat.
Proof.
  intros Hok Ht Hrec Hd Hrun. pose proof Hrun as Hrun'. apply with_frontier_inv in Hrun' as (f & t' & Hf & Hrun' & ->).
  assert (Hr : advances (fun t => t = target) (mkFrontier (bl_heap (rg_builder s)) (Some f) (rg_records s)) t' /\
     (total_weight (rg_records s) < total_weight (fr_records t'))%nat /\
     (forall f', fr_function t' = Some f' -> addresses_ok f')).
  { unfold Accept in Hrun'. apply bind_ok in Hrun' as (r & s1 & H1 & Hrun').
    destruct (settle_advances target Accepted RejNone (mkFrontier (bl_heap (rg_builder s)) (Some f) (rg_records s)) _ _ rec Hrec Hd ltac:(done) ltac:(by left) H1) as (Ha & Hw & Hh & Hfn & _).
    simpl in *. destruct (pv_external_root (rec_provenance r)).
    - unfold on_function in Hrun'. rewrite Hfn in Hrun'. destruct (bind _ _ _) as [[a2 t2]|] eqn:E; [|done].
      simpl in Hrun'. injection Hrun' as _ <-. simpl. split_and!; [|done|].
      + destruct Ha as [A1 A2 A3]. by split.
      + intros f' [= <-]. assert (Hk : keeps_addr (root <- CreateOrGetBlock target;; RegisterExternalEntryRoot root)).
        { apply addr_bind; [by apply addr_CreateOrGetBlock|]. intros. apply addr_RegisterExternalEntryRoot. }
        eapply (Hk (mkHState (fr_heap s1) f)); [by eapply function_ok|exact E].
    - unfold ret in Hrun'. injection Hrun' as _ <-. split_and!; [done..|]. rewrite Hfn. intros f' [= <-]. by eapply function_ok. }
  destruct Hr as (Ha & Hw & Hfn). split; [|exact Hw].
  apply (with_frontier_progress (Accept target) s u _ f); try done. intros u2 t2 Ht2. rewrite Hrun' in Ht2. injection Ht2 as _ <-. split; [|done].
  destruct Ha as [A1 A2 A3]. split; try done. intros t Hdom. destruct (A3 t Hdom) as [| ->]; auto.
Qed.

(** ** The loops of a round *)

Definition replay_ := replay function local_target.

Lemma DecodeBlock_progress address b stop kind s u s' :
  region_ok s -> DecodeBlock address b stop kind s = Ok (u, s') ->
  progresses s s' /\ rg_records s' = rg_records s /\ rg_decoded s' = rg_decoded s.
Proof. intros Hok Hrun. eapply with_builder_progress; [|exact Hok|exact Hrun]. intros. by eapply decode_addr. Qed.

Lemma decoded_end_read b s e s' : decoded_end function b s = Ok (e, s') -> s' = s.
Proof.
  intros Hrun. unfold decoded_end in Hrun. apply bind_ok in Hrun as (x & s1 & H1 & Hrun). apply get_block_read in H1 as [-> _].
  apply bind_ok in Hrun as (s0 & s1 & H1 & Hrun). unfold get in H1. injection H1 as <- <-. by apply lift_ok in Hrun as [_ ->].
Qed.

(** The end of a replay: the candidate is settled. *)
Lemma replay_end target owner (sp : Split) y s s' rec r :
  region_ok s -> in_u64 target -> rg_records s !! target = Some rec -> disposition rec = Candidate ->
  (reset <- with_builder (Builder_ResetDecodedBlock owner);;
   if negb reset then with_frontier (Reject target OwnerResetFailed);;; ret true
   else
     DecodeBlock (hb_location y) owner target
       (if pv_call_return_boundary (sp_provenance sp) then StopCallReturn else StopInternal);;;
     e <- decoded_end function owner;;
     with_frontier (if e =? target then Accept target else Reject target BoundaryMismatch);;;
     ret true) s = Ok (r, s') ->
  r = true /\ progresses s s' /\ (total_weight (rg_records s) < total_weight (rg_records s'))%nat.
Proof.
  intros Hok Ht Hrec Hd Hrun. apply bind_ok in Hrun as (reset & s1 & H1 & Hrun).
  destruct (with_builder_progress _ _ _ _ (reset_addr owner) Hok H1) as (P1 & R1 & _).
  pose proof (pr_ok _ _ P1) as Hok1. rewrite <- R1 in Hrec |- *. destruct (negb reset).
  - apply bind_ok in Hrun as (u & s2 & H2 & Hrun). unfold ret in Hrun. injection Hrun as <- <-.
    destruct (reject_progress target OwnerResetFailed _ _ _ rec Hok1 Ht Hrec Hd ltac:(done) H2) as [P2 Hw].
    split_and!; [done|by eapply progresses_trans|done].
  - apply bind_ok in Hrun as (u & s2 & H2 & Hrun).
    destruct (DecodeBlock_progress _ _ _ _ _ _ _ Hok1 H2) as (P2 & R2 & _).
    apply bind_ok in Hrun as (e & s3 & H3 & Hrun). apply decoded_end_read in H3 as ->.
    apply bind_ok in Hrun as (u3 & s3 & H3 & Hrun). unfold ret in Hrun. injection Hrun as <- <-.
    pose proof (pr_ok _ _ P2) as Hok2. rewrite <- R2 in Hrec |- *.
    assert (P3 : progresses s2 s3 /\ (total_weight (rg_records s2) < total_weight (rg_records s3))%nat).
    { destruct (e =? target); [by eapply accept_progress|by eapply (reject_progress target BoundaryMismatch)]. }
    destruct P3 as [P3 Hw]. split_and!; [done| |done]. eapply progresses_trans; [exact P1|]. by eapply progresses_trans.
Qed.

Lemma replay_progress l : forall s r s',
  region_ok s -> replay_ l s = Ok (r, s') ->
  progresses s s' /\
  (if r then (total_weight (rg_records s) < total_weight (rg_records s'))%nat
   else rg_builder s' = rg_builder s /\ rg_decoded s' = rg_decoded s /\ rg_hit_cap s' = rg_hit_cap s).
Proof.
  unfold replay_. induction l as [|b l IH]; intros s r s' Hok Hrun; cbn [replay] in Hrun.
  - unfold ret in Hrun. injection Hrun as <- <-. by split; [apply progresses_refl|].
  - apply bind_ok in Hrun as (x & s1 & H1 & Hrun). apply get_block_read in H1 as (-> & f & Hf & Hx).
    pose proof (block_address s b f x Hok Hf Hx) as Ht.
    destruct (negb (empty_block x)); [by apply IH|]. destruct (negb (local_target (hb_location x))); [by apply IH|].
    apply bind_ok in Hrun as (split & s1 & H1 & Hrun).
    destruct (split_progress _ false true _ _ _ Hok Ht H1) as (P1 & B1 & D1 & C1 & Hs). pose proof (pr_ok _ _ P1) as Hok1.
    destruct split as [sp|].
    + destruct (Hs sp eq_refl) as (rec & Hrec & Hd). destruct (sp_owner sp) as [owner|]; [|done].
      apply bind_ok in Hrun as (y & s2 & H2 & Hrun). apply get_block_read in H2 as (-> & _).
      destruct (replay_end _ _ sp y s1 s' rec r Hok1 Ht Hrec Hd Hrun) as (-> & P2 & Hw).
      split; [by eapply progresses_trans|]. destruct (records_le_weight _ _ (pr_records _ _ P1)) as [E|]; [by rewrite <- E|lia].
    + destruct (IH s1 r s' Hok1 Hrun) as [P2 Hr]. split; [by eapply progresses_trans|]. destruct r.
      * destruct (records_le_weight _ _ (pr_records _ _ P1)) as [E|]; [by rewrite <- E|lia].
      * destruct Hr as (-> & -> & ->). done.
Qed.

Lemma with_function_address t s b s' :
  region_ok s -> in_u64 t -> with_function (CreateOrGetBlock t) s = Ok (b, s') ->
  progresses s s' /\ rg_records s' = rg_records s /\ rg_decoded s' = rg_decoded s.
Proof. intros Hok Ht Hrun. eapply with_function_progress; [by apply addr_CreateOrGetBlock|done|done]. Qed.

Lemma NearestEntry_read a u s n s' : NearestEntry function a u s = Ok (n, s') -> s' = s.
Proof.
  intros Hrun. unfold NearestEntry in Hrun. apply bind_ok in Hrun as (f & s1 & H1 & Hrun).
  apply get_function_read in H1 as [-> _]. unfold ret in Hrun. by injection Hrun as _ <-.
Qed.

(** One block of [decode_pending]. *)
Lemma decode_one_progress address s u s' :
  region_ok s -> in_u64 address ->
  (b <- with_function (CreateOrGetBlock address);;
   stop <- NearestEntry function address (2 ^ 64 - 1);;
   DecodeBlock address b stop StopInternal;;;
   e <- decoded_end function b;;
   late_entry <- NearestEntry function address e;;
   (if late_entry =? 0 then ret tt
    else
      reset <- with_builder (Builder_ResetDecodedBlock b);;
      if reset : bool then DecodeBlock address b late_entry StopInternal else ret tt)) s = Ok (u, s') ->
  progresses s s' /\ rg_decoded s' = rg_decoded s.
Proof.
  intros Hok Ha Hrun. apply bind_ok in Hrun as (b & s1 & H1 & Hrun).
  destruct (with_function_address _ _ _ _ Hok Ha H1) as (P1 & _ & D1). pose proof (pr_ok _ _ P1) as Hok1.
  apply bind_ok in Hrun as (stop & s2 & H2 & Hrun). apply NearestEntry_read in H2 as ->.
  apply bind_ok in Hrun as (u2 & s2 & H2 & Hrun).
  destruct (DecodeBlock_progress _ _ _ _ _ _ _ Hok1 H2) as (P2 & _ & D2). pose proof (pr_ok _ _ P2) as Hok2.
  apply bind_ok in Hrun as (e & s3 & H3 & Hrun). apply decoded_end_read in H3 as ->.
  apply bind_ok in Hrun as (late & s3 & H3 & Hrun). apply NearestEntry_read in H3 as ->.
  assert (P3 : progresses s2 s' /\ rg_decoded s' = rg_decoded s2).
  { destruct (late =? 0); [unfold ret in Hrun; injection Hrun as _ <-; split; [by apply progresses_refl|done]|].
    apply bind_ok in Hrun as (reset & s3 & H3 & Hrun).
    destruct (with_builder_progress _ _ _ _ (reset_addr b) Hok2 H3) as (P3 & _ & D3). pose proof (pr_ok _ _ P3) as Hok3.
    destruct reset; [|unfold ret in Hrun; by injection Hrun as _ <-].
    destruct (DecodeBlock_progress _ _ _ _ _ _ _ Hok3 Hrun) as (P4 & _ & D4). split; [by eapply progresses_trans|congruence]. }
  destruct P3 as [P3 D3]. split; [|congruence]. eapply progresses_trans; [exact P1|]. by eapply progresses_trans.
Qed.

Lemma decode_pending_progress l : forall s u s',
  region_ok s -> Forall in_u64 l -> decode_pending function block_cap l s = Ok (u, s') ->
  progresses s s' /\ (l <> [] -> (rg_decoded s < block_cap)%nat -> (rg_decoded s < rg_decoded s')%nat).
Proof.
  induction l as [|a l IH]; intros s u s' Hok Hl Hrun; cbn [decode_pending] in Hrun.
  - unfold ret in Hrun. injection Hrun as _ <-. split; [by apply progresses_refl|done].
  - apply Forall_cons in Hl as [Ha Hl]. apply bind_ok in Hrun as (s0 & s1 & H1 & Hrun). unfold get in H1. injection H1 as <- <-.
    destruct (Nat.eqb_spec (rg_decoded s) block_cap) as [E|E].
    + unfold set_hit_cap, modify in Hrun. injection Hrun as _ <-. split; [|lia]. destruct Hok. by split.
    + match type of Hrun with ?m s = _ =>
        assert (Hsplit : exists s1, progresses s s1 /\ rg_decoded s1 = rg_decoded s /\
                  (count_decoded;;; decode_pending function block_cap l) s1 = Ok (u, s')) end.
      { apply bind_ok in Hrun as (b & s1 & H1 & Hrun). apply bind_ok in Hrun as (stop & s2 & H2 & Hrun).
        apply bind_ok in Hrun as (u3 & s3 & H3 & Hrun). apply bind_ok in Hrun as (e & s4 & H4 & Hrun).
        apply bind_ok in Hrun as (late & s5 & H5 & Hrun). apply bind_ok in Hrun as (u6 & s6 & H6 & Hrun).
        exists s6. destruct (decode_one_progress a s u6 s6 Hok Ha) as [P D]; [|done].
        unfold bind at 1. rewrite H1. unfold bind at 1. rewrite H2. unfold bind at 1. rewrite H3.
        unfold bind at 1. rewrite H4. unfold bind at 1. by rewrite H5. }
      destruct Hsplit as (s1 & P1 & D1 & Hrest). apply bind_ok in Hrest as (u2 & s2 & H2 & Hrest).
      unfold count_decoded, modify in H2. injection H2 as _ <-.
      set (s2 := mkRegion _ _ _ _) in Hrest.
      assert (P2 : progresses s1 s2) by (destruct (pr_ok _ _ P1); split; [by split|done|simpl; lia]).
      destruct (IH s2 u s' (pr_ok _ _ P2) Hl Hrest) as [P3 _]. split.
      * eapply progresses_trans; [exact P1|]. by eapply progresses_trans.
      * intros _ _. pose proof (pr_decoded _ _ P3) as Hd. simpl in Hd. lia.
Qed.

(** ** One round *)

Definition missing (s : Region) : nat :=
  match bl_functions (rg_builder s) !! function with Some f => missing_links f | None => 0 end.

Definition links (s : Region) : list Z :=
  match bl_functions (rg_builder s) !! function with Some f => snd <$> hf_external_links f | None => [] end.

Lemma create_step t s b s' :
  region_ok s -> t ∈ links s -> with_function (CreateOrGetBlock t) s = Ok (b, s') ->
  progresses s s' /\ links s' = links s /\ rg_records s' = rg_records s /\ (s' = s \/ (missing s' < missing s)%nat).
Proof.
  intros Hok Ht Hrun. pose proof Hrun as Hrun'. apply with_frontier_inv in Hrun' as (f & t' & Hf & Hrun' & Es).
  pose proof Hok as Hok'. unfold links in Ht. rewrite Hf in Ht.
  assert (Htu : in_u64 t).
  { pose proof (ao_links _ (function_ok s f Hok Hf)) as Hl. rewrite Forall_forall in Hl.
    apply list_elem_of_fmap in Ht as (l & -> & Hin). by apply Hl. }
  destruct (with_function_address t s b s' Hok Htu Hrun) as (P & R & _). split; [done|].
  unfold on_function in Hrun'. simpl in Hrun'. destruct (CreateOrGetBlock t _) as [[b' r]|] eqn:E; [|done].
  simpl in Hrun'. injection Hrun' as -> <-. apply CreateOrGetBlock_inv in E as [[-> _]|[Hnone ->]]; simpl in Es.
  - rewrite put_function_id in Es by done. assert (s' = s) as -> by (rewrite Es; by destruct s). split_and!; [done..|by left].
  - assert (Hf' : bl_functions (rg_builder s') !! function = Some (with_block_at t f)).
    { rewrite Es. simpl. apply list_lookup_insert_eq. by eapply lookup_lt_Some. }
    unfold links, missing. rewrite Hf, Hf'. split_and!; [done|done|]. right. by apply missing_links_new.
Qed.

Lemma create_all roots : forall s u s',
  region_ok s -> (forall t, t ∈ roots -> t ∈ links s) ->
  for_each (fun t => _ <- with_function (CreateOrGetBlock t);; ret tt) roots s = Ok (u, s') ->
  progresses s s' /\ rg_records s' = rg_records s /\ (s' = s \/ (missing s' < missing s)%nat).
Proof.
  induction roots as [|t roots IH]; intros s u s' Hok Hl Hrun; simpl in Hrun.
  - unfold ret in Hrun. injection Hrun as _ <-. split_and!; [by apply progresses_refl|done|by left].
  - apply bind_ok in Hrun as (u1 & s1 & H1 & Hrun). apply bind_ok in H1 as (b & s2 & H1 & H2).
    unfold ret in H2. injection H2 as _ <-.
    destruct (create_step t s b s2 Hok) as (P1 & L1 & R1 & M1); [apply Hl; left|done|].
    destruct (IH s2 u s' (pr_ok _ _ P1)) as (P2 & R2 & M2); [|done|].
    { intros t' Ht'. rewrite L1. apply Hl. by right. }
    split_and!; [by eapply progresses_trans|congruence|].
    destruct M1 as [->|M1]; [done|]. destruct M2 as [->|M2]; [by right|right; lia].
Qed.

(** [DiscoverExternalRoots] in a region. *)
Lemma discover_progress min policy s l s' :
  region_ok s -> with_frontier (DiscoverExternalRoots start min policy) s = Ok (l, s') ->
  progresses s s' /\ rg_builder s' = rg_builder s /\ rg_decoded s' = rg_decoded s /\ rg_hit_cap s' = rg_hit_cap s /\
  (forall t, t ∈ l -> t ∈ links s).
Proof.
  intros Hok Hrun. pose proof Hrun as Hrun'. apply with_frontier_inv in Hrun' as (f & t' & Hf & Hrun' & ->).
  destruct (DiscoverExternalRoots_discovered start min policy (mkFrontier (bl_heap (rg_builder s)) (Some f) (rg_records s)) l t' f eq_refl Hrun') as [_ [D1 D2 D3 D4 D5 D6 D7]].
  simpl in *.
  assert (Hkey : forall t, t ∈ sorted_keys (foldl count_source ∅ (hf_external_links f)) -> t ∈ (snd <$> hf_external_links f)).
  { intros t Ht%sorted_keys_elem. destruct (proj1 (proj2 (count_sources_spec (hf_external_links f) ∅ t)) Ht) as [He|Hc]; [set_solver|].
    unfold link_count in Hc. destruct (filter (fun l0 => snd l0 = t) (hf_external_links f)) as [|x l0] eqn:E; [done|].
    assert (Hx : x ∈ filter (fun l0 => snd l0 = t) (hf_external_links f)) by (rewrite E; left).
    apply list_elem_of_filter in Hx as [<- Hx]. apply list_elem_of_fmap. by exists x. }
  split_and!; simpl; try done.
  - apply (with_frontier_progress (DiscoverExternalRoots start min policy) s l _ f); try done.
    intros l2 t2 Ht2. rewrite Hrun' in Ht2. injection Ht2 as <- <-. split.
    + destruct D3 as [A1 A2 A3]. split; try done. intros t Hd. destruct (A3 t Hd) as [|Ht]; [by left|right].
      apply Hkey in Ht. pose proof (ao_links _ (function_ok s f Hok Hf)) as Hlk. rewrite Forall_forall in Hlk.
      apply list_elem_of_fmap in Ht as (x & -> & Hx). by apply Hlk.
    + rewrite D2. intros f' [= <-]. by eapply function_ok.
  - rewrite D1, D2. simpl. by apply put_function_id.
  - intros t Ht. unfold links. rewrite Hf. apply Hkey. by eapply elem_of_sublist.
Qed.

Lemma external_roots_progress s l s' :
  region_ok s -> external_roots function start s = Ok (l, s') ->
  progresses s s' /\ rg_builder s' = rg_builder s /\ rg_decoded s' = rg_decoded s /\ rg_hit_cap s' = rg_hit_cap s /\
  (forall t, t ∈ l -> t ∈ links s).
Proof.
  intros Hok Hrun. unfold external_roots in Hrun. apply bind_ok in Hrun as (l1 & s1 & H1 & Hrun).
  destruct (discover_progress _ _ _ _ _ Hok H1) as (P1 & B1 & D1 & C1 & L1).
  apply bind_ok in Hrun as (l2 & s2 & H2 & Hrun).
  destruct (discover_progress _ _ _ _ _ (pr_ok _ _ P1) H2) as (P2 & B2 & D2 & C2 & L2).
  unfold ret in Hrun. injection Hrun as <- <-. split_and!; [by eapply progresses_trans|congruence..|].
  intros t [Ht|Ht]%elem_of_app; [by apply L1|]. apply list_elem_of_filter in Ht as [_ Ht]. apply L2 in Ht.
  unfold links in *. by rewrite B1 in Ht.
Qed.

Definition round := decode_round function start block_cap lazy local_target has_code.

(** A round that continues changes nothing or makes progress in one of three ways. *)
Lemma round_progress s r s' :
  region_ok s -> (rg_decoded s < block_cap)%nat -> round s = Ok (r, s') ->
  progresses s s' /\
  (r = true -> s' = s \/ (rg_decoded s < rg_decoded s')%nat \/
               (total_weight (rg_records s) < total_weight (rg_records s'))%nat \/ (missing s' < missing s)%nat).
Proof.
  intros Hok Hcap Hrun. unfold round, decode_round in Hrun.
  apply bind_ok in Hrun as (f & s1 & H1 & Hrun). apply get_function_read in H1 as [-> Hf].
  apply bind_ok in Hrun as (replayed & s1 & H1 & Hrun).
  destruct (replay_progress _ _ _ _ Hok H1) as [P1 Hrep]. destruct replayed.
  - unfold ret in Hrun. injection Hrun as <- <-. split; [done|]. intros _. right; right; by left.
  - destruct Hrep as (B1 & D1 & C1). pose proof (pr_ok _ _ P1) as Hok1.
    apply bind_ok in Hrun as (f1 & s2 & H2 & Hrun). apply get_function_read in H2 as [-> Hf1].
    apply bind_ok in Hrun as (s0 & s2 & H2 & Hrun). unfold get in H2. injection H2 as <- <-.
    destruct (to_decode _ _ _ s1 f1) as [|a l] eqn:Hd.
    + apply bind_ok in Hrun as (roots & s2 & H2 & Hrun).
      destruct (external_roots_progress _ _ _ Hok1 H2) as (P2 & B2 & D2 & C2 & L2).
      apply bind_ok in Hrun as (u & s3 & H3 & Hrun). unfold ret in Hrun. injection Hrun as Hr <-.
      destruct (create_all roots s2 u s3 (pr_ok _ _ P2)) as (P3 & R3 & M3); [|done|].
      { intros t Ht. unfold links. rewrite B2. by apply L2. }
      assert (P : progresses s s3) by (eapply progresses_trans; [exact P1|]; by eapply progresses_trans).
      split; [exact P|]. intros _. destruct (records_le_weight _ _ (pr_records _ _ P)) as [E|]; [|right; right; by left].
      destruct M3 as [->|M3].
      * left. destruct s, s2. simpl in *. congruence.
      * right; right; right. unfold missing in *. by rewrite B2, B1 in M3.
    + assert (Hl : Forall in_u64 (a :: l)).
      { rewrite <- Hd. rewrite Forall_forall. intros t Ht. unfold to_decode in Ht.
        apply list_elem_of_omap in Ht as (b & _ & Hb). destruct (hf_blocks f1 !! b) as [x|] eqn:Hx; [|done].
        assert (t = hb_location x) as ->; [|by eapply (block_address s1)].
        destruct (negb (empty_block x)); [done|]. destruct (_ && _); [done|]. destruct (local_target _); [by injection Hb|done]. }
      apply bind_ok in Hrun as (u & s2 & H2 & Hrun). unfold ret in Hrun. injection Hrun as <- <-.
      destruct (decode_pending_progress _ _ _ _ Hok1 Hl H2) as [P2 Hlt].
      split; [by eapply progresses_trans|]. intros _. right. left. rewrite <- D1. apply Hlt; [done|lia].
Qed.

(** ** The loop *)

Definition loop := region_loop function start block_cap lazy local_target has_code.

(** A round of the loop, from a state in which the loop continues. *)
Definition continues (s s' : Region) : Prop := (rg_decoded s < block_cap)%nat /\ round s = Ok (true, s').

Lemma loop_continues s s' n : continues s s' -> loop (S n) s = loop n s'.
Proof.
  intros [Hcap Hr]. unfold loop. cbn [region_loop]. destruct (Nat.ltb_spec (rg_decoded s) block_cap); [|lia].
  unfold round in Hr. by rewrite Hr.
Qed.

Lemma loop_never s : continues s s -> forall n, loop n s = None.
Proof.
  intros Hc n. induction n as [|n IH]; [|by rewrite (loop_continues s s)].
  destruct Hc as [Hcap _]. unfold loop. cbn [region_loop]. by destruct (Nat.ltb_spec (rg_decoded s) block_cap); [|lia].
Qed.

Lemma loop_never_after s s' : rtc continues s s' -> continues s' s' -> forall n, loop n s = None.
Proof.
  intros Hr Hc. induction Hr as [x|x y z Hxy _ IH]; [by apply loop_never|]. intros [|n].
  - destruct Hxy as [Hcap _]. unfold loop. cbn [region_loop]. by destruct (Nat.ltb_spec (rg_decoded x) block_cap); [|lia].
  - rewrite (loop_continues x y) by done. by apply IH.
Qed.

(** There are only so many addresses to keep records of. *)
Lemma weight_bounded : exists B, forall s, region_ok s -> (total_weight (rg_records s) <= B)%nat.
Proof.
  exists (3 * size (list_to_set (C := gset Z) (seqZ 0 (2 ^ 64))))%nat. intros s Hok. apply total_weight_bound. intros t Ht.
  pose proof (ok_keys s Hok t Ht) as Hu. apply elem_of_list_to_set, elem_of_seqZ. unfold in_u64 in Hu. lia.
Qed.

Lemma loop_returns_aux (B : nat) : forall c w m s,
  region_ok s -> (block_cap - rg_decoded s <= c)%nat -> (B - total_weight (rg_records s) <= w)%nat -> (missing s <= m)%nat ->
  (forall s', region_ok s' -> (total_weight (rg_records s') <= B)%nat) ->
  ~ (exists s', rtc continues s s' /\ continues s' s') -> exists n r, loop n s = Some r.
Proof.
  intros c. induction c as [c IHc] using lt_wf_ind. intros w. induction w as [w IHw] using lt_wf_ind.
  intros m. induction m as [m IHm] using lt_wf_ind. intros s Hok Hc Hw Hm HB Hno.
  destruct (Nat.ltb_spec (rg_decoded s) block_cap) as [Hcap|Hcap].
  - destruct (round s) as [[[] s1]|e] eqn:Hr.
    + assert (Hcont : continues s s1) by done.
      assert (Hno1 : ~ exists s', rtc continues s1 s' /\ continues s' s').
      { intros (s' & H1 & H2). apply Hno. exists s'. split; [by eapply rtc_l|done]. }
      destruct (round_progress s true s1 Hok Hcap Hr) as [[P1 P2 P3] Hp].
      assert (Hnext : exists n r, loop n s1 = Some r).
      { assert (HW : (total_weight (rg_records s) <= total_weight (rg_records s1))%nat)
          by (destruct (records_le_weight _ _ P2) as [->|]; lia).
        pose proof (HB s1 P1) as HB1.
        destruct (Hp eq_refl) as [->|[Hd|Hrest]].
        - destruct Hno. by exists s.
        - apply (IHc (block_cap - rg_decoded s1)%nat ltac:(lia) (B - total_weight (rg_records s1))%nat (missing s1) s1); auto.
        - destruct (Nat.lt_ge_cases (total_weight (rg_records s)) (total_weight (rg_records s1))) as [Hlt|Hge].
          + apply (IHw (B - total_weight (rg_records s1))%nat ltac:(lia) (missing s1) s1); auto. lia.
          + apply (IHm (missing s1) ltac:(lia) s1); auto; lia. }
      destruct Hnext as (n & r & Hn). exists (S n), r. by rewrite (loop_continues s s1).
    + exists 1%nat, (Ok s1). unfold loop. cbn [region_loop]. destruct (Nat.ltb_spec (rg_decoded s) block_cap); [|lia].
      unfold round in Hr. by rewrite Hr.
    + exists 1%nat, (Err e). unfold loop. cbn [region_loop]. destruct (Nat.ltb_spec (rg_decoded s) block_cap); [|lia].
      unfold round in Hr. by rewrite Hr.
  - exists 0%nat, (Ok s). unfold loop. cbn [region_loop]. by destruct (Nat.ltb_spec (rg_decoded s) block_cap); [lia|].
Qed.

(** (C31) The decode loop of a region returns exactly when no sequence of rounds reaches a
    state that one more round leaves unchanged: every other round decodes a block,
    adds or settles a record, or creates the block of a recorded link, and the
    block budget and the address space bound how often.  So a fixed point is the only way
    it can hang, whatever the instruction decoder does. *)
Theorem region_loop_returns (s : Region) :
  region_ok s ->
  (exists fuel r, loop fuel s = Some r) <-> ~ exists s', rtc continues s s' /\ continues s' s'.
Proof.
  intros Hok. split.
  - intros (n & r & Hn) (s' & H1 & H2). rewrite (loop_never_after s s' H1 H2) in Hn. done.
  - intros Hno. destruct weight_bounded as [B HB]. by eapply (loop_returns_aux B).
Qed.
End Progress.

(** ** Examples *)

Definition region_config : BuilderConfig := mkBuilderConfig true true false.

(** An instruction at an address nothing else uses. *)
Definition append (op : OpCode) (ret_type : option ValueType) (args : list BuildArg) : ST HIRBuilder (option Ptr) :=
  s <- get;;
  Builder_AppendInst region_config (fresh (dom (bl_heap s))) op ret_type args.

Definition advance (n : Z) : ST HIRBuilder unit :=
  _ <- append OpCode_AdvancePC None [BImm (Imm_sized n ValueType_U8)];; ret tt.

(** [DecodeCondJump] with an immediate target, its condition reduced to one instruction. *)
Definition cond_jump (then_ else_ : Z) : ST HIRBuilder unit :=
  p <- append OpCode_LoadImm (Some ValueType_U64) [BImm (Imm_u64 1)];;
  _ <- Builder_If (mkValue p ValueType_VOID) (LinkBlock then_) (LinkBlock else_);;
  ret tt.

(** [DecodeCondJump] with [Cond::AL] and an immediate target. *)
Definition jump (target : Z) : ST HIRBuilder unit :=
  s <- get;;
  if HasCurrentFunctionBlock target s then _ <- Builder_LinkBlock target;; ret tt
  else
    Builder_RegisterExternalDirectLink target;;;
    _ <- append OpCode_SetLocation None [BImm (Imm_u64 target)];;
    Builder_ReturnToDispatcher region_config.

Definition decode_example (address stop : Z) (kind : StopKind) : ST HIRBuilder unit :=
  if address =? 0x1000 then cond_jump 0x1010 0x1006
  else if address =? 0x1010 then advance 4;;; advance 4;;; jump 0x1014
  else Builder_ReturnToDispatcher region_config.

Definition region_start : HIRBuilder :=
  match AppendFunction region_config 0x1000 0 builder_new with Ok (_, s) => s | Err _ => builder_new end.

(** ** The example decoder hands over 64-bit addresses *)

Definition builder_addr (s : HIRBuilder) : Prop := Forall addresses_ok (bl_functions s).

Definition keeps_builder {A} (m : ST HIRBuilder A) : Prop := hoare builder_addr m (fun _ => builder_addr).

Lemma kb_ret {A} (a : A) : keeps_builder (ret a).
Proof. intros s b s' H [= _ <-]. done. Qed.
Lemma kb_get : keeps_builder get.
Proof. intros s b s' H [= _ <-]. done. Qed.
Lemma kb_fail {A} e : keeps_builder (A := A) (fail e).
Proof. intros s b s' H [=]. Qed.
Lemma kb_bind {A B} (m : ST HIRBuilder A) (k : A -> ST HIRBuilder B) :
  keeps_builder m -> (forall a, keeps_builder (k a)) -> keeps_builder (bind m k).
Proof. intros Hm Hk. by eapply hoare_bind. Qed.
Lemma kb_if {A} (b : bool) (m1 m2 : ST HIRBuilder A) :
  keeps_builder m1 -> keeps_builder m2 -> keeps_builder (if b then m1 else m2).
Proof. by destruct b. Qed.
Lemma kb_modify g : (forall s, bl_functions (g s) = bl_functions s) -> keeps_builder (modify g).
Proof. intros Hg s u s' H [= _ <-]. unfold builder_addr. by rewrite Hg. Qed.
Lemma kb_on_current {A} (m : ST HState A) : keeps_addr m -> keeps_builder (on_current m).
Proof. intros Hm s a s' H Hr. by eapply on_current_addr. Qed.

Lemma addr_append_route fast p op ty args : keeps_addr (append_route fast p op ty args).
Proof. unfold append_route, next_inst_id, track_local, Block_AppendInstUnchecked, Block_AppendInst. addr. Qed.

Lemma addr_EndBlock t : keeps_addr (EndBlock t).
Proof. unfold EndBlock. addr. Qed.

Lemma addr_AppendBlock start end_ : in_u64 start -> keeps_addr (AppendBlock start end_).
Proof. intros Hs. unfold AppendBlock. apply addr_bind; [by apply addr_CreateOrGetBlock|]. intros b. addr. Qed.

Lemma addr_AddEdge src dest c : keeps_addr (AddEdge src dest c).
Proof. unfold AddEdge. addr. Qed.

Lemma addr_RegisterExternalDirectLink t : in_u64 t -> keeps_addr (RegisterExternalDirectLink t).
Proof.
  intros Ht. unfold RegisterExternalDirectLink. addr. apply addr_on_fn. intros f [H1 H2]. split; [done|].
  simpl. apply Forall_app. split; [done|]. by constructor.
Qed.

#[export] Hint Resolve addr_append_route addr_EndBlock addr_AppendBlock addr_AddEdge addr_RegisterExternalDirectLink : addr.
#[local] Hint Extern 1 (in_u64 _) => (vm_compute; split; [discriminate|reflexivity]) : addr.

Lemma kb_append op ty args : keeps_builder (append op ty args).
Proof.
  unfold append, Builder_AppendInst. apply kb_bind; [apply kb_get|intros s]. apply kb_bind; [apply kb_get|intros s'].
  destruct (current_pair s') as [here|].
  - replace (match advance_imm op args with Some imm => _ | None => _ end) with (ret (S := HIRBuilder) false)
      by by destruct (advance_imm op args).
    apply kb_bind; [apply kb_ret|intros []]; [apply kb_ret|].
    apply kb_bind; [apply kb_if; [by apply kb_modify|apply kb_ret]|intros _].
    apply kb_bind; [apply kb_on_current; unfold AppendInst; addr|intros _].
    apply kb_bind; [apply kb_if; [by apply kb_modify|apply kb_ret]|intros _]. apply kb_ret.
  - unfold guard. apply kb_bind; [|intros _; apply kb_ret]. destruct (op_eqb _ _); [apply kb_ret|apply kb_fail].
Qed.

Lemma kb_ReturnToDispatcher : keeps_builder (Builder_ReturnToDispatcher region_config).
Proof.
  unfold Builder_ReturnToDispatcher, end_with. apply kb_bind; [apply kb_get|intros s].
  destruct (bl_current_function s); [|apply kb_ret]. apply kb_bind; [apply kb_on_current; addr|intros _]. apply kb_ret.
Qed.

Lemma kb_decode_example address stop kind : keeps_builder (decode_example address stop kind).
Proof.
  assert (Ha : forall n, keeps_builder (advance n)).
  { intros n. apply kb_bind; [apply kb_append|intros _; apply kb_ret]. }
  unfold decode_example. apply kb_if; [|apply kb_if; [|apply kb_ReturnToDispatcher]].
  - apply kb_bind; [apply kb_append|intros p]. apply kb_bind; [|intros _; apply kb_ret].
    apply kb_on_current. unfold current_block. addr.
  - do 2 (apply kb_bind; [apply Ha|intros _]). unfold jump. apply kb_bind; [apply kb_get|intros s].
    destruct (HasCurrentFunctionBlock _ s).
    + apply kb_bind; [|intros _; apply kb_ret]. apply kb_on_current. unfold current_block. addr.
    + apply kb_bind; [apply kb_on_current; addr|intros _].
      apply kb_bind; [apply kb_append|intros _]. apply kb_ReturnToDispatcher.
Qed.

#[export] Instance example_decoder : Decoder.
Proof.
  refine {| decode_at := decode_example |}. intros address stop kind s s' Hs Hr.
  by eapply (kb_decode_example address stop kind).
Defined.

(** ** The rounds *)

(** The landing pad is not a local target; nothing is translated yet. *)
Definition example_local (a : Z) : bool := negb (a =? 0x1014).
Definition no_code (a : Z) : bool := false.

Definition example_round : ST Region bool := decode_round 0 0x1000 64 true example_local no_code.

Definition example_after (n : nat) : Region :=
  Nat.iter n (fun s => match example_round s with Ok (_, s') => s' | Err _ => s end)
    (mkRegion region_start ∅ 0 false).

Definition region_initial : Region := mkRegion region_start ∅ 0 false.

Lemma region_initial_ok : region_ok region_initial.
Proof.
  split; [|by intros t r Hr|by intros t Ht].
  vm_compute. repeat constructor; discriminate.
Qed.

(** The decode loop can run forever.  The last block of the example ends with a jump
    to 0x1014, a landing pad in the middle of that block.  A landing pad is not a local
    target, so the block created for it is neither replayed nor decoded, and every
    further round finds the same external root again. *)
Theorem region_loop_can_hang (fuel : nat) :
  region_loop 0 0x1000 64 true example_local no_code fuel region_initial = None.
Proof.
  apply (loop_never_after 0 0x1000 64 true example_local no_code _ (example_after 3)).
  - apply (rtc_l _ _ (example_after 1)); [split; [vm_compute; lia|vm_compute; reflexivity]|].
    apply (rtc_l _ _ (example_after 2)); [split; [vm_compute; lia|vm_compute; reflexivity]|].
    apply (rtc_l _ _ (example_after 3)); [split; [vm_compute; lia|vm_compute; reflexivity]|]. reflexivity.
  - split; [vm_compute; lia|vm_compute; reflexivity].
Qed.

(** ** Witnesses *)

(** The frontier over the function decoded so far, before any address was asked about. *)
Definition example_frontier : Frontier :=
  mkFrontier (bl_heap (rg_builder (example_after 2))) (bl_functions (rg_builder (example_after 2)) !! 0%nat) ∅.

Definition example_function : HIRFunction := default (empty_function true) (fr_function example_frontier).

(** 0x1014 belongs to the block that starts at 0x1010 and ends at 0x1018. *)
Lemma FindSplit_spec_witness :
  exists b x, inside (fr_heap example_frontier) example_function 0x1014 b /\
    hf_blocks example_function !! b = Some x /\ hb_location x = 0x1010 /\
    DecodedEnd (fr_heap example_frontier) x = Ok 0x1018.
Proof.
  destruct (FindSplit 0x1014 true false example_frontier) as [[r s']|e] eqn:Hr; [|vm_compute in Hr; discriminate Hr].
  assert (Hf : fr_function example_frontier = Some example_function) by (vm_compute; reflexivity).
  assert (Hn : NoDup (hf_block_list example_function)) by (apply (bool_decide_unpack _); vm_compute; exact I).
  destruct (FindSplit_spec 0x1014 true false example_frontier s' example_function r Hf Hn Hr) as [_ H].
  specialize (H eq_refl). destruct r as [sp|]; [|vm_compute in Hr; discriminate Hr].
  destruct H as (b & x & _ & _ & Hi & _ & Hx & Hs & He). exists b, x.
  assert (Hp : pv_owner_start (sp_provenance sp) = 0x1010 /\ pv_owner_end (sp_provenance sp) = 0x1018)
    by (vm_compute in Hr; injection Hr as <- _; split; reflexivity).
  destruct Hp as [Hp1 Hp2]. rewrite Hp1 in Hs. rewrite Hp2 in He.
  split; [exact Hi|]. split; [exact Hx|]. split; [symmetry; exact Hs|exact He].
Defined.

Lemma DiscoverExternalRoots_spec_witness :
  exists s', DiscoverExternalRoots 0x1000 1 InteriorOwner example_frontier = Ok ([0x1014], s') /\
    exists r, fr_records s' !! 0x1014 = Some r /\ disposition r = Candidate /\ is_Some (rec_owner r).
Proof.
  destruct (DiscoverExternalRoots 0x1000 1 InteriorOwner example_frontier) as [[l s']|e] eqn:Hr;
    [|vm_compute in Hr; discriminate Hr].
  assert (Hf : fr_function example_frontier = Some example_function) by (vm_compute; reflexivity).
  assert (Hok : records_ok (fr_records example_frontier)) by (intros t r Ht; discriminate Ht).
  destruct (DiscoverExternalRoots_spec 0x1000 1 InteriorOwner example_frontier s' l example_function Hf Hok Hr)
    as (_ & H & _).
  assert (Hl : l = [0x1014]) by (vm_compute in Hr; injection Hr as <- _; reflexivity).
  exists s'. split; [rewrite Hl; reflexivity|].
  destruct (H 0x1014) as (_ & r & H1 & H2 & _ & H3 & _); [rewrite Hl; left|].
  exists r. split; [exact H1|]. split; [exact H2|exact H3].
Defined.

(** With the landing pad a local target the loop splits the block and returns, so no
    state repeats. *)
Lemma region_loop_returns_witness :
  ~ exists s', rtc (continues 0 0x1000 64 true (fun _ => true) no_code) region_initial s' /\
    continues 0 0x1000 64 true (fun _ => true) no_code s' s'.
Proof.
  apply (region_loop_returns 0 0x1000 64 true (fun _ => true) no_code region_initial region_initial_ok).
  exists 10%nat. eexists. vm_compute. reflexivity.
Defined.
