(* ===== verification/Membership.v ===== *)
(** * Retired regions

    Model of [FunctionRegionMembership] (translator/x86/function_region_membership.cpp):
    a translated function whose region left undecoded roots is kept as a group, to
    be retired and translated again as a whole when one of those roots is reached.
    The map and the groups are a store: a [std::shared_ptr<Group>] is the index of the
    group, and a reference to one of the map's pointers is the key of its entry, so
    that it dangles once the entry is erased. *)

From Stdlib Require Import ZArith Lia.
From stdpp Require Import numbers base gmap list sorting.
From S2P Require Import Prelude MachineInt Frontier FrontierProps.

Local Open Scope Z_scope.
Local Open Scope svm_scope.

Definition kRegionBlockBudget : Z := 64.
Definition kCodeObjectBlockBudget : Z := 128.

(** [FunctionRegionMembership::Region]; the block count is a [size_t]. *)
Record MemberRegion := mkMemberRegion { mr_root : Z; mr_decoded_blocks : Z }.

(** The owner is a counted pointer to an [ir::Function], here its index. *)
Record Group := mkGroup { gr_owner : nat; gr_region : MemberRegion; gr_pending : list Z }.

Record Selection := mkSelection { sl_owner : nat; sl_region : MemberRegion }.

Record Membership := mkMembership { mb_groups : gmap Z nat; mb_store : list Group }.

Definition set_groups (m : gmap Z nat) (s : Membership) : Membership := mkMembership m (mb_store s).

(** A [const std::shared_ptr<Group>&]: to a local pointer or to an entry of the map. *)
Inductive GroupRef := LocalRef (g : nat) | EntryRef (root : Z).

Definition read_ref (r : GroupRef) : ST Membership nat := fun s =>
  match r with
  | LocalRef g => Ok (g, s)
  | EntryRef root => match mb_groups s !! root with Some g => Ok (g, s) | None => Err EUndefined end
  end.

Definition read_group (g : nat) : ST Membership Group := fun s =>
  match mb_store s !! g with Some x => Ok (x, s) | None => Err EUndefined end.

(** Whether a pointer keeps the group alive: the local one, or an entry of the map. *)
Definition alive (r : GroupRef) (g : nat) (s : Membership) : bool :=
  match r with
  | LocalRef g' => (g =? g')%nat
  | EntryRef _ => existsb (fun e => (g =? snd e)%nat) (map_to_list (mb_groups s))
  end.

(** The loop of [Erase] over the pending roots of the group [g]. *)
Fixpoint erase_roots (r : GroupRef) (g : nat) (roots : list Z) : ST Membership unit :=
  match roots with
  | [] => ret tt
  | root :: roots' =>
      s <- get;;
      guard (alive r g s) EUndefined;;;
      match mb_groups s !! root with
      | None => erase_roots r g roots'
      | Some g' =>
          group <- read_ref r;;
          (if (g' =? group)%nat then modify (set_groups (delete root (mb_groups s))) else ret tt);;;
          erase_roots r g roots'
      end
  end.

Definition Erase (r : GroupRef) : ST Membership unit :=
  g <- read_ref r;;
  x <- read_group g;;
  erase_roots r g (gr_pending x).

(** The loop of [Record] that retires the groups of the new pending roots. *)
Fixpoint retire (roots : list Z) : ST Membership unit :=
  match roots with
  | [] => ret tt
  | root :: roots' =>
      s <- get;;
      (match mb_groups s !! root with
       | Some _ => Erase (EntryRef root)
       | None => ret tt
       end);;;
      retire roots'
  end.

(** [emplace] keeps an entry that is there. *)
Definition emplace_group (root : Z) (g : nat) (s : Membership) : Membership :=
  match mb_groups s !! root with
  | Some _ => s
  | None => set_groups (<[root := g]> (mb_groups s)) s
  end.

(** The sorted pending roots without duplicates and without the region's root. *)
Definition unique_pending (root : Z) (pending_roots : list Z) : list Z :=
  filter (fun t => t <> root) (unique_adjacent (merge_sort Z.le pending_roots)).

(** [FunctionRegionMembership::Record]; the owner is [None] for a null pointer. *)
Definition Record_ (owner : option nat) (region : MemberRegion) (pending_roots : list Z) : ST Membership unit :=
  let pending := unique_pending (mr_root region) pending_roots in
  match owner, pending with
  | None, _ | _, [] => ret tt
  | Some o, _ =>
      retire pending;;;
      s <- get;;
      let g := length (mb_store s) in
      modify (fun s => mkMembership (mb_groups s) (mb_store s ++ [mkGroup o region pending]));;;
      modify (fun s => foldl (fun s root => emplace_group root g s) s pending)
  end.

(** [FunctionRegionMembership::Select]. *)
Definition Select (root : Z) : ST Membership (option Selection) :=
  s <- get;;
  match mb_groups s !! root with
  | None => ret None
  | Some g =>
      Erase (LocalRef g);;;
      x <- read_group g;;
      if kCodeObjectBlockBudget <? wrap 64 (mr_decoded_blocks (gr_region x) + kRegionBlockBudget) then ret None
      else ret (Some (mkSelection (gr_owner x) (gr_region x)))
  end.

(** ** The invariant *)

(** A group that an entry points to has all its pending roots in the map. *)
Record membership_ok (s : Membership) : Prop := {
  mo_entry : forall root g, mb_groups s !! root = Some g ->
    exists x, mb_store s !! g = Some x /\ root ∈ gr_pending x /\
              forall t, t ∈ gr_pending x -> mb_groups s !! t = Some g;
  mo_group : forall g x, mb_store s !! g = Some x ->
    StronglySorted Z.lt (gr_pending x) /\ mr_root (gr_region x) ∉ gr_pending x
}.

(** The map without the entries of [g]. *)
Definition without (g : nat) (m : gmap Z nat) : gmap Z nat := filter (fun e => snd e <> g) m.

(** ** [Erase] *)

(** The map without the entries of [g] at [roots]. *)
Definition without_at (g : nat) (roots : list Z) (m : gmap Z nat) : gmap Z nat :=
  filter (fun e => ~ (snd e = g /\ fst e ∈ roots)) m.

Lemma without_at_nil g m : without_at g [] m = m.
Proof. apply map_filter_id. intros t g' _ [_ []%elem_of_nil]. Qed.

Lemma without_at_cons g t roots m :
  without_at g (t :: roots) m = without_at g roots (if decide (m !! t = Some g) then delete t m else m).
Proof.
  apply map_eq. intros u. unfold without_at. case_decide as Ht.
  - destruct (decide (u = t)) as [->|Hne].
    + etrans; [|symmetry; apply map_lookup_filter_None_2; left; by rewrite lookup_delete_eq].
      apply map_lookup_filter_None_2. right. intros g' Hg' Hn. apply Hn. simpl. split; [congruence|by left].
    + apply option_eq. intros g'. rewrite !map_lookup_filter_Some, lookup_delete_ne by done. simpl.
      rewrite elem_of_cons. naive_solver.
  - apply option_eq. intros g'. rewrite !map_lookup_filter_Some. simpl. rewrite elem_of_cons. naive_solver.
Qed.

Lemma without_at_app g pre post : forall m, without_at g (pre ++ post) m = without_at g post (without_at g pre m).
Proof.
  induction pre as [|t pre IH]; intros m; [by rewrite without_at_nil|]. cbn [app]. by rewrite !without_at_cons, IH.
Qed.

Lemma without_at_lookup g roots m t :
  without_at g roots m !! t = if decide (m !! t = Some g /\ t ∈ roots) then None else m !! t.
Proof.
  unfold without_at. case_decide as H.
  - apply map_lookup_filter_None_2. right. intros g' Hg' Hn. apply Hn. simpl. destruct H. split; [congruence|done].
  - apply option_eq. intros g'. rewrite map_lookup_filter_Some. simpl. naive_solver.
Qed.

Lemma set_groups_id s : set_groups (mb_groups s) s = s.
Proof. by destruct s. Qed.

Lemma entry_alive root t g s : mb_groups s !! t = Some g -> alive (EntryRef root) g s = true.
Proof.
  intros H. simpl. apply existsb_exists. exists (t, g). split; [|apply Nat.eqb_refl].
  by apply list_elem_of_In, elem_of_map_to_list.
Qed.

(** One root, when the reference can be read. *)
Lemma erase_roots_step r g t roots s :
  alive r g s = true -> (is_Some (mb_groups s !! t) -> read_ref r s = Ok (g, s)) ->
  erase_roots r g (t :: roots) s =
    erase_roots r g roots (set_groups (if decide (mb_groups s !! t = Some g) then delete t (mb_groups s) else mb_groups s) s).
Proof.
  intros Ha Hr. cbn [erase_roots]. unfold bind, get, guard. rewrite Ha. unfold ret at 1.
  destruct (mb_groups s !! t) as [g'|] eqn:Ht.
  - unfold bind. rewrite Hr by done. destruct (Nat.eqb_spec g' g) as [->|Hne].
    + by rewrite decide_True.
    + rewrite decide_False by congruence. by rewrite set_groups_id.
  - rewrite decide_False by done. by rewrite set_groups_id.
Qed.

Lemma erase_local g roots : forall s,
  erase_roots (LocalRef g) g roots s = Ok (tt, set_groups (without_at g roots (mb_groups s)) s).
Proof.
  induction roots as [|t roots IH]; intros s.
  - by rewrite without_at_nil, set_groups_id.
  - rewrite erase_roots_step; [|apply Nat.eqb_refl|done]. by rewrite IH, without_at_cons.
Qed.

(** The roots before the one whose entry is referred to. *)
Lemma erase_entry root g rest pre : forall s,
  mb_groups s !! root = Some g -> root ∉ pre ->
  erase_roots (EntryRef root) g (pre ++ rest) s =
    erase_roots (EntryRef root) g rest (set_groups (without_at g pre (mb_groups s)) s).
Proof.
  induction pre as [|t pre IH]; intros s Hr Hn.
  - by rewrite without_at_nil, set_groups_id.
  - apply not_elem_of_cons in Hn as [Hne Hn]. cbn [app]. rewrite erase_roots_step.
    + rewrite IH; [by rewrite without_at_cons| |done]. simpl. case_decide; [by rewrite lookup_delete_ne|done].
    + by eapply entry_alive.
    + intros _. simpl. by rewrite Hr.
Qed.

Section Erase.
Context (s : Membership) (Hok : membership_ok s).

(** The last root of its group. *)
Definition last_of (root : Z) : Prop :=
  forall g x t, mb_groups s !! root = Some g -> mb_store s !! g = Some x -> t ∈ gr_pending x -> t <= root.

Lemma group_without g x : mb_store s !! g = Some x -> without_at g (gr_pending x) (mb_groups s) = without g (mb_groups s).
Proof.
  intros Hx. apply map_eq. intros t. rewrite without_at_lookup. symmetry. unfold without. case_decide as H.
  - apply map_lookup_filter_None_2. right. destruct H. intros g' Hg'. naive_solver.
  - apply option_eq. intros g'. rewrite map_lookup_filter_Some. simpl. split; [tauto|]. intros Hg'. split; [done|].
    intros ->. apply H. split; [done|]. destruct (mo_entry _ Hok t g Hg') as (x' & Hx' & Ht & _). by simplify_eq.
Qed.

Lemma without_ok g : membership_ok (set_groups (without g (mb_groups s)) s).
Proof.
  split; simpl; [|apply (mo_group _ Hok)]. intros root g' [Hg' Hne]%map_lookup_filter_Some.
  destruct (mo_entry _ Hok root g' Hg') as (x & Hx & Hr & Ha). exists x. split_and!; try done.
  intros t Ht. apply map_lookup_filter_Some. by split; [apply Ha|].
Qed.

Lemma Erase_local root g x :
  mb_groups s !! root = Some g -> mb_store s !! g = Some x ->
  Erase (LocalRef g) s = Ok (tt, set_groups (without g (mb_groups s)) s).
Proof.
  intros Hg Hx. unfold Erase, bind, read_ref, read_group. rewrite Hx, erase_local. by rewrite group_without.
Qed.

(** The entry of [root] in a group [pre ++ root :: post]: the reference dangles as
    soon as there is a root after it. *)
Lemma Erase_entry_split root g x pre post :
  mb_groups s !! root = Some g -> mb_store s !! g = Some x -> gr_pending x = pre ++ root :: post ->
  Erase (EntryRef root) s =
    match post with [] => Ok (tt, set_groups (without g (mb_groups s)) s) | _ => Err EUndefined end.
Proof.
  intros Hg Hx Hp. destruct (mo_group _ Hok g x Hx) as [Hs _]. pose proof (sorted_NoDup _ Hs) as Hnd. rewrite Hp in Hnd.
  apply NoDup_app in Hnd as (Hnd1 & Hnd2 & [Hn3 Hn4]%NoDup_cons).
  assert (Hrp : root ∉ pre) by (intros Hi; apply (Hnd2 root Hi); by left).
  unfold Erase, bind, read_ref, read_group. rewrite Hg, Hx, Hp, erase_entry by done. rewrite erase_roots_step; cycle 1.
  { apply (entry_alive root root). simpl. rewrite without_at_lookup. by rewrite decide_False by tauto. }
  { intros _. simpl. rewrite without_at_lookup. by rewrite decide_False, Hg by tauto. }
  destruct post as [|t post].
  - cbn [erase_roots]. unfold ret, set_groups. cbn [mb_groups mb_store].
    by rewrite <- (group_without g x), Hp, without_at_app, without_at_cons, without_at_nil.
  - cbn [erase_roots]. unfold bind, get, guard. destruct (alive _ _ _); [|done]. unfold ret. cbn [mb_groups set_groups].
    assert (Hroot : without_at g pre (mb_groups s) !! root = Some g)
      by (rewrite without_at_lookup, decide_False by tauto; done).
    rewrite Hroot, decide_True by done.
    assert (t <> root) by (intros ->; apply Hn3; by left).
    assert (t ∉ pre) by (intros Hi; apply (Hnd2 t Hi); right; by left).
    rewrite lookup_delete_ne, without_at_lookup, decide_False by naive_solver.
    destruct (mo_entry _ Hok root g Hg) as (x' & Hx' & _ & Ha). simplify_eq. rewrite (Ha t).
    + simpl. by rewrite lookup_delete_eq.
    + rewrite Hp. apply elem_of_app. right. right. by left.
Qed.

Lemma Erase_entry root g :
  mb_groups s !! root = Some g ->
  (last_of root -> Erase (EntryRef root) s = Ok (tt, set_groups (without g (mb_groups s)) s)) /\
  (~ last_of root -> Erase (EntryRef root) s = Err EUndefined).
Proof.
  intros Hg. destruct (mo_entry _ Hok root g Hg) as (x & Hx & Hr & _).
  destruct (mo_group _ Hok g x Hx) as [Hs _]. apply list_elem_of_split in Hr as (pre & post & Hp).
  rewrite (Erase_entry_split root g x pre post) by done. rewrite Hp in Hs. apply StronglySorted_app in Hs as (Hs1 & _ & Hs2).
  destruct post as [|t post]; (split; [intros Hl|intros Hl]); try done.
  - exfalso. apply Hl. intros g' x' t H1 H2 Ht. simplify_eq. rewrite Hp in Ht.
    apply elem_of_app in Ht as [Ht|Ht%list_elem_of_singleton]; [|lia].
    assert (t < root) by (apply Hs1; [done|by left]). lia.
  - exfalso. apply StronglySorted_inv in Hs2 as [_ Hall]. rewrite Forall_forall in Hall.
    assert (root < t) by (apply Hall; by left). assert (t <= root); [|lia]. apply (Hl g x); [done..|]. rewrite Hp.
    apply elem_of_app. right. right. by left.
Qed.
End Erase.

(** ** [Record] *)

(** The entries [retire] leaves: those of groups that none of [roots] belongs to. *)
Definition retired (roots : list Z) (m : gmap Z nat) (g : nat) : Prop := Exists (fun t => m !! t = Some g) roots.

Lemma retire_spec roots : forall s,
  membership_ok s -> StronglySorted Z.lt roots ->
  (Forall (last_of s) roots ->
     retire roots s = Ok (tt, set_groups (filter (fun e => ~ retired roots (mb_groups s) (snd e)) (mb_groups s)) s)) /\
  (~ Forall (last_of s) roots -> retire roots s = Err EUndefined).
Proof.
  induction roots as [|root roots IH]; intros s Hok Hs.
  { split; [|intros Hn; destruct Hn; constructor]. intros _. rewrite map_filter_id; [by rewrite set_groups_id|].
    intros t g _ H. by apply Exists_nil in H. }
  apply StronglySorted_inv in Hs as [Hs Hlt]. cbn [retire]. unfold bind, get.
  destruct (mb_groups s !! root) as [g|] eqn:Hg.
  - destruct (Erase_entry s Hok root g Hg) as [He1 He2].
    set (s1 := set_groups (without g (mb_groups s)) s) in *.
    assert (Hlast : last_of s root -> Forall (last_of s1) roots <-> Forall (last_of s) roots).
    { intros Hl. rewrite !Forall_forall. rewrite Forall_forall in Hlt.
      split; intros H t Ht g' x u Hg' Hx Hu; [|apply (H t Ht g' x u); try done; simpl in Hg'; by apply map_lookup_filter_Some in Hg' as [? _]].
      destruct (decide (g' = g)) as [->|Hne]; [|apply (H t Ht g' x u); [|done..]; simpl; by apply map_lookup_filter_Some].
      specialize (Hl g x t Hg Hx). specialize (Hlt t Ht). destruct (mo_entry _ Hok t g Hg') as (x' & Hx' & Ht' & _).
      simplify_eq. specialize (Hl Ht'). lia. }
    destruct (IH s1 (without_ok s Hok g) Hs) as [H1 H2]. rewrite Forall_cons. split.
    + intros [Hl Hrest]. rewrite He1, H1 by tauto. do 2 f_equal. unfold set_groups. cbn [mb_store s1 set_groups mb_groups]. f_equal.
      unfold without. rewrite map_filter_filter. apply map_filter_ext. intros t g' Hg'. unfold retired. simpl.
      rewrite Exists_cons. rewrite !Exists_exists. setoid_rewrite map_lookup_filter_Some. simpl. naive_solver.
    + intros Hn. destruct (decide (Forall (fun u => u <= root) (default [] (gr_pending <$> mb_store s !! g)))) as [Hl|Hl].
      * assert (last_of s root).
        { intros g' x u Hg' Hx Hu. simplify_eq. rewrite Hx in Hl. rewrite Forall_forall in Hl. by apply Hl. }
        rewrite He1, H2 by tauto. done.
      * rewrite He2; [done|]. intros Hlo. apply Hl. rewrite Forall_forall. intros u Hu.
        destruct (mb_store s !! g) as [x|] eqn:Hx; [|by apply elem_of_nil in Hu]. by apply (Hlo g x u).
  - destruct (IH s Hok Hs) as [H1 H2]. rewrite Forall_cons. unfold ret.
    assert (last_of s root) by (intros g' x u Hg'; congruence). split.
    + intros [_ Hrest]. rewrite H1 by done. do 3 f_equal. apply map_filter_ext. intros t g' _. unfold retired. simpl.
      rewrite Exists_cons. naive_solver.
    + intros Hn. rewrite H2; [done|]. tauto.
Qed.

Lemma unique_adjacent_spec l :
  StronglySorted Z.le l ->
  StronglySorted Z.lt (unique_adjacent l) /\ (forall t, t ∈ unique_adjacent l <-> t ∈ l).
Proof.
  induction 1 as [|x l Hl [IH1 IH2] Hx]; [by split; [constructor|]|].
  destruct l as [|y l]; [by split; [repeat constructor|]|]. change (unique_adjacent (x :: y :: l)) with
    (if x =? y then unique_adjacent (y :: l) else x :: unique_adjacent (y :: l)).
  rewrite Forall_forall in Hx. destruct (Z.eqb_spec x y) as [->|Hne].
  - split; [done|]. intros t. rewrite IH2. rewrite !elem_of_cons. naive_solver.
  - split; [|intros t; rewrite !elem_of_cons, IH2, elem_of_cons; done]. constructor; [done|].
    rewrite Forall_forall. intros t Ht%IH2. assert (x <= y) by (apply Hx; left).
    apply StronglySorted_inv in Hl as [_ Hl]. rewrite Forall_forall in Hl.
    apply elem_of_cons in Ht as [->|Ht]; [lia|]. specialize (Hl t Ht). lia.
Qed.

Lemma unique_pending_elem root l t : t ∈ unique_pending root l <-> t ∈ l /\ t <> root.
Proof.
  unfold unique_pending. rewrite list_elem_of_filter.
  destruct (unique_adjacent_spec (merge_sort Z.le l)) as [_ ->]; [apply StronglySorted_merge_sort; apply _|].
  rewrite merge_sort_Permutation. tauto.
Qed.

Lemma unique_pending_sorted root l : StronglySorted Z.lt (unique_pending root l).
Proof.
  unfold unique_pending. eapply sorted_sublist; [apply sublist_filter|].
  apply unique_adjacent_spec, StronglySorted_merge_sort; apply _.
Qed.

Lemma emplace_all g roots : forall s,
  (forall t, t ∈ roots -> mb_groups s !! t = None \/ mb_groups s !! t = Some g) ->
  mb_store (foldl (fun s root => emplace_group root g s) s roots) = mb_store s /\
  forall t, mb_groups (foldl (fun s root => emplace_group root g s) s roots) !! t =
    if decide (t ∈ roots) then Some g else mb_groups s !! t.
Proof.
  induction roots as [|u roots IH]; intros s Hn.
  - split; [done|]. intros t. by rewrite decide_False by by intros []%elem_of_nil.
  - cbn [foldl]. assert (Hu : mb_store (emplace_group u g s) = mb_store s /\
      forall t, mb_groups (emplace_group u g s) !! t = if decide (t = u) then Some g else mb_groups s !! t).
    { unfold emplace_group. destruct (mb_groups s !! u) as [g'|] eqn:E.
      - split; [done|]. intros t. case_decide as Ht; [|done]. subst t. destruct (Hn u); [by left|congruence..].
      - split; [done|]. intros t. simpl. case_decide as Ht; [subst t; by rewrite lookup_insert_eq|by rewrite lookup_insert_ne]. }
    destruct Hu as [Hs Hg]. destruct (IH (emplace_group u g s)) as [IH1 IH2].
    { intros t Ht. rewrite Hg. case_decide; [by right|]. apply Hn. by right. }
    split; [congruence|]. intros t. rewrite IH2, Hg. destruct (decide (t ∈ roots)), (decide (t = u)), (decide (t ∈ u :: roots)) as [Hi|Hi];
      rewrite elem_of_cons in Hi; naive_solver.
Qed.

(** (C35) [Record] keeps the membership consistent and replaces every group that shares a
    root with the new one, exactly when each shared root is the last pending root of its
    group; otherwise it reads the map entry it has just erased. *)
Theorem Record_spec (owner : nat) (region : MemberRegion) (roots : list Z) (s : Membership) :
  membership_ok s -> unique_pending (mr_root region) roots <> [] ->
  let pending := unique_pending (mr_root region) roots in
  (~ Forall (last_of s) pending -> Record_ (Some owner) region roots s = Err EUndefined) /\
  (Forall (last_of s) pending ->
   exists s', Record_ (Some owner) region roots s = Ok (tt, s') /\ membership_ok s' /\
     mb_store s' = mb_store s ++ [mkGroup owner region pending] /\
     (forall t, t ∈ pending -> mb_groups s' !! t = Some (length (mb_store s))) /\
     (forall t g, t ∉ pending ->
        mb_groups s' !! t = Some g <-> mb_groups s !! t = Some g /\ ~ retired pending (mb_groups s) g)).
Proof.
  intros Hok Hne pending. unfold Record_. fold pending. fold pending in Hne.
  pose proof (unique_pending_sorted (mr_root region) roots : StronglySorted Z.lt pending) as Hs.
  destruct (retire_spec pending s Hok Hs) as [H1 H2].
  assert (Hcase : forall A (x y : A), match pending with [] => x | _ => y end = y) by (by intros; destruct pending).
  rewrite Hcase. unfold bind. split; [intros Hn; by rewrite H2|]. intros Hl. rewrite H1 by done.
  unfold get, modify. cbn [mb_store mb_groups set_groups]. eexists. split; [reflexivity|].
  set (m := filter _ (mb_groups s)). set (s1 := mkMembership _ _).
  assert (Hm : forall t g, m !! t = Some g <-> mb_groups s !! t = Some g /\ ~ retired pending (mb_groups s) g)
    by (intros t g; apply map_lookup_filter_Some).
  assert (Hnone : forall t, t ∈ pending -> m !! t = None).
  { intros t Ht. destruct (m !! t) as [g|] eqn:E; [|done]. apply Hm in E as [E Hr]. destruct Hr. apply Exists_exists. eauto. }
  destruct (emplace_all (length (mb_store s)) pending s1) as [E1 E2]; [intros t Ht; left; by apply Hnone|].
  assert (Hin : forall t, t ∈ pending -> mb_groups (foldl (fun s0 root => emplace_group root (length (mb_store s)) s0) s1 pending) !! t = Some (length (mb_store s)))
    by (intros t Ht; by rewrite E2, decide_True).
  assert (Hout : forall t g, t ∉ pending -> mb_groups (foldl (fun s0 root => emplace_group root (length (mb_store s)) s0) s1 pending) !! t = Some g <->
            mb_groups s !! t = Some g /\ ~ retired pending (mb_groups s) g)
    by (intros t g Ht; rewrite E2, decide_False by done; apply Hm).
  split_and!; [|exact E1|exact Hin|exact Hout]. split; rewrite E1; simpl.
  - intros t g Hg. destruct (decide (t ∈ pending)) as [Ht|Ht].
    + rewrite Hin in Hg by done. injection Hg as <-. exists (mkGroup owner region pending).
      by rewrite lookup_app_r, Nat.sub_diag.
    + apply Hout in Hg as [Hg Hr]; [|done]. destruct (mo_entry _ Hok t g Hg) as (x & Hx & Htx & Ha).
      exists x. split_and!; [by apply lookup_app_l_Some|done|]. intros u Hu.
      apply Hout; [|by split; [apply Ha|]]. intros Hup. apply Hr, Exists_exists. exists u. split; [done|by apply Ha].
  - intros g x [Hx|[_ Hx]]%lookup_app_Some; [by apply (mo_group _ Hok g)|].
    apply list_lookup_singleton_Some in Hx as [_ <-]. simpl. split; [done|].
    intros Hr%unique_pending_elem. by destruct Hr.
Qed.

(** [Select] of a pending root removes its whole group and nothing else, keeps the
    membership consistent and never reads a dead entry; it returns the owner when
    the region leaves room for another one in the code object. *)
Theorem Select_spec (root : Z) (s : Membership) :
  membership_ok s ->
  match mb_groups s !! root with
  | None => Select root s = Ok (None, s)
  | Some g =>
      exists x s', mb_store s !! g = Some x /\ membership_ok s' /\
        (forall t g', mb_groups s' !! t = Some g' <-> mb_groups s !! t = Some g' /\ t ∉ gr_pending x) /\
        Select root s = Ok (if kCodeObjectBlockBudget <? wrap 64 (mr_decoded_blocks (gr_region x) + kRegionBlockBudget) then None
                            else Some (mkSelection (gr_owner x) (gr_region x)), s')
  end.
Proof.
  intros Hok. unfold Select, bind, get. destruct (mb_groups s !! root) as [g|] eqn:Hg; [|done].
  destruct (mo_entry _ Hok root g Hg) as (x & Hx & _ & Ha). rewrite (Erase_local s Hok root g x) by done.
  exists x, (set_groups (without g (mb_groups s)) s). split_and!; [done|by apply without_ok|..].
  - intros t g'. simpl. unfold without. rewrite map_lookup_filter_Some. simpl. split; intros [Hg' H]; (split; [done|]).
    + intros Ht. specialize (Ha t Ht). congruence.
    + intros ->. destruct (mo_entry _ Hok t g Hg') as (x' & Hx' & Ht & _). by simplify_eq.
  - unfold read_group. simpl. rewrite Hx. by destruct (_ <? _).
Qed.

(** ** Examples *)

Definition members_new : Membership := mkMembership ∅ [].

Lemma members_new_ok : membership_ok members_new.
Proof. split; [intros r g H; discriminate H|intros g x H; by destruct g]. Qed.

(** One region at 0x1000 with two undecoded roots. *)
Definition members_one : Membership :=
  match Record_ (Some 7%nat) (mkMemberRegion 0x1000 64) [0x3000; 0x2000] members_new with
  | Ok (_, s) => s
  | Err _ => members_new
  end.

Lemma members_one_ok : membership_ok members_one.
Proof.
  destruct (Record_spec 7 (mkMemberRegion 0x1000 64) [0x3000; 0x2000] members_new members_new_ok ltac:(by vm_compute))
    as [_ H]. destruct H as (s' & H & Hok & _); [|by unfold members_one; rewrite H].
  apply Forall_true. intros t g x u Hg. discriminate Hg.
Qed.

(** A second region with the first of those roots pending: the entry is erased and read. *)
Lemma Record_spec_witness :
  Record_ (Some 8%nat) (mkMemberRegion 0x4000 10) [0x2000] members_one = Err EUndefined.
Proof.
  apply (Record_spec 8 (mkMemberRegion 0x4000 10) [0x2000] members_one members_one_ok).
  - vm_compute. discriminate.
  - intros H.
    assert (Hp : unique_pending (mr_root (mkMemberRegion 0x4000 10)) [0x2000] = [0x2000]) by (vm_compute; reflexivity).
    rewrite Hp in H. apply Forall_cons in H as [H _].
    assert (0x3000 <= 0x2000); [|lia].
    apply (H 0%nat (mkGroup 7 (mkMemberRegion 0x1000 64) [0x2000; 0x3000]) 0x3000); [vm_compute; reflexivity..|].
    right. left.
Defined.

Lemma Select_spec_witness :
  exists s', Select 0x3000 members_one = Ok (Some (mkSelection 7 (mkMemberRegion 0x1000 64)), s') /\
    mb_groups s' !! 0x2000 = None.
Proof.
  pose proof (Select_spec 0x3000 members_one members_one_ok) as H.
  assert (Hg : mb_groups members_one !! 0x3000 = Some 0%nat) by (vm_compute; reflexivity). rewrite Hg in H.
  destruct H as (x & s' & Hx & _ & Hm & Hs). exists s'.
  assert (x = mkGroup 7 (mkMemberRegion 0x1000 64) [0x2000; 0x3000]) as ->
    by (vm_compute in Hx; injection Hx as <-; reflexivity).
  split; [exact Hs|]. destruct (mb_groups s' !! 0x2000) as [g|] eqn:E; [|reflexivity].
  destruct (proj1 (Hm _ _) E) as [_ Hn]. destruct Hn. left.
Defined.
