(* ===== verification/FlagsElim.v ===== *)
(** * Flags elimination: the pass

    Model of runtime/ir/opts/flags_elimination_pass.cpp on a flat block
    ([hir_function == nullptr]) and of flags_carry_regions.cpp.  The pass walks
    the block backwards with the set of guest flags still needed, deletes flag
    writes none of whose bits are needed and narrows the masks of others.  The
    statistics and debug prints have no effect on the IR and are left out. *)

From Stdlib Require Import ZArith Lia.
From stdpp Require Import numbers base gmap list.
From S2P Require Import Prelude IRTypes MachineInt Instr UseCount InstrBuild Interp Cfg.

Local Open Scope Z_scope.
Local Open Scope svm_scope.

Definition IsHelperBoundary (op : OpCode) : bool :=
  match op with
  | OpCode_CallLambda | OpCode_CallLocation | OpCode_CallDynamic | OpCode_X87Op => true
  | _ => false
  end.

Definition ConditionFlags (c : Cond) : option Z :=
  match c with
  | Cond_EQ | Cond_NE => Some Flags_Zero
  | Cond_MI | Cond_PL => Some Flags_Negate
  | Cond_VS | Cond_VC => Some Flags_Overflow
  | Cond_CS | Cond_CC => Some Flags_Carry
  | Cond_HI | Cond_LS => Some (Z.lor Flags_Carry Flags_Zero)
  | Cond_GE | Cond_LT => Some (Z.lor Flags_Negate Flags_Overflow)
  | Cond_GT | Cond_LE => Some (Z.lor (Z.lor Flags_Negate Flags_Overflow) Flags_Zero)
  | Cond_AL | Cond_NV => None
  end.

Definition cond_needs (c : Cond) : Z := default Flags_NZCV (ConditionFlags c).

(** ** Carry regions (flags_carry_regions.cpp)

    A region ends with an [AdvancePC]. *)

Record Region := mkRegion { consumes_carry : bool; writes_carry : bool }.

Definition consumes (op : OpCode) : bool := op_eqb op OpCode_Adc || op_eqb op OpCode_Sbb.

(** The [switch] of [Classify]. *)
Definition inst_writes_carry (i : Inst) : Res bool :=
  match i_op i with
  | OpCode_SaveFlags | OpCode_BranchOnlyFlags | OpCode_PublishSse42StrFlags =>
      f <-? GetArg_Flags i 1; Ok (flag_true f Flags_Carry)
  | OpCode_ClearFlags => f <-? GetArg_Flags i 0; Ok (flag_true f Flags_Carry)
  | OpCode_SetCarry | OpCode_PublishFCmpFlags => Ok true
  | _ => Ok false
  end.

(** The regions before the last one and the last one. *)
Definition region_step (h : Heap) (acc : Res (list Region * Region)) (p : Ptr)
  : Res (list Region * Region) :=
  rs <-? acc;
  i <-? deref h p;
  w <-? inst_writes_carry i;
  let cur := mkRegion (consumes_carry (snd rs) || consumes (i_op i)) (writes_carry (snd rs) || w) in
  Ok (if op_eqb (i_op i) OpCode_AdvancePC then (fst rs ++ [cur], mkRegion false false)
      else (fst rs, cur)).

Definition carry_regions (h : Heap) (insts : list Ptr) : Res (list Region) :=
  rs <-? foldl (region_step h) (Ok ([], mkRegion false false)) insts;
  Ok (fst rs ++ [snd rs]).

(** The loop from a consumer back to the producer of its carry. *)
Fixpoint protect_back (regions : list Region) (producer : nat) (prot : list bool) : list bool :=
  match producer with
  | O => prot
  | S q =>
      let prot := <[q := true]> prot in
      match regions !! q with
      | Some r => if writes_carry r then prot else protect_back regions q prot
      | None => prot
      end
  end.

Definition protect_step (regions : list Region) (prot : list bool) (i : nat) : list bool :=
  match regions !! i with
  | Some r => if consumes_carry r then protect_back regions i (<[i := true]> prot) else prot
  | None => prot
  end.

Definition Classify (h : Heap) (insts : list Ptr) : Res (list bool) :=
  regions <-? carry_regions h insts;
  Ok (foldl (protect_step regions) (replicate (length regions) false)
        (seq 0 (length regions))).

(** ** The backward walk

    The variables the loop of [Run] carries from one instruction to the next. *)
Record Walk := mkWalk {
  w_needed : Z;
  w_label_needed : gmap (option Ptr) Z;
  w_victims : list Ptr;
  w_carry_region : nat;
  w_crossed : bool
}.

Definition set_needed (n : Z) (w : Walk) : Walk :=
  mkWalk n (w_label_needed w) (w_victims w) (w_carry_region w) (w_crossed w).
Definition need (f : Z) (w : Walk) : Walk := set_needed (Z.lor (w_needed w) f) w.
Definition unneed (f : Z) (w : Walk) : Walk := set_needed (Z.ldiff (w_needed w) f) w.
Definition add_victim (p : Ptr) (w : Walk) : Walk :=
  mkWalk (w_needed w) (w_label_needed w) (w_victims w ++ [p]) (w_carry_region w) (w_crossed w).

(** [needed = Flags::All; label_needed.clear();] with the new [crossed_carry_barrier]. *)
Definition barrier (crossed : bool) (w : Walk) : Walk :=
  mkWalk Flags_All ∅ (w_victims w) (w_carry_region w) crossed.

Definition kSoftBits : Z := Z.lor Flags_Parity Flags_AuxiliaryCarry.

Section Pass.
Context (features : FeatureSet).

Definition carry_elim_off : bool := negb (flag_carry_elim features).

(** The mask a surviving [SaveFlags] is narrowed to. *)
Definition save_narrowed (producer : option OpCode) (mask needed : Z) : Z :=
  let legacy_carry_path := flag_true mask Flags_Carry && carry_elim_off in
  if flag_full_elim features && negb legacy_carry_path then
    let narrowed := Z.land mask needed in
    match producer with
    | Some OpCode_Mul | Some OpCode_Div =>
        if flag_true narrowed Flags_CV then Z.lor narrowed (Z.land mask Flags_CV) else narrowed
    | _ => narrowed
    end
  else if negb (flag_narrow features) then mask
  else Z.ldiff mask (Z.ldiff kSoftBits needed).

(** [inst.SetArg(idx, flags)] when the mask changes. *)
Definition narrow (p : Ptr) (idx : nat) (mask narrowed : Z) : ST Heap unit :=
  if narrowed =? mask then ret tt else SetArg_plain p idx (AFlags narrowed).

Definition elim_SaveFlags (p : Ptr) (i : Inst) (w : Walk) : ST Heap Walk :=
  mask <- lift (GetArg_Flags i 1);;
  v <- lift (GetArg_Value i 0);;
  h <- get;;
  let producer := match v_inst v with Some d => i_op <$> h !! d | None => None end in
  let narrowed := save_narrowed producer mask (w_needed w) in
  if flag_true mask Flags_Carry && carry_elim_off then
    narrow p 1 mask narrowed;;; ret (unneed (Z.land narrowed kSoftBits) w)
  else if Z.land narrowed (w_needed w) =? 0 then ret (add_victim p w)
  else narrow p 1 mask narrowed;;; ret (unneed narrowed w).

Definition elim_ClearFlags (p : Ptr) (i : Inst) (w : Walk) : ST Heap Walk :=
  mask <- lift (GetArg_Flags i 0);;
  if flag_true mask Flags_Carry && carry_elim_off then ret w
  else
    let live := Z.land mask (w_needed w) in
    if live =? 0 then ret (add_victim p w)
    else (if flag_full_elim features then narrow p 0 mask live else ret tt);;;
         ret (unneed live w).

Definition elim_PublishSse42 (p : Ptr) (i : Inst) (w : Walk) : ST Heap Walk :=
  mask <- lift (GetArg_Flags i 1);;
  let live := Z.land mask (w_needed w) in
  if live =? 0 then ret (add_victim p w)
  else narrow p 1 mask live;;; ret (unneed live w).

(** A write of the single flag [bit] ([SetCarry], [SetOverflow]). *)
Definition elim_set_flag (p : Ptr) (bit : Z) (w : Walk) : Walk :=
  if flag_true (w_needed w) bit then unneed bit w else add_victim p w.

(** The [switch] over the opcode. *)
Definition elim_op (p : Ptr) (i : Inst) (w : Walk) : ST Heap Walk :=
  match i_op i with
  | OpCode_BranchOnlyFlags => ret (set_needed Flags_None w)
  | OpCode_SaveFlags => elim_SaveFlags p i w
  | OpCode_ClearFlags => elim_ClearFlags p i w
  | OpCode_SetCarry =>
      ret (if carry_elim_off then w else elim_set_flag p Flags_Carry w)
  | OpCode_SetOverflow => ret (elim_set_flag p Flags_Overflow w)
  | OpCode_InvertCarry =>
      ret (if negb carry_elim_off && negb (flag_true (w_needed w) Flags_Carry)
           then add_victim p w else need Flags_Carry w)
  | OpCode_PublishFCmpFlags => ret (unneed Flags_All w)
  | OpCode_PublishSse42StrFlags => elim_PublishSse42 p i w
  | OpCode_TestFlags | OpCode_TestNotFlags =>
      f <- lift (GetArg_Flags i 0);; ret (need f w)
  | OpCode_GetFlags => ret (need Flags_All w)
  | OpCode_Adc | OpCode_Sbb => ret (need Flags_Carry w)
  | OpCode_CondSelect | OpCode_CondSet | OpCode_LocalCondSet =>
      c <- lift (GetArg_Cond i 0);; ret (need (cond_needs c) w)
  | OpCode_BindLabel =>
      v <- lift (GetArg_Value i 0);;
      let old := default Flags_None (w_label_needed w !! v_inst v) in
      ret (mkWalk (w_needed w)
             (<[v_inst v := Z.lor old (w_needed w)]> (w_label_needed w))
             (w_victims w) (w_carry_region w) (w_crossed w))
  | OpCode_Goto | OpCode_NotGoto =>
      ret (need (default Flags_All (w_label_needed w !! Some p)) w)
  | _ => ret w
  end.

(** [std::vector<bool>::operator[]]. *)
Definition bit_at (l : list bool) (n : nat) : Res bool :=
  match l !! n with Some b => Ok b | None => Err EUndefined end.

(** One iteration of the loop; [prot] is [carry_protected] of a block that
    consumes a carry. *)
Definition elim_inst (prot : option (list bool)) (p : Ptr) (w : Walk) : ST Heap Walk :=
  i <- heap_deref p;;
  match prot with
  | None => elim_op p i (if w_crossed w then barrier false w else w)
  | Some regions =>
      let region := if op_eqb (i_op i) OpCode_AdvancePC then pred (w_carry_region w)
                    else w_carry_region w in
      let w := mkWalk (w_needed w) (w_label_needed w) (w_victims w) region (w_crossed w) in
      b <- lift (bit_at regions region);;
      if b then ret (barrier true w)
      else elim_op p i (if w_crossed w then barrier false w else w)
  end.

(** The loop from [rbegin] to [rend]. *)
Fixpoint elim_walk (prot : option (list bool)) (l : list Ptr) (w : Walk) : ST Heap Walk :=
  match l with
  | [] => ret w
  | p :: l' => w' <- elim_walk prot l' w;; elim_inst prot p w'
  end.

Definition has_carry_consumer (h : Heap) (insts : list Ptr) : bool :=
  existsb (fun p => consumes (ptr_op h p)) insts.

(** What is left of the list once the victims are erased. *)
Definition erase (victims l : list Ptr) : list Ptr := filter (fun p => p ∉ victims) l.

(** [FlagsEliminationPass::Run] after the branch-only rewrite and the removal
    of the markers: the remaining instruction list. *)
Definition elim_flags (live_out : Z) (insts : list Ptr) : ST Heap (list Ptr) :=
  h <- get;;
  if carry_elim_off && has_carry_consumer h insts then ret insts
  else
    prot <- (if has_carry_consumer h insts
             then r <- lift (Classify h insts);; ret (Some r) else ret None);;
    let region := match prot with Some r => pred (length r) | None => 0%nat end in
    w <- elim_walk prot insts (mkWalk live_out ∅ [] region false);;
    for_each Inst_delete (w_victims w);;;
    ret (erase (w_victims w) insts).
End Pass.

(** ** Liveness between blocks *)

(** [GetInstList().empty() || !HasTerminal()]. *)
Definition undecoded (b : Block) : bool :=
  match b_insts b with [] => true | _ => negb (HasTerminal b) end.

(** One case of the [switch]; [Err] when an argument has another type. *)
Definition transfer_inst (i : Inst) (needed : Z) : Res Z :=
  match i_op i with
  | OpCode_SaveFlags | OpCode_BranchOnlyFlags | OpCode_PublishSse42StrFlags =>
      f <-? GetArg_Flags i 1; Ok (Z.ldiff needed f)
  | OpCode_ClearFlags => f <-? GetArg_Flags i 0; Ok (Z.ldiff needed f)
  | OpCode_SetCarry => Ok (Z.ldiff needed Flags_Carry)
  | OpCode_SetOverflow => Ok (Z.ldiff needed Flags_Overflow)
  | OpCode_PublishFCmpFlags => Ok (Z.ldiff needed Flags_All)
  | OpCode_TestFlags | OpCode_TestNotFlags => f <-? GetArg_Flags i 0; Ok (Z.lor needed f)
  | OpCode_GetFlags => Ok (Z.lor needed Flags_All)
  | OpCode_Adc | OpCode_Sbb => Ok (Z.lor needed Flags_Carry)
  | OpCode_CondSelect | OpCode_CondSet | OpCode_LocalCondSet =>
      c <-? GetArg_Cond i 0; Ok (Z.lor needed (cond_needs c))
  | op => Ok (if IsHelperBoundary op then Z.lor needed Flags_All else needed)
  end.

(** From [rbegin] to [rend]. *)
Fixpoint TransferFlagsLiveness (h : Heap) (insts : list Ptr) (needed : Z) : Res Z :=
  match insts with
  | [] => Ok needed
  | p :: insts' =>
      n <-? TransferFlagsLiveness h insts' needed;
      i <-? deref h p;
      transfer_inst i n
  end.

(** The targets and whether there is an edge whose target is unknown. *)
Fixpoint CollectTerminalTargets (t : Terminal) : list Z * bool :=
  match t with
  | LinkBlock next | LinkBlockFast next => ([next], false)
  | If _ then_ else_ =>
      let a := CollectTerminalTargets then_ in
      let b := CollectTerminalTargets else_ in
      (fst a ++ fst b, snd a || snd b)
  | Switch _ cases =>
      (fix go (l : list (Imm * Terminal)) : list Z * bool :=
         match l with
         | [] => ([], false)
         | (_, then_) :: l' =>
             let a := CollectTerminalTargets then_ in
             let b := go l' in
             (fst a ++ fst b, snd a || snd b)
         end) cases
  | _ => ([], true)
  end.

Abbreviation LiveMap := (gmap nat Z).

Section Function_.
Context (h : Heap) (f : HIRFunction).

(** The first successor that starts at [target]. *)
Fixpoint find_successor (successors : list nat) (target : Z) : option nat :=
  match successors with
  | [] => None
  | c :: l =>
      match hf_blocks f !! c with
      | Some b => if hb_location b =? target then Some c else find_successor l target
      | None => find_successor l target
      end
  end.

Definition target_live (successors : list nat) (live_in : LiveMap) (target : Z) : Z :=
  match find_successor successors target with
  | Some c =>
      match live_in !! c, hf_blocks f !! c with
      | Some live, Some b => if undecoded (hb_block b) then Flags_All else live
      | _, _ => Flags_All
      end
  | None => Flags_All
  end.

Definition ComputeBlockLiveOut (b : HIRBlock) (live_in : LiveMap) : Z :=
  if undecoded (hb_block b) then Flags_All
  else
    let targets := CollectTerminalTargets (b_terminal (hb_block b)) in
    foldl (fun live_out target => Z.lor live_out (target_live (hb_successors b) live_in target))
      (if snd targets then Flags_All else Flags_None) (fst targets).

(** The body of the [for] loop: [live_in[hir_block]] and [changed]. *)
Definition live_step (acc : Res (LiveMap * bool)) (c : nat) : Res (LiveMap * bool) :=
  st <-? acc;
  match hf_blocks f !! c with
  | None => Err EUndefined
  | Some b =>
      next <-? TransferFlagsLiveness h (b_insts (hb_block b)) (ComputeBlockLiveOut b (fst st));
      Ok (<[c := next]> (fst st), snd st || negb (next =? default Flags_None (fst st !! c)))
  end.

Definition live_round (live_in : LiveMap) : Res (LiveMap * bool) :=
  foldl live_step (Ok (live_in, false)) (reverse (hf_rpo f)).

(** [while (changed)]. *)
Fixpoint live_loop (fuel : nat) (live_in : LiveMap) : option (Res LiveMap) :=
  match fuel with
  | O => None
  | S n =>
      match live_round live_in with
      | Err e => Some (Err e)
      | Ok (live_in', true) => live_loop n live_in'
      | Ok (live_in', false) => Some (Ok live_in')
      end
  end.

Definition initial_live : LiveMap :=
  list_to_map (imap (fun k _ => (k, Flags_None)) (hf_blocks f)).

Definition ComputeFunctionLiveIn (fuel : nat) : option (Res LiveMap) := live_loop fuel initial_live.
End Function_.
