(* ===== verification/FlagWord.v ===== *)
(** * The guest flag word, flag by flag

    Which bits of [host_cpu_flags] each member of [Flags] occupies, agreement of
    two flag words on a set of flags, and the flag writes of the interpreter as
    assignments to the flags of their mask.  A set of flags is its [Flags] bit
    mask; membership is [Z.testbit]. *)

From Stdlib Require Import ZArith Lia.
From stdpp Require Import numbers base gmap list.
From S2P Require Import Prelude MachineInt IRTypes Instr InterpCore InterpFlags InterpScalar.
From S2P Require Import InterpInvariant.

Local Open Scope Z_scope.
Local Open Scope svm_scope.

(** The flag (its bit number in [Flags]) stored at bit [j] of the flag word. *)
Definition flag_at (j : Z) : option Z :=
  if j =? kHostFlagN then Some 3
  else if j =? kHostFlagZ then Some 2
  else if j =? kHostFlagC then Some 0
  else if j =? kHostFlagV then Some 1
  else if j =? kHostAF then Some 6
  else if (0 <=? j) && (j <? 8) then Some 4
  else None.

(** Bit [j] is among the flags [f]. *)
Definition written (f j : Z) : bool :=
  match flag_at j with Some b => Z.testbit f b | None => false end.

(** Bit [j] is a flag of [n], or no flag at all. *)
Definition visible (n j : Z) : bool :=
  match flag_at j with Some b => Z.testbit n b | None => true end.

(** [x] and [y] agree on the flags [n] and on the bits that hold no flag. *)
Definition agree (n x y : Z) : Prop :=
  forall j, 0 <= j -> visible n j = true -> Z.testbit x j = Z.testbit y j.

(** [y] is [x] with the flags [f] taken from [v]. *)
Definition assigned (f : Z) (v : Z -> bool) (x y : Z) : Prop :=
  forall j, 0 <= j -> Z.testbit y j = if written f j then v j else Z.testbit x j.

Definition fsub (a b : Z) : Prop := forall k, Z.testbit a k = true -> Z.testbit b k = true.

(** ** Flag sets *)

Lemma fsub_refl a : fsub a a.
Proof. by intros k. Qed.
Lemma fsub_trans a b c : fsub a b -> fsub b c -> fsub a c.
Proof. unfold fsub. auto. Qed.
Lemma fsub_lor_l a b : fsub a (Z.lor a b).
Proof. intros k H. by rewrite Z.lor_spec, H. Qed.
Lemma fsub_lor_r a b : fsub b (Z.lor a b).
Proof. intros k H. by rewrite Z.lor_spec, H, orb_true_r. Qed.
Lemma fsub_land_l a b : fsub (Z.land a b) a.
Proof. intros k. by rewrite Z.land_spec, andb_true_iff; intros []. Qed.
Lemma fsub_ldiff a b : fsub (Z.ldiff a b) a.
Proof. intros k. by rewrite Z.ldiff_spec, andb_true_iff; intros []. Qed.

Lemma flag_true_bit f k : 0 <= k -> flag_true f (2 ^ k) = Z.testbit f k.
Proof.
  intros Hk. unfold flag_true. rewrite land_pow2 by done.
  destruct (Z.testbit f k); [|done]. pose proof (pow2_pos k Hk).
  by destruct (Z.eqb_spec (2 ^ k) 0); [lia|].
Qed.

Lemma flag_true_lor f g1 g2 : flag_true f (Z.lor g1 g2) = flag_true f g1 || flag_true f g2.
Proof.
  unfold flag_true. rewrite Z.land_lor_distr_r. rewrite <- negb_andb. f_equal.
  destruct (Z.eqb_spec (Z.land f g1) 0) as [->|H1]; [done|].
  destruct (Z.eqb_spec (Z.lor (Z.land f g1) (Z.land f g2)) 0) as [E|]; [|done].
  apply Z.lor_eq_0_iff in E as []. done.
Qed.

Lemma land_zero_bits a b : Z.land a b = 0 -> forall k, Z.testbit a k = true -> Z.testbit b k = false.
Proof.
  intros H k Hk. pose proof (Z.land_spec a b k) as E. rewrite H, Z.bits_0, Hk in E. by simpl in E.
Qed.

(** The members, as bit numbers. *)
Lemma flag_true_members f :
  flag_true f Flags_Carry = Z.testbit f 0 /\ flag_true f Flags_Overflow = Z.testbit f 1
  /\ flag_true f Flags_Zero = Z.testbit f 2 /\ flag_true f Flags_Negate = Z.testbit f 3
  /\ flag_true f Flags_Parity = Z.testbit f 4 /\ flag_true f Flags_AuxiliaryCarry = Z.testbit f 6
  /\ flag_true f Flags_CV = Z.testbit f 0 || Z.testbit f 1.
Proof.
  unfold Flags_CV. rewrite flag_true_lor. unfold Flags_Carry, Flags_Overflow, Flags_Zero, Flags_Negate,
    Flags_Parity, Flags_AuxiliaryCarry. rewrite !flag_true_bit by lia. done.
Qed.

Lemma flag_at_all j b : flag_at j = Some b -> Z.testbit Flags_All b = true.
Proof.
  unfold flag_at. repeat (case_match; [intros [= <-]; reflexivity|]). done.
Qed.

(** ** Agreement *)

Lemma agree_refl n x : agree n x x.
Proof. by intros j. Qed.

Lemma visible_mono n n' j : fsub n' n -> visible n' j = true -> visible n j = true.
Proof. unfold visible. destruct (flag_at j); [|done]. intros H. apply H. Qed.

Lemma agree_mono n n' x y : fsub n' n -> agree n x y -> agree n' x y.
Proof. intros Hn H j Hj Hv. apply H; [done|]. by eapply visible_mono. Qed.

Lemma visible_all j : visible Flags_All j = true.
Proof. unfold visible. destruct (flag_at j) eqn:E; [|done]. by eapply flag_at_all. Qed.

Lemma agree_all x y : agree Flags_All x y -> x = y.
Proof. intros H. apply Z.bits_inj'. intros j Hj. apply H; [done|apply visible_all]. Qed.

Lemma is_word_bits x : is_word x <-> 0 <= x /\ forall j, 64 <= j -> Z.testbit x j = false.
Proof.
  split.
  - intros H. split; [apply H|]. intros j Hj. by apply (testbit_above 64).
  - intros [H0 Hj]. split; [done|]. destruct (decide (x = 0)) as [->|]; [lia|].
    apply Z.log2_lt_pow2; [lia|]. destruct (Z.lt_ge_cases (Z.log2 x) 64); [done|].
    exfalso. specialize (Hj (Z.log2 x) ltac:(done)). rewrite Z.bit_log2 in Hj; [done|lia].
Qed.

Lemma flag_at_high j : 64 <= j -> flag_at j = None.
Proof.
  intros H. unfold flag_at, kHostFlagN, kHostFlagZ, kHostFlagC, kHostFlagV, kHostAF.
  repeat (case_match; [lia|]). done.
Qed.

(** Agreement carries the range: negative numbers have high bits set. *)
Lemma agree_word n x y : agree n x y -> is_word x -> is_word y.
Proof.
  intros H [Hx Hj]%is_word_bits. apply is_word_bits.
  assert (forall j, 64 <= j -> Z.testbit y j = false) as Hy.
  { intros j Hj'. rewrite <- (H j); [by apply Hj|lia|]. unfold visible. by rewrite flag_at_high. }
  split; [|done]. apply Z.bits_iff_nonneg_ex. exists 63. intros j Hj'. apply Hy. lia.
Qed.

(** ** Assignments *)

(** A write under the mask [f] against the same write under a narrower mask:
    the flags needed afterwards are written alike, or were needed before. *)
Lemma assigned_agree n n' f f' v x x1 y y1 :
  agree n x y -> assigned f v x x1 -> assigned f' v y y1 ->
  fsub f' f -> fsub (Z.land f n') f' -> fsub (Z.ldiff n' f') n -> agree n' x1 y1.
Proof.
  intros Hxy Hx Hy Hf Hff Hn j Hj Hv. rewrite (Hx j Hj), (Hy j Hj). unfold written.
  unfold visible in Hv. destruct (flag_at j) as [b|] eqn:E.
  - specialize (Hf b). specialize (Hff b). specialize (Hn b). rewrite Z.land_spec in Hff.
    rewrite Z.ldiff_spec in Hn. destruct (Z.testbit f' b) eqn:Ef'; [by rewrite Hf|].
    destruct (Z.testbit f b); [by rewrite Hv in Hff; specialize (Hff eq_refl)|].
    apply Hxy; [done|]. unfold visible. rewrite E. apply Hn. by rewrite Hv.
  - apply Hxy; [done|]. unfold visible. by rewrite E.
Qed.

Lemma assigned_none v x : assigned 0 v x x.
Proof. intros j _. unfold written. destruct (flag_at j); by rewrite ?Z.bits_0. Qed.

(** A write of which nothing is needed need not happen. *)
Lemma assigned_dead n n' f v x x1 y :
  agree n x y -> assigned f v x x1 -> Z.land f n' = 0 -> fsub n' n -> agree n' x1 y.
Proof.
  intros Hxy Hx Hz Hn. eapply (assigned_agree n n' f 0); [done..|apply assigned_none| | |].
  - intros k. by rewrite Z.bits_0.
  - rewrite Hz. apply fsub_refl.
  - intros k. rewrite Z.ldiff_spec, Z.bits_0, andb_true_r. apply Hn.
Qed.

(** ** The writes of the interpreter *)

(** The saved result byte (PF is its parity). *)
Definition put_parity (byte fl : Z) : Z :=
  Z.lor (Z.land fl (not64 (Z.shiftl 0xFF kHostParityByte))) byte.

(** Assigning the flags of [f]: a bit for N, Z, C, V and AF, a byte for PF. *)
Record FlagVals := mkFlagVals {
  fv_n : bool; fv_z : bool; fv_c : bool; fv_v : bool; fv_byte : Z; fv_a : bool
}.

Definition assign_flags (f : Z) (x : FlagVals) (fl : Z) : Z :=
  let fl := if flag_true f Flags_Negate then set_bit kHostFlagN (fv_n x) fl else fl in
  let fl := if flag_true f Flags_Zero then set_bit kHostFlagZ (fv_z x) fl else fl in
  let fl := if flag_true f Flags_Carry then set_bit kHostFlagC (fv_c x) fl else fl in
  let fl := if flag_true f Flags_Overflow then set_bit kHostFlagV (fv_v x) fl else fl in
  let fl := if flag_true f Flags_Parity then put_parity (fv_byte x) fl else fl in
  if flag_true f Flags_AuxiliaryCarry then set_bit kHostAF (fv_a x) fl else fl.

Definition val_at (x : FlagVals) (j : Z) : bool :=
  if j =? kHostFlagN then fv_n x
  else if j =? kHostFlagZ then fv_z x
  else if j =? kHostFlagC then fv_c x
  else if j =? kHostFlagV then fv_v x
  else if j =? kHostAF then fv_a x
  else Z.testbit (fv_byte x) j.

Lemma put_parity_spec byte fl j :
  is_byte byte -> is_word fl -> 0 <= j ->
  Z.testbit (put_parity byte fl) j = if j <? 8 then Z.testbit byte j else Z.testbit fl j.
Proof.
  intros Hb Hfl Hj. unfold put_parity. rewrite Z.lor_spec, Z.land_spec, testbit_not64 by lia.
  change (Z.shiftl 255 kHostParityByte) with (Z.ones 8).
  destruct (Z.ltb_spec j 8).
  - rewrite Z.ones_spec_low by lia. by rewrite !andb_false_r.
  - rewrite Z.ones_spec_high by lia. rewrite (testbit_above 8 byte j) by (try lia; apply Hb).
    rewrite orb_false_r, andb_true_r. destruct (Z.ltb_spec j 64); [by rewrite andb_true_r|].
    rewrite andb_false_r. symmetry. by apply (testbit_above 64).
Qed.

Lemma put_parity_word byte fl : is_byte byte -> is_word fl -> is_word (put_parity byte fl).
Proof.
  intros [Hb Hb'] Hfl. apply word_lor; [by apply word_land_l|]. unfold is_word. lia.
Qed.

Lemma assign_flags_spec f x fl :
  is_byte (fv_byte x) -> is_word fl -> assigned f (val_at x) fl (assign_flags f x fl).
Proof.
  intros Hb Hfl j Hj. destruct (flag_true_members f) as (H0 & H1 & H2 & H3 & H4 & H6 & _).
  unfold assign_flags. rewrite H0, H1, H2, H3, H4, H6. clear H0 H1 H2 H3 H4 H6.
  set (w1 := if Z.testbit f 3 then _ else fl). set (w2 := if Z.testbit f 2 then _ else w1).
  set (w3 := if Z.testbit f 0 then _ else w2). set (w4 := if Z.testbit f 1 then _ else w3).
  set (w5 := if Z.testbit f 4 then _ else w4).
  assert (is_word w1) as W1 by (unfold w1; case_match; [apply word_set_bit; [by vm_compute|]|]; done).
  assert (is_word w2) as W2 by (unfold w2; case_match; [apply word_set_bit; [by vm_compute|]|]; done).
  assert (is_word w3) as W3 by (unfold w3; case_match; [apply word_set_bit; [by vm_compute|]|]; done).
  assert (is_word w4) as W4 by (unfold w4; case_match; [apply word_set_bit; [by vm_compute|]|]; done).
  assert (is_word w5) as W5 by (unfold w5; case_match; [apply put_parity_word|]; done).
  assert (forall (c : bool) b on w, 0 <= b < 64 -> is_word w ->
    Z.testbit (if c then set_bit b on w else w) j = if c && (b =? j) then on else Z.testbit w j) as Hset.
  { intros [] b on w Hb0 Hw; [|done]. by rewrite set_bit_spec. }
  assert (Z.testbit w5 j = if Z.testbit f 4 && (j <? 8) then Z.testbit (fv_byte x) j
          else Z.testbit w4 j) as E5.
  { unfold w5. destruct (Z.testbit f 4); [|done]. by rewrite put_parity_spec. }
  rewrite Hset, E5 by (done || by vm_compute). unfold w4. rewrite Hset by (done || by vm_compute).
  unfold w3. rewrite Hset by (done || by vm_compute). unfold w2. rewrite Hset by (done || by vm_compute).
  unfold w1. rewrite Hset by (done || by vm_compute). clear -Hj.
  unfold written, val_at, flag_at, kHostFlagN, kHostFlagZ, kHostFlagC, kHostFlagV, kHostAF.
  rewrite !(Z.eqb_sym _ j).
  destruct (Z.eqb_spec j 31) as [->|]; [simpl; by rewrite ?andb_false_r, ?andb_true_r|].
  destruct (Z.eqb_spec j 30) as [->|]; [simpl; by rewrite ?andb_false_r, ?andb_true_r|].
  destruct (Z.eqb_spec j 29) as [->|]; [simpl; by rewrite ?andb_false_r, ?andb_true_r|].
  destruct (Z.eqb_spec j 28) as [->|]; [simpl; by rewrite ?andb_false_r, ?andb_true_r|].
  destruct (Z.eqb_spec j 26) as [->|]; [simpl; by rewrite ?andb_false_r, ?andb_true_r|].
  rewrite !andb_false_r, (proj2 (Z.leb_le 0 j) Hj). simpl.
  destruct (j <? 8); by rewrite ?andb_true_r, ?andb_false_r.
Qed.

Lemma assign_flags_word f x fl : is_byte (fv_byte x) -> is_word fl -> is_word (assign_flags f x fl).
Proof.
  intros Hb Hfl. unfold assign_flags.
  repeat case_match; repeat (apply word_set_bit; [by vm_compute|]); try apply put_parity_word;
    try done; repeat (apply word_set_bit; [by vm_compute|]); done.
Qed.

(** [ClearGuestFlags], [SetCarry], [SetOverflow], and the PCMPxSTRx flags. *)
Definition cleared : FlagVals := mkFlagVals false false false false 1 false.

Lemma ClearGuestFlags_assigns f fl : ClearGuestFlags f fl = assign_flags f cleared fl.
Proof. done. Qed.

Definition all_flags (b : bool) : FlagVals := mkFlagVals b b b b 0 b.

Lemma set_carry_assigns b fl : set_bit kHostFlagC b fl = assign_flags Flags_Carry (all_flags b) fl.
Proof. done. Qed.
Lemma set_overflow_assigns b fl :
  set_bit kHostFlagV b fl = assign_flags Flags_Overflow (all_flags b) fl.
Proof. done. Qed.

Lemma put_bit_set_bit b packed src fl :
  0 <= b < 64 -> 0 <= src -> is_word fl ->
  Z.lor (Z.land fl (not64 (bit64 b))) (Z.shiftl (Z.land (Z.shiftr packed src) 1) b)
  = set_bit b (flag_bit src packed) fl.
Proof.
  intros Hb Hs Hfl. unfold set_bit, flag_bit. pose proof (land_1_range (Z.shiftr packed src)) as Hr.
  assert (Z.land (Z.shiftr packed src) 1 = 0 \/ Z.land (Z.shiftr packed src) 1 = 1) as [-> | ->] by lia.
  - simpl. by rewrite Z.shiftl_0_l, Z.lor_0_r.
  - simpl. change (Z.shiftl 1 b) with (Z.shiftl 1 b). rewrite Z.shiftl_1_l. fold (bit64 b).
    apply Z.bits_inj'. intros j Hj. rewrite !Z.lor_spec, Z.land_spec, testbit_not64 by done.
    destruct (Z.testbit (bit64 b) j); [by rewrite !orb_true_r|]. rewrite !orb_false_r, andb_true_r.
    destruct (Z.ltb_spec j 64); [by rewrite andb_true_r|]. rewrite andb_false_r. symmetry.
    by apply (testbit_above 64).
Qed.

Definition sse42_vals (packed : Z) : FlagVals :=
  mkFlagVals (flag_bit sse42_kSignBit packed) (flag_bit sse42_kZeroBit packed)
    (flag_bit sse42_kCarryBit packed) (flag_bit sse42_kOverflowBit packed) 1 false.

Lemma parity_af_comm byte a fl :
  is_byte byte -> is_word fl ->
  put_parity byte (set_bit kHostAF a fl) = set_bit kHostAF a (put_parity byte fl).
Proof.
  intros Hb Hfl. apply Z.bits_inj'. intros j Hj.
  assert (0 <= kHostAF < 64) as Haf by (by vm_compute).
  pose proof (word_set_bit kHostAF a fl Haf Hfl). pose proof (put_parity_word byte fl Hb Hfl).
  rewrite put_parity_spec, !set_bit_spec, put_parity_spec by assumption.
  unfold kHostAF. by destruct (Z.eqb_spec 26 j) as [<-|].
Qed.

Lemma set_if_word (c : bool) b on fl :
  0 <= b < 64 -> is_word fl -> is_word (if c then set_bit b on fl else fl).
Proof. intros Hb Hfl. destruct c; [by apply word_set_bit|done]. Qed.

Lemma put_if_set (c : bool) b packed src fl :
  0 <= b < 64 -> 0 <= src -> is_word fl ->
  (if c then Z.lor (Z.land fl (not64 (bit64 b))) (Z.shiftl (Z.land (Z.shiftr packed src) 1) b)
   else fl) = if c then set_bit b (flag_bit src packed) fl else fl.
Proof. intros. destruct c; [by apply put_bit_set_bit|done]. Qed.

Lemma publish_sse42_assigns packed f fl :
  is_word fl -> publish_sse42 packed f fl = assign_flags f (sse42_vals packed) fl.
Proof.
  intros Hfl. unfold publish_sse42, assign_flags, sse42_vals.
  cbv zeta. cbn [fv_n fv_z fv_c fv_v fv_byte fv_a].
  assert (0 <= kHostFlagN < 64 /\ 0 <= kHostFlagZ < 64 /\ 0 <= kHostFlagC < 64
    /\ 0 <= kHostFlagV < 64) as (HN & HZ & HC & HV) by (unfold kHostFlagN, kHostFlagZ, kHostFlagC, kHostFlagV; lia).
  assert (0 <= sse42_kSignBit /\ 0 <= sse42_kZeroBit /\ 0 <= sse42_kCarryBit
    /\ 0 <= sse42_kOverflowBit) as (SN & SZ & SC & SV)
    by (unfold sse42_kSignBit, sse42_kZeroBit, sse42_kCarryBit, sse42_kOverflowBit; lia).
  rewrite (put_if_set _ _ _ _ fl HN SN Hfl).
  pose proof (set_if_word (flag_true f Flags_Negate) _ (flag_bit sse42_kSignBit packed) fl HN Hfl) as W1.
  rewrite (put_if_set _ _ _ _ _ HZ SZ W1).
  pose proof (set_if_word (flag_true f Flags_Zero) _ (flag_bit sse42_kZeroBit packed) _ HZ W1) as W2.
  rewrite (put_if_set _ _ _ _ _ HC SC W2).
  pose proof (set_if_word (flag_true f Flags_Carry) _ (flag_bit sse42_kCarryBit packed) _ HC W2) as W3.
  rewrite (put_if_set _ _ _ _ _ HV SV W3).
  pose proof (set_if_word (flag_true f Flags_Overflow) _ (flag_bit sse42_kOverflowBit packed) _ HV W3) as Hw.
  set (w := if flag_true f Flags_Overflow then _ else _) in Hw |- *.
  clearbody w. change (Z.land w (not64 (bit64 kHostAF))) with (set_bit kHostAF false w).
  fold (put_parity (bit64 kHostParityByte) w).
  fold (put_parity (bit64 kHostParityByte) (set_bit kHostAF false w)).
  change (bit64 kHostParityByte) with 1.
  destruct (flag_true f Flags_Parity), (flag_true f Flags_AuxiliaryCarry); try done.
  by rewrite <- parity_af_comm.
Qed.

Lemma publish_fcmp_assigned packed compact fl :
  is_word fl ->
  assigned Flags_All (Z.testbit (publish_fcmp packed compact 0)) fl (publish_fcmp packed compact fl).
Proof.
  intros Hfl j Hj. unfold publish_fcmp. rewrite Z.land_0_l, Z.lor_0_l.
  pose proof (land_1_range packed). pose proof (land_1_range (Z.shiftr packed 2)).
  pose proof (land_1_range (Z.shiftr packed 1)).
  assert (0 <= bool_z compact <= 1) by (by destruct compact).
  set (a := Z.lxor (Z.land packed 1) (bool_z compact)).
  set (b := Z.land (Z.shiftr packed 2) 1). set (c := Z.lxor (Z.land (Z.shiftr packed 1) 1) 1).
  assert (a = 0 \/ a = 1) as Ha by (pose proof (lxor_bit_range (Z.land packed 1) (bool_z compact)); lia).
  assert (b = 0 \/ b = 1) as Hb by lia.
  assert (c = 0 \/ c = 1) as Hc
    by (pose proof (lxor_bit_range (Z.land (Z.shiftr packed 1) 1) 1); lia).
  clearbody a b c.
  rewrite !Z.lor_spec, Z.land_spec, testbit_not64 by done.
  assert (Z.testbit fl j && ((j <? 64) && negb (Z.testbit fcmp_replaced j))
    = Z.testbit fl j && negb (Z.testbit fcmp_replaced j)) as ->.
  { destruct (Z.ltb_spec j 64); [done|]. by rewrite (testbit_above 64 fl j). }
  assert (written Flags_All j = Z.testbit fcmp_replaced j
    /\ (Z.testbit fcmp_replaced j = false -> Z.testbit (Z.lor (Z.lor (Z.shiftl a kHostFlagC)
          (Z.shiftl b kHostFlagZ)) (Z.shiftl c kHostParityByte)) j = false)) as [Hw Hz].
  { destruct (Z.lt_ge_cases j 32) as [Hlt|Hge].
    - assert (Forall (fun j => written Flags_All j = Z.testbit fcmp_replaced j
        /\ (Z.testbit fcmp_replaced j = false -> Z.testbit (Z.lor (Z.lor (Z.shiftl a kHostFlagC)
          (Z.shiftl b kHostFlagZ)) (Z.shiftl c kHostParityByte)) j = false)) (Z.of_nat <$> seq 0 32)) as HF.
      { destruct Ha as [-> | ->], Hb as [-> | ->], Hc as [-> | ->]; vm_compute;
          repeat (constructor; [split; [reflexivity|intros; first [reflexivity|discriminate]]|]); constructor. }
      rewrite Forall_forall in HF. apply HF. apply list_elem_of_fmap.
      exists (Z.to_nat j). split; [lia|]. apply elem_of_seq. lia.
    - unfold written. assert (flag_at j = None) as ->.
      { unfold flag_at, kHostFlagN, kHostFlagZ, kHostFlagC, kHostFlagV, kHostAF.
        repeat (case_match; [lia|]). done. }
      rewrite (testbit_above 32 fcmp_replaced j) by (done || (vm_compute; by split)).
      split; [done|]. intros _.
      apply (testbit_above 32); [|exact Hge].
      destruct Ha as [-> | ->], Hb as [-> | ->], Hc as [-> | ->]; vm_compute; (split; [discriminate|reflexivity]). }
  rewrite Hw. destruct (Z.testbit fcmp_replaced j) eqn:E; [by rewrite andb_false_r, !orb_false_l|].
  specialize (Hz eq_refl). rewrite !Z.lor_spec in Hz. rewrite andb_true_r.
  apply orb_false_iff in Hz as [Hz ->].
  apply orb_false_iff in Hz as [-> ->]. by rewrite !orb_false_r.
Qed.

(** Inverting C keeps any agreement. *)
Lemma invert_carry_agree n x y : agree n x y ->
  agree n (Z.lxor x (bit64 kHostFlagC)) (Z.lxor y (bit64 kHostFlagC)).
Proof. intros H j Hj Hv. rewrite !Z.lxor_spec. by rewrite (H j Hj Hv). Qed.

(** An inversion whose result is not needed. *)
Lemma invert_carry_dead n x y :
  agree n x y -> Z.testbit n 0 = false -> agree n (Z.lxor x (bit64 kHostFlagC)) y.
Proof.
  intros H Hc j Hj Hv. rewrite Z.lxor_spec, (H j Hj Hv), testbit_bit64 by (done || by vm_compute).
  destruct (Z.eqb_spec kHostFlagC j) as [<-|]; [|by rewrite xorb_false_r].
  unfold visible in Hv. change (flag_at kHostFlagC) with (Some 0) in Hv. cbv iota in Hv. congruence.
Qed.
