(* ===== verification/FlagReads.v ===== *)
(** * Which guest flags an instruction reads

    [freads R m]: the computation [m] leaves the flag word alone and depends on
    it only through the flags [R].  [flag_reads] gives the set for every
    instruction that writes no flag, and [freads_run_inst] proves it for the
    interpreter. *)

From Stdlib Require Import ZArith Lia.
From stdpp Require Import numbers base gmap list.
From S2P Require Import Prelude MachineInt IRTypes Instr InterpCore InterpFlags.
From S2P Require Import InterpScalar InterpMemory InterpVector Interp InterpInvariant.
From S2P Require Import FlagWord FlagsElim.

Local Open Scope Z_scope.
Local Open Scope svm_scope.

(** An instruction halts the block only by a page fault. *)
Definition halts_by_fault (s s1 : IState) : Prop :=
  s_halt s1 = s_halt s \/ s_halt s1 = HaltReason_PageFatal.

Definition freads {A} (R : Z) (m : M A) : Prop :=
  forall s a s1 y, m s = Ok (a, s1) -> agree R (s_flags s) y ->
    s_flags s1 = s_flags s /\ halts_by_fault s s1 /\ m (set_flags y s) = Ok (a, set_flags y s1).

(** ** What depends on which flags *)

Lemma agree_flag_bit n x y j b :
  agree n x y -> 0 <= j -> flag_at j = Some b -> Z.testbit n b = true -> flag_bit j x = flag_bit j y.
Proof.
  intros H Hj Hb Hn. rewrite !flag_bit_testbit by done. apply H; [done|].
  unfold visible. by rewrite Hb.
Qed.

Lemma agree_carry x y :
  agree Flags_Carry x y ->
  Z.land (Z.shiftr x kHostFlagC) 1 = Z.land (Z.shiftr y kHostFlagC) 1.
Proof.
  intros H. apply Z.bits_inj'. intros j Hj. rewrite !Z.land_spec.
  change 1 with (Z.ones 1). destruct (Z.ltb_spec j 1).
  - assert (j = 0) as -> by lia. rewrite !Z.shiftr_spec by lia. f_equal. by apply H.
  - rewrite Z.ones_spec_high by lia. by rewrite !andb_false_r.
Qed.

Lemma EvalCondition_reads c x y :
  agree (cond_needs c) x y -> EvalCondition c x = EvalCondition c y.
Proof.
  intros H. unfold EvalCondition.
  assert (forall j b, 0 <= j -> flag_at j = Some b -> Z.testbit (cond_needs c) b = true ->
    flag_bit j x = flag_bit j y) as Hb by (intros; by eapply agree_flag_bit).
  pose proof (Hb kHostFlagN 3 ltac:(by vm_compute) eq_refl) as HN.
  pose proof (Hb kHostFlagZ 2 ltac:(by vm_compute) eq_refl) as HZ.
  pose proof (Hb kHostFlagC 0 ltac:(by vm_compute) eq_refl) as HC.
  pose proof (Hb kHostFlagV 1 ltac:(by vm_compute) eq_refl) as HV. clear H Hb.
  destruct c; cbn [cond_holds]; rewrite ?HN, ?HZ, ?HC, ?HV by reflexivity; done.
Qed.

Lemma nzcv_mask_bits f j :
  0 <= j -> Z.testbit (nzcv_mask f) j = true -> exists b, flag_at j = Some b /\ Z.testbit f b = true.
Proof.
  intros Hj. destruct (flag_true_members f) as (H0 & H1 & H2 & H3 & _).
  unfold nzcv_mask. rewrite H0, H1, H2, H3. clear H0 H1 H2 H3.
  assert (forall (c : bool) b w, 0 <= b -> Z.testbit (if c then Z.lor w (bit64 b) else w) j
    = Z.testbit w j || (c && (b =? j))) as Hs.
  { intros [] b w Hb; [by rewrite Z.lor_spec, testbit_bit64|by rewrite orb_false_r]. }
  rewrite !Hs by (by vm_compute). rewrite Z.bits_0, !orb_true_iff, !andb_true_iff, !Z.eqb_eq.
  intros [[[[?|[? <-]]|[? <-]]|[? <-]]|[? <-]]; [done| | | |];
    (eexists; split; [reflexivity|done]).
Qed.

Lemma TestGuestFlags_reads f x y : agree f x y -> TestGuestFlags f x = TestGuestFlags f y.
Proof.
  intros H. destruct (flag_true_members f) as (_ & _ & _ & _ & H4 & H6 & _).
  assert (Z.land x (nzcv_mask f) = Z.land y (nzcv_mask f)) as E.
  { apply Z.bits_inj'. intros j Hj. rewrite !Z.land_spec.
    destruct (Z.testbit (nzcv_mask f) j) eqn:Em; [|by rewrite !andb_false_r].
    destruct (nzcv_mask_bits f j Hj Em) as (b & Hb & Hf). f_equal. apply H; [done|].
    unfold visible. by rewrite Hb. }
  assert (Z.testbit f 4 = true -> parity_of_byte x = parity_of_byte y) as EP.
  { intros Hf. unfold parity_of_byte.
    assert (Z.land (Z.shiftr x kHostParityByte) 255 = Z.land (Z.shiftr y kHostParityByte) 255) as ->; [|done].
    apply Z.bits_inj'. intros j Hj. rewrite !Z.land_spec. change 255 with (Z.ones 8).
    destruct (Z.ltb_spec j 8) as [Hlt|]; [|by rewrite Z.ones_spec_high, !andb_false_r by lia].
    rewrite !Z.shiftr_spec by lia. f_equal. unfold kHostParityByte. rewrite Z.add_0_r.
    apply H; [done|]. unfold visible.
    assert (flag_at j = Some 4) as ->; [|done].
    unfold flag_at, kHostFlagN, kHostFlagZ, kHostFlagC, kHostFlagV, kHostAF.
    repeat (case_match; [lia|]). case_match; [done|].
    match goal with H : _ && _ = false |- _ => apply andb_false_iff in H as [?|?]; lia end. }
  assert (Z.testbit f 6 = true -> flag_bit kHostAF x = flag_bit kHostAF y) as EA.
  { intros Hf. by eapply agree_flag_bit. }
  unfold TestGuestFlags. rewrite E, H4, H6. destruct (Z.testbit f 4), (Z.testbit f 6);
    rewrite ?EP, ?EA by reflexivity; done.
Qed.

(** The flags an instruction reads; [None] for the instructions that write
    flags. *)
Definition flag_reads (i : Inst) : option Z :=
  match i_op i with
  | OpCode_SaveFlags | OpCode_BranchOnlyFlags | OpCode_ClearFlags | OpCode_SetCarry
  | OpCode_SetOverflow | OpCode_InvertCarry | OpCode_PublishFCmpFlags
  | OpCode_PublishSse42StrFlags => None
  | OpCode_TestFlags | OpCode_TestNotFlags =>
      match GetArg_Flags i 0 with Ok f => Some f | Err _ => Some Flags_None end
  | OpCode_GetFlags => Some Flags_All
  | OpCode_Adc | OpCode_Sbb => Some Flags_Carry
  | OpCode_CondSelect | OpCode_CondSet | OpCode_LocalCondSet =>
      match GetArg_Cond i 0 with Ok c => Some (cond_needs c) | Err _ => Some Flags_None end
  | _ => Some Flags_None
  end.

(** ** The rules *)

Section Rules.
Context (R : Z).
Abbreviation reads m := (freads R m).

Lemma set_flags_twice y x s : set_flags y (set_flags x s) = set_flags y s.
Proof. done. Qed.
Lemma set_flags_self s : set_flags (s_flags s) s = s.
Proof. by destruct s. Qed.

Lemma freads_bind {A B} (m : M A) (f : A -> M B) :
  reads m -> (forall a, reads (f a)) -> reads (bind m f).
Proof.
  intros Hm Hf s b s2 y H Hy. apply bind_ok in H as (a & s1 & H1 & H2).
  destruct (Hm s a s1 y H1 Hy) as (E1 & Hh1 & H1').
  rewrite <- E1 in Hy. destruct (Hf a s1 b s2 y H2 Hy) as (E2 & Hh2 & H2').
  rewrite (bind_run _ _ _ _ _ H1'). split_and!; [congruence| |done].
  unfold halts_by_fault in *. destruct Hh2 as [-> |]; auto.
Qed.

(** A computation that does not touch the flag word. *)
Lemma freads_frame {A} (m : M A) :
  (forall s a s1, m s = Ok (a, s1) -> s_flags s1 = s_flags s /\ halts_by_fault s s1 /\
     forall y, m (set_flags y s) = Ok (a, set_flags y s1)) -> reads m.
Proof. intros Hm s a s1 y H _. destruct (Hm s a s1 H) as (? & ? & ?). auto. Qed.

Lemma freads_ret {A} (a : A) : reads (ret a).
Proof. apply freads_frame. intros s b s1 [= <- <-]. split_and!; [done|by left|done]. Qed.
Lemma freads_fail {A} e : reads (fail (A := A) e).
Proof. intros s a s1 y [=]. Qed.
Lemma freads_lift {A} (r : Res A) : reads (lift r).
Proof. destruct r; [apply freads_ret|apply freads_fail]. Qed.
Lemma freads_guard b e : reads (guard b e).
Proof. destruct b; [apply freads_ret|apply freads_fail]. Qed.

Lemma freads_gets {A} (f : IState -> A) :
  (forall y s, f (set_flags y s) = f s) -> reads (gets f).
Proof.
  intros Hf. apply freads_frame. intros s b s1 [= <- <-]. split_and!; [done|by left|].
  intros y. unfold gets. by rewrite Hf.
Qed.

Lemma freads_modify f :
  (forall y s, f (set_flags y s) = set_flags y (f s)) -> (forall s, s_flags (f s) = s_flags s) ->
  (forall s, halts_by_fault s (f s)) -> reads (modify f).
Proof.
  intros Hf Hs Hh. apply freads_frame. intros s b s1 [= <- <-]. split_and!; [done|done|].
  intros y. unfold modify. by rewrite Hf.
Qed.

Lemma freads_halt : reads (modify (set_halt HaltReason_PageFatal)).
Proof. apply freads_modify; [done..|]. intros. by right. Qed.
Lemma freads_current x : reads (modify (set_current_loc x)).
Proof. apply freads_modify; [done..|]. intros. by left. Qed.
Lemma freads_prev x : reads (modify (set_prev_loc x)).
Proof. apply freads_modify; [done..|]. intros. by left. Qed.
Lemma freads_mem x : reads (modify (set_mem x)).
Proof. apply freads_modify; [done..|]. intros. by left. Qed.

(** The whole state read, the flags not used. *)
Lemma freads_get {A} (f : IState -> M A) :
  (forall y s, f (set_flags y s) = f s) -> (forall s, reads (f s)) -> reads (bind get f).
Proof.
  intros Hf Hm s a s1 y H Hy. unfold bind, get in *. rewrite Hf. by apply Hm.
Qed.

(** The flag word read. *)
Lemma freads_flags {A} (f : Z -> M A) :
  (forall x y, agree R x y -> f x = f y) -> (forall x, reads (f x)) -> reads (bind (gets s_flags) f).
Proof.
  intros Hf Hm s a s1 y H Hy. unfold bind, gets in *. simpl. rewrite <- (Hf (s_flags s) y Hy).
  by apply Hm.
Qed.

Lemma freads_word_at n : reads (word_at n).
Proof. apply freads_get; [done|]. intros s. destruct (s_stack s !! n); [apply freads_ret|apply freads_fail]. Qed.
Lemma freads_set_word n w : reads (set_word n w).
Proof.
  apply freads_frame. intros s a s1 H. unfold set_word in *. minv H. destruct (bool_decide _) eqn:E; [|done].
  injection H as <- <-. split_and!; [done|by left|]. intros y. erewrite bind_run by reflexivity.
  simpl. by rewrite E.
Qed.
Lemma freads_mload a n : reads (mload a n).
Proof.
  apply freads_get; [done|]. intros s. apply freads_bind; [apply freads_lift|]. intros. apply freads_ret.
Qed.
Lemma freads_mstore a n v : reads (mstore a n v).
Proof.
  apply freads_get; [done|]. intros s. apply freads_bind; [apply freads_lift|]. intros. apply freads_mem.
Qed.
End Rules.

Create HintDb freads.
#[export] Hint Resolve freads_ret freads_fail freads_lift freads_guard freads_halt freads_current
  freads_word_at freads_set_word freads_mload freads_mstore freads_mem : freads.

(** ** The instruction set *)

Section Ops.
Context (h : Heap) (cfg : IConfig).
Context (host_fn : Z -> list Z -> M Z) (host_pair_fn : Z -> Z -> Z -> Z -> M (Z * Z)).
Context (R : Z).
Hypothesis host_reads : forall a l, freads R (host_fn a l).
Hypothesis host_pair_reads : forall a x y z, freads R (host_pair_fn a x y z).
Context (this : Ptr) (i : Inst).
Hypothesis Hthis : h !! this = Some i.

Abbreviation reads m := (freads R m).
#[local] Hint Resolve host_reads host_pair_reads : freads.

Lemma freads_deref {A} (f : Inst -> M A) : reads (f i) -> reads (j <- lift (deref h this);; f j).
Proof. intros Hf. unfold deref. by rewrite Hthis. Qed.

Lemma freads_lifted {A B} (r : Res A) (f : A -> M B) :
  (forall a, r = Ok a -> reads (f a)) -> reads (bind (lift r) f).
Proof. intros Hf. destruct r; [by apply Hf|apply freads_fail]. Qed.

Ltac reading :=
  repeat first
    [ solve [eauto 2 with freads nocore]
    | progress cbv beta zeta
    | lazymatch goal with
      | |- freads _ (bind get _) => apply freads_get; [done|intros ?]
      | |- freads _ (bind (lift (deref h this)) _) => apply freads_deref
      | |- freads _ (bind (gets s_flags) _) => fail
      | |- freads _ (bind (gets _) _) => apply freads_bind; [by apply freads_gets|intros ?]
      | |- freads _ (bind _ _) => apply freads_bind; [|intros ?]
      | |- freads _ (if ?b then _ else _) => destruct b
      | |- freads _ (match ?x with _ => _ end) => destruct x
      | |- freads _ (?f _ _ _ _ _ _) => unfold f
      | |- freads _ (?f _ _ _ _ _) => unfold f
      | |- freads _ (?f _ _ _ _) => unfold f
      | |- freads _ (?f _ _ _) => unfold f
      | |- freads _ (?f _ _) => unfold f
      | |- freads _ (?f _) => unfold f
      end ].

Lemma freads_eval_args l : reads (eval_args h l).
Proof. induction l; simpl; reading. Qed.
#[local] Hint Resolve freads_eval_args : freads.

Lemma freads_carry (f : Z -> M unit) :
  fsub Flags_Carry R -> (forall x y, Z.land (Z.shiftr x kHostFlagC) 1 = Z.land (Z.shiftr y kHostFlagC) 1 ->
    f x = f y) -> (forall x, reads (f x)) -> reads (fl <- gets s_flags;; f fl).
Proof.
  intros Hc Hf Hr. apply freads_flags; [|done]. intros x y Hxy. apply Hf, agree_carry.
  by eapply agree_mono.
Qed.

Lemma freads_RunAdc : fsub Flags_Carry R -> reads (RunAdc h this).
Proof.
  intros Hc. unfold RunAdc. apply freads_deref. do 2 (apply freads_bind; [reading|intros ?]).
  apply freads_carry; [done| |intros; reading]. intros x y E. by rewrite E.
Qed.
Lemma freads_RunSbb : fsub Flags_Carry R -> reads (RunSbb h this).
Proof.
  intros Hc. unfold RunSbb. apply freads_deref. do 2 (apply freads_bind; [reading|intros ?]).
  apply freads_carry; [done| |intros; reading]. intros x y E. by rewrite E.
Qed.

Lemma freads_GetFlags : fsub Flags_All R -> reads (RunGetFlags h this).
Proof.
  intros Hc. apply freads_flags; [|intros; reading]. intros x y Hxy.
  by rewrite (agree_all x y) by (by eapply agree_mono).
Qed.

Lemma freads_cond (c : Cond) (f : bool -> M unit) :
  fsub (cond_needs c) R -> (forall b, reads (f b)) ->
  reads (fl <- gets s_flags;; f (EvalCondition c fl)).
Proof.
  intros Hc Hf. apply freads_flags; [|intros; apply Hf]. intros x y Hxy.
  by rewrite (EvalCondition_reads c x y) by (by eapply agree_mono).
Qed.

Lemma freads_test (f : Z) (k : bool -> M unit) :
  fsub f R -> (forall b, reads (k b)) -> reads (fl <- gets s_flags;; k (TestGuestFlags f fl)).
Proof.
  intros Hc Hf. apply freads_flags; [|intros; apply Hf]. intros x y Hxy.
  by rewrite (TestGuestFlags_reads f x y) by (by eapply agree_mono).
Qed.

Lemma freads_run_inst r :
  flag_reads i = Some r -> fsub r R -> reads (run_inst h cfg host_fn host_pair_fn this).
Proof.
  intros Hr Hsub. unfold run_inst. apply freads_deref. unfold flag_reads in Hr.
  destruct (i_op i) eqn:Eop; try discriminate Hr;
    try (injection Hr as <-; first [by apply freads_RunAdc|by apply freads_RunSbb|by apply freads_GetFlags]);
    try (clear Hr Hsub; reading; fail).
  all: unfold RunCondSelect, RunTestFlags, RunTestNotFlags, RunCondSet, RunLocalCondSet; apply freads_deref.
  4: apply freads_bind; [apply freads_guard|intros _].
  all: apply freads_lifted; intros a Ha; rewrite Ha in Hr; injection Hr as <-.
  - apply (freads_cond a (fun b => x <- readV h i (if b then 1%nat else 2%nat);; WriteScalar h this x));
      [done|intros; reading].
  - apply (freads_test a (fun b => WriteScalar h this (bool_z b))); [done|intros; reading].
  - apply (freads_test a (fun b => WriteScalar h this (bool_z (negb b)))); [done|intros; reading].
  - apply (freads_cond a (fun b => WriteScalar h this (bool_z b))); [done|intros; reading].
  - apply (freads_cond a (fun b => WriteScalar h this (bool_z b))); [done|intros; reading].
Qed.
End Ops.
