(* ===== verification/FlagSim.v ===== *)
(** * Flag writes of two executions

    The instructions that write guest flags, as assignments ([assigned]) whose
    values do not depend on the flags before: executed under a mask [f] in one
    block and under a narrower mask [f'] in the other, they assign the same
    values ([sim_writer]).  [upto] relates two states that agree on everything
    but the slots outside [pos] and the flag word. *)

From Stdlib Require Import ZArith Lia.
From stdpp Require Import numbers base gmap list.
From S2P Require Import Prelude MachineInt IRTypes Instr UseCount InterpCore InterpFlags.
From S2P Require Import InterpScalar InterpMemory InterpVector Interp InterpInvariant.
From S2P Require Import FlagProps MemoryProps DeadCode DeadCodeSem Simulation.
From S2P Require Import FlagsElim FlagWord FlagReads.

Local Open Scope Z_scope.
Local Open Scope svm_scope.

(** ** What [SaveFlags] saves *)

(** The operations for which [SaveGuestFlags] defines C and V, and AF. *)
Definition defines_cv (op : OpCode) (bits : Z) : bool :=
  match op with
  | OpCode_Add | OpCode_Adc | OpCode_Sub | OpCode_Sbb
  | OpCode_And | OpCode_Or | OpCode_Xor | OpCode_AndNot => true
  | OpCode_Mul => bits <? 64
  | _ => false
  end.

Definition defines_af (op : OpCode) : bool :=
  match op with
  | OpCode_Add | OpCode_Adc | OpCode_Sub | OpCode_Sbb => true
  | _ => false
  end.

(** Saving the flags [f] of [i] writes every flag of [f]. *)
Definition save_complete (i : Inst) (f : Z) : bool :=
  match TypeBits (i_ret i) with
  | Ok bits => (0 <? bits) && (bits <=? 64)
               && (negb (flag_true f Flags_CV) || defines_cv (i_op i) bits)
               && (negb (flag_true f Flags_AuxiliaryCarry) || defines_af (i_op i))
  | Err _ => false
  end.

Section Save.
Context (h : Heap).

Lemma stack_read_alu_operands i : stack_read (alu_operands h i).
Proof.
  unfold alu_operands. apply stack_read_bind; [apply stack_read_lift|]. intros v.
  apply stack_read_bind; [apply stack_read_lift|]. intros o.
  apply stack_read_bind; [apply stack_read_ReadScalar|]. intros l.
  apply stack_read_bind; [apply stack_read_EvalOperand|]. intros r. apply stack_read_ret.
Qed.

Lemma stack_read_carry_overflow i bits r fl : stack_read (carry_overflow h i bits r fl).
Proof.
  unfold carry_overflow. destruct (i_op i); try apply stack_read_ret;
    try (apply stack_read_bind; [apply stack_read_alu_operands|]; intros; apply stack_read_ret).
  destruct (_ <? _); [|apply stack_read_ret].
  apply stack_read_bind; [apply stack_read_alu_operands|]. intros lr.
  apply stack_read_bind; [apply stack_read_lift|]. intros v.
  apply stack_read_bind; [apply stack_read_lift|]. intros t. apply stack_read_ret.
Qed.

Lemma stack_read_auxiliary_carry i r : stack_read (auxiliary_carry h i r).
Proof.
  unfold auxiliary_carry. destruct (i_op i); try apply stack_read_ret;
    (apply stack_read_bind; [apply stack_read_alu_operands|]; intros; apply stack_read_ret).
Qed.

Lemma carry_overflow_some i bits r fl s cv s1 :
  defines_cv (i_op i) bits = true -> carry_overflow h i bits r fl s = Ok (cv, s1) -> cv <> None.
Proof.
  unfold carry_overflow. intros Hd H. destruct (i_op i); try discriminate Hd; minv H; try done.
  simpl in Hd. rewrite Hd in H. by minv H.
Qed.

Lemma auxiliary_carry_some i r s a s1 :
  defines_af (i_op i) = true -> auxiliary_carry h i r s = Ok (a, s1) -> a <> None.
Proof. unfold auxiliary_carry. intros Hd H. destruct (i_op i); try discriminate Hd; by minv H. Qed.

(** Only Adc and Sbb look at the flags, and at C only. *)
Definition same_carry (i : Inst) (fl fl' : Z) : Prop :=
  consumes (i_op i) = false \/ Z.testbit fl kHostFlagC = Z.testbit fl' kHostFlagC.

Lemma carry_overflow_blind i bits r fl fl' :
  same_carry i fl fl' -> carry_overflow h i bits r fl = carry_overflow h i bits r fl'.
Proof.
  unfold carry_overflow. intros [H|H]; [by destruct (i_op i)|].
  assert (Z.land (Z.shiftr fl kHostFlagC) 1 = Z.land (Z.shiftr fl' kHostFlagC) 1) as E.
  { apply Z.bits_inj'. intros j Hj. rewrite !Z.land_spec. change 1 with (Z.ones 1).
    destruct (Z.ltb_spec j 1).
    - assert (j = 0) as -> by lia. rewrite !Z.shiftr_spec by lia. by f_equal.
    - rewrite Z.ones_spec_high by lia. by rewrite !andb_false_r. }
  destruct (i_op i); simpl; by rewrite ?E.
Qed.

Lemma same_carry_set_bit i b on fl fl' (c c' : bool) :
  0 <= b < 64 -> b <> kHostFlagC -> is_word fl -> is_word fl' -> same_carry i fl fl' ->
  same_carry i (if c then set_bit b on fl else fl) (if c' then set_bit b on fl' else fl').
Proof.
  intros Hb Hc Hw Hw' [H|H]; [by left|right].
  destruct c, c'; rewrite ?set_bit_spec by (first [done|apply Hw|apply Hw']);
    rewrite ?(proj2 (Z.eqb_neq _ _) Hc); done.
Qed.

Lemma fsub_flag_true f' f g : fsub f' f -> flag_true f g = false -> flag_true f' g = false.
Proof.
  unfold flag_true. rewrite !negb_false_iff, !Z.eqb_eq. intros Hs H. apply Z.bits_inj'. intros k Hk.
  rewrite Z.land_spec, Z.bits_0. destruct (Z.testbit f' k) eqn:E; [|done]. simpl.
  by apply (land_zero_bits f g H), Hs.
Qed.

Lemma is_byte_low x : is_byte (Z.shiftl (Z.land x 255) kHostParityByte).
Proof.
  unfold kHostParityByte. rewrite Z.shiftl_0_r. change 255 with (Z.ones 8). rewrite Z.land_ones by lia.
  apply Z.mod_pos_bound. lia.
Qed.

(** The C and V of a save, and its AF. *)
Definition save_cv (i : Inst) (bits result f fl : Z) : M Z :=
  if flag_true f (Z.lor Flags_Carry Flags_Overflow) then
    cv <- carry_overflow h i bits result fl;;
    ret (match cv with
         | Some (c, v) =>
             let fl := if flag_true f Flags_Carry then set_bit kHostFlagC c fl else fl in
             if flag_true f Flags_Overflow then set_bit kHostFlagV v fl else fl
         | None => fl
         end)
  else ret fl.

Definition save_af (i : Inst) (result f fl : Z) : M Z :=
  if flag_true f Flags_AuxiliaryCarry then
    af <- auxiliary_carry h i result;;
    ret (match af with Some b => set_bit kHostAF b fl | None => fl end)
  else ret fl.

Lemma save_cv_assigns i bits result f fl s fl2 s0 :
  flag_true f Flags_CV = false \/ defines_cv (i_op i) bits = true ->
  save_cv i bits result f fl s = Ok (fl2, s0) ->
  s0 = s /\ exists c v, forall f' y, fsub f' f -> forall fl', same_carry i fl' fl ->
    save_cv i bits result f' fl' (set_flags y s) =
    Ok (let fl := if flag_true f' Flags_Carry then set_bit kHostFlagC c fl' else fl' in
        if flag_true f' Flags_Overflow then set_bit kHostFlagV v fl else fl, set_flags y s).
Proof.
  intros Hd H. unfold save_cv in *. fold Flags_CV in *.
  assert (forall f', flag_true f' Flags_CV = false -> flag_true f' Flags_Carry = false
    /\ flag_true f' Flags_Overflow = false) as Hor.
  { intros f' E. unfold Flags_CV in E. rewrite flag_true_lor in E. by apply orb_false_iff. }
  destruct (flag_true f Flags_CV) eqn:Ef.
  - destruct Hd as [|Hd]; [done|]. apply bind_ok in H as (cv & s2 & Hcv & H).
    destruct (stack_read_carry_overflow i bits result fl s s cv s2 eq_refl Hcv) as [-> _].
    injection H as _ <-. split; [done|].
    destruct cv as [[c v]|]; [|by destruct (carry_overflow_some i bits result fl s None s Hd Hcv)].
    exists c, v. intros f' y Hsub fl' Hnc. destruct (flag_true f' Flags_CV) eqn:Ef'.
    + rewrite (carry_overflow_blind i bits result fl' fl Hnc).
      erewrite bind_run
        by (apply (stack_read_carry_overflow i bits result fl s (set_flags y s) _ s eq_refl Hcv)).
      reflexivity.
    + destruct (Hor f' Ef') as [-> ->]. reflexivity.
  - injection H as _ <-. split; [done|]. exists false, false. intros f' y Hsub fl' _.
    pose proof (fsub_flag_true f' f _ Hsub Ef) as Ef'. rewrite Ef'.
    destruct (Hor f' Ef') as [-> ->]. reflexivity.
Qed.

Lemma save_af_assigns i result f fl s fl2 s0 :
  flag_true f Flags_AuxiliaryCarry = false \/ defines_af (i_op i) = true ->
  save_af i result f fl s = Ok (fl2, s0) ->
  s0 = s /\ exists a, forall f' y, fsub f' f -> forall fl,
    save_af i result f' fl (set_flags y s) =
    Ok (if flag_true f' Flags_AuxiliaryCarry then set_bit kHostAF a fl else fl, set_flags y s).
Proof.
  intros Hd H. unfold save_af in *. destruct (flag_true f Flags_AuxiliaryCarry) eqn:Ef.
  - destruct Hd as [|Hd]; [done|]. apply bind_ok in H as (af & s2 & Ha & H).
    destruct (stack_read_auxiliary_carry i result s s af s2 eq_refl Ha) as [-> _].
    injection H as _ <-. split; [done|].
    destruct af as [a|]; [|by destruct (auxiliary_carry_some i result s None s Hd Ha)].
    exists a. intros f' y Hsub fl'. destruct (flag_true f' Flags_AuxiliaryCarry); [|done].
    erewrite bind_run
      by (apply (stack_read_auxiliary_carry i result s (set_flags y s) _ s eq_refl Ha)).
    reflexivity.
  - injection H as _ <-. split; [done|]. exists false. intros f' y Hsub fl'.
    by rewrite (fsub_flag_true f' f _ Hsub Ef).
Qed.

(** Saving changes the flag word only. *)
Lemma SaveGuestFlags_only def f s u s1 :
  SaveGuestFlags h def f s = Ok (u, s1) -> s1 = set_flags (s_flags s1) s.
Proof.
  intros H. unfold SaveGuestFlags in H. apply bind_ok in H as (i & s0 & Hi & H).
  apply lift_ok in Hi as [_ ->]. apply bind_ok in H as (bits & s0 & Hb & H).
  apply lift_ok in Hb as [_ ->]. destruct (_ || _); [injection H as _ <-; by rewrite set_flags_self|].
  apply bind_ok in H as (result & s0 & Hr & H).
  destruct (stack_read_ReadScalar h _ s s result s0 eq_refl Hr) as [-> _].
  unfold bind at 1, gets in H. cbv beta iota zeta in H.
  apply bind_ok in H as (fl2 & s0 & Hcv & H).
  assert (s0 = s) as ->.
  { destruct (flag_true f _); [|by injection Hcv]. apply bind_ok in Hcv as (cv & s2 & Hcv & H1).
    destruct (stack_read_carry_overflow _ _ _ _ s s cv s2 eq_refl Hcv) as [-> _]. by injection H1. }
  apply bind_ok in H as (fl3 & s0 & Haf & H).
  assert (s0 = s) as ->.
  { destruct (flag_true f _); [|by injection Haf]. apply bind_ok in Haf as (a & s2 & Ha & H1).
    destruct (stack_read_auxiliary_carry _ _ s s a s2 eq_refl Ha) as [-> _]. by injection H1. }
  by injection H as _ <-.
Qed.

(** Saving the flags [f] computes values that serve every narrower mask and
    every flag word (with the same C, if the operation consumed it). *)
Lemma save_assigns def i f s s1 :
  h !! def = Some i -> save_complete i f = true -> is_word (s_flags s) ->
  SaveGuestFlags h def f s = Ok (tt, s1) ->
  exists x, is_byte (fv_byte x) /\ forall f' y, fsub f' f -> is_word y -> same_carry i y (s_flags s) ->
    SaveGuestFlags h def f' (set_flags y s) = Ok (tt, set_flags (assign_flags f' x y) s).
Proof.
  intros Hi Hcomp Hws H. unfold SaveGuestFlags in H.
  apply bind_ok in H as (i0 & s0 & Hd & H). apply lift_ok in Hd as [Hd ->].
  unfold deref in Hd. rewrite Hi in Hd. injection Hd as <-.
  apply bind_ok in H as (bits & s0 & Hb & H). apply lift_ok in Hb as [Hb ->].
  unfold save_complete in Hcomp. rewrite Hb, !andb_true_iff, !orb_true_iff, !negb_true_iff in Hcomp.
  destruct Hcomp as [[[Hb0%Z.ltb_lt Hb64%Z.leb_le] Hcv] Haf].
  assert ((bits =? 0) || (64 <? bits) = false) as Eb.
  { apply orb_false_iff. split; [apply Z.eqb_neq; lia|apply Z.ltb_ge; lia]. }
  rewrite Eb in H. apply bind_ok in H as (result & s0 & Hr & H).
  destruct (stack_read_ReadScalar h _ s s result s0 eq_refl Hr) as [-> _].
  unfold bind at 1, gets in H. cbv beta iota zeta in H.
  apply bind_ok in H as (fl2 & s0 & Hcvr & H).
  destruct (save_cv_assigns i bits result f _ s fl2 s0 Hcv Hcvr) as (-> & c & v & Hcvs).
  apply bind_ok in H as (fl3 & s0 & Hafr & H).
  destruct (save_af_assigns i result f _ s fl3 s0 Haf Hafr) as (-> & a & Hafs).
  exists (mkFlagVals (flag_bit (bits - 1) result) (result =? 0) c v
            (Z.shiftl (Z.land result 255) kHostParityByte) a).
  split; [apply is_byte_low|]. intros f' y Hsub Hwy Hsame. unfold SaveGuestFlags.
  erewrite bind_run by (apply lift_run; unfold deref; by rewrite Hi).
  erewrite bind_run by (by apply lift_run). rewrite Eb.
  erewrite bind_run by (apply (stack_read_ReadScalar h _ s (set_flags y s) result s eq_refl Hr)).
  erewrite bind_run by reflexivity. cbv beta zeta.
  erewrite bind_run.
  2: { apply Hcvs; [done|]. repeat apply same_carry_set_bit; try done; by apply set_if_word. }
  erewrite bind_run by (by apply Hafs). reflexivity.
Qed.
End Save.

(** ** The instructions that write flags *)

Definition res_opt {A} (r : Res A) : option A := match r with Ok a => Some a | Err _ => None end.

(** The flags a (modelled) write assigns; [InvertCarry] is not an assignment. *)
Definition writer_flags (i : Inst) : option Z :=
  match i_op i with
  | OpCode_SaveFlags | OpCode_PublishSse42StrFlags => res_opt (GetArg_Flags i 1)
  | OpCode_ClearFlags => res_opt (GetArg_Flags i 0)
  | OpCode_SetCarry => Some Flags_Carry
  | OpCode_SetOverflow => Some Flags_Overflow
  | OpCode_PublishFCmpFlags => Some Flags_All
  | _ => None
  end.

(** [i'] is [i] but for its flag mask and bookkeeping. *)
Record remasked (i i' : Inst) : Prop := mk_remasked {
  rm_op : i_op i' = i_op i;
  rm_value : forall n, GetArg_Value i' n = GetArg_Value i n;
  rm_imm : forall n, GetArg_Imm i' n = GetArg_Imm i n
}.

(** Equal but for the slots outside [pos] and the flag word. *)
Definition upto (pos : nat -> Prop) (s s' : IState) : Prop :=
  state_rel pos s (set_flags (s_flags s) s').

Lemma upto_eq pos s s' : upto pos s s' -> s_flags s' = s_flags s -> state_rel pos s s'.
Proof. intros H E. unfold upto in H. by rewrite <- E, set_flags_self in H. Qed.

Lemma state_rel_upto pos s s' : state_rel pos s s' -> upto pos s s'.
Proof. intros H. unfold upto. by rewrite <- (rel_flags _ _ _ H), set_flags_self. Qed.

Lemma upto_set_flags pos s s' x y : upto pos s s' -> upto pos (set_flags x s) (set_flags y s').
Proof. intros []. by split. Qed.

(** A value saved by [SaveFlags]: where its instruction is, that saving is
    complete, and that it does the same with the flag words [fl] and [fl']. *)
Definition saves_well (h : Heap) (full : Ptr -> Prop) (i : Inst) (f fl fl' : Z) : Prop :=
  i_op i = OpCode_SaveFlags -> forall v d, GetArg_Value i 0 = Ok v -> v_inst v = Some d ->
    full d /\ exists j, h !! d = Some j /\ same_carry j fl' fl /\ save_complete j f = true.

Section Writers.
Context (h h' : Heap) (alive full : Ptr -> Prop) (pos : nat -> Prop).
Context (Hsim : heap_sim h h' alive full pos).
Context (cfg : IConfig).
Context (host_fn : Z -> list Z -> M Z) (host_pair_fn : Z -> Z -> Z -> Z -> M (Z * Z)).

Abbreviation run := (run_inst h cfg host_fn host_pair_fn).
Abbreviation run' := (run_inst h' cfg host_fn host_pair_fn).

Lemma read_pair {A} (m m' : M A) s s' a s1 :
  sim pos trivial_post m m' -> stack_read m -> stack_read m' -> upto pos s s' ->
  m s = Ok (a, s1) -> s1 = s /\ m' s' = Ok (a, s').
Proof.
  intros Hs Hm Hm' Hu H. destruct (Hm s s a s1 eq_refl H) as [-> _]. split; [done|].
  destruct (Hs s _ a s Hu H) as (s2 & H2 & _).
  by destruct (Hm' (set_flags (s_flags s) s') s' a s2 eq_refl H2).
Qed.

Lemma readV_pair i i' n s s' a s1 :
  remasked i i' -> (forall v, v ∈ GetValues i -> live alive v) -> upto pos s s' ->
  readV h i n s = Ok (a, s1) -> s1 = s /\ readV h' i' n s' = Ok (a, s').
Proof.
  intros Hr Hv Hu H. unfold readV in *. apply bind_ok in H as (v & s2 & H1 & H).
  apply lift_ok in H1 as [H1 ->]. erewrite bind_run by (apply lift_run; by rewrite (rm_value _ _ Hr)).
  eapply read_pair; [..|exact Hu|exact H]; try apply stack_read_ReadScalar.
  eapply sim_ReadScalar; [exact Hsim|]. apply Hv. by eapply GetArg_Value_in.
Qed.

(** What a write does, as far as the two executions are concerned; [m'] is the
    second one. *)
Definition writes (m' : M unit) (f f' : Z) (s s' s1 : IState) : Prop :=
  exists v x1 y1, s1 = set_flags x1 s /\ assigned f v (s_flags s) x1
    /\ m' s' = Ok (tt, set_flags y1 s') /\ assigned f' v (s_flags s') y1.

(** One writing instruction, under the mask [f] in [h] and under [f'] in [h']. *)
Section One.
Context (p : Ptr) (i i' : Inst) (f f' : Z) (s s' s1 : IState).
Hypothesis Hi : h !! p = Some i.
Hypothesis Hi' : h' !! p = Some i'.
Hypothesis Hr : remasked i i'.
Hypothesis Hlive : forall v, v ∈ GetValues i -> live alive v.
Hypothesis Hsub : fsub f' f.
Hypothesis Hu : upto pos s s'.
Hypothesis Hw : is_word (s_flags s).
Hypothesis Hw' : is_word (s_flags s').

Lemma deref_both : deref h p = Ok i /\ deref h' p = Ok i'.
Proof. unfold deref. by rewrite Hi, Hi'. Qed.

Lemma writes_assign (m' : M unit) x :
  is_byte (fv_byte x) -> s1 = set_flags (assign_flags f x (s_flags s)) s ->
  m' s' = Ok (tt, set_flags (assign_flags f' x (s_flags s')) s') -> writes m' f f' s s' s1.
Proof.
  intros Hb -> H. exists (val_at x), (assign_flags f x (s_flags s)), (assign_flags f' x (s_flags s')).
  split_and!; try done; by apply assign_flags_spec.
Qed.

(** Peel the first step of both runs. *)
Ltac both H :=
  destruct deref_both as [? ?];
  erewrite bind_run in H by (apply lift_run; eassumption).

Lemma write_ClearFlags :
  GetArg_Flags i 0 = Ok f -> GetArg_Flags i' 0 = Ok f' ->
  RunClearFlags h p s = Ok (tt, s1) -> writes (RunClearFlags h' p) f f' s s' s1.
Proof.
  intros Hf Hf' H. unfold RunClearFlags in *. both H. erewrite bind_run in H by (by apply lift_run).
  injection H as H. apply (writes_assign _ cleared); [by vm_compute|done|]. by repeat mstep.
Qed.

Lemma write_flag (F : Z -> bool -> Z) (bit : Z) :
  f = bit -> f' = bit -> (forall b fl, F fl b = assign_flags bit (all_flags b) fl) ->
  (x <- readV h i 0;; modify (fun s => set_flags (F (s_flags s) (negb (Z.land x 1 =? 0))) s)) s
    = Ok (tt, s1) ->
  writes (x <- readV h' i' 0;;
          modify (fun s => set_flags (F (s_flags s) (negb (Z.land x 1 =? 0))) s)) f f' s s' s1.
Proof.
  intros Ef Ef' HF H. apply bind_ok in H as (x & s2 & Hx & H).
  destruct (readV_pair _ _ _ _ _ _ _ Hr Hlive Hu Hx) as [-> Hx']. injection H as H.
  apply (writes_assign _ (all_flags (negb (Z.land x 1 =? 0)))); [unfold is_byte; simpl; lia| |].
  - by rewrite Ef, <- HF.
  - rewrite (bind_run _ _ _ _ _ Hx'). unfold modify. by rewrite Ef', HF.
Qed.

Lemma writes_run (m m' : M unit) : m s' = m' s' -> writes m' f f' s s' s1 -> writes m f f' s s' s1.
Proof. intros E (v & x1 & y1 & H1 & H2 & H3 & H4). exists v, x1, y1. by rewrite E. Qed.

Lemma write_SetCarry :
  f = Flags_Carry -> f' = Flags_Carry ->
  RunSetCarry h p s = Ok (tt, s1) -> writes (RunSetCarry h' p) f f' s s' s1.
Proof.
  intros Ef Ef' H. unfold RunSetCarry in *. both H.
  eapply writes_run; [by mstep|]. by eapply (write_flag (fun fl b => set_bit kHostFlagC b fl)).
Qed.

Lemma write_SetOverflow :
  f = Flags_Overflow -> f' = Flags_Overflow ->
  RunSetOverflow h p s = Ok (tt, s1) -> writes (RunSetOverflow h' p) f f' s s' s1.
Proof.
  intros Ef Ef' H. unfold RunSetOverflow in *. both H.
  eapply writes_run; [by mstep|]. by eapply (write_flag (fun fl b => set_bit kHostFlagV b fl)).
Qed.

Lemma write_PublishFCmp :
  f = Flags_All -> f' = Flags_All ->
  RunPublishFCmpFlags h p s = Ok (tt, s1) -> writes (RunPublishFCmpFlags h' p) f f' s s' s1.
Proof.
  intros -> -> H. unfold RunPublishFCmpFlags in *. both H.
  apply bind_ok in H as (x & s2 & Hx & H).
  destruct (readV_pair _ _ _ _ _ _ _ Hr Hlive Hu Hx) as [-> Hx'].
  unfold readI in H. rewrite <- (rm_imm _ _ Hr) in H.
  apply bind_ok in H as (c & s2 & Hc & H). minv Hc. injection H as H.
  eexists _, _, _. split_and!; [by rewrite <- H|by apply publish_fcmp_assigned| |by apply publish_fcmp_assigned].
  mstep. unfold readI. mstep. erewrite bind_run by (mstep; reflexivity). reflexivity.
Qed.

Lemma write_PublishSse42 :
  GetArg_Flags i 1 = Ok f -> GetArg_Flags i' 1 = Ok f' ->
  RunPublishSse42StrFlags h p s = Ok (tt, s1) -> writes (RunPublishSse42StrFlags h' p) f f' s s' s1.
Proof.
  intros Hf Hf' H. unfold RunPublishSse42StrFlags in *. both H.
  apply bind_ok in H as (x & s2 & Hx & H).
  destruct (readV_pair _ _ _ _ _ _ _ Hr Hlive Hu Hx) as [-> Hx'].
  erewrite bind_run in H by (by apply lift_run). injection H as H.
  apply (writes_assign _ (sse42_vals x)); [unfold is_byte; simpl; lia| |].
  - by rewrite <- publish_sse42_assigns.
  - repeat mstep. unfold modify. by rewrite publish_sse42_assigns.
Qed.

Lemma write_SaveFlags :
  saves_well h full i f (s_flags s) (s_flags s') -> i_op i = OpCode_SaveFlags ->
  GetArg_Flags i 1 = Ok f -> GetArg_Flags i' 1 = Ok f' ->
  RunSaveFlags h p s = Ok (tt, s1) -> writes (RunSaveFlags h' p) f f' s s' s1.
Proof.
  intros Hsave Hop Hf Hf' H. unfold RunSaveFlags in *. both H.
  apply bind_ok in H as (v & s2 & Hv & H). apply lift_ok in Hv as [Hv ->].
  apply bind_ok in H as (d & s2 & Hd & H). apply lift_ok in Hd as [Hd ->].
  destruct (v_inst v) as [d'|] eqn:Hvd; [|done]. injection Hd as ->.
  erewrite bind_run in H by (by apply lift_run).
  destruct (Hsave Hop v d Hv Hvd) as (Hfull & j & Hj & Hnc & Hcomp).
  destruct (save_assigns h d j f s s1 Hj Hcomp Hw H) as (x & Hb & Hx).
  assert (s1 = set_flags (assign_flags f x (s_flags s)) s) as E1.
  { assert (same_carry j (s_flags s) (s_flags s)) as Hself by by right.
    pose proof (Hx f (s_flags s) (fsub_refl f) Hw Hself) as Hxs. rewrite set_flags_self, H in Hxs.
    congruence. }
  apply (writes_assign _ x); [done|done|]. rewrite <- (rm_value _ _ Hr) in Hv.
  assert (RunSaveFlags h' p s' = SaveGuestFlags h' d f' s') as Erun.
  { unfold RunSaveFlags. mstep. mstep. rewrite Hvd. by repeat mstep. }
  unfold RunSaveFlags in Erun. rewrite Erun.
  specialize (Hx f' (s_flags s') Hsub Hw' Hnc).
  assert (state_rel pos (set_flags (s_flags s') s) s') as Hs by (destruct Hu; by split).
  destruct (sim_SaveGuestFlags _ _ _ _ _ Hsim d f' Hfull _ _ _ _ Hs Hx) as (s2 & H2 & _ & Hs2).
  rewrite H2. do 2 f_equal. rewrite (SaveGuestFlags_only h' d f' s' tt s2 H2). f_equal.
  apply (rel_flags _ _ _ Hs2).
Qed.

Lemma res_opt_ok {A} (r : Res A) a : res_opt r = Some a -> r = Ok a.
Proof. destruct r; [by intros [= ->]|done]. Qed.

Lemma sim_writer :
  saves_well h full i f (s_flags s) (s_flags s') -> writer_flags i = Some f -> writer_flags i' = Some f' ->
  run p s = Ok (tt, s1) -> writes (run' p) f f' s s' s1.
Proof.
  intros Hsave Hf Hf' H. destruct deref_both as [Hd Hd'].
  unfold run_inst in H. erewrite bind_run in H by (by apply lift_run).
  unfold writer_flags in Hf, Hf'. rewrite (rm_op _ _ Hr) in Hf'.
  destruct (i_op i) eqn:Eop; try discriminate Hf;
    (eapply writes_run; [unfold run_inst; erewrite bind_run by (by apply lift_run);
       rewrite (rm_op _ _ Hr), Eop; reflexivity|]);
    first [apply res_opt_ok in Hf; apply res_opt_ok in Hf'|injection Hf as Hf; injection Hf' as Hf'].
  - by apply write_SaveFlags.
  - by apply write_ClearFlags.
  - by apply write_SetCarry.
  - by apply write_SetOverflow.
  - by apply write_PublishFCmp.
  - by apply write_PublishSse42.
Qed.
End One.
End Writers.

(** ** Terminals

    A terminal all of whose targets are known does not read the flags. *)
Lemma terminal_blind h t s r s1 y :
  snd (CollectTerminalTargets t) = false -> RunTerminal h t s = Ok (r, s1) ->
  s_flags s1 = s_flags s /\ RunTerminal h t (set_flags y s) = Ok (r, set_flags y s1).
Proof.
  revert t s r s1. fix IH 1. intros t s r s1 Hk H.
  assert (forall v x s2, ReadScalar h v s = Ok (x, s2) -> s2 = s /\
    ReadScalar h v (set_flags y s) = Ok (x, set_flags y s)) as Hread.
  { intros v x s2 Hx. destruct (stack_read_ReadScalar h v s s x s2 eq_refl Hx) as [-> _].
    split; [done|]. by destruct (stack_read_ReadScalar h v s (set_flags y s) x s eq_refl Hx). }
  destruct t as [| | |x|x|x| |c t1 t2|c t1 t2|v cases|t1]; simpl in Hk; try discriminate Hk.
  - injection H as <- <-. done.
  - injection H as <- <-. done.
  - apply orb_false_iff in Hk as [H1 H2]. simpl in *. apply bind_ok in H as (b & s2 & Hb & H).
    destruct (Hread _ _ _ Hb) as [-> Hb']. rewrite (bind_run _ _ _ _ _ Hb').
    destruct (negb (b =? 0)); by apply IH.
  - simpl in *. apply bind_ok in H as (b & s2 & Hb & H).
    destruct (Hread _ _ _ Hb) as [-> Hb']. rewrite (bind_run _ _ _ _ _ Hb'). clear Hb Hb'.
    induction cases as [|[m t'] cases IHc]; [by injection H as <- <-|].
    apply orb_false_iff in Hk as [H1 H2].
    destruct (b =? Imm_Get m); [by apply IH|by apply IHc].
Qed.
