(* ===== verification/FlagsElimWalk.v ===== *)
(** * The backward walk, instruction by instruction

    What one iteration of the walk decides ([verdict]) from the flags needed
    after the instruction and the flags needed before it, and that the walk
    leaves such a verdict at every position of the block. *)

From Stdlib Require Import ZArith Lia.
From stdpp Require Import numbers base gmap list.
From S2P Require Import IRTypes Prelude MachineInt Instr UseCount InterpCore Interp InterpRun.
From S2P Require Import DeadCode FlagsElim FlagWord FlagReads FlagSim.

Local Open Scope Z_scope.
Local Open Scope svm_scope.

(** ** Masks in place *)

Definition with_mask (idx : nat) (f : Z) (i : Inst) : Inst :=
  set_args (<[idx := AFlags f]> (i_args i)) i.

Lemma SetArg_plain_mask p idx f m i h :
  h !! p = Some i -> i_args i !! idx = Some (AFlags f) ->
  SetArg_plain p idx (AFlags m) h = Ok (tt, <[p := with_mask idx m i]> h).
Proof.
  intros Hp Ha. unfold SetArg_plain, DestroyArg.
  erewrite bind_run; [|erewrite bind_run by (unfold heap_deref, bind, get, lift, deref; by rewrite Hp);
    cbv beta; erewrite bind_run by (apply lift_run; unfold ArgAt; by rewrite Ha); cbv beta iota;
    erewrite bind_run by reflexivity;
    unfold heap_update, heap_deref, bind, get, lift, deref; rewrite Hp; reflexivity].
  unfold put_arg, heap_update, heap_deref, bind, get, lift, deref, guard, modify.
  rewrite lookup_insert_eq. simpl. rewrite length_insert.
  rewrite bool_decide_eq_true_2 by (by eapply lookup_lt_Some). simpl. rewrite lookup_insert_eq.
  simpl. do 2 f_equal. rewrite insert_insert_eq. f_equal. unfold with_mask, set_args. simpl.
  f_equal. apply list_insert_insert_eq.
Qed.

(** Where the mask of an instruction is. *)
Definition mask_index (op : OpCode) : option nat :=
  match op with
  | OpCode_SaveFlags | OpCode_PublishSse42StrFlags => Some 1%nat
  | OpCode_ClearFlags => Some 0%nat
  | _ => None
  end.

Lemma mask_PublicIndex i idx : mask_index (i_op i) = Some idx -> PublicIndex i idx = Ok idx.
Proof.
  unfold PublicIndex. destruct (i_op i); try discriminate; intros [= <-]; reflexivity.
Qed.

Lemma GetArg_Flags_at i idx f :
  mask_index (i_op i) = Some idx -> GetArg_Flags i idx = Ok f -> i_args i !! idx = Some (AFlags f).
Proof.
  intros Hm H. unfold GetArg_Flags, get_slot in H. rewrite (mask_PublicIndex i idx Hm) in H. simpl in H.
  apply rbind_ok in H as (a & Ha & H). unfold ArgAt in Ha.
  destruct (i_args i !! idx) as [b|]; [|done]. injection Ha as ->. destruct a; try done. by injection H as ->.
Qed.

Lemma writer_mask i idx f :
  mask_index (i_op i) = Some idx -> GetArg_Flags i idx = Ok f -> writer_flags i = Some f.
Proof.
  unfold writer_flags. intros Hm H. destruct (i_op i); try discriminate Hm; injection Hm as <-;
    by rewrite H.
Qed.

Section WithMask.
Context (i : Inst) (idx : nat) (f m : Z).
Hypothesis Hm : mask_index (i_op i) = Some idx.
Hypothesis Ha : i_args i !! idx = Some (AFlags f).

Lemma with_mask_slot n :
  get_slot (with_mask idx m i) n = get_slot i n
  \/ (get_slot i n = Ok (AFlags f) /\ get_slot (with_mask idx m i) n = Ok (AFlags m)).
Proof.
  unfold get_slot. assert (PublicIndex (with_mask idx m i) n = PublicIndex i n) as -> by done.
  destruct (PublicIndex i n) as [k|]; [|by left]. simpl. unfold ArgAt. simpl.
  destruct (decide (idx = k)) as [<-|Hne]; [right|left; by rewrite list_lookup_insert_ne].
  rewrite Ha, list_lookup_insert_eq; [done|by eapply lookup_lt_Some].
Qed.

Lemma with_mask_remasked : remasked i (with_mask idx m i).
Proof.
  split; [done|..]; intros n; unfold GetArg_Value, GetArg_Imm;
    by destruct (with_mask_slot n) as [-> | [-> ->]].
Qed.

Lemma with_mask_writer : writer_flags (with_mask idx m i) = Some m.
Proof.
  apply (writer_mask _ idx); [done|]. unfold GetArg_Flags, get_slot.
  rewrite (mask_PublicIndex (with_mask idx m i) idx Hm). simpl. unfold ArgAt. simpl.
  by rewrite list_lookup_insert_eq by (by eapply lookup_lt_Some).
Qed.

Lemma with_mask_values : GetValues (with_mask idx m i) = GetValues i.
Proof.
  unfold GetValues. simpl. clear Hm. revert idx Ha. generalize (i_args i). intros l.
  induction l as [|a l IH]; intros [|k] Hk; simpl in *; try done.
  - by injection Hk as ->.
  - f_equal. by apply IH.
Qed.
End WithMask.

Lemma remasked_refl i : remasked i i.
Proof. by split. Qed.

(** ** Verdicts *)

(** What the walk did with the instruction [i], now [i'], when the flags [n']
    are needed after it and [n] before it. *)
Inductive verdict (i i' : Inst) (n n' : Z) : bool -> Prop :=
| V_exact : i' = i -> n = Flags_All -> verdict i i' n n' false
| V_read r : i' = i -> flag_reads i = Some r -> fsub r n -> fsub n' n -> verdict i i' n n' false
| V_write f f' : remasked i i' -> writer_flags i = Some f -> writer_flags i' = Some f' ->
    fsub f' f -> fsub (Z.land f n') f' -> fsub (Z.ldiff n' f') n -> verdict i i' n n' false
| V_invert : i' = i -> i_op i = OpCode_InvertCarry -> fsub n' n -> verdict i i' n n' false
| V_dead f : writer_flags i = Some f -> Z.land f n' = 0 -> fsub n' n -> verdict i i' n n' true
| V_dead_invert : i_op i = OpCode_InvertCarry -> Z.testbit n' 0 = false -> fsub n' n ->
    verdict i i' n n' true.

(** The effect of one iteration on the heap and the victims. *)
Definition step_effect (p : Ptr) (i i' : Inst) (h h1 : Heap) (w w1 : Walk) (dead : bool) : Prop :=
  h1 = <[p := i']> h /\ w_victims w1 = (if dead then w_victims w ++ [p] else w_victims w)
  /\ w_crossed w1 = w_crossed w /\ w_carry_region w1 = w_carry_region w
  /\ (i' = i \/ exists idx f m, mask_index (i_op i) = Some idx
        /\ i_args i !! idx = Some (AFlags f) /\ i' = with_mask idx m i).

Section Step.
Context (features : FeatureSet) (p : Ptr) (i : Inst) (h : Heap) (w : Walk).
Hypothesis Hp : h !! p = Some i.

Lemma narrow_effect idx f m h1 :
  mask_index (i_op i) = Some idx -> GetArg_Flags i idx = Ok f ->
  narrow p idx f m h = Ok (tt, h1) ->
  exists i', h1 = <[p := i']> h /\ remasked i i' /\ writer_flags i' = Some m
    /\ (i' = i \/ exists idx f m, mask_index (i_op i) = Some idx
          /\ i_args i !! idx = Some (AFlags f) /\ i' = with_mask idx m i).
Proof.
  intros Hm Hf H. pose proof (GetArg_Flags_at i idx f Hm Hf) as Ha. unfold narrow in H.
  destruct (Z.eqb_spec m f) as [->|].
  - injection H as <-. exists i. rewrite insert_id by done.
    split_and!; [done|apply remasked_refl|by eapply writer_mask|by left].
  - rewrite (SetArg_plain_mask p idx f m i h Hp Ha) in H. injection H as <-.
    exists (with_mask idx m i). split_and!; [done|by eapply with_mask_remasked|
      by eapply with_mask_writer|right; eauto 10].
Qed.

Definition stepped (w1 : Walk) (h1 : Heap) : Prop :=
  exists i' dead, verdict i i' (w_needed w1) (w_needed w) dead /\ step_effect p i i' h h1 w w1 dead.

(** The instruction stays as it is. *)
Lemma stay_effect n lab :
  step_effect p i i h h w (mkWalk n lab (w_victims w) (w_carry_region w) (w_crossed w)) false.
Proof. split_and!; [by rewrite insert_id|done..|by left]. Qed.

Lemma dead_effect : step_effect p i i h h w (add_victim p w) true.
Proof. split_and!; [by rewrite insert_id|done..|by left]. Qed.

Lemma ldiff_sub a b c : fsub (Z.ldiff a b) (Z.ldiff a (Z.land b c)).
Proof.
  intros k. rewrite !Z.ldiff_spec, Z.land_spec, !andb_true_iff, !negb_true_iff. intros [-> ->]. done.
Qed.

Lemma save_narrowed_sub producer mask needed : fsub (save_narrowed features producer mask needed) mask.
Proof.
  unfold save_narrowed. set (m := Z.land mask needed).
  assert (fsub m mask) as Hm by apply fsub_land_l.
  assert (fsub (Z.lor m (Z.land mask Flags_CV)) mask) as Hor.
  { intros k. rewrite Z.lor_spec, orb_true_iff. intros [Hk|Hk]; [by apply Hm|by apply fsub_land_l in Hk]. }
  destruct (_ && _).
  - destruct producer as [[]|]; try done; by destruct (flag_true _ _).
  - destruct (negb _); [apply fsub_refl|apply fsub_ldiff].
Qed.

Lemma save_narrowed_keeps producer mask needed :
  fsub (Z.land mask needed) (save_narrowed features producer mask needed).
Proof.
  unfold save_narrowed. set (m := Z.land mask needed).
  destruct (_ && _).
  - destruct producer as [[]|]; try apply fsub_refl;
      (destruct (flag_true _ _); [apply fsub_lor_l|apply fsub_refl]).
  - destruct (negb _); [apply fsub_land_l|]. unfold m. intros k.
    rewrite !Z.land_spec, !Z.ldiff_spec, !andb_true_iff. intros [-> ->]. by rewrite andb_false_r.
Qed.

Lemma land_zero_sub a b c : fsub (Z.land a c) b -> Z.land b c = 0 -> Z.land a c = 0.
Proof.
  intros Hs H0. apply Z.bits_inj'. intros k _. rewrite Z.bits_0.
  destruct (Z.testbit (Z.land a c) k) eqn:E; [|done]. pose proof (Hs k E) as Hb.
  rewrite Z.land_spec, andb_true_iff in E. destruct E as [_ Ec].
  by rewrite (land_zero_bits b c H0 k Hb) in Ec.
Qed.

Lemma needed_zero f n : flag_true n f = false -> Z.land f n = 0.
Proof. unfold flag_true. rewrite Z.land_comm. by intros ->%negb_false_iff%Z.eqb_eq. Qed.

(** A write under the mask [f] that stays, narrowed to [m]. *)
Lemma written_step f m i' n h1 :
  h1 = <[p := i']> h -> remasked i i' -> writer_flags i = Some f -> writer_flags i' = Some m ->
  (i' = i \/ exists idx f m, mask_index (i_op i) = Some idx
          /\ i_args i !! idx = Some (AFlags f) /\ i' = with_mask idx m i) ->
  fsub m f -> fsub (Z.land f (w_needed w)) m -> fsub (Z.ldiff (w_needed w) m) n ->
  stepped (set_needed n w) h1.
Proof. intros -> Hr Hf Hm Hi' H1 H2 H3. exists i', false. split; [by eapply V_write|by split_and!]. Qed.

Lemma step_SaveFlags w1 h1 :
  i_op i = OpCode_SaveFlags -> elim_SaveFlags features p i w h = Ok (w1, h1) -> stepped w1 h1.
Proof.
  intros Hop H. assert (mask_index (i_op i) = Some 1%nat) as Hm by (by rewrite Hop).
  unfold elim_SaveFlags in H. apply bind_ok in H as (mask & h2 & Hf & H). apply lift_ok in Hf as [Hf ->].
  apply bind_ok in H as (v & h2 & Hv & H). apply lift_ok in Hv as [_ ->].
  apply bind_ok in H as (g & h2 & Hg & H). unfold get in Hg. injection Hg as <- <-. cbv zeta in H.
  set (m := save_narrowed _ _ _ _) in H.
  pose proof (save_narrowed_sub (match v_inst v with Some d => i_op <$> h !! d | None => None end)
    mask (w_needed w)) as Hs. fold m in Hs.
  pose proof (save_narrowed_keeps (match v_inst v with Some d => i_op <$> h !! d | None => None end)
    mask (w_needed w)) as Hk. fold m in Hk.
  pose proof (writer_mask i 1 mask Hm Hf) as Hw.
  destruct (_ && _).
  - apply bind_ok in H as ([] & h2 & H1 & H). injection H as <- <-.
    destruct (narrow_effect 1 mask m h2 Hm Hf H1) as (i' & -> & Hr & Hw' & Hi').
    eapply written_step; [done|done|exact Hw|exact Hw'|done|done|done|apply ldiff_sub].
  - destruct (Z.eqb_spec (Z.land m (w_needed w)) 0) as [E|].
    + injection H as <- <-. exists i, true. split; [|apply dead_effect].
      eapply V_dead; [done| |apply fsub_refl]. by eapply land_zero_sub.
    + apply bind_ok in H as ([] & h2 & H1 & H). injection H as <- <-.
      destruct (narrow_effect 1 mask m h2 Hm Hf H1) as (i' & -> & Hr & Hw' & Hi').
      eapply written_step; [done|done|exact Hw|exact Hw'|done|done|done|apply fsub_refl].
Qed.

Lemma step_ClearFlags w1 h1 :
  i_op i = OpCode_ClearFlags -> elim_ClearFlags features p i w h = Ok (w1, h1) -> stepped w1 h1.
Proof.
  intros Hop H. assert (mask_index (i_op i) = Some 0%nat) as Hm by (by rewrite Hop).
  unfold elim_ClearFlags in H. apply bind_ok in H as (mask & h2 & Hf & H). apply lift_ok in Hf as [Hf ->].
  pose proof (writer_mask i 0 mask Hm Hf) as Hw.
  assert (forall n, fsub (Z.ldiff (w_needed w) mask) n -> stepped (set_needed n w) h) as Hstay.
  { intros n Hn. eapply (written_step mask mask i); [by rewrite insert_id|apply remasked_refl|done|done|
      by left|apply fsub_refl|apply fsub_land_l|done]. }
  destruct (_ && _).
  - injection H as <- <-. destruct w. apply Hstay, fsub_ldiff.
  - destruct (Z.eqb_spec (Z.land mask (w_needed w)) 0) as [E|].
    + injection H as <- <-. exists i, true. split; [|apply dead_effect].
      eapply V_dead; [done|done|apply fsub_refl].
    + apply bind_ok in H as ([] & h2 & H1 & H). injection H as <- <-.
      destruct (flag_full_elim features).
      * destruct (narrow_effect 0 mask _ h2 Hm Hf H1) as (i' & -> & Hr & Hw' & Hi').
        eapply written_step; [done|done|exact Hw|exact Hw'|done|apply fsub_land_l|apply fsub_refl|apply fsub_refl].
      * injection H1 as <-. apply Hstay, ldiff_sub.
Qed.

Lemma step_PublishSse42 w1 h1 :
  i_op i = OpCode_PublishSse42StrFlags -> elim_PublishSse42 p i w h = Ok (w1, h1) -> stepped w1 h1.
Proof.
  intros Hop H. assert (mask_index (i_op i) = Some 1%nat) as Hm by (by rewrite Hop).
  unfold elim_PublishSse42 in H. apply bind_ok in H as (mask & h2 & Hf & H). apply lift_ok in Hf as [Hf ->].
  pose proof (writer_mask i 1 mask Hm Hf) as Hw.
  destruct (Z.eqb_spec (Z.land mask (w_needed w)) 0) as [E|].
  - injection H as <- <-. exists i, true. split; [|apply dead_effect].
    eapply V_dead; [done|done|apply fsub_refl].
  - apply bind_ok in H as ([] & h2 & H1 & H). injection H as <- <-.
    destruct (narrow_effect 1 mask _ h2 Hm Hf H1) as (i' & -> & Hr & Hw' & Hi').
    eapply written_step; [done|done|exact Hw|exact Hw'|done|apply fsub_land_l|apply fsub_refl|apply fsub_refl].
Qed.

Lemma step_reads r n lab :
  flag_reads i = Some r -> fsub r n -> fsub (w_needed w) n ->
  stepped (mkWalk n lab (w_victims w) (w_carry_region w) (w_crossed w)) h.
Proof. intros. exists i, false. split; [by eapply V_read|apply stay_effect]. Qed.

Lemma step_set_flag bit :
  writer_flags i = Some bit -> stepped (elim_set_flag p bit w) h.
Proof.
  intros Hw. unfold elim_set_flag. destruct (flag_true (w_needed w) bit) eqn:E.
  - exists i, false. split; [|apply stay_effect].
    eapply V_write; [apply remasked_refl|done|done|apply fsub_refl|apply fsub_land_l|apply fsub_refl].
  - exists i, true. split; [|apply dead_effect].
    eapply V_dead; [done|by apply needed_zero|apply fsub_refl].
Qed.

Lemma step_need r :
  flag_reads i = Some r -> stepped (need r w) h.
Proof. intros Hr. apply (step_reads r); [done|apply fsub_lor_r|apply fsub_lor_l]. Qed.

Lemma step_cond w1 h1 :
  (forall c, GetArg_Cond i 0 = Ok c -> flag_reads i = Some (cond_needs c)) ->
  (c <- lift (GetArg_Cond i 0);; ret (need (cond_needs c) w)) h = Ok (w1, h1) -> stepped w1 h1.
Proof. intros Hr H. minv H. by apply step_need, Hr. Qed.

Lemma step_test w1 h1 :
  (forall f, GetArg_Flags i 0 = Ok f -> flag_reads i = Some f) ->
  (f <- lift (GetArg_Flags i 0);; ret (need f w)) h = Ok (w1, h1) -> stepped w1 h1.
Proof. intros Hr H. minv H. by apply step_need, Hr. Qed.

Lemma step_InvertCarry :
  i_op i = OpCode_InvertCarry ->
  stepped (if negb (carry_elim_off features) && negb (flag_true (w_needed w) Flags_Carry)
           then add_victim p w else need Flags_Carry w) h.
Proof.
  intros Hop. destruct (_ && _) eqn:E.
  - exists i, true. split; [|apply dead_effect]. apply andb_true_iff in E as [_ E%negb_true_iff].
    destruct (flag_true_members (w_needed w)) as (H0 & _). rewrite E in H0.
    apply V_dead_invert; [done|done|apply fsub_refl].
  - exists i, false. split; [|apply stay_effect]. apply V_invert; [done|done|apply fsub_lor_l].
Qed.

Lemma step_neutral n lab :
  flag_reads i = Some Flags_None -> fsub (w_needed w) n ->
  stepped (mkWalk n lab (w_victims w) (w_carry_region w) (w_crossed w)) h.
Proof. intros Hr Hn. apply (step_reads Flags_None); [done| |done]. intros k. by rewrite Z.bits_0. Qed.

Lemma elim_op_step w1 h1 :
  i_op i <> OpCode_BranchOnlyFlags -> elim_op features p i w h = Ok (w1, h1) -> stepped w1 h1.
Proof.
  intros Hb H. unfold elim_op in H.
  destruct (i_op i) eqn:Eop; try done;
    lazymatch type of H with
    | ret _ _ = Ok _ => injection H as <- <-
    | _ => idtac
    end;
    first
      [ by apply (step_neutral (w_needed w) (w_label_needed w)); [unfold flag_reads; rewrite Eop|apply fsub_refl]
      | by apply step_SaveFlags | by apply step_ClearFlags | by apply step_PublishSse42
      | by apply step_InvertCarry | by apply step_need; unfold flag_reads; rewrite Eop
      | by apply step_cond; [|exact H]; intros c Hc; unfold flag_reads; rewrite Eop, Hc
      | by apply step_test; [|exact H]; intros c Hc; unfold flag_reads; rewrite Eop, Hc
      | by apply step_neutral; [unfold flag_reads; rewrite Eop|apply fsub_lor_l]
      | by apply step_set_flag; unfold writer_flags; rewrite Eop | idtac ].
  - minv H. apply step_neutral; [unfold flag_reads; by rewrite Eop|apply fsub_refl].
  - assert (writer_flags i = Some Flags_Carry) as Hw by (unfold writer_flags; by rewrite Eop).
    destruct (carry_elim_off features); [|by apply step_set_flag].
    exists i, false. split; [|split_and!; [by rewrite insert_id|done..|by left]].
    eapply V_write; [apply remasked_refl|done|done|apply fsub_refl|apply fsub_land_l|apply fsub_ldiff].
  - assert (writer_flags i = Some Flags_All) as Hw by (unfold writer_flags; by rewrite Eop).
    exists i, false. split; [|apply stay_effect].
    eapply V_write; [apply remasked_refl|done|done|apply fsub_refl|apply fsub_land_l|apply fsub_refl].
Qed.

(** The needed sets recorded at labels. *)
Lemma elim_op_labels w1 h1 :
  elim_op features p i w h = Ok (w1, h1) ->
  match i_op i with
  | OpCode_BindLabel => exists v, GetArg_Value i 0 = Ok v /\
      w_label_needed w1 = <[v_inst v := Z.lor (default Flags_None (w_label_needed w !! v_inst v))
                                          (w_needed w)]> (w_label_needed w)
  | OpCode_Goto | OpCode_NotGoto => w_label_needed w1 = w_label_needed w
      /\ fsub (default Flags_All (w_label_needed w !! Some p)) (w_needed w1)
  | _ => w_label_needed w1 = w_label_needed w
  end.
Proof.
  intros H. unfold elim_op, elim_SaveFlags, elim_ClearFlags, elim_PublishSse42, elim_set_flag in H.
  destruct (i_op i); minv H; try done;
    repeat match goal with
      | H : (if ?b then _ else _) _ = Ok _ |- _ => destruct b
      | H : bind _ _ _ = Ok _ |- _ => minv H
      | |- context [if ?b then _ else _] => destruct b
      end; try done; try by minv H.
  - split; [done|apply fsub_lor_r].
  - split; [done|apply fsub_lor_r].
  - eauto.
Qed.
End Step.

(** ** One iteration with its carry region *)

(** Right after a protected region everything is needed and no label known. *)
Definition crossed_ok (w : Walk) : Prop :=
  w_crossed w = true -> w_needed w = Flags_All /\ w_label_needed w = ∅.

Definition mask_shape (i i' : Inst) : Prop :=
  i' = i \/ exists idx f m, mask_index (i_op i) = Some idx
    /\ i_args i !! idx = Some (AFlags f) /\ i' = with_mask idx m i.

(** How the label map and the needed set change. *)
Definition label_step (p : Ptr) (i : Inst) (w w1 : Walk) : Prop :=
  (w_needed w1 = Flags_All /\ w_label_needed w1 = ∅) \/
  match i_op i with
  | OpCode_BindLabel => exists v, GetArg_Value i 0 = Ok v /\
      w_label_needed w1 = <[v_inst v := Z.lor (default Flags_None (w_label_needed w !! v_inst v))
                                          (w_needed w)]> (w_label_needed w)
  | OpCode_Goto | OpCode_NotGoto => w_label_needed w1 = w_label_needed w
      /\ fsub (default Flags_All (w_label_needed w !! Some p)) (w_needed w1)
  | _ => w_label_needed w1 = w_label_needed w
  end.

Definition region_of (i : Inst) (w : Walk) : nat :=
  if op_eqb (i_op i) OpCode_AdvancePC then pred (w_carry_region w) else w_carry_region w.

Lemma elim_inst_step features prot p i h w w1 h1 :
  h !! p = Some i -> i_op i <> OpCode_BranchOnlyFlags -> crossed_ok w ->
  elim_inst features prot p w h = Ok (w1, h1) ->
  exists i' dead, verdict i i' (w_needed w1) (w_needed w) dead /\ mask_shape i i'
    /\ h1 = <[p := i']> h /\ w_victims w1 = (if dead then w_victims w ++ [p] else w_victims w)
    /\ crossed_ok w1 /\ label_step p i w w1
    /\ match prot with
       | None => True
       | Some r => w_carry_region w1 = region_of i w
           /\ exists b, r !! region_of i w = Some b /\ (b = true -> i' = i /\ w_needed w1 = Flags_All /\ dead = false)
       end.
Proof.
  intros Hp Hb Hc H. unfold elim_inst in H. apply bind_ok in H as (j & h2 & Hj & H).
  apply heap_deref_inv in Hj as [-> Hj]. rewrite Hp in Hj. injection Hj as <-.
  assert (forall region, let wr := mkWalk (w_needed w) (w_label_needed w) (w_victims w) region (w_crossed w) in
    elim_op features p i (if w_crossed w then barrier false wr else wr) h = Ok (w1, h1) ->
    exists i' dead, verdict i i' (w_needed w1) (w_needed w) dead /\ mask_shape i i'
      /\ h1 = <[p := i']> h /\ w_victims w1 = (if dead then w_victims w ++ [p] else w_victims w)
      /\ crossed_ok w1 /\ label_step p i w w1 /\ w_carry_region w1 = region) as Hop.
  { intros region wr Hop. set (w2 := if w_crossed w then barrier false wr else wr) in Hop.
    assert (w_needed w2 = w_needed w /\ w_label_needed w2 = w_label_needed w
      /\ w_victims w2 = w_victims w /\ w_crossed w2 = false /\ w_carry_region w2 = region)
      as (E1 & E2 & E3 & E4 & E5).
    { unfold w2, wr. destruct (w_crossed w) eqn:E; [|done]. destruct (Hc E) as [E1 E2]. by rewrite E1, E2. }
    destruct (elim_op_step features p i h w2 Hp w1 h1 Hb Hop) as (i' & dead & Hv & H1 & H2 & H3 & H4 & H5).
    apply elim_op_labels in Hop; [|exact Hp]. rewrite E1, E2 in *. rewrite E3 in H2. rewrite E4 in H3. rewrite E5 in H4.
    exists i', dead. split_and!; try done; [intros E; congruence|by right]. }
  destruct prot as [r|].
  - cbv zeta in H. fold (region_of i w) in H.
    apply bind_ok in H as (b & h2 & Hr & H). apply lift_ok in Hr as [Hr ->]. unfold bit_at in Hr.
    destruct (r !! region_of i w) as [b'|] eqn:Eb; [|done]. injection Hr as ->. destruct b.
    + injection H as <- <-. exists i, false. split_and!; try done.
      * by apply V_exact.
      * by left.
      * by rewrite insert_id.
      * by left.
      * by exists true.
    + destruct (Hop _ H) as (i' & dead & H1 & H2 & H3 & H4 & H5 & H6 & H7).
      exists i', dead. split_and!; try done. by exists false.
  - destruct (Hop (w_carry_region w)) as (i' & dead & H1 & H2 & H3 & H4 & H5 & H6 & _).
    + destruct w; exact H.
    + exists i', dead. by split_and!.
Qed.

(** ** The whole walk *)

Section Walking.
Context (features : FeatureSet) (prot : option (list bool)) (h0 : Heap) (w0 : Walk).
Hypothesis Hvict0 : w_victims w0 = [].
Hypothesis Hlabel0 : w_label_needed w0 = ∅.
Hypothesis Hcross0 : w_crossed w0 = false.

(** The flags needed before the list [l]. *)
Definition needed_before (l : list Ptr) : Z :=
  match elim_walk features prot l w0 h0 with
  | Ok (w, _) => w_needed w
  | Err _ => Flags_All
  end.

(** The number of carry regions that end in [l]. *)
Definition advances (l : list Ptr) : nat :=
  length (filter (fun p => ptr_op h0 p = OpCode_AdvancePC) l).

Lemma advances_cons p l i :
  h0 !! p = Some i ->
  advances (p :: l) = ((if op_eqb (i_op i) OpCode_AdvancePC then 1 else 0) + advances l)%nat.
Proof.
  intros Hi. unfold advances. rewrite filter_cons.
  assert (ptr_op h0 p = i_op i) as E by (unfold ptr_op; by rewrite Hi).
  destruct (op_eqb_spec (i_op i) OpCode_AdvancePC); rewrite <- E in *.
  - by rewrite decide_True.
  - by rewrite decide_False.
Qed.

(** The region of the first instruction of [l]. *)
Definition region_before (l : list Ptr) : nat := (w_carry_region w0 - advances l)%nat.

Definition block_insts_ok (l : list Ptr) : Prop :=
  NoDup l /\ Forall (fun p => exists i, h0 !! p = Some i /\ i_op i <> OpCode_BranchOnlyFlags) l.

(** The walk and the block: [h] differs from [h0] in the masks of [l] only, and
    every position has its verdict. *)
Record walked (l : list Ptr) (w : Walk) (h : Heap) : Prop := mk_walked {
  wk_rest : forall q, q ∉ l -> h !! q = h0 !! q;
  wk_victims : forall q, q ∈ w_victims w -> q ∈ l;
  wk_nodup : NoDup (w_victims w);
  wk_crossed : crossed_ok w;
  wk_verdict : forall k p, l !! k = Some p -> exists i i' dead,
    h0 !! p = Some i /\ h !! p = Some i' /\ mask_shape i i'
    /\ verdict i i' (needed_before (drop k l)) (needed_before (drop (S k) l)) dead
    /\ (p ∈ w_victims w <-> dead = true)
    /\ (forall r, prot = Some r -> r !! region_before (drop k l) = Some true ->
          i' = i /\ needed_before (drop k l) = Flags_All /\ dead = false);
  wk_region : prot <> None -> w_carry_region w = region_before l
}.

Lemma elim_walk_cons p l w h :
  elim_walk features prot (p :: l) w0 h0 = Ok (w, h) ->
  exists w1 h1, elim_walk features prot l w0 h0 = Ok (w1, h1)
    /\ elim_inst features prot p w1 h1 = Ok (w, h).
Proof. simpl. intros H. apply bind_ok in H as (w1 & h1 & H1 & H). eauto. Qed.

Lemma elim_walk_suffix l1 l2 w h :
  elim_walk features prot (l1 ++ l2) w0 h0 = Ok (w, h) ->
  exists w2 h2, elim_walk features prot l2 w0 h0 = Ok (w2, h2).
Proof.
  revert w h. induction l1 as [|p l1 IH]; intros w h H; [eauto|].
  apply elim_walk_cons in H as (w1 & h1 & H1 & _). by apply (IH w1 h1).
Qed.

Lemma walk_walked l w h :
  block_insts_ok l -> elim_walk features prot l w0 h0 = Ok (w, h) -> walked l w h.
Proof.
  revert w h. induction l as [|p l IH]; intros w h [Hnd Hall] H.
  - injection H as <- <-. split; [done|by rewrite Hvict0|by rewrite Hvict0; constructor|
      by intros E; congruence|done|]. intros _. unfold region_before, advances. simpl. lia.
  - apply NoDup_cons in Hnd as [Hp Hnd]. apply Forall_cons in Hall as [(i & Hi & Hop) Hall].
    assert (needed_before (p :: l) = w_needed w) as En by (unfold needed_before; by rewrite H).
    apply elim_walk_cons in H as (w1 & h1 & H1 & H).
    destruct (IH w1 h1 (conj Hnd Hall) H1) as [Hrest Hv Hvn Hc Hver Hreg].
    assert (needed_before l = w_needed w1) as En1 by (unfold needed_before; by rewrite H1).
    assert (p ∉ w_victims w1) as Hpv by (intros Hin; by apply Hp, Hv).
    destruct (elim_inst_step features prot p i h1 w1 w h) as
      (i' & dead & Hverd & Hshape & -> & Hvict & Hcr & _ & Hprot); try done.
    { by rewrite Hrest. }
    assert (prot <> None -> region_of i w1 = region_before (p :: l)) as Hri.
    { intros Hp0. unfold region_of, region_before. rewrite (Hreg Hp0), (advances_cons p l i Hi).
      unfold region_before. destruct (op_eqb _ _); lia. }
    split; [| | |done| |].
    + intros q Hq. apply not_elem_of_cons in Hq as [Hqp Hql].
      rewrite lookup_insert_ne by done. by apply Hrest.
    + intros q. rewrite Hvict. destruct dead; [|intros Hq; right; by apply Hv].
      rewrite elem_of_app, list_elem_of_singleton. intros [Hq| ->]; [right; by apply Hv|left].
    + rewrite Hvict. destruct dead; [|done]. apply NoDup_app. split_and!; [done| |by apply NoDup_singleton].
      intros q Hq ->%list_elem_of_singleton. by apply Hpv.
    + intros [|k] q Hq; simpl in Hq.
      * injection Hq as <-. exists i, i', dead. simpl. rewrite lookup_insert_eq, drop_0, En, En1.
        split_and!; try done.
        { rewrite Hvict. destruct dead; [|split; done].
          split; [done|]. intros _. apply elem_of_app. right. by apply list_elem_of_singleton. }
        intros r -> Hr. destruct Hprot as (_ & b & Hb & Hex). rewrite Hri, Hr in Hb by done.
        injection Hb as <-. by apply Hex.
      * destruct (Hver k q Hq) as (j & j' & d & Hj & Hj' & Hsh & Hvd & Hd & Hpr).
        assert (q <> p) as Hqp by (intros ->; apply Hp; by eapply list_elem_of_lookup_2).
        exists j, j', d. simpl. rewrite lookup_insert_ne by done. split_and!; try done.
        rewrite Hvict. destruct dead; [|done]. rewrite elem_of_app, list_elem_of_singleton. tauto.
    + intros Hp0. destruct prot as [r|]; [|done]. destruct Hprot as [-> _]. by apply Hri.
Qed.

(** *** Labels *)

Definition binds (p : Ptr) (q : Ptr) : Prop :=
  exists i v, h0 !! q = Some i /\ i_op i = OpCode_BindLabel /\ GetArg_Value i 0 = Ok v /\ v_inst v = Some p.

(** The set recorded for the label of [g] covers what is needed behind it. *)
Definition label_covers (l : list Ptr) (w : Walk) (g : Ptr) : Prop :=
  (forall q, q ∈ l -> ~ binds g q) /\ w_label_needed w !! Some g = None
  \/ (exists m q, l !! m = Some q /\ binds g q /\
        match w_label_needed w !! Some g with
        | None => True
        | Some x => fsub (needed_before (drop (S m) l)) x
        end).

Lemma label_step_other p i w w1 g :
  label_step p i w w1 -> (forall v, i_op i = OpCode_BindLabel -> GetArg_Value i 0 = Ok v -> v_inst v <> Some g) ->
  w_label_needed w1 !! Some g = None \/ w_label_needed w1 !! Some g = w_label_needed w !! Some g.
Proof.
  intros [[_ ->]|H] Hv; [by left|right]. destruct (i_op i); try (by rewrite H); try (by destruct H as [-> _]).
  destruct H as (v & Hv' & ->). rewrite lookup_insert_ne; [done|]. by apply Hv.
Qed.

Lemma walk_labels l w h g :
  block_insts_ok l -> elim_walk features prot l w0 h0 = Ok (w, h) ->
  (forall j k p q, l !! j = Some p -> l !! k = Some q -> binds g p -> binds g q -> j = k) ->
  label_covers l w g.
Proof.
  revert w h. induction l as [|p l IH]; intros w h [Hnd Hall] H Huniq.
  - injection H as <- <-. left. rewrite Hlabel0. split; [by intros q ?%not_elem_of_nil|done].
  - apply NoDup_cons in Hnd as [Hp Hnd]. apply Forall_cons in Hall as [(i & Hi & Hop) Hall].
    apply elim_walk_cons in H as (w1 & h1 & H1 & H).
    destruct (walk_walked l w1 h1 (conj Hnd Hall) H1) as [Hrest _ _ Hc _ _].
    destruct (elim_inst_step features prot p i h1 w1 w h) as
      (i' & dead & _ & _ & _ & _ & _ & Hlab & _); try done.
    { by rewrite Hrest. }
    assert (label_covers l w1 g) as Hcov.
    { apply (IH w1 h1 (conj Hnd Hall) H1). intros j k q r Hq Hr Hbq Hbr.
      assert (S j = S k) as [=]; [by apply (Huniq (S j) (S k) q r)|done]. }
    destruct (decide (i_op i = OpCode_BindLabel /\ (v <-? GetArg_Value i 0; Ok (v_inst v)) = Ok (Some g)))
      as [[Eop Ev]|Hno].
    + apply rbind_ok in Ev as (v & Hv & [= Hvg]).
      assert (binds g p) as Hb by (by exists i, v).
      destruct Hcov as [[Hnone Hl]|(m & q & Hq & Hbq & _)].
      2: { exfalso. assert (0%nat = S m) as [=]. by apply (Huniq 0%nat (S m) p q). }
      right. exists 0%nat, p. split_and!; [done|done|]. simpl. rewrite drop_0.
      destruct Hlab as [[_ ->]|Hlab]; [done|]. rewrite Eop in Hlab. destruct Hlab as (v' & Hv' & ->).
      rewrite Hv in Hv'. injection Hv' as <-. rewrite Hvg, lookup_insert_eq.
      unfold needed_before. rewrite H1. apply fsub_lor_r.
    + assert (~ binds g p) as Hnb.
      { intros (j & v & Hj & Hjop & Hv & Hg). rewrite Hi in Hj. injection Hj as <-.
        apply Hno. split; [done|]. by rewrite Hv; simpl; rewrite Hg. }
      assert (w_label_needed w !! Some g = None \/ w_label_needed w !! Some g = w_label_needed w1 !! Some g)
        as Hsame.
      { eapply label_step_other; [done|]. intros v Eop Hv Hg. apply Hno. split; [done|].
        by rewrite Hv; simpl; rewrite Hg. }
      destruct Hcov as [[Hnone Hl]|(m & q & Hq & Hbq & Hx)].
      * left. split; [intros q [->|Hq]%elem_of_cons; [done|by apply Hnone]|].
        destruct Hsame as [|E]; [done|by rewrite E].
      * right. exists (S m), q. split_and!; [done|done|]. simpl. destruct Hsame as [-> | ->]; done.
Qed.

(** A jump at position [k]: the flags needed where it lands were needed before it. *)
Lemma walk_jump l w h k p i m q :
  block_insts_ok l -> elim_walk features prot l w0 h0 = Ok (w, h) ->
  (forall j k p' q', l !! j = Some p' -> l !! k = Some q' -> binds p p' -> binds p q' -> j = k) ->
  l !! k = Some p -> h0 !! p = Some i -> i_op i = OpCode_Goto \/ i_op i = OpCode_NotGoto ->
  l !! m = Some q -> binds p q ->
  fsub (needed_before (drop (S m) l)) (needed_before (drop k l)) \/ fsub Flags_All (needed_before (drop k l)).
Proof.
  intros Hok H Huniq Hk Hi Hop Hm Hb.
  destruct (elim_walk_suffix (take k l) (drop k l) w h) as (wk & hk & Hwk); [by rewrite take_drop|].
  rewrite (drop_S l p k Hk) in Hwk |- *. pose proof Hwk as Hcons.
  apply elim_walk_cons in Hcons as (w1 & h1 & H1 & Hstep).
  assert (needed_before (p :: drop (S k) l) = w_needed wk) as -> by (unfold needed_before; by rewrite Hwk).
  assert (block_insts_ok (p :: drop (S k) l)) as [Hnd Hall].
  { rewrite <- (drop_S l p k Hk). destruct Hok as [Hnd Hall]. split; [|by apply Forall_drop].
    rewrite <- (take_drop k l) in Hnd. by apply NoDup_app in Hnd as (_ & _ & ?). }
  apply NoDup_cons in Hnd as [Hp Hnd]. apply Forall_cons in Hall as [_ Hall].
  destruct (walk_walked (drop (S k) l) w1 h1 (conj Hnd Hall) H1) as [Hrest _ _ Hc _ _].
  destruct (elim_inst_step features prot p i h1 w1 wk hk) as
    (i' & dead & _ & _ & _ & _ & _ & Hlab & _); try done.
  { by rewrite Hrest. }
  { by destruct Hop as [-> | ->]. }
  destruct Hlab as [[-> _]|Hlab]; [right; apply fsub_refl|].
  assert (fsub (default Flags_All (w_label_needed w1 !! Some p)) (w_needed wk)) as Hneed
    by (by destruct Hop as [E|E]; rewrite E in Hlab; destruct Hlab).
  destruct (walk_labels (drop (S k) l) w1 h1 p (conj Hnd Hall) H1) as [[_ Hl]|(m' & q' & Hm' & Hb' & Hx)].
  - intros j1 j2 q1 q2 Hj1 Hj2 Hb1 Hb2. rewrite lookup_drop in Hj1, Hj2.
    assert (S k + j1 = S k + j2)%nat; [by apply (Huniq _ _ q1 q2)|lia].
  - right. by rewrite Hl in Hneed.
  - rewrite lookup_drop in Hm'. assert (m = S k + m')%nat as -> by (by apply (Huniq _ _ q q')).
    destruct (w_label_needed w1 !! Some p) as [x|]; [left|by right].
    eapply fsub_trans; [|exact Hneed]. rewrite drop_drop in Hx.
    by replace (S k + S m')%nat with (S (S k + m'))%nat in Hx by lia.
Qed.
End Walking.
