(* ===== verification/CarryRegions.v ===== *)
(** * Carry regions

    Which regions [FlagsCarryRegions::Classify] protects: a region that
    consumes the carry, and every region before it back to the nearest one that
    writes the carry. *)

From Stdlib Require Import ZArith Lia.
From stdpp Require Import numbers base gmap list.
From S2P Require Import Prelude MachineInt IRTypes Instr UseCount Interp FlagsElim FlagsElimWalk.

Local Open Scope Z_scope.
Local Open Scope svm_scope.

(** ** The regions of a list *)

Section Regions.
Context (h : Heap).

Lemma region_fold_err e l : foldl (region_step h) (Err e) l = Err e.
Proof. by induction l. Qed.

(** The region an instruction of [l] ends up in, when the fold starts with the
    regions [rs] and the open region [cur]. *)
Lemma region_fold l rs cur rs' cur' :
  foldl (region_step h) (Ok (rs, cur)) l = Ok (rs', cur') ->
  length rs' = (length rs + advances h l)%nat /\ rs `prefix_of` rs'
  /\ (exists reg, (rs' ++ [cur']) !! length rs = Some reg
        /\ (consumes_carry cur = true -> consumes_carry reg = true))
  /\ (forall j p i, l !! j = Some p -> h !! p = Some i ->
        exists reg, (rs' ++ [cur']) !! (length rs + advances h (take j l))%nat = Some reg
          /\ (consumes (i_op i) = true -> consumes_carry reg = true)).
Proof.
  revert rs cur. induction l as [|p l IH]; intros rs cur H.
  - injection H as <- <-. unfold advances. simpl. split_and!; [lia|done| |done].
    exists cur. split; [by apply list_lookup_middle|done].
  - change (foldl (region_step h) (region_step h (Ok (rs, cur)) p) l = Ok (rs', cur')) in H.
    destruct (region_step h (Ok (rs, cur)) p) as [[rs1 cur1]|e] eqn:E; [|by rewrite region_fold_err in H].
    destruct (IH rs1 cur1 H) as (Hlen & Hpre & (reg & Hreg & Hcons) & Hall).
    unfold region_step in E. simpl in E. unfold deref in E. destruct (h !! p) as [i|] eqn:Hi; [|done].
    simpl in E. destruct (inst_writes_carry i) as [w|]; [|done]. simpl in E.
    rewrite (advances_cons h p l i Hi).
    assert (forall j q, (p :: l) !! S j = Some q -> advances h (take (S j) (p :: l))
      = ((if op_eqb (i_op i) OpCode_AdvancePC then 1 else 0) + advances h (take j l))%nat) as Htake.
    { intros j q _. simpl. by apply advances_cons. }
    destruct (op_eqb (i_op i) OpCode_AdvancePC) eqn:Ea.
    + injection E as <- <-. rewrite length_app in *. simpl in Hlen.
      assert (exists reg, (rs' ++ [cur']) !! length rs = Some reg
        /\ consumes_carry reg = consumes_carry cur || consumes (i_op i)) as (r0 & Hr0 & Hc0).
      { destruct Hpre as [tail ->]. eexists. rewrite <- !app_assoc. simpl.
        split; [by apply list_lookup_middle|done]. }
      split_and!; [lia|etrans; [|exact Hpre]; by apply prefix_app_r| |].
      * exists r0. split; [done|]. intros Hc. by rewrite Hc0, Hc.
      * intros [|j] q k Hq Hk; simpl in Hq.
        -- injection Hq as <-. rewrite Hi in Hk. injection Hk as <-.
           exists r0. unfold advances. simpl. rewrite Nat.add_0_r. split; [done|]. intros Hc.
           by rewrite Hc0, Hc, orb_true_r.
        -- rewrite (Htake j q Hq). destruct (Hall j q k Hq Hk) as (r & Hr & Hc). exists r.
           split; [|done]. simpl in Hr. by rewrite <- Nat.add_assoc in Hr.
    + injection E as <- <-. split_and!; [lia|done| |].
      * exists reg. split; [done|]. intros Hc. apply Hcons. simpl. by rewrite Hc.
      * intros [|j] q k Hq Hk; simpl in Hq.
        -- injection Hq as <-. rewrite Hi in Hk. injection Hk as <-.
           exists reg. unfold advances. simpl. rewrite Nat.add_0_r. split; [done|]. intros Hc.
           apply Hcons. simpl. by rewrite Hc, orb_true_r.
        -- rewrite (Htake j q Hq). destruct (Hall j q k Hq Hk) as (r & Hr & Hc). by exists r.
Qed.

Lemma carry_regions_spec insts regions :
  carry_regions h insts = Ok regions ->
  length regions = S (advances h insts)
  /\ forall j p i, insts !! j = Some p -> h !! p = Some i -> consumes (i_op i) = true ->
       exists reg, regions !! advances h (take j insts) = Some reg /\ consumes_carry reg = true.
Proof.
  unfold carry_regions. intros H. apply rbind_ok in H as ([rs cur] & H & [= <-]). simpl.
  destruct (region_fold _ _ _ _ _ H) as (Hlen & _ & _ & Hall). split.
  - rewrite length_app, Hlen. simpl. lia.
  - intros j p i Hj Hi Hc. destruct (Hall j p i Hj Hi) as (reg & Hr & Hcons). exists reg. auto.
Qed.
End Regions.

(** ** Which regions are protected *)

(** No region strictly between [i] and [c] writes the carry. *)
Definition reaches (regions : list Region) (i c : nat) : Prop :=
  forall r reg, (i < r < c)%nat -> regions !! r = Some reg -> writes_carry reg = false.

Definition protects (regions : list Region) (i c : nat) : Prop :=
  (i <= c)%nat /\ (exists reg, regions !! c = Some reg /\ consumes_carry reg = true) /\ reaches regions i c.

Lemma protect_back_length regions n prot : length (protect_back regions n prot) = length prot.
Proof.
  revert prot. induction n as [|q IH]; intros prot; [done|]. simpl.
  destruct (regions !! q) as [r|]; [|by rewrite length_insert].
  destruct (writes_carry r); [|rewrite IH]; by rewrite length_insert.
Qed.

Lemma protect_back_spec regions n prot i :
  (n <= length regions)%nat -> length prot = length regions ->
  protect_back regions n prot !! i = Some true <->
  prot !! i = Some true \/ ((i < n)%nat /\ reaches regions i n).
Proof.
  revert prot. induction n as [|q IH]; intros prot Hn Hlen; simpl; [split; [by left|intros [|[]]; [done|lia]]|].
  destruct (regions !! q) as [r|] eqn:Hr; [|apply lookup_ge_None in Hr; lia].
  assert (<[q := true]> prot !! i = Some true <-> prot !! i = Some true \/ i = q) as Hset.
  { destruct (decide (i = q)) as [->|Hne].
    - rewrite list_lookup_insert_eq by lia. tauto.
    - rewrite list_lookup_insert_ne by done. tauto. }
  destruct (writes_carry r) eqn:Ew.
  - rewrite Hset. split; intros [H|H]; auto.
    + right. subst i. split; [lia|]. intros x reg Hx. lia.
    + destruct H as [Hi H]. right. destruct (decide (i = q)) as [|Hne]; [done|].
      specialize (H q r ltac:(lia) Hr). congruence.
  - rewrite IH by (rewrite ?length_insert; lia). rewrite Hset. split.
    + intros [[H| ->]|[Hi H]]; [by left|right; split; [lia|intros x reg Hx; lia]|right].
      split; [lia|]. intros x reg Hx Hreg. destruct (decide (x = q)) as [->|]; [congruence|].
      apply (H x reg); [lia|done].
    + intros [H|[Hi H]]; [by left; left|]. destruct (decide (i = q)) as [->|]; [by left; right|].
      right. split; [lia|]. intros x reg Hx. apply H. lia.
Qed.

Lemma protect_fold regions cs prot i :
  Forall (fun c => (c < length regions)%nat) cs -> length prot = length regions ->
  length (foldl (protect_step regions) prot cs) = length regions
  /\ (foldl (protect_step regions) prot cs !! i = Some true <->
        prot !! i = Some true \/ exists c, c ∈ cs /\ protects regions i c).
Proof.
  revert prot. induction cs as [|c cs IH]; intros prot Hcs Hlen; simpl.
  { split; [done|]. split; [by left|]. intros [|(c & Hc & _)]; [done|by apply not_elem_of_nil in Hc]. }
  apply Forall_cons in Hcs as [Hc Hcs].
  destruct (lookup_lt_is_Some_2 regions c Hc) as [r Hr].
  assert (length (protect_step regions prot c) = length regions /\
    (protect_step regions prot c !! i = Some true <-> prot !! i = Some true \/ protects regions i c)) as [Hl Hp].
  { unfold protect_step. rewrite Hr. destruct (consumes_carry r) eqn:Ec.
    - rewrite protect_back_length, length_insert. split; [done|].
      rewrite protect_back_spec by (rewrite ?length_insert; lia). split.
      + intros [H|[Hi H]].
        * destruct (decide (i = c)) as [->|Hne].
          -- right. split_and!; [lia|by exists r|]. intros x reg Hx. lia.
          -- rewrite list_lookup_insert_ne in H by done. by left.
        * right. split_and!; [lia|by exists r|done].
      + intros [H|(Hi & _ & H)].
        * left. destruct (decide (i = c)) as [->|Hne]; [by rewrite list_lookup_insert_eq by lia|].
          by rewrite list_lookup_insert_ne.
        * destruct (decide (i = c)) as [->|Hne]; [left; by rewrite list_lookup_insert_eq by lia|].
          right. split; [lia|done].
    - split; [done|]. split; [by left|]. intros [|(_ & (reg & Hreg & Hcr) & _)]; [done|]. congruence. }
  destruct (IH _ Hcs Hl) as [Hl' Hp']. split; [done|]. rewrite Hp', Hp. split.
  - intros [[H|H]|(d & Hd & H)]; [by left|right; exists c; split; [left|done]|].
    right. exists d. split; [by right|done].
  - intros [H|(d & [->|Hd]%elem_of_cons & H)]; [by left; left|by left; right|right; by exists d].
Qed.

(** The regions the loop of [Classify] marks. *)
Lemma protect_all regions i :
  let prot := foldl (protect_step regions) (replicate (length regions) false) (seq 0 (length regions)) in
  length prot = length regions /\ (prot !! i = Some true <-> exists c, protects regions i c).
Proof.
  assert (Forall (fun c => (c < length regions)%nat) (seq 0 (length regions))) as Hseq.
  { apply Forall_forall. intros c Hc%elem_of_seq. lia. }
  destruct (protect_fold regions _ (replicate (length regions) false) i Hseq
    (length_replicate _ _)) as [Hl Hp]. split; [done|]. rewrite Hp. split.
  - intros [H%lookup_replicate_1|(c & _ & H)]; [by destruct H|by exists c].
  - intros (c & H). right. exists c. split; [|done]. apply elem_of_seq.
    destruct H as (_ & (reg & Hreg & _) & _). apply lookup_lt_Some in Hreg. lia.
Qed.

(** Region [i] is protected exactly when some region [c >= i] consumes the
    carry and no region strictly between them writes it: [c] itself, the region
    that writes the carry [c] consumes, and all the regions in between. *)
Theorem Classify_spec (h : Heap) (insts : list Ptr) (prot : list bool) :
  Classify h insts = Ok prot ->
  exists regions, carry_regions h insts = Ok regions /\ length prot = length regions
    /\ forall i, prot !! i = Some true <-> exists c, protects regions i c.
Proof.
  unfold Classify. intros H. apply rbind_ok in H as (regions & Hr & [= <-]). exists regions.
  split; [done|]. split; [apply (protect_all regions 0)|]. intros i. apply protect_all.
Qed.

(** The regions of the block end at its [AdvancePC]s. *)
Lemma Classify_length h insts prot : Classify h insts = Ok prot -> length prot = S (advances h insts).
Proof.
  unfold Classify. intros H. apply rbind_ok in H as (regions & Hr & [= <-]).
  destruct (protect_all regions 0) as [-> _]. by destruct (carry_regions_spec h insts regions Hr).
Qed.

(** The region of a consumer is protected. *)
Lemma consumer_protected h insts prot j p i :
  Classify h insts = Ok prot -> insts !! j = Some p -> h !! p = Some i -> consumes (i_op i) = true ->
  prot !! advances h (take j insts) = Some true.
Proof.
  unfold Classify. intros H Hj Hi Hc. apply rbind_ok in H as (regions & Hr & [= <-]).
  destruct (carry_regions_spec h insts regions Hr) as [Hl Hreg].
  destruct (Hreg j p i Hj Hi Hc) as (reg & Hlook & Hcons). apply protect_all.
  exists (advances h (take j insts)). split_and!; [lia|by exists reg|]. intros x r Hx. lia.
Qed.

(** ** An example: the carry of the second region is consumed by the last one *)

Definition regions_insts : list Ptr := [1; 2; 3; 4; 5; 6; 7]%positive.
Definition region_inst (op : OpCode) (id : Z) : Inst := mkInst op (replicate 5 AVoid) 0 id 0 ValueType_U64 None.
Definition regions_heap : Heap :=
  list_to_map (zip regions_insts (zip_with region_inst
    [OpCode_SetCarry; OpCode_AdvancePC; OpCode_SetCarry; OpCode_AdvancePC; OpCode_Add;
     OpCode_AdvancePC; OpCode_Adc] (seqZ 0 7))).

Lemma Classify_spec_witness :
  Classify regions_heap regions_insts = Ok [false; true; true; true]
  /\ exists regions, carry_regions regions_heap regions_insts = Ok regions
       /\ length [false; true; true; true] = length regions
       /\ forall i, [false; true; true; true] !! i = Some true <-> exists c, protects regions i c.
Proof.
  assert (Classify regions_heap regions_insts = Ok [false; true; true; true]) as H
    by (vm_compute; reflexivity).
  split; [exact H|]. exact (Classify_spec regions_heap regions_insts [false; true; true; true] H).
Defined.
