(* ===== verification/FlagsElimRun.v ===== *)
(** * Flags elimination preserves execution

    The optimised block does what the original does: from the same state the
    interpreter returns the same halt reason, memory and guest locations, and,
    unless a guest access faulted in the middle of the block, the same flags.
    The two executions are related by [upto] and agree, at every position, on
    the flags the walk found needed there.  The example is a block in which the pass
    narrows the flags of a subtraction and deletes a carry that the next addition overwrites. *)

From Stdlib Require Import ZArith Lia.
From stdpp Require Import numbers base gmap list.
From S2P Require Import Prelude IRTypes MachineInt Instr UseCount InterpCore InterpFlags InterpScalar InterpMemory InterpVector.
From S2P Require Import Interp InterpInvariant InterpRun FlagProps MemoryProps DeadCode DeadCodeChain DeadCodeSem Simulation BlockEdit DeadCodeRun.
From S2P Require Import FlagsElim FlagWord FlagReads FlagSim FlagsElimWalk CarryRegions.

Local Open Scope Z_scope.
Local Open Scope svm_scope.

(** ** Deleting the victims *)

Lemma delete_all vs h h' :
  chains_ok h -> five_slots h -> for_each Inst_delete vs h = Ok (tt, h') ->
  Forall (kept h) vs -> NoDup vs ->
  chains_kept h h' /\ forall q, (q ∈ vs -> h' !! q = None)
    /\ (q ∉ vs -> code <$> h' !! q = code <$> h !! q).
Proof.
  revert h. induction vs as [|p vs IH]; intros h Hc H5 H Hk Hnd; simpl in H.
  - injection H as <-. split; [by apply chains_kept_refl|]. intros q. split; [|done].
    by intros ?%not_elem_of_nil.
  - apply bind_ok in H as ([] & h1 & H1 & H). apply Forall_cons in Hk as [[i Hi] Hk].
    apply NoDup_cons in Hnd as [Hp Hnd].
    destruct (delete_same_code _ _ _ _ H1) as [Hs Hn].
    pose proof (chains_kept_delete p i h tt h1 Hc Hi (H5 p i Hi) H1) as Hck.
    assert (five_slots h1) as H51 by (by apply (slots_mutation (MDelete p) h tt h1)).
    destruct (IH h1 (ck_ok _ _ Hck) H51 H) as [Hck' Hq]; [|done|].
    { rewrite Forall_forall in *. intros q Hq. destruct (Hk q Hq) as [j Hj].
      assert (q <> p) as Hqp by (intros ->; done). specialize (Hs q Hqp). rewrite Hj in Hs.
      unfold kept. destruct (h1 !! q); [by eauto|done]. }
    split; [by eapply chains_kept_trans|]. intros q. destruct (Hq q) as [Hin Hout]. split.
    + intros [->|Hv]%elem_of_cons; [|by apply Hin]. specialize (Hout Hp). rewrite Hn in Hout.
      by destruct (h' !! p).
    + intros [Hqp Hv]%not_elem_of_cons. by rewrite Hout, (Hs q Hqp).
Qed.

(** ** Narrowing masks *)

Lemma mask_shape_cases i i' : mask_shape i i' ->
  same_head i i' /\ remasked i i' /\ GetValues i' = GetValues i /\ i_next_pseudo i' = i_next_pseudo i
  /\ length (i_args i') = length (i_args i) /\ (mask_index (i_op i) = None -> i' = i).
Proof.
  intros [->|(idx & f & m & Hm & Ha & ->)].
  - by split_and!.
  - pose proof (with_mask_remasked i idx f m Ha) as Hr. split_and!; try done.
    + split; [done|apply Hr|done|done].
    + by eapply with_mask_values.
    + apply length_insert.
    + congruence.
Qed.

Definition masks_only (h h1 : Heap) : Prop :=
  forall q, match h !! q, h1 !! q with
            | Some i, Some i' => mask_shape i i'
            | None, None => True
            | _, _ => False
            end.

Lemma masks_chains h h1 : masks_only h h1 -> chains_ok h -> chains_kept h h1.
Proof.
  intros Hm [Hinj Hps].
  assert (forall q j, h1 !! q = Some j -> exists i, h !! q = Some i /\ mask_shape i j) as Hb.
  { intros q j Hj. specialize (Hm q). rewrite Hj in Hm. destruct (h !! q); [eauto|done]. }
  assert (forall q i, h !! q = Some i -> exists j, h1 !! q = Some j /\ mask_shape i j) as Hf.
  { intros q i Hi. specialize (Hm q). rewrite Hi in Hm. destruct (h1 !! q); [eauto|done]. }
  assert (forall q, kept h q -> kept h1 q) as Hk.
  { intros q [i Hi]. destruct (Hf q i Hi) as (j & ? & _). by exists j. }
  split.
  - split.
    + intros q1 q2 j1 j2 r H1 H2 Hr1 Hr2.
      destruct (Hb q1 j1 H1) as (i1 & Hi1 & (_ & _ & _ & E1 & _)%mask_shape_cases).
      destruct (Hb q2 j2 H2) as (i2 & Hi2 & (_ & _ & _ & E2 & _)%mask_shape_cases).
      apply (Hinj q1 q2 i1 i2 r); congruence.
    + intros q j r Hq Hr. destruct (Hb q j Hq) as (i & Hi & (_ & _ & _ & E & _)%mask_shape_cases).
      destruct (Hps q i r) as (k & v & Hk0 & Hkp & Hkv); [done|congruence|].
      destruct (Hf r k Hk0) as (k' & Hk' & (Hh & _ & Hv & _)%mask_shape_cases).
      exists k', v. unfold IsPseudoOperation in *. rewrite (sh_op _ _ Hh), Hv. done.
  - intros q [j Hj]. destruct (Hb q j Hj) as (i & Hi & _). by exists i.
  - intros q j0 j l Hq0 Hq Hl.
    destruct (Hb q j Hq) as (i & Hi & (_ & _ & _ & E & _)%mask_shape_cases).
    rewrite Hq0 in Hi. injection Hi as <-. rewrite E.
    rewrite filter_kept by (eapply Forall_impl; [by eapply links_dom|exact Hk]).
    clear -Hl Hf. induction Hl as [|p i l Hp Hl IH]; [constructor|].
    destruct (Hf p i Hp) as (j & Hj & (_ & _ & _ & E & _)%mask_shape_cases).
    econstructor; [done|]. by rewrite E.
Qed.

(** A heap simulates itself. *)
Lemma whole_sim ext h : ir_ok ext h -> chains_ok h -> heap_sim h h (kept h) (kept h) (fun _ => True).
Proof.
  intros Hir Hch.
  assert (forall p i v d, h !! p = Some i -> v ∈ GetValues i -> v_inst v = Some d -> kept h d) as Hcl
    by apply (ir_closed _ _ Hir).
  split.
  - intros p [i Hi]. by exists i, i.
  - by intros p Hp.
  - intros p i v d _. apply Hcl.
  - intros p i v d _ Hi _ Hv Hd. eapply Hcl; [done|by eapply GetArg_Value_in|done].
  - intros p op ps Hp Hps _. exists ps. split; [done|]. left. split; [done|].
    pose proof (GetPseudoOperations_kept h h p op ps (chains_kept_refl _ Hch)) as Hk.
    assert (ps = filter (kept h) ps) as ->.
    { rewrite Hk in Hps by (try done; intros q j Hj; by exists j). by injection Hps. }
    apply Forall_forall. by intros q [? _]%list_elem_of_filter.
Qed.

(** ** The blocks the theorem is about *)

Definition flag_writer (op : OpCode) : bool :=
  match op with
  | OpCode_SaveFlags | OpCode_BranchOnlyFlags | OpCode_ClearFlags | OpCode_SetCarry
  | OpCode_SetOverflow | OpCode_InvertCarry | OpCode_PublishFCmpFlags
  | OpCode_PublishSse42StrFlags => true
  | _ => false
  end.

(** A [SaveFlags] writes every flag of its mask; when it saves the flags of an
    Adc or Sbb, it is in the same carry region. *)
Definition saves_ok (h : Heap) (l : list Ptr) (k : nat) (i : Inst) : Prop :=
  forall f v d j, GetArg_Flags i 1 = Ok f -> GetArg_Value i 0 = Ok v -> v_inst v = Some d ->
    h !! d = Some j ->
    if consumes (i_op j) then exists m, l !! m = Some d /\ advances h (take m l) = advances h (take k l)
    else save_complete j f = true.

(** The flag writes of a block as a front end emits them: no branch-only
    rewrites yet, no instruction or terminal uses the (void) result of a flag
    write, a label is bound once. *)
Record flags_ok (h : Heap) (b : Block) : Prop := mk_flags_ok {
  fo_plain : forall p i, h !! p = Some i -> i_op i <> OpCode_BranchOnlyFlags;
  fo_unused : forall q j v d i, h !! q = Some j -> v ∈ GetValues j -> v_inst v = Some d ->
    h !! d = Some i -> flag_writer (i_op i) = false;
  fo_terminal : forall v d i, v ∈ term_values (b_terminal b) -> v_inst v = Some d ->
    h !! d = Some i -> flag_writer (i_op i) = false;
  fo_saves : forall k p i, b_insts b !! k = Some p -> h !! p = Some i ->
    i_op i = OpCode_SaveFlags -> saves_ok h (b_insts b) k i;
  fo_labels : forall p j k q r, b_insts b !! j = Some q -> b_insts b !! k = Some r ->
    binds h p q -> binds h p r -> j = k
}.

(** A host function that looks at neither the value slots nor the guest flags,
    stops the block only by a page fault and keeps the machine state well
    formed. *)
Record host_call_ok (D : gset Z) (n : nat) {A} (m : M A) : Prop := mk_host_call_ok {
  hc_slots : ignores_slots m;
  hc_flags : freads Flags_None m;
  hc_keeps : keeps D n trivial_post m
}.

Section Run.
Context (features : FeatureSet) (live_out : Z) (prot : option (list bool)) (region : nat).
Context (h h1 h' : Heap) (b : Block) (w : Walk) (ext : Ptr -> Z).

Abbreviation l := (b_insts b).
Abbreviation w0 := (mkWalk live_out ∅ [] region false).
Abbreviation alive := (kept h').
Abbreviation pos := (kept_slot h h').
Abbreviation N k := (needed_before features prot h w0 (drop k l)).

Context (Hok : block_ok ext h b) (Hfl : flags_ok h b).
Context (Hwalk : elim_walk features prot l w0 h = Ok (w, h1)).
Context (Hdel : for_each Inst_delete (w_victims w) h1 = Ok (tt, h')).
(** Nothing but the known successors reads the flags the block leaves. *)
Context (Hlo : live_out = Flags_All \/ snd (CollectTerminalTargets (b_terminal b)) = false).
(** The regions are those of the block. *)
Context (Hprot : match prot with
                 | Some r => Classify h l = Ok r /\ region = pred (length r)
                 | None => has_carry_consumer h l = false
                 end).

Lemma insts_ok : block_insts_ok h l.
Proof.
  split; [apply Hok|]. apply Forall_forall. intros p Hp. apply (bo_insts _ _ _ Hok) in Hp as [i Hi].
  exists i. split; [done|by eapply fo_plain].
Qed.

Lemma pass_walked : walked features prot h w0 l w h1.
Proof. by apply walk_walked; [..|apply insts_ok|exact Hwalk]. Qed.

Lemma pass_masks : masks_only h h1.
Proof.
  intros q. destruct pass_walked as [Hrest _ _ _ Hver _]. destruct (decide (q ∈ l)) as [Hq|Hq].
  - apply list_elem_of_lookup_1 in Hq as [k Hk].
    destruct (Hver k q Hk) as (i & i' & dead & -> & -> & Hs & _). done.
  - rewrite (Hrest q Hq). destruct (h !! q); [by left|done].
Qed.

Lemma pass_slots : five_slots h1.
Proof.
  intros q i' Hi'. pose proof (pass_masks q) as Hm. rewrite Hi' in Hm.
  destruct (h !! q) as [i|] eqn:Hi; [|done].
  apply mask_shape_cases in Hm as (_ & _ & _ & _ & -> & _).
  apply (ir_slots _ _ (bo_ir _ _ _ Hok) q i Hi).
Qed.

Lemma pass_deleted :
  chains_kept h1 h' /\ forall q, (q ∈ w_victims w -> h' !! q = None)
    /\ (q ∉ w_victims w -> code <$> h' !! q = code <$> h1 !! q).
Proof.
  pose proof pass_walked as [_ Hv Hnd _ Hver _].
  apply (delete_all (w_victims w) h1 h'); [|apply pass_slots|exact Hdel| |exact Hnd].
  - apply (ck_ok h), masks_chains; [apply pass_masks|apply Hok].
  - apply Forall_forall. intros q Hq. apply Hv, list_elem_of_lookup_1 in Hq as [k Hk].
    destruct (Hver k q Hk) as (i & i' & dead & _ & Hi' & _). by exists i'.
Qed.

Lemma alive_victim p : p ∈ l -> alive p <-> p ∉ w_victims w.
Proof.
  intros Hp. destruct pass_deleted as [_ Hq]. destruct (Hq p) as [Hin Hout]. split.
  - intros [i Hi] Hv. rewrite Hin in Hi by done. done.
  - intros Hv. apply list_elem_of_lookup_1 in Hp as [k Hk].
    destruct pass_walked as [_ _ _ _ Hver _].
    destruct (Hver k p Hk) as (i & i' & dead & _ & Hi' & _). specialize (Hout Hv).
    rewrite Hi' in Hout. unfold kept. destruct (h' !! p); [by eauto|done].
Qed.

Lemma new_list : erase (w_victims w) l = filter alive l.
Proof.
  unfold erase. apply filter_agree, Forall_forall. intros p Hp. symmetry. by apply alive_victim.
Qed.

(** An instruction that is kept: what it was and what the walk made of it. *)
Lemma alive_inst p i'' : h' !! p = Some i'' ->
  exists i i', h !! p = Some i /\ h1 !! p = Some i' /\ code i'' = code i' /\ mask_shape i i'.
Proof.
  intros H. destruct pass_deleted as [_ Hq]. destruct (Hq p) as [Hin Hout].
  assert (p ∉ w_victims w) as Hv by (intros Hv; rewrite Hin in H; done).
  specialize (Hout Hv). rewrite H in Hout. pose proof (pass_masks p) as Hm.
  destruct (h1 !! p) as [i'|] eqn:Hi'; [|done]. destruct (h !! p) as [i|] eqn:Hi; [|done].
  injection Hout as Hc. exists i, i'. split_and!; try done. unfold code. congruence.
Qed.

Lemma flags_heads : heads_kept h h'.
Proof.
  intros p i'' H. destruct (alive_inst p i'' H) as (i & i' & Hi & _ & Hc & Hs). exists i. split; [done|].
  apply mask_shape_cases in Hs as (Hh & _). apply code_head in Hc.
  split; [by rewrite (sh_op _ _ Hc), (sh_op _ _ Hh)|by rewrite (sh_arg0 _ _ Hc), (sh_arg0 _ _ Hh)|
    by rewrite (sh_id _ _ Hc), (sh_id _ _ Hh)|by rewrite (sh_ret _ _ Hc), (sh_ret _ _ Hh)].
Qed.

(** Only flag writers are deleted or narrowed. *)
Lemma plain_full p i : h !! p = Some i -> flag_writer (i_op i) = false ->
  alive p /\ code <$> h !! p = code <$> h' !! p.
Proof.
  intros Hi Hw. assert (p ∈ l) as Hp by (apply (bo_insts _ _ _ Hok); by exists i).
  assert (p ∉ w_victims w) as Hv.
  { apply list_elem_of_lookup_1 in Hp as [k Hk]. destruct pass_walked as [_ _ _ _ Hver _].
    destruct (Hver k p Hk) as (j & j' & dead & Hj & _ & _ & Hvd & Hd & _). rewrite Hi in Hj.
    injection Hj as <-. rewrite Hd. intros ->. inversion Hvd as [| | | |f Hf|Hop]; subst.
    - unfold writer_flags in Hf. destruct (i_op i); done.
    - by rewrite Hop in Hw. }
  assert (alive p) as Ha by (by apply alive_victim). split; [done|].
  destruct Ha as [i'' Hi'']. destruct (alive_inst p i'' Hi'') as (j & i' & Hj & _ & Hc & Hs).
  rewrite Hi in Hj. injection Hj as <-. apply mask_shape_cases in Hs as (_ & _ & _ & _ & _ & Hsame).
  rewrite Hi, Hi''. simpl. f_equal. rewrite Hc, Hsame; [done|]. by destruct (i_op i).
Qed.

Definition full (p : Ptr) : Prop := alive p /\ code <$> h !! p = code <$> h' !! p.

Lemma value_full p i v d : h !! p = Some i -> v ∈ GetValues i -> v_inst v = Some d -> full d.
Proof.
  intros Hi Hv Hd. destruct (ir_closed _ _ (bo_ir _ _ _ Hok) p i v d Hi Hv Hd) as [j Hj].
  apply (plain_full d j Hj). by eapply (fo_unused _ _ Hfl p i v d j).
Qed.

Lemma value_live p i v : h !! p = Some i -> v ∈ GetValues i -> live alive v.
Proof. intros Hi Hv d Hd. by apply (value_full p i v d). Qed.

Lemma flags_sim : heap_sim h h' alive full pos.
Proof.
  split.
  - intros p [i'' Hi'']. destruct (flags_heads p i'' Hi'') as (i & Hi & Hh).
    exists i, i''. split_and!; [done|done|by rewrite (sh_id _ _ Hh)|by rewrite (sh_ret _ _ Hh)|..];
      exists p, i; (split; [by exists i''|split; [done|]]); [by left|by right].
  - by intros p [].
  - intros p i v d _ Hi Hv Hd. by apply (value_full p i v d).
  - intros p i v d _ Hi _ Hv Hd. eapply value_full; [done|by eapply GetArg_Value_in|done].
  - intros p op ps [Hp _] Hps Hlen.
    assert (chains_kept h h') as Hck.
    { eapply chains_kept_trans; [|apply pass_deleted]. apply masks_chains; [apply pass_masks|apply Hok]. }
    exists (filter alive ps). split; [by eapply GetPseudoOperations_kept, Hps; [|apply flags_heads|]|].
    destruct ps as [|q [|]]; simpl in Hlen; [by left| |lia].
    destruct (decide (alive q)) as [Hq|Hq].
    + left. rewrite filter_cons_True by done. split; [done|]. by constructor.
    + right. rewrite filter_cons_False by done. split; [done|].
      intros r i ->%list_elem_of_singleton Hi k Hk (p2 & i2 & Hp2 & Hi2 & Hk2). apply Hq.
      by rewrite (bo_slots _ _ _ Hok q p2 i i2 Hi Hi2 (slots_disjoint _ _ _ Hk Hk2)).
Qed.

(** ** Positions *)

Lemma code_remasked i j : code i = code j -> remasked j i.
Proof. intros H. injection H as Ho Ha _ _ _. by split; [|intros k; unfold GetArg_Value, GetArg_Imm,
  get_slot, PublicIndex, ArgAt; rewrite Ho, Ha..]. Qed.

Lemma code_writer i j : code i = code j -> writer_flags i = writer_flags j.
Proof.
  intros H. injection H as Ho Ha _ _ _. unfold writer_flags, GetArg_Flags, get_slot, PublicIndex, ArgAt.
  by rewrite Ho, Ha.
Qed.

Lemma remasked_trans i j k : remasked i j -> remasked j k -> remasked i k.
Proof. intros [] []. split; intros; congruence. Qed.

(** A save that does not depend on the flags. *)
Definition saves_free (i : Inst) (f : Z) : Prop := forall fl fl', saves_well h full i f fl fl'.

(** What became of a kept instruction. *)
Inductive outcome (k : nat) (i i'' : Inst) : Prop :=
| O_exact : N k = Flags_All -> code i'' = code i -> outcome k i i''
| O_read r : code i'' = code i -> flag_reads i = Some r -> fsub r (N k) -> fsub (N (S k)) (N k) ->
    outcome k i i''
| O_write f f' : remasked i i'' -> writer_flags i = Some f -> writer_flags i'' = Some f' ->
    fsub f' f -> fsub (Z.land f (N (S k))) f' -> fsub (Z.ldiff (N (S k)) f') (N k) ->
    saves_free i f -> outcome k i i''
| O_invert : code i'' = code i -> i_op i = OpCode_InvertCarry -> fsub (N (S k)) (N k) ->
    outcome k i i''.

Lemma region_take k : prot <> None -> region_before h w0 (drop k l) = advances h (take k l).
Proof.
  intros Hp. unfold region_before. simpl. destruct prot as [r|]; [|done].
  destruct Hprot as [Hc ->]. 
  rewrite (Classify_length h l r Hc).
  assert (advances h l = advances h (take k l) + advances h (drop k l))%nat as ->; [|simpl; lia].
  unfold advances. rewrite <- length_app, <- list.filter_app. by rewrite take_drop.
Qed.

(** What a save saves, unless its region is protected. *)
Lemma saves_position k p i f :
  l !! k = Some p -> h !! p = Some i -> GetArg_Flags i 1 = Ok f ->
  saves_free i f \/ exists r, prot = Some r /\ r !! region_before h w0 (drop k l) = Some true.
Proof.
  intros Hk Hi Hf. destruct (decide (i_op i = OpCode_SaveFlags)) as [Hop|Hop]; [|by left; intros fl fl' ?].
  destruct (GetArg_Value i 0) as [v|] eqn:Hv; [|left; intros fl fl' _ v d; congruence].
  destruct (v_inst v) as [d|] eqn:Hd; [|left; intros fl fl' _ u d; congruence].
  pose proof (GetArg_Value_in _ _ _ Hv) as Hin.
  destruct (ir_closed _ _ (bo_ir _ _ _ Hok) p i v d Hi Hin Hd) as [j Hj].
  pose proof (fo_saves _ _ Hfl k p i Hk Hi Hop f v d j Hf Hv Hd Hj) as Hs.
  destruct (consumes (i_op j)) eqn:Ec.
  - right. destruct Hs as (m & Hm & Ha). pose proof (region_take k) as HR. rewrite <- Ha in HR.
    pose proof Hprot as HP. clear Hok Hfl Hwalk Hprot. destruct prot as [r|].
    + exists r. split; [done|]. rewrite HR by done.
      destruct HP as [Hc _]. by apply (consumer_protected h l r m d j).
    + exfalso. unfold has_carry_consumer in HP. apply not_true_iff_false in HP. apply HP.
      apply existsb_exists. exists d. split; [by apply list_elem_of_In; eapply list_elem_of_lookup_2|].
      unfold ptr_op. by rewrite Hj.
  - left. intros fl fl' _ v' d' Hv' Hd'. rewrite Hv in Hv'. injection Hv' as <-. rewrite Hd in Hd'.
    injection Hd' as <-. split; [by apply (value_full p i v d)|]. exists j. by split_and!; [|left|].
Qed.

Lemma writer_mask1 i f : writer_flags i = Some f -> i_op i = OpCode_SaveFlags -> GetArg_Flags i 1 = Ok f.
Proof. unfold writer_flags. intros H E. rewrite E in H. by destruct (GetArg_Flags i 1); [injection H as ->|]. Qed.

Lemma position k p : l !! k = Some p -> exists i i' dead,
  h !! p = Some i /\ h1 !! p = Some i' /\ verdict i i' (N k) (N (S k)) dead
  /\ (alive p <-> dead = false)
  /\ ((i' = i /\ N k = Flags_All /\ dead = false) \/
      forall f, writer_flags i = Some f -> saves_free i f).
Proof.
  intros Hk. destruct pass_walked as [_ _ _ _ Hver _].
  destruct (Hver k p Hk) as (i & i' & dead & Hi & Hi' & _ & Hvd & Hd & Hex).
  exists i, i', dead. split_and!; try done.
  - rewrite alive_victim, Hd by (by eapply list_elem_of_lookup_2). by destruct dead.
  - destruct (decide (i_op i = OpCode_SaveFlags)) as [Hop|Hop]; [|by right; intros f _ fl fl' ?].
    destruct (GetArg_Flags i 1) as [f|] eqn:Hf.
    + destruct (saves_position k p i f Hk Hi Hf) as [Hs|(r & Hr & Hb)].
      * right. intros g Hg. apply writer_mask1 in Hg; [|done]. by assert (g = f) as -> by congruence.
      * left. by apply (Hex r).
    + right. intros g Hg. apply writer_mask1 in Hg; congruence.
Qed.

Lemma kept_outcome k p : l !! k = Some p -> alive p ->
  exists i i'', h !! p = Some i /\ h' !! p = Some i'' /\ outcome k i i''.
Proof.
  intros Hk Ha. destruct (position k p Hk) as (i & i' & dead & Hi & Hi' & Hvd & Hd & Hs).
  apply Hd in Ha as E. subst dead. destruct Ha as [i'' Hi''].
  destruct (alive_inst p i'' Hi'') as (j & j' & Hj & Hj' & Hc & _).
  rewrite Hi in Hj. injection Hj as <-. rewrite Hi' in Hj'. injection Hj' as <-.
  exists i, i''. split_and!; [done..|]. destruct Hs as [(-> & Hn & _)|Hs]; [by apply O_exact|].
  inversion Hvd as [E1 E2|r E1 E2 E3 E4|f f' E1 E2 E3 E4 E5 E6|E1 E2 E3| |]; subst.
  - by apply O_exact.
  - by apply (O_read _ _ _ r).
  - apply (O_write _ _ _ f f'); try done.
    + by eapply remasked_trans, code_remasked.
    + by rewrite (code_writer i'' i').
    + by apply Hs.
  - by apply O_invert.
Qed.

Inductive lost (k : nat) (i : Inst) : Prop :=
| L_write f : writer_flags i = Some f -> Z.land f (N (S k)) = 0 -> fsub (N (S k)) (N k) ->
    saves_free i f -> lost k i
| L_invert : i_op i = OpCode_InvertCarry -> Z.testbit (N (S k)) 0 = false -> fsub (N (S k)) (N k) ->
    lost k i.

Lemma dead_lost k p : l !! k = Some p -> ~ alive p -> exists i, h !! p = Some i /\ lost k i.
Proof.
  intros Hk Ha. destruct (position k p Hk) as (i & i' & dead & Hi & Hi' & Hvd & Hd & Hs).
  exists i. split; [done|]. destruct dead; [|by destruct Ha; apply Hd].
  destruct Hs as [(_ & _ & [=])|Hs].
  inversion Hvd; [eapply L_write; try done; by apply Hs|by apply L_invert].
Qed.

Lemma exact_full p i i'' : h !! p = Some i -> h' !! p = Some i'' -> code i'' = code i -> full p.
Proof. intros Hi Hi'' Hc. split; [by exists i''|]. rewrite Hi, Hi''. simpl. by f_equal. Qed.

(** ** The two executions *)

Context (cfg : IConfig) (host_fn : Z -> list Z -> M Z)
  (host_pair_fn : Z -> Z -> Z -> Z -> M (Z * Z)) (D : gset Z) (n : nat).
Hypothesis Hhost : forall a x, host_call_ok D n (host_fn a x).
Hypothesis Hpair : forall a x y z, host_call_ok D n (host_pair_fn a x y z).

Abbreviation run := (run_inst h cfg host_fn host_pair_fn).
Abbreviation run' := (run_inst h' cfg host_fn host_pair_fn).

(** At position [k] the two states differ in dead slots and unneeded flags. *)
Definition flags_rel (k : nat) (s s' : IState) : Prop :=
  state_ok D n s /\ upto pos s s' /\ agree (N k) (s_flags s) (s_flags s').

Definition flags_final (r : HaltReason) (s s' : IState) : Prop :=
  upto pos s s' /\ (r = HaltReason_PageFatal \/ agree live_out (s_flags s) (s_flags s')).

Lemma host_freads R a x : freads R (host_fn a x).
Proof. intros s u s1 y H Hy. apply (hc_flags _ _ _ (Hhost a x) s u s1 y H). eapply agree_mono, Hy.
  intros j. by rewrite Z.bits_0. Qed.
Lemma pair_freads R a x y z : freads R (host_pair_fn a x y z).
Proof. intros s u s1 w' H Hy. apply (hc_flags _ _ _ (Hpair a x y z) s u s1 w' H). eapply agree_mono, Hy.
  intros j. by rewrite Z.bits_0. Qed.

Lemma run_state_ok p s s1 : state_ok D n s -> run p s = Ok (tt, s1) -> state_ok D n s1.
Proof.
  intros Hs H. by eapply (keeps_run_inst D n h cfg host_fn host_pair_fn
    (fun a x => hc_keeps _ _ _ (Hhost a x)) (fun a x y z => hc_keeps _ _ _ (Hpair a x y z)) p s tt s1).
Qed.

Lemma full_sim p : full p -> sim pos trivial_post (run p) (run' p).
Proof.
  intros Hp. apply (sim_run_inst h h' alive full pos flags_sim); [..|done]; intros;
    apply ignores_slots_sim; [apply Hhost|apply Hpair].
Qed.

Lemma upto_flags s s' p : upto p s s' -> state_rel p (set_flags (s_flags s') s) s'.
Proof.
  intros H. apply (upto_set_flags _ _ _ (s_flags s') (s_flags s')) in H.
  rewrite (set_flags_self s') in H. by apply upto_eq.
Qed.

Lemma rel_upto_flags s s' p y : state_rel p (set_flags y s) s' -> upto p s s'.
Proof.
  intros H%state_rel_upto. apply (upto_set_flags _ _ _ (s_flags s) (s_flags s')) in H.
  by rewrite set_flags_twice, !set_flags_self in H.
Qed.

(** A kept instruction that reads only flags on which the states agree. *)
Lemma read_step p i r s s' s1 :
  full p -> h !! p = Some i -> flag_reads i = Some r -> agree r (s_flags s) (s_flags s') -> upto pos s s' ->
  run p s = Ok (tt, s1) ->
  exists s1', run' p s' = Ok (tt, s1') /\ upto pos s1 s1' /\ s_flags s1 = s_flags s
    /\ s_flags s1' = s_flags s' /\ halts_by_fault s s1.
Proof.
  intros Hp Hi Hr Ha Hu H.
  destruct (freads_run_inst h cfg host_fn host_pair_fn r (host_freads r) (pair_freads r) p i Hi r Hr
    (fsub_refl r) s tt s1 (s_flags s') H Ha) as (E & Hh & H').
  destruct (full_sim p Hp _ _ tt _ (upto_flags _ _ _ Hu) H') as (s1' & H1' & _ & Hs1).
  exists s1'. split_and!; try done.
  - by apply rel_upto_flags in Hs1.
  - by apply (rel_flags _ _ _ Hs1).
Qed.

(** An exact position: the states are equal but for dead slots. *)
Lemma exact_step p s s' s1 :
  full p -> upto pos s s' -> s_flags s' = s_flags s -> run p s = Ok (tt, s1) ->
  exists s1', run' p s' = Ok (tt, s1') /\ upto pos s1 s1' /\ s_flags s1' = s_flags s1.
Proof.
  intros Hp Hu E H. destruct (full_sim p Hp s s' tt s1 (upto_eq _ _ _ Hu E) H) as (s1' & H' & _ & Hs).
  exists s1'. split_and!; [done|by apply state_rel_upto|by apply rel_flags in Hs].
Qed.

Lemma invert_step (g : Heap) p i s :
  g !! p = Some i -> i_op i = OpCode_InvertCarry ->
  run_inst g cfg host_fn host_pair_fn p s
  = Ok (tt, set_flags (Z.lxor (s_flags s) (bit64 kHostFlagC)) s).
Proof.
  intros Hi Hop. unfold run_inst. erewrite bind_run by (apply lift_run; unfold deref; by rewrite Hi).
  by rewrite Hop.
Qed.

Lemma upto_halt s s' : upto pos s s' -> s_halt s' = s_halt s.
Proof. intros H. apply (rel_halt _ _ _ H). Qed.

Lemma rel_words k s s' : flags_rel k s s' -> is_word (s_flags s) /\ is_word (s_flags s').
Proof.
  intros (Hs & _ & Ha). pose proof (ok_flags _ _ _ Hs). split; [done|]. by eapply agree_word.
Qed.

Lemma inst_live p i v : h !! p = Some i -> v ∈ GetValues i -> live alive v.
Proof. apply value_live. Qed.

Lemma kept_step k p i i'' s s' s1 :
  h !! p = Some i -> h' !! p = Some i'' -> outcome k i i'' -> flags_rel k s s' ->
  run p s = Ok (tt, s1) ->
  exists s1', run' p s' = Ok (tt, s1') /\ upto pos s1 s1'
    /\ (s_flags s1' = s_flags s1 \/ (agree (N (S k)) (s_flags s1) (s_flags s1') /\ halts_by_fault s s1)).
Proof.
  intros Hi Hi'' Ho Hrel H. destruct (rel_words k s s' Hrel) as [Hw Hw']. destruct Hrel as (Hs & Hu & Ha).
  destruct Ho as [En Hc|r Hc Hr Hrn Hn|f f' Hrm Hf Hf' Hsub Hl Hd Hsave|Hc Hop Hn].
  - rewrite En in Ha. apply agree_all in Ha.
    destruct (exact_step p s s' s1 (exact_full p i i'' Hi Hi'' Hc) Hu (eq_sym Ha) H) as (s1' & ? & ? & ?).
    exists s1'. auto.
  - destruct (read_step p i r s s' s1 (exact_full p i i'' Hi Hi'' Hc) Hi Hr
      (agree_mono _ _ _ _ Hrn Ha) Hu H) as (s1' & H' & Hu1 & E1 & E2 & Hh).
    exists s1'. split_and!; [done..|]. right. rewrite E1, E2. split; [by eapply agree_mono|done].
  - destruct (sim_writer h h' alive full pos flags_sim cfg host_fn host_pair_fn p i i'' f f' s s' s1)
      as (v & x1 & y1 & -> & Hx & H' & Hy); try done.
    { intros v. by apply (inst_live p i). }
    exists (set_flags y1 s'). split_and!; [done|by apply upto_set_flags|]. right.
    split; [by eapply assigned_agree|by left].
  - rewrite (invert_step h p i s Hi Hop) in H. injection H as <-.
    injection Hc as Hop' _ _ _ _. exists (set_flags (Z.lxor (s_flags s') (bit64 kHostFlagC)) s').
    split_and!; [apply (invert_step h' p i'' s' Hi''); congruence|by apply upto_set_flags|]. right.
    split; [|by left]. apply invert_carry_agree. by eapply agree_mono.
Qed.

(** A deleted one changes unneeded flags only. *)
Lemma dead_step k p i s s' s1 :
  h !! p = Some i -> lost k i -> flags_rel k s s' -> run p s = Ok (tt, s1) ->
  s_halt s1 = s_halt s /\ flags_rel (S k) s1 s'.
Proof.
  intros Hi Hl Hrel H. destruct (rel_words k s s' Hrel) as [Hw Hw']. destruct Hrel as (Hs & Hu & Ha).
  pose proof (run_state_ok p s s1 Hs H) as Hs1.
  assert (exists x1, s1 = set_flags x1 s /\ agree (N (S k)) x1 (s_flags s')) as (x1 & -> & Ha1).
  { destruct Hl as [f Hf Hz Hn Hsave|Hop Hz Hn].
    - destruct (sim_writer h h (kept h) (kept h) (fun _ => True)
        (whole_sim ext h (bo_ir _ _ _ Hok) (bo_chains _ _ _ Hok)) cfg host_fn host_pair_fn
        p i i f f s s s1) as (v & x1 & y1 & -> & Hx & _); try done.
      + intros v Hv d Hd. by eapply (ir_closed _ _ (bo_ir _ _ _ Hok) p i v d).
      + apply fsub_refl.
      + intros Hop v d Hv Hd. destruct (Hsave (s_flags s) (s_flags s) Hop v d Hv Hd) as (_ & j & Hj & Hrest).
        split; [by exists j|by exists j].
      + exists x1. split; [done|]. by eapply assigned_dead.
    - rewrite (invert_step h p i s Hi Hop) in H. injection H as <-.
      eexists. split; [reflexivity|]. apply invert_carry_dead; [by eapply agree_mono|done]. }
  split; [done|]. split_and!; [done| |done].
  rewrite <- (set_flags_self s'). by apply upto_set_flags.
Qed.

(** *** Jumps and the end of the block *)

Lemma jump_flag_reads i : jumps (i_op i) = true -> flag_reads i = Some Flags_None /\ writer_flags i = None
  /\ i_op i <> OpCode_InvertCarry.
Proof. unfold jumps, flag_reads, writer_flags. by destruct (i_op i). Qed.

Lemma jump_alive k p i : l !! k = Some p -> h !! p = Some i -> jumps (i_op i) = true -> alive p.
Proof.
  intros Hk Hi Hj. destruct (decide (alive p)) as [|Hn]; [done|].
  destruct (dead_lost k p Hk Hn) as (i0 & Hi0 & Hl). rewrite Hi in Hi0. injection Hi0 as <-.
  destruct (jump_flag_reads i Hj) as (_ & Hw & Hinv). destruct Hl; congruence.
Qed.

Lemma jump_step k p i s s' :
  l !! k = Some p -> h !! p = Some i -> jumps (i_op i) = true -> flags_rel k s s' ->
  flags_rel (S k) s s'.
Proof.
  intros Hk Hi Hj (Hs & Hu & Ha). split_and!; [done..|].
  destruct (kept_outcome k p Hk (jump_alive k p i Hk Hi Hj)) as (i0 & i'' & Hi0 & Hi'' & Ho).
  rewrite Hi in Hi0. injection Hi0 as <-. destruct (jump_flag_reads i Hj) as (_ & Hw & Hinv).
  destruct Ho as [En _|r _ _ _ Hn|f f' _ Hf _ _ _ _ _|_ Hop _]; [|by eapply agree_mono|congruence..].
  rewrite En in Ha. apply agree_all in Ha. rewrite Ha. apply agree_refl.
Qed.

Lemma jump_lands labels k p i m s s' :
  collect_labels h l = Ok labels -> l !! k = Some p -> h !! p = Some i -> jumps (i_op i) = true ->
  find_label labels p = Some m -> flags_rel k s s' -> flags_rel (S m) s s'.
Proof.
  intros Hl Hk Hi Hj Hm (Hs & Hu & Ha). split_and!; [done..|].
  apply find_label_in in Hm. apply collect_labels_sound in Hl. rewrite Forall_forall in Hl.
  destruct (Hl _ Hm) as (q & j & v & Hq & Hjq & Hop & Hv & Hd). simpl in *.
  destruct (walk_jump features prot h w0 eq_refl eq_refl eq_refl l w h1 k p i m q insts_ok Hwalk) as [Hn|Hn];
    try done.
  - intros j1 j2 q1 q2 H1 H2 Hb1 Hb2. by eapply (fo_labels _ _ Hfl p).
  - unfold jumps in Hj. destruct (op_eqb_spec (i_op i) OpCode_Goto); [by left|right].
    by destruct (op_eqb_spec (i_op i) OpCode_NotGoto).
  - by exists j, v.
  - by eapply agree_mono.
  - assert (s_flags s = s_flags s') as ->; [|apply agree_refl]. apply agree_all. by eapply agree_mono.
Qed.

Lemma flags_terminal_live v : v ∈ term_values (b_terminal b) -> live alive v.
Proof.
  intros Hv d Hd. destruct (bo_terminal _ _ _ Hok v d Hv Hd) as [[j Hj] _].
  apply (plain_full d j Hj). by eapply (fo_terminal _ _ Hfl v d j).
Qed.

Lemma needed_at_end k : l !! k = None -> N k = live_out.
Proof. intros Hk. apply lookup_ge_None in Hk. by rewrite drop_ge by done. Qed.

Lemma terminal_step k s s' r s1 :
  l !! k = None -> flags_rel k s s' -> RunTerminal h (b_terminal b) s = Ok (r, s1) ->
  exists s1', RunTerminal h' (b_terminal b) s' = Ok (r, s1') /\ flags_final r s1 s1'.
Proof.
  intros Hk (Hs & Hu & Ha) H. rewrite (needed_at_end k Hk) in Ha.
  pose proof (sim_terminal _ _ _ _ _ flags_sim _ flags_terminal_live) as Hsim. destruct Hlo as [Hall|Hblind].
  - rewrite Hall in Ha. apply agree_all in Ha.
    destruct (Hsim s s' r s1 (upto_eq _ _ _ Hu (eq_sym Ha)) H) as (s1' & H' & _ & Hs1). exists s1'.
    split; [done|]. split; [by apply state_rel_upto|]. right. rewrite (rel_flags _ _ _ Hs1).
    apply agree_refl.
  - destruct (terminal_blind h _ s r s1 (s_flags s') Hblind H) as [E H1].
    destruct (Hsim _ s' r _ (upto_flags _ _ _ Hu) H1) as (s1' & H' & _ & Hs1).
    exists s1'. split; [done|]. split; [by apply rel_upto_flags in Hs1|]. right.
    rewrite (rel_flags _ _ _ Hs1). simpl. by rewrite E.
Qed.

(** ** The block loop *)

Lemma flags_bind p i : p ∈ l -> h !! p = Some i -> i_op i = OpCode_BindLabel -> alive p.
Proof. intros _ Hi E. apply (plain_full p i Hi). by rewrite E. Qed.

Lemma flags_in p : p ∈ l -> kept h p.
Proof. apply (bo_insts _ _ _ Hok). Qed.

Lemma flags_loop labels fuel k s s' r s1 :
  collect_labels h l = Ok labels -> flags_rel k s s' -> s_halt s = HaltReason_None ->
  run_loop h cfg host_fn host_pair_fn fuel labels b k s = Some (Ok (r, s1)) ->
  exists s1', run_loop h' cfg host_fn host_pair_fn fuel (new_label h' l <$> labels)
      (mkBlock (filter alive l) (b_terminal b)) (new_pos h' l k) s' = Some (Ok (r, s1'))
    /\ flags_final r s1 s1'.
Proof.
  intros Hl Hs Hh H.
  eapply (edit_loop h h' l flags_heads flags_bind cfg host_fn host_pair_fn (b_terminal b) labels
    flags_rel flags_final Hl); [..|exact Hs|exact Hh|by destruct b].
  - intros m p i u u' u1 Hm Hp Hi _ Hu Hu0 Hr.
    destruct (kept_outcome m p Hm Hp) as (i0 & i'' & Hi0 & Hi'' & Ho).
    rewrite Hi in Hi0. injection Hi0 as <-.
    destruct (kept_step m p i i'' u u' u1 Hi Hi'' Ho Hu Hr) as (u1' & Hr' & Hu1 & Hfin).
    exists u1'. split_and!; [done|by apply upto_halt| |].
    + intros _. split_and!; [by eapply run_state_ok; [apply Hu|exact Hr]|done|].
      destruct Hfin as [-> | []]; [apply agree_refl|done].
    + intros Hne. split; [done|]. destruct Hfin as [E|[_ [E|E]]]; [right; rewrite E; apply agree_refl|congruence|by left].
  - intros m p i u u' u1 Hm Hp Hi _ Hu Hu0 Hr.
    destruct (dead_lost m p Hm Hp) as (i0 & Hi0 & Hlost). rewrite Hi in Hi0. injection Hi0 as <-.
    destruct (dead_step m p i u u' u1 Hi Hlost Hu Hr) as [E ?]. split; [congruence|done].
  - intros m p i v x u u' _ Hp Hi _ (_ & Hu & _) Hv Hx.
    eapply read_pair; [|apply stack_read_ReadScalar..|exact Hu|exact Hx].
    eapply sim_ReadScalar; [apply flags_sim|]. by eapply value_live; [|eapply GetArg_Value_in].
  - intros m p i u u' Hm Hi Hj Hu. by eapply jump_step.
  - intros m p i m' u u' Hm _ Hi Hj Hlab Hu. by eapply jump_lands.
  - intros m p i Hm Hp Hi Hj. by destruct Hp; eapply jump_alive.
  - intros m u u' r0 u1 Hm Hu Ht. by eapply terminal_step.
Qed.

Lemma flags_block fuel s r s1 :
  n = slot_count h b -> entry_ok s -> D = dom (s_mem s) -> s_halt s = HaltReason_None ->
  run_block h cfg host_fn host_pair_fn fuel b s = Some (Ok (r, s1)) ->
  exists s1', run_block h' cfg host_fn host_pair_fn fuel
      (mkBlock (erase (w_victims w) l) (b_terminal b)) s = Some (Ok (r, s1'))
    /\ flags_final r s1 s1'.
Proof.
  intros En [Hf Hm] ED Hh H. rewrite new_list. unfold run_block in *.
  destruct (collect_labels h l) as [labels|] eqn:El; [|done]. simpl.
  rewrite (labels_new h h' l flags_heads flags_in flags_bind labels El).
  refine (flags_loop labels fuel 0 (set_stack _ s) _ r s1 El _ Hh H). split_and!.
  - rewrite En, ED. split; simpl; [by apply Forall_replicate|by rewrite length_replicate|done..].
  - apply state_rel_upto. by apply (rel_initial h h' b flags_heads (bo_insts _ _ _ Hok)).
  - apply agree_refl.
Qed.
End Run.

Lemma upto_state pos s s' :
  upto pos s s' -> s' = set_flags (s_flags s') (set_stack (s_stack s') s).
Proof. intros []. destruct s, s'. unfold set_flags, set_stack in *. simpl in *. by subst. Qed.

(** [elim_flags] either leaves the block alone or runs the walk on the carry
    regions of the block. *)
Lemma elim_flags_cases features live_out insts h l' h' :
  elim_flags features live_out insts h = Ok (l', h') ->
  (l' = insts /\ h' = h) \/
  exists prot region w h1,
    elim_walk features prot insts (mkWalk live_out ∅ [] region false) h = Ok (w, h1)
    /\ for_each Inst_delete (w_victims w) h1 = Ok (tt, h') /\ l' = erase (w_victims w) insts
    /\ match prot with
       | Some r => Classify h insts = Ok r /\ region = pred (length r)
       | None => has_carry_consumer h insts = false
       end.
Proof.
  unfold elim_flags. intros H. erewrite bind_run in H by reflexivity. destruct (_ && _).
  { injection H as <- <-. by left. }
  right. apply bind_ok in H as (prot & h0 & Hp & H). apply bind_ok in H as (w & h1 & Hw & H).
  apply bind_ok in H as ([] & h2 & Hd & H). injection H as <- <-.
  assert (h0 = h /\ match prot with
    | Some r => Classify h insts = Ok r
    | None => has_carry_consumer h insts = false end) as [-> Hc].
  { destruct (has_carry_consumer h insts).
    - apply bind_ok in Hp as (r & h3 & Hr & Hp). apply lift_ok in Hr as [Hr ->]. by injection Hp as <- <-.
    - by injection Hp as <- <-. }
  exists prot, (match prot with Some r => pred (length r) | None => 0%nat end), w, h1.
  split_and!; try done. by destruct prot.
Qed.

(** (C5) Flags elimination preserves execution: whenever the interpreter runs the
    original block to the end (which includes halting on a wild access in
    between), it runs the optimised block from the same state to the same halt
    reason and the same memory, guest locations and halt state; only the value
    slots may differ, and, unless the block was left in the middle by a page
    fault, the two flag words agree on [live_out], which is every flag when
    [live_out] is [All].  [flags_ok] is what the front ends guarantee of flag
    writes; host functions look at neither flags nor slots; and as in
    [ComputeBlockLiveOut], [live_out] is smaller than [All] only if all targets
    of the terminal are known. *)
Theorem flags_elim_preserves_execution (features : FeatureSet) (live_out : Z) (ext : Ptr -> Z)
  (h h' : Heap) (b : Block) (fuel : nat) (l' : list Ptr) (cfg : IConfig) (host_fn : Z -> list Z -> M Z)
  (host_pair_fn : Z -> Z -> Z -> Z -> M (Z * Z)) (s s1 : IState) (r : HaltReason) :
  (forall a x, host_call_ok (dom (s_mem s)) (slot_count h b) (host_fn a x)) ->
  (forall a x y z, host_call_ok (dom (s_mem s)) (slot_count h b) (host_pair_fn a x y z)) ->
  block_ok ext h b -> flags_ok h b -> entry_ok s -> s_halt s = HaltReason_None ->
  live_out = Flags_All \/ snd (CollectTerminalTargets (b_terminal b)) = false ->
  elim_flags features live_out (b_insts b) h = Ok (l', h') ->
  run_block h cfg host_fn host_pair_fn fuel b s = Some (Ok (r, s1)) ->
  exists s1', run_block h' cfg host_fn host_pair_fn fuel (mkBlock l' (b_terminal b)) s
      = Some (Ok (r, s1'))
    /\ s1' = set_flags (s_flags s1') (set_stack (s_stack s1') s1)
    /\ (r = HaltReason_PageFatal \/
        agree live_out (s_flags s1) (s_flags s1')
        /\ (live_out = Flags_All -> s_flags s1' = s_flags s1)).
Proof.
  intros Hhost Hpair Hok Hfl Hs Hh Hout He H.
  destruct (elim_flags_cases _ _ _ _ _ _ He) as [[-> ->]|(prot & region & w & h1 & Hw & Hd & -> & Hp)].
  - exists s1. split_and!; [by destruct b|by destruct s1|right; split; [apply agree_refl|done]].
  - destruct (flags_block features live_out prot region h h1 h' b w ext Hok Hfl Hw Hd Hout Hp cfg host_fn
      host_pair_fn (dom (s_mem s)) (slot_count h b) Hhost Hpair fuel s r s1) as (s1' & H' & Hu & Hr); try done.
    exists s1'. split_and!; [done|by eapply upto_state|]. destruct Hr as [|Ha]; [by left|right].
    split; [done|]. intros ->. by apply agree_all in Ha.
Qed.

(** ** The whole pass, and an example *)

(** The result of a flag write is not used by [v]. *)
Definition not_flag_write (h : Heap) (v : Value) : bool :=
  match v_inst v with
  | Some d => match h !! d with Some i => negb (flag_writer (i_op i)) | None => true end
  | None => true
  end.

Lemma not_flag_write_sound h v d i :
  not_flag_write h v = true -> v_inst v = Some d -> h !! d = Some i -> flag_writer (i_op i) = false.
Proof. unfold not_flag_write. intros H Hd Hi. rewrite Hd, Hi in H. by apply negb_true_iff in H. Qed.

(** The label a [BindLabel] binds. *)
Definition bound (h : Heap) (p : Ptr) : option Ptr :=
  match h !! p with
  | Some i => match i_op i, GetArg_Value i 0 with
              | OpCode_BindLabel, Ok v => v_inst v
              | _, _ => None
              end
  | None => None
  end.

Definition saves_check (h : Heap) (l : list Ptr) (k : nat) (i : Inst) : bool :=
  match GetArg_Flags i 1, GetArg_Value i 0 with
  | Ok f, Ok v =>
      match v_inst v with
      | Some d =>
          match h !! d with
          | Some j =>
              if consumes (i_op j) then
                existsb (fun m => bool_decide (l !! m = Some d)
                  && (advances h (take m l) =? advances h (take k l))%nat) (seq 0 (length l))
              else save_complete j f
          | None => true
          end
      | None => true
      end
  | _, _ => true
  end.

Lemma saves_check_sound h l k i : saves_check h l k i = true -> saves_ok h l k i.
Proof.
  unfold saves_check. intros H f v d j Hf Hv Hd Hj. rewrite Hf, Hv, Hd, Hj in H.
  destruct (consumes _); [|done]. apply existsb_exists in H as (m & _ & H).
  apply andb_true_iff in H as [Hm%bool_decide_eq_true E%Nat.eqb_eq]. by exists m.
Qed.

Definition flags_check (h : Heap) (insts : list Ptr) : bool :=
  bool_decide (map_Forall (fun _ i => op_eqb (i_op i) OpCode_BranchOnlyFlags = false) h)
  && bool_decide (map_Forall (fun _ i => Forall (fun v => not_flag_write h v = true) (GetValues i)) h)
  && forallb (fun e => match h !! snd e with
                       | Some i => negb (op_eqb (i_op i) OpCode_SaveFlags) || saves_check h insts (fst e) i
                       | None => true
                       end) (imap pair insts)
  && forallb (fun d => forallb (fun e =>
       bool_decide (bound h (snd d) = None) || bool_decide (bound h (snd d) <> bound h (snd e))
       || Nat.eqb (fst d) (fst e)) (imap pair insts)) (imap pair insts).

Lemma forall_positions {A} (P : nat * A -> bool) (l : list A) k a :
  forallb P (imap pair l) = true -> l !! k = Some a -> P (k, a) = true.
Proof.
  intros H Hk. rewrite forallb_forall in H. apply H, list_elem_of_In, list_elem_of_lookup.
  exists k. by rewrite list_lookup_imap, Hk.
Qed.

Lemma flags_check_sound h insts t :
  flags_check h insts = true -> term_values t = [] -> flags_ok h (mkBlock insts t).
Proof.
  unfold flags_check. rewrite !andb_true_iff, !bool_decide_eq_true.
  intros [[[Hplain Hunused] Hsaves] Hlabels] Ht. split; simpl.
  - intros p i Hi E. specialize (Hplain p i Hi). simpl in Hplain. by rewrite E in Hplain.
  - intros q j v d i Hq Hv Hd Hi. specialize (Hunused q j Hq). simpl in Hunused.
    rewrite Forall_forall in Hunused. by eapply not_flag_write_sound; [apply Hunused|..].
  - rewrite Ht. by intros v d i ?%not_elem_of_nil.
  - intros k p i Hk Hi Hop. apply (forall_positions _ _ k p) in Hsaves; [|done]. simpl in Hsaves.
    rewrite Hi, Hop in Hsaves. by apply saves_check_sound.
  - intros p j k q r Hq Hr (iq & vq & Hiq & Eq & Hvq & Hq') (ir & vr & Hir & Er & Hvr & Hr').
    apply (forall_positions _ _ j q) in Hlabels; [|done]. apply (forall_positions _ _ k r) in Hlabels; [|done].
    simpl in Hlabels. unfold bound in Hlabels. rewrite Hiq, Hir, Eq, Er, Hvq, Hvr, Hq', Hr' in Hlabels.
    rewrite !orb_true_iff, !bool_decide_eq_true in Hlabels. destruct Hlabels as [[|]|E]; [done..|].
    by apply Nat.eqb_eq.
Qed.

(** ** The block *)

Definition flags_run_alu (op : OpCode) (id : Z) (save : Ptr) : Inst :=
  mkInst op [AValue (Value_of 1%positive); AOperand OperandPlus;
             AValue (Value_of 2%positive); AVoid; AVoid] 1 id 0 ValueType_U64 (Some save).

Definition flags_run_save (def : Ptr) (id f : Z) : Inst :=
  mkInst OpCode_SaveFlags [AValue (Value_of def); AFlags f; AVoid; AVoid; AVoid]
    0 id 0 ValueType_VOID None.

Definition flags_run_heap : Heap :=
  <[1%positive := mkInst OpCode_LoadImm [AImm (Imm_u64 5); AVoid; AVoid; AVoid; AVoid]
                    3 0 0 ValueType_U64 None]>
  (<[2%positive := mkInst OpCode_LoadImm [AImm (Imm_u64 3); AVoid; AVoid; AVoid; AVoid]
                    2 1 0 ValueType_U64 None]>
  (<[3%positive := flags_run_alu OpCode_Sub 2 4%positive]>
  (<[4%positive := flags_run_save 3%positive 3 Flags_All]>
  (<[5%positive := mkInst OpCode_TestFlags [AFlags Flags_Zero; AVoid; AVoid; AVoid; AVoid]
                    0 4 0 ValueType_U8 None]>
  (<[6%positive := mkInst OpCode_SetCarry [AValue (Value_of 1%positive); AVoid; AVoid; AVoid; AVoid]
                    0 5 0 ValueType_VOID None]>
  (<[7%positive := flags_run_alu OpCode_Add 6 8%positive]>
  (<[8%positive := flags_run_save 7%positive 7 Flags_All]> ∅))))))).

Definition flags_run_insts : list Ptr := [1; 2; 3; 4; 5; 6; 7; 8]%positive.
Definition flags_run_kept : list Ptr := [1; 2; 3; 4; 5; 7; 8]%positive.

Lemma flags_elim_preserves_execution_witness :
  exists h' i r s1 s1',
    elim_flags all_features Flags_All flags_run_insts flags_run_heap = Ok (flags_run_kept, h')
    /\ h' !! 4%positive = Some i /\ GetArg_Flags i 1 = Ok Flags_Zero
    /\ run_block flags_run_heap sample_config no_host_fn no_host_pair_fn 8
         (mkBlock flags_run_insts ReturnToHost) (sample_state 0 0 0) = Some (Ok (r, s1))
    /\ run_block h' sample_config no_host_fn no_host_pair_fn 8
         (mkBlock flags_run_kept ReturnToHost) (sample_state 0 0 0) = Some (Ok (r, s1'))
    /\ (r = HaltReason_PageFatal \/ agree Flags_All (s_flags s1) (s_flags s1')
        /\ (Flags_All = Flags_All -> s_flags s1' = s_flags s1)).
Proof.
  assert (exists h' i, elim_flags all_features Flags_All flags_run_insts flags_run_heap = Ok (flags_run_kept, h')
    /\ h' !! 4%positive = Some i /\ GetArg_Flags i 1 = Ok Flags_Zero)
    as (h' & i & Hel & Hi & Hf) by (eexists _, _; split_and!; vm_compute; reflexivity).
  destruct (run_block flags_run_heap sample_config no_host_fn no_host_pair_fn 8
              (mkBlock flags_run_insts ReturnToHost) (sample_state 0 0 0)) as [[[r s1]|]|] eqn:H;
    [|vm_compute in H; discriminate H..].
  destruct (flags_elim_preserves_execution all_features Flags_All (fun _ => 0) flags_run_heap h'
    (mkBlock flags_run_insts ReturnToHost) 8 flags_run_kept sample_config no_host_fn no_host_pair_fn
    (sample_state 0 0 0) s1 r) as (s1' & H' & _ & Hr).
  - intros a x. split; [intros s0 u s2 st [=]|intros s0 u s2 y [=]|apply keeps_fail].
  - intros a x y z. split; [intros s0 u s2 st [=]|intros s0 u s2 w [=]|apply keeps_fail].
  - apply block_check_sound; [vm_compute; reflexivity|reflexivity].
  - apply flags_check_sound; [vm_compute; reflexivity|reflexivity].
  - apply sample_entry_ok.
  - reflexivity.
  - by left.
  - exact Hel.
  - exact H.
  - exists h', i, r, s1, s1'. split_and!; [exact Hel|exact Hi|exact Hf|reflexivity|exact H'|exact Hr].
Defined.
