(* ===== verification/FlagsLivenessProps.v ===== *)
(** * The fixed point of flag liveness

    The loop of [ComputeFunctionLiveIn] ends, because every round that changes
    something adds a flag to the live-in set of a block and takes none away,
    and it ends in the least solution of the liveness equations. *)

From Stdlib Require Import ZArith Lia.
From stdpp Require Import numbers base gmap list.
From S2P Require Import Prelude MachineInt IRTypes Instr InterpCore Interp InterpInvariant FlagsElim FlagWord Cfg.

Local Open Scope Z_scope.
Local Open Scope svm_scope.

(** ** Counting flags *)

Definition count_in (ks : list Z) (x : Z) : nat :=
  foldr (fun k n => (Nat.b2n (Z.testbit x k) + n)%nat) 0%nat ks.

Definition flag_count (x : Z) : nat := count_in (seqZ 0 64) x.

Lemma fsub_b2n x y k : fsub x y -> (Nat.b2n (Z.testbit x k) <= Nat.b2n (Z.testbit y k))%nat.
Proof. intros H. destruct (Z.testbit x k) eqn:E; [|simpl; lia]. by rewrite (H k E). Qed.

Lemma count_in_mono ks x y : fsub x y -> (count_in ks x <= count_in ks y)%nat.
Proof.
  intros H. induction ks as [|k ks IH]; [done|]. simpl. pose proof (fsub_b2n x y k H). lia.
Qed.

Lemma count_in_bound ks x : (count_in ks x <= length ks)%nat.
Proof. induction ks as [|k ks IH]; [done|]. simpl. destruct (Z.testbit x k); simpl; lia. Qed.

Lemma count_in_strict ks x y k :
  fsub x y -> k ∈ ks -> Z.testbit x k = false -> Z.testbit y k = true ->
  (count_in ks x < count_in ks y)%nat.
Proof.
  intros H Hk Hx Hy. induction ks as [|j ks IH]; [by apply not_elem_of_nil in Hk|].
  simpl. pose proof (fsub_b2n x y j H). pose proof (count_in_mono ks x y H).
  apply elem_of_cons in Hk as [<-|Hk]; [rewrite Hx, Hy; simpl; lia|]. specialize (IH Hk). lia.
Qed.

Lemma flag_count_strict x y :
  fsub x y -> is_word y -> x <> y -> (flag_count x < flag_count y)%nat.
Proof.
  intros H Hy Hne. apply is_word_bits in Hy as [_ Hy].
  destruct (decide (Exists (fun k => Z.testbit x k <> Z.testbit y k) (seqZ 0 64))) as [E|E].
  - apply Exists_exists in E as (k & Hk & E). apply (count_in_strict _ x y k H Hk);
      destruct (Z.testbit x k) eqn:Ex; destruct (Z.testbit y k) eqn:Ey; try done.
    all: by rewrite (H k Ex) in Ey.
  - exfalso. apply Hne, Z.bits_inj'. intros k Hk. destruct (Z.ltb_spec k 64).
    + destruct (decide (Z.testbit x k = Z.testbit y k)) as [|Hd]; [done|]. destruct E.
      apply Exists_exists. exists k. split; [apply elem_of_seqZ; lia|done].
    + rewrite Hy by lia. destruct (Z.testbit x k) eqn:Ex; [|done]. rewrite <- (H k Ex). by apply Hy.
Qed.

(** ** The transfer function *)

Lemma fsub_ldiff_mono a b f : fsub a b -> fsub (Z.ldiff a f) (Z.ldiff b f).
Proof.
  intros H k. destruct (Z.ltb_spec k 0); [by rewrite !Z.testbit_neg_r|].
  rewrite !Z.ldiff_spec, !andb_true_iff. intros [? ?]. auto.
Qed.

Lemma fsub_lor_mono a b f : fsub a b -> fsub (Z.lor a f) (Z.lor b f).
Proof.
  intros H k. rewrite !Z.lor_spec, !orb_true_iff. intros [?|?]; auto.
Qed.

Lemma transfer_inst_mono i a b a' :
  transfer_inst i a = Ok a' -> fsub a b ->
  exists b', transfer_inst i b = Ok b' /\ fsub a' b'.
Proof.
  intros H Hab. unfold transfer_inst in *.
  destruct (i_op i); simpl in *;
    repeat match type of H with rbind ?m _ = Ok _ => destruct m; [|done]; simpl in * end;
    injection H as <-; eexists; (split; [reflexivity|]);
    first [done|by apply fsub_ldiff_mono|by apply fsub_lor_mono].
Qed.

Lemma transfer_mono h insts a b a' :
  TransferFlagsLiveness h insts a = Ok a' -> fsub a b ->
  exists b', TransferFlagsLiveness h insts b = Ok b' /\ fsub a' b'.
Proof.
  revert a'. induction insts as [|p insts IH]; intros a' H Hab; simpl in *; [injection H as <-; eauto|].
  apply rbind_ok in H as (n & Hn & H). destruct (IH n Hn Hab) as (n' & -> & Hsub).
  apply rbind_ok in H as (i & Hi & H). simpl. rewrite Hi. simpl. by eapply transfer_inst_mono.
Qed.

(** Whether the arguments can be read does not depend on the needed flags. *)
Lemma transfer_defined h insts a b a' :
  TransferFlagsLiveness h insts a = Ok a' -> exists b', TransferFlagsLiveness h insts b = Ok b'.
Proof.
  revert a'. induction insts as [|p insts IH]; intros a' H; simpl in *; [eauto|].
  apply rbind_ok in H as (n & Hn & H). destruct (IH n Hn) as (n' & ->).
  apply rbind_ok in H as (i & Hi & H). simpl. rewrite Hi. simpl. unfold transfer_inst in *.
  destruct (i_op i); simpl in *;
    repeat match type of H with rbind ?m _ = Ok _ => destruct m; [|done]; simpl in * end; eauto.
Qed.

(** Every flag mask is a value of the type [Flags]. *)
Definition masks_ok (h : Heap) : Prop :=
  forall p i k m, h !! p = Some i -> GetArg_Flags i k = Ok m -> is_word m.

Lemma word_ldiff a f : is_word a -> is_word (Z.ldiff a f).
Proof.
  rewrite !is_word_bits. intros [Ha Hb]. split; [apply Z.ldiff_nonneg; tauto|].
  intros j Hj. rewrite Z.ldiff_spec by lia. by rewrite Hb.
Qed.

Lemma word_lor_flags a f : is_word a -> is_word f -> is_word (Z.lor a f).
Proof.
  rewrite !is_word_bits. intros [Ha Hb] [Hf Hg]. split; [by apply Z.lor_nonneg|].
  intros j Hj. by rewrite Z.lor_spec, Hb, Hg by lia.
Qed.

Lemma cond_needs_word c : is_word (cond_needs c).
Proof. destruct c; by vm_compute. Qed.

Lemma transfer_word h insts a a' :
  masks_ok h -> TransferFlagsLiveness h insts a = Ok a' -> is_word a -> is_word a'.
Proof.
  intros Hm. revert a'. induction insts as [|p insts IH]; intros a' H Ha; simpl in *; [by injection H as <-|].
  apply rbind_ok in H as (n & Hn & H). specialize (IH n Hn Ha).
  apply rbind_ok in H as (i & Hi & H). unfold deref in Hi. destruct (h !! p) as [j|] eqn:Hp; [|done].
  injection Hi as ->. unfold transfer_inst in H.
  destruct (i_op i); simpl in *;
    repeat match type of H with rbind ?m _ = Ok _ => destruct m eqn:?; [|done]; simpl in * end;
    injection H as <-;
    first [done|by apply word_ldiff
          |apply word_lor_flags; [done|first [by eapply Hm|apply cond_needs_word|by vm_compute]]].
Qed.

(** ** Live-out sets *)

Section Function_.
Context (h : Heap) (f : HIRFunction).

Definition live_at (L : LiveMap) (c : nat) : Z := default Flags_None (L !! c).

(** A live-in set for every block. *)
Definition live_total (L : LiveMap) : Prop := forall c, is_Some (L !! c) <-> is_Some (hf_blocks f !! c).

Definition live_le (L L' : LiveMap) : Prop := forall c, fsub (live_at L c) (live_at L' c).

#[local] Instance live_le_preorder : PreOrder live_le.
Proof.
  split; [intros L c; apply fsub_refl|intros L1 L2 L3 H1 H2 c; by eapply fsub_trans].
Qed.

Lemma target_live_mono succs L L' t :
  live_total L -> live_total L' -> live_le L L' ->
  fsub (target_live f succs L t) (target_live f succs L' t).
Proof.
  intros HL HL' Hle. unfold target_live. destruct (find_successor f succs t) as [c|]; [|apply fsub_refl].
  specialize (Hle c). unfold live_at in Hle.
  destruct (hf_blocks f !! c) as [b|] eqn:Eb;
    [|destruct (L !! c), (L' !! c); apply fsub_refl].
  assert (is_Some (L !! c)) as [x Hx] by (apply HL; by eexists).
  assert (is_Some (L' !! c)) as [y Hy] by (apply HL'; by eexists).
  rewrite Hx, Hy in *. destruct (undecoded _); [apply fsub_refl|exact Hle].
Qed.

Lemma fold_lor_mono {A} (g g' : A -> Z) l a a' :
  (forall x, fsub (g x) (g' x)) -> fsub a a' ->
  fsub (foldl (fun acc x => Z.lor acc (g x)) a l) (foldl (fun acc x => Z.lor acc (g' x)) a' l).
Proof.
  intros Hg. revert a a'. induction l as [|x l IH]; intros a a' Ha; [done|]. simpl. apply IH.
  intros k. rewrite !Z.lor_spec, !orb_true_iff. intros [?|?]; [left; auto|right; by apply Hg].
Qed.

Lemma live_out_mono b L L' :
  live_total L -> live_total L' -> live_le L L' ->
  fsub (ComputeBlockLiveOut f b L) (ComputeBlockLiveOut f b L').
Proof.
  intros HL HL' Hle. unfold ComputeBlockLiveOut. destruct (undecoded _); [apply fsub_refl|].
  apply fold_lor_mono; [|apply fsub_refl]. intros t. by apply target_live_mono.
Qed.

Lemma fold_lor_word {A} (g : A -> Z) l a :
  (forall x, is_word (g x)) -> is_word a -> is_word (foldl (fun acc x => Z.lor acc (g x)) a l).
Proof.
  intros Hg. revert a. induction l as [|x l IH]; intros a Ha; [done|]. simpl. apply IH.
  by apply word_lor_flags.
Qed.

Definition live_words (L : LiveMap) : Prop := forall c, is_word (live_at L c).

Lemma live_out_word b L : live_words L -> is_word (ComputeBlockLiveOut f b L).
Proof.
  intros HL. unfold ComputeBlockLiveOut. destruct (undecoded _); [by vm_compute|].
  apply fold_lor_word; [|by destruct (snd _); vm_compute].
  intros t. unfold target_live. destruct (find_successor _ _ _) as [c|]; [|by vm_compute].
  specialize (HL c). unfold live_at in HL.
  destruct (L !! c); [|by vm_compute]. destruct (hf_blocks f !! c); [|by vm_compute].
  destruct (undecoded _); [by vm_compute|done].
Qed.

(** ** The equations *)

(** The live-in set the equations give block [b]. *)
Definition live_in_of (b : HIRBlock) (L : LiveMap) : Res Z :=
  TransferFlagsLiveness h (b_insts (hb_block b)) (ComputeBlockLiveOut f b L).

Definition solution (L : LiveMap) : Prop :=
  forall c b, c ∈ hf_rpo f -> hf_blocks f !! c = Some b -> live_in_of b L = Ok (live_at L c).

(** At least what the equations ask for. *)
Definition presolution (L : LiveMap) : Prop :=
  forall c b, c ∈ hf_rpo f -> hf_blocks f !! c = Some b ->
    exists x, live_in_of b L = Ok x /\ fsub x (live_at L c).

(** At most what the equations ask for, as far as they can be evaluated. *)
Definition grows (L : LiveMap) : Prop :=
  forall c b x, hf_blocks f !! c = Some b -> live_in_of b L = Ok x -> fsub (live_at L c) x.

Lemma live_in_of_mono b L L' x :
  live_total L -> live_total L' -> live_le L L' -> live_in_of b L = Ok x ->
  exists y, live_in_of b L' = Ok y /\ fsub x y.
Proof. intros HL HL' Hle H. eapply transfer_mono; [exact H|by apply live_out_mono]. Qed.

Record live_inv (L : LiveMap) : Prop := mk_live_inv {
  li_total : live_total L;
  li_words : live_words L;
  li_grows : grows L;
  li_rest : forall c, c ∉ hf_rpo f -> live_at L c = Flags_None;
  li_least : forall L', live_total L' -> presolution L' -> live_le L L'
}.

Lemma live_at_insert L c x d : live_at (<[c := x]> L) d = if decide (c = d) then x else live_at L d.
Proof.
  unfold live_at. destruct (decide (c = d)) as [<-|]; [by rewrite lookup_insert_eq|by rewrite lookup_insert_ne].
Qed.

Hypothesis Hmasks : masks_ok h.

Lemma update_inv L c b x :
  live_inv L -> c ∈ hf_rpo f -> hf_blocks f !! c = Some b -> live_in_of b L = Ok x ->
  live_inv (<[c := x]> L) /\ live_le L (<[c := x]> L).
Proof.
  intros [Ht Hw Hg Hr Hl] Hc Hb Hx.
  assert (live_total (<[c := x]> L)) as Ht'.
  { intros d. destruct (decide (c = d)) as [<-|]; [rewrite lookup_insert_eq, Hb; by split; eauto|].
    rewrite lookup_insert_ne by done. apply Ht. }
  assert (live_le L (<[c := x]> L)) as Hle.
  { intros d. rewrite live_at_insert. destruct (decide (c = d)) as [<-|]; [by eapply Hg|apply fsub_refl]. }
  split; [|done]. split; [done|..].
  - intros d. rewrite live_at_insert. destruct (decide (c = d)); [|apply Hw].
    eapply transfer_word; [done|exact Hx|by apply live_out_word].
  - intros d b' y Hb' Hy. 
    destruct (transfer_defined h _ _ (ComputeBlockLiveOut f b' L) y Hy) as [z Hz].
    change (live_in_of b' L = Ok z) in Hz.
    destruct (live_in_of_mono b' L _ z Ht Ht' Hle Hz) as (y' & Hy' & Hzy).
    rewrite Hy in Hy'. injection Hy' as <-.
    rewrite live_at_insert. destruct (decide (c = d)) as [<-|].
    + rewrite Hb in Hb'. injection Hb' as <-. by replace x with z by congruence.
    + eapply fsub_trans; [by eapply Hg|done].
  - intros d Hd. rewrite live_at_insert. destruct (decide (c = d)) as [<-|]; [done|by apply Hr].
  - intros L' HL' Hp d. rewrite live_at_insert. destruct (decide (c = d)) as [<-|]; [|by apply Hl].
    destruct (Hp c b Hc Hb) as (y & Hy & Hsub).
    destruct (live_in_of_mono b L L' x Ht HL' (Hl L' HL' Hp) Hx) as (y' & Hy' & ?).
    eapply fsub_trans; [|exact Hsub]. by replace y with y' by congruence.
Qed.

Lemma initial_lookup c : initial_live f !! c = (fun _ => Flags_None) <$> (hf_blocks f !! c).
Proof.
  unfold initial_live. destruct (hf_blocks f !! c) as [b|] eqn:E; simpl.
  - apply elem_of_list_to_map_1.
    + rewrite fmap_imap. apply NoDup_alt. intros i j x. rewrite !list_lookup_imap.
      intros H1 H2. destruct (_ !! i), (_ !! j); simpl in *; congruence.
    + apply list_elem_of_lookup. exists c. by rewrite list_lookup_imap, E.
  - apply not_elem_of_list_to_map_1. rewrite fmap_imap.
    intros (k & Hk)%list_elem_of_lookup. rewrite list_lookup_imap in Hk.
    destruct (hf_blocks f !! k) eqn:Ek; simpl in Hk; [|done]. injection Hk as ->. congruence.
Qed.

Lemma none_least x : fsub Flags_None x.
Proof. intros k. by rewrite Z.bits_0. Qed.

Lemma initial_inv : live_inv (initial_live f).
Proof.
  assert (forall c, live_at (initial_live f) c = Flags_None) as H0.
  { intros c. unfold live_at. rewrite initial_lookup. by destruct (_ !! c). }
  split.
  - intros c. rewrite initial_lookup. by destruct (hf_blocks f !! c); split; intros [x Hx]; eauto.
  - intros c. rewrite H0. by vm_compute.
  - intros c b x _ _. rewrite H0. apply none_least.
  - intros c _. apply H0.
  - intros L' _ _ c. rewrite H0. apply none_least.
Qed.

(** ** Rounds *)

(** How many flags there are in the map. *)
Definition live_count (L : LiveMap) : nat :=
  sum_list_with (fun c => flag_count (live_at L c)) (seq 0 (length (hf_blocks f))).

Lemma live_count_bound L : (live_count L <= 64 * length (hf_blocks f))%nat.
Proof.
  assert (forall l, sum_list_with (fun c => flag_count (live_at L c)) l <= 64 * length l)%nat as H.
  { intros l. induction l as [|c l IH]; [done|]. simpl.
    pose proof (count_in_bound (seqZ 0 64) (live_at L c)) as Hb. rewrite length_seqZ in Hb.
    unfold flag_count in *. lia. }
  unfold live_count. specialize (H (seq 0 (length (hf_blocks f)))). by rewrite length_seq in H.
Qed.

Lemma live_count_mono L L' : live_le L L' -> (live_count L <= live_count L')%nat.
Proof.
  intros H. unfold live_count. induction (seq 0 _) as [|c l IH]; [done|]. simpl.
  pose proof (count_in_mono (seqZ 0 64) _ _ (H c)). unfold flag_count in *. lia.
Qed.

Lemma live_count_strict L L' c :
  live_le L L' -> live_words L' -> (c < length (hf_blocks f))%nat -> live_at L c <> live_at L' c ->
  (live_count L < live_count L')%nat.
Proof.
  intros H Hw Hc Hne. unfold live_count.
  assert (c ∈ seq 0 (length (hf_blocks f))) as Hin by (apply elem_of_seq; lia).
  induction (seq 0 (length (hf_blocks f))) as [|d l IH]; [by apply not_elem_of_nil in Hin|].
  simpl. pose proof (count_in_mono (seqZ 0 64) _ _ (H d)) as Hd.
  assert (sum_list_with (fun c => flag_count (live_at L c)) l
    <= sum_list_with (fun c => flag_count (live_at L' c)) l)%nat as Hl.
  { clear IH Hin. induction l as [|e l IHl]; [done|]. simpl.
    pose proof (count_in_mono (seqZ 0 64) _ _ (H e)). unfold flag_count in *. lia. }
  apply elem_of_cons in Hin as [<-|Hin].
  - pose proof (flag_count_strict _ _ (H c) (Hw c) Hne). lia.
  - specialize (IH Hin). unfold flag_count in *. lia.
Qed.

(** The blocks of the RPO list are blocks of the function. *)
Hypothesis Hrpo : forall c, c ∈ hf_rpo f -> is_Some (hf_blocks f !! c).

Lemma step_err e l : foldl (live_step h f) (Err e) l = Err e.
Proof. by induction l. Qed.

Lemma step_eq L b c : live_step h f (Ok (L, b)) c =
  match hf_blocks f !! c with
  | None => Err EUndefined
  | Some d => x <-? live_in_of d L; Ok (<[c := x]> L, b || negb (x =? live_at L c))
  end.
Proof. done. Qed.

(** A round moves up; if it changes nothing, every equation it looked at holds. *)
Lemma round_from l L b L' b' :
  Forall (fun c => c ∈ hf_rpo f) l -> live_inv L ->
  foldl (live_step h f) (Ok (L, b)) l = Ok (L', b') ->
  live_inv L' /\ live_le L L' /\ (b = true -> b' = true)
  /\ (b = false -> b' = true -> (live_count L < live_count L')%nat)
  /\ (b' = false -> L' = L /\ forall c d, c ∈ l -> hf_blocks f !! c = Some d ->
        live_in_of d L = Ok (live_at L c)).
Proof.
  intros Hl. revert L b. induction l as [|c l IH]; intros L b HL H; cbn [foldl] in H.
  { injection H as <- <-. split_and!; try done; [congruence|].
    intros _. split; [done|]. by intros c d ?%not_elem_of_nil. }
  apply Forall_cons in Hl as [Hc Hl]. specialize (IH Hl). rewrite step_eq in H.
  destruct (hf_blocks f !! c) as [d|] eqn:Hd; [|by rewrite step_err in H].
  destruct (live_in_of d L) as [x|e] eqn:Hx; [|by cbn [rbind] in H; rewrite step_err in H].
  cbn [rbind] in H. destruct (update_inv L c d x HL Hc Hd Hx) as [HL1 Hle].
  destruct (IH _ _ HL1 H) as (HL' & Hle' & Hb & Hcount & Hsame). split_and!; [done| | | |].
  - by etrans.
  - intros ->. by apply Hb.
  - intros -> E. destruct (Z.eqb_spec x (live_at L c)) as [Ex|Ex]; simpl in *.
    + pose proof (live_count_mono _ _ Hle). specialize (Hcount eq_refl E). lia.
    + pose proof (live_count_mono _ _ Hle'). 
      assert (live_count L < live_count (<[c := x]> L))%nat; [|lia].
      apply (live_count_strict L _ c); [done|apply HL1|by eapply lookup_lt_Some|].
      rewrite live_at_insert, decide_True by done. congruence.
  - intros ->. destruct (Z.eqb_spec x (live_at L c)) as [Ex|Ex]; [|by rewrite orb_true_r in Hb; specialize (Hb eq_refl)].
    assert (<[c := x]> L = L) as E.
    { apply insert_id. rewrite Ex. unfold live_at.
      assert (is_Some (L !! c)) as [y Hy] by (apply HL; by eexists). by rewrite Hy. }
    rewrite E in *. destruct (Hsame eq_refl) as [-> Heq]. split; [done|].
    intros c' d' [->|Hc']%elem_of_cons Hd'; [|by apply Heq].
    rewrite Hd in Hd'. injection Hd' as <-. by rewrite <- Ex.
Qed.

(** The arguments the analysis reads have the types it expects. *)
Definition readable : Prop := forall c b, c ∈ hf_rpo f -> hf_blocks f !! c = Some b ->
  exists x, TransferFlagsLiveness h (b_insts (hb_block b)) Flags_None = Ok x.

Lemma round_defined l L b :
  readable -> Forall (fun c => c ∈ hf_rpo f) l ->
  exists r, foldl (live_step h f) (Ok (L, b)) l = Ok r.
Proof.
  intros Hr Hl. revert L b. induction l as [|c l IH]; intros L b; cbn [foldl]; [by eauto|].
  apply Forall_cons in Hl as [Hc Hl]. rewrite step_eq. destruct (Hrpo c Hc) as [d Hd]. rewrite Hd.
  destruct (Hr c d Hc Hd) as [x Hx].
  destruct (transfer_defined h _ _ (ComputeBlockLiveOut f d L) x Hx) as [y Hy].
  fold (live_in_of d L) in Hy. rewrite Hy. by apply IH.
Qed.

Lemma loop_fixpoint L fuel :
  readable -> live_inv L -> (64 * length (hf_blocks f) < live_count L + fuel)%nat ->
  exists L', live_loop h f fuel L = Some (Ok L') /\ live_inv L' /\ solution L'.
Proof.
  intros Hr. revert L. induction fuel as [|n IH]; intros L HL Hn.
  { pose proof (live_count_bound L). lia. }
  assert (Forall (fun c => c ∈ hf_rpo f) (reverse (hf_rpo f))) as Hall.
  { apply Forall_forall. intros c. by rewrite elem_of_reverse. }
  destruct (round_defined _ L false Hr Hall) as [[L1 b] E]. simpl. unfold live_round. rewrite E.
  destruct (round_from _ L false L1 b Hall HL E) as (HL1 & _ & _ & Hcount & Hsame).
  destruct b.
  - specialize (Hcount eq_refl eq_refl). apply IH; [done|lia].
  - destruct (Hsame eq_refl) as [-> Heq]. exists L. split_and!; [done..|].
    intros c d Hc Hd. apply Heq; [by rewrite elem_of_reverse|done].
Qed.
End Function_.

(** (C7) Flag liveness of a function: the loop ends, within [64] rounds per block,
    in the least solution of the equations [live_in = Transfer (live_out)]; any
    assignment of flag sets that satisfies the equations (or asks for more)
    contains it, and blocks outside the reverse post-order need no flags. *)
Theorem live_in_least_fixpoint (h : Heap) (f : HIRFunction) (fuel : nat) :
  masks_ok h -> (forall c, c ∈ hf_rpo f -> is_Some (hf_blocks f !! c)) -> readable h f ->
  (64 * length (hf_blocks f) < fuel)%nat ->
  exists L, ComputeFunctionLiveIn h f fuel = Some (Ok L)
    /\ live_total f L /\ solution h f L
    /\ (forall c, c ∉ hf_rpo f -> live_at L c = Flags_None)
    /\ forall L', live_total f L' -> presolution h f L' -> live_le L L'.
Proof.
  intros Hm Hrpo Hr Hfuel.
  destruct (loop_fixpoint h f Hm Hrpo (initial_live f) fuel Hr (initial_inv h f)) as (L & HL & Hinv & Hsol);
    [lia|].
  exists L. destruct Hinv. by split_and!.
Qed.
