(* ===== verification/FlagsLiveRun.v ===== *)
(** * Flag liveness is sound

    Two runs of a block that start from states with the same live-in flags go
    the same way and end with the same live-out flags; so the flags outside the
    live-in set of a block need not be saved before it.  Examples at the end. *)

From Stdlib Require Import ZArith Lia.
From stdpp Require Import numbers base gmap list.
From S2P Require Import Prelude MachineInt IRTypes Instr UseCount InterpCore InterpFlags InterpScalar InterpMemory InterpVector Interp.
From S2P Require Import InterpInvariant InterpRun FlagProps MemoryProps DeadCode DeadCodeChain DeadCodeSem Simulation BlockEdit DeadCodeRun Cfg.
From S2P Require Import FlagsElim FlagWord FlagReads FlagSim FlagsElimWalk FlagsElimRun FlagsLivenessProps.

Local Open Scope Z_scope.
Local Open Scope svm_scope.

(** [i] writes C. *)
Definition touches_carry (i : Inst) : bool :=
  op_eqb (i_op i) OpCode_InvertCarry
  || match writer_flags i with Some f => Z.testbit f 0 | None => false end.

(** No instruction strictly between the positions writes C. *)
Definition carry_untouched (h : Heap) (l : list Ptr) (m k : nat) : Prop :=
  forall x p i, (m < x < k)%nat -> l !! x = Some p -> h !! p = Some i -> touches_carry i = false.

(** A block without jumps and branch-only rewrites, in which a [SaveFlags]
    writes every flag of its mask, and C is not written between an Adc or Sbb
    and the [SaveFlags] that saves its flags. *)
Record straight_line (h : Heap) (l : list Ptr) : Prop := mk_straight_line {
  st_plain : forall p i, p ∈ l -> h !! p = Some i ->
    jumps (i_op i) = false /\ i_op i <> OpCode_BranchOnlyFlags;
  st_saves : forall k p i f v d j, l !! k = Some p -> h !! p = Some i -> i_op i = OpCode_SaveFlags ->
    GetArg_Flags i 1 = Ok f -> GetArg_Value i 0 = Ok v -> v_inst v = Some d -> h !! d = Some j ->
    save_complete j f = true /\
    (consumes (i_op j) = true -> exists m, (m < k)%nat /\ l !! m = Some d /\ carry_untouched h l m k)
}.

(** ** The transfer function and the instructions *)

Lemma transfer_reads i r n n' :
  flag_reads i = Some r -> transfer_inst i n' = Ok n -> fsub r n /\ fsub n' n.
Proof.
  intros Hr H. unfold flag_reads, transfer_inst in *.
  destruct (i_op i); try discriminate Hr;
    repeat match type of H with rbind ?m _ = Ok _ => destruct m; [|done]; simpl in * end;
    injection Hr as <-; injection H as <-;
    split; try apply none_least; try apply fsub_refl; try apply fsub_lor_l; try apply fsub_lor_r.
Qed.

Lemma transfer_writes i f n n' :
  writer_flags i = Some f -> transfer_inst i n' = Ok n -> n = Z.ldiff n' f.
Proof.
  intros Hf H. unfold writer_flags, transfer_inst in *.
  destruct (i_op i); try discriminate Hf;
    try (destruct (GetArg_Flags i _); [|done]); simpl in *; congruence.
Qed.

Lemma plain_cases i :
  i_op i <> OpCode_BranchOnlyFlags ->
  (exists r, flag_reads i = Some r) \/ i_op i = OpCode_InvertCarry
  \/ (flag_reads i = None /\ i_op i <> OpCode_InvertCarry).
Proof.
  intros H. destruct (flag_reads i) as [r|]; [left; by exists r|right].
  destruct (decide (i_op i = OpCode_InvertCarry)); auto.
Qed.

(** A write whose arguments can be read. *)
Lemma writer_readable i n n' :
  flag_reads i = None -> i_op i <> OpCode_BranchOnlyFlags -> i_op i <> OpCode_InvertCarry ->
  transfer_inst i n' = Ok n -> exists f, writer_flags i = Some f.
Proof.
  intros Hr Hb Hi H. unfold flag_reads, writer_flags, transfer_inst in *.
  destruct (i_op i); try discriminate Hr; try done;
    first [destruct (GetArg_Flags i _)|destruct (GetArg_Cond i _)|idtac]; simpl in *; try done; eauto.
Qed.

Section Run.
Context (ext : Ptr -> Z) (h : Heap) (b : Block) (live_out : Z).
Context (cfg : IConfig) (host_fn : Z -> list Z -> M Z)
  (host_pair_fn : Z -> Z -> Z -> Z -> M (Z * Z)) (D : gset Z) (n : nat).

Abbreviation l := (b_insts b).
Abbreviation run := (run_inst h cfg host_fn host_pair_fn).

Hypothesis Hir : ir_ok ext h.
Hypothesis Hch : chains_ok h.
Hypothesis Hline : straight_line h l.
Hypothesis Hhost : forall a x, freads Flags_None (host_fn a x) /\ keeps D n trivial_post (host_fn a x).
Hypothesis Hpair : forall a x y z, freads Flags_None (host_pair_fn a x y z)
  /\ keeps D n trivial_post (host_pair_fn a x y z).
Hypothesis Hlo : fsub Flags_All live_out \/ snd (CollectTerminalTargets (b_terminal b)) = false.

(** The flags live before position [k]. *)
Definition live_before (k : nat) : Z :=
  match TransferFlagsLiveness h (drop k l) live_out with Ok x => x | Err _ => Flags_All end.

(** An Adc or Sbb before [k] whose C must survive until [k] at least. *)
Definition pending (k : nat) : Prop := exists m j d i,
  (m < k <= j)%nat /\ l !! m = Some d /\ h !! d = Some i /\ consumes (i_op i) = true
  /\ carry_untouched h l m j.

Definition live_rel (k : nat) (s : IState) (y : Z) : Prop :=
  state_ok D n s /\ agree (live_before k) (s_flags s) y
  /\ (pending k -> Z.testbit (s_flags s) kHostFlagC = Z.testbit y kHostFlagC).

Hypothesis Hdefined : exists x, TransferFlagsLiveness h l live_out = Ok x.

Lemma transfer_suffix l1 l2 x :
  TransferFlagsLiveness h (l1 ++ l2) live_out = Ok x ->
  exists y, TransferFlagsLiveness h l2 live_out = Ok y.
Proof.
  revert x. induction l1 as [|p l1 IH]; intros x H; [by exists x|]. simpl in H.
  apply rbind_ok in H as (y & Hy & _). by apply (IH y).
Qed.

Lemma live_before_S k p i : l !! k = Some p -> h !! p = Some i ->
  transfer_inst i (live_before (S k)) = Ok (live_before k).
Proof.
  intros Hk Hi. destruct Hdefined as [x Hx]. rewrite <- (take_drop k l) in Hx.
  apply transfer_suffix in Hx as [y Hy]. unfold live_before. rewrite (drop_S l p k Hk) in *.
  simpl in Hy |- *. apply rbind_ok in Hy as (z & Hz & Hy). rewrite Hz. simpl.
  unfold deref in *. rewrite Hi in *. simpl in *. by rewrite Hy.
Qed.

Lemma pending_S k p i :
  pending (S k) -> l !! k = Some p -> h !! p = Some i ->
  (pending k /\ touches_carry i = false) \/ consumes (i_op i) = true.
Proof.
  intros (m & j & d & i0 & Hm & Hd & Hi0 & Hc & Hu) Hk Hi.
  destruct (decide (m = k)) as [->|Hne].
  - right. rewrite Hk in Hd. injection Hd as <-. rewrite Hi in Hi0. by injection Hi0 as <-.
  - left. split; [exists m, j, d, i0; split_and!; try done; lia|]. apply (Hu k p i); [lia|done..].
Qed.

Lemma word_pair k s y : live_rel k s y -> is_word (s_flags s) /\ is_word y.
Proof.
  intros (Hs & Ha & _). pose proof (ok_flags _ _ _ Hs). split; [done|]. by eapply agree_word.
Qed.

(** ** One instruction *)

Lemma any_freads {A} R (m : M A) : freads Flags_None m -> freads R m.
Proof. intros Hm s u s1 y H Hy. apply (Hm s u s1 y H). eapply agree_mono; [apply none_least|done]. Qed.

Lemma read_same k p i r s y s1 :
  l !! k = Some p -> h !! p = Some i -> flag_reads i = Some r -> live_rel k s y ->
  run p s = Ok (tt, s1) ->
  run p (set_flags y s) = Ok (tt, set_flags y s1) /\ live_rel (S k) s1 y /\ halts_by_fault s s1.
Proof.
  intros Hk Hi Hr (Hs & Ha & Hp) H. pose proof (live_before_S k p i Hk Hi) as Ht.
  destruct (transfer_reads i r _ _ Hr Ht) as [Hrn Hn].
  destruct (freads_run_inst h cfg host_fn host_pair_fn r
    (fun a x => any_freads r _ (proj1 (Hhost a x))) (fun a x z w => any_freads r _ (proj1 (Hpair a x z w)))
    p i Hi r Hr (fsub_refl r) s tt s1 y H (agree_mono _ _ _ _ Hrn Ha)) as (E & Hh & H').
  split_and!; [done| |done]. split_and!.
  - by eapply (keeps_run_inst D n h cfg host_fn host_pair_fn (fun a x => proj2 (Hhost a x))
      (fun a x z w => proj2 (Hpair a x z w)) p s tt s1).
  - rewrite E. by eapply agree_mono.
  - rewrite E. intros Hpend. destruct (pending_S k p i Hpend Hk Hi) as [[Hpk _]|Hc]; [by apply Hp|].
    assert (r = Flags_Carry) as ->.
    { unfold consumes in Hc. apply orb_true_iff in Hc. unfold flag_reads in Hr.
      destruct (op_eqb_spec (i_op i) OpCode_Adc) as [E1|]; [rewrite E1 in Hr; by injection Hr|].
      destruct (op_eqb_spec (i_op i) OpCode_Sbb) as [E1|]; [rewrite E1 in Hr; by injection Hr|].
      by destruct Hc. }
    apply (agree_mono _ _ _ _ Hrn Ha); [done|reflexivity].
Qed.

Lemma saved_same k p i f s y :
  l !! k = Some p -> h !! p = Some i -> writer_flags i = Some f -> live_rel k s y ->
  saves_well h (kept h) i f (s_flags s) y.
Proof.
  intros Hk Hi Hf (_ & _ & Hp) Hop v d Hv Hd.
  destruct (ir_closed _ _ Hir p i v d Hi (GetArg_Value_in _ _ _ Hv) Hd) as [j Hj].
  destruct (st_saves _ _ Hline k p i f v d j Hk Hi Hop (writer_mask1 i f Hf Hop) Hv Hd Hj) as [Hc Hcons].
  split; [by exists j|]. exists j. split_and!; [done| |done].
  destruct (consumes (i_op j)) eqn:Ec; [right|by left]. symmetry. apply Hp.
  destruct (Hcons eq_refl) as (m & Hm & Hmd & Hu). exists m, k, d, j. split_and!; try done; lia.
Qed.

Lemma write_same k p i f s y s1 :
  l !! k = Some p -> h !! p = Some i -> writer_flags i = Some f -> live_rel k s y ->
  run p s = Ok (tt, s1) ->
  exists y1, run p (set_flags y s) = Ok (tt, set_flags y1 s1) /\ live_rel (S k) s1 y1
    /\ s_halt s1 = s_halt s.
Proof.
  intros Hk Hi Hf Hrel H. destruct (word_pair k s y Hrel) as [Hw Hwy].
  pose proof (saved_same k p i f s y Hk Hi Hf Hrel) as Hsave.
  pose proof (live_before_S k p i Hk Hi) as Ht. apply (transfer_writes i f) in Ht; [|done].
  destruct (sim_writer h h (kept h) (kept h) (fun _ => True) (whole_sim ext h Hir Hch) cfg host_fn
    host_pair_fn p i i f f s (set_flags y s) s1) as (v & x1 & y1 & -> & Hx & H' & Hy); try done.
  { intros v Hv d Hd. by eapply (ir_closed _ _ Hir p i v d). }
  { apply fsub_refl. }
  exists y1. split_and!; [by rewrite set_flags_twice in H'|..|done].
  destruct Hrel as (Hs & Ha & Hp). split_and!.
  - by eapply (keeps_run_inst D n h cfg host_fn host_pair_fn (fun a x => proj2 (Hhost a x))
      (fun a x z w => proj2 (Hpair a x z w)) p s tt _ Hs H).
  - eapply assigned_agree; [exact Ha|exact Hx|exact Hy|apply fsub_refl|apply fsub_land_l|].
    rewrite Ht. apply fsub_refl.
  - intros Hpend. destruct (pending_S k p i Hpend Hk Hi) as [[Hpk Hn]|Hc].
    + cbn [s_flags set_flags]. rewrite (Hx kHostFlagC), (Hy kHostFlagC) by (by vm_compute).
      unfold touches_carry in Hn. rewrite Hf in Hn. apply orb_false_iff in Hn as [_ Hn].
      assert (written f kHostFlagC = false) as -> by done. by apply Hp.
    + exfalso. unfold consumes, writer_flags in *. by destruct (i_op i).
Qed.

Lemma invert_same k p i s y :
  l !! k = Some p -> h !! p = Some i -> i_op i = OpCode_InvertCarry -> live_rel k s y ->
  live_rel (S k) (set_flags (Z.lxor (s_flags s) (bit64 kHostFlagC)) s) (Z.lxor y (bit64 kHostFlagC)).
Proof.
  intros Hk Hi Hop (Hs & Ha & Hp). pose proof (live_before_S k p i Hk Hi) as Ht.
  unfold transfer_inst in Ht. rewrite Hop in Ht. injection Ht as Ht. split_and!.
  - eapply (keeps_run_inst D n h cfg host_fn host_pair_fn (fun a x => proj2 (Hhost a x))
      (fun a x z w => proj2 (Hpair a x z w)) p s tt _ Hs). by apply (invert_step cfg host_fn host_pair_fn h p i).
  - simpl. apply invert_carry_agree. by rewrite Ht.
  - intros Hpend. destruct (pending_S k p i Hpend Hk Hi) as [[_ Hn]|Hc]; exfalso.
    + unfold touches_carry in Hn. by rewrite Hop in Hn.
    + by rewrite Hop in Hc.
Qed.

Lemma inst_same k p i s y s1 :
  l !! k = Some p -> h !! p = Some i -> live_rel k s y -> run p s = Ok (tt, s1) ->
  exists y1, run p (set_flags y s) = Ok (tt, set_flags y1 s1) /\ live_rel (S k) s1 y1
    /\ halts_by_fault s s1.
Proof.
  intros Hk Hi Hrel H. destruct (st_plain _ _ Hline p i) as [_ Hb]; [by eapply list_elem_of_lookup_2|done|].
  destruct (plain_cases i Hb) as [[r Hr]|[Hop|[Hr Hop]]].
  - exists y. by eapply read_same.
  - rewrite (invert_step cfg host_fn host_pair_fn h p i s Hi Hop) in H. injection H as <-.
    exists (Z.lxor y (bit64 kHostFlagC)).
    split; [exact (invert_step cfg host_fn host_pair_fn h p i (set_flags y s) Hi Hop)|]. split; [|by left].
    by eapply invert_same.
  - destruct (writer_readable i _ _ Hr Hb Hop (live_before_S k p i Hk Hi)) as [f Hf].
    destruct (write_same k p i f s y s1 Hk Hi Hf Hrel H) as (y1 & H1 & H2 & H3).
    exists y1. split_and!; [done..|by left].
Qed.

(** ** The block *)

Definition same_end (r : HaltReason) (s1 : IState) (y1 : Z) : Prop :=
  r = HaltReason_PageFatal \/ agree live_out (s_flags s1) y1.

Lemma terminal_same k s y r s1 :
  l !! k = None -> live_rel k s y -> RunTerminal h (b_terminal b) s = Ok (r, s1) ->
  exists y1, RunTerminal h (b_terminal b) (set_flags y s) = Ok (r, set_flags y1 s1) /\ same_end r s1 y1.
Proof.
  intros Hk (_ & Ha & _) H. apply lookup_ge_None in Hk. unfold live_before in Ha.
  rewrite drop_ge in Ha by done. simpl in Ha. destruct Hlo as [Hall|Hblind].
  - apply (agree_mono _ _ _ _ Hall), agree_all in Ha. subst y. rewrite set_flags_self.
    exists (s_flags s1). rewrite set_flags_self. split; [done|]. right. apply agree_refl.
  - destruct (terminal_blind h _ s r s1 y Hblind H) as [E H1]. exists y. split; [done|].
    right. by rewrite E.
Qed.

Lemma loop_same labels fuel k s y r s1 :
  live_rel k s y -> s_halt s = HaltReason_None ->
  run_loop h cfg host_fn host_pair_fn fuel labels b k s = Some (Ok (r, s1)) ->
  exists y1, run_loop h cfg host_fn host_pair_fn fuel labels b k (set_flags y s)
      = Some (Ok (r, set_flags y1 s1)) /\ same_end r s1 y1.
Proof.
  revert k s y. induction fuel as [|fl IH]; intros k s y Hrel Hh H; simpl in H |- *;
    destruct (l !! k) as [p|] eqn:Hk; try done.
  1, 3: injection H as H; destruct (terminal_same k s y r s1 Hk Hrel H) as (y1 & -> & Hy); by exists y1.
  destruct (loop_step h cfg host_fn host_pair_fn labels k p s) as [[x s2]|e] eqn:Es; [|done].
  unfold loop_step in Es |- *. apply bind_ok in Es as (i & s0 & Hi & Es).
  apply lift_ok in Hi as [Hi ->]. rewrite (bind_run _ _ _ _ _ (lift_run _ _ _ Hi)).
  unfold deref in Hi. destruct (h !! p) as [j|] eqn:Hp; [|done]. injection Hi as ->.
  destruct (st_plain _ _ Hline p i) as [Hj _]; [by eapply list_elem_of_lookup_2|done|].
  fold (jumps (i_op i)) in Es |- *. rewrite Hj in Es |- *.
  apply bind_ok in Es as ([] & s0 & Hr & Es).
  destruct (inst_same k p i s y s0 Hk Hp Hrel Hr) as (y0 & Hr' & Hrel' & Hhalt).
  rewrite (bind_run _ _ _ _ _ Hr'). unfold bind, gets in *. simpl in *.
  destruct (decide _) as [E|E]; unfold ret in *; injection Es as <- <-.
  - by apply IH.
  - injection H as <- <-. exists y0. split; [done|]. left. destruct Hhalt as [Hhalt|]; [congruence|done].
Qed.

Lemma block_same x fuel s y r s1 :
  n = slot_count h b -> entry_ok s -> D = dom (s_mem s) -> s_halt s = HaltReason_None ->
  TransferFlagsLiveness h l live_out = Ok x -> agree x (s_flags s) y ->
  run_block h cfg host_fn host_pair_fn fuel b s = Some (Ok (r, s1)) ->
  exists y1, run_block h cfg host_fn host_pair_fn fuel b (set_flags y s)
      = Some (Ok (r, set_flags y1 s1)) /\ same_end r s1 y1.
Proof.
  intros En [Hf Hm] ED Hh Hx Ha H. unfold run_block in *.
  destruct (collect_labels h l) as [labels|]; [|done].
  refine (loop_same labels fuel 0 (set_stack _ s) y r s1 _ Hh H). split_and!.
  - rewrite En, ED. split; simpl; [by apply Forall_replicate|by rewrite length_replicate|done..].
  - unfold live_before. by rewrite drop_0, Hx.
  - intros (m & j & d & i & Hlt & _). lia.
Qed.
End Run.

(** ** The blocks of a function *)

Lemma fold_lor_base {A} (g : A -> Z) l a : fsub a (foldl (fun acc x => Z.lor acc (g x)) a l).
Proof.
  revert a. induction l as [|x l IH]; intros a; [apply fsub_refl|]. simpl.
  eapply fsub_trans; [apply fsub_lor_l|apply IH].
Qed.

Lemma fold_lor_in {A} (g : A -> Z) l a x :
  x ∈ l -> fsub (g x) (foldl (fun acc x => Z.lor acc (g x)) a l).
Proof.
  revert a. induction l as [|z l IH]; intros a Hx; [by apply not_elem_of_nil in Hx|]. simpl.
  apply elem_of_cons in Hx as [<-|Hx]; [|by apply IH].
  eapply fsub_trans; [apply fsub_lor_r|apply fold_lor_base].
Qed.

Lemma live_out_unknown f b L :
  fsub Flags_All (ComputeBlockLiveOut f b L)
  \/ snd (CollectTerminalTargets (b_terminal (hb_block b))) = false.
Proof.
  unfold ComputeBlockLiveOut. destruct (undecoded _); [left; apply fsub_refl|].
  destruct (snd _) eqn:E; [left; apply fold_lor_base|by right].
Qed.

(** What is live into a decoded successor is live out of the block. *)
Lemma live_out_successor f b L t c b' :
  undecoded (hb_block b) = false -> t ∈ fst (CollectTerminalTargets (b_terminal (hb_block b))) ->
  find_successor f (hb_successors b) t = Some c -> live_total f L ->
  hf_blocks f !! c = Some b' -> undecoded (hb_block b') = false ->
  fsub (live_at L c) (ComputeBlockLiveOut f b L).
Proof.
  intros Hb Ht Hc HL Hb' Hd. unfold ComputeBlockLiveOut. rewrite Hb.
  eapply fsub_trans; [|by apply (fold_lor_in _ _ _ t)].
  unfold target_live, live_at. rewrite Hc, Hb', Hd.
  assert (is_Some (L !! c)) as [x ->] by (apply HL; by eexists). apply fsub_refl.
Qed.


(** ** Examples *)

(** A decidable condition for [masks_ok]. *)
Definition mask_ok (a : Arg) : bool :=
  match a with AFlags f => (0 <=? f) && (f <? 2 ^ 64) | _ => true end.

Lemma masks_check h :
  bool_decide (map_Forall (fun _ i => forallb mask_ok (i_args i) = true) h) = true -> masks_ok h.
Proof.
  rewrite bool_decide_eq_true. intros H p i k m Hp Hk. specialize (H p i Hp). simpl in H.
  unfold GetArg_Flags, get_slot in Hk. apply rbind_ok in Hk as (a & Ha & Hk).
  apply rbind_ok in Ha as (j & _ & Ha). unfold ArgAt in Ha.
  destruct (i_args i !! j) as [a'|] eqn:Ej; [|done]. injection Ha as ->.
  destruct a; try done. injection Hk as ->. rewrite forallb_forall in H.
  specialize (H (AFlags m)). simpl in H.
  assert ((0 <=? m) && (m <? 2 ^ 64) = true) as [?%Z.leb_le ?%Z.ltb_lt]%andb_true_iff; [|by split].
  apply H, list_elem_of_In. by eapply list_elem_of_lookup_2.
Qed.

Definition live_heap : Heap :=
  <[1%positive := mkInst OpCode_LoadImm [AImm (Imm_u64 5); AVoid; AVoid; AVoid; AVoid]
                    1 0 0 ValueType_U64 None]>
  (<[2%positive := mkInst OpCode_LoadImm [AImm (Imm_u64 3); AVoid; AVoid; AVoid; AVoid]
                    1 1 0 ValueType_U64 None]>
  (<[3%positive := flags_run_alu OpCode_Sub 2 4%positive]>
  (<[4%positive := flags_run_save 3%positive 3 Flags_All]>
  (<[5%positive := mkInst OpCode_TestFlags [AFlags Flags_Zero; AVoid; AVoid; AVoid; AVoid]
                    0 4 0 ValueType_U8 None]> ∅)))).

Definition live_first : HIRBlock :=
  graph_block 0 0x1000 (mkBlock [1; 2; 3; 4]%positive (LinkBlock 0x2000)) [1%nat] None.
Definition live_second : HIRBlock := graph_block 1 0x2000 (mkBlock [5%positive] ReturnToHost) [] None.
Definition live_function : HIRFunction := graph_function [live_first; live_second] None [] [0; 1]%nat.
Definition live_result : LiveMap := <[0%nat := Flags_None]> (<[1%nat := Flags_All]> ∅).

Lemma live_heap_ok : ir_ok (fun _ => 0) live_heap /\ chains_ok live_heap.
Proof.
  destruct (block_check_sound live_heap [1; 2; 3; 4; 5]%positive ReturnToHost) as [Hir Hch _ _ _ _];
    [vm_compute; reflexivity|reflexivity|done].
Qed.

Lemma live_straight : straight_line live_heap (b_insts (hb_block live_first)).
Proof.
  split.
  - intros p i Hp Hi. simpl in Hp.
    repeat (apply elem_of_cons in Hp as [->|Hp]; [vm_compute in Hi; injection Hi as <-; done|]).
    by apply not_elem_of_nil in Hp.
  - intros k p i f v d j Hk Hi Hop Hf Hv Hd Hj. simpl in Hk.
    destruct k as [|[|[|[|k]]]]; simpl in Hk; try done; injection Hk as <-;
      vm_compute in Hi; injection Hi as <-; try done.
    vm_compute in Hv. injection Hv as <-. vm_compute in Hd. injection Hd as <-.
    vm_compute in Hj. injection Hj as <-. vm_compute in Hf. injection Hf as <-. done.
Qed.

Lemma live_in_least_fixpoint_witness :
  exists L, ComputeFunctionLiveIn live_heap live_function 129 = Some (Ok L)
    /\ solution live_heap live_function L /\ live_at L 0 = Flags_None.
Proof.
  destruct (live_in_least_fixpoint live_heap live_function 129) as (L & HL & Ht & Hsol & _ & Hleast).
  - apply masks_check. vm_compute. reflexivity.
  - intros c Hc. simpl in Hc. repeat (apply elem_of_cons in Hc as [->|Hc]; [by eexists|]).
    by apply not_elem_of_nil in Hc.
  - intros c b Hc Hb. simpl in Hc.
    repeat (apply elem_of_cons in Hc as [->|Hc]; [injection Hb as <-; eexists; vm_compute; reflexivity|]).
    by apply not_elem_of_nil in Hc.
  - simpl. lia.
  - exists L. split; [exact HL|]. split; [exact Hsol|]. vm_compute in HL. injection HL as <-. reflexivity.
Defined.

