(* ===== verification/ConstFold.v ===== *)
(** * Constant folding

    Model of runtime/ir/opts/const_folding_pass.cpp: folding of immediates into
    their only ALU consumer ([FoldIntegerImmediates]) and block-local sharing of
    constant materialisations ([DedupConstants]). *)

From Stdlib Require Import ZArith Lia.
From stdpp Require Import numbers base gmap list.
From S2P Require Import IRTypes Prelude MachineInt Instr UseCount InterpCore.

Local Open Scope Z_scope.
Local Open Scope svm_scope.

Definition kReuseWindow : Z := 8.
Definition kIntegerImmediateUseWindow : Z := 5.

Definition WidthMask (bytes : Z) : Z := if 8 <=? bytes then 2 ^ 64 - 1 else 2 ^ (bytes * 8) - 1.

Definition IsAddSubImmediate (value : Z) : bool :=
  if value <? 0 then false
  else (value <=? 0xfff) || ((Z.land value 0xfff =? 0) && (Z.shiftr value 12 <=? 0xfff)).

Definition RotateRightWidth (value amount width : Z) : Z :=
  let mask := if width =? 64 then 2 ^ 64 - 1 else 2 ^ width - 1 in
  let value := Z.land value mask in
  let amount := amount mod width in
  if amount =? 0 then value
  else Z.land (Z.lor (Z.shiftr value amount) (shl64 value (width - amount))) mask.

(** The element widths tried: 2, 4, ... up to [width] (32 or 64). *)
Definition element_widths (width : Z) : list Z :=
  filter (fun e => e <= width) [2; 4; 8; 16; 32; 64].

Definition replicate_element (element element_bits width : Z) : Z :=
  foldl (fun acc k => Z.lor acc (shl64 element (k * element_bits))) 0
    (seqZ 0 (width / element_bits)).

Definition ones_run (ones : Z) : Z := if ones =? 64 then 2 ^ 64 - 1 else 2 ^ ones - 1.

Definition IsLogicalImmediate (value width : Z) : bool :=
  let width_mask := if width =? 64 then 2 ^ 64 - 1 else 2 ^ 32 - 1 in
  let value := Z.land value width_mask in
  if (value =? 0) || (value =? width_mask) then false
  else existsb (fun element_bits =>
    let element_mask := if element_bits =? 64 then 2 ^ 64 - 1 else 2 ^ element_bits - 1 in
    let element := Z.land value element_mask in
    (replicate_element element element_bits width =? value)
    && existsb (fun ones =>
         existsb (fun rotation =>
           RotateRightWidth (ones_run ones) rotation element_bits =? element)
           (seqZ 0 element_bits))
         (seqZ 1 (element_bits - 1)))
    (element_widths width).

(** The common head of the two immediate encoders: byte width check, register
    width and the immediate at that width. *)
Definition widen_immediate (source : Imm) (type : ValueType) : Res (option (Z * Z)) :=
  bytes <-? GetValueSizeByte type;
  if (bytes =? 0) || (8 <? bytes) || IsFloatValueType type then Ok None
  else let reg_bits := if bytes <=? 4 then 32 else 64 in
       let raw := Z.land (Imm_Get source) (WidthMask bytes) in
       let widened := Z.land raw (if reg_bits =? 32 then 2 ^ 32 - 1 else 2 ^ 64 - 1) in
       Ok (Some (reg_bits, widened)).

Definition AddSubImmediate (source : Imm) (type : ValueType) : Res (option Imm) :=
  w <-? widen_immediate source type;
  match w with
  | None => Ok None
  | Some (reg_bits, widened) =>
      if IsAddSubImmediate (to_signed 64 widened) then
        Ok (Some (if reg_bits =? 32 then Imm_u32 widened else Imm_u64 widened))
      else
        let signed_value := if reg_bits =? 32 then to_signed 32 widened else to_signed 64 widened in
        if (signed_value <? 0) && negb (signed_value =? - 2 ^ 63)
           && IsAddSubImmediate (- signed_value)
        then Ok (Some (if reg_bits =? 32 then Imm_s32 signed_value else Imm_s64 signed_value))
        else Ok None
  end.

Definition LogicalImmediate (source : Imm) (type : ValueType) : Res (option Imm) :=
  w <-? widen_immediate source type;
  match w with
  | None => Ok None
  | Some (reg_bits, widened) =>
      if IsLogicalImmediate widened reg_bits
      then Ok (Some (if reg_bits =? 32 then Imm_u32 widened else Imm_u64 widened))
      else Ok None
  end.

(** [RequestedFlags]: the flags the pseudo operations of an instruction save. *)
Fixpoint or_flags (h : Heap) (ps : list Ptr) (acc : Z) : Res Z :=
  match ps with
  | [] => Ok acc
  | q :: ps' =>
      i <-? deref h q;
      if op_eqb (i_op i) OpCode_SaveFlags || op_eqb (i_op i) OpCode_BranchOnlyFlags
      then f <-? GetArg_Flags i 1; or_flags h ps' (Z.lor acc f)
      else or_flags h ps' acc
  end.

Definition RequestedFlags (h : Heap) (p : Ptr) : Res Z :=
  ps <-? GetPseudoOperations h p; or_flags h ps 0.

(** ** [FoldIntegerImmediates] *)

(** A definition seen at most [kIntegerImmediateUseWindow] instructions ago. *)
Definition in_window (seen : gmap Ptr Z) (pos : Z) (p : Ptr) : bool :=
  match seen !! p with
  | Some at_ => wrap 32 (pos - at_) <=? kIntegerImmediateUseWindow
  | None => false
  end.

Definition plain_value (o : Operand) : option Value :=
  match o_right o, o_left o with
  | DNull, DValue v => if OperandOp_eqb (o_op o) OperandPlus then Some v else None
  | _, _ => None
  end.

(** [0 - x] becomes [Neg x]; true when rewritten. *)
Definition try_neg (seen : gmap Ptr Z) (pos : Z) (p : Ptr) : ST Heap bool :=
  i <- heap_deref p;;
  left <- lift (GetArg_Value i 0);;
  right <- lift (GetArg_Operand i 1);;
  match v_inst left with
  | None => ret false
  | Some zero =>
      if negb (in_window seen pos zero) then ret false else
      zi <- heap_deref zero;;
      if negb (op_eqb (i_op zi) OpCode_LoadImm) then ret false else
      m <- lift (GetArg_Imm zi 0);;
      if negb (Imm_Get m =? 0) then ret false else
      h <- get;;
      uses <- lift (GetUses h zero false);;
      if negb (uses =? 1) then ret false else
      match plain_value right with
      | None => ret false
      | Some source =>
          let type := i_ret i in
          DestroyArgs p;;; SetInst_Value p OpCode_Neg source;;; heap_update p (set_ret type);;;
          ret true
      end
  end.

Definition is_foldable (op : OpCode) : bool :=
  op_eqb op OpCode_Add || op_eqb op OpCode_Sub || op_eqb op OpCode_And || op_eqb op OpCode_Or
  || op_eqb op OpCode_Xor.

Definition is_addsub (op : OpCode) : bool := op_eqb op OpCode_Add || op_eqb op OpCode_Sub.

Definition fold_operand (seen : gmap Ptr Z) (pos : Z) (p : Ptr) : ST Heap unit :=
  i <- heap_deref p;;
  operand <- lift (GetArg_Operand i 1);;
  match plain_value operand with
  | None => ret tt
  | Some v =>
      match v_inst v with
      | None => ret tt
      | Some load =>
          if negb (in_window seen pos load) then ret tt else
          li <- heap_deref load;;
          if negb (op_eqb (i_op li) OpCode_LoadImm) then ret tt else
          h <- get;;
          uses <- lift (GetUses h load false);;
          if negb (uses =? 1) then ret tt else
          bytes <- lift (GetValueSizeByte (i_ret i));;
          narrow <- (if is_addsub (i_op i) && (bytes <=? 2)
                     then f <- lift (RequestedFlags h p);; ret (flag_true f Flags_NZCV)
                     else ret false);;
          if narrow : bool then ret tt else
          source <- lift (GetArg_Imm li 0);;
          folded <- lift (if is_addsub (i_op i) then AddSubImmediate source (i_ret i)
                          else LogicalImmediate source (i_ret i));;
          match folded with
          | Some m => SetArg_Operand p 1 (Operand_imm m)
          | None => ret tt
          end
      end
  end.

(** The body of the loop on one instruction. *)
Definition fold_step (seen : gmap Ptr Z) (pos : Z) (p : Ptr) : ST Heap unit :=
  i <- heap_deref p;;
  if is_foldable (i_op i) then
    negated <- (if op_eqb (i_op i) OpCode_Sub then try_neg seen pos p else ret false);;
    if negated : bool then ret tt else fold_operand seen pos p
  else ret tt.

Fixpoint fold_loop (seen : gmap Ptr Z) (pos : Z) (l : list Ptr) : ST Heap unit :=
  match l with
  | [] => ret tt
  | p :: l' =>
      let seen := match seen !! p with Some _ => seen | None => <[p := pos]> seen end in
      fold_step seen pos p;;;
      fold_loop seen (wrap 32 (pos + 1)) l'
  end.

Definition FoldIntegerImmediates (f : FeatureSet) (l : list Ptr) : ST Heap unit :=
  if int_imm_fold f then fold_loop ∅ 0 l else ret tt.

(** ** [DedupConstants] *)

Record DedupState := mkDedup {
  canonical : gmap (Z * Z) (Ptr * Z);   (* ImmKey -> (definition, index) *)
  vec_canonical : gmap (Z * Z) Ptr;     (* VecKey -> definition *)
  zero_canonical : option Ptr;
  replacement : gmap Ptr Ptr
}.

Definition dedup_init : DedupState := mkDedup ∅ ∅ None ∅.

Definition clear_facts (d : DedupState) : DedupState := mkDedup ∅ ∅ None (replacement d).

(** [replacement.emplace]: an existing entry is kept. *)
Definition add_replacement (p c : Ptr) (d : DedupState) : DedupState :=
  mkDedup (canonical d) (vec_canonical d) (zero_canonical d)
    (match replacement d !! p with Some _ => replacement d | None => <[p := c]> (replacement d) end).

(** Rewrite argument [k] of [p] if it names a duplicate. *)
Definition replace_arg (d : DedupState) (p : Ptr) (k : nat) : ST Heap unit :=
  i <- heap_deref p;;
  a <- lift (ArgAt i k);;
  match a with
  | AValue v =>
      match v_inst v with
      | None => ret tt
      | Some def => match replacement d !! def with
                    | Some c => SetArg_Value p k (Value_of c)
                    | None => ret tt
                    end
      end
  | ALambda l =>
      if Lambda_IsValue l then
        v <- lift (Lambda_GetValue l);;
        match v_inst v with
        | None => ret tt
        | Some def => match replacement d !! def with
                      | Some c => SetArg_Lambda p k (Lambda_of (DValue (Value_of c)))
                      | None => ret tt
                      end
        end
      else ret tt
  | _ => ret tt
  end.

(** Register the constant an instruction defines. *)
Definition note_constant (cse : bool) (index : Z) (p : Ptr) (i : Inst) (d : DedupState)
  : Res DedupState :=
  match i_op i with
  | OpCode_VecLoadConst =>
      lo <-? GetArg_Imm i 0; hi <-? GetArg_Imm i 1;
      let key := (Imm_Get lo, Imm_Get hi) in
      match vec_canonical d !! key with
      | Some c => Ok (add_replacement p c d)
      | None => Ok (mkDedup (canonical d) (<[key := p]> (vec_canonical d)) (zero_canonical d)
                      (replacement d))
      end
  | OpCode_VecSharedZero =>
      match zero_canonical d with
      | Some c => Ok (add_replacement p c d)
      | None => Ok (mkDedup (canonical d) (vec_canonical d) (Some p) (replacement d))
      end
  | OpCode_LoadImm =>
      if negb cse then Ok d else
      m <-? GetArg_Imm i 0;
      let key := (Imm_Get m, vt_index (i_ret i)) in
      match canonical d !! key with
      | None => Ok (mkDedup (<[key := (p, index)]> (canonical d)) (vec_canonical d)
                      (zero_canonical d) (replacement d))
      | Some (c, at_) =>
          if wrap 32 (index - at_) <=? kReuseWindow then Ok (add_replacement p c d)
          else Ok (mkDedup (<[key := (p, index)]> (canonical d)) (vec_canonical d)
                     (zero_canonical d) (replacement d))
      end
  | _ => Ok d
  end.

Definition is_label_op (op : OpCode) : bool :=
  op_eqb op OpCode_Goto || op_eqb op OpCode_NotGoto || op_eqb op OpCode_BindLabel.

Fixpoint dedup_loop (cse : bool) (index : Z) (d : DedupState) (l : list Ptr) : ST Heap DedupState :=
  match l with
  | [] => ret d
  | p :: l' =>
      let index := wrap 32 (index + 1) in
      i <- heap_deref p;;
      if is_label_op (i_op i) then dedup_loop cse index (clear_facts d) l'
      else
        (if IsPseudoOperation i then ret tt else for_each (replace_arg d p) (seq 0 max_args));;;
        i <- heap_deref p;;
        d <- lift (note_constant cse index p i d);;
        dedup_loop cse index d l'
  end.

Definition DedupConstants (f : FeatureSet) (l : list Ptr) : ST Heap DedupState :=
  dedup_loop (const_cse f) 0 dedup_init l.

(** [ConstFoldingPass::Run] on a block. *)
Definition ConstFoldingPass_Run (f : FeatureSet) (l : list Ptr) : ST Heap unit :=
  FoldIntegerImmediates f l;;; DedupConstants f l;;; ret tt.
