(* ===== verification/HirExample.v ===== *)
(** * The value table and the builder: examples

    A function of one block built with [AppendInst], on which the theorems of
    HirTable.v are applied; and what happens to its use lists when the
    constant folding pass rewrites an instruction and dead code elimination
    then erases it.  At the end a function of two blocks built through the builder, and a
    run of [AdvancePC] markers whose folded length wraps. *)

From Stdlib Require Import ZArith Lia.
From stdpp Require Import numbers base gmap list.
From S2P Require Import Prelude IRTypes MachineInt Instr UseCount InstrBuild Interp DeadCode HirValues HirValuesProps Cfg.
From S2P Require Import CfgProps HirFunction HirAppend HirTable HirBuilder HirGraph HirTargets HirBuilderProps ConstFold.

Local Open Scope Z_scope.
Local Open Scope svm_scope.

(** ** A decidable condition for [hir_ok] *)

Definition slot_check (h : Heap) (values : list (option Ptr)) (p : Ptr) : bool :=
  match h !! p with
  | Some i => (0 <=? i_id i) && negb (i_id i =? invalid_id)
              && bool_decide (values !! Z.to_nat (i_id i) = Some (if Inst_HasValue i then Some p else None))
  | None => false
  end.

Definition owner_check (h : Heap) (live : list Ptr) (k : nat) (v : option Ptr) : bool :=
  match v with
  | None => true
  | Some p => bool_decide (p ∈ live) && match h !! p with Some i => i_id i =? Z.of_nat k | None => false end
  end.

Definition closed_check (live : list Ptr) (l : list (Value * nat)) : bool :=
  forallb (fun x => match v_inst (fst x) with Some d => bool_decide (d ∈ live) | None => true end) l.

Definition value_check (s : HState) (b : nat) (p : Ptr) : bool :=
  let h := hs_heap s in
  match h !! p, vt_pool (hf_values (hs_fn s)) !! p with
  | Some i, Some v =>
      negb (Inst_HasValue i)
      || (bool_decide (hv_def v = p) && bool_decide (hv_block v = b)
          && bool_decide (hv_uses v = live_uses h (live_insts (hs_fn s)) p))
  | Some i, None => negb (Inst_HasValue i)
  | None, _ => false
  end.

Definition hir_check (s : HState) : bool :=
  let h := hs_heap s in
  let f := hs_fn s in
  let t := hf_values f in
  let live := live_insts f in
  bool_decide (NoDup live)
  && forallb (slot_check h (vt_values t)) live
  && forallb (fun k => match vt_values t !! k with Some v => owner_check h live k v | None => true end)
       (seq 0 (length (vt_values t)))
  && bool_decide (NoDup ((fun p => i_id <$> h !! p) <$> live))
  && forallb (fun q => closed_check live (uses_at h q)) live
  && forallb (fun b => match hf_blocks f !! b with
                       | Some x => forallb (value_check s b) (block_insts x)
                       | None => true
                       end) (seq 0 (length (hf_blocks f)))
  && (vt_count t =? value_count h live)
  && forallb (fun p => match h !! p with Some i => args_ok i | None => true end) live
  && (hf_inst_order_id f =? Z.of_nat (length (vt_values t))).

Lemma forallb_elem {A} (P : A -> bool) l x : forallb P l = true -> x ∈ l -> P x = true.
Proof. intros H Hx. rewrite forallb_forall in H. by apply H, list_elem_of_In. Qed.

Lemma slots_distinct (h : Heap) live p q i j :
  NoDup ((fun p => i_id <$> h !! p) <$> live) -> p ∈ live -> q ∈ live ->
  h !! p = Some i -> h !! q = Some j -> i_id i = i_id j -> p = q.
Proof.
  intros Hnd [k Hk]%list_elem_of_lookup [m Hm]%list_elem_of_lookup Hi Hj E.
  assert (k = m) as ->; [|congruence].
  eapply NoDup_lookup; [exact Hnd|rewrite list_lookup_fmap, Hk; simpl; rewrite Hi; reflexivity|].
  rewrite list_lookup_fmap, Hm. simpl. rewrite Hj. simpl. by rewrite E.
Qed.

Lemma block_of f p : p ∈ live_insts f -> exists b x, hf_blocks f !! b = Some x /\ p ∈ block_insts x.
Proof.
  unfold live_insts. intros (l & Hp & Hl)%list_elem_of_join.
  apply list_elem_of_fmap in Hl as (x & -> & [b Hb]%list_elem_of_lookup). eauto.
Qed.

Lemma hir_check_sound s : hir_check s = true -> hir_ok s.
Proof.
  unfold hir_check. rewrite !andb_true_iff, !bool_decide_eq_true.
  intros ((((((((Hnd & Hsl) & How) & Hds) & Hcl) & Hva) & Hct%Z.eqb_eq) & Har) & Hnx%Z.eqb_eq).
  assert (Hval : forall b x p i, hf_blocks (hs_fn s) !! b = Some x -> p ∈ block_insts x ->
            hs_heap s !! p = Some i -> Inst_HasValue i = true ->
            exists v, vt_pool (hf_values (hs_fn s)) !! p = Some v /\ hv_def v = p /\ hv_block v = b /\
                      hv_uses v = live_uses (hs_heap s) (live_insts (hs_fn s)) p).
  { intros b x p i Hx Hp Hi Hh. apply lookup_lt_Some in Hx as Hlt.
    apply (forallb_elem _ _ b) in Hva; [|apply elem_of_seq; lia]; cbv beta in Hva. rewrite Hx in Hva.
    apply (forallb_elem _ _ p) in Hva; [|done]; cbv beta in Hva. unfold value_check in Hva. rewrite Hi, Hh in Hva.
    destruct (vt_pool (hf_values (hs_fn s)) !! p) as [v|]; [|done]. simpl in Hva.
    rewrite !andb_true_iff, !bool_decide_eq_true in Hva. exists v. tauto. }
  split; [split; [done|split| | |done]|..|done].
  - intros p Hp. apply (forallb_elem _ _ p) in Hsl; [|done]; cbv beta in Hsl. unfold slot_check in Hsl.
    destruct (hs_heap s !! p) as [i|]; [|done]. exists i.
    rewrite !andb_true_iff, negb_true_iff, bool_decide_eq_true in Hsl.
    destruct Hsl as ((?%Z.leb_le & ?%Z.eqb_neq) & ?). done.
  - intros k p Hk. apply lookup_lt_Some in Hk as Hlt.
    apply (forallb_elem _ _ k) in How; [|apply elem_of_seq; lia]; cbv beta in How. rewrite Hk in How.
    unfold owner_check in How. rewrite andb_true_iff, bool_decide_eq_true in How.
    destruct How as [? How]. split; [done|]. destruct (hs_heap s !! p) as [i|]; [|done].
    exists i. by apply Z.eqb_eq in How.
  - intros p q i j. by apply slots_distinct.
  - intros q Hq x d Hx Hd. apply (forallb_elem _ _ q) in Hcl; [|done]; cbv beta in Hcl.
    apply (forallb_elem _ _ x) in Hcl; [|done]; cbv beta in Hcl. simpl in Hcl. rewrite Hd in Hcl. by apply bool_decide_eq_true in Hcl.
  - intros d i Hd Hi Hh. destruct (block_of _ _ Hd) as (b & x & Hx & Hp).
    destruct (Hval b x d i Hx Hp Hi Hh) as (v & ? & ? & _ & E). exists v. by rewrite E.
  - intros p i Hp Hi. apply (forallb_elem _ _ p) in Har; [|done]; cbv beta in Har. by rewrite Hi in Har.
  - intros b x p i v Hx Hp Hi Hh Hv. destruct (Hval b x p i Hx Hp Hi Hh) as (w & Hw & _ & ? & _). congruence.
Qed.

(** ** A function of one block *)

Definition hir_initial : HState := mkHState ∅ (empty_function false).

(** [zero = LoadImm 0; x = LoadUniform; y = Sub zero, x; StoreUniform x]. *)
Definition build_negation : ST HState unit :=
  HIRFunction_new 0x1000;;;
  AppendInst 1%positive OpCode_LoadImm (Some ValueType_U64) [BImm (Imm_u64 0)];;;
  AppendInst 2%positive OpCode_LoadUniform (Some ValueType_U64) [BUniform (mkUniform 8 ValueType_U64)];;;
  AppendInst 3%positive OpCode_Sub (Some ValueType_U64)
    [BValue (mkValue (Some 1%positive) ValueType_VOID);
     BOperand (mkOperand OperandPlus (DValue (mkValue (Some 2%positive) ValueType_VOID)) DNull)];;;
  AppendInst 4%positive OpCode_StoreUniform None
    [BUniform (mkUniform 16 ValueType_U64); BValue (mkValue (Some 2%positive) ValueType_VOID)];;;
  EndBlock ReturnToDispatch;;;
  EndFunction.

Example build_negation_ok : exists s, build_negation hir_initial = Ok (tt, s) /\ hir_check s = true.
Proof. eexists. split; [vm_compute; reflexivity|vm_compute; reflexivity]. Qed.

(** [Block 1] after [ConstFoldingPass::Run]: the subtraction is now [Neg x]. *)
Definition fold_negation : ST HState unit := on_heap (ConstFoldingPass_Run all_features [1; 2; 3; 4]%positive).

(** A pass that rewrites arguments behind the value table makes [EraseInst] leave a
    dangling use: constant folding turns [Sub zero, x] into [Neg x] without
    telling the table, so that erasing the (unused) result unregisters slot 0
    and keeps the use under slot 2.  The use list of [x], which is still alive,
    then names a freed instruction. *)
Theorem rewriting_leaves_dangling_use :
  exists s1 s2 s3 v u,
    build_negation hir_initial = Ok (tt, s1) /\ hir_ok s1 /\
    fold_negation s1 = Ok (tt, s2) /\
    EraseInst 1 3%positive s2 = Ok (tt, s3) /\
    2%positive ∈ live_insts (hs_fn s3) /\
    vt_pool (hf_values (hs_fn s3)) !! 2%positive = Some v /\ u ∈ hv_uses v /\
    hs_heap s3 !! u_inst u = None.
Proof.
  destruct build_negation_ok as (s1 & H1 & Hc).
  destruct (fold_negation s1) as [[[] s2]|] eqn:H2; [|vm_compute in H1; injection H1 as <-; vm_compute in H2; discriminate H2].
  destruct (EraseInst 1 3%positive s2) as [[[] s3]|] eqn:H3;
    [|vm_compute in H1; injection H1 as <-; vm_compute in H2; injection H2 as <-; vm_compute in H3; discriminate H3].
  exists s1, s2, s3, (mkHIRValue 2%positive 1 [mkHIRUse 3%positive 2; mkHIRUse 4%positive 1]), (mkHIRUse 3%positive 2).
  split; [exact H1|]. split; [by apply hir_check_sound|]. split; [done|]. split; [done|].
  vm_compute in H1. injection H1 as <-. vm_compute in H2. injection H2 as <-.
  vm_compute in H3. injection H3 as <-. split; [vm_compute; right; left|].
  split; [reflexivity|]. split; [left|reflexivity].
Qed.

(** ** Witnesses *)

Lemma append_routes_equal_witness :
  append_route true 5%positive OpCode_LoadImm (Some ValueType_U32) [BImm (Imm_u32 7)] hir_initial =
  append_route false 5%positive OpCode_LoadImm (Some ValueType_U32) [BImm (Imm_u32 7)] hir_initial.
Proof. apply append_routes_equal. reflexivity. Defined.

(** The state of [build_negation] before its terminal, and one instruction more. *)
Definition hir_built : HState :=
  match (HIRFunction_new 0x1000;;;
         AppendInst 1%positive OpCode_LoadImm (Some ValueType_U64) [BImm (Imm_u64 5)];;;
         AppendInst 2%positive OpCode_Add (Some ValueType_U64)
           [BValue (mkValue (Some 1%positive) ValueType_VOID);
            BOperand (mkOperand OperandPlus (DImm (Imm_u64 1)) DNull)]) hir_initial with
  | Ok (_, s) => s
  | Err _ => hir_initial
  end.

Lemma hir_built_ok : hir_ok hir_built.
Proof. apply hir_check_sound. vm_compute. reflexivity. Qed.

Lemma hir_built_live : live_insts (hs_fn hir_built) = [1%positive; 2%positive].
Proof. vm_compute. reflexivity. Qed.

Lemma AppendInst_ok_witness :
  exists s', AppendInst 3%positive OpCode_Neg (Some ValueType_U64)
      [BValue (mkValue (Some 1%positive) ValueType_VOID)] hir_built = Ok (tt, s') /\ hir_ok s'.
Proof.
  destruct (AppendInst 3%positive OpCode_Neg (Some ValueType_U64)
      [BValue (mkValue (Some 1%positive) ValueType_VOID)] hir_built) as [[[] s']|] eqn:H;
    [|vm_compute in H; discriminate H].
  exists s'. split; [done|]. eapply (AppendInst_ok 3%positive); [apply hir_built_ok|..|exact H].
  - reflexivity.
  - reflexivity.
  - vm_compute. reflexivity.
  - vm_compute. reflexivity.
  - intros v d Hv Hd. change (v ∈ [mkValue (Some 1%positive) ValueType_VOID]) in Hv.
    apply list_elem_of_singleton in Hv as ->. injection Hd as <-. rewrite hir_built_live. left.
Defined.

Lemma EraseInst_ok_witness :
  exists s', EraseInst 1 2%positive hir_built = Ok (tt, s') /\ hir_ok s' /\
    live_insts (hs_fn hir_built) ≡ₚ 2%positive :: live_insts (hs_fn s').
Proof.
  destruct (Inst_delete 2%positive (hs_heap hir_built)) as [[[] h']|] eqn:H; [|vm_compute in H; discriminate H].
  destruct (hf_blocks (hs_fn hir_built) !! 1%nat) as [x|] eqn:Hx; [|vm_compute in Hx; discriminate Hx].
  destruct (EraseInst_ok 1 x 2%positive hir_built h') as (s' & H1 & _ & H2 & H3 & _).
  - apply hir_built_ok.
  - exact Hx.
  - vm_compute in Hx. injection Hx as <-. right. left.
  - vm_compute. reflexivity.
  - exact H.
  - exists s'. split; [exact H1|]. split; [exact H2|exact H3].
Defined.

Definition hir_ordered : HState :=
  mkHState (hs_heap hir_built) (set_rpo [1%nat] (hs_fn hir_built)).

Lemma IdByRPO_ok_witness :
  exists s', IdByRPO hir_ordered = Ok (tt, s') /\ hir_ok s' /\
    vt_values (hf_values (hs_fn s')) = [Some 1%positive; Some 2%positive].
Proof.
  destruct (IdByRPO_ok hir_ordered) as (s' & H1 & H2 & _ & _ & H3).
  - apply hir_check_sound. vm_compute. reflexivity.
  - vm_compute. reflexivity.
  - vm_compute. discriminate.
  - exists s'. split; [exact H1|]. split; [exact H2|]. rewrite H3. vm_compute. reflexivity.
Defined.

(** ** The builder *)

Definition example_config : BuilderConfig := mkBuilderConfig false true true.

(** The state after [m], or the given one when [m] fails. *)
Definition after {A} (m : ST HIRBuilder A) (s : HIRBuilder) : HIRBuilder :=
  match m s with Ok (_, s') => s' | Err _ => s end.

Definition built1 : HIRBuilder := after (AppendFunction example_config 0x1000 0) builder_new.
Definition built2 : HIRBuilder :=
  after (Builder_AppendInst example_config 1%positive OpCode_LoadImm (Some ValueType_U64) [BImm (Imm_u64 5)]) built1.
Definition built3 : HIRBuilder :=
  after (Builder_AppendInst example_config 2%positive OpCode_AdvancePC None [BImm (Imm_sized 5 ValueType_U8)]) built2.
Definition built4 : HIRBuilder :=
  after (Builder_If (mkValue (Some 1%positive) ValueType_VOID) (LinkBlock 0x2000) (LinkBlock 0x1000)) built3.
Definition built5 : HIRBuilder := after (SetCurBlock_at 0x2000) built4.

Lemma built5_reachable : rtc (builder_step example_config) builder_new built5.
Proof.
  eapply rtc_l; [apply (step_append_function example_config 0x1000 0 _ built1); vm_compute; reflexivity|].
  eapply rtc_l; [eapply (step_append_inst example_config 1%positive OpCode_LoadImm (Some ValueType_U64) [BImm (Imm_u64 5)] _ _ built2); vm_compute; reflexivity|].
  eapply rtc_l; [eapply (step_append_inst example_config 2%positive OpCode_AdvancePC None [BImm (Imm_sized 5 ValueType_U8)] _ _ built3); vm_compute; reflexivity|].
  eapply rtc_l; [eapply (step_if example_config (mkValue (Some 1%positive) ValueType_VOID) (LinkBlock 0x2000) (LinkBlock 0x1000) _ _ built4); vm_compute; reflexivity|].
  eapply rtc_l; [apply (step_set_cur_block_at example_config 0x2000 _ built5); vm_compute; reflexivity|].
  reflexivity.
Defined.

(** The block at 0x1000 ended with an [If], so it has an edge to a block at 0x2000. *)
Lemma builder_reachable_ok_witness :
  exists f, bl_functions built5 !! 0%nat = Some f /\ graph_ok f /\
    exists c, has_edge f 1 c /\ starts_at f c 0x2000.
Proof.
  destruct (builder_reachable_ok example_config built5 built5_reachable) as [H _].
  destruct (bl_functions built5 !! 0%nat) as [f|] eqn:Hf; [|vm_compute in Hf; discriminate Hf].
  destruct (H 0%nat f) as [Hok Hl]; [vm_compute; reflexivity|exact Hf|].
  destruct (hf_blocks f !! 1%nat) as [x|] eqn:Hx; [|vm_compute in Hf; injection Hf as <-; vm_compute in Hx; discriminate Hx].
  exists f. split; [reflexivity|]. split; [exact Hok|]. apply (Hl 1%nat x); [exact Hx|].
  vm_compute in Hf. injection Hf as <-. vm_compute in Hx. injection Hx as <-. vm_compute. right. left.
Defined.

(** The function of [built5], still open. *)
Definition open_function : HIRFunction :=
  match bl_functions built5 with f :: _ => f | [] => empty_function true end.

Lemma open_function_ok : graph_ok open_function.
Proof.
  assert (Hok : builder_ok built5).
  { generalize built5_reachable. generalize builder_new_ok. generalize builder_new. intros s0 H0 H.
    induction H as [|x y z Hxy _ IH]; [done|]. by apply IH, (builder_step_ok example_config x). }
  destruct (bo_current _ Hok 0%nat) as (f & Hf & Hg & _); [vm_compute; reflexivity|].
  unfold open_function. destruct (bl_functions built5) as [|g l]; [done|]. simpl in Hf. by injection Hf as ->.
Qed.

Lemma EndFunction_spec_witness :
  exists s', EndFunction (mkHState (bl_heap built5) open_function) = Ok (tt, s') /\
    hf_vector (hs_fn s') = Some <$> seq 0 3 /\ is_Some (ComputeRPO (hs_fn s') (rpo_fuel (hs_fn s'))).
Proof.
  destruct (EndFunction_spec (mkHState (bl_heap built5) open_function)) as (s' & H1 & _ & H2 & _ & _ & H3).
  - apply open_function_ok.
  - vm_compute. reflexivity.
  - exists s'. split; [exact H1|]. split; [exact H2|exact H3].
Defined.

(** ** A length that wraps *)

Lemma built3_retained : retained 2%positive (Imm_sized 5 ValueType_U8) built3.
Proof.
  split; [|reflexivity|reflexivity|].
  - destruct (bl_functions built3 !! 0%nat) as [f|] eqn:Hf; [|vm_compute in Hf; discriminate Hf].
    exists 0%nat, f, 1%nat. split; [reflexivity|]. split; [exact Hf|].
    vm_compute in Hf. injection Hf as <-. split; reflexivity.
  - destruct (bl_heap built3 !! 2%positive) as [i|] eqn:Hi; [|vm_compute in Hi; discriminate Hi].
    exists i. split; [exact Hi|]. vm_compute in Hi. injection Hi as <-. split; reflexivity.
Qed.

(** Fifty-one more instructions of five bytes: 260 bytes of code, recorded as 4. *)
Definition five_bytes : list (Ptr * Imm) := replicate 51 (3%positive, Imm_sized 5 ValueType_U8).

Lemma advance_coalesced_witness :
  exists s' m' i', advance_all example_config five_bytes built3 = Ok (tt, s') /\
    bl_heap s' !! 2%positive = Some i' /\ GetArg_Imm i' 0 = Ok m' /\ Imm_Get m' = 4.
Proof.
  destruct (advance_coalesced example_config eq_refl 2%positive (Imm_sized 5 ValueType_U8) 8 five_bytes built3)
    as (s' & m' & i' & H1 & _ & _ & _ & H2 & H3 & _ & H4).
  - apply built3_retained.
  - reflexivity.
  - exists s', m', i'. split; [exact H1|]. split; [exact H2|]. split; [exact H3|]. rewrite H4. reflexivity.
Defined.
