(* ===== verification/ConstFoldProps.v ===== *)
(** * Correctness of constant folding *)

From Stdlib Require Import ZArith Lia.
From stdpp Require Import numbers base gmap list.
From S2P Require Import Prelude MachineInt IRTypes Instr UseCount InterpCore InterpFlags.
From S2P Require Import InterpScalar InterpMemory InterpVector Interp.
From S2P Require Import InterpInvariant FlagProps ScalarProps MemoryProps DeadCode.
From S2P Require Import ConstFold.

Local Open Scope Z_scope.
Local Open Scope svm_scope.

(** ** The folded immediate *)

Lemma WidthMask_land x n : 0 < n <= 8 -> Z.land x (WidthMask n) = wrap (8 * n) x.
Proof.
  intros Hn. rewrite <- wrap_land_ones by lia. f_equal. unfold WidthMask.
  destruct (Z.leb_spec 8 n); rewrite Z.ones_equiv; [by assert (n = 8) as -> by lia|].
  rewrite <- Z.sub_1_r. do 2 f_equal. lia.
Qed.

Lemma widen_immediate_spec source t n reg widened :
  GetValueSizeByte t = Ok n -> widen_immediate source t = Ok (Some (reg, widened)) ->
  0 < n <= 8 /\ reg = (if n <=? 4 then 32 else 64) /\ widened = wrap (8 * n) (Imm_Get source).
Proof.
  intros Hn H. unfold widen_immediate in H. rewrite Hn in H. simpl in H.
  destruct ((n =? 0) || (8 <? n) || IsFloatValueType t) eqn:E; [done|].
  apply orb_false_iff in E as [E _]. apply orb_false_iff in E as [_ E]. apply Z.ltb_ge in E.
  pose proof (size_pos _ _ Hn). injection H as <- <-. split; [lia|]. split; [done|].
  rewrite WidthMask_land by lia.
  pose proof (wrap_range (8 * n) (Imm_Get source) ltac:(lia)).
  destruct (Z.leb_spec n 4); simpl.
  - change (2 ^ 32 - 1) with (Z.ones 32). rewrite wrap_land_ones, wrap_wrap_le by lia. done.
  - change (2 ^ 64 - 1) with (Z.ones 64). rewrite wrap_land_ones, wrap_wrap_le by lia. done.
Qed.

Lemma folded_unsigned n x :
  0 < n <= 8 ->
  wrap (8 * n) (Imm_Get (if (if n <=? 4 then 32 else 64) =? 32
                         then Imm_u32 (wrap (8 * n) x) else Imm_u64 (wrap (8 * n) x)))
  = wrap (8 * n) x.
Proof.
  intros Hn. destruct (Z.leb_spec n 4); simpl.
  - unfold Imm_Get, Imm_u32. simpl. by rewrite !wrap_wrap by lia.
  - unfold Imm_Get, Imm_u64. simpl. by rewrite !wrap_wrap by lia.
Qed.

Lemma folded_immediate source t n m :
  GetValueSizeByte t = Ok n ->
  AddSubImmediate source t = Ok (Some m) \/ LogicalImmediate source t = Ok (Some m) ->
  wrap (8 * n) (Imm_Get m) = wrap (8 * n) (Imm_Get source).
Proof.
  intros Hn H. unfold AddSubImmediate, LogicalImmediate in H.
  destruct (widen_immediate source t) as [[[reg widened]|]|] eqn:E; simpl in H;
    [|by destruct H..].
  destruct (widen_immediate_spec _ _ _ _ _ Hn E) as (Hn8 & -> & ->).
  destruct H as [H|H].
  - destruct (IsAddSubImmediate _).
    { injection H as <-. by apply folded_unsigned. }
    set (r := if n <=? 4 then 32 else 64) in *.
    destruct (_ && _ && _); [|done]. injection H as <-.
    assert (8 * n <= r) as Hr by (unfold r; destruct (Z.leb_spec n 4); lia).
    assert (forall y, Imm_Get (if r =? 32 then Imm_s32 y else Imm_s64 y) = wrap r y) as Hg.
    { intros y. unfold r. destruct (n <=? 4); simpl; unfold Imm_Get; simpl;
        apply wrap_idemp; lia. }
    assert ((if r =? 32 then to_signed 32 (wrap (8 * n) (Imm_Get source))
             else to_signed 64 (wrap (8 * n) (Imm_Get source)))
            = to_signed r (wrap (8 * n) (Imm_Get source))) as ->
      by (unfold r; by destruct (n <=? 4)).
    rewrite Hg, wrap_to_signed by lia. rewrite wrap_wrap by lia. by rewrite wrap_idemp by lia.
  - destruct (IsLogicalImmediate _ _); [|done]. injection H as <-. by apply folded_unsigned.
Qed.

(** A64 add/sub immediates: 12 bits, optionally shifted left by 12. *)
Lemma IsAddSubImmediate_spec v :
  IsAddSubImmediate v = true <->
  exists k, 0 <= k < 2 ^ 12 /\ (v = k \/ v = Z.shiftl k 12).
Proof.
  unfold IsAddSubImmediate. destruct (Z.ltb_spec v 0) as [Hv|Hv].
  { split; [done|]. intros (k & Hk & [-> | ->]); [lia|].
    rewrite Z.shiftl_mul_pow2 in Hv by lia. lia. }
  rewrite orb_true_iff, andb_true_iff, !Z.leb_le, Z.eqb_eq. change 4095 with (Z.ones 12) at 2.
  rewrite Z.land_ones, Z.shiftr_div_pow2 by lia. split.
  - intros [H|[H1 H2]]; [exists v; split; [lia|by left]|].
    exists (v / 2 ^ 12). split; [split; [apply Z.div_pos; lia|lia]|]. right.
    rewrite Z.shiftl_mul_pow2 by lia. pose proof (Z.div_mod v (2 ^ 12) ltac:(lia)). lia.
  - intros (k & Hk & [-> | ->]); [left; lia|right].
    rewrite Z.shiftl_mul_pow2, Z.mod_mul, Z.div_mul by lia. lia.
Qed.

(** A folded immediate is encodable and equal: whenever [AddSubImmediate]
    (or [LogicalImmediate]) accepts a constant for an instruction of [n] bytes,
    the immediate it returns agrees with the constant modulo 2^(8n), and as a
    signed 32- or 64-bit number it or its negation is a 12-bit number optionally
    shifted left by 12, the immediate form of the AArch64 ADD and SUB. *)
Theorem folded_immediate_encodable (source m : Imm) (t : ValueType) (n : Z) :
  GetValueSizeByte t = Ok n -> AddSubImmediate source t = Ok (Some m) ->
  wrap (8 * n) (Imm_Get m) = wrap (8 * n) (Imm_Get source)
  /\ exists k, 0 <= k < 2 ^ 12 /\
       (Z.abs (Imm_GetSigned m) = k \/ Z.abs (Imm_GetSigned m) = Z.shiftl k 12).
Proof.
  intros Hn H. split; [eapply folded_immediate; eauto|].
  unfold AddSubImmediate in H.
  destruct (widen_immediate source t) as [[[reg widened]|]|] eqn:E; simpl in H; try done.
  destruct (widen_immediate_spec _ _ _ _ _ Hn E) as (Hn8 & -> & Hw).
  assert (0 <= widened < 2 ^ (if n <=? 4 then 32 else 64)) as Hr.
  { rewrite Hw. pose proof (wrap_range (8 * n) (Imm_Get source) ltac:(lia)).
    destruct (Z.leb_spec n 4);
      [assert (2 ^ (8 * n) <= 2 ^ 32) by (apply Z.pow_le_mono_r; lia)
      |assert (2 ^ (8 * n) <= 2 ^ 64) by (apply Z.pow_le_mono_r; lia)]; lia. }
  destruct (IsAddSubImmediate (to_signed 64 widened)) eqn:Ea.
  - injection H as <-. apply IsAddSubImmediate_spec in Ea as (k & Hk & Hv). exists k. split; [done|].
    assert (Imm_GetSigned (if (if n <=? 4 then 32 else 64) =? 32 then Imm_u32 widened
                           else Imm_u64 widened) = to_signed 64 widened) as ->.
    { destruct (n <=? 4); simpl in *; unfold Imm_GetSigned, Imm_Get; simpl;
        rewrite !(wrap_small _ widened) by lia; done. }
    assert (0 <= Z.shiftl k 12) by (rewrite Z.shiftl_mul_pow2 by lia; lia).
    destruct Hv as [-> | ->]; [left|right]; apply Z.abs_eq; lia.
  - destruct (_ && _ && _) eqn:Eb; [|done]. injection H as <-.
    apply andb_true_iff in Eb as [Eb Ec]. apply andb_true_iff in Eb as [Eb _].
    apply Z.ltb_lt in Eb. apply IsAddSubImmediate_spec in Ec as (k & Hk & Hv).
    exists k. split; [done|].
    assert (Imm_GetSigned (if (if n <=? 4 then 32 else 64) =? 32
              then Imm_s32 (if (if n <=? 4 then 32 else 64) =? 32 then to_signed 32 widened
                            else to_signed 64 widened)
              else Imm_s64 (if (if n <=? 4 then 32 else 64) =? 32 then to_signed 32 widened
                            else to_signed 64 widened))
            = (if (if n <=? 4 then 32 else 64) =? 32 then to_signed 32 widened
               else to_signed 64 widened)) as ->.
    { destruct (n <=? 4); simpl; unfold Imm_GetSigned; simpl;
        rewrite to_signed_wrap, to_signed_to_signed by lia; done. }
    rewrite Z.abs_neq by lia. done.
Qed.

(** ** Folding preserves the value of the instruction *)

Abbreviation same_ids h h' := (same_view i_id h h').

Lemma slot_of_ids h h' v : same_ids h h' -> slot_of h' v = slot_of h v.
Proof.
  intros H. unfold slot_of, deref. destruct (v_inst v) as [q|]; [|done]. specialize (H q).
  destruct (h !! q), (h' !! q); simpl in *; try done. by injection H as ->.
Qed.

Lemma ReadScalar_ids h h' v s : same_ids h h' -> ReadScalar h' v s = ReadScalar h v s.
Proof. intros H. unfold ReadScalar. by rewrite (slot_of_ids h h' v H). Qed.

(** A scalar write depends on the value modulo the width of the result only. *)
Lemma WriteScalar_masked h p i w x s :
  h !! p = Some i -> scalar_type (i_ret i) w ->
  WriteScalar h p x s = SetReg64 h p (wrap w x) s.
Proof.
  intros Hi Ht. pose proof (scalar_type_width _ _ Ht) as Hw. destruct Ht as (H1 & H2 & H3).
  assert (deref h p = Ok i) by (unfold deref; by rewrite Hi).
  unfold WriteScalar. mstep. rewrite decide_False by done. rewrite H2. unfold MaskFor. rewrite H3.
  mstep. by rewrite land_MaskBits by lia.
Qed.

Lemma WriteScalar_cong h h' p i i' w a b s :
  same_ids h h' -> h !! p = Some i -> h' !! p = Some i' -> i_ret i' = i_ret i ->
  scalar_type (i_ret i) w -> wrap w a = wrap w b -> WriteScalar h' p a s = WriteScalar h p b s.
Proof.
  intros Hids Hi Hi' Hr Ht Hab.
  rewrite (WriteScalar_masked h p i w), (WriteScalar_masked h' p i' w), Hab by (by rewrite ?Hr).
  unfold SetReg64. by rewrite (slot_of_ids h h' _ Hids).
Qed.

Lemma foldable_cases op :
  is_foldable op = true ->
  op = OpCode_Add \/ op = OpCode_Sub \/ op = OpCode_And \/ op = OpCode_Or \/ op = OpCode_Xor.
Proof.
  unfold is_foldable. rewrite !orb_true_iff.
  intros [[[[H|H]|H]|H]|H]; [destruct (op_eqb_spec op OpCode_Add)|
    destruct (op_eqb_spec op OpCode_Sub)|destruct (op_eqb_spec op OpCode_And)|
    destruct (op_eqb_spec op OpCode_Or)|destruct (op_eqb_spec op OpCode_Xor)]; subst; try done; tauto.
Qed.

(** The ALU function of a foldable opcode. *)
Definition alu_fun (op : OpCode) : Z -> Z -> Z :=
  match op with
  | OpCode_Add => add64 | OpCode_Sub => sub64 | OpCode_And => Z.land | OpCode_Or => Z.lor
  | _ => Z.lxor
  end.

Lemma run_foldable h cfg hf hp p i s :
  h !! p = Some i -> is_foldable (i_op i) = true ->
  run_inst h cfg hf hp p s =
  (l <- readV h i 0;; r <- readO h i 1;; WriteScalar h p (alu_fun (i_op i) l r)) s.
Proof.
  intros Hi Hop. unfold run_inst, deref. rewrite Hi. unfold bind at 1, lift at 1.
  destruct (foldable_cases _ Hop) as [E | [E | [E | [E | E]]]]; rewrite E;
    unfold RunAdd, RunSub, RunAnd, RunOr, RunXor, deref; rewrite Hi; done.
Qed.

Lemma wrap_land w a b : 0 <= w -> wrap w (Z.land a b) = Z.land (wrap w a) (wrap w b).
Proof.
  intros Hw. apply Z.bits_inj'. intros k Hk. rewrite Z.land_spec, !testbit_wrap, Z.land_spec by lia.
  by destruct (k <? w).
Qed.
Lemma wrap_lor w a b : 0 <= w -> wrap w (Z.lor a b) = Z.lor (wrap w a) (wrap w b).
Proof.
  intros Hw. apply Z.bits_inj'. intros k Hk. rewrite Z.lor_spec, !testbit_wrap, Z.lor_spec by lia.
  by destruct (k <? w).
Qed.
Lemma wrap_lxor' w a b : 0 <= w -> wrap w (Z.lxor a b) = Z.lxor (wrap w a) (wrap w b).
Proof.
  intros Hw. apply Z.bits_inj'. intros k Hk. rewrite Z.lxor_spec, !testbit_wrap, Z.lxor_spec by lia.
  by destruct (k <? w).
Qed.

Lemma alu_fun_cong op w l r1 r2 :
  0 <= w <= 64 -> wrap w r1 = wrap w r2 -> wrap w (alu_fun op l r1) = wrap w (alu_fun op l r2).
Proof.
  intros Hw H. destruct op; simpl; rewrite ?wrap_land, ?wrap_lor, ?wrap_lxor', ?H by lia; try done;
    unfold add64, sub64; rewrite !wrap_wrap by lia.
  - by rewrite <- (wrap_add_r w w), H, wrap_add_r by lia.
  - by rewrite <- (wrap_sub_r w w), H, wrap_sub_r by lia.
Qed.

(** *** What a folding step does to the heap *)

Lemma deref_ok h p i : deref h p = Ok i <-> h !! p = Some i.
Proof. unfold deref. destruct (h !! p); split; by intros [= ->]. Qed.

Lemma plain_value_spec o v :
  plain_value o = Some v -> o_left o = DValue v /\ o_right o = DNull.
Proof.
  unfold plain_value. destruct (o_right o), (o_left o); try done.
  destruct (OperandOp_eqb _ _); [by intros [= ->]|done].
Qed.

(** What stays of an instruction whose arguments are rewritten. *)
Definition place (i : Inst) := (i_op i, i_id i, i_vir_reg i, i_ret i).

Lemma same_place_ids h h' : same_view place h h' -> same_ids h h'.
Proof.
  intros H q. specialize (H q). destruct (h !! q), (h' !! q); simpl in *; try done.
  by injection H as _ -> _ _.
Qed.

Lemma SetArg_Operand_result ext p i o h u h' :
  counts_ok ext h -> h !! p = Some i -> SetArg_Operand p 1 o h = Ok (u, h') ->
  same_ids h h' /\ exists i', h' !! p = Some i' /\ i_op i' = i_op i /\ i_ret i' = i_ret i /\
    i_args i' = <[3%nat := ToArgClass (o_right o)]> (<[2%nat := ToArgClass (o_left o)]>
                  (<[1%nat := AOperand (o_op o)]> (i_args i))).
Proof.
  intros Hc Hi H.
  assert (same_view place h h') as Hs
    by (eapply view_SetArg_Operand; [done..|apply same_view_refl|exact H]).
  split; [by apply same_place_ids|].
  destruct (hoare_SetArg_Operand ext p (i_args i) 1 o h u h') as [_ (i' & Hi' & Hl)];
    [split; [done|by exists i]|exact H|].
  destruct (same_view_lookup _ _ _ _ _ Hs Hi) as (? & Hi2 & Hp).
  rewrite Hi' in Hi2. injection Hi2 as <-. injection Hp as Ho _ _ Hret. by exists i'.
Qed.

(** A folding step of the operand either changes nothing or replaces a plain
    [LoadImm] operand by the immediate of [AddSubImmediate]/[LogicalImmediate]. *)
Lemma fold_operand_inv seen pos p i h u h' :
  h !! p = Some i -> fold_operand seen pos p h = Ok (u, h') ->
  h' = h \/ exists o v load li source m,
    GetArg_Operand i 1 = Ok o /\ o_left o = DValue v /\ o_right o = DNull /\
    v_inst v = Some load /\ h !! load = Some li /\ i_op li = OpCode_LoadImm /\
    GetArg_Imm li 0 = Ok source /\
    (AddSubImmediate source (i_ret i) = Ok (Some m) \/
     LogicalImmediate source (i_ret i) = Ok (Some m)) /\
    SetArg_Operand p 1 (Operand_imm m) h = Ok (u, h').
Proof.
  intros Hi H. unfold fold_operand in H.
  apply bind_ok in H as (? & ? & H0 & H). apply heap_deref_inv in H0 as [-> H0].
  rewrite Hi in H0. injection H0 as <-.
  apply bind_ok in H as (o & ? & H0 & H). apply lift_ok in H0 as [Ho ->].
  destruct (plain_value o) as [v|] eqn:Hv; [|left; by injection H as _ ->].
  apply plain_value_spec in Hv as [Hl Hr].
  destruct (v_inst v) as [load|] eqn:Hload; [|left; by injection H as _ ->].
  destruct (negb (in_window _ _ _)); [left; by injection H as _ ->|].
  apply bind_ok in H as (li & ? & H0 & H). apply heap_deref_inv in H0 as [-> Hli].
  destruct (op_eqb_spec (i_op li) OpCode_LoadImm) as [Hop|]; [|left; by injection H as _ ->].
  simpl in H. apply bind_ok in H as (? & ? & H0 & H). injection H0 as <- <-.
  apply bind_ok in H as (uses & ? & H0 & H). apply lift_ok in H0 as [_ ->].
  destruct (negb _); [left; by injection H as _ ->|].
  apply bind_ok in H as (bytes & ? & H0 & H). apply lift_ok in H0 as [_ ->].
  apply bind_ok in H as (narrow & h1 & H0 & H).
  assert (h1 = h) as ->.
  { destruct (_ && _); minv H0; done. }
  destruct narrow; [left; by injection H as _ ->|].
  apply bind_ok in H as (source & ? & H1 & H). apply lift_ok in H1 as [Hs ->].
  apply bind_ok in H as (folded & ? & H1 & H). apply lift_ok in H1 as [Hf ->].
  destruct folded as [m|]; [|left; by injection H as _ ->].
  right. exists o, v, load, li, source, m. repeat (split; [done|]). split; [|done].
  destruct (is_addsub _); tauto.
Qed.

Lemma try_neg_inv seen pos p i h b h' :
  h !! p = Some i -> try_neg seen pos p h = Ok (b, h') ->
  (b = false /\ h' = h) \/ exists v zero zi m o x,
    b = true /\ GetArg_Value i 0 = Ok v /\ v_inst v = Some zero /\ h !! zero = Some zi /\
    i_op zi = OpCode_LoadImm /\ GetArg_Imm zi 0 = Ok m /\ Imm_Get m = 0 /\
    GetArg_Operand i 1 = Ok o /\ o_left o = DValue x /\ o_right o = DNull /\
    (DestroyArgs p;;; SetInst_Value p OpCode_Neg x;;; heap_update p (set_ret (i_ret i))) h
      = Ok (tt, h').
Proof.
  intros Hi H. unfold try_neg in H.
  apply bind_ok in H as (? & ? & H0 & H). apply heap_deref_inv in H0 as [-> H0].
  rewrite Hi in H0. injection H0 as <-.
  apply bind_ok in H as (v & ? & H0 & H). apply lift_ok in H0 as [Hv ->].
  apply bind_ok in H as (o & ? & H0 & H). apply lift_ok in H0 as [Ho ->].
  destruct (v_inst v) as [zero|] eqn:Hz; [|left; by injection H as -> ->].
  destruct (negb (in_window _ _ _)); [left; by injection H as -> ->|].
  apply bind_ok in H as (zi & ? & H0 & H). apply heap_deref_inv in H0 as [-> Hzi].
  destruct (op_eqb_spec (i_op zi) OpCode_LoadImm) as [Hop|]; [|left; by injection H as -> ->].
  simpl in H. apply bind_ok in H as (m & ? & H0 & H). apply lift_ok in H0 as [Hm ->].
  destruct (Z.eqb_spec (Imm_Get m) 0) as [H0|]; [|left; by injection H as -> ->]. simpl in H.
  apply bind_ok in H as (? & ? & Hg & H). injection Hg as <- <-.
  apply bind_ok in H as (uses & ? & Hu & H). apply lift_ok in Hu as [_ ->].
  destruct (negb _); [left; by injection H as -> ->|].
  destruct (plain_value o) as [x|] eqn:Hx; [|left; by injection H as -> ->].
  apply plain_value_spec in Hx as [Hl Hr]. right.
  apply bind_ok in H as ([] & h1 & H1 & H). apply bind_ok in H as ([] & h2 & H2 & H).
  apply bind_ok in H as ([] & h3 & H3 & H). injection H as -> ->.
  exists v, zero, zi, m, o, x. repeat (split; [done|]).
  rewrite (bind_run _ _ _ _ _ H1), (bind_run _ _ _ _ _ H2). exact H3.
Qed.

(** The rewrite of [0 - x] into [Neg x]. *)
Lemma negate_result ext p i x h h' :
  counts_ok ext h -> length (i_args i) = max_args -> h !! p = Some i ->
  (DestroyArgs p;;; SetInst_Value p OpCode_Neg x;;; heap_update p (set_ret (i_ret i))) h
    = Ok (tt, h') ->
  same_ids h h' /\ exists i', h' !! p = Some i' /\ i_op i' = OpCode_Neg /\ i_ret i' = i_ret i /\
    i_args i' = <[0%nat := AValue x]> blank.
Proof.
  intros Hc Hlen Hi H.
  apply bind_ok in H as ([] & h1 & H1 & H). apply bind_ok in H as ([] & h4 & H2 & H4).
  apply bind_ok in H2 as ([] & h2 & H2 & H3).
  pose proof (hoare_DestroyArgs ext p (i_args i) Hlen h tt h1 ltac:(by split; [|exists i]) H1) as C1.
  pose proof (hoare_cinv_neutral ext p blank p _ (neutral_set_op OpCode_Neg) h1 tt h2 C1 H2) as C2.
  destruct (hoare_SetArg_Value ext p blank 0 x h2 tt h4 C2 H3) as [_ (i4 & Hi4 & Ha)].
  pose proof (view_DestroyArgs i_id h ltac:(done) ltac:(done) ltac:(done) p h tt h1
                (same_view_refl _ _) H1) as V1.
  pose proof (view_update i_id h p (set_op OpCode_Neg) ltac:(done) h1 tt h2 V1 H2) as V2.
  pose proof (view_SetArg_Value i_id h ltac:(done) ltac:(done) ltac:(done) ltac:(done) p 0 x
                h2 tt h4 V2 H3) as V3.
  pose proof (view_update i_id h p (set_ret (i_ret i)) ltac:(done) h4 tt h' V3 H4) as V4.
  split; [done|].
  pose proof (view_SetArg_Value i_op h2 ltac:(done) ltac:(done) ltac:(done) ltac:(done) p 0 x
                h2 tt h4 (same_view_refl _ _) H3 p) as Ho.
  apply heap_update_inv in H2 as (i1 & _ & ->). rewrite lookup_insert_eq, Hi4 in Ho.
  apply heap_update_inv in H4 as (i4' & Hi4' & ->). rewrite Hi4 in Hi4'. injection Hi4' as <-.
  exists (set_ret (i_ret i) i4). rewrite lookup_insert_eq. simpl in *. by injection Ho as ->.
Qed.

(** The constant operands of an instruction are in their slots: executing the
    block up to the instruction has run the [LoadImm]s it reads. *)
Definition constants_loaded (h : Heap) (i : Inst) (s : IState) : Prop :=
  forall v q li m, v ∈ GetValues i -> v_inst v = Some q -> h !! q = Some li ->
    i_op li = OpCode_LoadImm -> GetArg_Imm li 0 = Ok m -> ReadScalar h v s = Ok (Imm_Get m, s).

Lemma foldable_index i n :
  is_foldable (i_op i) = true -> (n < 2)%nat -> PublicIndex i n = Ok n.
Proof.
  intros Hop Hn. unfold PublicIndex.
  destruct (foldable_cases _ Hop) as [-> | [-> | [-> | [-> | ->]]]];
    destruct n as [|[|]]; [done|done|lia|done|done|lia|done|done|lia|done|done|lia|done|done|lia].
Qed.

Lemma foldable_operand i o :
  is_foldable (i_op i) = true -> GetArg_Operand i 1 = Ok o ->
  exists al ar, i_args i !! 1%nat = Some (AOperand (o_op o)) /\ i_args i !! 2%nat = Some al /\
    i_args i !! 3%nat = Some ar /\ ToDataClass al = Ok (o_left o) /\ ToDataClass ar = Ok (o_right o).
Proof.
  intros Hop H. unfold GetArg_Operand in H. rewrite foldable_index in H by (done || lia).
  simpl in H. unfold ArgAt in H.
  destruct (i_args i !! 1%nat) as [[]|] eqn:E1; simpl in H; try done.
  destruct (i_args i !! 2%nat) as [al|] eqn:E2; simpl in H; try done.
  destruct (ToDataClass al) as [dl|] eqn:D1; simpl in H; try done.
  destruct (i_args i !! 3%nat) as [ar|] eqn:E3; simpl in H; try done.
  destruct (ToDataClass ar) as [dr|] eqn:D2; simpl in H; try done.
  injection H as <-. exists al, ar. done.
Qed.

Lemma foldable_operand_in i o v :
  is_foldable (i_op i) = true -> GetArg_Operand i 1 = Ok o -> o_left o = DValue v ->
  v ∈ GetValues i.
Proof.
  intros Hop H Hl. destruct (foldable_operand i o Hop H) as (al & ar & _ & H2 & _ & D1 & _).
  rewrite Hl in D1. eapply arg_in_GetValues; [exact H2|].
  destruct al; simpl in *; try done. injection D1 as ->. by left.
Qed.

Lemma readO_plain h i o v s :
  GetArg_Operand i 1 = Ok o -> o_left o = DValue v -> o_right o = DNull ->
  readO h i 1 s = ReadScalar h v s.
Proof.
  intros Ho Hl Hr. unfold readO. rewrite (bind_run _ _ _ _ _ (lift_run _ _ _ Ho)).
  unfold EvalOperand. rewrite Hl, Hr. simpl. unfold bind. by destruct (ReadScalar h v s) as [[? ?]|].
Qed.

Lemma readV_pure h i n s x s' : readV h i n s = Ok (x, s') -> s' = s.
Proof.
  intros H. unfold readV, ReadScalar, word_at in H. minv H.
  destruct (s_stack _ !! _); by minv H.
Qed.

(** Replacing the operand by an immediate congruent to it. *)
Lemma fold_operand_run h h' cfg hf hp p i i' w m x s :
  h !! p = Some i -> is_foldable (i_op i) = true -> scalar_type (i_ret i) w ->
  length (i_args i) = max_args -> same_ids h h' -> h' !! p = Some i' ->
  i_op i' = i_op i -> i_ret i' = i_ret i ->
  i_args i' = <[3%nat := AVoid]> (<[2%nat := AImm m]> (<[1%nat := AOperand OperandPlus]> (i_args i))) ->
  readO h i 1 s = Ok (x, s) -> wrap w (Imm_Get m) = wrap w x ->
  run_inst h' cfg hf hp p s = run_inst h cfg hf hp p s.
Proof.
  intros Hi Hop Ht Hlen Hids Hi' Hop' Hret Hargs Hread Hm.
  pose proof (scalar_type_width _ _ Ht).
  rewrite (run_foldable h' _ _ _ p i'), (run_foldable h _ _ _ p i), Hop' by (by rewrite ?Hop').
  assert (readV h' i' 0 s = readV h i 0 s) as Hl.
  { unfold readV, GetArg_Value, get_slot. rewrite !foldable_index by (rewrite ?Hop'; done || lia).
    simpl. unfold ArgAt. rewrite Hargs, !list_lookup_insert_ne by done.
    unfold bind, lift. destruct (i_args i !! 0%nat) as [[]|]; simpl; try done.
    by apply ReadScalar_ids. }
  unfold bind at 1. symmetry. unfold bind at 1. rewrite Hl.
  destruct (readV h i 0 s) as [[l s1]|] eqn:El; [|done].
  apply readV_pure in El as ->.
  rewrite (bind_run _ _ _ _ _ Hread).
  assert (readO h' i' 1 s = Ok (Imm_Get m, s)) as Hr.
  { unfold readO, GetArg_Operand. rewrite foldable_index by (rewrite ?Hop'; done || lia).
    unfold ArgAt, max_args in *. rewrite Hargs.
    destruct (i_args i) as [|? [|? [|? [|? ?]]]]; try done. }
  rewrite (bind_run _ _ _ _ _ Hr). symmetry.
  eapply (WriteScalar_cong h h' p i i' w); try done. apply alu_fun_cong; [lia|done].
Qed.

(** [0 - x] and [Neg x] compute the same. *)
Lemma negate_run h h' cfg hf hp p i i' w v x s :
  h !! p = Some i -> i_op i = OpCode_Sub -> scalar_type (i_ret i) w ->
  same_ids h h' -> h' !! p = Some i' -> i_op i' = OpCode_Neg -> i_ret i' = i_ret i ->
  i_args i' = <[0%nat := AValue x]> blank ->
  GetArg_Value i 0 = Ok v -> ReadScalar h v s = Ok (0, s) ->
  readO h i 1 s = ReadScalar h x s ->
  run_inst h' cfg hf hp p s = run_inst h cfg hf hp p s.
Proof.
  intros Hi Hop Ht Hids Hi' Hop' Hret Hargs Hv Hzero Hx.
  rewrite (run_foldable h _ _ _ p i), Hop by (by rewrite ?Hop).
  assert (readV h i 0 s = Ok (0, s)) as Hl
    by (unfold readV; by rewrite (bind_run _ _ _ _ _ (lift_run _ _ _ Hv))).
  rewrite (bind_run _ _ _ _ _ Hl). unfold bind at 1. rewrite Hx.
  apply deref_ok in Hi' as Hd. unfold run_inst.
  rewrite (bind_run _ _ _ _ _ (lift_run _ _ _ Hd)), Hop'. unfold RunNeg.
  rewrite (bind_run _ _ _ _ _ (lift_run _ _ _ Hd)).
  assert (GetArg_Value i' 0 = Ok x) as Hx'.
  { unfold GetArg_Value, get_slot, PublicIndex, ArgAt. by rewrite Hop', Hargs. }
  unfold bind at 1, readV.
  rewrite (bind_run _ _ _ _ _ (lift_run _ _ _ Hx')), (ReadScalar_ids h h' _ _ Hids).
  destruct (ReadScalar h x s) as [[r s1]|]; [|done].
  by apply (WriteScalar_cong h h' p i i' w).
Qed.


(** ** Examples *)

Lemma folded_immediate_encodable_witness :
  AddSubImmediate (Imm_u32 (2 ^ 32 - 4096)) ValueType_U32 = Ok (Some (Imm_s32 (-4096)))
  /\ exists k, 0 <= k < 2 ^ 12 /\
       (Z.abs (Imm_GetSigned (Imm_s32 (-4096))) = k \/
        Z.abs (Imm_GetSigned (Imm_s32 (-4096))) = Z.shiftl k 12).
Proof.
  split; [vm_compute; reflexivity|].
  refine (proj2 (folded_immediate_encodable (Imm_u32 (2 ^ 32 - 4096)) (Imm_s32 (-4096))
                   ValueType_U32 4 _ _)); vm_compute; reflexivity.
Defined.

Lemma sample_constants :
  constants_loaded (sample_heap OpCode_Add ValueType_U32 5 9) (sample_alu OpCode_Add ValueType_U32)
    (sample_state 5 9 0).
Proof.
  intros v q li m Hv Hq Hli Hop Hm.
  change (GetValues _) with [Value_of 1%positive; Value_of 2%positive] in Hv.
  apply elem_of_cons in Hv as [-> | Hv]; [|apply list_elem_of_singleton in Hv as ->];
    simpl in Hq; injection Hq as <-; vm_compute in Hli; injection Hli as <-;
    vm_compute in Hm; injection Hm as <-; vm_compute; reflexivity.
Qed.

