(* ===== verification/DedupProps.v ===== *)
(** * Correctness of constant sharing

    [DedupConstants] rewrites a use of a constant into a use of an equal
    constant defined earlier in the same label-free stretch of the block. *)

From Stdlib Require Import ZArith Lia.
From stdpp Require Import numbers base gmap list.
From S2P Require Import IRTypes Prelude MachineInt Instr UseCount InterpCore InterpFlags.
From S2P Require Import InterpScalar InterpMemory InterpVector Interp.
From S2P Require Import InterpInvariant FlagProps DeadCode ConstFold ConstFoldProps.

Local Open Scope Z_scope.
Local Open Scope svm_scope.

(** ** The specification *)

(** Two instructions materialise the same constant. *)
Definition same_constant (i j : Inst) : Prop :=
  (i_op i = OpCode_LoadImm /\ i_op j = OpCode_LoadImm /\ i_ret i = i_ret j /\
     exists m n, GetArg_Imm i 0 = Ok m /\ GetArg_Imm j 0 = Ok n /\ Imm_Get m = Imm_Get n)
  \/ (i_op i = OpCode_VecLoadConst /\ i_op j = OpCode_VecLoadConst /\
     exists m n m' n', GetArg_Imm i 0 = Ok m /\ GetArg_Imm j 0 = Ok n /\ Imm_Get m = Imm_Get n /\
       GetArg_Imm i 1 = Ok m' /\ GetArg_Imm j 1 = Ok n' /\ Imm_Get m' = Imm_Get n')
  \/ (i_op i = OpCode_VecSharedZero /\ i_op j = OpCode_VecSharedZero).

Definition no_label (h : Heap) (q : Ptr) : Prop :=
  exists i, h !! q = Some i /\ is_label_op (i_op i) = false.

(** [c] is defined before [p], in the same stretch without labels and jumps. *)
Definition reaches (h : Heap) (l : list Ptr) (c p : Ptr) : Prop :=
  exists l1 l2 l3, l = l1 ++ c :: l2 ++ p :: l3 /\ Forall (no_label h) l2.

Definition duplicate (h : Heap) (l : list Ptr) (p c : Ptr) : Prop :=
  reaches h l c p /\ exists i j, h !! p = Some i /\ h !! c = Some j /\ same_constant i j.

(** An argument and what it has become, given the replacements [R]. *)
Inductive arg_replaced (R : Ptr -> Ptr -> Prop) : Arg -> Arg -> Prop :=
| replaced_same a : arg_replaced R a a
| replaced_value v def c :
    v_inst v = Some def -> R def c -> arg_replaced R (AValue v) (AValue (Value_of c))
| replaced_lambda la v def c :
    Lambda_GetValue la = Ok v -> v_inst v = Some def -> R def c ->
    arg_replaced R (ALambda la) (ALambda (Lambda_of (DValue (Value_of c)))).

(** ** Frames of one instruction's rewriting *)

Section Frames.
Context (p : Ptr) (h0 : Heap).
Abbreviation frames m := (hoare (same_code p h0) m (fun _ => same_code p h0)).

Lemma frames_guard b e : frames (guard b e).
Proof. destruct b; [apply hoare_ret'|apply hoare_fail]. Qed.

Ltac framing :=
  repeat first
    [ apply hoare_ret' | apply hoare_deref' | apply hoare_get' | apply frames_lift
    | apply frames_guard | apply frames_DestroyArg
    | apply frames_update; by left | apply frames_update; by right
    | apply frames_bind; [|intros ?] | apply hoare_if ].

Lemma frames_Use q v : frames (Inst_Use q v).
Proof. unfold Inst_Use. framing. Qed.

Lemma frames_replace_arg d k : frames (replace_arg d p k).
Proof.
  unfold replace_arg, SetArg_Value, SetArg_Lambda, put_arg.
  apply frames_bind; [apply hoare_deref'|intros i]. apply frames_bind; [apply frames_lift|intros a].
  destruct a as [|v| | | | | | |la|]; try apply hoare_ret'.
  - destruct (v_inst v) as [def|]; [|apply hoare_ret'].
    destruct (replacement d !! def); [|apply hoare_ret'].
    framing.
  - framing. destruct (v_inst _) as [def|]; [|apply hoare_ret'].
    destruct (replacement d !! def); [|apply hoare_ret']. framing.
Qed.
End Frames.

(** ** One instruction *)

Definition replaces (d : DedupState) (def c : Ptr) : Prop := replacement d !! def = Some c.

Lemma arg_replaced_mono (R R' : Ptr -> Ptr -> Prop) a b :
  (forall x y, R x y -> R' x y) -> arg_replaced R a b -> arg_replaced R' a b.
Proof. intros HR [?|? ? ? ? ?|? ? ? ? ? ? ?]; econstructor; eauto. Qed.

Lemma replace_arg_args ext d p k l :
  hoare (cinv ext p l) (replace_arg d p k)
    (fun _ h => exists a b, l !! k = Some a /\ arg_replaced (replaces d) a b /\
                  cinv ext p (<[k := b]> l) h).
Proof.
  intros h u h' Hc H. unfold replace_arg in H. destruct Hc as [Hc (i & Hi & Hl)].
  apply bind_ok in H as (? & ? & H0 & H). apply heap_deref_inv in H0 as [-> H0].
  rewrite Hi in H0. injection H0 as <-. apply bind_ok in H as (a & ? & Ha & H).
  apply lift_ok in Ha as [Ha ->]. unfold ArgAt in Ha. rewrite Hl in Ha.
  destruct (l !! k) as [a'|] eqn:Hk; [|done]. injection Ha as ->.
  assert (forall h1, h1 = h -> exists a0 b, Some a = Some a0 /\ arg_replaced (replaces d) a0 b /\
                                 cinv ext p (<[k := b]> l) h1) as Hsame.
  { intros h1 ->. exists a, a. split; [done|]. split; [constructor|].
    rewrite list_insert_id by done. by split; [|exists i]. }
  assert (cinv ext p l h) as Hcl by (by split; [|exists i]).
  destruct a as [|v| | | | | | |la|]; try (apply Hsame; by injection H as _ ->).
  - destruct (v_inst v) as [def|] eqn:Hv; [|apply Hsame; by injection H as _ ->].
    destruct (replacement d !! def) as [c|] eqn:Hr; [|apply Hsame; by injection H as _ ->].
    exists (AValue v), (AValue (Value_of c)). split; [done|]. split; [by eapply replaced_value|].
    by eapply hoare_SetArg_Value.
  - destruct (Lambda_IsValue la); [|apply Hsame; by injection H as _ ->].
    apply bind_ok in H as (v & ? & H0 & H). apply lift_ok in H0 as [H0 ->].
    destruct (v_inst v) as [def|] eqn:Hv; [|apply Hsame; by injection H as _ ->].
    destruct (replacement d !! def) as [c|] eqn:Hr; [|apply Hsame; by injection H as _ ->].
    eexists (ALambda la), _. split; [done|]. split; [by eapply replaced_lambda|].
    by eapply hoare_SetArg_Lambda.
Qed.

Lemma replace_args_aux ext d p l ks :
  NoDup ks ->
  hoare (cinv ext p l) (for_each (replace_arg d p) ks)
    (fun _ h => exists l', cinv ext p l' h /\ length l' = length l /\
       forall k a b, l !! k = Some a -> l' !! k = Some b ->
         arg_replaced (replaces d) a b /\ (k ∉ ks -> b = a)).
Proof.
  intros Hnd. revert l. induction ks as [|k ks IH]; intros l; simpl.
  - intros h u h' Hc H. injection H as _ <-. exists l. split; [done|]. split; [done|].
    intros k a b Ha Hb. rewrite Ha in Hb. injection Hb as ->. split; [constructor|done].
  - apply NoDup_cons in Hnd as [Hk Hnd].
    eapply hoare_bind; [apply replace_arg_args|]. intros []. cbv beta.
    apply hoare_pre_ex; intros a. apply hoare_pre_ex; intros b.
    apply hoare_pull; intros Ha. apply hoare_pull; intros Hr.
    eapply hoare_weaken; [apply (IH Hnd (<[k := b]> l))|done|]. cbv beta.
    intros _ h (l' & Hc & Hlen & Hl'). exists l'. split; [done|].
    rewrite length_insert in Hlen. split; [done|]. intros k' a' b' Ha' Hb'.
    destruct (decide (k' = k)) as [-> |Hne].
    + rewrite Ha in Ha'. injection Ha' as <-.
      destruct (Hl' k b b') as [_ Hk']; [by apply list_lookup_insert_eq, lookup_lt_is_Some; eauto|done|].
      rewrite (Hk' Hk). split; [done|]. intros Hn. exfalso. apply Hn. by left.
    + destruct (Hl' k' a' b') as [H1 H2]; [by rewrite list_lookup_insert_ne|done|].
      split; [done|]. intros Hn. apply H2. intros Hin. apply Hn. by right.
Qed.

Definition dedup_view (i : Inst) := (i_op i, i_id i).

Lemma view_replace_arg d p k h0 :
  hoare (same_view dedup_view h0) (replace_arg d p k) (fun _ => same_view dedup_view h0).
Proof.
  unfold replace_arg. apply view_bind; [apply hoare_deref'|intros i].
  apply view_bind; [apply view_lift|intros a]. destruct a as [|v| | | | | | |la|]; try apply hoare_ret'.
  - destruct (v_inst v) as [def|]; [|apply hoare_ret'].
    destruct (replacement d !! def); [|apply hoare_ret']. by apply view_SetArg_Value.
  - apply hoare_if; [|apply hoare_ret']. apply view_bind; [apply view_lift|intros w].
    destruct (v_inst w) as [def|]; [|apply hoare_ret'].
    destruct (replacement d !! def); [|apply hoare_ret']. by apply view_SetArg_Lambda.
Qed.

(** Rewriting the arguments of [p]: all other code stays, its own opcode and
    id too, and every argument is itself or its replacement. *)
Lemma replace_args_result ext d p i h u h' :
  counts_ok ext h -> h !! p = Some i ->
  for_each (replace_arg d p) (seq 0 max_args) h = Ok (u, h') ->
  counts_ok ext h' /\ same_code p h h' /\ exists i', h' !! p = Some i' /\ i_op i' = i_op i /\
    i_id i' = i_id i /\ Forall2 (arg_replaced (replaces d)) (i_args i) (i_args i').
Proof.
  intros Hc Hi H.
  destruct (replace_args_aux ext d p (i_args i) (seq 0 max_args) (NoDup_seq _ _) h u h')
    as (l' & [Hc' (i' & Hi' & <-)] & Hlen & Hl'); [by split; [|exists i]|done|].
  split; [done|]. split.
  { eapply (frames_for_each p h); [|by intros q _|exact H]. intros. apply frames_replace_arg. }
  pose proof (view_for_each dedup_view h _ (seq 0 max_args)
                (fun k => view_replace_arg d p k h) h u h' (same_view_refl _ _) H) as Hv.
  destruct (same_view_lookup _ _ _ _ _ Hv Hi) as (? & Hi2 & Hp). rewrite Hi' in Hi2.
  injection Hi2 as <-. injection Hp as Ho Hid. exists i'. repeat (split; [done|]).
  apply Forall2_same_length_lookup_2; [done|]. intros k a b Ha Hb. by apply (Hl' k).
Qed.

(** ** The facts the pass keeps *)

(** [c] is behind us, with no label since. *)
Definition recent (h : Heap) (past : list Ptr) (c : Ptr) : Prop :=
  exists l1 l2, past = l1 ++ c :: l2 /\ Forall (no_label h) l2.

Definition known (h : Heap) (past : list Ptr) (c : Ptr) (P : Inst -> Prop) : Prop :=
  recent h past c /\ exists j, h !! c = Some j /\ P j.

Definition loads (k t : Z) (j : Inst) : Prop :=
  i_op j = OpCode_LoadImm /\ vt_index (i_ret j) = t /\
  exists m, GetArg_Imm j 0 = Ok m /\ Imm_Get m = k.

Definition loads_vec (lo hi : Z) (j : Inst) : Prop :=
  i_op j = OpCode_VecLoadConst /\
  exists m n, GetArg_Imm j 0 = Ok m /\ GetArg_Imm j 1 = Ok n /\ Imm_Get m = lo /\ Imm_Get n = hi.

Definition loads_zero (j : Inst) : Prop := i_op j = OpCode_VecSharedZero.

Record dinv (h : Heap) (past : list Ptr) (d : DedupState) : Prop := {
  di_canonical k t c n : canonical d !! (k, t) = Some (c, n) -> known h past c (loads k t);
  di_vec lo hi c : vec_canonical d !! (lo, hi) = Some c -> known h past c (loads_vec lo hi);
  di_zero c : zero_canonical d = Some c -> known h past c loads_zero;
  di_replacement p c : replacement d !! p = Some c -> duplicate h past p c
}.

(** The facts are about code, so they survive changes of other instructions. *)
Definition agree (past : list Ptr) (h h' : Heap) : Prop :=
  forall q, q ∈ past -> code <$> h' !! q = code <$> h !! q.

Lemma agree_lookup past h h' q i :
  agree past h h' -> q ∈ past -> h !! q = Some i -> exists i', h' !! q = Some i' /\ code i' = code i.
Proof.
  intros Ha Hq Hi. specialize (Ha q Hq). rewrite Hi in Ha. destruct (h' !! q) as [i'|]; [|done].
  exists i'. split; [done|]. by apply (inj Some).
Qed.

Lemma code_GetArg_Imm i j n : code i = code j -> GetArg_Imm i n = GetArg_Imm j n.
Proof. intros [= Ho Ha _ _ _]. unfold GetArg_Imm, get_slot, PublicIndex, ArgAt. by rewrite Ho, Ha. Qed.

Lemma no_label_agree past h h' l2 :
  agree past h h' -> (forall q, q ∈ l2 -> q ∈ past) -> Forall (no_label h) l2 -> Forall (no_label h') l2.
Proof.
  intros Ha Hsub. rewrite !Forall_forall. intros H q Hq. destruct (H q Hq) as (i & Hi & Hl).
  destruct (agree_lookup _ _ _ _ _ Ha (Hsub q Hq) Hi) as (i' & Hi' & [= Ho _ _ _ _]).
  exists i'. by rewrite Ho.
Qed.

Lemma known_agree past h h' c (P : Inst -> Prop) :
  (forall i j, code i = code j -> P j -> P i) ->
  agree past h h' -> known h past c P -> known h' past c P.
Proof.
  intros HP Ha [(l1 & l2 & -> & Hl) (j & Hj & Hpj)].
  destruct (agree_lookup _ _ _ c j Ha ltac:(set_solver) Hj) as (j' & Hj' & Hc).
  split; [|exists j'; split; [done|by eapply HP]]. exists l1, l2. split; [done|].
  eapply no_label_agree; [done| |done]. set_solver.
Qed.

Lemma same_constant_code i j i' j' :
  code i' = code i -> code j' = code j -> same_constant i j -> same_constant i' j'.
Proof.
  intros Hi Hj. unfold same_constant.
  rewrite (code_GetArg_Imm i' i 0 Hi), (code_GetArg_Imm j' j 0 Hj),
    (code_GetArg_Imm i' i 1 Hi), (code_GetArg_Imm j' j 1 Hj).
  injection Hi as -> _ _ _ ->. injection Hj as -> _ _ _ ->. done.
Qed.

Lemma duplicate_agree past h h' p c : agree past h h' -> duplicate h past p c -> duplicate h' past p c.
Proof.
  intros Ha [(l1 & l2 & l3 & -> & Hl) (i & j & Hi & Hj & Hs)].
  destruct (agree_lookup _ _ _ c j Ha ltac:(set_solver) Hj) as (j' & Hj' & Hcj).
  destruct (agree_lookup _ _ _ p i Ha ltac:(set_solver) Hi) as (i' & Hi' & Hci).
  split; [|exists i', j'; split; [done|split; [done|by eapply same_constant_code]]].
  exists l1, l2, l3. split; [done|]. eapply no_label_agree; [done| |done]. set_solver.
Qed.

Lemma loads_code k t i j : code i = code j -> loads k t j -> loads k t i.
Proof.
  intros H. unfold loads. rewrite (code_GetArg_Imm _ _ 0 H). by injection H as -> _ _ _ ->.
Qed.
Lemma loads_vec_code lo hi i j : code i = code j -> loads_vec lo hi j -> loads_vec lo hi i.
Proof.
  intros H. unfold loads_vec. rewrite (code_GetArg_Imm _ _ 0 H), (code_GetArg_Imm _ _ 1 H).
  by injection H as -> _ _ _ _.
Qed.
Lemma loads_zero_code i j : code i = code j -> loads_zero j -> loads_zero i.
Proof. unfold loads_zero. by intros [= -> _ _ _ _]. Qed.

Lemma dinv_agree h h' past d : agree past h h' -> dinv h past d -> dinv h' past d.
Proof.
  intros Ha [H1 H2 H3 H4].
  split; eauto using known_agree, duplicate_agree, loads_code, loads_vec_code, loads_zero_code.
Qed.

(** ** Moving past an instruction *)

Lemma duplicate_snoc h past q p c : duplicate h past p c -> duplicate h (past ++ [q]) p c.
Proof.
  intros [(l1 & l2 & l3 & -> & Hl) H]. split; [|done]. exists l1, l2, (l3 ++ [q]).
  split; [|done]. by rewrite <- !app_assoc, !app_comm_cons, <- !app_assoc.
Qed.

Lemma known_snoc h past q c P : no_label h q -> known h past c P -> known h (past ++ [q]) c P.
Proof.
  intros Hq [(l1 & l2 & -> & Hl) H]. split; [|done]. exists l1, (l2 ++ [q]).
  split; [by rewrite <- app_assoc|]. apply Forall_app. split; [done|by constructor].
Qed.

Lemma known_here h past q i (P : Inst -> Prop) : h !! q = Some i -> P i -> known h (past ++ [q]) q P.
Proof. intros Hi HP. split; [|by exists i]. exists past, []. by split. Qed.

Lemma duplicate_here h past q i c (P : Inst -> Prop) :
  h !! q = Some i -> known h past c P -> (forall j, P j -> same_constant i j) ->
  duplicate h (past ++ [q]) q c.
Proof.
  intros Hi [(l1 & l2 & -> & Hl) (j & Hj & HP)] Hs. split.
  - exists l1, l2, []. split; [by rewrite <- app_assoc|done].
  - exists i, j. auto.
Qed.

Lemma dinv_nil h : dinv h [] dedup_init.
Proof. split; [intros ? ? ? ?|intros ? ? ?|intros ?|intros ? ?]; simpl; by rewrite ?lookup_empty. Qed.

Lemma dinv_snoc h past d q : no_label h q -> dinv h past d -> dinv h (past ++ [q]) d.
Proof. intros Hq [H1 H2 H3 H4]. split; eauto using known_snoc, duplicate_snoc. Qed.

Lemma dinv_clear h past d q : dinv h past d -> dinv h (past ++ [q]) (clear_facts d).
Proof.
  intros [H1 H2 H3 H4]. split; simpl; [intros ? ? ? ?|intros ? ? ?|intros ?|].
  - by rewrite lookup_empty.
  - by rewrite lookup_empty.
  - done.
  - eauto using duplicate_snoc.
Qed.

Lemma dinv_replace h past d q i c P :
  no_label h q -> h !! q = Some i -> known h past c P -> (forall j, P j -> same_constant i j) ->
  dinv h past d -> dinv h (past ++ [q]) (add_replacement q c d).
Proof.
  intros Hq Hi Hk Hs Hd. destruct (dinv_snoc _ _ _ _ Hq Hd) as [H1 H2 H3 H4].
  split; simpl; [done..|]. intros p c'. destruct (replacement d !! q) eqn:E; [apply H4|].
  rewrite lookup_insert. case_decide as Hp; [|apply H4]. subst. intros [= <-].
  by eapply duplicate_here.
Qed.

Lemma vt_index_inj t u : vt_index t = vt_index u -> t = u.
Proof. destruct t, u; by vm_compute. Qed.

Lemma note_constant_inv cse index q i h past d d' :
  no_label h q -> h !! q = Some i -> dinv h past d ->
  note_constant cse index q i d = Ok d' ->
  dinv h (past ++ [q]) d' /\ forall p c, replaces d p c -> replaces d' p c.
Proof.
  intros Hq Hi Hd H. pose proof (dinv_snoc _ _ _ _ Hq Hd) as Hd'.
  assert (forall c p c', replaces d p c' -> replaces (add_replacement q c d) p c') as Hgrow.
  { intros c p c' Hr. unfold replaces in *. simpl. destruct (replacement d !! q) eqn:E; [done|].
    rewrite lookup_insert_ne; [done|congruence]. }
  unfold note_constant in H. destruct (i_op i) eqn:Hop; try (by injection H as <-).
  - destruct (negb cse); [by injection H as <-|]. minv H.
    assert (loads (Imm_Get x) (vt_index (i_ret i)) i) as Hl by (split; [done|]; eauto).
    assert (forall n, dinv h (past ++ [q])
      (mkDedup (<[(Imm_Get x, vt_index (i_ret i)) := (q, n)]> (canonical d)) (vec_canonical d)
         (zero_canonical d) (replacement d))) as Hnew.
    { intros n. destruct Hd' as [H1 H2 H3 H4]. split; simpl; [|done..].
      intros k t c n'. rewrite lookup_insert. case_decide as Hk; [|apply H1].
      injection Hk as <- <-. intros [= <- <-]. by eapply known_here. }
    destruct (canonical d !! _) as [[c n]|] eqn:Hc; [|by injection H as <-; split].
    destruct (_ <=? _); [|by injection H as <-; split]. injection H as <-. split; [|apply Hgrow].
    eapply dinv_replace; [done|done|by eapply di_canonical| |done].
    intros j (Ho & Ht & m & Hm & Hg). left. apply vt_index_inj in Ht. eauto 8.
  - minv H.
    assert (loads_vec (Imm_Get x) (Imm_Get x0) i) as Hl by (split; [done|]; eauto 8).
    destruct (vec_canonical d !! _) as [c|] eqn:Hc; injection H as <-.
    + split; [|apply Hgrow]. eapply dinv_replace; [done|done|by eapply di_vec| |done].
      intros j (Ho & m & n & Hm & Hn & Hgm & Hgn). right; left. eauto 12.
    + split; [|done]. destruct Hd' as [H1' H2 H3 H4]. split; simpl; [done| |done..].
      intros lo hi c. rewrite lookup_insert. case_decide as Hk; [|apply H2].
      injection Hk as <- <-. intros [= <-]. by eapply known_here.
  - destruct (zero_canonical d) as [c|] eqn:Hc; injection H as <-.
    + split; [|apply Hgrow]. eapply dinv_replace; [done|done|by eapply di_zero| |done].
      intros j Hj. right; right. done.
    + split; [|done]. destruct Hd' as [H1 H2 H3 H4]. split; simpl; [done|done| |done].
      intros c [= <-]. by eapply known_here.
Qed.

(** ** The whole pass *)

(** Every instruction keeps its opcode and id, and its arguments up to the
    replacements; those not yet visited keep all their code. *)
Definition progress (R : Ptr -> Ptr -> Prop) (todo : list Ptr) (h0 h : Heap) : Prop :=
  forall q i0, h0 !! q = Some i0 -> exists i, h !! q = Some i /\ i_op i = i_op i0 /\
    i_id i = i_id i0 /\ Forall2 (arg_replaced R) (i_args i0) (i_args i) /\
    (q ∈ todo -> i_args i = i_args i0).

Lemma progress_mono (R R' : Ptr -> Ptr -> Prop) q todo h0 h :
  (forall x y, R x y -> R' x y) -> progress R (q :: todo) h0 h -> progress R' todo h0 h.
Proof.
  intros HR H r i0 Hr. destruct (H r i0 Hr) as (i & Hi & Ho & Hid & Ha & Ht).
  exists i. repeat (split; [done|]). split; [|intros; apply Ht; by right].
  eapply Forall2_impl; [done|]. intros. by eapply arg_replaced_mono.
Qed.

Lemma progress_step d q todo h0 h h' i :
  q ∉ todo -> h !! q = Some i -> same_code q h h' ->
  (exists i', h' !! q = Some i' /\ i_op i' = i_op i /\ i_id i' = i_id i /\
     Forall2 (arg_replaced (replaces d)) (i_args i) (i_args i')) ->
  progress (replaces d) (q :: todo) h0 h -> progress (replaces d) todo h0 h'.
Proof.
  intros Hq Hi Hs (i' & Hi' & Ho' & Hid' & Ha') H r i0 Hr.
  destruct (H r i0 Hr) as (j & Hj & Ho & Hid & Ha & Ht). destruct (decide (r = q)) as [-> |Hne].
  - rewrite Hi in Hj. injection Hj as <-. exists i'. split; [done|].
    split; [congruence|]. split; [congruence|]. split; [|done].
    rewrite <- (Ht ltac:(by left)). done.
  - specialize (Hs r Hne). rewrite Hj in Hs. destruct (h' !! r) as [j'|]; [|done].
    injection Hs as Hop Hargs Hid'' _ _. exists j'. split; [done|].
    split; [congruence|]. split; [congruence|]. rewrite Hargs. split; [done|].
    intros. apply Ht. by right.
Qed.

Lemma same_code_agree q past h h' : q ∉ past -> same_code q h h' -> agree past h h'.
Proof. intros Hq Hs r Hr. apply Hs. set_solver. Qed.

Lemma dedup_loop_inv ext cse h0 l : forall index past d h d' h',
  NoDup (past ++ l) -> counts_ok ext h -> dinv h past d -> progress (replaces d) l h0 h ->
  dedup_loop cse index d l h = Ok (d', h') ->
  counts_ok ext h' /\ dinv h' (past ++ l) d' /\ progress (replaces d') [] h0 h'.
Proof.
  induction l as [|q l IH]; intros index past d h d' h' Hnd Hc Hd Hp H; simpl in H.
  { injection H as <- <-. by rewrite app_nil_r. }
  assert ((past ++ (q :: l)) = ((past ++ [q]) ++ l)) as Happ by (by rewrite <- app_assoc).
  assert ((q ∉ past) /\ (q ∉ l)) as [Hqp Hql].
  { apply NoDup_app in Hnd as (_ & Hx & Hy). apply NoDup_cons in Hy as [Hy _].
    split; [|done]. intros Hin. apply (Hx q Hin). by left. }
  rewrite Happ in *. apply bind_ok in H as (i & ? & Hi & H). apply heap_deref_inv in Hi as [-> Hi].
  destruct (is_label_op (i_op i)) eqn:Hlab.
  { eapply IH; [done|done|by apply dinv_clear| |exact H]. by eapply progress_mono. }
  apply bind_ok in H as (? & h1 & Hr & H).
  assert (counts_ok ext h1 /\ same_code q h h1 /\ exists i', h1 !! q = Some i' /\ i_op i' = i_op i /\
    i_id i' = i_id i /\ Forall2 (arg_replaced (replaces d)) (i_args i) (i_args i'))
    as (Hc1 & Hs & Hi1).
  { destruct (IsPseudoOperation i); [|by eapply replace_args_result].
    injection Hr as _ <-. split; [done|]. split; [by intros ? _|]. exists i.
    repeat (split; [done|]). apply Forall_Forall2_diag, Forall_forall. intros. constructor. }
  apply bind_ok in H as (i1 & ? & Hd1 & H). apply heap_deref_inv in Hd1 as [-> Hi1'].
  apply bind_ok in H as (d1 & ? & Hn & H). apply lift_ok in Hn as [Hn ->].
  assert (no_label h1 q) as Hnl.
  { destruct Hi1 as (i' & Hi' & Ho & _). exists i'. by rewrite Ho. }
  pose proof (dinv_agree _ _ _ _ (same_code_agree _ _ _ _ Hqp Hs) Hd) as Hdi.
  destruct (note_constant_inv _ _ _ _ _ _ _ _ Hnl Hi1' Hdi Hn) as [Hdi1 Hgrow].
  eapply IH; [done|done|exact Hdi1| |exact H].
  pose proof (progress_step _ _ _ _ _ _ _ Hql Hi Hs Hi1 Hp) as Hp1.
  intros r i0 Hr0. destruct (Hp1 r i0 Hr0) as (j & Hj & Ho & Hid & Ha & Ht). exists j.
  repeat (split; [done|]). split; [|done]. eapply Forall2_impl; [done|].
  intros. by eapply arg_replaced_mono.
Qed.

(** Sharing constants rewrites each use to an equal constant that reaches
    it: after [DedupConstants] every instruction keeps its opcode, id and
    arguments, except that a use of a definition may have become a use of
    another definition that materialises the same constant (same opcode, same
    immediates, for [LoadImm] the same result type), that comes earlier in the
    block, and between the two there is no label and no jump; all use counters
    are still exact. *)
Theorem dedup_shares_equal_constants (ext : Ptr -> Z) (f : FeatureSet) (l : list Ptr) (h h' : Heap)
  (d : DedupState) :
  counts_ok ext h -> NoDup l -> DedupConstants f l h = Ok (d, h') ->
  counts_ok ext h' /\
  forall p i, h !! p = Some i -> exists i', h' !! p = Some i' /\ i_op i' = i_op i /\
    i_id i' = i_id i /\ Forall2 (arg_replaced (duplicate h' l)) (i_args i) (i_args i').
Proof.
  intros Hc Hnd H.
  destruct (dedup_loop_inv ext (const_cse f) h l 0 [] dedup_init h d h') as (Hc' & Hd & Hp);
    [done|done|apply dinv_nil| |done|].
  { intros q i Hq. exists i. repeat (split; [done|]). split; [|done].
    apply Forall_Forall2_diag, Forall_forall. intros. constructor. }
  split; [done|]. intros p i Hi. destruct (Hp p i Hi) as (i' & Hi' & Ho & Hid & Ha & _).
  exists i'. repeat (split; [done|]). eapply Forall2_impl; [done|].
  intros a b. apply arg_replaced_mono. intros x y. apply (di_replacement _ _ _ Hd).
Qed.

(** ** The casts of a use are lost *)

(** Two copies of -8 and the signed division of the second one by 2, the way
    the ARM64 front end emits SDIV: a [Div] whose dividend is cast to S64. *)
Definition cast_heap : Heap :=
  <[1%positive := mkInst OpCode_LoadImm [AImm (Imm_u64 (-8)); AVoid; AVoid; AVoid; AVoid]
                    0 0 0 ValueType_U64 None]>
  (<[2%positive := mkInst OpCode_LoadImm [AImm (Imm_u64 (-8)); AVoid; AVoid; AVoid; AVoid]
                    1 1 0 ValueType_U64 None]>
  (<[3%positive := mkInst OpCode_LoadImm [AImm (Imm_u64 2); AVoid; AVoid; AVoid; AVoid]
                    1 2 0 ValueType_U64 None]>
  (<[4%positive := mkInst OpCode_Div [AValue (mkValue (Some 2%positive) ValueType_S64);
                     AOperand OperandPlus; AValue (mkValue (Some 3%positive) ValueType_S64);
                     AVoid; AVoid] 0 3 0 ValueType_U64 None]> ∅))).

Definition cast_block : Block := mkBlock [1; 2; 3; 4]%positive ReturnToHost.

(** The slot of instruction id 3 after running the block. *)
Definition cast_quotient (h : Heap) : option Z :=
  match run_block h sample_config no_host_fn no_host_pair_fn 4 cast_block (sample_state 0 0 0) with
  | Some (Ok (_, s)) => s_stack s !! 6%nat
  | _ => None
  end.

(** [DedupConstants] can change what a block computes: it rewrites a use to
    the bare canonical value, without the cast type the use carried, so that a
    signed division of a shared constant becomes an unsigned one (-8 / 2 turns
    from -4 into 2^63 - 4). *)
Theorem dedup_drops_cast :
  exists d h', DedupConstants all_features (b_insts cast_block) cast_heap = Ok (d, h')
    /\ cast_quotient cast_heap = Some (wrap 64 (-4))
    /\ cast_quotient h' = Some (2 ^ 63 - 4).
Proof.
  destruct (DedupConstants all_features (b_insts cast_block) cast_heap)
    as [[d h']|] eqn:H; [|vm_compute in H; discriminate H].
  exists d, h'. split; [reflexivity|]. split; [vm_compute; reflexivity|].
  vm_compute in H. injection H as _ <-. vm_compute. reflexivity.
Qed.

Lemma dedup_shares_equal_constants_witness :
  exists d h', DedupConstants all_features [1; 2; 3; 4]%positive cast_heap = Ok (d, h')
    /\ replacement d !! 2%positive = Some 1%positive
    /\ counts_ok (fun _ => 0) h'.
Proof.
  destruct (DedupConstants all_features [1; 2; 3; 4]%positive cast_heap)
    as [[d h']|] eqn:H; [|vm_compute in H; discriminate H].
  exists d, h'. split; [reflexivity|].
  split; [vm_compute in H; injection H as <- _; vm_compute; reflexivity|].
  refine (proj1 (dedup_shares_equal_constants (fun _ => 0) all_features
                   [1; 2; 3; 4]%positive cast_heap h' d _ _ H)).
  - apply ir_check_sound. vm_compute. reflexivity.
  - apply (bool_decide_unpack _). vm_compute. exact I.
Defined.
