(* ===== verification/RangeMap.v ===== *)
(** * The range map

    Model of runtime/common/range_map.h: a map from half-open ranges of
    addresses to values (guest modules, uniform registers), kept as an ordered
    map of the addresses where the value changes.  [std::map] is a list in key
    order, an iterator a position in it ([end()] is the length).  The refinement
    theorem is stated against the function from addresses to values. *)

From Stdlib Require Import ZArith Lia.
From stdpp Require Import numbers base list.
From S2P Require Import Prelude MachineInt.

Local Open Scope Z_scope.
Local Open Scope svm_scope.

Section RangeMap.
Context {V : Type} `{EqDecision V} (null_value : V).
(** Width of the key type: 64 for locations, 32 for uniform offsets. *)
Context (w : Z).

Abbreviation Container := (list (Z * V)).

(** [KeyT] is the signed type of the width of the key. *)
Definition min_key : Z := - 2 ^ (w - 1).
Definition max_key : Z := 2 ^ (w - 1) - 1.

(** *** [std::map] *)

Fixpoint lower_bound (a : Z) (m : Container) : nat :=
  match m with
  | (k, _) :: m' => if k <? a then S (lower_bound a m') else O
  | [] => O
  end.

Fixpoint upper_bound (a : Z) (m : Container) : nat :=
  match m with
  | (k, _) :: m' => if k <=? a then S (upper_bound a m') else O
  | [] => O
  end.

(** [emplace]: an existing key is kept. *)
Fixpoint emplace (k : Z) (v : V) (m : Container) : Container :=
  match m with
  | [] => [(k, v)]
  | (k', v') :: m' =>
      if k <? k' then (k, v) :: m
      else if k =? k' then m else (k', v') :: emplace k v m'
  end.

(** The loop [while (it != it_end) it = erase(it)]: past [it_end] it runs off
    the end of the container. *)
Definition erase_range (it it_end : nat) (m : Container) : Res Container :=
  if bool_decide (it <= it_end)%nat then Ok (take it m ++ drop it_end m) else Err EUndefined.

Definition value_of_it (m : Container) (it : nat) : Res V :=
  match m !! it with Some (_, v) => Ok v | None => Err EUndefined end.

(** *** The class *)

Definition RangeMap_new : Container := [(min_key, null_value)].

Definition GetFirstElementBeforeOrOn (m : Container) (address : Z) : nat :=
  let it := lower_bound address m in
  if decide (it = 0%nat) then it
  else match m !! it with
       | Some (k, _) => if k =? address then it else (it - 1)%nat
       | None => (it - 1)%nat
       end.

Definition GetValueInternal (m : Container) (address : Z) : Res V :=
  let it := GetFirstElementBeforeOrOn m address in
  if decide (it = length m) then Ok null_value else value_of_it m it.

Definition ContinuousSizeInternal (m : Container) (address : Z) : Res Z :=
  let it := GetFirstElementBeforeOrOn m address in
  match m !! it with
  | None => Ok 0
  | Some (_, v) =>
      if decide (v = null_value) then Ok 0
      else match m !! S it with
           | None => Ok (max_key - address)
           | Some (k, _) => Ok (k - address)
           end
  end.

Definition GetFirstValueWithin (m : Container) (address : Z) : Res V :=
  let it := lower_bound address m in
  if decide (it = 0%nat) then value_of_it m it
  else if decide (it = length m) then Ok null_value
  else value_of_it m (it - 1).

Definition GetLastValueWithin (m : Container) (address : Z) : Res V :=
  let it := upper_bound address m in
  if decide (it = length m) then Ok null_value
  else if decide (it = 0%nat) then value_of_it m it
  else value_of_it m (it - 1).

Definition InternalMap (m : Container) (address address_end : Z) (value : V) : Res Container :=
  first <-? GetFirstValueWithin m address;
  last_value <-? GetLastValueWithin m address_end;
  let must_add_start := bool_decide (first <> value) in
  let must_add_end := bool_decide (last_value <> value) in
  m <-? erase_range (lower_bound address m) (upper_bound address_end m) m;
  let m := if must_add_start then emplace address value m else m in
  Ok (if must_add_end then emplace address_end last_value m else m).

(** Addresses are reinterpreted as signed and negative ones clamped to zero. *)
Definition RangeMap_Map (m : Container) (address address_end : Z) (value : V) : Res Container :=
  InternalMap m (Z.max 0 (to_signed w address)) (Z.max 0 (to_signed w address_end)) value.

Definition Unmap (m : Container) (address address_end : Z) : Res Container :=
  RangeMap_Map m address address_end null_value.

Definition GetContinuousSizeFrom (m : Container) (address : Z) : Res Z :=
  let a := to_signed w address in if a <? 0 then Ok 0 else ContinuousSizeInternal m a.

Definition GetValueAt (m : Container) (address : Z) : Res V :=
  let a := to_signed w address in if a <? 0 then Ok null_value else GetValueInternal m a.

(** The values [ForEachValue] visits. *)
Definition ForEachValue (m : Container) : list V :=
  filter (fun v => v <> null_value) (snd <$> m).

(** ** Invariant and abstraction *)

(** The value in force at [x], [d] before the first key. *)
Fixpoint value_at (d : V) (m : Container) (x : Z) : V :=
  match m with
  | [] => d
  | (k, v) :: m' => if k <=? x then value_at v m' x else d
  end.

Fixpoint last_value_of (d : V) (m : Container) : V :=
  match m with [] => d | (_, v) :: m' => last_value_of v m' end.

(** Keys strictly increase from [lo] and neighbouring values differ. *)
Fixpoint canonical_from (lo : Z) (d : V) (m : Container) : Prop :=
  match m with
  | [] => True
  | (k, v) :: m' => lo < k /\ v <> d /\ canonical_from k v m'
  end.

(** The invariant of the class: a first entry at the least key, canonical
    entries after it, all values up to the end of the address space in
    non-negative keys, and nothing mapped at the end. *)
Definition rm_ok (m : Container) : Prop :=
  exists m', m = (min_key, null_value) :: m' /\ canonical_from (-1) null_value m' /\
    last_value_of null_value m' = null_value.
End RangeMap.

Arguments lower_bound {V}. Arguments upper_bound {V}. Arguments emplace {V}.
Arguments erase_range {V}. Arguments value_of_it {V}. Arguments value_at {V}.
Arguments last_value_of {V}. Arguments canonical_from {V}.
Arguments GetFirstElementBeforeOrOn {V}.
