(* ===== verification/RangeMapProps.v ===== *)
(** * Correctness of the range map

    The refinement of [RangeMap] to functions from addresses to values. *)

From Stdlib Require Import ZArith Lia.
From stdpp Require Import numbers base list.
From S2P Require Import Prelude MachineInt RangeMap.

Local Open Scope Z_scope.
Local Open Scope svm_scope.

Section Props.
Context {V : Type} `{Heqd : EqDecision V}.
Implicit Types (m l : list (Z * V)) (d v : V).

Abbreviation keys_below a l := (Forall (fun e : Z * V => e.1 < a) l).
Abbreviation keys_above a l := (Forall (fun e : Z * V => a < e.1) l).
Abbreviation keys_from a l := (Forall (fun e : Z * V => a <= e.1) l).

Fixpoint last_key (lo : Z) (l : list (Z * V)) : Z :=
  match l with [] => lo | (k, _) :: l' => last_key k l' end.

(** ** Ordered lists *)

Lemma canonical_app lo d l1 l2 :
  canonical_from lo d (l1 ++ l2) <->
  canonical_from lo d l1 /\ canonical_from (last_key lo l1) (last_value_of d l1) l2.
Proof.
  revert lo d. induction l1 as [|[k v] l1 IH]; intros lo d; simpl; [tauto|]. rewrite IH. tauto.
Qed.

Lemma canonical_above lo d l : canonical_from lo d l -> keys_above lo l.
Proof.
  revert lo d. induction l as [|[k v] l IH]; intros lo d; simpl; [constructor|].
  intros (Hk & _ & Hl). constructor; [done|]. eapply Forall_impl; [by eapply IH|]. simpl. lia.
Qed.

Lemma canonical_weaken lo lo' d l : canonical_from lo d l -> keys_above lo' l -> canonical_from lo' d l.
Proof. destruct l as [|[k v] l]; simpl; [done|]. intros (_ & Hv & Hl) Ha. by inversion Ha. Qed.

Lemma last_key_below lo l a : lo < a -> keys_below a l -> last_key lo l < a.
Proof.
  revert lo. induction l as [|[k v] l IH]; intros lo Hlo H; simpl; [done|].
  inversion H; subst. by apply IH.
Qed.

Lemma split_at a lo d l :
  canonical_from lo d l -> exists l1 l2, l = l1 ++ l2 /\ keys_below a l1 /\ keys_from a l2.
Proof.
  revert lo d. induction l as [|[k v] l IH]; intros lo d; simpl; [by exists [], []|].
  intros (_ & _ & Hl). destruct (Z_lt_le_dec k a) as [Hk|Hk].
  - destruct (IH _ _ Hl) as (l1 & l2 & -> & H1 & H2). exists ((k, v) :: l1), l2.
    split; [done|]. split; [by constructor|done].
  - exists [], ((k, v) :: l). split; [done|]. split; [done|]. constructor; [done|].
    eapply Forall_impl; [by eapply canonical_above|]. simpl. lia.
Qed.

Lemma lower_bound_split a l1 l2 :
  keys_below a l1 -> keys_from a l2 -> lower_bound a (l1 ++ l2) = length l1.
Proof.
  intros H1 H2. induction H1 as [|[k v] l1 Hk H1 IH]; simpl in *.
  - destruct H2 as [|[k v] l2 Hk _]; simpl in *; [done|]. by destruct (Z.ltb_spec k a); [lia|].
  - destruct (Z.ltb_spec k a); [by rewrite IH|lia].
Qed.

Lemma upper_bound_lower a l : upper_bound a l = lower_bound (a + 1) l.
Proof.
  induction l as [|[k v] l IH]; simpl; [done|].
  destruct (Z.leb_spec k a), (Z.ltb_spec k (a + 1)); lia.
Qed.

Lemma emplace_split k v l1 l2 :
  keys_below k l1 -> keys_above k l2 -> emplace k v (l1 ++ l2) = l1 ++ (k, v) :: l2.
Proof.
  intros H1 H2. induction H1 as [|[k' v'] l1 Hk H1 IH]; simpl in *.
  - destruct H2 as [|[k' v'] l2 Hk _]; simpl in *; [done|]. by destruct (Z.ltb_spec k k'); [|lia].
  - destruct (Z.ltb_spec k k'); [lia|]. destruct (Z.eqb_spec k k'); [lia|]. by rewrite IH.
Qed.

Lemma value_at_above d l x : keys_above x l -> value_at d l x = d.
Proof. intros [|[k v] l' Hk _]; simpl in *; [done|]. by destruct (Z.leb_spec k x); [lia|]. Qed.

Lemma value_at_below d l1 l2 x :
  keys_below (x + 1) l1 -> value_at d (l1 ++ l2) x = value_at (last_value_of d l1) l2 x.
Proof.
  intros H. revert d. induction H as [|[k v] l1 Hk _ IH]; intros d; simpl in *; [done|].
  by destruct (Z.leb_spec k x); [|lia].
Qed.

Lemma value_at_prefix d l1 l2 l3 x :
  keys_above x l2 -> keys_above x l3 -> value_at d (l1 ++ l2) x = value_at d (l1 ++ l3) x.
Proof.
  intros H2 H3. revert d. induction l1 as [|[k v] l1 IH]; intros d; simpl.
  - by rewrite !value_at_above.
  - by destruct (k <=? x).
Qed.

Lemma last_value_app d l1 l2 :
  last_value_of d (l1 ++ l2) = last_value_of (last_value_of d l1) l2.
Proof. revert d. induction l1 as [|[k v] l1 IH]; intros d; simpl; [done|]. apply IH. Qed.

Lemma value_of_prev k0 d l1 l2 :
  value_of_it ((k0, d) :: l1 ++ l2) (length l1) = Ok (last_value_of d l1).
Proof.
  revert k0 d. induction l1 as [|[k v] l1 IH]; intros k0 d; simpl; [done|].
  unfold value_of_it in *. simpl. apply IH.
Qed.
End Props.

Section Refinement.
Context {V : Type} `{Heqd : EqDecision V} (null : V) (w : Z) (Hw : 1 < w).
Implicit Types (m l : list (Z * V)).

Abbreviation keys_below a l := (Forall (fun e : Z * V => e.1 < a) l).
Abbreviation keys_above a l := (Forall (fun e : Z * V => a < e.1) l).
Abbreviation keys_from a l := (Forall (fun e : Z * V => a <= e.1) l).

Lemma min_key_neg : min_key w < 0.
Proof. unfold min_key. pose proof (Z.pow_pos_nonneg 2 (w - 1)). lia. Qed.

Lemma keys_above_weaken a b l : b <= a -> keys_above a l -> keys_above b l.
Proof. intros. eapply Forall_impl; [done|]. simpl. lia. Qed.
Lemma keys_below_weaken a b l : a <= b -> keys_below a l -> keys_below b l.
Proof. intros. eapply Forall_impl; [done|]. simpl. lia. Qed.
Lemma keys_from_above a l : keys_from (a + 1) l <-> keys_above a l.
Proof. split; intros; (eapply Forall_impl; [done|]); simpl; lia. Qed.

Lemma lower_bound_head a l : 0 <= a ->
  lower_bound a ((min_key w, null) :: l) = S (lower_bound a l).
Proof. intros. simpl. pose proof min_key_neg. by destruct (Z.ltb_spec (min_key w) a); [|lia]. Qed.

Lemma GetFirstValueWithin_split a l1 l2 :
  0 <= a -> keys_below a l1 -> keys_from a l2 -> last_value_of null (l1 ++ l2) = null ->
  GetFirstValueWithin null ((min_key w, null) :: l1 ++ l2) a = Ok (last_value_of null l1).
Proof.
  intros Ha H1 H2 Hlast. unfold GetFirstValueWithin.
  rewrite lower_bound_head, lower_bound_split by done. rewrite decide_False by done.
  destruct (decide _) as [E|E].
  - simpl in E. rewrite length_app in E. destruct l2; [|simpl in E; lia].
    rewrite app_nil_r in Hlast. by rewrite Hlast.
  - simpl. rewrite Nat.sub_0_r. apply value_of_prev.
Qed.

Lemma GetLastValueWithin_split a l1 l2 :
  0 <= a -> keys_below (a + 1) l1 -> keys_from (a + 1) l2 ->
  last_value_of null (l1 ++ l2) = null ->
  GetLastValueWithin null ((min_key w, null) :: l1 ++ l2) a = Ok (last_value_of null l1).
Proof.
  intros Ha H1 H2 Hlast.
  pose proof (GetFirstValueWithin_split (a + 1) l1 l2 ltac:(lia) H1 H2 Hlast) as H.
  unfold GetLastValueWithin, GetFirstValueWithin in *. rewrite upper_bound_lower.
  rewrite lower_bound_head, lower_bound_split in * by (done || lia).
  rewrite decide_False in H by done. destruct (decide (S _ = _)); [done|].
  by rewrite decide_False.
Qed.

(** The entries after mapping [a, e) to [v]. *)
Definition mapped (a e : Z) (v : V) (l1 l2 l3 : list (Z * V)) : list (Z * V) :=
  l1 ++ (if bool_decide (last_value_of null l1 <> v) then [(a, v)] else [])
     ++ (if bool_decide (last_value_of null (l1 ++ l2) <> v)
         then [(e, last_value_of null (l1 ++ l2))] else []) ++ l3.

Lemma InternalMap_split a e v l1 l2 l3 :
  0 <= a < e -> keys_below a l1 -> keys_from a l2 -> keys_below (e + 1) l2 -> keys_above e l3 ->
  last_value_of null (l1 ++ l2 ++ l3) = null ->
  InternalMap null ((min_key w, null) :: l1 ++ l2 ++ l3) a e v
  = Ok ((min_key w, null) :: mapped a e v l1 l2 l3).
Proof.
  intros Hae H1 H2 H2' H3 Hlast. unfold InternalMap.
  assert (keys_below (e + 1) (l1 ++ l2)) as H12.
  { apply Forall_app. split; [|done]. by eapply keys_below_weaken; [|done]; lia. }
  assert (keys_from a (l2 ++ l3)) as H23.
  { apply Forall_app. split; [done|]. eapply Forall_impl; [done|]. simpl. lia. }
  assert (keys_from (e + 1) l3) as H3' by by apply keys_from_above.
  rewrite GetFirstValueWithin_split by (done || lia).
  pose proof (GetLastValueWithin_split e (l1 ++ l2) l3) as Hl.
  rewrite <- !app_assoc in Hl. rewrite Hl by (done || lia). clear Hl. cbn [rbind].
  rewrite upper_bound_lower.
  rewrite lower_bound_head, lower_bound_split by (done || lia).
  rewrite lower_bound_head by lia. rewrite (app_assoc l1), lower_bound_split by done.
  unfold erase_range. rewrite length_app, bool_decide_true by lia. cbn [rbind take drop].
  assert (take (length l1) ((l1 ++ l2) ++ l3) = l1) as ->.
  { by rewrite <- app_assoc, take_app_length. }
  assert (drop (length l1 + length l2) ((l1 ++ l2) ++ l3) = l3) as ->.
  { rewrite <- length_app. apply drop_app_length. }
  pose proof min_key_neg as Hmin.
  assert (forall k, 0 <= k -> keys_below k [(min_key w, null)]) as Hk.
  { intros k ?. constructor; [simpl; lia|done]. }
  f_equal. unfold mapped. change ((min_key w, null) :: l1 ++ l3) with (((min_key w, null) :: l1) ++ l3).
  assert (keys_below a ((min_key w, null) :: l1)) by (constructor; [simpl; lia|done]).
  assert (keys_below e ((min_key w, null) :: l1)) by (eapply keys_below_weaken; [|done]; lia).
  destruct (bool_decide (last_value_of null l1 <> v));
    destruct (bool_decide (last_value_of null (l1 ++ l2) <> v)); simpl app.
  - rewrite !app_comm_cons, emplace_split; [|done|by eapply keys_above_weaken; [|done]; lia].
    rewrite (app_assoc _ [(a, v)] l3 : _ ++ (a, v) :: l3 = _), emplace_split;
      [by rewrite <- app_assoc|apply Forall_app; split; [done|]|done].
    constructor; [simpl; lia|done].
  - rewrite !app_comm_cons, emplace_split; [done|done|by eapply keys_above_weaken; [|done]; lia].
  - by rewrite !app_comm_cons, emplace_split.
  - done.
Qed.
(** *** What [mapped] means *)

Section Mapped.
Context (a e : Z) (v : V) (l1 l2 l3 : list (Z * V)).
Hypothesis Hae : 0 <= a < e.
Hypothesis H1 : keys_below a l1.
Hypothesis H2 : keys_from a l2.
Hypothesis H2' : keys_below (e + 1) l2.
Hypothesis H3 : keys_above e l3.

Let first := last_value_of null l1.
Let last := last_value_of null (l1 ++ l2).
Let S_ := if bool_decide (first <> v) then [(a, v)] else [].
Let E_ := if bool_decide (last <> v) then [(e, last)] else [].

Lemma mapped_parts : mapped a e v l1 l2 l3 = l1 ++ S_ ++ E_ ++ l3.
Proof. done. Qed.

Lemma last_S : last_value_of first S_ = v.
Proof. unfold S_. case_bool_decide as Hc; simpl; [done|]. by destruct (decide (first = v)). Qed.

Lemma last_E : last_value_of v E_ = last.
Proof. unfold E_. case_bool_decide as Hc; simpl; [done|]. by destruct (decide (last = v)). Qed.

Lemma keys_S k : a < k -> keys_below k S_.
Proof. intros Hk. unfold S_. case_bool_decide; [by apply Forall_singleton|constructor]. Qed.
Lemma keys_E k : e < k -> keys_below k E_.
Proof. intros Hk. unfold E_. case_bool_decide; [by apply Forall_singleton|constructor]. Qed.
Lemma above_S k : k < a -> keys_above k S_.
Proof. intros Hk. unfold S_. case_bool_decide; [by apply Forall_singleton|constructor]. Qed.
Lemma above_E k : k < e -> keys_above k E_.
Proof. intros Hk. unfold E_. case_bool_decide; [by apply Forall_singleton|constructor]. Qed.

Lemma mapped_value x :
  value_at null (mapped a e v l1 l2 l3) x =
  if bool_decide (a <= x < e) then v else value_at null (l1 ++ l2 ++ l3) x.
Proof.
  rewrite mapped_parts. destruct (Z_lt_le_dec x a) as [Hx|Hx].
  { rewrite bool_decide_false by lia. apply value_at_prefix; rewrite ?Forall_app.
    - split; [by apply above_S|]. split; [apply above_E; lia|].
      by eapply keys_above_weaken; [|done]; lia.
    - split; [|by eapply keys_above_weaken; [|done]; lia].
      eapply keys_above_weaken; [|apply keys_from_above; rewrite Z.sub_add; exact H2]. lia. }
  rewrite value_at_below by (eapply keys_below_weaken; [|done]; lia).
  rewrite value_at_below by (apply keys_S; lia). fold first. rewrite last_S.
  destruct (Z_lt_le_dec x e) as [Hx'|Hx'].
  { rewrite bool_decide_true by done. apply value_at_above, Forall_app.
    split; [by apply above_E|]. by eapply keys_above_weaken; [|done]; lia. }
  rewrite bool_decide_false by lia. rewrite value_at_below by (apply keys_E; lia).
  rewrite last_E, app_assoc, value_at_below; [done|]. apply Forall_app.
  split; (eapply keys_below_weaken; [|done]); lia.
Qed.

Lemma mapped_last : last_value_of null (mapped a e v l1 l2 l3) = last_value_of null (l1 ++ l2 ++ l3).
Proof.
  rewrite mapped_parts, !last_value_app. fold first. rewrite last_S, last_E.
  unfold last. by rewrite last_value_app.
Qed.

Lemma mapped_canonical :
  canonical_from (-1) null (l1 ++ l2 ++ l3) -> canonical_from (-1) null (mapped a e v l1 l2 l3).
Proof.
  rewrite mapped_parts, (app_assoc l1 l2), !canonical_app. intros [[Hc1 _] Hc3]. split; [done|].
  pose proof (last_key_below (-1) l1 a ltac:(lia) H1) as Hk1. fold first. rewrite last_S.
  assert (last_key (-1) l1 < e /\ last_key (last_key (-1) l1) S_ < e) as [_ HkS].
  { split; [lia|]. apply last_key_below; [lia|]. apply keys_S. lia. }
  split; [unfold S_; case_bool_decide; simpl; naive_solver|].
  split; [unfold E_; case_bool_decide; simpl; naive_solver|].
  rewrite last_E. eapply canonical_weaken; [exact Hc3|].
  eapply keys_above_weaken; [|exact H3]. enough (last_key (last_key (last_key (-1) l1) S_) E_ < e + 1) by lia.
  apply last_key_below; [lia|]. apply keys_E. lia.
Qed.
End Mapped.

(** ** Reading *)

Lemma GetFirstElement_spec m' x :
  0 <= x -> forall l1 l2, m' = l1 ++ l2 -> keys_below (x + 1) l1 -> keys_above x l2 ->
  forall lo d, canonical_from lo d m' ->
  GetFirstElementBeforeOrOn ((min_key w, null) :: m') x = length l1.
Proof.
  intros Hx l1 l2 -> H1 H2 lo d Hc. unfold GetFirstElementBeforeOrOn.
  rewrite lower_bound_head by done. rewrite decide_False by done. simpl lookup.
  destruct (split_at x lo d _ Hc) as (k1 & k2 & Heq & Hk1 & Hk2).
  rewrite Heq, lower_bound_split by done.
  assert (exists k3, l1 = k1 ++ k3 /\ k2 = k3 ++ l2 /\ keys_from x k3) as (k3 & -> & -> & Hk3).
  { apply app_eq_app in Heq as (k3 & [[-> ->]|[-> ->]]).
    - exists k3. split; [done|]. split; [done|]. by apply Forall_app in Hk2 as [? _].
    - exists []. apply Forall_app in Hk1 as [_ Hk1]. destruct k3 as [|[k u] k3].
      + by rewrite !app_nil_r.
      + exfalso. inversion H2; subst. inversion Hk1; subst. simpl in *. lia. }
  rewrite (lookup_app_r k1) by lia. rewrite Nat.sub_diag.
  rewrite length_app. destruct k3 as [|[k u] k3].
  - rewrite Nat.add_0_r. simpl. destruct H2 as [|[k u] l2' Hk _]; simpl in *; [lia|].
    destruct (Z.eqb_spec k x); lia.
  - apply Forall_app in H1 as [_ H1]. inversion H1; subst. inversion Hk3; subst. simpl in *.
    assert (k = x) as -> by lia. rewrite Z.eqb_refl.
    destruct k3 as [|[k' u'] k3]; [simpl; lia|].
    exfalso. rewrite !canonical_app in Hc. destruct Hc as [[_ Hc] _]. simpl in Hc.
    destruct Hc as (_ & _ & Hc & _). apply Forall_cons in H1 as [_ H1].
    apply Forall_cons in H1 as [H1 _]. simpl in H1. lia.
Qed.

(** The reads, on a container split at [x]. *)
Lemma rm_split m x :
  rm_ok null w m -> 0 <= x -> exists l1 l2, m = (min_key w, null) :: l1 ++ l2 /\
    keys_below (x + 1) l1 /\ keys_above x l2 /\ canonical_from (-1) null (l1 ++ l2) /\
    last_value_of null (l1 ++ l2) = null.
Proof.
  intros (m' & -> & Hc & Hl) Hx. destruct (split_at (x + 1) _ _ _ Hc) as (l1 & l2 & -> & H1 & H2).
  exists l1, l2. rewrite keys_from_above in H2. done.
Qed.

Lemma value_at_head l1 l2 x : 0 <= x ->
  value_at null ((min_key w, null) :: l1 ++ l2) x = value_at null (l1 ++ l2) x.
Proof. intros. simpl. pose proof min_key_neg. by destruct (Z.leb_spec (min_key w) x); [|lia]. Qed.

Lemma GetValueInternal_spec m x :
  rm_ok null w m -> 0 <= x -> GetValueInternal null m x = Ok (value_at null m x).
Proof.
  intros Hm Hx. destruct (rm_split m x Hm Hx) as (l1 & l2 & -> & H1 & H2 & Hc & Hl).
  unfold GetValueInternal. erewrite GetFirstElement_spec by done.
  rewrite decide_False by (simpl; rewrite length_app; lia).
  rewrite value_of_prev, value_at_head by done. f_equal.
  rewrite value_at_below by done. by rewrite value_at_above.
Qed.

Lemma ContinuousSizeInternal_spec m x :
  rm_ok null w m -> 0 <= x -> exists n, ContinuousSizeInternal null w m x = Ok n /\
    (value_at null m x = null -> n = 0) /\
    (value_at null m x <> null -> 0 < n /\ (forall y, x <= y < x + n -> value_at null m y = value_at null m x)
       /\ value_at null m (x + n) <> value_at null m x).
Proof.
  intros Hm Hx. destruct (rm_split m x Hm Hx) as (l1 & l2 & -> & H1 & H2 & Hc & Hl).
  assert (value_at null ((min_key w, null) :: l1 ++ l2) x = last_value_of null l1) as Hv.
  { rewrite value_at_head by done. rewrite value_at_below by done. by rewrite value_at_above. }
  unfold ContinuousSizeInternal. erewrite GetFirstElement_spec by done.
  pose proof (value_of_prev (min_key w) null l1 l2) as Hp. unfold value_of_it in Hp.
  destruct (_ !! length l1) as [[k0 v0]|] eqn:E; [|done]. injection Hp as ->. rewrite Hv.
  destruct (decide (last_value_of null l1 = null)) as [Hn|Hn]; [by exists 0|].
  assert (((min_key w, null) :: l1 ++ l2) !! S (length l1) = l2 !! 0%nat) as ->.
  { simpl. by rewrite lookup_app_r, Nat.sub_diag. }
  destruct l2 as [|[k v] l2]; [by rewrite app_nil_r in Hl|]. simpl lookup.
  apply Forall_cons in H2 as [Hk H2]. simpl in Hk.
  apply canonical_app in Hc as [Hc1 (Hk1 & Hvn & Hc2)].
  exists (k - x). split; [done|]. split; [done|]. intros _. split; [lia|]. split.
  - intros y Hy. rewrite value_at_head by lia.
    rewrite value_at_below by (eapply keys_below_weaken; [|done]; lia). apply value_at_above.
    constructor; [simpl; lia|]. eapply keys_above_weaken; [|by eapply canonical_above]. lia.
  - replace (x + (k - x)) with k by lia. rewrite value_at_head by lia.
    rewrite value_at_below by (eapply keys_below_weaken; [|done]; lia).
    simpl. rewrite Z.leb_refl. rewrite value_at_above; [done|]. by eapply canonical_above.
Qed.
End Refinement.

(** (C39) [RangeMap] implements a function from addresses to values: mapping a
    non-empty range [a, e) of non-negative addresses succeeds, keeps the
    container well formed (ordered, neighbouring values distinct, nothing mapped
    at the end), and afterwards [GetValueAt] returns the new value inside the
    range and what it returned before everywhere else. *)
Theorem RangeMap_refines_function {V : Type} `{Heqd : EqDecision V} (null : V) (w : Z)
  (m : list (Z * V)) (a e : Z) (v : V) :
  1 < w -> rm_ok null w m -> 0 <= a < e -> e < 2 ^ (w - 1) ->
  exists m', RangeMap_Map null w m a e v = Ok m' /\ rm_ok null w m' /\
    forall x, GetValueAt null w m' x =
      if bool_decide (a <= to_signed w x < e) then Ok v else GetValueAt null w m x.
Proof.
  intros Hw Hm Hae He. pose proof Hm as (t & -> & Hc & Hl).
  destruct (split_at a _ _ _ Hc) as (l1 & l23 & -> & H1 & H23).
  pose proof Hc as Hc23. apply canonical_app in Hc23 as [_ Hc23].
  destruct (split_at (e + 1) _ _ _ Hc23) as (l2 & l3 & -> & H2' & H3).
  apply Forall_app in H23 as [H2 _]. rewrite keys_from_above in H3.
  exists ((min_key w, null) :: mapped null a e v l1 l2 l3).
  assert (rm_ok null w ((min_key w, null) :: mapped null a e v l1 l2 l3)) as Hok.
  { exists (mapped null a e v l1 l2 l3). split; [done|]. split; [by apply mapped_canonical|].
    by rewrite mapped_last. }
  split; [|split; [done|]].
  - unfold RangeMap_Map. rewrite !to_signed_small by lia. rewrite !Z.max_r by lia.
    by apply InternalMap_split.
  - intros x. unfold GetValueAt. destruct (Z.ltb_spec (to_signed w x) 0) as [Hx|Hx].
    { by rewrite bool_decide_false by lia. }
    rewrite !(GetValueInternal_spec null w Hw) by done. rewrite value_at_head by done.
    replace (value_at null ((min_key w, null) :: mapped null a e v l1 l2 l3) (to_signed w x))
      with (value_at null (mapped null a e v l1 l2 l3) (to_signed w x)).
    2: { pose proof (value_at_head null w Hw [] (mapped null a e v l1 l2 l3) (to_signed w x) Hx). done. }
    rewrite mapped_value by done. by destruct (bool_decide _).
Qed.

(** The extent [GetContinuousSizeFrom] reports is exact: on a well formed
    container it is 0 where nothing is mapped, and otherwise the distance to the
    first address where [GetValueAt] changes. *)
Theorem continuous_size_exact {V : Type} `{Heqd : EqDecision V} (null : V) (w : Z)
  (m : list (Z * V)) (x : Z) :
  1 < w -> rm_ok null w m -> 0 <= x < 2 ^ (w - 1) ->
  exists n, GetContinuousSizeFrom null w m x = Ok n /\
    (GetValueAt null w m x = Ok null -> n = 0) /\
    (GetValueAt null w m x <> Ok null -> 0 < n /\
       (forall y, x <= y < x + n -> y < 2 ^ (w - 1) -> GetValueAt null w m y = GetValueAt null w m x)
       /\ (x + n < 2 ^ (w - 1) -> GetValueAt null w m (x + n) <> GetValueAt null w m x)).
Proof.
  intros Hw Hm Hx.
  assert (forall y, 0 <= y < 2 ^ (w - 1) -> GetValueAt null w m y = Ok (value_at null m y)) as Hget.
  { intros y Hy. unfold GetValueAt. rewrite to_signed_small by lia.
    destruct (Z.ltb_spec y 0); [lia|]. apply (GetValueInternal_spec null w Hw); [done|lia]. }
  destruct (ContinuousSizeInternal_spec null w Hw m x Hm ltac:(lia)) as (n & Hn & H0 & H1).
  exists n. unfold GetContinuousSizeFrom. rewrite to_signed_small by lia.
  destruct (Z.ltb_spec x 0); [lia|]. split; [done|]. rewrite (Hget x) by done. split.
  - intros [= ?]. by apply H0.
  - intros Hne. destruct (H1 ltac:(congruence)) as (Hpos & Hsame & Hdiff). split; [done|]. split.
    + intros y Hy Hy'. rewrite Hget by lia. by rewrite Hsame.
    + intros Hlt. rewrite Hget by lia. congruence.
Qed.

(** ** Examples, and the empty range *)

Definition range_sample : list (Z * Z) := [(min_key 64, 0); (0x1000, 1); (0x2000, 0)].

Lemma range_sample_ok : rm_ok 0 64 range_sample.
Proof. exists [(0x1000, 1); (0x2000, 0)]. split; [done|]. simpl. lia. Qed.

Lemma RangeMap_refines_function_witness :
  exists m', RangeMap_Map 0 64 range_sample 0x1800 0x3000 2 = Ok m' /\ rm_ok 0 64 m' /\
    forall x, GetValueAt 0 64 m' x =
      if bool_decide (0x1800 <= to_signed 64 x < 0x3000) then Ok 2 else GetValueAt 0 64 range_sample x.
Proof.
  apply (RangeMap_refines_function 0 64 range_sample 0x1800 0x3000 2);
    [lia|apply range_sample_ok|lia|lia].
Defined.

Lemma continuous_size_exact_witness :
  exists n, GetContinuousSizeFrom 0 64 range_sample 0x1100 = Ok n /\
    (GetValueAt 0 64 range_sample 0x1100 = Ok 0 -> n = 0) /\
    (GetValueAt 0 64 range_sample 0x1100 <> Ok 0 -> 0 < n /\
       (forall y, 0x1100 <= y < 0x1100 + n -> y < 2 ^ (64 - 1) ->
          GetValueAt 0 64 range_sample y = GetValueAt 0 64 range_sample 0x1100)
       /\ (0x1100 + n < 2 ^ (64 - 1) ->
             GetValueAt 0 64 range_sample (0x1100 + n) <> GetValueAt 0 64 range_sample 0x1100)).
Proof. apply (continuous_size_exact 0 64 range_sample 0x1100); [lia|apply range_sample_ok|lia]. Defined.

(** Mapping an empty range is not a no-op: [Map(a, a, v)] at the start of
    a mapped range replaces the value of the whole range, and a reversed range
    ([address_end] below [address], which includes every range whose end does
    not fit the signed key type) can run its erase loop off the container. *)
Theorem empty_range_remaps :
  exists m', RangeMap_Map 0 64 range_sample 0x1000 0x1000 2 = Ok m'
    /\ GetValueAt 0 64 range_sample 0x1800 = Ok 1 /\ GetValueAt 0 64 m' 0x1800 = Ok 2
    /\ RangeMap_Map 0 64 range_sample 0x1800 (2 ^ 64 - 1) 2 = Err EUndefined.
Proof. eexists. repeat split; vm_compute; reflexivity. Qed.
