(* ===== verification/TranslateTable.v ===== *)
(** * The translation table

    Model of runtime/backend/translate_table.h: the open-addressing hash table
    that maps guest locations to translated code, read without a lock by
    generated code.  Keys are non-zero; a zero key marks a free slot.  The
    mutex is modelled where it matters: [Replace] of an absent key locks it
    twice.  The probing loops take fuel; [size] iterations always suffice
    ([table_refines_map]). *)

From Stdlib Require Import ZArith Lia.
From stdpp Require Import numbers base gmap list.
From S2P Require Import Prelude MachineInt.

Local Open Scope Z_scope.
Local Open Scope svm_scope.

Inductive TranslateTableHash : Set := Folded | Direct.

Record TranslateTable := mkTable {
  hash_bits : Z;
  hash_mode : TranslateTableHash;
  invalid_value : Z;
  indexed_invalid_base : Z;
  entries : list (Z * Z)        (* key, value *)
}.

Definition table_size (t : TranslateTable) : Z := Z.shiftl 1 (hash_bits t).

Definition set_entries (l : list (Z * Z)) (t : TranslateTable) : TranslateTable :=
  mkTable (hash_bits t) (hash_mode t) (invalid_value t) (indexed_invalid_base t) l.

(** [Reset]: ten spare entries, the last one a sentinel key. *)
Definition fresh_entries (size : Z) : list (Z * Z) :=
  replicate (Z.to_nat (size + 9)) (0, 0) ++ [(2 ^ 64 - 1, 0)].

Definition Table_Reset (t : TranslateTable) : TranslateTable :=
  set_entries (fresh_entries (table_size t)) t.

Definition TranslateTable_new (bits : Z) (mode : TranslateTableHash) : TranslateTable :=
  Table_Reset (mkTable bits mode 0 0 []).

(** [Clear] also zeroes the sentinel. *)
Definition Table_Clear (t : TranslateTable) : TranslateTable :=
  set_entries (replicate (length (entries t)) (0, 0)) t.

Definition Hash (t : TranslateTable) (key : Z) : Z :=
  match hash_mode t with
  | Direct => wrap 32 (Z.land key (table_size t - 1))
  | Folded => let merged := Z.shiftr key 2 in
              wrap 32 (Z.land (Z.lxor (Z.shiftr merged (hash_bits t)) merged) (table_size t - 1))
  end.

Definition entry_at (t : TranslateTable) (index : Z) : Res (Z * Z) :=
  match entries t !! Z.to_nat index with Some e => Ok e | None => Err EUndefined end.

(** Storing one field of an entry. *)
Definition store_key (index k : Z) (t : TranslateTable) : TranslateTable :=
  set_entries (alter (fun e => (k, snd e)) (Z.to_nat index) (entries t)) t.
Definition store_value (index v : Z) (t : TranslateTable) : TranslateTable :=
  set_entries (alter (fun e => (fst e, v)) (Z.to_nat index) (entries t)) t.

Definition SetInvalidValue (value : Z) (t : TranslateTable) : TranslateTable :=
  store_value (Hash t 0) value
    (mkTable (hash_bits t) (hash_mode t) value 0 (entries t)).

Definition kEntrySize : Z := 16.

Definition SetIndexedInvalidValue (base : Z) (t : TranslateTable) : TranslateTable :=
  store_value (Hash t 0) (wrap 64 (base + Hash t 0 * kEntrySize))
    (mkTable (hash_bits t) (hash_mode t) 0 base (entries t)).

(** The loop of [Put]: the slot it settles on, or [abort()]. *)
Fixpoint put_probe (fuel : nat) (t : TranslateTable) (key index : Z) : Res Z :=
  match fuel with
  | O => Err EFuel
  | S f =>
      e <-? entry_at t index;
      if (fst e =? 0) || (fst e =? key) then Ok index
      else let index := wrap 32 (index + 1) in
           if table_size t - 1 <=? index then Err EPanic else put_probe f t key index
  end.

Definition table_fuel (t : TranslateTable) : nat := Z.to_nat (table_size t).

(** The result is declared [bool], so the index [2 * index + 1] collapses to
    [true]. *)
Definition Table_Put (key value : Z) (t : TranslateTable) : Res (bool * TranslateTable) :=
  index <-? put_probe (table_fuel t) t key (Hash t key);
  Ok (negb (wrap 32 (2 * index + 1) =? 0), store_key index key (store_value index value t)).

Definition GetOrPut (key value : Z) (t : TranslateTable) : Res (Z * TranslateTable) :=
  index <-? put_probe (table_fuel t) t key (Hash t key);
  e <-? entry_at t index;
  if (fst e =? key) && negb (snd e =? 0) then Ok (wrap 32 (2 * index + 1), t)
  else Ok (wrap 32 (2 * index + 1), store_key index key (store_value index value t)).

(** The loop of [Lookup], [Replace] and [Zero]: the slot of the key, if it is
    reached before a free slot and the end of the table. *)
Fixpoint find_probe (fuel : nat) (t : TranslateTable) (key index : Z) : Res (option Z) :=
  match fuel with
  | O => Err EFuel
  | S f =>
      e <-? entry_at t index;
      if fst e =? key then Ok (Some index)
      else let index := wrap 32 (index + 1) in
           if (index <? table_size t - 1) && negb (fst e =? 0) then find_probe f t key index
           else Ok None
  end.

Definition find_slot (t : TranslateTable) (key : Z) : Res (option Z) :=
  find_probe (table_fuel t) t key (Hash t key).

Definition Table_Lookup (key : Z) (t : TranslateTable) : Res Z :=
  r <-? find_slot t key;
  match r with Some index => e <-? entry_at t index; Ok (snd e) | None => Ok 0 end.

(** On a miss [Replace] calls [Put] with the lock held: locking a mutex the
    thread already owns is undefined. *)
Definition Replace (key value : Z) (t : TranslateTable) : Res TranslateTable :=
  r <-? find_slot t key;
  match r with Some index => Ok (store_value index value t) | None => Err EUndefined end.

Definition Zero (key : Z) (t : TranslateTable) : Res (bool * TranslateTable) :=
  r <-? find_slot t key;
  match r with
  | Some index =>
      Ok (true, store_value index
                  (if negb (indexed_invalid_base t =? 0)
                   then wrap 64 (indexed_invalid_base t + index * kEntrySize)
                   else invalid_value t) t)
  | None => Ok (false, t)
  end.

(** The loop of [Remove]: the next index is [(index + 1) & size]. *)
Fixpoint remove_probe (fuel : nat) (t : TranslateTable) (key index end_ : Z) : Res TranslateTable :=
  match fuel with
  | O => Err EFuel
  | S f =>
      e <-? entry_at t index;
      if fst e =? key then Ok (store_key index 0 t)
      else let index := wrap 32 (Z.land (index + 1) (table_size t)) in
           if negb (index =? end_) && negb (fst e =? 0) then remove_probe f t key index end_
           else Ok t
  end.

Definition Table_Remove (key : Z) (t : TranslateTable) : Res TranslateTable :=
  remove_probe (table_fuel t) t key (Hash t key) (wrap 32 (Hash t key - 1)).

Definition PutAt (index key : Z) (t : TranslateTable) : Res (bool * TranslateTable) :=
  if (key =? 0) || (table_size t - 1 <=? index) then Ok (false, t)
  else
    e <-? entry_at t index;
    if fst e =? key then Ok (true, t)
    else if negb (fst e =? 0) then Ok (false, t)
    else Ok (true, store_key index key (store_value index 0 t)).

(** The (index, key, value) triples [ForEachEntry] visits. *)
Definition ForEachEntry (t : TranslateTable) : list (Z * Z * Z) :=
  omap (fun ie => if fst (snd ie) =? 0 then None
                  else Some (Z.of_nat (fst ie), fst (snd ie), snd (snd ie)))
    (imap pair (take (Z.to_nat (table_size t - 1)) (entries t))).

(** The replay of a recorded slot assignment (jit_cache.cpp): every [PutAt] must
    succeed. *)
Fixpoint replay (snapshot : list (Z * Z * Z)) (t : TranslateTable) : Res (bool * TranslateTable) :=
  match snapshot with
  | [] => Ok (true, t)
  | (index, key, _) :: rest =>
      r <-? PutAt index key t;
      if fst r then replay rest (snd r) else Ok (false, snd r)
  end.
