(* ===== verification/TranslateTableProps.v ===== *)
(** * Correctness of the translation table

    The refinement of the open-addressing table to a finite map, the
    linearizability of [Put] towards lock-free readers, and the round trip of a
    recorded slot assignment. *)

From Stdlib Require Import ZArith Lia.
From stdpp Require Import numbers base gmap list.
From S2P Require Import Prelude MachineInt TranslateTable.

Local Open Scope Z_scope.
Local Open Scope svm_scope.

(** ** Invariant *)

Definition slot (t : TranslateTable) (i : Z) : option (Z * Z) := entries t !! Z.to_nat i.

(** Slot [i] holds key [k] with value [v]. *)
Definition holds_at (t : TranslateTable) (i k v : Z) : Prop :=
  0 <= i < table_size t /\ slot t i = Some (k, v) /\ k <> 0.

(** Slot [i] is occupied. *)
Definition occupied (t : TranslateTable) (i : Z) : Prop := exists k v, holds_at t i k v.

Record table_ok (t : TranslateTable) : Prop := {
  ok_bits : 1 <= hash_bits t <= 30;
  ok_len : Z.of_nat (length (entries t)) = table_size t + 10;
  (* a key sits at or after its home; only a key at home uses the last slot *)
  ok_home i k v : holds_at t i k v -> Hash t k <= i /\ (i < table_size t - 1 \/ i = Hash t k);
  (* with no free slot between *)
  ok_chain i k v j : holds_at t i k v -> Hash t k <= j < i -> occupied t j;
  ok_distinct i j k v u : holds_at t i k v -> holds_at t j k u -> i = j
}.

(** The abstraction: a finite map from keys to values. *)
Definition represents (t : TranslateTable) (m : gmap Z Z) : Prop :=
  table_ok t /\ forall k v, k <> 0 -> (m !! k = Some v <-> exists i, holds_at t i k v).

(** ** Basic facts *)

Section Table.
Context (t : TranslateTable) (Hok : table_ok t).

Lemma size_bounds : 2 <= table_size t <= 2 ^ 30.
Proof.
  unfold table_size. rewrite Z.shiftl_mul_pow2 by (pose proof (ok_bits t Hok); lia).
  pose proof (ok_bits t Hok). rewrite Z.mul_1_l. split.
  - change 2 with (2 ^ 1) at 1. apply Z.pow_le_mono_r; lia.
  - apply Z.pow_le_mono_r; lia.
Qed.

Lemma Hash_range k : 0 <= Hash t k < table_size t.
Proof.
  pose proof size_bounds. pose proof (ok_bits t Hok).
  assert (forall x, 0 <= Z.land x (table_size t - 1) < table_size t) as Hl.
  { intros x. unfold table_size. rewrite Z.shiftl_1_l.
    assert (2 ^ hash_bits t - 1 = Z.ones (hash_bits t)) as -> by (rewrite Z.ones_equiv; lia).
    rewrite Z.land_ones by lia. apply Z.mod_pos_bound, Z.pow_pos_nonneg; lia. }
  unfold Hash. destruct (hash_mode t); cbv zeta;
    (rewrite wrap_small; [apply Hl|]);
    match goal with |- context [Z.land ?x _] => pose proof (Hl x); lia end.
Qed.

Lemma slot_some i : 0 <= i < table_size t + 10 -> exists e, slot t i = Some e.
Proof.
  intros Hi. unfold slot. destruct (entries t !! Z.to_nat i) as [e|] eqn:E; [by exists e|].
  apply lookup_ge_None in E. pose proof (ok_len t Hok). lia.
Qed.

Lemma entry_at_slot i e : slot t i = Some e -> entry_at t i = Ok e.
Proof. unfold slot, entry_at. by intros ->. Qed.

Lemma next_index i : 0 <= i < table_size t -> wrap 32 (i + 1) = i + 1.
Proof. intros. pose proof size_bounds. apply wrap_small. lia. Qed.
End Table.

(** ** Probing *)

Lemma find_probe_spec t k (Hok : table_ok t) : k <> 0 -> forall fuel j,
  Hash t k <= j < table_size t -> table_size t - j <= Z.of_nat fuel ->
  (forall i v, holds_at t i k v -> j <= i) ->
  (exists i v, find_probe fuel t k j = Ok (Some i) /\ holds_at t i k v) \/
  (find_probe fuel t k j = Ok None /\ forall i v, ~ holds_at t i k v).
Proof.
  intros Hk fuel. pose proof (Hash_range t Hok k) as Hh.
  induction fuel as [|f IH]; intros j Hj Hf Hi; [lia|]. simpl.
  destruct (slot_some t Hok j ltac:(lia)) as [[k' v'] Hs].
  rewrite (entry_at_slot t j _ Hs). simpl. rewrite (next_index t Hok) by lia.
  destruct (Z.eqb_spec k' k) as [-> |Hne].
  { left. exists j, v'. split; [done|]. split; [lia|done]. }
  assert (forall i v, holds_at t i k v -> j + 1 <= i) as Hi'.
  { intros i v Hv. specialize (Hi i v Hv). destruct (decide (i = j)) as [-> |]; [|lia].
    destruct Hv as (_ & Hv & _). rewrite Hs in Hv. by injection Hv as ? _. }
  destruct (Z.ltb_spec (j + 1) (table_size t - 1)) as [Hlt|Hge]; simpl.
  2: { right. split; [done|]. intros i v Hv. specialize (Hi' i v Hv).
       pose proof (ok_home t Hok _ _ _ Hv). lia. }
  destruct (Z.eqb_spec k' 0) as [-> |Hk']; simpl.
  2: { apply IH; [lia|lia|done]. }
  right. split; [done|]. intros i v Hv. specialize (Hi' i v Hv).
  destruct (ok_chain t Hok _ _ _ j Hv ltac:(lia)) as (k2 & v2 & _ & Hs2 & Hk2).
  rewrite Hs in Hs2. by injection Hs2 as <- <-.
Qed.

Lemma find_slot_spec t k :
  table_ok t -> k <> 0 ->
  (exists i v, find_slot t k = Ok (Some i) /\ holds_at t i k v) \/
  (find_slot t k = Ok None /\ forall i v, ~ holds_at t i k v).
Proof.
  intros Hok Hk. pose proof (Hash_range t Hok k). unfold find_slot, table_fuel.
  apply find_probe_spec; [done|done|lia|lia|]. intros i v Hv. by apply (ok_home t Hok _ _ _ Hv).
Qed.

(** The slot [Put] may use for [k]: it holds [k] or is free, and everything
    from the home of [k] to it is taken by other keys. *)
Definition put_slot (t : TranslateTable) (k i : Z) : Prop :=
  Hash t k <= i < table_size t /\ (i < table_size t - 1 \/ i = Hash t k) /\
  (exists v, slot t i = Some (0, v) \/ slot t i = Some (k, v)) /\
  forall j, Hash t k <= j < i -> exists k' v, holds_at t j k' v /\ k' <> k.

(** No slot is left between the home of [k] and the end of the table. *)
Definition no_room (t : TranslateTable) (k : Z) : Prop :=
  forall i, Hash t k <= i < Z.max (Hash t k + 1) (table_size t - 1) ->
    exists k' v, holds_at t i k' v /\ k' <> k.

Lemma put_probe_spec t k (Hok : table_ok t) : forall fuel j,
  Hash t k <= j < table_size t -> (j < table_size t - 1 \/ j = Hash t k) ->
  table_size t - j <= Z.of_nat fuel ->
  (forall i, Hash t k <= i < j -> exists k' v, holds_at t i k' v /\ k' <> k) ->
  (exists i, put_probe fuel t k j = Ok i /\ put_slot t k i) \/
  (put_probe fuel t k j = Err EPanic /\ no_room t k).
Proof.
  intros fuel. pose proof (Hash_range t Hok k) as Hh.
  induction fuel as [|f IH]; intros j Hj Hlast Hf Hi; [lia|]. simpl.
  destruct (slot_some t Hok j ltac:(lia)) as [[k' v'] Hs].
  rewrite (entry_at_slot t j _ Hs). simpl. rewrite (next_index t Hok) by lia.
  destruct (Z.eqb_spec k' 0) as [-> |Hk'].
  { left. exists j. split; [done|]. split; [lia|]. split; [done|]. split; [eauto|done]. }
  destruct (Z.eqb_spec k' k) as [-> |Hne]; simpl.
  { left. exists j. split; [done|]. split; [lia|]. split; [done|]. split; [eauto|done]. }
  assert (forall i, Hash t k <= i < j + 1 -> exists k2 v, holds_at t i k2 v /\ k2 <> k) as Hi'.
  { intros i Hij. destruct (decide (i = j)) as [-> |]; [|apply Hi; lia].
    exists k', v'. split; [|done]. split; [lia|done]. }
  destruct (Z.leb_spec (table_size t - 1) (j + 1)).
  - right. split; [done|]. intros i Hij. apply Hi'. lia.
  - apply IH; [lia|lia|lia|done].
Qed.

Lemma put_probe_home t k :
  table_ok t ->
  (exists i, put_probe (table_fuel t) t k (Hash t k) = Ok i /\ put_slot t k i) \/
  (put_probe (table_fuel t) t k (Hash t k) = Err EPanic /\ no_room t k).
Proof.
  intros Hok. pose proof (Hash_range t Hok k). unfold table_fuel.
  apply put_probe_spec; [done|lia|by right|lia|lia].
Qed.

(** ** Stores *)

Definition set_slot (i : Z) (e : Z * Z) (t : TranslateTable) : TranslateTable :=
  set_entries (<[Z.to_nat i := e]> (entries t)) t.

Lemma store_key_value i k v t e :
  slot t i = Some e -> store_key i k (store_value i v t) = set_slot i (k, v) t.
Proof.
  intros H. unfold slot in H. unfold store_key, store_value, set_slot, set_entries. simpl. f_equal.
  apply list_eq. intros j. destruct (decide (j = Z.to_nat i)) as [-> |Hne].
  - rewrite !list_lookup_alter_eq, H, list_lookup_insert_eq; [done|by eapply lookup_lt_Some].
  - by rewrite !list_lookup_alter_ne, list_lookup_insert_ne by done.
Qed.

Lemma slot_set t i e j :
  0 <= i < table_size t + 10 -> Z.of_nat (length (entries t)) = table_size t + 10 -> 0 <= j ->
  slot (set_slot i e t) j = if decide (j = i) then Some e else slot t j.
Proof.
  intros Hi Hl Hj. unfold slot, set_slot. simpl. destruct (decide (j = i)) as [-> |Hne].
  - apply list_lookup_insert_eq. lia.
  - apply list_lookup_insert_ne. lia.
Qed.

Section Update.
Context (t : TranslateTable) (i k v : Z) (Hok : table_ok t) (Hk : k <> 0) (Hput : put_slot t k i).

Abbreviation t' := (set_slot i (k, v) t).

Lemma put_slot_range : 0 <= i < table_size t.
Proof. pose proof (Hash_range t Hok k). destruct Hput. lia. Qed.

Lemma holds_set j k' v' :
  holds_at t' j k' v' <-> (j = i /\ k' = k /\ v' = v) \/ (j <> i /\ holds_at t j k' v').
Proof.
  pose proof put_slot_range. unfold holds_at. change (table_size t') with (table_size t). split.
  - intros (Hj & Hs & Hk'). rewrite slot_set in Hs by (lia || apply ok_len, Hok).
    destruct (decide (j = i)) as [-> |]; [left; by injection Hs as -> ->|by right].
  - intros [(-> & -> & ->)|(Hne & Hj & Hs & Hk')]; (split; [lia|]);
      rewrite slot_set by (lia || apply ok_len, Hok); [by rewrite decide_True|by rewrite decide_False].
Qed.

Lemma put_slot_unique j u : holds_at t j k u -> j = i.
Proof.
  intros Hj. destruct Hput as (Hi & _ & (v0 & Hs) & Hbefore).
  pose proof (ok_home t Hok _ _ _ Hj) as [Hh _].
  destruct (Z.lt_trichotomy j i) as [Hlt|[?|Hgt]]; [|done|].
  - destruct (Hbefore j ltac:(lia)) as (k' & v' & (_ & Hs' & _) & Hne).
    destruct Hj as (_ & Hj & _). rewrite Hj in Hs'. by injection Hs' as ? _.
  - destruct Hs as [Hs|Hs].
    + destruct (ok_chain t Hok _ _ _ i Hj ltac:(lia)) as (k' & v' & _ & Hs' & Hk').
      rewrite Hs in Hs'. by injection Hs' as <- _.
    + symmetry. eapply (ok_distinct t Hok i j k v0 u); [|exact Hj].
      split; [apply put_slot_range|done].
Qed.

Lemma occupied_set j : occupied t j -> occupied t' j.
Proof.
  intros (k' & v' & H). destruct (decide (j = i)) as [-> |Hne].
  - exists k, v. apply holds_set. by left.
  - exists k', v'. apply holds_set. by right.
Qed.

Lemma table_ok_set : table_ok t'.
Proof.
  destruct Hput as (Hi & Hlast & _ & Hbefore). split.
  - apply Hok.
  - unfold set_slot. simpl. rewrite length_insert. apply Hok.
  - intros j k' v' [(-> & -> & ->)|[_ Hj]]%holds_set; [split; [apply Hi|exact Hlast]|].
    apply (ok_home t Hok _ _ _ Hj).
  - intros j k' v' j' [(-> & -> & ->)|[_ Hj]]%holds_set Hr; apply occupied_set.
    + destruct (Hbefore j' Hr) as (k2 & v2 & H2 & _). by exists k2, v2.
    + by apply (ok_chain t Hok _ _ _ j' Hj).
  - intros j1 j2 k' v1 v2 [(-> & -> & ->)|[H1 Hj1]]%holds_set [(-> & E & ->)|[H2 Hj2]]%holds_set.
    + done.
    + symmetry. by eapply put_slot_unique.
    + subst k'. by eapply put_slot_unique.
    + by eapply (ok_distinct t Hok).
Qed.

Lemma represents_set m : represents t m -> represents t' (<[k := v]> m).
Proof.
  intros [_ Hm]. split; [apply table_ok_set|]. intros k' v' Hk'. rewrite lookup_insert.
  case_decide as Hd.
  - subst k'. split.
    + intros [= <-]. exists i. apply holds_set. by left.
    + intros (j & [(_ & _ & ->)|[Hne Hj]]%holds_set); [done|]. by destruct (Hne (put_slot_unique j v' Hj)).
  - rewrite Hm by done. split; intros (j & Hj); exists j.
    + apply holds_set. right. split; [|done]. intros ->.
      destruct Hput as (_ & _ & (v0 & Hs) & _). destruct Hj as (_ & Hj & Hk0).
      destruct Hs as [Hs|Hs]; rewrite Hs in Hj; by injection Hj as ? _.
    + apply holds_set in Hj as [(-> & -> & _)|[_ Hj]]; done.
Qed.
End Update.

Lemma holds_put_slot t i k v : table_ok t -> holds_at t i k v -> put_slot t k i.
Proof.
  intros Hok Hi. pose proof (ok_home t Hok _ _ _ Hi) as [Hh Hl].
  split; [split; [done|apply Hi]|]. split; [done|]. split; [exists v; right; apply Hi|].
  intros j Hj. destruct (ok_chain t Hok _ _ _ j Hi Hj) as (k' & v' & H'). exists k', v'.
  split; [done|]. intros ->. pose proof (ok_distinct t Hok _ _ _ _ _ Hi H'). lia.
Qed.

Lemma store_value_set t i k v u :
  table_ok t -> holds_at t i k v -> store_value i u t = set_slot i (k, u) t.
Proof.
  intros Hok (Hi & Hs & _). unfold slot in Hs. unfold store_value, set_slot, set_entries. f_equal.
  apply list_eq. intros j. destruct (decide (j = Z.to_nat i)) as [-> |Hne].
  - rewrite list_lookup_alter_eq, Hs, list_lookup_insert_eq; [done|by eapply lookup_lt_Some].
  - by rewrite list_lookup_alter_ne, list_lookup_insert_ne by done.
Qed.

(** ** Operations *)

Inductive TableOp :=
| OpPut (key value : Z)
| OpGetOrPut (key value : Z)
| OpLookup (key : Z)
| OpZero (key : Z).

Definition op_key (op : TableOp) : Z :=
  match op with OpPut k _ | OpGetOrPut k _ | OpLookup k | OpZero k => k end.

Definition run_op (op : TableOp) (t : TranslateTable) : Res (Z * TranslateTable) :=
  match op with
  | OpPut k v => r <-? Table_Put k v t; Ok (bool_z (fst r), snd r)
  | OpGetOrPut k v => GetOrPut k v t
  | OpLookup k => v <-? Table_Lookup k t; Ok (v, t)
  | OpZero k => r <-? Zero k t; Ok (bool_z (fst r), snd r)
  end.

Fixpoint run_ops (ops : list TableOp) (t : TranslateTable) : Res (list Z * TranslateTable) :=
  match ops with
  | [] => Ok ([], t)
  | op :: ops' =>
      r <-? run_op op t; rs <-? run_ops ops' (snd r); Ok (fst r :: fst rs, snd rs)
  end.

(** The same operations on a map, [inv] being the value of an invalidated
    entry.  The answer of [GetOrPut], a slot index, is not a function of the
    map. *)
Definition spec_state (inv : Z) (op : TableOp) (m : gmap Z Z) : gmap Z Z :=
  match op with
  | OpPut k v => <[k := v]> m
  | OpGetOrPut k v => match m !! k with
                      | Some v0 => if v0 =? 0 then <[k := v]> m else m
                      | None => <[k := v]> m
                      end
  | OpLookup _ => m
  | OpZero k => match m !! k with Some _ => <[k := inv]> m | None => m end
  end.

Definition spec_answer (op : TableOp) (m : gmap Z Z) : option Z :=
  match op with
  | OpPut _ _ => Some 1
  | OpGetOrPut _ _ => None
  | OpLookup k => Some (default 0 (m !! k))
  | OpZero k => Some (bool_z (bool_decide (is_Some (m !! k))))
  end.

Fixpoint spec_ops (inv : Z) (ops : list TableOp) (m : gmap Z Z) : list (option Z) * gmap Z Z :=
  match ops with
  | [] => ([], m)
  | op :: ops' => let r := spec_ops inv ops' (spec_state inv op m) in
                  (spec_answer op m :: fst r, snd r)
  end.

Definition answer_ok (s : option Z) (a : Z) : Prop := match s with Some x => a = x | None => True end.

Section Ops.
Context (t : TranslateTable) (k : Z) (Hok : table_ok t) (Hk : k <> 0).

Lemma put_slot_entry i : put_slot t k i ->
  exists k0 v0, slot t i = Some (k0, v0) /\ (k0 = 0 \/ k0 = k).
Proof. intros (_ & _ & (v0 & [Hs|Hs]) & _); eauto. Qed.

Lemma result_index i : 0 <= i < table_size t -> wrap 32 (2 * i + 1) = 2 * i + 1.
Proof. intros. pose proof (size_bounds t Hok). apply wrap_small. lia. Qed.

Lemma Put_spec v :
  (exists i, put_slot t k i /\ Table_Put k v t = Ok (true, set_slot i (k, v) t)) \/
  (Table_Put k v t = Err EPanic /\ no_room t k).
Proof.
  unfold Table_Put. destruct (put_probe_home t k Hok) as [(i & -> & Hi)|[-> Hn]]; [left|by right].
  exists i. split; [done|]. pose proof (put_slot_range t i k Hok Hi) as Hr.
  destruct (put_slot_entry i Hi) as (k0 & v0 & Hs & _).
  simpl. rewrite (store_key_value i k v t _ Hs), result_index by done.
  by destruct (Z.eqb_spec (2 * i + 1) 0); [lia|].
Qed.

Lemma GetOrPut_spec v :
  (exists i, put_slot t k i /\
     ((exists v0, holds_at t i k v0 /\ v0 <> 0 /\ GetOrPut k v t = Ok (2 * i + 1, t)) \/
      ((forall v0, holds_at t i k v0 -> v0 = 0) /\
       GetOrPut k v t = Ok (2 * i + 1, set_slot i (k, v) t)))) \/
  (GetOrPut k v t = Err EPanic /\ no_room t k).
Proof.
  unfold GetOrPut. destruct (put_probe_home t k Hok) as [(i & -> & Hi)|[-> Hn]]; [left|by right].
  exists i. split; [done|]. pose proof (put_slot_range t i k Hok Hi) as Hr.
  destruct (put_slot_entry i Hi) as (k0 & v0 & Hs & Hk0). simpl.
  rewrite (entry_at_slot t i _ Hs), (store_key_value i k v t _ Hs), result_index by done. simpl.
  destruct (Z.eqb_spec k0 k) as [-> |Hne]; simpl.
  - destruct (Z.eqb_spec v0 0) as [-> |Hv]; simpl.
    + right. split; [|done]. intros v1 (_ & Hs1 & _). rewrite Hs in Hs1. by injection Hs1 as <-.
    + left. exists v0. done.
  - right. split; [|done]. intros v1 (_ & Hs1 & _). rewrite Hs in Hs1. by injection Hs1 as ? _.
Qed.

Lemma Lookup_spec :
  (exists i v, holds_at t i k v /\ Table_Lookup k t = Ok v) \/
  ((forall i v, ~ holds_at t i k v) /\ Table_Lookup k t = Ok 0).
Proof.
  unfold Table_Lookup. destruct (find_slot_spec t k Hok Hk) as [(i & v & -> & Hi)|[-> Hn]].
  - left. exists i, v. split; [done|]. destruct Hi as (_ & Hs & _). simpl.
    by rewrite (entry_at_slot t i _ Hs).
  - right. done.
Qed.

Lemma Zero_spec : indexed_invalid_base t = 0 ->
  (exists i v, holds_at t i k v /\ Zero k t = Ok (true, set_slot i (k, invalid_value t) t)) \/
  ((forall i v, ~ holds_at t i k v) /\ Zero k t = Ok (false, t)).
Proof.
  intros Hb. unfold Zero. destruct (find_slot_spec t k Hok Hk) as [(i & v & -> & Hi)|[-> Hn]].
  - left. exists i, v. split; [done|]. simpl. rewrite Hb. simpl.
    by rewrite (store_value_set t i k v).
  - right. done.
Qed.
End Ops.

(** Every operation leaves the table alone or writes the put slot of its key. *)
Lemma run_op_shape op t a t' :
  table_ok t -> op_key op <> 0 -> indexed_invalid_base t = 0 -> run_op op t = Ok (a, t') ->
  t' = t \/ exists i v, put_slot t (op_key op) i /\ t' = set_slot i (op_key op, v) t.
Proof.
  intros Hok Hk Hb H. destruct op as [k v|k v|k|k]; simpl in *.
  - destruct (Put_spec t k Hok v) as [(i & Hi & E)|[E _]]; rewrite E in H; [|done].
    injection H as <- <-. right. eauto.
  - destruct (GetOrPut_spec t k Hok Hk v) as [(i & Hi & [(v0 & _ & _ & E)|[_ E]])|[E _]];
      rewrite E in H; [| |done]; injection H as <- <-; [by left|right; eauto].
  - destruct (Table_Lookup k t); [|done]. injection H as <- <-. by left.
  - destruct (Zero_spec t k Hok Hk Hb) as [(i & v & Hi & E)|[_ E]]; rewrite E in H;
      injection H as <- <-; [|by left]. right. exists i, (invalid_value t). split; [|done].
    by eapply holds_put_slot.
Qed.

Lemma run_op_config op t a t' :
  table_ok t -> op_key op <> 0 -> indexed_invalid_base t = 0 -> run_op op t = Ok (a, t') ->
  table_ok t' /\ invalid_value t' = invalid_value t /\ indexed_invalid_base t' = 0.
Proof.
  intros Hok Hk Hb H. destruct (run_op_shape op t a t' Hok Hk Hb H) as [-> |(i & v & Hi & ->)]; [done|].
  split; [by apply table_ok_set|done].
Qed.

Lemma run_op_refines op t m a t' :
  represents t m -> op_key op <> 0 -> indexed_invalid_base t = 0 -> run_op op t = Ok (a, t') ->
  represents t' (spec_state (invalid_value t) op m) /\ answer_ok (spec_answer op m) a.
Proof.
  intros Hrep Hk Hb H. pose proof Hrep as [Hok Hm]. destruct op as [k v|k v|k|k]; simpl in *.
  - destruct (Put_spec t k Hok v) as [(i & Hi & E)|[E _]]; rewrite E in H; [|done].
    injection H as <- <-. split; [by apply represents_set|done].
  - destruct (GetOrPut_spec t k Hok Hk v) as [(i & Hi & [(v0 & Hv0 & Hne & E)|[Hz E]])|[E _]];
      rewrite E in H; [| |done]; injection H as <- <-; (split; [|done]).
    + assert (m !! k = Some v0) as -> by (apply Hm; eauto). by destruct (Z.eqb_spec v0 0).
    + assert (represents (set_slot i (k, v) t) (<[k := v]> m)) by by apply represents_set.
      destruct (m !! k) as [v0|] eqn:Ek; [|done]. apply Hm in Ek as [j Hj]; [|done].
      assert (j = i) as -> by by eapply put_slot_unique. by rewrite (Hz v0 Hj).
  - destruct (Lookup_spec t k Hok Hk) as [(i & v & Hi & E)|[Hn E]]; rewrite E in H;
      injection H as <- <-; (split; [done|]).
    + assert (m !! k = Some v) as -> by (apply Hm; eauto). done.
    + destruct (m !! k) as [v|] eqn:Ek; [|done]. apply Hm in Ek as [j Hj]; [|done]. by destruct (Hn j v).
  - destruct (Zero_spec t k Hok Hk Hb) as [(i & v & Hi & E)|[Hn E]]; rewrite E in H;
      injection H as <- <-.
    + assert (m !! k = Some v) as -> by (apply Hm; eauto). split; [|done].
      apply represents_set; [done|done|by eapply holds_put_slot|done].
    + destruct (m !! k) as [v|] eqn:Ek; [|done]. apply Hm in Ek as [j Hj]; [|done]. by destruct (Hn j v).
Qed.

Lemma run_op_total op t :
  table_ok t -> op_key op <> 0 -> indexed_invalid_base t = 0 ->
  (exists a t', run_op op t = Ok (a, t')) \/
  (run_op op t = Err EPanic /\ no_room t (op_key op)).
Proof.
  intros Hok Hk Hb. destruct op as [k v|k v|k|k]; simpl in *.
  - destruct (Put_spec t k Hok v) as [(i & Hi & E)|[E ?]]; rewrite E; simpl; eauto.
  - destruct (GetOrPut_spec t k Hok Hk v) as [(i & Hi & [(v0 & _ & _ & E)|[_ E]])|[E ?]]; rewrite E; eauto.
  - destruct (Lookup_spec t k Hok Hk) as [(i & v & Hi & E)|[Hn E]]; rewrite E; simpl; eauto.
  - destruct (Zero_spec t k Hok Hk Hb) as [(i & v & Hi & E)|[Hn E]]; rewrite E; simpl; eauto.
Qed.

(** A new table represents the empty map. *)
Lemma new_represents bits mode : 1 <= bits <= 30 -> represents (TranslateTable_new bits mode) ∅.
Proof.
  intros Hb.
  assert (0 <= table_size (TranslateTable_new bits mode)) as Hs.
  { unfold table_size. simpl. rewrite Z.shiftl_1_l. apply Z.pow_nonneg. lia. }
  assert (forall i k v, ~ holds_at (TranslateTable_new bits mode) i k v) as Hnone.
  { intros i k v (Hi & H & Hk). unfold slot in H. simpl in H. unfold fresh_entries in H.
    change (table_size (TranslateTable_new bits mode)) with (Z.shiftl 1 bits) in *.
    change (table_size _) with (Z.shiftl 1 bits) in H.
    rewrite lookup_app_l in H by (rewrite length_replicate; lia).
    apply lookup_replicate_1 in H as [H _]. by injection H as -> _. }
  split; [split|].
  - done.
  - simpl. unfold fresh_entries. rewrite length_app, length_replicate. simpl.
    change (table_size _) with (Z.shiftl 1 bits) in *. lia.
  - intros i k v H. by destruct (Hnone i k v).
  - intros i k v j H. by destruct (Hnone i k v).
  - intros i j k v u H. by destruct (Hnone i k v).
  - intros k v Hk. rewrite lookup_empty. split; [done|]. intros [i Hi]. by destruct (Hnone i k v).
Qed.


Lemma run_op_keeps_slots op t a t' :
  table_ok t -> op_key op <> 0 -> indexed_invalid_base t = 0 -> run_op op t = Ok (a, t') ->
  forall i k v, holds_at t i k v -> exists v', holds_at t' i k v'.
Proof.
  intros Hok Hk Hb H i k v Hi.
  destruct (run_op_shape op t a t' Hok Hk Hb H) as [-> |(j & u & Hj & ->)]; [by exists v|].
  destruct (decide (i = j)) as [-> |Hne].
  - exists u. apply holds_set; try done. left. split; [done|]. split; [|done].
    destruct (put_slot_entry t _ j Hj) as (k0 & v0 & Hs & Hk0).
    destruct Hi as (_ & Hs' & Hk'). rewrite Hs in Hs'. injection Hs' as -> _. by destruct Hk0.
  - exists v. apply holds_set; try done. by right.
Qed.

(** Dispatch indices are stable and an operation fails only on a full probe
    range: the slot index [GetOrPut] returns (which is baked into generated
    code) names the slot of the key in every later state, whatever is put,
    looked up or invalidated in between; and an operation on a well formed
    table aborts only if every slot from the home of its key to the end of the
    table is taken by another key. *)
Theorem dispatch_index_stable (op : TableOp) (k v index : Z) (t t1 : TranslateTable)
  (ops : list TableOp) (answers : list Z) (t2 : TranslateTable) :
  table_ok t -> indexed_invalid_base t = 0 -> k <> 0 -> op_key op <> 0 ->
  Forall (fun o => op_key o <> 0) ops ->
  GetOrPut k v t = Ok (index, t1) -> run_ops ops t1 = Ok (answers, t2) ->
  (exists i u, index = 2 * i + 1 /\ holds_at t2 i k u) /\
  ((exists a t3, run_op op t2 = Ok (a, t3)) \/
   (run_op op t2 = Err EPanic /\ no_room t2 (op_key op))).
Proof.
  intros Hok Hb Hk Hop Hks Hg H.
  assert (exists i u, index = 2 * i + 1 /\ holds_at t1 i k u) as (i & u & -> & Hi).
  { destruct (GetOrPut_spec t k Hok Hk v) as [(i & Hi & [(v0 & Hv & _ & E)|[_ E]])|[E _]];
      rewrite E in Hg; [| |done]; injection Hg as <- <-; exists i.
    - by exists v0.
    - exists v. split; [done|]. apply holds_set; try done; by left. }
  destruct (run_op_config (OpGetOrPut k v) t _ t1 Hok Hk Hb Hg) as (Hok1 & _ & Hb1).
  clear Hg Hok Hb t. revert t1 u Hi Hok1 Hb1 answers H.
  induction Hks as [|o ops Ho Hks IH]; intros t1 u Hi Hok1 Hb1 answers H; simpl in H.
  - injection H as _ <-. split; [by exists i, u|]. by apply run_op_total.
  - minv H. destruct x as [a t3], x0 as [as_ t4]. simpl in *.
    destruct (run_op_config o t1 a t3 Hok1 Ho Hb1 H0) as (Hok3 & _ & Hb3).
    destruct (run_op_keeps_slots o t1 a t3 Hok1 Ho Hb1 H0 i k u Hi) as [u' Hu'].
    by eapply (IH t3 u').
Qed.

(** ** Lock-free readers *)

(** The tables a reader without the lock can see while [Put] runs: [Put] stores
    the value, then (release fence) the key. *)
Definition put_states (i k v : Z) (t : TranslateTable) : list TranslateTable :=
  [t; store_value i v t; store_key i k (store_value i v t)].

Lemma store_value_free t i v v0 :
  slot t i = Some (0, v0) -> store_value i v t = set_slot i (0, v) t.
Proof.
  intros Hs. unfold slot in Hs. unfold store_value, set_slot, set_entries. f_equal.
  apply list_eq. intros j. destruct (decide (j = Z.to_nat i)) as [-> |Hne].
  - rewrite list_lookup_alter_eq, Hs, list_lookup_insert_eq; [done|by eapply lookup_lt_Some].
  - by rewrite list_lookup_alter_ne, list_lookup_insert_ne by done.
Qed.

Lemma represents_free t i v v0 m :
  0 <= i < table_size t -> slot t i = Some (0, v0) -> represents t m -> represents (set_slot i (0, v) t) m.
Proof.
  intros Hi Hs [Hok Hm].
  assert (forall j k u, holds_at (set_slot i (0, v) t) j k u <-> holds_at t j k u) as Hsame.
  { intros j k u. unfold holds_at. change (table_size (set_slot i (0, v) t)) with (table_size t).
    split; intros (Hj & H & Hk).
    - rewrite slot_set in H by (lia || apply ok_len, Hok).
      destruct (decide (j = i)); [by injection H as <- _|done].
    - split; [done|]. split; [|done]. rewrite slot_set by (lia || apply ok_len, Hok).
      destruct (decide (j = i)) as [-> |]; [|done]. rewrite Hs in H. by injection H as <- _. }
  split; [split|].
  - apply Hok.
  - unfold set_slot. simpl. rewrite length_insert. apply Hok.
  - intros j k u H%Hsame. apply (ok_home t Hok _ _ _ H).
  - intros j k u j' H%Hsame Hr. destruct (ok_chain t Hok _ _ _ j' H Hr) as (k2 & v2 & H2).
    exists k2, v2. by apply Hsame.
  - intros j1 j2 k u1 u2 H1%Hsame H2%Hsame. by eapply (ok_distinct t Hok).
  - intros k u Hk. rewrite Hm by done. split; intros [j Hj]; exists j; by apply Hsame.
Qed.

(** [Put] is linearizable for readers without the lock: in every table
    state the two stores of [Put] pass through, the table represents either the
    map before or the map after, so a racing reader sees a miss or the old
    value, or the new value, never a key paired with another target. *)
Theorem put_linearizable (t t' : TranslateTable) (m : gmap Z Z) (k v : Z) (r : bool) :
  represents t m -> k <> 0 -> Table_Put k v t = Ok (r, t') ->
  exists i, t' = store_key i k (store_value i v t) /\
    Forall (fun s => represents s m \/ represents s (<[k := v]> m)) (put_states i k v t).
Proof.
  intros Hrep Hk H. pose proof Hrep as [Hok _]. unfold Table_Put in H.
  destruct (put_probe_home t k Hok) as [(i & Hp & Hi)|[Hp _]]; rewrite Hp in H; [|done].
  simpl in H. injection H as _ <-. exists i. split; [done|].
  pose proof (put_slot_range t i k Hok Hi) as Hr.
  destruct (put_slot_entry t k i Hi) as (k0 & v0 & Hs & Hk0).
  assert (represents (store_key i k (store_value i v t)) (<[k := v]> m)) as Hafter.
  { rewrite (store_key_value i k v t _ Hs). by apply represents_set. }
  unfold put_states. rewrite !Forall_cons, Forall_nil. split; [by left|]. split; [|by repeat split; right].
  destruct Hk0 as [-> | ->].
  - left. rewrite (store_value_free t i v v0 Hs). by apply (represents_free t i v v0).
  - right. assert (holds_at t i k v0) as Hh by done. rewrite (store_value_set t i k v0) by done.
    by apply represents_set.
Qed.

(** ** Recording and replaying the slot assignment *)

Definition snapshot_prefix (t : TranslateTable) (n : nat) : list (Z * Z * Z) :=
  omap (fun ie => if fst (snd ie) =? 0 then None
                  else Some (Z.of_nat (fst ie), fst (snd ie), snd (snd ie)))
    (imap pair (take n (entries t))).

Lemma replay_app l1 l2 t t1 :
  replay l1 t = Ok (true, t1) -> replay (l1 ++ l2) t = replay l2 t1.
Proof.
  revert t. induction l1 as [|[[i k] v] l1 IH]; intros t H; simpl in *; [by injection H as ->|].
  destruct (PutAt i k t) as [[[] t2]|]; simpl in *; [by apply IH|done|done].
Qed.

Definition keys_only (e : Z * Z) : Z * Z := (fst e, 0).

(** The table after replaying the first [n] slots. *)
Definition replayed (n : nat) (src dst : TranslateTable) : TranslateTable :=
  set_entries ((keys_only <$> take n (entries src)) ++ drop n (entries dst)) dst.

Lemma snapshot_snoc t n e :
  entries t !! n = Some e ->
  snapshot_prefix t (S n) =
  snapshot_prefix t n ++ (if fst e =? 0 then [] else [(Z.of_nat n, fst e, snd e)]).
Proof.
  intros He. unfold snapshot_prefix. rewrite (take_S_r _ _ _ He), imap_app, omap_app. f_equal.
  simpl. rewrite Nat.add_0_r, length_take, Nat.min_l by (apply lookup_lt_Some in He; lia).
  by destruct (fst e =? 0).
Qed.

Lemma replayed_step n src dst e :
  entries src !! n = Some e -> entries dst !! n = Some (0, 0) ->
  length (entries dst) = length (entries src) ->
  set_entries (<[n := keys_only e]> (entries (replayed n src dst))) dst = replayed (S n) src dst.
Proof.
  intros He Hd Hl. unfold replayed. simpl. f_equal.
  assert (n < length (entries src))%nat as Hn by by eapply lookup_lt_Some.
  rewrite (take_S_r _ _ _ He), fmap_app. simpl. rewrite <- app_assoc. simpl.
  rewrite (drop_S _ _ _ Hd).
  replace n with (length (keys_only <$> take n (entries src)) + 0)%nat at 1
    by (rewrite length_fmap, length_take; lia).
  by rewrite insert_app_r.
Qed.

Lemma replay_prefix src dst n :
  table_size dst = table_size src -> length (entries dst) = length (entries src) ->
  (forall i, (i < n)%nat -> entries dst !! i = Some (0, 0)) ->
  (n <= length (entries src))%nat -> Z.of_nat n <= table_size src - 1 ->
  replay (snapshot_prefix src n) dst = Ok (true, replayed n src dst).
Proof.
  intros Hsize Hlen. induction n as [|n IH]; intros Hd Hn Hs.
  { simpl. unfold replayed. simpl. by destruct dst. }
  destruct (lookup_lt_is_Some_2 (entries src) n ltac:(lia)) as [e He].
  rewrite (snapshot_snoc src n e He).
  rewrite (replay_app _ _ _ (replayed n src dst)) by (apply IH; [intros; apply Hd|..]; lia).
  assert (entries (replayed n src dst) !! n = Some (0, 0)) as Hslot.
  { unfold replayed. simpl. rewrite lookup_app_r by (rewrite length_fmap, length_take; lia).
    rewrite length_fmap, length_take, Nat.min_l, Nat.sub_diag by lia.
    rewrite lookup_drop, Nat.add_0_r. apply Hd. lia. }
  rewrite <- (replayed_step n src dst e He (Hd n ltac:(lia)) Hlen).
  destruct (Z.eqb_spec (fst e) 0) as [E|E]; simpl.
  - do 2 f_equal. unfold keys_only. rewrite E, list_insert_id by done. by unfold replayed.
  - unfold PutAt. destruct (Z.eqb_spec (fst e) 0); [done|]. simpl.
    change (table_size (replayed n src dst)) with (table_size dst). rewrite Hsize.
    destruct (Z.leb_spec (table_size src - 1) (Z.of_nat n)); [lia|].
    unfold entry_at. rewrite Nat2Z.id, Hslot. cbn [rbind fst snd].
    destruct (Z.eqb_spec 0 (fst e)); [congruence|]. cbn [negb Z.eqb].
    rewrite (store_key_value _ _ _ _ (0, 0)) by (unfold slot; by rewrite Nat2Z.id).
    unfold set_slot. by rewrite Nat2Z.id.
Qed.

(** Recording and replaying the slot assignment round-trips: from a well
    formed table whose last slot is free, replaying the entries of
    [ForEachEntry] with [PutAt] into a fresh table of the same shape succeeds
    and gives a well formed table that has every key at its recorded slot, with
    a zero value (so that looking a key up is a miss until its code arrives). *)
Theorem snapshot_replay (t : TranslateTable) :
  table_ok t -> (forall k v, ~ holds_at t (table_size t - 1) k v) ->
  exists t', replay (ForEachEntry t) (TranslateTable_new (hash_bits t) (hash_mode t)) = Ok (true, t')
    /\ table_ok t' /\
    forall i k v, holds_at t' i k v <-> v = 0 /\ exists u, holds_at t i k u.
Proof.
  intros Hok Hlast. set (dst := TranslateTable_new (hash_bits t) (hash_mode t)).
  pose proof (size_bounds t Hok) as Hsz. pose proof (ok_len t Hok) as Hlen.
  destruct (new_represents (hash_bits t) (hash_mode t) (ok_bits t Hok)) as [Hokd _].
  fold dst in Hokd. pose proof (ok_len dst Hokd) as Hlend.
  assert (table_size dst = table_size t) as Hsize by done.
  assert (forall i, Z.of_nat i < table_size t -> entries dst !! i = Some (0, 0)) as Hfree.
  { intros i Hi. unfold dst, TranslateTable_new, Table_Reset, fresh_entries. simpl.
    change (table_size _) with (table_size t).
    rewrite lookup_app_l by (rewrite length_replicate; lia).
    apply lookup_replicate_2. lia. }
  pose proof (replay_prefix t dst (Z.to_nat (table_size t - 1)) Hsize ltac:(lia)
                ltac:(intros; apply Hfree; lia) ltac:(lia) ltac:(lia)) as Hrep.
  set (t' := replayed (Z.to_nat (table_size t - 1)) t dst) in *.
  assert (forall i k v, holds_at t' i k v <-> v = 0 /\ exists u, holds_at t i k u) as Hholds.
  { intros i k v. unfold holds_at. change (table_size t') with (table_size t).
    assert (forall i, 0 <= i < table_size t -> slot t' i =
      if decide (i < table_size t - 1) then keys_only <$> slot t i else Some (0, 0)) as Hslot.
    { intros j Hj. unfold slot, t', replayed. simpl. destruct (decide _).
      - rewrite lookup_app_l by (rewrite length_fmap, length_take; lia).
        by rewrite list_lookup_fmap, lookup_take_lt by lia.
      - rewrite lookup_app_r by (rewrite length_fmap, length_take; lia).
        rewrite length_fmap, length_take, lookup_drop. rewrite <- (Hfree (Z.to_nat j)) by lia.
        f_equal. lia. }
    split.
    - intros (Hi & Hs & Hk). rewrite Hslot in Hs by done. destruct (decide _).
      + destruct (slot t i) as [[k' u]|]; [|done]. injection Hs as <- <-. split; [done|]. by exists u.
      + by injection Hs as <- <-.
    - intros (-> & u & Hi & Hs & Hk). split; [done|]. split; [|done]. rewrite Hslot by done.
      destruct (decide _) as [|Hge]; [by rewrite Hs|]. exfalso. apply (Hlast k u).
      replace (table_size t - 1) with i by lia. done. }
  exists t'. split; [exact Hrep|]. split; [|done]. split.
  - apply Hok.
  - change (Z.of_nat (length ((keys_only <$> take (Z.to_nat (table_size t - 1)) (entries t)) ++
              drop (Z.to_nat (table_size t - 1)) (entries dst))) = table_size t + 10).
    rewrite length_app, length_fmap, length_take, length_drop. lia.
  - intros i k v (_ & u & H)%Hholds. apply (ok_home t Hok _ _ _ H).
  - intros i k v j (_ & u & H)%Hholds Hj. destruct (ok_chain t Hok _ _ _ j H Hj) as (k2 & v2 & H2).
    exists k2, 0. apply Hholds. eauto.
  - intros i j k v1 v2 (_ & u1 & H1)%Hholds (_ & u2 & H2)%Hholds. by eapply (ok_distinct t Hok).
Qed.

(** ** Examples, the last slot and [Remove] *)

Definition small_table : TranslateTable := TranslateTable_new 3 Direct.

Lemma small_ok : table_ok small_table.
Proof. by apply (new_represents 3 Direct). Qed.


Lemma dispatch_index_stable_witness :
  exists index t1 answers t2, GetOrPut 9 0 small_table = Ok (index, t1)
    /\ run_ops [OpPut 1 10; OpPut 9 90] t1 = Ok (answers, t2)
    /\ exists i u, index = 2 * i + 1 /\ holds_at t2 i 9 u.
Proof.
  destruct (GetOrPut 9 0 small_table) as [[index t1]|] eqn:Hg; [|vm_compute in Hg; discriminate Hg].
  destruct (run_ops [OpPut 1 10; OpPut 9 90] t1) as [[answers t2]|] eqn:H;
    [|vm_compute in Hg; injection Hg as <- <-; vm_compute in H; discriminate H].
  exists index, t1, answers, t2. split; [reflexivity|]. split; [exact H|].
  refine (proj1 (dispatch_index_stable (OpLookup 9) 9 0 index small_table t1
                   [OpPut 1 10; OpPut 9 90] answers t2 small_ok _ _ _ _ Hg H));
    [reflexivity|done|done|by repeat constructor].
Defined.

Lemma put_linearizable_witness :
  exists r t', Table_Put 9 90 small_table = Ok (r, t')
    /\ exists i, t' = store_key i 9 (store_value i 90 small_table) /\
         Forall (fun s => represents s ∅ \/ represents s (<[9 := 90]> ∅)) (put_states i 9 90 small_table).
Proof.
  destruct (Table_Put 9 90 small_table) as [[r t']|] eqn:H; [|vm_compute in H; discriminate H].
  exists r, t'. split; [reflexivity|].
  refine (put_linearizable small_table t' ∅ 9 90 r _ _ H); [by apply (new_represents 3 Direct)|done].
Defined.

(** The table after one [Put]. *)
Definition one_entry : TranslateTable :=
  match Table_Put 9 90 small_table with Ok (_, t) => t | Err _ => small_table end.

Lemma one_entry_ok : table_ok one_entry.
Proof.
  destruct (run_op_config (OpPut 9 90) small_table 1 one_entry small_ok) as [H _]; try done.
Qed.

Lemma snapshot_replay_witness :
  exists t', replay (ForEachEntry one_entry) (TranslateTable_new 3 Direct) = Ok (true, t') /\ table_ok t'.
Proof.
  destruct (snapshot_replay one_entry) as (t' & H & Hok & _).
  - apply one_entry_ok.
  - intros k v (_ & Hs & Hk). vm_compute in Hs. injection Hs as <- _. by apply Hk.
  - exists t'. exact (conj H Hok).
Defined.

(** Two slots the table mishandles: a key whose home is the last slot is
    stored there, but neither [ForEachEntry] reports it nor [PutAt] restores it,
    so a recorded assignment misses it, and a second key with that home aborts
    the program on an otherwise empty table; and [Remove] steps to
    [(index + 1) & size], so a key that is not at its home is not removed. *)
Theorem last_slot_and_remove :
  exists t1 t2 t3 t4,
    Table_Put 7 70 small_table = Ok (true, t1) /\ Table_Lookup 7 t1 = Ok 70 /\
    ForEachEntry t1 = [] /\ PutAt 7 7 small_table = Ok (false, small_table) /\
    Table_Put 15 150 t1 = Err EPanic /\
    Table_Put 1 10 small_table = Ok (true, t2) /\ Table_Put 9 90 t2 = Ok (true, t3) /\
    Table_Remove 9 t3 = Ok t4 /\ Table_Lookup 9 t4 = Ok 90.
Proof. do 4 eexists. repeat split; vm_compute; reflexivity. Qed.
