(* ===== verification/SmcEpoch.v ===== *)
(** * Self-modifying code: quiescence before code is reclaimed

    Model of the epochs of [SmcTracker] (runtime/backend/smc_tracker.cpp) with what they
    protect: the dispatch tables of [AddressSpace] and of the runtimes, the order in which
    a translation is published (runtime.cpp, function_entry_contract.cpp,
    translator/x86/translator.cpp), the generated dispatcher (arm64/trampolines.cpp) and
    [Module::DetachNode].  Every load and store of shared data is one step of a
    sequentially consistent machine; multithreading is enabled.

    An allocation of translated code is a number that is never used again: that its memory
    is reused is the state [Reclaimed].  Which translations are invalidated is left open: any tracked
    one can be, at any time.  [w_retire_epoch], [w_patch_at] and [w_clean] are not in the
    program: the epoch an allocation was retired at, the patch epoch at each advance of the
    global one, and whether so far no dispatch table held an allocation when it was
    retired. *)

From Stdlib Require Import ZArith Lia.
From stdpp Require Import numbers base gmap sets list relations countable.
From S2P Require Import Prelude.

Local Open Scope Z_scope.

Abbreviation Code := nat.
Abbreviation RuntimeId := nat.

(** ** The dispatch tables *)

(** The tables of the address space, and the private one of a runtime. *)
Inductive Table := L2Code | L2Call | L2PendingCall | L1 (i : RuntimeId).

#[export] Instance Table_eq_dec : EqDecision Table.
Proof. solve_decision. Defined.
#[export] Instance Table_countable : Countable Table.
Proof.
  refine (inj_countable' (fun t => match t with L2Code => inl 0%nat | L2Call => inl 1%nat | L2PendingCall => inl 2%nat | L1 i => inr i end)
    (fun x => match x with inl 0%nat => L2Code | inl 1%nat => L2Call | inl _ => L2PendingCall | inr i => L1 i end) _).
  by intros [].
Defined.

Abbreviation Slot := (Table * Z)%type.

(** ** Allocations *)

(** [Published]: the node is in the module's map and its [JitState] is [Cached]. *)
Inductive CodeState := Published | Unmapped | Reclaimed.

#[export] Instance CodeState_eq_dec : EqDecision CodeState.
Proof. solve_decision. Defined.

(** The guest locations of the unit, its start first. *)
Record CodeInfo := mkCode { ci_locations : list Z; ci_state : CodeState }.

(** ** Runtimes *)

(** [Outside] of the JIT; the steps of [BeginJit] after the global epoch [e] was loaded; in the JIT,
    about to look up the first entry, between the dispatcher's load from the shared table and its
    store to the private one, or executing. *)
Inductive RuntimePc :=
| Outside
| Begin
| Loaded (e : Z)
| Synced (e : Z)
| Announced (e : Z)
| InJit
| Found (loc : Z) (c : Code)
| Exec (c : Code).

(** [RuntimeEpoch]; [rt_active] is [None] at kInactiveEpoch; [rt_rsb] are the allocations the
    frames of the return stack point into. *)
Record Runtime := mkRuntime {
  rt_active : option Z;
  rt_patch : Z;
  rt_continuation : Z;
  rt_rsb : gset Code;
  rt_pc : RuntimePc
}.

Definition set_pc (pc : RuntimePc) (r : Runtime) : Runtime :=
  mkRuntime (rt_active r) (rt_patch r) (rt_continuation r) (rt_rsb r) pc.
Definition set_active (a : option Z) (pc : RuntimePc) (r : Runtime) : Runtime :=
  mkRuntime a (rt_patch r) (rt_continuation r) (rt_rsb r) pc.
Definition set_patch (p : Z) (pc : RuntimePc) (r : Runtime) : Runtime :=
  mkRuntime (rt_active r) p (rt_continuation r) (rt_rsb r) pc.
Definition push_rsb (c : Code) (r : Runtime) : Runtime :=
  mkRuntime (rt_active r) (rt_patch r) (rt_continuation r) ({[c]} ∪ rt_rsb r) (rt_pc r).

(** [SynchronizeContinuation]. *)
Definition SynchronizeContinuation (e : Z) (r : Runtime) : Runtime :=
  if rt_continuation r =? e then r else mkRuntime (rt_active r) (rt_patch r) e ∅ (rt_pc r).

(** ** Publication *)

(** A store to a table, or [RegisterNode]. *)
Inductive PubAction := Push (s : Slot) | Track.

(** A block: the front end pushes what [TranslateIR] returned, and that has registered the node. *)
Definition block_publication (loc : Z) : list PubAction := [Track; Push (L2Code, loc)].

(** A function: block by block, [FunctionEntryPublisher::Publish] and then [RegisterNode]; the
    call entries are there for some blocks. *)
Definition entry_publication (loc : Z) (call pending : bool) : list PubAction :=
  [Push (L2Code, loc)] ++ (if call then [Push (L2Call, loc)] else []) ++ (if pending then [Push (L2PendingCall, loc)] else []) ++ [Track].
Definition function_publication (blocks : list (Z * bool * bool)) : list PubAction :=
  flat_map (fun '(loc, call, pending) => entry_publication loc call pending) blocks.

(** ** Invalidation *)

(** The thread that holds [invalidation_mutex_]: the batch it has collected and the candidates for
    [Retire]; the slots it still clears for one allocation; the entries of [retired_] it has still to
    look at, those it found reclaimable and the runtimes it has still to ask. *)
Inductive Invalidator :=
| Free
| Collecting (batch cands : list Code)
| Clearing (batch cands : list Code) (c : Code) (slots : list Slot)
| Detaching (batch cands : list Code)
| Retiring (cands : list Code) (e : Z)
| Scanning (todo : list (Code * Z)) (ready : list Code)
| Asking (c : Code) (e : Z) (rts : list RuntimeId) (todo : list (Code * Z)) (ready : list Code)
| Freeing (ready : list Code).

(** [metadata_lock_] is free. *)
Definition metadata_free (v : Invalidator) : Prop :=
  match v with Clearing _ _ _ _ | Scanning _ _ | Asking _ _ _ _ _ => False | _ => True end.

Record SmcWorld := mkSmcWorld {
  w_global : Z;
  w_patch : Z;
  w_slots : gmap Slot Code;
  w_codes : gmap Code CodeInfo;
  w_tracked : gset Code;
  w_runtimes : gmap RuntimeId Runtime;
  w_retired : list (Code * Z);
  w_publisher : option (Code * list PubAction);
  w_invalidator : Invalidator;
  w_retire_epoch : gmap Code Z;
  w_patch_at : gmap Z Z;
  w_clean : bool
}.

Definition smc_new : SmcWorld := mkSmcWorld 1 1 ∅ ∅ ∅ ∅ [] None Free ∅ ∅ true.

Definition with_runtime (i : RuntimeId) (r : Runtime) (w : SmcWorld) : SmcWorld :=
  mkSmcWorld (w_global w) (w_patch w) (w_slots w) (w_codes w) (w_tracked w) (<[i := r]> (w_runtimes w)) (w_retired w)
    (w_publisher w) (w_invalidator w) (w_retire_epoch w) (w_patch_at w) (w_clean w).
Definition with_slots (s : gmap Slot Code) (w : SmcWorld) : SmcWorld :=
  mkSmcWorld (w_global w) (w_patch w) s (w_codes w) (w_tracked w) (w_runtimes w) (w_retired w)
    (w_publisher w) (w_invalidator w) (w_retire_epoch w) (w_patch_at w) (w_clean w).
Definition with_publisher (p : option (Code * list PubAction)) (w : SmcWorld) : SmcWorld :=
  mkSmcWorld (w_global w) (w_patch w) (w_slots w) (w_codes w) (w_tracked w) (w_runtimes w) (w_retired w)
    p (w_invalidator w) (w_retire_epoch w) (w_patch_at w) (w_clean w).
Definition with_invalidator (v : Invalidator) (w : SmcWorld) : SmcWorld :=
  mkSmcWorld (w_global w) (w_patch w) (w_slots w) (w_codes w) (w_tracked w) (w_runtimes w) (w_retired w)
    (w_publisher w) v (w_retire_epoch w) (w_patch_at w) (w_clean w).
Definition with_tracked (t : gset Code) (w : SmcWorld) : SmcWorld :=
  mkSmcWorld (w_global w) (w_patch w) (w_slots w) (w_codes w) t (w_runtimes w) (w_retired w)
    (w_publisher w) (w_invalidator w) (w_retire_epoch w) (w_patch_at w) (w_clean w).
Definition with_codes (c : gmap Code CodeInfo) (w : SmcWorld) : SmcWorld :=
  mkSmcWorld (w_global w) (w_patch w) (w_slots w) c (w_tracked w) (w_runtimes w) (w_retired w)
    (w_publisher w) (w_invalidator w) (w_retire_epoch w) (w_patch_at w) (w_clean w).
Definition with_patch (p : Z) (w : SmcWorld) : SmcWorld :=
  mkSmcWorld (w_global w) p (w_slots w) (w_codes w) (w_tracked w) (w_runtimes w) (w_retired w)
    (w_publisher w) (w_invalidator w) (w_retire_epoch w) (w_patch_at w) (w_clean w).
Definition with_retired (l : list (Code * Z)) (w : SmcWorld) : SmcWorld :=
  mkSmcWorld (w_global w) (w_patch w) (w_slots w) (w_codes w) (w_tracked w) (w_runtimes w) l
    (w_publisher w) (w_invalidator w) (w_retire_epoch w) (w_patch_at w) (w_clean w).

(** The slots [ClearDispatchSlots] clears for [c]. *)
Definition dispatch_slots (w : SmcWorld) (c : Code) : list Slot :=
  flat_map (fun loc => [(L2Code, loc); (L2Call, loc); (L2PendingCall, loc)] ++
                       map (fun i => (L1 i, loc)) (elements (dom (w_runtimes w))))
    (match w_codes w !! c with Some x => ci_locations x | None => [] end).

Definition set_code_state (s : CodeState) (x : CodeInfo) : CodeInfo := mkCode (ci_locations x) s.
Definition published (w : SmcWorld) (c : Code) : Prop := exists x, w_codes w !! c = Some x /\ ci_state x = Published.
Definition reclaimed (w : SmcWorld) (c : Code) : Prop := exists x, w_codes w !! c = Some x /\ ci_state x = Reclaimed.

(** No table holds one of the allocations, and no dispatcher is about to store one. *)
Definition clean_slots (cs : list Code) (slots : gmap Slot Code) : bool :=
  forallb (fun e => negb (bool_decide (snd e ∈ cs))) (map_to_list slots).
Definition clean_runtimes (cs : list Code) (rts : gmap RuntimeId Runtime) : bool :=
  forallb (fun e => match rt_pc (snd e) with Found _ c => negb (bool_decide (c ∈ cs)) | _ => true end) (map_to_list rts).

(** The advance of the global epoch in [Retire]. *)
Definition Retire (cands : list Code) (w : SmcWorld) : SmcWorld :=
  let e := w_global w + 1 in
  mkSmcWorld e (w_patch w) (w_slots w) (w_codes w) (w_tracked w) (w_runtimes w) (w_retired w) (w_publisher w) (Retiring cands e)
    (foldr (fun c m => <[c := e]> m) (w_retire_epoch w) cands) (<[e := w_patch w]> (w_patch_at w))
    (w_clean w && clean_slots cands (w_slots w) && clean_runtimes cands (w_runtimes w)).

(** ** Steps of a runtime *)

Inductive runtime_step (i : RuntimeId) : SmcWorld -> SmcWorld -> Prop :=
(* [RegisterRuntime], [UnregisterRuntime] *)
| StepRegister w :
    w_runtimes w !! i = None -> (forall loc, w_slots w !! (L1 i, loc) = None) -> metadata_free (w_invalidator w) ->
    runtime_step i w (with_runtime i (mkRuntime None (w_patch w) (w_global w) ∅ Outside) w)
| StepUnregister w r :
    w_runtimes w !! i = Some r -> rt_pc r = Outside -> metadata_free (w_invalidator w) ->
    runtime_step i w (mkSmcWorld (w_global w) (w_patch w) (filter (fun e => fst (fst e) <> L1 i) (w_slots w)) (w_codes w) (w_tracked w)
      (delete i (w_runtimes w)) (w_retired w) (w_publisher w) (w_invalidator w) (w_retire_epoch w) (w_patch_at w) (w_clean w))
(* [BeginJit] *)
| StepBegin w r :
    w_runtimes w !! i = Some r -> rt_pc r = Outside -> runtime_step i w (with_runtime i (set_pc Begin r) w)
| StepLoad w r :
    w_runtimes w !! i = Some r -> rt_pc r = Begin ->
    runtime_step i w (with_runtime i (set_pc (Loaded (w_global w)) (SynchronizeContinuation (w_global w) r)) w)
| StepSync w r e :
    w_runtimes w !! i = Some r -> rt_pc r = Loaded e ->
    runtime_step i w (with_runtime i (set_patch (Z.max (rt_patch r) (w_patch w)) (Synced e) r) w)
| StepAnnounce w r e :
    w_runtimes w !! i = Some r -> rt_pc r = Synced e ->
    runtime_step i w (with_runtime i (set_active (Some e) (Announced e) r) w)
| StepValidate w r e :
    w_runtimes w !! i = Some r -> rt_pc r = Announced e ->
    runtime_step i w (with_runtime i (set_pc (if w_global w =? e then InJit else Begin) r) w)
(* [GetCodeCache], from the table or from the module *)
| StepEnterTable w r loc c :
    w_runtimes w !! i = Some r -> rt_pc r = InJit -> w_slots w !! (L2Code, loc) = Some c ->
    runtime_step i w (with_runtime i (set_pc (Exec c) r) w)
| StepEnterModule w r loc c x :
    w_runtimes w !! i = Some r -> rt_pc r = InJit -> w_codes w !! c = Some x -> ci_state x = Published -> head (ci_locations x) = Some loc ->
    runtime_step i w (with_runtime i (set_pc (Exec c) r) w)
(* The generated code: an entry of a table, the shared table with a store to the private one *)
| StepDispatch w r c t loc c' :
    w_runtimes w !! i = Some r -> rt_pc r = Exec c -> t = L1 i \/ t = L2Call \/ t = L2PendingCall -> w_slots w !! (t, loc) = Some c' ->
    runtime_step i w (with_runtime i (set_pc (Exec c') r) w)
| StepFind w r c loc c' :
    w_runtimes w !! i = Some r -> rt_pc r = Exec c -> w_slots w !! (L2Code, loc) = Some c' ->
    runtime_step i w (with_runtime i (set_pc (Found loc c') r) w)
| StepFill w r loc c (full : bool) :
    w_runtimes w !! i = Some r -> rt_pc r = Found loc c ->
    runtime_step i w (with_runtime i (set_pc (Exec c) r)
      (if full then w else with_slots (<[(L1 i, loc) := c]> (w_slots w)) w))
(* Calls and returns over the return stack *)
| StepCall w r c :
    w_runtimes w !! i = Some r -> rt_pc r = Exec c -> runtime_step i w (with_runtime i (push_rsb c r) w)
| StepReturn w r c c' :
    w_runtimes w !! i = Some r -> rt_pc r = Exec c -> c' ∈ rt_rsb r -> runtime_step i w (with_runtime i (set_pc (Exec c') r) w)
(* [EndJit] *)
| StepLeave w r :
    w_runtimes w !! i = Some r -> (rt_pc r = InJit \/ exists c, rt_pc r = Exec c) ->
    runtime_step i w (with_runtime i (set_active None Outside r) w).

(** ** Steps of the translator, holding the module's read lock *)

Inductive publisher_step : SmcWorld -> SmcWorld -> Prop :=
| StepPublish w c locs p :
    w_publisher w = None -> w_codes w !! c = None ->
    (exists loc, locs = [loc] /\ p = block_publication loc) \/ (exists bs, locs = map (fun b => fst (fst b)) bs /\ p = function_publication bs) ->
    publisher_step w (with_publisher (Some (c, p)) (with_codes (<[c := mkCode locs Published]> (w_codes w)) w))
| StepPush w c s p :
    w_publisher w = Some (c, Push s :: p) ->
    publisher_step w (with_publisher (Some (c, p)) (with_slots (<[s := c]> (w_slots w)) w))
| StepTrack w c p :
    w_publisher w = Some (c, Track :: p) -> metadata_free (w_invalidator w) ->
    publisher_step w (with_publisher (Some (c, p)) (with_tracked ({[c]} ∪ w_tracked w) w))
| StepPublished w c :
    w_publisher w = Some (c, []) -> publisher_step w (with_publisher None w).

(** ** Steps of the invalidation *)

Inductive invalidator_step : SmcWorld -> SmcWorld -> Prop :=
(* The signal handler clears a slot of a tracked node *)
| StepSignalClear w c s :
    c ∈ w_tracked w -> s ∈ dispatch_slots w c -> metadata_free (w_invalidator w) ->
    invalidator_step w (with_slots (delete s (w_slots w)) w)
| StepStart w : w_invalidator w = Free -> invalidator_step w (with_invalidator (Collecting [] []) w)
(* [TakeDirtyNodes], [TakeRangeNodes] *)
| StepTake w batch cands c :
    w_invalidator w = Collecting batch cands -> c ∈ w_tracked w ->
    invalidator_step w (with_invalidator (Clearing batch cands c (dispatch_slots w c)) w)
| StepClear w batch cands c s slots :
    w_invalidator w = Clearing batch cands c (s :: slots) ->
    invalidator_step w (with_invalidator (Clearing batch cands c slots) (with_slots (delete s (w_slots w)) w))
| StepTaken w batch cands c :
    w_invalidator w = Clearing batch cands c [] ->
    invalidator_step w (with_invalidator (Collecting (c :: batch) cands) (with_tracked (w_tracked w ∖ {[c]}) w))
(* [DelinkTargets], then [DetachNode] under the module's write lock *)
| StepDelink w c batch cands (patched : bool) :
    w_invalidator w = Collecting (c :: batch) cands ->
    invalidator_step w (with_invalidator (Detaching (c :: batch) cands) (if patched then with_patch (w_patch w + 1) w else w))
| StepDetach w c batch cands x :
    w_invalidator w = Detaching (c :: batch) cands -> w_publisher w = None -> w_codes w !! c = Some x ->
    invalidator_step w
      (if decide (ci_state x = Published)
       then with_invalidator (Detaching batch (c :: cands)) (with_codes (<[c := set_code_state Unmapped x]> (w_codes w)) w)
       else with_invalidator (Detaching batch cands) w)
| StepDetached w cands :
    w_invalidator w = Detaching [] cands -> invalidator_step w (with_invalidator (Collecting [] cands) w)
(* [Retire] *)
| StepRetire w c cands :
    w_invalidator w = Collecting [] (c :: cands) -> invalidator_step w (Retire (c :: cands) w)
| StepNothing w :
    w_invalidator w = Collecting [] [] -> invalidator_step w (with_invalidator (Scanning (w_retired w) []) w)
| StepRetired w cands e :
    w_invalidator w = Retiring cands e ->
    let l := w_retired w ++ map (fun c => (c, e)) cands in
    invalidator_step w (with_invalidator (Scanning l []) (with_retired l w))
(* [ReclaimRetiredLocked] *)
| StepReclaim w : w_invalidator w = Free -> invalidator_step w (with_invalidator (Scanning (w_retired w) []) w)
| StepScan w c e todo ready :
    w_invalidator w = Scanning ((c, e) :: todo) ready ->
    invalidator_step w (with_invalidator (Asking c e (elements (dom (w_runtimes w))) todo ready) w)
| StepAsk w c e i r rts todo ready :
    w_invalidator w = Asking c e (i :: rts) todo ready -> w_runtimes w !! i = Some r ->
    invalidator_step w (with_invalidator
      (match rt_active r with
       | Some a => if a <? e then Scanning todo ready else Asking c e rts todo ready
       | None => Asking c e rts todo ready
       end) w)
| StepReady w c e todo ready :
    w_invalidator w = Asking c e [] todo ready ->
    invalidator_step w (with_invalidator (Scanning todo (c :: ready)) (with_retired (filter (fun x => x <> (c, e)) (w_retired w)) w))
| StepScanned w ready :
    w_invalidator w = Scanning [] ready -> invalidator_step w (with_invalidator (Freeing ready) w)
| StepFree w c ready x :
    w_invalidator w = Freeing (c :: ready) -> w_codes w !! c = Some x ->
    invalidator_step w (with_invalidator (Freeing ready) (with_codes (<[c := set_code_state Reclaimed x]> (w_codes w)) w))
| StepFreed w : w_invalidator w = Freeing [] -> invalidator_step w (with_invalidator Free w).

Inductive smc_step : SmcWorld -> SmcWorld -> Prop :=
| InRuntime i w w' : runtime_step i w w' -> smc_step w w'
| InPublisher w w' : publisher_step w w' -> smc_step w w'
| InInvalidator w w' : invalidator_step w w' -> smc_step w w'.

Definition reachable (w : SmcWorld) : Prop := rtc smc_step smc_new w.

(** The runtime executes the allocation, or is about to. *)
Definition executes (r : Runtime) (c : Code) : Prop :=
  rt_pc r = Exec c \/ exists loc, rt_pc r = Found loc c.
