(* ===== verification/SmcEpochProps.v ===== *)
(** * Self-modifying code: no execution of reclaimed code

    The invariant over all reachable interleavings of SmcEpoch.v.  An allocation a runtime may
    still execute is not reclaimed as long as every allocation left the dispatch tables before it
    was retired, and a runtime in the JIT has synchronised its instruction stream with every
    patch that preceded its epoch. *)

From Stdlib Require Import ZArith Lia.
From stdpp Require Import numbers base gmap sets list relations countable option.
From S2P Require Import Prelude SmcEpoch.

Local Open Scope Z_scope.

(** ** The invariant *)

Definition in_jit (pc : RuntimePc) : Prop :=
  match pc with InJit | Found _ _ | Exec _ => True | _ => False end.

(** The runtime cannot execute an allocation retired at [e]: it is not in the JIT, or entered it at a
    later epoch. *)
Definition quiet (e : Z) (r : Runtime) : Prop := in_jit (rt_pc r) -> exists a, rt_active r = Some a /\ e <= a.

Definition unpublished (w : SmcWorld) (c : Code) : Prop := exists x, w_codes w !! c = Some x /\ ci_state x <> Published.

Section Runtime.
Context (g : Z) (retired : gmap Code Z) (patch_at : gmap Z Z) (clean : bool).

(** Every patch before the epoch of the runtime has been synchronised with. *)
Definition synced (r : Runtime) : Prop := forall e p, e <= rt_continuation r -> patch_at !! e = Some p -> p <= rt_patch r.

Definition pc_ok (r : Runtime) : Prop :=
  match rt_pc r with
  | Loaded e => rt_continuation r = e
  | Synced e => rt_continuation r = e /\ synced r
  | Announced e => rt_continuation r = e /\ rt_active r = Some e /\ synced r
  | InJit | Found _ _ | Exec _ => rt_active r = Some (rt_continuation r) /\ synced r
  | _ => True
  end.

Record runtime_ok (r : Runtime) : Prop := {
  ro_continuation : rt_continuation r <= g;
  ro_pc : pc_ok r;
  ro_exec : clean = true -> forall c e, rt_pc r = Exec c -> retired !! c = Some e -> rt_continuation r < e;
  ro_found : clean = true -> forall loc c, rt_pc r = Found loc c -> retired !! c = None;
  ro_rsb : clean = true -> forall c e, c ∈ rt_rsb r -> retired !! c = Some e -> rt_continuation r < e
}.
End Runtime.

Abbreviation runtime_ok_in w := (runtime_ok (w_global w) (w_retire_epoch w) (w_patch_at w) (w_clean w)).

(** Every runtime is quiet for the allocation. *)
Definition passed (w : SmcWorld) (c : Code) : Prop :=
  exists e, w_retire_epoch w !! c = Some e /\ forall i r, w_runtimes w !! i = Some r -> quiet e r.

Definition retired_entries (w : SmcWorld) (l : list (Code * Z)) : Prop := forall c e, (c, e) ∈ l -> w_retire_epoch w !! c = Some e.

Definition invalidator_ok (w : SmcWorld) : Prop :=
  match w_invalidator w with
  | Free => True
  | Collecting _ cands | Clearing _ cands _ _ | Detaching _ cands =>
      forall c, c ∈ cands -> w_retire_epoch w !! c = None /\ unpublished w c
  | Retiring cands e => forall c, c ∈ cands -> w_retire_epoch w !! c = Some e
  | Scanning todo ready => retired_entries w todo /\ forall c, c ∈ ready -> passed w c
  | Asking c e rts todo ready => w_retire_epoch w !! c = Some e /\ retired_entries w todo /\ (forall c, c ∈ ready -> passed w c) /\
      forall i r, w_runtimes w !! i = Some r -> i ∈ rts \/ quiet e r
  | Freeing ready => forall c, c ∈ ready -> passed w c
  end.

Record world_ok (w : SmcWorld) : Prop := {
  wo_runtimes : forall i r, w_runtimes w !! i = Some r -> runtime_ok_in w r;
  wo_retire : forall c e, w_retire_epoch w !! c = Some e -> e <= w_global w /\ unpublished w c;
  wo_slots : w_clean w = true -> forall s c, w_slots w !! s = Some c -> w_retire_epoch w !! c = None;
  wo_patch : forall e p, w_patch_at w !! e = Some p -> e <= w_global w /\ p <= w_patch w;
  wo_publisher : forall c p, w_publisher w = Some (c, p) -> published w c;
  wo_invalidator : invalidator_ok w;
  wo_retired : retired_entries w (w_retired w);
  wo_reclaimed : forall c, reclaimed w c -> passed w c
}.

Lemma epoch_new_ok : world_ok smc_new.
Proof. split; simpl; try done; [by intros c e []%not_elem_of_nil|by intros c (x & Hx & _)]. Qed.

Lemma published_unpublished w c : published w c -> ~ unpublished w c.
Proof. intros (x & Hx & Hp) (y & Hy & Hn). congruence. Qed.

Lemma published_fresh w c : world_ok w -> published w c -> w_retire_epoch w !! c = None.
Proof.
  intros Hok Hp. destruct (w_retire_epoch w !! c) as [e|] eqn:E; [|done].
  destruct (published_unpublished w c Hp). by apply (wo_retire _ Hok _ _ E).
Qed.

(** ** Steps of the runtimes *)

(** The runtimes change, and the tables. *)
Lemma world_ok_runtimes w rts s :
  world_ok w -> (forall i r, rts !! i = Some r -> runtime_ok_in w r) ->
  (forall e i r, rts !! i = Some r -> e <= w_global w -> (exists r0, w_runtimes w !! i = Some r0 /\ (quiet e r0 -> quiet e r)) \/ quiet e r) ->
  (w_clean w = true -> forall a c, s !! a = Some c -> w_retire_epoch w !! c = None) ->
  world_ok (mkSmcWorld (w_global w) (w_patch w) s (w_codes w) (w_tracked w) rts (w_retired w) (w_publisher w) (w_invalidator w)
    (w_retire_epoch w) (w_patch_at w) (w_clean w)).
Proof.
  intros [H1 H2 H3 H4 H5 H6 H7 H8] Hr Hq Hs.
  assert (Hpass : forall c, passed w c -> passed (mkSmcWorld (w_global w) (w_patch w) s (w_codes w) (w_tracked w) rts (w_retired w) (w_publisher w)
    (w_invalidator w) (w_retire_epoch w) (w_patch_at w) (w_clean w)) c).
  { intros c (e & He & Hp). exists e. split; [done|]. intros i r Hi.
    destruct (Hq e i r Hi) as [(r0 & Hr0 & Himp)|]; [by apply (H2 c)|by eapply Himp, Hp|done]. }
  split; simpl; try done.
  - unfold invalidator_ok in *. simpl. destruct (w_invalidator w); try done.
    + destruct H6. split; auto.
    + destruct H6 as (He & Ht & Hready & Hask). split_and!; auto. intros i r Hi.
      destruct (Hq e i r Hi) as [(r0 & Hr0 & Himp)|]; [by apply (H2 c)| |by right].
      destruct (Hask _ _ Hr0); [by left|right; auto].
    + auto.
  - intros c Hc. by apply Hpass, H8.
Qed.

(** One runtime moves. *)
Lemma world_ok_move w i r r' :
  world_ok w -> w_runtimes w !! i = Some r -> runtime_ok_in w r' ->
  (forall e, e <= w_global w -> quiet e r -> quiet e r') -> world_ok (with_runtime i r' w).
Proof.
  intros Hok Hi Hr' Hq. apply world_ok_runtimes; [done| | |apply Hok].
  - intros j x [[<- <-]|[_ Hj]]%lookup_insert_Some; [done|by eapply Hok].
  - intros e j x [[<- <-]|[_ Hj]]%lookup_insert_Some He; [left; exists r; auto|left; exists x; auto].
Qed.

(** A runtime in the JIT moves to another place in it. *)
Lemma world_ok_jit w i r pc :
  world_ok w -> w_runtimes w !! i = Some r -> in_jit (rt_pc r) -> in_jit pc ->
  (w_clean w = true -> forall c e, pc = Exec c -> w_retire_epoch w !! c = Some e -> rt_continuation r < e) ->
  (w_clean w = true -> forall loc c, pc = Found loc c -> w_retire_epoch w !! c = None) ->
  world_ok (with_runtime i (set_pc pc r) w).
Proof.
  intros Hok Hi Hj Hpc He Hf. pose proof (wo_runtimes _ Hok _ _ Hi) as [H1 H2 _ _ H5]. apply (world_ok_move w i r); [done..| |].
  - split; try done. unfold pc_ok in *. simpl. destruct (rt_pc r), pc; done.
  - intros e _ Hq _. apply Hq. done.
Qed.

Lemma jit_active w i r : world_ok w -> w_runtimes w !! i = Some r -> in_jit (rt_pc r) -> rt_active r = Some (rt_continuation r).
Proof. intros Hok Hi Hj. pose proof (ro_pc _ _ _ _ _ (wo_runtimes _ Hok _ _ Hi)) as Hp. unfold pc_ok in Hp. destruct (rt_pc r); try done; apply Hp. Qed.

Lemma step_load w i r : world_ok w -> w_runtimes w !! i = Some r -> rt_pc r = Begin ->
  world_ok (with_runtime i (set_pc (Loaded (w_global w)) (SynchronizeContinuation (w_global w) r)) w).
Proof.
  intros Hok Hi Hpc. pose proof (wo_runtimes _ Hok _ _ Hi) as [H1 _ _ _ H5].
  assert (E : rt_continuation (SynchronizeContinuation (w_global w) r) = w_global w).
  { unfold SynchronizeContinuation. by destruct (Z.eqb_spec (rt_continuation r) (w_global w)). }
  apply (world_ok_move w i r); [done..| |by intros e _ _ []].
  split; simpl; [lia|exact E|done|done|]. intros Hc c e Hin He. rewrite E.
  unfold SynchronizeContinuation in Hin. destruct (Z.eqb_spec (rt_continuation r) (w_global w)) as [Eg|]; simpl in Hin; [|by apply not_elem_of_empty in Hin].
  rewrite <- Eg. by eapply H5.
Qed.

Lemma step_sync w i r e : world_ok w -> w_runtimes w !! i = Some r -> rt_pc r = Loaded e ->
  world_ok (with_runtime i (set_patch (Z.max (rt_patch r) (w_patch w)) (Synced e) r) w).
Proof.
  intros Hok Hi Hpc. pose proof (wo_runtimes _ Hok _ _ Hi) as [H1 H2 _ _ H5]. unfold pc_ok in H2. rewrite Hpc in H2.
  apply (world_ok_move w i r); [done..| |by intros e' _ _ []].
  split; simpl; try done. split; [done|]. intros e' p _ [_ Hp]%(wo_patch _ Hok). simpl. lia.
Qed.

Lemma step_announce w i r e : world_ok w -> w_runtimes w !! i = Some r -> rt_pc r = Synced e ->
  world_ok (with_runtime i (set_active (Some e) (Announced e) r) w).
Proof.
  intros Hok Hi Hpc. pose proof (wo_runtimes _ Hok _ _ Hi) as [H1 H2 _ _ H5]. unfold pc_ok in H2. rewrite Hpc in H2.
  apply (world_ok_move w i r); [done..| |by intros e' _ _ []]. destruct H2. by split.
Qed.

(** The second load of the global epoch closes the race with [Retire]. *)
Lemma step_validate_epoch w i r e : world_ok w -> w_runtimes w !! i = Some r -> rt_pc r = Announced e ->
  world_ok (with_runtime i (set_pc (if w_global w =? e then InJit else Begin) r) w).
Proof.
  intros Hok Hi Hpc. pose proof (wo_runtimes _ Hok _ _ Hi) as [H1 H2 _ _ H5]. unfold pc_ok in H2. rewrite Hpc in H2.
  destruct H2 as (<- & Ha & Hs). destruct (Z.eqb_spec (w_global w) (rt_continuation r)) as [E|].
  - apply (world_ok_move w i r); [done..| |].
    + by split.
    + intros e' He' _ _. exists (rt_continuation r). split; [done|lia].
  - apply (world_ok_move w i r); [done..|by split|by intros e' _ _ []].
Qed.

Lemma step_fill w i r loc c : world_ok w -> w_runtimes w !! i = Some r -> rt_pc r = Found loc c ->
  world_ok (with_runtime i (set_pc (Exec c) r) (with_slots (<[(L1 i, loc) := c]> (w_slots w)) w)).
Proof.
  intros Hok Hi Hpc. assert (Hc : w_clean w = true -> w_retire_epoch w !! c = None).
  { intros H. by apply (ro_found _ _ _ _ _ (wo_runtimes _ Hok _ _ Hi) H loc). }
  assert (Hok' : world_ok (with_slots (<[(L1 i, loc) := c]> (w_slots w)) w)).
  { apply world_ok_runtimes; [done|apply Hok| |].
    - intros e j x Hj _. left. eauto.
    - intros H a c'. intros [[_ <-]|[_ Ha]]%lookup_insert_Some; [by apply Hc|by eapply (wo_slots _ Hok)]. }
  apply (world_ok_jit _ i r); [done|done|by rewrite Hpc|done| |done].
  intros H c' e [= <-]. simpl. by rewrite (Hc H).
Qed.

Lemma runtime_step_ok i w w' : runtime_step i w w' -> world_ok w -> world_ok w'.
Proof.
  intros Hstep Hok. destruct Hstep.
  - (* RegisterRuntime *) apply world_ok_runtimes; [done| | |apply Hok].
    + intros j x [[<- <-]|[_ Hj]]%lookup_insert_Some; [|by eapply Hok]. split; simpl; [lia|done|done|done|]. by intros _ c e Hc%not_elem_of_empty.
    + intros e j x [[<- <-]|[_ Hj]]%lookup_insert_Some _; [right; by intros []|left; eauto].
  - (* UnregisterRuntime *) apply world_ok_runtimes; [done| | |].
    + intros j x [_ Hj]%lookup_delete_Some. by eapply Hok.
    + intros e j x [_ Hj]%lookup_delete_Some _. left. eauto.
    + intros Hc a c [Ha _]%map_lookup_filter_Some. by eapply (wo_slots _ Hok).
  - pose proof (wo_runtimes _ Hok _ _ H) as [H1 _ _ _ H5]. apply (world_ok_move w i r); [done..|by split|by intros e _ _ []].
  - by apply step_load.
  - by apply step_sync.
  - by apply step_announce.
  - by apply step_validate_epoch.
  - apply (world_ok_jit w i r); [done|done|by rewrite H0|done| |done].
    intros Hc c' e [= <-]. by rewrite (wo_slots _ Hok Hc _ _ H1).
  - apply (world_ok_jit w i r); [done|done|by rewrite H0|done| |done].
    intros _ c' e [= <-]. rewrite (published_fresh w c); [done|done|by exists x].
  - apply (world_ok_jit w i r); [done|done|by rewrite H0|done| |done].
    intros Hc c2 e [= <-]. by rewrite (wo_slots _ Hok Hc _ _ H2).
  - apply (world_ok_jit w i r); [done|done|by rewrite H0|done|done|].
    intros Hc l c2 [= <- <-]. by eapply (wo_slots _ Hok Hc).
  - destruct full; [|by apply step_fill].
    apply (world_ok_jit w i r); [done|done|by rewrite H0|done| |done].
    intros Hc c' e [= <-]. by rewrite (ro_found _ _ _ _ _ (wo_runtimes _ Hok _ _ H) Hc _ _ H0).
  - pose proof (wo_runtimes _ Hok _ _ H) as [H1 H2 H3 H4 H5]. apply (world_ok_move w i r); [done..| |done].
    split; try done. simpl. intros Hc c' e [->%elem_of_singleton|Hin]%elem_of_union He; [by eapply H3|by eapply H5].
  - apply (world_ok_jit w i r); [done|done|by rewrite H0|done| |done].
    intros Hc c2 e [= <-] He. by eapply (ro_rsb _ _ _ _ _ (wo_runtimes _ Hok _ _ H)).
  - pose proof (wo_runtimes _ Hok _ _ H) as [H1 _ _ _ H5]. apply (world_ok_move w i r); [done..|by split|by intros e _ _ []].
Qed.

(** ** Frames *)

Lemma world_ok_invalidator w v : world_ok w -> invalidator_ok (with_invalidator v w) -> world_ok (with_invalidator v w).
Proof. intros [H1 H2 H3 H4 H5 H6 H7 H8] Hv. by split. Qed.

Lemma world_ok_slots w s :
  world_ok w -> (w_clean w = true -> forall a c, s !! a = Some c -> w_retire_epoch w !! c = None) -> world_ok (with_slots s w).
Proof.
  intros Hok Hs. apply world_ok_runtimes; [done|apply Hok| |done].
  intros e i r Hi _. left. eauto.
Qed.

Lemma world_ok_delete w a : world_ok w -> world_ok (with_slots (delete a (w_slots w)) w).
Proof. intros Hok. apply world_ok_slots; [done|]. intros Hc b c [_ Hb]%lookup_delete_Some. by eapply (wo_slots _ Hok). Qed.

Lemma world_ok_tracked w t : world_ok w -> world_ok (with_tracked t w).
Proof. intros [H1 H2 H3 H4 H5 H6 H7 H8]. by split. Qed.

Lemma world_ok_patch w p : w_patch w <= p -> world_ok w -> world_ok (with_patch p w).
Proof. intros Hp [H1 H2 H3 H4 H5 H6 H7 H8]. split; try done. intros e q He. destruct (H4 e q He). simpl. lia. Qed.

Lemma world_ok_publisher w p : world_ok w -> (forall c l, p = Some (c, l) -> published w c) -> world_ok (with_publisher p w).
Proof. intros [H1 H2 H3 H4 H5 H6 H7 H8] Hp. by split. Qed.

Lemma world_ok_retired w l : world_ok w -> retired_entries w l -> world_ok (with_retired l w).
Proof. intros [H1 H2 H3 H4 H5 H6 H7 H8] Hl. by split. Qed.

Lemma invalidator_ok_codes w cs :
  invalidator_ok w -> (forall c, unpublished w c -> unpublished (with_codes cs w) c) -> invalidator_ok (with_codes cs w).
Proof.
  unfold invalidator_ok. intros H Hc. simpl. destruct (w_invalidator w); try done.
  all: intros c' [Hn Hu]%H; split; [done|by apply Hc].
Qed.

(** The allocations change, those unpublished remain so. *)
Lemma world_ok_codes w cs :
  world_ok w -> (forall c, unpublished w c -> unpublished (with_codes cs w) c) ->
  (forall c p, w_publisher w = Some (c, p) -> published (with_codes cs w) c) ->
  (forall c, reclaimed (with_codes cs w) c -> passed w c) -> world_ok (with_codes cs w).
Proof.
  intros [H1 H2 H3 H4 H5 H6 H7 H8] Hu Hp Hr. split; try done.
  - intros c e He. destruct (H2 c e He). by split; [|apply Hu].
  - by apply invalidator_ok_codes.
Qed.

(** ** Steps of the translator *)

Lemma step_publish w c locs p :
  world_ok w -> w_publisher w = None -> w_codes w !! c = None ->
  world_ok (with_publisher (Some (c, p)) (with_codes (<[c := mkCode locs Published]> (w_codes w)) w)).
Proof.
  intros Hok Hn Hc. apply world_ok_publisher.
  - apply world_ok_codes; [done| |by rewrite Hn|].
    + intros c' (x & Hx & Hs). exists x. split; [|done]. simpl. rewrite lookup_insert_ne; [done|]. congruence.
    + intros c' (x & Hx & Hs). simpl in Hx. apply lookup_insert_Some in Hx as [[_ <-]|[_ Hx]]; [done|].
      apply (wo_reclaimed _ Hok). by exists x.
  - intros c' l [= <- _]. exists (mkCode locs Published). split; [|done]. simpl. by rewrite lookup_insert_eq.
Qed.

Lemma publisher_step_ok w w' : publisher_step w w' -> world_ok w -> world_ok w'.
Proof.
  intros Hstep Hok. destruct Hstep as [w c locs p Hn Hc _|w c s p Hp|w c p Hp _|w c Hp].
  - by apply step_publish.
  - assert (Hpub : published w c) by by eapply (wo_publisher _ Hok).
    apply world_ok_publisher.
    + apply world_ok_slots; [done|]. intros H a c' [[_ <-]|[_ Ha]]%lookup_insert_Some; [by apply published_fresh|by eapply (wo_slots _ Hok)].
    + by intros c' l [= <- _].
  - apply world_ok_publisher; [by apply world_ok_tracked|]. intros c' l [= <- _]. by eapply (wo_publisher _ Hok).
  - by apply world_ok_publisher.
Qed.

(** ** Steps of the invalidation *)

Lemma set_state_unpublished w c x s c' :
  w_codes w !! c = Some x -> s <> Published -> unpublished w c' \/ c' = c ->
  unpublished (with_codes (<[c := set_code_state s x]> (w_codes w)) w) c'.
Proof.
  intros Hx Hs H. destruct (decide (c' = c)) as [->|Hne].
  - exists (set_code_state s x). simpl. by rewrite lookup_insert_eq.
  - destruct H as [(y & Hy & Hn)|]; [|done]. exists y. simpl. by rewrite lookup_insert_ne.
Qed.

Lemma step_detach w c batch cands x :
  world_ok w -> w_invalidator w = Detaching (c :: batch) cands -> w_publisher w = None -> w_codes w !! c = Some x -> ci_state x = Published ->
  world_ok (with_invalidator (Detaching batch (c :: cands)) (with_codes (<[c := set_code_state Unmapped x]> (w_codes w)) w)).
Proof.
  intros Hok Hv Hn Hx Hs.
  assert (Hu : forall c', unpublished w c' \/ c' = c -> unpublished (with_codes (<[c := set_code_state Unmapped x]> (w_codes w)) w) c').
  { intros c'. by apply set_state_unpublished. }
  apply world_ok_invalidator.
  - apply world_ok_codes; [done|auto|by rewrite Hn|].
    intros c' (y & Hy & Hr). simpl in Hy. apply lookup_insert_Some in Hy as [[_ <-]|[_ Hy]]; [done|].
    apply (wo_reclaimed _ Hok). by exists y.
  - pose proof (wo_invalidator _ Hok) as Hi. unfold invalidator_ok in *. rewrite Hv in Hi. simpl.
    intros c' [->|Hin]%elem_of_cons.
    + split; [apply published_fresh; [done|by exists x]|apply Hu; by right].
    + destruct (Hi _ Hin). split; [done|apply Hu; by left].
Qed.

Lemma foldr_insert_lookup (e : Z) cands (m : gmap Code Z) c :
  foldr (fun c m => <[c := e]> m) m cands !! c = if decide (c ∈ cands) then Some e else m !! c.
Proof.
  induction cands as [|d l IH]; simpl.
  - destruct (decide (c ∈ [])) as [[]%not_elem_of_nil|]; done.
  - destruct (decide (c ∈ d :: l)) as [H|H], (decide (d = c)) as [->|Hne].
    + by rewrite lookup_insert_eq.
    + rewrite lookup_insert_ne, IH by done. apply elem_of_cons in H as [->|H]; [done|]. by destruct (decide (c ∈ l)).
    + destruct H. left.
    + rewrite lookup_insert_ne, IH by done. destruct (decide (c ∈ l)); [|done]. destruct H. by right.
Qed.

Lemma clean_slots_spec cs slots a c : clean_slots cs slots = true -> slots !! a = Some c -> c ∉ cs.
Proof.
  unfold clean_slots. rewrite forallb_forall. intros H Ha. specialize (H (a, c)).
  rewrite <- list_elem_of_In, elem_of_map_to_list in H. specialize (H Ha). simpl in H. by apply negb_true_iff, bool_decide_eq_false in H.
Qed.

Lemma clean_runtimes_spec cs rts i r loc c : clean_runtimes cs rts = true -> rts !! i = Some r -> rt_pc r = Found loc c -> c ∉ cs.
Proof.
  unfold clean_runtimes. rewrite forallb_forall. intros H Hi Hpc. specialize (H (i, r)).
  rewrite <- list_elem_of_In, elem_of_map_to_list in H. specialize (H Hi). simpl in H. rewrite Hpc in H.
  by apply negb_true_iff, bool_decide_eq_false in H.
Qed.

Section AtRetire.
Context (w : SmcWorld) (cands : list Code) (Hok : world_ok w)
  (Hcands : forall c, c ∈ cands -> w_retire_epoch w !! c = None /\ unpublished w c).

Lemma retire_epoch_cases c e : w_retire_epoch (Retire cands w) !! c = Some e ->
  (c ∈ cands /\ e = w_global w + 1) \/ (c ∉ cands /\ w_retire_epoch w !! c = Some e).
Proof. simpl. rewrite foldr_insert_lookup. destruct (decide (c ∈ cands)); [intros [= <-]|]; auto. Qed.

Lemma retire_epoch_old c e : w_retire_epoch w !! c = Some e -> w_retire_epoch (Retire cands w) !! c = Some e.
Proof. intros He. simpl. rewrite foldr_insert_lookup. destruct (decide (c ∈ cands)) as [Hc|]; [|done]. destruct (Hcands _ Hc). congruence. Qed.

Lemma retire_epoch_none c : c ∉ cands -> w_retire_epoch w !! c = None -> w_retire_epoch (Retire cands w) !! c = None.
Proof. intros Hc He. simpl. rewrite foldr_insert_lookup. by destruct (decide (c ∈ cands)). Qed.

(** The epochs of the runtimes are the old ones, and those of the candidates are later. *)
Lemma retire_runtime i r : w_runtimes w !! i = Some r -> runtime_ok_in (Retire cands w) r.
Proof.
  intros Hi. pose proof (wo_runtimes _ Hok _ _ Hi) as [H1 H2 H3 H4 H5].
  assert (Hclean : w_clean (Retire cands w) = true -> w_clean w = true /\ clean_runtimes cands (w_runtimes w) = true).
  { simpl. intros [[? ?]%andb_true_iff ?]%andb_true_iff. auto. }
  split.
  - simpl. lia.
  - assert (Hs : synced (w_patch_at w) r -> synced (w_patch_at (Retire cands w)) r).
    { unfold synced. simpl. intros Hs e p He [[<- <-]|[_ Hp]]%lookup_insert_Some; [lia|by eapply Hs]. }
    unfold pc_ok in *. destruct (rt_pc r); naive_solver.
  - intros [Hc _]%Hclean c e Hx [[_ ->]|[_ He]]%retire_epoch_cases; [lia|by eapply H3].
  - intros [Hc Hr]%Hclean loc c Hx. apply retire_epoch_none; [by eapply clean_runtimes_spec|by eapply H4].
  - intros [Hc _]%Hclean c e Hx [[_ ->]|[_ He]]%retire_epoch_cases; [lia|by eapply H5].
Qed.

Lemma step_retire : world_ok (Retire cands w).
Proof.
  split.
  - intros i r Hi. by apply (retire_runtime i).
  - intros c e [[Hc ->]|[_ He]]%retire_epoch_cases; simpl.
    + split; [lia|by apply Hcands].
    + destruct (wo_retire _ Hok _ _ He). split; [lia|done].
  - simpl. intros [[Hc Hs]%andb_true_iff _]%andb_true_iff s c Ha.
    apply retire_epoch_none; [by eapply clean_slots_spec|by eapply (wo_slots _ Hok)].
  - simpl. intros e p [[<- <-]|[_ Hp]]%lookup_insert_Some; [lia|]. destruct (wo_patch _ Hok _ _ Hp). lia.
  - apply Hok.
  - unfold invalidator_ok. simpl. intros c Hc. rewrite foldr_insert_lookup. by destruct (decide (c ∈ cands)).
  - intros c e Hc. by apply retire_epoch_old, (wo_retired _ Hok).
  - intros c Hc. destruct (wo_reclaimed _ Hok c Hc) as (e & He & Hq). exists e. split; [by apply retire_epoch_old|done].
Qed.
End AtRetire.

(** [CanReclaim]: a runtime whose epoch is inactive or recent is quiet. *)
Lemma ask_quiet w i r e :
  world_ok w -> w_runtimes w !! i = Some r -> (forall a, rt_active r = Some a -> e <= a) -> quiet e r.
Proof. intros Hok Hi Ha Hj. pose proof (jit_active w i r Hok Hi Hj) as E. eauto. Qed.

Lemma step_ask w c e i r rts todo ready :
  world_ok w -> w_invalidator w = Asking c e (i :: rts) todo ready -> w_runtimes w !! i = Some r ->
  world_ok (with_invalidator
    (match rt_active r with
     | Some a => if a <? e then Scanning todo ready else Asking c e rts todo ready
     | None => Asking c e rts todo ready
     end) w).
Proof.
  intros Hok Hv Hi. apply world_ok_invalidator; [done|].
  pose proof (wo_invalidator _ Hok) as Hinv. unfold invalidator_ok in *. rewrite Hv in Hinv. destruct Hinv as (He & Ht & Hready & Hask).
  assert (Hrest : (forall a, rt_active r = Some a -> e <= a) -> forall j x, w_runtimes w !! j = Some x -> j ∈ rts \/ quiet e x).
  { intros Ha j x Hj. destruct (Hask j x Hj) as [[->|]%elem_of_cons|]; [|by left|by right]. right.
    replace x with r by congruence. by eapply ask_quiet. }
  simpl. destruct (rt_active r) as [a|]; [destruct (Z.ltb_spec a e)|]; simpl.
  - done.
  - split_and!; try done. apply Hrest. intros b [= <-]. lia.
  - by split_and!; try done; apply Hrest.
Qed.

Lemma step_free w c ready x :
  world_ok w -> w_invalidator w = Freeing (c :: ready) -> w_codes w !! c = Some x ->
  world_ok (with_invalidator (Freeing ready) (with_codes (<[c := set_code_state Reclaimed x]> (w_codes w)) w)).
Proof.
  intros Hok Hv Hx. pose proof (wo_invalidator _ Hok) as Hi. unfold invalidator_ok in Hi. rewrite Hv in Hi.
  destruct (Hi c) as (e & He & Hq); [left|]. apply world_ok_invalidator.
  - apply world_ok_codes; [done| | |].
    + intros c' Hu. apply set_state_unpublished; auto.
    + intros c' p Hp. pose proof (wo_publisher _ Hok _ _ Hp) as Hpub. pose proof (published_fresh _ _ Hok Hpub).
      destruct Hpub as (y & Hy & Hs). exists y. split; [|done]. simpl. rewrite lookup_insert_ne; [done|congruence].
    + intros c' (y & Hy & Hr). simpl in Hy. apply lookup_insert_Some in Hy as [[<- _]|[_ Hy]]; [by exists e|].
      apply (wo_reclaimed _ Hok). by exists y.
  - unfold invalidator_ok. simpl. intros c' Hc'. apply Hi. by right.
Qed.

Lemma step_scan w c e todo ready :
  world_ok w -> w_invalidator w = Scanning ((c, e) :: todo) ready ->
  world_ok (with_invalidator (Asking c e (elements (dom (w_runtimes w))) todo ready) w).
Proof.
  intros Hok Hv. apply world_ok_invalidator; [done|].
  pose proof (wo_invalidator _ Hok) as Hi. unfold invalidator_ok in *. rewrite Hv in Hi. destruct Hi as [Ht Hr]. simpl. split_and!.
  - apply Ht. left.
  - intros c' e' Hin. apply Ht. by right.
  - done.
  - intros i r Hx. left. apply elem_of_elements, elem_of_dom. by exists r.
Qed.

Lemma step_ready w c e todo ready :
  world_ok w -> w_invalidator w = Asking c e [] todo ready ->
  world_ok (with_invalidator (Scanning todo (c :: ready)) (with_retired (filter (fun x => x <> (c, e)) (w_retired w)) w)).
Proof.
  intros Hok Hv. apply world_ok_invalidator.
  - apply world_ok_retired; [done|]. intros c' e' [_ Hin]%list_elem_of_filter. by apply (wo_retired _ Hok).
  - pose proof (wo_invalidator _ Hok) as Hi. unfold invalidator_ok in *. rewrite Hv in Hi. destruct Hi as (He & Ht & Hready & Hask).
    simpl. split; [done|]. intros c' [->|Hin]%elem_of_cons; [|by apply Hready].
    exists e. split; [done|]. intros i r Hx. by destruct (Hask i r Hx) as [[]%not_elem_of_nil|].
Qed.

(** The steps that only move the invalidator. *)
Ltac moves := apply world_ok_invalidator; [done|];
  match goal with Hok : world_ok ?w, Hv : w_invalidator ?w = _ |- _ =>
    pose proof (wo_invalidator _ Hok) as Hi; unfold invalidator_ok in *; rewrite Hv in Hi; simpl in *; try done end.

Lemma invalidator_step_ok w w' : invalidator_step w w' -> world_ok w -> world_ok w'.
Proof.
  intros Hstep Hok. destruct Hstep as
    [w c s _ _ _|w Hv|w batch cands c Hv _|w batch cands c s slots Hv|w batch cands c Hv|w c batch cands patched Hv
    |w c batch cands x Hv Hn Hx|w cands Hv|w c cands Hv|w Hv|w cands e Hv l|w Hv|w c e todo ready Hv|w c e i r rts todo ready Hv Hi
    |w c e todo ready Hv|w ready Hv|w c ready x Hv Hx|w Hv].
  - by apply world_ok_delete.
  - moves. by intros c Hc%not_elem_of_nil.
  - moves.
  - assert (Hok' : world_ok (with_slots (delete s (w_slots w)) w)) by by apply world_ok_delete.
    apply world_ok_invalidator; [done|]. pose proof (wo_invalidator _ Hok) as Hi. unfold invalidator_ok in *. by rewrite Hv in Hi.
  - apply world_ok_invalidator; [by apply world_ok_tracked|]. pose proof (wo_invalidator _ Hok) as Hi. unfold invalidator_ok in *. by rewrite Hv in Hi.
  - pose proof (wo_invalidator _ Hok) as Hi. apply world_ok_invalidator.
    + destruct patched; [apply world_ok_patch; [lia|done]|done].
    + unfold invalidator_ok in *. rewrite Hv in Hi. by destruct patched.
  - destruct (decide (ci_state x = Published)); [by apply step_detach|]. moves.
  - moves.
  - apply step_retire; [done|]. pose proof (wo_invalidator _ Hok) as Hi. unfold invalidator_ok in Hi. by rewrite Hv in Hi.
  - moves. split; [apply Hok|by intros c Hc%not_elem_of_nil].
  - assert (Hl : retired_entries w l).
    { pose proof (wo_invalidator _ Hok) as Hi. unfold invalidator_ok in Hi. rewrite Hv in Hi.
      intros c e' [Hin|Hin]%elem_of_app; [by apply (wo_retired _ Hok)|].
      apply list_elem_of_fmap in Hin as (c' & [= -> ->] & Hin). by apply Hi. }
    apply world_ok_invalidator; [by apply world_ok_retired|]. split; [done|by intros c Hc%not_elem_of_nil].
  - moves. split; [apply Hok|by intros c Hc%not_elem_of_nil].
  - by apply step_scan.
  - by apply (step_ask w c e i r).
  - by apply step_ready.
  - moves. by destruct Hi.
  - by apply step_free.
  - moves.
Qed.

Lemma epoch_step_ok w w' : smc_step w w' -> world_ok w -> world_ok w'.
Proof.
  intros [i v v' H|v v' H|v v' H]; [by eapply runtime_step_ok|by apply publisher_step_ok|by apply invalidator_step_ok].
Qed.

Lemma epoch_reachable_ok w : reachable w -> world_ok w.
Proof.
  intros H. unfold reachable in H. assert (Hok : world_ok smc_new) by apply epoch_new_ok. revert Hok.
  induction H as [|v v' v'' Hs _ IH]; [done|]. intros Hok. by eapply IH, epoch_step_ok.
Qed.

(** ** What the epochs guarantee *)

(** (C12) The quiescence protocol is safe for code that left the dispatch tables: as long as no table,
    and no dispatcher about to store into one, held an allocation when [Retire] advanced the epoch,
    no runtime executes an allocation whose memory [ReclaimCode] has released, or keeps one on its
    return stack while in the JIT, in any interleaving of runtimes, translator, signal handler and
    invalidation. *)
Theorem qsbr_no_use_after_reclaim w i r c :
  reachable w -> w_clean w = true -> w_runtimes w !! i = Some r -> executes r c \/ in_jit (rt_pc r) /\ c ∈ rt_rsb r -> ~ reclaimed w c.
Proof.
  intros Hr Hc Hi He Hrec. pose proof (epoch_reachable_ok w Hr) as Hok.
  destruct (wo_reclaimed _ Hok c Hrec) as (e & Hret & Hq). pose proof (wo_runtimes _ Hok _ _ Hi) as [_ _ H3 H4 H5].
  assert (Hj : in_jit (rt_pc r)) by (destruct He as [[->|[loc ->]]|[? _]]; done).
  pose proof (jit_active w i r Hok Hi Hj) as Ha. destruct (Hq i r Hi Hj) as (a & Ha' & Hle).
  rewrite Ha in Ha'. injection Ha' as <-.
  destruct He as [[Hx|[loc Hx]]|[_ Hx]].
  - specialize (H3 Hc _ _ Hx Hret). lia.
  - specialize (H4 Hc _ _ Hx). congruence.
  - specialize (H5 Hc _ _ Hx Hret). lia.
Qed.

(** A runtime in the JIT has synchronised its instruction stream with every patch of code that
    preceded its epoch: its patch epoch is at least the patch epoch at each advance of the global
    epoch up to the one it announced, and the announced epoch is the one it synchronised its return
    stack at. *)
Theorem patch_synced w i r :
  reachable w -> w_runtimes w !! i = Some r -> in_jit (rt_pc r) ->
  rt_active r = Some (rt_continuation r) /\ rt_continuation r <= w_global w /\
  forall e p, e <= rt_continuation r -> w_patch_at w !! e = Some p -> p <= rt_patch r.
Proof.
  intros Hr Hi Hj. pose proof (epoch_reachable_ok w Hr) as Hok. pose proof (wo_runtimes _ Hok _ _ Hi) as [H1 H2 _ _ _].
  split_and!; [by eapply jit_active|done|]. unfold pc_ok in H2. destruct (rt_pc r); try done; by destruct H2.
Qed.

(** ** Everything retired is released *)

Definition caught_up (e : Z) (r : Runtime) : Prop := match rt_active r with Some a => e <= a | None => True end.

Lemma asks_all w c e rts todo ready :
  w_invalidator w = Asking c e rts todo ready -> (forall i, i ∈ rts -> exists r, w_runtimes w !! i = Some r /\ caught_up e r) ->
  rtc invalidator_step w (with_invalidator (Asking c e [] todo ready) w).
Proof.
  revert w. induction rts as [|i rts IH]; intros w Hv Hr.
  - destruct w. simpl in *. subst. apply rtc_refl.
  - destruct (Hr i) as (r & Hi & Hc); [left|]. pose proof (StepAsk w c e i r rts todo ready Hv Hi) as Hs.
    unfold caught_up in Hc. destruct (rt_active r) as [a|]; [destruct (Z.ltb_spec a e); [lia|]|].
    all: eapply rtc_l; [exact Hs|]; apply (IH (with_invalidator (Asking c e rts todo ready) w)); [done|].
    all: intros j Hj; apply Hr; by right.
Qed.

Lemma scans_all w todo ready :
  w_invalidator w = Scanning todo ready -> (forall c e i r, (c, e) ∈ todo -> w_runtimes w !! i = Some r -> caught_up e r) ->
  rtc invalidator_step w (with_invalidator (Scanning [] (reverse (map fst todo) ++ ready))
    (with_retired (foldl (fun l x => filter (fun y => y <> x) l) (w_retired w) todo) w)).
Proof.
  revert w ready. induction todo as [|[c e] todo IH]; intros w ready Hv Hr.
  - destruct w. simpl in *. subst. apply rtc_refl.
  - eapply rtc_l; [by apply StepScan|]. etrans; [eapply asks_all; [done|]|].
    + intros i Hi. apply elem_of_elements, elem_of_dom in Hi as [r Hi]. exists r. split; [done|]. eapply (Hr c); [left|done].
    + eapply rtc_l; [by eapply StepReady|]. simpl. rewrite reverse_cons, <- (assoc (++)).
      set (v := with_invalidator (Scanning todo (c :: ready)) (with_retired (filter (fun x => x <> (c, e)) (w_retired w)) w)).
      apply (IH v (c :: ready)); [done|]. intros c' e' i r Hin. apply (Hr c' e' i r). by right.
Qed.

Lemma frees_all ready : forall w,
  w_invalidator w = Freeing ready -> (forall c, c ∈ ready -> is_Some (w_codes w !! c)) ->
  exists w', rtc invalidator_step w w' /\ w_invalidator w' = Free /\ w_retired w' = w_retired w /\
    forall c, c ∈ ready \/ reclaimed w c -> reclaimed w' c.
Proof.
  induction ready as [|c ready IH]; intros w Hv Hc.
  - exists (with_invalidator Free w). split_and!; [by apply rtc_once, StepFreed|done|done|]. by intros c [[]%not_elem_of_nil|].
  - destruct (Hc c) as [x Hx]; [left|].
    set (v := with_invalidator (Freeing ready) (with_codes (<[c := set_code_state Reclaimed x]> (w_codes w)) w)).
    assert (Hrec : reclaimed v c) by (exists (set_code_state Reclaimed x); split; [apply lookup_insert_eq|done]).
    destruct (IH v) as (w' & Hs & Hf & Hl & Hr); [done| |].
    + intros d Hd. simpl. destruct (decide (c = d)) as [->|]; [rewrite lookup_insert_eq; done|].
      rewrite lookup_insert_ne by done. apply Hc. by right.
    + exists w'. split_and!; [eapply rtc_l; [by eapply StepFree|done]|done|done|].
      intros d [[->|Hd]%elem_of_cons|(y & Hy & Hs')]; apply Hr; [by right|by left|].
      destruct (decide (c = d)) as [->|]; [by right|]. right. exists y. split; [|done]. simpl. by rewrite lookup_insert_ne.
Qed.

Lemma elem_of_filters {A} `{EqDecision A} (m : list A) : forall (l : list A) x, x ∈ foldl (fun l x => filter (fun y => y <> x) l) l m <-> x ∈ l /\ x ∉ m.
Proof.
  induction m as [|y m IH]; simpl; intros l x; [split; [split; [done|apply not_elem_of_nil]|by intros []]|].
  rewrite IH, list_elem_of_filter, not_elem_of_cons. naive_solver.
Qed.

Lemma filters_all {A} `{EqDecision A} (l : list A) : foldl (fun l x => filter (fun y => y <> x) l) l l = [].
Proof.
  destruct (foldl _ l l) as [|x m] eqn:E; [done|]. assert (H : x ∈ foldl (fun l x => filter (fun y => y <> x) l) l l) by (rewrite E; left).
  by apply elem_of_filters in H as [].
Qed.

(** (C13) Progress of the reclamation: when no runtime has announced an epoch before that of a retired
    allocation, [ReclaimRetiredLocked] runs to its end without a step of another thread, empties
    the list and releases every allocation of it. *)
Theorem reclaim_progress w :
  reachable w -> w_invalidator w = Free ->
  (forall c e i r, (c, e) ∈ w_retired w -> w_runtimes w !! i = Some r -> caught_up e r) ->
  exists w', rtc invalidator_step w w' /\ w_invalidator w' = Free /\ w_retired w' = [] /\
    forall c e, (c, e) ∈ w_retired w -> reclaimed w' c.
Proof.
  intros Hreach Hv Hr. pose proof (epoch_reachable_ok w Hreach) as Hok.
  set (l := w_retired w). set (ready := reverse (map fst l) ++ []).
  set (v := with_invalidator (Freeing ready) (with_retired [] w)).
  assert (Hin : forall c, c ∈ ready <-> exists e, (c, e) ∈ l).
  { intros c. unfold ready. rewrite app_nil_r, elem_of_reverse, list_elem_of_fmap. split.
    - intros ([c' e] & -> & H). by exists e.
    - intros [e He]. by exists (c, e). }
  destruct (frees_all ready v) as (w' & Hs & Hf & Hl & Hrec); [done| |].
  { intros c [e He]%Hin. destruct (wo_retire _ Hok c e) as [_ (x & Hx & _)]; [by apply (wo_retired _ Hok)|by exists x]. }
  exists w'. split_and!; [|done|done|].
  - eapply rtc_l; [by apply StepReclaim|]. etrans; [by eapply scans_all|]. simpl.
    eapply rtc_l; [by eapply StepScanned|]. simpl. by rewrite filters_all.
  - intros c e He. apply Hrec. left. apply Hin. by exists e.
Qed.

(** ** Schedules *)

(** Which thread moves, with what it chooses. *)
Inductive Event :=
| ERegister (i : RuntimeId)
| ERuntime (i : RuntimeId)
| EEnter (i : RuntimeId) (loc : Z)
| EDispatch (i : RuntimeId) (t : Table) (loc : Z)
| EFind (i : RuntimeId) (loc : Z)
| ELeave (i : RuntimeId)
| EBlock (c : Code) (loc : Z)
| EFunction (c : Code) (blocks : list (Z * bool * bool))
| ETranslator
| EReclaim
| EStart
| ETake (c : Code)
| EInvalidator.

Definition is_metadata_free (v : Invalidator) : bool :=
  match v with Clearing _ _ _ _ | Scanning _ _ | Asking _ _ _ _ _ => false | _ => true end.

Definition fire_runtime (i : RuntimeId) (w : SmcWorld) : option SmcWorld :=
  r ← w_runtimes w !! i;
  match rt_pc r with
  | Outside => Some (with_runtime i (set_pc Begin r) w)
  | Begin => Some (with_runtime i (set_pc (Loaded (w_global w)) (SynchronizeContinuation (w_global w) r)) w)
  | Loaded e => Some (with_runtime i (set_patch (Z.max (rt_patch r) (w_patch w)) (Synced e) r) w)
  | Synced e => Some (with_runtime i (set_active (Some e) (Announced e) r) w)
  | Announced e => Some (with_runtime i (set_pc (if w_global w =? e then InJit else Begin) r) w)
  | Found loc c => Some (with_runtime i (set_pc (Exec c) r) (with_slots (<[(L1 i, loc) := c]> (w_slots w)) w))
  | _ => None
  end.

Definition fire_translator (w : SmcWorld) : option SmcWorld :=
  match w_publisher w with
  | Some (c, Push s :: p) => Some (with_publisher (Some (c, p)) (with_slots (<[s := c]> (w_slots w)) w))
  | Some (c, Track :: p) =>
      if is_metadata_free (w_invalidator w) then Some (with_publisher (Some (c, p)) (with_tracked ({[c]} ∪ w_tracked w) w)) else None
  | Some (_, []) => Some (with_publisher None w)
  | None => None
  end.

Definition fire_publish (c : Code) (locs : list Z) (p : list PubAction) (w : SmcWorld) : option SmcWorld :=
  match w_publisher w, w_codes w !! c with
  | None, None => Some (with_publisher (Some (c, p)) (with_codes (<[c := mkCode locs Published]> (w_codes w)) w))
  | _, _ => None
  end.

Definition fire_invalidator (w : SmcWorld) : option SmcWorld :=
  match w_invalidator w with
  | Clearing batch cands c (s :: slots) => Some (with_invalidator (Clearing batch cands c slots) (with_slots (delete s (w_slots w)) w))
  | Clearing batch cands c [] => Some (with_invalidator (Collecting (c :: batch) cands) (with_tracked (w_tracked w ∖ {[c]}) w))
  | Collecting (c :: batch) cands => Some (with_invalidator (Detaching (c :: batch) cands) (with_patch (w_patch w + 1) w))
  | Detaching (c :: batch) cands =>
      match w_publisher w, w_codes w !! c with
      | None, Some x => Some
          (if decide (ci_state x = Published)
           then with_invalidator (Detaching batch (c :: cands)) (with_codes (<[c := set_code_state Unmapped x]> (w_codes w)) w)
           else with_invalidator (Detaching batch cands) w)
      | _, _ => None
      end
  | Detaching [] cands => Some (with_invalidator (Collecting [] cands) w)
  | Collecting [] (c :: cands) => Some (Retire (c :: cands) w)
  | Collecting [] [] => Some (with_invalidator (Scanning (w_retired w) []) w)
  | Retiring cands e => let l := w_retired w ++ map (fun c => (c, e)) cands in Some (with_invalidator (Scanning l []) (with_retired l w))
  | Scanning ((c, e) :: todo) ready => Some (with_invalidator (Asking c e (elements (dom (w_runtimes w))) todo ready) w)
  | Asking c e (i :: rts) todo ready =>
      r ← w_runtimes w !! i;
      Some (with_invalidator
        (match rt_active r with
         | Some a => if a <? e then Scanning todo ready else Asking c e rts todo ready
         | None => Asking c e rts todo ready
         end) w)
  | Asking c e [] todo ready =>
      Some (with_invalidator (Scanning todo (c :: ready)) (with_retired (filter (fun x => x <> (c, e)) (w_retired w)) w))
  | Scanning [] ready => Some (with_invalidator (Freeing ready) w)
  | Freeing (c :: ready) => x ← w_codes w !! c; Some (with_invalidator (Freeing ready) (with_codes (<[c := set_code_state Reclaimed x]> (w_codes w)) w))
  | Freeing [] => Some (with_invalidator Free w)
  | Free => None
  end.

Definition fire (ev : Event) (w : SmcWorld) : option SmcWorld :=
  match ev with
  | ERegister i =>
      if bool_decide (w_runtimes w !! i = None) && bool_decide (w_slots w = (∅ : gmap Slot Code)) && is_metadata_free (w_invalidator w)
      then Some (with_runtime i (mkRuntime None (w_patch w) (w_global w) ∅ Outside) w) else None
  | ERuntime i => fire_runtime i w
  | EEnter i loc =>
      r ← w_runtimes w !! i; c ← w_slots w !! (L2Code, loc);
      match rt_pc r with InJit => Some (with_runtime i (set_pc (Exec c) r) w) | _ => None end
  | EDispatch i t loc =>
      r ← w_runtimes w !! i; c ← w_slots w !! (t, loc);
      match rt_pc r with
      | Exec _ => if bool_decide (t = L1 i) || bool_decide (t = L2Call) || bool_decide (t = L2PendingCall)
                  then Some (with_runtime i (set_pc (Exec c) r) w) else None
      | _ => None
      end
  | EFind i loc =>
      r ← w_runtimes w !! i; c ← w_slots w !! (L2Code, loc);
      match rt_pc r with Exec _ => Some (with_runtime i (set_pc (Found loc c) r) w) | _ => None end
  | ELeave i =>
      r ← w_runtimes w !! i;
      match rt_pc r with InJit | Exec _ => Some (with_runtime i (set_active None Outside r) w) | _ => None end
  | EBlock c loc => fire_publish c [loc] (block_publication loc) w
  | EFunction c blocks => fire_publish c (map (fun b => fst (fst b)) blocks) (function_publication blocks) w
  | ETranslator => fire_translator w
  | EReclaim => match w_invalidator w with Free => Some (with_invalidator (Scanning (w_retired w) []) w) | _ => None end
  | EStart => match w_invalidator w with Free => Some (with_invalidator (Collecting [] []) w) | _ => None end
  | ETake c =>
      match w_invalidator w with
      | Collecting batch cands => if bool_decide (c ∈ w_tracked w) then Some (with_invalidator (Clearing batch cands c (dispatch_slots w c)) w) else None
      | _ => None
      end
  | EInvalidator => fire_invalidator w
  end.

Definition run (evs : list Event) (w : SmcWorld) : option SmcWorld := foldl (fun o ev => o ≫= fire ev) (Some w) evs.

(** ** Every schedule is a sequence of steps *)

Lemma is_metadata_free_spec v : is_metadata_free v = true -> metadata_free v.
Proof. by destruct v. Qed.

(** Takes the binds, matches and tests of an executable step apart. *)
Ltac fires :=
  repeat (simplify_option_eq; match goal with
    | H : match ?x with _ => _ end = Some _ |- _ => let E := fresh "E" in destruct x eqn:E; simplify_eq
    | H : (_ ≫= _) = Some _ |- _ => apply bind_Some in H as (? & ? & ?)
    | H : _ && _ = true |- _ => apply andb_true_iff in H as [? ?]
    | H : bool_decide _ = true |- _ => apply bool_decide_eq_true in H
    | H : is_metadata_free _ = true |- _ => apply is_metadata_free_spec in H
    end).

Lemma fire_runtime_sound i w w' : fire_runtime i w = Some w' -> runtime_step i w w'.
Proof.
  unfold fire_runtime. intros (r & Hi & H)%bind_Some. destruct (rt_pc r) eqn:E; simplify_eq.
  - by apply StepBegin.
  - by apply StepLoad.
  - by eapply StepSync.
  - by apply StepAnnounce.
  - by apply StepValidate.
  - by apply (StepFill i w r loc c false).
Qed.

Lemma fire_translator_sound w w' : fire_translator w = Some w' -> publisher_step w w'.
Proof.
  unfold fire_translator. intros H. destruct (w_publisher w) as [[c [|[s|] p]]|] eqn:E; simplify_eq.
  - by eapply StepPublished.
  - by apply StepPush.
  - destruct (is_metadata_free (w_invalidator w)) eqn:M; simplify_eq. apply StepTrack; [done|by apply is_metadata_free_spec].
Qed.

Lemma fire_publish_sound c locs p w w' :
  (exists loc, locs = [loc] /\ p = block_publication loc) \/ (exists bs, locs = map (fun b => fst (fst b)) bs /\ p = function_publication bs) ->
  fire_publish c locs p w = Some w' -> publisher_step w w'.
Proof.
  unfold fire_publish. intros Hp H. destruct (w_publisher w) eqn:E1; [done|]. destruct (w_codes w !! c) eqn:E2; [done|].
  injection H as <-. by apply StepPublish.
Qed.

Lemma fire_invalidator_sound w w' : fire_invalidator w = Some w' -> invalidator_step w w'.
Proof.
  unfold fire_invalidator. intros H. destruct (w_invalidator w) as
    [|[|c batch] [|c' cands]|batch cands c [|s slots]|[|c batch] cands|cands e|[|[c e] todo] ready|c e [|i rts] todo ready|[|c ready]] eqn:E; simplify_eq.
  - by apply StepNothing.
  - by apply StepRetire.
  - by apply (StepDelink w c batch [] true).
  - by apply (StepDelink w c batch (c' :: cands) true).
  - by apply StepTaken.
  - by apply StepClear.
  - by apply StepDetached.
  - destruct (w_publisher w) eqn:E1; [done|]. destruct (w_codes w !! c) eqn:E2; [|done]. injection H as <-. by eapply StepDetach.
  - by apply StepRetired.
  - by apply StepScanned.
  - by apply StepScan.
  - by apply StepReady.
  - apply bind_Some in H as (r & Hi & H). injection H as <-. by eapply StepAsk.
  - by apply StepFreed.
  - apply bind_Some in H as (x & Hx & H). injection H as <-. by eapply StepFree.
Qed.

Lemma fire_sound ev w w' : fire ev w = Some w' -> smc_step w w'.
Proof.
  destruct ev as [i|i|i loc|i t loc|i loc|i|c loc|c bs| | | |c|]; simpl; intros H.
  - fires. apply (InRuntime i), StepRegister; [done| |done]. intros loc. by rewrite H0.
  - by apply (InRuntime i), fire_runtime_sound.
  - fires. apply (InRuntime i). by eapply StepEnterTable.
  - fires; apply (InRuntime i); (eapply StepDispatch; [done|done| |eassumption]; auto).
  - fires. apply (InRuntime i). by eapply StepFind.
  - fires; apply (InRuntime i), StepLeave; eauto.
  - apply InPublisher. eapply fire_publish_sound; [|done]. eauto.
  - apply InPublisher. eapply fire_publish_sound; [|done]. eauto.
  - by apply InPublisher, fire_translator_sound.
  - fires. apply InInvalidator. by apply StepReclaim.
  - fires. apply InInvalidator. by apply StepStart.
  - fires. apply InInvalidator. by apply StepTake.
  - by apply InInvalidator, fire_invalidator_sound.
Qed.

Lemma run_none evs : foldl (fun o ev => o ≫= fire ev) None evs = None.
Proof. by induction evs. Qed.

Lemma run_sound evs w w' : run evs w = Some w' -> rtc smc_step w w'.
Proof.
  unfold run. revert w. induction evs as [|ev evs IH]; simpl; intros w H; [injection H as <-; apply rtc_refl|].
  destruct (fire ev w) as [v|] eqn:E; [|by rewrite run_none in H].
  eapply rtc_l; [by eapply fire_sound|by apply IH].
Qed.

(** ** The schedules *)

Definition unit1 : Code := 1%nat.
Definition unit2 : Code := 2%nat.
Definition loc1 : Z := 0x1000.
Definition loc2 : Z := 0x2000.

Definition enter (i : RuntimeId) : list Event := replicate 5 (ERuntime i).
Definition publish_block (c : Code) (loc : Z) : list Event := EBlock c loc :: replicate 3 ETranslator.
(** A unit with [n] slots is collected and its slots are cleared. *)
Definition take (c : Code) (n : nat) : list Event := [EStart; ETake c] ++ replicate (S n) EInvalidator.
(** It is detached and retired; [ReclaimRetiredLocked] finds the one runtime in the JIT, or not. *)
Definition retires : list Event := replicate 5 EInvalidator.
Definition keeps : list Event := replicate 4 EInvalidator.
Definition releases : list Event := replicate 6 EInvalidator.

Definition unit_state (w : SmcWorld) (c : Code) : option CodeState := ci_state <$> w_codes w !! c.
Definition runtime_at (w : SmcWorld) (i : RuntimeId) : option RuntimePc := rt_pc <$> w_runtimes w !! i.

(** A runtime executes a unit while it is retired. *)
Definition waits : list Event :=
  [ERegister 0] ++ publish_block unit1 loc1 ++ enter 0 ++ [EEnter 0 loc1] ++ take unit1 4 ++ retires ++ keeps.
(** The translator has registered the node and not yet stored its table entry when it is collected. *)
Definition before_push : list Event :=
  [ERegister 0; EBlock unit1 loc1; ETranslator] ++ take unit1 4.
Definition late_push : list Event :=
  [ETranslator; ETranslator] ++ retires ++ releases ++ enter 0 ++ [EEnter 0 loc1].
(** The dispatcher has loaded the entry and not yet stored it to the private table. *)
Definition before_fill : list Event :=
  [ERegister 0] ++ publish_block unit1 loc1 ++ publish_block unit2 loc2 ++ enter 0 ++ [EEnter 0 loc2; EFind 0 loc1] ++ take unit1 4.
Definition late_fill : list Event :=
  [ERuntime 0] ++ retires ++ keeps ++ [ELeave 0; EReclaim] ++ releases ++ enter 0 ++ [EEnter 0 loc2; EDispatch 0 (L1 0) loc1].

Definition after_run (evs : list Event) (w : SmcWorld) : SmcWorld := default w (run evs w).
Definition w_waits : SmcWorld := Eval vm_compute in after_run waits smc_new.
Definition w_released : SmcWorld := Eval vm_compute in after_run (ELeave 0 :: EReclaim :: releases ++ enter 0) w_waits.
Definition w_before_push : SmcWorld := Eval vm_compute in after_run before_push smc_new.
Definition w_late_push : SmcWorld := Eval vm_compute in after_run late_push w_before_push.
Definition w_before_fill : SmcWorld := Eval vm_compute in after_run before_fill smc_new.
Definition w_late_fill : SmcWorld := Eval vm_compute in after_run late_fill w_before_fill.

Ltac runs evs := apply (run_sound evs); vm_compute; reflexivity.

Lemma w_waits_reachable : reachable w_waits.
Proof. unfold reachable. runs waits. Qed.

Lemma w_released_reachable : reachable w_released.
Proof. unfold reachable. etrans; [apply w_waits_reachable|]. runs (ELeave 0 :: EReclaim :: releases ++ enter 0). Qed.

Definition runtime_of (w : SmcWorld) : Runtime := default (mkRuntime None 0 0 ∅ Outside) (w_runtimes w !! 0%nat).

Lemma qsbr_no_use_after_reclaim_witness :
  unit_state w_waits unit1 = Some Unmapped /\ executes (runtime_of w_waits) unit1 /\ ~ reclaimed w_waits unit1.
Proof.
  split; [by vm_compute|]. split; [by left|].
  apply (qsbr_no_use_after_reclaim w_waits 0%nat (runtime_of w_waits)); [apply w_waits_reachable|by vm_compute|by vm_compute|by left; left].
Defined.

Lemma patch_synced_witness :
  unit_state w_released unit1 = Some Reclaimed /\ w_patch_at w_released !! 2 = Some 2 /\ 2 <= rt_patch (runtime_of w_released).
Proof.
  split; [by vm_compute|]. split; [by vm_compute|].
  apply (patch_synced w_released 0%nat (runtime_of w_released) w_released_reachable) with (e := 2); [by vm_compute|done|by vm_compute|by vm_compute].
Defined.

Lemma reclaim_progress_witness :
  exists w', rtc invalidator_step (after_run [ELeave 0] w_waits) w' /\ reclaimed w' unit1.
Proof.
  destruct (reclaim_progress (after_run [ELeave 0] w_waits)) as (w' & Hs & _ & _ & Hr).
  - unfold reachable. etrans; [apply w_waits_reachable|]. runs [ELeave 0].
  - by vm_compute.
  - intros c e i r _ Hi.
    assert (E : w_runtimes (after_run [ELeave 0] w_waits) = {[0%nat := runtime_of (after_run [ELeave 0] w_waits)]}) by (by vm_compute).
    rewrite E in Hi. apply lookup_singleton_Some in Hi as [_ <-]. by vm_compute.
  - exists w'. split; [done|]. apply (Hr _ 2). vm_compute. left.
Defined.

(** (C14) The order of the block path breaks the promise that a later dispatch cannot enter a retired
    translation: the translator registers a block and stores its entry in the dispatch table afterwards.
    When an invalidation collects the node in between, every table is clean at that moment, no runtime is in the
    JIT, and the entry that is stored then stays: the block is detached, retired and released, and a
    runtime that enters afterwards executes the released memory. *)
Theorem late_push_runs_reclaimed_code :
  exists w w' r, reachable w /\ rtc smc_step w w' /\
    w_publisher w = Some (unit1, [Push (L2Code, loc1)]) /\ w_invalidator w = Collecting [unit1] [] /\ w_slots w = ∅ /\
    runtime_at w 0 = Some Outside /\
    w_invalidator w' = Free /\ w_retired w' = [] /\ w_runtimes w' !! 0%nat = Some r /\ executes r unit1 /\ reclaimed w' unit1.
Proof.
  exists w_before_push, w_late_push, (runtime_of w_late_push). split_and!; try by vm_compute.
  - unfold reachable. runs before_push.
  - runs late_push.
  - by left.
  - by eexists.
Qed.

(** The dispatcher loads an entry of the shared table and stores it to the private table of its
    runtime without a check in between. When an invalidation clears both tables between
    the two, the private entry comes back after it was cleared: the unit is retired, released once the
    runtime has left the JIT, and executed through that entry when the runtime returns. *)
Theorem late_fill_runs_reclaimed_code :
  exists w w' r, reachable w /\ rtc smc_step w w' /\
    w_publisher w = None /\ w_invalidator w = Collecting [unit1] [] /\ (forall s, w_slots w !! s <> Some unit1) /\
    runtime_at w 0 = Some (Found loc1 unit1) /\
    w_invalidator w' = Free /\ w_retired w' = [] /\ w_runtimes w' !! 0%nat = Some r /\ executes r unit1 /\ reclaimed w' unit1.
Proof.
  exists w_before_fill, w_late_fill, (runtime_of w_late_fill). split_and!; try by vm_compute.
  - unfold reachable. runs before_fill.
  - runs late_fill.
  - intros s Hs. assert (Hc : clean_slots [unit1] (w_slots w_before_fill) = true) by by vm_compute.
    apply (clean_slots_spec _ _ _ _ Hc Hs). left.
  - by left.
  - by eexists.
Qed.
