(* ===== verification/SmcPages.v ===== *)
(** * Self-modifying code: page records

    Model of the page records of [SmcTracker] (runtime/backend/smc_tracker.cpp): which host pages are
    write-protected, which translations cover them, and what a write fault, the end of a JIT run and
    an invalidation of a guest range do with them.

    [mprotect] is the system's; [mp host read_only] says whether a call succeeds, and a call that
    does changes the protection of the host page.  What happens to the code of a
    collected node (link manager, module, code cache) is the interface [CodeOps]; the tables
    are those of SmcEpoch.v. *)

From Stdlib Require Import ZArith Lia.
From stdpp Require Import numbers base gmap sets list relations sorting.
From S2P Require Import Prelude MachineInt SmcEpoch.

Local Open Scope Z_scope.

(** ** Data *)

(** An [ir::AddressNode]: the start location and, of a function, those of its blocks. *)
Record Node := mkNode { nd_id : nat; nd_locations : list Z }.

#[export] Instance Node_eq_dec : EqDecision Node.
Proof. solve_decision. Defined.

Record TrackedNode := mkTracked { tn_module : nat; tn_node : Node; tn_start : Z; tn_end : Z }.

#[export] Instance TrackedNode_eq_dec : EqDecision TrackedNode.
Proof. solve_decision. Defined.

Record PageRecord := mkPage { pr_write_protected : bool; pr_dirty : bool; pr_claim_stale_fault : bool; pr_nodes : list TrackedNode }.

Definition page_new : PageRecord := mkPage false false false [].
Definition set_nodes (l : list TrackedNode) (r : PageRecord) : PageRecord := mkPage (pr_write_protected r) (pr_dirty r) (pr_claim_stale_fault r) l.

Definition same_node (a b : TrackedNode) : bool := Nat.eqb (nd_id (tn_node a)) (nd_id (tn_node b)).

(** The fields set by the constructor. *)
Record SmcConfig := mkSmcConfig { sc_bias : Z; sc_mask : Z; sc_page_size : Z; sc_dirty_hint : bool; sc_exit_latch : bool }.

Definition UINT64_MAX : Z := 2 ^ 64 - 1.

Definition SmcConfig_new (guest_bias guest_addr_mask page_size : Z) (exit_latch dirty_hint : bool) : SmcConfig :=
  mkSmcConfig guest_bias (if guest_addr_mask =? 0 then UINT64_MAX else guest_addr_mask) page_size dirty_hint exit_latch.

(** The fields of [RuntimeEpoch] the records need: the runtime of the private table, [active_epoch]
    ([None] at kInactiveEpoch), and the counter behind [exit_request] if there is one. *)
Record SmcRuntime := mkSmcRuntime { sr_id : RuntimeId; sr_active : option Z; sr_exit_request : option Z }.

(** What the tracker asks of the link manager, the modules and the code caches:
    [LinkManager::SignalInvalidateTarget] (a target was found), the restored branches of [DelinkTargets]
    (one was patched), [Module::DetachNode] with [LinkManager::DetachSource], [LinkManager::PurgeSource]
    with [Module::ReclaimCode]; of [RetireNode] the code published for the node its module still
    has, and [LinkManager::QueryTargets]. *)
Class CodeOps (L : Type) := {
  signal_invalidate : Z -> L -> bool * L;
  delink_targets : list Node -> list Z -> L -> bool * L;
  detach_node : TrackedNode -> L -> option Code * L;
  release_code : Code -> L -> L;
  published_code : nat -> Node -> L -> option Code;
  query_targets : nat -> Code -> L -> list Z
}.

(** [tk_readonly]: the host pages that are write-protected.  [tk_enabled] is the process-wide switch. *)
Record Tracker (L : Type) := mkTracker {
  tk_pages : gmap Z PageRecord;
  tk_readonly : gset Z;
  tk_runtimes : list SmcRuntime;
  tk_retired : list (Code * Z);
  tk_global : Z;
  tk_patch : Z;
  tk_hint : bool;
  tk_enabled : bool;
  tk_locally_enabled : bool;
  tk_slots : gmap Slot Code;
  tk_code : L
}.
#[global] Arguments mkTracker {L}.
#[global] Arguments tk_pages {L}. #[global] Arguments tk_readonly {L}. #[global] Arguments tk_runtimes {L}.
#[global] Arguments tk_retired {L}. #[global] Arguments tk_global {L}. #[global] Arguments tk_patch {L}.
#[global] Arguments tk_hint {L}. #[global] Arguments tk_enabled {L}. #[global] Arguments tk_locally_enabled {L}.
#[global] Arguments tk_slots {L}. #[global] Arguments tk_code {L}.

Section SmcTracker.
Context {L : Type} `{CodeOps L} (cfg : SmcConfig).
Implicit Types t : Tracker L.

Definition tracker_new (l : L) : Tracker L := mkTracker ∅ ∅ [] [] 1 1 false true true ∅ l.

Definition put_pages (p : gmap Z PageRecord) t : Tracker L :=
  mkTracker p (tk_readonly t) (tk_runtimes t) (tk_retired t) (tk_global t) (tk_patch t) (tk_hint t) (tk_enabled t) (tk_locally_enabled t) (tk_slots t) (tk_code t).
Definition put_readonly (r : gset Z) t : Tracker L :=
  mkTracker (tk_pages t) r (tk_runtimes t) (tk_retired t) (tk_global t) (tk_patch t) (tk_hint t) (tk_enabled t) (tk_locally_enabled t) (tk_slots t) (tk_code t).
Definition put_runtimes (r : list SmcRuntime) t : Tracker L :=
  mkTracker (tk_pages t) (tk_readonly t) r (tk_retired t) (tk_global t) (tk_patch t) (tk_hint t) (tk_enabled t) (tk_locally_enabled t) (tk_slots t) (tk_code t).
Definition put_retired (r : list (Code * Z)) t : Tracker L :=
  mkTracker (tk_pages t) (tk_readonly t) (tk_runtimes t) r (tk_global t) (tk_patch t) (tk_hint t) (tk_enabled t) (tk_locally_enabled t) (tk_slots t) (tk_code t).
Definition put_global (g : Z) t : Tracker L :=
  mkTracker (tk_pages t) (tk_readonly t) (tk_runtimes t) (tk_retired t) g (tk_patch t) (tk_hint t) (tk_enabled t) (tk_locally_enabled t) (tk_slots t) (tk_code t).
Definition put_patch (p : Z) t : Tracker L :=
  mkTracker (tk_pages t) (tk_readonly t) (tk_runtimes t) (tk_retired t) (tk_global t) p (tk_hint t) (tk_enabled t) (tk_locally_enabled t) (tk_slots t) (tk_code t).
Definition put_hint (h : bool) t : Tracker L :=
  mkTracker (tk_pages t) (tk_readonly t) (tk_runtimes t) (tk_retired t) (tk_global t) (tk_patch t) h (tk_enabled t) (tk_locally_enabled t) (tk_slots t) (tk_code t).
Definition put_enabled (e : bool) t : Tracker L :=
  mkTracker (tk_pages t) (tk_readonly t) (tk_runtimes t) (tk_retired t) (tk_global t) (tk_patch t) (tk_hint t) e (tk_locally_enabled t) (tk_slots t) (tk_code t).
Definition put_locally_enabled (e : bool) t : Tracker L :=
  mkTracker (tk_pages t) (tk_readonly t) (tk_runtimes t) (tk_retired t) (tk_global t) (tk_patch t) (tk_hint t) (tk_enabled t) e (tk_slots t) (tk_code t).
Definition put_slots (s : gmap Slot Code) t : Tracker L :=
  mkTracker (tk_pages t) (tk_readonly t) (tk_runtimes t) (tk_retired t) (tk_global t) (tk_patch t) (tk_hint t) (tk_enabled t) (tk_locally_enabled t) s (tk_code t).
Definition put_links (l : L) t : Tracker L :=
  mkTracker (tk_pages t) (tk_readonly t) (tk_runtimes t) (tk_retired t) (tk_global t) (tk_patch t) (tk_hint t) (tk_enabled t) (tk_locally_enabled t) (tk_slots t) l.

(** ** Helpers *)

Definition PageKey (guest_addr : Z) : Z := Z.land guest_addr (not64 (sc_page_size cfg - 1)).

Definition MarkCloseWorkPending t : Tracker L := if sc_dirty_hint cfg then put_hint true t else t.

Definition AdvanceCodePatchEpoch t : Tracker L := put_patch (add64 (tk_patch t) 1) t.

Definition host_page (page : Z) : Z := add64 (Z.land page (sc_mask cfg)) (sc_bias cfg).

Section Protection.
Context (mp : Z -> bool -> bool).

Definition SetPageProtected (page : Z) (prot_read_only : bool) t : bool * Tracker L :=
  if mp (host_page page) prot_read_only
  then (true, put_readonly (if prot_read_only then {[host_page page]} ∪ tk_readonly t else tk_readonly t ∖ {[host_page page]}) t)
  else (false, t).

(** ** Registration *)

Definition same_range (a b : TrackedNode) : bool := same_node a b && (tn_start a =? tn_start b) && (tn_end a =? tn_end b).

Definition register_page (tracked : TrackedNode) (page : Z) t : Tracker L :=
  let rec_ := default page_new (tk_pages t !! page) in
  let t := put_pages (<[page := rec_]> (tk_pages t)) t in
  let t := if pr_dirty rec_ then MarkCloseWorkPending t else t in
  let duplicate := existsb (fun x => same_range x tracked) (pr_nodes rec_) in
  let rec_ := if duplicate then rec_ else set_nodes (pr_nodes rec_ ++ [tracked]) rec_ in
  if negb (pr_dirty rec_) && negb (pr_write_protected rec_)
  then let '(ok, t) := SetPageProtected page true t in
       put_pages (<[page := if ok : bool then mkPage true false false (pr_nodes rec_) else rec_]> (tk_pages t)) t
  else put_pages (<[page := rec_]> (tk_pages t)) t.

Fixpoint register_pages (fuel : nat) (tracked : TrackedNode) (page last : Z) t : option (Tracker L) :=
  match fuel with
  | O => None
  | S n => if page <=? last then
             let t := register_page tracked page t in
             if last - page <? sc_page_size cfg then Some t
             else register_pages n tracked (add64 page (sc_page_size cfg)) last t
           else Some t
  end.

(** The pages of a guest range, [None] when it leaves the window. *)
Definition window (guest_start guest_end : Z) : option (Z * Z) :=
  if sc_mask cfg =? UINT64_MAX then Some (guest_start, guest_end - 1)
  else let len := guest_end - guest_start in
       let lo := Z.land guest_start (sc_mask cfg) in
       if sc_mask cfg + 1 - lo <? len then None else Some (lo, lo + len - 1).

Definition walk_pages (first last : Z) : nat := S (Z.to_nat ((last - first) / sc_page_size cfg)).

Definition RegisterNode (module : nat) (node : Node) (guest_start guest_end : Z) t : option (Tracker L) :=
  if negb (tk_enabled t) then Some t else
  if negb (tk_locally_enabled t) then Some t else
  if (guest_end <=? guest_start) && (guest_start =? UINT64_MAX) then Some t else
  let guest_end := if guest_end <=? guest_start then guest_start + 1 else guest_end in
  match window guest_start guest_end with
  | None => Some t
  | Some (page_lo, page_hi) =>
      let first := PageKey page_lo in
      let last := PageKey page_hi in
      if last <? first then Some t
      else register_pages (walk_pages first last) (mkTracked module node guest_start guest_end) first last t
  end.

(** ** Clearing and collecting *)

Definition clear_location (extra_l1 : option RuntimeId) (location : Z) t : Tracker L :=
  let s := delete (L2Code, location) (tk_slots t) in
  let s := delete (L2Call, location) s in
  let s := delete (L2PendingCall, location) s in
  let s := match extra_l1 with Some i => delete (L1 i, location) s | None => s end in
  put_slots (foldl (fun s r => if decide (Some (sr_id r) = extra_l1) then s else delete (L1 (sr_id r), location) s) s (tk_runtimes t)) t.

(** Without the arming of the interrupt poll. *)
Definition PublishExitRequest t : Tracker L :=
  if negb (sc_exit_latch cfg) then t
  else put_runtimes (map (fun r => mkSmcRuntime (sr_id r) (sr_active r) ((fun n => add64 n 1) <$> sr_exit_request r)) (tk_runtimes t)) t.

Definition ClearDispatchSlots (extra_l1 : option RuntimeId) (tracked : TrackedNode) (aliases : list Z) t : Tracker L :=
  PublishExitRequest (foldl (fun t location => clear_location extra_l1 location t) t (nd_locations (tn_node tracked) ++ aliases)).

Definition collect_node (extra_l1 : option RuntimeId) (s : list TrackedNode * Tracker L) (tracked : TrackedNode) : list TrackedNode * Tracker L :=
  if existsb (fun other => same_node other tracked) (fst s) then s
  else (fst s ++ [tracked], ClearDispatchSlots extra_l1 tracked [] (snd s)).

Definition RemoveTrackedNode (node : Node) t : Tracker L :=
  put_pages ((fun r => set_nodes (filter (fun x => nd_id (tn_node x) <> nd_id node) (pr_nodes r)) r) <$> tk_pages t) t.

Definition remove_all (nodes : list TrackedNode) t : Tracker L := foldl (fun t x => RemoveTrackedNode (tn_node x) t) t nodes.

(** The keys of [pages_] in its order. *)
Definition page_keys t : list Z := merge_sort Z.le (elements (dom (tk_pages t))).

Definition TakeDirtyNodes (extra_l1 : option RuntimeId) t : list TrackedNode * Tracker L :=
  let '(nodes, t) := foldl (fun s page =>
      match tk_pages (snd s) !! page with
      | Some r => if pr_dirty r then foldl (collect_node extra_l1) s (pr_nodes r) else s
      | None => s
      end) ([], t) (page_keys t) in
  (nodes, remove_all nodes t).

(** ** Write faults *)

Definition signal_location (t : Tracker L) (target : Z) : Tracker L :=
  let '(found, l) := signal_invalidate target (tk_code t) in
  if found : bool then AdvanceCodePatchEpoch (put_links l t) else put_links l t.

Definition HandleWriteFault (current_l1 : RuntimeId) (fault_host_addr : Z) t : bool * Tracker L :=
  let page := PageKey (sub64 fault_host_addr (sc_bias cfg)) in
  match tk_pages t !! page with
  | None => (false, t)
  | Some r =>
      if pr_claim_stale_fault r && negb (pr_write_protected r) then (true, t) else
      if pr_dirty r && negb (pr_write_protected r) then (true, MarkCloseWorkPending t) else
      if negb (pr_write_protected r) then (false, t) else
      let t := MarkCloseWorkPending t in
      let t := foldl (fun t tracked => foldl signal_location t (nd_locations (tn_node tracked))) t (pr_nodes r) in
      let '(ok, t) := SetPageProtected page false t in
      if negb ok then (false, t) else
      let t := put_pages (<[page := mkPage false true (pr_claim_stale_fault r) (pr_nodes r)]> (tk_pages t)) t in
      (true, foldl (fun t tracked => ClearDispatchSlots (Some current_l1) tracked [] t) t (pr_nodes r))
  end.
End Protection.

(** ** Retirement *)

Definition DelinkTargets (nodes : list TrackedNode) (aliases : list Z) t : Tracker L :=
  let '(patched, l) := delink_targets (map tn_node nodes) aliases (tk_code t) in
  if patched : bool then AdvanceCodePatchEpoch (put_links l t) else put_links l t.

Definition detach_nodes (nodes : list TrackedNode) (s : list Code * Tracker L) : list Code * Tracker L :=
  foldl (fun s tracked =>
    let '(exec_ptr, l) := detach_node tracked (tk_code (snd s)) in
    (fst s ++ option_list exec_ptr, put_links l (snd s))) s nodes.

Definition Retire_candidates (candidates : list Code) t : Tracker L :=
  match candidates with
  | [] => t
  | _ => let t := MarkCloseWorkPending t in
         let retire_epoch := add64 (tk_global t) 1 in
         let t := put_global retire_epoch t in
         put_retired (tk_retired t ++ map (fun c => (c, retire_epoch)) candidates) t
  end.

Definition CanReclaim (retire_epoch : Z) t : bool :=
  forallb (fun r => match sr_active r with Some active => negb (active <? retire_epoch) | None => true end) (tk_runtimes t).

Definition any_dirty t : bool := existsb (fun e => pr_dirty (snd e)) (map_to_list (tk_pages t)).

Definition MaybeClearCloseWorkPending t : Tracker L :=
  if negb (sc_dirty_hint cfg) then t
  else if negb (bool_decide (tk_retired t = [])) then t
  else if any_dirty t then t else put_hint false t.

Definition ReclaimRetiredLocked t : Tracker L :=
  let ready := filter (fun e => CanReclaim (snd e) t = true) (tk_retired t) in
  let t := put_retired (filter (fun e => CanReclaim (snd e) t = false) (tk_retired t)) t in
  let t := foldl (fun t e => put_links (release_code (fst e) (tk_code t)) t) t ready in
  MaybeClearCloseWorkPending t.

(** ** Closing the write window *)

Definition tombstone (r : PageRecord) : PageRecord :=
  if pr_dirty r then mkPage (pr_write_protected r) false true (pr_nodes r) else r.

(** The part under [metadata_lock_]. *)
Definition close_section (current_l1 : RuntimeId) t : list TrackedNode * Tracker L :=
  let '(nodes, t) := TakeDirtyNodes (Some current_l1) t in
  match nodes with
  | [] => ([], put_pages (tombstone <$> tk_pages t) t)
  | _ => (nodes, t)
  end.

Definition detach_batch (nodes : list TrackedNode) (candidates : list Code) t : list Code * Tracker L :=
  detach_nodes nodes (candidates, DelinkTargets nodes [] t).

Fixpoint close_loop (fuel : nat) (current_l1 : RuntimeId) (candidates : list Code) t : option (list Code * Tracker L) :=
  match fuel with
  | O => None
  | S n => let '(nodes, t) := close_section current_l1 t in
           match nodes with
           | [] => Some (candidates, t)
           | _ => let '(candidates, t) := detach_batch nodes candidates t in close_loop n current_l1 candidates t
           end
  end.

Definition close_slow (fuel : nat) (current_l1 : RuntimeId) t : option (Tracker L) :=
  match close_loop fuel current_l1 [] t with
  | Some (candidates, t) => Some (ReclaimRetiredLocked (Retire_candidates candidates t))
  | None => None
  end.

Definition close_skipped t : bool := sc_dirty_hint cfg && negb (tk_hint t) && bool_decide (tk_retired t = []).

Definition CloseWriteWindow (fuel : nat) (current_l1 : RuntimeId) t : option (Tracker L) :=
  if close_skipped t then Some t else close_slow fuel current_l1 t.

(** ** Invalidation of a guest range *)

Fixpoint TakeRangeNodes (fuel : nat) (extra_l1 : option RuntimeId) (page last : Z) (s : list TrackedNode * Tracker L) : option (list TrackedNode * Tracker L) :=
  match fuel with
  | O => None
  | S n => if page <=? last then
             let s := match tk_pages (snd s) !! page with
                      | Some r => foldl (collect_node extra_l1) s (pr_nodes r)
                      | None => s
                      end in
             TakeRangeNodes n extra_l1 (add64 page (sc_page_size cfg)) last s
           else Some (fst s, remove_all (fst s) (snd s))
  end.

Definition erase_page (mp : Z -> bool -> bool) (page : Z) t : Tracker L :=
  match tk_pages t !! page with
  | Some r => let t := if pr_write_protected r then snd (SetPageProtected mp page false t) else t in
              put_pages (delete page (tk_pages t)) t
  | None => t
  end.

Fixpoint erase_pages (fuel : nat) (mp : Z -> bool -> bool) (page last : Z) t : option (Tracker L) :=
  match fuel with
  | O => None
  | S n => if page <=? last then erase_pages n mp (add64 page (sc_page_size cfg)) last (erase_page mp page t) else Some t
  end.

Definition range_section (walk : nat) (mp : Z -> bool -> bool) (extra_l1 : option RuntimeId) (first last : Z) t : option (list TrackedNode * Tracker L) :=
  match TakeRangeNodes walk extra_l1 first last ([], t) with
  | None => None
  | Some ([], t) => match erase_pages walk mp first last t with Some t => Some ([], t) | None => None end
  | Some (nodes, t) => Some (nodes, t)
  end.

Fixpoint range_loop (fuel walk : nat) (mp : Z -> bool -> bool) (current_l1 : option RuntimeId) (first last : Z) (candidates : list Code) t : option (list Code * Tracker L) :=
  match fuel with
  | O => None
  | S n => match range_section walk mp current_l1 first last t with
           | None => None
           | Some ([], t) => Some (candidates, t)
           | Some (nodes, t) => let '(candidates, t) := detach_batch nodes candidates t in
                                range_loop n walk mp current_l1 first last candidates t
           end
  end.

Definition InvalidateRange (fuel walk : nat) (mp : Z -> bool -> bool) (current_l1 : option RuntimeId) (guest_start guest_end : Z) t : option (Tracker L) :=
  if guest_end <=? guest_start then Some t else
  match window guest_start guest_end with
  | None => Some t
  | Some (lo, hi) =>
      match range_loop fuel walk mp current_l1 (PageKey lo) (PageKey hi) [] t with
      | Some (candidates, t) => Some (ReclaimRetiredLocked (Retire_candidates candidates t))
      | None => None
      end
  end.

(** ** One node, and everything *)

(** The part of [RetireNode] under [metadata_lock_]. *)
Definition node_section (current_l1 : option RuntimeId) (tracked : TrackedNode) (aliases : list Z) t : Tracker L :=
  RemoveTrackedNode (tn_node tracked) (ClearDispatchSlots current_l1 tracked aliases t).

(** [None] where the assertion fails. *)
Definition RetireNode (current_l1 : option RuntimeId) (module : nat) (node : Node) t : option (bool * Tracker L) :=
  match published_code module node (tk_code t) with
  | None => Some (false, t)
  | Some published =>
      let aliases := query_targets module published (tk_code t) in
      let start := default 0 (head (nd_locations node)) in
      let tracked := mkTracked module node start (start + 1) in
      let t := DelinkTargets [tracked] aliases (node_section current_l1 tracked aliases t) in
      let '(exec_ptr, l) := detach_node tracked (tk_code t) in
      if decide (exec_ptr = Some published)
      then Some (true, ReclaimRetiredLocked (Retire_candidates [published] (put_links l t)))
      else None
  end.

Definition unprotect (mp : Z -> bool -> bool) t (page : Z) : Tracker L :=
  match tk_pages t !! page with
  | Some r => if pr_write_protected r then snd (SetPageProtected mp page false t) else t
  | None => t
  end.

(** The part of [DisableAndUnprotectAll] under [metadata_lock_]. *)
Definition disable_section (mp : Z -> bool -> bool) t : Tracker L :=
  let t := put_locally_enabled false t in
  let t := put_runtimes (map (fun r => mkSmcRuntime (sr_id r) None (sr_exit_request r)) (tk_runtimes t)) t in
  let t := foldl (unprotect mp) t (page_keys t) in
  put_pages ∅ t.

Definition DisableAndUnprotectAll (mp : Z -> bool -> bool) t : Tracker L := ReclaimRetiredLocked (disable_section mp t).

Definition HasProtectedPages t : bool := existsb (fun e => pr_write_protected (snd e)) (map_to_list (tk_pages t)).
End SmcTracker.
