(* ===== verification/SmcPagesProps.v ===== *)
(** * Self-modifying code: what the page records guarantee

    The invariant of the records over all interleavings of the sections under [metadata_lock_]:
    the state machine of a page, the host protection that goes with it, the pages of every tracked
    range, the close-work hint.  Then the behaviour of the operations, among them the end of a
    write window, and the loop of an invalidation that does not end. *)

From Stdlib Require Import ZArith Lia.
From stdpp Require Import numbers base gmap sets list relations sorting.
From S2P Require Import Prelude MachineInt SmcEpoch SmcPages.

Local Open Scope Z_scope.

(** ** Page keys *)

Record config_ok (cfg : SmcConfig) (p k : Z) : Prop := {
  co_page : sc_page_size cfg = 2 ^ p;
  co_mask : sc_mask cfg = 2 ^ k - 1;
  co_bits : 0 <= p <= k /\ k <= 64
}.

Definition aligned (cfg : SmcConfig) (page : Z) : Prop := (sc_page_size cfg | page).

Section Keys.
Context (cfg : SmcConfig) (p k : Z) (Hcfg : config_ok cfg p k).

Lemma page_size_pos : 0 < sc_page_size cfg.
Proof. rewrite (co_page _ _ _ Hcfg). apply pow2_pos, Hcfg. Qed.

Lemma mask_bound : 0 <= sc_mask cfg < 2 ^ 64.
Proof.
  destruct (co_bits _ _ _ Hcfg). rewrite (co_mask _ _ _ Hcfg). pose proof (pow2_pos k ltac:(lia)).
  pose proof (Z.pow_le_mono_r 2 k 64). lia.
Qed.

Lemma PageKey_spec a : 0 <= a < 2 ^ 64 -> PageKey cfg a = a - a mod sc_page_size cfg.
Proof.
  intros Ha. destruct (co_bits _ _ _ Hcfg) as [[Hp _] _]. unfold PageKey, not64, wrap. rewrite (co_page _ _ _ Hcfg).
  rewrite <- (Z.land_ones _ 64) by lia. rewrite (Z.land_comm (Z.lnot _)), Z.land_assoc, Z.land_ones, Z.mod_small by lia.
  replace (2 ^ p - 1) with (Z.ones p) by (rewrite Z.ones_equiv; lia). rewrite <- Z.ldiff_land, Z.ldiff_ones_r, Z.shiftl_mul_pow2, Z.shiftr_div_pow2 by lia.
  pose proof (Z.div_mod a (2 ^ p)). pose proof (pow2_pos p). lia.
Qed.

Lemma PageKey_bounds a : 0 <= a < 2 ^ 64 -> 0 <= PageKey cfg a <= a /\ a < PageKey cfg a + sc_page_size cfg /\ aligned cfg (PageKey cfg a).
Proof.
  intros Ha. rewrite PageKey_spec by done. pose proof page_size_pos as Hs. pose proof (Z.mod_pos_bound a _ Hs).
  pose proof (Z.div_mod a (sc_page_size cfg)). pose proof (Z.div_pos a (sc_page_size cfg)).
  split; [|split; [lia|]].
  - split; [nia|lia].
  - exists (a / sc_page_size cfg). lia.
Qed.

Lemma aligned_key a : 0 <= a < 2 ^ 64 -> aligned cfg a -> PageKey cfg a = a.
Proof. intros Ha [q Hq]. rewrite PageKey_spec by done. subst a. rewrite Z.mod_mul; [lia|]. pose proof page_size_pos. lia. Qed.

Lemma aligned_lt a b : aligned cfg a -> aligned cfg b -> a < b -> a + sc_page_size cfg <= b.
Proof. intros [x ->] [y ->] Hlt. pose proof page_size_pos. assert (x < y) by nia. nia. Qed.

Lemma aligned_add a : aligned cfg a -> aligned cfg (a + sc_page_size cfg).
Proof. intros [x ->]. exists (x + 1). lia. Qed.

(** Distinct pages of the window are distinct host pages. *)
Lemma host_page_inj a b : 0 <= a <= sc_mask cfg -> 0 <= b <= sc_mask cfg -> host_page cfg a = host_page cfg b -> a = b.
Proof.
  intros Ha Hb He. pose proof mask_bound. destruct (co_bits _ _ _ Hcfg).
  assert (Hl : forall x, 0 <= x <= sc_mask cfg -> Z.land x (sc_mask cfg) = x).
  { intros x Hx. rewrite (co_mask _ _ _ Hcfg). replace (2 ^ k - 1) with (Z.ones k) by (rewrite Z.ones_equiv; lia).
    rewrite Z.land_ones, Z.mod_small; [done| |lia]. rewrite (co_mask _ _ _ Hcfg) in Hx. lia. }
  unfold host_page, add64, wrap in He. rewrite !Hl in He by done.
  assert (Hd : (a - b) mod 2 ^ 64 = 0).
  { replace (a - b) with ((a + sc_bias cfg) - (b + sc_bias cfg)) by lia. rewrite Zminus_mod, He, Z.sub_diag. done. }
  apply Z.mod_divide in Hd as [q Hq]; [|lia]. assert (q = 0) by nia. lia.
Qed.

(** The window of a range of guest addresses lies in the address space. *)
Lemma window_bounds s e lo hi : 0 <= s < 2 ^ 64 -> s < e <= 2 ^ 64 -> window cfg s e = Some (lo, hi) -> 0 <= lo <= hi /\ hi <= sc_mask cfg.
Proof.
  intros Hs He. pose proof mask_bound. destruct (co_bits _ _ _ Hcfg). unfold window. destruct (Z.eqb_spec (sc_mask cfg) UINT64_MAX) as [E|].
  - intros [= <- <-]. rewrite E. unfold UINT64_MAX. lia.
  - destruct (Z.ltb_spec (sc_mask cfg + 1 - Z.land s (sc_mask cfg)) (e - s)); [done|]. intros [= <- <-].
    rewrite (co_mask _ _ _ Hcfg). replace (2 ^ k - 1) with (Z.ones k) by (rewrite Z.ones_equiv; lia).
    assert (Hl : Z.land s (sc_mask cfg) = s mod 2 ^ k).
    { rewrite (co_mask _ _ _ Hcfg). replace (2 ^ k - 1) with (Z.ones k) by (rewrite Z.ones_equiv; lia). apply Z.land_ones. lia. }
    rewrite Hl in *. rewrite Z.land_ones by lia. pose proof (Z.mod_pos_bound s (2 ^ k) (pow2_pos k ltac:(lia))).
    rewrite (co_mask _ _ _ Hcfg) in *. rewrite Z.ones_equiv. lia.
Qed.
End Keys.

(** ** The invariant *)

Section Invariant.
Context (cfg : SmcConfig) (p k : Z) (Hcfg : config_ok cfg p k) (reliable : bool).

(** A node with a guest range is recorded at a page. *)
Definition tracks (P : gmap Z PageRecord) (page : Z) (id : nat) (s e : Z) : Prop :=
  exists r x, P !! page = Some r /\ x ∈ pr_nodes r /\ nd_id (tn_node x) = id /\ tn_start x = s /\ tn_end x = e.

(** The page overlaps the range. *)
Definition covers (page s e : Z) : Prop :=
  exists lo hi, window cfg s e = Some (lo, hi) /\ aligned cfg page /\ PageKey cfg lo <= page <= PageKey cfg hi.

Definition range_ok (s e : Z) : Prop := 0 <= s < 2 ^ 64 /\ s < e <= 2 ^ 64.

(** Fresh or unprotected, write-protected, open, or closed with a tombstone. *)
Definition state_ok (r : PageRecord) : Prop :=
  (pr_write_protected r = true -> pr_dirty r = false /\ pr_claim_stale_fault r = false) /\ (pr_dirty r = true -> pr_claim_stale_fault r = false).

Definition guarded (r : PageRecord) : Prop := pr_nodes r <> [] -> pr_write_protected r = true \/ pr_dirty r = true.

(** [reliable]: no [mprotect] has failed. *)
Record base_ok (P : gmap Z PageRecord) (R : gset Z) (retired : list (Code * Z)) (h : bool) : Prop := {
  po_key : forall page r, P !! page = Some r -> aligned cfg page /\ 0 <= page <= sc_mask cfg;
  po_state : forall page r, P !! page = Some r -> state_ok r;
  po_protected : forall page r, P !! page = Some r -> pr_write_protected r = true -> host_page cfg page ∈ R;
  po_readonly : reliable = true -> forall a, a ∈ R -> exists page r, P !! page = Some r /\ pr_write_protected r = true /\ a = host_page cfg page;
  po_guarded : reliable = true -> forall page r, P !! page = Some r -> guarded r;
  po_hint : sc_dirty_hint cfg = true -> (exists page r, P !! page = Some r /\ pr_dirty r = true) \/ retired <> [] -> h = true;
  po_range : forall page id s e, tracks P page id s e -> covers page s e /\ range_ok s e
}.

(** The node is recorded at every page of its range. *)
Definition cover_ok (P : gmap Z PageRecord) : Prop :=
  forall page id s e, tracks P page id s e -> forall page', covers page' s e -> tracks P page' id s e.

Lemma tracks_insert P page r page' id s e :
  tracks (<[page := r]> P) page' id s e <->
  (page' = page /\ exists x, x ∈ pr_nodes r /\ nd_id (tn_node x) = id /\ tn_start x = s /\ tn_end x = e) \/ (page' <> page /\ tracks P page' id s e).
Proof.
  unfold tracks. split.
  - intros (y & x & Hy & Hx). apply lookup_insert_Some in Hy as [[<- <-]|[Hne Hy]]; [left; eauto|right; split; [done|eauto]].
  - intros [[-> (x & Hx)]|[Hne (y & x & Hy & Hx)]]; [exists r, x; by rewrite lookup_insert_eq|exists y, x; by rewrite lookup_insert_ne].
Qed.

Lemma base_ok_insert P R retired h page r R' h' :
  base_ok P R retired h -> aligned cfg page -> 0 <= page <= sc_mask cfg -> state_ok r ->
  (pr_write_protected r = true -> host_page cfg page ∈ R') ->
  (forall a, a <> host_page cfg page -> a ∈ R' <-> a ∈ R) ->
  (reliable = true -> host_page cfg page ∈ R' -> pr_write_protected r = true) ->
  (reliable = true -> guarded r) ->
  (sc_dirty_hint cfg = true -> (h = true -> h' = true) /\ (pr_dirty r = true -> h' = true)) ->
  (forall x, x ∈ pr_nodes r -> covers page (tn_start x) (tn_end x) /\ range_ok (tn_start x) (tn_end x)) ->
  base_ok (<[page := r]> P) R' retired h'.
Proof.
  intros [H1 H2 H3 H4 H5 H6 H7] Ha Hb Hs Hp Hr Hrel Hg Hh Hn. split.
  - intros page' r' [[<- <-]|[_ H]]%lookup_insert_Some; [done|by eapply H1].
  - intros page' r' [[<- <-]|[_ H]]%lookup_insert_Some; [done|by eapply H2].
  - intros page' r' [[<- <-]|[Hne H]]%lookup_insert_Some Hw; [auto|]. apply Hr; [|by eapply H3].
    intros He. apply Hne. symmetry. eapply (host_page_inj cfg p k); [done|by eapply H1|done|done].
  - intros Hc a Hin. destruct (decide (a = host_page cfg page)) as [->|Hne].
    + exists page, r. rewrite lookup_insert_eq. auto.
    + apply Hr in Hin; [|done]. destruct (H4 Hc a Hin) as (page' & r' & Hl & Hw & ->). exists page', r'.
      rewrite lookup_insert_ne; [done|]. congruence.
  - intros Hc page' r' [[<- <-]|[_ H]]%lookup_insert_Some; [auto|by eapply (H5 Hc)].
  - intros Hc [(page' & r' & [[<- <-]|[_ H]]%lookup_insert_Some & Hd)|Hret]; destruct (Hh Hc) as [Hh1 Hh2]; [auto| |]; apply Hh1, H6; eauto.
  - intros page' id s e [[-> (x & Hx & <- & <- & <-)]|[_ Ht]]%tracks_insert; [by apply Hn|by eapply H7].
Qed.

Lemma base_ok_delete P R retired h page R' :
  base_ok P R retired h -> 0 <= page <= sc_mask cfg ->
  (forall a, a <> host_page cfg page -> a ∈ R' <-> a ∈ R) -> (reliable = true -> host_page cfg page ∉ R') ->
  base_ok (delete page P) R' retired h.
Proof.
  intros [H1 H2 H3 H4 H5 H6 H7] Hb Hr Hrel. split.
  - intros page' r' [_ H]%lookup_delete_Some. by eapply H1.
  - intros page' r' [_ H]%lookup_delete_Some. by eapply H2.
  - intros page' r' [Hne H]%lookup_delete_Some Hw. apply Hr; [|by eapply H3].
    intros He. apply Hne. symmetry. eapply (host_page_inj cfg p k); [done|by eapply H1|done|done].
  - intros Hc a Hin. destruct (decide (a = host_page cfg page)) as [->|Hne]; [by destruct (Hrel Hc)|].
    apply Hr in Hin; [|done]. destruct (H4 Hc a Hin) as (page' & r' & Hl & Hw & ->). exists page', r'.
    rewrite lookup_delete_ne; [done|]. congruence.
  - intros Hc page' r' [_ H]%lookup_delete_Some. by eapply (H5 Hc).
  - intros Hc [(page' & r' & [_ H]%lookup_delete_Some & Hd)|Hret]; apply H6; eauto.
  - intros page' id s e (r & x & [_ Hl]%lookup_delete_Some & Hx). apply (H7 page' id s e). by exists r, x.
Qed.

(** Every record changes, none more protected or dirty than it was. *)
Lemma base_ok_fmap P R retired h (f : PageRecord -> PageRecord) :
  base_ok P R retired h ->
  (forall page r, P !! page = Some r -> pr_write_protected (f r) = pr_write_protected r /\ state_ok (f r) /\
    (pr_dirty (f r) = true -> pr_dirty r = true) /\ pr_nodes (f r) ⊆ pr_nodes r /\ (reliable = true -> guarded (f r))) ->
  base_ok (f <$> P) R retired h.
Proof.
  intros [H1 H2 H3 H4 H5 H6 H7] Hf. split.
  - intros page r Hl. apply lookup_fmap_Some in Hl as (r0 & <- & Hl). by eapply H1.
  - intros page r Hl. apply lookup_fmap_Some in Hl as (r0 & <- & Hl). by apply (Hf page).
  - intros page r Hl Hw. apply lookup_fmap_Some in Hl as (r0 & <- & Hl). destruct (Hf page r0 Hl) as [E _]. apply (H3 page r0 Hl). congruence.
  - intros Hc a Hin. destruct (H4 Hc a Hin) as (page & r & Hl & Hw & ->). exists page, (f r). rewrite lookup_fmap, Hl.
    destruct (Hf page r Hl) as [E _]. split; [done|]. split; [congruence|done].
  - intros Hc page r Hl. apply lookup_fmap_Some in Hl as (r0 & <- & Hl). by apply (Hf page).
  - intros Hc [(page & r & Hl & Hd)|Hret]; [|apply H6; auto]. apply lookup_fmap_Some in Hl as (r0 & <- & Hl).
    apply H6; [done|]. left. exists page, r0. split; [done|]. by apply (Hf page r0 Hl).
  - intros page id s e (r & x & Hl & Hx & Hi). apply lookup_fmap_Some in Hl as (r0 & <- & Hl).
    apply (H7 page id s e). exists r0, x. split; [done|]. split; [by apply (Hf page r0 Hl)|done].
Qed.
End Invariant.

(** ** Registration *)

Section Operations.
Context {L : Type} `{CodeOps L} (cfg : SmcConfig) (p k : Z) (Hcfg : config_ok cfg p k) (reliable : bool).
Implicit Types t : Tracker L.

Definition tracker_base t : Prop := base_ok cfg reliable (tk_pages t) (tk_readonly t) (tk_retired t) (tk_hint t).
Definition tracker_ok t : Prop := tracker_base t /\ cover_ok cfg (tk_pages t).

(** What the invariant is about. *)
Definition core t : gmap Z PageRecord * gset Z * list (Code * Z) * bool := (tk_pages t, tk_readonly t, tk_retired t, tk_hint t).

Lemma core_ok t t' : core t' = core t -> tracker_ok t -> tracker_ok t'.
Proof. unfold core, tracker_ok, tracker_base. by intros [= -> -> -> ->]. Qed.

Lemma foldl_core {A} (f : Tracker L -> A -> Tracker L) l t : (forall t x, core (f t x) = core t) -> core (foldl f t l) = core t.
Proof. intros Hf. revert t. induction l as [|x l IH]; intros t; simpl; [done|]. by rewrite IH. Qed.

Lemma tracker_new_ok l : tracker_ok (tracker_new l).
Proof.
  assert (Ht : forall page id s e, ~ tracks ∅ page id s e) by (intros page id s e (r & x & Hl & _); by rewrite lookup_empty in Hl).
  assert (He : forall page r, (∅ : gmap Z PageRecord) !! page = Some r -> False) by (intros page r Hl; by rewrite lookup_empty in Hl).
  split; [split|]; simpl.
  1-3: by intros page r Hl%He.
  - intros _ a Ha. set_solver.
  - by intros _ page r Hl%He.
  - by intros _ [(page & r & Hl%He & _)|].
  - by intros page id s e Hl%Ht.
  - by intros page id s e Hl%Ht.
Qed.

Lemma mark_pending_ok t : tracker_ok t -> tracker_ok (MarkCloseWorkPending cfg t).
Proof. unfold MarkCloseWorkPending. destruct (sc_dirty_hint cfg) eqn:E; [|done]. intros [[H1 H2 H3 H4 H5 H6 H7] Hc]. split; [by split|done]. Qed.

Definition registered mp (tracked : TrackedNode) (page : Z) (r : PageRecord) : PageRecord :=
  let nodes := if existsb (fun x => same_range x tracked) (pr_nodes r) then pr_nodes r else pr_nodes r ++ [tracked] in
  if negb (pr_dirty r) && negb (pr_write_protected r) && mp (host_page cfg page) true then mkPage true false false nodes
  else mkPage (pr_write_protected r) (pr_dirty r) (pr_claim_stale_fault r) nodes.

Lemma register_page_core mp tracked page t :
  let r := default page_new (tk_pages t !! page) in
  tk_pages (register_page cfg mp tracked page t) = <[page := registered mp tracked page r]> (tk_pages t) /\
  tk_readonly (register_page cfg mp tracked page t) =
    (if negb (pr_dirty r) && negb (pr_write_protected r) && mp (host_page cfg page) true then {[host_page cfg page]} ∪ tk_readonly t else tk_readonly t) /\
  tk_retired (register_page cfg mp tracked page t) = tk_retired t /\
  tk_hint (register_page cfg mp tracked page t) = (if pr_dirty r && sc_dirty_hint cfg then true else tk_hint t).
Proof.
  intros r. unfold register_page, registered. fold r. destruct r as [wp d c nodes]. unfold MarkCloseWorkPending, SetPageProtected. simpl.
  destruct (existsb _ nodes), d, wp, (sc_dirty_hint cfg), (mp (host_page cfg page) true); simpl; split_and!; try done.
  all: by rewrite insert_insert_eq.
Qed.

Lemma registered_nodes mp tracked page r x :
  x ∈ pr_nodes (registered mp tracked page r) <-> x ∈ pr_nodes r \/ (x = tracked /\ existsb (fun x => same_range x tracked) (pr_nodes r) = false).
Proof.
  unfold registered. destruct (existsb _ _) eqn:E, (_ && _); simpl; rewrite ?elem_of_app, ?list_elem_of_singleton; naive_solver.
Qed.

Lemma same_range_spec a b : same_range a b = true <-> nd_id (tn_node a) = nd_id (tn_node b) /\ tn_start a = tn_start b /\ tn_end a = tn_end b.
Proof. unfold same_range, same_node. rewrite !andb_true_iff, Nat.eqb_eq, !Z.eqb_eq. tauto. Qed.

(** A page registers the node and forgets none. *)
Lemma register_page_tracks mp tracked page t page' id s e :
  tracks (tk_pages (register_page cfg mp tracked page t)) page' id s e <->
  tracks (tk_pages t) page' id s e \/ (page' = page /\ id = nd_id (tn_node tracked) /\ s = tn_start tracked /\ e = tn_end tracked).
Proof.
  destruct (register_page_core mp tracked page t) as (-> & _). set (r := default page_new (tk_pages t !! page)).
  assert (Hr : tracks (tk_pages t) page id s e <-> exists x, x ∈ pr_nodes r /\ nd_id (tn_node x) = id /\ tn_start x = s /\ tn_end x = e).
  { unfold tracks, r. destruct (tk_pages t !! page) as [r0|]; simpl; [naive_solver|]. split; [by intros (? & ? & ? & _)|by intros (x & []%not_elem_of_nil & _)]. }
  rewrite tracks_insert. split.
  - intros [[-> (x & [Hx|[-> _]]%registered_nodes & <- & <- & <-)]|[_ Ht]]; [|by right|by left].
    left. apply Hr. eauto.
  - intros [Ht|(-> & -> & -> & ->)]; [destruct (decide (page' = page)) as [->|]; [left|by right]|left]; (split; [done|]).
    + apply Hr in Ht as (x & Hx & Hi). exists x. split; [|done]. apply registered_nodes. by left.
    + destruct (existsb (fun x => same_range x tracked) (pr_nodes r)) eqn:E.
      * apply existsb_exists in E as (x & Hx & Hs%same_range_spec). apply list_elem_of_In in Hx. exists x. split; [|done]. apply registered_nodes. by left.
      * exists tracked. split; [|done]. apply registered_nodes. by right.
Qed.

Lemma register_page_base mp tracked page t :
  (reliable = true -> forall a ro, mp a ro = true) -> tracker_base t -> 0 <= page <= sc_mask cfg ->
  covers cfg page (tn_start tracked) (tn_end tracked) -> range_ok (tn_start tracked) (tn_end tracked) ->
  tracker_base (register_page cfg mp tracked page t).
Proof.
  intros Hmp Hok Hb Hcov Hrange. unfold tracker_base. destruct (register_page_core mp tracked page t) as (-> & -> & -> & ->).
  set (r := default page_new (tk_pages t !! page)).
  assert (Hr : tk_pages t !! page = Some r \/ (tk_pages t !! page = None /\ r = page_new)).
  { unfold r. by destruct (tk_pages t !! page); [left|right]. }
  assert (Hst : state_ok r) by (destruct Hr as [Hr|[_ ->]]; [by eapply Hok|done]).
  assert (Hnone : r = page_new -> tk_pages t !! page = None -> reliable = true -> host_page cfg page ∉ tk_readonly t).
  { intros _ Hn Hc Hin. destruct (po_readonly _ _ _ _ _ _ Hok Hc _ Hin) as (page' & r' & Hl & _ & He).
    apply (host_page_inj cfg p k) in He; [|done|done|by eapply Hok]. congruence. }
  assert (Hro : pr_write_protected r = true -> host_page cfg page ∈ tk_readonly t) by (intros Hw; destruct Hr as [Hr|[_ E]]; [by eapply Hok|by rewrite E in Hw]).
  apply (base_ok_insert cfg p k Hcfg reliable _ (tk_readonly t) _ (tk_hint t)).
  - done.
  - by destruct Hcov as (? & ? & _ & ? & _).
  - done.
  - unfold registered. destruct Hst as [H1 H2]. by destruct (_ && _ && _); split; simpl; auto.
  - unfold registered. destruct (negb (pr_dirty r) && _ && _) eqn:E; simpl; [set_solver|auto].
  - intros a Ha. destruct (_ && _ && _); set_solver.
  - unfold registered. intros Hc. destruct (negb (pr_dirty r) && _ && _) eqn:E; simpl; [done|]. intros Hin.
    destruct (po_readonly _ _ _ _ _ _ Hok Hc _ Hin) as (page' & r' & Hl & Hw & He).
    apply (host_page_inj cfg p k) in He; [|done|done|by eapply Hok]. subst page'. destruct Hr as [Hr|[Hr _]]; congruence.
  - unfold registered, guarded. intros Hc. rewrite (Hmp Hc), andb_true_r. destruct (pr_dirty r), (pr_write_protected r); simpl; auto.
  - intros Hd. rewrite Hd. unfold registered. by destruct (pr_dirty r), (pr_write_protected r), (mp (host_page cfg page) true).
  - intros x [Hx|[-> _]]%registered_nodes; [|done]. destruct Hr as [Hr|[_ E]]; [|rewrite E in Hx; by apply not_elem_of_nil in Hx].
    apply (po_range _ _ _ _ _ _ Hok page (nd_id (tn_node x))). by exists r, x.
Qed.

Lemma register_pages_spec mp tracked last fuel : forall page t,
  (reliable = true -> forall a ro, mp a ro = true) -> tracker_base t -> aligned cfg page -> aligned cfg last -> 0 <= page <= last -> last <= sc_mask cfg ->
  (forall page', aligned cfg page' -> page <= page' <= last -> covers cfg page' (tn_start tracked) (tn_end tracked)) -> range_ok (tn_start tracked) (tn_end tracked) ->
  (Z.to_nat ((last - page) / sc_page_size cfg) < fuel)%nat ->
  exists t', register_pages cfg mp fuel tracked page last t = Some t' /\ tracker_base t' /\
    forall page' id s e, tracks (tk_pages t') page' id s e <-> tracks (tk_pages t) page' id s e \/
      ((aligned cfg page' /\ page <= page' <= last) /\ id = nd_id (tn_node tracked) /\ s = tn_start tracked /\ e = tn_end tracked).
Proof.
  induction fuel as [|n IH]; intros page t Hmp Hok Ha Hl Hb Hm Hcov Hr Hf; [lia|]. simpl. pose proof (page_size_pos _ _ _ Hcfg) as Hps.
  pose proof (mask_bound _ _ _ Hcfg). destruct (Z.leb_spec page last) as [_|]; [|lia].
  set (t1 := register_page cfg mp tracked page t).
  assert (Hok1 : tracker_base t1) by (apply register_page_base; [done|done|lia|by apply Hcov; [|lia]|done]).
  destruct (Z.ltb_spec (last - page) (sc_page_size cfg)) as [Hlast|Hlast].
  - assert (E : page = last).
    { destruct (decide (page < last)) as [Hlt|]; [|lia]. pose proof (aligned_lt cfg p k Hcfg _ _ Ha Hl Hlt). lia. }
    exists t1. split_and!; [done|done|]. intros page' id s e. unfold t1. rewrite register_page_tracks. subst last.
    assert (page' = page <-> aligned cfg page' /\ page <= page' <= page) by (split; [intros ->; split; [done|lia]|lia]). tauto.
  - assert (Hadd : add64 page (sc_page_size cfg) = page + sc_page_size cfg) by (apply wrap_small; lia).
    rewrite Hadd. destruct (IH (page + sc_page_size cfg) t1) as (t' & E & Hok' & Ht); try done; try lia.
    + by apply aligned_add.
    + intros page' Ha' Hb'. apply Hcov; [done|lia].
    + replace (last - (page + sc_page_size cfg)) with (last - page + -1 * sc_page_size cfg) by lia. rewrite Z.div_add by lia.
      assert (1 <= (last - page) / sc_page_size cfg) by (apply Z.div_le_lower_bound; lia). lia.
    + exists t'. split_and!; [done|done|]. intros page' id s e. rewrite Ht. unfold t1. rewrite register_page_tracks.
      assert (page' = page \/ (aligned cfg page' /\ page + sc_page_size cfg <= page' <= last) <-> aligned cfg page' /\ page <= page' <= last).
      { split; [intros [->|[? ?]]; (split; [done|lia])|]. intros [Ha' Hb']. destruct (decide (page' = page)) as [|Hne]; [by left|right].
        pose proof (aligned_lt cfg p k Hcfg page page' Ha Ha' ltac:(lia)). split; [done|lia]. }
      tauto.
Qed.

(** The range a registration records. *)
Definition registered_end (s e : Z) : Z := if e <=? s then s + 1 else e.

Lemma RegisterNode_run mp module node s e t :
  (reliable = true -> forall a ro, mp a ro = true) -> tracker_ok t -> 0 <= s < 2 ^ 64 -> 0 <= e < 2 ^ 64 ->
  exists t', RegisterNode cfg mp module node s e t = Some t' /\ tracker_ok t' /\
    (tk_enabled t = true -> tk_locally_enabled t = true -> s <> UINT64_MAX ->
     forall page, covers cfg page s (registered_end s e) -> tracks (tk_pages t') page (nd_id node) s (registered_end s e)) /\
    (forall page id a b, tracks (tk_pages t) page id a b -> tracks (tk_pages t') page id a b).
Proof.
  intros Hmp [Hok Hc] Hs He. unfold RegisterNode. destruct (tk_enabled t); simpl; [|by exists t].
  destruct (tk_locally_enabled t); simpl; [|by exists t]. fold (registered_end s e). set (e' := registered_end s e).
  destruct ((e <=? s) && (s =? UINT64_MAX)) eqn:Emax.
  { apply andb_true_iff in Emax as [_ ->%Z.eqb_eq]. by exists t. }
  assert (Hr : range_ok s e').
  { unfold range_ok, e', registered_end, UINT64_MAX in *. destruct (Z.leb_spec e s); simpl in Emax; [apply Z.eqb_neq in Emax; lia|lia]. }
  destruct (window cfg s e') as [[lo hi]|] eqn:Ew.
  2:{ exists t. split_and!; [done|done| |done]. intros _ _ _ page (lo & hi & E & _). congruence. }
  destruct (window_bounds cfg p k Hcfg s e' lo hi Hs ltac:(apply Hr) Ew) as [Hb Hm]. pose proof (mask_bound _ _ _ Hcfg).
  destruct (PageKey_bounds cfg p k Hcfg lo ltac:(lia)) as (L1 & L2 & L3). destruct (PageKey_bounds cfg p k Hcfg hi ltac:(lia)) as (G1 & G2 & G3).
  assert (Hle : PageKey cfg lo <= PageKey cfg hi).
  { destruct (decide (PageKey cfg hi < PageKey cfg lo)) as [Hlt|]; [|lia]. pose proof (aligned_lt cfg p k Hcfg _ _ G3 L3 Hlt). lia. }
  destruct (Z.ltb_spec (PageKey cfg hi) (PageKey cfg lo)); [lia|].
  assert (Hcv : forall page, covers cfg page s e' <-> aligned cfg page /\ PageKey cfg lo <= page <= PageKey cfg hi).
  { intros page. unfold covers. split; [intros (lo' & hi' & E & H'); rewrite Ew in E; by injection E as <- <-|]. intros H'. by exists lo, hi. }
  destruct (register_pages_spec mp (mkTracked module node s e') (PageKey cfg hi) (walk_pages cfg (PageKey cfg lo) (PageKey cfg hi)) (PageKey cfg lo) t)
    as (t' & E & Hok' & Ht); try done; [lia|lia|by intros page Ha Hb'; apply Hcv|unfold walk_pages; lia|].
  exists t'. split_and!; [done| | |].
  - split; [done|]. intros page id a b [Hold|(Hin & -> & -> & ->)]%Ht page' Hcov; apply Ht; [left; by eapply Hc|].
    right. simpl in *. apply Hcv in Hcov. done.
  - intros _ _ _ page Hcov. apply Ht. right. apply Hcv in Hcov. done.
  - intros page id a b Hold. apply Ht. by left.
Qed.


(** ** Clearing, collecting and removing nodes *)

Lemma ClearDispatchSlots_core extra tracked aliases t : core (ClearDispatchSlots cfg extra tracked aliases t) = core t.
Proof. unfold ClearDispatchSlots, PublishExitRequest. destruct (negb (sc_exit_latch cfg)); unfold core; simpl; by apply (foldl_core (fun t loc => clear_location extra loc t)). Qed.

Definition ids (l : list TrackedNode) : list nat := map (fun x => nd_id (tn_node x)) l.

Lemma elem_of_ids l x : x ∈ l -> nd_id (tn_node x) ∈ ids l.
Proof. intros Hx. apply list_elem_of_fmap. eauto. Qed.

(** A collection has found the nodes [F], each once. *)
Definition collected (s s' : list TrackedNode * Tracker L) (F : TrackedNode -> Prop) : Prop :=
  core (snd s') = core (snd s) /\ (NoDup (ids (fst s)) -> NoDup (ids (fst s'))) /\
  (forall x, x ∈ fst s \/ F x -> nd_id (tn_node x) ∈ ids (fst s')) /\ (forall x, x ∈ fst s' -> x ∈ fst s \/ F x).

Lemma collected_refl s : collected s s (fun _ => False).
Proof. split_and!; [done|done| |auto]. intros x [Hx|[]]. by apply elem_of_ids. Qed.

Lemma collected_weaken s s' (F G : TrackedNode -> Prop) : (forall x, F x <-> G x) -> collected s s' F -> collected s s' G.
Proof. intros Hfg (H1 & H2 & H3 & H4). split_and!; [done|done| |]; [intros x [Hx|Hx]; apply H3; [by left|right; by apply Hfg]|intros x [|Hx]%H4; [by left|right; by apply Hfg]]. Qed.

Lemma collected_trans a b c F G : collected a b F -> collected b c G -> collected a c (fun x => F x \/ G x).
Proof.
  intros (A1 & A2 & A3 & A4) (B1 & B2 & B3 & B4). split_and!; [congruence|auto| |].
  - intros x [Hx|[Hx|Hx]]; [| |apply B3; by right].
    all: assert (Hin : nd_id (tn_node x) ∈ ids (fst b)) by (apply A3; auto).
    all: apply list_elem_of_fmap in Hin as (y & -> & Hy); apply B3; by left.
  - intros x [Hx|Hx]%B4; [apply A4 in Hx as [|]; auto|auto].
Qed.

Lemma collect_node_spec extra s tracked : collected s (collect_node cfg extra s tracked) (fun x => x = tracked).
Proof.
  unfold collect_node. destruct (existsb (fun other => same_node other tracked) (fst s)) eqn:E.
  - apply existsb_exists in E as (y & Hy & Hs). apply list_elem_of_In in Hy. unfold same_node in Hs. apply Nat.eqb_eq in Hs.
    split_and!; [done|done| |auto]. intros x [Hx| ->]; [by apply elem_of_ids|]. rewrite <- Hs. by apply elem_of_ids.
  - split_and!; simpl; [by apply ClearDispatchSlots_core| | |].
    + unfold ids. rewrite map_app. simpl. intros Hn. apply NoDup_app. split_and!; [done| |apply NoDup_singleton].
      intros i Hi ->%list_elem_of_singleton. apply list_elem_of_fmap in Hi as (y & Hid & Hy).
      assert (Ht : existsb (fun other => same_node other tracked) (fst s) = true); [|congruence].
      apply existsb_exists. exists y. split; [by apply list_elem_of_In|]. unfold same_node. by apply Nat.eqb_eq.
    + intros x Hx. apply elem_of_ids, elem_of_app. destruct Hx as [Hx| ->]; [by left|right; by left].
    + intros x [Hx|Hx%list_elem_of_singleton]%elem_of_app; auto.
Qed.

Lemma collect_nodes_spec extra l : forall s, collected s (foldl (collect_node cfg extra) s l) (fun x => x ∈ l).
Proof.
  induction l as [|y l IH]; intros s; simpl.
  - eapply collected_weaken; [|apply collected_refl]. intros x. split; [done|]. by intros []%not_elem_of_nil.
  - eapply collected_weaken; [|eapply collected_trans; [apply collect_node_spec|apply IH]]. intros x. by rewrite elem_of_cons.
Qed.

(** [TakeDirtyNodes] and [TakeRangeNodes] go over the pages of a list that satisfy a test. *)
Definition take_page (test : PageRecord -> bool) extra (s : list TrackedNode * Tracker L) (page : Z) : list TrackedNode * Tracker L :=
  match tk_pages (snd s) !! page with Some r => if test r then foldl (collect_node cfg extra) s (pr_nodes r) else s | None => s end.

Definition on_pages (P : gmap Z PageRecord) (test : PageRecord -> bool) (pages : list Z) (x : TrackedNode) : Prop :=
  exists page r, page ∈ pages /\ P !! page = Some r /\ test r = true /\ x ∈ pr_nodes r.

Lemma take_page_spec test extra s page : collected s (take_page test extra s page) (on_pages (tk_pages (snd s)) test [page]).
Proof.
  unfold take_page, on_pages. destruct (tk_pages (snd s) !! page) as [r|] eqn:E; [destruct (test r) eqn:Et|].
  - eapply collected_weaken; [|apply collect_nodes_spec]. intros x. setoid_rewrite list_elem_of_singleton. naive_solver.
  - eapply collected_weaken; [|apply collected_refl]. intros x. split; [done|]. intros (page' & r' & ->%list_elem_of_singleton & Hl & Ht & _). congruence.
  - eapply collected_weaken; [|apply collected_refl]. intros x. split; [done|]. intros (page' & r' & ->%list_elem_of_singleton & Hl & _). congruence.
Qed.

Lemma take_pages_spec test extra pages : forall s, collected s (foldl (take_page test extra) s pages) (on_pages (tk_pages (snd s)) test pages).
Proof.
  induction pages as [|page l IH]; intros s; simpl.
  - eapply collected_weaken; [|apply collected_refl]. intros x. split; [done|]. by intros (? & ? & []%not_elem_of_nil & _).
  - pose proof (take_page_spec test extra s page) as Hp. eapply collected_weaken; [|eapply collected_trans; [exact Hp|apply IH]].
    destruct Hp as [[= -> _ _ _] _]. intros x. unfold on_pages. split.
    + intros [(page' & r & ->%list_elem_of_singleton & Hr)|(page' & r & Hin & Hr)]; [exists page, r|exists page', r]; rewrite elem_of_cons; auto.
    + intros (page' & r & [->|Hin]%elem_of_cons & Hr); [left; exists page, r; rewrite list_elem_of_singleton|right; exists page', r]; auto.
Qed.

Lemma RemoveTrackedNode_tracks node t page id s e :
  tracks (tk_pages (RemoveTrackedNode node t)) page id s e <-> tracks (tk_pages t) page id s e /\ id <> nd_id node.
Proof.
  unfold tracks, RemoveTrackedNode. simpl. split.
  - intros (r & x & Hl & Hx & <- & <- & <-). apply lookup_fmap_Some in Hl as (r0 & <- & Hl). simpl in Hx. apply list_elem_of_filter in Hx as [Hne Hx]. eauto 10.
  - intros ((r & x & Hl & Hx & <- & <- & <-) & Hne). exists (set_nodes (filter (fun x => nd_id (tn_node x) <> nd_id node) (pr_nodes r)) r), x.
    rewrite lookup_fmap, Hl. split; [done|]. split; [|done]. simpl. by apply list_elem_of_filter.
Qed.

Lemma RemoveTrackedNode_ok node t : tracker_ok t -> tracker_ok (RemoveTrackedNode node t).
Proof.
  intros [Hok Hc]. split.
  - apply (base_ok_fmap cfg reliable); [done|]. intros page r Hl. pose proof (po_state _ _ _ _ _ _ Hok _ _ Hl) as Hst. split_and!; simpl; [done|done|done| |].
    + intros x [_ Hx]%list_elem_of_filter. done.
    + intros Hrel Hn. apply (po_guarded _ _ _ _ _ _ Hok Hrel _ _ Hl). intros E. apply Hn. simpl. by rewrite E.
  - intros page id s e [Ht Hne]%RemoveTrackedNode_tracks page' Hcov. apply RemoveTrackedNode_tracks. split; [by eapply Hc|done].
Qed.


Lemma remove_all_ok nodes : forall t, tracker_ok t -> tracker_ok (remove_all nodes t).
Proof. induction nodes as [|x l IH]; intros t Hok; simpl; [done|]. by apply IH, RemoveTrackedNode_ok. Qed.

Lemma remove_all_tracks nodes : forall t page id s e,
  tracks (tk_pages (remove_all nodes t)) page id s e <-> tracks (tk_pages t) page id s e /\ id ∉ ids nodes.
Proof.
  induction nodes as [|x l IH]; intros t page id s e; simpl; [pose proof (not_elem_of_nil id); naive_solver|].
  rewrite IH, RemoveTrackedNode_tracks, not_elem_of_cons. tauto.
Qed.

(** Removing nodes keeps the flags of the pages, the host pages, the retired list and the hint. *)
Definition same_flags t t' : Prop :=
  tk_readonly t' = tk_readonly t /\ tk_retired t' = tk_retired t /\ tk_hint t' = tk_hint t /\
  forall page, (fun r => (pr_write_protected r, pr_dirty r, pr_claim_stale_fault r)) <$> tk_pages t' !! page =
               (fun r => (pr_write_protected r, pr_dirty r, pr_claim_stale_fault r)) <$> tk_pages t !! page.

Lemma remove_all_flags nodes : forall t, same_flags t (remove_all nodes t).
Proof.
  induction nodes as [|x l IH]; intros t; simpl; [by split_and!|].
  destruct (IH (RemoveTrackedNode (tn_node x) t)) as (E1 & E2 & E3 & Hp). split_and!; [exact E1|exact E2|exact E3|].
  intros page. rewrite Hp. unfold RemoveTrackedNode. simpl. rewrite lookup_fmap. by destruct (tk_pages t !! page).
Qed.

Lemma page_keys_spec t page : page ∈ page_keys t <-> is_Some (tk_pages t !! page).
Proof.
  unfold page_keys. rewrite <- elem_of_dom, <- elem_of_elements. apply elem_of_Permutation_proper, merge_sort_Permutation.
Qed.

Lemma collected_tracks P (test : PageRecord -> bool) pages x : on_pages P test pages x -> exists page, page ∈ pages /\ tracks P page (nd_id (tn_node x)) (tn_start x) (tn_end x).
Proof. intros (page & r & Hin & Hl & _ & Hx). exists page. split; [done|]. by exists r, x. Qed.

(** A batch [nodes] of the nodes of the pages that satisfy the test, which are tracked no more. *)
Definition batch t nodes t' (test : PageRecord -> bool) (pages : list Z) : Prop :=
  (tracker_ok t -> tracker_ok t') /\ same_flags t t' /\ NoDup (ids nodes) /\
  (forall x, on_pages (tk_pages t) test pages x -> nd_id (tn_node x) ∈ ids nodes) /\
  (forall x, x ∈ nodes -> on_pages (tk_pages t) test pages x) /\
  (forall page id s e, tracks (tk_pages t') page id s e <-> tracks (tk_pages t) page id s e /\ id ∉ ids nodes).

Lemma take_batch test extra pages t :
  let s := foldl (take_page test extra) ([], t) pages in batch t (fst s) (remove_all (fst s) (snd s)) test pages.
Proof.
  intros s. destruct (take_pages_spec test extra pages ([], t)) as (Hcore & Hd & Hin & Hout). fold s in Hcore, Hd, Hin, Hout. simpl in *.
  destruct (remove_all_flags (fst s) (snd s)) as (F1 & F2 & F3 & F4). pose proof Hcore as [= Ep Er Et Eh].
  split_and!; [|split_and!| | | |].
  - intros Hok. apply remove_all_ok. by eapply core_ok.
  - congruence.
  - congruence.
  - congruence.
  - intros page. by rewrite F4, Ep.
  - apply Hd, NoDup_nil_2.
  - auto.
  - intros x [[]%not_elem_of_nil|]%Hout; done.
  - intros page id a b. by rewrite remove_all_tracks, Ep.
Qed.

Lemma TakeDirtyNodes_spec extra t : batch t (fst (TakeDirtyNodes cfg extra t)) (snd (TakeDirtyNodes cfg extra t)) pr_dirty (page_keys t).
Proof.
  pose proof (take_batch pr_dirty extra (page_keys t) t) as H'. unfold TakeDirtyNodes, take_page in *. by destruct (foldl _ ([], t) (page_keys t)).
Qed.

(** The pages of a walk from [first] to [last]. *)
Fixpoint pages_from (n : nat) (page : Z) : list Z :=
  match n with O => [] | S n => page :: pages_from n (page + sc_page_size cfg) end.

Lemma pages_from_spec n : forall page q, aligned cfg page -> q ∈ pages_from n page <-> aligned cfg q /\ page <= q < page + Z.of_nat n * sc_page_size cfg.
Proof.
  pose proof (page_size_pos _ _ _ Hcfg) as Hps. induction n as [|n IH]; intros page q Ha; simpl pages_from; [split; [by intros []%not_elem_of_nil|lia]|].
  rewrite elem_of_cons, IH by (by apply aligned_add). split.
  - intros [->|[? ?]]; (split; [done|nia]).
  - intros [Hq Hb]. destruct (decide (q = page)) as [|Hne]; [by left|right].
    pose proof (aligned_lt cfg p k Hcfg page q Ha Hq ltac:(lia)). split; [done|nia].
Qed.

Definition range_pages (first last : Z) : list Z := pages_from (walk_pages cfg first last) first.

Lemma aligned_div a b : aligned cfg a -> aligned cfg b -> a <= b -> b = a + (b - a) / sc_page_size cfg * sc_page_size cfg.
Proof.
  pose proof (page_size_pos _ _ _ Hcfg). intros [x ->] [y ->] Hle. replace (y * _ - x * _) with ((y - x) * sc_page_size cfg) by lia.
  rewrite Z.div_mul by lia. lia.
Qed.

Lemma range_pages_spec first last q : aligned cfg first -> aligned cfg last -> first <= last -> q ∈ range_pages first last <-> aligned cfg q /\ first <= q <= last.
Proof.
  intros Hf Hl Hle. unfold range_pages, walk_pages. rewrite pages_from_spec by done. pose proof (page_size_pos _ _ _ Hcfg).
  pose proof (aligned_div first last Hf Hl Hle) as Hd. pose proof (Z.div_pos (last - first) (sc_page_size cfg) ltac:(lia) ltac:(lia)).
  rewrite Nat2Z.inj_succ, Z2Nat.id by lia. split; intros [Hq Hb]; (split; [done|]); [|nia]. split; [lia|].
  destruct (decide (last < q)) as [Hlt|]; [|lia]. pose proof (aligned_lt cfg p k Hcfg last q Hl Hq Hlt). nia.
Qed.

(** The loops of [InvalidateRange] over its pages, when the page after the last one does not wrap around. *)
Lemma walk_loop {S} (body : S -> Z -> S) (loop : nat -> Z -> S -> option S) (done_ : S -> S) last :
  (forall n page s, loop (Datatypes.S n) page s = if page <=? last then loop n (add64 page (sc_page_size cfg)) (body s page) else Some (done_ s)) ->
  last + sc_page_size cfg < 2 ^ 64 -> forall n page s, 0 <= page -> last < page + Z.of_nat n * sc_page_size cfg -> page + Z.of_nat n * sc_page_size cfg <= last + sc_page_size cfg ->
  loop (Datatypes.S n) page s = Some (done_ (foldl body s (pages_from n page))).
Proof.
  intros Hloop Hw. pose proof (page_size_pos _ _ _ Hcfg). induction n as [|n IH]; intros page s Hp Hb Hb'; rewrite Hloop.
  - destruct (Z.leb_spec page last); [lia|done].
  - destruct (Z.leb_spec page last) as [Hle|]; [|nia]. unfold add64. rewrite wrap_small by nia. simpl foldl. apply IH; nia.
Qed.


(** ** The locked section of [CloseWriteWindow] *)

Lemma TakeDirtyNodes_nil extra t : fst (TakeDirtyNodes cfg extra t) = [] -> core (snd (TakeDirtyNodes cfg extra t)) = core t.
Proof.
  pose proof (take_pages_spec pr_dirty extra (page_keys t) ([], t)) as [Hc _]. unfold TakeDirtyNodes, take_page in *.
  destruct (foldl _ ([], t) (page_keys t)) as [nodes u]. simpl in *. by intros ->.
Qed.

Definition dirty_tracks t (id : nat) : Prop := exists page r x, tk_pages t !! page = Some r /\ pr_dirty r = true /\ x ∈ pr_nodes r /\ nd_id (tn_node x) = id.

Lemma dirty_ids t nodes t' id : batch t nodes t' pr_dirty (page_keys t) -> id ∈ ids nodes <-> dirty_tracks t id.
Proof.
  intros (_ & _ & _ & Hin & Hout & _). split.
  - intros (x & -> & Hx)%list_elem_of_fmap. destruct (Hout x Hx) as (page & r & _ & Hl & Hd & Hn). by exists page, r, x.
  - intros (page & r & x & Hl & Hd & Hn & <-). apply Hin. exists page, r. split; [apply page_keys_spec; by exists r|done].
Qed.

Lemma close_section_nil l1 t : fst (close_section cfg l1 t) = [] ->
  (forall id, ~ dirty_tracks t id) /\ tk_pages (snd (close_section cfg l1 t)) = tombstone <$> tk_pages t /\
  tk_readonly (snd (close_section cfg l1 t)) = tk_readonly t /\ tk_retired (snd (close_section cfg l1 t)) = tk_retired t /\
  tk_hint (snd (close_section cfg l1 t)) = tk_hint t.
Proof.
  unfold close_section. pose proof (TakeDirtyNodes_nil (Some l1) t) as Hnil. pose proof (TakeDirtyNodes_spec (Some l1) t) as Hb.
  destruct (TakeDirtyNodes cfg (Some l1) t) as [[|x l] u]; simpl in *; [|done]. intros _. pose proof (Hnil eq_refl) as [= Ep Er Et Eh].
  split_and!; [|by rewrite Ep|done..]. intros id Hd. apply (dirty_ids _ _ _ _ Hb) in Hd. by apply not_elem_of_nil in Hd.
Qed.

Lemma close_section_batch l1 t : fst (close_section cfg l1 t) <> [] ->
  batch t (fst (close_section cfg l1 t)) (snd (close_section cfg l1 t)) pr_dirty (page_keys t).
Proof.
  unfold close_section. pose proof (TakeDirtyNodes_spec (Some l1) t) as Hb. by destruct (TakeDirtyNodes cfg (Some l1) t) as [[|x l] u].
Qed.

Lemma tombstone_tracks P page id s e : tracks (tombstone <$> P) page id s e <-> tracks P page id s e.
Proof.
  assert (Hn : forall r, pr_nodes (tombstone r) = pr_nodes r) by (intros r; unfold tombstone; by destruct (pr_dirty r)).
  unfold tracks. split.
  - intros (r & x & Hl & Hx). apply lookup_fmap_Some in Hl as (r0 & <- & Hl). rewrite Hn in Hx. eauto.
  - intros (r & x & Hl & Hx). exists (tombstone r), x. rewrite lookup_fmap, Hl, Hn. eauto.
Qed.

Lemma close_section_ok l1 t : tracker_ok t -> tracker_ok (snd (close_section cfg l1 t)).
Proof.
  intros Hok. destruct (decide (fst (close_section cfg l1 t) = [])) as [E|E]; [|by apply (close_section_batch l1 t E)].
  destruct (close_section_nil l1 t E) as (Hnd & Ep & Er & Et & Eh). destruct Hok as [Hok Hc]. unfold tracker_ok, tracker_base.
  rewrite Ep, Er, Et, Eh. split.
  - apply (base_ok_fmap cfg reliable); [done|]. intros page r Hl. pose proof (po_state _ _ _ _ _ _ Hok _ _ Hl) as Hst. pose proof Hst as [S1 S2].
    unfold tombstone. destruct (pr_dirty r) eqn:Hd; [|split; [done|]; split; [done|]; split; [congruence|]; split; [by intros x|]; intros Hrel; by apply (po_guarded _ _ _ _ _ _ Hok Hrel page)].
    assert (Hw : pr_write_protected r = false) by (destruct (pr_write_protected r); [destruct S1; congruence|done]).
    assert (Hn : pr_nodes r = []) by (destruct (pr_nodes r) as [|x l] eqn:En; [done|]; destruct (Hnd (nd_id (tn_node x))); exists page, r, x; rewrite En; split_and!; [done|done|left|done]).
    rewrite Hw. split; [done|]. split; [by split|]. split; [done|]. split; [by intros x|]. intros _ Hx. by destruct (Hx Hn).
  - intros page id s e Ht page' Hcov. rewrite tombstone_tracks in Ht. rewrite tombstone_tracks. by apply (Hc page id s e).
Qed.

(** ** Retiring and reclaiming *)

Lemma Retire_ok cands t : tracker_ok t -> tracker_ok (Retire_candidates cfg cands t).
Proof.
  intros Hok. destruct cands as [|c cands]; [done|]. unfold Retire_candidates. apply mark_pending_ok in Hok as [[H1 H2 H3 H4 H5 H6 H7] Hc].
  split; [|done]. split; try done. intros E _. simpl. unfold MarkCloseWorkPending. by rewrite E.
Qed.

Lemma any_dirty_spec t : any_dirty t = true <-> exists page r, tk_pages t !! page = Some r /\ pr_dirty r = true.
Proof.
  unfold any_dirty. rewrite existsb_exists. split.
  - intros ([page r] & Hin & Hd). apply list_elem_of_In, elem_of_map_to_list in Hin. by exists page, r.
  - intros (page & r & Hl & Hd). exists (page, r). split; [|done]. by apply list_elem_of_In, elem_of_map_to_list.
Qed.

Lemma release_core (l : list (Code * Z)) t : core (foldl (fun t (e : Code * Z) => put_links (release_code (fst e) (tk_code t)) t) t l) = core t.
Proof. by apply (foldl_core (fun t (e : Code * Z) => put_links (release_code (fst e) (tk_code t)) t)). Qed.

Lemma MaybeClear_ok t : tracker_ok t -> tracker_ok (MaybeClearCloseWorkPending cfg t).
Proof.
  intros Hok. unfold MaybeClearCloseWorkPending. destruct (sc_dirty_hint cfg) eqn:E; simpl; [|done].
  destruct (bool_decide (tk_retired t = [])) eqn:Er; simpl; [|done]. apply bool_decide_eq_true in Er.
  destruct (any_dirty t) eqn:Ed; [done|]. destruct Hok as [[H1 H2 H3 H4 H5 H6 H7] Hc]. split; [|done]. split; try done.
  intros _ [Hd|Hr]; [|done]. apply (any_dirty_spec t) in Hd. congruence.
Qed.

Lemma Reclaim_ok t : tracker_ok t -> tracker_ok (ReclaimRetiredLocked cfg t).
Proof.
  intros [[H1 H2 H3 H4 H5 H6 H7] Hc]. unfold ReclaimRetiredLocked. apply MaybeClear_ok.
  eapply core_ok; [apply release_core|]. split; [|done]. split; simpl; try done.
  intros Hd [Hx|Hx]; apply H6; [done|by left|done|]. right. intros E. apply Hx. by rewrite E.
Qed.

Lemma detach_nodes_core nodes : forall s, core (snd (detach_nodes nodes s)) = core (snd s).
Proof.
  unfold detach_nodes. induction nodes as [|x l IH]; intros s; simpl; [done|]. rewrite IH. by destruct (detach_node x (tk_code (snd s))).
Qed.

Lemma detach_batch_core nodes cands t : core (snd (detach_batch nodes cands t)) = core t.
Proof.
  unfold detach_batch. rewrite detach_nodes_core. simpl. unfold DelinkTargets. by destruct (delink_targets _ _ _) as [[] ?].
Qed.


(** ** The end of a write window *)

Definition flags (P : gmap Z PageRecord) (page : Z) : option (bool * bool * bool) :=
  (fun r => (pr_write_protected r, pr_dirty r, pr_claim_stale_fault r)) <$> P !! page.

(** Every dirty page has become a tombstone, and no node that was on one is tracked on any page. *)
Definition closed t t' : Prop :=
  (forall page, flags (tk_pages t') page = (fun '(w, d, c) => (w, false, d || c)) <$> flags (tk_pages t) page) /\
  (forall page id s e, tracks (tk_pages t') page id s e <-> tracks (tk_pages t) page id s e /\ ~ dirty_tracks t id).

Lemma tombstone_flags P page : flags (tombstone <$> P) page = (fun '(w, d, c) => (w, false, d || c)) <$> flags P page.
Proof. unfold flags, tombstone. rewrite lookup_fmap. destruct (P !! page) as [[w [] c n]|]; done. Qed.

Lemma flags_dirty t t' page r : flags (tk_pages t') page = flags (tk_pages t) page -> tk_pages t' !! page = Some r -> pr_dirty r = true ->
  exists r0, tk_pages t !! page = Some r0 /\ pr_dirty r0 = true.
Proof. unfold flags. intros Hf Hl Hd. rewrite Hl in Hf. destruct (tk_pages t !! page) as [r0|]; [|done]. exists r0. split; [done|]. injection Hf. congruence. Qed.

(** After a batch no dirty page has nodes. *)
Lemma batch_clean t nodes t' t2 : batch t nodes t' pr_dirty (page_keys t) -> tk_pages t2 = tk_pages t' -> forall id, ~ dirty_tracks t2 id.
Proof.
  intros Hb Ep id (page & r & x & Hl & Hd & Hx & <-). rewrite Ep in Hl. pose proof Hb as (_ & (_ & _ & _ & Hf) & _ & _ & _ & Ht).
  assert (Htr : tracks (tk_pages t') page (nd_id (tn_node x)) (tn_start x) (tn_end x)) by (by exists r, x).
  apply Ht in Htr as [(r0 & x0 & Hl0 & Hx0 & Hid & _) Hni]. apply Hni, (dirty_ids _ _ _ _ Hb).
  destruct (flags_dirty t t' page r (Hf page) Hl Hd) as (r1 & Hl1 & Hd1). exists page, r1, x0. split_and!; congruence.
Qed.

Lemma close_section_again l1 t : (forall id, ~ dirty_tracks t id) -> fst (close_section cfg l1 t) = [].
Proof.
  intros Hn. destruct (decide (fst (close_section cfg l1 t) = [])) as [|E]; [done|]. pose proof (close_section_batch l1 t E) as Hb.
  destruct (fst (close_section cfg l1 t)) as [|x l]; [done|]. destruct (Hn (nd_id (tn_node x))). apply (dirty_ids _ _ _ _ Hb). left.
Qed.

Lemma close_loop_spec l1 cands t n : tracker_ok t -> exists cands' t',
  close_loop cfg (S (S n)) l1 cands t = Some (cands', t') /\ tracker_ok t' /\ closed t t'.
Proof.
  intros Hok. simpl. pose proof (close_section_ok l1 t Hok) as Hok1. destruct (decide (fst (close_section cfg l1 t) = [])) as [E|E].
  - destruct (close_section_nil l1 t E) as (Hnd & Ep & _). destruct (close_section cfg l1 t) as [nodes t1]. simpl in *. subst nodes.
    exists cands, t1. split; [done|]. split; [done|]. split; rewrite Ep.
    + intros page. apply tombstone_flags.
    + intros page id s e. rewrite tombstone_tracks. naive_solver.
  - pose proof (close_section_batch l1 t E) as Hb. destruct (close_section cfg l1 t) as [nodes t1]. simpl in *.
    destruct nodes as [|x l]; [done|]. pose proof (detach_batch_core (x :: l) cands t1) as Hcore.
    destruct (detach_batch (x :: l) cands t1) as [cands' t2]. simpl in Hcore. pose proof Hcore as [= Ep2 _ _ _].
    pose proof (batch_clean t (x :: l) t1 t2 Hb Ep2) as Hn. pose proof (close_section_again l1 t2 Hn) as E2.
    pose proof (close_section_ok l1 t2 (core_ok t1 t2 Hcore Hok1)) as Hok3. destruct (close_section_nil l1 t2 E2) as (_ & Ep3 & _).
    destruct (close_section cfg l1 t2) as [nodes3 t3]. simpl in *. subst nodes3. exists cands', t3.
    pose proof Hb as (_ & (_ & _ & _ & Hf) & _ & _ & _ & Ht). split; [done|]. split; [done|]. split; rewrite Ep3, Ep2.
    + intros page. rewrite tombstone_flags. f_equal. apply Hf.
    + intros page id s e. rewrite tombstone_tracks, Ht. by rewrite (dirty_ids _ _ _ _ Hb).
Qed.

Lemma Reclaim_pages t : tk_pages (ReclaimRetiredLocked cfg t) = tk_pages t.
Proof.
  unfold ReclaimRetiredLocked, MaybeClearCloseWorkPending.
  set (u := foldl _ _ _). assert (E : tk_pages u = tk_pages t) by (pose proof (release_core (filter (fun e => CanReclaim (snd e) t = true) (tk_retired t))
    (put_retired (filter (fun e => CanReclaim (snd e) t = false) (tk_retired t)) t)) as [= E _ _ _]; exact E).
  destruct (sc_dirty_hint cfg); simpl; [|done]. destruct (bool_decide _); simpl; [|done]. by destruct (any_dirty u).
Qed.

Lemma Retire_pages cands t : tk_pages (Retire_candidates cfg cands t) = tk_pages t.
Proof. unfold Retire_candidates, MarkCloseWorkPending. destruct cands; [done|]. by destruct (sc_dirty_hint cfg). Qed.

Lemma close_slow_spec l1 t n : tracker_ok t -> exists t', close_slow cfg (S (S n)) l1 t = Some t' /\ tracker_ok t' /\ closed t t'.
Proof.
  intros Hok. destruct (close_loop_spec l1 [] t n Hok) as (cands & t1 & E & Hok1 & Hf & Ht). unfold close_slow. rewrite E.
  eexists. split; [done|]. split; [by apply Reclaim_ok, Retire_ok|]. unfold closed. by rewrite Reclaim_pages, Retire_pages.
Qed.

(** The close-work hint: without pending work the slow path changes nothing. *)
Lemma close_slow_idle l1 t n : tracker_ok t -> close_skipped cfg t = true -> close_slow cfg (S n) l1 t = Some t.
Proof.
  intros [Hok _] [[Hdh Hh]%andb_true_iff Hret%bool_decide_eq_true]%andb_true_iff. apply negb_true_iff in Hh.
  assert (Hd : forall page r, tk_pages t !! page = Some r -> pr_dirty r = false).
  { intros page r Hl. destruct (pr_dirty r) eqn:E; [|done]. rewrite (po_hint _ _ _ _ _ _ Hok Hdh) in Hh; [done|]. left. eauto. }
  assert (Hf : foldl (take_page pr_dirty (Some l1)) ([], t) (page_keys t) = ([], t)).
  { induction (page_keys t) as [|page l IH]; simpl; [done|]. unfold take_page at 2. simpl.
    destruct (tk_pages t !! page) as [r|] eqn:E; [|done]. by rewrite (Hd _ _ E). }
  assert (Hs : close_section cfg l1 t = ([], t)).
  { unfold close_section, TakeDirtyNodes. unfold take_page in Hf. rewrite Hf. simpl. f_equal.
    assert (Et : tombstone <$> tk_pages t = tk_pages t).
    { apply map_eq. intros page. rewrite lookup_fmap. destruct (tk_pages t !! page) as [r|] eqn:E; [|done]. simpl. unfold tombstone. by rewrite (Hd _ _ E). }
    rewrite Et. by destruct t. }
  unfold close_slow. simpl. rewrite Hs. simpl. unfold ReclaimRetiredLocked. rewrite Hret. simpl.
  assert (Ep : put_retired [] t = t) by (destruct t; simpl in *; by subst). change (put_retired (filter _ []) t) with (put_retired [] t). rewrite Ep.
  unfold MaybeClearCloseWorkPending. rewrite Hdh, Hret. simpl. assert (Ed : any_dirty t = false).
  { destruct (any_dirty t) eqn:E; [|done]. apply any_dirty_spec in E as (page & r & Hl & E). by rewrite (Hd _ _ Hl) in E. }
  rewrite Ed. destruct t. simpl in *. by subst.
Qed.


(** ** Write faults *)

(** The tables [ClearDispatchSlots] clears. *)
Definition tables (extra : option RuntimeId) t : list Table :=
  [L2Code; L2Call; L2PendingCall] ++ (L1 <$> option_list extra) ++ map (fun r => L1 (sr_id r)) (tk_runtimes t).

(** The slots of the locations are empty, the others unchanged. *)
Definition cleared (tabs : list Table) (locs : list Z) (s s' : gmap Slot Code) : Prop :=
  (forall tab loc, tab ∈ tabs -> loc ∈ locs -> s' !! (tab, loc) = None) /\
  (forall a c, s' !! a = Some c -> s !! a = Some c) /\ (forall tab loc, loc ∉ locs -> s' !! (tab, loc) = s !! (tab, loc)).

Lemma cleared_nil tabs s : cleared tabs [] s s.
Proof. split_and!; [by intros tab loc _ []%not_elem_of_nil|done|done]. Qed.

Lemma cleared_trans tabs l1 l2 a b c : cleared tabs l1 a b -> cleared tabs l2 b c -> cleared tabs (l1 ++ l2) a c.
Proof.
  intros (A1 & A2 & A3) (B1 & B2 & B3). split_and!.
  - intros tab loc Ht [Hl|Hl]%elem_of_app; [|by apply B1]. destruct (c !! (tab, loc)) as [x|] eqn:E; [|done]. apply B2 in E. by rewrite A1 in E.
  - auto.
  - intros tab loc [H1 H2]%not_elem_of_app. by rewrite B3, A3.
Qed.

Lemma cleared_delete (tabs : list Table) loc s tab : tab ∈ tabs -> cleared [tab] [loc] s (delete (tab, loc) s).
Proof.
  intros _. split_and!.
  - intros tab' loc' ->%list_elem_of_singleton ->%list_elem_of_singleton. apply lookup_delete_eq.
  - by intros a c [_ Hl]%lookup_delete_Some.
  - intros tab' loc' Hl%not_elem_of_cons. apply lookup_delete_ne. destruct Hl. congruence.
Qed.

Lemma cleared_tables tabs1 tabs2 loc a b c : cleared tabs1 [loc] a b -> cleared tabs2 [loc] b c -> cleared (tabs1 ++ tabs2) [loc] a c.
Proof.
  intros (A1 & A2 & A3) (B1 & B2 & B3). split_and!.
  - intros tab l [Ht|Ht]%elem_of_app Hl; [|by apply B1]. destruct (c !! (tab, l)) as [x|] eqn:E; [|done]. apply B2 in E. by rewrite A1 in E.
  - auto.
  - intros tab l Hl. by rewrite B3, A3.
Qed.

Lemma cleared_sub tabs tabs' locs a b : (forall tab, tab ∈ tabs' -> tab ∈ tabs) -> cleared tabs locs a b -> cleared tabs' locs a b.
Proof. intros Hs (A1 & A2 & A3). split_and!; auto. Qed.

Lemma cleared_l1 extra loc rts : forall s,
  cleared (map (fun r => L1 (sr_id r)) (filter (fun r => Some (sr_id r) <> extra) rts)) [loc] s
    (foldl (fun s r => if decide (Some (sr_id r) = extra) then s else delete (L1 (sr_id r), loc) s) s rts).
Proof.
  induction rts as [|r rts IH]; intros s; simpl; [split_and!; [by intros tab l []%not_elem_of_nil|done|done]|].
  rewrite filter_cons. destruct (decide (Some (sr_id r) = extra)) as [E|E]; destruct (decide (Some (sr_id r) <> extra)); try done.
  change (map ?f (?x :: ?l)) with ([f x] ++ map f l). eapply cleared_tables; [|apply IH]. apply (cleared_delete [L1 (sr_id r)]). left.
Qed.

Lemma clear_location_cleared extra loc t : cleared (tables extra t) [loc] (tk_slots t) (tk_slots (clear_location extra loc t)).
Proof.
  unfold clear_location, tables. simpl tk_slots.
  set (s3 := delete (L2PendingCall, loc) (delete (L2Call, loc) (delete (L2Code, loc) (tk_slots t)))).
  assert (H3 : cleared [L2Code; L2Call; L2PendingCall] [loc] (tk_slots t) s3).
  { change [L2Code; L2Call; L2PendingCall] with ([L2Code] ++ [L2Call] ++ [L2PendingCall]). unfold s3.
    eapply cleared_tables; [by apply (cleared_delete [L2Code]); left|]. eapply cleared_tables; [by apply (cleared_delete [L2Call]); left|by apply (cleared_delete [L2PendingCall]); left]. }
  apply (cleared_sub ([L2Code; L2Call; L2PendingCall] ++ (L1 <$> option_list extra) ++ map (fun r => L1 (sr_id r)) (filter (fun r => Some (sr_id r) <> extra) (tk_runtimes t)))).
  - intros tab. rewrite !elem_of_app. intros [|[|Hin]]; [auto|auto|]. apply list_elem_of_fmap in Hin as (r & -> & Hr).
    destruct (decide (Some (sr_id r) = extra)) as [<-|Hne]; [right; left; simpl; left|]. right; right. apply list_elem_of_fmap. exists r. split; [done|]. by apply list_elem_of_filter.
  - eapply cleared_tables; [exact H3|]. eapply cleared_tables; [|apply cleared_l1].
    destruct extra as [i|]; simpl; [apply (cleared_delete [L1 i]); left|]. split_and!; [by intros tab l []%not_elem_of_nil|done|done].
Qed.

Lemma clear_location_runtimes extra loc t : tk_runtimes (clear_location extra loc t) = tk_runtimes t.
Proof. done. Qed.

Lemma ClearDispatchSlots_cleared extra tracked aliases t :
  cleared (tables extra t) (nd_locations (tn_node tracked) ++ aliases) (tk_slots t) (tk_slots (ClearDispatchSlots cfg extra tracked aliases t)) /\
  tables extra (ClearDispatchSlots cfg extra tracked aliases t) = tables extra t /\ tk_code (ClearDispatchSlots cfg extra tracked aliases t) = tk_code t.
Proof.
  unfold ClearDispatchSlots. set (locs := nd_locations (tn_node tracked) ++ aliases). clearbody locs.
  assert (Hf : forall t, cleared (tables extra t) locs (tk_slots t) (tk_slots (foldl (fun t loc => clear_location extra loc t) t locs)) /\
    tables extra (foldl (fun t loc => clear_location extra loc t) t locs) = tables extra t /\ tk_code (foldl (fun t loc => clear_location extra loc t) t locs) = tk_code t).
  { induction locs as [|loc l IH]; intros u; simpl; [split; [apply cleared_nil|done]|].
    destruct (IH (clear_location extra loc u)) as (H1 & H2 & H3). split_and!; [|done|done].
    change (loc :: l) with ([loc] ++ l). eapply cleared_trans; [apply clear_location_cleared|exact H1]. }
  destruct (Hf t) as (H1 & H2 & H3). unfold PublishExitRequest. destruct (negb (sc_exit_latch cfg)); [done|]. split_and!; [done| |done].
  rewrite <- H2. unfold tables. simpl. by rewrite map_map.
Qed.

Lemma clear_nodes_cleared extra nodes : forall t, let t' := foldl (fun t tracked => ClearDispatchSlots cfg extra tracked [] t) t nodes in
  cleared (tables extra t) (flat_map (fun x => nd_locations (tn_node x)) nodes) (tk_slots t) (tk_slots t') /\ tk_code t' = tk_code t /\ core t' = core t.
Proof.
  induction nodes as [|x l IH]; intros t; simpl; [split; [apply cleared_nil|done]|].
  destruct (ClearDispatchSlots_cleared extra x [] t) as (H1 & H2 & H3). rewrite app_nil_r in H1.
  destruct (IH (ClearDispatchSlots cfg extra x [] t)) as (G1 & G2 & G3). rewrite H2 in G1.
  split_and!; [by eapply cleared_trans|congruence|]. rewrite G3. apply ClearDispatchSlots_core.
Qed.

(** The targets signalled, in the order of the nodes. *)
Definition signals (l : L) (locs : list Z) : L := foldl (fun l loc => snd (signal_invalidate loc l)) l locs.

Lemma signal_location_frame t loc : core (signal_location t loc) = core t /\ tk_slots (signal_location t loc) = tk_slots t /\
  tk_runtimes (signal_location t loc) = tk_runtimes t /\ tk_code (signal_location t loc) = snd (signal_invalidate loc (tk_code t)).
Proof. unfold signal_location. by destruct (signal_invalidate loc (tk_code t)) as [[] l]. Qed.

Lemma signal_locations_frame locs : forall t, let t' := foldl signal_location t locs in
  core t' = core t /\ tk_slots t' = tk_slots t /\ tk_runtimes t' = tk_runtimes t /\ tk_code t' = signals (tk_code t) locs.
Proof.
  induction locs as [|loc l IH]; intros t; simpl; [done|]. destruct (signal_location_frame t loc) as (H1 & H2 & H3 & H4).
  destruct (IH (signal_location t loc)) as (G1 & G2 & G3 & G4). rewrite H4 in G4. split_and!; [by rewrite G1|by rewrite G2|by rewrite G3|done].
Qed.

Lemma signal_nodes_frame nodes : forall t, let t' := foldl (fun t tracked => foldl signal_location t (nd_locations (tn_node tracked))) t nodes in
  core t' = core t /\ tk_slots t' = tk_slots t /\ tk_runtimes t' = tk_runtimes t /\ tk_code t' = signals (tk_code t) (flat_map (fun x => nd_locations (tn_node x)) nodes).
Proof.
  induction nodes as [|x l IH]; intros t; simpl; [done|]. destruct (signal_locations_frame (nd_locations (tn_node x)) t) as (H1 & H2 & H3 & H4).
  destruct (IH (foldl signal_location t (nd_locations (tn_node x)))) as (G1 & G2 & G3 & G4). rewrite H4 in G4.
  split_and!; [by rewrite G1|by rewrite G2|by rewrite G3|]. rewrite G4. unfold signals. by rewrite foldl_app.
Qed.


(** A fault on a write-protected page opens it. *)
Definition opened l1 t page r t' : Prop :=
  tk_pages t' = <[page := mkPage false true false (pr_nodes r)]> (tk_pages t) /\ tk_readonly t' = tk_readonly t ∖ {[host_page cfg page]} /\
  tk_code t' = signals (tk_code t) (flat_map (fun x => nd_locations (tn_node x)) (pr_nodes r)) /\
  cleared (tables (Some l1) t) (flat_map (fun x => nd_locations (tn_node x)) (pr_nodes r)) (tk_slots t) (tk_slots t').

Lemma HandleWriteFault_opens mp l1 a t r :
  let page := PageKey cfg (sub64 a (sc_bias cfg)) in
  tracker_ok t -> tk_pages t !! page = Some r -> pr_write_protected r = true -> mp (host_page cfg page) false = true ->
  exists t', HandleWriteFault cfg mp l1 a t = (true, t') /\ tracker_ok t' /\ opened l1 t page r t'.
Proof.
  intros page [Hok Hc] Hl Hw Hmp. pose proof (po_state _ _ _ _ _ _ Hok _ _ Hl) as [S1 _]. destruct (S1 Hw) as [Hd Hcl].
  unfold HandleWriteFault. fold page. rewrite Hl, Hw, Hd, Hcl. simpl. unfold SetPageProtected. rewrite Hmp. simpl.
  set (t1 := foldl _ (MarkCloseWorkPending cfg t) (pr_nodes r)).
  destruct (signal_nodes_frame (pr_nodes r) (MarkCloseWorkPending cfg t)) as (A1 & A2 & A3 & A4). fold t1 in A1, A2, A3, A4.
  set (t2 := put_pages _ _). eexists. split; [reflexivity|].
  destruct (clear_nodes_cleared (Some l1) (pr_nodes r) t2) as (B1 & B2 & B3). cbv zeta in B1, B2, B3.
  set (t' := foldl _ t2 (pr_nodes r)) in *. pose proof A1 as [= P1 R1 T1 H1]. pose proof B3 as [= P2 R2 T2 H2].
  assert (M : tk_pages (MarkCloseWorkPending cfg t) = tk_pages t /\ tk_readonly (MarkCloseWorkPending cfg t) = tk_readonly t /\
    tk_retired (MarkCloseWorkPending cfg t) = tk_retired t /\ tk_hint (MarkCloseWorkPending cfg t) = (if sc_dirty_hint cfg then true else tk_hint t) /\
    tk_code (MarkCloseWorkPending cfg t) = tk_code t /\ tk_slots (MarkCloseWorkPending cfg t) = tk_slots t /\ tk_runtimes (MarkCloseWorkPending cfg t) = tk_runtimes t).
  { unfold MarkCloseWorkPending. by destruct (sc_dirty_hint cfg). }
  destruct M as (M1 & M2 & M3 & M4 & M5 & M6 & M7).
  assert (Ep : tk_pages t' = <[page := mkPage false true false (pr_nodes r)]> (tk_pages t)) by (rewrite P2; unfold t2; simpl; by rewrite P1, M1).
  assert (Er : tk_readonly t' = tk_readonly t ∖ {[host_page cfg page]}) by (rewrite R2; unfold t2; simpl; by rewrite R1, M2).
  split; [split|].
  - unfold tracker_base. rewrite Ep, Er, T2, H2. unfold t2. simpl. rewrite T1, M3, H1, M4.
    destruct (po_key _ _ _ _ _ _ Hok _ _ Hl) as [Ha Hb]. apply (base_ok_insert cfg p k Hcfg reliable _ (tk_readonly t) _ (tk_hint t)); try done.
    + intros h Hh. set_solver.
    + intros _ Hin. set_solver.
    + intros _ _. by right.
    + intros Hh. by rewrite Hh.
    + intros x Hx. apply (po_range _ _ _ _ _ _ Hok page (nd_id (tn_node x))). by exists r, x.
  - assert (Ht : forall page' id s e, tracks (tk_pages t') page' id s e <-> tracks (tk_pages t) page' id s e).
    { intros page' id s e. rewrite Ep, tracks_insert. simpl. destruct (decide (page' = page)) as [->|Hne]; [|naive_solver].
      unfold tracks. rewrite Hl. naive_solver. }
    intros page' id s e Htr page2 Hcov. apply Ht. apply Ht in Htr. by apply (Hc page' id s e).
  - split_and!; [exact Ep|exact Er| |].
    + rewrite B2. unfold t2. simpl. by rewrite A4, M5.
    + assert (Et : tables (Some l1) t2 = tables (Some l1) t) by (unfold tables, t2; simpl; by rewrite A3, M7).
      rewrite Et in B1. assert (Es : tk_slots t2 = tk_slots t) by (unfold t2; simpl; by rewrite A2, M6). by rewrite Es in B1.
Qed.

(** Every other fault changes no page. *)
Lemma HandleWriteFault_keeps mp l1 a t :
  let page := PageKey cfg (sub64 a (sc_bias cfg)) in
  (forall r, tk_pages t !! page = Some r -> pr_write_protected r = true -> mp (host_page cfg page) false = false) ->
  core (snd (HandleWriteFault cfg mp l1 a t)) = core t \/ core (snd (HandleWriteFault cfg mp l1 a t)) = core (MarkCloseWorkPending cfg t).
Proof.
  intros page Hmp. unfold HandleWriteFault. fold page. destruct (tk_pages t !! page) as [r|]; [|by left].
  destruct (pr_claim_stale_fault r && negb (pr_write_protected r)); [by left|]. destruct (pr_dirty r && negb (pr_write_protected r)); [by right|].
  destruct (pr_write_protected r) eqn:E; simpl; [|by left]. unfold SetPageProtected. rewrite (Hmp r) by done. simpl. right. apply signal_nodes_frame.
Qed.

Lemma HandleWriteFault_ok mp l1 a t : tracker_ok t -> tracker_ok (snd (HandleWriteFault cfg mp l1 a t)).
Proof.
  intros Hok. set (page := PageKey cfg (sub64 a (sc_bias cfg))).
  assert (Hcase : (exists r, tk_pages t !! page = Some r /\ pr_write_protected r = true /\ mp (host_page cfg page) false = true) \/
    (forall r, tk_pages t !! page = Some r -> pr_write_protected r = true -> mp (host_page cfg page) false = false)).
  { destruct (tk_pages t !! page) as [r|]; [|right; done]. destruct (pr_write_protected r) eqn:E, (mp (host_page cfg page) false) eqn:Em; [left; eauto|right; naive_solver..]. }
  destruct Hcase as [(r & Hl & Hw & Hm)|Hn].
  - destruct (HandleWriteFault_opens mp l1 a t r Hok Hl Hw Hm) as (t' & -> & Hok' & _). done.
  - destruct (HandleWriteFault_keeps mp l1 a t Hn) as [E|E]; (eapply core_ok; [exact E|]); [done|by apply mark_pending_ok].
Qed.

(** ** Invalidation of a range *)

Lemma erase_page_tracks mp page t page' id s e :
  (forall i a b, ~ tracks (tk_pages t) page i a b) -> tracks (tk_pages (erase_page cfg mp page t)) page' id s e <-> tracks (tk_pages t) page' id s e.
Proof.
  intros Hn. assert (E : tk_pages (erase_page cfg mp page t) = delete page (tk_pages t)).
  { unfold erase_page. destruct (tk_pages t !! page) as [r|] eqn:El; [|by rewrite delete_id]. unfold SetPageProtected. by destruct (pr_write_protected r), (mp (host_page cfg page) false). }
  rewrite E. unfold tracks. split.
  - intros (r & x & [_ Hl]%lookup_delete_Some & Hx). eauto.
  - intros (r & x & Hl & Hx & <- & <- & <-). exists r, x. rewrite lookup_delete_ne; [done|]. intros ->.
    apply (Hn (nd_id (tn_node x)) (tn_start x) (tn_end x)). by exists r, x.
Qed.

Lemma erase_page_lookup mp page t page' : tk_pages (erase_page cfg mp page t) !! page' = if decide (page' = page) then None else tk_pages t !! page'.
Proof.
  unfold erase_page. destruct (tk_pages t !! page) as [r|] eqn:El.
  - assert (E : tk_pages (put_pages (delete page (tk_pages (if pr_write_protected r then snd (SetPageProtected cfg mp page false t) else t)))
      (if pr_write_protected r then snd (SetPageProtected cfg mp page false t) else t)) = delete page (tk_pages t)).
    { unfold SetPageProtected. by destruct (pr_write_protected r), (mp (host_page cfg page) false). }
    rewrite E. destruct (decide (page' = page)) as [->|]; [apply lookup_delete_eq|by apply lookup_delete_ne].
  - destruct (decide (page' = page)) as [->|]; done.
Qed.

Lemma erase_page_ok mp page t :
  (reliable = true -> forall a ro, mp a ro = true) -> (forall i a b, ~ tracks (tk_pages t) page i a b) -> tracker_ok t -> tracker_ok (erase_page cfg mp page t).
Proof.
  intros Hmp Hn [Hok Hc]. split.
  - unfold erase_page. destruct (tk_pages t !! page) as [r|] eqn:El; [|done]. destruct (po_key _ _ _ _ _ _ Hok _ _ El) as [_ Hb].
    destruct (pr_write_protected r) eqn:Ew; unfold SetPageProtected; [destruct (mp (host_page cfg page) false) eqn:Em|]; unfold tracker_base; simpl.
    + apply (base_ok_delete cfg p k Hcfg reliable _ (tk_readonly t)); [done|done|intros; set_solver|set_solver].
    + apply (base_ok_delete cfg p k Hcfg reliable _ (tk_readonly t)); [done|done|done|]. intros Hrel. by rewrite (Hmp Hrel) in Em.
    + apply (base_ok_delete cfg p k Hcfg reliable _ (tk_readonly t)); [done|done|done|]. intros Hrel Hin.
      destruct (po_readonly _ _ _ _ _ _ Hok Hrel _ Hin) as (page' & r' & Hl & Hw & He).
      apply (host_page_inj cfg p k) in He; [|done|done|by eapply Hok]. congruence.
  - intros page' id s e Ht page2 Hcov. apply erase_page_tracks; [done|]. apply erase_page_tracks in Ht; [|done]. by apply (Hc page' id s e).
Qed.

Lemma erase_pages_ok mp pages : forall t, (reliable = true -> forall a ro, mp a ro = true) ->
  (forall page, page ∈ pages -> forall i a b, ~ tracks (tk_pages t) page i a b) -> tracker_ok t ->
  let t' := foldl (fun t page => erase_page cfg mp page t) t pages in
  tracker_ok t' /\ (forall page, page ∈ pages -> tk_pages t' !! page = None) /\ (forall page, page ∉ pages -> tk_pages t' !! page = tk_pages t !! page) /\
  (forall page id s e, tracks (tk_pages t') page id s e <-> tracks (tk_pages t) page id s e).
Proof.
  induction pages as [|q l IH]; intros t Hmp Hn Hok; simpl; [by split_and!; [done|intros page []%not_elem_of_nil|..]|].
  assert (Hq : forall i a b, ~ tracks (tk_pages t) q i a b) by (apply Hn; left).
  destruct (IH (erase_page cfg mp q t) Hmp) as (H1 & H2 & H3 & H4).
  - intros page Hin i a b Ht. apply erase_page_tracks in Ht; [|done]. by apply (Hn page) in Ht; [|right].
  - by apply erase_page_ok.
  - split_and!; [done| | |].
    + intros page Hin. destruct (decide (page ∈ l)) as [Hl|Hl]; [by apply H2|]. apply elem_of_cons in Hin as [->|]; [|done].
      rewrite H3 by done. rewrite erase_page_lookup. by destruct (decide (q = q)).
    + intros page [Hne Hl]%not_elem_of_cons. rewrite H3, erase_page_lookup by done. by destruct (decide (page = q)).
    + intros page id s e. rewrite H4. by apply erase_page_tracks.
Qed.


(** The walk of [InvalidateRange]: its pages and one more test. *)
Definition range_walk (first last : Z) : nat := S (walk_pages cfg first last).

Section Range.
Context (first last : Z) (Hf : aligned cfg first) (Hl : aligned cfg last) (Hb : 0 <= first <= last) (Htop : last + sc_page_size cfg < 2 ^ 64).

Lemma range_end : last < first + Z.of_nat (walk_pages cfg first last) * sc_page_size cfg <= last + sc_page_size cfg.
Proof.
  pose proof (page_size_pos _ _ _ Hcfg). pose proof (aligned_div first last Hf Hl ltac:(lia)).
  pose proof (Z.div_pos (last - first) (sc_page_size cfg) ltac:(lia) ltac:(lia)). unfold walk_pages. rewrite Nat2Z.inj_succ, Z2Nat.id by lia. nia.
Qed.

Lemma TakeRangeNodes_run extra s :
  let s' := foldl (take_page (fun _ => true) extra) s (range_pages first last) in
  TakeRangeNodes cfg (range_walk first last) extra first last s = Some (fst s', remove_all (fst s') (snd s')).
Proof.
  pose proof range_end as He. apply (walk_loop (take_page (fun _ => true) extra) (fun n page s => TakeRangeNodes cfg n extra page last s) (fun s => (fst s, remove_all (fst s) (snd s))) last); [done|done|lia|lia|lia].
Qed.

Lemma erase_pages_run mp t : erase_pages cfg (range_walk first last) mp first last t = Some (foldl (fun t page => erase_page cfg mp page t) t (range_pages first last)).
Proof.
  pose proof range_end as He. apply (walk_loop (fun t page => erase_page cfg mp page t) (fun n page t => erase_pages cfg n mp page last t) (fun t => t) last); [done|done|lia|lia|lia].
Qed.

Definition range_tracks t (id : nat) : Prop := exists page s e, (aligned cfg page /\ first <= page <= last) /\ tracks (tk_pages t) page id s e.

Lemma range_ids t nodes t' id : batch t nodes t' (fun _ => true) (range_pages first last) -> id ∈ ids nodes <-> range_tracks t id.
Proof.
  intros (_ & _ & _ & Hin & Hout & _). split.
  - intros (x & -> & Hx)%list_elem_of_fmap. destruct (collected_tracks _ _ _ _ (Hout x Hx)) as (page & Hp & Ht).
    apply range_pages_spec in Hp; [|done|done|lia]. by exists page, (tn_start x), (tn_end x).
  - intros (page & s & e & Hp & (r & x & Hx & Hn & <- & _)). apply Hin. exists page, r. split_and!; try done. by apply range_pages_spec; [| |lia|].
Qed.

(** The range is empty of records, and no node that was in it is tracked on any page. *)
Definition invalidated t t' : Prop :=
  (forall page, aligned cfg page /\ first <= page <= last -> tk_pages t' !! page = None) /\
  (forall page id s e, tracks (tk_pages t') page id s e <-> tracks (tk_pages t) page id s e /\ ~ range_tracks t id).

Lemma range_section_cases mp extra t : (reliable = true -> forall a ro, mp a ro = true) -> tracker_ok t ->
  exists nodes t', range_section cfg (range_walk first last) mp extra first last t = Some (nodes, t') /\ tracker_ok t' /\
    (nodes = [] -> (forall id, ~ range_tracks t id) /\ invalidated t t') /\ (nodes <> [] -> batch t nodes t' (fun _ => true) (range_pages first last)).
Proof.
  intros Hmp Hok. unfold range_section. rewrite TakeRangeNodes_run. set (s' := foldl _ ([], t) _).
  pose proof (take_batch (fun _ => true) extra (range_pages first last) t) as Hb'. cbv zeta in Hb'. fold s' in Hb'.
  destruct (fst s') as [|x l] eqn:E.
  - rewrite erase_pages_run. set (t1 := remove_all [] (snd s')) in *. pose proof Hb' as (Hok1 & _ & _ & _ & _ & Ht).
    assert (Hn : forall id, ~ range_tracks t id) by (intros id Hr; apply (range_ids _ _ _ _ Hb') in Hr; by apply not_elem_of_nil in Hr).
    destruct (erase_pages_ok mp (range_pages first last) t1 Hmp) as (G1 & G2 & G3 & G4); [|by apply Hok1|].
    + intros page Hp i a b [Htr _]%Ht. apply range_pages_spec in Hp; [|done|done|lia]. apply (Hn i). by exists page, a, b.
    + eexists [], _. split; [done|]. split; [done|]. split; [intros _|done]. split; [done|]. split.
      * intros page Hp. apply G2. by apply range_pages_spec; [| |lia|].
      * intros page id a b. rewrite G4, Ht. pose proof (Hn id). pose proof (not_elem_of_nil id). simpl. naive_solver.
  - exists (x :: l), (remove_all (x :: l) (snd s')). split; [done|]. split; [by apply Hb'|]. split; [done|]. by intros _.
Qed.

Lemma range_loop_run mp extra cands t n : (reliable = true -> forall a ro, mp a ro = true) -> tracker_ok t ->
  exists cands' t', range_loop cfg (S (S n)) (range_walk first last) mp extra first last cands t = Some (cands', t') /\ tracker_ok t' /\ invalidated t t'.
Proof.
  intros Hmp Hok. simpl. destruct (range_section_cases mp extra t Hmp Hok) as (nodes & t1 & -> & Hok1 & Hnil & Hbatch).
  destruct nodes as [|x l]; [exists cands, t1; split_and!; [done|done|by apply Hnil]|]. specialize (Hbatch ltac:(done)).
  pose proof (detach_batch_core (x :: l) cands t1) as Hcore. destruct (detach_batch (x :: l) cands t1) as [cands' t2]. simpl in Hcore.
  pose proof Hcore as [= Ep2 _ _ _]. pose proof (core_ok t1 t2 Hcore Hok1) as Hok2.
  pose proof Hbatch as (_ & _ & _ & _ & _ & Ht).
  assert (Hn : forall id, ~ range_tracks t2 id).
  { intros id (page & a & b & Hp & Htr). rewrite Ep2 in Htr. apply Ht in Htr as [Htr Hni]. apply Hni, (range_ids _ _ _ _ Hbatch). by exists page, a, b. }
  destruct (range_section_cases mp extra t2 Hmp Hok2) as (nodes & t3 & -> & Hok3 & Hnil3 & Hbatch3). destruct nodes as [|y m].
  - exists cands', t3. split_and!; [done|done|]. destruct (Hnil3 eq_refl) as [_ [I1 I2]]. split; [done|].
    intros page id a b. rewrite I2, Ep2, Ht. rewrite (range_ids _ _ _ _ Hbatch). pose proof (Hn id). naive_solver.
  - destruct (Hn (nd_id (tn_node y))). apply (range_ids _ _ _ _ (Hbatch3 ltac:(done))). left.
Qed.
End Range.

(** The walk over a range that ends with the last page of the address space. *)
Lemma TakeRangeNodes_hangs extra last fuel : forall page (s : list TrackedNode * Tracker L), aligned cfg last -> last + sc_page_size cfg = 2 ^ 64 -> aligned cfg page -> 0 <= page <= last ->
  TakeRangeNodes cfg fuel extra page last s = None.
Proof.
  induction fuel as [|n IH]; intros page s Hl Htop Ha Hb; simpl; [done|]. destruct (Z.leb_spec page last); [|lia].
  pose proof (page_size_pos _ _ _ Hcfg). apply IH; [done|done| |].
  - destruct (decide (page = last)) as [->|]; unfold add64, wrap; [rewrite Htop, Z_mod_same_full; by exists 0|].
    rewrite Z.mod_small; [by apply aligned_add|]. pose proof (aligned_lt cfg p k Hcfg page last Ha Hl). lia.
  - destruct (decide (page = last)) as [->|]; unfold add64, wrap; [rewrite Htop, Z_mod_same_full; lia|].
    pose proof (aligned_lt cfg p k Hcfg page last Ha Hl). rewrite Z.mod_small; lia.
Qed.

Lemma aligned_top last : aligned cfg last -> 0 <= last < 2 ^ 64 -> last + sc_page_size cfg <= 2 ^ 64.
Proof.
  intros Hl Hb. destruct (co_bits _ _ _ Hcfg). pose proof (page_size_pos _ _ _ Hcfg). apply (aligned_lt cfg p k Hcfg last (2 ^ 64)); [done| |lia].
  exists (2 ^ (64 - p)). rewrite (co_page _ _ _ Hcfg), <- Z.pow_add_r by lia. f_equal. lia.
Qed.

Lemma window_keys s e lo hi : range_ok s e -> window cfg s e = Some (lo, hi) ->
  aligned cfg (PageKey cfg lo) /\ aligned cfg (PageKey cfg hi) /\ 0 <= PageKey cfg lo <= PageKey cfg hi /\ PageKey cfg hi <= sc_mask cfg.
Proof.
  intros [Hs He] Hw. destruct (window_bounds cfg p k Hcfg s e lo hi Hs He Hw) as [Hb Hm]. pose proof (mask_bound _ _ _ Hcfg).
  destruct (PageKey_bounds cfg p k Hcfg lo ltac:(lia)) as (L1 & L2 & L3). destruct (PageKey_bounds cfg p k Hcfg hi ltac:(lia)) as (G1 & G2 & G3).
  split_and!; try done; try lia. destruct (decide (PageKey cfg hi < PageKey cfg lo)) as [Hlt|]; [|lia]. pose proof (aligned_lt cfg p k Hcfg _ _ G3 L3 Hlt). lia.
Qed.

Lemma range_section_ok mp extra s e lo hi t nodes t' : (reliable = true -> forall a ro, mp a ro = true) -> tracker_ok t -> range_ok s e -> window cfg s e = Some (lo, hi) ->
  range_section cfg (range_walk (PageKey cfg lo) (PageKey cfg hi)) mp extra (PageKey cfg lo) (PageKey cfg hi) t = Some (nodes, t') -> tracker_ok t'.
Proof.
  intros Hmp Hok Hr Hw Hrun. destruct (window_keys s e lo hi Hr Hw) as (A1 & A2 & A3 & A4). pose proof (mask_bound _ _ _ Hcfg).
  pose proof (aligned_top _ A2 ltac:(lia)). destruct (decide (PageKey cfg hi + sc_page_size cfg = 2 ^ 64)) as [E|E].
  - unfold range_section in Hrun. by rewrite TakeRangeNodes_hangs in Hrun.
  - destruct (range_section_cases (PageKey cfg lo) (PageKey cfg hi) A1 A2 A3 ltac:(lia) mp extra t Hmp Hok) as (nodes' & t1 & E1 & Hok1 & _). rewrite Hrun in E1. by injection E1 as <- <-.
Qed.

(** ** The other sections *)

Lemma node_section_ok extra tracked aliases t : tracker_ok t -> tracker_ok (node_section cfg extra tracked aliases t).
Proof. intros Hok. apply RemoveTrackedNode_ok. eapply core_ok; [apply ClearDispatchSlots_core|done]. Qed.

Lemma unprotect_readonly mp keys : forall t, (forall a ro, mp a ro = true) -> let t' := foldl (unprotect cfg mp) t keys in
  tk_pages t' = tk_pages t /\ tk_retired t' = tk_retired t /\ tk_hint t' = tk_hint t /\
  forall a, a ∈ tk_readonly t' -> a ∈ tk_readonly t /\ forall page r, page ∈ keys -> tk_pages t !! page = Some r -> pr_write_protected r = true -> a <> host_page cfg page.
Proof.
  induction keys as [|q l IH]; intros t Hmp; simpl; [split_and!; try done; intros a Ha; split; [done|by intros page r []%not_elem_of_nil]|].
  assert (Hu : tk_pages (unprotect cfg mp t q) = tk_pages t /\ tk_retired (unprotect cfg mp t q) = tk_retired t /\ tk_hint (unprotect cfg mp t q) = tk_hint t /\
    forall a, a ∈ tk_readonly (unprotect cfg mp t q) -> a ∈ tk_readonly t /\ forall r, tk_pages t !! q = Some r -> pr_write_protected r = true -> a <> host_page cfg q).
  { unfold unprotect, SetPageProtected. destruct (tk_pages t !! q) as [r|]; [|naive_solver]. rewrite Hmp.
    destruct (pr_write_protected r) eqn:E; simpl; split_and!; try done; intros a Ha; [split; [set_solver|]|split; [done|]]; intros r' [= <-]; [set_solver|congruence]. }
  destruct Hu as (U1 & U2 & U3 & U4). destruct (IH (unprotect cfg mp t q) Hmp) as (H1 & H2 & H3 & H4).
  split_and!; [by rewrite H1|by rewrite H2|by rewrite H3|]. intros a Ha. destruct (H4 a Ha) as [Hr Hk]. destruct (U4 a Hr) as [Hr0 Hq].
  split; [done|]. intros page r [->|Hin]%elem_of_cons Hl Hw; [by eapply Hq|]. rewrite U1 in Hk. by eapply Hk.
Qed.

Lemma unprotect_hint mp keys : forall t, let t' := foldl (unprotect cfg mp) t keys in tk_retired t' = tk_retired t /\ tk_hint t' = tk_hint t.
Proof.
  induction keys as [|q l IH]; intros t; simpl; [done|]. destruct (IH (unprotect cfg mp t q)) as [-> ->].
  unfold unprotect, SetPageProtected. destruct (tk_pages t !! q) as [r|]; [|done]. by destruct (pr_write_protected r), (mp (host_page cfg q) false).
Qed.

Lemma disable_section_ok mp t : (reliable = true -> forall a ro, mp a ro = true) -> tracker_ok t -> tracker_ok (disable_section cfg mp t).
Proof.
  intros Hmp [Hok Hc]. unfold disable_section. set (t1 := put_runtimes _ _).
  assert (He : forall page r, (∅ : gmap Z PageRecord) !! page = Some r -> False) by (intros page r Hl; by rewrite lookup_empty in Hl).
  destruct (unprotect_hint mp (page_keys t1) t1) as [Er Eh]. split.
  - split; simpl.
    1-3: by intros page r Hl%He.
    + intros Hrel a Ha. destruct (unprotect_readonly mp (page_keys t1) t1 (Hmp Hrel)) as (_ & _ & _ & H4). destruct (H4 a Ha) as [Hin Hk].
      destruct (po_readonly _ _ _ _ _ _ Hok Hrel a Hin) as (page & r & Hl & Hw & ->). destruct (Hk page r); [|done|done|done]. apply page_keys_spec. by exists r.
    + by intros _ page r Hl%He.
    + rewrite Er, Eh. intros Hd [(page & r & Hl%He & _)|Hret]; [done|]. apply (po_hint _ _ _ _ _ _ Hok Hd). by right.
    + by intros page id s e (r & x & Hl%He & _).
  - by intros page id s e (r & x & Hl%He & _).
Qed.

End Operations.

(** ** All interleavings *)

Section Interleavings.
Context {L : Type} `{CodeOps L} (cfg : SmcConfig).

Definition u64 (x : Z) : Prop := 0 <= x < 2 ^ 64.

(** The outcomes of [mprotect] considered: with [reliable], every call succeeds. *)
Definition outcome (reliable : bool) (mp : Z -> bool -> bool) : Prop := reliable = true -> forall a ro, mp a ro = true.

(** The sections under [metadata_lock_], in any order, and everything that leaves the records, the
    protection, the retired list and the hint alone: the runtimes, the dispatch tables, the code. *)
Inductive tracker_step (reliable : bool) : Tracker L -> Tracker L -> Prop :=
| PageRegister mp module node s e t t' :
    outcome reliable mp -> u64 s -> u64 e -> RegisterNode cfg mp module node s e t = Some t' -> tracker_step reliable t t'
| PageFault mp l1 a t : outcome reliable mp -> tracker_step reliable t (snd (HandleWriteFault cfg mp l1 a t))
| PageClose l1 t : tracker_step reliable t (snd (close_section cfg l1 t))
| PageRange mp extra s e lo hi t nodes t' :
    outcome reliable mp -> range_ok s e -> window cfg s e = Some (lo, hi) ->
    range_section cfg (range_walk cfg (PageKey cfg lo) (PageKey cfg hi)) mp extra (PageKey cfg lo) (PageKey cfg hi) t = Some (nodes, t') -> tracker_step reliable t t'
| PageNode extra tracked aliases t : tracker_step reliable t (node_section cfg extra tracked aliases t)
| PageRetire candidates t : tracker_step reliable t (Retire_candidates cfg candidates t)
| PageReclaim t : tracker_step reliable t (ReclaimRetiredLocked cfg t)
| PageDisable mp t : outcome reliable mp -> tracker_step reliable t (disable_section cfg mp t)
| PageOutside t t' : core t' = core t -> tracker_step reliable t t'.

Definition tracker_reachable (reliable : bool) (t : Tracker L) : Prop := exists l, rtc (tracker_step reliable) (tracker_new l) t.

Lemma tracker_step_ok p k reliable t t' : config_ok cfg p k -> tracker_step reliable t t' -> tracker_ok cfg reliable t -> tracker_ok cfg reliable t'.
Proof.
  intros Hcfg [mp module node s e u u' Hmp Hs He Hrun|mp l1 a u Hmp|l1 u|mp extra s e lo hi u nodes u' Hmp Hr Hw Hrun|extra tracked aliases u|cands u|u|mp u Hmp|u u' Hc] Hok.
  - destruct (RegisterNode_run cfg p k Hcfg reliable mp module node s e u Hmp Hok Hs He) as (u2 & E & Hok' & _). rewrite Hrun in E. by injection E as <-.
  - by apply (HandleWriteFault_ok cfg p k Hcfg).
  - by apply (close_section_ok cfg reliable).
  - by eapply (range_section_ok cfg p k Hcfg reliable mp extra s e lo hi u nodes).
  - by apply node_section_ok.
  - by apply Retire_ok.
  - by apply Reclaim_ok.
  - by eapply disable_section_ok.
  - by eapply core_ok.
Qed.

Lemma tracker_reachable_ok p k reliable t : config_ok cfg p k -> tracker_reachable reliable t -> tracker_ok cfg reliable t.
Proof.
  intros Hcfg [l Hsteps]. assert (Hok : tracker_ok cfg reliable (tracker_new l)) by apply (tracker_new_ok cfg p k Hcfg). revert Hok.
  induction Hsteps as [|u v w Hs _ IH]; [done|]. intros Hok. apply IH. by eapply tracker_step_ok.
Qed.
End Interleavings.

(** (C15) While no [mprotect] fails, a store to translated guest code cannot go unnoticed, in any
    interleaving of registrations, faults, closing windows and invalidations: every page of the guest range of a
    tracked node has a record with the node; either its host page is write-protected, and
    [HandleWriteFault] claims a fault on it, or its window is open and the next [CloseWriteWindow]
    collects the node. *)
Theorem tracked_pages_guarded {L} `{CodeOps L} (cfg : SmcConfig) (p k : Z) (t : Tracker L) page id s e page' :
  config_ok cfg p k -> tracker_reachable cfg true t -> tracks (tk_pages t) page id s e -> covers cfg page' s e ->
  exists r, tk_pages t !! page' = Some r /\ tracks (tk_pages t) page' id s e /\
    ((pr_write_protected r = true /\ host_page cfg page' ∈ tk_readonly t /\
      forall mp l1 a, (forall b ro, mp b ro = true) -> PageKey cfg (sub64 a (sc_bias cfg)) = page' -> fst (HandleWriteFault cfg mp l1 a t) = true) \/
     (pr_dirty r = true /\ (host_page cfg page' ∉ tk_readonly t) /\ forall l1, id ∈ ids (fst (close_section cfg l1 t)))).
Proof.
  intros Hcfg Hreach Ht Hcov. pose proof (tracker_reachable_ok cfg p k true t Hcfg Hreach) as Hok. pose proof Hok as [Hb Hc].
  pose proof (Hc page id s e Ht page' Hcov) as Ht'. pose proof Ht' as (r & x & Hl & Hx & Hi & _). exists r. split; [done|]. split; [done|].
  destruct (po_guarded _ _ _ _ _ _ Hb eq_refl page' r Hl) as [Hw|Hd]; [by intros E; rewrite E in Hx; apply not_elem_of_nil in Hx| |].
  - left. split; [done|]. split; [by eapply Hb|]. intros mp l1 a Hmp <-.
    by destruct (HandleWriteFault_opens cfg p k Hcfg true mp l1 a t r Hok Hl Hw (Hmp _ _)) as (t' & -> & _).
  - right. split; [done|]. split.
    + intros Hin. destruct (po_readonly _ _ _ _ _ _ Hb eq_refl _ Hin) as (q & r' & Hl' & Hw & He).
      apply (host_page_inj cfg p k Hcfg) in He; [|by eapply Hb|by eapply Hb]. subst q. rewrite Hl in Hl'. injection Hl' as <-.
      destruct (po_state _ _ _ _ _ _ Hb _ _ Hl) as [S1 _]. destruct (S1 Hw). congruence.
    + intros l1. assert (Hd' : dirty_tracks t id) by (by exists page', r, x).
      destruct (decide (fst (close_section cfg l1 t) = [])) as [E|E]; [by destruct (close_section_nil cfg true l1 t E) as [Hn _]; destruct (Hn id)|].
      by apply (dirty_ids cfg true t _ _ id (close_section_batch cfg true l1 t E)).
Qed.

(** (C16) [HandleWriteFault] on every page, in every reachable state: a fault outside the records is not
    claimed; on a write-protected page, when [mprotect] succeeds, the page becomes writable and dirty, the targets of
    all its nodes have been signalled in order, and no dispatch table, private or shared, has a slot
    for one of their locations, while the slots of other locations are untouched; on an open page or
    a tombstone the fault is claimed as stale and the page stays as it is. *)
Theorem HandleWriteFault_spec {L} `{CodeOps L} (cfg : SmcConfig) (p k : Z) reliable (mp : Z -> bool -> bool) l1 a (t : Tracker L) :
  config_ok cfg p k -> tracker_reachable cfg reliable t ->
  let page := PageKey cfg (sub64 a (sc_bias cfg)) in
  match tk_pages t !! page with
  | None => HandleWriteFault cfg mp l1 a t = (false, t)
  | Some r =>
      if pr_write_protected r then
        if mp (host_page cfg page) false then exists t', HandleWriteFault cfg mp l1 a t = (true, t') /\ opened cfg l1 t page r t'
        else fst (HandleWriteFault cfg mp l1 a t) = false /\ tk_pages (snd (HandleWriteFault cfg mp l1 a t)) = tk_pages t
      else fst (HandleWriteFault cfg mp l1 a t) = (pr_dirty r || pr_claim_stale_fault r) /\ tk_pages (snd (HandleWriteFault cfg mp l1 a t)) = tk_pages t
  end.
Proof.
  intros Hcfg Hreach page. pose proof (tracker_reachable_ok cfg p k reliable t Hcfg Hreach) as Hok.
  destruct (tk_pages t !! page) as [r|] eqn:El; [|unfold HandleWriteFault; fold page; by rewrite El].
  destruct (pr_write_protected r) eqn:Ew; [destruct (mp (host_page cfg page) false) eqn:Em|].
  - destruct (HandleWriteFault_opens cfg p k Hcfg reliable mp l1 a t r Hok El Ew Em) as (t' & E & _ & Ho). by exists t'.
  - split.
    + unfold HandleWriteFault. fold page. pose proof (po_state _ _ _ _ _ _ (proj1 Hok) _ _ El) as [S1 _]. destruct (S1 Ew) as [Hd Hc].
      rewrite El, Ew, Hd, Hc. simpl. unfold SetPageProtected. by rewrite Em.
    + destruct (HandleWriteFault_keeps cfg mp l1 a t) as [[= -> _ _ _]|[= -> _ _ _]]; [fold page; naive_solver|done|]. unfold MarkCloseWorkPending. by destruct (sc_dirty_hint cfg).
  - unfold HandleWriteFault. fold page. rewrite El, Ew. simpl. rewrite !andb_true_r.
    destruct (pr_claim_stale_fault r), (pr_dirty r); simpl; try done. unfold MarkCloseWorkPending. by destruct (sc_dirty_hint cfg).
Qed.

(** (C17) [CloseWriteWindow] with the close-work hint does what it does without it, in every reachable
    state: the early return is taken only when the slow path would change nothing.  Two rounds of
    its loop are enough when no other thread intervenes; then no page is dirty, every page that was is
    a tombstone, and no node that was recorded at a dirty page is tracked any more, at any page. *)
Theorem CloseWriteWindow_spec {L} `{CodeOps L} (cfg : SmcConfig) (p k : Z) reliable l1 n (t : Tracker L) :
  config_ok cfg p k -> tracker_reachable cfg reliable t ->
  CloseWriteWindow cfg (S (S n)) l1 t = close_slow cfg (S (S n)) l1 t /\
  exists t', CloseWriteWindow cfg (S (S n)) l1 t = Some t' /\ closed t t' /\ any_dirty t' = false.
Proof.
  intros Hcfg Hreach. pose proof (tracker_reachable_ok cfg p k reliable t Hcfg Hreach) as Hok.
  assert (E : CloseWriteWindow cfg (S (S n)) l1 t = close_slow cfg (S (S n)) l1 t).
  { unfold CloseWriteWindow. destruct (close_skipped cfg t) eqn:E; [|done]. symmetry. by apply (close_slow_idle cfg reliable). }
  split; [done|]. rewrite E. destruct (close_slow_spec cfg reliable l1 t n Hok) as (t' & Es & _ & Hc). exists t'. split; [done|]. split; [done|].
  destruct (any_dirty t') eqn:Ed; [|done]. apply any_dirty_spec in Ed as (page & r & Hl & Hd). destruct Hc as [Hf _]. specialize (Hf page).
  unfold flags in Hf. rewrite Hl in Hf. destruct (tk_pages t !! page) as [r0|]; [|done]. simpl in Hf. injection Hf. congruence.
Qed.

(** [RegisterNode] returns for every range of guest addresses, also when it ends at the top of the address
    space, and records the node at every page of it, in the window; when no [mprotect] fails, each of
    them is write-protected or open. *)
Theorem RegisterNode_covers {L} `{CodeOps L} (cfg : SmcConfig) (p k : Z) reliable (mp : Z -> bool -> bool) module node s e (t : Tracker L) :
  config_ok cfg p k -> tracker_reachable cfg reliable t -> outcome reliable mp -> u64 s -> u64 e ->
  exists t', RegisterNode cfg mp module node s e t = Some t' /\
    (forall page id a b, tracks (tk_pages t) page id a b -> tracks (tk_pages t') page id a b) /\
    (tk_enabled t = true -> tk_locally_enabled t = true -> s <> UINT64_MAX ->
     forall page, covers cfg page s (registered_end s e) -> tracks (tk_pages t') page (nd_id node) s (registered_end s e) /\
       (reliable = true -> exists r, tk_pages t' !! page = Some r /\ (pr_write_protected r = true \/ pr_dirty r = true))).
Proof.
  intros Hcfg Hreach Hmp Hs He. pose proof (tracker_reachable_ok cfg p k reliable t Hcfg Hreach) as Hok.
  destruct (RegisterNode_run cfg p k Hcfg reliable mp module node s e t Hmp Hok Hs He) as (t' & E & [Hb _] & Hnew & Hold).
  exists t'. split; [done|]. split; [done|]. intros E1 E2 Hne page Hcov. pose proof (Hnew E1 E2 Hne page Hcov) as Ht. split; [done|].
  intros Hrel. destruct Ht as (r & x & Hl & Hx & _). exists r. split; [done|]. apply (po_guarded _ _ _ _ _ _ Hb Hrel page r Hl).
  intros En. rewrite En in Hx. by apply not_elem_of_nil in Hx.
Qed.

(** [InvalidateRange] returns for every range that does not reach the last page of the address space:
    no page of it has a record, and no node recorded there is tracked at any page. *)
Theorem InvalidateRange_returns {L} `{CodeOps L} (cfg : SmcConfig) (p k : Z) reliable (mp : Z -> bool -> bool) extra s e lo hi n (t : Tracker L) :
  config_ok cfg p k -> tracker_reachable cfg reliable t -> outcome reliable mp -> range_ok s e -> window cfg s e = Some (lo, hi) ->
  PageKey cfg hi + sc_page_size cfg < 2 ^ 64 ->
  exists t', InvalidateRange cfg (S (S n)) (range_walk cfg (PageKey cfg lo) (PageKey cfg hi)) mp extra s e t = Some t' /\
    invalidated cfg (PageKey cfg lo) (PageKey cfg hi) t t'.
Proof.
  intros Hcfg Hreach Hmp Hr Hw Htop. pose proof (tracker_reachable_ok cfg p k reliable t Hcfg Hreach) as Hok.
  destruct (window_keys cfg p k Hcfg s e lo hi Hr Hw) as (A1 & A2 & A3 & _).
  destruct (range_loop_run cfg p k Hcfg reliable _ _ A1 A2 A3 Htop mp extra [] t n Hmp Hok) as (cands & t' & E & _ & Hi).
  unfold InvalidateRange. destruct Hr as [_ Hr]. destruct (Z.leb_spec e s); [lia|]. rewrite Hw, E. eexists. split; [reflexivity|].
  unfold invalidated. by rewrite Reclaim_pages, Retire_pages.
Qed.

(** A guest range that ends in the last page of the address space makes [InvalidateRange] loop for
    ever when the window is the whole address space: the address of the next page wraps around to
    zero and stays below the last one, whatever the state. *)
Theorem InvalidateRange_hangs {L} `{CodeOps L} (cfg : SmcConfig) (p : Z) fuel walk (mp : Z -> bool -> bool) extra s e (t : Tracker L) :
  config_ok cfg p 64 -> u64 s -> u64 e -> s < e -> 2 ^ 64 - sc_page_size cfg < e ->
  InvalidateRange cfg fuel walk mp extra s e t = None.
Proof.
  intros Hcfg Hs He Hlt Htop. unfold InvalidateRange. destruct (Z.leb_spec e s); [lia|].
  assert (Hw : window cfg s e = Some (s, e - 1)) by (unfold window; rewrite (co_mask _ _ _ Hcfg); done). rewrite Hw.
  destruct (window_keys cfg p 64 Hcfg s e s (e - 1)) as (A1 & A2 & A3 & A4); [unfold range_ok, u64 in *; lia|done|].
  unfold u64 in *. destruct (PageKey_bounds cfg p 64 Hcfg (e - 1) ltac:(lia)) as (_ & B2 & _).
  assert (Hlast : PageKey cfg (e - 1) + sc_page_size cfg = 2 ^ 64).
  { pose proof (mask_bound _ _ _ Hcfg). pose proof (aligned_top cfg p 64 Hcfg _ A2 ltac:(lia)).
    destruct (decide (PageKey cfg (e - 1) + sc_page_size cfg < 2 ^ 64)) as [Hl|]; [|lia].
    assert (Ha : aligned cfg (2 ^ 64)).
    { destruct (co_bits _ _ _ Hcfg). exists (2 ^ (64 - p)). rewrite (co_page _ _ _ Hcfg), <- Z.pow_add_r by lia. f_equal. lia. }
    pose proof (aligned_lt cfg p 64 Hcfg _ _ (aligned_add cfg _ A2) Ha Hl). lia. }
  assert (Hn : range_loop cfg fuel walk mp extra (PageKey cfg s) (PageKey cfg (e - 1)) [] t = None); [|by rewrite Hn].
  destruct fuel as [|n]; [done|]. simpl. unfold range_section. by rewrite (TakeRangeNodes_hangs cfg p 64 Hcfg).
Qed.

(** ** An example *)

(** Code that is a map from nodes to what is published for them, without links. *)
#[export] Instance code_map_ops : CodeOps (gmap nat Code) := {
  signal_invalidate _ l := (false, l);
  delink_targets _ _ l := (false, l);
  detach_node x l := (l !! nd_id (tn_node x), delete (nd_id (tn_node x)) l);
  release_code _ l := l;
  published_code _ node l := l !! nd_id node;
  query_targets _ _ _ := []
}.

Definition config : SmcConfig := SmcConfig_new 0x10000 0 4096 false true.
Definition always (a : Z) (ro : bool) : bool := true.
Definition node1 : Node := mkNode 1 [0x1ff0].

Lemma config_is_ok : config_ok config 12 64.
Proof. by split. Qed.

Lemma always_outcome : outcome true always.
Proof. done. Qed.

(** One translation over the border of two pages, then a fault on the second one. *)
Definition t_new : Tracker (gmap nat Code) := tracker_new {[1%nat := 7%nat]}.
Definition t_registered : Tracker (gmap nat Code) := Eval vm_compute in default t_new (RegisterNode config always 0 node1 0x1ff0 0x2010 t_new).
Definition t_faulted : Tracker (gmap nat Code) := Eval vm_compute in snd (HandleWriteFault config always 0 0x12008 t_registered).

Lemma t_new_reachable : tracker_reachable config true t_new.
Proof. exists {[1%nat := 7%nat]}. apply rtc_refl. Qed.

Lemma t_registered_reachable : tracker_reachable config true t_registered.
Proof.
  exists {[1%nat := 7%nat]}. apply rtc_once, (PageRegister _ _ always 0 node1 0x1ff0 0x2010); [done|by split|by split|by vm_compute].
Qed.

Lemma t_faulted_reachable : tracker_reachable config true t_faulted.
Proof.
  destruct t_registered_reachable as [l Hl]. exists l. eapply rtc_r; [exact Hl|].
  replace t_faulted with (snd (HandleWriteFault config always 0 0x12008 t_registered)) by by vm_compute. apply PageFault. done.
Qed.

Lemma node1_covers page : page = 0x1000 \/ page = 0x2000 -> covers config page 0x1ff0 0x2010.
Proof.
  intros Hp. exists 0x1ff0, 0x200f. split; [by vm_compute|]. split; [destruct Hp as [-> | ->]; [by exists 1|by exists 2]|].
  destruct Hp as [-> | ->]; by vm_compute.
Qed.

Lemma node1_tracked (t : Tracker (gmap nat Code)) page r : tk_pages t !! page = Some r -> pr_nodes r = [mkTracked 0 node1 0x1ff0 0x2010] -> tracks (tk_pages t) page 1 0x1ff0 0x2010.
Proof. intros Hl Hn. exists r, (mkTracked 0 node1 0x1ff0 0x2010). rewrite Hn. split; [done|]. split; [left|done]. Qed.

Lemma tracked_pages_guarded_witness :
  exists r, tk_pages t_faulted !! 0x2000 = Some r /\ pr_dirty r = true /\ forall l1, 1%nat ∈ ids (fst (close_section config l1 t_faulted)).
Proof.
  destruct (tracked_pages_guarded config 12 64 t_faulted 0x1000 1 0x1ff0 0x2010 0x2000) as (r & Hl & _ & [(Hw & _)|(Hd & _ & Hc)]).
  - apply config_is_ok.
  - apply t_faulted_reachable.
  - eapply node1_tracked; by vm_compute.
  - apply node1_covers. by right.
  - vm_compute in Hl. injection Hl as <-. done.
  - exists r. done.
Defined.

Lemma HandleWriteFault_spec_witness : exists t', HandleWriteFault config always 0 0x12008 t_registered = (true, t') /\ tk_pages t' !! 0x2000 = Some (mkPage false true false [mkTracked 0 node1 0x1ff0 0x2010]).
Proof.
  pose proof (HandleWriteFault_spec config 12 64 true always 0 0x12008 t_registered config_is_ok t_registered_reachable) as Hs.
  cbv zeta in Hs. replace (PageKey config (sub64 0x12008 (sc_bias config))) with 0x2000 in Hs by (by vm_compute).
  replace (tk_pages t_registered !! 0x2000) with (Some (mkPage true false false [mkTracked 0 node1 0x1ff0 0x2010])) in Hs by (by vm_compute).
  destruct Hs as (t' & E & Ho & _). exists t'. split; [exact E|]. rewrite Ho. by vm_compute.
Defined.

Lemma CloseWriteWindow_spec_witness : exists t', CloseWriteWindow config 2 0 t_faulted = Some t' /\ any_dirty t' = false /\ forall page, ~ tracks (tk_pages t') page 1 0x1ff0 0x2010.
Proof.
  destruct (CloseWriteWindow_spec config 12 64 true 0 0 t_faulted config_is_ok t_faulted_reachable) as (_ & t' & E & [_ Ht] & Hd).
  exists t'. split; [done|]. split; [done|]. intros page [_ Hn]%Ht. apply Hn. exists 0x2000, (mkPage false true false [mkTracked 0 node1 0x1ff0 0x2010]), (mkTracked 0 node1 0x1ff0 0x2010).
  split_and!; [by vm_compute|done|left|done].
Defined.

(** A block that ends with the last byte but one of the address space. *)
Lemma RegisterNode_covers_witness : exists t', RegisterNode config always 0 node1 (2 ^ 64 - 4) UINT64_MAX t_new = Some t' /\ tracks (tk_pages t') (2 ^ 64 - 4096) 1 (2 ^ 64 - 4) UINT64_MAX.
Proof.
  destruct (RegisterNode_covers config 12 64 true always 0 node1 (2 ^ 64 - 4) UINT64_MAX t_new config_is_ok t_new_reachable always_outcome) as (t' & E & _ & Hn); [by split|by split|].
  exists t'. split; [done|]. apply (Hn eq_refl eq_refl); [done|].
  exists (2 ^ 64 - 4), (2 ^ 64 - 2). split; [by vm_compute|]. split; [by exists (2 ^ 52 - 1)|by vm_compute].
Defined.

Lemma InvalidateRange_returns_witness : exists t', InvalidateRange config 2 3 always None 0x1000 0x2ff0 t_registered = Some t' /\ tk_pages t' !! 0x2000 = None.
Proof.
  destruct (InvalidateRange_returns config 12 64 true always None 0x1000 0x2ff0 0x1000 0x2fef 0 t_registered config_is_ok t_registered_reachable always_outcome) as (t' & E & Hn & _).
  - by split.
  - by vm_compute.
  - by vm_compute.
  - exists t'. split; [exact E|]. apply Hn. split; [by exists 2|by vm_compute].
Defined.

(** munmap(0xFFFFFFFFFFFFF000, 0xFFF). *)
Lemma InvalidateRange_hangs_witness : InvalidateRange config 100 1000 always None 0xFFFFFFFFFFFFF000 UINT64_MAX t_registered = None.
Proof. apply (InvalidateRange_hangs config 12); [apply config_is_ok|by split|by split|done|done]. Defined.
