(* ===== verification/LinkManager.v ===== *)
(** * Direct links between translated blocks

    Model of [LinkManager] (runtime/backend/link_manager.h, link_manager.cpp,
    link_manager_flags.cpp) with the states of edge_flags_state.h and the
    address arithmetic of code_cache.cpp it uses: the sites in translated code that
    branch to other guest addresses, the published targets with their
    generations, and the indexes over both.

    Pointers and addresses are integers, 0 is null; a translated instruction is the word
    at its address in the writable alias, in [lm_code].  Every operation here holds
    the manager's mutex; the lock-free path of the signal handler runs against
    them in LinkSignal.v, and its sequential effect is [SignalInvalidateTarget] here.
    Allocation does not fail in the model. *)

From Stdlib Require Import ZArith Lia.
From stdpp Require Import numbers base gmap sets list sorting.
From S2P Require Import Prelude MachineInt.

Local Open Scope Z_scope.
Local Open Scope svm_scope.

(** ** Pending flags at an edge *)

Definition kEdgeNZCVMask : Z := 0xF0000000.
Definition kEdgeCarryMask : Z := 0x20000000.

Inductive EdgeCarryPolarity := CarryDirect | CarryInverted | CarryUnknown.
Inductive EdgeFlagsProducer := ProducerArithmetic | ProducerLogical | ProducerRestore | ProducerCanonical.

#[export] Instance EdgeCarryPolarity_eq_dec : EqDecision EdgeCarryPolarity.
Proof. solve_decision. Defined.
#[export] Instance EdgeFlagsProducer_eq_dec : EqDecision EdgeFlagsProducer.
Proof. solve_decision. Defined.

Record EdgeFlagsState := mkEdgeFlagsState {
  ef_valid_nzcv_mask : Z;
  ef_carry_polarity : EdgeCarryPolarity;
  ef_producer : EdgeFlagsProducer
}.

(** [u32] complement. *)
Definition not32 (x : Z) : Z := Z.lxor x (2 ^ 32 - 1).

Definition IsCanonical (e : EdgeFlagsState) : bool :=
  (ef_valid_nzcv_mask e =? 0) && bool_decide (ef_carry_polarity e = CarryUnknown) &&
  bool_decide (ef_producer e = ProducerCanonical).

Definition EdgeFlags_IsWellFormed (e : EdgeFlagsState) : bool :=
  if negb (Z.land (ef_valid_nzcv_mask e) (not32 kEdgeNZCVMask) =? 0) then false
  else if ef_valid_nzcv_mask e =? 0 then IsCanonical e
  else bool_decide (ef_producer e <> ProducerCanonical) &&
       (negb (Z.land (ef_valid_nzcv_mask e) kEdgeCarryMask =? 0) || bool_decide (ef_carry_polarity e = CarryUnknown)).

Definition HasPendingPState (e : EdgeFlagsState) : bool :=
  negb (ef_valid_nzcv_mask e =? 0) && EdgeFlags_IsWellFormed e.

Record EdgeFlagsTargetContract := mkContract {
  ec_overwrite_before_observe : Z;
  ec_observed_nzcv_mask : Z;
  ec_commits_before_fault : bool;
  ec_barrier_before_commit : bool
}.

Definition Contract_IsWellFormed (c : EdgeFlagsTargetContract) : bool :=
  (Z.land (ec_overwrite_before_observe c) (not32 kEdgeNZCVMask) =? 0) &&
  (Z.land (ec_observed_nzcv_mask c) (not32 0xF) =? 0).

Definition ObservedHostMask (c : EdgeFlagsTargetContract) : Z := wrap 32 (Z.shiftl (ec_observed_nzcv_mask c) 28).

Definition CanPublishPendingEntry (c : EdgeFlagsTargetContract) : bool :=
  Contract_IsWellFormed c && negb (ec_overwrite_before_observe c =? 0) && ec_commits_before_fault c &&
  negb (ec_barrier_before_commit c).

Definition Accepts (c : EdgeFlagsTargetContract) (e : EdgeFlagsState) : bool :=
  CanPublishPendingEntry c && HasPendingPState e &&
  (Z.land (ef_valid_nzcv_mask e) (not32 (ec_overwrite_before_observe c)) =? 0) &&
  (Z.land (ef_valid_nzcv_mask e) (ObservedHostMask c) =? 0).

(** ** Code regions *)

Record CodeRegion := mkCodeRegion {
  cr_id : Z;
  cr_rw_base : Z;
  cr_rx_base : Z;
  cr_capacity : Z
}.

Definition Contains (base capacity address : Z) : bool :=
  negb ((base =? 0) || (address =? 0)) && (base <=? address) && (address - base <? capacity).

Definition ContainsRx (r : CodeRegion) (a : Z) : bool := Contains (cr_rx_base r) (cr_capacity r) a.
Definition ContainsRw (r : CodeRegion) (a : Z) : bool := Contains (cr_rw_base r) (cr_capacity r) a.

Definition SiteRxToRw (r : CodeRegion) (rx_site : Z) : Z :=
  if ContainsRx r rx_site then wrap 64 (cr_rw_base r + (rx_site - cr_rx_base r)) else 0.

(** ** Branch instructions *)

Definition kImm26MaxDistance : Z := 2 ^ 27 - 4.
Definition kBranchImmediateMask : Z := 0x03FFFFFF.
Definition kBranchOpcodeMask : Z := 0x7C000000.
Definition kBranchTypeMask : Z := 0xFC000000.
Definition kBranchOpcode : Z := 0x14000000.
Definition kBOpcode : Z := 0x14000000.
Definition kBLOpcode : Z := 0x94000000.
Definition kParityPublishRegisterMask : Z := 0x3E0.
Definition kParityPublishOpcode : Z := 0xB3401C1A.

(** [offset] is a signed 64-bit distance, [offset / 4] is exact here. *)
Definition EncodeBranch (offset opcode : Z) : option Z :=
  if negb (Z.land offset 3 =? 0) || (offset <? - kImm26MaxDistance) || (kImm26MaxDistance <? offset) then None
  else Some (Z.lor opcode (Z.land (wrap 32 (Z.quot offset 4)) kBranchImmediateMask)).

Definition EncodeB (offset : Z) : option Z := EncodeBranch offset kBOpcode.
Definition EncodeBL (offset : Z) : option Z := EncodeBranch offset kBLOpcode.

Definition DecodeBranchTarget (site insn : Z) : option Z :=
  if (site =? 0) || negb (Z.land site 3 =? 0) || negb (Z.land insn kBranchOpcodeMask =? kBranchOpcode) then None
  else
    let signed_words := Z.shiftr (to_signed 32 (wrap 32 (Z.shiftl insn 6))) 6 in
    let offset := signed_words * 4 in
    if (offset <? - kImm26MaxDistance) || (kImm26MaxDistance <? offset) then None
    else Some (wrap 64 (if 0 <=? offset then site + offset else site - - offset)).

(** ** Records *)

Inductive LinkSiteState := Unlinked | Linked | Far | Retiring.
Inductive LinkSiteKind :=
| KindUnconditional | KindConditionalThen | KindConditionalElse | KindSwitchArm | KindCheckHalt
| KindBackedgeCold | KindCall | KindCount.

#[export] Instance LinkSiteState_eq_dec : EqDecision LinkSiteState.
Proof. solve_decision. Defined.
#[export] Instance LinkSiteKind_eq_dec : EqDecision LinkSiteKind.
Proof. solve_decision. Defined.

(** [LinkSiteKey]: region id and offset; [LinkSourceOwner]: module and allocation. *)
Abbreviation LinkSiteKey := (Z * Z)%type.
Abbreviation LinkSourceOwner := (Z * Z)%type.

Record LinkSiteRecord := mkSiteRecord {
  ls_site : LinkSiteKey;
  ls_guest_target : Z;
  ls_source_owner : LinkSourceOwner;
  ls_target_generation : Z;
  ls_edge_flags : EdgeFlagsState;
  ls_flags_bypass_offset : Z;
  ls_flags_bypass_instruction : Z;
  ls_state : LinkSiteState;
  ls_kind : LinkSiteKind;
  ls_pending_flags_compatible : bool
}.

Record LinkFlagsBypassPatch := mkBypass {
  bp_rx_site : Z;
  bp_rw_site : Z;
  bp_unlinked_instruction : Z;
  bp_linked_instruction : Z
}.

Record LinkSignalPatchSite := mkPatchSite {
  ps_region : CodeRegion;
  ps_rx_site : Z;
  ps_rw_site : Z;
  ps_unlinked_bl : Z;
  ps_flags_bypass : LinkFlagsBypassPatch
}.

Record LinkTargetRecord := mkLinkTargetRecord {
  lt_guest_target : Z;
  lt_host_pc : Z;
  lt_direct_host_pc : Z;
  lt_pending_flags_host_pc : Z;
  lt_pending_flags_contract : EdgeFlagsTargetContract;
  lt_call_host_pc : Z;
  lt_call_pending_flags_host_pc : Z;
  lt_region_id : Z;
  lt_generation : Z;
  lt_target_owner : LinkSourceOwner
}.

(** [LinkManager::TargetRecord]: what is published, and whether it is active.  Its
    [signal_target] is always the one of its guest address. *)
Record TargetRecord := mkTargetRecord { tr_target : LinkTargetRecord; tr_active : bool }.

(** A node of a target's list; nodes are never freed. *)
Record SignalSite := mkSignalSite {
  ss_patch : LinkSignalPatchSite;
  ss_next : option nat;
  ss_linked : bool;
  ss_live : bool
}.

Record SignalTarget := mkSignalTarget {
  st_active_generation : Z;
  st_publishing_count : Z;
  st_linking_count : Z;
  st_sites : option nat
}.

Record OutgoingRecord := mkOutgoing { og_sites : gset LinkSiteKey; og_retiring : bool }.

(** [lm_signal_targets] is the hash table by guest address, whose entries are never
    removed; [lm_signal_storage] are all nodes ever made. *)
Record LinkManager := mkLinkManager {
  lm_sites : gmap LinkSiteKey LinkSiteRecord;
  lm_incoming : gmap Z (gset LinkSiteKey);
  lm_outgoing : gmap LinkSourceOwner OutgoingRecord;
  lm_targets : gmap Z TargetRecord;
  lm_signal_sites : gmap LinkSiteKey nat;
  lm_signal_targets : gmap Z SignalTarget;
  lm_signal_storage : list SignalSite;
  lm_code : gmap Z Z;
  lm_next_target_generation : Z;
  lm_sites_registered : Z;
  lm_linker_calls : Z;
  lm_delinks : Z;
  lm_signal_invalidations : Z;
  lm_max_in_degree : nat
}.

(** Assignments to the fields. *)
Definition put_sites (x : gmap LinkSiteKey LinkSiteRecord) (m : LinkManager) : LinkManager :=
  mkLinkManager x (lm_incoming m) (lm_outgoing m) (lm_targets m) (lm_signal_sites m) (lm_signal_targets m)
    (lm_signal_storage m) (lm_code m) (lm_next_target_generation m) (lm_sites_registered m)
    (lm_linker_calls m) (lm_delinks m) (lm_signal_invalidations m) (lm_max_in_degree m).
Definition put_incoming (x : gmap Z (gset LinkSiteKey)) (m : LinkManager) : LinkManager :=
  mkLinkManager (lm_sites m) x (lm_outgoing m) (lm_targets m) (lm_signal_sites m) (lm_signal_targets m)
    (lm_signal_storage m) (lm_code m) (lm_next_target_generation m) (lm_sites_registered m)
    (lm_linker_calls m) (lm_delinks m) (lm_signal_invalidations m) (lm_max_in_degree m).
Definition put_outgoing (x : gmap LinkSourceOwner OutgoingRecord) (m : LinkManager) : LinkManager :=
  mkLinkManager (lm_sites m) (lm_incoming m) x (lm_targets m) (lm_signal_sites m) (lm_signal_targets m)
    (lm_signal_storage m) (lm_code m) (lm_next_target_generation m) (lm_sites_registered m)
    (lm_linker_calls m) (lm_delinks m) (lm_signal_invalidations m) (lm_max_in_degree m).
Definition put_targets (x : gmap Z TargetRecord) (m : LinkManager) : LinkManager :=
  mkLinkManager (lm_sites m) (lm_incoming m) (lm_outgoing m) x (lm_signal_sites m) (lm_signal_targets m)
    (lm_signal_storage m) (lm_code m) (lm_next_target_generation m) (lm_sites_registered m)
    (lm_linker_calls m) (lm_delinks m) (lm_signal_invalidations m) (lm_max_in_degree m).
Definition put_signal_sites (x : gmap LinkSiteKey nat) (m : LinkManager) : LinkManager :=
  mkLinkManager (lm_sites m) (lm_incoming m) (lm_outgoing m) (lm_targets m) x (lm_signal_targets m)
    (lm_signal_storage m) (lm_code m) (lm_next_target_generation m) (lm_sites_registered m)
    (lm_linker_calls m) (lm_delinks m) (lm_signal_invalidations m) (lm_max_in_degree m).
Definition put_signal_targets (x : gmap Z SignalTarget) (m : LinkManager) : LinkManager :=
  mkLinkManager (lm_sites m) (lm_incoming m) (lm_outgoing m) (lm_targets m) (lm_signal_sites m) x
    (lm_signal_storage m) (lm_code m) (lm_next_target_generation m) (lm_sites_registered m)
    (lm_linker_calls m) (lm_delinks m) (lm_signal_invalidations m) (lm_max_in_degree m).
Definition put_signal_storage (x : list SignalSite) (m : LinkManager) : LinkManager :=
  mkLinkManager (lm_sites m) (lm_incoming m) (lm_outgoing m) (lm_targets m) (lm_signal_sites m)
    (lm_signal_targets m) x (lm_code m) (lm_next_target_generation m) (lm_sites_registered m)
    (lm_linker_calls m) (lm_delinks m) (lm_signal_invalidations m) (lm_max_in_degree m).
Definition put_code (x : gmap Z Z) (m : LinkManager) : LinkManager :=
  mkLinkManager (lm_sites m) (lm_incoming m) (lm_outgoing m) (lm_targets m) (lm_signal_sites m)
    (lm_signal_targets m) (lm_signal_storage m) x (lm_next_target_generation m)
    (lm_sites_registered m) (lm_linker_calls m) (lm_delinks m) (lm_signal_invalidations m)
    (lm_max_in_degree m).
Definition put_next_target_generation (x : Z) (m : LinkManager) : LinkManager :=
  mkLinkManager (lm_sites m) (lm_incoming m) (lm_outgoing m) (lm_targets m) (lm_signal_sites m)
    (lm_signal_targets m) (lm_signal_storage m) (lm_code m) x (lm_sites_registered m)
    (lm_linker_calls m) (lm_delinks m) (lm_signal_invalidations m) (lm_max_in_degree m).
Definition put_sites_registered (x : Z) (m : LinkManager) : LinkManager :=
  mkLinkManager (lm_sites m) (lm_incoming m) (lm_outgoing m) (lm_targets m) (lm_signal_sites m)
    (lm_signal_targets m) (lm_signal_storage m) (lm_code m) (lm_next_target_generation m) x
    (lm_linker_calls m) (lm_delinks m) (lm_signal_invalidations m) (lm_max_in_degree m).
Definition put_linker_calls (x : Z) (m : LinkManager) : LinkManager :=
  mkLinkManager (lm_sites m) (lm_incoming m) (lm_outgoing m) (lm_targets m) (lm_signal_sites m)
    (lm_signal_targets m) (lm_signal_storage m) (lm_code m) (lm_next_target_generation m)
    (lm_sites_registered m) x (lm_delinks m) (lm_signal_invalidations m) (lm_max_in_degree m).
Definition put_delinks (x : Z) (m : LinkManager) : LinkManager :=
  mkLinkManager (lm_sites m) (lm_incoming m) (lm_outgoing m) (lm_targets m) (lm_signal_sites m)
    (lm_signal_targets m) (lm_signal_storage m) (lm_code m) (lm_next_target_generation m)
    (lm_sites_registered m) (lm_linker_calls m) x (lm_signal_invalidations m) (lm_max_in_degree m).
Definition put_signal_invalidations (x : Z) (m : LinkManager) : LinkManager :=
  mkLinkManager (lm_sites m) (lm_incoming m) (lm_outgoing m) (lm_targets m) (lm_signal_sites m)
    (lm_signal_targets m) (lm_signal_storage m) (lm_code m) (lm_next_target_generation m)
    (lm_sites_registered m) (lm_linker_calls m) (lm_delinks m) x (lm_max_in_degree m).
Definition put_max_in_degree (x : nat) (m : LinkManager) : LinkManager :=
  mkLinkManager (lm_sites m) (lm_incoming m) (lm_outgoing m) (lm_targets m) (lm_signal_sites m)
    (lm_signal_targets m) (lm_signal_storage m) (lm_code m) (lm_next_target_generation m)
    (lm_sites_registered m) (lm_linker_calls m) (lm_delinks m) (lm_signal_invalidations m) x.

Definition manager_new : LinkManager := mkLinkManager ∅ ∅ ∅ ∅ ∅ ∅ [] ∅ 1 0 0 0 0 0.

(** ** Shared steps *)

Definition kSignalInvalidatingGeneration : Z := 2 ^ 64 - 1.
Definition kNoOffset : Z := 2 ^ 32 - 1.

(** [PatchCodeWord]: one aligned word through the writable alias. *)
Definition PatchCodeWord (r : CodeRegion) (rx_site rw_site insn : Z) : ST (gmap Z Z) unit :=
  guard (ContainsRx r rx_site) EPanic;;;
  guard (ContainsRw r rw_site) EPanic;;;
  guard (SiteRxToRw r rx_site =? rw_site) EPanic;;;
  guard (Z.land rx_site 3 =? 0) EPanic;;;
  guard (Z.land rw_site 3 =? 0) EPanic;;;
  modify (insert rw_site insn).

Definition PatchDirectBranch (r : CodeRegion) (rx_site rw_site insn : Z) : ST (gmap Z Z) bool :=
  if negb (Z.land insn kBranchOpcodeMask =? kBranchOpcode) then ret false
  else PatchCodeWord r rx_site rw_site insn;;; ret true.

Definition on_code {A} (c : ST (gmap Z Z) A) : ST LinkManager A := fun m =>
  r <-? c (lm_code m); Ok (fst r, put_code (snd r) m).

Definition new_signal_target : SignalTarget := mkSignalTarget 0 0 0 None.

Definition GetOrCreateSignalTarget (guest_target : Z) : ST LinkManager SignalTarget :=
  m <- get;;
  match lm_signal_targets m !! guest_target with
  | Some t => ret t
  | None => modify (put_signal_targets (<[guest_target := new_signal_target]> (lm_signal_targets m)));;; ret new_signal_target
  end.

Definition update_signal_target (guest_target : Z) (g : SignalTarget -> SignalTarget) : ST LinkManager unit :=
  modify (fun m => put_signal_targets (alter g guest_target (lm_signal_targets m)) m).

Definition set_generation (g : Z) (t : SignalTarget) : SignalTarget :=
  mkSignalTarget g (st_publishing_count t) (st_linking_count t) (st_sites t).
Definition add_publishing (n : Z) (t : SignalTarget) : SignalTarget :=
  mkSignalTarget (st_active_generation t) (wrap 32 (st_publishing_count t + n)) (st_linking_count t) (st_sites t).
Definition add_linking (n : Z) (t : SignalTarget) : SignalTarget :=
  mkSignalTarget (st_active_generation t) (st_publishing_count t) (wrap 32 (st_linking_count t + n)) (st_sites t).
Definition set_list (x : option nat) (t : SignalTarget) : SignalTarget :=
  mkSignalTarget (st_active_generation t) (st_publishing_count t) (st_linking_count t) x.

Definition set_linked (b : bool) (s : SignalSite) : SignalSite := mkSignalSite (ss_patch s) (ss_next s) b (ss_live s).
Definition set_live (b : bool) (s : SignalSite) : SignalSite := mkSignalSite (ss_patch s) (ss_next s) (ss_linked s) b.
Definition set_next (x : option nat) (s : SignalSite) : SignalSite := mkSignalSite (ss_patch s) x (ss_linked s) (ss_live s).

Definition update_node (n : nat) (g : SignalSite -> SignalSite) : ST LinkManager unit :=
  modify (fun m => put_signal_storage (alter g n (lm_signal_storage m)) m).

(** The node of a site, if it has one. *)
Definition node_of (m : LinkManager) (site : LinkSiteKey) : option SignalSite :=
  n ← lm_signal_sites m !! site; lm_signal_storage m !! n.

Definition store_linked (site : LinkSiteKey) (b : bool) : ST LinkManager unit :=
  m <- get;;
  match lm_signal_sites m !! site with
  | Some n => update_node n (set_linked b)
  | None => ret tt
  end.

Definition update_site (site : LinkSiteKey) (g : LinkSiteRecord -> LinkSiteRecord) : ST LinkManager unit :=
  modify (fun m => put_sites (alter g site (lm_sites m)) m).

(** The generation a current target has: published, active and not invalidated by a
    signal. *)
Definition current_generation (m : LinkManager) (guest_target : Z) : option Z :=
  match lm_targets m !! guest_target, lm_signal_targets m !! guest_target with
  | Some t, Some s =>
      if tr_active t && (st_active_generation s =? lt_generation (tr_target t)) then Some (lt_generation (tr_target t)) else None
  | _, _ => None
  end.

(** ** [RegisterSite] *)

Definition has_flags_bypass (p : option LinkSignalPatchSite) : bool :=
  match p with Some s => negb (bp_rx_site (ps_flags_bypass s) =? 0) | None => false end.

(** The patch data of a site is consistent. *)
Definition patch_consistent (site : LinkSiteKey) (s : LinkSignalPatchSite) : bool :=
  (cr_id (ps_region s) =? fst site) && ContainsRx (ps_region s) (ps_rx_site s) && ContainsRw (ps_region s) (ps_rw_site s) &&
  (SiteRxToRw (ps_region s) (ps_rx_site s) =? ps_rw_site s) &&
  (wrap 32 (ps_rx_site s - cr_rx_base (ps_region s)) =? snd site) &&
  (Z.land (ps_unlinked_bl s) kBranchOpcodeMask =? kBranchOpcode).

Definition bypass_consistent (s : LinkSignalPatchSite) : bool :=
  let b := ps_flags_bypass s in
  let linked_branch := Z.land (bp_linked_instruction b) kBranchOpcodeMask =? kBranchOpcode in
  let linked_parity_publish :=
    Z.land (bp_linked_instruction b) (not32 kParityPublishRegisterMask) =? kParityPublishOpcode in
  negb (bp_rw_site b =? 0) && ContainsRx (ps_region s) (bp_rx_site b) && ContainsRw (ps_region s) (bp_rw_site b) &&
  (SiteRxToRw (ps_region s) (bp_rx_site b) =? bp_rw_site b) && (linked_branch || linked_parity_publish) &&
  negb (linked_parity_publish && negb (Z.land (bp_unlinked_instruction b) kBranchTypeMask =? kBLOpcode)).

(** The checks before the mutex. *)
Definition registration_ok (site : LinkSiteKey) (owner : LinkSourceOwner) (patch : option LinkSignalPatchSite)
    (kind : LinkSiteKind) (flags : EdgeFlagsState) : bool :=
  negb ((fst site =? 0) || negb (Z.land (snd site) 3 =? 0) || (fst owner =? 0) || (snd owner =? 0) || bool_decide (kind = KindCount)) &&
  EdgeFlags_IsWellFormed flags && Bool.eqb (has_flags_bypass patch) (HasPendingPState flags) &&
  match patch with
  | Some s => patch_consistent site s && (if has_flags_bypass patch then bypass_consistent s else true)
  | None => true
  end.

Definition owner_retiring (m : LinkManager) (owner : LinkSourceOwner) : bool :=
  match lm_outgoing m !! owner with Some o => og_retiring o | None => false end.

Definition new_record (site : LinkSiteKey) (guest_target : Z) (owner : LinkSourceOwner) (patch : option LinkSignalPatchSite)
    (kind : LinkSiteKind) (flags : EdgeFlagsState) : LinkSiteRecord :=
  let '(offset, instruction) :=
    match patch with
    | Some s => if has_flags_bypass patch
                then (wrap 32 (bp_rx_site (ps_flags_bypass s) - cr_rx_base (ps_region s)), bp_unlinked_instruction (ps_flags_bypass s))
                else (kNoOffset, 0)
    | None => (kNoOffset, 0)
    end in
  mkSiteRecord site guest_target owner 0 flags offset instruction Unlinked kind false.

Definition index_site (site : LinkSiteKey) (guest_target : Z) (owner : LinkSourceOwner) (m : LinkManager) : LinkManager :=
  put_incoming (<[guest_target := {[site]} ∪ default ∅ (lm_incoming m !! guest_target)]> (lm_incoming m))
    (put_outgoing (<[owner := match lm_outgoing m !! owner with
                              | Some o => mkOutgoing ({[site]} ∪ og_sites o) (og_retiring o)
                              | None => mkOutgoing {[site]} false
                              end]> (lm_outgoing m)) m).

(** A new node at the front of the target's list. *)
Definition publish_node (site : LinkSiteKey) (guest_target : Z) (s : LinkSignalPatchSite) : ST LinkManager unit :=
  t <- GetOrCreateSignalTarget guest_target;;
  m <- get;;
  let n := length (lm_signal_storage m) in
  modify (fun m => put_signal_sites (<[site := n]> (lm_signal_sites m))
                     (put_signal_storage (lm_signal_storage m ++ [mkSignalSite s (st_sites t) false true]) m));;;
  update_signal_target guest_target (set_list (Some n)).

Definition RegisterSite (site : LinkSiteKey) (guest_target : Z) (owner : LinkSourceOwner)
    (patch : option LinkSignalPatchSite) (kind : LinkSiteKind) (flags : EdgeFlagsState) : ST LinkManager bool :=
  if negb (registration_ok site owner patch kind flags) then ret false
  else
    m <- get;;
    if owner_retiring m owner then ret false
    else
      match lm_sites m !! site with
      | Some _ => ret false
      | None =>
          modify (fun m => put_sites (<[site := new_record site guest_target owner patch kind flags]> (lm_sites m)) m);;;
          modify (index_site site guest_target owner);;;
          (match patch with Some s => publish_node site guest_target s | None => ret tt end);;;
          modify (fun m => put_sites_registered (wrap 64 (lm_sites_registered m + 1)) m);;;
          modify (fun m => put_max_in_degree
                     (Nat.max (lm_max_in_degree m) (size (default ∅ (lm_incoming m !! guest_target)))) m);;;
          ret true
      end.

Definition QuerySite (m : LinkManager) (site : LinkSiteKey) : option LinkSiteRecord := lm_sites m !! site.

(** ** Targets *)

(** The compare-and-swap loop: the new generation wins unless a signal has
    invalidated the target. *)
Definition publish_generation (guest_target generation : Z) : ST LinkManager bool :=
  m <- get;;
  match lm_signal_targets m !! guest_target with
  | Some t =>
      if st_active_generation t =? kSignalInvalidatingGeneration then ret false
      else update_signal_target guest_target (set_generation generation);;; ret true
  | None => fail EUndefined
  end.

(** The published record; its generation is assigned here. *)
Definition PublishTarget (guest_target host_pc region_id : Z) (owner : LinkSourceOwner)
    (direct_host_pc pending_flags_host_pc call_host_pc call_pending_flags_host_pc : Z) (contract : EdgeFlagsTargetContract)
  : ST LinkManager Z :=
  guard (Contract_IsWellFormed contract) EPanic;;;
  guard (Bool.eqb (negb (pending_flags_host_pc =? 0) || negb (call_pending_flags_host_pc =? 0)) (CanPublishPendingEntry contract)) EPanic;;;
  m <- get;;
  let generation := lm_next_target_generation m in
  modify (put_next_target_generation (wrap 64 (generation + 1)));;;
  guard (negb (generation =? kSignalInvalidatingGeneration)) EPanic;;;
  _ <- GetOrCreateSignalTarget guest_target;;
  update_signal_target guest_target (add_publishing 1);;;
  published <- publish_generation guest_target generation;;
  modify (fun m => put_targets (<[guest_target :=
    mkTargetRecord (mkLinkTargetRecord guest_target host_pc (if direct_host_pc =? 0 then host_pc else direct_host_pc)
      pending_flags_host_pc contract call_host_pc call_pending_flags_host_pc region_id generation owner) published]> (lm_targets m)) m);;;
  update_signal_target guest_target (add_publishing (-1));;;
  (if negb (fst owner =? 0) && negb (snd owner =? 0)
   then modify (fun m => match lm_outgoing m !! owner with
                         | Some _ => m
                         | None => put_outgoing (<[owner := mkOutgoing ∅ false]> (lm_outgoing m)) m
                         end)
   else ret tt);;;
  ret generation.

Definition QueryTarget (m : LinkManager) (guest_target : Z) : option LinkTargetRecord :=
  match current_generation m guest_target with
  | Some _ => tr_target <$> lm_targets m !! guest_target
  | None => None
  end.

Definition QueryTargets (m : LinkManager) (owner : LinkSourceOwner) : list Z :=
  merge_sort Z.le (elements (dom (filter (fun e => lt_target_owner (tr_target (snd e)) = owner) (lm_targets m)))).

Definition QueryTargetGeneration (m : LinkManager) (guest_target : Z) : option Z := current_generation m guest_target.

Definition ValidateTargetGeneration (m : LinkManager) (guest_target generation : Z) : bool :=
  bool_decide (current_generation m guest_target = Some generation).

(** ** Linking a site *)

Definition set_state (s : LinkSiteState) (generation : Z) (compatible : bool) (r : LinkSiteRecord) : LinkSiteRecord :=
  mkSiteRecord (ls_site r) (ls_guest_target r) (ls_source_owner r) generation (ls_edge_flags r)
    (ls_flags_bypass_offset r) (ls_flags_bypass_instruction r) s (ls_kind r) compatible.

Definition ValidateMarkLocked (m : LinkManager) (site : LinkSiteKey) (expected_generation : Z) : bool :=
  match lm_sites m !! site with
  | Some r => bool_decide (ls_state r = Unlinked) && ValidateTargetGeneration m (ls_guest_target r) expected_generation
  | None => false
  end.

Definition DisableFlagsBypassLocked (r : LinkSiteRecord) : ST LinkManager unit :=
  m <- get;;
  match node_of m (ls_site r) with
  | None => ret tt
  | Some node =>
      let b := ps_flags_bypass (ss_patch node) in
      if bp_rx_site b =? 0 then ret tt
      else on_code (PatchCodeWord (ps_region (ss_patch node)) (bp_rx_site b) (bp_rw_site b) (bp_unlinked_instruction b))
  end.

Definition same_bypass (a b : LinkFlagsBypassPatch) : bool :=
  (bp_rx_site a =? bp_rx_site b) && (bp_rw_site a =? bp_rw_site b) &&
  (bp_unlinked_instruction a =? bp_unlinked_instruction b) && (bp_linked_instruction a =? bp_linked_instruction b).

(** The loop over the sites that share the bypass word: the patch data of the first one
    and the linked members, [None] when the bypass must stay off. *)
Fixpoint bypass_members (m : LinkManager) (region_id offset : Z) (sites : list (LinkSiteKey * LinkSiteRecord))
    (patch_site : option LinkSignalPatchSite) (members : list LinkSiteRecord)
  : option (option LinkSignalPatchSite * list LinkSiteRecord) :=
  match sites with
  | [] => Some (patch_site, members)
  | (key, member) :: sites' =>
      if negb (fst key =? region_id) || negb (ls_flags_bypass_offset member =? offset)
      then bypass_members m region_id offset sites' patch_site members
      else if bool_decide (ls_state member = Retiring) then None
      else
        match node_of m key with
        | None => None
        | Some node =>
            let candidate := ps_flags_bypass (ss_patch node) in
            if (bp_rx_site candidate =? 0) ||
               match patch_site with Some p => negb (same_bypass candidate (ps_flags_bypass p)) | None => false end
            then None
            else
              let patch_site := match patch_site with Some p => Some p | None => Some (ss_patch node) end in
              if negb (bool_decide (ls_state member = Linked)) then
                if ss_linked node then None else bypass_members m region_id offset sites' patch_site members
              else if negb (ls_pending_flags_compatible member) then None
              else
                match lm_targets m !! ls_guest_target member with
                | Some t =>
                    if tr_active t && (lt_generation (tr_target t) =? ls_target_generation member) && ss_linked node
                    then bypass_members m region_id offset sites' patch_site (members ++ [member])
                    else None
                | None => None
                end
        end
  end.

(** The members' targets are still current. *)
Definition members_current (m : LinkManager) (members : list LinkSiteRecord) : bool :=
  forallb (fun r => ValidateTargetGeneration m (ls_guest_target r) (ls_target_generation r)) members.

(** [TryEnableFlagsBypassLocked]; the linking counts it raises and lowers again are those
    of the members' targets. *)
Definition TryEnableFlagsBypassLocked (site : LinkSiteKey) : ST LinkManager unit :=
  m <- get;;
  match lm_sites m !! site with
  | None => ret tt
  | Some r =>
      if (ls_flags_bypass_offset r =? kNoOffset) || negb (ls_pending_flags_compatible r) then ret tt
      else
        match bypass_members m (fst (ls_site r)) (ls_flags_bypass_offset r) (map_to_list (lm_sites m)) None [] with
        | Some (Some p, members) =>
            if members_current m members then
              let b := ps_flags_bypass p in
              on_code (PatchCodeWord (ps_region p) (bp_rx_site b) (bp_rw_site b) (bp_linked_instruction b))
            else ret tt
        | _ => ret tt
        end
  end.

(** The target's entry takes the site's pending flags. *)
Definition pending_compatible (t : LinkTargetRecord) (r : LinkSiteRecord) : bool :=
  Accepts (lt_pending_flags_contract t) (ls_edge_flags r) &&
  negb ((if bool_decide (ls_kind r = KindCall) then lt_call_pending_flags_host_pc t else lt_pending_flags_host_pc t) =? 0).

(** [MarkLinked]; [commit] is the caller's function, [None] when empty. *)
Definition MarkLinked (site : LinkSiteKey) (expected_generation : Z)
    (commit : option (LinkSiteRecord -> ST (gmap Z Z) bool)) : ST LinkManager bool :=
  m <- get;;
  match lm_sites m !! site, commit with
  | Some r, Some commit =>
      if negb (bool_decide (ls_state r = Unlinked)) then ret false
      else
        match lm_targets m !! ls_guest_target r with
        | None => ret false
        | Some t =>
            update_signal_target (ls_guest_target r) (add_linking 1);;;
            let compatible := pending_compatible (tr_target t) r in
            committed <- (if ValidateTargetGeneration m (ls_guest_target r) expected_generation then
                            (if negb (ls_flags_bypass_offset r =? kNoOffset) && negb compatible
                             then DisableFlagsBypassLocked r else ret tt);;;
                            on_code (commit r)
                          else ret false);;
            m' <- get;;
            let still_active :=
              match lm_signal_targets m' !! ls_guest_target r with
              | Some s => st_active_generation s =? expected_generation
              | None => false
              end in
            (if (committed : bool) && still_active then
               update_site site (set_state Linked expected_generation compatible);;;
               store_linked site true;;;
               TryEnableFlagsBypassLocked site
             else ret tt);;;
            update_signal_target (ls_guest_target r) (add_linking (-1));;;
            ret (committed && still_active)
        end
  | _, _ => ret false
  end.

Definition MarkFar (site : LinkSiteKey) (expected_generation : Z) : ST LinkManager bool :=
  m <- get;;
  if negb (ValidateMarkLocked m site expected_generation) then ret false
  else
    update_site site (set_state Far expected_generation false);;;
    store_linked site false;;;
    ret true.

(** ** Invalidation *)

(** The loop over the incoming sites of a target. *)
Fixpoint unlink_sites (sites : list LinkSiteKey) : ST LinkManager (list LinkSiteRecord) :=
  match sites with
  | [] => ret []
  | site :: sites' =>
      m <- get;;
      match lm_sites m !! site with
      | None => unlink_sites sites'
      | Some r =>
          update_site site (set_state (if bool_decide (ls_state r = Retiring) then Retiring else Unlinked) 0 false);;;
          store_linked site false;;;
          rest <- unlink_sites sites';;
          ret (r :: rest)
      end
  end.

Definition BeginTargetInvalidation (guest_target : Z) : ST LinkManager (list LinkSiteRecord) :=
  m <- get;;
  match lm_targets m !! guest_target with
  | None => ret []
  | Some t =>
      modify (put_targets (<[guest_target := mkTargetRecord (tr_target t) false]> (lm_targets m)));;;
      update_signal_target guest_target (set_generation 0);;;
      unlink_sites (elements (default ∅ (lm_incoming m !! guest_target)))
  end.

Definition retire_site (r : LinkSiteRecord) : LinkSiteRecord :=
  set_state Retiring (ls_target_generation r) (ls_pending_flags_compatible r) r.

Definition DetachSource (owner : LinkSourceOwner) : ST LinkManager Z :=
  m <- get;;
  match lm_outgoing m !! owner with
  | None => ret 0
  | Some o =>
      modify (put_outgoing (<[owner := mkOutgoing (og_sites o) true]> (lm_outgoing m)));;;
      for_each (fun site => update_site site retire_site) (elements (og_sites o));;;
      ret (Z.of_nat (length (filter (fun site => is_Some (lm_sites m !! site)) (elements (og_sites o)))))
  end.

(** [UnlinkSignalSiteLocked]: the node [n] out of the list that starts at [current]. *)
Fixpoint unlink_node (fuel : nat) (guest_target : Z) (n : nat) (previous current : option nat) : ST LinkManager unit :=
  match current with
  | None => ret tt
  | Some c =>
      m <- get;;
      match fuel, lm_signal_storage m !! c with
      | O, _ => fail EFuel
      | _, None => fail EUndefined
      | S k, Some node =>
          if (c =? n)%nat then
            (match previous with
             | Some p => update_node p (set_next (ss_next node))
             | None => update_signal_target guest_target (set_list (ss_next node))
             end);;;
            update_node n (set_linked false)
          else unlink_node k guest_target n (Some c) (ss_next node)
      end
  end.

Definition UnlinkSignalSiteLocked (guest_target : Z) (n : nat) : ST LinkManager unit :=
  m <- get;;
  match lm_signal_targets m !! guest_target with
  | None => ret tt
  | Some t => unlink_node (S (length (lm_signal_storage m))) guest_target n None (st_sites t)
  end.

(** One site out of the indexes. *)
Definition purge_site (site : LinkSiteKey) : ST LinkManager Z :=
  m <- get;;
  match lm_sites m !! site with
  | None => ret 0
  | Some r =>
      modify (fun m => match lm_incoming m !! ls_guest_target r with
                       | None => m
                       | Some s =>
                           let s' := s ∖ {[site]} in
                           put_incoming (if decide (s' = ∅) then delete (ls_guest_target r) (lm_incoming m)
                                         else <[ls_guest_target r := s']> (lm_incoming m)) m
                       end);;;
      (match lm_signal_sites m !! site with
       | None => ret tt
       | Some n =>
           UnlinkSignalSiteLocked (ls_guest_target r) n;;;
           modify (fun m => put_signal_sites (delete site (lm_signal_sites m)) m)
       end);;;
      modify (fun m => put_sites (delete site (lm_sites m)) m);;;
      ret 1
  end.

Fixpoint purge_sites (sites : list LinkSiteKey) : ST LinkManager Z :=
  match sites with
  | [] => ret 0
  | site :: sites' => n <- purge_site site;; rest <- purge_sites sites';; ret (n + rest)
  end.

(** The targets an owner published. *)
Definition drop_targets (owner : LinkSourceOwner) (m : LinkManager) : LinkManager :=
  put_signal_targets
    (map_imap (fun t s => Some (match lm_targets m !! t with
                                | Some r => if decide (lt_target_owner (tr_target r) = owner) then set_generation 0 s else s
                                | None => s
                                end)) (lm_signal_targets m))
    (put_targets (filter (fun e => lt_target_owner (tr_target (snd e)) <> owner) (lm_targets m)) m).

(** The wait for the signal readers is in LinkSignal.v. *)
Definition PurgeSource (owner : LinkSourceOwner) : ST LinkManager Z :=
  m <- get;;
  match lm_outgoing m !! owner with
  | None => ret 0
  | Some o =>
      let sites := elements (og_sites o) in
      if negb (og_retiring o) then ret 0
      else if negb (forallb (fun site => match lm_sites m !! site with
                                         | Some r => bool_decide (ls_state r = Retiring)
                                         | None => false
                                         end) sites) then ret 0
      else
        for_each (fun site => m <- get;;
                              match lm_signal_sites m !! site with
                              | Some n => update_node n (set_live false)
                              | None => ret tt
                              end) sites;;;
        purged <- purge_sites sites;;
        modify (drop_targets owner);;;
        modify (fun m => put_outgoing (delete owner (lm_outgoing m)) m);;;
        ret purged
  end.

(** [restore]: the unlinked instruction at every live site of the list, with the number of
    sites that were linked. *)
Fixpoint restore_list (fuel : nat) (count_linked : bool) (current : option nat) : ST LinkManager Z :=
  match current with
  | None => ret 0
  | Some c =>
      m <- get;;
      match fuel, lm_signal_storage m !! c with
      | O, _ => fail EFuel
      | _, None => fail EUndefined
      | S k, Some node =>
          if negb (ss_live node) then restore_list k count_linked (ss_next node)
          else
            (if count_linked then update_node c (set_linked false) else ret tt);;;
            _ <- on_code (PatchDirectBranch (ps_region (ss_patch node)) (ps_rx_site (ss_patch node))
                            (ps_rw_site (ss_patch node)) (ps_unlinked_bl (ss_patch node)));;
            rest <- restore_list k count_linked (ss_next node);;
            ret ((if count_linked && ss_linked node then 1 else 0) + rest)
      end
  end.

(** [SignalInvalidateTarget] with no linking in progress; [None] when the target is unknown. *)
Definition SignalInvalidateTarget (guest_target : Z) : ST LinkManager (option Z) :=
  m <- get;;
  match lm_signal_targets m !! guest_target with
  | None => ret None
  | Some t =>
      (if negb (st_publishing_count t =? 0) || negb (st_active_generation t =? 0)
       then update_signal_target guest_target (set_generation kSignalInvalidatingGeneration)
       else ret tt);;;
      modify (fun m => put_signal_invalidations (wrap 64 (lm_signal_invalidations m + 1)) m);;;
      let fuel := S (length (lm_signal_storage m)) in
      linked_sites <- restore_list fuel true (st_sites t);;
      _ <- restore_list fuel false (st_sites t);;
      ret (Some linked_sites)
  end.

(** ** Statistics *)

Definition RecordLinkerCall : ST LinkManager unit := modify (fun m => put_linker_calls (wrap 64 (lm_linker_calls m + 1)) m).
Definition RecordDelink (count : Z) : ST LinkManager unit := modify (fun m => put_delinks (wrap 64 (lm_delinks m + count)) m).

Definition count_state (m : LinkManager) (s : LinkSiteState) : nat :=
  length (filter (fun e => ls_state (snd e) = s) (map_to_list (lm_sites m))).
