(* ===== verification/LinkInvariant.v ===== *)
(** * Direct links: the invariant of the manager

    The branch encodings are inverse to each other on the distances they accept, and a code
    word inside its region is patched.  The indexes of LinkManager.v agree with the site records, the signal lists hold
    exactly the registered nodes, and only a published target is current.  The lemmas say
    which changes of the parts keep them; LinkManagerProps.v has the operations. *)

From Stdlib Require Import ZArith Lia.
From stdpp Require Import numbers base gmap sets list sorting.
From S2P Require Import Prelude MachineInt LinkManager.

Local Open Scope Z_scope.
Local Open Scope svm_scope.

(** ** Branches *)

(** The two opcodes, the same but for bit 31. *)
Definition branch_opcode (opcode : Z) : Prop := opcode = kBOpcode \/ opcode = kBLOpcode.

(** A branch word: opcode and 26-bit distance in words. *)
Lemma branch_word opcode lo : branch_opcode opcode -> 0 <= lo < 2 ^ 26 ->
  Z.lor opcode lo = opcode + lo /\ Z.land (Z.lor opcode lo) kBranchOpcodeMask = kBranchOpcode /\
  wrap 32 (Z.shiftl (Z.lor opcode lo) 6) = lo * 2 ^ 6.
Proof.
  intros Hop Hlo.
  assert (Hhi : exists hi, opcode = Z.shiftl hi 26 /\ Z.land hi 31 = 5) by (destruct Hop; [exists 5|exists 37]; subst; done).
  destruct Hhi as (hi & -> & Hhi). assert (Hadd : Z.lor (Z.shiftl hi 26) lo = hi * 2 ^ 26 + lo) by (apply lor_shiftl_add; lia).
  split_and!.
  - rewrite Hadd, Z.shiftl_mul_pow2; lia.
  - rewrite Z.land_lor_distr_l. change kBranchOpcodeMask with (Z.shiftl 31 26).
    rewrite <- Z.shiftl_land, Hhi, (Z.land_comm lo), land_shiftl_low by lia. done.
  - rewrite Hadd, Z.shiftl_mul_pow2 by lia. unfold wrap.
    replace ((hi * 2 ^ 26 + lo) * 2 ^ 6) with (lo * 2 ^ 6 + hi * 2 ^ 32) by lia.
    rewrite Z.mod_add by lia. apply Z.mod_small. lia.
Qed.

(** The distance survives the trip through the 26-bit field. *)
Lemma signed_words w : - 2 ^ 25 <= w < 2 ^ 25 -> Z.shiftr (to_signed 32 (wrap 26 w * 2 ^ 6)) 6 = w.
Proof.
  intros Hw. pose proof (wrap_range 26 w ltac:(lia)) as Hr.
  assert (Hm : wrap 26 w = w /\ 0 <= w \/ wrap 26 w = w + 2 ^ 26 /\ w < 0).
  { destruct (Z.neg_nonneg_cases w); [right|left; split; [apply wrap_small; lia|done]].
    split; [|done]. rewrite <- (wrap_cong 26 w 1). apply wrap_small. lia. }
  unfold to_signed. rewrite (wrap_small 32) by lia. rewrite Z.shiftr_div_pow2 by lia.
  destruct (Z.ltb_spec (wrap 26 w * 2 ^ 6) (2 ^ (32 - 1))) as [Hs|Hs]; symmetry; apply Z.div_unique_exact; lia.
Qed.

Lemma low_bits_zero a : Z.land a 3 = a mod 4.
Proof. apply (Z.land_ones a 2). lia. Qed.

(** What [EncodeBranch] accepts, and the word it makes. *)
Lemma EncodeBranch_spec offset opcode :
  branch_opcode opcode ->
  (exists w, offset = 4 * w /\ - 2 ^ 25 < w < 2 ^ 25 /\ EncodeBranch offset opcode = Some (Z.lor opcode (wrap 26 w))) \/
  (~ (offset mod 4 = 0 /\ - kImm26MaxDistance <= offset <= kImm26MaxDistance) /\ EncodeBranch offset opcode = None).
Proof.
  intros Hop. unfold EncodeBranch. rewrite low_bits_zero.
  destruct (Z.eqb_spec (offset mod 4) 0) as [Hm|Hm]; [|right; split; [tauto|done]].
  destruct (Z.ltb_spec offset (- kImm26MaxDistance)) as [H1|H1]; [right; split; [lia|done]|].
  destruct (Z.ltb_spec kImm26MaxDistance offset) as [H2|H2]; [right; split; [lia|done]|].
  left. unfold kImm26MaxDistance in *. apply Z.mod_divide in Hm as [w ->]; [|lia]. exists w. split_and!; [lia..|].
  cbn [negb orb]. rewrite Z.quot_mul by lia. change kBranchImmediateMask with (Z.ones 26).
  by rewrite wrap_land_ones, wrap_wrap by lia.
Qed.


(** ** Patching *)

(** A word the region holds in both aliases, aligned. *)
Definition patchable (r : CodeRegion) (rx_site rw_site : Z) : Prop :=
  ContainsRx r rx_site = true /\ ContainsRw r rw_site = true /\ SiteRxToRw r rx_site = rw_site /\
  rx_site mod 4 = 0 /\ rw_site mod 4 = 0.

Lemma PatchCodeWord_run r rx_site rw_site insn c :
  patchable r rx_site rw_site -> PatchCodeWord r rx_site rw_site insn c = Ok (tt, <[rw_site := insn]> c).
Proof.
  intros (H1 & H2 & H3 & H4 & H5). unfold PatchCodeWord.
  rewrite H1, H2, !low_bits_zero, H4, H5, H3, Z.eqb_refl. done.
Qed.

(** The bases of the region are aligned, as mapped memory is. *)
Definition region_aligned (r : CodeRegion) : Prop := cr_rx_base r mod 4 = 0 /\ cr_rw_base r mod 4 = 0.

Lemma rx_to_rw_aligned r rx_site : region_aligned r -> ContainsRx r rx_site = true -> rx_site mod 4 = 0 -> SiteRxToRw r rx_site mod 4 = 0.
Proof.
  intros [Hx Hw] Hc Hs. unfold SiteRxToRw. rewrite Hc. unfold wrap.
  rewrite Z.mod_mod_divide by (exists (2 ^ 62); lia).
  rewrite Z.add_mod, Zminus_mod, Hs, Hx, Hw by lia. done.
Qed.

(** What a site hands over: the checks of [RegisterSite], and an aligned bypass word. *)
Definition patch_ok (s : LinkSignalPatchSite) : Prop :=
  patchable (ps_region s) (ps_rx_site s) (ps_rw_site s) /\
  Z.land (ps_unlinked_bl s) kBranchOpcodeMask = kBranchOpcode /\
  (bp_rx_site (ps_flags_bypass s) <> 0 ->
   patchable (ps_region s) (bp_rx_site (ps_flags_bypass s)) (bp_rw_site (ps_flags_bypass s))).

(** What the code generator guarantees of the words it hands over. *)
Definition patch_aligned (s : LinkSignalPatchSite) : Prop :=
  region_aligned (ps_region s) /\ bp_rx_site (ps_flags_bypass s) mod 4 = 0.

Lemma registration_patch_ok site owner s kind flags :
  patch_aligned s -> registration_ok site owner (Some s) kind flags = true -> patch_ok s.
Proof.
  intros [Hr Hb] Hok. unfold registration_ok in Hok. apply andb_prop in Hok as [Hok Hpatch].
  apply andb_prop in Hok as [Hok _]. apply andb_prop in Hok as [Hsite _].
  apply andb_prop in Hpatch as [Hp Hbp]. unfold patch_consistent in Hp.
  rewrite !andb_true_iff, !Z.eqb_eq in Hp. destruct Hp as [[[[[_ Hx] Hw] Hxw] Hoff] Hbl].
  assert (Ho : snd site mod 4 = 0).
  { apply negb_true_iff in Hsite. rewrite !orb_false_iff in Hsite. destruct Hsite as [[[[_ Hs] _] _] _].
    apply negb_false_iff, Z.eqb_eq in Hs. by rewrite <- low_bits_zero. }
  assert (Hrx : ps_rx_site s mod 4 = 0).
  { rewrite <- Hoff in Ho. unfold wrap in Ho. rewrite Z.mod_mod_divide in Ho by (exists (2 ^ 30); lia).
    destruct Hr as [Hr _]. replace (ps_rx_site s) with (ps_rx_site s - cr_rx_base (ps_region s) + cr_rx_base (ps_region s)) by lia.
    rewrite Z.add_mod, Ho, Hr by lia. done. }
  split_and!; [|done|].
  - split_and!; [done..|]. rewrite <- Hxw. by apply rx_to_rw_aligned.
  - intros Hne. unfold has_flags_bypass in Hbp. destruct (Z.eqb_spec (bp_rx_site (ps_flags_bypass s)) 0); [done|]. cbn [negb] in Hbp.
    unfold bypass_consistent in Hbp. rewrite !andb_true_iff, !Z.eqb_eq in Hbp. destruct Hbp as [[[[[_ H1] H2] H3] _] _].
    split_and!; [done..|]. rewrite <- H3. by apply rx_to_rw_aligned.
Qed.

(** ** Encoding and patching branches *)

(** ** Lists of nodes *)

Section Chain.
Implicit Types (sg : list SignalSite) (l : list nat).

(** [l] are the nodes of the list that starts at [cur]. *)
Fixpoint chain sg (cur : option nat) l : Prop :=
  match l with
  | [] => cur = None
  | n :: l' => cur = Some n /\ exists node, sg !! n = Some node /\ chain sg (ss_next node) l'
  end.

Abbreviation descending := (StronglySorted (fun x y : nat => (y < x)%nat)).

Lemma chain_bound sg cur l n : chain sg cur l -> n ∈ l -> (n < length sg)%nat.
Proof.
  revert cur. induction l as [|m l IH]; intros cur; [by intros _ ?%not_elem_of_nil|].
  intros [_ (node & Hm & Hl)] [->|Hn]%elem_of_cons; [by eapply lookup_lt_Some|eauto].
Qed.

(** A change of nodes that keeps the links of the list. *)
Lemma chain_keep sg sg' cur l :
  chain sg cur l -> (forall n node, n ∈ l -> sg !! n = Some node -> exists node', sg' !! n = Some node' /\ ss_next node' = ss_next node) ->
  chain sg' cur l.
Proof.
  revert cur. induction l as [|m l IH]; intros cur; [done|].
  intros [-> (node & Hm & Hl)] Hk. split; [done|].
  destruct (Hk m node) as (node' & Hm' & Hn'); [by left|done|]. exists node'. split; [done|]. rewrite Hn'.
  apply IH; [done|]. intros n x Hn. apply Hk. by right.
Qed.

Lemma chain_alter sg g n cur l : (forall node, ss_next (g node) = ss_next node) -> chain sg cur l -> chain (alter g n sg) cur l.
Proof.
  intros Hg Hc. eapply chain_keep; [exact Hc|]. intros m node _ Hm. destruct (decide (m = n)) as [->|Hne].
  - exists (g node). rewrite list_lookup_alter_eq, Hm. split; [done|apply Hg].
  - exists node. by rewrite list_lookup_alter_ne.
Qed.

Lemma chain_alter_out sg g n cur l : n ∉ l -> chain sg cur l -> chain (alter g n sg) cur l.
Proof.
  intros Hn Hc. eapply chain_keep; [exact Hc|]. intros m node Hm Hl. exists node.
  rewrite list_lookup_alter_ne; [done|]. by intros ->.
Qed.

Lemma chain_app sg node cur l : chain sg cur l -> chain (sg ++ [node]) cur l.
Proof.
  intros Hc. eapply chain_keep; [exact Hc|]. intros m x _ Hm. exists x. split; [|done]. by apply lookup_app_l_Some.
Qed.

Lemma chain_head sg cur l : chain sg cur l -> cur = head l.
Proof. destruct l; simpl; [done|]. by intros [? _]. Qed.

Lemma chain_inj sg cur l1 l2 : chain sg cur l1 -> chain sg cur l2 -> l1 = l2.
Proof.
  revert cur l2. induction l1 as [|n l1 IH]; intros cur [|m l2]; simpl; [done|by intros -> [? _]|by intros [-> _] ?|].
  intros [-> (x & Hx & H1)] [[= <-] (y & Hy & H2)]. f_equal. replace y with x in H2 by congruence. by eapply IH.
Qed.

Lemma descending_tail n l m : descending (n :: l) -> m ∈ l -> (m < n)%nat.
Proof. intros Hs Hm. apply StronglySorted_inv in Hs as [_ Hf]. by eapply (proj1 (Forall_forall _ _) Hf). Qed.
End Chain.

Abbreviation descending := (StronglySorted (fun x y : nat => (y < x)%nat)).

(** ** The parts of the invariant *)

(** [k] is in the incoming set of [t], in the outgoing set of [o]. *)
Definition incoming_of (i : gmap Z (gset LinkSiteKey)) (t : Z) (k : LinkSiteKey) : Prop := k ∈ default ∅ (i !! t).
Definition outgoing_of (og : gmap LinkSourceOwner OutgoingRecord) (o : LinkSourceOwner) (k : LinkSiteKey) : Prop :=
  exists g, og !! o = Some g /\ k ∈ og_sites g.

Record index_ok (s : gmap LinkSiteKey LinkSiteRecord) (i : gmap Z (gset LinkSiteKey))
    (og : gmap LinkSourceOwner OutgoingRecord) : Prop := {
  ix_key : forall k r, s !! k = Some r -> ls_site r = k;
  ix_in : forall t k, incoming_of i t k <-> exists r, s !! k = Some r /\ ls_guest_target r = t;
  ix_out : forall o k, outgoing_of og o k <-> exists r, s !! k = Some r /\ ls_source_owner r = o;
  ix_nonempty : forall t, i !! t <> Some ∅;
  ix_retiring : forall k r g, s !! k = Some r -> og !! ls_source_owner r = Some g ->
    og_retiring g = true <-> ls_state r = Retiring
}.

(** A registered node belongs to the target of its site. *)
Definition node_target (s : gmap LinkSiteKey LinkSiteRecord) (ns : gmap LinkSiteKey nat) (n : nat) (t : Z) : Prop :=
  exists k r, ns !! k = Some n /\ s !! k = Some r /\ ls_guest_target r = t.

Record nodes_ok (s : gmap LinkSiteKey LinkSiteRecord) (ns : gmap LinkSiteKey nat)
    (st : gmap Z SignalTarget) (sg : list SignalSite) : Prop := {
  nd_site : forall k n, ns !! k = Some n -> is_Some (s !! k);
  nd_node : forall k n, ns !! k = Some n -> is_Some (sg !! n);
  nd_inj : forall k k' n, ns !! k = Some n -> ns !! k' = Some n -> k = k';
  nd_target : forall n t, node_target s ns n t -> is_Some (st !! t);
  nd_list : forall t x, st !! t = Some x -> exists l, chain sg (st_sites x) l /\ descending l /\
    forall n, n ∈ l <-> node_target s ns n t
}.

(** The registered nodes are the live ones. *)
Definition live_ok (ns : gmap LinkSiteKey nat) (sg : list SignalSite) : Prop :=
  forall n node, sg !! n = Some node -> ss_live node = true <-> exists k, ns !! k = Some n.

Definition patches_ok (sg : list SignalSite) : Prop := forall n node, sg !! n = Some node -> patch_ok (ss_patch node).

Record targets_ok (tg : gmap Z TargetRecord) (st : gmap Z SignalTarget) (og : gmap LinkSourceOwner OutgoingRecord)
    (next : Z) : Prop := {
  tg_next : 0 < next <= kSignalInvalidatingGeneration;
  tg_record : forall t r, tg !! t = Some r -> lt_guest_target (tr_target r) = t /\
    0 < lt_generation (tr_target r) < next /\ is_Some (st !! t);
  tg_owner : forall t r, tg !! t = Some r -> fst (lt_target_owner (tr_target r)) <> 0 -> snd (lt_target_owner (tr_target r)) <> 0 ->
    is_Some (og !! lt_target_owner (tr_target r));
  tg_signal : forall t x, st !! t = Some x -> st_publishing_count x = 0 /\ st_linking_count x = 0 /\
    (st_active_generation x = 0 \/ st_active_generation x = kSignalInvalidatingGeneration \/
     exists r, tg !! t = Some r /\ tr_active r = true /\ lt_generation (tr_target r) = st_active_generation x)
}.

(** A linked site knows the generation it was linked to. *)
Definition generations_ok (s : gmap LinkSiteKey LinkSiteRecord) (next : Z) : Prop :=
  forall k r, s !! k = Some r -> 0 <= ls_target_generation r < next /\
    (ls_state r = Linked \/ ls_state r = Far -> 0 < ls_target_generation r).

Record manager_ok (m : LinkManager) : Prop := {
  mo_index : index_ok (lm_sites m) (lm_incoming m) (lm_outgoing m);
  mo_nodes : nodes_ok (lm_sites m) (lm_signal_sites m) (lm_signal_targets m) (lm_signal_storage m);
  mo_live : live_ok (lm_signal_sites m) (lm_signal_storage m);
  mo_patches : patches_ok (lm_signal_storage m);
  mo_targets : targets_ok (lm_targets m) (lm_signal_targets m) (lm_outgoing m) (lm_next_target_generation m);
  mo_generations : generations_ok (lm_sites m) (lm_next_target_generation m)
}.

Lemma manager_new_ok : manager_ok manager_new.
Proof.
  split; simpl.
  - split; [done| | |done|done].
    + intros t k. unfold incoming_of. rewrite lookup_empty. set_solver.
    + intros o k. unfold outgoing_of. split; [by intros (g & Hg & _)|by intros (r & Hr & _)].
  - split; [done|done|done| |done]. by intros n t (k & r & Hk & _).
  - by intros n node Hn.
  - by intros n node Hn.
  - split; [unfold kSignalInvalidatingGeneration; lia|done|done|done].
  - by intros k r Hr.
Qed.

(** ** Updates of the site records *)

(** The records of [s'] are those of [s], changed in what [R] allows. *)
Definition sites_rel (R : LinkSiteRecord -> LinkSiteRecord -> Prop) (s s' : gmap LinkSiteKey LinkSiteRecord) : Prop :=
  forall k, option_Forall2 R (s !! k) (s' !! k).

Definition same_place (r r' : LinkSiteRecord) : Prop :=
  ls_site r' = ls_site r /\ ls_guest_target r' = ls_guest_target r /\ ls_source_owner r' = ls_source_owner r.
Definition same_phase (r r' : LinkSiteRecord) : Prop :=
  same_place r r' /\ (ls_state r' = Retiring <-> ls_state r = Retiring).

Lemma rel_some R s s' k r : sites_rel R s s' -> s !! k = Some r -> exists r', s' !! k = Some r' /\ R r r'.
Proof. intros Hs Hr. specialize (Hs k). rewrite Hr in Hs. inversion Hs; subst. eauto. Qed.

Lemma rel_some_back R s s' k r' : sites_rel R s s' -> s' !! k = Some r' -> exists r, s !! k = Some r /\ R r r'.
Proof. intros Hs Hr. specialize (Hs k). rewrite Hr in Hs. inversion Hs; subst. eauto. Qed.

Lemma rel_weaken (R R' : LinkSiteRecord -> LinkSiteRecord -> Prop) s s' :
  (forall r r', R r r' -> R' r r') -> sites_rel R s s' -> sites_rel R' s s'.
Proof. intros H Hs k. destruct (Hs k); constructor; auto. Qed.

Lemma rel_alter R g k s : (forall r, s !! k = Some r -> R r (g r)) -> (forall r, R r r) -> sites_rel R s (alter g k s).
Proof.
  intros Hg Hr k'. rewrite lookup_alter. case_decide as Hk; [subst k'|destruct (s !! k'); by constructor].
  destruct (s !! k) eqn:E; constructor; auto.
Qed.

#[export] Instance same_place_pre : PreOrder same_place.
Proof.
  split; [intros r; by split_and!|]. intros r1 r2 r3 (? & ? & ?) (? & ? & ?). unfold same_place. split_and!; congruence.
Qed.
#[export] Instance same_phase_pre : PreOrder same_phase.
Proof.
  split; [intros r; by split|]. intros r1 r2 r3 (H1 & ?) (H2 & ?). split; [by etrans|tauto].
Qed.
#[export] Instance sites_rel_pre R : PreOrder R -> PreOrder (sites_rel R).
Proof. intros HR. split; [intros s k; reflexivity|]. intros s1 s2 s3 H1 H2 k. etrans; [apply H1|apply H2]. Qed.

Lemma index_same_phase s s' i og : sites_rel same_phase s s' -> index_ok s i og -> index_ok s' i og.
Proof.
  intros Hs [H1 H2 H3 H4 H5].
  assert (Hfwd : forall k r, s !! k = Some r -> exists r', s' !! k = Some r' /\ same_phase r r') by (intros; by eapply rel_some).
  assert (Hback : forall k r', s' !! k = Some r' -> exists r, s !! k = Some r /\ same_phase r r') by (intros; by eapply rel_some_back).
  split; [| | |done|].
  - intros k r' Hr'. destruct (Hback _ _ Hr') as (r & Hr & (E & _ & _) & _). rewrite E. eauto.
  - intros t k. rewrite H2. split.
    + intros (r & Hr & Ht). destruct (Hfwd _ _ Hr) as (r' & Hr' & (_ & E & _) & _). exists r'. split; [done|congruence].
    + intros (r' & Hr' & Ht). destruct (Hback _ _ Hr') as (r & Hr & (_ & E & _) & _). exists r. split; [done|congruence].
  - intros o k. rewrite H3. split.
    + intros (r & Hr & Ht). destruct (Hfwd _ _ Hr) as (r' & Hr' & (_ & _ & E) & _). exists r'. split; [done|congruence].
    + intros (r' & Hr' & Ht). destruct (Hback _ _ Hr') as (r & Hr & (_ & _ & E) & _). exists r. split; [done|congruence].
  - intros k r' g Hr' Hg. destruct (Hback _ _ Hr') as (r & Hr & (_ & _ & E) & Hst).
    rewrite Hst. eapply H5; [done|congruence].
Qed.

Lemma node_target_same_place s s' ns n t : sites_rel same_place s s' -> node_target s ns n t <-> node_target s' ns n t.
Proof.
  intros Hs. split; intros (k & r & Hk & Hr & Ht).
  - destruct (rel_some _ _ _ _ _ Hs Hr) as (r' & Hr' & (_ & E & _)). exists k, r'. split_and!; [done..|congruence].
  - destruct (rel_some_back _ _ _ _ _ Hs Hr) as (r' & Hr' & (_ & E & _)). exists k, r'. split_and!; [done..|congruence].
Qed.

Lemma nodes_same_place s s' ns st sg : sites_rel same_place s s' -> nodes_ok s ns st sg -> nodes_ok s' ns st sg.
Proof.
  intros Hs [H1 H2 H3 H4 H5]. split; [|done|done| |].
  - intros k n Hk. destruct (H1 _ _ Hk) as [r Hr]. destruct (rel_some _ _ _ _ _ Hs Hr) as (r' & Hr' & _). by exists r'.
  - intros n t Ht. apply (H4 n), (node_target_same_place _ _ _ _ _ Hs), Ht.
  - intros t x Hx. destruct (H5 _ _ Hx) as (l & Hc & Hd & Hl). exists l. split_and!; [done..|]. intros n.
    rewrite Hl. by apply node_target_same_place.
Qed.

(** Nodes and targets whose links stay. *)
Definition same_node (x x' : SignalSite) : Prop :=
  ss_next x' = ss_next x /\ ss_live x' = ss_live x /\ ss_patch x' = ss_patch x.

#[export] Instance same_node_pre : PreOrder same_node.
Proof.
  split; [intros x; by split_and!|]. intros x y z (? & ? & ?) (? & ? & ?). unfold same_node. split_and!; congruence.
Qed.

Definition same_links (sg sg' : list SignalSite) : Prop :=
  forall n, option_Forall2 same_node (sg !! n) (sg' !! n).

Lemma same_links_alter g n sg :
  (forall x, same_node x (g x)) -> same_links sg (alter g n sg).
Proof.
  intros Hg m. rewrite list_lookup_alter. case_decide as Hm; [subst m|destruct (sg !! m); by constructor].
  destruct (sg !! n); constructor; auto.
Qed.

Definition same_heads (st st' : gmap Z SignalTarget) : Prop :=
  forall t, option_Forall2 (fun x x' => st_sites x' = st_sites x) (st !! t) (st' !! t).

Lemma same_heads_refl st : same_heads st st.
Proof. intros t. destruct (st !! t); by constructor. Qed.

Lemma same_heads_alter g t st : (forall x, st_sites (g x) = st_sites x) -> same_heads st (alter g t st).
Proof.
  intros Hg t'. rewrite lookup_alter. case_decide as Ht; [subst t'|destruct (st !! t'); by constructor].
  destruct (st !! t); constructor; auto.
Qed.

Lemma nodes_same_links s ns st st' sg sg' :
  same_links sg sg' -> same_heads st st' -> nodes_ok s ns st sg -> nodes_ok s ns st' sg'.
Proof.
  intros Hsg Hst [H1 H2 H3 H4 H5]. split; [done| |done| |].
  - intros k n Hk. destruct (H2 _ _ Hk) as [x Hx]. specialize (Hsg n). rewrite Hx in Hsg. inversion Hsg; subst. eauto.
  - intros n t Ht. destruct (H4 _ _ Ht) as [x Hx]. specialize (Hst t). rewrite Hx in Hst. inversion Hst; subst. eauto.
  - intros t x' Hx'. pose proof (Hst t) as Ht. rewrite Hx' in Ht. inversion Ht as [x y E Hx|]; subst.
    symmetry in Hx. destruct (H5 _ _ Hx) as (l & Hc & Hd & Hl). exists l. split_and!; [|done..]. rewrite E.
    eapply chain_keep; [exact Hc|]. intros n node _ Hn. specialize (Hsg n). rewrite Hn in Hsg.
    inversion Hsg as [? y (? & _)|]; subst. eauto.
Qed.

Lemma live_same_links ns sg sg' : same_links sg sg' -> live_ok ns sg -> live_ok ns sg'.
Proof.
  intros Hsg Hl n x' Hx'. pose proof (Hsg n) as Hn. rewrite Hx' in Hn. inversion Hn as [x y (_ & E & _) Hx|]; subst.
  rewrite E. by apply Hl.
Qed.

Lemma patches_same_links sg sg' : same_links sg sg' -> patches_ok sg -> patches_ok sg'.
Proof.
  intros Hsg Hl n x' Hx'. pose proof (Hsg n) as Hn. rewrite Hx' in Hn. inversion Hn as [x y (_ & _ & E) Hx|]; subst.
  rewrite E. by eapply Hl.
Qed.

#[export] Instance same_links_pre : PreOrder same_links.
Proof.
  split; [intros sg n; reflexivity|]. intros sg1 sg2 sg3 H1 H2 n. etrans; [apply H1|apply H2].
Qed.

(** ** Steps on the nodes and records *)

Lemma store_linked_run site b m : exists sg, store_linked site b m = Ok (tt, put_signal_storage sg m) /\ same_links (lm_signal_storage m) sg.
Proof.
  unfold store_linked, get, bind. destruct (lm_signal_sites m !! site) as [n|].
  - eexists. split; [reflexivity|]. by apply same_links_alter.
  - exists (lm_signal_storage m). split; [by destruct m|reflexivity].
Qed.

(** A step that keeps the links and the places of the records. *)
Lemma manager_ok_quiet m s sg :
  manager_ok m -> sites_rel same_phase (lm_sites m) s -> same_links (lm_signal_storage m) sg ->
  generations_ok s (lm_next_target_generation m) -> manager_ok (put_sites s (put_signal_storage sg m)).
Proof.
  intros [Hi Hn Hl Hp Ht Hg] Hs Hsg Hgen. split; simpl; [by eapply index_same_phase| | | |done|done].
  - eapply nodes_same_links; [done|apply same_heads_refl|]. eapply nodes_same_place; [|done].
    eapply rel_weaken; [|exact Hs]. by intros r r' [? _].
  - by eapply live_same_links.
  - by eapply patches_same_links.
Qed.

Lemma generations_alter s g k next :
  generations_ok s next ->
  (forall r, s !! k = Some r -> 0 <= ls_target_generation (g r) < next /\ (ls_state (g r) = Linked \/ ls_state (g r) = Far -> 0 < ls_target_generation (g r))) ->
  generations_ok (alter g k s) next.
Proof.
  intros Hs Hg k' r. rewrite lookup_alter. case_decide as Hk; [subst k'|by apply Hs].
  intros (r0 & Hr0 & ->)%fmap_Some. by apply Hg.
Qed.

(** The current generation of a target. *)
Lemma current_generation_spec m t g :
  current_generation m t = Some g <->
  exists r x, lm_targets m !! t = Some r /\ lm_signal_targets m !! t = Some x /\ tr_active r = true /\
    lt_generation (tr_target r) = g /\ st_active_generation x = g.
Proof.
  unfold current_generation. split.
  - destruct (lm_targets m !! t) as [r|], (lm_signal_targets m !! t) as [x|]; try done.
    destruct (tr_active r) eqn:Ea; [|done]. cbn [andb]. destruct (Z.eqb_spec (st_active_generation x) (lt_generation (tr_target r))); [|done].
    intros [= <-]. exists r, x. split_and!; congruence.
  - intros (r & x & -> & -> & -> & <- & ->). by rewrite Z.eqb_refl.
Qed.

Lemma current_generation_range m t g : manager_ok m -> current_generation m t = Some g -> 0 < g < lm_next_target_generation m.
Proof.
  intros Hm (r & x & Hr & _ & _ & <- & _)%current_generation_spec. by apply (tg_record _ _ _ _ (mo_targets _ Hm) _ _ Hr).
Qed.

(** ** Registration *)

Lemma register_some {A : Type} (s : gmap LinkSiteKey LinkSiteRecord) (k : LinkSiteKey) (r : LinkSiteRecord) (k' : LinkSiteKey) (f : LinkSiteRecord -> A) (a : A) :
  s !! k = None ->
  (exists r', <[k:=r]> s !! k' = Some r' /\ f r' = a) <-> (k' = k /\ f r = a) \/ exists r', s !! k' = Some r' /\ f r' = a.
Proof.
  intros Hfresh. rewrite lookup_insert. case_decide as Hk; [subst k'; rewrite Hfresh|]; naive_solver.
Qed.

Lemma index_register s k r i og :
  s !! k = None -> ls_site r = k -> ls_state r <> Retiring -> index_ok s i og ->
  (forall g, og !! ls_source_owner r = Some g -> og_retiring g = false) ->
  index_ok (<[k:=r]> s) (<[ls_guest_target r := {[k]} ∪ default ∅ (i !! ls_guest_target r)]> i)
    (<[ls_source_owner r := match og !! ls_source_owner r with
                            | Some o => mkOutgoing ({[k]} ∪ og_sites o) (og_retiring o)
                            | None => mkOutgoing {[k]} false
                            end]> og).
Proof.
  intros Hfresh Hkey Hst [H1 H2 H3 H4 H5] Hret. split.
  - intros k' r'. rewrite lookup_insert. case_decide; [by intros [= <-]; subst|apply H1].
  - intros t k'. rewrite register_some, <- H2 by done. unfold incoming_of. rewrite lookup_insert.
    case_decide as Ht; [subst t; simpl; set_solver|]. naive_solver.
  - intros o k'. rewrite register_some, <- H3 by done. unfold outgoing_of.
    setoid_rewrite lookup_insert. case_decide as Ho; [subst o|naive_solver].
    destruct (og !! ls_source_owner r) as [g|] eqn:Eg; (split; [intros (g' & [= <-] & Hin)|]).
    + apply elem_of_union in Hin as [Hk%elem_of_singleton|Hin]; [by left|right; eauto].
    + intros [[-> _]|(g' & [= <-] & Hin)]; eexists; (split; [done|]); apply elem_of_union; [left; by apply elem_of_singleton|by right].
    + left. simpl in Hin. apply elem_of_singleton in Hin. by split.
    + intros [[-> _]|(g' & [=] & _)]. eexists. split; [done|]. simpl; by apply elem_of_singleton.
  - intros t. rewrite lookup_insert. case_decide as Ht; [|apply H4]. intros [=]. set_solver.
  - intros k' r' g. rewrite !lookup_insert. case_decide as Hk.
    + intros [= <-]. rewrite decide_True by done. intros [= <-].
      destruct (og !! ls_source_owner r) as [g|] eqn:Eg; simpl; [rewrite (Hret _ eq_refl)|]; by split.
    + intros Hr'. case_decide as Ho; [|intros Hg; by eapply H5]. intros [= <-].
      assert (Hin : outgoing_of og (ls_source_owner r') k') by (apply H3; eauto).
      destruct Hin as (g0 & Hg0 & _). rewrite Ho, Hg0. simpl. by eapply H5.
Qed.

Lemma nodes_register_bare s k r ns st sg : s !! k = None -> nodes_ok s ns st sg -> nodes_ok (<[k:=r]> s) ns st sg.
Proof.
  intros Hfresh [H1 H2 H3 H4 H5].
  assert (Hnt : forall n t, node_target (<[k:=r]> s) ns n t <-> node_target s ns n t).
  { intros n t. split; intros (k' & r' & Hk' & Hr' & Ht).
    - exists k', r'. rewrite lookup_insert_ne in Hr'; [done|]. intros <-. destruct (H1 _ _ Hk'). congruence.
    - exists k', r'. rewrite lookup_insert_ne; [done|]. intros <-. destruct (H1 _ _ Hk'). congruence. }
  split; [|done|done|by intros n t ?%Hnt; eapply H4|].
  - intros k' n Hk'. rewrite lookup_insert. case_decide; [done|by eapply H1].
  - intros t x Hx. destruct (H5 _ _ Hx) as (l & ? & ? & Hl). exists l. split_and!; [done..|]. intros n. by rewrite Hl, Hnt.
Qed.

(** The empty list of a target that has none yet. *)
Lemma nodes_new_target s ns st sg t : st !! t = None -> nodes_ok s ns st sg -> nodes_ok s ns (<[t := new_signal_target]> st) sg.
Proof.
  intros Hfresh [H1 H2 H3 H4 H5]. split; [done..| |].
  - intros n t' Ht'. rewrite lookup_insert. case_decide; [done|by eapply H4].
  - intros t' x. rewrite lookup_insert. case_decide as Ht; [|apply H5]. subst t'. intros [= <-].
    exists []. split_and!; [done|constructor|]. intros n. split; [by intros ?%not_elem_of_nil|].
    intros Hn. destruct (H4 _ _ Hn). congruence.
Qed.

(** A node pushed on the list of its site's target. *)
Lemma nodes_push s k r ns st sg t x p :
  s !! k = Some r -> ls_guest_target r = t -> ns !! k = None -> st !! t = Some x -> nodes_ok s ns st sg ->
  nodes_ok s (<[k := length sg]> ns) (<[t := set_list (Some (length sg)) x]> st) (sg ++ [mkSignalSite p (st_sites x) false true]).
Proof.
  intros Hr Ht Hk Hx [H1 H2 H3 H4 H5].
  assert (Hlt : forall k n, ns !! k = Some n -> (n < length sg)%nat) by (intros k' n [y Hy]%H2; by eapply lookup_lt_Some).
  assert (Hnt : forall n t', node_target s (<[k:=length sg]> ns) n t' <-> (n = length sg /\ t' = t) \/ node_target s ns n t').
  { intros n t'. split.
    - intros (k' & r' & Hk' & Hr' & Ht'). rewrite lookup_insert in Hk'. case_decide; [left|right; by exists k', r'].
      injection Hk' as <-. split; [done|congruence].
    - intros [[-> ->]|(k' & r' & Hk' & Hr' & Ht')].
      + exists k, r. by rewrite lookup_insert_eq.
      + exists k', r'. rewrite lookup_insert_ne; [done|congruence]. }
  split.
  - intros k' n. rewrite lookup_insert. case_decide; [intros _; subst; eauto|apply H1].
  - intros k' n. rewrite lookup_insert. case_decide.
    + intros [= <-]. exists (mkSignalSite p (st_sites x) false true). by rewrite list_lookup_middle.
    + intros [y Hy]%H2. exists y. by apply lookup_app_l_Some.
  - intros k1 k2 n. rewrite !lookup_insert. do 2 case_decide; [congruence| | |by apply H3].
    + intros [= <-] ?%Hlt. lia.
    + intros ?%Hlt [= <-]. lia.
  - intros n t' [[-> ->]|Hn]%Hnt; rewrite lookup_insert; case_decide; [done|congruence|done|by eapply H4].
  - intros t' x'. rewrite lookup_insert. case_decide as Ht'.
    + subst t'. intros [= <-]. destruct (H5 _ _ Hx) as (l & Hc & Hd & Hl). exists (length sg :: l). split_and!.
      * split; [done|]. eexists. rewrite list_lookup_middle by done. split; [done|]. by apply chain_app.
      * constructor; [done|]. apply Forall_forall. intros n Hn. by eapply chain_bound.
      * intros n. rewrite elem_of_cons, Hl, Hnt. naive_solver.
    + intros Hx'. destruct (H5 _ _ Hx') as (l & Hc & Hd & Hl). exists l. split_and!; [by apply chain_app|done|].
      intros n. rewrite Hl, Hnt. naive_solver.
Qed.

Lemma live_push ns k sg p next : (forall k n, ns !! k = Some n -> is_Some (sg !! n)) -> ns !! k = None ->
  live_ok ns sg -> live_ok (<[k := length sg]> ns) (sg ++ [mkSignalSite p next false true]).
Proof.
  intros Hb Hk Hl n node Hn. apply lookup_app_Some in Hn as [Hn|[Hlen Hn]].
  - rewrite (Hl _ _ Hn). apply lookup_lt_Some in Hn. split; intros [k' Hk']; exists k'.
    + rewrite lookup_insert_ne; [done|congruence].
    + rewrite lookup_insert in Hk'. case_decide; [|done]. injection Hk' as <-. lia.
  - apply list_lookup_singleton_Some in Hn as [Hn <-]. split; [|done]. intros _. exists k. rewrite lookup_insert_eq. f_equal. lia.
Qed.

Lemma patches_push sg node : patch_ok (ss_patch node) -> patches_ok sg -> patches_ok (sg ++ [node]).
Proof.
  intros Hp Hsg n x [Hx|[_ Hx]]%lookup_app_Some; [by eapply Hsg|].
  by apply list_lookup_singleton_Some in Hx as [_ <-].
Qed.

(** ** The parts under changes of the targets *)

(** Only the outgoing sets grow. *)
Lemma targets_outgoing tg st og og' next :
  (forall o, is_Some (og !! o) -> is_Some (og' !! o)) -> targets_ok tg st og next -> targets_ok tg st og' next.
Proof. intros Ho [H1 H2 H3 H4]. split; [done|done| |done]. intros t r Hr Hf Hs. eauto. Qed.

Lemma targets_heads tg st og next t x l :
  st !! t = Some x -> targets_ok tg st og next -> targets_ok tg (<[t := set_list l x]> st) og next.
Proof.
  intros Hx [H1 H2 H3 H4]. split; [done| |done|].
  - intros t' r Hr. destruct (H2 _ _ Hr) as (Ha & Hb & Hc). split; [done|]. split; [done|]. rewrite lookup_insert. by case_decide.
  - intros t' x'. rewrite lookup_insert. case_decide as Ht; [|apply H4]. subst t'. intros [= <-]. by apply (H4 t x).
Qed.

Lemma targets_new_target tg st og next t :
  st !! t = None -> targets_ok tg st og next -> targets_ok tg (<[t := new_signal_target]> st) og next.
Proof.
  intros Hfresh [H1 H2 H3 H4]. split; [done| |done|].
  - intros t' r Hr. destruct (H2 _ _ Hr) as (Ha & Hb & Hc). split; [done|]. split; [done|]. rewrite lookup_insert. by case_decide.
  - intros t' x'. rewrite lookup_insert. case_decide as Ht; [|apply H4]. intros [= <-]. simpl. tauto.
Qed.
