(* ===== verification/LinkManagerProps.v ===== *)
(** * Direct links: the operations of the manager

    Every operation of LinkManager.v keeps the invariant of LinkInvariant.v, and what
    registration, linking, invalidation and the two-phase removal of an owner do. *)

From Stdlib Require Import ZArith Lia.
From stdpp Require Import numbers base gmap sets list sorting.
From S2P Require Import Prelude MachineInt LinkManager LinkInvariant.

Local Open Scope Z_scope.
Local Open Scope svm_scope.

(** ** Registration *)

Lemma new_record_fields site t owner patch kind flags :
  let r := new_record site t owner patch kind flags in
  ls_site r = site /\ ls_guest_target r = t /\ ls_source_owner r = owner /\ ls_state r = Unlinked /\ ls_target_generation r = 0.
Proof.
  unfold new_record. destruct patch as [s|]; [|done]. by destruct (has_flags_bypass (Some s)).
Qed.

Lemma GetOrCreate_run t m : manager_ok m -> exists x m', GetOrCreateSignalTarget t m = Ok (x, m') /\ manager_ok m' /\
  lm_signal_targets m' !! t = Some x /\ (exists st, m' = put_signal_targets st m) /\
  (forall u, current_generation m' u = current_generation m u).
Proof.
  intros Hm. unfold GetOrCreateSignalTarget, bind, get. destruct (lm_signal_targets m !! t) as [x|] eqn:Hx.
  - exists x, m. split_and!; [done..| |done]. exists (lm_signal_targets m). by destruct m.
  - eexists _, _. split; [reflexivity|]. destruct Hm as [H1 H2 H3 H4 H5 H6]. split_and!.
    + split; simpl; [done|by apply nodes_new_target|done|done|by apply targets_new_target|done].
    + simpl. by rewrite lookup_insert_eq.
    + eauto.
    + intros u. unfold current_generation. simpl. rewrite lookup_insert. case_decide as Hu; [|done]. subst u. rewrite Hx.
      destruct (lm_targets m !! t) as [r|] eqn:Hr; [|done]. destruct (tg_record _ _ _ _ H5 _ _ Hr) as (_ & _ & [y Hy]). congruence.
Qed.

Lemma owner_retiring_false m owner g : owner_retiring m owner = false -> lm_outgoing m !! owner = Some g -> og_retiring g = false.
Proof. unfold owner_retiring. intros H Hg. by rewrite Hg in H. Qed.

(** The record and the index entries of a new site. *)
Lemma manager_ok_indexed m site t owner patch kind flags :
  manager_ok m -> owner_retiring m owner = false -> lm_sites m !! site = None ->
  manager_ok (index_site site t owner (put_sites (<[site := new_record site t owner patch kind flags]> (lm_sites m)) m)).
Proof.
  intros [H1 H2 H3 H4 H5 H6] Hret Hfresh. destruct (new_record_fields site t owner patch kind flags) as (E1 & E2 & E3 & E4 & E5).
  set (r := new_record site t owner patch kind flags) in *. split; simpl.
  - rewrite <- E2, <- E3. apply index_register; [done|done|by rewrite E4|done|].
    intros g Hg. eapply owner_retiring_false; [done|]. by rewrite <- E3.
  - by apply nodes_register_bare.
  - done.
  - done.
  - eapply targets_outgoing; [|done]. intros o Ho. rewrite lookup_insert. by case_decide.
  - intros k' r'. rewrite lookup_insert. case_decide; [|apply H6]. intros [= <-]. rewrite E4, E5.
    pose proof (tg_next _ _ _ _ H5). split; [lia|]. by intros [|].
Qed.

Lemma publish_node_run m site t s r :
  manager_ok m -> lm_sites m !! site = Some r -> ls_guest_target r = t -> lm_signal_sites m !! site = None -> patch_ok s ->
  exists m', publish_node site t s m = Ok (tt, m') /\ manager_ok m' /\ lm_sites m' = lm_sites m /\
    lm_targets m' = lm_targets m /\ lm_code m' = lm_code m /\ (forall u, current_generation m' u = current_generation m u).
Proof.
  intros Hm Hr Ht Hns Hp. destruct (GetOrCreate_run t m Hm) as (x & m1 & Hrun & Hm1 & Hx & (st & ->) & Hc).
  simpl in Hx. unfold publish_node. erewrite bind_run by exact Hrun. eexists. split; [reflexivity|].
  destruct Hm1 as [H1 H2 H3 H4 H5 H6]; simpl in *.
  assert (Halter : forall (st : gmap Z SignalTarget) g, st !! t = Some x -> alter g t st = <[t := g x]> st).
  { intros st' g Hst. apply map_eq. intros u. rewrite lookup_alter, lookup_insert. case_decide; [|done]. subst u. by rewrite Hst. }
  split_and!; [split; simpl; rewrite ?Halter by done|done..|].
  - done.
  - by eapply nodes_push.
  - apply live_push; [|done..]. intros k n Hk. by eapply nd_node.
  - by apply patches_push.
  - by apply targets_heads.
  - done.
  - intros u. rewrite <- Hc. unfold current_generation. simpl. rewrite lookup_alter. case_decide as Hu; [|done]. subst u. by rewrite Hx.
Qed.

Lemma RegisterSite_run m site t owner patch kind flags :
  manager_ok m -> (forall s, patch = Some s -> patch_aligned s) ->
  exists b m', RegisterSite site t owner patch kind flags m = Ok (b, m') /\ manager_ok m' /\
    (b = true <-> registration_ok site owner patch kind flags = true /\ owner_retiring m owner = false /\ lm_sites m !! site = None) /\
    (b = false -> m' = m) /\
    (b = true -> lm_sites m' = <[site := new_record site t owner patch kind flags]> (lm_sites m) /\
       lm_code m' = lm_code m /\ lm_targets m' = lm_targets m).
Proof.
  intros Hm Hp. unfold RegisterSite.
  destruct (registration_ok site owner patch kind flags) eqn:Hok; cbn [negb]; [|by exists false, m; naive_solver].
  unfold get, bind at 1. destruct (owner_retiring m owner) eqn:Hret; [by exists false, m; naive_solver|].
  destruct (lm_sites m !! site) as [r0|] eqn:Hfresh; [by exists false, m; naive_solver|].
  pose proof (manager_ok_indexed m site t owner patch kind flags Hm Hret Hfresh) as Hm1.
  set (r := new_record site t owner patch kind flags) in *.
  set (m1 := index_site site t owner _) in *.
  assert (H : exists m2, (match patch with Some s => publish_node site t s | None => ret tt end) m1 = Ok (tt, m2) /\ manager_ok m2 /\
    lm_sites m2 = lm_sites m1 /\ lm_targets m2 = lm_targets m1 /\ lm_code m2 = lm_code m1).
  { destruct patch as [s|]; [|by exists m1].
    destruct (publish_node_run m1 site t s r) as (m2 & ? & ? & ? & ? & ? & _); [done| | | | |naive_solver].
    - simpl. by rewrite lookup_insert_eq.
    - by destruct (new_record_fields site t owner (Some s) kind flags) as (_ & ? & _).
    - simpl. destruct (lm_signal_sites m !! site) eqn:E; [|done]. destruct (nd_site _ _ _ _ (mo_nodes _ Hm) _ _ E). congruence.
    - eapply registration_patch_ok; [|exact Hok]. by apply Hp. }
  destruct H as (m2 & Hrun & Hm2 & Hs & Ht & Hc). 
  eexists true, _. split; [do 2 mstep; erewrite bind_run by exact Hrun; do 2 mstep; reflexivity|]. split_and!; [by destruct Hm2; split|naive_solver|done|].
  intros _. by split_and!.
Qed.

(** ** Linking *)

Lemma ValidateTargetGeneration_spec m t g : ValidateTargetGeneration m t g = true <-> current_generation m t = Some g.
Proof. unfold ValidateTargetGeneration. by rewrite bool_decide_eq_true. Qed.

(** A site may be marked at the generation [g]. *)
Definition markable (m : LinkManager) (site : LinkSiteKey) (g : Z) (r : LinkSiteRecord) : Prop :=
  lm_sites m !! site = Some r /\ ls_state r = Unlinked /\ current_generation m (ls_guest_target r) = Some g.

Lemma ValidateMarkLocked_spec m site g : ValidateMarkLocked m site g = true <-> exists r, markable m site g r.
Proof.
  unfold ValidateMarkLocked, markable. destruct (lm_sites m !! site) as [r|]; [|by split; [|intros (r & [=] & _)]].
  rewrite andb_true_iff, bool_decide_eq_true, ValidateTargetGeneration_spec. naive_solver.
Qed.

(** The current generations do not depend on the records and nodes of the sites. *)
Lemma current_generation_sites s sg m t :
  current_generation (put_sites s (put_signal_storage sg m)) t = current_generation m t.
Proof. done. Qed.

Lemma set_state_phase st g b r : (st = Retiring <-> ls_state r = Retiring) -> same_phase r (set_state st g b r).
Proof. by split. Qed.

(** The record of a markable site becomes linked or far. *)
Lemma manager_ok_marked m site g r st b sg :
  manager_ok m -> markable m site g r -> st = Linked \/ st = Far -> same_links (lm_signal_storage m) sg ->
  manager_ok (put_sites (alter (set_state st g b) site (lm_sites m)) (put_signal_storage sg m)).
Proof.
  intros Hm (Hr & Hu & Hc) Hst Hsg. pose proof (current_generation_range _ _ _ Hm Hc) as Hg.
  apply manager_ok_quiet; [done| |done|].
  - apply rel_alter; [|reflexivity]. intros r' Hr'. assert (r' = r) as -> by congruence. apply set_state_phase.
    rewrite Hu. by destruct Hst; subst st.
  - apply generations_alter; [apply Hm|]. intros r' _. simpl. split; [lia|]. lia.
Qed.

(** [MarkFar] succeeds exactly on an unlinked site whose target is current at the
    expected generation; then the site is far at that generation and nothing else but
    its node changes.  Otherwise nothing changes. *)
Theorem MarkFar_spec (site : LinkSiteKey) (g : Z) (m : LinkManager) : manager_ok m ->
  exists b m', MarkFar site g m = Ok (b, m') /\ manager_ok m' /\
    (b = true <-> exists r, markable m site g r) /\ (b = false -> m' = m) /\
    (b = true -> exists sg, m' = put_sites (alter (set_state Far g false) site (lm_sites m)) (put_signal_storage sg m)).
Proof.
  intros Hm. unfold MarkFar. unfold get, bind at 1. destruct (ValidateMarkLocked m site g) eqn:Hv; cbn [negb].
  - pose proof (proj1 (ValidateMarkLocked_spec _ _ _) Hv) as [r Hr].
    destruct (store_linked_run site false (put_sites (alter (set_state Far g false) site (lm_sites m)) m)) as (sg & Hrun & Hsg).
    eexists true, _. split; [unfold update_site; mstep; by erewrite bind_run by exact Hrun|].
    split_and!; [|naive_solver|done|by exists sg]. by eapply (manager_ok_marked _ _ _ _ Far); [..|right|].
  - exists false, m. split_and!; [done..| |done|done]. split; [done|]. intros Hr. apply ValidateMarkLocked_spec in Hr. congruence.
Qed.

Lemma manager_ok_code c m : manager_ok m -> manager_ok (put_code c m).
Proof. by intros []; split. Qed.

Lemma put_code_same m : put_code (lm_code m) m = m.
Proof. by destruct m. Qed.

(** The code once the flags bypass of an incompatible site is off. *)
Definition bypass_off (m : LinkManager) (r : LinkSiteRecord) (compatible : bool) : gmap Z Z :=
  if negb (ls_flags_bypass_offset r =? kNoOffset) && negb compatible then
    match node_of m (ls_site r) with
    | Some node =>
        let b := ps_flags_bypass (ss_patch node) in
        if bp_rx_site b =? 0 then lm_code m else <[bp_rw_site b := bp_unlinked_instruction b]> (lm_code m)
    | None => lm_code m
    end
  else lm_code m.

Lemma on_code_run {A} (c : ST (gmap Z Z) A) m a code : c (lm_code m) = Ok (a, code) -> on_code c m = Ok (a, put_code code m).
Proof. unfold on_code. by intros ->. Qed.

Lemma node_of_patch m site node : patches_ok (lm_signal_storage m) -> node_of m site = Some node -> patch_ok (ss_patch node).
Proof. intros Hm Hn. unfold node_of in Hn. apply bind_Some in Hn as (n & _ & Hn). by eapply Hm. Qed.

Lemma DisableFlagsBypass_run m r compatible :
  patches_ok (lm_signal_storage m) ->
  (if negb (ls_flags_bypass_offset r =? kNoOffset) && negb compatible then DisableFlagsBypassLocked r else ret tt) m =
  Ok (tt, put_code (bypass_off m r compatible) m).
Proof.
  intros Hm. unfold bypass_off. destruct (negb _ && negb _); [|by rewrite put_code_same].
  unfold DisableFlagsBypassLocked, bind, get. destruct (node_of m (ls_site r)) as [node|] eqn:Hn; [|by rewrite put_code_same].
  destruct (Z.eqb_spec (bp_rx_site (ps_flags_bypass (ss_patch node))) 0); [by rewrite put_code_same|].
  destruct (node_of_patch _ _ _ Hm Hn) as (_ & _ & Hb). by apply on_code_run, PatchCodeWord_run, Hb.
Qed.

Lemma bypass_members_patch m region off l p0 ms p ms' :
  patches_ok (lm_signal_storage m) -> (forall p, p0 = Some p -> patch_ok p /\ bp_rx_site (ps_flags_bypass p) <> 0) ->
  bypass_members m region off l p0 ms = Some (Some p, ms') -> patch_ok p /\ bp_rx_site (ps_flags_bypass p) <> 0.
Proof.
  intros Hm. revert p0 ms. induction l as [|[key member] l IH]; intros p0 ms Hp0 H; simpl in H.
  - apply Hp0. by injection H as ->.
  - destruct (negb _ || negb _); [eapply IH; eassumption|]. destruct (bool_decide _); [done|].
    destruct (node_of m key) as [node|] eqn:Hn; [|done]. destruct (Z.eqb_spec (bp_rx_site (ps_flags_bypass (ss_patch node))) 0); [done|].
    cbn [orb] in H. destruct (match p0 with Some _ => _ | None => _ end); [done|].
    set (p1 := match p0 with Some _ => _ | None => _ end) in H.
    assert (Hp1 : forall p, p1 = Some p -> patch_ok p /\ bp_rx_site (ps_flags_bypass p) <> 0).
    { intros q Hq. unfold p1 in Hq. destruct p0 as [p0|]; [by apply Hp0; rewrite <- Hq|]. injection Hq as <-.
      split; [by eapply node_of_patch|done]. }
    repeat first [ discriminate H | eapply IH; eassumption | case_match ].
Qed.

Lemma TryEnable_run m site : patches_ok (lm_signal_storage m) -> exists c, TryEnableFlagsBypassLocked site m = Ok (tt, put_code c m) /\
  (forall r, lm_sites m !! site = Some r -> ls_flags_bypass_offset r = kNoOffset -> c = lm_code m).
Proof.
  intros Hm. assert (Hsame : exists c, Ok (tt, m) = Ok (A := unit * LinkManager) (tt, put_code c m) /\
    (forall r, lm_sites m !! site = Some r -> ls_flags_bypass_offset r = kNoOffset -> c = lm_code m)).
  { exists (lm_code m). by rewrite put_code_same. }
  unfold TryEnableFlagsBypassLocked, bind, get. destruct (lm_sites m !! site) as [r|]; [|exact Hsame].
  destruct (Z.eqb_spec (ls_flags_bypass_offset r) kNoOffset) as [Ho|Ho]; [exact Hsame|].
  destruct (negb (ls_pending_flags_compatible r)); [exact Hsame|]. cbn [orb].
  destruct (bypass_members _ _ _ _ _ _) as [[[p|] members]|] eqn:Hb; [|exact Hsame..].
  destruct (members_current m members); [|exact Hsame].
  destruct (bypass_members_patch _ _ _ _ None [] _ _ Hm ltac:(done) Hb) as [(_ & _ & Hp) Hne]. specialize (Hp Hne).
  eexists. split; [apply on_code_run, PatchCodeWord_run, Hp|]. intros r0 [= <-]. done.
Qed.

(** The count that holds off the signal handler. *)
Lemma linking_balanced (st : gmap Z SignalTarget) t : (forall x, st !! t = Some x -> st_linking_count x = 0) ->
  alter (add_linking (-1)) t (alter (add_linking 1) t st) = st.
Proof.
  intros Hx. apply map_eq. intros u. rewrite !lookup_alter. destruct (decide (t = u)) as [<-|]; [|done]. rewrite decide_True by done.
  destruct (st !! t) as [x|] eqn:E; [|done]. simpl. f_equal. specialize (Hx x eq_refl). destruct x; simpl in *. by subst.
Qed.

(** The records after a link at the generation [g], with the nodes and the code. *)
Definition linked_state (m : LinkManager) (site : LinkSiteKey) (g : Z) (compatible : bool) (sg : list SignalSite) (c : gmap Z Z) : LinkManager :=
  put_code c (put_sites (alter (set_state Linked g compatible) site (lm_sites m)) (put_signal_storage sg m)).

(** (C18) [MarkLinked] calls the commit function only for an unlinked site whose target is
    current at the expected generation, after switching off the flags bypass of a site
    that the target's contract does not accept; when the commit succeeds the site is
    linked at that generation, and otherwise only the code has changed. *)
Theorem MarkLinked_spec (site : LinkSiteKey) (g : Z) (commit : LinkSiteRecord -> ST (gmap Z Z) bool) (m : LinkManager) :
  manager_ok m ->
  ((~ exists r, markable m site g r) -> MarkLinked site g (Some commit) m = Ok (false, m)) /\
  (forall r t, markable m site g r -> lm_targets m !! ls_guest_target r = Some t ->
   let compatible := pending_compatible (tr_target t) r in
   match commit r (bypass_off m r compatible) with
   | Err e => MarkLinked site g (Some commit) m = Err e
   | Ok (false, c) => MarkLinked site g (Some commit) m = Ok (false, put_code c m)
   | Ok (true, c) => exists sg c', MarkLinked site g (Some commit) m = Ok (true, linked_state m site g compatible sg c') /\
       (ls_flags_bypass_offset r = kNoOffset -> c' = c) /\ manager_ok (linked_state m site g compatible sg c')
   end).
Proof.
  intros Hm. assert (Hcount : forall t x, lm_signal_targets m !! t = Some x -> st_linking_count x = 0).
  { intros t x Hx. apply (tg_signal _ _ _ _ (mo_targets _ Hm) _ _ Hx). }
  assert (Hbal : forall t, alter (add_linking (-1)) t (alter (add_linking 1) t (lm_signal_targets m)) = lm_signal_targets m).
  { intros t. apply linking_balanced, Hcount. }
  assert (Hval : forall t u, ValidateTargetGeneration (put_signal_targets (alter (add_linking 1) t (lm_signal_targets m)) m) u g =
    ValidateTargetGeneration m u g).
  { intros t u. unfold ValidateTargetGeneration, current_generation. simpl. rewrite lookup_alter. case_decide; [subst u|done].
    by destruct (lm_signal_targets m !! t). }
  split.
  - intros Hno. unfold MarkLinked, get, bind at 1. destruct (lm_sites m !! site) as [r|] eqn:Hr; [|done].
    destruct (bool_decide_reflect (ls_state r = Unlinked)) as [Hu|Hu]; [|done]. cbn [negb].
    destruct (lm_targets m !! ls_guest_target r) as [t|] eqn:Ht; [|done].
    destruct (ValidateTargetGeneration m (ls_guest_target r) g) eqn:Hv.
    { destruct Hno. exists r. split_and!; [done..|]. by apply ValidateTargetGeneration_spec. }
    unfold update_signal_target, bind, modify, ret. simpl. rewrite Hbal. by destruct m.
  - intros r t Hmark Ht compatible. pose proof Hmark as (Hr & Hu & Hc).
    pose proof (proj2 (ValidateTargetGeneration_spec _ _ _) Hc) as Hv. apply current_generation_spec in Hc as (t0 & x & Ht0 & Hx & _ & _ & Hgen).
    set (m1 := put_signal_targets (alter (add_linking 1) (ls_guest_target r) (lm_signal_targets m)) m).
    assert (Hstart : MarkLinked site g (Some commit) m =
      match commit r (bypass_off m r compatible) with
      | Err e => Err e
      | Ok (committed, c) =>
          ((if committed : bool then
              update_site site (set_state Linked g compatible);;; store_linked site true;;; TryEnableFlagsBypassLocked site
            else ret tt);;;
           update_signal_target (ls_guest_target r) (add_linking (-1));;; ret committed) (put_code c m1)
      end).
    { unfold MarkLinked, get, bind at 1. rewrite Hr, bool_decide_true by done. cbn [negb]. rewrite Ht.
      unfold update_signal_target at 1. erewrite bind_run by reflexivity. fold m1. rewrite Hv. fold compatible.
      unfold bind at 1. unfold bind at 1. rewrite (DisableFlagsBypass_run m1) by apply Hm. unfold on_code. simpl.
      change (bypass_off m1 r compatible) with (bypass_off m r compatible).
      destruct (commit r (bypass_off m r compatible)) as [[committed c]|e]; [|done]. simpl.
      unfold bind at 1. simpl. rewrite lookup_alter_eq, Hx. simpl. by rewrite Hgen, Z.eqb_refl, andb_true_r. }
    rewrite Hstart. destruct (commit r (bypass_off m r compatible)) as [[[] c]|e]; [| |done].
    + destruct (store_linked_run site true (put_sites (alter (set_state Linked g compatible) site (lm_sites m)) (put_code c m1)))
        as (sg & Hrun & Hsg).
      destruct (TryEnable_run (put_signal_storage sg (put_sites (alter (set_state Linked g compatible) site (lm_sites m)) (put_code c m1))) site)
        as (c' & Htry & Hc').
      { eapply patches_same_links; [exact Hsg|]. apply Hm. }
      exists sg, c'. split_and!.
      * assert (Hall : (update_site site (set_state Linked g compatible);;; store_linked site true;;; TryEnableFlagsBypassLocked site) (put_code c m1) =
          Ok (tt, put_code c' (put_signal_storage sg (put_sites (alter (set_state Linked g compatible) site (lm_sites m)) (put_code c m1))))).
        { unfold update_site. erewrite bind_run by reflexivity. erewrite bind_run by exact Hrun. exact Htry. }
        erewrite bind_run by exact Hall. unfold update_signal_target, bind, modify, ret. simpl. rewrite Hbal. by destruct m.
      * intros Ho. apply (Hc' (set_state Linked g compatible r)); [|done]. simpl. by rewrite lookup_alter_eq, Hr.
      * apply manager_ok_code. eapply (manager_ok_marked _ _ _ _ Linked); [done|done|by left|done].
    + unfold update_signal_target, bind, modify, ret. simpl. rewrite Hbal. by destruct m.
Qed.

(** ** Publication *)

(** A signal has invalidated the target, and the manager has not seen to it yet. *)
Definition poisoned (m : LinkManager) (t : Z) : Prop :=
  exists x, lm_signal_targets m !! t = Some x /\ st_active_generation x = kSignalInvalidatingGeneration.

#[export] Instance poisoned_dec m t : Decision (poisoned m t).
Proof.
  destruct (lm_signal_targets m !! t) as [x|] eqn:E; [|right; by intros (x & Hx & _); congruence].
  destruct (decide (st_active_generation x = kSignalInvalidatingGeneration)); [left; by exists x|right].
  intros (y & Hy & ?). congruence.
Defined.

Definition contract_ok (pending call_pending : Z) (c : EdgeFlagsTargetContract) : Prop :=
  Contract_IsWellFormed c = true /\ (negb (pending =? 0) || negb (call_pending =? 0)) = CanPublishPendingEntry c.

(** The target records and signal targets after a publication. *)
Lemma targets_publish tg st og next t x rec :
  targets_ok tg st og next -> st !! t = Some x -> lt_guest_target rec = t -> 0 < lt_generation rec < next ->
  let published := negb (st_active_generation x =? kSignalInvalidatingGeneration) in
  targets_ok (<[t := mkTargetRecord rec published]> tg) (<[t := if published then set_generation (lt_generation rec) x else x]> st)
    (if negb (fst (lt_target_owner rec) =? 0) && negb (snd (lt_target_owner rec) =? 0)
     then match og !! lt_target_owner rec with Some _ => og | None => <[lt_target_owner rec := mkOutgoing ∅ false]> og end else og)
    next.
Proof.
  intros [H1 H2 H3 H4] Hx Ht Hgen published. set (og' := if negb _ && negb _ then _ else og).
  assert (Hog : forall o, is_Some (og !! o) -> is_Some (og' !! o)).
  { intros o Ho. unfold og'. destruct (negb _ && negb _); [|done]. destruct (og !! lt_target_owner rec); [done|].
    rewrite lookup_insert. by case_decide. }
  split.
  - done.
  - intros t' r'. rewrite !lookup_insert. case_decide as Ht'; [|apply H2]. intros [= <-]. by subst t'.
  - intros t' r'. rewrite lookup_insert. case_decide as Ht'; [|intros Hr' Hf Hs; apply Hog; by eapply H3].
    intros [= <-] Hf Hs. simpl in *. unfold og'. destruct (Z.eqb_spec (fst (lt_target_owner rec)) 0); [done|].
    destruct (Z.eqb_spec (snd (lt_target_owner rec)) 0); [done|]. cbn [negb andb].
    destruct (og !! lt_target_owner rec) eqn:E; [by rewrite E|]. by rewrite lookup_insert_eq.
  - intros t' x'. rewrite !lookup_insert. case_decide as Ht'; [subst t'|by apply H4].
    destruct (H4 _ _ Hx) as (Hp & Hl & Hg). unfold published. intros [= <-].
    destruct (Z.eqb_spec (st_active_generation x) kSignalInvalidatingGeneration) as [Es|Es]; cbn [negb]; simpl.
    + split_and!; [done..|]. by right; left.
    + split_and!; [done..|]. right; right. eexists. split; [done|]. by split.
Qed.

Lemma publish_balanced n (x : SignalTarget) (b : bool) : st_publishing_count x = 0 ->
  add_publishing (-1) (if b then set_generation n (add_publishing 1 x) else add_publishing 1 x) = if b then set_generation n x else x.
Proof. intros Hx. destruct x as [g p l s]; simpl in *. subst p. by destruct b. Qed.

Lemma manager_ok_next m : manager_ok m -> lm_next_target_generation m < kSignalInvalidatingGeneration ->
  manager_ok (put_next_target_generation (lm_next_target_generation m + 1) m).
Proof.
  intros [H1 H2 H3 H4 [T1 T2 T3 T4] H6] Hn. split; simpl; [done..| |].
  - split; [lia| |done|done]. intros t r Hr. destruct (T2 _ _ Hr) as (? & ? & ?). split_and!; [done|lia|lia|done].
  - intros k r Hr. destruct (H6 _ _ Hr). split; [lia|done].
Qed.

Lemma same_heads_insert st t x x' : st !! t = Some x -> st_sites x' = st_sites x -> same_heads st (<[t := x']> st).
Proof.
  intros Hx E u. rewrite lookup_insert. case_decide; [subst u; rewrite Hx; by constructor|].
  destruct (st !! u); by constructor.
Qed.

(** An owner without sites. *)
Lemma index_new_owner s i og o : og !! o = None -> index_ok s i og -> index_ok s i (<[o := mkOutgoing ∅ false]> og).
Proof.
  intros Hfresh [H1 H2 H3 H4 H5].
  assert (Hout : forall o' k, outgoing_of (<[o := mkOutgoing ∅ false]> og) o' k <-> outgoing_of og o' k).
  { intros o' k. unfold outgoing_of. setoid_rewrite lookup_insert. case_decide; [subst o'|done]. rewrite Hfresh.
    split; [intros (g & [= <-] & Hk)|by intros (g & [=] & _)]. simpl in Hk. set_solver. }
  split; [done|done| |done|].
  - intros o' k. by rewrite Hout.
  - intros k r g Hr. rewrite lookup_insert. case_decide as Ho; [|by eapply H5].
    assert (Hin : outgoing_of og o k) by (apply H3; eauto). destruct Hin as (g' & Hg' & _). congruence.
Qed.

(** [PublishTarget] returns the next generation, greater than every generation handed
    out before; the target is current at that generation unless a signal has
    invalidated it, and then it is not current; no other target and no site changes. *)
Theorem PublishTarget_spec (t pc region : Z) (owner : LinkSourceOwner) (direct pending call call_pending : Z)
    (c : EdgeFlagsTargetContract) (m : LinkManager) :
  manager_ok m -> contract_ok pending call_pending c -> lm_next_target_generation m < kSignalInvalidatingGeneration ->
  exists m', PublishTarget t pc region owner direct pending call call_pending c m = Ok (lm_next_target_generation m, m') /\
    manager_ok m' /\ lm_next_target_generation m' = lm_next_target_generation m + 1 /\ lm_sites m' = lm_sites m /\ lm_code m' = lm_code m /\
    current_generation m' t = (if decide (poisoned m t) then None else Some (lm_next_target_generation m)) /\
    (forall u, u <> t -> current_generation m' u = current_generation m u).
Proof.
  intros Hm [Hc1 Hc2] Hnext. set (n := lm_next_target_generation m) in *.
  assert (Hn : 0 < n) by apply (tg_next _ _ _ _ (mo_targets _ Hm)).
  set (m0 := put_next_target_generation (wrap 64 (n + 1)) m).
  assert (Hw : wrap 64 (n + 1) = n + 1) by (apply wrap_small; unfold kSignalInvalidatingGeneration in Hnext; lia).
  assert (Hm0 : manager_ok m0) by (unfold m0; rewrite Hw; by apply manager_ok_next).
  destruct (GetOrCreate_run t m0 Hm0) as (x & m1 & Hrun & Hm1 & Hx & (st & ->) & Hcur). simpl in Hx.
  destruct (tg_signal _ _ _ _ (mo_targets _ Hm1) t x Hx) as (Hpub & _).
  set (rec := mkLinkTargetRecord t pc (if direct =? 0 then pc else direct) pending c call call_pending region n owner).
  set (published := negb (st_active_generation x =? kSignalInvalidatingGeneration)).
  set (og := if negb (fst owner =? 0) && negb (snd owner =? 0)
     then match lm_outgoing m !! owner with Some _ => lm_outgoing m | None => <[owner := mkOutgoing ∅ false]> (lm_outgoing m) end else lm_outgoing m).
  set (m2 := put_outgoing og (put_targets (<[t := mkTargetRecord rec published]> (lm_targets m))
    (put_signal_targets (<[t := if published then set_generation n x else x]> st) m0))).
  assert (Hm2 : manager_ok m2).
  { destruct Hm1 as [H1 H2 H3 H4 H5 H6]. split; simpl in *; [| |done|done| |done].
    - unfold og. destruct (negb _ && negb _); [|done]. destruct (lm_outgoing m !! owner) eqn:E; [done|by apply index_new_owner].
    - eapply nodes_same_links; [reflexivity| |done]. eapply same_heads_insert; [done|]. by destruct published.
    - eapply (targets_publish _ _ _ _ _ _ rec); [done..|]. simpl. lia. }
  assert (Hst : forall st', st' = (if published then alter (set_generation n) t (alter (add_publishing 1) t st) else alter (add_publishing 1) t st) ->
    alter (add_publishing (-1)) t st' = <[t := if published then set_generation n x else x]> st).
  { intros st' ->. apply map_eq. intros u. rewrite lookup_insert, <- (publish_balanced n x published Hpub).
    destruct published; rewrite !lookup_alter; (destruct (decide (t = u)) as [<-|]; [|done]); rewrite ?decide_True, Hx by done; done. }
  exists m2. split_and!; [|done|done|done|done| |].
  - unfold PublishTarget. erewrite bind_run by (unfold guard; rewrite Hc1; reflexivity).
    erewrite bind_run by (unfold guard; rewrite Hc2, eqb_reflx; reflexivity). mstep. mstep. fold n. fold m0.
    erewrite bind_run by (unfold guard; destruct (Z.eqb_spec n kSignalInvalidatingGeneration); [lia|reflexivity]).
    erewrite bind_run by exact Hrun.
    assert (Hpg : publish_generation t n (put_signal_targets (alter (add_publishing 1) t st) m0) =
      Ok (published, put_signal_targets (if published then alter (set_generation n) t (alter (add_publishing 1) t st) else alter (add_publishing 1) t st) m0)).
    { unfold publish_generation, bind, get. simpl. rewrite lookup_alter_eq, Hx. simpl.
      unfold published. by destruct (st_active_generation x =? kSignalInvalidatingGeneration). }
    unfold update_signal_target. erewrite bind_run by reflexivity. erewrite bind_run by exact Hpg.
    do 2 (erewrite bind_run by reflexivity). simpl. rewrite Hst by done. unfold m2, og.
    destruct (negb _ && negb _); [|done]. unfold bind, modify. simpl. by destruct (lm_outgoing m !! owner).
  - unfold current_generation, m2. simpl. rewrite !lookup_insert_eq. simpl. unfold published.
    assert (Hp : poisoned m t <-> st_active_generation x = kSignalInvalidatingGeneration).
    { clear - Hrun Hx. unfold GetOrCreateSignalTarget, bind, get in Hrun. simpl in Hrun. unfold poisoned.
      destruct (lm_signal_targets m !! t) as [y|] eqn:E.
      - injection Hrun as -> _. split; [|by eauto]. by intros (? & [= <-] & ?).
      - injection Hrun as <- _. split; [by intros (? & [=] & _)|done]. }
    destruct (Z.eqb_spec (st_active_generation x) kSignalInvalidatingGeneration) as [Es|Es]; cbn [negb andb].
    + by rewrite decide_True by tauto.
    + rewrite decide_False by tauto. simpl. by rewrite Z.eqb_refl.
  - intros u Hu. change (current_generation m u) with (current_generation m0 u). rewrite <- (Hcur u). unfold current_generation, m2. simpl. by rewrite !lookup_insert_ne by done.
Qed.

(** ** Invalidation *)

(** What [BeginTargetInvalidation] makes of a record. *)
Definition unlinked (r : LinkSiteRecord) : LinkSiteRecord :=
  set_state (if bool_decide (ls_state r = Retiring) then Retiring else Unlinked) 0 false r.

Lemma unlinked_phase r : same_phase r (unlinked r).
Proof. apply set_state_phase. case_bool_decide; [done|by split]. Qed.

(** The records of distinct sites are distinct. *)
Lemma NoDup_omap_sites (s : gmap LinkSiteKey LinkSiteRecord) l :
  (forall k r, s !! k = Some r -> ls_site r = k) -> NoDup l -> NoDup (omap (fun k => s !! k) l).
Proof.
  intros Hkey Hl. induction Hl as [|k l Hk Hl IH]; [constructor|]. simpl. destruct (s !! k) as [r|] eqn:Hr; [|done].
  constructor; [|done]. intros (k' & Hk' & Hr')%list_elem_of_omap. apply Hkey in Hr, Hr'. congruence.
Qed.

Lemma unlink_sites_run l m : NoDup l -> exists s sg,
  unlink_sites l m = Ok (omap (fun k => lm_sites m !! k) l, put_sites s (put_signal_storage sg m)) /\
  (forall k, s !! k = if decide (k ∈ l) then unlinked <$> lm_sites m !! k else lm_sites m !! k) /\ same_links (lm_signal_storage m) sg.
Proof.
  intros Hnd. revert m. induction Hnd as [|k l Hk Hnd IH]; intros m.
  - exists (lm_sites m), (lm_signal_storage m). split_and!; [by destruct m| |reflexivity]. intros k. by rewrite decide_False by apply not_elem_of_nil.
  - simpl. unfold bind at 1, get. destruct (lm_sites m !! k) as [r|] eqn:Hr.
    + set (st := if bool_decide (ls_state r = Retiring) then Retiring else Unlinked).
      destruct (store_linked_run k false (put_sites (alter (set_state st 0 false) k (lm_sites m)) m)) as (sg1 & Hrun & Hsg1).
      destruct (IH (put_signal_storage sg1 (put_sites (alter (set_state st 0 false) k (lm_sites m)) m))) as (s & sg & Hrest & Hs & Hsg).
      exists s, sg. split_and!; [|simpl in Hs|by etrans].
      * unfold update_site. erewrite bind_run by reflexivity. erewrite bind_run by exact Hrun. erewrite bind_run by exact Hrest.
        unfold ret. do 3 f_equal. simpl. apply list_omap_ext, Forall2_same_length_lookup_2; [done|].
        intros i k1 k2 Hk1 Hk2. replace k2 with k1 by congruence. apply list_elem_of_lookup_2 in Hk1. rewrite lookup_alter_ne; [done|]. by intros ->.
      * intros k'. rewrite Hs. destruct (decide (k' = k)) as [->|Hne].
        -- rewrite decide_False by done. rewrite decide_True by left. rewrite lookup_alter_eq, Hr. done.
        -- rewrite lookup_alter_ne by done. by rewrite (decide_ext (k' ∈ k :: l) (k' ∈ l)) by (rewrite elem_of_cons; naive_solver).
    + destruct (IH m) as (s & sg & Hrest & Hs & Hsg). exists s, sg. split_and!; [done| |done].
      intros k'. rewrite Hs. destruct (decide (k' = k)) as [->|Hne].
      * rewrite decide_False by done. by rewrite decide_True, Hr by left.
      * by rewrite (decide_ext (k' ∈ k :: l) (k' ∈ l)) by (rewrite elem_of_cons; naive_solver).
Qed.

Lemma targets_deactivate tg st og next t r x :
  targets_ok tg st og next -> tg !! t = Some r -> st !! t = Some x ->
  targets_ok (<[t := mkTargetRecord (tr_target r) false]> tg) (<[t := set_generation 0 x]> st) og next.
Proof.
  intros [H1 H2 H3 H4] Hr Hx. split; [done| | |].
  - intros t' r'. rewrite !lookup_insert. case_decide; [|apply H2]. subst t'. intros [= <-]. destruct (H2 _ _ Hr) as (? & ? & ?). split; [done|]. by split.
  - intros t' r'. rewrite lookup_insert. case_decide; [|apply H3]. subst t'. intros [= <-]. by apply (H3 _ _ Hr).
  - intros t' x'. rewrite !lookup_insert. case_decide; [|apply H4]. subst t'. intros [= <-]. simpl.
    destruct (H4 _ _ Hx) as (? & ? & _). split_and!; [done..|by left].
Qed.

Lemma generations_unlinked s s' next (P : LinkSiteKey -> Prop) `{forall k, Decision (P k)} : 0 < next ->
  generations_ok s next -> (forall k, s' !! k = if decide (P k) then unlinked <$> s !! k else s !! k) -> generations_ok s' next.
Proof.
  intros Hn Hs Hs' k r. rewrite Hs'. case_decide; [|apply Hs]. intros (r0 & _ & ->)%fmap_Some. simpl.
  split; [lia|]. by case_bool_decide; intros [|].
Qed.

(** [BeginTargetInvalidation] of a published target: the target is not current and not
    poisoned afterwards, no site that branches to it is linked or far, and the snapshot
    it returns holds exactly the old records of these sites, each once.  Other targets
    and sites and the code do not change. *)
Theorem BeginTargetInvalidation_spec (t : Z) (m : LinkManager) : manager_ok m -> is_Some (lm_targets m !! t) ->
  exists rs m', BeginTargetInvalidation t m = Ok (rs, m') /\ manager_ok m' /\
    current_generation m' t = None /\ ~ poisoned m' t /\ (forall u, u <> t -> current_generation m' u = current_generation m u) /\
    NoDup rs /\ (forall r, r ∈ rs <-> lm_sites m !! ls_site r = Some r /\ ls_guest_target r = t) /\
    (forall k r, lm_sites m !! k = Some r ->
       lm_sites m' !! k = Some (if decide (ls_guest_target r = t) then unlinked r else r)) /\
    dom (lm_sites m') = dom (lm_sites m) /\ lm_code m' = lm_code m.
Proof.
  intros Hm [rec Hrec]. unfold BeginTargetInvalidation, get, bind at 1. rewrite Hrec.
  destruct (tg_record _ _ _ _ (mo_targets _ Hm) _ _ Hrec) as (_ & _ & [x Hx]).
  set (l := elements (default ∅ (lm_incoming m !! t))).
  assert (Hl : forall k, k ∈ l <-> exists r, lm_sites m !! k = Some r /\ ls_guest_target r = t).
  { intros k. unfold l. rewrite elem_of_elements. apply (ix_in _ _ _ (mo_index _ Hm)). }
  set (m1 := put_signal_targets (<[t := set_generation 0 x]> (lm_signal_targets m))
               (put_targets (<[t := mkTargetRecord (tr_target rec) false]> (lm_targets m)) m)).
  destruct (unlink_sites_run l m1 (NoDup_elements _)) as (s & sg & Hrun & Hs & Hsg). simpl in Hs, Hsg.
  assert (Hrel : sites_rel same_phase (lm_sites m) s).
  { intros k. rewrite Hs. case_decide; [|reflexivity]. destruct (lm_sites m !! k); constructor. apply unlinked_phase. }
  assert (Hm1 : manager_ok m1).
  { destruct Hm as [H1 H2 H3 H4 H5 H6]. split; simpl; [done| |done|done|by apply targets_deactivate|done].
    eapply nodes_same_links; [reflexivity|by eapply same_heads_insert|done]. }
  eexists _, _. split; [|split; [|split_and!]].
  - erewrite bind_run by reflexivity. unfold update_signal_target. erewrite bind_run by reflexivity. simpl.
    replace (alter (set_generation 0) t (lm_signal_targets m)) with (<[t := set_generation 0 x]> (lm_signal_targets m)); [exact Hrun|].
    apply map_eq. intros u. rewrite lookup_alter, lookup_insert. case_decide; [subst u; by rewrite Hx|done].
  - apply manager_ok_quiet; [done..|]. eapply generations_unlinked; [|apply Hm1|exact Hs]. apply (tg_next _ _ _ _ (mo_targets _ Hm)).
  - unfold current_generation. simpl. by rewrite !lookup_insert_eq.
  - intros (y & Hy & Hp). simpl in Hy. rewrite lookup_insert_eq in Hy. injection Hy as <-. done.
  - intros u Hu. unfold current_generation. simpl. by rewrite !lookup_insert_ne by done.
  - apply NoDup_omap_sites; [|apply NoDup_elements]. intros k r Hr. by apply (ix_key _ _ _ (mo_index _ Hm)).
  - intros r. simpl. rewrite list_elem_of_omap. split.
    + intros (k & Hk & Hr). pose proof (ix_key _ _ _ (mo_index _ Hm) _ _ Hr) as Hkey. rewrite Hkey. split; [done|].
      apply Hl in Hk as (r' & Hr' & Ht). congruence.
    + intros [Hr Ht]. exists (ls_site r). split; [apply Hl; by exists r|done].
  - intros k r Hr. simpl. rewrite Hs, Hr. simpl. rewrite (decide_ext _ (ls_guest_target r = t)); [by case_decide|].
    rewrite Hl. split; [intros (r' & ? & ?); congruence|eauto].
  - simpl. apply set_eq. intros k. rewrite !elem_of_dom. destruct (Hrel k); by split.
  - done.
Qed.
