(* ===== verification/LinkPurge.v ===== *)
(** * Direct links: the life of an owner

    [DetachSource] and [PurgeSource] of LinkManager.v: an owner of translated code is
    first retired, and then every site, list node and target of it goes at once. *)

From Stdlib Require Import ZArith Lia.
From stdpp Require Import numbers base gmap sets list sorting.
From S2P Require Import Prelude MachineInt LinkManager LinkInvariant LinkManagerProps.

Local Open Scope Z_scope.
Local Open Scope svm_scope.

(** ** A node out of its list *)

Lemma descending_length l b : descending l -> (forall n, n ∈ l -> (n < b)%nat) -> (length l <= b)%nat.
Proof.
  intros Hl. revert b. induction Hl as [|n l Hl IH Hf]; intros b Hb; simpl; [lia|].
  pose proof (Hb n ltac:(left)). assert (length l <= n)%nat; [|lia]. apply IH. by apply Forall_forall.
Qed.

Lemma descending_NoDup l : descending l -> NoDup l.
Proof.
  induction 1 as [|n l Hl IH Hf]; constructor; [|done]. intros Hn.
  apply (proj1 (Forall_forall _ _) Hf) in Hn. lia.
Qed.

Lemma descending_app l1 l2 n : descending (l1 ++ n :: l2) -> descending (l1 ++ l2).
Proof.
  induction l1 as [|m l1 IH]; simpl; [by intros [? _]%StronglySorted_inv|].
  intros [Hs Hf]%StronglySorted_inv. constructor; [by apply IH|].
  apply Forall_app in Hf as [Hf1 Hf2]. apply Forall_cons in Hf2 as [_ Hf2]. by apply Forall_app.
Qed.

(** The list without [n]: its predecessor, or the head, takes the link of [n]. *)
Lemma chain_remove sg cur l1 n l2 node :
  NoDup (l1 ++ n :: l2) -> chain sg cur (l1 ++ n :: l2) -> sg !! n = Some node ->
  match last l1 with
  | Some p => chain (alter (set_next (ss_next node)) p sg) cur (l1 ++ l2)
  | None => cur = Some n /\ chain sg (ss_next node) (l1 ++ l2)
  end.
Proof.
  revert cur. induction l1 as [|m l1 IH]; intros cur Hnd Hc Hn; simpl in *.
  - destruct Hc as [-> (x & Hx & Hc)]. split; [done|]. congruence.
  - apply NoDup_cons in Hnd as [Hm Hnd]. destruct Hc as [-> (x & Hx & Hc)]. specialize (IH _ Hnd Hc Hn).
    rewrite last_cons. destruct (last l1) as [p|] eqn:Hl.
    + split; [done|]. exists x. split; [|done]. rewrite list_lookup_alter_ne; [done|].
      intros ->. apply Hm, elem_of_app. left. apply last_Some in Hl as [l' ->]. set_solver.
    + apply last_None in Hl as ->. destruct IH as [_ IH]. split; [done|]. exists (set_next (ss_next node) x).
      rewrite list_lookup_alter_eq, Hx. split; [done|]. simpl. apply chain_alter_out; [set_solver|done].
Qed.

Lemma unlink_node_run l1 : forall fuel t n prev cur l2 m node,
  (length l1 < fuel)%nat -> n ∉ l1 -> chain (lm_signal_storage m) cur (l1 ++ n :: l2) -> lm_signal_storage m !! n = Some node ->
  unlink_node fuel t n prev cur m =
    Ok (tt, let m' := match (match last l1 with Some p => Some p | None => prev end) with
                      | Some p => put_signal_storage (alter (set_next (ss_next node)) p (lm_signal_storage m)) m
                      | None => put_signal_targets (alter (set_list (ss_next node)) t (lm_signal_targets m)) m
                      end in put_signal_storage (alter (set_linked false) n (lm_signal_storage m')) m').
Proof.
  induction l1 as [|c l1 IH]; intros [|fuel] t n prev cur l2 m node Hf Hn Hc Hnode; simpl in Hf; [lia| |lia|].
  - destruct Hc as [-> _]. simpl. unfold get, bind at 1. rewrite Hnode, Nat.eqb_refl. by destruct prev.
  - destruct Hc as [-> (x & Hx & Hc)]. simpl. unfold get, bind at 1. rewrite Hx.
    destruct (Nat.eqb_spec c n) as [->|Hne]; [destruct Hn; left|].
    rewrite (IH fuel t n (Some c) (ss_next x) l2 m node); [|lia|set_solver|done..].
    change (c :: l1) with ([c] ++ l1). rewrite last_app. by destruct (last l1).
Qed.

(** Changes of nodes and targets that only move links. *)
Definition same_content (x x' : SignalSite) : Prop := ss_live x' = ss_live x /\ ss_patch x' = ss_patch x.
Definition same_counts (x x' : SignalTarget) : Prop :=
  st_active_generation x' = st_active_generation x /\ st_publishing_count x' = st_publishing_count x /\
  st_linking_count x' = st_linking_count x.

#[export] Instance same_content_pre : PreOrder same_content.
Proof. split; [by intros x|]. intros x y z [] []. split; congruence. Qed.
#[export] Instance same_counts_pre : PreOrder same_counts.
Proof. split; [intros x; by split_and!|]. intros x y z (? & ? & ?) (? & ? & ?). unfold same_counts. split_and!; congruence. Qed.

Definition moved_links (m m' : LinkManager) : Prop :=
  (forall n, option_Forall2 same_content (lm_signal_storage m !! n) (lm_signal_storage m' !! n)) /\
  (forall t, option_Forall2 same_counts (lm_signal_targets m !! t) (lm_signal_targets m' !! t)).

#[export] Instance moved_links_pre : PreOrder moved_links.
Proof.
  split; [intros m; split; reflexivity|]. intros m1 m2 m3 [H1 H2] [H3 H4]. split; intros x; (etrans; [apply H1 || apply H2|apply H3 || apply H4]).
Qed.

Lemma content_alter g n (sg : list SignalSite) k : (forall x, same_content x (g x)) -> option_Forall2 same_content (sg !! k) (alter g n sg !! k).
Proof. intros Hg. rewrite list_lookup_alter. case_decide; [subst k; destruct (sg !! n); constructor; auto|reflexivity]. Qed.

Lemma counts_alter g t (st : gmap Z SignalTarget) u : (forall x, same_counts x (g x)) -> option_Forall2 same_counts (st !! u) (alter g t st !! u).
Proof. intros Hg. rewrite lookup_alter. case_decide; [subst u; destruct (st !! t); constructor; auto|reflexivity]. Qed.

Section PurgeNode.
Context (s : gmap LinkSiteKey LinkSiteRecord) (ns : gmap LinkSiteKey nat) (st : gmap Z SignalTarget) (sg : list SignalSite).
Context (Hok : nodes_ok s ns st sg).
Context (site : LinkSiteKey) (r : LinkSiteRecord) (n : nat) (node : SignalSite).
Context (Hr : s !! site = Some r) (Hns : ns !! site = Some n) (Hnode : sg !! n = Some node).

Lemma node_target_delete n' t : node_target s (delete site ns) n' t <-> n' <> n /\ node_target s ns n' t.
Proof.
  split.
  - intros (k & r' & Hk & Hr' & Ht). apply lookup_delete_Some in Hk as [Hne Hk].
    split; [|by exists k, r']. intros ->. apply Hne. by apply (nd_inj _ _ _ _ Hok _ _ n).
  - intros [Hne (k & r' & Hk & Hr' & Ht)]. exists k, r'. split_and!; [|done..]. apply lookup_delete_Some.
    split; [|done]. intros <-. congruence.
Qed.

Lemma target_of_node t : node_target s ns n t <-> t = ls_guest_target r.
Proof.
  split; [|intros ->; by exists site, r]. intros (k & r' & Hk & Hr' & Ht).
  rewrite (nd_inj _ _ _ _ Hok _ _ _ Hk Hns) in Hr'. congruence.
Qed.

(** Lists of other targets do not mention a node of this one. *)
Lemma lists_disjoint t x (l : list nat) p :
  st !! t = Some x -> (forall m, m ∈ l <-> node_target s ns m t) -> t <> ls_guest_target r ->
  node_target s ns p (ls_guest_target r) -> p ∉ l.
Proof.
  intros Hx Hl Ht (k & r' & Hk & Hr' & Ht') Hp. apply Hl in Hp as (k2 & r2 & Hk2 & Hr2 & Ht2).
  rewrite (nd_inj _ _ _ _ Hok _ _ _ Hk2 Hk) in Hr2. congruence.
Qed.

Lemma nodes_unlink (st' : gmap Z SignalTarget) (sg' : list SignalSite) (l : list nat) :
  (forall t x, t <> ls_guest_target r -> st' !! t = Some x -> exists x0, st !! t = Some x0 /\ st_sites x = st_sites x0) ->
  (forall t, is_Some (st !! t) -> is_Some (st' !! t)) -> (forall k, is_Some (sg !! k) -> is_Some (sg' !! k)) ->
  (forall x, st' !! ls_guest_target r = Some x -> chain sg' (st_sites x) l) ->
  descending l -> (forall k, k ∈ l <-> k <> n /\ node_target s ns k (ls_guest_target r)) ->
  (forall p, ~ node_target s ns p (ls_guest_target r) -> sg' !! p = sg !! p) ->
  nodes_ok s (delete site ns) st' sg'.
Proof.
  intros Hst Hst' Hsg' Hc Hd Hl Hkeep. destruct Hok as [H1 H2 H3 H4 H5]. split.
  - intros k m [_ Hk]%lookup_delete_Some. by eapply H1.
  - intros k m [_ Hk]%lookup_delete_Some. by eapply Hsg', H2.
  - intros k k' m [_ Hk]%lookup_delete_Some [_ Hk']%lookup_delete_Some. by eapply H3.
  - intros m t [_ Hm]%node_target_delete. by eapply Hst', H4.
  - intros t x Hx. destruct (decide (t = ls_guest_target r)) as [->|Ht].
    + exists l. split_and!; [by apply Hc|done|]. intros k. by rewrite Hl, node_target_delete.
    + destruct (Hst _ _ Ht Hx) as (x0 & Hx0 & ->). destruct (H5 _ _ Hx0) as (l0 & Hc0 & Hd0 & Hl0). exists l0. split_and!; [|done|].
      * eapply chain_keep; [exact Hc0|]. intros k y Hk Hy. exists y. split; [|done]. rewrite Hkeep; [done|].
        intros Hk'. by eapply (lists_disjoint t x0 l0 k).
      * intros k. rewrite Hl0, node_target_delete. split; [|tauto]. intros Hk. split; [|done]. intros ->. by apply target_of_node in Hk.
Qed.
End PurgeNode.

Lemma UnlinkSignalSite_run m site r n :
  nodes_ok (lm_sites m) (lm_signal_sites m) (lm_signal_targets m) (lm_signal_storage m) ->
  lm_sites m !! site = Some r -> lm_signal_sites m !! site = Some n ->
  exists st sg, UnlinkSignalSiteLocked (ls_guest_target r) n m = Ok (tt, put_signal_targets st (put_signal_storage sg m)) /\
    nodes_ok (lm_sites m) (delete site (lm_signal_sites m)) st sg /\ moved_links m (put_signal_targets st (put_signal_storage sg m)).
Proof.
  intros Hok Hr Hns. destruct (nd_node _ _ _ _ Hok _ _ Hns) as [node Hnode].
  assert (Hnt : node_target (lm_sites m) (lm_signal_sites m) n (ls_guest_target r)) by (by exists site, r).
  destruct (nd_target _ _ _ _ Hok _ _ Hnt) as [x Hx]. destruct (nd_list _ _ _ _ Hok _ _ Hx) as (l & Hc & Hd & Hl).
  apply Hl in Hnt as Hin. apply list_elem_of_split in Hin as (l1 & l2 & ->).
  pose proof (descending_NoDup _ Hd) as Hnd. pose proof (chain_remove _ _ _ _ _ _ Hnd Hc Hnode) as Hrem.
  assert (Hlen : (length (l1 ++ n :: l2) <= length (lm_signal_storage m))%nat).
  { apply descending_length; [done|]. intros k. by apply (chain_bound _ _ _ _ Hc). }
  assert (Hn1 : n ∉ l1) by (apply NoDup_app in Hnd as (_ & Hnd & _); intros Hn; by apply (Hnd n Hn); left).
  unfold UnlinkSignalSiteLocked, get, bind at 1. rewrite Hx.
  erewrite (unlink_node_run l1); [|rewrite length_app in Hlen; lia|done|exact Hc|exact Hnode].
  assert (Hl' : forall k, k ∈ l1 ++ l2 <-> k <> n /\ node_target (lm_sites m) (lm_signal_sites m) k (ls_guest_target r)).
  { intros k. rewrite <- Hl, !elem_of_app, elem_of_cons. apply NoDup_app in Hnd as (_ & H1 & [H2 _]%NoDup_cons). naive_solver. }
  apply descending_app in Hd.
  destruct (last l1) as [p|] eqn:Hp.
  - set (sg := alter (set_linked false) n (alter (set_next (ss_next node)) p (lm_signal_storage m))).
    exists (lm_signal_targets m), sg. split_and!; [by destruct m| |].
    + eapply (nodes_unlink _ _ _ _ Hok site r n Hr Hns _ _ (l1 ++ l2)); [eauto|done| | |done|done|].
      * intros k. unfold sg. rewrite !list_lookup_alter. intros [y Hy]. do 2 case_decide; subst; rewrite Hy; eauto.
      * intros y Hy. assert (y = x) as -> by congruence. by apply chain_alter.
      * intros k Hk. unfold sg. rewrite !list_lookup_alter_ne; [done| |]; intros ->; apply Hk; [|by apply Hl].
        apply Hl, elem_of_app. left. apply last_Some in Hp as [l' ->]. set_solver.
    + split; intros k; simpl; [|reflexivity]. etrans; [by apply (content_alter (set_next (ss_next node)) p)|by apply content_alter].
  - apply last_None in Hp as ->. destruct Hrem as [_ Hrem].
    exists (alter (set_list (ss_next node)) (ls_guest_target r) (lm_signal_targets m)), (alter (set_linked false) n (lm_signal_storage m)).
    split_and!; [by destruct m| |].
    + eapply (nodes_unlink _ _ _ _ Hok site r n Hr Hns _ _ ([] ++ l2)); [| | | |done|done|].
      * intros t y Ht. rewrite lookup_alter_ne by done. eauto.
      * intros t [y Hy]. rewrite lookup_alter. case_decide; [subst t|]; rewrite Hy; eauto.
      * intros k [y Hy]. rewrite list_lookup_alter. case_decide; [subst k|]; rewrite Hy; eauto.
      * intros y Hy. rewrite lookup_alter_eq, Hx in Hy. injection Hy as <-. by apply chain_alter.
      * intros k Hk. rewrite list_lookup_alter_ne; [done|]. intros ->. by apply Hk, Hl.
    + split; intros k; simpl; [by apply content_alter|by apply counts_alter].
Qed.

(** ** Removing the sites *)

(** The manager while the sites of [rest] are being removed: their nodes are dead
    already, and the outgoing sets are not maintained. *)
Record purging (rest : list LinkSiteKey) (m : LinkManager) : Prop := {
  pg_key : forall k r, lm_sites m !! k = Some r -> ls_site r = k;
  pg_in : forall t k, incoming_of (lm_incoming m) t k <-> exists r, lm_sites m !! k = Some r /\ ls_guest_target r = t;
  pg_nonempty : forall t, lm_incoming m !! t <> Some ∅;
  pg_nodes : nodes_ok (lm_sites m) (lm_signal_sites m) (lm_signal_targets m) (lm_signal_storage m);
  pg_live : forall n node, lm_signal_storage m !! n = Some node ->
    ss_live node = true <-> exists k, lm_signal_sites m !! k = Some n /\ k ∉ rest;
  pg_patches : patches_ok (lm_signal_storage m);
  pg_rest : forall k, k ∈ rest -> is_Some (lm_sites m !! k)
}.

(** What removing sites leaves alone. *)
Definition same_others (m m' : LinkManager) : Prop :=
  lm_outgoing m' = lm_outgoing m /\ lm_targets m' = lm_targets m /\ lm_code m' = lm_code m /\
  lm_next_target_generation m' = lm_next_target_generation m /\
  (forall t, option_Forall2 same_counts (lm_signal_targets m !! t) (lm_signal_targets m' !! t)).

#[export] Instance same_others_pre : PreOrder same_others.
Proof.
  split; [intros m; by split_and!|]. intros m1 m2 m3 (? & ? & ? & ? & Ha) (? & ? & ? & ? & Hb).
  split_and!; [congruence..|]. intros t. etrans; [apply Ha|apply Hb].
Qed.

Lemma incoming_remove (i : gmap Z (gset LinkSiteKey)) t k :
  let i' := match i !! t with
            | None => i
            | Some x => if decide (x ∖ {[k]} = ∅) then delete t i else <[t := x ∖ {[k]}]> i
            end in
  (forall u, i !! u <> Some ∅) ->
  (forall u, i' !! u <> Some ∅) /\
  forall u k', incoming_of i' u k' <-> incoming_of i u k' /\ ~ (u = t /\ k' = k).
Proof.
  intros i' Hne. unfold i', incoming_of. destruct (i !! t) as [x|] eqn:Hx.
  - case_decide as Hd; (split; [intros u|intros u k']).
    + rewrite lookup_delete. by case_decide.
    + rewrite lookup_delete. case_decide as Hu; [subst u; rewrite Hx; simpl; set_solver|]. split; [|tauto]. intros H. split; [done|]. naive_solver.
    + rewrite lookup_insert. case_decide; [congruence|done].
    + rewrite lookup_insert. case_decide as Hu; [subst u; rewrite Hx; simpl; set_solver|]. split; [|tauto]. intros H. split; [done|]. naive_solver.
  - split; [done|]. intros u k'. split; [|tauto]. intros H. split; [done|]. intros [-> ->]. rewrite Hx in H. set_solver.
Qed.

Lemma nodes_drop_site s ns st sg k : ns !! k = None -> nodes_ok s ns st sg -> nodes_ok (delete k s) ns st sg.
Proof.
  intros Hk [H1 H2 H3 H4 H5].
  assert (Hnt : forall n t, node_target (delete k s) ns n t <-> node_target s ns n t).
  { intros n t. split; intros (k' & r' & Hk' & Hr' & Ht); exists k', r'; (split; [done|split; [|done]]).
    - by apply lookup_delete_Some in Hr' as [_ ?].
    - rewrite lookup_delete_ne; [done|congruence]. }
  split; [|done|done|by intros n t ?%Hnt; eapply H4|].
  - intros k' n Hk'. rewrite lookup_delete_ne; [by eapply H1|congruence].
  - intros t x Hx. destruct (H5 _ _ Hx) as (l & ? & ? & Hl). exists l. split_and!; [done..|]. intros n. by rewrite Hl, Hnt.
Qed.

Lemma purge_site_run m site rest : purging (site :: rest) m -> site ∉ rest ->
  exists m', purge_site site m = Ok (1, m') /\ purging rest m' /\ lm_sites m' = delete site (lm_sites m) /\ same_others m m'.
Proof.
  intros Hm Hfresh. destruct Hm as [Hkey Hin Hne Hnodes Hlive Hpatch Hrest].
  destruct (Hrest site ltac:(left)) as [r Hr].
  destruct (incoming_remove (lm_incoming m) (ls_guest_target r) site Hne) as [Hne' Hin'].
  set (i := match lm_incoming m !! ls_guest_target r with Some _ => _ | None => _ end) in *.
  set (m1 := put_incoming i m).
  assert (Hstep : exists st sg, (match lm_signal_sites m1 !! site with
       | None => ret tt
       | Some n => UnlinkSignalSiteLocked (ls_guest_target r) n;;; modify (fun m => put_signal_sites (delete site (lm_signal_sites m)) m)
       end) m1 = Ok (tt, put_signal_sites (delete site (lm_signal_sites m)) (put_signal_targets st (put_signal_storage sg m1))) /\
      nodes_ok (lm_sites m) (delete site (lm_signal_sites m)) st sg /\ moved_links m (put_signal_targets st (put_signal_storage sg m))).
  { destruct (lm_signal_sites m1 !! site) as [n|] eqn:Hn.
    - destruct (UnlinkSignalSite_run m1 site r n Hnodes Hr Hn) as (st & sg & Hrun & Hok & Hmv). exists st, sg.
      erewrite bind_run by exact Hrun. by split_and!.
    - exists (lm_signal_targets m), (lm_signal_storage m). simpl in Hn. rewrite delete_id by done. split_and!; [by destruct m|done|by destruct m]. }
  destruct Hstep as (st & sg & Hrun & Hok & Hc & Ht). simpl in Hc, Ht.
  eexists. split; [|split; [|split]].
  - unfold purge_site, get, bind at 1. rewrite Hr.
    assert (Hmod : match lm_incoming m !! ls_guest_target r with
                   | None => m
                   | Some s =>
                       put_incoming (if decide (s ∖ {[site]} = ∅) then delete (ls_guest_target r) (lm_incoming m)
                                     else <[ls_guest_target r := s ∖ {[site]}]> (lm_incoming m)) m
                   end = m1) by (unfold m1, i; by destruct (lm_incoming m !! ls_guest_target r); [|destruct m]).
    unfold bind at 1, modify at 1. cbv beta iota. rewrite Hmod. simpl in Hrun.
    erewrite bind_run by exact Hrun. reflexivity.
  - split; simpl.
    + intros k r' [_ Hk]%lookup_delete_Some. by apply Hkey.
    + intros t k. rewrite Hin', Hin. split.
      * intros [(r' & Hr' & Htt) Hno]. exists r'. split; [|done]. apply lookup_delete_Some. split; [|done]. intros <-. apply Hno. split; [congruence|done].
      * intros (r' & [Hk Hr']%lookup_delete_Some & Htt). split; [by exists r'|]. intros [_ ->]. done.
    + done.
    + apply nodes_drop_site; [by rewrite lookup_delete_eq|done].
    + intros n node Hn. specialize (Hc n). rewrite Hn in Hc. inversion Hc as [x y [El Ep] Hx|]; subst. symmetry in Hx.
      rewrite El, (Hlive _ _ Hx). split; intros (k & Hk & Hnr); exists k.
      * rewrite elem_of_cons in Hnr. split; [|naive_solver]. apply lookup_delete_Some. naive_solver.
      * apply lookup_delete_Some in Hk as [? ?]. split; [done|]. rewrite elem_of_cons. naive_solver.
    + intros n node Hn. specialize (Hc n). rewrite Hn in Hc. inversion Hc as [x y [El Ep] Hx|]; subst. rewrite Ep. by eapply Hpatch.
    + intros k Hk. rewrite lookup_delete_ne by (by intros <-). apply Hrest. by right.
  - done.
  - split_and!; [done..|exact Ht].
Qed.

Lemma purge_sites_run l : forall m, purging l m -> NoDup l ->
  exists m', purge_sites l m = Ok (Z.of_nat (length l), m') /\ purging [] m' /\
    (forall k, lm_sites m' !! k = if decide (k ∈ l) then None else lm_sites m !! k) /\ same_others m m'.
Proof.
  induction l as [|site l IH]; intros m Hm Hnd.
  - exists m. split_and!; [done|done| |reflexivity..]. intros k. by rewrite decide_False by apply not_elem_of_nil.
  - apply NoDup_cons in Hnd as [Hsite Hnd]. destruct (purge_site_run m site l Hm Hsite) as (m1 & Hrun & Hm1 & Hs1 & Ho1).
    destruct (IH m1 Hm1 Hnd) as (m2 & Hrest & Hm2 & Hs2 & Ho2). exists m2. split_and!; [|done| |by etrans].
    + simpl. erewrite bind_run by exact Hrun. erewrite bind_run by exact Hrest. unfold ret. do 2 f_equal. lia.
    + intros k. rewrite Hs2, Hs1, lookup_delete. repeat case_decide; rewrite ?elem_of_cons in *; naive_solver.
Qed.

(** ** The two phases *)

(** The sites of an owner. *)
Definition owned (m : LinkManager) (o : LinkSourceOwner) (k : LinkSiteKey) : Prop :=
  exists r, lm_sites m !! k = Some r /\ ls_source_owner r = o.

Lemma filter_keeps_all {A} (P : A -> Prop) `{forall x, Decision (P x)} (l : list A) : (forall x, x ∈ l -> P x) -> filter P l = l.
Proof.
  induction l as [|x l IH]; intros Hl; [done|]. rewrite filter_cons_True by (apply Hl; left). f_equal. apply IH.
  intros y Hy. apply Hl. by right.
Qed.

Lemma update_sites_run g l : forall m, NoDup l -> exists s,
  for_each (fun site => update_site site g) l m = Ok (tt, put_sites s m) /\
  forall k, s !! k = if decide (k ∈ l) then g <$> lm_sites m !! k else lm_sites m !! k.
Proof.
  induction l as [|site l IH]; intros m Hnd.
  - exists (lm_sites m). split; [by destruct m|]. intros k. by rewrite decide_False by apply not_elem_of_nil.
  - apply NoDup_cons in Hnd as [Hsite Hnd]. destruct (IH (put_sites (alter g site (lm_sites m)) m) Hnd) as (s & Hrun & Hs).
    exists s. split; [simpl; unfold update_site at 1; erewrite bind_run by reflexivity; exact Hrun|].
    intros k. rewrite Hs. simpl. rewrite lookup_alter. repeat case_decide; rewrite ?elem_of_cons in *; naive_solver.
Qed.

Lemma index_detach s s' i og o g :
  index_ok s i og -> og !! o = Some g ->
  (forall k, s' !! k = if decide (k ∈ og_sites g) then retire_site <$> s !! k else s !! k) ->
  index_ok s' i (<[o := mkOutgoing (og_sites g) true]> og).
Proof.
  intros [H1 H2 H3 H4 H5] Hg Hs.
  assert (Hplace : sites_rel same_place s s').
  { intros k. rewrite Hs. case_decide; [|reflexivity]. destruct (s !! k); by constructor. }
  assert (Hout : forall o' k, outgoing_of (<[o := mkOutgoing (og_sites g) true]> og) o' k <-> outgoing_of og o' k).
  { intros o' k. unfold outgoing_of. setoid_rewrite lookup_insert. case_decide; [subst o'|done]. setoid_rewrite Hg.
    split; intros (g' & [= <-] & Hk); eauto. }
  assert (Hiff : forall A (f : LinkSiteRecord -> A) k a, (forall r r', same_place r r' -> f r' = f r) ->
    (exists r, s !! k = Some r /\ f r = a) <-> exists r, s' !! k = Some r /\ f r = a).
  { intros A f k a Hf. split; intros (r & Hr & <-).
    - destruct (rel_some _ _ _ _ _ Hplace Hr) as (r' & Hr' & Hp). exists r'. split; [done|]. by apply Hf.
    - destruct (rel_some_back _ _ _ _ _ Hplace Hr) as (r' & Hr' & Hp). exists r'. split; [done|]. symmetry. by apply Hf. }
  split; [| | |done|].
  - intros k r' Hr'. destruct (rel_some_back _ _ _ _ _ Hplace Hr') as (r & Hr & (E & _)). rewrite E. eauto.
  - intros t k. rewrite H2. apply (Hiff _ ls_guest_target). by intros ? ? (_ & ? & _).
  - intros o' k. rewrite Hout, H3. apply (Hiff _ ls_source_owner). by intros ? ? (_ & _ & ?).
  - intros k r' g'. rewrite Hs. intros Hr'. rewrite lookup_insert. destruct (decide (o = ls_source_owner r')) as [Ho|Ho].
    + intros [= <-]. simpl. split; [intros _|done]. rewrite decide_True in Hr'.
      * by apply fmap_Some in Hr' as (r & _ & ->).
      * destruct (decide (k ∈ og_sites g)) as [Hk|Hk]; [done|]. assert (outgoing_of og o k) as (g0 & Hg0 & Hk') by (apply H3; eauto). congruence.
    + intros Hg'. case_decide as Hk; [|by eapply H5]. apply fmap_Some in Hr' as (r & Hr & ->). simpl in *.
      destruct Ho. assert (exists r, s !! k = Some r /\ ls_source_owner r = o) as (r0 & ? & ?) by (apply H3; by exists g). congruence.
Qed.

(** [DetachSource] retires an owner it knows: all its sites become retiring and the owner
    refuses new ones; the count it returns is the number of its sites, and other sites,
    the targets and the code do not change. *)
Theorem DetachSource_spec (o : LinkSourceOwner) (m : LinkManager) (g : OutgoingRecord) : manager_ok m -> lm_outgoing m !! o = Some g ->
  exists m', DetachSource o m = Ok (Z.of_nat (size (og_sites g)), m') /\ manager_ok m' /\ owner_retiring m' o = true /\
    (forall k, owned m o k <-> k ∈ og_sites g) /\
    (forall k r, lm_sites m !! k = Some r -> lm_sites m' !! k = Some (if decide (ls_source_owner r = o) then retire_site r else r)) /\
    dom (lm_sites m') = dom (lm_sites m) /\ lm_code m' = lm_code m /\ (forall t, current_generation m' t = current_generation m t).
Proof.
  intros Hm Hg. unfold DetachSource, get, bind at 1. rewrite Hg.
  assert (Hown : forall k, owned m o k <-> k ∈ og_sites g).
  { intros k. unfold owned. rewrite <- (ix_out _ _ _ (mo_index _ Hm)). split; [intros (g' & Hg' & ?); congruence|intros; by exists g]. }
  set (m1 := put_outgoing (<[o := mkOutgoing (og_sites g) true]> (lm_outgoing m)) m).
  destruct (update_sites_run retire_site (elements (og_sites g)) m1 (NoDup_elements _)) as (s & Hrun & Hs). simpl in Hs.
  assert (Hs' : forall k, s !! k = if decide (k ∈ og_sites g) then retire_site <$> lm_sites m !! k else lm_sites m !! k).
  { intros k. rewrite Hs. by rewrite (decide_ext _ (k ∈ og_sites g)) by apply elem_of_elements. }
  assert (Hplace : sites_rel same_place (lm_sites m) s).
  { intros k. rewrite Hs'. case_decide; [|reflexivity]. destruct (lm_sites m !! k); by constructor. }
  exists (put_sites s m1). split_and!.
  - erewrite bind_run by reflexivity. fold m1. erewrite bind_run by exact Hrun. unfold ret. do 3 f_equal.
    change (size (og_sites g)) with (length (elements (og_sites g))). f_equal. apply filter_keeps_all. intros k Hk.
    apply elem_of_elements, Hown in Hk as (r & Hr & _). by exists r.
  - destruct Hm as [H1 H2 H3 H4 H5 H6]. split; simpl; [by eapply index_detach|by eapply nodes_same_place|done|done| |].
    + eapply targets_outgoing; [|done]. intros o' Ho'. rewrite lookup_insert. by case_decide.
    + intros k r. rewrite Hs'. case_decide; [|apply H6]. intros (r0 & Hr0 & ->)%fmap_Some. simpl. destruct (H6 _ _ Hr0). split; [done|]. by intros [|].
  - unfold owner_retiring. simpl. by rewrite lookup_insert_eq.
  - done.
  - intros k r Hr. simpl. rewrite Hs', Hr. rewrite (decide_ext _ (ls_source_owner r = o)); [by case_decide|].
    rewrite <- Hown. unfold owned. split; [intros (r' & ? & ?); congruence|eauto].
  - simpl. apply set_eq. intros k. rewrite !elem_of_dom. destruct (Hplace k); by split.
  - done.
  - done.
Qed.

(** ** Purging an owner *)

(** The nodes of the owner's sites die before anything is unlinked. *)
Definition kill_node (site : LinkSiteKey) : ST LinkManager unit :=
  m <- get;;
  match lm_signal_sites m !! site with
  | Some n => update_node n (set_live false)
  | None => ret tt
  end.

Definition same_path (x x' : SignalSite) : Prop := ss_next x' = ss_next x /\ ss_patch x' = ss_patch x.

#[export] Instance same_path_pre : PreOrder same_path.
Proof. split; [by intros x|]. intros x y z [] []. split; congruence. Qed.

Lemma same_path_alter n (sg : list SignalSite) k : option_Forall2 same_path (sg !! k) (alter (set_live false) n sg !! k).
Proof. rewrite list_lookup_alter. case_decide; [subst k|]; [destruct (sg !! n)|destruct (sg !! k)]; by constructor. Qed.

Lemma kill_nodes_run l : forall m, exists sg,
  for_each kill_node l m = Ok (tt, put_signal_storage sg m) /\
  (forall n, option_Forall2 same_path (lm_signal_storage m !! n) (sg !! n)) /\
  forall n x', sg !! n = Some x' -> ss_live x' = true <->
    (exists x, lm_signal_storage m !! n = Some x /\ ss_live x = true) /\ ~ exists k, k ∈ l /\ lm_signal_sites m !! k = Some n.
Proof.
  induction l as [|site l IH]; intros m.
  - exists (lm_signal_storage m). split_and!; [by destruct m| |].
    + intros n. destruct (lm_signal_storage m !! n); by constructor.
    + intros n x' Hx'. split; [intros Hl; split; [by exists x'|by intros (k & Hk%not_elem_of_nil & _)]|].
      intros [(x & Hx & Hl) _]. congruence.
  - assert (H1 : exists sg1, kill_node site m = Ok (tt, put_signal_storage sg1 m) /\
      (forall n, option_Forall2 same_path (lm_signal_storage m !! n) (sg1 !! n)) /\
      (forall n x', sg1 !! n = Some x' -> ss_live x' = true <->
        (exists x, lm_signal_storage m !! n = Some x /\ ss_live x = true) /\ lm_signal_sites m !! site <> Some n)).
    { unfold kill_node, get, bind. destruct (lm_signal_sites m !! site) as [n0|] eqn:Hn0.
      - eexists. split; [reflexivity|]. split; [intros n; apply same_path_alter|]. intros n x' Hx'.
        rewrite list_lookup_alter in Hx'. case_decide as Hn.
        + subst n0. apply fmap_Some in Hx' as (x & Hx & ->). simpl. naive_solver.
        + split; [intros Hl; split; [by exists x'|naive_solver]|]. intros [(x & Hx & Hl) _]. congruence.
      - exists (lm_signal_storage m). split_and!; [by destruct m| |].
        + intros n. destruct (lm_signal_storage m !! n); by constructor.
        + intros n x' Hx'. split; [intros Hl; split; [by exists x'|done]|]. intros [(x & Hx & Hl) _]. congruence. }
    destruct H1 as (sg1 & Hrun1 & Hp1 & Hl1). destruct (IH (put_signal_storage sg1 m)) as (sg & Hrun & Hp & Hl). simpl in Hp, Hl.
    exists sg. split_and!.
    + simpl. erewrite bind_run by exact Hrun1. exact Hrun.
    + intros n. etrans; [apply Hp1|apply Hp].
    + intros n x' Hx'. rewrite (Hl _ _ Hx'). split.
      * intros [(x1 & Hx1 & Hlive) Hno]. apply (Hl1 _ _ Hx1) in Hlive as [Hlive Hne]. split; [done|].
        intros (k & [->|Hk]%elem_of_cons & Hkn); naive_solver.
      * intros [(x & Hx & Hlive) Hno]. split; [|intros (k & Hk & Hkn); apply Hno; exists k; split; [by right|done]].
        pose proof (Hp1 n) as Hn. rewrite Hx in Hn. inversion Hn as [? x1 _ E1 E2|]; subst. exists x1. split; [done|].
        apply (Hl1 n); [done|]. split; [by exists x|]. intros Hs. apply Hno. exists site. split; [left|done].
Qed.

Lemma nodes_same_path s ns st sg sg' : (forall n, option_Forall2 same_path (sg !! n) (sg' !! n)) -> nodes_ok s ns st sg -> nodes_ok s ns st sg'.
Proof.
  intros Hsg [H1 H2 H3 H4 H5]. split; [done| |done|done|].
  - intros k n Hk. destruct (H2 _ _ Hk) as [x Hx]. specialize (Hsg n). rewrite Hx in Hsg. inversion Hsg; subst. eauto.
  - intros t x Hx. destruct (H5 _ _ Hx) as (l & Hc & Hd & Hl). exists l. split_and!; [|done..].
    eapply chain_keep; [exact Hc|]. intros n node _ Hn. specialize (Hsg n). rewrite Hn in Hsg.
    inversion Hsg as [? y [? ?]|]; subst. eauto.
Qed.

(** The targets once the owner's are dropped. *)
Lemma targets_drop tg st og next o m :
  targets_ok tg st og next -> lm_targets m = tg -> lm_signal_targets m = st ->
  targets_ok (lm_targets (drop_targets o m)) (lm_signal_targets (drop_targets o m)) (delete o og) next /\
  same_heads st (lm_signal_targets (drop_targets o m)) /\
  forall t, current_generation (drop_targets o m) t =
    match tg !! t with Some r => if decide (lt_target_owner (tr_target r) = o) then None else current_generation m t | None => None end.
Proof.
  intros [H1 H2 H3 H4] <- <-. simpl.
  assert (Hfil : forall t r, filter (fun e => lt_target_owner (tr_target (snd e)) <> o) (lm_targets m) !! t = Some r <->
    lm_targets m !! t = Some r /\ lt_target_owner (tr_target r) <> o) by (intros t r; apply map_lookup_filter_Some).
  split_and!; [split| |].
  - done.
  - intros t r [Hr _]%Hfil. destruct (H2 _ _ Hr) as (? & ? & [x Hx]). split; [done|]. split; [done|]. rewrite map_lookup_imap, Hx. by eexists.
  - intros t r [Hr Ho]%Hfil Hf Hs. rewrite lookup_delete_ne by done. by eapply H3.
  - intros t x' Hx'. rewrite map_lookup_imap in Hx'. apply bind_Some in Hx' as (x & Hx & [= <-]).
    destruct (H4 _ _ Hx) as (Hp & Hl & Hg). destruct (lm_targets m !! t) as [r|] eqn:Hr.
    + case_decide as Ho; simpl; [tauto|]. split; [done|]. split; [done|]. destruct Hg as [?|[?|(r' & Hr' & ?)]]; [tauto..|].
      right; right. exists r'. split; [|done]. apply Hfil. split; congruence.
    + split; [done|]. split; [done|]. naive_solver.
  - intros t. rewrite map_lookup_imap. destruct (lm_signal_targets m !! t) as [x|]; constructor.
    destruct (lm_targets m !! t); [|done]. by case_decide.
  - intros t. unfold current_generation at 1. simpl. rewrite map_lookup_imap. destruct (lm_targets m !! t) as [r|] eqn:Hr.
    + case_decide as Ho.
      * destruct (filter _ _ !! t) eqn:E; [|done]. apply Hfil in E as [E ?]. congruence.
      * assert (filter (fun e => lt_target_owner (tr_target (snd e)) <> o) (lm_targets m) !! t = Some r) as -> by (by apply Hfil).
        unfold current_generation. rewrite Hr. by destruct (lm_signal_targets m !! t).
    + destruct (filter _ _ !! t) eqn:E; [|done]. apply Hfil in E as [E ?]. congruence.
Qed.

(** The start of the loop, and the state it ends in. *)
Lemma kill_nodes_purging m o l : manager_ok m -> (forall k, k ∈ l <-> owned m o k) ->
  exists sg, for_each kill_node l m = Ok (tt, put_signal_storage sg m) /\ purging l (put_signal_storage sg m).
Proof.
  intros [H1 H2 H3 H4 H5 H6] Hown. destruct (kill_nodes_run l m) as (sg & Hkill & Hpath & Hlive). exists sg. split; [done|].
  assert (Hback : forall n x', sg !! n = Some x' -> exists x, lm_signal_storage m !! n = Some x /\ same_path x x').
  { intros n x' Hx'. pose proof (Hpath n) as Hn. rewrite Hx' in Hn. inversion Hn as [x ? Hp Hx|]; subst. by exists x. }
  split; simpl; [apply H1|apply H1|apply H1|by eapply nodes_same_path| | |].
  - intros n x' Hx'. rewrite (Hlive _ _ Hx'). split.
    + intros [(x & Hx & Hl) Hno]. apply (H3 _ _ Hx) in Hl as [k Hk]. exists k. split; [done|]. intros Hkl. apply Hno. eauto.
    + intros (k & Hk & Hno). split.
      * destruct (Hback _ _ Hx') as (x & Hx & _). exists x. split; [done|]. apply (H3 _ _ Hx). eauto.
      * intros (k' & Hk' & Hn'). by rewrite (nd_inj _ _ _ _ H2 _ _ _ Hk Hn') in Hno.
  - intros n x' Hx'. destruct (Hback _ _ Hx') as (x & Hx & _ & ->). by eapply H4.
  - intros k (r & Hr & _)%Hown. by exists r.
Qed.

Lemma counts_targets tg st st' og next :
  (forall t, option_Forall2 same_counts (st !! t) (st' !! t)) -> targets_ok tg st og next -> targets_ok tg st' og next.
Proof.
  intros Hcnt [T1 T2 T3 T4]. split; [done| |done|].
  - intros t r Hr. destruct (T2 _ _ Hr) as (? & ? & [x Hx]). split; [done|]. split; [done|]. specialize (Hcnt t). rewrite Hx in Hcnt.
    inversion Hcnt; subst. by eexists.
  - intros t x' Hx'. pose proof (Hcnt t) as Hn. rewrite Hx' in Hn. inversion Hn as [x ? (E1 & E2 & E3) Hx|]; subst. symmetry in Hx.
    rewrite E1, E2, E3. by apply T4.
Qed.

Lemma index_forget s s' i i' og o :
  index_ok s i og -> (forall k r, s' !! k = Some r <-> s !! k = Some r /\ ls_source_owner r <> o) ->
  (forall t k, incoming_of i' t k <-> exists r, s' !! k = Some r /\ ls_guest_target r = t) -> (forall t, i' !! t <> Some ∅) ->
  index_ok s' i' (delete o og).
Proof.
  intros [I1 _ I3 _ I5] Hs Hin Hne. split; [|done| |done|].
  - intros k r [Hr _]%Hs. by apply I1.
  - intros o' k. setoid_rewrite Hs. unfold outgoing_of. setoid_rewrite lookup_delete_Some. specialize (I3 o' k). unfold outgoing_of in I3. split.
    + intros (g & [Ho' Hg] & Hk). destruct (proj1 I3) as (r & Hr & <-); [by exists g|]. exists r. by split_and!.
    + intros (r & [Hr Ho'] & <-). destruct (proj2 I3) as (g & Hg & Hk); [by exists r|]. exists g. by split_and!.
  - intros k r g [Hr Ho]%Hs. rewrite lookup_delete_ne by done. intros Hg. by eapply I5.
Qed.

(** (C19) The two phases of an owner's end.  An owner that has not been detached is not purged.
    [PurgeSource] of a detached owner removes all of its sites and published targets
    and forgets it, returns the number of sites, and leaves the other sites, the other
    current targets and the code alone. *)
Theorem PurgeSource_spec (o : LinkSourceOwner) (m : LinkManager) : manager_ok m ->
  (owner_retiring m o = false -> PurgeSource o m = Ok (0, m)) /\
  (forall g, lm_outgoing m !! o = Some g -> og_retiring g = true ->
   exists m', PurgeSource o m = Ok (Z.of_nat (size (og_sites g)), m') /\ manager_ok m' /\
     lm_outgoing m' = delete o (lm_outgoing m) /\
     (forall k r, lm_sites m' !! k = Some r <-> lm_sites m !! k = Some r /\ ls_source_owner r <> o) /\
     (forall t r, lm_targets m' !! t = Some r <-> lm_targets m !! t = Some r /\ lt_target_owner (tr_target r) <> o) /\
     (forall t, current_generation m' t =
        match lm_targets m !! t with
        | Some r => if decide (lt_target_owner (tr_target r) = o) then None else current_generation m t
        | None => None
        end) /\
     lm_code m' = lm_code m).
Proof.
  intros Hm. split.
  - intros Hno. unfold PurgeSource, get, bind at 1. unfold owner_retiring in Hno.
    destruct (lm_outgoing m !! o) as [g|]; [by rewrite Hno|done].
  - intros g Hg Hret. unfold PurgeSource, get, bind at 1. rewrite Hg, Hret. cbn [negb].
    set (l := elements (og_sites g)).
    assert (Hown : forall k, k ∈ l <-> owned m o k).
    { intros k. unfold l, owned. rewrite elem_of_elements, <- (ix_out _ _ _ (mo_index _ Hm)).
      split; [intros; by exists g|intros (g' & Hg' & ?); congruence]. }
    assert (Hall : forallb (fun site => match lm_sites m !! site with
                                        | Some r => bool_decide (ls_state r = Retiring)
                                        | None => false
                                        end) l = true).
    { apply forallb_forall. intros k Hk. apply list_elem_of_In, Hown in Hk as (r & Hr & Ho). rewrite Hr. apply bool_decide_eq_true.
      apply (ix_retiring _ _ _ (mo_index _ Hm) k r g); [done|by rewrite Ho|done]. }
    rewrite Hall. cbn [negb]. destruct (kill_nodes_purging m o l Hm Hown) as (sg & Hkill & Hm1). set (m1 := put_signal_storage sg m) in *.
    destruct (purge_sites_run l m1 Hm1 (NoDup_elements _)) as (m2 & Hrun & [K1 K2 K3 K4 K5 K6 _] & Hs & Hog & Htg & Hcode & Hnext & Hcnt).
    simpl in Hs, Hog, Htg, Hcode, Hnext, Hcnt. destruct Hm as [H1 H2 H3 H4 H5 H6].
    assert (Hs' : forall k r, lm_sites m2 !! k = Some r <-> lm_sites m !! k = Some r /\ ls_source_owner r <> o).
    { intros k r. rewrite Hs. case_decide as Hk.
      - split; [done|]. apply Hown in Hk as (r' & Hr' & ?). intros [Hr ?]. congruence.
      - split; [|tauto]. intros Hr. split; [done|]. intros Ho. apply Hk, Hown. by exists r. }
    destruct (targets_drop _ _ _ _ o m2 (counts_targets _ _ _ _ _ Hcnt H5) Htg eq_refl) as (Ht3 & Hheads & Hcur3).
    exists (put_outgoing (delete o (lm_outgoing m2)) (drop_targets o m2)). split_and!; [| |simpl; by rewrite Hog|done| | |done].
    + erewrite bind_run by exact Hkill. fold m1. erewrite bind_run by exact Hrun. by do 2 (erewrite bind_run by reflexivity).
    + split; simpl; [rewrite Hog; by eapply index_forget|by eapply nodes_same_links; [reflexivity|exact Hheads|]| |done| |].
      * intros n x Hx. rewrite (K5 _ _ Hx). split; intros [k Hk]; exists k; [tauto|]. split; [done|apply not_elem_of_nil].
      * by rewrite Hog, Hnext.
      * rewrite Hnext. intros k r [Hr _]%Hs'. by eapply H6.
    + intros t r. simpl. rewrite Htg. apply map_lookup_filter_Some.
    + intros t. etrans; [exact (Hcur3 t)|]. destruct (lm_targets m !! t) eqn:Ht; [|done]. case_decide; [done|].
      unfold current_generation. rewrite Htg, Ht. specialize (Hcnt t). inversion Hcnt as [x y (E & _)|]; [|done]. by rewrite E.
Qed.
