(* ===== verification/LinkSignal.v ===== *)
(** * Direct links: the signal handler against the manager

    Model of the interleavings of [LinkManager::SignalInvalidateTarget]
    (runtime/backend/link_manager.cpp), which takes no lock, with the operations that
    hold the manager's mutex.  One thread at a time is inside the mutex ([Holder], with
    a program counter where the operation touches what the handlers read); any number of
    handlers run beside it ([Handler]).  Every load and store of an atomic is one step of
    a sequentially consistent machine.

    [w_home], [w_written] and the generation a handler carries are not in the program:
    the target of a node, the generation a branch was committed under (none when the
    node's word is the unlinked one), and the next generation when the handler started.
    Sites with a flags bypass are left out: their second word is not the handler's. *)

From Stdlib Require Import ZArith Lia.
From stdpp Require Import numbers base gmap sets list relations.
From S2P Require Import Prelude MachineInt LinkManager LinkInvariant.

Local Open Scope Z_scope.
Local Open Scope svm_scope.

(** ** The state *)

(** The operation inside the mutex, at the step it does next. *)
Inductive Holder :=
| Idle
| LinkCounted (site : LinkSiteKey) (r : LinkSiteRecord) (g : Z)      (* linking_count raised *)
| LinkValid (site : LinkSiteKey) (r : LinkSiteRecord) (g : Z)        (* the generation was current *)
| LinkCommitted (site : LinkSiteKey) (r : LinkSiteRecord) (g : Z)    (* the branch is written *)
| LinkActive (site : LinkSiteKey) (r : LinkSiteRecord) (g : Z)       (* the generation is still current *)
| LinkEnd (t : Z)
| PublishCounted (rec : LinkTargetRecord)                            (* publishing_count raised *)
| PublishEnd (rec : LinkTargetRecord) (published : bool)
| InvalidateSites (t : Z)                                            (* the target is inactive *)
| KillSites (o : LinkSourceOwner) (killed todo : list LinkSiteKey)
| WaitReaders (o : LinkSourceOwner) (sites : list LinkSiteKey)
| EraseSites (o : LinkSourceOwner) (rest : list LinkSiteKey)
| EraseTargets (o : LinkSourceOwner).

(** A handler for the target [t], started when the next generation was [n]; [second] is the
    second restore loop, [cur] the node it is at. *)
Inductive Handler :=
| HFind (t n : Z)
| HLoadPublishing (t n : Z)
| HLoadActive (t n : Z)
| HStore (t n : Z)
| HHead (t n : Z) (second : bool)
| HLive (t n : Z) (second : bool) (cur : option nat)
| HExchange (t n : Z) (second : bool) (cur : nat)
| HPatch (t n : Z) (second : bool) (cur : nat)
| HNext (t n : Z) (second : bool) (cur : nat)
| HWait (t n : Z)
| HFinish (t n : Z).

Record World := mkWorld {
  w_m : LinkManager;
  w_home : list Z;
  w_written : gmap nat Z;
  w_readers : nat;
  w_holder : Holder;
  w_handlers : gmap nat Handler
}.

Definition world_new : World := mkWorld manager_new [] ∅ 0 Idle ∅.

Definition with_m (m : LinkManager) (h : Holder) (w : World) : World :=
  mkWorld m (w_home w) (w_written w) (w_readers w) h (w_handlers w).
Definition with_word (n : nat) (written : option Z) (m : LinkManager) (h : Holder) (w : World) : World :=
  mkWorld m (w_home w) (partial_alter (fun _ => written) n (w_written w)) (w_readers w) h (w_handlers w).
Definition with_handler (i : nat) (x : Handler) (m : LinkManager) (w : World) : World :=
  mkWorld m (w_home w) (w_written w) (w_readers w) (w_holder w) (<[i := x]> (w_handlers w)).

(** The word of a registered site's node. *)
Definition word_of (node : SignalSite) : Z := ps_rw_site (ss_patch node).
Definition registered (m : LinkManager) (n : nat) : Prop := exists k, lm_signal_sites m !! k = Some n.
Definition node_at (m : LinkManager) (n : nat) : option SignalSite := lm_signal_storage m !! n.

(** The atomics of one target. *)
Definition put_signal_target (t : Z) (g : SignalTarget -> SignalTarget) (m : LinkManager) : LinkManager :=
  put_signal_targets (alter g t (lm_signal_targets m)) m.
Definition put_node (n : nat) (g : SignalSite -> SignalSite) (m : LinkManager) : LinkManager :=
  put_signal_storage (alter g n (lm_signal_storage m)) m.
Definition put_word (a w : Z) (m : LinkManager) : LinkManager := put_code (<[a := w]> (lm_code m)) m.

(** ** Steps inside the mutex *)

(** A site no other registered site shares its word with, holding its unlinked word. *)
Definition fresh_site (m : LinkManager) (s : LinkSignalPatchSite) : Prop :=
  patch_aligned s /\ bp_rx_site (ps_flags_bypass s) = 0 /\ lm_code m !! ps_rw_site s = Some (ps_unlinked_bl s) /\
  (forall n node, registered m n -> node_at m n = Some node -> word_of node <> ps_rw_site s).

Inductive holder_step : World -> World -> Prop :=
(* [RegisterSite]: the node is published by its last store *)
| StepRegister w site t owner s kind flags m' :
    w_holder w = Idle -> fresh_site (w_m w) s ->
    RegisterSite site t owner (Some s) kind flags (w_m w) = Ok (true, m') ->
    holder_step w (mkWorld m' (w_home w ++ [t]) (delete (length (w_home w)) (w_written w)) (w_readers w) Idle (w_handlers w))
(* [MarkFar] *)
| StepFar w site g m' :
    w_holder w = Idle -> MarkFar site g (w_m w) = Ok (true, m') -> holder_step w (with_m m' Idle w)
(* [MarkLinked] *)
| StepLinkCount w site g r rec :
    w_holder w = Idle -> lm_sites (w_m w) !! site = Some r -> ls_state r = Unlinked ->
    lm_targets (w_m w) !! ls_guest_target r = Some rec ->
    holder_step w (with_m (put_signal_target (ls_guest_target r) (add_linking 1) (w_m w)) (LinkCounted site r g) w)
| StepLinkValidate w site r g :
    w_holder w = LinkCounted site r g ->
    holder_step w (with_m (w_m w) (if ValidateTargetGeneration (w_m w) (ls_guest_target r) g
                                   then LinkValid site r g else LinkEnd (ls_guest_target r)) w)
| StepLinkCommit w site r g n node insn c :
    w_holder w = LinkValid site r g -> lm_signal_sites (w_m w) !! site = Some n -> node_at (w_m w) n = Some node ->
    PatchDirectBranch (ps_region (ss_patch node)) (ps_rx_site (ss_patch node)) (word_of node) insn (lm_code (w_m w)) = Ok (true, c) ->
    holder_step w (with_word n (Some g) (put_code c (w_m w)) (LinkCommitted site r g) w)
| StepLinkReject w site r g :
    w_holder w = LinkValid site r g -> holder_step w (with_m (w_m w) (LinkEnd (ls_guest_target r)) w)
| StepLinkRecheck w site r g x :
    w_holder w = LinkCommitted site r g -> lm_signal_targets (w_m w) !! ls_guest_target r = Some x ->
    holder_step w (with_m (w_m w) (if st_active_generation x =? g then LinkActive site r g else LinkEnd (ls_guest_target r)) w)
| StepLinkRecord w site r g rec m' :
    w_holder w = LinkActive site r g -> lm_targets (w_m w) !! ls_guest_target r = Some rec ->
    (update_site site (set_state Linked g (pending_compatible (tr_target rec) r));;; store_linked site true) (w_m w) = Ok (tt, m') ->
    holder_step w (with_m m' (LinkEnd (ls_guest_target r)) w)
| StepLinkEnd w t :
    w_holder w = LinkEnd t -> holder_step w (with_m (put_signal_target t (add_linking (-1)) (w_m w)) Idle w)
(* [PublishTarget] *)
| StepPublishCount w rec x m' :
    w_holder w = Idle -> lt_generation rec = lm_next_target_generation (w_m w) ->
    lm_next_target_generation (w_m w) < kSignalInvalidatingGeneration ->
    GetOrCreateSignalTarget (lt_guest_target rec) (put_next_target_generation (lm_next_target_generation (w_m w) + 1) (w_m w)) = Ok (x, m') ->
    holder_step w (with_m (put_signal_target (lt_guest_target rec) (add_publishing 1) m') (PublishCounted rec) w)
| StepPublishSwap w rec published m' :
    w_holder w = PublishCounted rec ->
    publish_generation (lt_guest_target rec) (lt_generation rec) (w_m w) = Ok (published, m') ->
    holder_step w (with_m m' (PublishEnd rec published) w)
| StepPublishEnd w rec published :
    w_holder w = PublishEnd rec published ->
    holder_step w (with_m (put_signal_target (lt_guest_target rec) (add_publishing (-1))
      (put_targets (<[lt_guest_target rec := mkTargetRecord rec published]> (lm_targets (w_m w))) (w_m w))) Idle w)
(* [BeginTargetInvalidation] *)
| StepInvalidate w t rec :
    w_holder w = Idle -> lm_targets (w_m w) !! t = Some rec ->
    holder_step w (with_m (put_signal_target t (set_generation 0)
      (put_targets (<[t := mkTargetRecord (tr_target rec) false]> (lm_targets (w_m w))) (w_m w))) (InvalidateSites t) w)
| StepInvalidateSites w t rs m' :
    w_holder w = InvalidateSites t ->
    unlink_sites (elements (default ∅ (lm_incoming (w_m w) !! t))) (w_m w) = Ok (rs, m') -> holder_step w (with_m m' Idle w)
(* [DetachSource] *)
| StepDetach w o n m' :
    w_holder w = Idle -> DetachSource o (w_m w) = Ok (n, m') -> holder_step w (with_m m' Idle w)
(* [PurgeSource] *)
| StepPurge w o g :
    w_holder w = Idle -> lm_outgoing (w_m w) !! o = Some g -> og_retiring g = true ->
    holder_step w (with_m (w_m w) (KillSites o [] (elements (og_sites g))) w)
| StepKill w o killed site todo m' :
    w_holder w = KillSites o killed (site :: todo) ->
    (match lm_signal_sites (w_m w) !! site with Some n => update_node n (set_live false) | None => ret tt end) (w_m w) = Ok (tt, m') ->
    holder_step w (with_m m' (KillSites o (site :: killed) todo) w)
| StepKilled w o killed :
    w_holder w = KillSites o killed [] -> holder_step w (with_m (w_m w) (WaitReaders o killed) w)
| StepReaders w o sites :
    w_holder w = WaitReaders o sites -> w_readers w = 0%nat -> holder_step w (with_m (w_m w) (EraseSites o sites) w)
| StepErase w o site rest n m' :
    w_holder w = EraseSites o (site :: rest) -> purge_site site (w_m w) = Ok (n, m') ->
    holder_step w (with_m m' (EraseSites o rest) w)
| StepErased w o :
    w_holder w = EraseSites o [] -> holder_step w (with_m (w_m w) (EraseTargets o) w)
| StepEraseTargets w o :
    w_holder w = EraseTargets o ->
    holder_step w (with_m (put_outgoing (delete o (lm_outgoing (w_m w))) (drop_targets o (w_m w))) Idle w).

(** ** Steps of a handler *)

(** The first restore loop also takes the linked flag of a node. *)
Inductive handler_step (i : nat) : World -> World -> Prop :=
| StepStart w t :
    w_handlers w !! i = None ->
    handler_step i w (mkWorld (w_m w) (w_home w) (w_written w) (S (w_readers w)) (w_holder w)
      (<[i := HFind t (lm_next_target_generation (w_m w))]> (w_handlers w)))
| StepFind w t n :
    w_handlers w !! i = Some (HFind t n) ->
    handler_step i w (with_handler i (match lm_signal_targets (w_m w) !! t with
                                      | Some _ => HLoadPublishing t n
                                      | None => HFinish t n
                                      end) (w_m w) w)
| StepLoadPublishing w t n x :
    w_handlers w !! i = Some (HLoadPublishing t n) -> lm_signal_targets (w_m w) !! t = Some x ->
    handler_step i w (with_handler i (if st_publishing_count x =? 0 then HLoadActive t n else HStore t n) (w_m w) w)
| StepLoadActive w t n x :
    w_handlers w !! i = Some (HLoadActive t n) -> lm_signal_targets (w_m w) !! t = Some x ->
    handler_step i w (with_handler i (if st_active_generation x =? 0 then HHead t n false else HStore t n) (w_m w) w)
| StepStore w t n :
    w_handlers w !! i = Some (HStore t n) ->
    handler_step i w (with_handler i (HHead t n false) (put_signal_target t (set_generation kSignalInvalidatingGeneration) (w_m w)) w)
| StepHead w t n second x :
    w_handlers w !! i = Some (HHead t n second) -> lm_signal_targets (w_m w) !! t = Some x ->
    handler_step i w (with_handler i (HLive t n second (st_sites x)) (w_m w) w)
| StepEnd w t n second :
    w_handlers w !! i = Some (HLive t n second None) ->
    handler_step i w (with_handler i (if second then HFinish t n else HWait t n) (w_m w) w)
| StepLive w t n second c node :
    w_handlers w !! i = Some (HLive t n second (Some c)) -> node_at (w_m w) c = Some node ->
    handler_step i w (with_handler i (if ss_live node then (if second then HPatch t n second c else HExchange t n second c)
                                      else HNext t n second c) (w_m w) w)
| StepExchange w t n second c :
    w_handlers w !! i = Some (HExchange t n second c) ->
    handler_step i w (with_handler i (HPatch t n second c) (put_node c (set_linked false) (w_m w)) w)
| StepPatch w t n second c node code b :
    w_handlers w !! i = Some (HPatch t n second c) -> node_at (w_m w) c = Some node ->
    PatchDirectBranch (ps_region (ss_patch node)) (ps_rx_site (ss_patch node)) (word_of node) (ps_unlinked_bl (ss_patch node))
      (lm_code (w_m w)) = Ok (b, code) ->
    handler_step i w (with_word c None (put_code code (w_m w)) (w_holder w) (with_handler i (HNext t n second c) (w_m w) w))
| StepNext w t n second c node :
    w_handlers w !! i = Some (HNext t n second c) -> node_at (w_m w) c = Some node ->
    handler_step i w (with_handler i (HLive t n second (ss_next node)) (w_m w) w)
| StepWait w t n x :
    w_handlers w !! i = Some (HWait t n) -> lm_signal_targets (w_m w) !! t = Some x -> st_linking_count x = 0 ->
    handler_step i w (with_handler i (HHead t n true) (w_m w) w)
| StepFinish w t n :
    w_handlers w !! i = Some (HFinish t n) ->
    handler_step i w (mkWorld (w_m w) (w_home w) (w_written w) (Nat.pred (w_readers w)) (w_holder w) (delete i (w_handlers w))).

(** ** Steps of the rest of the program *)

(** Code is emitted outside the registered words; [SmcTracker::DelinkTargets] restores the
    unlinked word of a registered site, outside the mutex. *)
Inductive outside_step : World -> World -> Prop :=
| StepEmit w a word :
    (forall n node, registered (w_m w) n -> node_at (w_m w) n = Some node -> word_of node <> a) ->
    outside_step w (with_m (put_word a word (w_m w)) (w_holder w) w)
| StepDelink w n node :
    registered (w_m w) n -> node_at (w_m w) n = Some node ->
    outside_step w (with_word n None (put_word (word_of node) (ps_unlinked_bl (ss_patch node)) (w_m w)) (w_holder w) w).

Inductive step : World -> World -> Prop :=
| InMutex w w' : holder_step w w' -> step w w'
| InHandler i w w' : handler_step i w w' -> step w w'
| Outside w w' : outside_step w w' -> step w w'.

Definition reachable (w : World) : Prop := rtc step world_new w.
