(* ===== verification/LinkSignalProps.v ===== *)
(** * Direct links: safety of the signal handler

    The invariant of the step relation of LinkSignal.v: a handler that walks a target's
    list meets every live node of the target, it patches registered sites only, and once
    it is past the wait no branch older than its start survives behind it. *)

From Stdlib Require Import ZArith Lia.
From stdpp Require Import numbers base gmap sets list relations.
From S2P Require Import Prelude MachineInt LinkManager LinkInvariant LinkManagerProps LinkPurge LinkSignal.

Local Open Scope Z_scope.
Local Open Scope svm_scope.

(** ** The lists *)

Definition live_node (m : LinkManager) (home : list Z) (t : Z) (n : nat) : Prop :=
  home !! n = Some t /\ exists node, node_at m n = Some node /\ ss_live node = true.

(** A link of the list of [t] to the first live node below [b]. *)
Definition links_to (m : LinkManager) (home : list Z) (t : Z) (link : option nat) (b : nat) : Prop :=
  match link with
  | Some y => (y < b)%nat /\ home !! y = Some t /\ forall n, live_node m home t n -> (n < b)%nat -> (n <= y)%nat
  | None => forall n, live_node m home t n -> (b <= n)%nat
  end.

Record shape_ok (m : LinkManager) (home : list Z) (written : gmap nat Z) : Prop := {
  sh_length : length home = length (lm_signal_storage m);
  sh_next : forall n node t, node_at m n = Some node -> home !! n = Some t -> links_to m home t (ss_next node) n;
  sh_head : forall t x, lm_signal_targets m !! t = Some x -> links_to m home t (st_sites x) (length home);
  sh_target : forall n t, home !! n = Some t -> is_Some (lm_signal_targets m !! t);
  sh_live : forall n node, node_at m n = Some node -> ss_live node = true -> registered m n;
  sh_site : forall k n, lm_signal_sites m !! k = Some n -> exists r, lm_sites m !! k = Some r /\ home !! n = Some (ls_guest_target r);
  sh_inj : forall k k' n, lm_signal_sites m !! k = Some n -> lm_signal_sites m !! k' = Some n -> k = k';
  sh_words : forall n n' x x', registered m n -> registered m n' -> node_at m n = Some x -> node_at m n' = Some x' ->
    word_of x = word_of x' -> n = n';
  sh_patches : patches_ok (lm_signal_storage m);
  sh_written : forall n node, registered m n -> node_at m n = Some node -> written !! n = None ->
    lm_code m !! word_of node = Some (ps_unlinked_bl (ss_patch node))
}.

Lemma links_weaken m m' home t link b :
  (forall n, live_node m' home t n -> live_node m home t n) -> links_to m home t link b -> links_to m' home t link b.
Proof. intros Hl. destruct link as [y|]; simpl; [|by eauto]. intros (? & ? & H). split_and!; [done..|]. eauto. Qed.

(** Changes that keep the lists and the records' targets. *)
Record same_lists (m m' : LinkManager) : Prop := {
  sl_sites : sites_rel same_place (lm_sites m) (lm_sites m');
  sl_nodes : same_links (lm_signal_storage m) (lm_signal_storage m');
  sl_heads : same_heads (lm_signal_targets m) (lm_signal_targets m');
  sl_index : lm_signal_sites m' = lm_signal_sites m
}.

Lemma node_back sg sg' n x' : same_links sg sg' -> sg' !! n = Some x' -> exists x, sg !! n = Some x /\ same_node x x'.
Proof. intros Hs Hx'. specialize (Hs n). rewrite Hx' in Hs. inversion Hs; subst. eauto. Qed.

Lemma node_forth sg sg' n x : same_links sg sg' -> sg !! n = Some x -> exists x', sg' !! n = Some x' /\ same_node x x'.
Proof. intros Hs Hx. specialize (Hs n). rewrite Hx in Hs. inversion Hs; subst. eauto. Qed.

Lemma same_links_length sg sg' : same_links sg sg' -> length sg' = length sg.
Proof.
  intros Hs. apply Nat.le_antisymm; apply Nat.le_ngt; intros Hlt; apply lookup_lt_is_Some in Hlt as [x Hx].
  - destruct (node_back _ _ _ _ Hs Hx) as (y & Hy%lookup_lt_Some & _). lia.
  - destruct (node_forth _ _ _ _ Hs Hx) as (y & Hy%lookup_lt_Some & _). lia.
Qed.

Lemma live_same_lists m m' home t n : same_lists m m' -> live_node m' home t n <-> live_node m home t n.
Proof.
  intros [_ Hs _ _]. unfold live_node, node_at. split; intros (Hh & x & Hx & Hl); (split; [done|]).
  - destruct (node_back _ _ _ _ Hs Hx) as (y & Hy & _ & E & _). exists y. split; congruence.
  - destruct (node_forth _ _ _ _ Hs Hx) as (y & Hy & _ & E & _). exists y. split; congruence.
Qed.

Lemma registered_same m m' n : lm_signal_sites m' = lm_signal_sites m -> registered m' n <-> registered m n.
Proof. unfold registered. by intros ->. Qed.

(** The shape depends on the lists, the records' targets and the registered words. *)
Lemma shape_same_lists m m' home written written' :
  same_lists m m' -> shape_ok m home written ->
  (forall n node, registered m n -> node_at m' n = Some node -> written' !! n = None ->
     lm_code m' !! word_of node = Some (ps_unlinked_bl (ss_patch node))) ->
  shape_ok m' home written'.
Proof.
  intros Hs [H1 H2 H3 H4 H5 H6 H7 H8 H9 H10] Hw. pose proof Hs as [Hsites Hsg Hst Hns].
  assert (Hlinks : forall t link b, links_to m home t link b -> links_to m' home t link b).
  { intros t link b. apply links_weaken. intros n. by apply (live_same_lists m m'). }
  assert (Hback : forall n x', node_at m' n = Some x' -> exists x, node_at m n = Some x /\ same_node x x') by (intros; by eapply node_back).
  split.
  - by rewrite (same_links_length _ _ Hsg).
  - intros n x' t Hx' Ht. destruct (Hback _ _ Hx') as (x & Hx & E & _). rewrite E. apply Hlinks. by eapply H2.
  - intros t x' Hx'. pose proof (Hst t) as Ht. rewrite Hx' in Ht. inversion Ht as [x ? E Hx|]; subst. rewrite E. by apply Hlinks, H3.
  - intros n t Ht. destruct (H4 _ _ Ht) as [x Hx]. specialize (Hst t). rewrite Hx in Hst. inversion Hst; subst. by eexists.
  - intros n x' Hx' Hl. destruct (Hback _ _ Hx') as (x & Hx & _ & E & _). apply (registered_same m m'); [done|]. apply (H5 _ _ Hx). congruence.
  - intros k n. rewrite Hns. intros (r & Hr & Hh)%H6. destruct (rel_some _ _ _ _ _ Hsites Hr) as (r' & Hr' & _ & E & _).
    exists r'. split; [done|congruence].
  - intros k k' n. rewrite Hns. apply H7.
  - intros n n' x' y' Hn Hn' Hx' Hy'. rewrite (registered_same m m') in Hn, Hn' by done.
    destruct (Hback _ _ Hx') as (x & Hx & _ & _ & Ex). destruct (Hback _ _ Hy') as (y & Hy & _ & _ & Ey).
    unfold word_of. rewrite Ex, Ey. by apply (H8 _ _ _ _ Hn Hn').
  - by eapply patches_same_links.
  - intros n node Hn. apply Hw. by apply (registered_same m m').
Qed.

Lemma shape_calm m m' home written : same_lists m m' -> lm_code m' = lm_code m -> shape_ok m home written -> shape_ok m' home written.
Proof.
  intros Hs Hc Hok. eapply shape_same_lists; [done..|]. intros n x' Hn Hx' Hw. rewrite Hc.
  destruct (node_back _ _ _ _ (sl_nodes _ _ Hs) Hx') as (x & Hx & _ & _ & E). unfold word_of. rewrite E. by eapply (sh_written _ _ _ Hok).
Qed.

(** A word is written: that of the node [n], or of none. *)
Lemma shape_word m home written n node insn c w :
  shape_ok m home written -> registered m n -> node_at m n = Some node -> c = <[word_of node := insn]> (lm_code m) ->
  (w = None -> insn = ps_unlinked_bl (ss_patch node)) ->
  shape_ok (put_code c m) home (partial_alter (fun _ => w) n written).
Proof.
  intros Hok Hn Hnode -> Hw. eapply shape_same_lists; [|exact Hok|].
  - split; [reflexivity|reflexivity|apply same_heads_refl|done].
  - intros n' x Hn' Hx. simpl. destruct (decide (n' = n)) as [->|Hne].
    + rewrite lookup_partial_alter_eq. intros Hnone. assert (x = node) as -> by (unfold node_at in *; simpl in *; congruence).
      rewrite lookup_insert_eq. by rewrite Hw.
    + rewrite lookup_partial_alter_ne by done. rewrite lookup_insert_ne; [by apply (sh_written _ _ _ Hok)|].
      intros E. apply Hne. by eapply (sh_words _ _ _ Hok).
Qed.

(** ** Registration *)

Lemma RegisterSite_effect site t owner s kind flags m m' :
  RegisterSite site t owner (Some s) kind flags m = Ok (true, m') ->
  let x := default new_signal_target (lm_signal_targets m !! t) in
  let n := length (lm_signal_storage m) in
  registration_ok site owner (Some s) kind flags = true /\ lm_sites m !! site = None /\
  lm_sites m' = <[site := new_record site t owner (Some s) kind flags]> (lm_sites m) /\
  lm_signal_sites m' = <[site := n]> (lm_signal_sites m) /\
  lm_signal_storage m' = lm_signal_storage m ++ [mkSignalSite s (st_sites x) false true] /\
  lm_signal_targets m' = <[t := set_list (Some n) x]> (lm_signal_targets m) /\
  lm_code m' = lm_code m /\ lm_targets m' = lm_targets m /\ lm_next_target_generation m' = lm_next_target_generation m.
Proof.
  intros H x n. unfold RegisterSite in H. destruct (registration_ok site owner (Some s) kind flags); [|done]. cbn [negb] in H.
  unfold get, bind at 1 in H. destruct (owner_retiring m owner); [done|].
  destruct (lm_sites m !! site) eqn:Hs; [done|]. split; [done|]. split; [done|].
  unfold publish_node, GetOrCreateSignalTarget, update_signal_target, bind, get, modify, ret in H. simpl in H.
  unfold x. destruct (lm_signal_targets m !! t) as [y|] eqn:Hy; injection H as <-; simpl; split_and!; try done.
  - apply map_eq. intros u. rewrite lookup_alter, lookup_insert. case_decide; [subst u; by rewrite Hy|done].
  - apply map_eq. intros u. rewrite lookup_alter, !lookup_insert. destruct (decide (t = u)) as [<-|]; [by rewrite decide_True|done].
Qed.

Lemma live_node_push m m' home t u n node :
  length home = length (lm_signal_storage m) -> lm_signal_storage m' = lm_signal_storage m ++ [node] ->
  live_node m' (home ++ [t]) u n -> n = length home /\ u = t \/ live_node m home u n.
Proof.
  intros Hlen Hsg (Hh & x & Hx & Hl). unfold node_at in Hx. rewrite Hsg in Hx.
  apply lookup_app_Some in Hx as [Hx|[Hge Hx]].
  - right. split; [|by exists x]. apply lookup_lt_Some in Hx. by rewrite lookup_app_l in Hh by lia.
  - apply list_lookup_singleton_Some in Hx as [Hx _]. left. assert (n = length home) as -> by lia. split; [done|].
    rewrite list_lookup_middle in Hh by done. congruence.
Qed.

Lemma links_push m m' home t u link b node :
  length home = length (lm_signal_storage m) -> lm_signal_storage m' = lm_signal_storage m ++ [node] -> (b <= length home)%nat ->
  links_to m home u link b -> links_to m' (home ++ [t]) u link b.
Proof.
  intros Hlen Hsg Hb. destruct link as [y|]; simpl.
  - intros (Hy & Hh & Hl). split_and!; [done|by rewrite lookup_app_l by lia|]. intros n Hn Hnb.
    destruct (live_node_push _ _ _ _ _ _ _ Hlen Hsg Hn) as [[-> _]|Hn']; [lia|by apply Hl].
  - intros Hl n Hn. destruct (live_node_push _ _ _ _ _ _ _ Hlen Hsg Hn) as [[-> _]|Hn']; [lia|by apply Hl].
Qed.

Lemma shape_register m m' home written site t owner s kind flags :
  shape_ok m home written -> fresh_site m s -> RegisterSite site t owner (Some s) kind flags m = Ok (true, m') ->
  shape_ok m' (home ++ [t]) (delete (length home) written).
Proof.
  intros [H1 H2 H3 H4 H5 H6 H7 H8 H9 H10] (Ha & Hb & Hcode & Hfree) Hreg.
  apply RegisterSite_effect in Hreg as (Hok & Hfresh & Es & Ens & Esg & Est & Ec & _ & _). rewrite <- H1 in *.
  set (x := default new_signal_target (lm_signal_targets m !! t)) in *. set (node := mkSignalSite s (st_sites x) false true) in *.
  assert (Hnode : forall n y, node_at m' n = Some y -> n = length home /\ y = node \/ node_at m n = Some y /\ (n < length home)%nat).
  { intros n y Hy. unfold node_at in *. rewrite Esg in Hy. apply lookup_app_Some in Hy as [Hy|[Hge Hy]].
    - right. split; [done|]. rewrite H1. by eapply lookup_lt_Some.
    - apply list_lookup_singleton_Some in Hy as [Hy <-]. left. split; [lia|done]. }
  assert (Hreg' : forall n, registered m' n -> n = length home \/ registered m n).
  { intros n [k Hk]. rewrite Ens in Hk. apply lookup_insert_Some in Hk as [[_ <-]|[_ Hk]]; [by left|right; by exists k]. }
  assert (Hlt : forall n, registered m n -> (n < length home)%nat).
  { intros n [k Hk]. destruct (H6 _ _ Hk) as (r & _ & Hh). by eapply lookup_lt_Some. }
  assert (Hx : links_to m home t (st_sites x) (length home)).
  { unfold x. destruct (lm_signal_targets m !! t) as [y|] eqn:Hy; [by apply H3|]. simpl. intros n [Hh _].
    destruct (H4 _ _ Hh). congruence. }
  split.
  - rewrite length_app, Esg, length_app. simpl. lia.
  - intros n y u [[-> ->]|[Hy Hn]]%Hnode Hu.
    + rewrite list_lookup_middle in Hu by done. injection Hu as <-. by eapply links_push.
    + rewrite lookup_app_l in Hu by done. eapply links_push; [done..|lia|by eapply H2].
  - intros u y Hy. rewrite Est in Hy. apply lookup_insert_Some in Hy as [[<- <-]|[Hne Hy]]; rewrite length_app; simpl.
    + split_and!; [lia|by rewrite list_lookup_middle|]. intros n [Hh _] _. apply lookup_lt_Some in Hh. rewrite length_app in Hh. simpl in Hh. lia.
    + specialize (H3 _ _ Hy). apply (links_push _ _ _ t _ _ _ _ H1 Esg (le_n _)) in H3. destruct (st_sites y) as [z|]; simpl in *.
      * destruct H3 as (? & ? & Hl). split_and!; [lia|done|]. intros n Hn _. apply Hl; [done|].
        destruct (live_node_push _ _ _ _ _ _ _ H1 Esg Hn) as [[_ ->]|[Hh _]]; [done|]. by eapply lookup_lt_Some.
      * intros n Hn. destruct (live_node_push _ _ _ _ _ _ _ H1 Esg Hn) as [[_ ->]|[Hh Hl]]; [done|].
        specialize (H3 n). apply lookup_lt_Some in Hh as Hlt'. assert (length home <= n)%nat; [|lia]. by apply H3.
  - intros n u Hu. rewrite Est, lookup_insert. case_decide as Ht; [done|].
    apply lookup_app_Some in Hu as [Hu|[_ Hu]]; [by eapply H4|]. apply list_lookup_singleton_Some in Hu as [_ Hu]. congruence.
  - intros n y [[-> ->]|[Hy Hn]]%Hnode Hl.
    + exists site. by rewrite Ens, lookup_insert_eq.
    + destruct (H5 _ _ Hy Hl) as [k Hk]. exists k. rewrite Ens. apply lookup_insert_Some. right. split; [|done].
      intros <-. destruct (H6 _ _ Hk) as (r & Hr & _). congruence.
  - intros k n. rewrite Ens, Es, !lookup_insert. case_decide as Hk.
    + intros [= <-]. eexists. split; [done|]. rewrite list_lookup_middle by done.
      by destruct (new_record_fields site t owner (Some s) kind flags) as (_ & -> & _).
    + intros (r & Hr & Hh)%H6. exists r. split; [done|]. by apply lookup_app_l_Some.
  - intros k k' n. rewrite Ens, !lookup_insert. intros Hk Hk'.
    repeat case_decide; subst; try done; simplify_eq; [exfalso..|by eapply H7].
    + assert (registered m (length home)) as ?%Hlt by (eexists; eassumption). lia.
    + assert (registered m (length home)) as ?%Hlt by (eexists; eassumption). lia.
  - intros n n' y y' Hn Hn' [[-> ->]|[Hy Hlty]]%Hnode [[-> ->]|[Hy' Hlty']]%Hnode E; [done| | |].
    + apply Hreg' in Hn' as [->|Hn']; [lia|]. by destruct (Hfree _ _ Hn' Hy').
    + apply Hreg' in Hn as [->|Hn]; [lia|]. by destruct (Hfree _ _ Hn Hy).
    + apply Hreg' in Hn as [->|Hn]; [lia|]. apply Hreg' in Hn' as [->|Hn']; [lia|]. by eapply H8.
  - rewrite Esg. apply patches_push; [|done]. by eapply registration_patch_ok.
  - intros n y Hn [[-> ->]|[Hy Hlty]]%Hnode; rewrite Ec; [done|].
    apply Hreg' in Hn as [->|Hn]; [lia|]. rewrite lookup_delete_ne by lia. by apply H10.
Qed.

(** ** A new target, a dead node, a node out of its list *)

Lemma shape_new_target m home written t n :
  shape_ok m home written -> lm_signal_targets m !! t = None ->
  shape_ok (put_signal_targets (<[t := new_signal_target]> (lm_signal_targets m)) (put_next_target_generation n m)) home written.
Proof.
  intros [H1 H2 H3 H4 H5 H6 H7 H8 H9 H10] Hfresh. split; simpl; try done.
  - intros u x. rewrite lookup_insert. case_decide; [|by apply H3]. subst u. intros [= <-]. simpl. intros k [Hk _].
    destruct (H4 _ _ Hk). congruence.
  - intros k u Hk. rewrite lookup_insert. case_decide; [done|by eapply H4].
Qed.

(** Nodes die, links move over dead nodes, words and records stay. *)
Lemma shape_shrink m m' home written :
  shape_ok m home written ->
  (forall n, option_Forall2 (fun x x' => ss_patch x' = ss_patch x /\ (ss_live x' = true -> ss_live x = true))
     (lm_signal_storage m !! n) (lm_signal_storage m' !! n)) ->
  (forall n x' t, node_at m' n = Some x' -> home !! n = Some t -> links_to m' home t (ss_next x') n) ->
  (forall t x', lm_signal_targets m' !! t = Some x' -> links_to m' home t (st_sites x') (length home)) ->
  (forall t, is_Some (lm_signal_targets m !! t) -> is_Some (lm_signal_targets m' !! t)) ->
  (forall n x', node_at m' n = Some x' -> ss_live x' = true -> registered m' n) ->
  (forall k n, lm_signal_sites m' !! k = Some n -> lm_signal_sites m !! k = Some n /\ lm_sites m' !! k = lm_sites m !! k) ->
  lm_code m' = lm_code m -> shape_ok m' home written.
Proof.
  intros [H1 H2 H3 H4 H5 H6 H7 H8 H9 H10] Hsg Hnext Hhead Ht Hlive Hns Hc.
  assert (Hback : forall n x', lm_signal_storage m' !! n = Some x' -> exists x, lm_signal_storage m !! n = Some x /\ ss_patch x' = ss_patch x).
  { intros n x' Hx'. pose proof (Hsg n) as Hn. rewrite Hx' in Hn. inversion Hn as [x ? [E _] Hx|]; subst. by exists x. }
  assert (Hforth : forall n, is_Some (lm_signal_storage m !! n) -> is_Some (lm_signal_storage m' !! n)).
  { intros n [x Hx]. pose proof (Hsg n) as Hn. rewrite Hx in Hn. inversion Hn; subst. by eexists. }
  assert (Hreg : forall n, registered m' n -> registered m n) by (intros n [k [Hk _]%Hns]; by exists k).
  split; try done.
  - rewrite H1. apply Nat.le_antisymm; apply Nat.le_ngt; intros Hlt; apply lookup_lt_is_Some in Hlt.
    + destruct Hlt as [x Hx]. destruct (Hforth _ (mk_is_Some _ _ Hx)) as [y Hy%lookup_lt_Some]. lia.
    + destruct Hlt as [x Hx]. destruct (Hback _ _ Hx) as (y & Hy%lookup_lt_Some & _). lia.
  - intros n t Hn. by eapply Ht, H4.
  - intros k n [Hk E]%Hns. rewrite E. by apply H6.
  - intros k k' n [Hk _]%Hns [Hk' _]%Hns. by eapply H7.
  - intros n n' x y Hn Hn' Hx Hy. destruct (Hback _ _ Hx) as (x0 & Hx0 & Ex). destruct (Hback _ _ Hy) as (y0 & Hy0 & Ey).
    unfold word_of. rewrite Ex, Ey. apply (H8 n n' x0 y0); auto.
  - intros n x' Hx'. destruct (Hback _ _ Hx') as (x & Hx & ->). by eapply H9.
  - intros n x' Hn Hx' Hw. rewrite Hc. destruct (Hback _ _ Hx') as (x & Hx & E). unfold word_of. rewrite E. apply (H10 n); auto.
Qed.

Lemma shape_kill m home written n : shape_ok m home written -> shape_ok (put_node n (set_live false) m) home written.
Proof.
  intros Hok.
  assert (Hsg : forall k, option_Forall2 (fun x x' => ss_patch x' = ss_patch x /\ (ss_live x' = true -> ss_live x = true) /\ ss_next x' = ss_next x)
     (lm_signal_storage m !! k) (lm_signal_storage (put_node n (set_live false) m) !! k)).
  { intros k. simpl. rewrite list_lookup_alter. case_decide; [subst k|]; [destruct (_ !! n)|destruct (_ !! k)]; by constructor. }
  assert (Hlive : forall t k, live_node (put_node n (set_live false) m) home t k -> live_node m home t k).
  { intros t k (Hh & x' & Hx' & Hl). split; [done|]. pose proof (Hsg k) as Hk. unfold node_at in Hx'. rewrite Hx' in Hk.
    inversion Hk as [x ? (_ & E & _) Hx|]; subst. exists x. split; [done|tauto]. }
  assert (Hback : forall k x', node_at (put_node n (set_live false) m) k = Some x' ->
    exists x, node_at m k = Some x /\ ss_next x' = ss_next x /\ (ss_live x' = true -> ss_live x = true)).
  { intros k x' Hx'. pose proof (Hsg k) as Hk. unfold node_at in Hx'. rewrite Hx' in Hk. inversion Hk as [x ? (_ & ? & ?) Hx|]; subst. by exists x. }
  apply (shape_shrink m); [done| | | | | |done|done].
  - intros k. destruct (Hsg k) as [? ? (? & ? & _)|]; by constructor.
  - intros k x' t Hx' Ht. destruct (Hback _ _ Hx') as (x & Hx & -> & _). eapply links_weaken; [apply Hlive|]. by apply (sh_next _ _ _ Hok).
  - intros t x' Hx'. eapply links_weaken; [apply Hlive|]. by apply (sh_head _ _ _ Hok).
  - done.
  - intros k x' Hx' Hl. destruct (Hback _ _ Hx') as (x & Hx & _ & E). by apply (sh_live _ _ _ Hok k x), E.
Qed.

(** The link over a dead node. *)
Lemma links_skip m home t n node b :
  links_to m home t (Some n) b -> node_at m n = Some node -> ss_live node = false -> links_to m home t (ss_next node) n ->
  links_to m home t (ss_next node) b.
Proof.
  intros (Hn & Hh & Hl) Hnode Hdead Hnext.
  assert (Hbelow : forall k, live_node m home t k -> (k < b)%nat -> (k < n)%nat).
  { intros k Hk Hkb. pose proof (Hl _ Hk Hkb). destruct (decide (k = n)) as [->|]; [|lia].
    destruct Hk as (_ & x & Hx & Hlive). congruence. }
  destruct (ss_next node) as [y|]; simpl in *.
  - destruct Hnext as (? & ? & Hy). split_and!; [lia|done|]. auto.
  - intros k Hk. apply Nat.le_ngt. intros Hkb. specialize (Hnext k Hk). specialize (Hbelow _ Hk Hkb). lia.
Qed.

(** What unlinking changes, given that it only moves links over a dead node. *)
Record relinked (m : LinkManager) (home : list Z) (m' : LinkManager) : Prop := {
  rl_rest : exists st sg, m' = put_signal_targets st (put_signal_storage sg m);
  rl_nodes : forall k, option_Forall2 same_content (lm_signal_storage m !! k) (lm_signal_storage m' !! k);
  rl_counts : forall u, option_Forall2 same_counts (lm_signal_targets m !! u) (lm_signal_targets m' !! u);
  rl_next : forall k x u, node_at m' k = Some x -> home !! k = Some u -> links_to m home u (ss_next x) k;
  rl_head : forall u x, lm_signal_targets m' !! u = Some x -> links_to m home u (st_sites x) (length home)
}.

Lemma relinked_refl m home written : shape_ok m home written -> relinked m home m.
Proof.
  intros Hok. split; [exists (lm_signal_targets m), (lm_signal_storage m); by destruct m|reflexivity|reflexivity| |].
  - intros. by eapply (sh_next _ _ _ Hok).
  - intros. by eapply (sh_head _ _ _ Hok).
Qed.

Lemma unlink_node_effect m home written t n node : shape_ok m home written -> node_at m n = Some node -> ss_live node = false ->
  forall fuel prev cur b m', unlink_node fuel t n prev cur m = Ok (tt, m') ->
    links_to m home t cur b ->
    match prev with Some p => home !! p = Some t /\ b = p | None => b = length home end -> relinked m home m'.
Proof.
  intros Hok Hnode Hdead. induction fuel as [|fuel IH]; intros prev cur b m' H Hcur Hb; simpl in H.
  - destruct cur; [done|]. injection H as <-. by eapply relinked_refl.
  - destruct cur as [c|]; [|injection H as <-; by eapply relinked_refl].
    unfold get, bind at 1 in H. destruct (lm_signal_storage m !! c) as [x|] eqn:Hx; [|done].
    assert (Hc : home !! c = Some t) by apply Hcur. pose proof (sh_next _ _ _ Hok c x t Hx Hc) as Hnext.
    destruct (Nat.eqb_spec c n) as [->|Hne]; [|eapply IH; [exact H|exact Hnext|done]].
    unfold node_at in Hnode. assert (x = node) as -> by congruence.
    pose proof (links_skip _ _ _ _ _ _ Hcur Hx Hdead Hnext) as Hskip.
    unfold update_node, update_signal_target, bind, modify in H. destruct prev as [p|]; injection H as <-; split; simpl.
    + exists (lm_signal_targets m), (alter (set_linked false) n (alter (set_next (ss_next node)) p (lm_signal_storage m))). by destruct m.
    + intros k. etrans; [by apply (content_alter (set_next (ss_next node)) p)|by apply content_alter].
    + reflexivity.
    + intros k y u. unfold node_at. simpl. rewrite !list_lookup_alter. destruct Hb as [Hp ->].
      destruct (decide (n = k)) as [<-|]; [|destruct (decide (p = k)) as [<-|]].
      * destruct (decide (p = n)) as [->|]; [destruct Hcur; lia|]. intros (y0 & Hy0 & ->)%fmap_Some Hu. simpl. by apply (sh_next _ _ _ Hok n).
      * intros (y0 & Hy0 & ->)%fmap_Some Hu. simpl. replace u with t by congruence. done.
      * intros Hy Hu. by apply (sh_next _ _ _ Hok k).
    + apply (sh_head _ _ _ Hok).
    + exists (alter (set_list (ss_next node)) t (lm_signal_targets m)), (alter (set_linked false) n (lm_signal_storage m)). by destruct m.
    + intros k. by apply content_alter.
    + intros u. by apply counts_alter.
    + intros k y u. unfold node_at. simpl. rewrite list_lookup_alter. case_decide; [subst k|by apply (sh_next _ _ _ Hok)].
      intros (y0 & Hy0 & ->)%fmap_Some Hu. simpl. by apply (sh_next _ _ _ Hok n).
    + intros u y. rewrite lookup_alter. case_decide; [subst u|by apply (sh_head _ _ _ Hok)].
      intros (y0 & Hy0 & ->)%fmap_Some. simpl. by subst b.
Qed.

(** What a step inside the mutex leaves of the targets and generations. *)
Definition same_generations (m m' : LinkManager) : Prop :=
  lm_targets m' = lm_targets m /\ lm_next_target_generation m' = lm_next_target_generation m /\
  (forall u, option_Forall2 same_counts (lm_signal_targets m !! u) (lm_signal_targets m' !! u)).

Lemma purge_site_effect m home written site c m' :
  shape_ok m home written ->
  (forall n node, lm_signal_sites m !! site = Some n -> node_at m n = Some node -> ss_live node = false) ->
  purge_site site m = Ok (c, m') ->
  shape_ok m' home written /\ lm_signal_sites m' = delete site (lm_signal_sites m) /\ lm_code m' = lm_code m /\
  (forall k, option_Forall2 same_content (lm_signal_storage m !! k) (lm_signal_storage m' !! k)) /\ same_generations m m'.
Proof.
  intros Hok Hdead H. unfold purge_site, get, bind at 1 in H. destruct (lm_sites m !! site) as [r|] eqn:Hr.
  2:{ injection H as _ <-. split_and!; [done| |done|reflexivity|by split_and!]. symmetry. apply delete_id.
      destruct (lm_signal_sites m !! site) as [n|] eqn:Hn; [|done]. destruct (sh_site _ _ _ Hok _ _ Hn) as (r & Hr' & _). congruence. }
  apply bind_ok in H as (u1 & m1 & H1 & H). apply bind_ok in H as (u2 & m2 & H2 & H). apply bind_ok in H as (u3 & m3 & H3 & H).
  injection H as _ <-. injection H3 as _ <-.
  assert (E1 : lm_sites m1 = lm_sites m /\ lm_signal_sites m1 = lm_signal_sites m /\ lm_signal_storage m1 = lm_signal_storage m /\
    lm_signal_targets m1 = lm_signal_targets m /\ lm_code m1 = lm_code m /\ lm_targets m1 = lm_targets m /\
    lm_next_target_generation m1 = lm_next_target_generation m).
  { unfold modify in H1. injection H1 as _ <-. by destruct (lm_incoming m !! ls_guest_target r). }
  clear H1. destruct E1 as (Es & Ens & Esg & Est & Ec & Etg & En).
  assert (Hok1 : shape_ok m1 home written).
  { eapply shape_calm; [|exact Ec|exact Hok]. split; [by rewrite Es|by rewrite Esg|rewrite Est; apply same_heads_refl|done]. }
  assert (Hrl : exists m0, relinked m1 home m0 /\ lm_signal_sites m2 = delete site (lm_signal_sites m) /\ m2 = put_signal_sites (lm_signal_sites m2) m0).
  { destruct (lm_signal_sites m !! site) as [n|] eqn:Hn.
    - apply bind_ok in H2 as (u4 & m0 & H4 & H2). injection H2 as _ <-. exists m0.
      destruct (sh_site _ _ _ Hok _ _ Hn) as (r' & Hr' & Hh). assert (r' = r) as -> by congruence.
      assert (Hnode : is_Some (node_at m1 n)).
      { unfold node_at. rewrite Esg. apply lookup_lt_is_Some. rewrite <- (sh_length _ _ _ Hok). by eapply lookup_lt_Some. }
      destruct Hnode as [node Hnode]. unfold UnlinkSignalSiteLocked, get, bind at 1 in H4.
      assert (Hrl : relinked m1 home m0).
      { destruct (lm_signal_targets m1 !! ls_guest_target r) as [x|] eqn:Hx; [|injection H4 as _ <-; by eapply relinked_refl].
        destruct u4. eapply (unlink_node_effect _ _ _ _ _ _ Hok1 Hnode); [|exact H4|by apply (sh_head _ _ _ Hok1)|done].
        apply (Hdead n); [done|]. unfold node_at in *. by rewrite <- Esg. }
      split_and!; [done| |done]. simpl. destruct Hrl as [(st & sg & ->) _ _ _ _]. simpl. by rewrite Ens.
    - injection H2 as _ <-. exists m1. split; [by eapply relinked_refl|]. rewrite Ens, delete_id by done. split; [done|]. rewrite <- Ens. by destruct m1. }
  destruct Hrl as (m0 & [(st & sg & ->) Rn Rc Rx Rh] & Edel & Em2). rewrite Edel in Em2. subst m2. simpl in *. rewrite Esg in Rn. rewrite Est in Rc.
  assert (Hlive : forall m' t k, lm_signal_storage m' = sg -> live_node m' home t k -> live_node m1 home t k).
  { intros m' t k Hm' (Hh & x & Hx & Hl). split; [done|]. unfold node_at in *. rewrite Hm' in Hx. pose proof (Rn k) as Hk. rewrite Hx in Hk.
    inversion Hk as [y ? [E _] Hy|]; subst. exists y. rewrite Esg. split; [done|congruence]. }
  split_and!; [|done|done|exact Rn|by split_and!].
  apply (shape_shrink m1); simpl.
  - done.
  - intros k. rewrite Esg. destruct (Rn k) as [x x' [E1 E2]|]; constructor. split; [done|congruence].
  - intros k x' t Hx' Ht. eapply links_weaken; [intros j; apply Hlive; done|]. by eapply Rx.
  - intros t x' Hx'. eapply links_weaken; [intros j; apply Hlive; done|]. by eapply Rh.
  - intros t [x Hx]. rewrite Est in Hx. specialize (Rc t). rewrite Hx in Rc. inversion Rc; subst. by eexists.
  - intros k x' Hx' Hl. unfold node_at in Hx'. simpl in Hx'. pose proof (Rn k) as Hk. rewrite Hx' in Hk. inversion Hk as [x ? [E _] Hx|]; subst.
    symmetry in Hx. assert (Hlx : ss_live x = true) by congruence.
    destruct (sh_live _ _ _ Hok _ _ Hx Hlx) as [key Hkey]. exists key. simpl. apply lookup_delete_Some. split; [|done].
    intros <-. rewrite (Hdead _ _ Hkey Hx) in Hlx. done.
  - intros k n [Hne Hk]%lookup_delete_Some. rewrite Ens. split; [done|]. by rewrite lookup_delete_ne.
  - done.
Qed.

Lemma kill_effect site m m' :
  (match lm_signal_sites m !! site with Some n => update_node n (set_live false) | None => ret tt end) m = Ok (tt, m') ->
  m' = match lm_signal_sites m !! site with Some n => put_node n (set_live false) m | None => m end.
Proof. destruct (lm_signal_sites m !! site); by intros [= <-]. Qed.

(** The other operations inside the mutex keep the lists. *)
Lemma same_lists_refl m : same_lists m m.
Proof. split; [reflexivity|reflexivity|apply same_heads_refl|done]. Qed.

Lemma same_lists_trans m1 m2 m3 : same_lists m1 m2 -> same_lists m2 m3 -> same_lists m1 m3.
Proof.
  intros [A1 A2 A3 A4] [B1 B2 B3 B4]. split; [by etrans|by etrans| |congruence].
  intros t. pose proof (A3 t) as Ha. pose proof (B3 t) as Hb. inversion Ha as [x y E Ex Ey|Ex Ey]; rewrite <- Ey in Hb; inversion Hb; constructor. congruence.
Qed.

Lemma same_lists_sites s sg m : sites_rel same_place (lm_sites m) s -> same_links (lm_signal_storage m) sg ->
  same_lists m (put_sites s (put_signal_storage sg m)).
Proof. intros. split; [done|done|apply same_heads_refl|done]. Qed.

Lemma same_lists_target g t m : (forall x, st_sites (g x) = st_sites x) -> same_lists m (put_signal_target t g m).
Proof. intros. split; [reflexivity|reflexivity|by apply same_heads_alter|done]. Qed.
