(* ===== verification/LinkSignalSafe.v ===== *)
(** * Direct links: the invariant of the interleavings

    What holds in every reachable world of LinkSignal.v, in particular what a handler may
    rely on at each of its steps, and that the steps inside the mutex keep it. *)

From Stdlib Require Import ZArith Lia.
From stdpp Require Import numbers base gmap sets list relations.
From S2P Require Import Prelude MachineInt LinkManager LinkInvariant LinkManagerProps LinkPurge LinkSignal LinkSignalProps.

Local Open Scope Z_scope.
Local Open Scope svm_scope.

(** ** The invariant *)

(** The target whose linking count, or publishing count, the holder has raised. *)
Definition linking_target (h : Holder) : option Z :=
  match h with
  | LinkCounted _ r _ | LinkValid _ r _ | LinkCommitted _ r _ | LinkActive _ r _ => Some (ls_guest_target r)
  | LinkEnd t => Some t
  | _ => None
  end.
Definition publishing_target (h : Holder) : option Z :=
  match h with PublishCounted rec | PublishEnd rec _ => Some (lt_guest_target rec) | _ => None end.

Definition counts_ok (m : LinkManager) (h : Holder) : Prop :=
  forall t x, lm_signal_targets m !! t = Some x ->
    st_linking_count x = (if decide (linking_target h = Some t) then 1 else 0) /\
    st_publishing_count x = (if decide (publishing_target h = Some t) then 1 else 0).

Definition generation_at (m : LinkManager) (t : Z) : option Z := st_active_generation <$> lm_signal_targets m !! t.

(** The node of a site is dead. *)
Definition dead_site (m : LinkManager) (k : LinkSiteKey) : Prop :=
  forall n node, lm_signal_sites m !! k = Some n -> node_at m n = Some node -> ss_live node = false.

Definition record_of (m : LinkManager) (site : LinkSiteKey) (t : Z) : Prop :=
  exists r, lm_sites m !! site = Some r /\ ls_guest_target r = t.

Definition in_generations (m : LinkManager) (g : Z) : Prop := 0 < g < lm_next_target_generation m.

Definition holder_ok (m : LinkManager) (h : Holder) : Prop :=
  match h with
  | LinkCounted site r g => record_of m site (ls_guest_target r) /\ is_Some (lm_signal_targets m !! ls_guest_target r)
  | LinkValid site r g | LinkCommitted site r g | LinkActive site r g =>
      record_of m site (ls_guest_target r) /\ is_Some (lm_targets m !! ls_guest_target r) /\ in_generations m g /\
      (generation_at m (ls_guest_target r) = Some g \/ generation_at m (ls_guest_target r) = Some kSignalInvalidatingGeneration)
  | PublishCounted rec => in_generations m (lt_generation rec) /\ is_Some (lm_signal_targets m !! lt_guest_target rec)
  | PublishEnd rec _ => in_generations m (lt_generation rec) /\ is_Some (lm_signal_targets m !! lt_guest_target rec)
  | KillSites _ ks _ | WaitReaders _ ks | EraseSites _ ks => forall k, k ∈ ks -> dead_site m k
  | _ => True
  end.

(** No publication older than [n] is under way for [t], [t] being invalidated. *)
Definition no_old_publication (m : LinkManager) (h : Holder) (t n : Z) : Prop :=
  forall rec, h = PublishCounted rec -> lt_guest_target rec = t -> n <= lt_generation rec.

(** [t] has been invalidated: what is current is at least [n]. *)
Definition invalidated (m : LinkManager) (h : Holder) (t n : Z) : Prop :=
  (forall g, generation_at m t = Some g -> g = 0 \/ g = kSignalInvalidatingGeneration \/ n <= g) /\
  (no_old_publication m h t n \/ generation_at m t = Some kSignalInvalidatingGeneration).

(** No commit to a generation older than [n] is under way. *)
Definition settled (h : Holder) (t n : Z) : Prop :=
  forall site r g, h = LinkValid site r g -> ls_guest_target r = t -> n <= g.

(** The word of a node is the unlinked one or a branch not older than [n]. *)
Definition clean (written : gmap nat Z) (n : Z) (k : nat) : Prop :=
  match written !! k with None => True | Some g => n <= g end.

(** The live nodes from [b] on are clean. *)
Definition clean_from (m : LinkManager) (home : list Z) (written : gmap nat Z) (t n : Z) (b : nat) : Prop :=
  forall k, live_node m home t k -> (b <= k)%nat -> clean written n k.

(** The node is registered, and its site is not waiting to be erased. *)
Definition held (m : LinkManager) (h : Holder) (c : nat) : Prop :=
  registered m c /\ forall o rest k, h = EraseSites o rest -> k ∈ rest -> lm_signal_sites m !! k <> Some c.

Definition walk_ok (w : World) (t n : Z) (second : bool) (b : nat) : Prop :=
  invalidated (w_m w) (w_holder w) t n /\
  (second = true -> settled (w_holder w) t n /\ clean_from (w_m w) (w_home w) (w_written w) t n b).

Definition handler_ok (w : World) (h : Handler) : Prop :=
  match h with
  | HFind t n => n <= lm_next_target_generation (w_m w)
  | HLoadPublishing t n | HStore t n => n <= lm_next_target_generation (w_m w) /\ is_Some (lm_signal_targets (w_m w) !! t)
  | HLoadActive t n => n <= lm_next_target_generation (w_m w) /\ is_Some (lm_signal_targets (w_m w) !! t) /\
      no_old_publication (w_m w) (w_holder w) t n
  | HHead t n second => n <= lm_next_target_generation (w_m w) /\ is_Some (lm_signal_targets (w_m w) !! t) /\
      invalidated (w_m w) (w_holder w) t n /\ (second = true -> settled (w_holder w) t n)
  | HLive t n second cur => n <= lm_next_target_generation (w_m w) /\ is_Some (lm_signal_targets (w_m w) !! t) /\
      (forall c, cur = Some c -> w_home w !! c = Some t) /\
      walk_ok w t n second (match cur with Some c => S c | None => 0 end)
  | HExchange t n second c | HPatch t n second c => n <= lm_next_target_generation (w_m w) /\ is_Some (lm_signal_targets (w_m w) !! t) /\
      w_home w !! c = Some t /\ held (w_m w) (w_holder w) c /\ walk_ok w t n second (S c)
  | HNext t n second c => n <= lm_next_target_generation (w_m w) /\ is_Some (lm_signal_targets (w_m w) !! t) /\
      w_home w !! c = Some t /\ walk_ok w t n second c
  | HWait t n => n <= lm_next_target_generation (w_m w) /\ is_Some (lm_signal_targets (w_m w) !! t) /\ invalidated (w_m w) (w_holder w) t n
  | HFinish t n => n <= lm_next_target_generation (w_m w) /\ walk_ok w t n true 0
  end.

Record world_ok (w : World) : Prop := {
  wo_shape : shape_ok (w_m w) (w_home w) (w_written w);
  wo_next : 0 < lm_next_target_generation (w_m w) <= kSignalInvalidatingGeneration;
  wo_targets : forall t r, lm_targets (w_m w) !! t = Some r ->
    in_generations (w_m w) (lt_generation (tr_target r)) /\ is_Some (lm_signal_targets (w_m w) !! t);
  wo_counts : counts_ok (w_m w) (w_holder w);
  wo_holder : holder_ok (w_m w) (w_holder w);
  wo_readers : w_readers w = size (w_handlers w);
  wo_handlers : forall i h, w_handlers w !! i = Some h -> handler_ok w h
}.

(** ** Steps seen by the handlers *)

(** What a step may do without disturbing a handler that does not take it. *)
Record harmless (w w' : World) : Prop := {
  hm_next : lm_next_target_generation (w_m w) <= lm_next_target_generation (w_m w');
  hm_targets : forall t, is_Some (lm_signal_targets (w_m w) !! t) -> is_Some (lm_signal_targets (w_m w') !! t);
  hm_home : forall c t, w_home w !! c = Some t -> w_home w' !! c = Some t;
  hm_publication : forall t n, n <= lm_next_target_generation (w_m w) ->
    no_old_publication (w_m w) (w_holder w) t n -> no_old_publication (w_m w') (w_holder w') t n;
  hm_invalidated : forall t n, n <= lm_next_target_generation (w_m w) ->
    invalidated (w_m w) (w_holder w) t n -> invalidated (w_m w') (w_holder w') t n;
  hm_settled : forall t n, invalidated (w_m w) (w_holder w) t n -> settled (w_holder w) t n -> settled (w_holder w') t n;
  hm_clean : forall t n k, settled (w_holder w) t n -> live_node (w_m w') (w_home w') t k ->
    clean (w_written w') n k \/ live_node (w_m w) (w_home w) t k /\ (clean (w_written w) n k -> clean (w_written w') n k);
  hm_held : forall c, held (w_m w) (w_holder w) c -> held (w_m w') (w_holder w') c
}.

Lemma walk_harmless w w' t n second b : harmless w w' -> n <= lm_next_target_generation (w_m w) -> walk_ok w t n second b -> walk_ok w' t n second b.
Proof.
  intros Hh Hn [Hi Hs]. split; [by apply (hm_invalidated _ _ Hh)|]. intros E. destruct (Hs E) as [Hset Hc].
  split; [by apply (hm_settled _ _ Hh)|]. intros k Hk Hb.
  destruct (hm_clean _ _ Hh t n k Hset Hk) as [|[Hk' Himp]]; [done|]. by apply Himp, Hc.
Qed.

Lemma handler_harmless w w' h : harmless w w' -> handler_ok w h -> handler_ok w' h.
Proof.
  intros Hh Hok. pose proof (hm_next _ _ Hh) as Hn. pose proof (hm_targets _ _ Hh) as Ht. pose proof (hm_home _ _ Hh) as Ho.
  assert (Hle : forall n, n <= lm_next_target_generation (w_m w) -> n <= lm_next_target_generation (w_m w')) by lia.
  destruct h; simpl in *; destruct_and?; split_and?; eauto using hm_publication, hm_invalidated, hm_settled, hm_held, walk_harmless.
Qed.

(** ** Preservation, from the parts *)

Lemma world_ok_step w w' :
  world_ok w -> shape_ok (w_m w') (w_home w') (w_written w') ->
  0 < lm_next_target_generation (w_m w') <= kSignalInvalidatingGeneration ->
  (forall t r, lm_targets (w_m w') !! t = Some r ->
     in_generations (w_m w') (lt_generation (tr_target r)) /\ is_Some (lm_signal_targets (w_m w') !! t)) ->
  counts_ok (w_m w') (w_holder w') -> holder_ok (w_m w') (w_holder w') ->
  w_readers w' = w_readers w -> w_handlers w' = w_handlers w ->
  (w_readers w <> 0%nat -> harmless w w') -> world_ok w'.
Proof.
  intros [H1 H2 H3 H4 H5 H6 H7] ? ? ? ? ? Er Eh Hh. split; [done..|congruence|]. intros i h. rewrite Eh. intros Hi.
  eapply handler_harmless; [|by eapply H7]. apply Hh. rewrite H6. intros Hz. apply map_size_empty_iff in Hz. by rewrite Hz in Hi.
Qed.

(** A step of the holder that makes no generation current and adds no node. *)
Lemma harmless_holder w w' :
  lm_next_target_generation (w_m w') = lm_next_target_generation (w_m w) ->
  (forall t, is_Some (lm_signal_targets (w_m w) !! t) -> is_Some (lm_signal_targets (w_m w') !! t)) ->
  w_home w' = w_home w -> w_written w' = w_written w ->
  (forall t g, generation_at (w_m w') t = Some g -> g = 0 \/ generation_at (w_m w) t = Some g) ->
  (forall rec, w_holder w' = PublishCounted rec -> w_holder w = PublishCounted rec /\ forall t, generation_at (w_m w') t = generation_at (w_m w) t) ->
  (forall site r g, w_holder w' = LinkValid site r g ->
     w_holder w = LinkValid site r g \/ generation_at (w_m w) (ls_guest_target r) = Some g /\ g <> 0 /\ g <> kSignalInvalidatingGeneration) ->
  (forall t k, live_node (w_m w') (w_home w) t k -> live_node (w_m w) (w_home w) t k) ->
  (forall c, held (w_m w) (w_holder w) c -> held (w_m w') (w_holder w') c) -> harmless w w'.
Proof.
  intros Hn Ht Ho Hw Hg Hp Hl Hlive Hheld. split; [lia|done|by rewrite Ho| | | | |done].
  - intros t n Hle Hno rec [Hrec _]%Hp. by apply Hno.
  - intros t n Hle [Hi1 Hi2]. split; [intros g [->|Hg']%Hg; [by left|by apply Hi1]|].
    destruct (w_holder w') as [| | | | | |rec| | | | | |] eqn:Eh; try (left; intros ? Hd; discriminate Hd).
    destruct (Hp _ eq_refl) as [Erec Hsame]. rewrite Hsame. destruct Hi2 as [Hno|]; [left|by right]. intros rec' [= <-]. by apply Hno.
  - intros t n [Hi _] Hs site r g Hv Ht'. destruct (Hl _ _ _ Hv) as [Hold|(Hgen & Hne & Hns)]; [by apply (Hs _ _ _ Hold)|].
    subst t. destruct (Hi _ Hgen) as [|[|]]; [done|done|done].
  - intros t n k _ Hk. right. rewrite Ho in Hk. split; [by apply Hlive|by rewrite Hw].
Qed.

(** The held nodes when the registered ones stay. *)
Lemma held_same m m' h h' c :
  lm_signal_sites m' = lm_signal_sites m -> (forall o rest, h' = EraseSites o rest -> h = EraseSites o rest) -> held m h c -> held m' h' c.
Proof.
  intros Hns Hh [Hr He]. split; [by apply (registered_same m m')|]. intros o rest k Hh' Hk. rewrite Hns. eapply He; [by apply Hh|done].
Qed.

Lemma generation_at_put t g m u : (forall x, st_active_generation (g x) = st_active_generation x) ->
  generation_at (put_signal_target t g m) u = generation_at m u.
Proof.
  intros Hg. unfold generation_at. simpl. rewrite lookup_alter. case_decide; [subst u|done].
  destruct (lm_signal_targets m !! t); [|done]. simpl. by rewrite Hg.
Qed.

Lemma generation_at_heads m m' t : (forall u, option_Forall2 same_counts (lm_signal_targets m !! u) (lm_signal_targets m' !! u)) ->
  generation_at m' t = generation_at m t.
Proof. intros H. unfold generation_at. destruct (H t) as [x y (E & _)|]; [simpl; by rewrite E|done]. Qed.

Lemma is_Some_put_target t g m u : is_Some (lm_signal_targets m !! u) -> is_Some (lm_signal_targets (put_signal_target t g m) !! u).
Proof. intros Hu. simpl. rewrite lookup_alter. case_decide; [subst u|done]. by apply fmap_is_Some. Qed.

(** The obligations of the holder that only need the records' targets and the generations. *)
Lemma holder_ok_mono m m' h :
  sites_rel same_place (lm_sites m) (lm_sites m') -> lm_next_target_generation m <= lm_next_target_generation m' ->
  (forall u, is_Some (lm_targets m !! u) -> is_Some (lm_targets m' !! u)) ->
  (forall u, is_Some (lm_signal_targets m !! u) -> is_Some (lm_signal_targets m' !! u)) ->
  (forall u g, generation_at m u = Some g -> generation_at m' u = Some g \/ generation_at m' u = Some kSignalInvalidatingGeneration) ->
  (forall k, dead_site m k -> dead_site m' k) -> holder_ok m h -> holder_ok m' h.
Proof.
  intros Hs Hn Htg Ht Hg Hd.
  assert (Hrec : forall site t, record_of m site t -> record_of m' site t).
  { intros site t (r & Hr & E). destruct (rel_some _ _ _ _ _ Hs Hr) as (r' & Hr' & _ & E' & _). exists r'. split; [done|congruence]. }
  assert (Hin : forall g, in_generations m g -> in_generations m' g) by (unfold in_generations; lia).
  assert (Hval : forall site r g, record_of m site (ls_guest_target r) /\ is_Some (lm_targets m !! ls_guest_target r) /\ in_generations m g /\
      (generation_at m (ls_guest_target r) = Some g \/ generation_at m (ls_guest_target r) = Some kSignalInvalidatingGeneration) ->
    record_of m' site (ls_guest_target r) /\ is_Some (lm_targets m' !! ls_guest_target r) /\ in_generations m' g /\
      (generation_at m' (ls_guest_target r) = Some g \/ generation_at m' (ls_guest_target r) = Some kSignalInvalidatingGeneration)).
  { intros site r g (? & ? & ? & Hgen). split_and!; [auto..|]. destruct Hgen as [Hq|Hq]; apply Hg in Hq; tauto. }
  destruct h; simpl; try done; naive_solver.
Qed.

Lemma dead_same m m' k : same_links (lm_signal_storage m) (lm_signal_storage m') -> lm_signal_sites m' = lm_signal_sites m ->
  dead_site m k -> dead_site m' k.
Proof.
  intros Hs Hns Hd n x' Hn Hx'. rewrite Hns in Hn. destruct (node_back _ _ _ _ Hs Hx') as (x & Hx & _ & E & _). rewrite E. by eapply Hd.
Qed.

(** A step of the holder that keeps the lists and the code. *)
Lemma heads_is_Some (st st' : gmap Z SignalTarget) u : same_heads st st' -> is_Some (st !! u) -> is_Some (st' !! u).
Proof. intros Hs [x Hx]. specialize (Hs u). rewrite Hx in Hs. inversion Hs; subst. by eexists. Qed.

Lemma world_ok_calm w m' h' :
  world_ok w -> same_lists (w_m w) m' -> lm_code m' = lm_code (w_m w) ->
  lm_next_target_generation m' = lm_next_target_generation (w_m w) ->
  (forall t r, lm_targets m' !! t = Some r ->
     in_generations (w_m w) (lt_generation (tr_target r)) /\ is_Some (lm_signal_targets (w_m w) !! t)) ->
  counts_ok m' h' -> holder_ok m' h' ->
  (forall t g, generation_at m' t = Some g -> g = 0 \/ generation_at (w_m w) t = Some g) ->
  (forall rec, h' <> PublishCounted rec) ->
  (forall site r g, h' = LinkValid site r g ->
     generation_at (w_m w) (ls_guest_target r) = Some g /\ g <> 0 /\ g <> kSignalInvalidatingGeneration) ->
  (w_readers w <> 0%nat -> forall o rest, h' <> EraseSites o rest) ->
  world_ok (with_m m' h' w).
Proof.
  intros Hok Hsl Hc Hn Ht Hcnt Hh Hg Hp Hv He. pose proof Hsl as [S1 S2 S3 S4]. apply (world_ok_step w); simpl; try done.
  - eapply shape_calm; [exact Hsl|exact Hc|apply Hok].
  - rewrite Hn. apply Hok.
  - intros t r Hr. destruct (Ht _ _ Hr). unfold in_generations. rewrite Hn. split; [done|]. by eapply heads_is_Some.
  - intros Hr. apply harmless_holder; simpl; [done|intros t; exact (heads_is_Some _ _ t S3)|done|done|exact Hg| | | |].
    + intros rec Hrec. by destruct (Hp rec).
    + intros site r g Hrec. right. by eapply Hv.
    + intros t k. by apply (live_same_lists (w_m w) m').
    + intros c. apply held_same; [done|]. intros o rest Hrest. by destruct (He Hr o rest).
Qed.

Lemma counts_mono m m' h h' :
  (forall t x', lm_signal_targets m' !! t = Some x' -> exists x, lm_signal_targets m !! t = Some x /\
     st_linking_count x' = st_linking_count x /\ st_publishing_count x' = st_publishing_count x) ->
  linking_target h' = linking_target h -> publishing_target h' = publishing_target h -> counts_ok m h -> counts_ok m' h'.
Proof. intros Hs El Ep Hc t x' Hx'. destruct (Hs _ _ Hx') as (x & Hx & -> & ->). rewrite El, Ep. by apply Hc. Qed.

Lemma counts_same m m' h h' : lm_signal_targets m' = lm_signal_targets m ->
  linking_target h' = linking_target h -> publishing_target h' = publishing_target h -> counts_ok m h -> counts_ok m' h'.
Proof. intros E. apply counts_mono. rewrite E. eauto. Qed.

Lemma counts_generation m h t g : counts_ok m h -> counts_ok (put_signal_target t (set_generation g) m) h.
Proof.
  apply counts_mono; [|done..]. intros u x'. simpl. rewrite lookup_alter.
  destruct (decide (t = u)) as [<-|]; [|by eauto]. intros (x & Hx & ->)%fmap_Some. by exists x.
Qed.

(** The holder raises or lowers a count. *)
Lemma counts_change m h h' t g :
  (forall x, lm_signal_targets m !! t = Some x -> st_linking_count (g x) = (if decide (linking_target h' = Some t) then 1 else 0) /\
     st_publishing_count (g x) = (if decide (publishing_target h' = Some t) then 1 else 0)) ->
  (forall u, u <> t -> (linking_target h' = Some u <-> linking_target h = Some u) /\ (publishing_target h' = Some u <-> publishing_target h = Some u)) ->
  counts_ok m h -> counts_ok (put_signal_target t g m) h'.
Proof.
  intros Hg Hu Hc u x'. simpl. rewrite lookup_alter. destruct (decide (t = u)) as [Ht|Ht].
  - subst u. intros (x & Hx & ->)%fmap_Some. by apply Hg.
  - intros Hx. destruct (Hc _ _ Hx) as [-> ->]. destruct (Hu u ltac:(congruence)) as [H1 H2].
    rewrite (decide_ext (linking_target h' = Some u) (linking_target h = Some u)) by done.
    by rewrite (decide_ext (publishing_target h' = Some u) (publishing_target h = Some u)) by done.
Qed.

Lemma generation_same m m' t g : lm_signal_targets m' = lm_signal_targets m -> generation_at m' t = Some g -> g = 0 \/ generation_at m t = Some g.
Proof. unfold generation_at. intros ->. by right. Qed.

(** The records change, nothing else. *)
Lemma calm_records m s sg : sites_rel same_place (lm_sites m) s -> same_links (lm_signal_storage m) sg ->
  let m' := put_sites s (put_signal_storage sg m) in
  same_lists m m' /\ lm_code m' = lm_code m /\ lm_next_target_generation m' = lm_next_target_generation m /\
  lm_targets m' = lm_targets m /\ lm_signal_targets m' = lm_signal_targets m.
Proof. intros. split_and!; try done. by apply same_lists_sites. Qed.

Lemma MarkFar_effect site g m m' : MarkFar site g m = Ok (true, m') ->
  exists s sg, m' = put_sites s (put_signal_storage sg m) /\ sites_rel same_place (lm_sites m) s /\ same_links (lm_signal_storage m) sg.
Proof.
  intros H. unfold MarkFar, get, bind at 1 in H. destruct (ValidateMarkLocked m site g); [|done]. cbn [negb] in H.
  destruct (store_linked_run site false (put_sites (alter (set_state Far g false) site (lm_sites m)) m)) as (sg & Hrun & Hsg).
  unfold update_site in H. erewrite bind_run in H by reflexivity. erewrite bind_run in H by exact Hrun. injection H as <-.
  eexists _, sg. split_and!; [reflexivity| |done]. by apply rel_alter; [intros; by split_and!|].
Qed.

Lemma record_effect site st g b m m' : (update_site site (set_state st g b);;; store_linked site true) m = Ok (tt, m') ->
  exists s sg, m' = put_sites s (put_signal_storage sg m) /\ sites_rel same_place (lm_sites m) s /\ same_links (lm_signal_storage m) sg.
Proof.
  intros H. destruct (store_linked_run site true (put_sites (alter (set_state st g b) site (lm_sites m)) m)) as (sg & Hrun & Hsg).
  unfold update_site in H. erewrite bind_run in H by reflexivity. rewrite Hrun in H. injection H as <-.
  eexists _, sg. split_and!; [reflexivity| |done]. by apply rel_alter; [intros; by split_and!|].
Qed.

Lemma unlink_sites_effect l m rs m' : NoDup l -> unlink_sites l m = Ok (rs, m') ->
  exists s sg, m' = put_sites s (put_signal_storage sg m) /\ sites_rel same_place (lm_sites m) s /\ same_links (lm_signal_storage m) sg.
Proof.
  intros Hnd H. destruct (unlink_sites_run l m Hnd) as (s & sg & Hrun & Hs & Hsg). rewrite Hrun in H. injection H as _ <-.
  exists s, sg. split_and!; [done| |done]. intros k. rewrite Hs. case_decide; [|reflexivity].
  destruct (lm_sites m !! k); constructor. by split_and!.
Qed.

(** ** The steps of the holder *)

(** Records and flags change while the holder moves on without a count. *)
Lemma world_ok_records w m' h' s sg :
  world_ok w -> m' = put_sites s (put_signal_storage sg (w_m w)) ->
  sites_rel same_place (lm_sites (w_m w)) s -> same_links (lm_signal_storage (w_m w)) sg ->
  linking_target h' = linking_target (w_holder w) -> publishing_target h' = publishing_target (w_holder w) -> holder_ok m' h' ->
  (forall rec, h' <> PublishCounted rec) -> (forall site r g, h' <> LinkValid site r g) -> (forall o rest, h' <> EraseSites o rest) ->
  world_ok (with_m m' h' w).
Proof.
  intros Hok -> Hs Hsg El Ep Hh Hp Hv He. destruct (calm_records _ _ _ Hs Hsg) as (Hsl & Hc & Hn & Ht & Hst).
  apply world_ok_calm; [done|exact Hsl|exact Hc|exact Hn|by apply Hok| |exact Hh|by intros ? ? ?; right|exact Hp|by intros ? ? ? ?%Hv|by intros _].
  eapply counts_same; [exact Hst|done..|apply Hok].
Qed.

(** Only the program counter moves. *)
Lemma world_ok_pc w h' :
  world_ok w -> linking_target h' = linking_target (w_holder w) -> publishing_target h' = publishing_target (w_holder w) ->
  holder_ok (w_m w) h' -> (forall rec, h' <> PublishCounted rec) ->
  (forall site r g, h' = LinkValid site r g ->
     generation_at (w_m w) (ls_guest_target r) = Some g /\ g <> 0 /\ g <> kSignalInvalidatingGeneration) ->
  (w_readers w <> 0%nat -> forall o rest, h' <> EraseSites o rest) -> world_ok (with_m (w_m w) h' w).
Proof.
  intros Hok El Ep Hh Hp Hv He.
  apply world_ok_calm; [done|apply same_lists_refl|done|done|by apply Hok| |done|by intros ? ? ?; right|done|done|done].
  eapply counts_same; [done|done..|apply Hok].
Qed.

Lemma step_validate w site r g : world_ok w -> w_holder w = LinkCounted site r g ->
  world_ok (with_m (w_m w) (if ValidateTargetGeneration (w_m w) (ls_guest_target r) g then LinkValid site r g else LinkEnd (ls_guest_target r)) w).
Proof.
  intros Hok E. pose proof (wo_holder _ Hok) as Hh. rewrite E in Hh. destruct Hh as [Hrec _].
  destruct (ValidateTargetGeneration (w_m w) (ls_guest_target r) g) eqn:Hv.
  - apply ValidateTargetGeneration_spec, current_generation_spec in Hv as (rec & x & Hr & Hx & _ & Eg & Ex).
    assert (Hg : generation_at (w_m w) (ls_guest_target r) = Some g) by (unfold generation_at; rewrite Hx; simpl; congruence).
    assert (Hin : in_generations (w_m w) g) by (rewrite <- Eg; by apply (wo_targets _ Hok) in Hr as [? _]).
    pose proof (wo_next _ Hok). unfold in_generations in Hin.
    apply world_ok_pc; rewrite ?E; [done|done|done| |done| |done].
    + simpl. by eauto.
    + intros ? ? ? [= <- <- <-]. split_and!; [done|lia|lia].
  - apply world_ok_pc; rewrite ?E; done.
Qed.

Lemma step_recheck w site r g x : world_ok w -> w_holder w = LinkCommitted site r g ->
  world_ok (with_m (w_m w) (if st_active_generation x =? g then LinkActive site r g else LinkEnd (ls_guest_target r)) w).
Proof.
  intros Hok E. pose proof (wo_holder _ Hok) as Hh. rewrite E in Hh.
  destruct (st_active_generation x =? g); apply world_ok_pc; rewrite ?E; done.
Qed.

Lemma step_link_count w site g r rec : world_ok w -> w_holder w = Idle -> lm_sites (w_m w) !! site = Some r ->
  lm_targets (w_m w) !! ls_guest_target r = Some rec ->
  world_ok (with_m (put_signal_target (ls_guest_target r) (add_linking 1) (w_m w)) (LinkCounted site r g) w).
Proof.
  intros Hok E Hr Hrec. destruct (wo_targets _ Hok _ _ Hrec) as [_ Hx]. pose proof (wo_counts _ Hok) as Hcnt. rewrite E in Hcnt.
  apply world_ok_calm; [done|by apply same_lists_target|done|done|by apply Hok| | | |done|done|done].
  - refine (counts_change _ _ _ _ _ _ _ Hcnt); [|simpl; naive_solver]. intros x Ex. destruct (Hcnt _ _ Ex) as [E1 E2].
    rewrite decide_True by done. simpl in *. rewrite E1, E2. done.
  - split; [by exists r|by apply is_Some_put_target].
  - intros t n. rewrite generation_at_put by done. by right.
Qed.

Lemma step_link_end w t : world_ok w -> w_holder w = LinkEnd t ->
  world_ok (with_m (put_signal_target t (add_linking (-1)) (w_m w)) Idle w).
Proof.
  intros Hok E. pose proof (wo_counts _ Hok) as Hcnt. rewrite E in Hcnt.
  apply world_ok_calm; [done|by apply same_lists_target|done|done|by apply Hok| |done| |done|done|done].
  - refine (counts_change _ _ _ _ _ _ _ Hcnt); [|simpl; naive_solver]. intros x Ex. destruct (Hcnt _ _ Ex) as [E1 E2].
    simpl in *. rewrite decide_True in E1 by done. rewrite E1, E2. done.
  - intros u n. rewrite generation_at_put by done. by right.
Qed.

Lemma step_publish_end w rec published : world_ok w -> w_holder w = PublishEnd rec published ->
  world_ok (with_m (put_signal_target (lt_guest_target rec) (add_publishing (-1))
      (put_targets (<[lt_guest_target rec := mkTargetRecord rec published]> (lm_targets (w_m w))) (w_m w))) Idle w).
Proof.
  intros Hok E. pose proof (wo_counts _ Hok) as Hcnt. pose proof (wo_holder _ Hok) as Hh. rewrite E in Hcnt, Hh.
  apply world_ok_calm; [done| |done|done| | |done| |done|done|done].
  - split; [reflexivity|reflexivity|by apply same_heads_alter|done].
  - simpl. intros t r. rewrite lookup_insert. case_decide; [|by apply Hok]. intros [= <-]. by subst.
  - refine (counts_change (put_targets _ (w_m w)) (PublishEnd rec published) _ _ _ _ _ Hcnt); [|simpl; naive_solver]. intros x Ex. destruct (Hcnt _ _ Ex) as [E1 E2].
    simpl in *. rewrite decide_True in E2 by done. rewrite E1, E2. done.
  - intros u n. rewrite generation_at_put by done. by right.
Qed.

Lemma generation_zero m t u g : generation_at (put_signal_target t (set_generation 0) m) u = Some g -> g = 0 \/ generation_at m u = Some g.
Proof.
  unfold generation_at. simpl. rewrite lookup_alter. destruct (decide (t = u)) as [<-|]; [|by right].
  intros (y & (x & Hx & ->)%fmap_Some & ->)%fmap_Some. by left.
Qed.

Lemma step_invalidate w t rec : world_ok w -> w_holder w = Idle -> lm_targets (w_m w) !! t = Some rec ->
  world_ok (with_m (put_signal_target t (set_generation 0)
      (put_targets (<[t := mkTargetRecord (tr_target rec) false]> (lm_targets (w_m w))) (w_m w))) (InvalidateSites t) w).
Proof.
  intros Hok E Hrec. pose proof (wo_counts _ Hok) as Hcnt. rewrite E in Hcnt.
  apply world_ok_calm; [done| |done|done| | |done| |done|done|done].
  - split; [reflexivity|reflexivity|by apply same_heads_alter|done].
  - simpl. intros u r. rewrite lookup_insert. case_decide as Hu; [subst u|by apply Hok]. intros [= <-]. simpl. by apply (wo_targets _ Hok t rec).
  - by apply counts_generation.
  - intros u n. apply (generation_zero (put_targets _ (w_m w))).
Qed.

Lemma step_erase_targets w o : world_ok w -> w_holder w = EraseTargets o ->
  world_ok (with_m (put_outgoing (delete o (lm_outgoing (w_m w))) (drop_targets o (w_m w))) Idle w).
Proof.
  intros Hok E. pose proof (wo_counts _ Hok) as Hcnt. rewrite E in Hcnt.
  assert (Hst : forall u x', lm_signal_targets (drop_targets o (w_m w)) !! u = Some x' ->
    exists x, lm_signal_targets (w_m w) !! u = Some x /\ (x' = x \/ x' = set_generation 0 x)).
  { intros u x'. simpl. rewrite map_lookup_imap. intros (x & Hx & [= <-])%bind_Some. exists x. split; [done|].
    destruct (lm_targets (w_m w) !! u); [|by left]. case_decide; [by right|by left]. }
  apply world_ok_calm; [done| |done|done| | |done| |done|done|done].
  - split; [reflexivity|reflexivity| |done]. intros u. simpl. rewrite map_lookup_imap.
    destruct (lm_signal_targets (w_m w) !! u); constructor. destruct (lm_targets (w_m w) !! u); [|done]. by case_decide.
  - simpl. intros u r [Hr _]%map_lookup_filter_Some. by eapply (wo_targets _ Hok).
  - eapply counts_mono; [|done..|exact Hcnt]. intros u x' Hx'. destruct (Hst _ _ Hx') as (x & Hx & [->| ->]); by exists x.
  - intros u n. unfold generation_at. intros (x' & Hx' & ->)%fmap_Some.
    destruct (Hst _ _ Hx') as (x & Hx & [->| ->]); [right; by rewrite Hx|by left].
Qed.

Lemma GetOrCreate_effect t m x m' : GetOrCreateSignalTarget t m = Ok (x, m') ->
  lm_signal_targets m !! t = Some x /\ m' = m \/
  lm_signal_targets m !! t = None /\ x = new_signal_target /\ m' = put_signal_targets (<[t := new_signal_target]> (lm_signal_targets m)) m.
Proof.
  unfold GetOrCreateSignalTarget, get, bind. destruct (lm_signal_targets m !! t); intros [= <- <-]; [by left|by right].
Qed.

Lemma step_publish_count w rec x m' : world_ok w -> w_holder w = Idle -> lt_generation rec = lm_next_target_generation (w_m w) ->
  lm_next_target_generation (w_m w) < kSignalInvalidatingGeneration ->
  GetOrCreateSignalTarget (lt_guest_target rec) (put_next_target_generation (lm_next_target_generation (w_m w) + 1) (w_m w)) = Ok (x, m') ->
  world_ok (with_m (put_signal_target (lt_guest_target rec) (add_publishing 1) m') (PublishCounted rec) w).
Proof.
  intros Hok E Hgen Hlt Hrun. set (n := lm_next_target_generation (w_m w)) in *. set (t := lt_guest_target rec) in *.
  pose proof (wo_next _ Hok) as Hn. fold n in Hn.
  assert (Hm' : shape_ok m' (w_home w) (w_written w) /\ counts_ok m' Idle /\ lm_targets m' = lm_targets (w_m w) /\
    lm_next_target_generation m' = n + 1 /\ lm_signal_targets m' !! t = Some x /\ lm_signal_sites m' = lm_signal_sites (w_m w) /\
    lm_signal_storage m' = lm_signal_storage (w_m w) /\
    (forall u, is_Some (lm_signal_targets (w_m w) !! u) -> is_Some (lm_signal_targets m' !! u)) /\
    forall u g, generation_at m' u = Some g -> g = 0 \/ generation_at (w_m w) u = Some g).
  { pose proof (wo_counts _ Hok) as Hcnt. rewrite E in Hcnt.
    apply GetOrCreate_effect in Hrun as [[Hx ->]|(Hx & -> & ->)]; simpl in Hx.
    - split_and!; try done; [|by right]. apply (shape_calm (w_m w)); [|done|apply Hok]. split; [reflexivity|reflexivity|apply same_heads_refl|done].
    - split_and!; try done; simpl.
      + by eapply (shape_new_target (w_m w)); [apply Hok|].
      + intros u y. simpl. rewrite lookup_insert. case_decide; [by intros [= <-]|by apply Hcnt].
      + by rewrite lookup_insert_eq.
      + intros u Hu. rewrite lookup_insert. by case_decide.
      + intros u g. unfold generation_at. simpl. rewrite lookup_insert. case_decide; [|by right]. intros [= <-]. by left. }
  destruct Hm' as (Hs & Hcnt & Htg & Hnext & Hx & Hns & Hsg & Hsome & Hg).
  apply (world_ok_step w); simpl; try done.
  - apply (shape_calm m'); [|done|exact Hs]. by apply same_lists_target.
  - rewrite Hnext. lia.
  - intros u r. rewrite Htg. intros Hr. destruct (wo_targets _ Hok _ _ Hr) as [Hin Hu]. unfold in_generations in *. fold n in Hin. simpl. rewrite Hnext.
    split; [lia|]. apply (is_Some_put_target t (add_publishing 1) m'). by apply Hsome.
  - refine (counts_change _ Idle _ _ _ _ _ Hcnt); [|simpl; naive_solver]. intros y Hy. destruct (Hcnt _ _ Hy) as [E1 E2].
    simpl in *. rewrite (decide_True (P := Some t = Some t)) by done. rewrite E1, E2. done.
  - split; [unfold in_generations; simpl; rewrite Hnext, Hgen; lia|]. apply is_Some_put_target. fold t. by rewrite Hx.
  - intros _. split; simpl.
    + rewrite Hnext. fold n. lia.
    + intros u Hu. apply (is_Some_put_target t (add_publishing 1) m'). by apply Hsome.
    + done.
    + intros u k Hk _ rec' [= <-] _. rewrite Hgen. done.
    + intros u k Hk [Hi _]. split; [|left; intros rec' [= <-] _; rewrite Hgen; done].
      intros g. rewrite generation_at_put by done. intros [->|Hg']%Hg; [by left|by apply Hi].
    + by intros u k _ _ site r g Hv.
    + intros u k c _ (Hh & y & Hy & Hl). right. split; [|done]. split; [done|]. exists y. unfold node_at in *. simpl in Hy. by rewrite Hsg in Hy.
    + intros c. by apply held_same.
Qed.

Lemma publish_generation_effect t g m b m' : publish_generation t g m = Ok (b, m') ->
  exists x, lm_signal_targets m !! t = Some x /\
    ((st_active_generation x = kSignalInvalidatingGeneration /\ b = false /\ m' = m) \/
     (st_active_generation x <> kSignalInvalidatingGeneration /\ b = true /\ m' = put_signal_target t (set_generation g) m)).
Proof.
  unfold publish_generation, get, bind. destruct (lm_signal_targets m !! t) as [x|]; [|done]. intros H. exists x. split; [done|].
  destruct (Z.eqb_spec (st_active_generation x) kSignalInvalidatingGeneration); injection H as <- <-; [by left|by right].
Qed.

Lemma generation_at_set m t g x u : lm_signal_targets m !! t = Some x ->
  generation_at (put_signal_target t (set_generation g) m) u = if decide (u = t) then Some g else generation_at m u.
Proof.
  intros Hx. unfold generation_at. simpl. rewrite lookup_alter. case_decide as Ht; [subst u; rewrite Hx; by rewrite decide_True|].
  by rewrite decide_False by congruence.
Qed.

Lemma step_publish_swap w rec published m' : world_ok w -> w_holder w = PublishCounted rec ->
  publish_generation (lt_guest_target rec) (lt_generation rec) (w_m w) = Ok (published, m') ->
  world_ok (with_m m' (PublishEnd rec published) w).
Proof.
  intros Hok E Hrun. pose proof (wo_holder _ Hok) as Hh. rewrite E in Hh. destruct Hh as [Hin Hsome].
  pose proof (wo_counts _ Hok) as Hcnt. rewrite E in Hcnt.
  apply publish_generation_effect in Hrun as (x & Hx & [(Ex & -> & ->)|(Ex & -> & ->)]); [by apply world_ok_pc; rewrite ?E|].
  set (t := lt_guest_target rec) in *. set (g := lt_generation rec) in *.
  apply (world_ok_step w); simpl; try done.
  - apply (shape_calm (w_m w)); [|done|apply Hok]. by apply same_lists_target.
  - apply Hok.
  - intros u r Hr. destruct (wo_targets _ Hok _ _ Hr). split; [done|]. by apply (is_Some_put_target t (set_generation g) (w_m w)).
  - by apply counts_generation.
  - split; [done|]. by apply is_Some_put_target.
  - intros _. split; simpl; try done.
    + intros u. by apply (is_Some_put_target t (set_generation g) (w_m w)).
    + intros u n Hn [Hi Hp]. split; [|by left]. intros g'. rewrite (generation_at_set _ _ _ _ _ Hx). case_decide as Hu; [|by apply Hi].
      intros [= <-]. subst u. right; right. destruct Hp as [Hp|Hp]; [by apply Hp|]. unfold generation_at in Hp. rewrite Hx in Hp. simpl in Hp. congruence.
    + by intros u n k _ Hk; right.
    + intros c. by apply held_same.
Qed.

Lemma step_kill w o killed site todo m' : world_ok w -> w_holder w = KillSites o killed (site :: todo) ->
  (match lm_signal_sites (w_m w) !! site with Some n => update_node n (set_live false) | None => ret tt end) (w_m w) = Ok (tt, m') ->
  world_ok (with_m m' (KillSites o (site :: killed) todo) w).
Proof.
  intros Hok E Hrun%kill_effect. pose proof (wo_holder _ Hok) as Hh. rewrite E in Hh. simpl in Hh.
  destruct (lm_signal_sites (w_m w) !! site) as [n|] eqn:Hn; subst m'.
  - apply (world_ok_step w); simpl; try done; [apply shape_kill, Hok|apply Hok|apply Hok| | |].
    + apply (counts_same (w_m w) _ (w_holder w)); [done|by rewrite E..|apply Hok].
    + intros k Hk m x. unfold node_at. simpl. rewrite list_lookup_alter. intros Hm.
      destruct (decide (n = m)) as [<-|Hne]; [by intros (y & _ & ->)%fmap_Some|]. intros Hx.
      apply elem_of_cons in Hk as [->|Hk]; [congruence|by apply (Hh k Hk m)].
    + intros _. apply harmless_holder; simpl; try done.
      * by intros t g Hg; right.
      * intros t k (Hl & x & Hx & Hlive). split; [done|]. unfold node_at in *. simpl in Hx. rewrite list_lookup_alter in Hx.
        destruct (decide (n = k)) as [<-|]; [|by exists x]. apply fmap_Some in Hx as (y & _ & ->). done.
      * intros c. by apply held_same.
  - apply world_ok_pc; rewrite ?E; try done. simpl. intros k [->|Hk]%elem_of_cons; [|by apply Hh]. intros n x Hn'. congruence.
Qed.

Lemma step_erase w o site rest n m' : world_ok w -> w_holder w = EraseSites o (site :: rest) ->
  purge_site site (w_m w) = Ok (n, m') -> world_ok (with_m m' (EraseSites o rest) w).
Proof.
  intros Hok E Hrun. pose proof (wo_holder _ Hok) as Hh. rewrite E in Hh. simpl in Hh.
  destruct (purge_site_effect _ _ _ _ _ _ (wo_shape _ Hok) (Hh site ltac:(left)) Hrun) as (Hs & Hns & Hc & Hsg & Ht & Hn & Hst).
  assert (Hback : forall k x', node_at m' k = Some x' -> exists x, node_at (w_m w) k = Some x /\ ss_live x' = ss_live x).
  { intros k x' Hx'. pose proof (Hsg k) as Hk. unfold node_at in *. rewrite Hx' in Hk. inversion Hk as [x ? [El _] Hx|]; subst. by exists x. }
  assert (Hsome : forall t, is_Some (lm_signal_targets (w_m w) !! t) -> is_Some (lm_signal_targets m' !! t)).
  { intros t [x Hx]. specialize (Hst t). rewrite Hx in Hst. inversion Hst; subst. by eexists. }
  apply (world_ok_step w); simpl; try done.
  - rewrite Hn. apply Hok.
  - intros t r. rewrite Ht. intros Hr. destruct (wo_targets _ Hok _ _ Hr). unfold in_generations. rewrite Hn. auto.
  - eapply (counts_mono (w_m w) _ (w_holder w)); [|by rewrite E..|apply Hok]. intros t x' Hx'. pose proof (Hst t) as Hk. rewrite Hx' in Hk.
    inversion Hk as [x ? (_ & E1 & E2) Hx|]; subst. by exists x.
  - intros k Hk c x Hc' Hx. rewrite Hns in Hc'. apply lookup_delete_Some in Hc' as [_ Hc']. destruct (Hback _ _ Hx) as (y & Hy & ->).
    apply (Hh k ltac:(by right) c y Hc' Hy).
  - intros _. apply harmless_holder; simpl; try done.
    + intros t g. rewrite (generation_at_heads (w_m w)) by done. by right.
    + intros t k (Hl & x & Hx & Hlive). split; [done|]. destruct (Hback _ _ Hx) as (y & Hy & Ey). exists y. split; [done|congruence].
    + intros c [[k Hk] He]. split.
      * exists k. rewrite Hns. apply lookup_delete_Some. split; [|done]. intros <-. apply (He _ _ site E); [by left|done].
      * intros o' rest' k' [= <- <-] Hk'. rewrite Hns. intros [_ Hc']%lookup_delete_Some. apply (He _ _ k' E); [by right|done].
Qed.

Lemma PatchDirectBranch_effect r rx rw insn c b c' : PatchDirectBranch r rx rw insn c = Ok (b, c') ->
  b = true /\ c' = <[rw := insn]> c \/ b = false /\ c' = c /\ Z.land insn kBranchOpcodeMask <> kBranchOpcode.
Proof.
  unfold PatchDirectBranch. destruct (Z.eqb_spec (Z.land insn kBranchOpcodeMask) kBranchOpcode); cbn [negb].
  - intros H. apply bind_ok in H as (u & c1 & H1 & H). injection H as <- <-. left. split; [done|].
    unfold PatchCodeWord in H1. repeat (apply bind_ok in H1 as (? & ? & Hg & H1); apply guard_ok in Hg as [_ ->]).
    by injection H1 as _ <-.
  - intros [= <- <-]. by right.
Qed.

Lemma step_commit w site r g n node insn c : world_ok w ->
  w_holder w = LinkValid site r g -> lm_signal_sites (w_m w) !! site = Some n -> node_at (w_m w) n = Some node ->
  PatchDirectBranch (ps_region (ss_patch node)) (ps_rx_site (ss_patch node)) (word_of node) insn (lm_code (w_m w)) = Ok (true, c) ->
  world_ok (with_word n (Some g) (put_code c (w_m w)) (LinkCommitted site r g) w).
Proof.
  intros Hok E Hn Hnode [[_ ->]|[? _]]%PatchDirectBranch_effect; [|done].
  pose proof (wo_holder _ Hok) as Hh. rewrite E in Hh.
  assert (Hhome : w_home w !! n = Some (ls_guest_target r)).
  { destruct Hh as ((r' & Hr' & Et) & _). destruct (sh_site _ _ _ (wo_shape _ Hok) _ _ Hn) as (r0 & Hr0 & Hh0). congruence. }
  apply (world_ok_step w); simpl; try done; [|apply Hok|apply Hok| |].
  - eapply shape_word; [apply Hok|by exists site|exact Hnode|done|done].
  - apply (counts_same (w_m w) _ (w_holder w)); [done|by rewrite E..|apply Hok].
  - intros _. split; simpl; try done.
    + intros t k Hk [Hi _]. split; [done|by left].
    + intros t k c' Hs Hl. destruct (decide (c' = n)) as [->|Hne].
      * left. unfold clean. simpl. rewrite lookup_partial_alter_eq. apply (Hs site r g E). destruct Hl as [Hl _]. simpl in Hl. congruence.
      * right. split; [done|]. unfold clean. simpl. by rewrite lookup_partial_alter_ne.
    + intros c'. by apply held_same.
Qed.

Lemma step_register w site t owner s kind flags m' : world_ok w -> w_holder w = Idle -> fresh_site (w_m w) s ->
  RegisterSite site t owner (Some s) kind flags (w_m w) = Ok (true, m') ->
  world_ok (mkWorld m' (w_home w ++ [t]) (delete (length (w_home w)) (w_written w)) (w_readers w) Idle (w_handlers w)).
Proof.
  intros Hok E Hfresh Hrun. pose proof (shape_register _ _ _ _ _ _ _ _ _ _ (wo_shape _ Hok) Hfresh Hrun) as Hs.
  apply RegisterSite_effect in Hrun as (_ & Hnew & _ & Hns & Hsg & Hst & Hc & Ht & Hn).
  set (x := default new_signal_target (lm_signal_targets (w_m w) !! t)) in *.
  pose proof (sh_length _ _ _ (wo_shape _ Hok)) as Hlen. pose proof (wo_counts _ Hok) as Hcnt. rewrite E in Hcnt.
  assert (Hsome : forall u, is_Some (lm_signal_targets (w_m w) !! u) -> is_Some (lm_signal_targets m' !! u)).
  { intros u Hu. rewrite Hst, lookup_insert. by case_decide. }
  assert (Hgen : forall u g, generation_at m' u = Some g -> g = 0 \/ generation_at (w_m w) u = Some g).
  { intros u g. unfold generation_at. rewrite Hst, lookup_insert. case_decide; [subst u|by right]. simpl. intros [= <-]. unfold x.
    destruct (lm_signal_targets (w_m w) !! t); [by right|by left]. }
  apply (world_ok_step w); simpl; try done.
  - rewrite Hn. apply Hok.
  - intros u r. rewrite Ht. intros Hr. destruct (wo_targets _ Hok _ _ Hr). unfold in_generations. rewrite Hn. auto.
  - intros u y. rewrite Hst. intros [[<- <-]|[_ Hy]]%lookup_insert_Some; [|by apply Hcnt]. simpl. unfold x.
    destruct (lm_signal_targets (w_m w) !! t) eqn:Ex; [by apply (Hcnt t)|done].
  - intros _. split; simpl; try done.
    + rewrite Hn. done.
    + intros c u Hu. by apply lookup_app_l_Some.
    + intros u k Hk [Hi _]. split; [|by left]. intros g [->|Hg]%Hgen; [by left|by apply Hi].
    + intros u k c _ Hl. destruct (live_node_push _ _ _ _ _ _ _ Hlen Hsg Hl) as [[-> _]|Hl'].
      * left. unfold clean. by rewrite lookup_delete_eq.
      * right. split; [done|]. unfold clean. destruct Hl' as [Hh _]. apply lookup_lt_Some in Hh. by rewrite lookup_delete_ne by lia.
    + intros c [[k Hk] _]. split; [|by intros ? ? ? [=]]. exists k. rewrite Hns. rewrite lookup_insert_ne; [done|].
      intros <-. destruct (sh_site _ _ _ (wo_shape _ Hok) _ _ Hk) as (r & Hr & _). congruence.
Qed.

Lemma holder_step_ok w w' : holder_step w w' -> world_ok w -> world_ok w'.
Proof.
  intros Hstep Hok. pose proof (wo_holder _ Hok) as Hh. destruct Hstep; try rewrite H in Hh.
  - by eapply step_register.
  - apply MarkFar_effect in H0 as (s & sg & -> & Hs & Hsg). eapply world_ok_records; rewrite ?H; done.
  - by eapply step_link_count.
  - by apply step_validate.
  - by eapply step_commit.
  - apply world_ok_pc; rewrite ?H; done.
  - by apply step_recheck.
  - apply record_effect in H1 as (s & sg & -> & Hs & Hsg). eapply world_ok_records; rewrite ?H; done.
  - by apply step_link_end.
  - by eapply step_publish_count.
  - by apply step_publish_swap.
  - by apply step_publish_end.
  - by apply step_invalidate.
  - apply unlink_sites_effect in H0 as (s & sg & -> & Hs & Hsg); [|apply NoDup_elements]. eapply world_ok_records; rewrite ?H; done.
  - unfold DetachSource, get, bind at 1 in H0. destruct (lm_outgoing (w_m w) !! o) as [g|] eqn:Hg; [|injection H0 as _ <-; apply world_ok_pc; rewrite ?H; done].
    apply bind_ok in H0 as (u & m1 & H1 & H0). injection H1 as _ <-. apply bind_ok in H0 as (u' & m2 & H1 & H0). injection H0 as _ <-.
    destruct (update_sites_run retire_site (elements (og_sites g)) (put_outgoing (<[o := mkOutgoing (og_sites g) true]> (lm_outgoing (w_m w))) (w_m w)) (NoDup_elements _)) as (s & Hrun & Hs).
    rewrite Hrun in H1. injection H1 as _ <-. simpl in Hs.
    apply world_ok_calm; [done| |done|done|apply Hok| |done|by intros ? ? ?; right|done|done|done].
    + split; [|reflexivity|apply same_heads_refl|done]. intros k. simpl. rewrite Hs. case_decide; [|reflexivity].
      destruct (lm_sites (w_m w) !! k); constructor. by split_and!.
    + apply (counts_same (w_m w) _ (w_holder w)); [done|by rewrite H..|apply Hok].
  - apply world_ok_pc; rewrite ?H; try done. by intros k Hk%not_elem_of_nil.
  - by eapply step_kill.
  - apply world_ok_pc; rewrite ?H; done.
  - apply world_ok_pc; rewrite ?H; done.
  - by eapply step_erase.
  - apply world_ok_pc; rewrite ?H; done.
  - by apply step_erase_targets.
Qed.
