(* ===== verification/LinkSignalRace.v ===== *)
(** * Direct links: what a finished handler leaves

    The handlers' half of the invariant of LinkSignalSafe.v, and the theorems on all
    reachable interleavings: no stale branch survives an invalidation, a handler writes to
    registered sites only, is never stuck, and takes finitely many steps. *)

From Stdlib Require Import ZArith Lia.
From stdpp Require Import numbers base gmap sets list relations.
From S2P Require Import Prelude MachineInt LinkManager LinkInvariant LinkManagerProps LinkPurge LinkSignal LinkSignalProps LinkSignalSafe.

Local Open Scope Z_scope.
Local Open Scope svm_scope.

(** ** The steps of a handler *)

(** Handler [i] moves to [x]; the others see a harmless step. *)
Lemma world_ok_handler w i x m' written :
  world_ok w -> is_Some (w_handlers w !! i) ->
  let w' := mkWorld m' (w_home w) written (w_readers w) (w_holder w) (<[i := x]> (w_handlers w)) in
  shape_ok m' (w_home w) written -> lm_next_target_generation m' = lm_next_target_generation (w_m w) ->
  lm_targets m' = lm_targets (w_m w) -> (forall t, is_Some (lm_signal_targets (w_m w) !! t) -> is_Some (lm_signal_targets m' !! t)) ->
  counts_ok m' (w_holder w) -> holder_ok m' (w_holder w) -> harmless w w' -> handler_ok w' x -> world_ok w'.
Proof.
  intros [H1 H2 H3 H4 H5 H6 H7] Hi w' Hs Hn Ht Hsome Hc Hh Hharm Hx. split; simpl; try done.
  - by rewrite Hn.
  - intros t r. rewrite Ht. intros Hr. destruct (H3 _ _ Hr). unfold in_generations. rewrite Hn. auto.
  - rewrite H6. symmetry. by apply map_size_insert_Some.
  - intros j h [[<- <-]|[Hne Hj]]%lookup_insert_Some; [done|]. eapply handler_harmless; [exact Hharm|by eapply H7].
Qed.

Lemma harmless_handlers w m' written r hs :
  lm_next_target_generation m' = lm_next_target_generation (w_m w) ->
  (forall t, is_Some (lm_signal_targets (w_m w) !! t) -> is_Some (lm_signal_targets m' !! t)) ->
  (forall t g, generation_at m' t = Some g -> g = kSignalInvalidatingGeneration \/ generation_at (w_m w) t = Some g) ->
  (forall t, generation_at (w_m w) t = Some kSignalInvalidatingGeneration -> generation_at m' t = Some kSignalInvalidatingGeneration) ->
  (forall t k, live_node m' (w_home w) t k -> live_node (w_m w) (w_home w) t k) ->
  lm_signal_sites m' = lm_signal_sites (w_m w) ->
  (forall n k, clean (w_written w) n k -> clean written n k) ->
  harmless w (mkWorld m' (w_home w) written r (w_holder w) hs).
Proof.
  intros Hn Hsome Hg Hinv Hl Hns Hw. split; simpl; try done.
  - by rewrite Hn.
  - intros t n Hle [Hi Hp]. split; [|destruct Hp as [|Hp]; [by left|right; by apply Hinv]].
    intros g [->|Hg']%Hg; [by right; left|by apply Hi].
  - intros t n k _ Hk. right. split; [by apply Hl|apply Hw].
  - intros c. by apply held_same.
Qed.

(** A handler reads. *)
Lemma world_ok_read w i x : world_ok w -> is_Some (w_handlers w !! i) -> handler_ok w x -> world_ok (with_handler i x (w_m w) w).
Proof.
  intros Hok Hi Hx. apply world_ok_handler; try done; [apply Hok|apply Hok|apply Hok|].
  apply harmless_handlers; try done. by intros t g Hg; right.
Qed.

Lemma generation_sentinel m t u g : generation_at (put_signal_target t (set_generation kSignalInvalidatingGeneration) m) u = Some g ->
  g = kSignalInvalidatingGeneration \/ generation_at m u = Some g.
Proof.
  unfold generation_at. simpl. rewrite lookup_alter. destruct (decide (t = u)) as [<-|]; [|by right].
  intros (y & (x & Hx & ->)%fmap_Some & ->)%fmap_Some. by left.
Qed.

Lemma step_store w i t n : world_ok w -> w_handlers w !! i = Some (HStore t n) ->
  world_ok (with_handler i (HHead t n false) (put_signal_target t (set_generation kSignalInvalidatingGeneration) (w_m w)) w).
Proof.
  intros Hok Hi. pose proof (wo_handlers _ Hok _ _ Hi) as [Hn [x Hx]].
  set (m' := put_signal_target t (set_generation kSignalInvalidatingGeneration) (w_m w)).
  assert (Hsome : forall u, is_Some (lm_signal_targets (w_m w) !! u) -> is_Some (lm_signal_targets m' !! u)) by (intros u; apply is_Some_put_target).
  assert (Hinv : forall u, generation_at (w_m w) u = Some kSignalInvalidatingGeneration -> generation_at m' u = Some kSignalInvalidatingGeneration).
  { intros u. unfold m'. rewrite (generation_at_set _ _ _ _ _ Hx). by destruct (decide (u = t)). }
  apply world_ok_handler; try done; [apply (shape_calm (w_m w)); [by apply same_lists_target|done|apply Hok]|by apply counts_generation; apply Hok| | |].
  - apply (holder_ok_mono (w_m w)); [reflexivity|done|done|done| | |apply Hok].
    + intros u g Hg. destruct (decide (u = t)) as [->|Hu]; [right|left]; unfold m'; rewrite (generation_at_set _ _ _ _ _ Hx).
      * by rewrite decide_True.
      * by rewrite decide_False.
    + done.
  - apply harmless_handlers; try done. intros u g. apply generation_sentinel.
  - split_and!; [done|by apply Hsome; eexists| |done]. assert (Hg : generation_at m' t = Some kSignalInvalidatingGeneration).
    { unfold m'. rewrite (generation_at_set _ _ _ _ _ Hx). by rewrite decide_True. }
    split; [intros g Hg'; right; left; simpl in Hg'; congruence|by right].
Qed.

(** Nothing but words and handlers changes. *)
Lemma harmless_words w c written r hs :
  (forall n k, clean (w_written w) n k -> clean written n k) ->
  harmless w (mkWorld (put_code c (w_m w)) (w_home w) written r (w_holder w) hs).
Proof. intros Hw. apply harmless_handlers; try done. by intros t g Hg; right. Qed.

Lemma harmless_same w r hs : harmless w (mkWorld (w_m w) (w_home w) (w_written w) r (w_holder w) hs).
Proof. apply harmless_handlers; try done. by intros t g Hg; right. Qed.

(** The nodes of [t] above where its list goes on are not live. *)
Lemma clean_head w t x n : world_ok w -> lm_signal_targets (w_m w) !! t = Some x ->
  clean_from (w_m w) (w_home w) (w_written w) t n (match st_sites x with Some c => S c | None => 0%nat end).
Proof.
  intros Hok Hx k Hk Hb. pose proof (sh_head _ _ _ (wo_shape _ Hok) _ _ Hx) as Hl. pose proof Hk as [Hh%lookup_lt_Some _].
  destruct (st_sites x) as [y|]; simpl in Hl; [destruct Hl as (_ & _ & Hl); specialize (Hl k Hk Hh); lia|]. specialize (Hl k Hk). lia.
Qed.

Lemma clean_next w t c node n : world_ok w -> node_at (w_m w) c = Some node -> w_home w !! c = Some t ->
  clean_from (w_m w) (w_home w) (w_written w) t n c ->
  clean_from (w_m w) (w_home w) (w_written w) t n (match ss_next node with Some y => S y | None => 0%nat end).
Proof.
  intros Hok Hnode Hc Hfrom k Hk Hb. pose proof (sh_next _ _ _ (wo_shape _ Hok) _ _ _ Hnode Hc) as Hl.
  destruct (decide (c <= k)%nat) as [|Hlt]; [by apply Hfrom|].
  destruct (ss_next node) as [y|]; simpl in Hl; [destruct Hl as (_ & _ & Hl); specialize (Hl k Hk); lia|]. specialize (Hl k Hk). lia.
Qed.

Lemma links_home w t link b : links_to (w_m w) (w_home w) t link b -> forall c, link = Some c -> w_home w !! c = Some t.
Proof. intros Hl c ->. by destruct Hl as (_ & ? & _). Qed.

Lemma step_find w i t n : world_ok w -> w_handlers w !! i = Some (HFind t n) ->
  world_ok (with_handler i (match lm_signal_targets (w_m w) !! t with Some _ => HLoadPublishing t n | None => HFinish t n end) (w_m w) w).
Proof.
  intros Hok Hi. pose proof (wo_handlers _ Hok _ _ Hi) as Hn. pose proof (wo_holder _ Hok) as Hh.
  apply world_ok_read; [done|by eexists|]. destruct (lm_signal_targets (w_m w) !! t) as [x|] eqn:Hx; [by split; eauto|].
  assert (Hg : generation_at (w_m w) t = None) by (unfold generation_at; by rewrite Hx).
  split; [done|]. split.
  - split; [intros g; congruence|]. left. intros rec E <-. rewrite E in Hh. destruct Hh as [_ Hh]. rewrite Hx in Hh. by destruct Hh.
  - intros _. split.
    + intros site r g E Et. rewrite E in Hh. destruct Hh as (_ & _ & _ & [Hh|Hh]); rewrite Et in Hh; congruence.
    + intros k [Hk _] _. apply (sh_target _ _ _ (wo_shape _ Hok)) in Hk. rewrite Hx in Hk. by destruct Hk.
Qed.

Lemma step_load_publishing w i t n x : world_ok w -> w_handlers w !! i = Some (HLoadPublishing t n) -> lm_signal_targets (w_m w) !! t = Some x ->
  world_ok (with_handler i (if st_publishing_count x =? 0 then HLoadActive t n else HStore t n) (w_m w) w).
Proof.
  intros Hok Hi Hx. pose proof (wo_handlers _ Hok _ _ Hi) as [Hn Ht]. apply world_ok_read; [done|by eexists|].
  destruct (Z.eqb_spec (st_publishing_count x) 0) as [Hz|]; [|done]. split_and!; [done..|].
  intros rec E Et. destruct (wo_counts _ Hok _ _ Hx) as [_ Hc]. rewrite E in Hc. simpl in Hc. rewrite decide_True in Hc by congruence. lia.
Qed.

Lemma step_load_active w i t n x : world_ok w -> w_handlers w !! i = Some (HLoadActive t n) -> lm_signal_targets (w_m w) !! t = Some x ->
  world_ok (with_handler i (if st_active_generation x =? 0 then HHead t n false else HStore t n) (w_m w) w).
Proof.
  intros Hok Hi Hx. pose proof (wo_handlers _ Hok _ _ Hi) as (Hn & Ht & Hno). apply world_ok_read; [done|by eexists|].
  destruct (Z.eqb_spec (st_active_generation x) 0) as [Hz|]; [|done]. split_and!; [done..| |done].
  split; [|by left]. intros g. unfold generation_at. rewrite Hx. simpl. rewrite Hz. intros [= <-]. by left.
Qed.

Lemma step_head w i t n second x : world_ok w -> w_handlers w !! i = Some (HHead t n second) -> lm_signal_targets (w_m w) !! t = Some x ->
  world_ok (with_handler i (HLive t n second (st_sites x)) (w_m w) w).
Proof.
  intros Hok Hi Hx. pose proof (wo_handlers _ Hok _ _ Hi) as (Hn & Ht & Hinv & Hs). apply world_ok_read; [done|by eexists|].
  split_and!; [done..| |].
  - eapply links_home. by apply (sh_head _ _ _ (wo_shape _ Hok)).
  - split; [done|]. intros E. split; [by apply Hs|by apply clean_head].
Qed.

Lemma step_live w i t n second c node : world_ok w -> w_handlers w !! i = Some (HLive t n second (Some c)) -> node_at (w_m w) c = Some node ->
  world_ok (with_handler i (if ss_live node then (if second then HPatch t n second c else HExchange t n second c) else HNext t n second c) (w_m w) w).
Proof.
  intros Hok Hi Hnode. pose proof (wo_handlers _ Hok _ _ Hi) as (Hn & Ht & Hc & Hw). specialize (Hc c eq_refl).
  apply world_ok_read; [done|by eexists|]. destruct (ss_live node) eqn:Hl.
  - assert (Hheld : held (w_m w) (w_holder w) c).
    { split; [by eapply (sh_live _ _ _ (wo_shape _ Hok))|]. intros o rest k E Hk Hck. pose proof (wo_holder _ Hok) as Hh. rewrite E in Hh.
      pose proof (Hh k Hk c node Hck Hnode). congruence. }
    destruct second; by split_and!.
  - destruct Hw as [Hinv Hs]. split_and!; [done..|]. split; [done|]. intros E. destruct (Hs E) as [Hset Hfrom]. split; [done|].
    intros k Hk Hck. destruct (decide (k = c)) as [->|]; [|apply Hfrom; [done|lia]]. destruct Hk as (_ & y & Hy & Hly). congruence.
Qed.

Lemma step_next w i t n second c node : world_ok w -> w_handlers w !! i = Some (HNext t n second c) -> node_at (w_m w) c = Some node ->
  world_ok (with_handler i (HLive t n second (ss_next node)) (w_m w) w).
Proof.
  intros Hok Hi Hnode. pose proof (wo_handlers _ Hok _ _ Hi) as (Hn & Ht & Hc & Hinv & Hs). apply world_ok_read; [done|by eexists|].
  split_and!; [done..| |].
  - eapply links_home. by apply (sh_next _ _ _ (wo_shape _ Hok) c).
  - split; [done|]. intros E. destruct (Hs E) as [Hset Hfrom]. split; [done|]. by eapply clean_next.
Qed.

Lemma step_wait w i t n x : world_ok w -> w_handlers w !! i = Some (HWait t n) -> lm_signal_targets (w_m w) !! t = Some x ->
  st_linking_count x = 0 -> world_ok (with_handler i (HHead t n true) (w_m w) w).
Proof.
  intros Hok Hi Hx Hz. pose proof (wo_handlers _ Hok _ _ Hi) as (Hn & Ht & Hinv). apply world_ok_read; [done|by eexists|].
  split_and!; [done..|]. intros _ site r g E Et. destruct (wo_counts _ Hok _ _ Hx) as [Hc _]. rewrite E in Hc. simpl in Hc.
  rewrite decide_True in Hc by congruence. lia.
Qed.

Lemma step_exchange w i t n second c : world_ok w -> w_handlers w !! i = Some (HExchange t n second c) ->
  world_ok (with_handler i (HPatch t n second c) (put_node c (set_linked false) (w_m w)) w).
Proof.
  intros Hok Hi. pose proof (wo_handlers _ Hok _ _ Hi) as Hh.
  assert (Hl : same_lists (w_m w) (put_node c (set_linked false) (w_m w))).
  { split; [reflexivity| |apply same_heads_refl|done]. by apply same_links_alter. }
  assert (Hharm : harmless w (mkWorld (put_node c (set_linked false) (w_m w)) (w_home w) (w_written w) (w_readers w) (w_holder w)
    (<[i := HPatch t n second c]> (w_handlers w)))).
  { apply harmless_handlers; try done; [by intros u g Hg; right|]. intros u k. by apply (live_same_lists (w_m w) (put_node c (set_linked false) (w_m w))). }
  apply world_ok_handler; try done; [by eapply shape_calm; [exact Hl|done|apply Hok]|apply Hok| |].
  - apply (holder_ok_mono (w_m w)); [reflexivity|done|done|done|by left| |apply Hok]. intros k. apply dead_same; [apply Hl|done].
  - by apply (handler_harmless w _ (HPatch t n second c)) in Hharm.
Qed.

Lemma step_patch w i t n second c node code b : world_ok w -> w_handlers w !! i = Some (HPatch t n second c) -> node_at (w_m w) c = Some node ->
  PatchDirectBranch (ps_region (ss_patch node)) (ps_rx_site (ss_patch node)) (word_of node) (ps_unlinked_bl (ss_patch node)) (lm_code (w_m w)) = Ok (b, code) ->
  world_ok (with_word c None (put_code code (w_m w)) (w_holder w) (with_handler i (HNext t n second c) (w_m w) w)).
Proof.
  intros Hok Hi Hnode Hrun. pose proof (wo_handlers _ Hok _ _ Hi) as (Hn & Ht & Hc & Hheld & Hinv & Hs).
  apply PatchDirectBranch_effect in Hrun as [[_ ->]|(_ & _ & Hbad)].
  2: { by destruct (sh_patches _ _ _ (wo_shape _ Hok) _ _ Hnode) as (_ & Hop & _). }
  assert (Hclean : forall n' k, clean (w_written w) n' k -> clean (partial_alter (fun _ => None) c (w_written w)) n' k).
  { intros n' k. unfold clean. rewrite lookup_partial_alter. by destruct (decide (c = k)). }
  apply (world_ok_handler w i (HNext t n second c) _ _ Hok); try done; [ |apply Hok| |by apply harmless_words|].
  - eapply shape_word; [apply Hok|apply Hheld|exact Hnode|done|done].
  - apply (holder_ok_mono (w_m w)); [reflexivity|done|done|done|by left|done|apply Hok].
  - split_and!; [done..|]. split; [done|]. intros E. destruct (Hs E) as [Hset Hfrom]. split; [done|].
    intros k Hk Hck. simpl in *. destruct (decide (k = c)) as [->|]; [unfold clean; simpl; by rewrite lookup_partial_alter_eq|].
    apply Hclean, Hfrom; [exact Hk|lia].
Qed.

Lemma step_start w i t : world_ok w -> w_handlers w !! i = None ->
  world_ok (mkWorld (w_m w) (w_home w) (w_written w) (S (w_readers w)) (w_holder w)
    (<[i := HFind t (lm_next_target_generation (w_m w))]> (w_handlers w))).
Proof.
  intros [H1 H2 H3 H4 H5 H6 H7] Hi. split; simpl; try done.
  - by rewrite map_size_insert_None, H6.
  - intros j h [[<- <-]|[Hne Hj]]%lookup_insert_Some; [simpl; lia|]. eapply handler_harmless; [|by eapply H7]. by apply harmless_same.
Qed.

Lemma step_finish w i h : world_ok w -> w_handlers w !! i = Some h ->
  world_ok (mkWorld (w_m w) (w_home w) (w_written w) (Nat.pred (w_readers w)) (w_holder w) (delete i (w_handlers w))).
Proof.
  intros [H1 H2 H3 H4 H5 H6 H7] Hi. split; simpl; try done.
  - rewrite map_size_delete, Hi, H6. simpl. lia.
  - intros j h' [Hne Hj]%lookup_delete_Some. eapply handler_harmless; [|by eapply H7]. by apply harmless_same.
Qed.

Lemma handler_step_ok i w w' : handler_step i w w' -> world_ok w -> world_ok w'.
Proof.
  intros Hstep Hok. destruct Hstep.
  - by apply step_start.
  - by apply step_find.
  - by apply step_load_publishing.
  - by apply step_load_active.
  - by apply step_store.
  - by apply step_head.
  - apply world_ok_read; [done|by eexists|]. destruct (wo_handlers _ Hok _ _ H) as (Hn & Ht & _ & Hinv & Hs).
    destruct second; by split_and!.
  - by apply step_live.
  - by apply step_exchange.
  - by eapply step_patch.
  - by eapply step_next.
  - by eapply step_wait.
  - by eapply step_finish.
Qed.

Lemma outside_step_ok w w' : outside_step w w' -> world_ok w -> world_ok w'.
Proof.
  intros Hstep Hok. pose proof Hok as [H1 H2 H3 H4 H5 H6 H7]. destruct Hstep as [w a word Hfree|w n node Hn Hnode].
  - apply (world_ok_step w); try done; [|by intros _; apply harmless_words]. apply (shape_same_lists (w_m w) _ _ (w_written w)); [|exact H1|].
    + split; [reflexivity|reflexivity|apply same_heads_refl|done].
    + intros n node Hn Hnode Hw. simpl. rewrite lookup_insert_ne; [by apply (sh_written _ _ _ H1 n)|]. intros E. by apply (Hfree n node Hn Hnode).
  - apply (world_ok_step w); try done; [by eapply shape_word|]. intros _. apply harmless_words.
    intros n' k. unfold clean. rewrite lookup_partial_alter. by destruct (decide (n = k)).
Qed.

Lemma world_new_ok : world_ok world_new.
Proof. split; simpl; try done; split; simpl; done. Qed.

Lemma reachable_ok w : reachable w -> world_ok w.
Proof.
  intros Hr. apply (rtc_ind_r (R := step) (fun w => world_ok w) world_new); [apply world_new_ok| |exact Hr].
  intros w1 w2 _ [? ? H|? ? ? H|? ? H]; by eauto using holder_step_ok, handler_step_ok, outside_step_ok.
Qed.

(** ** Safety *)

(** (C9) No stale branch: when a handler that started below generation [n] is about to leave,
    every live registered site of its target holds its unlinked word, or a branch that was
    committed for a generation published since. *)
Theorem no_stale_branch w i t n site r c node :
  reachable w -> w_handlers w !! i = Some (HFinish t n) ->
  lm_sites (w_m w) !! site = Some r -> ls_guest_target r = t ->
  lm_signal_sites (w_m w) !! site = Some c -> node_at (w_m w) c = Some node -> ss_live node = true ->
  lm_code (w_m w) !! word_of node = Some (ps_unlinked_bl (ss_patch node)) \/ exists g, w_written w !! c = Some g /\ n <= g.
Proof.
  intros Hok%reachable_ok Hi Hr Ht Hc Hnode Hl. destruct (wo_handlers _ Hok _ _ Hi) as (_ & _ & Hw).
  destruct (Hw eq_refl) as [_ Hclean]. destruct (sh_site _ _ _ (wo_shape _ Hok) _ _ Hc) as (r' & Hr' & Hh).
  assert (r' = r) as -> by congruence. rewrite Ht in Hh.
  specialize (Hclean c (conj Hh (ex_intro _ node (conj Hnode Hl))) ltac:(lia)). unfold clean in Hclean.
  destruct (w_written w !! c) as [g|] eqn:Hg; [right; by exists g|left]. apply (sh_written _ _ _ (wo_shape _ Hok) c); [by exists site|done|done].
Qed.

Lemma home_node w t c : world_ok w -> w_home w !! c = Some t -> is_Some (node_at (w_m w) c).
Proof. intros Hok Hc%lookup_lt_Some. apply lookup_lt_is_Some. by rewrite <- (sh_length _ _ _ (wo_shape _ Hok)). Qed.

(** (C10) A handler that is about to write writes the unlinked word of a site that is still
    registered, for its target, and the write succeeds: [PurgeSource] does not erase a
    site under a handler. *)
Theorem handler_writes_registered w i t n second c :
  reachable w -> w_handlers w !! i = Some (HPatch t n second c) ->
  exists site r node, lm_sites (w_m w) !! site = Some r /\ ls_guest_target r = t /\ lm_signal_sites (w_m w) !! site = Some c /\
    node_at (w_m w) c = Some node /\
    PatchDirectBranch (ps_region (ss_patch node)) (ps_rx_site (ss_patch node)) (word_of node) (ps_unlinked_bl (ss_patch node)) (lm_code (w_m w)) =
      Ok (true, <[word_of node := ps_unlinked_bl (ss_patch node)]> (lm_code (w_m w))).
Proof.
  intros Hok%reachable_ok Hi. destruct (wo_handlers _ Hok _ _ Hi) as (_ & _ & Hc & [[site Hsite] _] & _).
  destruct (sh_site _ _ _ (wo_shape _ Hok) _ _ Hsite) as (r & Hr & Hh). destruct (home_node _ _ _ Hok Hc) as [node Hnode].
  exists site, r, node. split_and!; [done|congruence|done|done|].
  destruct (sh_patches _ _ _ (wo_shape _ Hok) _ _ Hnode) as (Hp & Hop & _). unfold PatchDirectBranch.
  rewrite Hop, Z.eqb_refl. cbn [negb]. erewrite bind_run by (by apply PatchCodeWord_run). done.
Qed.

(** ** Progress *)

(** The steps the holder still takes before it lowers the linking count. *)
Definition link_rank (h : Holder) : nat :=
  match h with LinkCounted _ _ _ => 5 | LinkValid _ _ _ => 4 | LinkCommitted _ _ _ => 3 | LinkActive _ _ _ => 2 | LinkEnd _ => 1 | _ => 0 end.

Lemma linking_progress w t : world_ok w -> linking_target (w_holder w) = Some t ->
  exists w', holder_step w w' /\ (link_rank (w_holder w') < link_rank (w_holder w))%nat.
Proof.
  intros Hok Et. pose proof (wo_holder _ Hok) as Hh. destruct (w_holder w) eqn:E; try done; simpl in Hh.
  - eexists. split; [by eapply StepLinkValidate|]. simpl. destruct (ValidateTargetGeneration _ _ _); simpl; lia.
  - eexists. split; [by eapply StepLinkReject|]. simpl. lia.
  - destruct Hh as (_ & _ & _ & Hg).
    assert (is_Some (lm_signal_targets (w_m w) !! ls_guest_target r)) as [x Hx].
    { unfold generation_at in Hg. destruct (lm_signal_targets (w_m w) !! ls_guest_target r); [by eexists|by destruct Hg]. }
    eexists. split; [by eapply StepLinkRecheck|]. simpl. destruct (st_active_generation x =? g); simpl; lia.
  - destruct Hh as (_ & [rec Hrec] & _).
    destruct (store_linked_run site true (put_sites (alter (set_state Linked g (pending_compatible (tr_target rec) r)) site (lm_sites (w_m w))) (w_m w))) as (sg & Hrun & _).
    eexists. split; [eapply StepLinkRecord; [done|exact Hrec|]|simpl; lia]. unfold update_site. erewrite bind_run by reflexivity. exact Hrun.
  - eexists. split; [by eapply StepLinkEnd|]. simpl. lia.
Qed.

(** (C11) A handler is never stuck: it has a step, or it waits for a [MarkLinked] of its target that
    has a step and is at most five steps from its end. *)
Theorem handler_progress w i h :
  reachable w -> w_handlers w !! i = Some h ->
  (exists w', handler_step i w w') \/
  (exists t n w', h = HWait t n /\ linking_target (w_holder w) = Some t /\ holder_step w w' /\
     (link_rank (w_holder w') < link_rank (w_holder w) <= 5)%nat).
Proof.
  intros Hok%reachable_ok Hi. pose proof (wo_handlers _ Hok _ _ Hi) as Hh. destruct h; simpl in Hh; destruct_and?.
  - left. eexists. by apply StepFind.
  - left. destruct H0 as [x Hx]. eexists. by eapply StepLoadPublishing.
  - left. destruct H1 as [x Hx]. eexists. by eapply StepLoadActive.
  - left. eexists. by eapply StepStore.
  - left. destruct H1 as [x Hx]. eexists. by eapply StepHead.
  - left. destruct cur as [c|]; [|eexists; by eapply StepEnd]. destruct (home_node _ _ _ Hok (H0 c eq_refl)) as [node Hnode].
    eexists. by eapply StepLive.
  - left. eexists. by eapply StepExchange.
  - left. destruct (home_node w t cur) as [node Hnode]; [done..|].
    destruct (sh_patches _ _ _ (wo_shape _ Hok) _ _ Hnode) as (Hp & Hop & _).
    eexists. eapply StepPatch; [done|done|]. unfold PatchDirectBranch. rewrite Hop, Z.eqb_refl. cbn [negb].
    by erewrite bind_run by (by apply PatchCodeWord_run).
  - left. destruct (home_node w t cur) as [node Hnode]; [done..|]. eexists. by eapply StepNext.
  - destruct H1 as [x Hx]. destruct (wo_counts _ Hok _ _ Hx) as [Hc _]. destruct (decide (linking_target (w_holder w) = Some t)) as [Et|Hne].
    + right. destruct (linking_progress _ _ Hok Et) as (w' & Hs & Hr). exists t, n, w'. split_and!; [done..|]. by destruct (w_holder w); simpl; lia.
    + left. eexists. by eapply StepWait.
  - left. eexists. by eapply StepFinish.
Qed.

(** Where a handler is: its phase, and in a walk its place in the list. *)
Definition handler_rank (h : Handler) : nat * nat :=
  match h with
  | HFind _ _ => (8, 0)
  | HLoadPublishing _ _ => (7, 0)
  | HLoadActive _ _ => (6, 0)
  | HStore _ _ => (5, 0)
  | HHead _ _ second => (if second then 2 else 4, 0)
  | HLive _ _ second cur => (if second then 1 else 3, match cur with Some c => 4 * c + 4 | None => 0 end)
  | HExchange _ _ second c => (if second then 1 else 3, 4 * c + 3)
  | HPatch _ _ second c => (if second then 1 else 3, 4 * c + 2)
  | HNext _ _ second c => (if second then 1 else 3, 4 * c + 1)
  | HWait _ _ => (2, 1)
  | HFinish _ _ => (0, 0)
  end%nat.

Definition rank_lt (a b : nat * nat) : Prop := (fst a < fst b)%nat \/ fst a = fst b /\ (snd a < snd b)%nat.

Lemma rank_lt_wf : well_founded rank_lt.
Proof.
  intros [a b]. revert b. induction (lt_wf a) as [a _ IHa]. intros b. induction (lt_wf b) as [b _ IHb].
  constructor. intros [a' b'] [H|[E H]]; simpl in *; [by apply IHa|subst a'; by apply IHb].
Qed.

(** A handler takes finitely many steps: each of its own steps but the last lowers its rank,
    whatever the other threads did in between, the lists included. *)
Theorem handler_ranked w w' i h h' :
  reachable w -> handler_step i w w' -> w_handlers w !! i = Some h -> w_handlers w' !! i = Some h' -> rank_lt (handler_rank h') (handler_rank h).
Proof.
  intros Hok%reachable_ok Hstep Hi Hi'. pose proof (wo_handlers _ Hok _ _ Hi) as Hh.
  destruct Hstep; simpl in Hi'; rewrite ?lookup_insert_eq, ?lookup_delete_eq in Hi'; try congruence;
    injection Hi' as <-; rewrite Hi in H; injection H as ->; unfold rank_lt; simpl in *.
  - destruct (lm_signal_targets (w_m w) !! t); simpl; lia.
  - destruct (st_publishing_count x =? 0); simpl; lia.
  - destruct (st_active_generation x =? 0); simpl; lia.
  - lia.
  - destruct second; simpl; lia.
  - destruct second; simpl; lia.
  - destruct (ss_live node), second; simpl; lia.
  - lia.
  - lia.
  - destruct Hh as (_ & _ & Hc & _). pose proof (sh_next _ _ _ (wo_shape _ Hok) _ _ _ H0 Hc) as Hl.
    destruct (ss_next node) as [y|]; [destruct Hl as [Hl _]|]; lia.
  - lia.
Qed.

(** ** Examples *)

Definition target : Z := 0x4000.
Definition source : LinkSourceOwner := (7, 9).
Definition site : LinkSiteKey := (1, 0x10).
Definition region : CodeRegion := mkCodeRegion 1 0x10000 0x20000 0x1000.
Definition patch : LinkSignalPatchSite := mkPatchSite region 0x20010 0x10010 0x94000040 (mkBypass 0 0 0 0).
Definition no_flags : EdgeFlagsState := mkEdgeFlagsState 0 CarryUnknown ProducerCanonical.
Definition no_contract : EdgeFlagsTargetContract := mkContract 0 0 false false.
Definition branch_word : Z := 0x14000020.

Definition after {A} (c : ST LinkManager A) (m : LinkManager) : LinkManager :=
  match c m with Ok (_, m') => m' | _ => m end.

(** ** In sequence *)

Definition m_published : LinkManager := after (PublishTarget target 0x30000 1 source 0 0 0 0 no_contract) manager_new.
Definition m_registered : LinkManager := after (RegisterSite site target source (Some patch) KindUnconditional no_flags) m_published.
Definition m_detached : LinkManager := after (DetachSource source) m_registered.

Lemma m_published_ok : manager_ok m_published.
Proof.
  destruct (PublishTarget_spec target 0x30000 1 source 0 0 0 0 no_contract manager_new) as (m' & Hrun & Hm & _);
    [apply manager_new_ok|by split|done|]. unfold m_published, after. by rewrite Hrun.
Qed.

Lemma patch_is_aligned : patch_aligned patch.
Proof. by repeat split. Qed.

Lemma m_registered_ok : manager_ok m_registered.
Proof.
  destruct (RegisterSite_run m_published site target source (Some patch) KindUnconditional no_flags) as (b & m' & Hrun & Hm & _);
    [apply m_published_ok|by intros s [= <-]|]. unfold m_registered, after. by rewrite Hrun.
Qed.

Lemma m_detached_ok : manager_ok m_detached.
Proof.
  destruct (DetachSource_spec source m_registered (mkOutgoing {[site]} false)) as (m' & Hrun & Hm & _);
    [apply m_registered_ok|by vm_compute|]. unfold m_detached, after. by rewrite Hrun.
Qed.

Definition commit (r : LinkSiteRecord) : ST (gmap Z Z) bool := PatchDirectBranch region 0x20010 0x10010 branch_word.

Lemma MarkLinked_spec_witness : exists m', MarkLinked site 1 (Some commit) m_registered = Ok (true, m') /\
  lm_code m' !! 0x10010 = Some branch_word.
Proof.
  destruct (MarkLinked_spec site 1 commit m_registered m_registered_ok) as [_ H].
  set (r := new_record site target source (Some patch) KindUnconditional no_flags).
  set (rec := mkLinkTargetRecord target 0x30000 0x30000 0 no_contract 0 0 1 1 source).
  specialize (H r (mkTargetRecord rec true) ltac:(by vm_compute) ltac:(by vm_compute)). simpl in H.
  destruct H as (sg & c' & Hrun & Hc & _). eexists. split; [exact Hrun|]. rewrite (Hc eq_refl). by vm_compute.
Defined.

Lemma BeginTargetInvalidation_spec_witness : exists rs m', BeginTargetInvalidation target m_registered = Ok (rs, m') /\
  current_generation m_registered target = Some 1 /\ current_generation m' target = None.
Proof.
  destruct (BeginTargetInvalidation_spec target m_registered m_registered_ok) as (rs & m' & Hrun & _ & Hc & _); [eexists; by vm_compute|].
  exists rs, m'. split_and!; [done|by vm_compute|done].
Defined.

Lemma PurgeSource_spec_witness : exists m', PurgeSource source m_detached = Ok (1, m') /\ lm_sites m' !! site = None.
Proof.
  destruct (proj2 (PurgeSource_spec source m_detached m_detached_ok) (mkOutgoing {[site]} true) ltac:(by vm_compute) eq_refl)
    as (m' & Hrun & _ & _ & Hs & _).
  exists m'. split; [rewrite Hrun; by vm_compute|]. destruct (lm_sites m' !! site) as [r|] eqn:E; [|done].
  apply Hs in E as [E Hne]. exfalso. apply Hne. vm_compute in E. by injection E as <-.
Defined.

(** ** A race *)

(** The site is registered, the target published at generation 1, and [MarkLinked] is about
    to commit when the signal comes: the handler finds an active target. *)
Definition link_record : LinkSiteRecord := new_record site target source (Some patch) KindUnconditional no_flags.
Definition published_record : LinkTargetRecord := mkLinkTargetRecord target 0x30000 0x30000 0 no_contract 0 0 1 1 source.

Definition hold (h : Holder) (f : LinkManager -> LinkManager) (w : World) : World := with_m (f (w_m w)) h w.
Definition handle (h : Handler) (f : LinkManager -> LinkManager) (w : World) : World := with_handler 0 h (f (w_m w)) w.

Definition w_emitted : World := Eval vm_compute in hold Idle (put_word 0x10010 0x94000040) world_new.
Definition w_registered : World := Eval vm_compute in
  mkWorld (after (RegisterSite site target source (Some patch) KindUnconditional no_flags) (w_m w_emitted)) [target] ∅ 0 Idle ∅.
Definition w_publishing : World := Eval vm_compute in
  hold (PublishCounted published_record) (fun m => put_signal_target target (add_publishing 1) (put_next_target_generation 2 m)) w_registered.
Definition w_swapped : World := Eval vm_compute in
  hold (PublishEnd published_record true) (after (publish_generation target 1)) w_publishing.
Definition w_published : World := Eval vm_compute in
  hold Idle (fun m => put_signal_target target (add_publishing (-1)) (put_targets (<[target := mkTargetRecord published_record true]> (lm_targets m)) m)) w_swapped.
Definition w_counted : World := Eval vm_compute in
  hold (LinkCounted site link_record 1) (put_signal_target target (add_linking 1)) w_published.
Definition w_valid : World := Eval vm_compute in hold (LinkValid site link_record 1) id w_counted.
Definition w_started : World := Eval vm_compute in mkWorld (w_m w_valid) (w_home w_valid) ∅ 1 (w_holder w_valid) {[0%nat := HFind target 2]}.
Definition w_found : World := Eval vm_compute in handle (HLoadPublishing target 2) id w_started.
Definition w_loaded : World := Eval vm_compute in handle (HLoadActive target 2) id w_found.
Definition w_storing : World := Eval vm_compute in handle (HStore target 2) id w_loaded.
Definition w_poisoned : World := Eval vm_compute in
  handle (HHead target 2 false) (put_signal_target target (set_generation kSignalInvalidatingGeneration)) w_storing.
Definition w_walking : World := Eval vm_compute in handle (HLive target 2 false (Some 0%nat)) id w_poisoned.
Definition w_exchange : World := Eval vm_compute in handle (HExchange target 2 false 0) id w_walking.
Definition w_patching : World := Eval vm_compute in handle (HPatch target 2 false 0) (put_node 0 (set_linked false)) w_exchange.
Definition w_patched : World := Eval vm_compute in handle (HNext target 2 false 0) (put_word 0x10010 0x94000040) w_patching.
(** The commit comes after the first restore: the word is stale until the second. *)
Definition w_committed : World := Eval vm_compute in
  with_word 0 (Some 1) (put_word 0x10010 branch_word (w_m w_patched)) (LinkCommitted site link_record 1) w_patched.
Definition w_walked : World := Eval vm_compute in handle (HLive target 2 false None) id w_committed.
Definition w_waiting : World := Eval vm_compute in handle (HWait target 2) id w_walked.
Definition w_rejected : World := Eval vm_compute in hold (LinkEnd target) id w_waiting.
Definition w_linked : World := Eval vm_compute in hold Idle (put_signal_target target (add_linking (-1))) w_rejected.
Definition w_again : World := Eval vm_compute in handle (HHead target 2 true) id w_linked.
Definition w_rewalking : World := Eval vm_compute in handle (HLive target 2 true (Some 0%nat)) id w_again.
Definition w_repatching : World := Eval vm_compute in handle (HPatch target 2 true 0) id w_rewalking.
Definition w_restored : World := Eval vm_compute in
  with_word 0 None (put_word 0x10010 0x94000040 (w_m w_repatching)) Idle (handle (HNext target 2 true 0) id w_repatching).
Definition w_rewalked : World := Eval vm_compute in handle (HLive target 2 true None) id w_restored.
Definition w_finishing : World := Eval vm_compute in handle (HFinish target 2) id w_rewalked.

Lemma reachable_step w w1 w2 : reachable w -> step w w1 -> w1 = w2 -> reachable w2.
Proof. intros Hr Hs <-. by eapply rtc_r. Qed.

(** One more step, by a constructor of the relation; its premises and its result compute. *)
Ltac next from c :=
  eapply (reachable_step from); [ | solve [ c ] | by vm_compute ].
Ltac premises := solve [ done | vm_compute; reflexivity ].

Lemma w_published_reachable : reachable w_published.
Proof.
  next w_swapped ltac:(apply InMutex; eapply StepPublishEnd; premises).
  next w_publishing ltac:(apply InMutex; eapply StepPublishSwap; premises).
  next w_registered ltac:(apply InMutex; eapply (StepPublishCount _ published_record); premises).
  apply (reachable_step w_emitted (mkWorld (w_m w_registered) [target] ∅ 0 Idle ∅)); [| |by vm_compute].
  2: { apply InMutex. apply (StepRegister w_emitted site target source patch KindUnconditional no_flags); [done| |by vm_compute].
       split_and!; [by repeat split|done|by vm_compute|]. intros n node [k Hk]. by vm_compute in Hk. }
  next world_new ltac:(apply Outside; apply (StepEmit _ 0x10010 0x94000040); intros n node [k Hk]; by vm_compute in Hk).
  apply rtc_refl.
Qed.

Lemma w_patching_reachable : reachable w_patching.
Proof.
  next w_exchange ltac:(apply (InHandler 0); eapply StepExchange; premises).
  next w_walking ltac:(apply (InHandler 0); eapply StepLive; premises).
  next w_poisoned ltac:(apply (InHandler 0); eapply StepHead; premises).
  next w_storing ltac:(apply (InHandler 0); eapply StepStore; premises).
  next w_loaded ltac:(apply (InHandler 0); eapply StepLoadActive; premises).
  next w_found ltac:(apply (InHandler 0); eapply StepLoadPublishing; premises).
  next w_started ltac:(apply (InHandler 0); eapply StepFind; premises).
  next w_valid ltac:(apply (InHandler 0); apply (StepStart 0 w_valid target); premises).
  next w_counted ltac:(apply InMutex; eapply StepLinkValidate; premises).
  next w_published ltac:(apply InMutex; eapply (StepLinkCount _ site 1); premises).
  apply w_published_reachable.
Qed.

Lemma w_waiting_reachable : reachable w_waiting.
Proof.
  next w_walked ltac:(apply (InHandler 0); eapply StepEnd; premises).
  next w_committed ltac:(apply (InHandler 0); eapply StepNext; premises).
  next w_patched ltac:(apply InMutex; eapply (StepLinkCommit _ site link_record 1 0 _ branch_word); premises).
  next w_patching ltac:(apply (InHandler 0); eapply StepPatch; premises).
  apply w_patching_reachable.
Qed.

Lemma w_finishing_reachable : reachable w_finishing.
Proof.
  next w_rewalked ltac:(apply (InHandler 0); eapply StepEnd; premises).
  next w_restored ltac:(apply (InHandler 0); eapply StepNext; premises).
  next w_repatching ltac:(apply (InHandler 0); eapply StepPatch; premises).
  next w_rewalking ltac:(apply (InHandler 0); eapply StepLive; premises).
  next w_again ltac:(apply (InHandler 0); eapply StepHead; premises).
  next w_linked ltac:(apply (InHandler 0); eapply StepWait; premises).
  next w_rejected ltac:(apply InMutex; eapply StepLinkEnd; premises).
  next w_waiting ltac:(apply InMutex; eapply StepLinkRecheck; premises).
  apply w_waiting_reachable.
Qed.

(** The branch committed after the first restore is gone when the handler leaves. *)
Lemma no_stale_branch_witness :
  lm_code (w_m w_waiting) !! 0x10010 = Some branch_word /\
  (lm_code (w_m w_finishing) !! 0x10010 = Some 0x94000040 \/ exists g, w_written w_finishing !! 0%nat = Some g /\ 2 <= g).
Proof.
  split; [by vm_compute|].
  apply (no_stale_branch w_finishing 0 target 2 site link_record 0 (mkSignalSite patch None false true) w_finishing_reachable); by vm_compute.
Defined.

Lemma handler_writes_registered_witness : exists site r, lm_sites (w_m w_patching) !! site = Some r /\ ls_guest_target r = target.
Proof.
  destruct (handler_writes_registered w_patching 0 target 2 false 0 w_patching_reachable) as (k & r & _ & H1 & H2 & _); [by vm_compute|].
  by exists k, r.
Defined.

Lemma handler_progress_witness :
  st_linking_count <$> lm_signal_targets (w_m w_waiting) !! target = Some 1 /\
  ((exists w', handler_step 0 w_waiting w') \/ exists w', holder_step w_waiting w' /\ (link_rank (w_holder w') < 3)%nat).
Proof.
  split; [by vm_compute|].
  destruct (handler_progress w_waiting 0 (HWait target 2) w_waiting_reachable) as [H|(t & n & w' & _ & _ & Hs & Hr & _)]; [by vm_compute|by left|].
  right. by exists w'.
Defined.

Lemma handler_ranked_witness : rank_lt (handler_rank (HNext target 2 false 0)) (handler_rank (HPatch target 2 false 0)).
Proof.
  apply (handler_ranked w_patching w_patched 0 (HPatch target 2 false 0) (HNext target 2 false 0) w_patching_reachable); [|by vm_compute..].
  replace w_patched with (with_word 0 None (put_word 0x10010 0x94000040 (w_m w_patching)) (w_holder w_patching)
    (with_handler 0 (HNext target 2 false 0) (w_m w_patching) w_patching)) by (by vm_compute).
  eapply StepPatch; premises.
Defined.

(** ** A race with an invalidation *)

(** The handler finds the target active, and stores the sentinel after the invalidation. *)
Definition p_started : World := Eval vm_compute in mkWorld (w_m w_published) (w_home w_published) ∅ 1 Idle {[0%nat := HFind target 2]}.
Definition p_found : World := Eval vm_compute in handle (HLoadPublishing target 2) id p_started.
Definition p_loaded : World := Eval vm_compute in handle (HLoadActive target 2) id p_found.
Definition p_storing : World := Eval vm_compute in handle (HStore target 2) id p_loaded.
Definition p_inactive : World := Eval vm_compute in
  hold (InvalidateSites target) (fun m => put_signal_target target (set_generation 0)
    (put_targets (<[target := mkTargetRecord published_record false]> (lm_targets m)) m)) p_storing.
Definition p_invalidated : World := Eval vm_compute in hold Idle (after (unlink_sites [site])) p_inactive.
Definition p_poisoned : World := Eval vm_compute in
  handle (HHead target 2 false) (put_signal_target target (set_generation kSignalInvalidatingGeneration)) p_invalidated.
Definition p_walking : World := Eval vm_compute in handle (HLive target 2 false (Some 0%nat)) id p_poisoned.
Definition p_exchange : World := Eval vm_compute in handle (HExchange target 2 false 0) id p_walking.
Definition p_patching : World := Eval vm_compute in handle (HPatch target 2 false 0) (put_node 0 (set_linked false)) p_exchange.
Definition p_patched : World := Eval vm_compute in handle (HNext target 2 false 0) (put_word 0x10010 0x94000040) p_patching.
Definition p_walked : World := Eval vm_compute in handle (HLive target 2 false None) id p_patched.
Definition p_waiting : World := Eval vm_compute in handle (HWait target 2) id p_walked.
Definition p_again : World := Eval vm_compute in handle (HHead target 2 true) id p_waiting.
Definition p_rewalking : World := Eval vm_compute in handle (HLive target 2 true (Some 0%nat)) id p_again.
Definition p_repatching : World := Eval vm_compute in handle (HPatch target 2 true 0) id p_rewalking.
Definition p_restored : World := Eval vm_compute in handle (HNext target 2 true 0) (put_word 0x10010 0x94000040) p_repatching.
Definition p_rewalked : World := Eval vm_compute in handle (HLive target 2 true None) id p_restored.
Definition p_finishing : World := Eval vm_compute in handle (HFinish target 2) id p_rewalked.
Definition p_finished : World := Eval vm_compute in mkWorld (w_m p_finishing) (w_home p_finishing) ∅ 0 Idle ∅.

(** The target is translated again. *)
Definition republished_record : LinkTargetRecord := mkLinkTargetRecord target 0x30400 0x30400 0 no_contract 0 0 1 2 source.
Definition p_publishing : World := Eval vm_compute in
  hold (PublishCounted republished_record) (fun m => put_signal_target target (add_publishing 1) (put_next_target_generation 3 m)) p_finished.
Definition p_unswapped : World := Eval vm_compute in hold (PublishEnd republished_record false) id p_publishing.
Definition p_published : World := Eval vm_compute in
  hold Idle (fun m => put_signal_target target (add_publishing (-1))
    (put_targets (<[target := mkTargetRecord republished_record false]> (lm_targets m)) m)) p_unswapped.

Lemma p_waiting_reachable : reachable p_waiting.
Proof.
  next p_walked ltac:(apply (InHandler 0); eapply StepEnd; premises).
  next p_patched ltac:(apply (InHandler 0); eapply StepNext; premises).
  next p_patching ltac:(apply (InHandler 0); eapply StepPatch; premises).
  next p_exchange ltac:(apply (InHandler 0); eapply StepExchange; premises).
  next p_walking ltac:(apply (InHandler 0); eapply StepLive; premises).
  next p_poisoned ltac:(apply (InHandler 0); eapply StepHead; premises).
  next p_invalidated ltac:(apply (InHandler 0); eapply StepStore; premises).
  next p_inactive ltac:(apply InMutex; eapply StepInvalidateSites; premises).
  next p_storing ltac:(apply InMutex; eapply (StepInvalidate _ target); premises).
  next p_loaded ltac:(apply (InHandler 0); eapply StepLoadActive; premises).
  next p_found ltac:(apply (InHandler 0); eapply StepLoadPublishing; premises).
  next p_started ltac:(apply (InHandler 0); eapply StepFind; premises).
  next w_published ltac:(apply (InHandler 0); apply (StepStart 0 w_published target); premises).
  apply w_published_reachable.
Qed.

Lemma p_finished_reachable : reachable p_finished.
Proof.
  next p_finishing ltac:(apply (InHandler 0); eapply StepFinish; premises).
  next p_rewalked ltac:(apply (InHandler 0); eapply StepEnd; premises).
  next p_restored ltac:(apply (InHandler 0); eapply StepNext; premises).
  next p_repatching ltac:(apply (InHandler 0); eapply StepPatch; premises).
  next p_rewalking ltac:(apply (InHandler 0); eapply StepLive; premises).
  next p_again ltac:(apply (InHandler 0); eapply StepHead; premises).
  next p_waiting ltac:(apply (InHandler 0); eapply StepWait; premises).
  apply p_waiting_reachable.
Qed.

(** A handler that has read an active generation stores the sentinel even when the target
    is invalidated in between: nothing runs any more, the translation has been
    invalidated, and the next publication of the target is inactive. *)
Theorem handler_poisons_target :
  exists w w', reachable w /\ w_holder w = Idle /\ w_handlers w = ∅ /\
    st_active_generation <$> lm_signal_targets (w_m w) !! target = Some kSignalInvalidatingGeneration /\
    tr_active <$> lm_targets (w_m w) !! target = Some false /\
    rtc holder_step w w' /\ w_holder w' = Idle /\
    lm_targets (w_m w') !! target = Some (mkTargetRecord republished_record false) /\ current_generation (w_m w') target = None.
Proof.
  exists p_finished, p_published. split_and!; [apply p_finished_reachable|by vm_compute..| |by vm_compute|by vm_compute|by vm_compute].
  eapply rtc_l; [eapply (StepPublishCount p_finished republished_record); premises|].
  eapply rtc_l; [eapply StepPublishSwap; premises|]. eapply rtc_l; [eapply StepPublishEnd; premises|].
  match goal with |- rtc _ ?a ?b => replace a with b by (by vm_compute) end. apply rtc_refl.
Qed.
