(* ===== verification/CodeSerial.v ===== *)
(** * Serialized code units

    Model of the first half of runtime/backend/code_serial.h and code_serial.cpp: the unit that the
    disk cache stores ([SerialUnit]: host code, guest blocks, relocations, direct-link sites, fault
    sites), [WriteUnit], and [ReadUnit] with its checks.  A [BlobWriter] is its buffer and a
    [BlobReader] the bytes that are left.

    A read that fails makes [ReadUnit] return false, whatever it has stored in the unit by then:
    a reader answers [Ok None].  [Err EUndefined] is a [memcpy] outside the code.

    The second half states and proves the format.  [Codec write rd ok]: on every input, [rd] returns, and
    it yields a value and the rest of the input exactly when the value satisfies [ok] and the input is
    what [write] makes of it, with that rest.  The codec of [ReadUnit] is composed from those of
    integers, byte strings and counted lists. *)

From Stdlib Require Import ZArith Lia.
From stdpp Require Import numbers base list.
From S2P Require Import Prelude MachineInt LinkManager.

Local Open Scope Z_scope.
Local Open Scope svm_scope.

(** ** The unit *)

Definition kNone32 : Z := 2 ^ 32 - 1.

(** [Relocation]; [kind] and [use] are the [u16]s of [RelocKind] and [RelocUse]. *)
Record Relocation := mkReloc {
  r_code_offset : Z;
  r_inst_count : Z;
  r_reg : Z;
  r_kind : Z;
  r_use : Z;
  r_addend : Z;
  r_recorded_value : Z
}.

Definition HostImageAbs64 : Z := 1.
Definition UseBranchTarget : Z := 1.
Definition UseMemoryBase : Z := 2.

Record SerialBlock := mkSerialBlock {
  sb_guest_start : Z;
  sb_guest_end : Z;
  sb_code_offset : Z;
  sb_guest_bytes_hash : Z;
  sb_direct_code_offset : Z;
  sb_pending_flags_code_offset : Z;
  sb_pending_flags_contract : EdgeFlagsTargetContract;
  sb_entry_flags : Z
}.

Definition Linkable : Z := 1.
Definition IsLinkable (b : SerialBlock) : bool := negb (Z.land (sb_entry_flags b) Linkable =? 0).

Record SerialLinkSite := mkSerialLinkSite {
  sl_code_offset : Z;
  sl_guest_target : Z;
  sl_kind : Z;
  sl_flags_bypass_offset : Z;
  sl_flags_bypass_resume_offset : Z;
  sl_flags_bypass_instruction : Z;
  sl_flags_bypass_linked_instruction : Z;
  sl_flags_merge_branch_offset : Z;
  sl_edge_flags : EdgeFlagsState
}.

Definition HasFlagsBypass (s : SerialLinkSite) : bool := negb (sl_flags_bypass_offset s =? kNone32).

Definition kSourceRegisterMask : Z := 0x3E0.
Definition kParityPublishOpcode : Z := 0xB3401C1A.

(** Offsets are [size_t] where they are added to. *)
Definition ValidFlagsBypass (s : SerialLinkSite) (code_size : Z) : bool :=
  if negb (EdgeFlags_IsWellFormed (sl_edge_flags s)) then false
  else if negb (HasFlagsBypass s) then
    (sl_flags_bypass_resume_offset s =? kNone32) && (sl_flags_bypass_instruction s =? 0) &&
    (sl_flags_bypass_linked_instruction s =? 0) && (sl_flags_merge_branch_offset s =? kNone32) &&
    IsCanonical (sl_edge_flags s)
  else if negb (HasPendingPState (sl_edge_flags s)) then false
  else
    let begin := sl_flags_bypass_offset s in
    let resume := sl_flags_bypass_resume_offset s in
    let merge := sl_flags_merge_branch_offset s in
    let linked := sl_flags_bypass_linked_instruction s in
    if negb (merge =? kNone32) then
      (linked =? 0) && (Z.land (sl_flags_bypass_instruction s) 0x9F000000 =? 0x10000000) &&
      (Z.land merge 3 =? 0) && (merge =? begin + 4) && (resume =? merge + 4) &&
      (merge + 4 <=? code_size) && (resume <=? sl_code_offset s)
    else if negb (linked =? 0) && negb (Z.land linked (not32 kSourceRegisterMask) =? kParityPublishOpcode) then false
    else if negb (linked =? 0) && negb (Z.land (sl_flags_bypass_instruction s) 0xFC000000 =? 0x94000000) then false
    else
      let bypass_size := if negb (linked =? 0) then 4 else 12 in
      negb (resume =? kNone32) && (Z.land begin 3 =? 0) && (begin + bypass_size <=? code_size) &&
      (resume =? begin + bypass_size) && (resume <=? sl_code_offset s).

Record SerialFaultSite := mkSerialFaultSite {
  sf_guest_start : Z;
  sf_host_begin : Z;
  sf_host_end : Z;
  sf_recovery_offset : Z;
  sf_recovery_kind : Z
}.

Definition ExternalContinuation : Z := 2.

Record SerialUnit := mkSerialUnit {
  su_guest_start : Z;
  su_feature_hash : Z;
  su_is_function : Z;
  su_code : list Z;
  su_blocks : list SerialBlock;
  su_relocs : list Relocation;
  su_link_sites : list SerialLinkSite;
  su_fault_sites : list SerialFaultSite
}.

(** ** Writing *)

Definition U8 (v : Z) : list Z := le_bytes 1 v.
Definition U16 (v : Z) : list Z := le_bytes 2 v.
Definition U32 (v : Z) : list Z := le_bytes 4 v.
Definition U64 (v : Z) : list Z := le_bytes 8 v.

Definition size_u32 {A} (l : list A) : Z := wrap 32 (Z.of_nat (length l)).

Definition carry_index (p : EdgeCarryPolarity) : Z :=
  match p with CarryDirect => 0 | CarryInverted => 1 | CarryUnknown => 2 end.
Definition producer_index (p : EdgeFlagsProducer) : Z :=
  match p with ProducerArithmetic => 0 | ProducerLogical => 1 | ProducerRestore => 2 | ProducerCanonical => 3 end.

Definition write_block (b : SerialBlock) : list Z :=
  let c := sb_pending_flags_contract b in
  U64 (sb_guest_start b) ++ U64 (sb_guest_end b) ++ U32 (sb_code_offset b) ++ U64 (sb_guest_bytes_hash b) ++
  U32 (sb_direct_code_offset b) ++ U32 (sb_pending_flags_code_offset b) ++ U32 (ec_overwrite_before_observe c) ++
  U8 (ec_observed_nzcv_mask c) ++ U8 (bool_z (ec_commits_before_fault c)) ++ U8 (bool_z (ec_barrier_before_commit c)) ++
  U8 (sb_entry_flags b).

Definition write_reloc (r : Relocation) : list Z :=
  U32 (r_code_offset r) ++ U16 (r_inst_count r) ++ U16 (r_reg r) ++ U16 (r_kind r) ++ U16 (r_use r) ++
  U64 (r_addend r) ++ U64 (r_recorded_value r).

Definition write_link_site (s : SerialLinkSite) : list Z :=
  U32 (sl_code_offset s) ++ U64 (sl_guest_target s) ++ U8 (sl_kind s) ++ U32 (sl_flags_bypass_offset s) ++
  U32 (sl_flags_bypass_resume_offset s) ++ U32 (sl_flags_bypass_instruction s) ++
  U32 (sl_flags_bypass_linked_instruction s) ++ U32 (sl_flags_merge_branch_offset s) ++
  U32 (ef_valid_nzcv_mask (sl_edge_flags s)) ++ U8 (carry_index (ef_carry_polarity (sl_edge_flags s))) ++
  U8 (producer_index (ef_producer (sl_edge_flags s))).

Definition write_fault_site (s : SerialFaultSite) : list Z :=
  U64 (sf_guest_start s) ++ U32 (sf_host_begin s) ++ U32 (sf_host_end s) ++ U32 (sf_recovery_offset s) ++
  U8 (sf_recovery_kind s).

(** A vector is its size and its elements. *)
Definition write_list {A} (write : A -> list Z) (l : list A) : list Z := U32 (size_u32 l) ++ flat_map write l.

Definition WriteUnit (w : list Z) (u : SerialUnit) : list Z :=
  w ++ U64 (su_guest_start u) ++ U64 (su_feature_hash u) ++ U8 (su_is_function u) ++ U32 (size_u32 (su_code u)) ++
  su_code u ++ write_list write_block (su_blocks u) ++ write_list write_reloc (su_relocs u) ++
  write_list write_link_site (su_link_sites u) ++ write_list write_fault_site (su_fault_sites u).

(** ** Reading *)

Definition Reader (A : Type) : Type := list Z -> Res (option (A * list Z)).

Definition rd_ret {A} (a : A) : Reader A := fun bs => Ok (Some (a, bs)).
(** [return false]. *)
Definition rd_fail {A} : Reader A := fun _ => Ok None.
Definition rd_bind {A B} (m : Reader A) (k : A -> Reader B) : Reader B := fun bs =>
  r <-? m bs;
  match r with Some (a, bs') => k a bs' | None => Ok None end.
Definition rd_check {A} (b : bool) (k : Reader A) : Reader A := if b then k else rd_fail.
Definition rd_lift {A B} (r : Res A) (k : A -> Reader B) : Reader B := fun bs => a <-? r; k a bs.

Notation "x <~ m ;; k" := (rd_bind m (fun x => k))
  (at level 100, m at next level, right associativity) : svm_scope.

Definition Remaining (bs : list Z) : Z := Z.of_nat (length bs).

Definition rd_bytes (n : nat) : Reader (list Z) := fun bs =>
  if (length bs <? n)%nat then Ok None else Ok (Some (take n bs, drop n bs)).
Definition rd_int (n : nat) : Reader Z := b <~ rd_bytes n;; rd_ret (le_value b).
Definition rd_U8 : Reader Z := rd_int 1.
Definition rd_U16 : Reader Z := rd_int 2.
Definition rd_U32 : Reader Z := rd_int 4.
Definition rd_U64 : Reader Z := rd_int 8.

(** The [u32] size of a vector, at most the [unit]-th part of what is left. *)
Definition rd_count (unit : Z) : Reader nat :=
  n <~ rd_U32;;
  (fun bs => if Remaining bs / unit <? n then Ok None else Ok (Some (Z.to_nat n, bs))).

Fixpoint rd_times {A} (n : nat) (rd : Reader A) : Reader (list A) :=
  match n with
  | O => rd_ret []
  | S n' => a <~ rd;; l <~ rd_times n' rd;; rd_ret (a :: l)
  end.

Definition optional_offset_ok (offset code_size : Z) : bool :=
  (offset =? kNone32) || ((Z.land offset 3 =? 0) && (offset <? code_size)).

Definition block_check (code_size : Z) (b : SerialBlock) : bool :=
  let c := sb_pending_flags_contract b in
  (Z.land (sb_entry_flags b) (not32 Linkable) =? 0) && Contract_IsWellFormed c && (sb_code_offset b <? code_size) &&
  (sb_guest_start b <=? sb_guest_end b) && optional_offset_ok (sb_direct_code_offset b) code_size &&
  optional_offset_ok (sb_pending_flags_code_offset b) code_size &&
  Bool.eqb (negb (sb_pending_flags_code_offset b =? kNone32)) (CanPublishPendingEntry c).

Definition ReadBlock (code_size : Z) : Reader SerialBlock :=
  guest_start <~ rd_U64;;
  guest_end <~ rd_U64;;
  code_offset <~ rd_U32;;
  hash <~ rd_U64;;
  direct <~ rd_U32;;
  pending <~ rd_U32;;
  overwrite <~ rd_U32;;
  observed <~ rd_U8;;
  commits <~ rd_U8;;
  barrier <~ rd_U8;;
  entry_flags <~ rd_U8;;
  let b := mkSerialBlock guest_start guest_end code_offset hash direct pending
             (mkContract overwrite observed (negb (commits =? 0)) (negb (barrier =? 0))) entry_flags in
  rd_check ((commits <=? 1) && (barrier <=? 1) && block_check code_size b) (rd_ret b).

Definition ReadReloc : Reader Relocation :=
  offset <~ rd_U32;;
  inst_count <~ rd_U16;;
  reg <~ rd_U16;;
  kind <~ rd_U16;;
  use <~ rd_U16;;
  addend <~ rd_U64;;
  recorded <~ rd_U64;;
  rd_ret (mkReloc offset inst_count reg kind use addend recorded).

(** [memcpy] of an instruction. *)
Definition ReadInst (code : list Z) (offset : Z) : Res Z :=
  if (0 <=? offset) && (offset + 4 <=? Z.of_nat (length code))
  then Ok (le_value (take 4 (drop (Z.to_nat offset) code)))
  else Err EUndefined.

(** The conversions of a [u8]; a value that names no enumerator is not well formed, and
    [ValidFlagsBypass] rejects it. *)
Definition carry_of (v : Z) : option EdgeCarryPolarity :=
  if v =? 0 then Some CarryDirect else if v =? 1 then Some CarryInverted else if v =? 2 then Some CarryUnknown else None.
Definition producer_of (v : Z) : option EdgeFlagsProducer :=
  if v =? 0 then Some ProducerArithmetic else if v =? 1 then Some ProducerLogical
  else if v =? 2 then Some ProducerRestore else if v =? 3 then Some ProducerCanonical else None.

(** The instructions at the bypass are the recorded ones. *)
Definition bypass_matches (code : list Z) (s : SerialLinkSite) : Res bool :=
  if HasFlagsBypass s then
    instruction <-? ReadInst code (sl_flags_bypass_offset s);
    if negb (instruction =? sl_flags_bypass_instruction s) then Ok false
    else if negb (sl_flags_merge_branch_offset s =? kNone32)
         then instruction <-? ReadInst code (sl_flags_merge_branch_offset s); Ok (instruction =? 0x14000000)
         else Ok true
  else Ok true.

Definition site_in_code (code_size : Z) (previous : option Z) (s : SerialLinkSite) : bool :=
  (Z.land (sl_code_offset s) 3 =? 0) && (sl_code_offset s + 4 <=? code_size) &&
  match previous with Some p => p <? sl_code_offset s | None => true end.

Definition ReadLinkSite (code : list Z) (previous : option Z) : Reader SerialLinkSite :=
  code_offset <~ rd_U32;;
  guest_target <~ rd_U64;;
  kind <~ rd_U8;;
  bypass_offset <~ rd_U32;;
  resume_offset <~ rd_U32;;
  instruction <~ rd_U32;;
  linked <~ rd_U32;;
  merge_offset <~ rd_U32;;
  nzcv_mask <~ rd_U32;;
  carry_polarity <~ rd_U8;;
  producer <~ rd_U8;;
  match carry_of carry_polarity, producer_of producer with
  | Some carry, Some prod =>
      let s := mkSerialLinkSite code_offset guest_target kind bypass_offset resume_offset instruction linked
                 merge_offset (mkEdgeFlagsState nzcv_mask carry prod) in
      let code_size := Z.of_nat (length code) in
      rd_check (site_in_code code_size previous s) (
      rd_check (ValidFlagsBypass s code_size) (
      rd_lift (bypass_matches code s) (fun matches => rd_check matches (rd_ret s))))
  | _, _ => rd_fail
  end.

(** The offsets of the sites increase. *)
Fixpoint ReadLinkSites (code : list Z) (n : nat) (previous : option Z) : Reader (list SerialLinkSite) :=
  match n with
  | O => rd_ret []
  | S n' =>
      s <~ ReadLinkSite code previous;;
      l <~ ReadLinkSites code n' (Some (sl_code_offset s));;
      rd_ret (s :: l)
  end.

Definition fault_check (code_size : Z) (s : SerialFaultSite) : bool :=
  (Z.land (sf_host_begin s) 3 =? 0) && (sf_host_end s =? sf_host_begin s + 4) && (sf_host_end s <=? code_size) &&
  optional_offset_ok (sf_recovery_offset s) code_size && (sf_recovery_kind s <=? ExternalContinuation).

Definition ReadFaultSite (code_size : Z) : Reader SerialFaultSite :=
  guest_start <~ rd_U64;;
  host_begin <~ rd_U32;;
  host_end <~ rd_U32;;
  recovery_offset <~ rd_U32;;
  recovery_kind <~ rd_U8;;
  let s := mkSerialFaultSite guest_start host_begin host_end recovery_offset recovery_kind in
  rd_check (fault_check code_size s) (rd_ret s).

(** The [u32] size of the code: positive, whole instructions, all there. *)
Definition rd_code_size : Reader Z :=
  n <~ rd_U32;;
  (fun bs => if (n =? 0) || negb (n mod 4 =? 0) || (Remaining bs <? n) then Ok None else Ok (Some (n, bs))).

Definition ReadUnit : Reader SerialUnit :=
  guest_start <~ rd_U64;;
  feature_hash <~ rd_U64;;
  is_function <~ rd_U8;;
  code_size <~ rd_code_size;;
  code <~ rd_bytes (Z.to_nat code_size);;
  n <~ rd_count 8;;
  blocks <~ rd_times n (ReadBlock code_size);;
  n <~ rd_count 8;;
  relocs <~ rd_times n ReadReloc;;
  n <~ rd_count 39;;
  link_sites <~ ReadLinkSites code n None;;
  n <~ rd_count 21;;
  fault_sites <~ rd_times n (ReadFaultSite code_size);;
  rd_ret (mkSerialUnit guest_start feature_hash is_function code blocks relocs link_sites fault_sites).

(** ** The format of a unit *)

(** ** The interface of a writer and its reader *)

Class Codec {A} (write : A -> list Z) (rd : Reader A) (ok : A -> Prop) : Prop :=
  codec_run bs : Forall is_byte bs -> exists o, rd bs = Ok o /\
    forall a rest, o = Some (a, rest) <-> ok a /\ bs = write a ++ rest.

Lemma codec_intro {A} (write : A -> list Z) rd (ok : A -> Prop) :
  (forall bs, Forall is_byte bs -> exists o, rd bs = Ok o /\ forall a rest, o = Some (a, rest) <-> ok a /\ bs = write a ++ rest) ->
  Codec write rd ok.
Proof. done. Qed.

Lemma codec_ext {A} (write : A -> list Z) rd rd' (ok : A -> Prop) :
  Codec write rd ok -> (forall bs, Forall is_byte bs -> rd' bs = rd bs) -> Codec write rd' ok.
Proof. intros H E bs Hbs. rewrite E by done. by apply H. Qed.

Lemma codec_iff {A} (write write' : A -> list Z) rd (ok ok' : A -> Prop) :
  Codec write rd ok -> (forall a, ok' a <-> ok a) -> (forall a, ok a -> write' a = write a) -> Codec write' rd ok'.
Proof.
  intros H Hok Hw bs Hbs. destruct (H bs Hbs) as (o & Ho & Hiff). exists o. split; [done|]. intros a rest.
  rewrite Hiff, Hok. split; intros [Ha E]; (split; [done|]); by rewrite Hw in *.
Qed.

Lemma codec_ret {A} (r : A) : Codec (fun _ => []) (rd_ret r) (fun a => a = r).
Proof. intros bs _. exists (Some (r, bs)). split; [done|]. intros a rest. simpl. naive_solver. Qed.

Lemma codec_fail {A} (write : A -> list Z) : Codec write rd_fail (fun _ => False).
Proof. intros bs _. exists None. split; [done|]. naive_solver. Qed.

Lemma codec_check {A} (b : bool) (write : A -> list Z) rd (ok : A -> Prop) :
  (b = true -> Codec write rd ok) -> Codec write (rd_check b rd) (fun a => b = true /\ ok a).
Proof.
  intros H. destruct b; simpl.
  - eapply codec_iff; [by apply H|naive_solver|done].
  - eapply codec_iff; [apply codec_fail|naive_solver|done].
Qed.

(** A check that may itself be undefined, and is not. *)
Lemma codec_lift {A} (r : Res bool) (write : A -> list Z) rd (ok : A -> Prop) :
  (exists b, r = Ok b) -> Codec write rd ok ->
  Codec write (rd_lift r (fun b => rd_check b rd)) (fun a => r = Ok true /\ ok a).
Proof.
  intros [b ->] H. eapply codec_iff; [by apply (codec_check b)|naive_solver|done].
Qed.

Lemma codec_match {A B} (o : option B) (write : A -> list Z) k (ok : B -> A -> Prop) :
  (forall b, o = Some b -> Codec write (k b) (ok b)) ->
  Codec write (match o with Some b => k b | None => rd_fail end) (fun a => exists b, o = Some b /\ ok b a).
Proof.
  intros H. destruct o as [b|].
  - eapply codec_iff; [by apply (H b)|naive_solver|done].
  - eapply codec_iff; [apply codec_fail|naive_solver|done].
Qed.

(** Reading one value and then another that depends on it. *)
Lemma codec_bind_rel {A B} (w1 : A -> list Z) rd1 (ok1 : A -> Prop) (w2 : A -> B -> list Z) k (ok2 : A -> B -> Prop) (w : B -> list Z) :
  Codec w1 rd1 ok1 -> (forall a, ok1 a -> Codec (w2 a) (k a) (ok2 a)) ->
  (forall a b, ok1 a -> ok2 a b -> w b = w1 a ++ w2 a b) ->
  Codec w (rd_bind rd1 k) (fun b => exists a, ok1 a /\ ok2 a b).
Proof.
  intros H1 H2 Hw bs Hbs. destruct (H1 bs Hbs) as (o1 & E1 & Ho1). unfold rd_bind. rewrite E1. simpl.
  destruct o1 as [[a bs']|].
  - destruct (proj1 (Ho1 a bs') eq_refl) as [Ha ->]. apply Forall_app in Hbs as [_ Hbs'].
    destruct (H2 a Ha bs' Hbs') as (o2 & E2 & Ho2). exists o2. split; [done|]. intros b rest. rewrite Ho2. split.
    + intros [Hb ->]. split; [eauto|]. by rewrite (Hw a b), <- app_assoc.
    + intros [(a' & Ha' & Hb) E]. rewrite (Hw a' b), <- app_assoc in E by done.
      assert (Heq : Some (a, bs') = Some (a', w2 a' b ++ rest)) by (by apply Ho1). by injection Heq as -> ->.
  - exists None. split; [done|]. intros b rest. split; [done|]. intros [(a & Ha & Hb) E].
    rewrite (Hw a b), <- app_assoc in E by done. assert (Heq : None = Some (a, w2 a b ++ rest)) by (by apply Ho1). done.
Qed.

(** The field [f] of a record, and then the fields that follow. *)
Lemma codec_bind {A B} (f : B -> A) (w1 : A -> list Z) rd1 (ok1 : A -> Prop) (w2 : B -> list Z) k (ok2 : A -> B -> Prop) :
  Codec w1 rd1 ok1 -> (forall a, ok1 a -> Codec w2 (k a) (ok2 a)) -> (forall a b, ok1 a -> ok2 a b -> f b = a) ->
  Codec (fun b => w1 (f b) ++ w2 b) (rd_bind rd1 k) (fun b => ok1 (f b) /\ ok2 (f b) b).
Proof.
  intros H1 H2 Hf. eapply codec_iff.
  - apply (codec_bind_rel w1 rd1 ok1 (fun _ => w2) k ok2 (fun b => w1 (f b) ++ w2 b)); [done|done|].
    intros a b Ha Hb. by rewrite (Hf a b).
  - intros b. simpl. split; [eauto|]. intros (a & Ha & Hb). by rewrite (Hf a b).
  - done.
Qed.

Lemma rd_bind_assoc {A B C} (m : Reader A) (k : A -> Reader B) (k' : B -> Reader C) bs :
  rd_bind (rd_bind m k) k' bs = rd_bind m (fun a => rd_bind (k a) k') bs.
Proof. unfold rd_bind. destruct (m bs) as [[[a bs']|]|]; done. Qed.

(** ** Integers, byte strings, counted lists *)

Definition fits (w x : Z) : Prop := 0 <= x < 2 ^ w.

Lemma codec_bytes n : Codec (fun b => b) (rd_bytes n) (fun b => Forall is_byte b /\ length b = n).
Proof.
  intros bs Hbs. unfold rd_bytes. destruct (Nat.ltb_spec (length bs) n) as [Hn|Hn].
  - exists None. split; [done|]. intros a rest. split; [done|]. intros [[_ Ha] ->]. rewrite length_app in Hn. lia.
  - exists (Some (take n bs, drop n bs)). split; [done|]. intros a rest. split.
    + intros [= <- <-]. split_and!; [by apply Forall_take|rewrite length_take; lia|by rewrite take_drop].
    + intros [[_ Ha] ->]. by rewrite take_app_length', drop_app_length'.
Qed.

Lemma codec_int n : Codec (le_bytes n) (rd_int n) (fits (8 * Z.of_nat n)).
Proof.
  eapply codec_iff.
  - apply (codec_bind_rel _ _ _ (fun _ _ => []) _ (fun b v => v = le_value b) (le_bytes n) (codec_bytes n)).
    + intros b _. apply codec_ret.
    + intros b v [Hb Hn] ->. by rewrite <- Hn, le_bytes_le_value, app_nil_r.
  - intros v. split.
    + intros Hv. exists (le_bytes n v). split; [split; [apply le_bytes_Forall|apply length_le_bytes]|].
      by rewrite le_value_le_bytes, wrap_small.
    + intros (b & [Hb <-] & ->). by apply le_value_range.
  - done.
Qed.

#[export] Instance codec_U8 : Codec U8 rd_U8 (fits 8) := codec_int 1.
#[export] Instance codec_U16 : Codec U16 rd_U16 (fits 16) := codec_int 2.
#[export] Instance codec_U32 : Codec U32 rd_U32 (fits 32) := codec_int 4.
#[export] Instance codec_U64 : Codec U64 rd_U64 (fits 64) := codec_int 8.

Lemma codec_nil {A} (w : A -> list Z) : Codec (flat_map w) (rd_ret []) (fun l => l = []).
Proof. eapply codec_iff; [apply (codec_ret [])|done|]. by intros l ->. Qed.

(** One element, and then a list that may depend on it. *)
Lemma codec_cons {A} (w : A -> list Z) rd (ok : A -> Prop) k (okl : A -> list A -> Prop) :
  Codec w rd ok -> (forall a, ok a -> Codec (flat_map w) (k a) (okl a)) ->
  Codec (flat_map w) (a <~ rd;; l <~ k a;; rd_ret (a :: l)) (fun l => match l with [] => False | a :: l' => ok a /\ okl a l' end).
Proof.
  intros H Hk. eapply codec_iff.
  - apply (codec_bind_rel w rd ok (fun _ l => flat_map w (tail l)) _ (fun a l => exists l', okl a l' /\ l = a :: l') (flat_map w) H).
    + intros a Ha. apply (codec_bind_rel _ _ _ (fun _ _ => []) _ (fun l' l => l = a :: l') (fun l => flat_map w (tail l)) (Hk a Ha)).
      * intros l' _. apply codec_ret.
      * intros l' l _ ->. by rewrite app_nil_r.
    + by intros a l _ (l' & _ & ->).
  - intros [|a l]; naive_solver.
  - done.
Qed.

Lemma codec_times {A} n (w : A -> list Z) rd (ok : A -> Prop) :
  Codec w rd ok -> Codec (flat_map w) (rd_times n rd) (fun l => length l = n /\ Forall ok l).
Proof.
  intros H. induction n as [|n IH]; simpl.
  - eapply codec_iff; [apply codec_nil| |done]. intros [|a l]; naive_solver.
  - eapply codec_iff; [apply (codec_cons w rd ok _ _ H (fun _ _ => IH))| |done].
    intros [|a l]; simpl; [by split; [intros [? _]|]|]. rewrite Forall_cons. naive_solver.
Qed.

Lemma size_u32_small {A} (l : list A) : Z.of_nat (length l) < 2 ^ 32 -> size_u32 l = Z.of_nat (length l).
Proof. intros H. apply wrap_small. lia. Qed.

(** A size the rest of the input has room for: the elements are at least [d] bytes each. *)
Lemma codec_counted {A} (d : Z) (w : list A -> list Z) (k : nat -> Reader (list A)) (ok : nat -> list A -> Prop) :
  0 < d -> (forall n, Codec w (k n) (ok n)) ->
  (forall n l, ok n l -> length l = n /\ d * Z.of_nat n <= Z.of_nat (length (w l))) ->
  Codec (fun l => U32 (size_u32 l) ++ w l) (rd_bind (rd_count d) k) (fun l => Z.of_nat (length l) < 2 ^ 32 /\ ok (length l) l).
Proof.
  intros Hd Hk Hlen. eapply codec_iff.
  - eapply (codec_ext (fun l => U32 (size_u32 l) ++ w l)
      (rd_bind rd_U32 (fun n bs => if Remaining bs / d <? n then Ok None else k (Z.to_nat n) bs))
      _ (fun l => exists n, fits 32 n /\ ok (Z.to_nat n) l)).
    2: { intros bs _. unfold rd_count. rewrite rd_bind_assoc. unfold rd_bind at 1 3.
         destruct (rd_U32 bs) as [[[n bs']|]|]; simpl; try done. unfold rd_bind. by destruct (_ <? _). }
    apply (codec_bind_rel U32 rd_U32 (fits 32) (fun _ => w) _ (fun n l => ok (Z.to_nat n) l)); [apply _| |].
    + intros n Hn bs Hbs. destruct (Z.ltb_spec (Remaining bs / d) n) as [Hlt|Hge]; [|by apply Hk].
      exists None. split; [done|]. intros l rest. split; [done|]. intros [Hl ->].
      apply Hlen in Hl as [_ Hl]. unfold Remaining in Hlt. rewrite length_app in Hlt.
      assert (n <= Z.of_nat (length (w l) + length rest) / d); [|lia].
      apply Z.div_le_lower_bound; unfold fits in Hn; lia.
    + intros n l Hn Hl. apply Hlen in Hl as [Hl _]. unfold fits in Hn. rewrite size_u32_small by lia. by rewrite Hl, Z2Nat.id by lia.
  - intros l. split.
    + intros [Hl Hok]. exists (Z.of_nat (length l)). rewrite Nat2Z.id. split; [unfold fits; lia|done].
    + intros (n & Hn & Hl). destruct (Hlen _ _ Hl) as [E _]. unfold fits in Hn. split; [lia|]. by rewrite E.
  - done.
Qed.

Lemma flat_map_length_ge {A} (w : A -> list Z) d l :
  Forall (fun a => d <= Z.of_nat (length (w a))) l -> d * Z.of_nat (length l) <= Z.of_nat (length (flat_map w l)).
Proof. induction 1 as [|a l Ha _ IH]; simpl; [lia|]. rewrite length_app. lia. Qed.

(** A vector of a record, and then the fields that follow. *)
Lemma codec_bind_list {A B} (f : B -> list A) d (w : A -> list Z) rd (ok : list A -> Prop) (w2 : B -> list Z) k (ok2 : list A -> B -> Prop) :
  0 < d -> (forall n, Codec (flat_map w) (rd n) (fun l => length l = n /\ ok l)) ->
  (forall l, ok l -> Forall (fun a => d <= Z.of_nat (length (w a))) l) ->
  (forall l, Z.of_nat (length l) < 2 ^ 32 /\ ok l -> Codec w2 (k l) (ok2 l)) -> (forall l b, ok2 l b -> f b = l) ->
  Codec (fun b => write_list w (f b) ++ w2 b) (rd_bind (rd_count d) (fun n => rd_bind (rd n) k))
    (fun b => (Z.of_nat (length (f b)) < 2 ^ 32 /\ ok (f b)) /\ ok2 (f b) b).
Proof.
  intros Hd H Hlen Hk Hf. eapply codec_ext; [|intros bs _; symmetry; apply rd_bind_assoc].
  apply (codec_bind f (write_list w) _ (fun l => Z.of_nat (length l) < 2 ^ 32 /\ ok l)); [|done|by intros l b _; apply Hf].
  eapply codec_iff; [apply (codec_counted d (flat_map w) rd (fun n l => length l = n /\ ok l)); [done|done|]| |done].
  - intros n l [<- Hl]. split; [done|]. by apply flat_map_length_ge, Hlen.
  - intros l. naive_solver.
Qed.

(** A field of a record whose reader is an instance, and that the record read has it. *)
Ltac taken_apart := intros; repeat (destruct_and? || match goal with H : ex _ |- _ => destruct H end).
Ltac recovered := cbn beta; taken_apart; match goal with H : ?r = _ |- _ = _ => rewrite H; reflexivity end.
Ltac field f := eapply (codec_bind f); [apply _|intros ? ?|shelve].

(** ** The records *)

Definition reloc_valid (r : Relocation) : Prop :=
  fits 32 (r_code_offset r) /\ fits 16 (r_inst_count r) /\ fits 16 (r_reg r) /\ fits 16 (r_kind r) /\ fits 16 (r_use r) /\
  fits 64 (r_addend r) /\ fits 64 (r_recorded_value r).

Definition block_valid (code_size : Z) (b : SerialBlock) : Prop :=
  let c := sb_pending_flags_contract b in
  fits 64 (sb_guest_start b) /\ fits 64 (sb_guest_end b) /\ fits 32 (sb_code_offset b) /\ fits 64 (sb_guest_bytes_hash b) /\
  fits 32 (sb_direct_code_offset b) /\ fits 32 (sb_pending_flags_code_offset b) /\
  fits 32 (ec_overwrite_before_observe c) /\ fits 8 (ec_observed_nzcv_mask c) /\ fits 8 (sb_entry_flags b) /\
  block_check code_size b = true.

Definition site_valid (code : list Z) (previous : option Z) (s : SerialLinkSite) : Prop :=
  fits 32 (sl_code_offset s) /\ fits 64 (sl_guest_target s) /\ fits 8 (sl_kind s) /\ fits 32 (sl_flags_bypass_offset s) /\
  fits 32 (sl_flags_bypass_resume_offset s) /\ fits 32 (sl_flags_bypass_instruction s) /\
  fits 32 (sl_flags_bypass_linked_instruction s) /\ fits 32 (sl_flags_merge_branch_offset s) /\
  fits 32 (ef_valid_nzcv_mask (sl_edge_flags s)) /\
  site_in_code (Z.of_nat (length code)) previous s = true /\ ValidFlagsBypass s (Z.of_nat (length code)) = true /\
  bypass_matches code s = Ok true.

Fixpoint sites_valid (code : list Z) (previous : option Z) (l : list SerialLinkSite) : Prop :=
  match l with
  | [] => True
  | s :: l' => site_valid code previous s /\ sites_valid code (Some (sl_code_offset s)) l'
  end.

Definition fault_valid (code_size : Z) (s : SerialFaultSite) : Prop :=
  fits 64 (sf_guest_start s) /\ fits 32 (sf_host_begin s) /\ fits 32 (sf_host_end s) /\ fits 32 (sf_recovery_offset s) /\
  fits 8 (sf_recovery_kind s) /\ fault_check code_size s = true.

Definition counted {A} (P : list A -> Prop) (l : list A) : Prop := Z.of_nat (length l) < 2 ^ 32 /\ P l.

Definition code_valid (code : list Z) : Prop :=
  Forall is_byte code /\ 0 < Z.of_nat (length code) < 2 ^ 32 /\ Z.of_nat (length code) mod 4 = 0.

Definition unit_valid (u : SerialUnit) : Prop :=
  let size := Z.of_nat (length (su_code u)) in
  fits 64 (su_guest_start u) /\ fits 64 (su_feature_hash u) /\ fits 8 (su_is_function u) /\ code_valid (su_code u) /\
  counted (Forall (block_valid size)) (su_blocks u) /\ counted (Forall reloc_valid) (su_relocs u) /\
  counted (sites_valid (su_code u) None) (su_link_sites u) /\ counted (Forall (fault_valid size)) (su_fault_sites u).

#[export] Instance codec_reloc : Codec write_reloc ReadReloc reloc_valid.
Proof.
  eapply codec_iff.
  - field r_code_offset. field r_inst_count. field r_reg. field r_kind. field r_use. field r_addend. field r_recorded_value.
    apply codec_ret. Unshelve. all: recovered.
  - intros []. unfold reloc_valid. naive_solver.
  - intros r _. unfold write_reloc. by rewrite ?app_nil_r.
Qed.

Lemma flag_byte_recovered (x : bool) a : x = negb (a =? 0) -> fits 8 a -> a <= 1 -> bool_z x = a.
Proof. unfold fits. intros -> Ha Hle. destruct (Z.eqb_spec a 0); simpl; lia. Qed.

Lemma bool_z_flag x : negb (bool_z x =? 0) = x.
Proof. by destruct x. Qed.

#[export] Instance codec_block code_size : Codec write_block (ReadBlock code_size) (block_valid code_size).
Proof.
  eapply codec_iff.
  - field sb_guest_start. field sb_guest_end. field sb_code_offset. field sb_guest_bytes_hash. field sb_direct_code_offset.
    field sb_pending_flags_code_offset. field (fun b => ec_overwrite_before_observe (sb_pending_flags_contract b)).
    field (fun b => ec_observed_nzcv_mask (sb_pending_flags_contract b)).
    field (fun b => bool_z (ec_commits_before_fault (sb_pending_flags_contract b))).
    field (fun b => bool_z (ec_barrier_before_commit (sb_pending_flags_contract b))).
    field sb_entry_flags. apply codec_check. intros _. apply codec_ret. Unshelve. all: try recovered.
    all: cbn beta; intros; destruct_and?; match goal with H : _ && _ = true |- _ => apply andb_true_iff in H as [[? ?]%andb_true_iff _] end;
      apply flag_byte_recovered; [|done|lia]; match goal with H : ?r = _ |- _ => rewrite H; reflexivity end.
  - intros [? ? ? ? ? ? [? ? x y] ?]. unfold block_valid. cbn [sb_pending_flags_contract ec_commits_before_fault ec_barrier_before_commit].
    rewrite !bool_z_flag. assert (Hx : forall z, (bool_z z <=? 1) = true /\ fits 8 (bool_z z)) by (by intros []).
    destruct (Hx x) as [-> ?], (Hx y) as [-> ?]. simpl. naive_solver.
  - intros b _. unfold write_block. by rewrite ?app_nil_r.
Qed.

(** ** Link and fault sites *)

Lemma carry_of_index p v : carry_of v = Some p <-> v = carry_index p.
Proof.
  unfold carry_of. split.
  - repeat case_match; try done; intros [= <-]; simpl; lia.
  - intros ->. by destruct p.
Qed.

Lemma producer_of_index p v : producer_of v = Some p <-> v = producer_index p.
Proof.
  unfold producer_of. split.
  - repeat case_match; try done; intros [= <-]; simpl; lia.
  - intros ->. by destruct p.
Qed.

Lemma carry_of_inj c c' : carry_of (carry_index c) = Some c' <-> c' = c.
Proof. rewrite carry_of_index. by destruct c, c'. Qed.

Lemma producer_of_inj p p' : producer_of (producer_index p) = Some p' <-> p' = p.
Proof. rewrite producer_of_index. by destruct p, p'. Qed.

Lemma fits_index c p : fits 8 (carry_index c) /\ fits 8 (producer_index p).
Proof. by destruct c, p. Qed.

Lemma ReadInst_in_code code offset : 0 <= offset -> offset + 4 <= Z.of_nat (length code) -> exists v, ReadInst code offset = Ok v.
Proof. intros. unfold ReadInst. rewrite (proj2 (andb_true_iff _ _)) by lia. by eexists. Qed.

(** The checks of [ValidFlagsBypass] keep both [memcpy]s inside the code. *)
Lemma bypass_in_code code s : fits 32 (sl_flags_bypass_offset s) -> ValidFlagsBypass s (Z.of_nat (length code)) = true ->
  exists b, bypass_matches code s = Ok b.
Proof.
  unfold fits, ValidFlagsBypass, bypass_matches. intros Hbegin.
  destruct (EdgeFlags_IsWellFormed _); [|done]. destruct (HasFlagsBypass s); [|by eexists]. simpl.
  destruct (HasPendingPState _); [|done]. simpl. intros H.
  assert (Hin : sl_flags_bypass_offset s + 4 <= Z.of_nat (length code) /\
    (sl_flags_merge_branch_offset s <> kNone32 -> 0 <= sl_flags_merge_branch_offset s /\ sl_flags_merge_branch_offset s + 4 <= Z.of_nat (length code))).
  { destruct (Z.eqb_spec (sl_flags_merge_branch_offset s) kNone32); simpl in H.
    - split; [|done]. destruct (negb _ && negb (Z.land (sl_flags_bypass_linked_instruction s) _ =? _)); [done|].
      destruct (negb _ && _); [done|]. destruct (negb (sl_flags_bypass_linked_instruction s =? 0)); lia.
    - lia. }
  destruct Hin as [H1 H2]. destruct (ReadInst_in_code code (sl_flags_bypass_offset s)) as [v ->]; [lia..|]. simpl.
  destruct (negb (v =? _)); [by exists false|]. destruct (Z.eqb_spec (sl_flags_merge_branch_offset s) kNone32); simpl; [by exists true|].
  destruct (ReadInst_in_code code (sl_flags_merge_branch_offset s)) as [v' ->]; [lia..|]. by eexists.
Qed.

#[export] Instance codec_link_site code previous : Codec write_link_site (ReadLinkSite code previous) (site_valid code previous).
Proof.
  eapply codec_iff.
  - field sl_code_offset. field sl_guest_target. field sl_kind. field sl_flags_bypass_offset. field sl_flags_bypass_resume_offset.
    field sl_flags_bypass_instruction. field sl_flags_bypass_linked_instruction. field sl_flags_merge_branch_offset.
    field (fun s => ef_valid_nzcv_mask (sl_edge_flags s)). field (fun s => carry_index (ef_carry_polarity (sl_edge_flags s))).
    field (fun s => producer_index (ef_producer (sl_edge_flags s))).
    apply codec_match. intros carry ?. apply codec_match. intros prod ?. apply codec_check. intros _. apply codec_check. intros Hv.
    apply codec_lift; [|apply codec_ret]. by apply bypass_in_code. Unshelve. all: try recovered.
    all: cbn beta; taken_apart; match goal with H : ?r = _ |- _ = _ => rewrite H; simpl; symmetry; by (apply carry_of_index || apply producer_of_index) end.
  - intros [? ? ? ? ? ? ? ? [? c p]]. unfold site_valid. simpl. destruct (fits_index c p). setoid_rewrite carry_of_inj. setoid_rewrite producer_of_inj.
    split; [|taken_apart; subst; by split_and!]. intros. destruct_and?. split_and!; [done..|]. exists c. split; [done|]. exists p. by split_and!.
  - intros s _. unfold write_link_site. by rewrite ?app_nil_r.
Qed.

Lemma codec_link_sites code n previous :
  Codec (flat_map write_link_site) (ReadLinkSites code n previous) (fun l => length l = n /\ sites_valid code previous l).
Proof.
  revert previous. induction n as [|n IH]; intros previous; simpl.
  - eapply codec_iff; [apply codec_nil| |done]. intros [|s l]; naive_solver.
  - eapply codec_iff; [apply (codec_cons write_link_site (ReadLinkSite code previous) (site_valid code previous) (fun s => ReadLinkSites code n (Some (sl_code_offset s))) (fun s l => length l = n /\ sites_valid code (Some (sl_code_offset s)) l)); [apply _|by intros s _; apply IH]| |done].
    intros [|s l]; simpl; naive_solver.
Qed.

#[export] Instance codec_fault_site code_size : Codec write_fault_site (ReadFaultSite code_size) (fault_valid code_size).
Proof.
  eapply codec_iff.
  - field sf_guest_start. field sf_host_begin. field sf_host_end. field sf_recovery_offset. field sf_recovery_kind.
    apply codec_check. intros _. apply codec_ret. Unshelve. all: recovered.
  - intros []. unfold fault_valid. simpl. naive_solver.
  - intros s _. unfold write_fault_site. by rewrite ?app_nil_r.
Qed.

(** ** The unit *)

Lemma write_lengths : (forall b, length (write_block b) = 44%nat) /\ (forall r, length (write_reloc r) = 28%nat) /\
  (forall s, length (write_link_site s) = 39%nat) /\ (forall s, length (write_fault_site s) = 21%nat).
Proof. by split_and!. Qed.

Definition rd_code : Reader (list Z) := n <~ rd_code_size;; rd_bytes (Z.to_nat n).

Lemma codec_code : Codec (fun c => U32 (size_u32 c) ++ c) rd_code code_valid.
Proof.
  eapply codec_ext; [|intros bs _; apply rd_bind_assoc]. eapply codec_iff.
  - apply (codec_bind_rel U32 rd_U32 (fits 32) (fun _ c => c) _
      (fun n c => (0 < n /\ n mod 4 = 0) /\ Forall is_byte c /\ length c = Z.to_nat n) (fun c => U32 (size_u32 c) ++ c)); [apply _| |].
    + intros n Hn bs Hbs. unfold fits in Hn. unfold rd_bind at 1.
      destruct (decide (0 < n /\ n mod 4 = 0)) as [Hz|Hz].
      * destruct (codec_bytes (Z.to_nat n) bs Hbs) as (o & Ho & Hiff). exists o. split; [|intros a rest; rewrite Hiff; naive_solver].
        rewrite <- Ho. unfold rd_bytes, Remaining. destruct (Z.eqb_spec n 0); [lia|]. destruct (Z.eqb_spec (n mod 4) 0); [|lia]. simpl.
        destruct (Z.ltb_spec (Z.of_nat (length bs)) n); simpl; destruct (Nat.ltb_spec (length bs) (Z.to_nat n)); by try lia.
      * exists None. split; [|naive_solver].
        destruct (Z.eqb_spec n 0); [done|]. destruct (Z.eqb_spec (n mod 4) 0); [lia|done].
    + intros n c Hn [_ [_ Hc]]. unfold fits in Hn. rewrite size_u32_small by lia. do 2 f_equal. lia.
  - unfold code_valid, fits. intros c. split.
    + intros (Hb & Hc & Hm). exists (Z.of_nat (length c)). rewrite Nat2Z.id. split_and!; [lia|lia|lia|done|done|done].
    + intros (n & Hn & Hz & Hb & Hc). assert (n = Z.of_nat (length c)) as -> by lia. split_and!; [done|lia..].
  - done.
Qed.

(** The code, and then the fields that follow, which are read with its size. *)
Lemma codec_bind_code {B} (f : B -> list Z) (w2 : B -> list Z) (k : Z -> list Z -> Reader B) (ok2 : list Z -> B -> Prop) :
  (forall c, code_valid c -> Codec w2 (k (Z.of_nat (length c)) c) (ok2 c)) -> (forall c b, ok2 c b -> f b = c) ->
  Codec (fun b => (U32 (size_u32 (f b)) ++ f b) ++ w2 b) (rd_bind rd_code_size (fun n => rd_bind (rd_bytes (Z.to_nat n)) (k n)))
    (fun b => code_valid (f b) /\ ok2 (f b) b).
Proof.
  intros Hk Hf. eapply codec_ext.
  - apply (codec_bind f _ rd_code code_valid w2 (fun c => k (Z.of_nat (length c)) c) ok2 codec_code Hk). intros c b _. apply Hf.
  - intros bs Hbs. unfold rd_code, rd_code_size, rd_bind.
    destruct (codec_U32 bs Hbs) as (o & -> & Hiff). simpl. destruct o as [[n bs']|]; [|done].
    destruct (proj1 (Hiff n bs') eq_refl) as [Hn _]. unfold fits in Hn. destruct (_ || _); [done|]. simpl.
    unfold rd_bytes. destruct (Nat.ltb_spec (length bs') (Z.to_nat n)); [done|]. simpl.
    by rewrite length_take, Nat.min_l, Z2Nat.id by lia.
Qed.

Lemma codec_unit : Codec (WriteUnit []) ReadUnit unit_valid.
Proof.
  destruct write_lengths as (Hb & Hr & Hs & Hf).
  eapply codec_iff.
  - field su_guest_start. field su_feature_hash. field su_is_function. eapply (codec_bind_code su_code).
    + intros c Hc.
      eapply (codec_bind_list su_blocks 8 write_block (fun n => rd_times n (ReadBlock (Z.of_nat (length c)))) (Forall (block_valid (Z.of_nat (length c)))));
        [done|intros n; apply codec_times, _|intros l _; apply Forall_true; intros; rewrite Hb; lia|intros blocks _|shelve].
      eapply (codec_bind_list su_relocs 8 write_reloc (fun n => rd_times n ReadReloc) (Forall reloc_valid));
        [done|intros n; apply codec_times, _|intros l _; apply Forall_true; intros; rewrite Hr; lia|intros relocs _|shelve].
      eapply (codec_bind_list su_link_sites 39 write_link_site (fun n => ReadLinkSites c n None) (sites_valid c None));
        [done|intros n; apply codec_link_sites|intros l _; apply Forall_true; intros; rewrite Hs; lia|intros sites _|shelve].
      eapply (codec_bind_list su_fault_sites 21 write_fault_site (fun n => rd_times n (ReadFaultSite (Z.of_nat (length c)))) (Forall (fault_valid (Z.of_nat (length c)))));
        [done|intros n; apply codec_times, _|intros l _; apply Forall_true; intros; rewrite Hf; lia|intros faults _|shelve].
      apply codec_ret.
    + shelve.
  Unshelve. all: try recovered.
  - intros []. unfold unit_valid, counted. simpl. naive_solver.
  - intros u _. unfold WriteUnit. by rewrite ?app_nil_r, <- !app_assoc.
Qed.

Lemma codec_write {A} (write : A -> list Z) rd (ok : A -> Prop) a rest : Codec write rd ok ->
  ok a -> Forall is_byte (write a ++ rest) -> rd (write a ++ rest) = Ok (Some (a, rest)).
Proof. intros H Ha Hb. destruct (H _ Hb) as (o & -> & Hiff). f_equal. by apply Hiff. Qed.

(** A prefix of what is written is not read as another value. *)
Lemma codec_prefix {A} (write : A -> list Z) rd (ok : A -> Prop) a p q : Codec write rd ok ->
  ok a -> Forall is_byte (write a) -> write a = p ++ q -> q <> [] -> rd p = Ok None.
Proof.
  intros H Ha Hb E Hq. pose proof Hb as Hp. rewrite E, Forall_app in Hp. destruct Hp as [Hp _].
  destruct (H p Hp) as ([[b rest]|] & -> & Hiff); [|done]. destruct (proj1 (Hiff b rest) eq_refl) as [Hb' ->].
  assert (H1 : rd (write b ++ rest ++ q) = Ok (Some (b, rest ++ q))).
  { apply (codec_write _ _ _ _ _ H); [done|]. by rewrite app_assoc, <- E. }
  rewrite app_assoc, <- E in H1. rewrite <- (app_nil_r (write a)), (codec_write _ _ _ _ _ H) in H1; [|done|by rewrite app_nil_r].
  injection H1 as _ H1. symmetry in H1. by apply app_eq_nil in H1 as [_ ->].
Qed.

Lemma bytes_flat_map {A} (w : A -> list Z) l : Forall (fun a => Forall is_byte (w a)) l -> Forall is_byte (flat_map w l).
Proof. induction 1; simpl; [done|]. by apply Forall_app. Qed.

Lemma WriteUnit_bytes u : unit_valid u -> Forall is_byte (WriteUnit [] u).
Proof.
  intros (_ & _ & _ & (Hc & _) & _). unfold WriteUnit, write_list, U8, U16, U32, U64.
  rewrite !Forall_app. split_and!; try apply le_bytes_Forall; [done|done|..]; apply bytes_flat_map, Forall_true; intros x;
    unfold write_block, write_reloc, write_link_site, write_fault_site, U8, U16, U32, U64; rewrite !Forall_app; split_and!; apply le_bytes_Forall.
Qed.

(** (C20) [ReadUnit] and [WriteUnit] are inverse to each other on the valid units, and only on them: on any
    bytes [ReadUnit] returns without reading outside the input or the code, and it accepts exactly the
    inputs that start with what [WriteUnit] writes for a unit that passes all checks, yields that unit
    and leaves the rest. *)
Theorem ReadUnit_exact (bs : list Z) :
  Forall is_byte bs ->
  exists o, ReadUnit bs = Ok o /\ forall u rest, o = Some (u, rest) <-> unit_valid u /\ bs = WriteUnit [] u ++ rest.
Proof. apply codec_unit. Qed.

(** A truncated unit is rejected: no proper prefix of a written unit is read as a unit, valid or other. *)
Theorem ReadUnit_truncated (u : SerialUnit) (p q : list Z) :
  unit_valid u -> WriteUnit [] u = p ++ q -> q <> [] -> ReadUnit p = Ok None.
Proof. intros Hu. apply (codec_prefix _ _ _ u p q codec_unit); [done|by apply WriteUnit_bytes]. Qed.

(** ** A unit with every kind of record *)

Definition sample_contract : EdgeFlagsTargetContract := mkContract kEdgeNZCVMask 0 true false.
Definition sample_code : list Z := flat_map U32 [0xD2800000; 0xD503201F; 0x94000001; 0x94000002].
Definition sample_unit : SerialUnit :=
  mkSerialUnit 0x401000 7 1 sample_code
    [mkSerialBlock 0x401000 0x401010 0 99 kNone32 4 sample_contract 1; mkSerialBlock 0x401010 0x401010 8 5 12 kNone32 (mkContract 0 3 false true) 0]
    [mkReloc 0 1 0 HostImageAbs64 UseBranchTarget 0x10 0x7F0010]
    [mkSerialLinkSite 12 0x402000 1 8 12 0x94000001 0xB3401C1A kNone32 (mkEdgeFlagsState kEdgeNZCVMask CarryDirect ProducerArithmetic)]
    [mkSerialFaultSite 0x401004 4 8 kNone32 1].

Lemma fits_bool w x : ((0 <=? x) && (x <? 2 ^ w)) = true -> fits w x.
Proof. unfold fits. lia. Qed.

Lemma sample_valid : unit_valid sample_unit.
Proof.
  unfold unit_valid, counted, code_valid, sample_unit. simpl su_code. simpl su_blocks. simpl su_relocs. simpl su_link_sites. simpl su_fault_sites.
  split_and!; repeat constructor; try (apply fits_bool; by vm_compute); try by vm_compute.
Qed.

Lemma sample_bytes rest : Forall is_byte rest -> Forall is_byte (WriteUnit [] sample_unit ++ rest).
Proof. intros. apply Forall_app. split; [apply WriteUnit_bytes, sample_valid|done]. Qed.

Lemma ReadUnit_exact_witness : exists o, ReadUnit (WriteUnit [] sample_unit ++ [1; 2]) = Ok o /\ o = Some (sample_unit, [1; 2]).
Proof.
  destruct (ReadUnit_exact (WriteUnit [] sample_unit ++ [1; 2])) as (o & Ho & Hiff); [apply sample_bytes; by repeat constructor|].
  exists o. split; [done|]. apply Hiff. split; [apply sample_valid|done].
Defined.

Lemma ReadUnit_truncated_witness : ReadUnit (take 200 (WriteUnit [] sample_unit)) = Ok None.
Proof.
  apply (ReadUnit_truncated sample_unit _ (drop 200 (WriteUnit [] sample_unit))); [apply sample_valid|by rewrite take_drop|by vm_compute].
Defined.
