(* ===== verification/JitCache.v ===== *)
(** * The disk cache of translations

    Model of the file of runtime/backend/jit_cache.cpp: [JitDiskCache::Save] writes a header with the
    validity key and a hash of the payload, the slots of the dispatch table and the units;
    [JitDiskCache::Load] checks the header, replays the slots and reads the units.  [HashBytes] and
    [ValidityKey] are those of code_serial.cpp, [HashGuestRange] compares the guest code a block was
    translated from.

    The units are kept in an [unordered_map]: they are a list here, in the order of its iteration.
    The key and the feature hash of a module are computed from the configuration, files and the
    environment: parameters.  What [ReviveUnit] does with a unit is left out but for the hash it compares
    the guest bytes with; the entry contracts it restores are in FunctionEntry.v. *)

From Stdlib Require Import ZArith Lia.
From stdpp Require Import numbers base gmap list.
From S2P Require Import Prelude MachineInt CodeSerial TranslateTable TranslateTableProps.

Local Open Scope Z_scope.
Local Open Scope svm_scope.

(** ** Hashes and the key *)

Definition kFnvPrime : Z := 0x100000001B3.
Definition kFnvOffset : Z := 0xCBF29CE484222325.

Definition HashBytes (data : list Z) (seed : Z) : Z := foldl (fun h b => wrap 64 (Z.lxor h b * kFnvPrime)) seed data.

Record ValidityKey := mkKey {
  vk_format_version : Z;
  vk_build_id : Z;
  vk_config_hash : Z;
  vk_env_hash : Z;
  vk_guest_id : Z
}.

#[export] Instance ValidityKey_eq_dec : EqDecision ValidityKey.
Proof. solve_decision. Defined.

Record CacheHeader := mkHeader {
  ch_magic : list Z;
  ch_key : ValidityKey;
  ch_payload_size : Z;
  ch_payload_hash : Z
}.

(** "SVMJITC" and 1. *)
Definition kMagic : list Z := [83; 86; 77; 74; 73; 84; 67; 1].

(** ** [Save] *)

Definition write_header (h : CacheHeader) : list Z :=
  ch_magic h ++ U64 (vk_format_version (ch_key h)) ++ U64 (vk_build_id (ch_key h)) ++ U64 (vk_config_hash (ch_key h)) ++
  U64 (vk_env_hash (ch_key h)) ++ U64 (vk_guest_id (ch_key h)) ++ U64 (ch_payload_size h) ++ U64 (ch_payload_hash h).

Definition write_slot (s : Z * Z) : list Z := U64 (fst s) ++ U32 (snd s).

(** Key and index of the entries [ForEachEntry] visits. *)
Definition table_slots (t : TranslateTable) : list (Z * Z) := (fun e => (snd (fst e), fst (fst e))) <$> ForEachEntry t.

Definition write_payload (slots : list (Z * Z)) (units : list SerialUnit) : list Z :=
  foldl WriteUnit (U64 (Z.of_nat (length slots)) ++ flat_map write_slot slots ++ U64 (Z.of_nat (length units))) units.

Definition Save (key : ValidityKey) (t : TranslateTable) (units : list SerialUnit) : list Z :=
  let payload := write_payload (table_slots t) units in
  write_header (mkHeader kMagic key (Z.of_nat (length payload)) (HashBytes payload kFnvOffset)) ++ payload.

(** ** [Load] *)

Definition rd_header : Reader CacheHeader :=
  magic <~ rd_bytes 8;;
  version <~ rd_U64;;
  build <~ rd_U64;;
  config <~ rd_U64;;
  env <~ rd_U64;;
  guest <~ rd_U64;;
  size <~ rd_U64;;
  hash <~ rd_U64;;
  rd_ret (mkHeader magic (mkKey version build config env guest) size hash).

Definition header_ok (key : ValidityKey) (h : CacheHeader) (payload : list Z) : bool :=
  bool_decide (ch_magic h = kMagic) && bool_decide (ch_key h = key) && (ch_payload_size h =? Remaining payload) &&
  (HashBytes payload kFnvOffset =? ch_payload_hash h).

Definition rd_slot : Reader (Z * Z) := key <~ rd_U64;; index <~ rd_U32;; rd_ret (key, index).

Definition rd_slots : Reader (list (Z * Z)) :=
  n <~ rd_U64;;
  (fun bs => if Remaining bs / 12 <? n then Ok None else rd_times (Z.to_nat n) rd_slot bs).

(** The units up to the first that is not read; whether that is all of them. *)
Fixpoint read_units (fuel : nat) (n : Z) (bs : list Z) : Res (list SerialUnit * bool) :=
  if n <=? 0 then Ok ([], true)
  else match fuel with
       | O => Err EFuel
       | S fuel' =>
           r <-? ReadUnit bs;
           match r with
           | Some (u, rest) => q <-? read_units fuel' (n - 1) rest; Ok (u :: fst q, snd q)
           | None => Ok ([], false)
           end
       end.

(** A rejected file, with the table it leaves; or the units handed to [ReviveUnit], and whether all units were read. *)
Inductive LoadResult :=
| Ignored (t : TranslateTable)
| Loaded (units : list SerialUnit) (complete : bool) (t : TranslateTable).

Definition revivable (feature_hash : Z -> Z) (u : SerialUnit) : bool :=
  negb (bool_decide (su_blocks u = [])) && (su_feature_hash u =? feature_hash (su_guest_start u)).

(** What follows a header that was accepted: the slots, all or nothing, and the units. *)
Definition LoadPayload (feature_hash : Z -> Z) (payload : list Z) (t : TranslateTable) : Res LoadResult :=
  s <-? rd_slots payload;
  match s with
  | None => Ok (Ignored t)
  | Some (slots, rest) =>
      r <-? replay ((fun s => (snd s, fst s, 0)) <$> slots) t;
      if negb (fst r) then Ok (Ignored (Table_Clear (snd r)))
      else
        n <-? rd_U64 rest;
        match n with
        | None => Ok (Ignored (Table_Clear (snd r)))
        | Some (n, rest) =>
            q <-? read_units (S (length rest)) n rest;
            Ok (Loaded (List.filter (revivable feature_hash) (fst q)) (snd q) (snd r))
        end
  end.

Definition Load (feature_hash : Z -> Z) (key : ValidityKey) (raw : list Z) (t : TranslateTable) : Res LoadResult :=
  h <-? rd_header raw;
  match h with
  | None => Ok (Ignored t)
  | Some (h, payload) => if header_ok key h payload then LoadPayload feature_hash payload t else Ok (Ignored t)
  end.

(** ** [HashGuestRange] *)

Record GuestConfig := mkGuestConfig { gc_memory_base : Z; gc_guest_addr_mask : Z }.

Definition kMaxGuestBlockBytes : Z := 2 ^ 20.

(** The [n] bytes of host memory at [a], when all are readable. *)
Definition host_range (memory : gmap Z Z) (a : Z) (n : nat) : option (list Z) := mapM (fun i => memory !! (a + Z.of_nat i)) (seq 0 n).

Definition HashGuestRange (cfg : GuestConfig) (memory : gmap Z Z) (start end_ : Z) : option Z :=
  if (end_ <=? start) || (kMaxGuestBlockBytes <? end_ - start) then None
  else
    let mask := if gc_guest_addr_mask cfg =? 0 then 2 ^ 64 - 1 else gc_guest_addr_mask cfg in
    let lo := Z.land start mask in
    if negb (gc_guest_addr_mask cfg =? 0) &&
       ((wrap 64 (wrap 64 (mask + 1) - lo) <? end_ - start) || negb (Z.land start (not64 mask) =? Z.land (end_ - 1) (not64 mask))) then None
    else data ← host_range memory (wrap 64 (gc_memory_base cfg + lo)) (Z.to_nat (end_ - start));
         Some (HashBytes data kFnvOffset).

(** ** The file format *)

Definition key_valid (k : ValidityKey) : Prop :=
  fits 64 (vk_format_version k) /\ fits 64 (vk_build_id k) /\ fits 64 (vk_config_hash k) /\ fits 64 (vk_env_hash k) /\ fits 64 (vk_guest_id k).

Definition header_valid (h : CacheHeader) : Prop :=
  (Forall is_byte (ch_magic h) /\ length (ch_magic h) = 8%nat) /\ key_valid (ch_key h) /\ fits 64 (ch_payload_size h) /\ fits 64 (ch_payload_hash h).

#[export] Instance codec_header : Codec write_header rd_header header_valid.
Proof.
  eapply codec_iff.
  - eapply (codec_bind ch_magic); [apply codec_bytes|intros magic Hmagic|shelve].
    field (fun h => vk_format_version (ch_key h)). field (fun h => vk_build_id (ch_key h)). field (fun h => vk_config_hash (ch_key h)).
    field (fun h => vk_env_hash (ch_key h)). field (fun h => vk_guest_id (ch_key h)). field ch_payload_size. field ch_payload_hash.
    apply codec_ret. Unshelve. all: recovered.
  - intros [? [] ? ?]. unfold header_valid, key_valid. simpl. naive_solver.
  - intros h _. unfold write_header. by rewrite ?app_nil_r.
Qed.

Definition slot_valid (s : Z * Z) : Prop := fits 64 (fst s) /\ fits 32 (snd s).

#[export] Instance codec_slot : Codec write_slot rd_slot slot_valid.
Proof.
  eapply codec_iff.
  - field (@fst Z Z). field (@snd Z Z). apply codec_ret. Unshelve. all: recovered.
  - intros [? ?]. unfold slot_valid. simpl. naive_solver.
  - intros s _. unfold write_slot. by rewrite ?app_nil_r.
Qed.

Definition write_slots (l : list (Z * Z)) : list Z := U64 (Z.of_nat (length l)) ++ flat_map write_slot l.

Lemma codec_slots : Codec write_slots rd_slots (fun l => Z.of_nat (length l) < 2 ^ 64 /\ Forall slot_valid l).
Proof.
  eapply codec_iff.
  - apply (codec_bind_rel U64 rd_U64 (fits 64) (fun _ => flat_map write_slot) _
      (fun n l => Z.of_nat (length l) = n /\ Forall slot_valid l) write_slots); [apply _| |].
    + intros n Hn bs Hbs. unfold fits in Hn. destruct (Z.ltb_spec (Remaining bs / 12) n) as [Hlt|Hge].
      * exists None. split; [done|]. intros l rest. split; [done|]. intros [[Hl _] ->]. unfold Remaining in Hlt.
        rewrite length_app in Hlt. pose proof (flat_map_length_ge write_slot 12 l ltac:(by apply Forall_true)).
        assert (n <= Z.of_nat (length (flat_map write_slot l) + length rest) / 12); [|lia]. apply Z.div_le_lower_bound; lia.
      * destruct (codec_times (Z.to_nat n) write_slot rd_slot slot_valid codec_slot bs Hbs) as (o & Ho & Hiff).
        exists o. split; [done|]. intros l rest. rewrite Hiff. split; intros [[Hl Hok] E]; (split; [split; [lia|done]|done]).
    + intros n l _ [<- _]. done.
  - intros l. split; [intros [Hl Hok]; exists (Z.of_nat (length l)); split; [unfold fits; lia|done]|].
    intros (n & Hn & <- & Hok). split; [apply Hn|done].
  - done.
Qed.

(** Reading the next value of a written input. *)
Lemma codec_step {A B} (write : A -> list Z) rd (ok : A -> Prop) (k : option (A * list Z) -> Res B) a rest : Codec write rd ok ->
  ok a -> Forall is_byte (write a ++ rest) -> rbind (rd (write a ++ rest)) k = k (Some (a, rest)).
Proof. intros H Ha Hb. by rewrite (codec_write _ _ _ _ _ H). Qed.

(** Any input: a reader returns, and what is left is bytes. *)
Lemma codec_total {A} (write : A -> list Z) rd (ok : A -> Prop) bs : Codec write rd ok -> Forall is_byte bs ->
  rd bs = Ok None \/ exists a rest, rd bs = Ok (Some (a, rest)) /\ ok a /\ Forall is_byte rest /\ bs = write a ++ rest.
Proof.
  intros H Hbs. destruct (H bs Hbs) as ([[a rest]|] & -> & Hiff); [right|by left].
  destruct (proj1 (Hiff a rest) eq_refl) as [Ha ->]. apply Forall_app in Hbs as [_ Hrest]. eauto 10.
Qed.

(** ** Reading units *)

Lemma WriteUnit_app w u : WriteUnit w u = w ++ WriteUnit [] u.
Proof. done. Qed.

Lemma foldl_WriteUnit w units : foldl WriteUnit w units = w ++ flat_map (WriteUnit []) units.
Proof.
  revert w. induction units as [|u units IH]; intros w; cbn [foldl flat_map]; [by rewrite app_nil_r|].
  by rewrite IH, (WriteUnit_app w u), app_assoc.
Qed.

Lemma WriteUnit_length u : (1 <= length (WriteUnit [] u))%nat.
Proof. unfold WriteUnit. rewrite !length_app. unfold U64. rewrite !length_le_bytes. lia. Qed.

(** One unit of fuel per byte is enough; the units read are valid. *)
Lemma read_units_total n bs fuel : Forall is_byte bs -> (length bs < fuel)%nat ->
  exists l c, read_units fuel n bs = Ok (l, c) /\ Forall unit_valid l.
Proof.
  revert n bs. induction fuel as [|fuel IH]; intros n bs Hbs Hf; [lia|]. cbn [read_units].
  destruct (n <=? 0); [by exists [], true|].
  destruct (codec_total _ _ _ bs codec_unit Hbs) as [->|(u & rest & -> & Hu & Hrest & ->)]; cbn [rbind]; [by exists [], false|].
  rewrite length_app in Hf. pose proof (WriteUnit_length u).
  destruct (IH (n - 1) rest) as (l & c & -> & Hl); [done|lia|]. exists (u :: l), c. split; [done|by constructor].
Qed.

Lemma read_units_written units fuel : Forall unit_valid units -> (length (flat_map (WriteUnit []) units) < fuel)%nat ->
  read_units fuel (Z.of_nat (length units)) (flat_map (WriteUnit []) units) = Ok (units, true).
Proof.
  intros Hu. revert fuel. induction Hu as [|u units Hu Hus IH]; intros fuel Hf; [by destruct fuel|].
  destruct fuel as [|fuel]; [lia|]. cbn [read_units]. destruct (Z.leb_spec (Z.of_nat (length (u :: units))) 0) as [Hz|_]; [simpl in Hz; lia|].
  cbn [flat_map] in *. rewrite length_app in Hf. pose proof (WriteUnit_length u).
  rewrite (codec_step _ _ _ _ _ _ codec_unit Hu).
  - replace (Z.of_nat (length (u :: units)) - 1) with (Z.of_nat (length units)) by (simpl; lia). by rewrite IH by lia.
  - apply Forall_app. split; [by apply WriteUnit_bytes|]. apply bytes_flat_map. by eapply Forall_impl; [exact Hus|apply WriteUnit_bytes].
Qed.

(** ** Loading what was saved *)

Lemma HashBytes_range data seed : fits 64 seed -> fits 64 (HashBytes data seed).
Proof.
  unfold HashBytes, fits. revert seed. induction data as [|b data IH]; intros seed Hs; [done|]. simpl. apply IH. by apply wrap_range.
Qed.

Lemma write_payload_eq slots units :
  write_payload slots units = write_slots slots ++ U64 (Z.of_nat (length units)) ++ flat_map (WriteUnit []) units.
Proof. unfold write_payload, write_slots. by rewrite foldl_WriteUnit, <- !app_assoc. Qed.

Lemma payload_bytes slots units : Forall unit_valid units -> Forall is_byte (write_payload slots units).
Proof.
  intros Hu. rewrite write_payload_eq. unfold write_slots. rewrite !Forall_app. split_and!; try apply le_bytes_Forall.
  - apply bytes_flat_map, Forall_true. intros s. apply Forall_app. split; apply le_bytes_Forall.
  - apply bytes_flat_map. by eapply Forall_impl; [exact Hu|apply WriteUnit_bytes].
Qed.

Lemma header_bytes key size hash : Forall is_byte (write_header (mkHeader kMagic key size hash)).
Proof. unfold write_header. rewrite !Forall_app. split_and!; try apply le_bytes_Forall. by repeat constructor. Qed.

Lemma omap_length_le {A B} (f : A -> option B) l : (length (omap f l) <= length l)%nat.
Proof. induction l as [|x l IH]; [done|]. cbn. destruct (f x); simpl; lia. Qed.

Lemma table_slots_length t : table_ok t -> Z.of_nat (length (table_slots t)) < 2 ^ 30.
Proof.
  intros Hok. pose proof (size_bounds t Hok). unfold table_slots. rewrite length_fmap. unfold ForEachEntry.
  match goal with |- Z.of_nat (length (omap ?f ?l)) < _ => pose proof (omap_length_le f l) as Hl end.
  rewrite length_imap, length_take in Hl. lia.
Qed.

Lemma table_slots_valid t : table_ok t -> Forall (fun e => fits 64 (fst e)) (entries t) -> Forall slot_valid (table_slots t).
Proof.
  intros Hok Hk. pose proof (size_bounds t Hok). unfold table_slots. apply Forall_fmap. unfold ForEachEntry. apply Forall_forall.
  intros [[i k] v] Hin. apply list_elem_of_omap in Hin as ([j [k' v']] & Hin & He). simpl in He. destruct (k' =? 0); [done|].
  injection He as <- <- <-. apply elem_of_lookup_imap in Hin as (j' & e & [= <- <-] & Hj). apply lookup_take_Some in Hj as [Hj Hlt].
  split; simpl; [|unfold fits; lia]. exact (Forall_lookup_1 _ _ _ _ Hk Hj).
Qed.

Lemma replay_keys l t : replay ((fun s => (snd s, fst s, 0)) <$> ((fun e : Z * Z * Z => (snd (fst e), fst (fst e))) <$> l)) t = replay l t.
Proof.
  revert t. induction l as [|[[i k] v] l IH]; intros t; [done|]. cbn. destruct (PutAt i k t) as [[[] t']|]; [apply IH|done|done].
Qed.

(** What [Load] sees of a saved file: its key, and the payload behind the header. *)
Lemma load_header feature_hash key key' t units t' : key_valid key -> Forall unit_valid units ->
  Z.of_nat (length (write_payload (table_slots t) units)) < 2 ^ 64 ->
  Load feature_hash key' (Save key t units) t' =
    if bool_decide (key = key') then LoadPayload feature_hash (write_payload (table_slots t) units) t' else Ok (Ignored t').
Proof.
  intros Hkey Hu Hlen. pose proof (payload_bytes (table_slots t) units Hu) as Hb. unfold Save, Load. cbv zeta.
  rewrite (codec_step _ _ _ _ _ _ codec_header).
  - unfold header_ok, Remaining. cbn [ch_magic ch_key ch_payload_size ch_payload_hash].
    rewrite (bool_decide_true (kMagic = kMagic)) by done. rewrite !Z.eqb_refl, !andb_true_r. simpl. by case_bool_decide.
  - split; [split; [by repeat constructor|done]|]. split; [done|]. split; [unfold fits; simpl; lia|by apply HashBytes_range].
  - apply Forall_app. split; [apply header_bytes|done].
Qed.


(** A file saved under another key is ignored and the dispatch table is left as it is, whatever the file holds:
    no translation of another program version, configuration, environment or guest is revived. *)
Theorem load_other_key (feature_hash : Z -> Z) (key key' : ValidityKey) (t t' : TranslateTable) (units : list SerialUnit) :
  key_valid key -> Forall unit_valid units -> Z.of_nat (length (write_payload (table_slots t) units)) < 2 ^ 64 -> key <> key' ->
  Load feature_hash key' (Save key t units) t' = Ok (Ignored t').
Proof.
  intros Hkey Hu Hlen Hne. by rewrite load_header, bool_decide_false by done.
Qed.

(** ** Any file *)

Lemma PutAt_total i k t : 0 <= i -> Z.of_nat (length (entries t)) = table_size t + 10 -> exists b t', PutAt i k t = Ok (b, t') /\
  table_size t' = table_size t /\ length (entries t') = length (entries t).
Proof.
  intros Hi Hlen. unfold PutAt. destruct (_ || _) eqn:E; [by exists false, t|]. apply orb_false_iff in E as [_ E].
  unfold entry_at. destruct (lookup_lt_is_Some_2 (entries t) (Z.to_nat i)) as [e ->]; [lia|]. simpl.
  destruct (fst e =? k); [by exists true, t|]. destruct (negb _); [by exists false, t|]. eexists true, _. split; [done|].
  unfold store_key, store_value, table_size. simpl. by rewrite !length_alter.
Qed.

Lemma replay_total l t : Forall (fun e => 0 <= fst (fst e)) l -> Z.of_nat (length (entries t)) = table_size t + 10 ->
  exists b t', replay l t = Ok (b, t').
Proof.
  intros Hl. revert t. induction Hl as [|[[i k] v] l Hi _ IH]; intros t Hlen; [by exists true, t|]. cbn [replay].
  destruct (PutAt_total i k t Hi Hlen) as (b & t1 & -> & Hs & Hn). cbn [rbind fst snd].
  destruct b; [|by exists false, t1]. apply IH. by rewrite Hs, Hn.
Qed.

(** (C22) No file makes [Load] fail: whatever its bytes, [Load] returns, without a read outside the file or a store outside the table,
    and it revives a unit only from a file with the current key and the hash of its payload; each unit it
    hands out has passed every check of [ReadUnit] and has the features of its module. *)
Theorem load_any_file (feature_hash : Z -> Z) (key : ValidityKey) (raw : list Z) (t : TranslateTable) :
  Forall is_byte raw -> table_ok t ->
  (exists t', Load feature_hash key raw t = Ok (Ignored t')) \/
  exists units c t' h payload, Load feature_hash key raw t = Ok (Loaded units c t') /\
    raw = write_header h ++ payload /\ header_ok key h payload = true /\
    Forall (fun u => unit_valid u /\ revivable feature_hash u = true) units.
Proof.
  intros Hraw Hok. unfold Load.
  destruct (codec_total _ _ _ raw codec_header Hraw) as [->|(h & payload & -> & _ & Hp & Hsplit)]; cbn [rbind]; [left; by eexists|].
  destruct (header_ok key h payload) eqn:Hh; [|left; by eexists]. unfold LoadPayload.
  destruct (codec_total _ _ _ payload codec_slots Hp) as [->|(slots & rest & -> & [_ Hslots] & Hrest & _)]; cbn [rbind]; [left; by eexists|].
  destruct (replay_total ((fun s => (snd s, fst s, 0)) <$> slots) t) as (b & t' & ->); [|apply ok_len; exact Hok|].
  { apply Forall_fmap. eapply Forall_impl; [exact Hslots|]. by intros s [_ [? _]]. }
  cbn [rbind fst snd]. destruct b; simpl negb; cbv iota; [|left; by eexists].
  destruct (codec_total _ _ _ rest codec_U64 Hrest) as [->|(n & rest' & -> & _ & Hrest' & _)]; cbn [rbind]; [left; by eexists|].
  destruct (read_units_total n rest' (S (length rest')) Hrest' ltac:(lia)) as (l & c & -> & Hl). cbn [rbind fst snd].
  right. eexists _, c, t', h, payload. split; [done|]. split; [done|]. split; [done|]. apply Forall_forall. intros u Hu.
  apply list_elem_of_In, List.filter_In in Hu as [Hu Hr]. apply list_elem_of_In in Hu. by split; [eapply Forall_forall|].
Qed.

(** ** The guest bytes of a block *)

Lemma land_mask k x : 0 <= k -> Z.land x (2 ^ k - 1) = wrap k x.
Proof. intros Hk. rewrite <- wrap_land_ones by done. f_equal. rewrite Z.ones_equiv. lia. Qed.

Lemma host_range_lookup memory a n l : host_range memory a n = Some l ->
  length l = n /\ forall i, (i < n)%nat -> memory !! (a + Z.of_nat i) = l !! i.
Proof.
  unfold host_range. intros H. apply mapM_Some in H. pose proof (Forall2_length _ _ _ H) as Hn. rewrite length_seq in Hn.
  split; [done|]. intros i Hi. destruct (Forall2_lookup_l _ _ _ _ _ H (lookup_seq_lt 0 n i Hi)) as (b & Hb & Hm).
  rewrite Hb. by rewrite <- Hm.
Qed.

(** (C26) In a bounded guest window of [2 ^ k] bytes, [HashGuestRange] hashes the bytes of the guest addresses of the block, one by one,
    and nothing outside the window: when it answers, the range does not leave the window, the [i]-th byte hashed
    is the host byte of the guest address [start + i], and the answer is the hash of these bytes. *)
Theorem HashGuestRange_in_window (cfg : GuestConfig) (memory : gmap Z Z) (start end_ k h : Z) :
  0 < k < 64 -> gc_guest_addr_mask cfg = 2 ^ k - 1 -> 0 <= start -> end_ < 2 ^ 64 ->
  0 <= gc_memory_base cfg -> gc_memory_base cfg + 2 ^ k <= 2 ^ 64 ->
  HashGuestRange cfg memory start end_ = Some h ->
  exists data, h = HashBytes data kFnvOffset /\ Z.of_nat (length data) = end_ - start /\ 0 < end_ - start <= kMaxGuestBlockBytes /\
    forall i, 0 <= i < end_ - start ->
      wrap k (start + i) = wrap k start + i /\ memory !! (gc_memory_base cfg + wrap k (start + i)) = data !! Z.to_nat i.
Proof.
  intros Hk Hmask Hstart Hend Hbase Htop. unfold HashGuestRange. rewrite Hmask.
  assert (Hpow : 2 ^ k <= 2 ^ 63) by (apply Z.pow_le_mono_r; lia). pose proof (pow2_pos k ltac:(lia)) as Hpos.
  assert (2 <= 2 ^ k) by (change 2 with (2 ^ 1) at 1; apply Z.pow_le_mono_r; lia).
  destruct (Z.leb_spec end_ start); [done|]. destruct (Z.ltb_spec kMaxGuestBlockBytes (end_ - start)); [done|]. simpl.
  destruct (Z.eqb_spec (2 ^ k - 1) 0); [lia|]. simpl. rewrite land_mask by lia. pose proof (wrap_range k start ltac:(lia)) as Hlo.
  rewrite (wrap_small 64 (2 ^ k - 1 + 1)), (wrap_small 64 (_ - wrap k start)), (wrap_small 64 (gc_memory_base cfg + _)) by lia.
  destruct (Z.ltb_spec (2 ^ k - 1 + 1 - wrap k start) (end_ - start)) as [|Hfits]; [done|]. simpl.
  destruct (negb _); [done|]. intros (data & Hdata & [= <-])%bind_Some. apply host_range_lookup in Hdata as [Hlen Hdata].
  exists data. split_and!; [done|lia|lia|lia|]. intros i Hi.
  assert (Hw : wrap k (start + i) = wrap k start + i).
  { rewrite <- (wrap_add_l k k) by lia. apply wrap_small. lia. }
  split; [done|]. rewrite Hw, <- Hdata by lia. f_equal. lia.
Qed.

(** ** Examples *)

Definition sample_key : ValidityKey := mkKey 20 1 2 3 4.

Lemma sample_key_valid k : 0 <= k < 100 -> key_valid (mkKey 20 1 2 3 k).
Proof. intros Hk. unfold key_valid, fits. simpl. lia. Qed.

Lemma sample_units_valid : Forall unit_valid [sample_unit].
Proof. constructor; [apply sample_valid|constructor]. Qed.


Lemma load_other_key_witness :
  Load (fun _ => 7) (mkKey 20 1 2 3 5) (Save sample_key one_entry [sample_unit]) one_entry = Ok (Ignored one_entry).
Proof. apply load_other_key; [by apply (sample_key_valid 4)|apply sample_units_valid|by vm_compute|done]. Defined.

Lemma load_any_file_witness :
  (exists t', Load (fun _ => 7) sample_key [83; 86; 77] one_entry = Ok (Ignored t')) \/
  exists units c t' h payload, Load (fun _ => 7) sample_key [83; 86; 77] one_entry = Ok (Loaded units c t') /\
    [83; 86; 77] = write_header h ++ payload /\ header_ok sample_key h payload = true /\
    Forall (fun u => unit_valid u /\ revivable (fun _ => 7) u = true) units.
Proof. apply load_any_file; [by repeat constructor|apply one_entry_ok]. Defined.

Lemma HashGuestRange_in_window_witness : exists h data,
  HashGuestRange (mkGuestConfig 0x10000 0xFFF) (list_to_map (imap (fun i b => (0x10010 + Z.of_nat i, b)) [72; 137; 229])) 0x7010 0x7013 = Some h /\
  h = HashBytes data kFnvOffset /\ Z.of_nat (length data) = 3.
Proof.
  set (memory := list_to_map _ : gmap Z Z). destruct (HashGuestRange (mkGuestConfig 0x10000 0xFFF) memory 0x7010 0x7013) as [h|] eqn:E; [|by vm_compute in E].
  destruct (HashGuestRange_in_window (mkGuestConfig 0x10000 0xFFF) memory 0x7010 0x7013 12 h) as (data & -> & Hl & _); [lia|done|lia|lia|simpl; lia|simpl; lia|exact E|].
  eexists _, data. split; [done|]. split; [done|]. by rewrite Hl.
Defined.
