(* ===== verification/CodeReloc.v ===== *)
(** * Relocation of serialized code

    Model of [ScanCodeUnit] and [ApplyRelocations] (runtime/backend/code_serial.cpp): the scanner looks for
    host addresses that the code of a unit materialises with move-wide instructions (MOVZ, MOVN, MOVK)
    and refuses units it does not understand; when the unit is revived in another process the runs
    are rewritten for the new base of the host image.

    Instructions are 32-bit words, decoded by masks as in the source.  The array [pending] is a map in
    which a register without an entry is [State::Empty].  [exec_move] is the architecture's meaning
    of the move-wide instructions, against which the rewriting is stated. *)

From Stdlib Require Import ZArith Lia String.
From stdpp Require Import numbers base gmap list sorting strings.
From S2P Require Import Prelude MachineInt CodeSerial.

Local Open Scope Z_scope.
Local Open Scope svm_scope.

(** ** Decoding *)

Record HostImageInfo := mkImage { hi_base : Z; hi_size : Z }.

Definition ImageContains (image : HostImageInfo) (value : Z) : bool :=
  negb (hi_size image =? 0) && (hi_base image <=? value) && (value <? wrap 64 (hi_base image + hi_size image)).

Definition kInstSize : Z := 4.

Definition IsMoveWide (insn : Z) : bool := Z.land insn 0x1F800000 =? 0x12800000.
Definition MoveWideOpc (insn : Z) : Z := Z.land (Z.shiftr insn 29) 3.
Definition MoveWideSf (insn : Z) : Z := Z.land (Z.shiftr insn 31) 1.
Definition MoveWideShift (insn : Z) : Z := Z.land (Z.shiftr insn 21) 3 * 16.
Definition MoveWideImm16 (insn : Z) : Z := Z.land (Z.shiftr insn 5) 0xFFFF.
Definition MoveWideRd (insn : Z) : Z := Z.land insn 0x1F.

Definition EncodeMoveWide (sf opc shift imm16 rd : Z) : Z :=
  Z.lor (Z.lor (Z.lor (Z.lor (Z.lor (wrap 32 (Z.shiftl sf 31)) (wrap 32 (Z.shiftl opc 29))) (Z.shiftl 0x25 23))
    (wrap 32 (Z.shiftl (shift / 16) 21))) (Z.shiftl (Z.land imm16 0xFFFF) 5)) (Z.land rd 0x1F).

Definition IsOrrImm (insn : Z) : bool := Z.land insn 0x7F800000 =? 0x32000000.
Definition OrrRn (insn : Z) : Z := Z.land (Z.shiftr insn 5) 0x1F.
Definition OrrRd (insn : Z) : Z := Z.land insn 0x1F.
Definition IsBrOrBlr (insn : Z) : bool := (Z.land insn 0xFFFFFC1F =? 0xD61F0000) || (Z.land insn 0xFFFFFC1F =? 0xD63F0000).
Definition BranchRegRn (insn : Z) : Z := Z.land (Z.shiftr insn 5) 0x1F.
Definition IsLoadStoreGroup (insn : Z) : bool := Z.land insn 0x0A000000 =? 0x08000000.
Definition LoadStoreRn (insn : Z) : Z := Z.land (Z.shiftr insn 5) 0x1F.
Definition IsLiteralLoad (insn : Z) : bool :=
  let masked := Z.land insn 0x3B000000 in (masked =? 0x18000000) || (masked =? 0x1C000000).
Definition IsAdr (insn : Z) : bool := Z.land insn 0x9F000000 =? 0x10000000.
Definition IsAdrp (insn : Z) : bool := Z.land insn 0x9F000000 =? 0x90000000.
Definition IsBImm (insn : Z) : bool := Z.land insn 0x7C000000 =? 0x14000000.
Definition IsBLImm (insn : Z) : bool := Z.land insn 0xFC000000 =? 0x94000000.
Definition BImmOffset (insn : Z) : Z := to_signed 26 (Z.land insn 0x03FFFFFF) * 4.
Definition IsCondBranch (insn : Z) : bool := Z.land insn 0xFF000010 =? 0x54000000.
Definition IsCompareBranch (insn : Z) : bool := Z.land insn 0x7E000000 =? 0x34000000.
Definition Imm19Offset (insn : Z) : Z := to_signed 19 (Z.land (Z.shiftr insn 5) 0x7FFFF) * 4.
Definition IsTestBranch (insn : Z) : bool := Z.land insn 0x7E000000 =? 0x36000000.
Definition Imm14Offset (insn : Z) : Z := to_signed 14 (Z.land (Z.shiftr insn 5) 0x3FFF) * 4.

(** The distance of a pc-relative branch. *)
Definition branch_offset (insn : Z) : option Z :=
  if IsBImm insn then Some (BImmOffset insn)
  else if IsCondBranch insn || IsCompareBranch insn then Some (Imm19Offset insn)
  else if IsTestBranch insn then Some (Imm14Offset insn)
  else None.

(** ** [ScanCodeUnit] *)

Inductive PendingState := Known | Opaque.
#[export] Instance PendingState_eq_dec : EqDecision PendingState.
Proof. solve_decision. Defined.

Record Pending := mkPending {
  pd_state : PendingState;
  pd_value : Z;
  pd_first_offset : Z;
  pd_inst_count : Z;
  pd_consumed : bool
}.

Record Candidate := mkCandidate {
  ca_reg : Z;
  ca_first_offset : Z;
  ca_inst_count : Z;
  ca_value : Z;
  ca_use : Z
}.

(** The variables of the loop; [sn_external_bl] are the declared sites that are not reached yet. *)
Record Scan := mkScan {
  sn_pending : gmap Z Pending;
  sn_candidates : list Candidate;
  sn_external_bl : list Z;
  sn_materializations : Z
}.

Record ScanResult := mkScanResult {
  sr_ok : bool;
  sr_reject_reason : string;
  sr_relocs : list Relocation;
  sr_materializations : Z
}.

Definition rejected (s : Scan) (reason : string) : ScanResult := mkScanResult false reason [] (sn_materializations s).

Definition set_pending (p : gmap Z Pending) (s : Scan) : Scan :=
  mkScan p (sn_candidates s) (sn_external_bl s) (sn_materializations s).
Definition set_reg (reg : Z) (p : Pending) (s : Scan) : Scan := set_pending (<[reg := p]> (sn_pending s)) s.
Definition add_candidate (c : Candidate) (s : Scan) : Scan :=
  mkScan (sn_pending s) (sn_candidates s ++ [c]) (sn_external_bl s) (sn_materializations s).
Definition set_external_bl (l : list Z) (s : Scan) : Scan :=
  mkScan (sn_pending s) (sn_candidates s) l (sn_materializations s).
Definition count_materialization (s : Scan) : Scan :=
  mkScan (sn_pending s) (sn_candidates s) (sn_external_bl s) (wrap 32 (sn_materializations s + 1)).

Definition invalidate (reg : Z) (s : Scan) : Scan := if reg <? 31 then set_pending (delete reg (sn_pending s)) s else s.

(** The halfword a move-wide instruction writes, and the bits it keeps. *)
Definition move_field (insn : Z) : Z := wrap 64 (Z.shiftl (MoveWideImm16 insn) (MoveWideShift insn)).
Definition move_keep (insn : Z) : Z := not64 (wrap 64 (Z.shiftl 0xFFFF (MoveWideShift insn))).

(** The value of MOVZ, or of MOVN. *)
Definition move_start (insn : Z) : Z :=
  let value := if MoveWideOpc insn =? 2 then move_field insn else not64 (move_field insn) in
  if MoveWideSf insn =? 0 then Z.land value 0xFFFFFFFF else value.

Definition opaque (offset : Z) : Pending := mkPending Opaque 0 offset 1 false.

Definition scan_move_wide (offset insn : Z) (s : Scan) : Scan :=
  let rd := MoveWideRd insn in
  if 31 <=? rd then s
  else
    count_materialization
      (if MoveWideOpc insn =? 3 then
         match sn_pending s !! rd with
         | Some p =>
             if bool_decide (pd_state p = Known)
             then set_reg rd (mkPending Known (Z.lor (Z.land (pd_value p) (move_keep insn)) (move_field insn)) (pd_first_offset p)
                                (wrap 32 (pd_inst_count p + 1)) (pd_consumed p)) s
             else set_reg rd (opaque offset) s
         | None => set_reg rd (opaque offset) s
         end
       else set_reg rd (mkPending Known (move_start insn) offset 1 false) s).

Definition candidate_of (reg : Z) (p : Pending) (use : Z) : Candidate :=
  mkCandidate reg (pd_first_offset p) (pd_inst_count p) (pd_value p) use.

(** A branch to a register. *)
Definition scan_branch_register (image : HostImageInfo) (insn : Z) (s : Scan) : ScanResult + Scan :=
  let rn := BranchRegRn insn in
  match (if rn <? 31 then sn_pending s !! rn else None) with
  | Some p =>
      if bool_decide (pd_state p = Opaque) then inl (rejected s "indirect branch through an undecodable constant")
      else if negb (ImageContains image (pd_value p)) then inl (rejected s "constant branch target outside the host image")
      else inr (set_pending (delete rn (sn_pending s)) (add_candidate (candidate_of rn p UseBranchTarget) s))
  | None => inr s
  end.

Definition consume (p : Pending) : Pending := mkPending (pd_state p) (pd_value p) (pd_first_offset p) (pd_inst_count p) true.

Definition scan_load_store (image : HostImageInfo) (insn : Z) (s : Scan) : Scan :=
  let rn := LoadStoreRn insn in
  let s := match (if rn <? 31 then sn_pending s !! rn else None) with
           | Some p =>
               if bool_decide (pd_state p = Known) && ImageContains image (pd_value p) && negb (pd_consumed p)
               then add_candidate (candidate_of rn p UseMemoryBase) (set_reg rn (consume p) s)
               else s
           | None => s
           end in
  let s := invalidate (Z.land insn 0x1F) s in
  if Z.land insn 0x3A000000 =? 0x28000000 then invalidate (Z.land (Z.shiftr insn 10) 0x1F) s else s.

(** A branch that leaves the unit must be the BL of the next declared site. *)
Definition scan_relative (code_size offset insn : Z) (s : Scan) : ScanResult + Scan :=
  match branch_offset insn with
  | Some rel =>
      let target := offset + rel in
      if (target <? 0) || (code_size <=? target) then
        match sn_external_bl s with
        | site :: rest => if (site =? offset) && IsBLImm insn then inr (set_external_bl rest s)
                          else inl (rejected s "pc-relative branch leaves the unit")
        | [] => inl (rejected s "pc-relative branch leaves the unit")
        end
      else inr s
  | None => inr s
  end.

(** One instruction. *)
Definition scan_inst (image : HostImageInfo) (code_size offset insn : Z) (s : Scan) : ScanResult + Scan :=
  if IsAdr insn || IsAdrp insn then inl (rejected s "unit contains adr/adrp")
  else if IsLiteralLoad insn then inl (rejected s "unit contains a literal-pool load")
  else
    match scan_relative code_size offset insn s with
    | inl r => inl r
    | inr s =>
        if IsMoveWide insn then inr (scan_move_wide offset insn s)
        else if IsOrrImm insn && (OrrRn insn =? 31) then
          let rd := OrrRd insn in
          inr (count_materialization (if rd <? 31 then set_reg rd (opaque offset) s else s))
        else if IsBrOrBlr insn then scan_branch_register image insn s
        else if IsLoadStoreGroup insn then inr (scan_load_store image insn s)
        else inr (invalidate (Z.land insn 0x1F) s)
    end.

(** [for (i = 0; i < n_inst; ++i)]; [n] instructions are left. *)
Fixpoint scan_loop (image : HostImageInfo) (code : list Z) (n : nat) (offset : Z) (s : Scan) : Res (ScanResult + Scan) :=
  match n with
  | O => Ok (inr s)
  | S n' =>
      insn <-? ReadInst code offset;
      match scan_inst image (Z.of_nat (length code)) offset insn s with
      | inl r => Ok (inl r)
      | inr s' => scan_loop image code n' (offset + kInstSize) s'
      end
  end.

(** A constant of the image that no use has consumed is still in a register. *)
Definition unused_constant (image : HostImageInfo) (s : Scan) : bool :=
  existsb (fun reg => match sn_pending s !! Z.of_nat reg with
                      | Some p => bool_decide (pd_state p = Known) && negb (pd_consumed p) && ImageContains image (pd_value p)
                      | None => false
                      end) (seq 0 31).

Definition reloc_of (image : HostImageInfo) (c : Candidate) : Relocation :=
  mkReloc (ca_first_offset c) (wrap 16 (ca_inst_count c)) (wrap 16 (ca_reg c)) HostImageAbs64 (ca_use c)
    (wrap 64 (ca_value c - hi_base image)) (ca_value c).

Fixpoint adjacent_find (l : list Z) : bool :=
  match l with a :: (b :: _) as l' => (a =? b) || adjacent_find l' | _ => false end.

Definition ScanCodeUnit (code : list Z) (image : HostImageInfo) (guest_window_size : Z) (external_bl_offsets : list Z) : Res ScanResult :=
  let reject reason := Ok (mkScanResult false reason [] 0) in
  let size := Z.of_nat (length code) in
  if negb (size mod kInstSize =? 0) || (size =? 0) then reject "unit size is not a multiple of 4"%string
  else if hi_size image =? 0 then reject "host image span unknown"%string
  else if negb (guest_window_size =? 0) && (hi_base image <? guest_window_size) then reject "guest window overlaps the host image"%string
  else
    let allowed := merge_sort Z.le external_bl_offsets in
    if adjacent_find allowed then reject "duplicate external BL offset"%string
    else if existsb (fun offset => negb (Z.land offset (kInstSize - 1) =? 0) || (size <? offset + kInstSize)) allowed
         then reject "external BL offset is out of range"%string
    else
      r <-? scan_loop image code (Z.to_nat (size / kInstSize)) 0 (mkScan ∅ [] allowed 0);
      match r with
      | inl result => Ok result
      | inr s =>
          if negb (bool_decide (sn_external_bl s = [])) then Ok (rejected s "declared external BL is not an out-of-unit BL")
          else if unused_constant image s then Ok (rejected s "host-image constant with no modelled use")
          else Ok (mkScanResult true "" (reloc_of image <$> sn_candidates s) (sn_materializations s))
      end.

(** ** [ApplyRelocations] *)

(** [memcpy] of an instruction into the code. *)
Definition WriteInst (offset insn : Z) (code : list Z) : Res (list Z) :=
  if (0 <=? offset) && (offset + 4 <=? Z.of_nat (length code))
  then Ok (take (Z.to_nat offset) code ++ le_bytes 4 insn ++ drop (Z.to_nat offset + 4) code)
  else Err EUndefined.

(** The checks of a relocation that do not look at the code. *)
Definition reloc_error (code_size : Z) (image : HostImageInfo) (r : Relocation) : option string :=
  if negb (r_kind r =? HostImageAbs64) then Some "unknown relocation kind"%string
  else if (r_inst_count r =? 0) || (4 <? r_inst_count r) || (31 <=? r_reg r) then Some "malformed relocation"%string
  else if negb (r_code_offset r mod kInstSize =? 0) || (code_size <? r_code_offset r + r_inst_count r * kInstSize)
       then Some "relocation out of range"%string
  else if hi_size image <=? r_addend r then Some "relocation addend outside the host image"%string
  else None.

(** The loop over the run, from instruction [k] on: the value its instructions leave in the register. *)
Fixpoint observe (code : list Z) (r : Relocation) (n : nat) (k : Z) (observed : Z) : Res (string + Z) :=
  match n with
  | O => Ok (inr observed)
  | S n' =>
      insn <-? ReadInst code (r_code_offset r + k * kInstSize);
      if negb (IsMoveWide insn) || negb (MoveWideRd insn =? r_reg r) then Ok (inl "relocation site is not a move-wide run"%string)
      else if k =? 0 then
        if (MoveWideOpc insn =? 2) || (MoveWideOpc insn =? 0) then observe code r n' (k + 1) (move_start insn)
        else Ok (inl "relocation run does not start with movz/movn"%string)
      else if negb (MoveWideOpc insn =? 3) then Ok (inl "relocation run has a non-movk continuation"%string)
      else observe code r n' (k + 1) (Z.lor (Z.land observed (move_keep insn)) (move_field insn))
  end.

Definition halfword (value s : Z) : Z := Z.land (Z.shiftr value (16 * s)) 0xFFFF.

Definition nonzero_halfwords (value : Z) : Z :=
  Z.of_nat (length (List.filter (fun s => negb (halfword value s =? 0)) [0; 1; 2; 3])).

(** The loop over the four halfwords: MOVZ for the first that is not zero, MOVK for the others. *)
Fixpoint emit (r : Relocation) (value : Z) (slots : list Z) (written : Z) (code : list Z) : Res (Z * list Z) :=
  match slots with
  | [] => Ok (written, code)
  | s :: slots' =>
      if r_inst_count r <=? written then Ok (written, code)
      else if halfword value s =? 0 then emit r value slots' written code
      else
        code <-? WriteInst (r_code_offset r + written * kInstSize)
                   (EncodeMoveWide 1 (if written =? 0 then 2 else 3) (s * 16) (halfword value s) (r_reg r)) code;
        emit r value slots' (written + 1) code
  end.

(** The slots that are left repeat the halfword of their position. *)
Fixpoint pad (r : Relocation) (value : Z) (n : nat) (k : Z) (code : list Z) : Res (list Z) :=
  match n with
  | O => Ok code
  | S n' =>
      code <-? WriteInst (r_code_offset r + k * kInstSize) (EncodeMoveWide 1 3 (k * 16) (halfword value k) (r_reg r)) code;
      pad r value n' (k + 1) code
  end.

Definition rewrite_run (r : Relocation) (value : Z) (code : list Z) : Res (list Z) :=
  e <-? emit r value [0; 1; 2; 3] 0 code;
  e <-? (if fst e =? 0 then code <-? WriteInst (r_code_offset r) (EncodeMoveWide 1 2 0 0 (r_reg r)) (snd e); Ok (1, code) else Ok e);
  pad r value (Z.to_nat (r_inst_count r - fst e)) (fst e) (snd e).

(** One relocation: an error, or the code with the run rewritten. *)
Definition apply_reloc (image : HostImageInfo) (r : Relocation) (code : list Z) : Res (string + list Z) :=
  match reloc_error (Z.of_nat (length code)) image r with
  | Some msg => Ok (inl msg)
  | None =>
      o <-? observe code r (Z.to_nat (r_inst_count r)) 0 0;
      match o with
      | inl msg => Ok (inl msg)
      | inr observed =>
          if negb (observed =? r_recorded_value r) then Ok (inl "relocation site value does not match the record"%string)
          else
            let value := wrap 64 (hi_base image + r_addend r) in
            if r_inst_count r <? Z.max 1 (nonzero_halfwords value)
            then Ok (inl "rebased value needs more move-wide slots than recorded"%string)
            else code <-? rewrite_run r value code; Ok (inr code)
      end
  end.

Fixpoint apply_relocs (image : HostImageInfo) (relocs : list Relocation) (code : list Z) : Res (option string * list Z) :=
  match relocs with
  | [] => Ok (None, code)
  | r :: relocs' =>
      a <-? apply_reloc image r code;
      match a with inl msg => Ok (Some msg, code) | inr code' => apply_relocs image relocs' code' end
  end.

(** The error, if any, and the code, which an error may leave partly rewritten. *)
Definition ApplyRelocations (code : list Z) (relocs : list Relocation) (image : HostImageInfo) : Res (option string * list Z) :=
  if hi_size image =? 0 then Ok (Some "host image span unknown"%string, code) else apply_relocs image relocs code.

(** ** The move-wide instructions *)

(** What the architecture defines: the new content of the register, [None] for an unallocated encoding. *)
Definition exec_move (insn x : Z) : option Z :=
  let opc := MoveWideOpc insn in
  if negb (IsMoveWide insn) || (opc =? 1) || ((MoveWideSf insn =? 0) && (32 <=? MoveWideShift insn)) then None
  else
    let v := if opc =? 3 then Z.lor (Z.land x (move_keep insn)) (move_field insn)
             else if opc =? 2 then move_field insn else not64 (move_field insn) in
    Some (if MoveWideSf insn =? 0 then Z.land v 0xFFFFFFFF else v).

(** The content of [reg] after [n] instructions from [offset] on, all of which write [reg]. *)
Fixpoint exec_run (code : list Z) (reg offset : Z) (n : nat) (x : Z) : option Z :=
  match n with
  | O => Some x
  | S n' =>
      match ReadInst code offset with
      | Ok insn => if MoveWideRd insn =? reg then y ← exec_move insn x; exec_run code reg (offset + kInstSize) n' y else None
      | Err _ => None
      end
  end.

Lemma land_FFFF x : Z.land x 0xFFFF = x mod 2 ^ 16.
Proof. exact (Z.land_ones x 16 ltac:(done)). Qed.
Lemma land_1F x : Z.land x 0x1F = x mod 32.
Proof. exact (Z.land_ones x 5 ltac:(done)). Qed.
Lemma land_3 x : Z.land x 3 = x mod 4.
Proof. exact (Z.land_ones x 2 ltac:(done)). Qed.
Lemma land_1 x : Z.land x 1 = x mod 2.
Proof. exact (Z.land_ones x 1 ltac:(done)). Qed.

(** A field [n] bits above bit [k]. *)
Lemma land_field k n x : 0 <= k -> 0 <= n -> Z.land x (Z.shiftl (Z.ones n) k) = (x / 2 ^ k) mod 2 ^ n * 2 ^ k.
Proof.
  intros Hk Hn. rewrite <- Z.shiftr_div_pow2, <- Z.land_ones, <- Z.shiftl_mul_pow2 by done.
  apply Z.bits_inj'. intros i Hi. rewrite Z.land_spec, !Z.shiftl_spec by done. destruct (decide (i < k)).
  - by rewrite !(Z.testbit_neg_r _ (i - k)) by lia; rewrite andb_false_r.
  - rewrite Z.land_spec, Z.shiftr_spec by lia. f_equal. f_equal. lia.
Qed.

Definition move_word (sf opc hw imm rd : Z) : Z := sf * 2 ^ 31 + opc * 2 ^ 29 + 0x25 * 2 ^ 23 + hw * 2 ^ 21 + imm * 2 ^ 5 + rd.

Lemma EncodeMoveWide_word sf opc hw imm rd : 0 <= sf < 2 -> 0 <= opc < 4 -> 0 <= hw < 4 -> 0 <= imm < 2 ^ 16 -> 0 <= rd < 32 ->
  EncodeMoveWide sf opc (hw * 16) imm rd = move_word sf opc hw imm rd.
Proof.
  intros Hsf Hopc Hhw Himm Hrd. unfold EncodeMoveWide, move_word. rewrite Z.div_mul by done.
  rewrite land_FFFF, land_1F, !Z.mod_small by lia.
  rewrite !Z.shiftl_mul_pow2 by done. rewrite !wrap_small by lia.
  assert (Hadd : forall w hi lo, 0 <= w -> 0 <= lo < 2 ^ w -> Z.lor (hi * 2 ^ w) lo = hi * 2 ^ w + lo).
  { intros w hi lo Hw Hlo. by rewrite <- lor_shiftl_add, Z.shiftl_mul_pow2. }
  rewrite (Hadd 31 sf (opc * 2 ^ 29)) by lia.
  replace (sf * 2 ^ 31 + opc * 2 ^ 29) with ((sf * 4 + opc) * 2 ^ 29) by lia. rewrite (Hadd 29 _ (0x25 * 2 ^ 23)) by lia.
  replace ((sf * 4 + opc) * 2 ^ 29 + 0x25 * 2 ^ 23) with (((sf * 4 + opc) * 64 + 0x25) * 2 ^ 23) by lia. rewrite (Hadd 23 _ (hw * 2 ^ 21)) by lia.
  replace (((sf * 4 + opc) * 64 + 0x25) * 2 ^ 23 + hw * 2 ^ 21) with ((((sf * 4 + opc) * 64 + 0x25) * 4 + hw) * 2 ^ 21) by lia.
  rewrite (Hadd 21 _ (imm * 2 ^ 5)) by lia.
  replace ((((sf * 4 + opc) * 64 + 0x25) * 4 + hw) * 2 ^ 21 + imm * 2 ^ 5) with (((((sf * 4 + opc) * 64 + 0x25) * 4 + hw) * 2 ^ 16 + imm) * 2 ^ 5) by lia.
  rewrite (Hadd 5 _ rd) by lia. lia.
Qed.

Ltac pow_consts := repeat match goal with
  | |- context [2 ^ Zpos ?p] => let v := eval vm_compute in (2 ^ Zpos p) in change (2 ^ Zpos p) with v
  | H : context [2 ^ Zpos ?p] |- _ => let v := eval vm_compute in (2 ^ Zpos p) in change (2 ^ Zpos p) with v in H
  end.

Section MoveWord.
Context (sf opc hw imm rd : Z) (Hsf : 0 <= sf < 2) (Hopc : 0 <= opc < 4) (Hhw : 0 <= hw < 4) (Himm : 0 <= imm < 2 ^ 16) (Hrd : 0 <= rd < 32).
Let w := move_word sf opc hw imm rd.

Lemma move_word_range : 0 <= w < 2 ^ 32.
Proof. unfold w, move_word. lia. Qed.

Lemma move_word_decoded : IsMoveWide w = true /\ MoveWideOpc w = opc /\ MoveWideSf w = sf /\ MoveWideShift w = hw * 16 /\
  MoveWideImm16 w = imm /\ MoveWideRd w = rd.
Proof.
  unfold IsMoveWide, MoveWideOpc, MoveWideSf, MoveWideShift, MoveWideImm16, MoveWideRd.
  change 0x1F800000 with (Z.shiftl (Z.ones 6) 23). rewrite land_field, !land_1F, !land_FFFF, !land_3, land_1, !Z.shiftr_div_pow2 by done.
  unfold w, move_word. pow_consts. split_and!; [apply Z.eqb_eq|..]; clear w; Z.to_euclidean_division_equations; lia.
Qed.
End MoveWord.

Lemma halfword_range v s : 0 <= halfword v s < 2 ^ 16.
Proof. unfold halfword. rewrite land_FFFF. by apply Z.mod_pos_bound. Qed.

Lemma testbit_halfword v s i : 0 <= s -> 0 <= i -> Z.testbit (halfword v s) i = (i <? 16) && Z.testbit v (16 * s + i).
Proof.
  intros Hs Hi. unfold halfword. rewrite land_FFFF. fold (wrap 16 (Z.shiftr v (16 * s))). rewrite testbit_wrap by lia.
  rewrite Z.shiftr_spec by lia. do 2 f_equal. lia.
Qed.

Lemma testbit_FFFF i : 0 <= i -> Z.testbit 0xFFFF i = (i <? 16).
Proof. intros Hi. change 0xFFFF with (Z.ones 16). apply Z.testbit_ones_nonneg; lia. Qed.

(** The register content with halfword [s] taken from [v]. *)
Definition with_halfword (v s y : Z) : Z :=
  Z.lor (Z.land y (not64 (wrap 64 (Z.shiftl 0xFFFF (s * 16))))) (wrap 64 (Z.shiftl (halfword v s) (s * 16))).

Lemma testbit_field v s i : 0 <= s < 4 -> 0 <= i ->
  Z.testbit (wrap 64 (Z.shiftl (halfword v s) (s * 16))) i = (16 * s <=? i) && (i <? 16 * s + 16) && Z.testbit v i.
Proof.
  intros Hs Hi. rewrite testbit_wrap, Z.shiftl_spec by lia. destruct (Z.leb_spec (16 * s) i).
  - rewrite testbit_halfword by lia. replace (16 * s + (i - s * 16)) with i by lia.
    destruct (Z.ltb_spec i 64), (Z.ltb_spec (i - s * 16) 16), (Z.ltb_spec i (16 * s + 16)); try done; lia.
  - rewrite (Z.testbit_neg_r _ (i - s * 16)) by lia. by rewrite andb_false_r.
Qed.

Lemma testbit_with_halfword v s y i : 0 <= s < 4 -> 0 <= i -> 0 <= y < 2 ^ 64 ->
  Z.testbit (with_halfword v s y) i = if (16 * s <=? i) && (i <? 16 * s + 16) then Z.testbit v i else Z.testbit y i.
Proof.
  intros Hs Hi Hy. unfold with_halfword, not64. rewrite Z.lor_spec, Z.land_spec, testbit_field, testbit_wrap, Z.lnot_spec, testbit_wrap by lia.
  rewrite Z.shiftl_spec by lia. destruct (Z.ltb_spec i 64) as [H64|H64]; simpl.
  - destruct (Z.leb_spec (16 * s) i); simpl.
    + rewrite testbit_FFFF by lia. destruct (Z.ltb_spec (i - s * 16) 16), (Z.ltb_spec i (16 * s + 16)); simpl; try lia; by rewrite ?andb_true_r, ?andb_false_r, ?orb_false_r.
    + rewrite (Z.testbit_neg_r 65535) by lia. by rewrite andb_true_r, orb_false_r.
  - rewrite (testbit_above 64 y i) by lia. destruct (Z.ltb_spec i (16 * s + 16)); [lia|]. by rewrite !andb_false_r.
Qed.

(** The lower [s] halfwords. *)
Definition low (v s : Z) : Z := wrap (16 * s) v.

Lemma low_range v s : 0 <= s <= 4 -> 0 <= low v s < 2 ^ 64.
Proof.
  intros Hs. pose proof (wrap_range (16 * s) v ltac:(lia)). assert (2 ^ (16 * s) <= 2 ^ 64) by (apply Z.pow_le_mono_r; lia). unfold low. lia.
Qed.

Lemma low_all v : 0 <= v < 2 ^ 64 -> low v 4 = v.
Proof. apply wrap_small. Qed.

Lemma bits_eq x y : (forall i, 0 <= i -> Z.testbit x i = Z.testbit y i) -> x = y.
Proof. intros H. by apply Z.bits_inj'. Qed.

Lemma low_next v s : 0 <= s < 4 -> with_halfword v s (low v s) = low v (s + 1).
Proof.
  intros Hs. apply bits_eq. intros i Hi. rewrite testbit_with_halfword by (try apply low_range; lia).
  unfold low. rewrite !testbit_wrap by lia.
  destruct (Z.leb_spec (16 * s) i), (Z.ltb_spec i (16 * s + 16)), (Z.ltb_spec i (16 * s)), (Z.ltb_spec i (16 * (s + 1))); simpl; done || lia.
Qed.

Lemma low_zero_halfword v s : 0 <= s < 4 -> halfword v s = 0 -> low v (s + 1) = low v s.
Proof.
  intros Hs Hz. rewrite <- low_next by done. apply bits_eq. intros i Hi. rewrite testbit_with_halfword by (try apply low_range; lia).
  destruct ((16 * s <=? i) && (i <? 16 * s + 16)) eqn:E; [|done]. pose proof (testbit_field v s i Hs Hi) as Hf. rewrite Hz, E in Hf.
  rewrite Z.shiftl_0_l, wrap_small, Z.bits_0 in Hf by lia. simpl in Hf. rewrite <- Hf. unfold low. rewrite testbit_wrap by lia.
  destruct (Z.ltb_spec i (16 * s)); [lia|done].
Qed.

Lemma same_halfword v s : 0 <= s < 4 -> 0 <= v < 2 ^ 64 -> with_halfword v s v = v.
Proof. intros Hs Hv. apply bits_eq. intros i Hi. rewrite testbit_with_halfword by done. by destruct (_ && _). Qed.

(** The two instructions [ApplyRelocations] writes. *)
Lemma exec_movk v s rd y : 0 <= s < 4 -> 0 <= rd < 31 ->
  exec_move (EncodeMoveWide 1 3 (s * 16) (halfword v s) rd) y = Some (with_halfword v s y).
Proof.
  intros Hs Hrd. pose proof (halfword_range v s). rewrite EncodeMoveWide_word by lia.
  destruct (move_word_decoded 1 3 s (halfword v s) rd) as (E1 & E2 & E3 & E4 & E5 & _); try lia.
  unfold exec_move, move_keep, move_field. by rewrite E1, E2, E3, E4, E5.
Qed.

Lemma exec_movz v s rd y : 0 <= s < 4 -> 0 <= rd < 31 -> low v s = 0 ->
  exec_move (EncodeMoveWide 1 2 (s * 16) (halfword v s) rd) y = Some (low v (s + 1)).
Proof.
  intros Hs Hrd Hl. pose proof (halfword_range v s). rewrite EncodeMoveWide_word by lia.
  destruct (move_word_decoded 1 2 s (halfword v s) rd) as (E1 & E2 & E3 & E4 & E5 & _); try lia.
  unfold exec_move, move_field. rewrite E1, E2, E3, E4, E5. simpl. f_equal. rewrite <- low_next, Hl by done.
  unfold with_halfword. by rewrite Z.land_0_l, Z.lor_0_l.
Qed.

(** ** Instructions in the code *)

Lemma ReadInst_ext code code' o : length code' = length code ->
  (forall j : nat, o <= Z.of_nat j < o + 4 -> code' !! j = code !! j) -> ReadInst code' o = ReadInst code o.
Proof.
  intros Hlen Hj. unfold ReadInst. rewrite Hlen. destruct (_ && _) eqn:E; [|done]. do 2 f_equal. apply list_eq. intros i.
  destruct (decide (i < 4)%nat); [|by rewrite !lookup_take_ge by lia].
  rewrite !lookup_take_lt, !lookup_drop by lia. apply Hj. lia.
Qed.

Lemma ReadInst_range code o : Forall is_byte code -> forall insn, ReadInst code o = Ok insn -> 0 <= insn < 2 ^ 32.
Proof.
  intros Hb insn. unfold ReadInst. destruct (_ && _) eqn:E; [|done]. intros [= <-].
  pose proof (le_value_range (take 4 (drop (Z.to_nat o) code)) ltac:(by apply Forall_take, Forall_drop)) as H.
  rewrite length_take, length_drop, Nat.min_l in H by lia. exact H.
Qed.

Lemma WriteInst_spec code o insn : 0 <= o -> o + 4 <= Z.of_nat (length code) -> 0 <= insn < 2 ^ 32 ->
  exists code', WriteInst o insn code = Ok code' /\ length code' = length code /\ ReadInst code' o = Ok insn /\
    forall j : nat, (Z.of_nat j < o \/ o + 4 <= Z.of_nat j) -> code' !! j = code !! j.
Proof.
  intros Ho Hlen Hi. unfold WriteInst. rewrite (proj2 (andb_true_iff _ _)) by lia. eexists. split; [done|].
  assert (Hl : length (take (Z.to_nat o) code ++ le_bytes 4 insn ++ drop (Z.to_nat o + 4) code) = length code).
  { rewrite !length_app, length_take, length_le_bytes, length_drop. lia. }
  split; [done|]. split.
  - unfold ReadInst. rewrite Hl, (proj2 (andb_true_iff _ _)) by lia.
    rewrite drop_app_length' by (rewrite length_take; lia). rewrite take_app_length' by (by rewrite length_le_bytes).
    rewrite le_value_le_bytes. f_equal. by apply wrap_small.
  - intros j [Hj|Hj].
    + by rewrite lookup_app_l, lookup_take_lt by (rewrite ?length_take; lia).
    + rewrite lookup_app_r by (rewrite length_take; lia). rewrite lookup_app_r by (rewrite length_take, length_le_bytes; lia).
      rewrite lookup_drop, length_take, length_le_bytes. f_equal. lia.
Qed.

Lemma exec_run_ext code code' reg n o x : length code' = length code ->
  (forall j : nat, o <= Z.of_nat j < o + 4 * Z.of_nat n -> code' !! j = code !! j) -> exec_run code' reg o n x = exec_run code reg o n x.
Proof.
  intros Hlen. revert o x. induction n as [|n IH]; intros o x Hj; [done|]. cbn [exec_run].
  rewrite (ReadInst_ext code code') by (done || (intros; apply Hj; lia)). destruct (ReadInst code o) as [insn|]; [|done].
  destruct (_ =? reg); [|done]. destruct (exec_move insn x) as [y|]; [|done]. simpl. apply IH. intros j Hj'. apply Hj. unfold kInstSize in Hj'. lia.
Qed.

Lemma exec_run_snoc code reg n o x : exec_run code reg o (S n) x = y ← exec_run code reg o n x; exec_run code reg (o + 4 * Z.of_nat n) 1 y.
Proof.
  revert o x. induction n as [|n IH]; intros o x; [by rewrite Z.add_0_r|].
  cbn [exec_run] in IH |- *. destruct (ReadInst code o) as [insn|]; [|done]. destruct (_ =? reg); [|done].
  destruct (exec_move insn x) as [y|]; [|done]. cbn [mbind option_bind]. rewrite IH. unfold kInstSize.
  by replace (o + 4 + 4 * Z.of_nat n) with (o + 4 * Z.of_nat (S n)) by lia.
Qed.

(** ** Rewriting a run *)

(** Outside the bytes of the run. *)
Definition outside (r : Relocation) (j : nat) : Prop :=
  Z.of_nat j < r_code_offset r \/ r_code_offset r + 4 * r_inst_count r <= Z.of_nat j.

Definition run_fits (size : Z) (r : Relocation) : Prop :=
  1 <= r_inst_count r <= 4 /\ 0 <= r_reg r < 31 /\ 0 <= r_code_offset r /\ r_code_offset r + 4 * r_inst_count r <= size.

Section Rewrite.
Context (r : Relocation) (code0 : list Z) (v : Z).
Context (Hr : run_fits (Z.of_nat (length code0)) r) (Hv : 0 <= v < 2 ^ 64).

(** The first [k] instructions of the run are written and load [z]; the rest of the code is untouched. *)
Definition run_state (code : list Z) (k z : Z) : Prop :=
  length code = length code0 /\ (forall j, outside r j -> code !! j = code0 !! j) /\ 0 <= k <= r_inst_count r /\
  (0 < k -> forall x, exec_run code (r_reg r) (r_code_offset r) (Z.to_nat k) x = Some z).

Lemma write_next code k z insn z' : run_state code k z -> k < r_inst_count r -> 0 <= insn < 2 ^ 32 -> MoveWideRd insn = r_reg r ->
  (forall y, (0 < k -> y = z) -> exec_move insn y = Some z') ->
  exists code', WriteInst (r_code_offset r + k * kInstSize) insn code = Ok code' /\ run_state code' (k + 1) z'.
Proof using Hr.
  intros (Hlen & Hframe & Hk & Hrun) Hlt Hi Hrd Hexec. destruct Hr as (Hn & Hreg & Ho & Hsize). unfold kInstSize.
  destruct (WriteInst_spec code (r_code_offset r + k * 4) insn) as (code' & Hw & Hlen' & Hread & Hsame); [lia|lia|done|].
  exists code'. split; [done|]. split_and!; [congruence| |lia|lia|].
  - intros j Hj. rewrite Hsame by (unfold outside in Hj; lia). by apply Hframe.
  - intros _ x. replace (Z.to_nat (k + 1)) with (S (Z.to_nat k)) by lia. rewrite exec_run_snoc.
    rewrite (exec_run_ext code code') by (done || (intros; apply Hsame; lia)).
    assert (Hstep : forall y, (0 < k -> y = z) -> exec_run code' (r_reg r) (r_code_offset r + 4 * Z.of_nat (Z.to_nat k)) 1 y = Some z').
    { intros y Hy. cbn [exec_run]. replace (r_code_offset r + 4 * Z.of_nat (Z.to_nat k)) with (r_code_offset r + k * 4) by lia.
      rewrite Hread, Hrd, Z.eqb_refl, (Hexec y Hy). done. }
    destruct (decide (0 < k)) as [Hpos|Hzero].
    + rewrite (Hrun Hpos). simpl mbind. by apply Hstep.
    + replace k with 0 by lia. simpl mbind. replace 0 with k by lia. apply Hstep. lia.
Qed.

Lemma encoded_word opc s half : 2 <= opc < 4 -> 0 <= s < 4 -> 0 <= half < 2 ^ 16 ->
  0 <= EncodeMoveWide 1 opc (s * 16) half (r_reg r) < 2 ^ 32 /\ MoveWideRd (EncodeMoveWide 1 opc (s * 16) half (r_reg r)) = r_reg r.
Proof using Hr.
  intros. destruct Hr as (_ & ? & _). rewrite EncodeMoveWide_word by lia. split; [apply move_word_range; lia|].
  apply (move_word_decoded 1 opc s half (r_reg r)); lia.
Qed.

Lemma emit_spec n s k code : s + Z.of_nat n = 4 -> 0 <= s -> run_state code k (low v s) -> (k = 0 -> low v s = 0) ->
  k + Z.of_nat (length (List.filter (fun s => negb (halfword v s =? 0)) (seqZ s (Z.of_nat n)))) <= r_inst_count r ->
  exists k' code', emit r v (seqZ s (Z.of_nat n)) k code = Ok (k', code') /\ run_state code' k' v /\ (k' = 0 -> v = 0).
Proof using Hr Hv.
  revert s k code. induction n as [|n IH]; intros s k code Hs Hs0 Hst Hz Hcount.
  - replace s with 4 in * by lia. rewrite low_all in * by done. by exists k, code.
  - assert (Hlow : 0 <= s < 4) by lia. rewrite seqZ_cons in Hcount |- * by lia. replace (Z.pred (Z.of_nat (S n))) with (Z.of_nat n) in * by lia.
    replace (Z.succ s) with (s + 1) in * by lia. cbn [emit List.filter] in *.
    destruct (Z.eqb_spec (halfword v s) 0) as [Eh|Eh]; cbn [negb length] in Hcount.
    + rewrite <- (low_zero_halfword v s Hlow Eh) in Hst, Hz. destruct (Z.leb_spec (r_inst_count r) k) as [Hfull|_]; [|by apply IH; lia || done].
      (* every slot is used: the halfwords left are zero *)
      assert (Hrest : forall m t, t + Z.of_nat m = 4 -> 0 <= t -> Z.of_nat (length (List.filter (fun s => negb (halfword v s =? 0)) (seqZ t (Z.of_nat m)))) <= 0 -> low v t = v).
      { clear -Hv. induction m as [|m IHm]; intros t Ht Ht0 Hf; [replace t with 4 by lia; by apply low_all|].
        rewrite seqZ_cons in Hf by lia. replace (Z.pred (Z.of_nat (S m))) with (Z.of_nat m) in Hf by lia. cbn [List.filter] in Hf.
        destruct (Z.eqb_spec (halfword v t) 0) as [E|E]; cbn [negb length] in Hf; [|lia].
        rewrite <- (low_zero_halfword v t) by (done || lia). apply IHm; lia || done. }
      rewrite (Hrest n (s + 1)) in Hst, Hz by lia. exists k, code. split; [done|]. split; [done|]. done.
    + destruct (Z.leb_spec (r_inst_count r) k) as [Hfull|Hroom]; [lia|].
      destruct (encoded_word (if k =? 0 then 2 else 3) s (halfword v s)) as [Hrange Hrd]; [destruct (k =? 0); lia|done|apply halfword_range|].
      destruct Hr as (_ & Hreg & _).
      destruct (write_next code k (low v s) (EncodeMoveWide 1 (if k =? 0 then 2 else 3) (s * 16) (halfword v s) (r_reg r)) (low v (s + 1)) Hst Hroom Hrange Hrd) as (code' & Hw & Hst').
      { intros y Hy. destruct (Z.eqb_spec k 0) as [->|Hk]; [by apply exec_movz, Hz|].
        rewrite exec_movk by done. rewrite Hy by (destruct Hst as (_ & _ & ? & _); lia). by rewrite low_next. }
      rewrite Hw. cbn [rbind]. apply IH; [lia|lia|done|destruct Hst as (_ & _ & ? & _); lia|lia].
Qed.

Lemma pad_spec n k code : k + Z.of_nat n = r_inst_count r -> 0 < k -> run_state code k v ->
  exists code', pad r v n k code = Ok code' /\ run_state code' (r_inst_count r) v.
Proof using Hr Hv.
  revert k code. induction n as [|n IH]; intros k code Hn Hk Hst.
  - replace k with (r_inst_count r) in Hst by lia. by exists code.
  - destruct Hr as (Hcount & Hreg & _).
    destruct (encoded_word 3 k (halfword v k)) as [Hrange Hrd]; [lia|lia|apply halfword_range|].
    destruct (write_next code k v (EncodeMoveWide 1 3 (k * 16) (halfword v k) (r_reg r)) v Hst) as (code' & Hw & Hst'); [lia|exact Hrange|done| |].
    { intros y Hy. rewrite exec_movk, Hy, same_halfword by (done || lia). done. }
    cbn [pad]. rewrite Hw. cbn [rbind]. apply IH; [lia|lia|done].
Qed.

Lemma rewrite_run_spec : Z.max 1 (nonzero_halfwords v) <= r_inst_count r ->
  exists code', rewrite_run r v code0 = Ok code' /\ run_state code' (r_inst_count r) v.
Proof using Hr Hv.
  intros Hcount. assert (Hcount1 := Hr). destruct Hcount1 as (Hc & Hreg & _). unfold rewrite_run, nonzero_halfwords in *.
  destruct (emit_spec 4 0 0 code0) as (k & code & He & Hst & Hz);
    [done|done|split; [done|split; [done|split; [lia|intros; lia]]]|intros _; apply Z.mod_1_r|change (seqZ 0 (Z.of_nat 4)) with [0; 1; 2; 3]; lia|].
  change [0; 1; 2; 3] with (seqZ 0 (Z.of_nat 4)). rewrite He. cbn [rbind fst snd].
  assert (Hk : 0 <= k <= r_inst_count r) by apply Hst.
  destruct (Z.eqb_spec k 0) as [->|Hne].
  - destruct (encoded_word 2 0 0) as [Hrange Hrd]; [lia|lia|lia|].
    destruct (write_next code 0 v (EncodeMoveWide 1 2 (0 * 16) 0 (r_reg r)) v Hst ltac:(lia) Hrange Hrd) as (code' & Hw & Hst').
    { intros y _. rewrite (Hz eq_refl). change 0 with (halfword 0 0) at 2. by rewrite exec_movz by done. }
    replace (r_code_offset r + 0 * kInstSize) with (r_code_offset r) in Hw by lia. change (0 * 16) with 0 in Hw. rewrite Hw. cbn [rbind fst snd].
    apply pad_spec; [lia|lia|done].
  - cbn [rbind fst snd]. apply pad_spec; [lia|lia|done].
Qed.
End Rewrite.

(** ** Applying the relocations *)

Definition target_value (image : HostImageInfo) (r : Relocation) : Z := wrap 64 (hi_base image + r_addend r).

Definition unsigned_fields (r : Relocation) : Prop := 0 <= r_code_offset r /\ 0 <= r_inst_count r /\ 0 <= r_reg r.

Lemma reloc_error_fits size image r : unsigned_fields r -> reloc_error size image r = None -> run_fits size r.
Proof.
  intros (Ho & Hc & Hreg). unfold reloc_error, kInstSize, run_fits. repeat case_match; try done. lia.
Qed.

Lemma observe_total code r n k x : 0 <= r_code_offset r -> 0 <= k -> r_code_offset r + 4 * (k + Z.of_nat n) <= Z.of_nat (length code) ->
  exists o, observe code r n k x = Ok o.
Proof.
  intros Ho. revert k x. induction n as [|n IH]; intros k x Hk Hlen; [by eexists|]. cbn [observe]. unfold kInstSize.
  destruct (ReadInst_in_code code (r_code_offset r + k * 4)) as [insn ->]; [lia..|]. cbn [rbind].
  repeat case_match; try (by eexists); apply IH; lia.
Qed.

(** What rewriting the run of [r] changes. *)
Definition rewritten (image : HostImageInfo) (r : Relocation) (code code' : list Z) : Prop :=
  length code' = length code /\ (forall j, outside r j -> code' !! j = code !! j) /\
  forall x, exec_run code' (r_reg r) (r_code_offset r) (Z.to_nat (r_inst_count r)) x = Some (target_value image r).

Lemma rewrite_rewritten image r code : run_fits (Z.of_nat (length code)) r -> Z.max 1 (nonzero_halfwords (target_value image r)) <= r_inst_count r ->
  exists code', rewrite_run r (target_value image r) code = Ok code' /\ rewritten image r code code'.
Proof.
  intros Hfits Hslots.
  destruct (rewrite_run_spec r code (target_value image r) Hfits ltac:(by apply (wrap_range 64)) Hslots) as (code' & Hw & Hlen & Hframe & _ & Hrun).
  exists code'. split; [done|]. split; [done|]. split; [done|]. apply Hrun. destruct Hfits as (? & _). lia.
Qed.

Lemma apply_reloc_spec image r code : unsigned_fields r ->
  exists a, apply_reloc image r code = Ok a /\ match a with inl _ => True | inr code' => rewritten image r code code' end.
Proof.
  intros Hv. unfold apply_reloc. destruct (reloc_error _ image r) eqn:He; [by eexists|]. apply (reloc_error_fits _ _ _ Hv) in He as Hfits.
  pose proof Hfits as (Hc & Hreg & Ho & Hsize).
  destruct (observe_total code r (Z.to_nat (r_inst_count r)) 0 0) as [o ->]; [done|done|lia|]. cbn [rbind].
  destruct o as [msg|observed]; [by eexists|]. destruct (negb _); [by eexists|]. fold (target_value image r).
  destruct (Z.ltb_spec (r_inst_count r) (Z.max 1 (nonzero_halfwords (target_value image r)))); [by eexists|].
  destruct (rewrite_rewritten image r code) as (code' & -> & Hrw); [done|done|]. by exists (inr code').
Qed.

Definition disjoint_runs (r1 r2 : Relocation) : Prop :=
  r_code_offset r1 + 4 * r_inst_count r1 <= r_code_offset r2 \/ r_code_offset r2 + 4 * r_inst_count r2 <= r_code_offset r1.

Lemma disjoint_outside r1 r2 (j : nat) : disjoint_runs r1 r2 -> ~ outside r1 j -> outside r2 j.
Proof. unfold disjoint_runs, outside. lia. Qed.

Lemma apply_relocs_spec image relocs code : Forall unsigned_fields relocs ->
  exists err code', apply_relocs image relocs code = Ok (err, code') /\ length code' = length code /\
    (forall j, Forall (fun r => outside r j) relocs -> code' !! j = code !! j) /\
    (err = None -> ForallOrdPairs disjoint_runs relocs -> Forall (fun r => forall x,
       exec_run code' (r_reg r) (r_code_offset r) (Z.to_nat (r_inst_count r)) x = Some (target_value image r)) relocs).
Proof.
  intros Hv. revert code. induction Hv as [|r relocs Hr Hv IH]; intros code; cbn [apply_relocs].
  - exists None, code. split_and!; [done|done|done|]. intros _ _. constructor.
  - destruct (apply_reloc_spec image r code Hr) as (a & -> & Ha). cbn [rbind]. destruct a as [msg|code1].
    + by exists (Some msg), code.
    + destruct Ha as (Hlen & Hframe & Hrun). destruct (IH code1) as (err & code' & -> & Hlen' & Hframe' & Hruns). exists err, code'.
      split; [done|]. split; [congruence|]. split.
      * intros j [Hj Hjs]%Forall_cons. rewrite Hframe' by done. by apply Hframe.
      * intros He Hdis. inversion Hdis as [|? ? Hd Hds]; subst. constructor; [|by apply Hruns].
        intros x. rewrite (exec_run_ext code1 code') by (done || (intros j Hj; apply Hframe'; eapply Forall_impl; [exact Hd|];
          intros r' Hr'; eapply disjoint_outside; [exact Hr'|]; unfold outside; destruct Hr as (? & ? & _); lia)).
        apply Hrun.
Qed.

(** (C24) [ApplyRelocations] returns on every list of relocations, keeps the size of the code and changes no byte
    outside the runs. When it succeeds and the runs do not overlap, the rewritten run of each relocation, executed as the
    architecture defines, leaves base of the new image + addend in its register whatever was there before, and
    consists of as many instructions as before, all writing this register. *)
Theorem ApplyRelocations_spec (code : list Z) (relocs : list Relocation) (image : HostImageInfo) :
  Forall reloc_valid relocs ->
  exists err code', ApplyRelocations code relocs image = Ok (err, code') /\ length code' = length code /\
    (forall j, Forall (fun r => outside r j) relocs -> code' !! j = code !! j) /\
    (err = None -> ForallOrdPairs disjoint_runs relocs -> Forall (fun r => forall x,
       exec_run code' (r_reg r) (r_code_offset r) (Z.to_nat (r_inst_count r)) x = Some (wrap 64 (hi_base image + r_addend r))) relocs).
Proof.
  intros Hv. unfold ApplyRelocations. destruct (hi_size image =? 0); [by eexists _, code|]. apply apply_relocs_spec.
  eapply Forall_impl; [exact Hv|]. by intros r ([? _] & [? _] & [? _] & _).
Qed.

(** ** What the scanner records *)

Definition is_move (code : list Z) (reg o : Z) : bool :=
  match ReadInst code o with Ok insn => IsMoveWide insn && (MoveWideRd insn =? reg) | Err _ => false end.

(** The number of moves to [reg] among the [n] instructions from [o] on. *)
Fixpoint moves (code : list Z) (reg o : Z) (n : nat) : Z :=
  match n with O => 0 | S n' => bool_z (is_move code reg o) + moves code reg (o + 4) n' end.

(** The [n] instructions from [o] on are moves to [reg]: a run without gaps. *)
Definition contiguous (code : list Z) (reg o n : Z) : Prop :=
  forall k, 0 <= k < n -> exists insn, ReadInst code (o + 4 * k) = Ok insn /\ IsMoveWide insn = true /\ MoveWideRd insn = reg /\ MoveWideOpc insn <> 1.

(** The check of [ApplyRelocations] finds [v]. *)
Definition observes (code : list Z) (reg o : Z) (n : nat) (v : Z) : Prop :=
  forall r, r_code_offset r = o -> r_reg r = reg -> observe code r n 0 0 = Ok (inr v).

Lemma moves_range code reg o n : 0 <= moves code reg o n <= Z.of_nat n.
Proof. revert o. induction n as [|n IH]; intros o; cbn [moves]; [lia|]. specialize (IH (o + 4)). destruct (is_move _ _ _); simpl; lia. Qed.

Lemma moves_snoc code reg o n : moves code reg o (S n) = moves code reg o n + bool_z (is_move code reg (o + 4 * Z.of_nat n)).
Proof.
  revert o. induction n as [|n IH]; intros o; [cbn [moves]; replace (o + 4 * Z.of_nat 0) with o by lia; lia|].
  change (moves code reg o (S (S n))) with (bool_z (is_move code reg o) + moves code reg (o + 4) (S n)). rewrite IH. cbn [moves].
  replace (o + 4 + 4 * Z.of_nat n) with (o + 4 * Z.of_nat (S n)) by lia. lia.
Qed.

Lemma moves_contiguous code reg o n m : contiguous code reg o (Z.of_nat m) -> (m <= n)%nat -> Z.of_nat m <= moves code reg o n.
Proof.
  revert o n. induction m as [|m IH]; intros o n Hc Hn; [apply moves_range|]. destruct n as [|n]; [lia|]. cbn [moves].
  destruct (Hc 0) as (insn & Hread & Hm & Hrd & _); [lia|]. rewrite Z.add_0_r in Hread.
  assert (is_move code reg o = true) as -> by (unfold is_move; by rewrite Hread, Hm, Hrd, Z.eqb_refl). simpl bool_z.
  assert (Z.of_nat m <= moves code reg (o + 4) n); [|lia]. apply IH; [|lia]. intros k Hk. destruct (Hc (k + 1)) as (i & Hi & ?); [lia|].
  exists i. by replace (o + 4 + 4 * k) with (o + 4 * (k + 1)) by lia.
Qed.

Lemma observe_snoc code r n k x y insn : observe code r n k x = Ok (inr y) -> 1 <= k + Z.of_nat n -> 0 <= k ->
  ReadInst code (r_code_offset r + 4 * (k + Z.of_nat n)) = Ok insn -> IsMoveWide insn = true -> MoveWideRd insn = r_reg r -> MoveWideOpc insn = 3 ->
  observe code r (S n) k x = Ok (inr (Z.lor (Z.land y (move_keep insn)) (move_field insn))).
Proof.
  intros H Hpos. revert k x H Hpos. induction n as [|n IH]; intros k x H Hpos Hk Hread Hm Hrd Hop.
  - cbn [observe] in *. injection H as ->. rewrite Z.add_0_r in Hread. unfold kInstSize. rewrite Z.mul_comm, Hread. cbn [rbind].
    rewrite Hm, Hrd, Z.eqb_refl, Hop. cbn [negb orb]. destruct (Z.eqb_spec k 0); [lia|]. done.
  - change (observe code r (S (S n)) k x) with
      (insn <-? ReadInst code (r_code_offset r + k * kInstSize);
       if negb (IsMoveWide insn) || negb (MoveWideRd insn =? r_reg r) then Ok (inl "relocation site is not a move-wide run"%string)
       else if k =? 0 then
         if (MoveWideOpc insn =? 2) || (MoveWideOpc insn =? 0) then observe code r (S n) (k + 1) (move_start insn)
         else Ok (inl "relocation run does not start with movz/movn"%string)
       else if negb (MoveWideOpc insn =? 3) then Ok (inl "relocation run has a non-movk continuation"%string)
       else observe code r (S n) (k + 1) (Z.lor (Z.land x (move_keep insn)) (move_field insn))).
    cbn [observe] in H. replace (k + Z.of_nat (S n)) with (k + 1 + Z.of_nat n) in Hread by lia.
    destruct (ReadInst code (r_code_offset r + k * kInstSize)) as [i|]; [|done]. cbn [rbind] in *.
    destruct (negb (IsMoveWide i) || _); [done|]. destruct (k =? 0).
    + destruct (_ || _); [|done]. by apply IH; try lia.
    + destruct (negb (MoveWideOpc i =? 3)); [done|]. by apply IH; try lia.
Qed.

Section ScanSound.
Context (code : list Z) (image : HostImageInfo).
Context (Hbytes : Forall is_byte code) (Hsize : Z.of_nat (length code) < 2 ^ 18).

(** A register that is [Known] before the instruction at [off]. *)
Definition entry_ok (off reg : Z) (p : Pending) : Prop :=
  0 <= reg < 31 /\
  (pd_state p = Known -> pd_first_offset p mod 4 = 0 /\ 0 <= pd_first_offset p /\ 1 <= pd_inst_count p /\
    exists m, pd_first_offset p + 4 * Z.of_nat m = off /\ moves code reg (pd_first_offset p) m = pd_inst_count p /\
      (contiguous code reg (pd_first_offset p) (pd_inst_count p) ->
       observes code reg (pd_first_offset p) (Z.to_nat (pd_inst_count p)) (pd_value p))).

Definition candidate_ok (c : Candidate) : Prop :=
  0 <= ca_reg c < 31 /\ ca_first_offset c mod 4 = 0 /\ 0 <= ca_first_offset c < 2 ^ 18 /\ 1 <= ca_inst_count c < 2 ^ 16 /\
  ImageContains image (ca_value c) = true /\
  (contiguous code (ca_reg c) (ca_first_offset c) (ca_inst_count c) ->
   observes code (ca_reg c) (ca_first_offset c) (Z.to_nat (ca_inst_count c)) (ca_value c)).

Definition scan_ok (off : Z) (s : Scan) : Prop :=
  (forall reg p, sn_pending s !! reg = Some p -> entry_ok off reg p) /\ Forall candidate_ok (sn_candidates s).

Lemma entry_step off reg p : entry_ok off reg p -> is_move code reg off = false -> entry_ok (off + 4) reg p.
Proof.
  intros [Hreg Hp] Hm. split; [done|]. intros HK. destruct (Hp HK) as (H1 & H2 & H3 & m & Hoff & Hcount & Hobs).
  split_and!; [done..|]. exists (S m). split; [lia|]. split; [|done]. rewrite moves_snoc, Hoff, Hm. simpl. lia.
Qed.

Lemma entry_candidate off reg p use : entry_ok off reg p -> off < Z.of_nat (length code) -> pd_state p = Known ->
  ImageContains image (pd_value p) = true -> candidate_ok (candidate_of reg p use).
Proof using Hsize.
  intros [Hreg Hp] Hoff HK Hin. destruct (Hp HK) as (H1 & H2 & H3 & m & Hm & Hcount & Hobs).
  pose proof (moves_range code reg (pd_first_offset p) m). split_and!; simpl; try done; lia.
Qed.

(** Entries that are kept or dropped while the instruction moves to none of their registers. *)
Lemma scan_ok_step off s s' : scan_ok off s -> (forall reg, is_move code reg off = false) ->
  (forall reg p, sn_pending s' !! reg = Some p -> sn_pending s !! reg = Some p \/ entry_ok (off + 4) reg p) ->
  Forall candidate_ok (sn_candidates s') -> scan_ok (off + 4) s'.
Proof.
  intros [Hp _] Hm Hsub Hc. split; [|done]. intros reg p H. destruct (Hsub reg p H) as [H'|H']; [|done]. by apply entry_step, Hm; apply Hp.
Qed.

Lemma opaque_ok off reg o : 0 <= reg < 31 -> entry_ok off reg (opaque o).
Proof. intros Hreg. by split. Qed.

Lemma not_move insn off : ReadInst code off = Ok insn -> IsMoveWide insn = false -> forall reg, is_move code reg off = false.
Proof. intros Hr Hm reg. unfold is_move. by rewrite Hr, Hm. Qed.

Lemma move_to insn off reg : ReadInst code off = Ok insn -> IsMoveWide insn = true -> is_move code reg off = (MoveWideRd insn =? reg).
Proof. intros Hr Hm. unfold is_move. by rewrite Hr, Hm. Qed.

Lemma MoveWideRd_range insn : 0 <= MoveWideRd insn < 32.
Proof. unfold MoveWideRd. rewrite land_1F. by apply Z.mod_pos_bound. Qed.

(** MOVZ or MOVN starts a run. *)
Lemma start_ok insn off : ReadInst code off = Ok insn -> IsMoveWide insn = true -> MoveWideRd insn < 31 -> off mod 4 = 0 -> 0 <= off ->
  MoveWideOpc insn <> 3 -> entry_ok (off + 4) (MoveWideRd insn) (mkPending Known (move_start insn) off 1 false).
Proof.
  intros Hr Hm Hrd Hoff Hoff0 Hop. pose proof (MoveWideRd_range insn). split; [lia|]. intros _. simpl. split_and!; [done|done|lia|].
  exists 1%nat. split; [lia|]. split; [cbn [moves]; rewrite (move_to insn), Z.eqb_refl by done; done|]. intros Hc r Ho Hreg.
  change (observe code r 1 0 0 = Ok (inr (move_start insn))). cbn [observe]. rewrite Ho, Hreg. unfold kInstSize. rewrite Z.mul_0_l, Z.add_0_r, Hr. cbn [rbind]. rewrite Hm, Z.eqb_refl. cbn [negb orb Z.eqb].
  destruct (Hc 0) as (i & Hi & _ & _ & Hop1); [lia|]. rewrite Z.add_0_r, Hr in Hi. injection Hi as <-.
  assert (Hrange : 0 <= MoveWideOpc insn < 4) by (unfold MoveWideOpc; rewrite land_3; by apply Z.mod_pos_bound).
  destruct (Z.eqb_spec (MoveWideOpc insn) 2); [done|]. destruct (Z.eqb_spec (MoveWideOpc insn) 0); [done|lia].
Qed.

(** MOVK extends one. *)
Lemma extend_ok insn off p c : ReadInst code off = Ok insn -> IsMoveWide insn = true -> off < Z.of_nat (length code) ->
  MoveWideOpc insn = 3 -> pd_state p = Known -> entry_ok off (MoveWideRd insn) p ->
  entry_ok (off + 4) (MoveWideRd insn) (mkPending Known (Z.lor (Z.land (pd_value p) (move_keep insn)) (move_field insn)) (pd_first_offset p)
    (wrap 32 (pd_inst_count p + 1)) c).
Proof using Hsize.
  intros Hr Hm Hoff Hop HK [Hreg Hp]. destruct (Hp HK) as (H1 & H2 & H3 & m & Ho & Hcount & Hobs).
  pose proof (moves_range code (MoveWideRd insn) (pd_first_offset p) m) as Hmr. split; [done|]. intros _. simpl. rewrite wrap_small by lia.
  split_and!; [done|done|lia|]. exists (S m). split; [lia|].
  assert (Hnext : moves code (MoveWideRd insn) (pd_first_offset p) (S m) = pd_inst_count p + 1).
  { rewrite moves_snoc, Ho, (move_to insn), Z.eqb_refl, Hcount by done. done. }
  split; [done|]. intros Hc r Hro Hrreg.
  assert (Hfull : pd_inst_count p = Z.of_nat m).
  { destruct (decide (pd_inst_count p < Z.of_nat m)) as [Hlt|]; [|lia].
    pose proof (moves_contiguous code (MoveWideRd insn) (pd_first_offset p) m (Z.to_nat (pd_inst_count p + 1)) ltac:(by rewrite Z2Nat.id by lia) ltac:(lia)). lia. }
  replace (Z.to_nat (pd_inst_count p + 1)) with (S (Z.to_nat (pd_inst_count p))) by lia.
  eapply (observe_snoc code r (Z.to_nat (pd_inst_count p)) 0 0 (pd_value p) insn); [|lia|lia| |done|done|done].
  - apply Hobs; [|done|done]. intros k Hk. apply Hc. lia.
  - rewrite Hro, <- Hr. f_equal. lia.
Qed.

Lemma scan_relative_same size off insn s s1 : scan_relative size off insn s = inr s1 ->
  sn_pending s1 = sn_pending s /\ sn_candidates s1 = sn_candidates s.
Proof. unfold scan_relative. intros H. repeat case_match; simplify_eq; done. Qed.

Lemma invalidate_sub reg s r p : sn_pending (invalidate reg s) !! r = Some p -> sn_pending s !! r = Some p.
Proof. unfold invalidate. destruct (reg <? 31); [|done]. simpl. by intros [_ H]%lookup_delete_Some. Qed.

Lemma invalidate_candidates reg s : sn_candidates (invalidate reg s) = sn_candidates s.
Proof. unfold invalidate. by destruct (reg <? 31). Qed.

Lemma scan_move_ok insn off s : scan_ok off s -> ReadInst code off = Ok insn -> IsMoveWide insn = true -> off mod 4 = 0 -> 0 <= off < Z.of_nat (length code) ->
  scan_ok (off + 4) (scan_move_wide off insn s).
Proof using Hsize.
  intros [Hp Hc] Hr Hm Hmod Hoff. pose proof (MoveWideRd_range insn) as Hrd. unfold scan_move_wide.
  assert (Hother : forall reg p, reg <> MoveWideRd insn -> sn_pending s !! reg = Some p -> entry_ok (off + 4) reg p).
  { intros reg p Hne Hl. apply entry_step; [by apply Hp|]. rewrite (move_to insn) by done. lia. }
  destruct (Z.leb_spec 31 (MoveWideRd insn)) as [H31|H31].
  { split; [|done]. intros reg p Hl. apply Hother; [|done]. destruct (Hp reg p Hl). lia. }
  assert (Hset : forall p, entry_ok (off + 4) (MoveWideRd insn) p -> scan_ok (off + 4) (count_materialization (set_reg (MoveWideRd insn) p s))).
  { intros p Hnew. split; [|done]. simpl. intros reg q. rewrite lookup_insert. case_decide as E; [intros [= <-]; by subst reg|]. intros Hl. by apply Hother. }
  destruct (Z.eqb_spec (MoveWideOpc insn) 3) as [Hop|Hop]; [|by apply Hset, start_ok; lia || done].
  destruct (sn_pending s !! MoveWideRd insn) as [p|] eqn:Hl; [|apply Hset, opaque_ok; lia].
  case_bool_decide as HK; [|apply Hset, opaque_ok; lia]. apply Hset, extend_ok; [done|done|lia|done|done|by apply Hp].
Qed.

Lemma scan_branch_ok insn off s s' : scan_ok off s -> ReadInst code off = Ok insn -> IsMoveWide insn = false -> off < Z.of_nat (length code) ->
  scan_branch_register image insn s = inr s' -> scan_ok (off + 4) s'.
Proof using Hsize.
  intros Hs Hr Hm Hoff. unfold scan_branch_register. pose proof (not_move _ _ Hr Hm) as Hno.
  destruct (if BranchRegRn insn <? 31 then _ else None) as [p|] eqn:Hl.
  - destruct (BranchRegRn insn <? 31); [|done]. case_bool_decide as HO; [done|]. destruct (ImageContains image (pd_value p)) eqn:Hin; [|done].
    intros [= <-]. apply (scan_ok_step off s); [done|done| |].
    + simpl. intros reg q [_ H]%lookup_delete_Some. by left.
    + simpl. apply Forall_app. split; [apply Hs|]. constructor; [|done].
      eapply entry_candidate; [by apply Hs|done| |done]. by destruct (pd_state p).
  - intros [= <-]. apply (scan_ok_step off s); [done|done|by left|apply Hs].
Qed.

Lemma scan_load_store_ok insn off s : scan_ok off s -> ReadInst code off = Ok insn -> IsMoveWide insn = false -> off < Z.of_nat (length code) ->
  scan_ok (off + 4) (scan_load_store image insn s).
Proof using Hsize.
  intros Hs Hr Hm Hoff. unfold scan_load_store. pose proof (not_move _ _ Hr Hm) as Hno.
  set (s1 := match (if LoadStoreRn insn <? 31 then _ else None) with Some p => _ | None => s end).
  assert (Hs1 : scan_ok (off + 4) s1).
  { unfold s1. destruct (if LoadStoreRn insn <? 31 then _ else None) as [p|] eqn:Hl; [|by apply (scan_ok_step off s); [..|apply Hs]; auto].
    destruct (LoadStoreRn insn <? 31); [|done]. destruct (_ && negb (pd_consumed p)) eqn:E; [|by apply (scan_ok_step off s); [..|apply Hs]; auto].
    apply andb_true_iff in E as [[HK%bool_decide_eq_true Hin]%andb_true_iff _]. destruct Hs as [Hp Hc]. pose proof (Hp _ _ Hl) as He.
    apply (scan_ok_step off s); [done|done| |].
    - simpl. intros reg q. rewrite lookup_insert. case_decide as Hreg; [|by left]. intros [= <-]. right. subst reg.
      apply entry_step; [|done]. exact He.
    - simpl. apply Forall_app. split; [done|]. constructor; [|done]. by eapply entry_candidate. }
  assert (Hinv : forall reg s2, scan_ok (off + 4) s2 -> scan_ok (off + 4) (invalidate reg s2)).
  { intros reg s2 [Hp Hc]. split; [|by rewrite invalidate_candidates]. intros r p H%invalidate_sub. by apply Hp. }
  destruct (_ =? 0x28000000); by repeat apply Hinv.
Qed.

Lemma scan_inst_ok insn off s s' : scan_ok off s -> ReadInst code off = Ok insn -> off mod 4 = 0 -> 0 <= off < Z.of_nat (length code) ->
  scan_inst image (Z.of_nat (length code)) off insn s = inr s' -> scan_ok (off + 4) s'.
Proof using Hsize.
  intros Hs Hr Hmod Hoff. unfold scan_inst. destruct (_ || _); [done|]. destruct (IsLiteralLoad insn); [done|].
  destruct (scan_relative _ off insn s) as [|s1] eqn:Hrel; [done|]. apply scan_relative_same in Hrel as [E1 E2].
  assert (Hs1 : scan_ok off s1) by (unfold scan_ok; by rewrite E1, E2). clear Hs.
  destruct (IsMoveWide insn) eqn:Hm; [intros [= <-]; by apply scan_move_ok|]. pose proof (not_move _ _ Hr Hm) as Hno.
  destruct (IsOrrImm insn && _).
  { intros [= <-]. apply (scan_ok_step off s1); [done|done| |by destruct (_ <? _); apply Hs1]. simpl. intros reg p.
    destruct (Z.ltb_spec (OrrRd insn) 31); [|by left]. simpl. rewrite lookup_insert. case_decide as E; [|by left]. intros [= <-]. right.
    apply opaque_ok. subst reg. unfold OrrRd. rewrite land_1F. split; [by apply Z.mod_pos_bound|]. unfold OrrRd in *. by rewrite land_1F in *. }
  destruct (IsBrOrBlr insn); [by apply scan_branch_ok; try lia|]. destruct (IsLoadStoreGroup insn); intros [= <-].
  - apply scan_load_store_ok; try done. lia.
  - apply (scan_ok_step off s1); [done|done|intros reg p H%invalidate_sub; by left|rewrite invalidate_candidates; apply Hs1].
Qed.

Lemma scan_loop_ok n off s r : scan_ok off s -> off mod 4 = 0 -> 0 <= off -> off + 4 * Z.of_nat n <= Z.of_nat (length code) ->
  scan_loop image code n off s = Ok r -> match r with inr s' => Forall candidate_ok (sn_candidates s') | inl _ => True end.
Proof using Hsize.
  revert off s. induction n as [|n IH]; intros off s Hs Hmod Hoff Hlen; cbn [scan_loop]; [intros [= <-]; apply Hs|].
  destruct (ReadInst code off) as [insn|] eqn:Hr; [|done]. cbn [rbind].
  destruct (scan_inst image _ off insn s) as [x|s'] eqn:Hi; [by intros [= <-]|]. unfold kInstSize.
  apply IH; [eapply scan_inst_ok; [done|done|done|lia|done]| |lia|lia]. Z.to_euclidean_division_equations. lia.
Qed.
End ScanSound.

(** What is known of a relocation the scanner has recorded. *)
Definition scanned (code : list Z) (image : HostImageInfo) (r : Relocation) : Prop :=
  r_kind r = HostImageAbs64 /\ 0 <= r_reg r < 31 /\ r_code_offset r mod 4 = 0 /\ 0 <= r_code_offset r < 2 ^ 18 /\ 1 <= r_inst_count r < 2 ^ 16 /\
  0 <= r_addend r < hi_size image /\ r_recorded_value r = hi_base image + r_addend r /\
  (contiguous code (r_reg r) (r_code_offset r) (r_inst_count r) ->
   observes code (r_reg r) (r_code_offset r) (Z.to_nat (r_inst_count r)) (r_recorded_value r)).

Definition image_ok (image : HostImageInfo) : Prop := 0 <= hi_base image /\ 0 <= hi_size image /\ hi_base image + hi_size image < 2 ^ 64.

Lemma scan_relocs code image window bls res : Z.of_nat (length code) < 2 ^ 18 -> image_ok image ->
  ScanCodeUnit code image window bls = Ok res -> sr_ok res = true -> Forall (scanned code image) (sr_relocs res) /\ hi_size image <> 0.
Proof.
  intros Hsize (Hbase & Hsz & Htop) H Hok. unfold ScanCodeUnit in H. destruct (_ || _); [by injection H as <-|].
  destruct (Z.eqb_spec (hi_size image) 0) as [|Hne]; [by injection H as <-|]. split; [|done].
  destruct (_ && _); [by injection H as <-|]. destruct (adjacent_find _); [by injection H as <-|]. destruct (existsb _ _); [by injection H as <-|].
  apply rbind_ok in H as (r & Hloop & H). destruct r as [x|s].
  - injection H as <-. exfalso. revert Hloop Hok. clear. generalize (Z.to_nat (Z.of_nat (length code) / kInstSize)) 0 (mkScan ∅ [] (merge_sort Z.le bls) 0).
    intros n. induction n as [|n IH]; intros off s; cbn [scan_loop]; [done|]. destruct (ReadInst code off) as [insn|]; [|done]. cbn [rbind].
    destruct (scan_inst image _ off insn s) as [y|s'] eqn:Hi; [|by apply IH]. intros [= <-]. revert Hi.
    unfold scan_inst, scan_relative, scan_branch_register. repeat case_match; intros; simplify_eq; done.
  - apply (scan_loop_ok code image Hsize) in Hloop; [|split; [intros reg p; simpl; by rewrite lookup_empty|constructor]|done|done|].
    2: { unfold kInstSize. pose proof (Z.mul_div_le (Z.of_nat (length code)) 4 ltac:(lia)). pose proof (Z.div_pos (Z.of_nat (length code)) 4 ltac:(lia) ltac:(lia)). lia. }
    destruct (negb _); [by injection H as <-|]. destruct (unused_constant image s); injection H as <-; [done|]. simpl.
    apply Forall_fmap. eapply Forall_impl; [exact Hloop|]. intros c (H1 & H2 & H3 & H4 & H5 & H6). unfold scanned, reloc_of. simpl.
    unfold ImageContains in H5. rewrite (wrap_small 64 (_ + _)) in H5 by lia. rewrite !wrap_small by lia. split_and!; done || lia.
Qed.

Lemma observe_ext code code' r n k x : length code' = length code -> 0 <= k ->
  (forall j : nat, r_code_offset r + 4 * k <= Z.of_nat j < r_code_offset r + 4 * (k + Z.of_nat n) -> code' !! j = code !! j) ->
  observe code' r n k x = observe code r n k x.
Proof.
  intros Hlen. revert k x. induction n as [|n IH]; intros k x Hk Hj; [done|]. cbn [observe]. unfold kInstSize.
  rewrite (ReadInst_ext code code') by (done || (intros; apply Hj; lia)). destruct (ReadInst code _) as [insn|]; [|done]. cbn [rbind].
  repeat (case_match; try done); apply IH; try lia; intros; apply Hj; lia.
Qed.

(** A relocation that passes every check of [ApplyRelocations]. *)
Definition applicable (image : HostImageInfo) (code : list Z) (r : Relocation) : Prop :=
  run_fits (Z.of_nat (length code)) r /\ reloc_error (Z.of_nat (length code)) image r = None /\
  observe code r (Z.to_nat (r_inst_count r)) 0 0 = Ok (inr (r_recorded_value r)) /\ nonzero_halfwords (target_value image r) <= r_inst_count r.

Lemma apply_relocs_succeeds image code relocs code1 : Forall (applicable image code) relocs -> ForallOrdPairs disjoint_runs relocs ->
  length code1 = length code -> (forall r (j : nat), r ∈ relocs -> ~ outside r j -> code1 !! j = code !! j) ->
  exists code', apply_relocs image relocs code1 = Ok (None, code').
Proof.
  intros Ha Hd. revert code1. induction Hd as [|r relocs Hr Hd IH]; intros code1 Hlen Hsame; cbn [apply_relocs]; [by eexists|].
  apply Forall_cons in Ha as [(Hfits & He & Ho & Hslots) Ha]. pose proof Hfits as (Hc & Hreg & Hoff & Hend).
  unfold apply_reloc. rewrite Hlen, He.
  rewrite (observe_ext code code1), Ho; [|done|done|intros j Hj; apply (Hsame r); [left|unfold outside; lia]]. cbn [rbind].
  rewrite Z.eqb_refl. cbn [negb]. fold (target_value image r).
  destruct (Z.ltb_spec (r_inst_count r) (Z.max 1 (nonzero_halfwords (target_value image r)))) as [|_]; [lia|].
  destruct (rewrite_rewritten image r code1) as (code2 & -> & Hlen2 & Hframe & _); [by rewrite Hlen|lia|]. cbn [rbind].
  apply IH; [done|congruence|]. intros r' j Hr' Hj. rewrite Hframe; [apply (Hsame r'); [by right|done]|].
  rewrite Forall_forall in Hr. apply (disjoint_outside r'); [|done]. specialize (Hr r' Hr'). unfold disjoint_runs in *. lia.
Qed.

Lemma scanned_applicable code image image' r : image_ok image' -> hi_size image' = hi_size image -> scanned code image r ->
  r_inst_count r <= 4 -> contiguous code (r_reg r) (r_code_offset r) (r_inst_count r) ->
  nonzero_halfwords (hi_base image' + r_addend r) <= r_inst_count r ->
  applicable image' code r /\ target_value image' r = hi_base image' + r_addend r.
Proof.
  intros (Hb & Hs & Ht) Hsz (H1 & H2 & H3 & H4 & H5 & H6 & H7 & H8) Hc Hcont Hslots.
  assert (Htv : target_value image' r = hi_base image' + r_addend r) by (apply wrap_small; lia).
  assert (Hend : r_code_offset r + 4 * r_inst_count r <= Z.of_nat (length code)).
  { destruct (Hcont (r_inst_count r - 1)) as (insn & Hr & _); [lia|]. unfold ReadInst in Hr. destruct (_ && _) eqn:E; [|done]. lia. }
  split; [|done]. split_and!; [unfold run_fits; lia| | |by rewrite Htv].
  - unfold reloc_error, kInstSize. rewrite H1, H3. destruct (Z.eqb_spec (r_inst_count r) 0); [lia|]. destruct (Z.ltb_spec 4 (r_inst_count r)); [lia|].
    destruct (Z.leb_spec 31 (r_reg r)); [lia|]. destruct (Z.ltb_spec (Z.of_nat (length code)) (r_code_offset r + r_inst_count r * 4)); [lia|].
    destruct (Z.leb_spec (hi_size image') (r_addend r)); [lia|]. done.
  - by apply H8.
Qed.


(** ** Examples *)

(** MOVZ x0, #0x1000; MOVK x0, #0x40, LSL 16: the address 0x401000; BR x0. *)
Definition load_address : list Z := flat_map U32 [EncodeMoveWide 1 2 0 0x1000 0; EncodeMoveWide 1 3 16 0x40 0].
Definition branch_unit : list Z := load_address ++ U32 0xD61F0000.
Definition image_here : HostImageInfo := mkImage 0x400000 0x10000.
Definition image_there : HostImageInfo := mkImage 0x7A0000 0x10000.
Definition branch_reloc : Relocation := mkReloc 0 2 0 HostImageAbs64 UseBranchTarget 0x1000 0x401000.

Lemma branch_unit_scanned : ScanCodeUnit branch_unit image_here 0 [] = Ok (mkScanResult true "" [branch_reloc] 2).
Proof. by vm_compute. Qed.

Lemma branch_reloc_contiguous : contiguous branch_unit 0 0 2.
Proof.
  intros k Hk. assert (k = 0 \/ k = 1) as [-> | ->] by lia; eexists; (split; [vm_compute; reflexivity|]); by vm_compute.
Qed.

Lemma ApplyRelocations_spec_witness : exists err code', ApplyRelocations branch_unit [branch_reloc] image_there = Ok (err, code') /\
  err = None /\ code' <> branch_unit /\ length code' = length branch_unit.
Proof.
  destruct (ApplyRelocations_spec branch_unit [branch_reloc] image_there) as (err & code' & H & Hlen & _).
  - repeat constructor; by vm_compute.
  - exists err, code'. split; [exact H|]. vm_compute in H. injection H as <- <-. by split_and!.
Defined.


(** A use the scanner does not model is overlooked when the register is written again afterwards: the search for constants
    without a use looks at the registers at the end of the unit only. Here the address is copied (MOV x1, x0), x0 is
    cleared and the unit branches to x1; the unit is accepted without a relocation, so that no
    relocation changes it, and it still loads the address of the old image. *)
Theorem scan_overlooks_copied_address :
  exists code res, code = load_address ++ flat_map U32 [0xAA0003E1; EncodeMoveWide 1 2 0 0 0; 0xD61F0020] /\
    ScanCodeUnit code image_here 0 [] = Ok res /\ sr_ok res = true /\ sr_relocs res = [] /\
    (forall x, exec_run code 0 0 2 x = Some 0x401000) /\ ImageContains image_here 0x401000 = true /\
    (forall image, hi_size image <> 0 -> ApplyRelocations code (sr_relocs res) image = Ok (None, code)).
Proof.
  eexists _, _. split; [reflexivity|]. split; [vm_compute; reflexivity|]. split_and!; try done.
  intros image Hne. unfold ApplyRelocations. destruct (Z.eqb_spec (hi_size image) 0); [done|]. done.
Qed.
