(* ===== verification/FunctionEntry.v ===== *)
(** * The entries of a translated function

    Model of [FunctionEntryContract] (runtime/backend/function_entry_contract.h,
    function_entry_contract.cpp): the host entries of a block of a translated function and what a
    caller must provide to use each, how they are built from the decoded function or restored from a
    serialized one, when they are well formed, and which empty blocks are entered in the canonical
    state only ([AnalyzeCanonicalTerminalEntries]).

    [FunctionEntryGuestStateRequirement] has one enumerator and is left out.  A set of locations is a
    [gset]. *)

From Stdlib Require Import ZArith Lia.
From stdpp Require Import numbers base gmap sets list.
From S2P Require Import Prelude MachineInt Interp Cfg Frontier LinkManager.

Local Open Scope Z_scope.
Local Open Scope svm_scope.

(** ** The contract *)

Definition kInvalidFunctionEntryOffset : Z := 2 ^ 32 - 1.

Inductive FunctionEntryKind :=
| EntryCanonical | EntryDirectLink | EntryPendingFlags | EntryContinuation | EntryPendingFlagsContinuation | EntryInternal.
Inductive FunctionEntryFlagsRequirement := FlagsCanonical | FlagsPending.
Inductive FunctionEntryContinuationRequirement := ContinuationNone | PublishedFrame.
Inductive FunctionEntryOrigin := FunctionRoot | DecodedBlock | AcceptedSplit | RejectedSplit | SerializedCodeObject.

#[export] Instance FunctionEntryKind_eq_dec : EqDecision FunctionEntryKind.
Proof. solve_decision. Defined.
#[export] Instance FunctionEntryFlagsRequirement_eq_dec : EqDecision FunctionEntryFlagsRequirement.
Proof. solve_decision. Defined.
#[export] Instance FunctionEntryContinuationRequirement_eq_dec : EqDecision FunctionEntryContinuationRequirement.
Proof. solve_decision. Defined.
#[export] Instance FunctionEntryOrigin_eq_dec : EqDecision FunctionEntryOrigin.
Proof. solve_decision. Defined.

Record FunctionEntryCodeOffsets := mkOffsets {
  fo_canonical : Z;
  fo_direct_link : Z;
  fo_pending_flags : Z;
  fo_continuation : Z;
  fo_pending_flags_continuation : Z
}.

Record FunctionEntryPointContract := mkEntryPoint {
  ep_kind : FunctionEntryKind;
  ep_flags : FunctionEntryFlagsRequirement;
  ep_continuation : FunctionEntryContinuationRequirement;
  ep_code_offset : Z
}.

Definition Present (e : FunctionEntryPointContract) : bool := negb (ep_code_offset e =? kInvalidFunctionEntryOffset).

Record FunctionEntryContract := mkEntryContract {
  fe_guest : Z;
  fe_guest_end : Z;
  fe_origin : FunctionEntryOrigin;
  fe_canonical : FunctionEntryPointContract;
  fe_direct_link : FunctionEntryPointContract;
  fe_pending_flags : FunctionEntryPointContract;
  fe_continuation : FunctionEntryPointContract;
  fe_pending_flags_continuation : FunctionEntryPointContract;
  fe_dependencies : list (Z * Z);
  fe_provenance : option Provenance;
  fe_pending_flags_contract : EdgeFlagsTargetContract;
  fe_linkable : bool
}.

Definition EntryIsWellFormed (e : FunctionEntryPointContract) (kind : FunctionEntryKind) (flags : FunctionEntryFlagsRequirement)
    (continuation : FunctionEntryContinuationRequirement) (allocation_size : Z) : bool :=
  bool_decide (ep_kind e = kind) && bool_decide (ep_flags e = flags) && bool_decide (ep_continuation e = continuation) &&
  (negb (Present e) || (ep_code_offset e <? allocation_size)).

(** An entry besides the canonical one. *)
Definition has_links (c : FunctionEntryContract) : bool :=
  Present (fe_direct_link c) || Present (fe_pending_flags c) || Present (fe_continuation c) || Present (fe_pending_flags_continuation c).

Definition IsWellFormed (c : FunctionEntryContract) (allocation_size : Z) : bool :=
  negb (fe_guest_end c <? fe_guest c) && Present (fe_canonical c) &&
  EntryIsWellFormed (fe_canonical c) EntryCanonical FlagsCanonical ContinuationNone allocation_size &&
  EntryIsWellFormed (fe_direct_link c) EntryDirectLink FlagsCanonical ContinuationNone allocation_size &&
  EntryIsWellFormed (fe_pending_flags c) EntryPendingFlags FlagsPending ContinuationNone allocation_size &&
  EntryIsWellFormed (fe_continuation c) EntryContinuation FlagsCanonical PublishedFrame allocation_size &&
  EntryIsWellFormed (fe_pending_flags_continuation c) EntryPendingFlagsContinuation FlagsPending PublishedFrame allocation_size &&
  negb ((Present (fe_pending_flags c) || Present (fe_pending_flags_continuation c)) &&
        negb (CanPublishPendingEntry (fe_pending_flags_contract c))) &&
  negb (Present (fe_pending_flags_continuation c) && negb (Present (fe_pending_flags c))) &&
  negb (negb (fe_linkable c) && has_links c) &&
  match fe_origin c, fe_provenance c with
  | AcceptedSplit, Some p => (pv_target p =? fe_guest c) && bool_decide (pv_disposition p = Accepted)
  | RejectedSplit, Some p => (pv_target p =? fe_guest c) && negb (bool_decide (pv_disposition p = Accepted)) && negb (has_links c)
  | AcceptedSplit, None | RejectedSplit, None => false
  | _, o => bool_decide (o = None)
  end.

(** ** Restoring and building *)

Definition Restore (guest guest_end : Z) (offsets : FunctionEntryCodeOffsets) (contract : EdgeFlagsTargetContract) (linkable : bool)
  : FunctionEntryContract :=
  mkEntryContract guest guest_end SerializedCodeObject
    (mkEntryPoint EntryCanonical FlagsCanonical ContinuationNone (fo_canonical offsets))
    (mkEntryPoint EntryDirectLink FlagsCanonical ContinuationNone
       (if fo_direct_link offsets =? fo_canonical offsets then kInvalidFunctionEntryOffset else fo_direct_link offsets))
    (mkEntryPoint EntryPendingFlags FlagsPending ContinuationNone (fo_pending_flags offsets))
    (mkEntryPoint EntryContinuation FlagsCanonical PublishedFrame (fo_continuation offsets))
    (mkEntryPoint EntryPendingFlagsContinuation FlagsPending PublishedFrame (fo_pending_flags_continuation offsets))
    [] None contract linkable.

(** A decoded function with what [Build] reads of it besides its graph: the start of the [ir::Function] and the
    provenance of its entries. *)
Record EntryFunction := mkEntryFunction {
  ef_hir : HIRFunction;
  ef_start : Z;
  ef_provenance : list Provenance
}.

Definition CanonicalTerminalTarget (t : Terminal) : option Z :=
  match t with LinkBlock next | LinkBlockFast next => Some next | _ => None end.

Definition absent (e : FunctionEntryPointContract) : FunctionEntryPointContract :=
  mkEntryPoint (ep_kind e) (ep_flags e) (ep_continuation e) kInvalidFunctionEntryOffset.

(** The assignments that leave only the canonical entry. *)
Definition drop_links (c : FunctionEntryContract) : FunctionEntryContract :=
  mkEntryContract (fe_guest c) (fe_guest_end c) (fe_origin c) (fe_canonical c) (absent (fe_direct_link c))
    (absent (fe_pending_flags c)) (absent (fe_continuation c)) (absent (fe_pending_flags_continuation c))
    (fe_dependencies c) (fe_provenance c) (fe_pending_flags_contract c) false.

Definition set_origin (origin : FunctionEntryOrigin) (provenance : option Provenance) (c : FunctionEntryContract) : FunctionEntryContract :=
  mkEntryContract (fe_guest c) (fe_guest_end c) origin (fe_canonical c) (fe_direct_link c) (fe_pending_flags c)
    (fe_continuation c) (fe_pending_flags_continuation c) (fe_dependencies c) provenance (fe_pending_flags_contract c) (fe_linkable c).

Definition add_dependencies (l : list (Z * Z)) (c : FunctionEntryContract) : FunctionEntryContract :=
  mkEntryContract (fe_guest c) (fe_guest_end c) (fe_origin c) (fe_canonical c) (fe_direct_link c) (fe_pending_flags c)
    (fe_continuation c) (fe_pending_flags_continuation c) (fe_dependencies c ++ l) (fe_provenance c)
    (fe_pending_flags_contract c) (fe_linkable c).

(** [GetInstList().empty() && HasTerminal() && CanonicalTerminalTarget(...)]: the target of a block that only links. *)
Definition link_only (b : Block) : option Z :=
  match b_insts b with
  | [] => if HasTerminal b then CanonicalTerminalTarget (b_terminal b) else None
  | _ => None
  end.

Definition GetEndLocation (x : HIRBlock) : Z := wrap 64 (hb_location x + hb_node_size x).

Definition find_provenance (guest : Z) (l : list Provenance) : option Provenance := List.find (fun p => pv_target p =? guest) l.

(** The origin of the entry, by the provenance of its location. *)
Definition classify (f : EntryFunction) (c : FunctionEntryContract) : FunctionEntryContract :=
  match find_provenance (fe_guest c) (ef_provenance f) with
  | Some p =>
      if bool_decide (pv_disposition p = Accepted) then set_origin AcceptedSplit (Some p) c
      else if negb (bool_decide (pv_rejection p = NoOwner)) then drop_links (set_origin RejectedSplit (Some p) c)
      else c
  | None => if ef_start f =? fe_guest c then set_origin FunctionRoot (fe_provenance c) c else c
  end.

Definition Build (f : EntryFunction) (x : HIRBlock) (offsets : FunctionEntryCodeOffsets) (contract : EdgeFlagsTargetContract)
    (canonical_terminal : bool) : Res FunctionEntryContract :=
  if canonical_terminal && negb (bool_decide (is_Some (link_only (hb_block x)))) then Err EPanic
  else
    let guest := hb_location x in
    let guest_end := if canonical_terminal && (GetEndLocation x <=? guest) then wrap 64 (guest + 1) else GetEndLocation x in
    let c := set_origin DecodedBlock None (Restore guest guest_end offsets contract true) in
    let c := if canonical_terminal then drop_links c else c in
    Ok (classify f (add_dependencies (hb_dependencies x) c)).

(** ** [AnalyzeCanonicalTerminalEntries] *)

(** The blocks of [GetHIRBlocksRPO]. *)
Definition rpo_blocks (f : HIRFunction) : list (nat * HIRBlock) := omap (fun b => pair b <$> hf_blocks f !! b) (hf_rpo f).

Definition block_locations (f : HIRFunction) : gset Z := list_to_set ((fun e => hb_location (snd e)) <$> rpo_blocks f).

Definition canonical_roots (f : EntryFunction) : gset Z :=
  {[ef_start f]} ∪ list_to_set (pv_target <$>
    List.filter (fun p => bool_decide (pv_disposition p = Accepted) && pv_external_root p) (ef_provenance f)).

(** The number of blocks whose call returns to [b]. *)
Definition call_return_owners (f : HIRFunction) (b : nat) : Z :=
  wrap 32 (Z.of_nat (length (List.filter (fun e => bool_decide (hb_call_return (snd e) = Some b)) (rpo_blocks f)))).

(** An empty block that links to a block of the function. *)
Definition has_shape (f : HIRFunction) (x : HIRBlock) : bool :=
  match link_only (hb_block x) with Some t => bool_decide (t ∈ block_locations f) | None => false end.

(** Entered from outside, or as the continuation of one call. *)
Definition entry_root (f : EntryFunction) (e : nat * HIRBlock) : bool :=
  has_shape (ef_hir f) (snd e) &&
  (bool_decide (hb_location (snd e) ∈ canonical_roots f) || (hb_call_return_target (snd e) && (call_return_owners (ef_hir f) (fst e) =? 1))).

(** The location of a predecessor; a null pointer has none. *)
Definition location_of (f : HIRFunction) (b : nat) : option Z := hb_location <$> hf_blocks f !! b.

Definition all_canonical (f : HIRFunction) (entries : gset Z) (preds : list nat) : bool :=
  forallb (fun b => match location_of f b with Some l => bool_decide (l ∈ entries) | None => false end) preds.

(** One block of a round. *)
Definition entries_step (f : HIRFunction) (s : gset Z * bool) (e : nat * HIRBlock) : gset Z * bool :=
  let x := snd e in
  if negb (has_shape f x) then s
  else if bool_decide (hb_location x ∈ fst s) || bool_decide (hb_predecessors x = []) then s
  else if all_canonical f (fst s) (hb_predecessors x) then ({[hb_location x]} ∪ fst s, true) else s.

Definition entry_round (f : HIRFunction) (entries : gset Z) : gset Z * bool := foldl (entries_step f) (entries, false) (rpo_blocks f).

(** [do ... while (changed)]. *)
Fixpoint entry_loop (fuel : nat) (f : HIRFunction) (entries : gset Z) : Res (gset Z) :=
  match fuel with
  | O => Err EFuel
  | S fuel' => let s := entry_round f entries in if snd s : bool then entry_loop fuel' f (fst s) else Ok (fst s)
  end.

Definition root_entries (f : EntryFunction) : gset Z :=
  list_to_set ((fun e => hb_location (snd e)) <$> List.filter (entry_root f) (rpo_blocks (ef_hir f))).

Definition AnalyzeCanonicalTerminalEntries (f : EntryFunction) : Res (gset Z) :=
  entry_loop (S (length (rpo_blocks (ef_hir f)))) (ef_hir f) (root_entries f).

(** ** Well-formed contracts *)

(** The offset of an entry: none, or inside the allocation. *)
Definition offset_ok (offset size : Z) : Prop := offset = kInvalidFunctionEntryOffset \/ offset < size.

(** What the offsets of the entries besides the canonical one must satisfy. *)
Definition links_ok (o : FunctionEntryCodeOffsets) (contract : EdgeFlagsTargetContract) (size : Z) : Prop :=
  (fo_direct_link o = fo_canonical o \/ offset_ok (fo_direct_link o) size) /\
  offset_ok (fo_pending_flags o) size /\ offset_ok (fo_continuation o) size /\ offset_ok (fo_pending_flags_continuation o) size /\
  (fo_pending_flags o <> kInvalidFunctionEntryOffset -> CanPublishPendingEntry contract = true) /\
  (fo_pending_flags_continuation o <> kInvalidFunctionEntryOffset -> fo_pending_flags o <> kInvalidFunctionEntryOffset).

Lemma Present_spec e : Present e = true <-> ep_code_offset e <> kInvalidFunctionEntryOffset.
Proof. unfold Present. destruct (Z.eqb_spec (ep_code_offset e) kInvalidFunctionEntryOffset); naive_solver. Qed.

Lemma entry_wf kind flags cont offset size :
  EntryIsWellFormed (mkEntryPoint kind flags cont offset) kind flags cont size = true <-> offset_ok offset size.
Proof.
  unfold EntryIsWellFormed, offset_ok. simpl. rewrite !bool_decide_true by done. simpl. unfold Present. simpl.
  destruct (Z.eqb_spec offset kInvalidFunctionEntryOffset); simpl; [tauto|]. rewrite Z.ltb_lt. tauto.
Qed.

Lemma invalid_ok size : offset_ok kInvalidFunctionEntryOffset size.
Proof. by left. Qed.

(** The shape of every contract that [Restore] makes, with or without its links. *)
Definition entries_of (o : FunctionEntryCodeOffsets) (linked : bool) (c : FunctionEntryContract) : Prop :=
  let at_ x := if linked then x else kInvalidFunctionEntryOffset in
  fe_canonical c = mkEntryPoint EntryCanonical FlagsCanonical ContinuationNone (fo_canonical o) /\
  fe_direct_link c = mkEntryPoint EntryDirectLink FlagsCanonical ContinuationNone
    (at_ (if fo_direct_link o =? fo_canonical o then kInvalidFunctionEntryOffset else fo_direct_link o)) /\
  fe_pending_flags c = mkEntryPoint EntryPendingFlags FlagsPending ContinuationNone (at_ (fo_pending_flags o)) /\
  fe_continuation c = mkEntryPoint EntryContinuation FlagsCanonical PublishedFrame (at_ (fo_continuation o)) /\
  fe_pending_flags_continuation c =
    mkEntryPoint EntryPendingFlagsContinuation FlagsPending PublishedFrame (at_ (fo_pending_flags_continuation o)).

(** The provenance agrees with the origin. *)
Definition origin_ok (c : FunctionEntryContract) : Prop :=
  match fe_origin c, fe_provenance c with
  | AcceptedSplit, Some p => pv_target p = fe_guest c /\ pv_disposition p = Accepted
  | RejectedSplit, Some p => pv_target p = fe_guest c /\ pv_disposition p <> Accepted /\ has_links c = false
  | AcceptedSplit, None | RejectedSplit, None => False
  | _, o => o = None
  end.

Lemma direct_ok o size :
  offset_ok (if fo_direct_link o =? fo_canonical o then kInvalidFunctionEntryOffset else fo_direct_link o) size <->
  fo_direct_link o = fo_canonical o \/ offset_ok (fo_direct_link o) size.
Proof.
  destruct (Z.eqb_spec (fo_direct_link o) (fo_canonical o)); [|tauto]. split; [by left|intros _; apply invalid_ok].
Qed.

Lemma well_formed_spec o linked c size : entries_of o linked c -> fe_linkable c = linked ->
  IsWellFormed c size = true <->
  fe_guest c <= fe_guest_end c /\ fo_canonical o <> kInvalidFunctionEntryOffset /\ fo_canonical o < size /\
  (linked = true -> links_ok o (fe_pending_flags_contract c) size) /\ origin_ok c.
Proof.
  intros (E1 & E2 & E3 & E4 & E5) Hl. unfold IsWellFormed. rewrite !andb_true_iff, E1, E2, E3, E4, E5, !entry_wf, Present_spec, Hl.
  simpl ep_code_offset.
  assert (Ho : (match fe_origin c, fe_provenance c with
    | AcceptedSplit, Some p => (pv_target p =? fe_guest c) && bool_decide (pv_disposition p = Accepted)
    | RejectedSplit, Some p => (pv_target p =? fe_guest c) && negb (bool_decide (pv_disposition p = Accepted)) && negb (has_links c)
    | AcceptedSplit, None | RejectedSplit, None => false
    | _, q => bool_decide (q = None) end) = true <-> origin_ok c).
  { unfold origin_ok. destruct (fe_origin c), (fe_provenance c); rewrite ?andb_true_iff, ?negb_true_iff, ?bool_decide_eq_true, ?bool_decide_eq_false, ?Z.eqb_eq;
      split; naive_solver. }
  rewrite Ho. clear Ho. unfold has_links. rewrite E2, E3, E4, E5. unfold Present. cbn [ep_code_offset]. unfold links_ok. rewrite <- direct_ok.
  destruct linked; cbn [andb negb].
  - destruct (Z.ltb_spec (fe_guest_end c) (fe_guest c)); cbn [negb]; [split; [intros; exfalso; naive_solver|lia]|].
    destruct (Z.eqb_spec (fo_pending_flags o) kInvalidFunctionEntryOffset) as [Ep|Ep],
      (Z.eqb_spec (fo_pending_flags_continuation o) kInvalidFunctionEntryOffset) as [Ec|Ec],
      (CanPublishPendingEntry (fe_pending_flags_contract c)); cbn [andb orb negb]; unfold offset_ok; naive_solver lia.
  - rewrite Z.eqb_refl. cbn [negb andb orb].
    destruct (Z.ltb_spec (fe_guest_end c) (fe_guest c)); cbn [negb]; [split; [intros; exfalso; naive_solver|lia]|].
    unfold offset_ok. naive_solver lia.
Qed.

(** A location whose split was rejected has a single, canonical entry. *)
Definition split_rejected (f : EntryFunction) (guest : Z) : Prop :=
  exists p, find_provenance guest (ef_provenance f) = Some p /\ pv_disposition p <> Accepted /\ pv_rejection p <> NoOwner.

Lemma find_provenance_target guest l p : find_provenance guest l = Some p -> pv_target p = guest.
Proof. intros [_ H]%List.find_some. lia. Qed.

Lemma drop_links_entries o linked c : entries_of o linked c -> entries_of o false (drop_links c).
Proof. intros (E1 & E2 & E3 & E4 & E5). unfold entries_of, drop_links, absent. simpl. rewrite E2, E3, E4, E5. by split_and!. Qed.

(** [classify] of a contract without provenance. *)
Lemma classify_spec f o linked c : entries_of o linked c -> fe_linkable c = linked -> fe_origin c = DecodedBlock -> fe_provenance c = None ->
  exists linked', entries_of o linked' (classify f c) /\ fe_linkable (classify f c) = linked' /\ origin_ok (classify f c) /\
    fe_guest (classify f c) = fe_guest c /\ fe_guest_end (classify f c) = fe_guest_end c /\
    fe_pending_flags_contract (classify f c) = fe_pending_flags_contract c /\
    (linked' = false <-> linked = false \/ split_rejected f (fe_guest c)).
Proof.
  intros He Hl Hd Hp. unfold classify, split_rejected.
  destruct (find_provenance (fe_guest c) (ef_provenance f)) as [p|] eqn:E.
  - pose proof (find_provenance_target _ _ _ E) as Ht. case_bool_decide as Ha; [|case_bool_decide as Hr]; simpl.
    + exists linked. split_and!; [exact He|done|by split|done|done|done|]. naive_solver.
    + exists linked. split_and!; [exact He|done| |done|done|done|naive_solver]. unfold origin_ok. by rewrite Hd, Hp.
    + exists false. split_and!; [by eapply (drop_links_entries o linked)|done| |done|done|done|naive_solver].
      unfold origin_ok. simpl. split_and!; [done|done|]. done.
  - exists linked. destruct (ef_start f =? fe_guest c); split_and!; try done; try naive_solver; unfold origin_ok; simpl; by rewrite ?Hd, ?Hp.
Qed.

Lemma Restore_entries guest guest_end o k : entries_of o true (Restore guest guest_end o k true).
Proof. by split_and!. Qed.

(** [Build] makes a contract unless it is asked for a canonical terminal entry of a block that does more than link, and
    then its ASSERT fails.  The contract is well formed exactly when the range of the block does not wrap, the canonical
    offset lies in the allocation and, for a block that may be linked to, the other offsets are absent or in the allocation
    and pending-flags entries come with a contract that permits them.  Canonical terminals and blocks whose split was
    rejected can not be linked to, whatever offsets the code generator gives. *)
Theorem Build_well_formed (f : EntryFunction) (x : HIRBlock) (o : FunctionEntryCodeOffsets) (k : EdgeFlagsTargetContract) (terminal : bool) :
  (Build f x o k terminal = Err EPanic <-> terminal = true /\ link_only (hb_block x) = None) /\
  forall c size, Build f x o k terminal = Ok c ->
    fe_guest c = hb_location x /\ (fe_linkable c = false <-> terminal = true \/ split_rejected f (hb_location x)) /\
    (IsWellFormed c size = true <->
       fe_guest c <= fe_guest_end c /\ fo_canonical o <> kInvalidFunctionEntryOffset /\ fo_canonical o < size /\
       (fe_linkable c = true -> links_ok o k size)).
Proof.
  unfold Build. split.
  { destruct terminal; simpl; [|naive_solver]. destruct (link_only (hb_block x)); [|naive_solver].
    rewrite bool_decide_true by eauto. simpl. naive_solver. }
  intros c size. destruct (_ && _); [done|]. intros [= <-].
  set (e := if terminal && _ then _ else _). set (c0 := set_origin DecodedBlock None _).
  destruct (classify_spec f o (negb terminal) (add_dependencies (hb_dependencies x) (if terminal then drop_links c0 else c0)))
    as (linked & He & Hl & Ho & Hg & Hge & Hk & Hiff); [|by destruct terminal..|].
  { assert (H : entries_of o true c0) by apply (Restore_entries (hb_location x) e o k).
    destruct terminal; [by apply (drop_links_entries o true)|exact H]. }
  set (c := classify f _) in *. assert (Hx : fe_guest c = hb_location x) by (rewrite Hg; by destruct terminal).
  split_and!; [exact Hx| |].
  - rewrite Hl, Hiff. replace (fe_guest _) with (hb_location x) by (by destruct terminal). destruct terminal; naive_solver.
  - rewrite (well_formed_spec o linked c size He Hl), Hk. replace (fe_pending_flags_contract _) with k by (by destruct terminal).
    rewrite Hl. tauto.
Qed.

(** ** The canonical entries *)

(** The least set closed under the rules: an empty block that links inside the function is entered in the canonical state only when it is an
    entry of the function or all its predecessors are such blocks. *)
Inductive canonical_entry (f : EntryFunction) : Z -> Prop :=
| canonical_root b x : (b, x) ∈ rpo_blocks (ef_hir f) -> entry_root f (b, x) = true -> canonical_entry f (hb_location x)
| canonical_step b x : (b, x) ∈ rpo_blocks (ef_hir f) -> has_shape (ef_hir f) x = true -> hb_predecessors x <> [] ->
    (forall p, p ∈ hb_predecessors x -> is_Some (location_of (ef_hir f) p)) ->
    (forall p l, p ∈ hb_predecessors x -> location_of (ef_hir f) p = Some l -> canonical_entry f l) -> canonical_entry f (hb_location x).

(** One more step adds nothing. *)
Definition entries_closed (f : HIRFunction) (entries : gset Z) (l : list (nat * HIRBlock)) : Prop :=
  forall e, e ∈ l -> entries_step f (entries, false) e = (entries, false).

Lemma all_canonical_spec f entries preds : all_canonical f entries preds = true <->
  forall p, p ∈ preds -> exists l, location_of f p = Some l /\ l ∈ entries.
Proof.
  unfold all_canonical. rewrite forallb_forall. setoid_rewrite <- list_elem_of_In. split; intros H p Hp; specialize (H p Hp).
  - destruct (location_of f p) as [l|]; [|done]. apply bool_decide_eq_true in H. eauto.
  - destruct H as (l & -> & Hl). by apply bool_decide_eq_true.
Qed.

(** What a round keeps: the set grows, by blocks the rules allow, and does not change when [changed] is false. *)
Record round_inv (f : EntryFunction) (entries : gset Z) (s : gset Z * bool) : Prop := {
  ri_grows : entries ⊆ fst s;
  ri_sound : forall l, l ∈ fst s -> canonical_entry f l;
  ri_same : snd s = false -> fst s = entries;
  ri_more : snd s = true -> (size entries < size (fst s))%nat
}.

Lemma entries_step_inv f entries s e : e ∈ rpo_blocks (ef_hir f) -> round_inv f entries s -> round_inv f entries (entries_step (ef_hir f) s e).
Proof.
  intros He [H1 H2 H3 H4]. unfold entries_step. destruct e as [b x]; simpl. destruct (has_shape (ef_hir f) x) eqn:Hs; simpl; [|by split].
  case_bool_decide as Hin; [by split|]. case_bool_decide as Hp; simpl; [by split|].
  destruct (all_canonical _ _ _) eqn:Ha; [|by split]. split; simpl; [set_solver| |done|].
  - intros l [->%elem_of_singleton|Hl]%elem_of_union; [|by apply H2]. pose proof (proj1 (all_canonical_spec _ _ _) Ha) as Hall.
    eapply canonical_step; [exact He|done|done|..]; intros p; [intros (l & ? & _)%Hall; by exists l|].
    intros l (l' & Hl' & ?)%Hall ?. apply H2. congruence.
  - intros _. rewrite size_union, size_singleton by set_solver. apply subseteq_size in H1. lia.
Qed.

(** [changed] is never reset. *)
Lemma entries_step_changed f s e : snd s = true -> snd (entries_step f s e) = true.
Proof. intros H. unfold entries_step. repeat case_match; done. Qed.

Lemma entry_fold_changed f l s : snd s = true -> snd (foldl (entries_step f) s l) = true.
Proof. revert s. induction l as [|e l IH]; intros s H; [done|]. by apply IH, entries_step_changed. Qed.

Lemma entry_fold_inv f entries l s : (forall e, e ∈ l -> e ∈ rpo_blocks (ef_hir f)) -> round_inv f entries s ->
  round_inv f entries (foldl (entries_step (ef_hir f)) s l).
Proof.
  revert s. induction l as [|e l IH]; intros s Hl Hs; [done|]. apply IH; [set_solver|]. apply entries_step_inv; [set_solver|done].
Qed.

(** A round that changes nothing has found the set closed. *)
Lemma entry_fold_closed f l entries : snd (foldl (entries_step f) (entries, false) l) = false -> entries_closed f entries l.
Proof.
  induction l as [|e l IH]; simpl; intros H e' He'; [by apply not_elem_of_nil in He'|].
  assert (E : entries_step f (entries, false) e = (entries, false)).
  { destruct (entries_step f (entries, false) e) as [s []] eqn:E; [by rewrite entry_fold_changed in H|].
    unfold entries_step in E. simpl in E. repeat case_match; congruence. }
  rewrite E in H. apply elem_of_cons in He' as [->|]; [done|by apply IH].
Qed.

Lemma root_entries_spec f l : l ∈ root_entries f <-> exists b x, (b, x) ∈ rpo_blocks (ef_hir f) /\ entry_root f (b, x) = true /\ hb_location x = l.
Proof.
  unfold root_entries. rewrite elem_of_list_to_set, list_elem_of_fmap. split.
  - intros ([b x] & -> & Hin%list_elem_of_In%List.filter_In). exists b, x. rewrite list_elem_of_In. naive_solver.
  - intros (b & x & Hin & Hr & <-). exists (b, x). split; [done|]. apply list_elem_of_In, List.filter_In. by rewrite <- list_elem_of_In.
Qed.

(** The entries are locations of blocks: there are no more than blocks. *)
Lemma canonical_in_blocks f l : canonical_entry f l -> l ∈ block_locations (ef_hir f).
Proof.
  intros H. unfold block_locations. apply elem_of_list_to_set, list_elem_of_fmap. destruct H as [b x Hin _|b x Hin _ _ _ _]; by exists (b, x).
Qed.

Lemma entries_bound f (entries : gset Z) : (forall l, l ∈ entries -> canonical_entry f l) -> (size entries <= length (rpo_blocks (ef_hir f)))%nat.
Proof.
  intros H. transitivity (size (block_locations (ef_hir f))).
  - apply subseteq_size. intros l Hl. by apply canonical_in_blocks, H.
  - unfold block_locations. generalize (rpo_blocks (ef_hir f)). intros l. induction l as [|e l IH]; cbn [fmap list_fmap list_to_set length]; [by rewrite (size_empty (C := gset Z))|].
    rewrite size_union_alt, size_singleton. assert (size (list_to_set ((fun e => hb_location (snd e)) <$> l) ∖ {[hb_location (snd e)]} : gset Z) <=
      size (list_to_set ((fun e => hb_location (snd e)) <$> l) : gset Z))%nat by (apply subseteq_size; set_solver). lia.
Qed.

Lemma entry_loop_spec f : forall fuel entries, (forall l, l ∈ entries -> canonical_entry f l) ->
  (length (rpo_blocks (ef_hir f)) < fuel + size entries)%nat ->
  exists entries', entry_loop fuel (ef_hir f) entries = Ok entries' /\ entries ⊆ entries' /\ (forall l, l ∈ entries' -> canonical_entry f l) /\
    entries_closed (ef_hir f) entries' (rpo_blocks (ef_hir f)).
Proof.
  induction fuel as [|fuel IH]; intros entries Hs Hf; [pose proof (entries_bound f entries Hs); lia|]. cbn [entry_loop].
  assert (Hi : round_inv f entries (entry_round (ef_hir f) entries)) by (apply entry_fold_inv; [done|by split]).
  destruct Hi as [H1 H2 H3 H4]. destruct (snd (entry_round (ef_hir f) entries)) eqn:Hc.
  - destruct (IH (fst (entry_round (ef_hir f) entries)) H2 ltac:(specialize (H4 eq_refl); lia)) as (entries' & -> & ? & ? & ?).
    exists entries'. split_and!; [done|set_solver|done|done].
  - rewrite H3 by done. exists entries. split_and!; [done|done|done|]. by apply entry_fold_closed.
Qed.

(** (C25) [AnalyzeCanonicalTerminalEntries] returns, after at most one round per block and one more, the least set of locations closed under
    the two rules of [canonical_entry]: blocks that link only and are entry roots, and those whose predecessors are all in
    the set.  [Build] accepts every block at such a location as a canonical terminal when no two blocks share a location. *)
Theorem AnalyzeCanonicalTerminalEntries_spec (f : EntryFunction) :
  exists entries, AnalyzeCanonicalTerminalEntries f = Ok entries /\
    (forall l, l ∈ entries <-> canonical_entry f l) /\
    ((forall b c x y, (b, x) ∈ rpo_blocks (ef_hir f) -> (c, y) ∈ rpo_blocks (ef_hir f) -> hb_location x = hb_location y -> b = c) ->
     forall b x o k, (b, x) ∈ rpo_blocks (ef_hir f) -> hb_location x ∈ entries -> exists c, Build f x o k true = Ok c).
Proof.
  destruct (entry_loop_spec f (S (length (rpo_blocks (ef_hir f)))) (root_entries f)) as (entries & Hrun & Hroots & Hsound & Hclosed).
  { intros l (b & x & Hin & Hr & <-)%root_entries_spec. by eapply canonical_root. }
  { lia. }
  exists entries. split; [exact Hrun|]. split.
  - intros l. split; [apply Hsound|]. induction 1 as [b x Hin Hr|b x Hin Hs Hp Hl _ IH].
    + apply Hroots, root_entries_spec. by exists b, x.
    + specialize (Hclosed _ Hin). unfold entries_step in Hclosed. simpl in Hclosed. rewrite Hs in Hclosed. simpl in Hclosed.
      case_bool_decide as Hd; [done|]. rewrite bool_decide_false in Hclosed by done. simpl in Hclosed.
      rewrite (proj2 (all_canonical_spec _ _ _)) in Hclosed; [done|]. intros p Hpp. destruct (Hl p Hpp) as [l ?]. eauto.
  - intros Hdistinct b x o k Hin Hx. apply Hsound in Hx.
    assert (Hs : has_shape (ef_hir f) x = true).
    { assert (Hsame : forall c y, (c, y) ∈ rpo_blocks (ef_hir f) -> hb_location y = hb_location x -> y = x).
      { intros c y Hy Hl. pose proof (Hdistinct _ _ _ _ Hy Hin Hl) as ->. clear - Hy Hin.
        apply list_elem_of_omap in Hy as (? & _ & (y' & E & [= -> ->])%fmap_Some). apply list_elem_of_omap in Hin as (? & _ & (x' & E' & [= -> ->])%fmap_Some). congruence. }
      remember (hb_location x) as l. destruct Hx as [c y Hy Hr|c y Hy Hr _ _ _]; rewrite <- (Hsame c y Hy) by done; [|done].
      unfold entry_root in Hr. simpl in Hr. by apply andb_true_iff in Hr as [Hr _]. }
    unfold has_shape in Hs. destruct (link_only (hb_block x)) eqn:E; [|done]. unfold Build. rewrite E, bool_decide_true by eauto. simpl. eauto.
Qed.

(** ** An example: an entry that links to a second empty block, and that to code *)

Definition link_block (location next : Z) (preds : list nat) : HIRBlock :=
  mkHIRBlock 0 location 0 (mkBlock [] (LinkBlock next)) 0 [] [] [] preds [] None false.
Definition code_block : HIRBlock := mkHIRBlock 2 0x1020 4 (mkBlock [1%positive] ReturnToHost) 0 [(0x1020, 0x1024)] [] [] [1%nat] [] None false.
Definition link_function : EntryFunction :=
  mkEntryFunction (graph_function [link_block 0x1000 0x1010 []; link_block 0x1010 0x1020 [0%nat]; code_block] None [] [0; 1; 2]%nat)
    0x1000 [set_disposition Accepted RejNone (new_provenance 0x1020 true)].
Definition link_offsets : FunctionEntryCodeOffsets := mkOffsets 0 8 kInvalidFunctionEntryOffset 16 kInvalidFunctionEntryOffset.

Lemma Build_well_formed_witness : exists c,
  Build link_function code_block link_offsets (mkContract 0 0 false false) false = Ok c /\ IsWellFormed c 32 = true /\ IsWellFormed c 16 = false.
Proof.
  destruct (Build_well_formed link_function code_block link_offsets (mkContract 0 0 false false) false) as [_ H].
  eexists. split; [by vm_compute|]. split.
  - apply (H _ 32 eq_refl). unfold links_ok, offset_ok, link_offsets, kInvalidFunctionEntryOffset. simpl.
    split; [by vm_compute|]. split; [lia|]. split; [lia|]. intros _. split_and!; [by right; right|by left|by right|by left|done|done].
  - destruct (IsWellFormed _ 16) eqn:E; [|done]. apply (H _ 16 eq_refl) in E as (_ & _ & _ & E).
    destruct (E eq_refl) as (_ & _ & [H3|H3] & _); vm_compute in H3; done.
Defined.

Lemma AnalyzeCanonicalTerminalEntries_spec_witness : exists entries,
  AnalyzeCanonicalTerminalEntries link_function = Ok entries /\ elements entries = [0x1010; 0x1000] /\ canonical_entry link_function 0x1010 /\
  exists c, Build link_function (link_block 0x1010 0x1020 [0%nat]) link_offsets (mkContract 0 0 false false) true = Ok c.
Proof.
  destruct (AnalyzeCanonicalTerminalEntries_spec link_function) as (entries & Hrun & Hiff & Hbuild). exists entries. split; [exact Hrun|].
  assert (E : entries = match AnalyzeCanonicalTerminalEntries link_function with Ok e => e | Err _ => ∅ end) by by rewrite Hrun.
  split_and!; [rewrite E; by vm_compute|apply Hiff; rewrite E; by vm_compute|]. apply (Hbuild) with (b := 1%nat).
  - change (rpo_blocks (ef_hir link_function)) with [(0%nat, link_block 0x1000 0x1010 []); (1%nat, link_block 0x1010 0x1020 [0%nat]); (2%nat, code_block)].
    intros b c x y Hb%list_elem_of_In Hc%list_elem_of_In Hl.
    destruct Hb as [[= <- <-]|[[= <- <-]|[[= <- <-]|[]]]], Hc as [[= <- <-]|[[= <- <-]|[[= <- <-]|[]]]]; first [reflexivity|discriminate Hl].
  - apply (list_elem_of_lookup_2 _ 1%nat). by vm_compute.
  - rewrite E. by vm_compute.
Defined.
